(* ===== verification/_CoqProject ===== *)
-Q . S2P
Prelude.v
Bytes.v
Crc32c.v
NodeHeader.v
ArrayDirect.v
ArrayBits.v
Node.v
Array.v
ArrayTheorems.v
ArrayDeep.v
Lanes.v
ArrayFind.v
ArrayFindInv.v
ArrayFindRel.v
ArrayFindTheorems.v
ArraySum.v
ArraySumTheorems.v
ArrayLeafs.v
Blobs.v
SmallBlobs.v
BigBlobs.v
PackedBlobs.v
ArrayBinary.v
BlobsInv.v
PackedBlobsInv.v
ArrayBinaryInv.v
ArrayBinaryTheorems.v
StringShort.v
StringData.v
StringDataTheorems.v
ArrayString.v
ArrayStringInv.v
ArrayStringTheorems.v
BPlusTree.v
BPTreeWf.v
BPTreeInsert.v
BPTreeErase.v
BPTreeOps.v
BPTreeBulk.v
BPTreeTheorems.v
FreeList.v
FreeListAlloc.v
FreeListFile.v
FreeListTheorems.v
FileHeader.v
FileCommit.v
VersionList.v
VersionRun.v
VersionInv.v
VersionTheorems.v
WriteGroup.v
SpaceInv.v
WriteGroupInv.v
WriteGroupTheorems.v
Journal.v
Recovery.v
ArrayWriters.v
JournalRun.v
JournalExamples.v
Tx.v
TxTheorems.v
GroupCommit.v
GroupCommitInv.v
GroupCommitRun.v
GroupCommitTheorems.v
AsyncCommit.v
Transaction.v
SlabAlloc.v
SlabBlocks.v
SlabInv.v
SlabOps.v
SlabSteps.v
SlabRun.v
SlabTheorems.v
Base64.v
Identifiers.v
EncryptedFile.v
EncryptedFileInv.v
EncryptedFileCoherence.v
EncryptedFileTheorems.v
