(* ===== verification/Prelude.v ===== *)
(** * llbt: verification of a single-file embedded page store

    llbt keeps a versioned tree of arrays in one file.  A write transaction
    copies the arrays it changes, places them in free space of the file, seals
    the list of them with a checksummed record in a journal, and now and then
    publishes a checkpoint by switching the two top references of the file
    header.  Opening the file starts at the checkpoint and replays the journal.
    This library models the parts that decide whether the data survives, from
    the bits of an array to the recovery of the file.

    ** The program's parts and the files that model them

    (Paths are relative to src/src/llbt.)

    - [Prelude]: machine integers (values of [Z] with every cast written out),
      the [result] type of code that throws or runs out of fuel, list surgery,
      a binary search, tactics and hint databases.
    - [Bytes]: memory as a function from offsets to bytes, little-endian reads
      and writes and their framing laws.
    - [Crc32c] (core/crc32c.cpp): the table, the portable loop and the hardware
      loop.  The two CPU intrinsics are parameters.
    - [NodeHeader] (node_header.hpp): the eight bytes in front of every array.
    - [ArrayDirect], [ArrayBits] (array_direct.hpp, and the bit loops of
      array.cpp): packed elements of 0 to 64 bits, the branch-free searches,
      the word-wise shift that opens a gap.
    - [Node] (node.hpp, node.cpp, alloc.hpp, alloc.cpp): the accessor, its
      growth and copy-on-write over the class [Allocator]; clients rely on the
      laws in [AllocatorSpec], which the instance for [DefaultAllocator]
      discharges.
    - [Array], [ArrayTheorems] (array.hpp, array.cpp): the operations of integer
      arrays and their meaning on the list of elements.  [ArrayDeep]: writing an
      array with everything it refers to; the class [ArrayWriter] is where to
      ([ArrayWriterBase] of impl/array_writer.hpp), and [ArrayWriterSpec] what the
      recursion relies on.
    - [BPlusTree] (bplustree.hpp, bplustree.cpp): trees of leaves and inner
      nodes in compact and general form with the leaf cache.  [BPTreeWf] has the
      invariant, [BPTreeInsert], [BPTreeErase], [BPTreeOps] and
      [BPTreeBulk] the lemmas per operation,
      [BPTreeTheorems] the theorems.
    - [FreeList] (group_writer.cpp, and the position searches of alloc_slab.cpp):
      reading the free lists, allocating, extending the file, writing the lists
      back.  [FreeListAlloc], [FreeListFile] have the lemmas and
      [FreeListTheorems] the theorems.
    - [FileHeader] (alloc_slab.hpp, alloc_slab.cpp, and [GroupCommitter::commit] of
      group_writer.cpp): the file's header and footer, their validation, the
      publication of a commit and the conversion from streaming form, as stores
      and barriers on a disk that can crash between any two of them.
      [FileCommit] has the theorems.
    - [VersionList] (db.cpp, db.hpp): the version list in the lock file, the
      [VersionManager] of each participant with its cache of read locks, and the
      lock bookkeeping of [DB].  [VersionRun] has the session as a step relation
      ([vstep], [vreach]) in which participants interleave between the two halves
      of a request, and the invariant; [VersionInv] shows that each step keeps
      it, [VersionTheorems] has the theorems.
    - [WriteGroup] (group_writer.cpp, group_writer.hpp, and the part of
      [DB::low_level_commit] that tells the writer which versions are
      reachable): [write_group] from reading the free lists to leaving new ones,
      with backdating, evacuation and the cut of the file.  [SpaceInv] says what
      the stamps in the lists mean for the snapshots, [WriteGroupInv] has the
      lemmas on sizes and counts, [WriteGroupTheorems] joins the writer with the
      session.
    - [Tx] (include/llbt/core.hpp and the registry of core/store.cpp): the guards of
      a store transaction, the registry of named roots, the opening of typed
      trees.  [TxTheorems] runs sequences of these operations.
    - [GroupCommit] (core/store.cpp): [Store::write] and [lead_batch] as a
      transition system of threads over the queue, the condition variable and the
      write lock; the engine may throw at any call and a failed commit may or may
      not have published.  [GroupCommitInv] has the invariant and how each
      primitive moves it, [GroupCommitRun] the steps, [GroupCommitTheorems] the
      theorems.
    - [SlabAlloc] (alloc_slab.hpp, alloc_slab.cpp): the memory of new and copied
      arrays, as slabs of blocks between boundary tags with rings of free blocks.
      [SlabBlocks] says which blocks the tags describe and how a split, a merge and a
      new slab change them, [SlabInv] has the rings, [SlabOps] the primitives,
      [SlabSteps] allocation, release and rebuilding, [SlabRun] the released chunks of
      the file and runs of the interface with an arbitrary client,
      [SlabTheorems] the theorems.
    - [Lanes], [ArrayFind] (array_with_find.hpp, array_with_find.cpp,
      query_conditions.hpp, query_state.hpp, utilities.hpp): the searches of
      integer arrays with their word tricks and vectors, which are lists of lanes;
      the vector instructions are operations on lanes as Intel documents them.
      [ArrayFindInv] and [ArrayFindRel] have the lemmas on words, equality and order,
      [ArrayFindTheorems] the theorems; [ArrayLeafs] compares two arrays.  [ArraySum]
      (array.cpp) sums and counts, with [ArraySumTheorems].
    - [Blobs] (array_blob.cpp), [SmallBlobs], [BigBlobs], [PackedBlobs]
      (array_blobs_small, array_blobs_big and array_packed_blobs .hpp and .cpp),
      [ArrayBinary] (array_binary.cpp, column_binary.hpp): binary values in one
      node or several, and the three forms of a leaf.  The integer arrays inside
      are lists, with the operations [ArrayTheorems] shows for them.  The class
      [BlobReader] of [ArrayBinaryInv] states what a form promises to the leaf
      above it and each form is an instance; [BlobsInv] and
      [PackedBlobsInv] have the lemmas per form and [ArrayBinaryTheorems] the theorems.
    - [StringShort] (array_string_short.hpp, .cpp), [ArrayString] (array_string.hpp,
      .cpp): short strings in blocks of one width, and leaves of strings in their
      three forms, with [ArrayStringInv] and [ArrayStringTheorems].  [StringData]
      (string_data.hpp, .cpp): comparison, substring search and LIKE patterns, with
      [StringDataTheorems].
    - [EncryptedFile] (util/encrypted_file_mapping.hpp, .cpp, util/aes_cryptor.hpp):
      the pages and tables of an encrypted file, the cryptor with its caches and
      the mappings of one file with the states of their pages.  [EncryptedFileInv]
      has the layout and what the cryptor reads and writes, [EncryptedFileCoherence]
      the copies of a page in the mappings, [EncryptedFileTheorems] the theorems
      and a concrete cipher on which they are applied.
    - [Base64] (util/base64.hpp, .cpp): encoding and decoding.
    - [Identifiers] (uuid.hpp, .cpp, object_id.cpp, timestamp.hpp): the texts, order
      and generation of identifiers, and timestamps.
    - [AsyncCommit] (db.cpp): the helper thread of asynchronous commits and its
      clients as a transition system ([step]) with its invariant, its termination
      measure and the theorems.
    - [Transaction] (transaction.hpp, .cpp): a transaction with its two stages, the
      write mutex and the read locks it holds, over a state monad with exceptions.
    - [Journal] (core/commit_journal.hpp, .cpp and _format.hpp): records over sixteen chunks of the file,
      append, checkpoint and reset.
    - [Recovery] (core/commit_recovery.cpp): the scan on open and the checks of
      the arrays a record names, with the reads of the top array it uses
      (group.hpp, group.cpp).
    - [ArrayWriters] (group_writer.cpp, impl/output_stream.cpp): the three writers
      of arrays, to free space of the file, to memory and to a stream, as
      instances of these classes, and whole trees written through them.
    - [JournalRun]: the journal as a step relation over the bytes of the file
      ([jreach]), with torn appends.  [JournalExamples]: a concrete file on
      which the journal's theorems are applied.

    ** What the theorems show

    - Checksums: any corruption within four bytes is detected; the two routines
      agree.
    - Arrays: each operation does to the list of elements what its name says,
      for all widths, for read-only and full blocks, and stores only inside the
      block.  A tree of arrays is written whole, with its references replaced, and
      over nothing that is in use.
    - Trees: a tree refines a list under any sequence of operations, keeps its
      invariant, raises no assertion; searches and bulk operations agree with
      the list.
    - Free space: a byte-count argument.  For each byte the number of entries
      that cover it is tracked; allocation hands out bytes counted once and
      withdraws them, reading and writing the lists neither loses nor
      duplicates a byte, and chunks a live version can reach are withheld.
    - File header: a crash during a commit or a conversion leaves a file that
      opens at the old or at the new top array, whatever part of the stores since
      the last barrier survived.
    - Sessions: a lock pins its snapshot through every interleaving; a cleanup
      keeps exactly the snapshots that are needed, and no lock ever reaches
      behind it; requests can always be completed; a crash while a version is
      added is harmless.
    - Snapshot isolation: for any assignment of bytes to snapshots that the free
      lists describe, a commit writes no byte of a snapshot that is locked, and
      leaves lists that describe the snapshots again, so that the argument
      carries over any number of commits.
    - Store: group commit is serializable in the order of the queue, confirms
      exactly what it committed, fails no call for the fault of another, and
      brings every call to an end; a named root is never read as a tree of
      another element type.
    - Slabs: the allocator is a heap of disjoint blocks for any client that stays
      inside its own, fails no assertion and leaves no two free blocks side by side;
      one size that the interface admits gets a block that is too small.
    - Searches and sums: the optimised routines report, sum and count what a loop
      over the elements does, for every width, range, alignment and condition;
      two places where a count or a vector sum differs are shown.
    - Leaves of values: any operations on a leaf act as on a list, through all
      changes of form; iterators read values of any size.  The limits of the forms
      are shown: values that do not fit one node are lost by some operations.
    - Strings: the order is total, the searches agree with their definitions, a
      pattern matches what its stars and question marks stand for unless two
      stars follow each other.
    - Encrypted files: pages and tables do not overlap; a page write is atomic if
      its stores reach the disk in order, and it is shown what is lost if not; the
      mappings of a process that is alone with the file agree on every page over
      any operations, and what is flushed can be read back.  Two places are shown
      where a mapping keeps old contents: a page opened for writing while it has
      unflushed changes, and a page checked twice after a write of another process.
    - Base64: decoding undoes encoding; one padding character too many makes the decoder
      write behind its buffer.
    - Identifiers: printing and parsing are inverse to each other; the order of
      generated identifiers is that of their times, up to a wrap of the sequence
      number, and the order of timestamps that of the times they stand for.
    - Asynchronous commits: the helper thread fails no assertion and the write mutex is with
      one client at a time; where the mutex is confined to threads no client waits
      in vain, and where it is not, two ways to wait forever are shown.
    - Transactions: what is held is what the stages say, over any operations and failures of
      the engine within stated conditions, and closing gives it all back; the
      uses outside of these conditions are shown to fail.
    - Journal: reopening gives back the journal; recovery is total and sound on
      any file; a torn append leaves the old or the new state except for one
      range of torn lengths and one stale-record case, which are shown to be
      refused.

    ** Bounds and fuel

    Loops whose recursion is not structural carry fuel, and each is shown to
    have enough: a scan of the journal runs at most once per smallest record, a
    binary search at most 64 times, a search of the size map at most once per
    entry, and the search for file space at most three times for a request of
    up to half a section (2^25 bytes), which is what [get_free_space_correct]
    assumes; larger requests may need further extensions.  Backdating a chunk takes
    at most one round per reachable version.  [write_group_sound] asks that the
    free lists of the commit fit half a section (about 1.3 million entries).  Arrays hold at most
    2^24 - 2 elements, as in the code.  The node limit of trees is any number
    from 2 on.  Leaves of values are taken to hold at most 262,143 values, which
    keeps the offsets of small blobs below the size of a node, and packed leaves
    at most 2^47 blocks, the room of a location word.  The loop that looks for a
    fresh digest of an encrypted page takes two rounds when pages encrypted with
    different vectors have different digests, which [CipherSpec] asks for; a read
    that competes with other processes makes at most 20 attempts.

    ** What is not modelled

    File and mapping calls, the implementation of threads and locks,
    and logging (operating-system calls); AES and the digests, which are those of
    the system and appear as the class [Cipher]; the vendored json and decimal libraries; debug checks that are
    compiled out of release builds, except where a comment says so.  The
    translation of refs to addresses, the reads of stored leaves that go without an
    accessor, and enumerated strings, which no llbt file contains.  The
    accessors of the top array, the history of transactions, the order of tickets for the write mutex,
    opening and closing of sessions and the C interface. *)

From stdpp Require Export base list numbers option tactics.
From Stdlib Require Export ZArith Lia Bool Btauto.

Declare Scope llbt_scope.
Delimit Scope llbt_scope with llbt.
#[global] Open Scope Z_scope.
#[global] Set Default Goal Selector "1".

(** ** Machine integers

    A [w]-bit unsigned value is a [Z] in [[0, 2^w)]; the casts the C++ code
    writes ([uint32_t(x)], [size_t(x)], [int64_t(x)]) are explicit. *)

Definition u8 (z : Z) : Z := z mod 2 ^ 8.
Definition u16 (z : Z) : Z := z mod 2 ^ 16.
Definition u32 (z : Z) : Z := z mod 2 ^ 32.
Definition u64 (z : Z) : Z := z mod 2 ^ 64.

(** Two's complement reading of the low [w] bits. *)
Definition sext (w z : Z) : Z :=
  let r := z mod 2 ^ w in if r <? 2 ^ (w - 1) then r else r - 2 ^ w.

Definition s64 (z : Z) : Z := sext 64 z.

(** [size_t(-1)], used by the code as "none" / "not found". *)
Definition npos : Z := 2 ^ 64 - 1.

(** ** Results of code that may throw *)

Inductive Exn :=
| InvalidDatabase (msg : nat)
| LengthError
| OutOfRange
| InvalidArgument
| LogicError
| SimulatedFailure
| AssertionFailed
| MaximumFileSizeExceeded
| BadVersion (version : Z)
| OverflowError
| DecryptionFailed
| UserError (n : nat).

Inductive result (A : Type) :=
| Ok (a : A)
| Throw (e : Exn)
| OutOfFuel.
Arguments Ok {A} a.
Arguments Throw {A} e.
Arguments OutOfFuel {A}.

#[export] Instance result_ret : MRet result := fun _ a => Ok a.
#[export] Instance result_bind : MBind result := fun _ _ k r =>
  match r with Ok a => k a | Throw e => Throw e | OutOfFuel => OutOfFuel end.

#[export] Instance Exn_eq_dec : EqDecision Exn.
Proof. solve_decision. Defined.

(** ** Tactics *)

Ltac zdec :=
  match goal with
  | |- context [(?a =? ?b)%Z] => destruct (Z.eqb_spec a b)
  | |- context [(?a <? ?b)%Z] => destruct (Z.ltb_spec a b)
  | |- context [(?a <=? ?b)%Z] => destruct (Z.leb_spec a b)
  | H : context [(?a =? ?b)%Z] |- _ => destruct (Z.eqb_spec a b)
  | H : context [(?a <? ?b)%Z] |- _ => destruct (Z.ltb_spec a b)
  | H : context [(?a <=? ?b)%Z] |- _ => destruct (Z.leb_spec a b)
  end.

Ltac zdecs := repeat (zdec; simpl; try lia).

(** [lia] with quotients and remainders unfolded. *)
Ltac dlia := Z.div_mod_to_equations; lia.

Create HintDb llbt.

(** ** Generic integer lemmas *)

Lemma u64_small z : 0 <= z < 2 ^ 64 -> u64 z = z.
Proof. apply Z.mod_small. Qed.
Lemma u32_small z : 0 <= z < 2 ^ 32 -> u32 z = z.
Proof. apply Z.mod_small. Qed.
Lemma u8_small z : 0 <= z < 2 ^ 8 -> u8 z = z.
Proof. apply Z.mod_small. Qed.
Lemma u64_range z : 0 <= u64 z < 2 ^ 64.
Proof. by apply Z.mod_pos_bound. Qed.
Lemma u32_range z : 0 <= u32 z < 2 ^ 32.
Proof. by apply Z.mod_pos_bound. Qed.
Lemma u8_range z : 0 <= u8 z < 2 ^ 8.
Proof. by apply Z.mod_pos_bound. Qed.

Lemma testbit_mod_pow2 a n i :
  0 <= n -> 0 <= i -> Z.testbit (a mod 2 ^ n) i = (i <? n) && Z.testbit a i.
Proof.
  intros. destruct (Z.ltb_spec i n); simpl.
  - apply Z.mod_pow2_bits_low; lia.
  - apply Z.mod_pow2_bits_high; lia.
Qed.

Lemma testbit_above a n i : 0 <= a < 2 ^ n -> 0 <= n <= i -> Z.testbit a i = false.
Proof. intros. rewrite <- (Z.mod_small a (2 ^ n)) by lia. apply Z.mod_pow2_bits_high; lia. Qed.

Lemma lxor_range a b n : 0 <= n -> 0 <= a < 2 ^ n -> 0 <= b < 2 ^ n -> 0 <= Z.lxor a b < 2 ^ n.
Proof.
  intros Hn Ha Hb.
  assert (Z.lxor a b = Z.lxor a b mod 2 ^ n) as ->.
  { apply Z.bits_inj'; intros i Hi. rewrite testbit_mod_pow2 by lia.
    destruct (Z.ltb_spec i n); simpl; [done|].
    by rewrite Z.lxor_spec, (testbit_above a n), (testbit_above b n) by lia. }
  apply Z.mod_pos_bound. lia.
Qed.

Lemma lor_add a b n : 0 <= n -> 0 <= a < 2 ^ n -> Z.lor a (Z.shiftl b n) = a + b * 2 ^ n.
Proof.
  intros Hn Ha. rewrite <- Z.shiftl_mul_pow2 by lia. rewrite <- Z.lxor_lor.
  1: rewrite Z.add_nocarry_lxor; [reflexivity|].
  all: apply Z.bits_inj'; intros i Hi; rewrite Z.land_spec, Z.bits_0;
    destruct (Z.ltb_spec i n);
    [rewrite (Z.shiftl_spec_low b) by lia; apply andb_false_r
    |rewrite (testbit_above a n) by lia; reflexivity].
Qed.

(** ** Generic list lemmas *)

(** Stated for rewriting: [simpl] would unfold the folded function as well. *)
Lemma fold_left_cons {A B} (f : A -> B -> A) (b : B) (l : list B) (a : A) :
  fold_left f (b :: l) a = fold_left f l (f a b).
Proof. reflexivity. Qed.

Lemma map_nth_seq {A} (l : list A) (d : A) : map (fun k => nth k l d) (seq 0 (length l)) = l.
Proof.
  induction l as [|x l IH]; [done|]. cbn [length seq map nth]. f_equal.
  rewrite <- seq_shift, map_map. exact IH.
Qed.

(** [insert] and [erase] of an array, seen as a list: the specification shared
    by the packed arrays and the B+-tree. *)
Definition list_insert_at {B} (n : nat) (x : B) (l : list B) : list B := take n l ++ x :: drop n l.
Definition list_erase_range {B} (b e : nat) (l : list B) : list B := take b l ++ drop e l.

Lemma length_list_insert_at {B} n (x : B) l : (n <= length l)%nat -> length (list_insert_at n x l) = S (length l).
Proof.
  intros. unfold list_insert_at. rewrite length_app, length_take. cbn [length]. rewrite length_drop. lia.
Qed.

Lemma lookup_list_insert_at {B} n (x : B) l i : (n <= length l)%nat ->
  list_insert_at n x l !! i =
  if (i <? n)%nat then l !! i else if (i =? n)%nat then Some x else l !! (i - 1)%nat.
Proof.
  intros Hn. unfold list_insert_at. destruct (Nat.ltb_spec i n).
  - rewrite lookup_app_l by (rewrite length_take; lia). by rewrite lookup_take_lt.
  - rewrite lookup_app_r by (rewrite length_take; lia). rewrite length_take, Nat.min_l by lia.
    destruct (Nat.eqb_spec i n) as [->|].
    + by rewrite Nat.sub_diag.
    + rewrite lookup_cons_ne_0, lookup_drop by lia. f_equal. lia.
Qed.

Lemma lookup_list_erase_range {B} b e (l : list B) i : (b <= e <= length l)%nat ->
  list_erase_range b e l !! i = if (i <? b)%nat then l !! i else l !! (i + (e - b))%nat.
Proof.
  intros Hb. unfold list_erase_range. destruct (Nat.ltb_spec i b).
  - rewrite lookup_app_l by (rewrite length_take; lia). by rewrite lookup_take_lt.
  - rewrite lookup_app_r by (rewrite length_take; lia). rewrite length_take, lookup_drop. f_equal. lia.
Qed.

Lemma alter_insert {B} (f : B -> B) i x (l : list B) : l !! i = Some x -> alter f i l = <[i := f x]> l.
Proof.
  revert i. induction l as [|y l IH]; intros [|i] H; [done..| |].
  - cbn in H. by injection H as ->.
  - cbn in H. change (y :: alter f i l = y :: <[i := f x]> l). by rewrite IH.
Qed.

(** ** Sums over lists *)

Fixpoint sumf {B} (f : B -> Z) (l : list B) : Z := match l with [] => 0 | a :: l => f a + sumf f l end.

Lemma sumf_app {B} (f : B -> Z) l1 l2 : sumf f (l1 ++ l2) = sumf f l1 + sumf f l2.
Proof. induction l1 as [|a l1 IH]; cbn in *; lia. Qed.
Lemma sumf_cons {B} (f : B -> Z) a l : sumf f (a :: l) = f a + sumf f l.
Proof. done. Qed.

Lemma sumf_insert_at {B} (f : B -> Z) i a l : sumf f (list_insert_at i a l) = f a + sumf f l.
Proof. unfold list_insert_at. rewrite <- (take_drop i l) at 3. rewrite !sumf_app, sumf_cons. lia. Qed.

Lemma sumf_erase {B} (f : B -> Z) i a l : l !! i = Some a -> sumf f (list_erase_range i (S i) l) = sumf f l - f a.
Proof.
  intros Hi. unfold list_erase_range. rewrite <- (take_drop_middle l i a Hi) at 3. rewrite !sumf_app, sumf_cons. lia.
Qed.

Lemma sumf_perm {B} (f : B -> Z) l1 l2 : l1 ≡ₚ l2 -> sumf f l1 = sumf f l2.
Proof. induction 1; cbn in *; lia. Qed.

Lemma sumf_map {B C} (f : C -> Z) (g : B -> C) l : sumf f (map g l) = sumf (fun a => f (g a)) l.
Proof. induction l as [|a l IH]; cbn in *; lia. Qed.

Lemma sumf_nonneg {B} (f : B -> Z) l : (forall a, 0 <= f a) -> 0 <= sumf f l.
Proof. intros Hf. induction l as [|a l IH]; cbn; [done|]. specialize (Hf a). lia. Qed.

Lemma Forall_insert_at {B} (P : B -> Prop) i a l : P a -> Forall P l -> Forall P (list_insert_at i a l).
Proof.
  intros Ha Hl. rewrite <- (take_drop i l) in Hl. apply Forall_app in Hl as [? ?]. apply Forall_app. auto.
Qed.

Lemma Forall_erase {B} (P : B -> Prop) i l : Forall P l -> Forall P (list_erase_range i (S i) l).
Proof. intros Hl. apply Forall_app. split; [by apply Forall_take|by apply Forall_drop]. Qed.

Lemma sumf_ext {B} (f g : B -> Z) l : (forall a, a ∈ l -> f a = g a) -> sumf f l = sumf g l.
Proof.
  induction l as [|a l IH]; intros H; [done|]. rewrite !sumf_cons, IH, (H a); [done|apply list_elem_of_here|].
  intros b Hb. apply H. by apply list_elem_of_further.
Qed.

Lemma sumf_insert {B} (f : B -> Z) i a b l : l !! i = Some a -> sumf f (<[i := b]> l) = sumf f l - f a + f b.
Proof.
  revert i. induction l as [|c l IH]; intros [|i] H; cbn in H; [done|done|injection H as ->|].
  - change (f b + sumf f l = f a + sumf f l - f a + f b). lia.
  - change (f c + sumf f (<[i:=b]> l) = f c + sumf f l - f a + f b). rewrite (IH i H). lia.
Qed.

Lemma sumf_elem {B} (f : B -> Z) a l : (forall b, 0 <= f b) -> a ∈ l -> f a <= sumf f l.
Proof.
  intros Hf Ha. apply list_elem_of_lookup in Ha as [i Hi]. pose proof (sumf_erase f i a l Hi).
  pose proof (sumf_nonneg f (list_erase_range i (S i) l) Hf). lia.
Qed.

Lemma sumf_le {B} (f : B -> Z) c l : (forall b, f b <= c) -> sumf f l <= c * Z.of_nat (length l).
Proof. intros Hf. induction l as [|a l IH]; cbn [sumf length]; [lia|]. specialize (Hf a). lia. Qed.

(** ** Binary search

    The halving loop [while (left < right)] of the code, and of the standard
    library's [lower_bound]/[upper_bound]: [p] holds on a prefix of the range
    and the loop returns its end. *)
Fixpoint bsearch (fuel : nat) (p : nat -> bool) (left right : nat) : nat :=
  match fuel with
  | O => left
  | S fuel =>
      if (left <? right)%nat then
        let mid := (left + (right - left) / 2)%nat in
        if p mid then bsearch fuel p (S mid) right else bsearch fuel p left mid
      else left
  end.

(** [fuel] bounds the number of candidates left, so [right - left] is always
    enough: every round drops at least one. *)
Lemma bsearch_spec (p : nat -> bool) (fuel left right : nat) :
  (forall i j, (i <= j < right)%nat -> p j = true -> p i = true) ->
  (left <= right)%nat -> (right - left <= fuel)%nat ->
  let k := bsearch fuel p left right in
  (left <= k <= right)%nat /\
  (forall i, (left <= i < k)%nat -> p i = true) /\ (forall i, (k <= i < right)%nat -> p i = false).
Proof.
  revert left right. induction fuel as [|fuel IH]; intros left right Hp Hl Hf; cbn [bsearch].
  { repeat split; intros; lia. }
  destruct (Nat.ltb_spec left right); [|repeat split; intros; lia].
  set (mid := (left + (right - left) / 2)%nat).
  assert (Hmid : (left <= mid < right)%nat).
  { unfold mid. pose proof (Nat.div_lt (right - left) 2). lia. }
  destruct (p mid) eqn:Em.
  - edestruct (IH (S mid) right) as (Hk & Ht & Hfl); [done|lia..|].
    split; [lia|]. split; [|done]. intros i Hi. destruct (decide (i <= mid)%nat).
    + apply (Hp i mid); [lia|done].
    + apply Ht. lia.
  - edestruct (IH left mid) as (Hk & Ht & Hfl); [intros; eapply Hp; [|done]; lia|lia..|].
    split; [lia|]. split; [done|]. intros i Hi. destruct (decide (i < mid)%nat).
    + apply Hfl. lia.
    + destruct (p i) eqn:Ei; [|done]. rewrite (Hp mid i) in Em; [done|lia|done].
Qed.
