(* ===== verification/Bytes.v ===== *)
(** * Byte-addressed memory and little-endian integers

    A region of memory is a total function from addresses (or offsets) to
    bytes.  The file image, a heap block and a stack buffer of the C++ code are
    all of this type; [upd] is a byte store and [blit] a [memcpy]/[memmove]
    (the source region is read before anything is written). *)

From S2P Require Import Prelude.

Definition bytes := Z -> Z.

Definition upd (f : bytes) (a v : Z) : bytes := fun x => if x =? a then v else f x.

Definition in_range (a n x : Z) : bool := (a <=? x) && (x <? a + n).

Definition blit (dst : bytes) (d : Z) (src : bytes) (s n : Z) : bytes :=
  fun x => if in_range d n x then src (x - d + s) else dst x.

(** The store loop [for i: out[i] = char(value >> (i * 8))]. *)
Fixpoint put_loop (n : nat) (i : Z) (out : bytes) (a v : Z) : bytes :=
  match n with
  | O => out
  | S n' => put_loop n' (i + 1) (upd out (a + i) (u8 (Z.shiftr v (i * 8)))) a v
  end.

(** The load loop [for i: value |= T(uint8_t(in[i])) << (i * 8)]. *)
Fixpoint get_loop (n : nat) (i : Z) (inp : bytes) (a v : Z) : Z :=
  match n with
  | O => v
  | S n' => get_loop n' (i + 1) inp a (Z.lor v (Z.shiftl (u8 (inp (a + i))) (i * 8)))
  end.

(** The bytes [f a .. f (a + n - 1)] as a list. *)
Definition slice (f : bytes) (a n : Z) : list Z := map (fun k => f (a + Z.of_nat k)) (seq 0 (Z.to_nat n)).

(** Mathematical value of [n] little-endian bytes. *)
Fixpoint le_val (n : nat) (f : bytes) (a : Z) : Z :=
  match n with
  | O => 0
  | S n' => u8 (f a) + 2 ^ 8 * le_val n' f (a + 1)
  end.

Lemma in_range_spec a n x : BoolSpec (a <= x < a + n) (~ a <= x < a + n) (in_range a n x).
Proof.
  unfold in_range. destruct (Z.leb_spec a x), (Z.ltb_spec x (a + n)); constructor; lia.
Qed.

Ltac rdec :=
  match goal with
  | |- context [in_range ?a ?n ?x] => destruct (in_range_spec a n x)
  | H : context [in_range ?a ?n ?x] |- _ => destruct (in_range_spec a n x)
  end.

Lemma upd_eq f a v : upd f a v a = v.
Proof. unfold upd. by rewrite Z.eqb_refl. Qed.
Lemma upd_ne f a v x : x <> a -> upd f a v x = f x.
Proof. unfold upd. intros. zdecs; done. Qed.

Ltac upd_simp := repeat first [rewrite upd_eq | rewrite upd_ne by lia].

Lemma put_loop_at n i out a v x :
  put_loop n i out a v x =
  if in_range (a + i) (Z.of_nat n) x then u8 (Z.shiftr v ((x - a) * 8)) else out x.
Proof.
  revert i out. induction n as [|n IH]; intros i out; cbn [put_loop].
  - rdec; [lia|done].
  - rewrite IH. unfold upd.
    destruct (Z.eqb_spec x (a + i)) as [->|Hne].
    + replace (a + i - a) with i by lia. repeat rdec; (done || lia).
    + repeat rdec; (done || lia).
Qed.

Lemma le_val_range n f a : 0 <= le_val n f a < 2 ^ (8 * Z.of_nat n).
Proof.
  revert a. induction n as [|n IH]; intros a; cbn [le_val].
  - simpl; lia.
  - pose proof (u8_range (f a)). specialize (IH (a + 1)).
    replace (8 * Z.of_nat (S n)) with (8 + 8 * Z.of_nat n) by lia.
    rewrite Z.pow_add_r by lia. nia.
Qed.

Lemma get_loop_val n i inp a v :
  0 <= i -> 0 <= v < 2 ^ (i * 8) ->
  get_loop n i inp a v = v + 2 ^ (i * 8) * le_val n inp (a + i).
Proof.
  revert i v. induction n as [|n IH]; intros i v Hi Hv; cbn [get_loop le_val]; [lia|].
  pose proof (u8_range (inp (a + i))).
  rewrite lor_add by lia.
  rewrite IH.
  - replace ((i + 1) * 8) with (i * 8 + 8) by lia. rewrite Z.pow_add_r by lia.
    replace (a + (i + 1)) with (a + i + 1) by lia. ring.
  - lia.
  - replace ((i + 1) * 8) with (i * 8 + 8) by lia. rewrite Z.pow_add_r by lia. nia.
Qed.

Lemma le_val_ext n f g a b :
  (forall k, 0 <= k < Z.of_nat n -> u8 (f (a + k)) = u8 (g (b + k))) ->
  le_val n f a = le_val n g b.
Proof.
  revert a b. induction n as [|n IH]; intros a b H; cbn [le_val]; [done|].
  rewrite (IH (a + 1) (b + 1)).
  - specialize (H 0 ltac:(lia)). rewrite !Z.add_0_r in H. by rewrite H.
  - intros k Hk. specialize (H (k + 1) ltac:(lia)).
    by replace (a + 1 + k) with (a + (k + 1)) by lia; replace (b + 1 + k) with (b + (k + 1)) by lia.
Qed.

Lemma le_val_inj n f g a b :
  le_val n f a = le_val n g b ->
  forall k, 0 <= k < Z.of_nat n -> u8 (f (a + k)) = u8 (g (b + k)).
Proof.
  revert a b. induction n as [|n IH]; intros a b H k Hk; [lia|]. cbn [le_val] in H.
  pose proof (u8_range (f a)). pose proof (u8_range (g b)).
  assert (u8 (f a) = u8 (g b) /\ le_val n f (a + 1) = le_val n g (b + 1)) as [Hb Ht] by lia.
  destruct (Z.eq_dec k 0) as [->|Hk0].
  - by rewrite !Z.add_0_r.
  - specialize (IH _ _ Ht (k - 1) ltac:(lia)).
    by replace (a + 1 + (k - 1)) with (a + k) in IH by lia;
       replace (b + 1 + (k - 1)) with (b + k) in IH by lia.
Qed.

Lemma u8_u8 z : u8 (u8 z) = u8 z.
Proof. apply u8_small, u8_range. Qed.

(** Bytes that spell [v] read back as [v], truncated. *)
Lemma le_val_spell n f a v :
  (forall k, 0 <= k < Z.of_nat n -> u8 (f (a + k)) = u8 (Z.shiftr v (k * 8))) ->
  le_val n f a = v mod 2 ^ (8 * Z.of_nat n).
Proof.
  revert a v. induction n as [|n IH]; intros a v H; cbn [le_val].
  - by rewrite Z.mod_1_r.
  - rewrite (IH (a + 1) (Z.shiftr v 8)).
    + specialize (H 0 ltac:(lia)). rewrite Z.add_0_r, Z.shiftr_0_r in H. rewrite H.
      unfold u8. replace (8 * Z.of_nat (S n)) with (8 + 8 * Z.of_nat n) by lia.
      rewrite Z.pow_add_r by lia. rewrite Z.rem_mul_r by lia.
      by rewrite Z.shiftr_div_pow2 by lia.
    + intros k Hk. specialize (H (k + 1) ltac:(lia)).
      replace (a + 1 + k) with (a + (k + 1)) by lia. rewrite H.
      rewrite Z.shiftr_shiftr by lia. f_equal. f_equal. lia.
Qed.

(** Byte [k] of a little-endian value. *)
Lemma le_val_byte n f a k :
  0 <= k < Z.of_nat n -> u8 (Z.shiftr (le_val n f a) (k * 8)) = u8 (f (a + k)).
Proof.
  revert a k. induction n as [|n IH]; intros a k Hk; [lia|]. cbn [le_val].
  pose proof (u8_range (f a)). destruct (Z.eq_dec k 0) as [->|Hk0].
  - rewrite Z.shiftr_0_r, Z.add_0_r. unfold u8 at 1.
    rewrite (Z.mul_comm (2 ^ 8)), Z.mod_add by lia. apply u8_u8.
  - replace (k * 8) with (8 + (k - 1) * 8) by lia. rewrite <- Z.shiftr_shiftr by lia.
    rewrite (Z.shiftr_div_pow2 _ 8) by lia.
    rewrite (Z.mul_comm (2 ^ 8)), Z.div_add, Z.div_small by lia.
    rewrite Z.add_0_l, IH by lia. do 2 f_equal. lia.
Qed.

Lemma le_val_put n out a v :
  le_val n (put_loop n 0 out a v) a = v mod 2 ^ (8 * Z.of_nat n).
Proof.
  apply le_val_spell. intros k Hk. rewrite put_loop_at.
  rdec; [|lia]. rewrite u8_u8. do 2 f_equal. lia.
Qed.

Lemma le_val_put_ne n m out a b v :
  a + Z.of_nat n <= b \/ b + Z.of_nat m <= a ->
  le_val n (put_loop m 0 out b v) a = le_val n out a.
Proof.
  intros H. apply le_val_ext. intros k Hk. rewrite put_loop_at. rdec; [lia|done].
Qed.

(** All bytes are byte values; the C++ [char] arrays have no other. *)
Definition is_bytes (f : bytes) : Prop := forall x, 0 <= f x < 2 ^ 8.

Lemma is_bytes_put n i out a v : is_bytes out -> is_bytes (put_loop n i out a v).
Proof. intros H x. rewrite put_loop_at. rdec; [apply u8_range|apply H]. Qed.

Lemma is_bytes_upd out a v : is_bytes out -> 0 <= v < 2 ^ 8 -> is_bytes (upd out a v).
Proof. intros H Hv x. unfold upd. zdec; [lia|apply H]. Qed.

Lemma is_bytes_blit dst d src s n : is_bytes dst -> is_bytes src -> is_bytes (blit dst d src s n).
Proof. intros H1 H2 x. unfold blit. rdec; [apply H2|apply H1]. Qed.

#[export] Hint Resolve is_bytes_put is_bytes_upd is_bytes_blit : llbt.

Lemma length_slice f a n : length (slice f a n) = Z.to_nat n.
Proof. unfold slice. by rewrite length_map, length_seq. Qed.

Lemma nth_slice m a n i : (i < Z.to_nat n)%nat -> nth i (slice m a n) 0 = m (a + Z.of_nat i).
Proof.
  intros Hi. unfold slice. rewrite (nth_indep _ 0 (m (a + Z.of_nat 0))) by (rewrite length_map, length_seq; lia).
  rewrite (map_nth (fun k => m (a + Z.of_nat k))). by rewrite seq_nth.
Qed.

Lemma slice_ext f g a b n :
  (forall k, 0 <= k < n -> f (a + k) = g (b + k)) -> slice f a n = slice g b n.
Proof.
  intros H. unfold slice. apply map_ext_in. intros k Hk%in_seq. apply H. lia.
Qed.

Lemma slice_nil f a : slice f a 0 = [].
Proof. done. Qed.

Lemma slice_app f a n m : 0 <= n -> 0 <= m -> slice f a (n + m) = slice f a n ++ slice f (a + n) m.
Proof.
  intros. unfold slice. rewrite Z2Nat.inj_add, seq_app, map_app by lia. f_equal.
  rewrite <- (Nat.add_0_r (0 + Z.to_nat n)). generalize 0%nat at 2 3 as j.
  induction (Z.to_nat m) as [|k IH]; intros j; cbn [seq map]; [done|].
  f_equal; [f_equal; lia|]. rewrite <- Nat.add_succ_r. apply IH.
Qed.

Lemma le_val_mono n f g a b :
  (forall k, 0 <= k < Z.of_nat n -> u8 (f (a + k)) <= u8 (g (b + k))) -> le_val n f a <= le_val n g b.
Proof.
  revert a b. induction n as [|n IH]; intros a b H; cbn [le_val]; [done|].
  pose proof (H 0 ltac:(lia)) as H0. rewrite !Z.add_0_r in H0.
  assert (le_val n f (a + 1) <= le_val n g (b + 1)); [|lia]. apply IH. intros k Hk.
  replace (a + 1 + k) with (a + (k + 1)) by lia. replace (b + 1 + k) with (b + (k + 1)) by lia. apply H. lia.
Qed.

Lemma le_val_zero n f a : (forall k, 0 <= k < Z.of_nat n -> f (a + k) = 0) -> le_val n f a = 0.
Proof.
  intros H. rewrite (le_val_ext n f (fun _ => 0) a 0) by (intros k Hk; by rewrite H).
  clear H. generalize 0 at 2 as b. induction n as [|n IH]; intros b; cbn [le_val]; [done|]. rewrite IH. done.
Qed.
