(* ===== verification/Crc32c.v ===== *)
(** * CRC32C (src/llbt/core/crc32c.cpp)

    The table [g_table] is generated by the program's own [make_table] loop;
    [compute] is the portable table-driven routine and [compute_sse42] the
    word-at-a-time hardware routine, over parameters for the two intrinsics.
    [crc_byte] is the bitwise reference the routines are compared with. *)

From S2P Require Import Prelude Bytes.

Definition poly : Z := 0x82f63b78.

(** [crc = (crc >> 1) ^ (0x82f63b78u & (0u - (crc & 1u)))] *)
Definition crc_bit (crc : Z) : Z :=
  Z.lxor (Z.shiftr crc 1) (Z.land poly (u32 (0 - Z.land crc 1))).

Fixpoint crc_bits (n : nat) (crc : Z) : Z :=
  match n with O => crc | S n' => crc_bits n' (crc_bit crc) end.

Definition make_table : list Z := map (fun i => crc_bits 8 (Z.of_nat i)) (seq 0 256).

Definition g_table : list Z := Eval vm_compute in make_table.

(** One iteration of [while (size--) crc = g_table[(crc ^ *data++) & 0xff] ^ (crc >> 8)]. *)
Definition table_step (crc b : Z) : Z :=
  Z.lxor (nth (Z.to_nat (Z.land (Z.lxor crc b) 0xff)) g_table 0) (Z.shiftr crc 8).

Definition not32 (crc : Z) : Z := u32 (Z.lnot crc).

Definition compute_list (data : list Z) : Z := not32 (fold_left table_step data 0xffffffff).

(** [Crc32c::compute(bytes, size)]; the bytes are read through [uint8_t]. *)
Definition compute (data : bytes) (a size : Z) : Z := compute_list (map u8 (slice data a size)).

(** Bitwise reference: feed one byte, least significant bit first. *)
Definition crc_byte (crc b : Z) : Z := crc_bits 8 (Z.lxor crc b).

#[global] Arguments crc_byte : simpl never.
#[global] Arguments table_step : simpl never.

Section Hardware.
(** [_mm_crc32_u8] and [_mm_crc32_u64] of <nmmintrin.h>. *)
Variable mm_crc32_u8 : Z -> Z -> Z.
Variable mm_crc32_u64 : Z -> Z -> Z.

Definition word_at (data : list Z) : Z := le_val 8 (fun i => nth (Z.to_nat i) data 0) 0.

Fixpoint sse42_words (fuel : nat) (crc : Z) (data : list Z) : Z * list Z :=
  match fuel with
  | O => (crc, data)
  | S fuel' =>
      if (8 <=? length data)%nat
      then sse42_words fuel' (mm_crc32_u64 crc (word_at data)) (drop 8 data)
      else (crc, data)
  end.

Definition compute_sse42 (data : list Z) : Z :=
  let '(crc, rest) := sse42_words (length data) 0xffffffff data in
  not32 (fold_left mm_crc32_u8 rest (u32 crc)).

(** The documented meaning of the instructions: a byte is folded in with the
    reflected Castagnoli polynomial, a quadword is its eight bytes in order. *)
Definition intrinsics_documented : Prop :=
  (forall crc b, 0 <= crc < 2 ^ 32 -> 0 <= b < 2 ^ 8 -> mm_crc32_u8 crc b = crc_byte crc b) /\
  (forall crc (data : list Z),
     0 <= crc < 2 ^ 32 -> length data = 8%nat -> Forall (fun b => 0 <= b < 2 ^ 8) data ->
     mm_crc32_u64 crc (word_at data) = fold_left crc_byte data crc).
End Hardware.

(** ** Linearity of the bit step over xor *)

Lemma crc_bit_cond c : crc_bit c = Z.lxor (Z.shiftr c 1) (if Z.odd c then poly else 0).
Proof.
  unfold crc_bit. f_equal. change (Z.land c 1) with (Z.land c (Z.ones 1)).
  rewrite Z.land_ones by lia. change (2 ^ 1) with 2. rewrite Zmod_odd.
  by destruct (Z.odd c).
Qed.

Lemma crc_bit_lxor a b : crc_bit (Z.lxor a b) = Z.lxor (crc_bit a) (crc_bit b).
Proof.
  rewrite !crc_bit_cond, Z.shiftr_lxor, <- !Z.bit0_odd, Z.lxor_spec.
  set (p := poly). apply Z.bits_inj'; intros i Hi. rewrite !Z.lxor_spec.
  destruct (Z.testbit a 0), (Z.testbit b 0); simpl; rewrite ?Z.bits_0; btauto.
Qed.

Lemma crc_bits_lxor n a b : crc_bits n (Z.lxor a b) = Z.lxor (crc_bits n a) (crc_bits n b).
Proof. revert a b. induction n as [|n IH]; intros; simpl; [done|]. by rewrite crc_bit_lxor, IH. Qed.

Lemma crc_bit_even x : crc_bit (2 * x) = x.
Proof.
  rewrite crc_bit_cond, Z.odd_mul. simpl. rewrite Z.lxor_0_r, Z.shiftr_div_pow2 by lia.
  rewrite Z.mul_comm. by apply Z.div_mul.
Qed.

Lemma crc_bits_shiftl n x : crc_bits n (x * 2 ^ Z.of_nat n) = x.
Proof.
  revert x. induction n as [|n IH]; intros x; cbn [crc_bits].
  - rewrite Z.pow_0_r. lia.
  - replace (x * 2 ^ Z.of_nat (S n)) with (2 * (x * 2 ^ Z.of_nat n)).
    + by rewrite crc_bit_even, IH.
    + rewrite Nat2Z.inj_succ, Z.pow_succ_r by lia. ring.
Qed.

Lemma crc_bit_range c : 0 <= c < 2 ^ 32 -> 0 <= crc_bit c < 2 ^ 32.
Proof.
  intros H. rewrite crc_bit_cond. apply lxor_range; [lia| |destruct (Z.odd c); by unfold poly].
  rewrite Z.shiftr_div_pow2 by lia. change (2 ^ 1) with 2.
  split; [apply Z.div_pos; lia|apply Z.div_lt_upper_bound; lia].
Qed.

Lemma crc_bits_range n c : 0 <= c < 2 ^ 32 -> 0 <= crc_bits n c < 2 ^ 32.
Proof. revert c. induction n; intros; simpl; auto using crc_bit_range. Qed.

Lemma byte_range32 b : 0 <= b < 2 ^ 8 -> 0 <= b < 2 ^ 32.
Proof. lia. Qed.

Lemma crc_byte_range c b : 0 <= c < 2 ^ 32 -> 0 <= b < 2 ^ 8 -> 0 <= crc_byte c b < 2 ^ 32.
Proof. intros. apply crc_bits_range, lxor_range; lia. Qed.

(** The bit step can be undone: bit 31 of the polynomial is set. *)
Lemma crc_bit_inj a b : 0 <= a < 2 ^ 32 -> 0 <= b < 2 ^ 32 -> crc_bit a = crc_bit b -> a = b.
Proof.
  intros Ha Hb H.
  assert (Hd : crc_bit (Z.lxor a b) = 0) by (by rewrite crc_bit_lxor, H, Z.lxor_nilpotent).
  apply Z.lxor_eq. pose proof (lxor_range a b 32 ltac:(lia) Ha Hb) as Hr.
  revert Hd Hr. generalize (Z.lxor a b) as c. intros c Hd Hr.
  rewrite crc_bit_cond in Hd. apply Z.lxor_eq in Hd.
  rewrite Z.shiftr_div_pow2 in Hd by lia. rewrite (Z.div_mod c 2), Zmod_odd by lia.
  destruct (Z.odd c).
  - unfold poly in Hd. change (2 ^ 1) with 2 in Hd.
    pose proof (Z.div_lt_upper_bound c 2 (2 ^ 31) ltac:(lia) ltac:(lia)). lia.
  - change (2 ^ 1) with 2 in Hd. by rewrite Hd.
Qed.

Lemma crc_bits_inj n a b :
  0 <= a < 2 ^ 32 -> 0 <= b < 2 ^ 32 -> crc_bits n a = crc_bits n b -> a = b.
Proof.
  revert a b. induction n as [|n IH]; intros a b Ha Hb H; simpl in H; [done|].
  apply crc_bit_inj; auto using crc_bit_range.
Qed.

(** ** The table-driven routine computes the bitwise CRC *)

Lemma g_table_eq : g_table = make_table.
Proof. vm_compute. reflexivity. Qed.

#[global] Opaque g_table.

Lemma g_table_nth x : 0 <= x < 256 -> nth (Z.to_nat x) g_table 0 = crc_bits 8 x.
Proof.
  intros H. rewrite g_table_eq. unfold make_table.
  rewrite (nth_indep _ 0 (crc_bits 8 (Z.of_nat 0))) by (rewrite length_map, length_seq; lia).
  rewrite (map_nth (fun i => crc_bits 8 (Z.of_nat i)) (seq 0 256) 0%nat).
  rewrite seq_nth by lia. f_equal. lia.
Qed.

Lemma table_step_crc_byte c b :
  0 <= c < 2 ^ 32 -> 0 <= b < 2 ^ 8 -> table_step c b = crc_byte c b.
Proof.
  intros Hc Hb. unfold table_step, crc_byte.
  set (x := Z.lxor c b).
  assert (Hx : x = Z.lxor (x mod 2 ^ 8) (Z.shiftr c 8 * 2 ^ 8)).
  { rewrite <- Z.shiftl_mul_pow2 by lia. apply Z.bits_inj'; intros i Hi.
    rewrite Z.lxor_spec, testbit_mod_pow2 by lia. destruct (Z.ltb_spec i 8); cbn [andb].
    - rewrite (Z.shiftl_spec_low _ 8) by lia. by rewrite xorb_false_r.
    - rewrite Z.shiftl_spec, Z.shiftr_spec by lia. subst x.
      rewrite Z.lxor_spec, (testbit_above b 8) by lia. rewrite xorb_false_r, xorb_false_l.
      f_equal. lia. }
  change 0xff with (Z.ones 8). rewrite Z.land_ones by lia.
  pose proof (Z.mod_pos_bound x (2 ^ 8) ltac:(lia)).
  rewrite g_table_nth by lia. rewrite Hx at 2. rewrite crc_bits_lxor. f_equal.
  by rewrite (crc_bits_shiftl 8).
Qed.

Definition is_byte (b : Z) : Prop := 0 <= b < 2 ^ 8.

Lemma fold_crc_range (l : list Z) c :
  Forall is_byte l -> 0 <= c < 2 ^ 32 -> 0 <= fold_left crc_byte l c < 2 ^ 32.
Proof.
  revert c. induction l as [|b l IH]; intros c Hl Hc; [done|].
  rewrite ?fold_left_cons. inversion Hl; subst. apply IH; [done|]. by apply crc_byte_range.
Qed.

Lemma fold_table_step (l : list Z) c :
  Forall is_byte l -> 0 <= c < 2 ^ 32 -> fold_left table_step l c = fold_left crc_byte l c.
Proof.
  revert c. induction l as [|b l IH]; intros c Hl Hc; [done|].
  rewrite ?fold_left_cons. inversion Hl; subst. rewrite table_step_crc_byte by done. apply IH; [done|].
  by apply crc_byte_range.
Qed.

Lemma Forall_is_byte_u8 (l : list Z) : Forall is_byte (map u8 l).
Proof. induction l; simpl; constructor; auto. apply u8_range. Qed.

Lemma sse42_words_S mm64 fuel c (l : list Z) :
  sse42_words mm64 (S fuel) c l =
  if decide (8 <= length l)%nat then sse42_words mm64 fuel (mm64 c (word_at l)) (drop 8 l) else (c, l).
Proof.
  case_decide as H.
  - by rewrite <- Nat.leb_le in H; cbn -[Nat.leb]; rewrite H.
  - by rewrite <- Nat.leb_nle in H; cbn -[Nat.leb]; rewrite H.
Qed.

Lemma sse42_words_spec mm8 mm64 fuel c (l : list Z) :
  intrinsics_documented mm8 mm64 -> Forall is_byte l -> 0 <= c < 2 ^ 32 ->
  (length l <= fuel)%nat ->
  let '(c', rest) := sse42_words mm64 fuel c l in
  Forall is_byte rest /\ 0 <= c' < 2 ^ 32 /\ fold_left crc_byte rest c' = fold_left crc_byte l c.
Proof.
  intros [_ H64]. revert c l. induction fuel as [|fuel IH]; intros c l Hl Hc Hf; [simpl; auto|].
  rewrite sse42_words_S. case_decide as E; [|auto].
  assert (Hw : word_at l = word_at (take 8 l)).
  { apply le_val_ext. intros k Hk. rewrite !Z.add_0_l. f_equal.
    rewrite <- (take_drop 8 l) at 1. rewrite app_nth1; [done|]. rewrite length_take. lia. }
  rewrite <- (take_drop 8 l) in Hl. apply Forall_app in Hl as [Ht Hd].
  assert (Hlt : length (take 8 l) = 8%nat) by (rewrite length_take; lia).
  rewrite Hw, H64 by done.
  assert (Hc' : 0 <= fold_left crc_byte (take 8 l) c < 2 ^ 32) by (by apply fold_crc_range).
  specialize (IH (fold_left crc_byte (take 8 l) c) (drop 8 l) Hd Hc' ltac:(rewrite length_drop; lia)).
  destruct (sse42_words mm64 fuel _ _) as [c' rest]. destruct IH as (? & ? & He).
  split; [done|split; [done|]]. by rewrite He, <- fold_left_app, take_drop.
Qed.

(** Claim C31: the word-at-a-time hardware routine and the portable routine agree on
    every input, given the documented meaning of the two intrinsics. *)
Theorem compute_sse42_correct mm8 mm64 (l : list Z) :
  intrinsics_documented mm8 mm64 -> Forall is_byte l ->
  compute_sse42 mm8 mm64 l = compute_list l.
Proof.
  intros H Hl. unfold compute_sse42, compute_list.
  pose proof (sse42_words_spec mm8 mm64 (length l) 0xffffffff l H Hl ltac:(lia) ltac:(lia)) as HS.
  destruct (sse42_words _ _ _ _) as [c rest]. destruct HS as (Hr & Hc & He).
  rewrite u32_small by done. f_equal. rewrite fold_table_step by (done || lia). rewrite <- He.
  destruct H as [H8 _]. clear He. revert c Hc. induction rest as [|b rest IH]; intros c Hc; [done|].
  rewrite !fold_left_cons. inversion Hr; subst. rewrite H8 by done. apply IH; [done|]. by apply crc_byte_range.
Qed.

(** The instructions' documented meaning as functions. *)
Definition ref_crc32_u64 (crc word : Z) : Z :=
  fold_left crc_byte (map (fun k => u8 (Z.shiftr word (Z.of_nat k * 8))) (seq 0 8)) crc.

Lemma ref_intrinsics_documented : intrinsics_documented crc_byte ref_crc32_u64.
Proof.
  split; [done|]. intros crc data Hcrc Hlen Hb. unfold ref_crc32_u64, word_at. f_equal.
  transitivity (map (fun k => nth k data 0) (seq 0 (length data))); [|by apply map_nth_seq].
  rewrite Hlen. apply map_ext_in. intros k Hk%in_seq.
  rewrite (le_val_byte 8 (fun i => nth (Z.to_nat i) data 0) 0 (Z.of_nat k)) by lia.
  rewrite Z.add_0_l, Nat2Z.id. apply u8_small.
  rewrite Forall_forall in Hb. apply Hb, nth_In. lia.
Qed.

Lemma compute_sse42_correct_witness :
  compute_sse42 crc_byte ref_crc32_u64 [1; 2; 3; 4; 5; 6; 7; 8; 9] = compute_list [1; 2; 3; 4; 5; 6; 7; 8; 9].
Proof.
  apply (compute_sse42_correct crc_byte ref_crc32_u64 [1; 2; 3; 4; 5; 6; 7; 8; 9]).
  - exact ref_intrinsics_documented.
  - unfold is_byte. repeat (constructor; [lia|]). constructor.
Defined.

(** ** Error detection *)

Fixpoint le_list (l : list Z) : Z :=
  match l with [] => 0 | b :: l' => Z.lxor b (le_list l' * 2 ^ 8) end.

Lemma fold_crc_bits (l : list Z) c :
  fold_left crc_byte l c = crc_bits (8 * length l) (Z.lxor c (le_list l)).
Proof.
  revert c. induction l as [|b l IH]; intros c; rewrite ?fold_left_cons; cbn [le_list].
  - cbn [fold_left length]. by rewrite Nat.mul_0_r, Z.lxor_0_r.
  - rewrite IH. replace (8 * length (b :: l))%nat with (8 + 8 * length l)%nat by (simpl; lia).
    assert (forall n m x, crc_bits (n + m) x = crc_bits m (crc_bits n x)) as Hadd.
    { clear. induction n; intros; simpl; auto. }
    rewrite Hadd. f_equal. unfold crc_byte.
    rewrite <- Z.lxor_assoc, (crc_bits_lxor 8 (Z.lxor c b)). f_equal.
    by rewrite (crc_bits_shiftl 8).
Qed.

Lemma le_list_range (l : list Z) : Forall is_byte l -> 0 <= le_list l < 2 ^ (8 * Z.of_nat (length l)).
Proof.
  induction 1 as [|b l Hb Hl IH]; cbn [le_list length]; [simpl; lia|].
  unfold is_byte in Hb.
  replace (8 * Z.of_nat (S (length l))) with (8 * Z.of_nat (length l) + 8) by lia.
  apply lxor_range; [lia| |]; rewrite Z.pow_add_r by lia; nia.
Qed.

Lemma lxor_byte_split b1 b2 x1 x2 :
  is_byte b1 -> is_byte b2 ->
  Z.lxor b1 (x1 * 2 ^ 8) = Z.lxor b2 (x2 * 2 ^ 8) -> b1 = b2 /\ x1 = x2.
Proof.
  unfold is_byte. intros H1 H2 H. rewrite <- !Z.shiftl_mul_pow2 in H by lia.
  assert (Hb : forall i, xorb (Z.testbit b1 i) (Z.testbit (Z.shiftl x1 8) i) =
                         xorb (Z.testbit b2 i) (Z.testbit (Z.shiftl x2 8) i))
    by (intros; by rewrite <- !Z.lxor_spec, H).
  split; apply Z.bits_inj'; intros i Hi.
  - destruct (Z.ltb_spec i 8).
    + specialize (Hb i). rewrite !Z.shiftl_spec_low in Hb by lia. by rewrite !xorb_false_r in Hb.
    + by rewrite (testbit_above b1 8), (testbit_above b2 8) by lia.
  - specialize (Hb (i + 8)). rewrite !Z.shiftl_spec_high in Hb by lia.
    rewrite (testbit_above b1 8), (testbit_above b2 8), !xorb_false_l in Hb by lia.
    by replace (i + 8 - 8) with i in Hb by lia.
Qed.

Lemma le_list_inj (l1 l2 : list Z) :
  Forall is_byte l1 -> Forall is_byte l2 -> length l1 = length l2 -> le_list l1 = le_list l2 -> l1 = l2.
Proof.
  intros H1. revert l2. induction H1 as [|b l Hb Hl IH]; intros [|b2 l2] H2 Hlen He; try done.
  inversion H2; subst. cbn [le_list] in He.
  apply lxor_byte_split in He as [-> He]; [|done..]. f_equal. apply IH; auto.
Qed.

Lemma not32_inj a b : 0 <= a < 2 ^ 32 -> 0 <= b < 2 ^ 32 -> not32 a = not32 b -> a = b.
Proof. unfold not32, u32, Z.lnot. intros. dlia. Qed.

Lemma crc_byte_eq c b : crc_byte c b = crc_bits 8 (Z.lxor c b).
Proof. unfold crc_byte. reflexivity. Qed.

Lemma crc_byte_inj a b x :
  is_byte x -> 0 <= a < 2 ^ 32 -> 0 <= b < 2 ^ 32 -> crc_byte a x = crc_byte b x -> a = b.
Proof.
  unfold is_byte. intros Hx Ha Hb H. rewrite !crc_byte_eq in H.
  assert (He : Z.lxor a x = Z.lxor b x).
  { apply (crc_bits_inj 8); [apply lxor_range; lia..|exact H]. }
  apply Z.lxor_eq. apply Z.lxor_eq_0_iff in He.
  by rewrite Z.lxor_assoc, (Z.lxor_comm x), Z.lxor_assoc, Z.lxor_nilpotent, Z.lxor_0_r in He.
Qed.

Lemma fold_crc_inj (l : list Z) a b :
  Forall is_byte l -> 0 <= a < 2 ^ 32 -> 0 <= b < 2 ^ 32 ->
  fold_left crc_byte l a = fold_left crc_byte l b -> a = b.
Proof.
  revert a b. induction l as [|x l IH]; intros a b Hl Ha Hb H; [exact H|].
  inversion Hl as [|? ? Hx Hl']; subst.
  rewrite (fold_left_cons crc_byte x l a), (fold_left_cons crc_byte x l b) in H.
  apply (crc_byte_inj a b x Hx Ha Hb), IH; [exact Hl'|by apply crc_byte_range..|exact H].
Qed.

(** Claim C30: corruption confined to at most four consecutive bytes always changes the
    checksum. *)
Theorem compute_detects_burst (pre m1 m2 post : list Z) :
  Forall is_byte pre -> Forall is_byte m1 -> Forall is_byte m2 -> Forall is_byte post ->
  length m1 = length m2 -> (length m1 <= 4)%nat -> m1 <> m2 ->
  compute_list (pre ++ m1 ++ post) <> compute_list (pre ++ m2 ++ post).
Proof.
  intros Hp H1 H2 Hq Hlen H4 Hne He. apply Hne, le_list_inj; [done..|].
  unfold compute_list in He.
  rewrite !fold_table_step, !fold_left_app in He by (rewrite ?Forall_app; auto; lia).
  set (c := fold_left crc_byte pre 0xffffffff) in He.
  assert (Hc : 0 <= c < 2 ^ 32) by (apply fold_crc_range; [done|lia]).
  apply not32_inj in He; [|apply fold_crc_range; [done|apply fold_crc_range; done]..].
  apply fold_crc_inj in He; [|done|apply fold_crc_range; done..].
  rewrite !fold_crc_bits, <- Hlen in He.
  assert (forall l, Forall is_byte l -> length l = length m1 -> 0 <= le_list l < 2 ^ 32) as Hr.
  { intros l Hl Hll. pose proof (le_list_range l Hl).
    pose proof (Z.pow_le_mono_r 2 (8 * Z.of_nat (length l)) 32 ltac:(lia) ltac:(lia)). lia. }
  apply crc_bits_inj in He; [|apply lxor_range; auto; lia..].
  apply Z.lxor_eq_0_iff in He.
  rewrite (Z.lxor_comm c (le_list m1)), Z.lxor_assoc, <- (Z.lxor_assoc c c) , Z.lxor_nilpotent, Z.lxor_0_l in He.
  by apply Z.lxor_eq.
Qed.

Lemma compute_detects_burst_witness :
  compute_list ([1; 2] ++ [3; 4; 5; 6] ++ [7]) <> compute_list ([1; 2] ++ [3; 4; 5; 7] ++ [7]).
Proof.
  apply (compute_detects_burst [1; 2] [3; 4; 5; 6] [3; 4; 5; 7] [7]);
    [unfold is_byte; repeat (constructor; [lia|]); constructor ..|reflexivity|simpl; lia|discriminate].
Defined.

(** ** Use by other components *)

Lemma not32_range c : 0 <= not32 c < 2 ^ 32.
Proof. apply u32_range. Qed.

Lemma compute_range f a n : 0 <= compute f a n < 2 ^ 32.
Proof. apply not32_range. Qed.

Lemma compute_ext f g a b n :
  (forall k, 0 <= k < n -> u8 (f (a + k)) = u8 (g (b + k))) -> compute f a n = compute g b n.
Proof.
  intros H. unfold compute. f_equal. unfold slice. rewrite !map_map. apply map_ext_in.
  intros k Hk%in_seq. apply H. lia.
Qed.
