(* ===== verification/NodeHeader.v ===== *)
(** * Node headers (src/llbt/node_header.hpp, Node::init_header of node.hpp)

    The eight bytes in front of every array node: capacity (or checksum),
    flags/width byte, and size.  A header is a position [h] in a memory. *)

From S2P Require Import Prelude Bytes.

Inductive NodeType := type_Normal | type_InnerBptreeNode | type_HasRefs.
Inductive WidthType := wtype_Bits | wtype_Multiply | wtype_Ignore.

Definition header_size : Z := 8.
Definition max_array_size : Z := 0x00ffffff.
Definition max_array_payload_aligned : Z := 0x07ffffc0.

Definition int_of_wtype (w : WidthType) : Z :=
  match w with wtype_Bits => 0 | wtype_Multiply => 1 | wtype_Ignore => 2 end.

(** [WidthType(n)]: the fourth bit pattern is never written and has no name. *)
Definition wtype_of_int (n : Z) : option WidthType :=
  if n =? 0 then Some wtype_Bits else if n =? 1 then Some wtype_Multiply
  else if n =? 2 then Some wtype_Ignore else None.

Definition get_data_from_header (h : Z) : Z := h + header_size.
Definition get_header_from_data (d : Z) : Z := d - header_size.

Definition get_is_inner_bptree_node_from_header (m : bytes) (h : Z) : bool :=
  negb (Z.land (m (h + 4)) 0x80 =? 0).
Definition get_hasrefs_from_header (m : bytes) (h : Z) : bool :=
  negb (Z.land (m (h + 4)) 0x40 =? 0).
Definition get_context_flag_from_header (m : bytes) (h : Z) : bool :=
  negb (Z.land (m (h + 4)) 0x20 =? 0).
Definition get_wtype_from_header (m : bytes) (h : Z) : option WidthType :=
  wtype_of_int (Z.shiftr (Z.land (m (h + 4)) 0x18) 3).
Definition get_width_from_header (m : bytes) (h : Z) : Z :=
  u8 (Z.shiftr (Z.shiftl 1 (Z.land (m (h + 4)) 0x07)) 1).
Definition get_size_from_header (m : bytes) (h : Z) : Z :=
  Z.shiftl (m (h + 5)) 16 + Z.shiftl (m (h + 6)) 8 + m (h + 7).
Definition get_capacity_from_header (m : bytes) (h : Z) : Z :=
  Z.shiftl (m h) 19 + Z.shiftl (m (h + 1)) 11 + Z.shiftl (m (h + 2)) 3.

Definition get_type_from_header (m : bytes) (h : Z) : NodeType :=
  if get_is_inner_bptree_node_from_header m h then type_InnerBptreeNode
  else if get_hasrefs_from_header m h then type_HasRefs
  else type_Normal.

(** [h[4] = uchar((int(h[4]) & ~mask) | v)] *)
Definition set_flag_bits (mask v : Z) (m : bytes) (h : Z) : bytes :=
  upd m (h + 4) (u8 (Z.lor (Z.land (m (h + 4)) (Z.lnot mask)) v)).

Definition set_is_inner_bptree_node_in_header (value : bool) := set_flag_bits 0x80 (Z.shiftl (Z.b2z value) 7).
Definition set_hasrefs_in_header (value : bool) := set_flag_bits 0x40 (Z.shiftl (Z.b2z value) 6).
Definition set_context_flag_in_header (value : bool) := set_flag_bits 0x20 (Z.shiftl (Z.b2z value) 5).
Definition set_wtype_in_header (value : WidthType) := set_flag_bits 0x18 (Z.shiftl (int_of_wtype value) 3).

(** [while (value) { ++w; value >>= 1; }]; 32 turns empty a non-negative [int]. *)
Fixpoint width_ndx_loop (fuel : nat) (value w : Z) : Z :=
  match fuel with
  | O => w
  | S fuel' => if value =? 0 then w else width_ndx_loop fuel' (Z.shiftr value 1) (w + 1)
  end.

Definition set_width_in_header (value : Z) (m : bytes) (h : Z) : bytes :=
  set_flag_bits 0x7 (width_ndx_loop 32 value 0) m h.

Definition set_size_in_header (value : Z) (m : bytes) (h : Z) : bytes :=
  upd (upd (upd m (h + 5) (u8 (Z.land (Z.shiftr value 16) 0xff)))
         (h + 6) (u8 (Z.land (Z.shiftr value 8) 0xff)))
    (h + 7) (u8 (Z.land value 0xff)).

Definition set_capacity_in_header (value : Z) (m : bytes) (h : Z) : bytes :=
  upd (upd (upd m h (u8 (Z.land (Z.shiftr value 19) 0xff)))
         (h + 1) (u8 (Z.land (Z.shiftr value 11) 0xff)))
    (h + 2) (u8 (Z.land (Z.shiftr value 3) 0xff)).

Definition calc_byte_size (wtype : WidthType) (size width : Z) : Z :=
  let num_bytes :=
    match wtype with
    | wtype_Bits => Z.shiftr (size * width + 7) 3
    | wtype_Multiply => size * width
    | wtype_Ignore => size
    end in
  Z.land (num_bytes + 7) (Z.lnot 7) + header_size.

Definition get_byte_size_from_header (m : bytes) (h : Z) : option Z :=
  wtype ← get_wtype_from_header m h;
  Some (calc_byte_size wtype (get_size_from_header m h) (get_width_from_header m h)).

(** [Node::init_header]: clear the eight bytes, then set every field. *)
Definition init_header (m : bytes) (h : Z) (is_inner has_refs context_flag : bool)
    (width_type : WidthType) (width size capacity : Z) : bytes :=
  let m := blit m h (fun _ => 0) 0 header_size in
  let m := set_is_inner_bptree_node_in_header is_inner m h in
  let m := set_hasrefs_in_header has_refs m h in
  let m := set_context_flag_in_header context_flag m h in
  let m := set_wtype_in_header width_type m h in
  let m := set_width_in_header width m h in
  let m := set_size_in_header size m h in
  set_capacity_in_header capacity m h.

(** ** The widths an element can have *)

Definition valid_width (w : Z) : Prop :=
  w = 0 \/ w = 1 \/ w = 2 \/ w = 4 \/ w = 8 \/ w = 16 \/ w = 32 \/ w = 64.

Ltac width_cases H :=
  unfold valid_width in H;
  destruct H as [H|[H|[H|[H|[H|[H|[H|H]]]]]]]; rewrite H in *; clear H.

(** ** Round trips *)

Lemma align8_spec n : 0 <= n ->
  Z.land (n + 7) (Z.lnot 7) = 8 * ((n + 7) / 8).
Proof.
  intros. change 7 with (Z.ones 3) at 2. rewrite <- Z.ldiff_land, Z.ldiff_ones_r by lia.
  rewrite Z.shiftl_mul_pow2, Z.shiftr_div_pow2 by lia. change (2 ^ 3) with 8. lia.
Qed.

Lemma calc_byte_size_spec wtype size width :
  0 <= size -> 0 <= width ->
  let payload := match wtype with
                 | wtype_Bits => (size * width + 7) / 8
                 | wtype_Multiply => size * width
                 | wtype_Ignore => size end in
  calc_byte_size wtype size width mod 8 = 0 /\
  payload + 8 <= calc_byte_size wtype size width < payload + 16.
Proof.
  intros. unfold calc_byte_size, header_size.
  assert (0 <= size * width) by nia.
  destruct wtype; cbv zeta; rewrite ?(Z.shiftr_div_pow2 (size * width + 7) 3) by lia;
    change (2 ^ 3) with 8; rewrite align8_spec; dlia.
Qed.

(** All fields of a header at once. *)
Record Header := mkHeader {
  hdr_inner : bool; hdr_refs : bool; hdr_ctx : bool;
  hdr_wtype : option WidthType; hdr_width : Z; hdr_size : Z; hdr_capacity : Z }.

Definition read_header (m : bytes) (h : Z) : Header :=
  mkHeader (get_is_inner_bptree_node_from_header m h) (get_hasrefs_from_header m h)
    (get_context_flag_from_header m h) (get_wtype_from_header m h)
    (get_width_from_header m h) (get_size_from_header m h) (get_capacity_from_header m h).

Lemma read_header_fields m h i r c t w n cap :
  read_header m h = mkHeader i r c t w n cap ->
  get_is_inner_bptree_node_from_header m h = i /\ get_hasrefs_from_header m h = r /\
  get_context_flag_from_header m h = c /\ get_wtype_from_header m h = t /\
  get_width_from_header m h = w /\ get_size_from_header m h = n /\ get_capacity_from_header m h = cap.
Proof. unfold read_header. intros [=]. auto 10. Qed.

#[export] Instance WidthType_eq_dec : EqDecision WidthType.
Proof. solve_decision. Defined.

(** A property of a byte holds if it holds of the 256 values. *)
Lemma byte_all (f : Z -> bool) :
  forallb f (map Z.of_nat (seq 0 256)) = true -> forall b, 0 <= b < 2 ^ 8 -> f b = true.
Proof.
  intros H b Hb. rewrite forallb_forall in H. apply H.
  apply in_map_iff. exists (Z.to_nat b). split; [lia|]. apply in_seq. lia.
Qed.

Definition flag_fields (b : Z) : bool * bool * bool * option WidthType * Z :=
  (negb (Z.land b 0x80 =? 0), negb (Z.land b 0x40 =? 0), negb (Z.land b 0x20 =? 0),
   wtype_of_int (Z.shiftr (Z.land b 0x18) 3), u8 (Z.shiftr (Z.shiftl 1 (Z.land b 0x07)) 1)).

Definition set_flags (mask v b : Z) : Z := u8 (Z.lor (Z.land b (Z.lnot mask)) v).

(** Writing the bits of one flag field leaves the other fields alone. *)
Definition flags_ok (mask v : Z) (f : bool * bool * bool * option WidthType * Z ->
                                      bool * bool * bool * option WidthType * Z) : bool :=
  forallb (fun b => bool_decide (flag_fields (set_flags mask v b) = f (flag_fields b)))
    (map Z.of_nat (seq 0 256)).

Lemma flags_ok_spec mask v f b :
  flags_ok mask v f = true -> 0 <= b < 2 ^ 8 ->
  flag_fields (set_flags mask v b) = f (flag_fields b).
Proof. intros H Hb. pose proof (byte_all _ H b Hb) as E. by apply bool_decide_eq_true in E. Qed.

Lemma read_header_flags m h :
  read_header m h =
  let '(i, r, c, t, w) := flag_fields (m (h + 4)) in
  mkHeader i r c t w (get_size_from_header m h) (get_capacity_from_header m h).
Proof. reflexivity. Qed.

Lemma read_set_flag_bits mask v f m h :
  is_bytes m -> flags_ok mask v f = true ->
  read_header (set_flag_bits mask v m h) h =
  let '(i, r, c, t, w) := f (flag_fields (m (h + 4))) in
  mkHeader i r c t w (get_size_from_header m h) (get_capacity_from_header m h).
Proof.
  intros Hm Hf. rewrite read_header_flags. unfold set_flag_bits at 1. rewrite upd_eq.
  fold (set_flags mask v (m (h + 4))). rewrite (flags_ok_spec _ _ _ _ Hf (Hm _)).
  unfold get_size_from_header, get_capacity_from_header, set_flag_bits.
  by rewrite !upd_ne by lia.
Qed.

Lemma read_set_width m h w :
  is_bytes m -> valid_width w ->
  read_header (set_width_in_header w m h) h =
  let hd := read_header m h in
  mkHeader (hdr_inner hd) (hdr_refs hd) (hdr_ctx hd) (hdr_wtype hd) w (hdr_size hd) (hdr_capacity hd).
Proof.
  intros Hm Hw. unfold set_width_in_header.
  rewrite (read_set_flag_bits _ _ (fun '(i, r, c, t, _) => (i, r, c, t, w))); [done|done|].
  width_cases Hw; vm_compute; reflexivity.
Qed.

Lemma read_set_size m h n :
  0 <= n <= max_array_size ->
  read_header (set_size_in_header n m h) h =
  let hd := read_header m h in
  mkHeader (hdr_inner hd) (hdr_refs hd) (hdr_ctx hd) (hdr_wtype hd) (hdr_width hd) n (hdr_capacity hd).
Proof.
  intros Hn. rewrite !read_header_flags. unfold set_size_in_header at 1. rewrite !upd_ne by lia.
  destruct (flag_fields _) as [[[[i r] c] t] w].
  cbn [hdr_inner hdr_refs hdr_ctx hdr_wtype hdr_width hdr_size hdr_capacity]. f_equal.
  - unfold get_size_from_header, set_size_in_header.
    upd_simp.
    change 0xff with (Z.ones 8). unfold max_array_size in Hn. rewrite !Z.land_ones, !Z.shiftr_div_pow2, !Z.shiftl_mul_pow2 by lia.
    unfold u8. rewrite !Z.mod_mod by lia. change (2 ^ 16) with 65536. change (2 ^ 8) with 256. dlia.
  - unfold get_capacity_from_header, set_size_in_header. by rewrite !upd_ne by lia.
Qed.

Lemma read_set_capacity m h n :
  0 <= n < 2 ^ 27 -> n mod 8 = 0 ->
  read_header (set_capacity_in_header n m h) h =
  let hd := read_header m h in
  mkHeader (hdr_inner hd) (hdr_refs hd) (hdr_ctx hd) (hdr_wtype hd) (hdr_width hd) (hdr_size hd) n.
Proof.
  intros Hn Hn8. rewrite !read_header_flags. unfold set_capacity_in_header at 1. rewrite !upd_ne by lia.
  destruct (flag_fields _) as [[[[i r] c] t] w].
  cbn [hdr_inner hdr_refs hdr_ctx hdr_wtype hdr_width hdr_size hdr_capacity]. f_equal.
  - unfold get_size_from_header, set_capacity_in_header. by rewrite !upd_ne by lia.
  - unfold get_capacity_from_header, set_capacity_in_header.
    upd_simp.
    change 0xff with (Z.ones 8). rewrite !Z.land_ones, !Z.shiftr_div_pow2, !Z.shiftl_mul_pow2 by lia.
    unfold u8. rewrite !Z.mod_mod by lia.
    change (2 ^ 19) with 524288. change (2 ^ 11) with 2048. change (2 ^ 8) with 256. change (2 ^ 3) with 8. dlia.
Qed.

Lemma is_bytes_set_flag_bits mask v m h : is_bytes m -> is_bytes (set_flag_bits mask v m h).
Proof. intros. apply is_bytes_upd; [done|apply u8_range]. Qed.

Lemma is_bytes_set_width w m h : is_bytes m -> is_bytes (set_width_in_header w m h).
Proof. apply is_bytes_set_flag_bits. Qed.

Lemma is_bytes_set_size n m h : is_bytes m -> is_bytes (set_size_in_header n m h).
Proof. intros. unfold set_size_in_header. auto using is_bytes_upd, u8_range. Qed.

Lemma is_bytes_set_capacity n m h : is_bytes m -> is_bytes (set_capacity_in_header n m h).
Proof. intros. unfold set_capacity_in_header. auto using is_bytes_upd, u8_range. Qed.

#[export] Hint Resolve is_bytes_set_flag_bits is_bytes_set_width is_bytes_set_size
  is_bytes_set_capacity : llbt.

(** The header setters touch the header only. *)
Lemma set_width_frame w m h x : ~ h <= x < h + header_size -> set_width_in_header w m h x = m x.
Proof. unfold set_width_in_header, set_flag_bits, header_size. intros. apply upd_ne. lia. Qed.
Lemma set_size_frame n m h x : ~ h <= x < h + header_size -> set_size_in_header n m h x = m x.
Proof. unfold set_size_in_header, header_size. intros. by rewrite !upd_ne by lia. Qed.
Lemma set_capacity_frame n m h x : ~ h <= x < h + header_size -> set_capacity_in_header n m h x = m x.
Proof. unfold set_capacity_in_header, header_size. intros. by rewrite !upd_ne by lia. Qed.
Lemma set_flag_bits_frame k v m h x : ~ h <= x < h + header_size -> set_flag_bits k v m h x = m x.
Proof. unfold set_flag_bits, header_size. intros. apply upd_ne. lia. Qed.

Lemma init_header_flags m h i r c t w :
  valid_width w ->
  flag_fields (set_width_in_header w
    (set_wtype_in_header t (set_context_flag_in_header c (set_hasrefs_in_header r
      (set_is_inner_bptree_node_in_header i (blit m h (fun _ => 0) 0 header_size) h) h) h) h) h (h + 4))
  = (i, r, c, Some t, w).
Proof.
  intros Hw. unfold set_width_in_header, set_wtype_in_header, set_context_flag_in_header,
    set_hasrefs_in_header, set_is_inner_bptree_node_in_header, set_flag_bits.
  rewrite !upd_eq. unfold blit, header_size. rdec; [|lia].
  width_cases Hw; destruct i, r, c, t; vm_compute; reflexivity.
Qed.

Lemma init_header_frame m h i r c t w n cap x :
  ~ h <= x < h + header_size -> init_header m h i r c t w n cap x = m x.
Proof.
  intros Hx. unfold init_header. rewrite set_capacity_frame, set_size_frame, set_width_frame by done.
  unfold set_wtype_in_header, set_context_flag_in_header, set_hasrefs_in_header,
    set_is_inner_bptree_node_in_header.
  rewrite !set_flag_bits_frame by done. unfold blit. by rdec.
Qed.

Lemma is_bytes_init_header m h i r c t w n cap : is_bytes m -> is_bytes (init_header m h i r c t w n cap).
Proof.
  intros Hm. unfold init_header. apply is_bytes_set_capacity, is_bytes_set_size, is_bytes_set_width.
  unfold set_wtype_in_header, set_context_flag_in_header, set_hasrefs_in_header, set_is_inner_bptree_node_in_header.
  repeat apply is_bytes_set_flag_bits. apply is_bytes_blit; [done|]. intros x. lia.
Qed.

(** Every field given to [Node::init_header] is read back by the
    corresponding accessor, and no byte outside the header changes. *)
Lemma init_header_roundtrip m h i r c t w n cap :
  is_bytes m -> valid_width w -> 0 <= n <= max_array_size -> 0 <= cap < 2 ^ 27 -> cap mod 8 = 0 ->
  read_header (init_header m h i r c t w n cap) h = mkHeader i r c (Some t) w n cap /\
  (forall x, ~ h <= x < h + header_size -> init_header m h i r c t w n cap x = m x).
Proof.
  intros Hm Hw Hn Hc Hc8. split.
  - unfold init_header. rewrite read_set_capacity, read_set_size by done. cbv zeta.
    rewrite !read_header_flags, init_header_flags by done. reflexivity.
  - intros x Hx. by apply init_header_frame.
Qed.
