(* ===== verification/ArrayDirect.v ===== *)
(** * Packed integer access (src/llbt/array_direct.hpp)

    Elements of 0, 1, 2, 4, 8, 16, 32 or 64 bits, packed little-endian from the
    data position [d] of a memory; and the branch-free binary searches. *)

From S2P Require Import Prelude Bytes NodeHeader.

(** [data[offset]] reads a (signed) [char]. *)
Definition schar (b : Z) : Z := sext 8 b.

Definition get_direct (m : bytes) (d w ndx : Z) : Z :=
  if w =? 0 then 0
  else if w =? 1 then Z.land (Z.shiftr (schar (m (d + Z.shiftr ndx 3))) (Z.land ndx 7)) 0x01
  else if w =? 2 then
    Z.land (Z.shiftr (schar (m (d + Z.shiftr ndx 2))) (Z.shiftl (Z.land ndx 3) 1)) 0x03
  else if w =? 4 then
    Z.land (Z.shiftr (schar (m (d + Z.shiftr ndx 1))) (Z.shiftl (Z.land ndx 1) 2)) 0x0F
  else if w =? 8 then schar (m (d + ndx))
  else if w =? 16 then sext 16 (le_val 2 m (d + ndx * 2))
  else if w =? 32 then sext 32 (le_val 4 m (d + ndx * 4))
  else if w =? 64 then sext 64 (le_val 8 m (d + ndx * 8))
  else -1.

(** The read-modify-write of one byte, [uchar( p[0] & ~(mask << bit) | (int(value) & mask) << bit )]. *)
Definition set_bits (m : bytes) (p mask bit value : Z) : bytes :=
  upd m p (u8 (Z.lor (Z.land (m p) (Z.lnot (Z.shiftl mask bit))) (Z.shiftl (Z.land value mask) bit))).

Definition set_direct (m : bytes) (d w ndx value : Z) : bytes :=
  if w =? 0 then m
  else if w =? 1 then set_bits m (d + ndx / 8) 0x01 (ndx mod 8) value
  else if w =? 2 then set_bits m (d + ndx / 4) 0x03 (ndx mod 4 * 2) value
  else if w =? 4 then set_bits m (d + ndx / 2) 0x0F (ndx mod 2 * 4) value
  else if w =? 8 then upd m (d + ndx) (u8 value)
  else if w =? 16 then put_loop 2 0 m (d + ndx * 2) value
  else if w =? 32 then put_loop 4 0 m (d + ndx * 4) value
  else if w =? 64 then put_loop 8 0 m (d + ndx * 8) value
  else m.

Fixpoint fill_loop (n : nat) (m : bytes) (d w i value : Z) : bytes :=
  match n with O => m | S n' => fill_loop n' (set_direct m d w i value) d w (i + 1) value end.

Definition fill_direct (m : bytes) (d w begin end_ value : Z) : bytes :=
  fill_loop (Z.to_nat (end_ - begin)) m d w begin value.

(** [get_two]: both results go through [to_size_t]. *)
Definition get_two (m : bytes) (d w ndx : Z) : Z * Z :=
  (u64 (get_direct m d w (ndx + 0)), u64 (get_direct m d w (ndx + 1))).

(** One step, marked (A) in the source, of both searches; [go v] says whether
    the probed value sends the search to the upper half. *)
Definition bound_step (go : Z -> bool) (m : bytes) (d w : Z) (st : Z * Z) : Z * Z :=
  let '(low, size) := st in
  let half := size / 2 in
  let other_half := size - half in
  let probe := low + half in
  let other_low := low + other_half in
  let v := get_direct m d w probe in
  (if go v then other_low else low, half).

(** [while (size >= 8)] with three unrolled steps (X), (Y), (Z). *)
Fixpoint bound_loop8 (fuel : nat) (go : Z -> bool) (m : bytes) (d w : Z) (st : Z * Z) : Z * Z :=
  match fuel with
  | O => st
  | S fuel' =>
      if 8 <=? snd st
      then bound_loop8 fuel' go m d w
             (bound_step go m d w (bound_step go m d w (bound_step go m d w st)))
      else st
  end.

(** [while (size > 0)]. *)
Fixpoint bound_loop1 (fuel : nat) (go : Z -> bool) (m : bytes) (d w : Z) (st : Z * Z) : Z * Z :=
  match fuel with
  | O => st
  | S fuel' => if 0 <? snd st then bound_loop1 fuel' go m d w (bound_step go m d w st) else st
  end.

(** 64 iterations: [size] is at least halved by each and is below [2^64]. *)
Definition lower_bound (m : bytes) (d w size value : Z) : Z :=
  let go v := v <? value in
  fst (bound_loop1 64 go m d w (bound_loop8 64 go m d w (0, size))).

Definition upper_bound (m : bytes) (d w size value : Z) : Z :=
  let go v := value >=? v in
  fst (bound_loop1 64 go m d w (bound_loop8 64 go m d w (0, size))).

(** Array::lbound_for_width / ubound_for_width (src/llbt/array.hpp);
    [None] is [LLBT_UNREACHABLE()]. *)
Definition lbound_for_width (width : Z) : option Z :=
  if width =? 32 then Some (-0x80000000)
  else if width =? 16 then Some (-0x8000)
  else if width <? 8 then Some 0
  else if width =? 8 then Some (-0x80)
  else if width =? 64 then Some (-0x8000000000000000)
  else None.

Definition ubound_for_width (width : Z) : option Z :=
  if width =? 32 then Some 0x7FFFFFFF
  else if width =? 16 then Some 0x7FFF
  else if width =? 0 then Some 0
  else if width =? 1 then Some 1
  else if width =? 2 then Some 3
  else if width =? 4 then Some 15
  else if width =? 8 then Some 0x7F
  else if width =? 64 then Some 0x7FFFFFFFFFFFFFFF
  else None.

(** Array::bit_width (src/llbt/array.cpp). *)
Definition bit_width (v : Z) : Z :=
  if Z.shiftr (u64 v) 4 =? 0
  then nth (Z.to_nat v) [0; 1; 2; 2; 4; 4; 4; 4; 4; 4; 4; 4; 4; 4; 4; 4] 0
  else
    let v := if v <? 0 then Z.lnot v else v in
    if negb (Z.shiftr (u64 v) 31 =? 0) then 64
    else if negb (Z.shiftr (u64 v) 15 =? 0) then 32
    else if negb (Z.shiftr (u64 v) 7 =? 0) then 16
    else 8.

(** ** Ranges *)

(** The values an element of width [w] can hold. *)
Definition fits (w v : Z) : Prop :=
  match lbound_for_width w, ubound_for_width w with
  | Some lo, Some hi => lo <= v <= hi
  | _, _ => False
  end.

Definition int64_range (v : Z) : Prop := - 2 ^ 63 <= v < 2 ^ 63.

Lemma sext_range w z : 0 < w -> - 2 ^ (w - 1) <= sext w z < 2 ^ (w - 1).
Proof.
  intros Hw. unfold sext. pose proof (Z.mod_pos_bound z (2 ^ w) ltac:(lia)).
  assert (2 ^ w = 2 * 2 ^ (w - 1)) by (rewrite <- Z.pow_succ_r by lia; f_equal; lia).
  zdec; lia.
Qed.

Lemma sext_id w v : 0 < w -> - 2 ^ (w - 1) <= v < 2 ^ (w - 1) -> sext w v = v.
Proof.
  intros Hw Hv. unfold sext.
  assert (Hp : 2 ^ w = 2 * 2 ^ (w - 1)) by (rewrite <- Z.pow_succ_r by lia; f_equal; lia).
  destruct (Z.ltb_spec v 0).
  - replace (v mod 2 ^ w) with (v + 2 ^ w).
    + zdec; lia.
    + rewrite <- (Z.mod_small (v + 2 ^ w) (2 ^ w)) by lia.
      rewrite <- (Z.mul_1_l (2 ^ w)) at 1. by rewrite Z.mod_add by lia.
  - rewrite Z.mod_small by lia. zdec; lia.
Qed.

Lemma sext_mod w z : 0 < w -> sext w (z mod 2 ^ w) = sext w z.
Proof. intros. unfold sext. by rewrite Z.mod_mod by lia. Qed.

(** Closes the three parts of [bit_width_spec] for a concrete width. *)
Ltac width_fin :=
  split; [unfold valid_width; lia|];
  split; [unfold fits, lbound_for_width, ubound_for_width; simpl; lia|];
  let w := fresh "w" in let Hw := fresh "Hw" in let Hf := fresh "Hf" in
  intros w Hw Hf; width_cases Hw;
  unfold fits, lbound_for_width, ubound_for_width in Hf; simpl in Hf; lia.

Ltac eval_nth :=
  repeat match goal with
  | |- context [nth ?i ?l 0] => let r := eval vm_compute in (nth i l 0) in change (nth i l 0) with r
  end.

Lemma shiftr_u64_zero x k : 0 <= k -> 0 <= x < 2 ^ 64 -> (Z.shiftr (u64 x) k =? 0) = (x <? 2 ^ k).
Proof.
  intros Hk Hx. rewrite u64_small, Z.shiftr_div_pow2 by lia.
  destruct (Z.ltb_spec x (2 ^ k)).
  - by rewrite Z.div_small by lia.
  - apply Z.eqb_neq. pose proof (Z.div_str_pos x (2 ^ k) ltac:(lia)). lia.
Qed.

Lemma bit_width_big v x :
  int64_range v -> (v < 0 /\ x = - v - 1 \/ 16 <= v /\ x = v) ->
  bit_width v = if negb (x <? 2 ^ 31) then 64 else if negb (x <? 2 ^ 15) then 32
                else if negb (x <? 2 ^ 7) then 16 else 8.
Proof.
  unfold int64_range, bit_width. intros Hv Hx.
  assert ((Z.shiftr (u64 v) 4 =? 0) = false) as ->.
  { destruct Hx as [[Hn ->]|[Hn ->]].
    - apply Z.eqb_neq. unfold u64. rewrite <- (Z.mod_add v 1) by lia.
      rewrite Z.mod_small, Z.shiftr_div_pow2 by lia. change (2 ^ 4) with 16. dlia.
    - rewrite shiftr_u64_zero by lia. apply Z.ltb_ge. lia. }
  assert ((if v <? 0 then Z.lnot v else v) = x) as -> by (unfold Z.lnot; zdec; lia).
  by rewrite !shiftr_u64_zero by lia.
Qed.

(** [Array::bit_width] returns the narrowest supported element width
    that can hold the value, for every 64-bit value. *)
Lemma bit_width_spec v :
  int64_range v ->
  valid_width (bit_width v) /\ fits (bit_width v) v /\
  (forall w, valid_width w -> fits w v -> bit_width v <= w).
Proof.
  intros Hv. destruct (decide (0 <= v < 16)) as [Hs|Hs].
  - unfold bit_width. unfold int64_range in Hv. rewrite shiftr_u64_zero by lia.
    destruct (Z.ltb_spec v (2 ^ 4)); [|lia].
    assert (Hc : v ∈ map Z.of_nat (seq 0 16)).
    { apply list_elem_of_In, in_map_iff. exists (Z.to_nat v). rewrite in_seq. lia. }
    cbn in Hc. rewrite !elem_of_cons, elem_of_nil in Hc.
    repeat (destruct Hc as [->|Hc]; [eval_nth; width_fin|]). done.
  - set (x := if v <? 0 then - v - 1 else v).
    rewrite (bit_width_big v x Hv) by (subst x; zdec; lia).
    unfold int64_range in Hv. assert (v = x \/ v = - x - 1) as Hx by (subst x; zdec; lia).
    assert (0 <= x < 2 ^ 63 /\ (v = x -> 16 <= x)) as [Hxr Hx16] by (subst x; zdec; lia).
    clearbody x. change (2 ^ 63) with 9223372036854775808 in *.
    change (2 ^ 31) with 2147483648. change (2 ^ 15) with 32768. change (2 ^ 7) with 128.
    destruct (Z.ltb_spec x 2147483648), (Z.ltb_spec x 32768), (Z.ltb_spec x 128); cbn [negb];
      solve [lia | width_fin].
Qed.

(** ** Reading back what was written *)

(** The element inside one byte, for the widths 1, 2 and 4. *)
Definition sub_get (w b bit : Z) : Z := Z.land (Z.shiftr (schar b) bit) (2 ^ w - 1).
Definition sub_set (w b bit v : Z) : Z :=
  u8 (Z.lor (Z.land b (Z.lnot (Z.shiftl (2 ^ w - 1) bit))) (Z.shiftl (Z.land v (2 ^ w - 1)) bit)).

Definition upto (n : nat) : list Z := map Z.of_nat (seq 0 n).

Lemma upto_all (f : Z -> bool) n :
  forallb f (upto n) = true -> forall x, 0 <= x < Z.of_nat n -> f x = true.
Proof.
  intros H x Hx. rewrite forallb_forall in H. apply H. unfold upto.
  apply in_map_iff. exists (Z.to_nat x). split; [lia|]. apply in_seq. lia.
Qed.

Definition sub_check (w : Z) (k vs : nat) : bool :=
  forallb (fun b => forallb (fun i => forallb (fun v => forallb (fun j =>
    sub_get w (sub_set w b (i * w) v) (j * w) =? (if i =? j then v else sub_get w b (j * w)))
    (upto k)) (upto vs)) (upto k)) (upto 256).

Lemma sub_check_spec w k vs b i v j :
  sub_check w k vs = true ->
  0 <= b < 2 ^ 8 -> 0 <= i < Z.of_nat k -> 0 <= v < Z.of_nat vs -> 0 <= j < Z.of_nat k ->
  sub_get w (sub_set w b (i * w) v) (j * w) = if i =? j then v else sub_get w b (j * w).
Proof.
  intros H Hb Hi Hv Hj. unfold sub_check in H.
  apply (upto_all _ _) with (x := b) in H; [|exact Hb].
  apply (upto_all _ _) with (x := i) in H; [|exact Hi].
  apply (upto_all _ _) with (x := v) in H; [|exact Hv].
  apply (upto_all _ _) with (x := j) in H; [|exact Hj].
  by apply Z.eqb_eq in H.
Qed.

Lemma sub_check1 : sub_check 1 8 2 = true. Proof. vm_compute. reflexivity. Qed.
Lemma sub_check2 : sub_check 2 4 4 = true. Proof. vm_compute. reflexivity. Qed.
Lemma sub_check4 : sub_check 4 2 16 = true. Proof. vm_compute. reflexivity. Qed.

(** Elements per byte of the sub-byte widths. *)
Definition per_byte (w : Z) : Z := 8 / w.

Definition sub_width (w : Z) : Prop := w = 1 \/ w = 2 \/ w = 4.

Lemma per_byte_pos w : sub_width w -> 0 < per_byte w.
Proof. by intros [->|[->| ->]]. Qed.

Lemma get_direct_sub m d w ndx :
  sub_width w -> 0 <= ndx ->
  get_direct m d w ndx = sub_get w (m (d + ndx / per_byte w)) (ndx mod per_byte w * w).
Proof.
  intros Hw Hn. unfold get_direct, sub_get, per_byte.
  destruct Hw as [->|[->| ->]]; cbn [Z.eqb Pos.eqb].
  - change (8 / 1) with (2 ^ 3). change 7 with (Z.ones 3).
    rewrite Z.land_ones, (Z.shiftr_div_pow2 ndx) by lia. by rewrite Z.mul_1_r.
  - change (8 / 2) with (2 ^ 2). change 3 with (Z.ones 2) at 1.
    rewrite Z.land_ones, (Z.shiftr_div_pow2 ndx), Z.shiftl_mul_pow2 by lia. done.
  - change (8 / 4) with (2 ^ 1). change 1 with (Z.ones 1) at 2.
    rewrite Z.land_ones, (Z.shiftr_div_pow2 ndx), Z.shiftl_mul_pow2 by lia. done.
Qed.

Lemma set_direct_sub m d w ndx v :
  sub_width w ->
  set_direct m d w ndx v =
  upd m (d + ndx / per_byte w) (sub_set w (m (d + ndx / per_byte w)) (ndx mod per_byte w * w) v).
Proof.
  intros Hw. unfold set_direct, set_bits, sub_set, per_byte.
  destruct Hw as [->|[->| ->]]; cbn [Z.eqb Pos.eqb]; [|done..].
  change (8 / 1) with 8. by rewrite Z.mul_1_r.
Qed.

Lemma sub_get_set w b i v j :
  sub_width w -> 0 <= b < 2 ^ 8 -> 0 <= i < per_byte w -> 0 <= j < per_byte w -> 0 <= v < 2 ^ w ->
  sub_get w (sub_set w b (i * w) v) (j * w) = if i =? j then v else sub_get w b (j * w).
Proof.
  intros Hw Hb Hi Hj Hv. destruct Hw as [->|[->| ->]].
  - by apply (sub_check_spec 1 8 2 _ _ _ _ sub_check1).
  - by apply (sub_check_spec 2 4 4 _ _ _ _ sub_check2).
  - by apply (sub_check_spec 4 2 16 _ _ _ _ sub_check4).
Qed.

Lemma valid_width_split w :
  valid_width w -> w = 0 \/ sub_width w \/
  exists k, (k = 1 \/ k = 2 \/ k = 4 \/ k = 8)%nat /\ w = 8 * Z.of_nat k.
Proof.
  unfold sub_width. intros Hw.
  destruct Hw as [H|[H|[H|[H|[H|[H|[H|H]]]]]]]; [tauto|tauto|tauto|tauto| | | |]; right; right.
  - by exists 1%nat; auto.
  - by exists 2%nat; auto.
  - by exists 4%nat; auto.
  - by exists 8%nat; auto 6.
Qed.

Lemma get_direct_bytes m d k ndx :
  (k = 1 \/ k = 2 \/ k = 4 \/ k = 8)%nat -> is_bytes m ->
  get_direct m d (8 * Z.of_nat k) ndx = sext (8 * Z.of_nat k) (le_val k m (d + ndx * Z.of_nat k)).
Proof.
  intros Hk Hm. destruct Hk as [->|[->|[->| ->]]]; try reflexivity.
  cbn [le_val]. change (Z.of_nat 1) with 1. rewrite !Z.mul_1_r, Z.mul_0_r, Z.add_0_r, u8_small by apply Hm.
  reflexivity.
Qed.

Lemma set_direct_bytes m d k ndx v :
  (k = 1 \/ k = 2 \/ k = 4 \/ k = 8)%nat ->
  set_direct m d (8 * Z.of_nat k) ndx v = put_loop k 0 m (d + ndx * Z.of_nat k) v.
Proof.
  intros Hk. destruct Hk as [->|[->|[->| ->]]]; try reflexivity.
  cbn [put_loop]. change (Z.of_nat 1) with 1. rewrite !Z.mul_1_r, Z.mul_0_l, Z.add_0_r, Z.shiftr_0_r.
  reflexivity.
Qed.

Lemma fits_sub w v : sub_width w -> fits w v -> 0 <= v < 2 ^ w.
Proof. intros [->|[->| ->]]; unfold fits, lbound_for_width, ubound_for_width; simpl; lia. Qed.

Lemma fits_bytes k v :
  (k = 1 \/ k = 2 \/ k = 4 \/ k = 8)%nat ->
  fits (8 * Z.of_nat k) v <-> - 2 ^ (8 * Z.of_nat k - 1) <= v < 2 ^ (8 * Z.of_nat k - 1).
Proof.
  intros [->|[->|[->| ->]]]; unfold fits, lbound_for_width, ubound_for_width; simpl; lia.
Qed.

Lemma get_set_direct_eq m d w i v :
  is_bytes m -> valid_width w -> fits w v -> 0 <= i ->
  get_direct (set_direct m d w i v) d w i = v.
Proof.
  intros Hm Hw Hf Hi. apply valid_width_split in Hw as [->|[Hw|(k & Hk & ->)]].
  - unfold fits, lbound_for_width, ubound_for_width in Hf; simpl in Hf. unfold get_direct. simpl. lia.
  - rewrite get_direct_sub, set_direct_sub, upd_eq by done.
    pose proof (per_byte_pos w Hw).
    pose proof (Z.mod_pos_bound i (per_byte w) ltac:(lia)).
    rewrite sub_get_set by (auto using fits_sub || apply Hm). by rewrite Z.eqb_refl.
  - rewrite set_direct_bytes, get_direct_bytes by (done || by apply is_bytes_put).
    rewrite le_val_put, sext_mod by lia. apply sext_id; [lia|]. by apply fits_bytes.
Qed.

Lemma get_set_direct_ne m d w i j v :
  is_bytes m -> valid_width w -> fits w v -> 0 <= i -> 0 <= j -> i <> j ->
  get_direct (set_direct m d w i v) d w j = get_direct m d w j.
Proof.
  intros Hm Hw Hf Hi Hj Hne. apply valid_width_split in Hw as [->|[Hw|(k & Hk & ->)]].
  - done.
  - rewrite !get_direct_sub, set_direct_sub by done.
    pose proof (per_byte_pos w Hw) as Hp.
    pose proof (Z.mod_pos_bound i (per_byte w) ltac:(lia)).
    pose proof (Z.mod_pos_bound j (per_byte w) ltac:(lia)).
    destruct (decide (j / per_byte w = i / per_byte w)) as [He|He].
    + rewrite He, upd_eq. rewrite sub_get_set by (auto using fits_sub || apply Hm).
      destruct (Z.eqb_spec (i mod per_byte w) (j mod per_byte w)) as [He2|]; [|done].
      exfalso. apply Hne. rewrite (Z.div_mod i (per_byte w)), (Z.div_mod j (per_byte w)) by lia. congruence.
    + by rewrite upd_ne by lia.
  - rewrite set_direct_bytes, !get_direct_bytes by (done || by apply is_bytes_put).
    rewrite le_val_put_ne; [done|]. nia.
Qed.

(** The bytes that hold the elements below [n]. *)
Definition span (w n : Z) : Z := (n * w + 7) / 8.

Lemma set_direct_frame m d w i n v x :
  valid_width w -> 0 <= i < n -> ~ d <= x < d + span w n -> set_direct m d w i v x = m x.
Proof.
  intros Hw Hi Hx. unfold span in Hx. apply valid_width_split in Hw as [->|[Hw|(k & Hk & ->)]].
  - done.
  - rewrite set_direct_sub by done. apply upd_ne. intros ->. apply Hx.
    destruct Hw as [->|[->| ->]]; unfold per_byte.
    + change (8 / 1) with 8. dlia.
    + change (8 / 2) with 4. dlia.
    + change (8 / 4) with 2. dlia.
  - rewrite set_direct_bytes by done. rewrite put_loop_at. rdec; [|done]. exfalso. apply Hx.
    replace ((n * (8 * Z.of_nat k) + 7) / 8) with (n * Z.of_nat k)
      by (apply (Z.div_unique _ 8 _ 7); lia). nia.
Qed.

(** Reading depends only on the bytes of the element. *)
Lemma get_direct_ext m m' d d' w i n :
  valid_width w -> 0 <= i < n -> is_bytes m -> is_bytes m' ->
  (forall k, 0 <= k < span w n -> m (d + k) = m' (d' + k)) ->
  get_direct m d w i = get_direct m' d' w i.
Proof.
  intros Hw Hi Hm Hm' H. unfold span in H. apply valid_width_split in Hw as [->|[Hw|(k & Hk & ->)]].
  - done.
  - rewrite !get_direct_sub by (done || lia). f_equal. apply H.
    destruct Hw as [->|[->| ->]]; unfold per_byte.
    + change (8 / 1) with 8. dlia.
    + change (8 / 2) with 4. dlia.
    + change (8 / 4) with 2. dlia.
  - rewrite !get_direct_bytes by done. f_equal. apply le_val_ext. intros j Hj.
    replace ((n * (8 * Z.of_nat k) + 7) / 8) with (n * Z.of_nat k) in H
      by (apply (Z.div_unique _ 8 _ 7); lia).
    f_equal. rewrite <- !Z.add_assoc. apply H. nia.
Qed.

Lemma get_direct_fits m d w i : valid_width w -> 0 <= i -> is_bytes m -> fits w (get_direct m d w i).
Proof.
  intros Hw Hi Hm. apply valid_width_split in Hw as [->|[Hw|(k & Hk & ->)]].
  - done.
  - rewrite get_direct_sub by done. unfold sub_get.
    assert (0 <= Z.land (Z.shiftr (schar (m (d + i / per_byte w))) (i mod per_byte w * w)) (2 ^ w - 1) < 2 ^ w).
    { replace (2 ^ w - 1) with (Z.ones w) by (rewrite Z.ones_equiv; lia).
      destruct Hw as [->|[->| ->]]; rewrite Z.land_ones by lia; apply Z.mod_pos_bound; lia. }
    destruct Hw as [->|[->| ->]]; unfold fits, lbound_for_width, ubound_for_width; simpl in *; lia.
  - rewrite get_direct_bytes by done. apply fits_bytes; [done|]. apply sext_range. lia.
Qed.

Lemma is_bytes_set_direct m d w i v : is_bytes m -> is_bytes (set_direct m d w i v).
Proof.
  intros Hm. unfold set_direct, set_bits.
  repeat case_match; auto using is_bytes_upd, u8_range, is_bytes_put.
Qed.

#[export] Hint Resolve is_bytes_set_direct : llbt.

(** ** The binary searches *)

Section Bounds.
Variables (go : Z -> bool) (m : bytes) (d w n : Z).
Abbreviation elem := (get_direct m d w).

(** Elements that send the search up come first. *)
Definition partitioned : Prop :=
  forall i j, 0 <= i <= j -> j < n -> go (elem j) = true -> go (elem i) = true.

(** Everything below [low] goes up, everything from [low + size] on does not. *)
Definition bound_inv (st : Z * Z) : Prop :=
  let '(low, size) := st in
  0 <= low /\ 0 <= size /\ low + size <= n /\
  (forall i, 0 <= i < low -> go (elem i) = true) /\
  (forall i, low + size <= i < n -> go (elem i) = false).

Hypothesis part : partitioned.

Lemma bound_step_inv st :
  bound_inv st -> 0 < snd st -> bound_inv (bound_step go m d w st) /\ snd (bound_step go m d w st) = snd st / 2.
Proof.
  destruct st as [low size]. cbn [snd]. intros (Hl & Hs & Hle & Hlo & Hhi) Hpos.
  unfold bound_step. split; [|done].
  assert (0 <= size / 2 < size /\ size - size / 2 <= size / 2 + 1 /\ size / 2 <= size - size / 2)
    as (? & ? & ?) by dlia.
  destruct (go (elem (low + size / 2))) eqn:E; unfold bound_inv.
  - split_and!; try lia.
    + intros i Hi. apply (part i (low + size / 2)); [lia|lia|done].
    + intros i Hi. apply Hhi. lia.
  - split_and!; try lia; [done|].
    intros i Hi. destruct (go (elem i)) eqn:Ei; [|done].
    rewrite (part (low + size / 2) i) in E; [done|lia|lia|done].
Qed.

Lemma bound_loop8_inv fuel st :
  bound_inv st -> snd st < 8 ^ Z.of_nat (S fuel) ->
  bound_inv (bound_loop8 fuel go m d w st) /\ snd (bound_loop8 fuel go m d w st) < 8.
Proof.
  revert st. induction fuel as [|fuel IH]; intros st Hinv Hs; cbn [bound_loop8]; [done|].
  destruct (Z.leb_spec 8 (snd st)); [|done].
  destruct (bound_step_inv st Hinv ltac:(lia)) as [H1 E1].
  destruct (bound_step_inv _ H1 ltac:(rewrite E1; dlia)) as [H2 E2].
  destruct (bound_step_inv _ H2 ltac:(rewrite E2, E1; dlia)) as [H3 E3].
  apply IH; [done|]. rewrite E3, E2, E1, !Z.div_div by lia. change (2 * 2 * 2) with 8.
  apply Z.div_lt_upper_bound; [lia|]. rewrite <- Z.pow_succ_r, <- Nat2Z.inj_succ by lia. done.
Qed.

Lemma bound_loop1_inv fuel st :
  bound_inv st -> snd st < 2 ^ Z.of_nat fuel ->
  bound_inv (bound_loop1 fuel go m d w st) /\ snd (bound_loop1 fuel go m d w st) = 0.
Proof.
  revert st. induction fuel as [|fuel IH]; intros st Hinv Hs; cbn [bound_loop1].
  - split; [done|]. destruct st. unfold bound_inv in Hinv. cbn in *. lia.
  - destruct (Z.ltb_spec 0 (snd st)).
    + destruct (bound_step_inv st Hinv ltac:(lia)) as [H1 E1]. apply IH; [done|].
      rewrite E1. apply Z.div_lt_upper_bound; [lia|].
      by rewrite <- Z.pow_succ_r, <- Nat2Z.inj_succ by lia.
    + split; [done|]. destruct st. unfold bound_inv in Hinv. cbn in *. lia.
Qed.

(** The two loops end at the partition point. *)
Lemma bound_search :
  0 <= n < 2 ^ 64 ->
  let r := fst (bound_loop1 64 go m d w (bound_loop8 64 go m d w (0, n))) in
  0 <= r <= n /\ (forall i, 0 <= i < r -> go (elem i) = true) /\
  (forall i, r <= i < n -> go (elem i) = false).
Proof.
  intros Hn.
  assert (H0 : bound_inv (0, n)) by (unfold bound_inv; split_and!; try lia; intros; lia).
  destruct (bound_loop8_inv 64 (0, n) H0) as [H1 E1].
  { cbn [snd]. eapply Z.lt_le_trans; [apply Hn|]. by apply Z.leb_le. }
  destruct (bound_loop1_inv 64 _ H1) as [H2 E2].
  { eapply Z.lt_le_trans; [apply E1|]. by apply Z.leb_le. }
  destruct (bound_loop1 64 _ _ _ _ _) as [r s]. cbn [fst snd] in *. subst s.
  destruct H2 as (? & ? & ? & Hlo & Hhi). rewrite Z.add_0_r in Hhi. split_and!; auto with lia.
Qed.
End Bounds.

(** The elements below [n] are in non-decreasing order. *)
Definition sorted_elems (m : bytes) (d w n : Z) : Prop :=
  forall i j, 0 <= i <= j -> j < n -> get_direct m d w i <= get_direct m d w j.

Lemma lower_bound_correct m d w n v :
  sorted_elems m d w n -> 0 <= n < 2 ^ 64 ->
  let r := lower_bound m d w n v in
  0 <= r <= n /\ (forall i, 0 <= i < r -> get_direct m d w i < v) /\
  (forall i, r <= i < n -> v <= get_direct m d w i).
Proof.
  intros Hs Hn. unfold lower_bound.
  destruct (bound_search (fun x => x <? v) m d w n) as (Hr & Hlo & Hhi); [|done|].
  - intros i j Hi Hj H. specialize (Hs i j Hi Hj). lia.
  - cbv zeta. split; [done|]. split; intros i Hi; [specialize (Hlo i Hi)|specialize (Hhi i Hi)]; lia.
Qed.

Lemma upper_bound_correct m d w n v :
  sorted_elems m d w n -> 0 <= n < 2 ^ 64 ->
  let r := upper_bound m d w n v in
  0 <= r <= n /\ (forall i, 0 <= i < r -> get_direct m d w i <= v) /\
  (forall i, r <= i < n -> v < get_direct m d w i).
Proof.
  intros Hs Hn. unfold upper_bound.
  destruct (bound_search (fun x => v >=? x) m d w n) as (Hr & Hlo & Hhi); [|done|].
  - intros i j Hi Hj H. specialize (Hs i j Hi Hj). lia.
  - cbv zeta. split; [done|]. split; intros i Hi; [specialize (Hlo i Hi)|specialize (Hhi i Hi)]; lia.
Qed.

#[global] Opaque lower_bound upper_bound.
