(* ===== verification/ArrayBits.v ===== *)
(** * Packed elements as bits, and the bulk moves of array.cpp

    Bit [k] of the data at [d] is bit [k mod 8] of byte [k / 8]; element [i] of
    width [w] is the bits [[i * w, (i + 1) * w)].  Stores, block moves and the
    word-wise [open_bit_gap] are described by what they do to the bits, which
    makes stores of one width and loads of another comparable. *)

From S2P Require Import Prelude Bytes NodeHeader ArrayDirect.

(** ** Code *)

(** [while (i > lo) { --i; set<w'>(i + shift, get<w>(i)); }] from [i = lo + cnt];
    the loops of [Array::insert] and [Array::do_ensure_minimum_width]. *)
Fixpoint widen_loop (cnt : nat) (lo shift : Z) (m : bytes) (d w w' : Z) : bytes :=
  match cnt with
  | O => m
  | S cnt' =>
      let i := lo + Z.of_nat cnt' in
      widen_loop cnt' lo shift (set_direct m d w' (i + shift) (get_direct m d w i)) d w w'
  end.

Definition get_word (m : bytes) (d k : Z) : Z := le_val 8 m (d + 8 * k).
Definition set_word (m : bytes) (d k v : Z) : bytes := put_loop 8 0 m (d + 8 * k) v.

(** [for (k = last_word; k > first_word; --k)], [cnt = last_word - first_word]. *)
Fixpoint gap_loop (cnt : nat) (m : bytes) (d first_word width : Z) : bytes :=
  match cnt with
  | O => m
  | S cnt' =>
      let k := first_word + Z.of_nat cnt in
      let v := Z.lor (u64 (Z.shiftl (get_word m d k) width)) (Z.shiftr (get_word m d (k - 1)) (64 - width)) in
      gap_loop cnt' (set_word m d k v) d first_word width
  end.

Definition open_bit_gap (m : bytes) (d used_bits pos_bits width : Z) : bytes :=
  let first_word := pos_bits / 64 in
  let last_word := (used_bits + width - 1) / 64 in
  let m := gap_loop (Z.to_nat (last_word - first_word)) m d first_word width in
  let word := get_word m d first_word in
  let off := pos_bits mod 64 in
  let keep := if off =? 0 then 0 else Z.shiftr (2 ^ 64 - 1) (64 - off) in
  set_word m d first_word
    (Z.lor (Z.land word keep) (u64 (Z.shiftl (Z.land word (2 ^ 64 - 1 - keep)) width))).

(** The element loop of [Array::move] for widths below eight bits. *)
Fixpoint move_loop (cnt : nat) (m : bytes) (d w i dest : Z) : bytes :=
  match cnt with
  | O => m
  | S cnt' => move_loop cnt' (set_direct m d w dest (get_direct m d w i)) d w (i + 1) (dest + 1)
  end.

(** ** Bits *)

Definition tb (m : bytes) (d k : Z) : bool := Z.testbit (m (d + k / 8)) (k mod 8).

Lemma testbit_schar b k : 0 <= b < 2 ^ 8 -> 0 <= k < 8 -> Z.testbit (schar b) k = Z.testbit b k.
Proof.
  intros Hb Hk. unfold schar, sext. rewrite Z.mod_small by lia. zdec; [done|].
  rewrite <- (Z.mod_pow2_bits_low (b - 2 ^ 8) 8 k), <- (Z.mod_pow2_bits_low b 8 k) by lia. f_equal.
  replace (b - 2 ^ 8) with (b + (-1) * 2 ^ 8) by lia. apply Z.mod_add. lia.
Qed.

Lemma byte_bits_inj a b : (forall k, 0 <= k < 8 -> Z.testbit a k = Z.testbit b k) -> u8 a = u8 b.
Proof.
  intros H. apply Z.bits_inj'. intros k Hk. unfold u8. rewrite !testbit_mod_pow2 by lia.
  destruct (Z.ltb_spec k 8); [|done]. cbn. apply H. lia.
Qed.

(** The bit positions of an element inside its byte. *)
Lemma sub_position w i b : sub_width w -> 0 <= i -> 0 <= b < w ->
  (i * w + b) / 8 = i / per_byte w /\ (i * w + b) mod 8 = i mod per_byte w * w + b /\
  0 <= i mod per_byte w * w + b < 8.
Proof.
  unfold per_byte. intros [->|[->| ->]] Hi Hb.
  - change (8 / 1) with 8. dlia.
  - change (8 / 2) with 4. dlia.
  - change (8 / 4) with 2. dlia.
Qed.

Lemma byte_position k i q b : 0 <= b < 8 -> (i * (8 * k) + (8 * q + b)) / 8 = i * k + q /\
  (i * (8 * k) + (8 * q + b)) mod 8 = b.
Proof.
  intros Hb. replace (i * (8 * k) + (8 * q + b)) with (b + (i * k + q) * 8) by lia.
  rewrite Z.div_add, Z.mod_add, Z.div_small, Z.mod_small by lia. lia.
Qed.

(** An element is determined by its bits. *)
Lemma get_direct_tb m m' d d' w i i' :
  valid_width w -> is_bytes m -> is_bytes m' -> 0 <= i -> 0 <= i' ->
  (forall b, 0 <= b < w -> tb m d (i * w + b) = tb m' d' (i' * w + b)) ->
  get_direct m d w i = get_direct m' d' w i'.
Proof.
  intros Hw Hm Hm' Hi Hi' H. apply valid_width_split in Hw as [->|[Hw|(k & Hk & ->)]].
  - done.
  - rewrite !get_direct_sub by done. unfold sub_get. apply Z.bits_inj'. intros b Hb.
    replace (2 ^ w - 1) with (Z.ones w) by (rewrite Z.ones_equiv; lia).
    rewrite !Z.land_spec, Z.testbit_ones_nonneg by (destruct Hw as [->|[->| ->]]; lia).
    destruct (Z.ltb_spec b w); [|by rewrite !andb_false_r]. rewrite !andb_true_r, !Z.shiftr_spec by lia.
    destruct (sub_position w i b Hw Hi ltac:(lia)) as (H1 & H2 & H3).
    destruct (sub_position w i' b Hw Hi' ltac:(lia)) as (H1' & H2' & H3').
    rewrite !testbit_schar by (apply Hm || apply Hm' || lia).
    specialize (H b ltac:(lia)). unfold tb in H. rewrite H1, H2, H1', H2' in H.
    rewrite !(Z.add_comm b). exact H.
  - rewrite !get_direct_bytes by done. f_equal. apply le_val_ext. intros q Hq.
    apply byte_bits_inj. intros b Hb. specialize (H (8 * q + b) ltac:(lia)). unfold tb in H.
    destruct (byte_position (Z.of_nat k) i q b Hb) as [H1 H2].
    destruct (byte_position (Z.of_nat k) i' q b Hb) as [H1' H2'].
    rewrite H1, H2, H1', H2' in H. by rewrite <- !Z.add_assoc.
Qed.

Lemma testbit_sub_set w b bit v k :
  0 < w -> 0 <= bit -> 0 <= k < 8 ->
  Z.testbit (sub_set w b bit v) k = if in_range bit w k then Z.testbit v (k - bit) else Z.testbit b k.
Proof.
  intros Hw Hbit Hk. unfold sub_set, u8. rewrite testbit_mod_pow2 by lia.
  destruct (Z.ltb_spec k 8); [|lia]. cbn [andb].
  replace (2 ^ w - 1) with (Z.ones w) by (rewrite Z.ones_equiv; lia).
  rewrite Z.lor_spec, Z.land_spec, Z.lnot_spec by lia.
  destruct (Z.le_gt_cases bit k).
  - rewrite !Z.shiftl_spec by lia. rewrite Z.land_spec, Z.testbit_ones_nonneg by lia.
    rdec; destruct (Z.ltb_spec (k - bit) w); try lia; cbn; btauto.
  - rewrite !Z.shiftl_spec_low by lia. rdec; [lia|]. cbn. btauto.
Qed.

(** The bits a store changes. *)
Lemma set_direct_tb m d w i v k :
  valid_width w -> 0 <= i -> 0 <= k ->
  tb (set_direct m d w i v) d k = if in_range (i * w) w k then Z.testbit v (k - i * w) else tb m d k.
Proof.
  intros Hw Hi Hk. unfold tb. apply valid_width_split in Hw as [->|[Hw|(n & Hn & ->)]].
  - rdec; [lia|done].
  - rewrite set_direct_sub by done. pose proof (per_byte_pos w Hw).
    pose proof (Z.mod_pos_bound i (per_byte w) ltac:(lia)).
    destruct (Z.eq_dec (k / 8) (i / per_byte w)) as [He|Hne].
    + rewrite He, upd_eq, testbit_sub_set by (destruct Hw as [->|[->| ->]]; try lia; apply Z.mod_pos_bound; lia).
      assert (Hpos : k mod 8 - i mod per_byte w * w = k - i * w).
      { unfold per_byte in *. destruct Hw as [->|[->| ->]].
        - change (8 / 1) with 8 in *. dlia.
        - change (8 / 2) with 4 in *. dlia.
        - change (8 / 4) with 2 in *. dlia. }
      rewrite Hpos. repeat rdec; try done; lia.
    + rewrite upd_ne by lia. rdec; [|done]. exfalso. apply Hne.
      destruct (sub_position w i (k - i * w) Hw Hi ltac:(lia)) as [Hq _].
      by replace (i * w + (k - i * w)) with k in Hq by lia.
  - rewrite set_direct_bytes, put_loop_at by done. set (q := k / 8). set (b := k mod 8).
    assert (Hkq : k = 8 * q + b /\ 0 <= b < 8) by (subst q b; dlia). clearbody q b. destruct Hkq as [-> Hb].
    destruct (in_range_spec (d + i * Z.of_nat n + 0) (Z.of_nat n) (d + q)) as [H1|H1];
      destruct (in_range_spec (i * (8 * Z.of_nat n)) (8 * Z.of_nat n) (8 * q + b)) as [H2|H2]; try nia; [|done].
    unfold u8. rewrite testbit_mod_pow2 by lia. destruct (Z.ltb_spec b 8); [|lia]. cbn [andb].
    rewrite Z.shiftr_spec by lia. f_equal. lia.
Qed.

(** A store of width [w'] leaves the elements of any width it does not overlap. *)
Lemma get_set_cross m d w w' i j v :
  is_bytes m -> valid_width w -> valid_width w' -> 0 <= i -> 0 <= j ->
  (j + 1) * w <= i * w' \/ (i + 1) * w' <= j * w ->
  get_direct (set_direct m d w' i v) d w j = get_direct m d w j.
Proof.
  intros Hm Hw Hw' Hi Hj Hdis. apply get_direct_tb; try done; [by apply is_bytes_set_direct|].
  intros b Hb. rewrite set_direct_tb by (try done; nia). rdec; [nia|done].
Qed.

Lemma valid_width_range w : valid_width w -> 0 <= w <= 64.
Proof. unfold valid_width. lia. Qed.

Lemma fits_mono w w' v : valid_width w -> valid_width w' -> w <= w' -> fits w v -> fits w' v.
Proof.
  intros Hw Hw' Hle. width_cases Hw; width_cases Hw'; try lia;
    unfold fits, lbound_for_width, ubound_for_width; simpl; lia.
Qed.

(** ** The widening loop *)

Section Widen.
Context (d w w' lo shift : Z) (Hw : valid_width w) (Hw' : valid_width w') (Hle : w <= w').
Context (Hlo : 0 <= lo) (Hsh : 0 <= shift).

Lemma is_bytes_widen cnt m : is_bytes m -> is_bytes (widen_loop cnt lo shift m d w w').
Proof. revert m. induction cnt as [|cnt IH]; intros m Hm; [done|]. apply IH. by apply is_bytes_set_direct. Qed.

(** Bits outside the written elements do not change. *)
Lemma widen_loop_frame cnt m k :
  0 <= k -> ~ (lo + shift) * w' <= k < (lo + Z.of_nat cnt + shift) * w' ->
  tb (widen_loop cnt lo shift m d w w') d k = tb m d k.
Proof.
  intros Hk. revert m. induction cnt as [|cnt IH]; intros m Hn; [done|]. cbn [widen_loop].
  pose proof (valid_width_range w' Hw').
  rewrite IH by nia. rewrite set_direct_tb by (try done; lia). rdec; [nia|done].
Qed.

Lemma widen_loop_get cnt m j :
  is_bytes m -> lo <= j < lo + Z.of_nat cnt ->
  get_direct (widen_loop cnt lo shift m d w w') d w' (j + shift) = get_direct m d w j.
Proof.
  pose proof (valid_width_range w Hw). pose proof (valid_width_range w' Hw').
  revert m. induction cnt as [|cnt IH]; intros m Hm Hj; [lia|]. cbn [widen_loop].
  set (i := lo + Z.of_nat cnt). set (m1 := set_direct m d w' (i + shift) (get_direct m d w i)).
  assert (Hm1 : is_bytes m1) by by apply is_bytes_set_direct.
  destruct (Z.eq_dec j i) as [->|Hne].
  - rewrite (get_direct_tb _ m1 d d w' (i + shift) (i + shift)); try done; try lia.
    + apply get_set_direct_eq; try done; [|lia].
      apply (fits_mono w); try done. apply get_direct_fits; (done || lia).
    + by apply is_bytes_widen.
    + intros b Hb. apply widen_loop_frame; nia.
  - rewrite IH by (try done; lia). apply get_set_cross; try done; nia.
Qed.

(** Elements at the old width, below everything written, survive. *)
Lemma widen_loop_below cnt m j :
  is_bytes m -> 0 <= j -> j + 1 <= lo ->
  get_direct (widen_loop cnt lo shift m d w w') d w j = get_direct m d w j.
Proof.
  intros Hm Hj Hlt. pose proof (valid_width_range w' Hw').
  apply get_direct_tb; try done; [by apply is_bytes_widen|]. intros b Hb. apply widen_loop_frame; nia.
Qed.

(** Elements at the new width, above everything written, survive. *)
Lemma widen_loop_above cnt m j :
  is_bytes m -> 0 <= j -> lo + Z.of_nat cnt + shift <= j ->
  get_direct (widen_loop cnt lo shift m d w w') d w' j = get_direct m d w' j.
Proof.
  intros Hm Hj Hlt. pose proof (valid_width_range w' Hw').
  apply get_direct_tb; try done; [by apply is_bytes_widen|]. intros b Hb. apply widen_loop_frame; nia.
Qed.
End Widen.

(** ** Words *)

Lemma testbit_le_val n m a b : 0 <= b < 8 * Z.of_nat n ->
  Z.testbit (le_val n m a) b = Z.testbit (u8 (m (a + b / 8))) (b mod 8).
Proof.
  intros Hb. rewrite <- (le_val_byte n m a (b / 8)) by dlia. unfold u8.
  pose proof (Z.mod_pos_bound b 8 ltac:(lia)).
  rewrite testbit_mod_pow2 by lia. destruct (Z.ltb_spec (b mod 8) 8); [|lia]. cbn [andb].
  rewrite Z.shiftr_spec by lia. f_equal. dlia.
Qed.

Lemma testbit_get_word m d q b : is_bytes m -> 0 <= b < 64 ->
  Z.testbit (get_word m d q) b = tb m d (64 * q + b).
Proof.
  intros Hm Hb. unfold get_word, tb. rewrite testbit_le_val by lia. rewrite u8_small by apply Hm.
  replace ((64 * q + b) / 8) with (8 * q + b / 8) by dlia. replace ((64 * q + b) mod 8) with (b mod 8) by dlia.
  by rewrite Z.add_assoc.
Qed.

Lemma get_word_range m d q : 0 <= get_word m d q < 2 ^ 64.
Proof. apply (le_val_range 8). Qed.

Lemma set_word_direct m d q v : set_word m d q v = set_direct m d 64 q v.
Proof. unfold set_word, set_direct. cbn [Z.eqb Pos.eqb]. by rewrite Z.mul_comm. Qed.

Lemma set_word_tb m d q v k : 0 <= q -> 0 <= k ->
  tb (set_word m d q v) d k = if in_range (64 * q) 64 k then Z.testbit v (k - 64 * q) else tb m d k.
Proof.
  intros Hq Hk. rewrite set_word_direct, set_direct_tb by (unfold valid_width; tauto || lia).
  by rewrite (Z.mul_comm q).
Qed.

Lemma is_bytes_set_word m d q v : is_bytes m -> is_bytes (set_word m d q v).
Proof. apply is_bytes_put. Qed.

Lemma is_bytes_gap_loop cnt m d f w : is_bytes m -> is_bytes (gap_loop cnt m d f w).
Proof.
  revert m. induction cnt as [|cnt IH]; intros m Hm; [done|]. cbn [gap_loop]. apply IH. by apply is_bytes_set_word.
Qed.

Lemma is_bytes_open_bit_gap m d u p w : is_bytes m -> is_bytes (open_bit_gap m d u p w).
Proof. intros Hm. apply is_bytes_set_word, is_bytes_gap_loop, Hm. Qed.

(** A word shifted up by [w], filled from the word below. *)
Lemma testbit_shift_in x y w b :
  0 <= x < 2 ^ 64 -> 0 <= y < 2 ^ 64 -> 0 < w < 64 -> 0 <= b < 64 ->
  Z.testbit (Z.lor (u64 (Z.shiftl x w)) (Z.shiftr y (64 - w))) b =
  if b <? w then Z.testbit y (b + 64 - w) else Z.testbit x (b - w).
Proof.
  intros Hx Hy Hw Hb. rewrite Z.lor_spec. unfold u64. rewrite testbit_mod_pow2 by lia.
  destruct (Z.ltb_spec b 64); [|lia]. rewrite Z.shiftr_spec by lia. cbn [andb].
  replace (b + (64 - w)) with (b + 64 - w) by lia. destruct (Z.ltb_spec b w).
  - by rewrite Z.shiftl_spec_low by lia.
  - rewrite Z.shiftl_spec by lia. rewrite (testbit_above y 64) by lia. apply orb_false_r.
Qed.

Lemma gap_loop_tb cnt m d f w k :
  is_bytes m -> 0 <= f -> 0 < w < 64 -> 0 <= k ->
  tb (gap_loop cnt m d f w) d k =
  if in_range (64 * (f + 1)) (64 * Z.of_nat cnt) k then tb m d (k - w) else tb m d k.
Proof.
  intros Hm Hf Hw Hk. revert m Hm. induction cnt as [|cnt IH]; intros m Hm; cbn [gap_loop].
  { rdec; [lia|done]. }
  rewrite IH by by apply is_bytes_set_word.
  set (q := f + Z.of_nat (S cnt)).
  destruct (in_range_spec (64 * (f + 1)) (64 * Z.of_nat cnt) k) as [Hin|Hin].
  - rewrite set_word_tb by lia. repeat rdec; (done || lia).
  - rewrite set_word_tb by lia. destruct (in_range_spec (64 * q) 64 k) as [Hq|Hq].
    + rewrite testbit_shift_in by (try apply get_word_range; lia).
      destruct (Z.ltb_spec (k - 64 * q) w); rewrite testbit_get_word by (done || lia); rdec; try lia; f_equal; lia.
    + rdec; [lia|done].
Qed.

Lemma testbit_keep off b : 0 <= off < 64 -> 0 <= b < 64 ->
  Z.testbit (if off =? 0 then 0 else Z.shiftr (2 ^ 64 - 1) (64 - off)) b = (b <? off).
Proof.
  intros Ho Hb. destruct (Z.eqb_spec off 0) as [->|].
  - rewrite Z.bits_0. destruct (Z.ltb_spec b 0); [lia|done].
  - change (2 ^ 64 - 1) with (Z.ones 64). rewrite Z.shiftr_spec, Z.testbit_ones_nonneg by lia.
    destruct (Z.ltb_spec (b + (64 - off)) 64), (Z.ltb_spec b off); (done || lia).
Qed.

(** The kept low part of a word, and the rest shifted up by [w]. *)
Lemma testbit_split_word x keep off w b :
  0 <= x < 2 ^ 64 -> (forall b, 0 <= b < 64 -> Z.testbit keep b = (b <? off)) ->
  0 <= keep < 2 ^ 64 -> 0 <= off < 64 -> 0 < w < 64 -> 0 <= b < 64 ->
  Z.testbit (Z.lor (Z.land x keep) (u64 (Z.shiftl (Z.land x (2 ^ 64 - 1 - keep)) w))) b =
  if b <? off then Z.testbit x b else if b <? off + w then false else Z.testbit x (b - w).
Proof.
  intros Hx Hk Hkr Ho Hw Hb.
  assert (Hnk : forall c, 0 <= c < 64 -> Z.testbit (2 ^ 64 - 1 - keep) c = negb (c <? off)).
  { intros c Hc. replace (2 ^ 64 - 1 - keep) with ((Z.lnot keep) mod 2 ^ 64).
    - rewrite testbit_mod_pow2, Z.lnot_spec, Hk by lia. destruct (Z.ltb_spec c 64); [done|lia].
    - unfold Z.lnot. replace (Z.pred (- keep)) with (2 ^ 64 - 1 - keep + (-1) * 2 ^ 64) by lia.
      rewrite Z.mod_add, Z.mod_small by lia. done. }
  rewrite Z.lor_spec, Z.land_spec, Hk by lia. unfold u64. rewrite testbit_mod_pow2 by lia.
  destruct (Z.ltb_spec b 64); [|lia]. cbn [andb]. destruct (Z.lt_ge_cases b w).
  - rewrite Z.shiftl_spec_low by lia. destruct (Z.ltb_spec b off); [by rewrite andb_true_r, orb_false_r|].
    destruct (Z.ltb_spec b (off + w)); [|lia]. by rewrite andb_false_r.
  - rewrite Z.shiftl_spec, Z.land_spec, Hnk by lia.
    destruct (Z.ltb_spec b off), (Z.ltb_spec (b - w) off), (Z.ltb_spec b (off + w)); try lia; cbn [negb]; btauto.
Qed.

(** What [open_bit_gap] does to the bits: nothing below the position, a gap of
    zeros, everything above moved up, and nothing past the last word touched. *)
Lemma open_bit_gap_tb m d used pos w k :
  is_bytes m -> 0 <= pos <= used -> 0 < w < 64 -> pos mod 64 + w <= 64 -> 0 <= k ->
  tb (open_bit_gap m d used pos w) d k =
  if k <? pos then tb m d k else if k <? pos + w then false
  else if k <? 64 * ((used + w - 1) / 64 + 1) then tb m d (k - w) else tb m d k.
Proof.
  intros Hm Hp Hw Hoff Hk. unfold open_bit_gap.
  set (f := pos / 64). set (l := (used + w - 1) / 64). set (off := pos mod 64) in *.
  assert (Hfl : 0 <= f <= l /\ pos = 64 * f + off /\ 0 <= off < 64) by (subst f l off; dlia).
  clearbody f l off. destruct Hfl as (Hfl & -> & Ho).
  set (g := gap_loop _ m d f w). assert (Hg : is_bytes g) by by apply is_bytes_gap_loop.
  assert (Hgt : forall j, 0 <= j -> tb g d j =
    if in_range (64 * (f + 1)) (64 * (l - f)) j then tb m d (j - w) else tb m d j).
  { intros j Hj. subst g. rewrite gap_loop_tb by (done || lia). by rewrite Z2Nat.id by lia. }
  clearbody g. rewrite set_word_tb by lia. destruct (in_range_spec (64 * f) 64 k) as [Hin|Hin].
  - assert (Hkr : 0 <= (if off =? 0 then 0 else Z.shiftr (2 ^ 64 - 1) (64 - off)) < 2 ^ 64).
    { destruct (Z.eqb_spec off 0); [lia|]. rewrite Z.shiftr_div_pow2 by lia. split; [apply Z.div_pos; lia|].
      apply Z.div_lt_upper_bound; [lia|]. assert (1 <= 2 ^ (64 - off)) by (apply (Z.pow_le_mono_r 2 0); lia). nia. }
    rewrite (testbit_split_word _ _ off) by (auto using get_word_range, testbit_keep; lia).
    destruct (Z.ltb_spec (k - 64 * f) off), (Z.ltb_spec k (64 * f + off)); try lia.
    { rewrite testbit_get_word, Hgt by (done || lia). rdec; [lia|]. f_equal; lia. }
    destruct (Z.ltb_spec (k - 64 * f) (off + w)), (Z.ltb_spec k (64 * f + off + w)); try lia; try done.
    rewrite testbit_get_word, Hgt by (done || lia). rdec; [lia|].
    destruct (Z.ltb_spec k (64 * (l + 1))); [f_equal; lia|lia].
  - rewrite Hgt by done. destruct (Z.ltb_spec k (64 * f + off)); [rdec; [lia|done]|].
    destruct (Z.ltb_spec k (64 * f + off + w)); [lia|].
    destruct (Z.ltb_spec k (64 * (l + 1))); rdec; (done || lia).
Qed.

(** The gap opened for one element. *)
Lemma open_bit_gap_get m d w n ndx j :
  is_bytes m -> sub_width w -> 0 <= ndx <= n -> 0 <= j <= n -> j <> ndx ->
  get_direct (open_bit_gap m d (n * w) (ndx * w) w) d w j =
  get_direct m d w (if j <? ndx then j else j - 1).
Proof.
  intros Hm Hw Hn Hj Hne. pose proof (is_bytes_open_bit_gap m d (n * w) (ndx * w) w Hm).
  assert (Hv : valid_width w) by (destruct Hw as [->|[->| ->]]; unfold valid_width; tauto).
  assert (Hw8 : 0 < w < 64) by (destruct Hw as [->|[->| ->]]; lia).
  assert (Hfit : (ndx * w) mod 64 + w <= 64) by (destruct Hw as [->|[->| ->]]; dlia).
  apply get_direct_tb; try done; [lia|destruct (Z.ltb_spec j ndx); lia|]. intros b Hb.
  rewrite open_bit_gap_tb by (try done; nia).
  destruct (Z.ltb_spec j ndx); destruct (Z.ltb_spec (j * w + b) (ndx * w)); try nia; [done|].
  destruct (Z.ltb_spec (j * w + b) (ndx * w + w)); [nia|].
  destruct (Z.ltb_spec (j * w + b) (64 * ((n * w + w - 1) / 64 + 1))); [f_equal; nia|].
  exfalso. assert (j * w + b <= n * w + w - 1) by nia. dlia.
Qed.

(** ** Block moves *)

(** A block move of whole elements. *)
Lemma blit_get m d k from dest cnt j :
  (k = 1 \/ k = 2 \/ k = 4 \/ k = 8)%nat -> is_bytes m -> 0 <= from -> 0 <= dest -> 0 <= cnt -> 0 <= j ->
  let w := 8 * Z.of_nat k in let n := Z.of_nat k in
  get_direct (blit m (d + dest * n) m (d + from * n) (cnt * n)) d w j =
  if in_range dest cnt j then get_direct m d w (j - dest + from) else get_direct m d w j.
Proof.
  intros Hk Hm Hf Hd Hc Hj w n. subst w n. rewrite !get_direct_bytes by (auto using is_bytes_blit).
  destruct (in_range_spec dest cnt j); f_equal; apply le_val_ext; intros q Hq; f_equal; unfold blit.
  - rdec; [f_equal; nia|nia].
  - rdec; [nia|done].
Qed.

Lemma is_bytes_move_loop cnt m d w i dest : is_bytes m -> is_bytes (move_loop cnt m d w i dest).
Proof.
  revert m i dest. induction cnt as [|cnt IH]; intros m i dest Hm; [done|]. apply IH. by apply is_bytes_set_direct.
Qed.

(** The element loop moves down as a block move does. *)
Lemma move_loop_get cnt m d w i dest j :
  is_bytes m -> valid_width w -> 0 <= dest -> dest <= i -> 0 <= j ->
  get_direct (move_loop cnt m d w i dest) d w j =
  if in_range dest (Z.of_nat cnt) j then get_direct m d w (j - dest + i) else get_direct m d w j.
Proof.
  intros Hm Hw. revert m i dest Hm. induction cnt as [|cnt IH]; intros m i dest Hm Hd Hle Hj; cbn [move_loop].
  { rdec; [lia|done]. }
  assert (Hfit : fits w (get_direct m d w i)) by (apply get_direct_fits; (done || lia)).
  rewrite IH by (auto using is_bytes_set_direct; lia). repeat rdec; try lia.
  - rewrite get_set_direct_ne by (done || lia). f_equal. lia.
  - replace j with dest by lia. rewrite get_set_direct_eq by done. f_equal. lia.
  - by rewrite get_set_direct_ne by (done || lia).
Qed.
