(* ===== verification/Node.v ===== *)
(** * Array accessors and their memory (src/llbt/node.hpp, node.cpp, and the
      accessor state of array.hpp)

    An accessor is a record: the ref, the block of memory it is attached to
    (header at offset 0, data at offset 8), and the cached size, width and
    flags.  The allocator is an interface; the accessor never sees more of it
    than allocation, reallocation, release and the read-only test.  The parent
    is represented by the ref it holds for this child ([update_parent] changes
    it). *)

From S2P Require Import Prelude Bytes NodeHeader ArrayDirect.

(** ** The allocator interface (src/llbt/alloc.hpp) *)

Class Allocator (A : Type) := {
  al_alloc : A -> Z -> Z * bytes * A;
  al_realloc : A -> Z -> bytes -> Z -> Z -> Z * bytes * A;
  al_free : A -> Z -> bytes -> A;
  al_is_read_only : A -> Z -> bool }.

(** What every client relies on.  A ref is read-only when it lies below a
    baseline that these calls do not move; new blocks hold arbitrary bytes. *)
Class AllocatorSpec (A : Type) `{Allocator A} := {
  al_alloc_writable s n : al_is_read_only s (al_alloc s n).1.1 = false;
  al_alloc_bytes s n : is_bytes (al_alloc s n).1.2;
  al_alloc_ro s n r : al_is_read_only (al_alloc s n).2 r = al_is_read_only s r;
  al_realloc_writable s r m old new : al_is_read_only s (al_realloc s r m old new).1.1 = false;
  al_realloc_bytes s r m old new : is_bytes m -> is_bytes (al_realloc s r m old new).1.2;
  al_realloc_copies s r m old new x :
    0 <= x < old -> old <= new -> (al_realloc s r m old new).1.2 x = m x;
  al_realloc_ro s r m old new r' : al_is_read_only (al_realloc s r m old new).2 r' = al_is_read_only s r';
  al_free_ro s r m r' : al_is_read_only (al_free s r m) r' = al_is_read_only s r' }.

(** ** Accessor state *)

Record Arr := mkArr {
  a_ref : Z;
  a_mem : bytes;
  a_size : Z;
  a_width : Z;
  a_lbound : Z;
  a_ubound : Z;
  a_is_inner : bool;
  a_has_refs : bool;
  a_context_flag : bool;
  a_parent_ref : Z }.

Definition with_mem (a : Arr) (m : bytes) : Arr :=
  mkArr (a_ref a) m (a_size a) (a_width a) (a_lbound a) (a_ubound a) (a_is_inner a) (a_has_refs a)
    (a_context_flag a) (a_parent_ref a).
Definition with_block (a : Arr) (ref : Z) (m : bytes) : Arr :=
  mkArr ref m (a_size a) (a_width a) (a_lbound a) (a_ubound a) (a_is_inner a) (a_has_refs a)
    (a_context_flag a) (a_parent_ref a).
Definition with_size (a : Arr) (n : Z) : Arr :=
  mkArr (a_ref a) (a_mem a) n (a_width a) (a_lbound a) (a_ubound a) (a_is_inner a) (a_has_refs a)
    (a_context_flag a) (a_parent_ref a).

Definition update_parent (a : Arr) : Arr :=
  mkArr (a_ref a) (a_mem a) (a_size a) (a_width a) (a_lbound a) (a_ubound a) (a_is_inner a) (a_has_refs a)
    (a_context_flag a) (a_ref a).

(** The header is at offset 0 of the block and the data at [data]. *)
Definition data : Z := header_size.

Definition update_width_cache_from_header (a : Arr) : Arr :=
  let width := get_width_from_header (a_mem a) 0 in
  mkArr (a_ref a) (a_mem a) (a_size a) width (default 0 (lbound_for_width width))
    (default 0 (ubound_for_width width)) (a_is_inner a) (a_has_refs a) (a_context_flag a) (a_parent_ref a).

(** [Array::init_from_mem]. *)
Definition init_from_mem (ref : Z) (m : bytes) (parent_ref : Z) : Arr :=
  update_width_cache_from_header
    (mkArr ref m (get_size_from_header m 0) 0 0 0 (get_is_inner_bptree_node_from_header m 0)
       (get_hasrefs_from_header m 0) (get_context_flag_from_header m 0) parent_ref).

Definition calc_byte_len (num_items width : Z) : Z :=
  let bits := num_items * width in
  let bytes := (bits + 7) / 8 in
  bytes + header_size.

Definition calc_item_count (bytes width : Z) : Z :=
  if width =? 0 then 2 ^ 64 - 1
  else
    let bytes_data := u64 (bytes - header_size) in
    let total_bits := u64 (bytes_data * 8) in
    total_bits / width.

Section Node.
Context {A : Type} `{Allocator A}.

Definition is_read_only (s : A) (a : Arr) : bool := al_is_read_only s (a_ref a).

(** [get_wtype_from_header] of a well-formed node; the unnamed pattern copies no more than the header. *)
Definition header_byte_size (m : bytes) (size : Z) : Z :=
  match get_wtype_from_header m 0 with
  | Some wtype => calc_byte_size wtype size (get_width_from_header m 0)
  | None => Z.land (0 + 7) (Z.lnot 7) + header_size
  end.

Definition do_copy_on_write (s : A) (a : Arr) (minimum_size : Z) : A * Arr :=
  let array_size := header_byte_size (a_mem a) (a_size a) in
  let new_size := Z.max array_size minimum_size in
  let new_size := Z.land (new_size + 0x7) (Z.lnot 0x7) in
  let new_size := new_size + 64 in
  let '(ref, fresh, s) := al_alloc s new_size in
  let m := blit fresh 0 (a_mem a) 0 array_size in
  let old_ref := a_ref a in
  let old_begin := a_mem a in
  let a := with_block a ref (set_capacity_in_header new_size m 0) in
  let a := update_parent a in
  (al_free s old_ref old_begin, a).

Definition copy_on_write (s : A) (a : Arr) : A * Arr :=
  if is_read_only s a then do_copy_on_write s a 0 else (s, a).

(** The new capacity [Node::alloc] asks for. *)
Definition grown_capacity (orig_capacity_bytes needed_bytes : Z) : Z :=
  let new_capacity_bytes := u64 (orig_capacity_bytes * 2) in
  let new_capacity_bytes :=
    if new_capacity_bytes <? orig_capacity_bytes then max_array_payload_aligned else new_capacity_bytes in
  let new_capacity_bytes :=
    if max_array_payload_aligned <? new_capacity_bytes then max_array_payload_aligned else new_capacity_bytes in
  if new_capacity_bytes <? needed_bytes then
    let rest := Z.land (Z.lnot needed_bytes) 0x7 + 1 in
    if rest <? 8 then needed_bytes + rest else needed_bytes
  else new_capacity_bytes.

Definition node_alloc (s : A) (a : Arr) (init_size new_width : Z) : A * Arr :=
  let needed_bytes := calc_byte_len init_size new_width in
  let '(s, a) := if is_read_only s a then do_copy_on_write s a needed_bytes else (s, a) in
  let orig_capacity_bytes := get_capacity_from_header (a_mem a) 0 in
  let orig_width := get_width_from_header (a_mem a) 0 in
  let '(s, a) :=
    if orig_capacity_bytes <? needed_bytes then
      let new_capacity_bytes := grown_capacity orig_capacity_bytes needed_bytes in
      let '(ref, m, s) := al_realloc s (a_ref a) (a_mem a) orig_capacity_bytes new_capacity_bytes in
      (s, update_parent (with_block a ref (set_capacity_in_header new_capacity_bytes m 0)))
    else (s, a) in
  let a := if new_width =? orig_width then a else with_mem a (set_width_in_header new_width (a_mem a) 0) in
  let a := with_mem a (set_size_in_header init_size (a_mem a) 0) in
  (s, with_size a init_size).

(** [Array::alloc]. *)
Definition array_alloc (s : A) (a : Arr) (init_size new_width : Z) : A * Arr :=
  let '(s, a) := node_alloc s a init_size new_width in (s, update_width_cache_from_header a).

Definition set_header_size (a : Arr) (value : Z) : Arr := with_mem a (set_size_in_header value (a_mem a) 0).

Definition initial_capacity : Z := 128.

Definition create_node (s : A) (size : Z) (context_flag : bool) (type : NodeType) (width_type : WidthType)
    (width : Z) : A * (Z * bytes) :=
  let byte_size_0 := calc_byte_size width_type size width in
  let byte_size := Z.max byte_size_0 initial_capacity in
  let '(ref, m, s) := al_alloc s byte_size in
  let is_inner := match type with type_InnerBptreeNode => true | _ => false end in
  let has_refs := match type with type_Normal => false | _ => true end in
  (s, (ref, init_header m 0 is_inner has_refs context_flag width_type width size byte_size)).
End Node.

(** ** Well-formed accessors *)

(** Arrays up to this many elements stay below the header's capacity field
    whatever their width. *)
Definition max_elems : Z := 16777000.

Definition header_of (a : Arr) (capacity : Z) : Header :=
  mkHeader (a_is_inner a) (a_has_refs a) (a_context_flag a) (Some wtype_Bits) (a_width a) (a_size a) capacity.

(** The capacity field is meaningful in writable memory only (on disk those
    bytes hold a checksum). *)
Definition capacity_ok (a : Arr) (capacity : Z) : Prop :=
  data + span (a_width a) (a_size a) <= capacity /\ capacity mod 8 = 0 /\ 0 <= capacity < 2 ^ 27.

Section Spec.
Context {A : Type} `{AllocatorSpec A}.

Record arr_wf (s : A) (a : Arr) : Prop := {
  wf_bytes : is_bytes (a_mem a);
  wf_header : exists capacity, read_header (a_mem a) 0 = header_of a capacity /\
    (is_read_only s a = false -> capacity_ok a capacity);
  wf_size : 0 <= a_size a <= max_elems;
  wf_width : valid_width (a_width a);
  wf_bounds : lbound_for_width (a_width a) = Some (a_lbound a) /\ ubound_for_width (a_width a) = Some (a_ubound a);
  wf_parent : a_parent_ref a = a_ref a }.

Lemma read_header_ext m m' h : (forall x, h <= x < h + 8 -> m x = m' x) -> read_header m h = read_header m' h.
Proof.
  intros E. unfold read_header, get_is_inner_bptree_node_from_header, get_hasrefs_from_header,
    get_context_flag_from_header, get_wtype_from_header, get_width_from_header, get_size_from_header,
    get_capacity_from_header.
  by rewrite (E h), (E (h + 1)), (E (h + 2)), (E (h + 4)), (E (h + 5)), (E (h + 6)), (E (h + 7)) by lia.
Qed.

Lemma span_bound w n : valid_width w -> 0 <= n <= max_elems -> 0 <= span w n <= 8 * n.
Proof.
  intros Hw Hn. pose proof Hw as Hw'. unfold span. width_cases Hw'; split; (apply Z.div_pos; lia) || dlia.
Qed.

Lemma calc_byte_len_span n w : calc_byte_len n w = data + span w n.
Proof. unfold calc_byte_len, data, span. lia. Qed.

Lemma grown_capacity_ok cap needed :
  0 <= cap -> cap mod 8 = 0 -> cap < needed -> 0 <= needed <= 2 ^ 27 - 64 ->
  let c := grown_capacity cap needed in needed <= c /\ c mod 8 = 0 /\ cap <= c /\ 0 <= c < 2 ^ 27.
Proof.
  intros Hc Hc8 Hlt Hn. unfold grown_capacity, max_array_payload_aligned.
  change (2 ^ 27) with 134217728 in *.
  rewrite u64_small by (change (2 ^ 64) with 18446744073709551616; lia).
  change 0x7 with (Z.ones 3). rewrite Z.land_ones by lia. unfold Z.lnot. change (2 ^ 3) with 8.
  repeat zdec; dlia.
Qed.

(** The array after [do_copy_on_write]: a writable private copy. *)
Lemma do_copy_on_write_spec s a minimum :
  arr_wf s a -> 0 <= minimum <= 2 ^ 27 - 256 ->
  let '(s', a') := do_copy_on_write s a minimum in
  arr_wf s' a' /\ is_read_only s' a' = false /\
  (forall r, al_is_read_only s' r = al_is_read_only s r) /\
  minimum <= get_capacity_from_header (a_mem a') 0 /\
  (forall x, data <= x < data + span (a_width a) (a_size a) -> a_mem a' x = a_mem a x) /\
  (a_size a', a_width a', a_lbound a', a_ubound a') = (a_size a, a_width a, a_lbound a, a_ubound a) /\
  (a_is_inner a', a_has_refs a', a_context_flag a') = (a_is_inner a, a_has_refs a, a_context_flag a).
Proof.
  intros [Hb (cap & Hh & _) Hs Hw Hbd Hp] Hmin. unfold do_copy_on_write, header_byte_size.
  destruct (read_header_fields _ _ _ _ _ _ _ _ _ Hh) as (_ & _ & _ & -> & -> & _). set (n := calc_byte_size wtype_Bits (a_size a) (a_width a)).
  assert (Hn : n mod 8 = 0 /\ data + span (a_width a) (a_size a) <= n < data + span (a_width a) (a_size a) + 8).
  { pose proof (calc_byte_size_spec wtype_Bits (a_size a) (a_width a)) as Hc. cbv zeta in Hc. fold n in Hc.
    unfold span, data, header_size. assert (0 <= a_width a) by (unfold valid_width in Hw; lia). lia. }
  pose proof (span_bound _ _ Hw Hs) as Hsp. unfold max_elems in Hs.
  set (c := Z.land (Z.max n minimum + 0x7) (Z.lnot 0x7) + 64).
  assert (Hc : minimum <= c /\ n <= c /\ c mod 8 = 0 /\ 0 <= c < 2 ^ 27).
  { subst c. unfold data, header_size in *. rewrite align8_spec by lia. change (2 ^ 27) with 134217728 in *. dlia. }
  clearbody n c. pose proof (al_alloc_writable s c) as Hro. pose proof (al_alloc_bytes s c) as Hfb.
  pose proof (al_alloc_ro s c) as Hrs. destruct (al_alloc s c) as [[ref fresh] s1]. cbn [fst snd] in *.
  set (m := blit fresh 0 (a_mem a) 0 n).
  assert (Hm : is_bytes m) by by apply is_bytes_blit.
  assert (Hmx : forall x, 0 <= x < n -> m x = a_mem a x).
  { intros x Hx. subst m. unfold blit. rdec; [f_equal; lia|lia]. }
  assert (Hhd : read_header (set_capacity_in_header c m 0) 0 = header_of a c).
  { rewrite read_set_capacity by lia. rewrite (read_header_ext m (a_mem a)).
    - rewrite Hh. reflexivity.
    - intros x Hx. apply Hmx. unfold data, header_size in *. lia. }
  split_and!; cbn; try done.
  - split; cbn; try done; [by apply is_bytes_set_capacity|]. exists c. split; [exact Hhd|].
    intros _. unfold capacity_ok. cbn. lia.
  - unfold is_read_only. cbn. rewrite al_free_ro, Hrs. exact Hro.
  - intros r. rewrite al_free_ro. apply Hrs.
  - destruct (read_header_fields _ _ _ _ _ _ _ _ _ Hhd) as (_ & _ & _ & _ & _ & _ & ->). lia.
  - intros x Hx. rewrite set_capacity_frame by (unfold data in Hx; lia). apply Hmx.
    unfold data, header_size in *. lia.
Qed.

(** What relocation and copying keep: the cached fields and the elements' bytes. *)
Record same_array (a a' : Arr) : Prop := {
  sa_size : a_size a' = a_size a;
  sa_width : a_width a' = a_width a;
  sa_lbound : a_lbound a' = a_lbound a;
  sa_ubound : a_ubound a' = a_ubound a;
  sa_inner : a_is_inner a' = a_is_inner a;
  sa_refs : a_has_refs a' = a_has_refs a;
  sa_ctx : a_context_flag a' = a_context_flag a;
  sa_data : forall x, data <= x < data + span (a_width a) (a_size a) -> a_mem a' x = a_mem a x }.

Definition same_ro (s s' : A) : Prop := forall r, al_is_read_only s' r = al_is_read_only s r.

Lemma same_array_refl a : same_array a a.
Proof. by split. Qed.

Lemma copy_on_write_min_spec s a minimum :
  arr_wf s a -> 0 <= minimum <= 2 ^ 27 - 256 ->
  let '(s', a') := if is_read_only s a then do_copy_on_write s a minimum else (s, a) in
  arr_wf s' a' /\ is_read_only s' a' = false /\ same_ro s s' /\ same_array a a'.
Proof.
  intros Hwf Hmin. destruct (is_read_only s a) eqn:Hro.
  - pose proof (do_copy_on_write_spec s a minimum Hwf Hmin) as Hc.
    destruct (do_copy_on_write s a minimum) as [s' a'].
    destruct Hc as (H1 & H2 & H3 & _ & H4 & H5 & H6). simplify_eq. by split_and!.
  - by split_and!.
Qed.

Lemma copy_on_write_spec s a :
  arr_wf s a ->
  let '(s', a') := copy_on_write s a in
  arr_wf s' a' /\ is_read_only s' a' = false /\ same_ro s s' /\ same_array a a'.
Proof. intros Hwf. apply copy_on_write_min_spec; [done|]. change (2 ^ 27) with 134217728. lia. Qed.

(** The growth step of [Node::alloc] on a writable array. *)
Definition grow (s : A) (a : Arr) (needed_bytes : Z) : A * Arr :=
  let orig_capacity_bytes := get_capacity_from_header (a_mem a) 0 in
  if orig_capacity_bytes <? needed_bytes then
    let new_capacity_bytes := grown_capacity orig_capacity_bytes needed_bytes in
    let '(ref, m, s) := al_realloc s (a_ref a) (a_mem a) orig_capacity_bytes new_capacity_bytes in
    (s, update_parent (with_block a ref (set_capacity_in_header new_capacity_bytes m 0)))
  else (s, a).

Lemma grow_spec s a needed :
  arr_wf s a -> is_read_only s a = false -> 0 <= needed <= 2 ^ 27 - 64 ->
  let '(s', a') := grow s a needed in
  arr_wf s' a' /\ is_read_only s' a' = false /\ same_ro s s' /\ same_array a a' /\
  needed <= get_capacity_from_header (a_mem a') 0.
Proof.
  intros Hwf Hro Hn. unfold grow. pose proof Hwf as [Hb (cap & Hh & Hcap) Hs Hw Hbd Hp].
  specialize (Hcap Hro). pose proof Hcap as (Hc1 & Hc8 & Hc).
  destruct (read_header_fields _ _ _ _ _ _ _ _ _ Hh) as (_ & _ & _ & _ & _ & _ & ->).
  destruct (Z.ltb_spec cap needed) as [Hlt|Hge].
  2:{ split_and!; try done.
      destruct (read_header_fields _ _ _ _ _ _ _ _ _ Hh) as (_ & _ & _ & _ & _ & _ & ->). done. }
  destruct (grown_capacity_ok cap needed ltac:(lia) Hc8 Hlt Hn) as (G1 & G2 & G3 & G4).
  set (c := grown_capacity cap needed) in *. clearbody c.
  pose proof (al_realloc_writable s (a_ref a) (a_mem a) cap c) as Hw1.
  pose proof (al_realloc_bytes s (a_ref a) (a_mem a) cap c Hb) as Hw2.
  pose proof (fun x Hx => al_realloc_copies s (a_ref a) (a_mem a) cap c x Hx G3) as Hw3.
  pose proof (al_realloc_ro s (a_ref a) (a_mem a) cap c) as Hw4.
  destruct (al_realloc s (a_ref a) (a_mem a) cap c) as [[ref m] s1]. cbn [fst snd] in *.
  pose proof (span_bound _ _ Hw Hs) as Hsp.
  assert (Hhd : read_header (set_capacity_in_header c m 0) 0 = header_of a c).
  { rewrite read_set_capacity by done. rewrite (read_header_ext m (a_mem a)).
    - rewrite Hh. reflexivity.
    - intros x Hx. apply Hw3. unfold data, header_size in *. lia. }
  split_and!; cbn; try done.
  - split; cbn; try done; [by apply is_bytes_set_capacity|]. exists c. split; [exact Hhd|].
    intros _. unfold capacity_ok. cbn. lia.
  - unfold is_read_only. cbn. by rewrite Hw4.
  - split; cbn; try done. intros x Hx. rewrite set_capacity_frame by (unfold data in Hx; lia).
    apply Hw3. unfold data, header_size in *. lia.
  - destruct (read_header_fields _ _ _ _ _ _ _ _ _ Hhd) as (_ & _ & _ & _ & _ & _ & ->). done.
Qed.

Lemma set_width_same w m : is_bytes m -> valid_width w -> hdr_width (read_header m 0) = w ->
  read_header (set_width_in_header w m 0) 0 = read_header m 0.
Proof. intros Hm Hw <-. by rewrite read_set_width. Qed.

Lemma bounds_for_width w : valid_width w ->
  exists lo hi, lbound_for_width w = Some lo /\ ubound_for_width w = Some hi.
Proof. intros Hw. width_cases Hw; cbn; by do 2 eexists. Qed.

Lemma array_alloc_spec s a n w' :
  arr_wf s a -> valid_width w' -> 0 <= n <= max_elems ->
  let '(s', a') := array_alloc s a n w' in
  arr_wf s' a' /\ is_read_only s' a' = false /\ same_ro s s' /\
  a_size a' = n /\ a_width a' = w' /\
  (a_is_inner a', a_has_refs a', a_context_flag a') = (a_is_inner a, a_has_refs a, a_context_flag a) /\
  (forall x, data <= x < data + span (a_width a) (a_size a) -> a_mem a' x = a_mem a x).
Proof.
  intros Hwf Hw' Hn. unfold array_alloc, node_alloc.
  pose proof (span_bound w' n Hw' Hn) as Hsp. unfold max_elems in Hn.
  assert (Hnb : 0 <= calc_byte_len n w' <= 2 ^ 27 - 256).
  { rewrite calc_byte_len_span. unfold data, header_size. change (2 ^ 27) with 134217728. lia. }
  set (needed := calc_byte_len n w') in *.
  pose proof (copy_on_write_min_spec s a needed Hwf Hnb) as H1.
  destruct (if is_read_only s a then _ else _) as [s1 a1]. destruct H1 as (Hwf1 & Hro1 & Hss1 & Hsa1).
  pose proof (grow_spec s1 a1 needed Hwf1 Hro1 ltac:(lia)) as H2. unfold grow in H2.
  assert (Hw1 : get_width_from_header (a_mem a1) 0 = a_width a1).
  { destruct Hwf1 as [_ (cap & Hh & _) _ _ _ _].
    by destruct (read_header_fields _ _ _ _ _ _ _ _ _ Hh) as (_ & _ & _ & _ & ? & _). }
  rewrite Hw1.
  destruct (if get_capacity_from_header _ _ <? _ then _ else _) as [s2 a2].
  destruct H2 as (Hwf2 & Hro2 & Hss2 & Hsa2 & Hcap2).
  pose proof Hwf2 as [Hb2 (cap & Hh2 & Hc2) Hs2 Hv2 _ Hp2]. specialize (Hc2 Hro2). destruct Hc2 as (_ & Hc8 & Hcr).
  destruct (read_header_fields _ _ _ _ _ _ _ _ _ Hh2) as (_ & _ & _ & _ & _ & _ & Hcapeq).
  set (a3 := if w' =? a_width a1 then a2 else with_mem a2 (set_width_in_header w' (a_mem a2) 0)).
  assert (H3 : is_bytes (a_mem a3) /\
    read_header (a_mem a3) 0 = mkHeader (a_is_inner a2) (a_has_refs a2) (a_context_flag a2) (Some wtype_Bits) w' (a_size a2) cap /\
    (forall x, data <= x -> a_mem a3 x = a_mem a2 x) /\ a3 = with_mem a2 (a_mem a3)).
  { subst a3. destruct (Z.eqb_spec w' (a_width a1)) as [->|Hne].
    - rewrite Hh2. unfold header_of. rewrite (sa_width _ _ Hsa2). by destruct a2.
    - cbn. split_and!; [by apply is_bytes_set_width| |intros x Hx; apply set_width_frame; unfold data in Hx; lia|done].
      rewrite read_set_width, Hh2 by done. reflexivity. }
  clearbody a3. destruct H3 as (Hb3 & Hh3 & Hd3 & ->). set (m3 := a_mem a3) in *. clearbody m3. clear a3.
  destruct (bounds_for_width w' Hw') as (lo & hi & Hlo & Hhi).
  assert (Hh4 : read_header (set_size_in_header n m3 0) 0 =
    mkHeader (a_is_inner a2) (a_has_refs a2) (a_context_flag a2) (Some wtype_Bits) w' n cap).
  { rewrite read_set_size by (unfold max_array_size; lia). by rewrite Hh3. }
  destruct (read_header_fields _ _ _ _ _ _ _ _ _ Hh4) as (_ & _ & _ & _ & Hw4 & _ & _).
  unfold update_width_cache_from_header. cbn. rewrite Hw4, Hlo, Hhi. cbn.
  split_and!; cbn; try done.
  - split; cbn; try done; [by apply is_bytes_set_size|].
    exists cap. split; [exact Hh4|]. intros _. unfold capacity_ok. cbn. rewrite <- calc_byte_len_span. fold needed. lia.
  - intros r. rewrite Hss2. apply Hss1.
  - rewrite (sa_inner _ _ Hsa2), (sa_refs _ _ Hsa2), (sa_ctx _ _ Hsa2).
    by rewrite (sa_inner _ _ Hsa1), (sa_refs _ _ Hsa1), (sa_ctx _ _ Hsa1).
  - intros x Hx. rewrite set_size_frame by (unfold data in Hx; lia). rewrite Hd3 by lia.
    rewrite (sa_data _ _ Hsa2) by by rewrite (sa_width _ _ Hsa1), (sa_size _ _ Hsa1).
    by apply (sa_data _ _ Hsa1).
Qed.
End Spec.
