(* ===== verification/Array.v ===== *)
(** * Integer arrays (src/llbt/array.hpp, array.cpp)

    The modifying and reading operations of [Array] on an accessor and its
    block, and their meaning as operations on the list of elements. *)

From S2P Require Import Prelude Bytes NodeHeader ArrayDirect ArrayBits Node.

(** ** Reading *)

Definition array_get (a : Arr) (ndx : Z) : Z := get_direct (a_mem a) data (a_width a) ndx.
Definition array_front (a : Arr) : Z := array_get a 0.
Definition array_back (a : Arr) : Z := array_get a (u64 (a_size a - 1)).

(** [get_as_ref]: [to_ref] is the cast to [size_t]. *)
Definition array_get_as_ref (a : Arr) (ndx : Z) : Z := u64 (array_get a ndx).

Definition lower_bound_int (a : Arr) (value : Z) : Z := lower_bound (a_mem a) data (a_width a) (a_size a) value.
Definition upper_bound_int (a : Arr) (value : Z) : Z := upper_bound (a_mem a) data (a_width a) (a_size a) value.

Definition get_byte_size (a : Arr) : Z := header_byte_size (a_mem a) (a_size a).
Definition get_max_byte_size (num_elems : Z) : Z := header_size + num_elems * 8.

(** The elements as a list. *)
Definition elems (a : Arr) : list Z := map (fun k => array_get a (Z.of_nat k)) (seq 0 (Z.to_nat (a_size a))).

(** ** Modifying *)

Section Array.
Context {A : Type} `{Allocator A}.

(** [m_vtable->setter]. *)
Definition setter (a : Arr) (ndx value : Z) : Arr :=
  with_mem a (set_direct (a_mem a) data (a_width a) ndx value).

Definition out_of_bounds (a : Arr) (value : Z) : bool := (value <? a_lbound a) || (a_ubound a <? value).

Definition do_ensure_minimum_width (s : A) (a : Arr) (value : Z) : A * Arr :=
  let width := bit_width value in
  let old_width := a_width a in
  let '(s, a) := array_alloc s a (a_size a) width in
  (s, with_mem a (widen_loop (Z.to_nat (a_size a)) 0 0 (a_mem a) data old_width (a_width a))).

Definition ensure_minimum_width (s : A) (a : Arr) (value : Z) : A * Arr :=
  if negb (out_of_bounds a value) then (s, a) else do_ensure_minimum_width s a value.

Definition array_set (s : A) (a : Arr) (ndx value : Z) : A * Arr :=
  if array_get a ndx =? value then (s, a)
  else
    let '(s, a) := copy_on_write s a in
    let '(s, a) := ensure_minimum_width s a value in
    (s, setter a ndx value).

(** [set_as_ref]: [from_ref] is the cast to [int64_t]. *)
Definition set_as_ref (s : A) (a : Arr) (ndx ref : Z) : A * Arr := array_set s a ndx (s64 ref).

(** [ArrayParent::update_child_ref] of an array. *)
Definition update_child_ref (s : A) (a : Arr) (child_ndx new_ref : Z) : A * Arr :=
  array_set s a child_ndx (s64 new_ref).

(** The move of the elements from [ndx] on, in [insert]. *)
Definition open_gap (a : Arr) (do_expand : bool) (old_width old_size ndx : Z) : Arr :=
  if do_expand then
    with_mem a (widen_loop (Z.to_nat (old_size - ndx)) ndx 1 (a_mem a) data old_width (a_width a))
  else if old_width <? 8 then
    if negb (old_width =? 0) && negb (ndx =? old_size)
    then with_mem a (open_bit_gap (a_mem a) data (old_size * old_width) (ndx * old_width) old_width)
    else a
  else if negb (ndx =? old_size) then
    let w := if old_width =? 64 then 8 else if old_width =? 32 then 4 else if old_width =? 16 then 2 else 1 in
    with_mem a (blit (a_mem a) (data + ndx * w + w) (a_mem a) (data + ndx * w) (old_size * w - ndx * w))
  else a.

Definition array_insert (s : A) (a : Arr) (ndx value : Z) : A * Arr :=
  let old_width := a_width a in
  let old_size := a_size a in
  let do_expand := out_of_bounds a value in
  let '(s, a) :=
    if do_expand then array_alloc s a (a_size a + 1) (bit_width value)
    else array_alloc s a (a_size a + 1) (a_width a) in
  let a := open_gap a do_expand old_width old_size ndx in
  let a := setter a ndx value in
  let a := if do_expand
           then with_mem a (widen_loop (Z.to_nat ndx) 0 0 (a_mem a) data old_width (a_width a))
           else a in
  (s, a).

Definition array_add (s : A) (a : Arr) (value : Z) : A * Arr := array_insert s a (a_size a) value.

(** [move(begin, end, dest_begin)] inside one array. *)
Definition array_move (s : A) (a : Arr) (begin end_ dest_begin : Z) : A * Arr :=
  let '(s, a) := copy_on_write s a in
  let bits_per_elem :=
    match get_wtype_from_header (a_mem a) 0 with Some wtype_Multiply => a_width a * 8 | _ => a_width a end in
  if bits_per_elem <? 8 then
    (s, with_mem a (move_loop (Z.to_nat (end_ - begin)) (a_mem a) data (a_width a) begin dest_begin))
  else
    let bytes_per_elem := bits_per_elem / 8 in
    (s, with_mem a (blit (a_mem a) (data + dest_begin * bytes_per_elem) (a_mem a) (data + begin * bytes_per_elem)
                      (end_ * bytes_per_elem - begin * bytes_per_elem))).

Definition array_erase (s : A) (a : Arr) (ndx : Z) : A * Arr :=
  let '(s, a) := array_move s a (ndx + 1) (a_size a) ndx in
  let a := with_size a (a_size a - 1) in
  (s, set_header_size a (a_size a)).

Definition array_erase_range (s : A) (a : Arr) (begin end_ : Z) : A * Arr :=
  if negb (begin =? end_) then
    let '(s, a) := array_move s a end_ (a_size a) begin in
    let a := with_size a (a_size a - (end_ - begin)) in
    (s, set_header_size a (a_size a))
  else (s, a).

Definition truncate (s : A) (a : Arr) (new_size : Z) : A * Arr :=
  if new_size =? a_size a then (s, a)
  else
    let '(s, a) := copy_on_write s a in
    let a := set_header_size (with_size a new_size) new_size in
    (s, if new_size =? 0
        then update_width_cache_from_header (with_mem a (set_width_in_header 0 (a_mem a) 0))
        else a).

Definition array_clear (s : A) (a : Arr) : A * Arr := truncate s a 0.

(** The element loop of [move(dst, ndx)]: reads from the source, writes to [dst]. *)
Fixpoint move_to_loop (cnt : nat) (src dst : Arr) (i dest : Z) : Arr :=
  match cnt with
  | O => dst
  | S cnt' => move_to_loop cnt' src (setter dst dest (array_get src i)) (i + 1) (dest + 1)
  end.

(** [move(dst, ndx)]: the elements from [ndx] on go to the end of [dst]. *)
Definition array_move_to (s : A) (a dst : Arr) (ndx : Z) : A * Arr * Arr :=
  let dest_begin := a_size dst in
  let nb_to_move := a_size a - ndx in
  let '(s, dst) := copy_on_write s dst in
  let '(s, dst) := ensure_minimum_width s dst (a_ubound a) in
  let '(s, dst) := array_alloc s dst (a_size dst + nb_to_move) (a_width dst) in
  let dst := move_to_loop (Z.to_nat nb_to_move) a dst ndx dest_begin in
  let '(s, a) := truncate s a ndx in
  (s, a, dst).

Definition array_adjust (s : A) (a : Arr) (ndx diff : Z) : A * Arr :=
  if diff =? 0 then (s, a) else array_set s a ndx (s64 (array_get a ndx + diff)).

(** The pass that finds the extremes of [[begin, end)]. *)
Fixpoint min_max_loop (cnt : nat) (a : Arr) (i mn mx : Z) : Z * Z :=
  match cnt with
  | O => (mn, mx)
  | S cnt' =>
      let v := array_get a i in
      min_max_loop cnt' a (i + 1) (if v <? mn then v else mn) (if mx <? v then v else mx)
  end.

Fixpoint adjust_set_loop (cnt : nat) (s : A) (a : Arr) (i diff : Z) : A * Arr :=
  match cnt with
  | O => (s, a)
  | S cnt' =>
      let '(s, a) := array_set s a i (array_get a i + diff) in
      adjust_set_loop cnt' s a (i + 1) diff
  end.

(** The in-place loops of [adjust]: one store of [int<w>_t(p[i] + diff)] per
    element (for the widths below 8, the setter). *)
Fixpoint adjust_loop (cnt : nat) (a : Arr) (i diff : Z) : Arr :=
  match cnt with O => a | S cnt' => adjust_loop cnt' (setter a i (array_get a i + diff)) (i + 1) diff end.

Definition array_adjust_range (s : A) (a : Arr) (begin end_ diff : Z) : A * Arr :=
  if (diff =? 0) || (end_ <=? begin) then (s, a)
  else
    let cnt := Z.to_nat (end_ - begin) in
    let '(mn, mx) := min_max_loop cnt a begin (2 ^ 63 - 1) (- 2 ^ 63) in
    if (mn + diff <? a_lbound a) || (a_ubound a <? mx + diff)
    then adjust_set_loop cnt s a begin diff
    else
      let '(s, a) := copy_on_write s a in
      (s, adjust_loop cnt a begin diff).

(** [calc_aligned_byte_size]; [None] is [std::overflow_error]. *)
Definition calc_aligned_byte_size (size width : Z) : option Z :=
  let max_2 := 2 ^ 64 - 8 in
  let '(overflow, byte_size) :=
    if width <? 8 then
      let elems_per_byte := 8 / width in
      let byte_size_0 := size / elems_per_byte in
      let byte_size_0 := if size mod elems_per_byte =? 0 then byte_size_0 else byte_size_0 + 1 in
      (max_2 - header_size <? byte_size_0, header_size + byte_size_0)
    else
      let bytes_per_elem := width / 8 in
      ((max_2 - header_size) / bytes_per_elem <? size, header_size + size * bytes_per_elem) in
  if overflow then None else Some (Z.lor (byte_size - 1) 7 + 1).

(** [Array::create] with [wtype_Bits] ([create_array]), attached by [init_from_mem]. *)
Definition array_create (s : A) (type : NodeType) (context_flag : bool) (size value : Z) : option (A * Arr) :=
  let is_inner := match type with type_InnerBptreeNode => true | _ => false end in
  let has_refs := match type with type_Normal => false | _ => true end in
  let width := if value =? 0 then 0 else bit_width value in
  byte_size_0 ← (if value =? 0 then Some header_size else calc_aligned_byte_size size width);
  let byte_size := Z.max byte_size_0 initial_capacity in
  let '(ref, m, s) := al_alloc s byte_size in
  let m := init_header m 0 is_inner has_refs context_flag wtype_Bits width size byte_size in
  let m := if value =? 0 then m else fill_direct m data width 0 size value in
  Some (s, init_from_mem ref m ref).

Definition set_type (s : A) (a : Arr) (type : NodeType) : A * Arr :=
  let '(s, a) := copy_on_write s a in
  let is_inner := match type with type_InnerBptreeNode => true | _ => false end in
  let has_refs := match type with type_Normal => false | _ => true end in
  let m := set_is_inner_bptree_node_in_header is_inner (a_mem a) 0 in
  let m := set_hasrefs_in_header has_refs m 0 in
  (s, mkArr (a_ref a) m (a_size a) (a_width a) (a_lbound a) (a_ubound a) is_inner has_refs
        (a_context_flag a) (a_parent_ref a)).

Definition set_context_flag (s : A) (a : Arr) (value : bool) : A * Arr :=
  if eqb (a_context_flag a) value then (s, a)
  else
    let '(s, a) := copy_on_write s a in
    (s, mkArr (a_ref a) (set_context_flag_in_header value (a_mem a) 0) (a_size a) (a_width a) (a_lbound a)
          (a_ubound a) (a_is_inner a) (a_has_refs a) value (a_parent_ref a)).
End Array.

(** ** Lists of elements *)

Lemma length_elems a : length (elems a) = Z.to_nat (a_size a).
Proof. unfold elems. by rewrite length_map, length_seq. Qed.

Lemma elems_lookup a i : 0 <= i < a_size a -> elems a !! Z.to_nat i = Some (array_get a i).
Proof.
  intros Hi. unfold elems. rewrite list_lookup_fmap, lookup_seq_lt by lia. cbn. by rewrite Z2Nat.id by lia.
Qed.

(** A list is the element list if it has the right length and entries. *)
Lemma elems_eq a (l : list Z) :
  Z.of_nat (length l) = a_size a ->
  (forall i, 0 <= i < a_size a -> l !! Z.to_nat i = Some (array_get a i)) -> elems a = l.
Proof.
  intros Hl He. apply list_eq. intros k. destruct (Nat.lt_ge_cases k (Z.to_nat (a_size a))) as [Hk|Hk].
  - rewrite <- (Nat2Z.id k). rewrite elems_lookup, He by lia. done.
  - rewrite !lookup_ge_None_2; [done|lia|rewrite length_elems; lia].
Qed.

(** ** Well-formedness under stores *)

Section Spec.
Context {A : Type} `{AllocatorSpec A}.
Implicit Types (s : A) (a : Arr).

Lemma wf_with_mem s a m :
  arr_wf s a -> is_bytes m -> (forall x, 0 <= x < data -> m x = a_mem a x) -> arr_wf s (with_mem a m).
Proof.
  intros [Hb (cap & Hh & Hc) Hs Hw Hbd Hp] Hm Hx. split; cbn; try done.
  exists cap. split; [|done]. rewrite (read_header_ext m (a_mem a)) by (intros; apply Hx; unfold data, header_size; lia).
  exact Hh.
Qed.

Lemma wf_same_ro s s' a : same_ro s s' -> arr_wf s a -> arr_wf s' a.
Proof.
  intros Hss [? (cap & Hh & Hcap) ? ? ? ?]. split; try done. exists cap. split; [done|].
  unfold is_read_only. rewrite Hss. exact Hcap.
Qed.

Lemma set_direct_low m d w i v x : valid_width w -> 0 <= i -> x < d -> set_direct m d w i v x = m x.
Proof.
  intros Hw Hi Hx. apply (set_direct_frame m d w i (i + 1)); [done|lia|].
  pose proof (valid_width_range w Hw). unfold span. lia.
Qed.

Lemma wf_setter s a i v : arr_wf s a -> 0 <= i -> arr_wf s (setter a i v).
Proof.
  intros Hwf Hi. apply wf_with_mem; [done|apply is_bytes_set_direct, (wf_bytes _ _ Hwf)|].
  intros x Hx. apply set_direct_low; [apply (wf_width _ _ Hwf)|done|lia].
Qed.

Lemma widen_loop_low cnt lo shift m d w w' x :
  valid_width w' -> 0 <= lo -> 0 <= shift -> x < d -> widen_loop cnt lo shift m d w w' x = m x.
Proof.
  intros Hw Hlo Hsh Hx. revert m. induction cnt as [|cnt IH]; intros m; [done|]. cbn [widen_loop].
  rewrite IH. apply set_direct_low; (done || lia).
Qed.

Lemma gap_loop_low cnt m d f w x : 0 <= f -> x < d -> gap_loop cnt m d f w x = m x.
Proof.
  intros Hf Hx. revert m. induction cnt as [|cnt IH]; intros m; [done|]. cbn [gap_loop].
  rewrite IH. unfold set_word. rewrite put_loop_at. rdec; [lia|done].
Qed.

Lemma open_bit_gap_low m d u p w x : 0 <= p -> x < d -> open_bit_gap m d u p w x = m x.
Proof.
  intros Hp Hx. unfold open_bit_gap, set_word. rewrite put_loop_at.
  assert (0 <= p / 64) by (apply Z.div_pos; lia). rdec; [lia|]. by apply gap_loop_low.
Qed.

Lemma move_loop_low cnt m d w i dest x :
  valid_width w -> 0 <= dest -> x < d -> move_loop cnt m d w i dest x = m x.
Proof.
  intros Hw Hd Hx. revert m i dest Hd. induction cnt as [|cnt IH]; intros m i dest Hd; [done|].
  cbn [move_loop]. rewrite IH by lia. by apply set_direct_low.
Qed.

Lemma wf_widen s a cnt lo shift w :
  arr_wf s a -> 0 <= lo -> 0 <= shift ->
  arr_wf s (with_mem a (widen_loop cnt lo shift (a_mem a) data w (a_width a))).
Proof.
  intros Hwf Hlo Hsh. apply wf_with_mem; [done|apply is_bytes_widen, (wf_bytes _ _ Hwf)|].
  intros x Hx. apply widen_loop_low; try lia. apply (wf_width _ _ Hwf).
Qed.

Lemma ro_with_mem s a m : is_read_only s (with_mem a m) = is_read_only s a.
Proof. done. Qed.

Lemma array_get_fits s a i : arr_wf s a -> 0 <= i -> fits (a_width a) (array_get a i).
Proof. intros Hwf Hi. apply get_direct_fits; [apply (wf_width _ _ Hwf)|done|apply (wf_bytes _ _ Hwf)]. Qed.

(** The cached bounds decide whether a value fits. *)
Lemma out_of_bounds_fits s a v : arr_wf s a -> out_of_bounds a v = false <-> fits (a_width a) v.
Proof.
  intros Hwf. destruct (wf_bounds _ _ Hwf) as [Hl Hu]. unfold out_of_bounds, fits. rewrite Hl, Hu, orb_false_iff.
  rewrite !Z.ltb_ge. lia.
Qed.

Lemma setter_get_eq s a i v : arr_wf s a -> fits (a_width a) v -> 0 <= i -> array_get (setter a i v) i = v.
Proof. intros Hwf Hf Hi. apply get_set_direct_eq; try done; apply Hwf. Qed.

Lemma setter_get_ne s a i j v :
  arr_wf s a -> fits (a_width a) v -> 0 <= i -> 0 <= j -> i <> j -> array_get (setter a i v) j = array_get a j.
Proof. intros Hwf Hf Hi Hj Hne. apply get_set_direct_ne; try done; apply Hwf. Qed.

(** Reading elements of a relocated array at the old width. *)
Lemma moved_get s a s' a' i :
  arr_wf s a -> arr_wf s' a' -> 0 <= i < a_size a ->
  (forall x, data <= x < data + span (a_width a) (a_size a) -> a_mem a' x = a_mem a x) ->
  get_direct (a_mem a') data (a_width a) i = array_get a i.
Proof.
  intros Hwf Hwf' Hi Hd. unfold array_get. apply (get_direct_ext _ _ _ _ _ _ (a_size a)); try done; try apply Hwf.
  - apply Hwf'.
  - intros k Hk. apply Hd. lia.
Qed.

Lemma same_array_get s a s' a' i :
  arr_wf s a -> arr_wf s' a' -> same_array a a' -> 0 <= i < a_size a -> array_get a' i = array_get a i.
Proof.
  intros Hwf Hwf' Hs Hi. unfold array_get at 1. rewrite (sa_width _ _ Hs).
  apply (moved_get s a s' a'); try done. apply Hs.
Qed.

Lemma same_array_elems s a s' a' : arr_wf s a -> arr_wf s' a' -> same_array a a' -> elems a' = elems a.
Proof.
  intros Hwf Hwf' Hs. apply elems_eq; rewrite (sa_size _ _ Hs).
  - rewrite length_elems. pose proof (wf_size _ _ Hwf). lia.
  - intros i Hi. rewrite elems_lookup by done. by rewrite (same_array_get s a s' a').
Qed.

(** ** Insertion *)

Lemma bit_width_wider s a v :
  arr_wf s a -> int64_range v -> out_of_bounds a v = true ->
  valid_width (bit_width v) /\ fits (bit_width v) v /\ a_width a < bit_width v.
Proof.
  intros Hwf Hv Ho. destruct (bit_width_spec v Hv) as (H1 & H2 & _). split_and!; try done.
  destruct (Z.lt_ge_cases (a_width a) (bit_width v)) as [|Hge]; [done|]. exfalso.
  apply (fits_mono _ (a_width a)) in H2; [|done|apply Hwf|done].
  apply (out_of_bounds_fits s) in H2; [congruence|done].
Qed.

(** The elements of an array after making room at [ndx]. *)
Definition inserted (a : Arr) (ndx v i : Z) : Z :=
  if i <? ndx then array_get a i else if i =? ndx then v else array_get a (i - 1).

(** Widening and making room, from memory [m1] that still holds the old elements. *)
Lemma insert_expand_get s a s1 a1 ndx v i :
  arr_wf s a -> arr_wf s1 a1 -> a_width a < a_width a1 -> fits (a_width a1) v ->
  (forall i, 0 <= i < a_size a -> get_direct (a_mem a1) data (a_width a) i = array_get a i) ->
  0 <= ndx <= a_size a -> 0 <= i <= a_size a ->
  let m2 := widen_loop (Z.to_nat (a_size a - ndx)) ndx 1 (a_mem a1) data (a_width a) (a_width a1) in
  let m3 := set_direct m2 data (a_width a1) ndx v in
  get_direct (widen_loop (Z.to_nat ndx) 0 0 m3 data (a_width a) (a_width a1)) data (a_width a1) i = inserted a ndx v i.
Proof.
  intros Hwf Hwf1 Hlt Hv Hold Hn Hi m2 m3.
  pose proof (wf_width _ _ Hwf) as Hw. pose proof (wf_width _ _ Hwf1) as Hw1. pose proof (wf_bytes _ _ Hwf1) as Hb1.
  pose proof (valid_width_range _ Hw). pose proof (valid_width_range _ Hw1).
  assert (Hb2 : is_bytes m2) by by apply is_bytes_widen.
  assert (Hb3 : is_bytes m3) by by apply is_bytes_set_direct.
  unfold inserted. destruct (Z.ltb_spec i ndx) as [Hin|Hin].
  - rewrite <- (Z.add_0_r i) at 1. rewrite widen_loop_get by (done || lia).
    subst m3. rewrite get_set_cross by (done || nia). subst m2. rewrite widen_loop_below by (done || lia).
    apply Hold. lia.
  - rewrite widen_loop_above by (done || lia). subst m3. destruct (Z.eqb_spec i ndx) as [->|Hne].
    + apply get_set_direct_eq; (done || lia).
    + rewrite get_set_direct_ne by (done || lia). subst m2.
      replace i with (i - 1 + 1) at 1 by lia. rewrite widen_loop_get by (done || lia). apply Hold. lia.
Qed.

Lemma byte_width_cases w : valid_width w -> 8 <= w ->
  exists k, (k = 1 \/ k = 2 \/ k = 4 \/ k = 8)%nat /\ w = 8 * Z.of_nat k /\
    (if w =? 64 then 8 else if w =? 32 then 4 else if w =? 16 then 2 else 1) = Z.of_nat k /\ w / 8 = Z.of_nat k.
Proof.
  intros Hw Hge. unfold valid_width in Hw.
  destruct Hw as [->|[->|[->|[->|[->|[->|[->| ->]]]]]]]; try lia;
    [exists 1%nat|exists 2%nat|exists 4%nat|exists 8%nat]; auto 8.
Qed.

Lemma sub_width_cases w : valid_width w -> w < 8 -> w <> 0 -> sub_width w.
Proof. unfold valid_width, sub_width. lia. Qed.

(** Making room without a change of width. *)
Lemma open_gap_get s a s1 a1 ndx i :
  arr_wf s a -> arr_wf s1 a1 -> a_width a1 = a_width a -> a_size a1 = a_size a + 1 ->
  (forall i, 0 <= i < a_size a -> array_get a1 i = array_get a i) ->
  0 <= ndx <= a_size a -> 0 <= i <= a_size a -> i <> ndx ->
  array_get (open_gap a1 false (a_width a) (a_size a) ndx) i = array_get a (if i <? ndx then i else i - 1).
Proof.
  intros Hwf Hwf1 Hw1 Hs1 Hold Hn Hi Hne. pose proof (wf_width _ _ Hwf) as Hw. pose proof (wf_bytes _ _ Hwf1) as Hb1.
  assert (Hi' : 0 <= (if i <? ndx then i else i - 1) < a_size a) by (destruct (Z.ltb_spec i ndx); lia).
  rewrite <- Hold by done. unfold open_gap, array_get. rewrite Hw1.
  destruct (Z.ltb_spec (a_width a) 8) as [Hlt|Hge].
  - destruct (Z.eqb_spec (a_width a) 0) as [He|Hne0]; cbn [negb andb].
    { rewrite Hw1, He. done. }
    destruct (Z.eqb_spec ndx (a_size a)) as [->|]; cbn [negb].
    { rewrite Hw1. destruct (Z.ltb_spec i (a_size a)); [done|lia]. }
    cbn [a_mem a_width with_mem]. rewrite Hw1. apply open_bit_gap_get; try done. by apply sub_width_cases.
  - destruct (Z.eqb_spec ndx (a_size a)) as [->|]; cbn [negb].
    { rewrite Hw1. destruct (Z.ltb_spec i (a_size a)); [done|lia]. }
    destruct (byte_width_cases _ Hw Hge) as (k & Hk & Hwk & -> & _). cbn [a_mem a_width with_mem]. rewrite Hw1, Hwk.
    replace (data + ndx * Z.of_nat k + Z.of_nat k) with (data + (ndx + 1) * Z.of_nat k) by lia.
    replace (a_size a * Z.of_nat k - ndx * Z.of_nat k) with ((a_size a - ndx) * Z.of_nat k) by lia.
    rewrite blit_get by (done || lia). destruct (Z.ltb_spec i ndx); rdec; try lia; try done; f_equal; lia.
Qed.

Lemma wf_open_gap s a e w n ndx :
  arr_wf s a -> 0 <= ndx <= n -> 0 <= w -> arr_wf s (open_gap a e w n ndx).
Proof.
  intros Hwf Hn Hw. unfold open_gap. destruct e; [apply wf_widen; (done || lia)|].
  destruct (w <? 8); [destruct (_ && _); [|done]|destruct (negb _); [|done]]; (apply wf_with_mem; [done| |]).
  - apply is_bytes_open_bit_gap, Hwf.
  - intros x Hx. apply open_bit_gap_low; nia.
  - apply is_bytes_blit; apply Hwf.
  - intros x Hx. unfold blit. rdec; [|done]. repeat zdec; nia.
Qed.

(** What every modifying operation establishes besides the elements. *)
Record op_ok (s : A) (a : Arr) (s' : A) (a' : Arr) : Prop := {
  op_wf : arr_wf s' a';
  op_ro : same_ro s s';
  op_inner : a_is_inner a' = a_is_inner a;
  op_refs : a_has_refs a' = a_has_refs a;
  op_ctx : a_context_flag a' = a_context_flag a }.

Lemma array_insert_get s a ndx v :
  arr_wf s a -> 0 <= ndx <= a_size a -> a_size a < max_elems -> int64_range v ->
  let '(s', a') := array_insert s a ndx v in
  op_ok s a s' a' /\ is_read_only s' a' = false /\ a_size a' = a_size a + 1 /\
  (forall i, 0 <= i <= a_size a -> array_get a' i = inserted a ndx v i).
Proof.
  intros Hwf Hn Hmax Hv. unfold array_insert. pose proof (wf_size _ _ Hwf) as Hsz.
  pose proof (valid_width_range _ (wf_width _ _ Hwf)) as Hwr.
  destruct (out_of_bounds a v) eqn:Ho.
  - destruct (bit_width_wider s a v Hwf Hv Ho) as (Hw' & Hfit & Hlt).
    pose proof (array_alloc_spec s a (a_size a + 1) (bit_width v) Hwf Hw' ltac:(lia)) as Hal.
    destruct (array_alloc _ _ _ _) as [s1 a1]. destruct Hal as (Hwf1 & Hro & Hss & Hs1 & Hw1 & Hfl & Hd).
    simplify_eq. rewrite <- Hw1 in Hlt, Hfit.
    split_and!; try done.
    + split; try done. apply wf_widen; [|lia..]. apply wf_setter; [|lia]. apply wf_open_gap; (done || lia).
    + intros i Hi. apply (insert_expand_get s a s1 a1); try done. intros j Hj. by apply (moved_get s a s1 a1).
  - pose proof (array_alloc_spec s a (a_size a + 1) (a_width a) Hwf (wf_width _ _ Hwf) ltac:(lia)) as Hal.
    destruct (array_alloc _ _ _ _) as [s1 a1]. destruct Hal as (Hwf1 & Hro & Hss & Hs1 & Hw1 & Hfl & Hd).
    simplify_eq. apply (out_of_bounds_fits s) in Ho; [|done].
    assert (Hwf2 : arr_wf s1 (open_gap a1 false (a_width a) (a_size a) ndx)) by (apply wf_open_gap; (done || lia)).
    assert (Hg : a_width (open_gap a1 false (a_width a) (a_size a) ndx) = a_width a /\
      a_size (open_gap a1 false (a_width a) (a_size a) ndx) = a_size a + 1 /\
      a_ref (open_gap a1 false (a_width a) (a_size a) ndx) = a_ref a1 /\
      a_is_inner (open_gap a1 false (a_width a) (a_size a) ndx) = a_is_inner a /\
      a_has_refs (open_gap a1 false (a_width a) (a_size a) ndx) = a_has_refs a /\
      a_context_flag (open_gap a1 false (a_width a) (a_size a) ndx) = a_context_flag a).
    { unfold open_gap. destruct (_ <? _); [destruct (_ && _)|destruct (negb _)]; cbn; done. }
    destruct Hg as (Gw & Gs & Gr & Gi & Gh & Gc). split_and!; try done.
    + split; try done. apply wf_setter; (done || lia).
    + unfold is_read_only, setter, with_mem. cbn [a_ref]. rewrite Gr. exact Hro.
    + intros i Hi. unfold inserted. destruct (Z.eq_dec i ndx) as [->|Hne].
      * rewrite (setter_get_eq s1) by (rewrite ?Gw; done || lia). rewrite Z.ltb_irrefl, Z.eqb_refl. done.
      * rewrite (setter_get_ne s1) by (rewrite ?Gw; done || lia).
        rewrite (open_gap_get s a s1 a1) by (try done; intros j Hj; unfold array_get at 1; rewrite Hw1;
          by apply (moved_get s a s1 a1)).
        destruct (Z.ltb_spec i ndx), (Z.eqb_spec i ndx); (done || lia).
Qed.

Lemma array_insert_list s a ndx v :
  arr_wf s a -> 0 <= ndx <= a_size a -> a_size a < max_elems -> int64_range v ->
  let '(s', a') := array_insert s a ndx v in
  op_ok s a s' a' /\ is_read_only s' a' = false /\ elems a' = list_insert_at (Z.to_nat ndx) v (elems a).
Proof.
  intros Hwf Hn Hmax Hv. pose proof (array_insert_get s a ndx v Hwf Hn Hmax Hv) as Hi.
  destruct (array_insert s a ndx v) as [s' a']. destruct Hi as (Hop & Hro & Hs & Hg). split_and!; try done.
  pose proof (wf_size _ _ Hwf). apply elems_eq; rewrite Hs.
  - rewrite length_list_insert_at, length_elems by (rewrite length_elems; lia). lia.
  - intros i Hi. rewrite lookup_list_insert_at by (rewrite length_elems; lia). rewrite Hg by lia. unfold inserted.
    destruct (Nat.ltb_spec (Z.to_nat i) (Z.to_nat ndx)), (Z.ltb_spec i ndx); try lia; [by apply elems_lookup; lia|].
    destruct (Nat.eqb_spec (Z.to_nat i) (Z.to_nat ndx)), (Z.eqb_spec i ndx); try lia; [done|].
    replace (Z.to_nat i - 1)%nat with (Z.to_nat (i - 1)) by lia. apply elems_lookup. lia.
Qed.

(** ** Replacement *)

Lemma ensure_minimum_width_get s a v :
  arr_wf s a -> is_read_only s a = false -> int64_range v ->
  let '(s', a') := ensure_minimum_width s a v in
  op_ok s a s' a' /\ is_read_only s' a' = false /\ a_size a' = a_size a /\
  fits (a_width a') v /\ a_width a <= a_width a' /\
  (forall i, 0 <= i < a_size a -> array_get a' i = array_get a i).
Proof.
  intros Hwf Hro Hv. unfold ensure_minimum_width. destruct (out_of_bounds a v) eqn:Ho; cbn [negb].
  - unfold do_ensure_minimum_width. destruct (bit_width_wider s a v Hwf Hv Ho) as (Hw' & Hfit & Hlt).
    pose proof (array_alloc_spec s a (a_size a) (bit_width v) Hwf Hw' (wf_size _ _ Hwf)) as Hal.
    destruct (array_alloc _ _ _ _) as [s1 a1]. destruct Hal as (Hwf1 & Hro1 & Hss & Hs1 & Hw1 & Hfl & Hd).
    simplify_eq. pose proof (wf_size _ _ Hwf). split_and!; cbn; try (by rewrite ?Hw1).
    + split; cbn; try done. apply wf_widen; (done || lia).
    + lia.
    + intros i Hi. unfold array_get at 1. cbn. rewrite <- (Z.add_0_r i) at 1.
      rewrite widen_loop_get by (try apply Hwf; try apply Hwf1; lia). by apply (moved_get s a s1 a1).
  - apply (out_of_bounds_fits s) in Ho; [|done]. split_and!; try (done || lia).
Qed.

Lemma array_set_get s a ndx v :
  arr_wf s a -> 0 <= ndx < a_size a -> int64_range v ->
  let '(s', a') := array_set s a ndx v in
  op_ok s a s' a' /\ a_size a' = a_size a /\
  (forall i, 0 <= i < a_size a -> array_get a' i = if i =? ndx then v else array_get a i).
Proof.
  intros Hwf Hn Hv. unfold array_set. destruct (Z.eqb_spec (array_get a ndx) v) as [He|Hne].
  { split_and!; [by split|done|]. intros i Hi. destruct (Z.eqb_spec i ndx) as [->|]; done. }
  pose proof (copy_on_write_spec s a Hwf) as H1. destruct (copy_on_write s a) as [s1 a1].
  destruct H1 as (Hwf1 & Hro1 & Hss1 & Hsa1).
  pose proof (ensure_minimum_width_get s1 a1 v Hwf1 Hro1 Hv) as H2.
  destruct (ensure_minimum_width s1 a1 v) as [s2 a2]. destruct H2 as ([Hwf2 Hss2 Hi2 Hr2 Hc2] & Hro2 & Hs2 & Hf2 & _ & Hg2).
  rewrite (sa_size _ _ Hsa1) in *. split_and!; try done.
  - split; cbn; [apply wf_setter; (done || lia)|intros r; by rewrite Hss2|..].
    + by rewrite Hi2, (sa_inner _ _ Hsa1).
    + by rewrite Hr2, (sa_refs _ _ Hsa1).
    + by rewrite Hc2, (sa_ctx _ _ Hsa1).
  - intros i Hi. destruct (Z.eqb_spec i ndx) as [->|].
    + apply (setter_get_eq s2); (done || lia).
    + rewrite (setter_get_ne s2) by (done || lia). rewrite Hg2 by done. by apply (same_array_get s a s1 a1).
Qed.

Lemma array_set_list s a ndx v :
  arr_wf s a -> 0 <= ndx < a_size a -> int64_range v ->
  let '(s', a') := array_set s a ndx v in
  op_ok s a s' a' /\ elems a' = <[Z.to_nat ndx := v]> (elems a).
Proof.
  intros Hwf Hn Hv. pose proof (array_set_get s a ndx v Hwf Hn Hv) as Hg.
  destruct (array_set s a ndx v) as [s' a']. destruct Hg as (Hop & Hs & Hg). split; [done|].
  pose proof (wf_size _ _ Hwf). apply elems_eq; rewrite Hs.
  - rewrite length_insert, length_elems. lia.
  - intros i Hi. rewrite Hg by done. destruct (Z.eqb_spec i ndx) as [->|].
    + apply list_lookup_insert_eq. rewrite length_elems. lia.
    + rewrite list_lookup_insert_ne by lia. by apply elems_lookup.
Qed.

(** ** Removal *)

Lemma span_mono w n n' : valid_width w -> n <= n' -> span w n <= span w n'.
Proof. intros Hw Hn. pose proof (valid_width_range w Hw). unfold span. apply Z.div_le_mono; nia. Qed.

Lemma wf_shrink s a n : arr_wf s a -> 0 <= n <= a_size a -> arr_wf s (set_header_size (with_size a n) n).
Proof.
  intros [Hb (cap & Hh & Hc) Hs Hw Hbd Hp] Hn. split; cbn; try done; [by apply is_bytes_set_size| |lia].
  exists cap. split.
  - rewrite read_set_size, Hh by (unfold max_elems, max_array_size in *; lia). reflexivity.
  - intros Hro. destruct (Hc Hro) as (? & ? & ?). unfold capacity_ok. cbn.
    pose proof (span_mono (a_width a) n (a_size a) Hw ltac:(lia)). lia.
Qed.

Lemma set_size_get n m d w i : d = data -> is_bytes m -> valid_width w -> 0 <= i ->
  get_direct (set_size_in_header n m 0) d w i = get_direct m d w i.
Proof.
  intros -> Hm Hw Hi. pose proof (valid_width_range w Hw).
  apply (get_direct_ext _ _ _ _ _ _ (i + 1)); try done; [lia|by apply is_bytes_set_size|].
  intros k Hk. apply set_size_frame. unfold data. lia.
Qed.

Lemma array_move_get s a begin end_ dest :
  arr_wf s a -> 0 <= dest <= begin -> begin <= end_ -> end_ <= a_size a ->
  let '(s', a') := array_move s a begin end_ dest in
  op_ok s a s' a' /\ is_read_only s' a' = false /\ a_size a' = a_size a /\ a_width a' = a_width a /\
  (forall j, 0 <= j < a_size a ->
     array_get a' j = if in_range dest (end_ - begin) j then array_get a (j - dest + begin) else array_get a j).
Proof.
  intros Hwf Hd Hb He. unfold array_move.
  pose proof (copy_on_write_spec s a Hwf) as H1. destruct (copy_on_write s a) as [s1 a1].
  destruct H1 as (Hwf1 & Hro1 & Hss1 & Hsa1). pose proof Hwf1 as [Hb1 (cap & Hh & _) _ Hw1 _ _].
  destruct (read_header_fields _ _ _ _ _ _ _ _ _ Hh) as (_ & _ & _ & -> & _).
  assert (Hfin : forall m', arr_wf s1 (with_mem a1 m') ->
    (forall j, 0 <= j -> get_direct m' data (a_width a1) j =
       if in_range dest (end_ - begin) j then array_get a1 (j - dest + begin) else array_get a1 j) ->
    op_ok s a s1 (with_mem a1 m') /\ is_read_only s1 (with_mem a1 m') = false /\
    a_size (with_mem a1 m') = a_size a /\ a_width (with_mem a1 m') = a_width a /\
    (forall j, 0 <= j < a_size a -> array_get (with_mem a1 m') j =
       if in_range dest (end_ - begin) j then array_get a (j - dest + begin) else array_get a j)).
  { intros m' Hm' Hg. split_and!; try apply Hsa1; try done.
    - split; try apply Hsa1; done.
    - intros j Hj. unfold array_get at 1. cbn. rewrite Hg by lia.
      rdec; apply (same_array_get s a s1 a1); (done || lia). }
  destruct (Z.ltb_spec (a_width a1) 8) as [Hlt|Hge]; apply Hfin.
  - apply wf_with_mem; [done|by apply is_bytes_move_loop|]. intros x Hx. apply move_loop_low; (done || lia).
  - intros j Hj. rewrite move_loop_get by (done || lia). by rewrite Z2Nat.id by lia.
  - destruct (byte_width_cases _ Hw1 Hge) as (k & Hk & Hwk & _ & ->).
    apply wf_with_mem; [done|by apply is_bytes_blit|]. intros x Hx. unfold blit. rdec; [nia|done].
  - intros j Hj. destruct (byte_width_cases _ Hw1 Hge) as (k & Hk & Hwk & _ & ->). unfold array_get. rewrite Hwk.
    replace (end_ * Z.of_nat k - begin * Z.of_nat k) with ((end_ - begin) * Z.of_nat k) by lia.
    apply blit_get; (done || lia).
Qed.

Lemma array_erase_range_get s a begin end_ :
  arr_wf s a -> 0 <= begin <= end_ -> end_ <= a_size a ->
  let '(s', a') := array_erase_range s a begin end_ in
  op_ok s a s' a' /\ a_size a' = a_size a - (end_ - begin) /\
  (forall j, 0 <= j < a_size a - (end_ - begin) ->
     array_get a' j = array_get a (if j <? begin then j else j + (end_ - begin))).
Proof.
  intros Hwf Hb He. unfold array_erase_range. destruct (Z.eqb_spec begin end_) as [<-|Hne]; cbn [negb].
  { split_and!; [by split|lia|]. intros j Hj. destruct (Z.ltb_spec j begin); f_equal; lia. }
  pose proof (array_move_get s a end_ (a_size a) begin Hwf ltac:(lia) ltac:(lia) ltac:(lia)) as Hm.
  destruct (array_move _ _ _ _ _) as [s1 a1]. destruct Hm as ([Hwf1 Hss Hi Hr Hc] & Hro & Hs & Hw & Hg).
  rewrite Hs. pose proof (wf_size _ _ Hwf). split_and!; [|done|].
  - split; try done. cbn [a_size with_size]. apply wf_shrink; [done|lia].
  - intros j Hj. unfold array_get at 1. cbn.
    rewrite set_size_get by (try done; try apply Hwf1; lia). fold (array_get a1 j). rewrite Hg by lia.
    destruct (Z.ltb_spec j begin); rdec; try lia; f_equal; lia.
Qed.

Lemma array_erase_is_range s a ndx : array_erase s a ndx = array_erase_range s a ndx (ndx + 1).
Proof.
  unfold array_erase, array_erase_range. destruct (Z.eqb_spec ndx (ndx + 1)); [lia|]. cbn [negb].
  by replace (ndx + 1 - ndx) with 1 by lia.
Qed.

Lemma array_erase_range_list s a begin end_ :
  arr_wf s a -> 0 <= begin <= end_ -> end_ <= a_size a ->
  let '(s', a') := array_erase_range s a begin end_ in
  op_ok s a s' a' /\ elems a' = list_erase_range (Z.to_nat begin) (Z.to_nat end_) (elems a).
Proof.
  intros Hwf Hb He. pose proof (array_erase_range_get s a begin end_ Hwf Hb He) as Hg.
  destruct (array_erase_range _ _ _ _) as [s' a']. destruct Hg as (Hop & Hs & Hg). split; [done|].
  pose proof (wf_size _ _ Hwf). apply elems_eq; rewrite Hs.
  - unfold list_erase_range. rewrite length_app, length_take, length_drop, length_elems. lia.
  - intros j Hj. rewrite lookup_list_erase_range by (rewrite length_elems; lia). rewrite Hg by done.
    destruct (Nat.ltb_spec (Z.to_nat j) (Z.to_nat begin)), (Z.ltb_spec j begin); try lia.
    + apply elems_lookup. lia.
    + replace (Z.to_nat j + (Z.to_nat end_ - Z.to_nat begin))%nat with (Z.to_nat (j + (end_ - begin))) by lia.
      apply elems_lookup. lia.
Qed.

Lemma truncate_get s a n :
  arr_wf s a -> 0 <= n <= a_size a ->
  let '(s', a') := truncate s a n in
  op_ok s a s' a' /\ a_size a' = n /\ (forall j, 0 <= j < n -> array_get a' j = array_get a j).
Proof.
  intros Hwf Hn. unfold truncate. destruct (Z.eqb_spec n (a_size a)) as [->|Hne]; [split_and!; [by split|done..]|].
  pose proof (copy_on_write_spec s a Hwf) as H1. destruct (copy_on_write s a) as [s1 a1].
  destruct H1 as (Hwf1 & Hro1 & Hss1 & Hsa1).
  assert (Hwf2 : arr_wf s1 (set_header_size (with_size a1 n) n))
    by (apply wf_shrink; [done|rewrite (sa_size _ _ Hsa1); lia]).
  destruct (Z.eqb_spec n 0) as [->|Hn0].
  - pose proof Hwf2 as [Hb (cap & Hh & Hc) Hs Hw Hbd Hp]. set (m := a_mem (set_header_size (with_size a1 0) 0)) in *.
    assert (Hv0 : valid_width 0) by (left; done).
    assert (Hh0 : read_header (set_width_in_header 0 m 0) 0 =
      mkHeader (a_is_inner a1) (a_has_refs a1) (a_context_flag a1) (Some wtype_Bits) 0 0 cap).
    { rewrite read_set_width, Hh by done. reflexivity. }
    destruct (read_header_fields _ _ _ _ _ _ _ _ _ Hh0) as (_ & _ & _ & _ & Hw0 & _ & _).
    unfold update_width_cache_from_header. cbn [a_mem with_mem a_ref a_size]. fold m. rewrite Hw0.
    split_and!; [|done|lia]. split; try apply Hsa1; [|done]. split; cbn; try done; [by apply is_bytes_set_width|].
    exists cap. split; [exact Hh0|]. intros Hro. destruct (Hc Hro) as (Hc1 & Hc2 & Hc3).
    unfold capacity_ok, span in *. cbn in *. split; [|lia].
    pose proof (valid_width_range _ (wf_width _ _ Hwf1)). replace (7 / 8) with 0 in * by reflexivity. exact Hc1.
  - split_and!; [|done|].
    + split; try apply Hsa1; done.
    + intros j Hj. unfold array_get at 1. cbn. rewrite set_size_get by (try done; try apply Hwf1; lia).
      apply (same_array_get s a s1 a1); (done || lia).
Qed.

Lemma truncate_list s a n :
  arr_wf s a -> 0 <= n <= a_size a ->
  let '(s', a') := truncate s a n in op_ok s a s' a' /\ elems a' = take (Z.to_nat n) (elems a).
Proof.
  intros Hwf Hn. pose proof (truncate_get s a n Hwf Hn) as Hg. destruct (truncate s a n) as [s' a'].
  destruct Hg as (Hop & Hs & Hg). split; [done|]. pose proof (wf_size _ _ Hwf). apply elems_eq; rewrite Hs.
  - rewrite length_take, length_elems. lia.
  - intros j Hj. rewrite lookup_take_lt by lia. rewrite Hg by done. apply elems_lookup. lia.
Qed.

(** ** Moving elements to another array *)

Lemma ubound_fits w w' hi : valid_width w -> valid_width w' -> ubound_for_width w = Some hi -> fits w' hi -> w <= w'.
Proof.
  intros Hw Hw' Hu. width_cases Hw; width_cases Hw'; unfold ubound_for_width in Hu; cbn in Hu; simplify_eq;
    unfold fits, lbound_for_width, ubound_for_width; cbn; lia.
Qed.

Lemma ubound_int64 w hi : valid_width w -> ubound_for_width w = Some hi -> int64_range hi.
Proof.
  intros Hw Hu. unfold int64_range. width_cases Hw; unfold ubound_for_width in Hu; cbn in Hu; simplify_eq; lia.
Qed.

Lemma move_to_loop_get s src s1 dst cnt i dest :
  arr_wf s src -> arr_wf s1 dst -> a_width src <= a_width dst -> 0 <= i -> 0 <= dest ->
  let dst' := move_to_loop cnt src dst i dest in
  arr_wf s1 dst' /\ a_ref dst' = a_ref dst /\ a_size dst' = a_size dst /\ a_width dst' = a_width dst /\
  (a_is_inner dst', a_has_refs dst', a_context_flag dst') = (a_is_inner dst, a_has_refs dst, a_context_flag dst) /\
  (forall j, 0 <= j -> array_get dst' j =
     if in_range dest (Z.of_nat cnt) j then array_get src (j - dest + i) else array_get dst j).
Proof.
  intros Hsrc. revert dst i dest. induction cnt as [|cnt IH]; intros dst i dest Hdst Hle Hi Hd; cbn [move_to_loop].
  { split_and!; try done. intros j Hj. rdec; [lia|done]. }
  assert (Hfit : fits (a_width dst) (array_get src i)).
  { apply (fits_mono (a_width src)); [apply Hsrc|apply Hdst|done|by apply (array_get_fits s)]. }
  destruct (IH (setter dst dest (array_get src i)) (i + 1) (dest + 1)) as (H1 & H2 & H3 & H4 & H5 & H6);
    [by apply wf_setter|done|lia..|].
  split_and!; try done. intros j Hj. rewrite H6 by done. repeat rdec; try lia.
  - f_equal. lia.
  - replace j with dest by lia. rewrite (setter_get_eq s1) by done. f_equal. lia.
  - by rewrite (setter_get_ne s1) by (done || lia).
Qed.

Lemma array_move_to_list s a dst ndx :
  arr_wf s a -> arr_wf s dst -> 0 <= ndx <= a_size a -> a_size dst + (a_size a - ndx) <= max_elems ->
  let '(s', a', dst') := array_move_to s a dst ndx in
  op_ok s a s' a' /\ op_ok s dst s' dst' /\
  elems a' = take (Z.to_nat ndx) (elems a) /\ elems dst' = elems dst ++ drop (Z.to_nat ndx) (elems a).
Proof.
  intros Hwf Hwd Hn Hmax. unfold array_move_to.
  pose proof (copy_on_write_spec s dst Hwd) as H1. destruct (copy_on_write s dst) as [s1 d1].
  destruct H1 as (Hw1 & Hro1 & Hss1 & Hsa1). destruct (wf_bounds _ _ Hwf) as [_ Hub].
  pose proof (ensure_minimum_width_get s1 d1 (a_ubound a) Hw1 Hro1 (ubound_int64 _ _ (wf_width _ _ Hwf) Hub)) as H2.
  destruct (ensure_minimum_width s1 d1 (a_ubound a)) as [s2 d2].
  destruct H2 as ([Hw2 Hss2 Hi2 Hr2 Hc2] & Hro2 & Hs2 & Hf2 & _ & Hg2).
  pose proof (ubound_fits _ _ _ (wf_width _ _ Hwf) (wf_width _ _ Hw2) Hub Hf2) as Hle.
  rewrite (sa_size _ _ Hsa1) in *. pose proof (wf_size _ _ Hwf). pose proof (wf_size _ _ Hwd).
  pose proof (array_alloc_spec s2 d2 (a_size d2 + (a_size a - ndx)) (a_width d2) Hw2 (wf_width _ _ Hw2) ltac:(lia)) as H3.
  destruct (array_alloc _ _ _ _) as [s3 d3]. destruct H3 as (Hw3 & Hro3 & Hss3 & Hs3 & Hwd3 & Hfl3 & Hd3).
  destruct (move_to_loop_get s a s3 d3 (Z.to_nat (a_size a - ndx)) ndx (a_size dst))
    as (Hw4 & _ & Hs4 & _ & Hfl4 & Hg4); [done|done|by rewrite Hwd3|lia..|].
  set (d4 := move_to_loop _ _ _ _ _) in *. clearbody d4.
  assert (Hwf3 : arr_wf s3 a) by (apply (wf_same_ro s); [intros r; by rewrite Hss3, Hss2, Hss1|done]).
  pose proof (truncate_list s3 a ndx Hwf3 Hn) as H5. destruct (truncate s3 a ndx) as [s5 a5].
  destruct H5 as ([Hw5 Hss5 Hi5 Hr5 Hc5] & He5).
  injection Hfl4 as Fi Fr Fc. injection Hfl3 as Gi Gr Gc.
  assert (Hss : same_ro s s5) by (intros r; by rewrite Hss5, Hss3, Hss2, Hss1).
  split_and!; [by split| |done|].
  - split; [|done|..].
    + by apply (wf_same_ro s3).
    + by rewrite Fi, Gi, Hi2, (sa_inner _ _ Hsa1).
    + by rewrite Fr, Gr, Hr2, (sa_refs _ _ Hsa1).
    + by rewrite Fc, Gc, Hc2, (sa_ctx _ _ Hsa1).
  - apply elems_eq; rewrite Hs4, Hs3, Hs2.
    + rewrite length_app, length_drop, !length_elems. lia.
    + intros j Hj. rewrite Hg4 by lia. rewrite Z2Nat.id by lia. rdec.
      * rewrite lookup_app_r by (rewrite length_elems; lia). rewrite length_elems, lookup_drop.
        replace (Z.to_nat ndx + (Z.to_nat j - Z.to_nat (a_size dst)))%nat with (Z.to_nat (j - a_size dst + ndx)) by lia.
        apply elems_lookup. lia.
      * rewrite lookup_app_l by (rewrite length_elems; lia). rewrite elems_lookup by lia. f_equal. symmetry.
        unfold array_get at 1. rewrite Hwd3. rewrite (moved_get s2 d2 s3 d3) by (try done; lia).
        rewrite Hg2 by lia. apply (same_array_get s dst s1 d1); (done || lia).
Qed.

(** ** Adjusting a range *)

Lemma min_max_loop_bounds cnt a i mn mx :
  let '(mn', mx') := min_max_loop cnt a i mn mx in
  mn' <= mn /\ mx <= mx' /\ forall j, i <= j < i + Z.of_nat cnt -> mn' <= array_get a j <= mx'.
Proof.
  revert i mn mx. induction cnt as [|cnt IH]; intros i mn mx; cbn [min_max_loop]; [split_and!; lia|].
  specialize (IH (i + 1) (if array_get a i <? mn then array_get a i else mn)
                (if mx <? array_get a i then array_get a i else mx)).
  destruct (min_max_loop _ _ _ _ _) as [mn' mx']. destruct IH as (H1 & H2 & H3).
  assert (mn' <= mn /\ mx <= mx' /\ mn' <= array_get a i <= mx') by (repeat zdec; lia).
  split_and!; try lia. intros j Hj. destruct (Z.eq_dec j i) as [->|]; [lia|]. apply H3. lia.
Qed.

Definition adjusted (a : Arr) (begin cnt diff i : Z) : Z :=
  if in_range begin cnt i then array_get a i + diff else array_get a i.

Lemma adjust_set_loop_get cnt s a i diff :
  arr_wf s a -> 0 <= i -> i + Z.of_nat cnt <= a_size a ->
  (forall j, i <= j < i + Z.of_nat cnt -> int64_range (array_get a j + diff)) ->
  let '(s', a') := adjust_set_loop cnt s a i diff in
  op_ok s a s' a' /\ a_size a' = a_size a /\
  (forall j, 0 <= j < a_size a -> array_get a' j = adjusted a i (Z.of_nat cnt) diff j).
Proof.
  unfold adjusted. revert s a i. induction cnt as [|cnt IH]; intros s a i Hwf Hi Hn Hr; cbn [adjust_set_loop].
  { split_and!; [by split|done|]. intros j Hj. rdec; [lia|done]. }
  pose proof (array_set_get s a i (array_get a i + diff) Hwf ltac:(lia) (Hr i ltac:(lia))) as H1.
  destruct (array_set _ _ _ _) as [s1 a1]. destruct H1 as ([Hwf1 Hss1 Hi1 Hr1 Hc1] & Hs1 & Hg1).
  specialize (IH s1 a1 (i + 1) Hwf1 ltac:(lia) ltac:(lia)).
  destruct (adjust_set_loop cnt s1 a1 (i + 1) diff) as [s2 a2]. destruct IH as ([Hwf2 Hss2 Hi2 Hr2 Hc2] & Hs2 & Hg2).
  { intros j Hj. rewrite Hg1 by lia. destruct (Z.eqb_spec j i); [lia|]. apply Hr. lia. }
  split_and!; [split; [done|intros r; by rewrite Hss2|congruence..]|lia|].
  intros j Hj. rewrite Hg2, Hg1 by lia. destruct (Z.eqb_spec j i) as [->|]; repeat rdec; (done || lia).
Qed.

Lemma adjust_loop_get s cnt a i diff :
  arr_wf s a -> 0 <= i ->
  (forall j, i <= j < i + Z.of_nat cnt -> fits (a_width a) (array_get a j + diff)) ->
  let a' := adjust_loop cnt a i diff in
  arr_wf s a' /\ a_size a' = a_size a /\
  (a_is_inner a', a_has_refs a', a_context_flag a') = (a_is_inner a, a_has_refs a, a_context_flag a) /\
  (forall j, 0 <= j -> array_get a' j = adjusted a i (Z.of_nat cnt) diff j).
Proof.
  unfold adjusted. revert a i. induction cnt as [|cnt IH]; intros a i Hwf Hi Hf; cbn [adjust_loop].
  { split_and!; try done. intros j Hj. rdec; [lia|done]. }
  pose proof (Hf i ltac:(lia)) as Hfi.
  destruct (IH (setter a i (array_get a i + diff)) (i + 1)) as (H1 & H2 & H3 & H4); [by apply wf_setter|lia| |].
  { intros j Hj. rewrite (setter_get_ne s) by (done || lia). apply Hf. lia. }
  split_and!; try done. intros j Hj. rewrite H4 by done. destruct (Z.eq_dec j i) as [->|Hne].
  - repeat rdec; try lia. by apply (setter_get_eq s).
  - rewrite (setter_get_ne s) by (done || lia). repeat rdec; (done || lia).
Qed.

Lemma array_adjust_range_get s a begin end_ diff :
  arr_wf s a -> 0 <= begin -> end_ <= a_size a ->
  (forall j, begin <= j < end_ -> int64_range (array_get a j + diff)) ->
  let '(s', a') := array_adjust_range s a begin end_ diff in
  op_ok s a s' a' /\ a_size a' = a_size a /\
  (forall j, 0 <= j < a_size a -> array_get a' j = adjusted a begin (end_ - begin) diff j).
Proof.
  intros Hwf Hb He Hr. unfold array_adjust_range.
  destruct (Z.eqb_spec diff 0) as [->|Hd]; cbn [orb].
  { split_and!; [by split|done|]. intros j Hj. unfold adjusted. rdec; lia. }
  destruct (Z.leb_spec end_ begin).
  { split_and!; [by split|done|]. intros j Hj. unfold adjusted. rdec; lia. }
  pose proof (min_max_loop_bounds (Z.to_nat (end_ - begin)) a begin (2 ^ 63 - 1) (- 2 ^ 63)) as Hmm.
  destruct (min_max_loop _ _ _ _ _) as [mn mx]. destruct Hmm as (_ & _ & Hmm). rewrite Z2Nat.id in Hmm by lia.
  destruct ((mn + diff <? a_lbound a) || (a_ubound a <? mx + diff)) eqn:Hfit.
  - pose proof (adjust_set_loop_get (Z.to_nat (end_ - begin)) s a begin diff Hwf Hb) as Hl.
    rewrite Z2Nat.id in Hl by lia. apply Hl; [lia|]. intros j Hj. apply Hr. lia.
  - apply orb_false_iff in Hfit as [Hlo%Z.ltb_ge Hhi%Z.ltb_ge].
    pose proof (copy_on_write_spec s a Hwf) as Hc. destruct (copy_on_write s a) as [s1 a1].
    destruct Hc as (Hwf1 & Hro1 & Hss1 & Hsa1).
    assert (Hg1 : forall j, 0 <= j < a_size a -> array_get a1 j = array_get a j)
      by (intros j Hj; by apply (same_array_get s a s1 a1)).
    destruct (adjust_loop_get s1 (Z.to_nat (end_ - begin)) a1 begin diff Hwf1 Hb) as (H3 & H4 & H5 & H6).
    { intros j Hj. rewrite Z2Nat.id in Hj by lia. rewrite Hg1 by lia. specialize (Hmm j Hj).
      apply (out_of_bounds_fits s1); [done|]. unfold out_of_bounds. rewrite (sa_lbound _ _ Hsa1), (sa_ubound _ _ Hsa1).
      apply orb_false_iff. rewrite !Z.ltb_ge. lia. }
    injection H5 as Fi Fr Fc. rewrite Z2Nat.id in H6 by lia. split_and!.
    + split; try done; [by rewrite Fi, (sa_inner _ _ Hsa1)|by rewrite Fr, (sa_refs _ _ Hsa1)|by rewrite Fc, (sa_ctx _ _ Hsa1)].
    + by rewrite H4, (sa_size _ _ Hsa1).
    + intros j Hj. rewrite H6 by lia. unfold adjusted. by rewrite Hg1 by done.
Qed.

(** ** Stores stay inside the block *)

Lemma widen_loop_high cnt lo shift m d w w' n x :
  valid_width w' -> 0 <= lo -> 0 <= shift -> lo + Z.of_nat cnt + shift <= n -> d + span w' n <= x ->
  widen_loop cnt lo shift m d w w' x = m x.
Proof.
  intros Hw Hlo Hsh Hn Hx. revert m. induction cnt as [|cnt IH]; intros m; [done|]. cbn [widen_loop].
  rewrite IH by lia. apply (set_direct_frame _ _ _ _ n); [done|lia|lia].
Qed.

Lemma gap_loop_high cnt m d f w x : d + 8 * (f + Z.of_nat cnt + 1) <= x -> gap_loop cnt m d f w x = m x.
Proof.
  revert m. induction cnt as [|cnt IH]; intros m Hx; [done|]. cbn [gap_loop].
  rewrite IH by lia. unfold set_word. rewrite put_loop_at. rdec; [lia|done].
Qed.

Lemma open_bit_gap_high m d used pos w x :
  0 <= pos <= used -> 0 < w -> d + 8 * ((used + w - 1) / 64 + 1) <= x -> open_bit_gap m d used pos w x = m x.
Proof.
  intros Hp Hw Hx. assert (pos / 64 <= (used + w - 1) / 64) by (apply Z.div_le_mono; lia).
  unfold open_bit_gap, set_word. rewrite put_loop_at. rdec; [lia|]. apply gap_loop_high. lia.
Qed.

Lemma open_gap_high s a e w n ndx x capacity :
  arr_wf s a -> valid_width w -> (e = true -> w <= a_width a) -> (e = false -> w = a_width a) ->
  0 <= ndx <= n -> a_size a = n + 1 ->
  capacity_ok a capacity -> capacity <= x -> a_mem (open_gap a e w n ndx) x = a_mem a x.
Proof.
  intros Hwf Hw He1 He2 Hn Hs (Hc1 & Hc8 & Hcr) Hx. rewrite Hs in Hc1. pose proof (wf_width _ _ Hwf) as Hwa.
  unfold open_gap. destruct e.
  { cbn. apply (widen_loop_high _ _ _ _ _ _ _ (n + 1)); (done || lia). }
  specialize (He2 eq_refl). subst w. destruct (Z.ltb_spec (a_width a) 8) as [Hlt|Hge].
  - destruct (Z.eqb_spec (a_width a) 0) as [|Hne]; cbn [negb andb]; [done|].
    destruct (Z.eqb_spec ndx n); cbn [negb]; [done|]. cbn [a_mem with_mem].
    pose proof (valid_width_range _ Hw). apply open_bit_gap_high; [nia|lia|].
    unfold span, data, header_size in *. replace (n * a_width a + a_width a - 1) with ((n + 1) * a_width a - 1) by lia.
    set (u := (n + 1) * a_width a) in *. clearbody u. dlia.
  - destruct (Z.eqb_spec ndx n); cbn [negb]; [done|].
    destruct (byte_width_cases _ Hw Hge) as (k & Hk & Hwk & -> & _). cbn [a_mem with_mem].
    unfold blit. rdec; [|done]. exfalso. unfold span in Hc1. rewrite Hwk in Hc1.
    replace (((n + 1) * (8 * Z.of_nat k) + 7) / 8) with ((n + 1) * Z.of_nat k) in Hc1
      by (apply (Z.div_unique _ 8 _ 7); lia). nia.
Qed.

(** ** Creation *)

Lemma fill_loop_get n m d w i v :
  is_bytes m -> valid_width w -> fits w v -> 0 <= i ->
  is_bytes (fill_loop n m d w i v) /\ (forall x, x < d -> fill_loop n m d w i v x = m x) /\
  (forall j, 0 <= j -> get_direct (fill_loop n m d w i v) d w j =
     if in_range i (Z.of_nat n) j then v else get_direct m d w j).
Proof.
  intros Hm Hw Hf. revert m i Hm. induction n as [|n IH]; intros m i Hm Hi; cbn [fill_loop].
  { split_and!; try done. intros j Hj. rdec; [lia|done]. }
  destruct (IH (set_direct m d w i v) (i + 1)) as (H1 & H2 & H3); [by apply is_bytes_set_direct|lia|].
  split_and!; [done| |].
  - intros x Hx. rewrite H2 by done. by apply set_direct_low.
  - intros j Hj. rewrite H3 by done. destruct (Z.eq_dec j i) as [->|Hne].
    + repeat rdec; try lia. by apply get_set_direct_eq.
    + rewrite get_set_direct_ne by (done || lia). repeat rdec; (done || lia).
Qed.

Lemma lor7_align n : 0 < n -> Z.lor (n - 1) 7 + 1 = 8 * ((n + 7) / 8).
Proof.
  intros Hn. assert (Z.lor (n - 1) 7 = 8 * ((n - 1) / 8) + 7); [|dlia].
  replace 7 with (Z.lor 7 0) at 1 by done.
  apply Z.bits_inj'. intros i Hi. replace (8 * ((n - 1) / 8) + 7) with (Z.lor 7 (Z.shiftl ((n - 1) / 8) 3)).
  2:{ rewrite (lor_add 7 _ 3) by lia. lia. }
  rewrite !Z.lor_spec, Z.bits_0, orb_false_r. change 7 with (Z.ones 3). rewrite Z.testbit_ones_nonneg by lia.
  destruct (Z.ltb_spec i 3); [by rewrite orb_true_r|]. rewrite orb_false_r, Z.shiftl_spec by lia. cbn [orb].
  rewrite <- Z.shiftr_div_pow2 with (n := 3) by lia. rewrite Z.shiftr_spec by lia. f_equal. lia.
Qed.

Lemma calc_aligned_byte_size_spec n w :
  valid_width w -> w <> 0 -> 0 <= n <= max_elems ->
  calc_aligned_byte_size n w = Some (8 * ((header_size + span w n + 7) / 8)).
Proof.
  intros Hw Hw0 Hn. unfold calc_aligned_byte_size, header_size, max_elems, span in *.
  change (2 ^ 64 - 8) with 18446744073709551608.
  destruct (Z.ltb_spec w 8) as [Hlt|Hge].
  - assert (Hd : (if n mod (8 / w) =? 0 then n / (8 / w) else n / (8 / w) + 1) = (n * w + 7) / 8).
    { destruct (sub_width_cases w Hw Hlt Hw0) as [->|[->| ->]].
      - change (8 / 1) with 8. zdec; dlia.
      - change (8 / 2) with 4. zdec; dlia.
      - change (8 / 4) with 2. zdec; dlia. }
    rewrite Hd. assert (0 <= (n * w + 7) / 8 <= 8 * 16777000).
    { destruct (sub_width_cases w Hw Hlt Hw0) as [->|[->| ->]]; dlia. }
    destruct (Z.ltb_spec (18446744073709551608 - 8) ((n * w + 7) / 8)); [lia|].
    rewrite lor7_align by lia. done.
  - destruct (byte_width_cases w Hw Hge) as (k & Hk & Hwk & _ & ->). rewrite Hwk.
    replace ((n * (8 * Z.of_nat k) + 7) / 8) with (n * Z.of_nat k) by (apply (Z.div_unique _ 8 _ 7); lia).
    destruct (Z.ltb_spec ((18446744073709551608 - 8) / Z.of_nat k) n) as [Hov|_].
    + assert (16777000 < (18446744073709551608 - 8) / Z.of_nat k)
        by (destruct Hk as [->|[->|[->| ->]]]; reflexivity). lia.
    + rewrite lor7_align by nia. done.
Qed.

Lemma wf_init_from_mem s ref m inner refs ctx w n cap :
  is_bytes m -> read_header m 0 = mkHeader inner refs ctx (Some wtype_Bits) w n cap ->
  0 <= n <= max_elems -> valid_width w -> al_is_read_only s ref = false ->
  data + span w n <= cap -> cap mod 8 = 0 -> 0 <= cap < 2 ^ 27 ->
  let a := init_from_mem ref m ref in
  arr_wf s a /\ is_read_only s a = false /\ a_size a = n /\ a_width a = w /\ a_mem a = m /\
  (a_is_inner a, a_has_refs a, a_context_flag a) = (inner, refs, ctx).
Proof.
  intros Hb Hh Hn Hw Hro Hc Hc8 Hcr. unfold init_from_mem, update_width_cache_from_header. cbn.
  destruct (read_header_fields _ _ _ _ _ _ _ _ _ Hh) as (-> & -> & -> & _ & -> & -> & _).
  destruct (bounds_for_width w Hw) as (lo & hi & Hlo & Hhi). rewrite Hlo, Hhi. cbn.
  split_and!; try done. split; cbn; try done. exists cap. split; [exact Hh|]. intros _. done.
Qed.

Lemma array_create_get s type ctx n v :
  0 <= n <= max_elems -> int64_range v ->
  exists s' a, array_create s type ctx n v = Some (s', a) /\ arr_wf s' a /\ is_read_only s' a = false /\
    same_ro s s' /\ a_size a = n /\
    a_is_inner a = (match type with type_InnerBptreeNode => true | _ => false end) /\
    a_has_refs a = (match type with type_Normal => false | _ => true end) /\ a_context_flag a = ctx /\
    (forall i, 0 <= i < n -> array_get a i = v).
Proof.
  intros Hn Hv. unfold array_create. set (w := if v =? 0 then 0 else bit_width v).
  assert (Hw : valid_width w /\ fits w v /\ (v <> 0 -> w <> 0) /\ (v = 0 -> w = 0)).
  { subst w. destruct (Z.eqb_spec v 0) as [->|Hv0]; [split_and!; [by left|done|done|done]|].
    destruct (bit_width_spec v Hv) as (H1 & H2 & _). split_and!; try done. intros _ E. rewrite E in H2.
    unfold fits, lbound_for_width, ubound_for_width in H2. cbn in H2. lia. }
  clearbody w. destruct Hw as (Hw & Hfit & Hw0 & Hwz). pose proof (span_bound w n Hw Hn) as Hsp. unfold max_elems in Hn.
  assert (exists c, (if v =? 0 then Some header_size else calc_aligned_byte_size n w) = Some c /\
    data + span w n <= c /\ c mod 8 = 0 /\ 0 <= c < 2 ^ 27) as (c & Hc & Hc1 & Hc8 & Hcr).
  { unfold data, header_size. change (2 ^ 27) with 134217728. destruct (Z.eqb_spec v 0) as [E|Hv0].
    - exists 8. rewrite (Hwz E). unfold span. split_and!; try done. replace (n * 0 + 7) with 7 by lia. done.
    - rewrite calc_aligned_byte_size_spec by (auto; unfold max_elems; lia). eexists. split; [done|].
      unfold header_size. dlia. }
  rewrite Hc. cbn [mbind option_bind]. unfold initial_capacity. set (k := Z.max c 128).
  assert (Hk : data + span w n <= k /\ k mod 8 = 0 /\ 0 <= k < 2 ^ 27).
  { subst k. change (2 ^ 27) with 134217728 in *. destruct (Z.max_spec c 128) as [[? ->]|[? ->]]; [|lia].
    split_and!; try lia. done. }
  destruct Hk as (Hk1 & Hk8 & Hkr). clearbody k.
  pose proof (al_alloc_writable s k) as Hro. pose proof (al_alloc_bytes s k) as Hfb. pose proof (al_alloc_ro s k) as Hrs.
  destruct (al_alloc s k) as [[ref m] s1]. cbn [fst snd] in *.
  set (inner := match type with type_InnerBptreeNode => true | _ => false end).
  set (refs := match type with type_Normal => false | _ => true end).
  destruct (init_header_roundtrip m 0 inner refs ctx wtype_Bits w n k) as [Hh _]; try done; [unfold max_array_size; lia|].
  set (m1 := init_header m 0 inner refs ctx wtype_Bits w n k) in *.
  assert (Hm1 : is_bytes m1) by by apply is_bytes_init_header.
  set (m2 := if v =? 0 then m1 else fill_direct m1 data w 0 n v).
  assert (Hm2 : is_bytes m2 /\ read_header m2 0 = read_header m1 0 /\
    forall i, 0 <= i < n -> get_direct m2 data w i = v).
  { subst m2. destruct (Z.eqb_spec v 0) as [E|Hv0].
    - split_and!; try done. intros i Hi. rewrite (Hwz E), E. done.
    - unfold fill_direct. destruct (fill_loop_get (Z.to_nat (n - 0)) m1 data w 0 v) as (F1 & F2 & F3); try done.
      split_and!; [done| |].
      + apply read_header_ext. intros x Hx. apply F2. unfold data, header_size. lia.
      + intros i Hi. rewrite F3 by lia. rdec; [done|lia]. }
  destruct Hm2 as (Hb2 & Hh2 & Hg2). clearbody m2. rewrite Hh in Hh2.
  destruct (wf_init_from_mem s1 ref m2 inner refs ctx w n k) as (W1 & W2 & W3 & W4 & W5 & W6);
    try done; [by rewrite Hrs|]. injection W6 as Wi Wr Wc.
  exists s1, (init_from_mem ref m2 ref). split_and!; try done.
  intros i Hi. unfold array_get. rewrite W4, W5. by apply Hg2.
Qed.
End Spec.
