(* ===== verification/ArrayTheorems.v ===== *)
(** * Arrays refine lists

    What each operation of [Array] does to the list of elements, for any
    allocator that keeps the promises of [AllocatorSpec], with the invariants
    the accessor relies on: header and cache agree, the elements fit the block,
    and the parent holds the current ref.  The theorems are applied to a
    concrete allocator at the end. *)

From S2P Require Import Prelude Bytes NodeHeader ArrayDirect ArrayBits Node Array.

Section Theorems.
Context {A : Type} `{AllocatorSpec A}.
Implicit Types (s : A) (a : Arr).

(** Claim C8: inserting into an array, whether it is read-only, must be
    relocated, must be widened, or shifts packed bits in place, inserts the value
    at the index in the list of elements, and leaves a well-formed array. *)
Theorem array_insert_correct s a ndx v :
  arr_wf s a -> 0 <= ndx <= a_size a -> a_size a < max_elems -> int64_range v ->
  let '(s', a') := array_insert s a ndx v in
  op_ok s a s' a' /\ is_read_only s' a' = false /\ elems a' = list_insert_at (Z.to_nat ndx) v (elems a).
Proof. apply array_insert_list. Qed.

(** No store of an insertion falls outside the array's block: at and
    above the block's capacity, and in the header, the memory is as the allocation
    step left it (the word-wise shift of packed bits included). *)
Theorem array_insert_in_bounds s a ndx v x :
  arr_wf s a -> 0 <= ndx <= a_size a -> a_size a < max_elems -> int64_range v ->
  let w := if out_of_bounds a v then bit_width v else a_width a in
  let a1 := (array_alloc s a (a_size a + 1) w).2 in
  let a' := (array_insert s a ndx v).2 in
  get_capacity_from_header (a_mem a1) 0 <= x \/ x < data -> a_mem a' x = a_mem a1 x.
Proof.
  intros Hwf Hn Hmax Hv w a1 a' Hx. pose proof (wf_size _ _ Hwf).
  assert (Hw : valid_width w /\ a_width a <= w).
  { subst w. destruct (out_of_bounds a v) eqn:Ho; [|split; [apply Hwf|lia]].
    destruct (bit_width_wider s a v Hwf Hv Ho) as (? & ? & ?). split; [done|lia]. }
  destruct Hw as [Hw Hle].
  assert (Ha' : a' = let a2 := open_gap a1 (out_of_bounds a v) (a_width a) (a_size a) ndx in
    let a3 := setter a2 ndx v in
    if out_of_bounds a v then with_mem a3 (widen_loop (Z.to_nat ndx) 0 0 (a_mem a3) data (a_width a) (a_width a3)) else a3).
  { subst a' a1 w. unfold array_insert. destruct (out_of_bounds a v); by destruct (array_alloc _ _ _ _). }
  pose proof (array_alloc_spec s a (a_size a + 1) w Hwf Hw ltac:(lia)) as Hal. subst a1.
  destruct (array_alloc s a (a_size a + 1) w) as [s1 a1]. cbn [snd] in *.
  destruct Hal as (Hwf1 & Hro & _ & Hs1 & Hw1 & _).
  destruct (wf_header _ _ Hwf1) as (cap & Hh & Hcap). specialize (Hcap Hro). pose proof Hcap as (Hc1 & _).
  destruct (read_header_fields _ _ _ _ _ _ _ _ _ Hh) as (_ & _ & _ & _ & _ & _ & Hce). rewrite Hce in Hx.
  rewrite Hs1, Hw1 in Hc1. set (e := out_of_bounds a v) in *.
  assert (Hg : a_mem (open_gap a1 e (a_width a) (a_size a) ndx) x = a_mem a1 x).
  { destruct Hx as [Hx|Hx].
    - apply (open_gap_high s1 _ _ _ _ _ _ cap); try done; try apply Hwf; [rewrite Hw1; lia|].
      intros He. rewrite Hw1. unfold w. by rewrite He.
    - unfold open_gap. pose proof (valid_width_range _ (wf_width _ _ Hwf)). destruct e; cbn.
      + apply widen_loop_low; [apply Hwf1|lia..].
      + destruct (_ <? 8); [destruct (_ && _)|destruct (negb _)]; cbn; try done.
        * apply open_bit_gap_low; nia.
        * unfold blit. rdec; [|done]. repeat zdec; nia. }
  assert (Hgw : a_width (open_gap a1 e (a_width a) (a_size a) ndx) = w).
  { unfold open_gap. destruct e; cbn; [done|]. destruct (_ <? 8); [destruct (_ && _)|destruct (negb _)]; cbn; done. }
  assert (Hst : a_mem (setter (open_gap a1 e (a_width a) (a_size a) ndx) ndx v) x = a_mem a1 x).
  { unfold setter. cbn [a_mem with_mem]. rewrite Hgw, <- Hg.
    destruct Hx as [Hx|Hx]; [|apply set_direct_low; (done || lia)].
    apply (set_direct_frame _ _ _ _ (a_size a + 1)); [done|lia..]. }
  rewrite Ha'. cbv zeta. destruct e; [|exact Hst]. cbn [a_mem with_mem]. rewrite <- Hst.
  change (a_width (setter ?q _ _)) with (a_width q). rewrite Hgw. destruct Hx as [Hx|Hx].
  - apply (widen_loop_high _ _ _ _ _ _ _ (a_size a + 1)); (done || lia).
  - apply widen_loop_low; (done || lia).
Qed.

(** Setting an element replaces exactly that element of the list,
    also when the array has to be copied first or widened to hold the value. *)
Theorem array_set_correct s a ndx v :
  arr_wf s a -> 0 <= ndx < a_size a -> int64_range v ->
  let '(s', a') := array_set s a ndx v in
  op_ok s a s' a' /\ elems a' = <[Z.to_nat ndx := v]> (elems a).
Proof. apply array_set_list. Qed.

(** Erasing a range of elements removes that range of the list. *)
Theorem array_erase_correct s a begin end_ :
  arr_wf s a -> 0 <= begin <= end_ -> end_ <= a_size a ->
  let '(s', a') := array_erase_range s a begin end_ in
  op_ok s a s' a' /\ elems a' = list_erase_range (Z.to_nat begin) (Z.to_nat end_) (elems a).
Proof. apply array_erase_range_list. Qed.

(** [Array::move] to another array cuts the list at the index and
    appends the cut part to the other list, whatever the two widths are. *)
Theorem array_move_to_correct s a dst ndx :
  arr_wf s a -> arr_wf s dst -> 0 <= ndx <= a_size a -> a_size dst + (a_size a - ndx) <= max_elems ->
  let '(s', a', dst') := array_move_to s a dst ndx in
  op_ok s a s' a' /\ op_ok s dst s' dst' /\
  elems a' = take (Z.to_nat ndx) (elems a) /\ elems dst' = elems dst ++ drop (Z.to_nat ndx) (elems a).
Proof. apply array_move_to_list. Qed.

(** Adjusting a range adds the difference to every element of the
    range and to no other, on the in-place path and on the widening path. *)
Theorem array_adjust_correct s a begin end_ diff :
  arr_wf s a -> 0 <= begin -> end_ <= a_size a ->
  (forall j, begin <= j < end_ -> int64_range (array_get a j + diff)) ->
  let '(s', a') := array_adjust_range s a begin end_ diff in
  op_ok s a s' a' /\ a_size a' = a_size a /\
  (forall j, 0 <= j < a_size a ->
     array_get a' j = if in_range begin (end_ - begin) j then array_get a j + diff else array_get a j).
Proof. apply array_adjust_range_get. Qed.

(** A created array is well-formed and holds [n] copies of the value. *)
Theorem array_create_correct s type ctx n v :
  0 <= n <= max_elems -> int64_range v ->
  exists s' a, array_create s type ctx n v = Some (s', a) /\ arr_wf s' a /\ is_read_only s' a = false /\
    elems a = replicate (Z.to_nat n) v.
Proof.
  intros Hn Hv. destruct (array_create_get s type ctx n v Hn Hv) as (s' & a & H1 & H2 & H3 & _ & Hs & _ & _ & _ & Hg).
  exists s', a. split_and!; try done. apply elems_eq; rewrite Hs.
  - rewrite length_replicate. lia.
  - intros i Hi. rewrite Hg by done. apply lookup_replicate_2. lia.
Qed.

(** On a sorted array, [lower_bound_int] and [upper_bound_int] split the
    elements as [std::lower_bound] and [std::upper_bound] do. *)
Theorem array_bounds_correct s a v :
  arr_wf s a -> (forall i j, 0 <= i <= j -> j < a_size a -> array_get a i <= array_get a j) ->
  let lo := lower_bound_int a v in let hi := upper_bound_int a v in
  0 <= lo <= hi /\ hi <= a_size a /\
  Forall (fun x => x < v) (take (Z.to_nat lo) (elems a)) /\
  Forall (fun x => v <= x) (drop (Z.to_nat lo) (elems a)) /\
  Forall (fun x => x <= v) (take (Z.to_nat hi) (elems a)) /\
  Forall (fun x => v < x) (drop (Z.to_nat hi) (elems a)).
Proof.
  intros Hwf Hsort. pose proof (wf_size _ _ Hwf) as Hs. unfold max_elems in Hs.
  assert (Hlt : 0 <= a_size a < 2 ^ 64) by (change (2 ^ 64) with 18446744073709551616; lia).
  destruct (lower_bound_correct _ _ _ _ v Hsort Hlt) as (L1 & L2 & L3).
  destruct (upper_bound_correct _ _ _ _ v Hsort Hlt) as (U1 & U2 & U3).
  unfold lower_bound_int, upper_bound_int.
  set (lo := lower_bound _ _ _ _ _) in *. set (hi := upper_bound _ _ _ _ _) in *. clearbody lo hi. cbv zeta in *.
  assert (Htake : forall (P : Z -> Prop) k, 0 <= k <= a_size a -> (forall i, 0 <= i < k -> P (array_get a i)) ->
    Forall P (take (Z.to_nat k) (elems a))).
  { intros P k Hk HP. apply Forall_lookup. intros n x [Hl Hn]%lookup_take_Some.
    pose proof (elems_lookup a (Z.of_nat n) ltac:(lia)) as He. rewrite Nat2Z.id in He. rewrite He in Hl.
    injection Hl as <-. apply HP. lia. }
  assert (Hdrop : forall (P : Z -> Prop) k, 0 <= k <= a_size a -> (forall i, k <= i < a_size a -> P (array_get a i)) ->
    Forall P (drop (Z.to_nat k) (elems a))).
  { intros P k Hk HP. apply Forall_lookup. intros n x Hl. rewrite lookup_drop in Hl.
    pose proof (lookup_lt_Some _ _ _ Hl) as Hb. rewrite length_elems in Hb.
    replace (Z.to_nat k + n)%nat with (Z.to_nat (k + Z.of_nat n)) in Hl by lia.
    rewrite elems_lookup in Hl by lia. injection Hl as <-. apply HP. lia. }
  split_and!; try lia; auto.
  destruct (Z.le_gt_cases lo hi) as [|Hgt]; [done|]. exfalso.
  specialize (L2 hi ltac:(lia)). specialize (U3 hi ltac:(lia)). lia.
Qed.
End Theorems.

(** ** Allocators *)

(** [DefaultAllocator] of src/llbt/alloc.cpp, over the C library's [malloc] and
    [realloc].  Its baseline is zero; a ref is the address. *)
Section DefaultAllocator.
Variable c_malloc : nat -> Z -> Z * bytes.
Variable c_realloc : nat -> bytes -> Z -> Z -> Z * bytes.

(** The number of calls made, which stands for the state of the C heap. *)
Record DefaultAllocator := mkDefaultAllocator { da_calls : nat }.

Definition default_alloc (s : DefaultAllocator) (size : Z) : Z * bytes * DefaultAllocator :=
  let '(addr, m) := c_malloc (da_calls s) size in (addr, m, mkDefaultAllocator (S (da_calls s))).
Definition default_realloc (s : DefaultAllocator) (ref : Z) (m : bytes) (old_size new_size : Z)
    : Z * bytes * DefaultAllocator :=
  let '(addr, m) := c_realloc (da_calls s) m old_size new_size in (addr, m, mkDefaultAllocator (S (da_calls s))).
Definition default_free (s : DefaultAllocator) (ref : Z) (m : bytes) : DefaultAllocator :=
  mkDefaultAllocator (S (da_calls s)).

#[export] Instance default_allocator : Allocator DefaultAllocator := {
  al_alloc := default_alloc; al_realloc := default_realloc; al_free := default_free;
  al_is_read_only _ ref := ref <? 0 }.

Hypothesis malloc_documented : forall n size, 0 <= (c_malloc n size).1 /\ is_bytes (c_malloc n size).2.
Hypothesis realloc_documented : forall n m old new,
  0 <= (c_realloc n m old new).1 /\ (is_bytes m -> is_bytes (c_realloc n m old new).2) /\
  (old <= new -> forall x, 0 <= x < old -> (c_realloc n m old new).2 x = m x).

Lemma default_allocator_spec : AllocatorSpec DefaultAllocator.
Proof.
  split; intros; cbn -[Z.ltb]; unfold default_alloc, default_realloc.
  - destruct (malloc_documented (da_calls s) n) as [Ha _]. destruct (c_malloc _ _). by apply Z.ltb_ge.
  - destruct (malloc_documented (da_calls s) n) as [_ Ha]. by destruct (c_malloc _ _).
  - done.
  - destruct (realloc_documented (da_calls s) m old new) as [Ha _]. destruct (c_realloc _ _ _ _). by apply Z.ltb_ge.
  - destruct (realloc_documented (da_calls s) m old new) as (_ & Ha & _). destruct (c_realloc _ _ _ _). by apply Ha.
  - destruct (realloc_documented (da_calls s) m old new) as (_ & _ & Ha). destruct (c_realloc _ _ _ _). by apply Ha.
  - done.
  - done.
Qed.
End DefaultAllocator.

(** An allocator with a file below a baseline, whose refs are read-only. *)
Record Mapped := mkMapped { mp_baseline : Z; mp_next : Z }.

#[export] Instance mapped_allocator : Allocator Mapped := {
  al_alloc s size := (Z.max (mp_baseline s) (mp_next s), fun _ => 0xAA,
                      mkMapped (mp_baseline s) (Z.max (mp_baseline s) (mp_next s) + size));
  al_realloc s ref m old new := (Z.max (mp_baseline s) (mp_next s), blit (fun _ => 0xAA) 0 m 0 old,
                                 mkMapped (mp_baseline s) (Z.max (mp_baseline s) (mp_next s) + new));
  al_free s ref m := s;
  al_is_read_only s ref := ref <? mp_baseline s }.

#[export] Instance mapped_allocator_spec : AllocatorSpec Mapped.
Proof.
  split; intros; cbn -[Z.ltb]; try done.
  - apply Z.ltb_ge. lia.
  - apply Z.ltb_ge. lia.
  - apply is_bytes_blit; [intros x; lia|done].
  - unfold blit. rdec; [f_equal; lia|lia].
Qed.

(** Three one-bit elements in the read-only part of the file. *)
Definition ex_arr : Arr :=
  match array_create (mkMapped 0 2000) type_Normal false 3 1 with
  | Some (_, a) => a
  | None => mkArr 0 (fun _ => 0) 0 0 0 0 false false false 0
  end.
Definition ex_alloc : Mapped := mkMapped 5000 9000.

Lemma ex_arr_wf : arr_wf ex_alloc ex_arr.
Proof.
  destruct (array_create_get (mkMapped 0 2000) type_Normal false 3 1) as (s & a & He & Hwf & _);
    [unfold max_elems; lia|unfold int64_range; lia|].
  unfold ex_arr. rewrite He. destruct Hwf as [? (cap & Hh & _) ? ? ? ?].
  split; try done. exists cap. split; [done|]. intros Hro. exfalso.
  revert Hro. injection He as _ <-. vm_compute. discriminate.
Qed.

Ltac ex_side :=
  first [exact ex_arr_wf | vm_compute; split; (discriminate || reflexivity) | vm_compute; discriminate | vm_compute; reflexivity].

Lemma array_insert_correct_witness :
  is_read_only ex_alloc ex_arr = true /\ elems (array_insert ex_alloc ex_arr 1 300).2 = [1; 300; 1; 1].
Proof.
  split; [vm_compute; reflexivity|].
  pose proof (array_insert_correct ex_alloc ex_arr 1 300 ltac:(ex_side) ltac:(ex_side) ltac:(ex_side) ltac:(ex_side)) as Hi.
  destruct (array_insert ex_alloc ex_arr 1 300) as [s' a'] eqn:E. destruct Hi as (_ & _ & Hi).
  cbn [fst snd]. rewrite Hi. vm_compute. reflexivity.
Defined.

Lemma array_insert_in_bounds_witness :
  a_mem (array_insert ex_alloc ex_arr 1 1).2 200 = a_mem (array_alloc ex_alloc ex_arr 4 1).2 200.
Proof.
  apply (array_insert_in_bounds ex_alloc ex_arr 1 1 200); [ex_side..|]. left. vm_compute. discriminate.
Defined.

Lemma array_set_correct_witness : elems (array_set ex_alloc ex_arr 2 (-7)).2 = [1; 1; -7].
Proof.
  pose proof (array_set_correct ex_alloc ex_arr 2 (-7) ltac:(ex_side) ltac:(ex_side) ltac:(ex_side)) as Hi.
  destruct (array_set ex_alloc ex_arr 2 (-7)) as [s' a']. destruct Hi as (_ & Hi). cbn [fst snd]. rewrite Hi. vm_compute. reflexivity.
Defined.

Lemma array_erase_correct_witness : elems (array_erase_range ex_alloc ex_arr 0 2).2 = [1].
Proof.
  pose proof (array_erase_correct ex_alloc ex_arr 0 2 ltac:(ex_side) ltac:(ex_side) ltac:(ex_side)) as Hi.
  destruct (array_erase_range ex_alloc ex_arr 0 2) as [s' a']. destruct Hi as (_ & Hi). cbn [fst snd]. rewrite Hi. vm_compute. reflexivity.
Defined.

Lemma array_move_to_correct_witness :
  elems (array_move_to ex_alloc ex_arr ex_arr 1).1.2 = [1] /\ elems (array_move_to ex_alloc ex_arr ex_arr 1).2 = [1; 1; 1; 1; 1].
Proof.
  pose proof (array_move_to_correct ex_alloc ex_arr ex_arr 1 ltac:(ex_side) ltac:(ex_side) ltac:(ex_side) ltac:(ex_side)) as Hi.
  destruct (array_move_to ex_alloc ex_arr ex_arr 1) as [[s' a'] d']. destruct Hi as (_ & _ & H1 & H2).
  cbn [fst snd]. rewrite H1, H2. split; vm_compute; reflexivity.
Defined.

Lemma array_adjust_correct_witness : array_get (array_adjust_range ex_alloc ex_arr 0 2 1000).2 1 = 1001.
Proof.
  pose proof (array_adjust_correct ex_alloc ex_arr 0 2 1000 ltac:(ex_side) ltac:(ex_side) ltac:(ex_side)) as Hi.
  destruct (array_adjust_range ex_alloc ex_arr 0 2 1000) as [s' a']. destruct Hi as (_ & _ & Hi).
  - intros j Hj. assert (j = 0 \/ j = 1) as [->| ->] by lia; vm_compute; split; (discriminate || reflexivity).
  - cbn [snd]. rewrite Hi by (vm_compute; split; (discriminate || reflexivity)). vm_compute. reflexivity.
Defined.

Lemma array_create_correct_witness :
  exists s' a, array_create ex_alloc type_HasRefs true 5 (-1) = Some (s', a) /\ elems a = [-1; -1; -1; -1; -1].
Proof.
  destruct (array_create_correct ex_alloc type_HasRefs true 5 (-1)) as (s' & a & H1 & _ & _ & H2); [ex_side..|].
  exists s', a. split; assumption.
Defined.

Lemma array_bounds_correct_witness : 0 <= lower_bound_int ex_arr 1 <= upper_bound_int ex_arr 1.
Proof.
  apply (array_bounds_correct ex_alloc ex_arr 1 ex_arr_wf).
  intros i j Hi Hj. assert (Hs : j < 3) by exact Hj.
  assert (i = 0 \/ i = 1 \/ i = 2) as [->|[->| ->]] by lia;
    assert (j = 0 \/ j = 1 \/ j = 2) as [->|[->| ->]] by lia; vm_compute; discriminate.
Defined.
