(* ===== verification/ArrayDeep.v ===== *)
(** * Trees of arrays (the recursive operations of src/llbt/array.hpp and array.cpp)

    An array with the has-refs flag holds refs of other arrays: an element is a ref when it is
    not zero and even.  [write] stores a tree through an [ArrayWriter]
    (src/llbt/impl/array_writer.hpp); [ArrayWriterSpec] says what the recursion relies on. *)

From S2P Require Import Prelude Bytes Crc32c NodeHeader ArrayDirect Node Array.

(** ** Writers *)

Class ArrayWriter (W : Type) := write_array : W -> bytes -> Z -> Z -> result (Z * W).

(** [aw_ok w ref size]: [size] bytes at [ref] are stored for good.  A writer stores arrays
    of up to [aw_limit] bytes, or throws [aw_error]. *)
Class ArrayWriterSpec (W : Type) `{ArrayWriter W} := {
  aw_inv : W -> Prop;
  aw_file : W -> bytes;
  aw_ok : W -> Z -> Z -> Prop;
  aw_limit : Z;
  aw_error : Exn;
  aw_bytes w : aw_inv w -> is_bytes (aw_file w);
  aw_write w m size : aw_inv w -> is_bytes m -> header_size <= size <= aw_limit -> size mod 8 = 0 ->
    let checksum := compute m 4 (size - 4) in
    write_array w m size checksum = Throw aw_error \/
    exists ref w', write_array w m size checksum = Ok (ref, w') /\ aw_inv w' /\ 0 < ref < 2 ^ 64 /\ ref mod 8 = 0 /\
      aw_ok w' ref size /\
      (forall x, 0 <= x < size -> aw_file w' (ref + x) = if x <? 4 then u8 (Z.shiftr checksum (x * 8)) else m x) /\
      (forall r n, aw_ok w r n -> aw_ok w' r n /\ forall x, r <= x < r + n -> aw_file w' x = aw_file w x) }.

(** ** Operations *)

Definition is_ref (value : Z) : bool := negb (value =? 0) && (Z.land value 1 =? 0).

Definition node_type (is_inner : bool) : NodeType := if is_inner then type_InnerBptreeNode else type_HasRefs.

Section Write.
Context {A : Type} `{Allocator A}.
Context {W : Type} `{ArrayWriter W}.

Definition do_write_shallow (out : W) (a : Arr) : result (Z * W) :=
  let byte_size := get_byte_size a in
  let checksum := compute (a_mem a) 4 (byte_size - 4) in
  '(new_ref, out) ← write_array out (a_mem a) byte_size checksum;
  if negb (new_ref mod 8 =? 0) then Throw AssertionFailed else Ok (new_ref, out).

(** The loop of [do_write_deep] over the elements, with the recursive call as an argument; the
    temporary array lives in the default allocator [s]. *)
Fixpoint write_elems (write_sub : A -> W -> Z -> result (Z * A * W)) (s : A) (out : W) (values : list Z) (new_array : Arr) : result (A * W * Arr) :=
  match values with
  | [] => Ok (s, out, new_array)
  | value :: values =>
      '(value, s, out) ← (if is_ref value then
        '(new_subref, s, out) ← write_sub s out (u64 value);
        Ok (s64 new_subref, s, out)
      else Ok (value, s, out));
      let '(s, new_array) := array_add s new_array value in
      write_elems write_sub s out values new_array
  end.

(** The array destroyed at the end is the temporary one ([ShallowArrayDestroyGuard]). *)
Definition do_write_deep (write_sub : A -> W -> Z -> result (Z * A * W)) (s : A) (out : W) (a : Arr) : result (Z * A * W) :=
  match array_create s (node_type (a_is_inner a)) (a_context_flag a) 0 0 with
  | None => Throw LengthError
  | Some (s, new_array) =>
      '(s, out, new_array) ← write_elems write_sub s out (elems a) new_array;
      '(new_ref, out) ← do_write_shallow out new_array;
      Ok (new_ref, al_free s (a_ref new_array) (a_mem new_array), out)
  end.

(** The allocator of the arrays that are written: where they are, and which are read-only. *)
Variable translate : Z -> bytes.
Variable alloc_is_read_only : Z -> bool.

Definition init_from_ref (ref : Z) : Arr := init_from_mem ref (translate ref) ref.

Fixpoint write (fuel : nat) (only_if_modified : bool) (s : A) (out : W) (ref : Z) : result (Z * A * W) :=
  match fuel with
  | O => OutOfFuel
  | S fuel =>
      if only_if_modified && alloc_is_read_only ref then Ok (ref, s, out)
      else
        let array := init_from_ref ref in
        if negb (a_has_refs array) then '(new_ref, out) ← do_write_shallow out array; Ok (new_ref, s, out)
        else do_write_deep (write fuel only_if_modified) s out array
  end.

(** The member function, on an accessor that is attached. *)
Definition array_write (fuel : nat) (deep only_if_modified : bool) (s : A) (out : W) (a : Arr) : result (Z * A * W) :=
  if only_if_modified && alloc_is_read_only (a_ref a) then Ok (a_ref a, s, out)
  else if negb deep || negb (a_has_refs a) then '(new_ref, out) ← do_write_shallow out a; Ok (new_ref, s, out)
  else do_write_deep (write fuel only_if_modified) s out a.
End Write.

(** ** What a tree holds *)

(** A leaf is its bytes behind the capacity or checksum; a node has flags, values and
    subtrees. *)
Inductive tree := TLeaf (image : list Z) | TNode (is_inner context_flag : bool) (slots : list slot)
with slot := Val (v : Z) | Sub (t : tree).

Definition byte_size (m : bytes) : Z := default 0 (get_byte_size_from_header m 0).

Definition leaf_at (m : bytes) (image : list Z) : Prop :=
  get_hasrefs_from_header m 0 = false /\ get_wtype_from_header m 0 <> None /\ image = slice m 4 (byte_size m - 4).

(** The header is that of an array of refs, and the accessor reads the values. *)
Definition node_at (m : bytes) (is_inner context_flag : bool) (values : list Z) : Prop :=
  exists w n capacity, read_header m 0 = mkHeader is_inner true context_flag (Some wtype_Bits) w n capacity /\ valid_width w /\ 0 <= n <= max_elems /\
    values = elems (init_from_mem 0 m 0).

Section Holds.
Variable mem : Z -> bytes.
Variable ok : Z -> Z -> Prop.

Fixpoint holds (depth : nat) (ref : Z) (t : tree) : Prop :=
  match depth with
  | O => False
  | S depth =>
      is_bytes (mem ref) /\ ok ref (byte_size (mem ref)) /\
      match t with
      | TLeaf image => leaf_at (mem ref) image
      | TNode is_inner context_flag slots =>
          exists values, node_at (mem ref) is_inner context_flag values /\
            Forall2 (fun value slot => match slot with Val v => value = v /\ is_ref v = false | Sub t => is_ref value = true /\ holds depth (u64 value) t end) values slots
      end
  end.
End Holds.

(** Every array of the tree fits in [limit] bytes, however wide its elements are. *)
Fixpoint sized (limit : Z) (t : tree) : Prop :=
  match t with
  | TLeaf image => Z.of_nat (length image) + 4 <= limit
  | TNode _ _ slots => header_size + 8 * Z.of_nat (length slots) <= limit /\
      (fix all (l : list slot) : Prop := match l with [] => True | Val _ :: l => all l | Sub t :: l => sized limit t /\ all l end) slots
  end.

Lemma sized_slots limit i c slots : sized limit (TNode i c slots) -> header_size + 8 * Z.of_nat (length slots) <= limit /\ Forall (fun x => match x with Val _ => True | Sub t => sized limit t end) slots.
Proof. intros [H1 H2]. split; [done|]. clear H1. induction slots as [|[v|t] slots IH]; constructor; try done; [by apply IH|apply H2|apply IH, H2]. Qed.

(** ** Arrays read from equal bytes *)

(** What a header says does not depend on the capacity or checksum in front. *)
Lemma header_tail m m' : (forall x, 4 <= x < 8 -> m' x = m x) ->
  get_is_inner_bptree_node_from_header m' 0 = get_is_inner_bptree_node_from_header m 0 /\ get_hasrefs_from_header m' 0 = get_hasrefs_from_header m 0 /\
  get_context_flag_from_header m' 0 = get_context_flag_from_header m 0 /\ get_wtype_from_header m' 0 = get_wtype_from_header m 0 /\
  get_width_from_header m' 0 = get_width_from_header m 0 /\ get_size_from_header m' 0 = get_size_from_header m 0.
Proof.
  intros E. unfold get_is_inner_bptree_node_from_header, get_hasrefs_from_header, get_context_flag_from_header, get_wtype_from_header, get_width_from_header, get_size_from_header.
  by rewrite (E (0 + 4)), (E (0 + 5)), (E (0 + 6)), (E (0 + 7)) by lia.
Qed.

Lemma byte_size_tail m m' : (forall x, 4 <= x < 8 -> m' x = m x) -> byte_size m' = byte_size m.
Proof. intros E. unfold byte_size, get_byte_size_from_header. by destruct (header_tail m m' E) as (_ & _ & _ & -> & -> & ->). Qed.

Lemma byte_size_spec m wtype : is_bytes m -> get_wtype_from_header m 0 = Some wtype ->
  byte_size m = calc_byte_size wtype (get_size_from_header m 0) (get_width_from_header m 0) /\ 8 <= byte_size m /\ byte_size m mod 8 = 0.
Proof.
  intros Hb Ht. unfold byte_size, get_byte_size_from_header. rewrite Ht. cbn [mbind option_bind default from_option]. unfold id. split; [done|].
  assert (Hs : 0 <= get_size_from_header m 0).
  { unfold get_size_from_header. rewrite !Z.shiftl_mul_pow2 by lia. pose proof (Hb (0 + 5)). pose proof (Hb (0 + 6)). pose proof (Hb (0 + 7)). lia. }
  assert (Hw : 0 <= get_width_from_header m 0) by (apply u8_range).
  destruct (calc_byte_size_spec wtype (get_size_from_header m 0) (get_width_from_header m 0) Hs Hw) as [H1 H2]. split; [|done].
  enough (0 <= match wtype with wtype_Bits => (get_size_from_header m 0 * get_width_from_header m 0 + 7) / 8 | wtype_Multiply => get_size_from_header m 0 * get_width_from_header m 0 | wtype_Ignore => get_size_from_header m 0 end) by lia.
  destruct wtype; [apply Z.div_pos; nia|nia|done].
Qed.

Lemma leaf_at_ext m m' image : (forall x, 4 <= x < byte_size m -> m' x = m x) -> is_bytes m -> leaf_at m image -> leaf_at m' image.
Proof.
  intros E Hb (Hr & Ht & ->). destruct (get_wtype_from_header m 0) as [t|] eqn:Et; [|done]. destruct (byte_size_spec m t Hb Et) as (_ & H8 & _).
  destruct (header_tail m m') as (_ & E2 & _ & E4 & _); [intros x Hx; apply E; lia|]. split_and!; [congruence|congruence|].
  rewrite (byte_size_tail m m') by (intros x Hx; apply E; lia). apply slice_ext. intros k Hk. symmetry. apply E. lia.
Qed.

Lemma node_at_size m i c values : is_bytes m -> node_at m i c values ->
  exists w, get_width_from_header m 0 = w /\ valid_width w /\ get_size_from_header m 0 = Z.of_nat (length values) /\ data + span w (Z.of_nat (length values)) <= byte_size m < data + span w (Z.of_nat (length values)) + 8 /\ byte_size m mod 8 = 0.
Proof.
  intros Hb (w & n & cap & Hh & Hw & Hn & ->). destruct (read_header_fields _ _ _ _ _ _ _ _ _ Hh) as (_ & _ & _ & Ht & Ew & En & _). exists w.
  assert (El : Z.of_nat (length (elems (init_from_mem 0 m 0))) = n) by (rewrite length_elems; cbn [init_from_mem update_width_cache_from_header a_size]; rewrite En; lia).
  rewrite El, En. destruct (byte_size_spec m wtype_Bits Hb Ht) as (-> & _ & H8). rewrite Ew, En in *. split_and!; try done.
  all: assert (Hw0 : 0 <= w) by (unfold valid_width in Hw; lia); destruct (calc_byte_size_spec wtype_Bits n w ltac:(lia) Hw0) as [H1 H2]; unfold span, data, header_size; try lia.
Qed.

Lemma elems_ext m m' w n : get_width_from_header m 0 = w -> get_size_from_header m 0 = n -> valid_width w -> is_bytes m -> is_bytes m' -> (forall x, 4 <= x < 8 -> m' x = m x) -> (forall x, data <= x < data + span w n -> m' x = m x) ->
  elems (init_from_mem 0 m' 0) = elems (init_from_mem 0 m 0).
Proof.
  intros Ew En Hw Hb Hb' Eh Ed. destruct (header_tail m m' Eh) as (_ & _ & _ & _ & Ew' & En'). unfold elems, array_get, init_from_mem, update_width_cache_from_header. cbn [a_mem a_width a_size].
  rewrite Ew', En', Ew, En. apply map_ext_in. intros k Hk. apply in_seq in Hk. apply (get_direct_ext _ _ _ _ _ _ n); try done; [lia|]. intros x Hx. apply Ed. lia.
Qed.

Lemma node_at_ext m m' i c values : (forall x, 4 <= x < byte_size m -> m' x = m x) -> is_bytes m -> is_bytes m' -> node_at m i c values -> node_at m' i c values.
Proof.
  intros E Hb Hb' Hn. destruct (node_at_size m i c values Hb Hn) as (w & Ew & Hw & En & Hsz & _). destruct Hn as (w' & n & cap & Hh & _ & Hn & Hv). destruct (read_header_fields _ _ _ _ _ _ _ _ _ Hh) as (F1 & F2 & F3 & F4 & F5 & F6 & _).
  assert (Hsp : 0 <= span w (Z.of_nat (length values))) by (unfold span; apply Z.div_pos; [|lia]; unfold valid_width in Hw; nia). unfold data, header_size in *.
  assert (Eh : forall x, 4 <= x < 8 -> m' x = m x) by (intros x Hx; apply E; lia). destruct (header_tail m m' Eh) as (G1 & G2 & G3 & G4 & G5 & G6).
  exists w', n, (get_capacity_from_header m' 0). split_and!; [unfold read_header; congruence|congruence|lia|lia|].
  rewrite Hv. symmetry. apply (elems_ext m m' w (Z.of_nat (length values))); try done. intros x Hx. apply E. unfold data, header_size in Hx. lia.
Qed.

(** Trees survive writes that keep the bytes of their arrays. *)
Lemma holds_mono mem mem' ok ok' depth ref t : (forall r n, ok r n -> ok' r n /\ forall x, 0 <= x < n -> mem' r x = mem r x) -> (forall r, is_bytes (mem' r)) -> holds mem ok depth ref t -> holds mem' ok' depth ref t.
Proof.
  intros Hk Hb. revert ref t. induction depth as [|depth IH]; intros ref t; [done|]. cbn [holds]. intros (Hm & Ho & Ht). destruct (Hk _ _ Ho) as [Ho' E].
  assert (H8 : 8 <= byte_size (mem ref)).
  { destruct t as [image|i c slots]; [destruct Ht as (_ & Ht & _); destruct (get_wtype_from_header (mem ref) 0) as [t|] eqn:Et; [|done]; by apply (byte_size_spec _ t)|].
    destruct Ht as (values & (w & n & cap & Hh & _) & _). destruct (read_header_fields _ _ _ _ _ _ _ _ _ Hh) as (_ & _ & _ & Et & _). by apply (byte_size_spec _ wtype_Bits). }
  split; [done|]. rewrite (byte_size_tail (mem ref) (mem' ref)) by (intros x Hx; apply E; lia). split; [done|]. destruct t as [image|i c slots].
  - apply (leaf_at_ext (mem ref)); [intros x Hx; apply E; lia|done|done].
  - destruct Ht as (values & Hn & Hs). exists values. split; [apply (node_at_ext (mem ref)); try done; intros x Hx; apply E; lia|].
    eapply Forall2_impl; [|exact Hs]. intros v [z|t]; [done|]. intros [Hr Ht]. split; [done|]. by apply IH.
Qed.

(** ** Writing *)

Section WriteSpec.
Context {A : Type} {allocator : Allocator A} {allocator_spec : AllocatorSpec A}.
Context {W : Type} {writer : ArrayWriter W} {writer_spec : ArrayWriterSpec W}.

(** The array at a position of the file. *)
Definition stored (w : W) (ref : Z) : bytes := fun x => aw_file w (ref + x).

(** What is stored for good stays. *)
Definition grows (w w' : W) : Prop := forall r n, aw_ok w r n -> aw_ok w' r n /\ forall x, r <= x < r + n -> aw_file w' x = aw_file w x.

Lemma grows_refl w : grows w w.
Proof. by intros r n Hr. Qed.

Lemma grows_trans w1 w2 w3 : grows w1 w2 -> grows w2 w3 -> grows w1 w3.
Proof. intros H1 H2 r n Hr. destruct (H1 r n Hr) as [Hr2 E2]. destruct (H2 r n Hr2) as [Hr3 E3]. split; [done|]. intros x Hx. by rewrite E3, E2. Qed.

Lemma holds_grows w w' depth ref t : aw_inv w' -> grows w w' -> holds (stored w) (aw_ok w) depth ref t -> holds (stored w') (aw_ok w') depth ref t.
Proof.
  intros Hi Hg. apply holds_mono; [|intros r x; by apply aw_bytes]. intros r n Hr. destruct (Hg r n Hr) as [Hr' E]. split; [done|]. intros x Hx. apply E. lia.
Qed.

Definition good_ref (ref : Z) : Prop := 0 < ref < 2 ^ 64 /\ ref mod 8 = 0.

Lemma good_ref_value ref : good_ref ref -> u64 (s64 ref) = ref /\ is_ref (s64 ref) = true /\ int64_range (s64 ref).
Proof.
  intros [Hr H8]. assert (E : s64 ref = ref \/ s64 ref = ref - 2 ^ 64 /\ 2 ^ 63 <= ref).
  { unfold s64, sext. rewrite (Z.mod_small ref) by lia. change (64 - 1) with 63. destruct (Z.ltb_spec ref (2 ^ 63)); [by left|by right]. }
  split_and!.
  - destruct E as [->|[-> _]]; [by apply u64_small; lia|]. unfold u64. rewrite <- (Z.mod_small ref (2 ^ 64)) at 2 by lia. replace (ref - 2 ^ 64) with (ref + (-1) * 2 ^ 64) by lia. apply Z.mod_add. lia.
  - unfold is_ref. rewrite (proj2 (Z.eqb_neq (s64 ref) 0)) by lia. cbn [negb andb]. apply Z.eqb_eq. change 1 with (Z.ones 1). rewrite Z.land_ones by lia. change (2 ^ 1) with 2. destruct E as [->|[-> _]]; dlia.
  - unfold int64_range. apply (sext_range 64 ref). lia.
Qed.

Lemma do_write_shallow_ok w a : aw_inv w -> is_bytes (a_mem a) -> get_wtype_from_header (a_mem a) 0 <> None -> a_size a = get_size_from_header (a_mem a) 0 -> byte_size (a_mem a) <= aw_limit ->
  do_write_shallow w a = Throw aw_error \/
  exists ref w', do_write_shallow w a = Ok (ref, w') /\ aw_inv w' /\ good_ref ref /\ grows w w' /\ aw_ok w' ref (byte_size (a_mem a)) /\ forall x, 4 <= x < byte_size (a_mem a) -> stored w' ref x = a_mem a x.
Proof.
  intros Hi Hb Ht Hs Hl. unfold do_write_shallow, get_byte_size, header_byte_size. destruct (get_wtype_from_header (a_mem a) 0) as [t|] eqn:Et; [|done].
  destruct (byte_size_spec (a_mem a) t Hb Et) as (Ez & H8 & Hm). rewrite Hs, <- Ez.
  destruct (aw_write w (a_mem a) (byte_size (a_mem a)) Hi Hb) as [->|(ref & w' & -> & Hi' & Hr & Hr8 & Ho & Ed & Hg)]; [done|done|by left|]. right. exists ref, w'. cbn [mbind result_bind].
  rewrite Hr8. cbn [Z.eqb negb]. split_and!; try done. intros x Hx. unfold stored. rewrite Ed by lia. by rewrite (proj2 (Z.ltb_ge x 4)) by lia.
Qed.

Variable translate : Z -> bytes.
Variable alloc_is_read_only : Z -> bool.

(** Memory as the allocator shows it; nothing is asked of where arrays are. *)
Definition held : nat -> Z -> tree -> Prop := holds translate (fun _ _ => True).

(** The outcome of a write: the writer's own error, or the same tree in the file. *)
Definition written (s : A) (out : W) (depth : nat) (t : tree) (r : result (Z * A * W)) : Prop :=
  r = Throw aw_error \/
  exists ref s' out', r = Ok (ref, s', out') /\ same_ro s s' /\ aw_inv out' /\ grows out out' /\ good_ref ref /\ holds (stored out') (aw_ok out') depth ref t.

(** If only modified arrays are written, read-only ones are in the file already. *)
Variable only_if_modified : bool.

Definition in_file (out : W) : Prop := only_if_modified = true -> forall depth ref t, alloc_is_read_only ref = true -> held depth ref t -> good_ref ref /\ holds (stored out) (aw_ok out) depth ref t.

Lemma in_file_grows out out' : aw_inv out' -> grows out out' -> in_file out -> in_file out'.
Proof. intros Hi Hg Hf Ho depth ref t Hr Ht. destruct (Hf Ho depth ref t Hr Ht) as [Hg' Hh]. split; [done|]. by apply (holds_grows out). Qed.

Lemma write_leaf_ok s out depth ref image : aw_inv out -> held (S depth) ref (TLeaf image) -> Z.of_nat (length image) + 4 <= aw_limit ->
  written s out (S depth) (TLeaf image) ('(new_ref, out) ← do_write_shallow out (init_from_ref translate ref); Ok (new_ref, s, out)).
Proof.
  intros Hi (Hb & _ & Hl) Hs. pose proof Hl as (Hr & Ht & Ei). assert (H8 : 8 <= byte_size (translate ref)) by (destruct (get_wtype_from_header (translate ref) 0) as [t|] eqn:Et; [by apply (byte_size_spec _ t)|done]).
  assert (Hlen : byte_size (translate ref) <= aw_limit) by (rewrite Ei, length_slice in Hs; lia).
  destruct (do_write_shallow_ok out (init_from_ref translate ref) Hi Hb Ht eq_refl Hlen) as [->|(r & out' & -> & Hi' & Hg' & Hgr & Ho & E)]; [by left|]. right. exists r, s, out'. cbn [mbind result_bind].
  cbn [init_from_ref init_from_mem update_width_cache_from_header a_mem] in *. split_and!; try done. cbn [holds]. split_and!; [intros x; by apply aw_bytes| |].
  - rewrite (byte_size_tail (translate ref)); [done|]. intros x Hx. apply E. lia.
  - apply (leaf_at_ext (translate ref)); [done|done|done].
Qed.

(** The temporary array after the elements written so far. *)
Record partial (s : A) (i c : bool) (values : list Z) (a : Arr) : Prop := {
  pa_wf : arr_wf s a;
  pa_flags : a_is_inner a = i /\ a_has_refs a = true /\ a_context_flag a = c;
  pa_elems : elems a = values }.

Lemma partial_add s i c values a v : partial s i c values a -> Z.of_nat (length values) < max_elems -> int64_range v ->
  let '(s', a') := array_add s a v in same_ro s s' /\ partial s' i c (values ++ [v]) a'.
Proof.
  intros [Hwf (Fi & Fr & Fc) He] Hn Hv. unfold array_add. pose proof (wf_size _ _ Hwf) as Hs.
  assert (Hl : length values = Z.to_nat (a_size a)) by (by rewrite <- He, length_elems).
  pose proof (array_insert_list s a (a_size a) v Hwf ltac:(lia) ltac:(lia) Hv) as Hi. destruct (array_insert s a (a_size a) v) as [s' a']. destruct Hi as ([Hw Hr G1 G2 G3] & _ & El).
  split; [done|]. split; [done|split_and!; congruence|]. rewrite El, He, <- Hl. unfold list_insert_at. by rewrite take_ge, drop_ge by lia.
Qed.

Lemma partial_ro s s' i c values a : same_ro s s' -> partial s i c values a -> partial s' i c values a.
Proof. intros Hs [Hw Hf He]. split; [by apply (wf_same_ro s)|done|done]. Qed.

Definition slot_holds (mem : Z -> bytes) (ok : Z -> Z -> Prop) (depth : nat) (value : Z) (x : slot) : Prop :=
  match x with Val v => value = v /\ is_ref v = false | Sub t => is_ref value = true /\ holds mem ok depth (u64 value) t end.

Lemma write_elems_ok write_sub depth i c : (forall s out ref t, aw_inv out -> in_file out -> held depth ref t -> sized aw_limit t -> written s out depth t (write_sub s out ref)) ->
  forall values slots s out done_values a, Forall2 (slot_holds translate (fun _ _ => True) depth) values slots -> Forall (fun x => match x with Val _ => True | Sub t => sized aw_limit t end) slots -> Forall int64_range values ->
  aw_inv out -> in_file out -> partial s i c done_values a -> Z.of_nat (length done_values + length values) <= max_elems ->
  write_elems write_sub s out values a = Throw aw_error \/
  exists s' out' a' new_values, write_elems write_sub s out values a = Ok (s', out', a') /\ same_ro s s' /\ aw_inv out' /\ grows out out' /\ partial s' i c (done_values ++ new_values) a' /\
    Forall2 (slot_holds (stored out') (aw_ok out') depth) new_values slots.
Proof.
  intros Hsub values slots s out dn a Hv. revert s out dn a. induction Hv as [|v x values slots Hx Hv IH]; intros s out dn a Hz Hr Hi Hf Hp Hl; cbn [write_elems].
  { right. exists s, out, a, []. rewrite app_nil_r. by split_and!. }
  inversion_clear Hz as [|? ? Hzx Hz']. inversion_clear Hr as [|? ? Hrx Hr']. cbn [length] in Hl.
  assert (Hstep : (if is_ref v then '(new_subref, s, out) ← write_sub s out (u64 v); Ok (s64 new_subref, s, out) else Ok (v, s, out)) = Throw aw_error \/
    exists v' s1 out1, (if is_ref v then '(new_subref, s, out) ← write_sub s out (u64 v); Ok (s64 new_subref, s, out) else Ok (v, s, out)) = Ok (v', s1, out1) /\ same_ro s s1 /\ aw_inv out1 /\ grows out out1 /\ int64_range v' /\ slot_holds (stored out1) (aw_ok out1) depth v' x).
  { destruct x as [z|t]; destruct Hx as [H1 H2].
    - subst z. rewrite H2. right. by exists v, s, out.
    - rewrite H1. destruct (Hsub s out (u64 v) t Hi Hf H2 Hzx) as [->|(ref & s1 & out1 & -> & Hs1 & Hi1 & Hg1 & Hgr & Hh)]; [by left|]. right. cbn [mbind result_bind].
      destruct (good_ref_value ref Hgr) as (E2 & E3 & E4). exists (s64 ref), s1, out1. split_and!; try done. cbn [slot_holds]. by rewrite E2. }
  destruct Hstep as [->|(v' & s1 & out1 & -> & Hs1 & Hi1 & Hg1 & Hv' & Hx')]; [by left|]. cbn [mbind result_bind].
  pose proof (partial_add s1 i c dn a v' (partial_ro s s1 i c dn a Hs1 Hp) ltac:(lia) Hv') as Ha. destruct (array_add s1 a v') as [s2 a2]. destruct Ha as [Hs2 Hp2].
  destruct (IH s2 out1 (dn ++ [v']) a2 Hz' Hr' Hi1 (in_file_grows out out1 Hi1 Hg1 Hf) Hp2) as [->|(s3 & out3 & a3 & nv & -> & Hs3 & Hi3 & Hg3 & Hp3 & Hn3)]; [rewrite length_app; cbn [length]; lia|by left|].
  right. exists s3, out3, a3, (v' :: nv). split_and!; try done; [intros r; by rewrite Hs3, Hs2, Hs1|by apply (grows_trans out out1)|by rewrite <- app_assoc in Hp3|].
  constructor; [|done]. destruct x as [z|t]; [done|]. destruct Hx' as [H1 H2]. split; [done|]. by apply (holds_grows out1).
Qed.

Lemma partial_start s i c : exists s' a, array_create s (node_type i) c 0 0 = Some (s', a) /\ same_ro s s' /\ partial s' i c [] a.
Proof.
  destruct (array_create_get s (node_type i) c 0 0) as (s' & a & E & Hwf & _ & Hs & Hz & Fi & Fr & Fc & _); [unfold max_elems; lia|unfold int64_range; lia|].
  exists s', a. split_and!; try done. split; [done|split_and!; [by rewrite Fi; destruct i|by rewrite Fr; destruct i|done]|]. unfold elems. by rewrite Hz.
Qed.

(** The temporary array, stored without its capacity, is a node with the new values. *)
Lemma partial_node s i c values a m : partial s i c values a -> is_bytes m -> (forall x, 4 <= x < byte_size (a_mem a) -> m x = a_mem a x) -> node_at m i c values.
Proof.
  intros [Hwf (<- & Fr & <-) <-] Hb E. pose proof Hwf as [Hab (cap & Hh & _) Hs Hw Hbd Hp]. unfold header_of in Hh. rewrite Fr in Hh.
  apply (node_at_ext (a_mem a)); try done. destruct (read_header_fields _ _ _ _ _ _ _ _ _ Hh) as (_ & _ & _ & _ & Ew & En & _). exists (a_width a), (a_size a), cap. split_and!; try done; try lia.
  unfold elems, array_get, init_from_mem, update_width_cache_from_header. cbn [a_mem a_width a_size]. by rewrite Ew, En.
Qed.

Lemma partial_byte_size s i c values a : partial s i c values a -> get_wtype_from_header (a_mem a) 0 = Some wtype_Bits /\ a_size a = get_size_from_header (a_mem a) 0 /\ byte_size (a_mem a) <= header_size + 8 * Z.of_nat (length values).
Proof.
  intros Hp. pose proof (partial_node s i c values a (a_mem a) Hp (wf_bytes _ _ (pa_wf _ _ _ _ _ Hp)) ltac:(done)) as Hn. destruct Hp as [Hwf (_ & Fr & _) He]. pose proof Hwf as [Hab (cap & Hh & _) Hs Hw _ _].
  destruct (read_header_fields _ _ _ _ _ _ _ _ _ Hh) as (_ & _ & _ & Et & Ew & En & _). destruct (node_at_size (a_mem a) i c values Hab Hn) as (w & Ew' & _ & En' & Hsz & H8). split_and!; [done|done|].
  assert (Hwr : 0 <= w <= 64) by (rewrite <- Ew', Ew; unfold valid_width in Hw; lia). unfold span, data, header_size in *.
  set (n := Z.of_nat (length values)) in *. assert (n * w <= n * 64) by nia. dlia.
Qed.

Lemma fits_int64 w v : valid_width w -> fits w v -> int64_range v.
Proof. intros Hw Hf. unfold int64_range. unfold fits, lbound_for_width, ubound_for_width in Hf. width_cases Hw; cbn in Hf; lia. Qed.

Lemma node_at_values m i c values : is_bytes m -> node_at m i c values -> Forall int64_range values /\ Z.of_nat (length values) <= max_elems.
Proof.
  intros Hb (w & n & cap & Hh & Hw & Hn & ->). destruct (read_header_fields _ _ _ _ _ _ _ _ _ Hh) as (_ & _ & _ & _ & Ew & En & _). split.
  - apply List.Forall_forall. intros v Hv. unfold elems in Hv. apply in_map_iff in Hv as (k & <- & _). unfold array_get, init_from_mem, update_width_cache_from_header. cbn [a_mem a_width]. rewrite Ew.
    apply (fits_int64 w); [done|]. apply get_direct_fits; [done|lia|done].
  - rewrite length_elems. cbn [init_from_mem update_width_cache_from_header a_size]. rewrite En. lia.
Qed.

Lemma write_node_ok write_sub s out depth ref i c slots : (forall s out ref t, aw_inv out -> in_file out -> held depth ref t -> sized aw_limit t -> written s out depth t (write_sub s out ref)) ->
  aw_inv out -> in_file out -> held (S depth) ref (TNode i c slots) -> sized aw_limit (TNode i c slots) ->
  written s out (S depth) (TNode i c slots) (do_write_deep write_sub s out (init_from_ref translate ref)).
Proof.
  intros Hsub Hi Hf (Hb & _ & values & Hn & Hs) Hz. destruct (sized_slots _ _ _ _ Hz) as [Hlim Hzs]. destruct (node_at_values _ _ _ _ Hb Hn) as [Hr Hl].
  assert (Hacc : a_is_inner (init_from_ref translate ref) = i /\ a_context_flag (init_from_ref translate ref) = c /\ elems (init_from_ref translate ref) = values).
  { destruct Hn as (w & n & cap & Hh & _ & _ & ->). destruct (read_header_fields _ _ _ _ _ _ _ _ _ Hh) as (F1 & _ & F3 & _). by split_and!. }
  destruct Hacc as (Ei & Ec & Ev). unfold do_write_deep. rewrite Ei, Ec, Ev. destruct (partial_start s i c) as (s1 & a1 & -> & Hs1 & Hp1).
  destruct (write_elems_ok write_sub depth i c Hsub values slots s1 out [] a1 Hs Hzs Hr Hi Hf Hp1 Hl) as [->|(s2 & out2 & a2 & nv & -> & Hs2 & Hi2 & Hg2 & Hp2 & Hn2)]; [by left|]. cbn [mbind result_bind].
  destruct (partial_byte_size _ _ _ _ _ Hp2) as (Et & Esz & Hbs). cbn [app] in *. pose proof (Forall2_length Hn2) as Hlen.
  destruct (do_write_shallow_ok out2 a2 Hi2 (wf_bytes _ _ (pa_wf _ _ _ _ _ Hp2))) as [->|(r & out3 & -> & Hi3 & Hgr & Hg3 & Ho & E)]; [congruence|done|rewrite Hlen in Hbs; lia|by left|]. cbn [mbind result_bind].
  right. exists r. eexists _, out3. split_and!; [done|intros x; by rewrite al_free_ro, Hs2, Hs1|done|by apply (grows_trans out out2)|done|].
  assert (Hsb : is_bytes (stored out3 r)) by (intros x; by apply aw_bytes). pose proof (partial_node _ _ _ _ _ (stored out3 r) Hp2 Hsb E) as Hnode.
  destruct (byte_size_spec (a_mem a2) wtype_Bits (wf_bytes _ _ (pa_wf _ _ _ _ _ Hp2)) Et) as (_ & H8 & _).
  cbn [holds]. split_and!; [done|rewrite (byte_size_tail (a_mem a2)); [done|]; intros x Hx; apply E; lia|]. exists nv. split; [done|].
  eapply Forall2_impl; [|exact Hn2]. intros v [z|t]; [done|]. intros [H1 H2]. split; [done|]. by apply (holds_grows out2).
Qed.

Lemma write_ok depth s out ref t : aw_inv out -> in_file out -> held depth ref t -> sized aw_limit t -> written s out depth t (write translate alloc_is_read_only depth only_if_modified s out ref).
Proof.
  revert s out ref t. induction depth as [|depth IH]; intros s out ref t Hi Hf Ht Hz; [done|]. cbn [write]. destruct (only_if_modified && alloc_is_read_only ref) eqn:Er.
  { apply andb_true_iff in Er as [Eo Er]. destruct (Hf Eo (S depth) ref t Er Ht) as [Hg Hh]. right. exists ref, s, out. by split_and!. }
  destruct t as [image|i c slots].
  - assert (Hr : a_has_refs (init_from_ref translate ref) = false) by (by destruct Ht as (_ & _ & Hr & _)). rewrite Hr. cbn [negb]. by apply write_leaf_ok.
  - assert (Hr : a_has_refs (init_from_ref translate ref) = true) by (destruct Ht as (_ & _ & values & (w & n & cap & Hh & _) & _); by destruct (read_header_fields _ _ _ _ _ _ _ _ _ Hh) as (_ & Hr & _)).
    rewrite Hr. cbn [negb]. by apply write_node_ok.
Qed.
End WriteSpec.
