(* ===== verification/Lanes.v ===== *)
(** * Lanes of a machine word

    Words that hold several small elements side by side.  A lane of [w] bits is read
    with [lane]; the lemmas say what the bitwise and the arithmetic operations on a
    word do to its lanes, as long as no carry or borrow crosses them. *)

From S2P Require Import Prelude.

Definition lane (w i x : Z) : Z := (x / 2 ^ (w * i)) mod 2 ^ w.

(** The word of [n] lanes that hold one. *)
Fixpoint rep (n : nat) (w : Z) : Z := match n with O => 0 | S n => 1 + 2 ^ w * rep n w end.

Section Lanes.
Context (w : Z) (Hw : 0 < w).

Lemma pow_w : 0 < 2 ^ w.
Proof. lia. Qed.

Lemma lane_range i x : 0 <= lane w i x < 2 ^ w.
Proof. apply Z.mod_pos_bound. lia. Qed.

Lemma testbit_lane i x b : 0 <= i -> 0 <= b < w -> Z.testbit (lane w i x) b = Z.testbit x (w * i + b).
Proof.
  intros Hi Hb. unfold lane. rewrite testbit_mod_pow2 by lia. destruct (Z.ltb_spec b w); [|lia]. cbn [andb].
  rewrite Z.div_pow2_bits by lia. f_equal. lia.
Qed.

Lemma lane_ext i j x y : 0 <= i -> 0 <= j -> (forall b, 0 <= b < w -> Z.testbit x (w * i + b) = Z.testbit y (w * j + b)) ->
  lane w i x = lane w j y.
Proof.
  intros Hi Hj H. apply Z.bits_inj'. intros b Hb. destruct (Z.lt_ge_cases b w).
  - rewrite !testbit_lane by lia. apply H. lia.
  - rewrite !(testbit_above _ w) by (try apply lane_range; lia). done.
Qed.

Lemma lane_lxor i x y : 0 <= i -> lane w i (Z.lxor x y) = Z.lxor (lane w i x) (lane w i y).
Proof.
  intros Hi. apply Z.bits_inj'. intros b Hb. rewrite Z.lxor_spec. destruct (Z.lt_ge_cases b w).
  - rewrite !testbit_lane, Z.lxor_spec by lia. done.
  - rewrite !(testbit_above _ w) by (try apply lane_range; lia). done.
Qed.

Lemma lane_shiftr i t x : 0 <= i -> 0 <= t -> lane w i (Z.shiftr x (w * t)) = lane w (i + t) x.
Proof.
  intros Hi Ht. apply lane_ext; [lia|lia|]. intros b Hb. rewrite Z.shiftr_spec by lia. f_equal. lia.
Qed.

Lemma lane_0 x : lane w 0 x = x mod 2 ^ w.
Proof. unfold lane. by rewrite Z.mul_0_r, Z.pow_0_r, Z.div_1_r. Qed.

Lemma lane_cons_0 a y : 0 <= a < 2 ^ w -> lane w 0 (a + 2 ^ w * y) = a.
Proof. intros Ha. rewrite lane_0, Z.mul_comm, Z.mod_add, Z.mod_small by lia. done. Qed.

Lemma lane_cons_S a y i : 0 <= a < 2 ^ w -> 0 <= i -> lane w (i + 1) (a + 2 ^ w * y) = lane w i y.
Proof.
  intros Ha Hi. unfold lane. rewrite Z.mul_add_distr_l, Z.mul_1_r, Z.add_comm, Z.pow_add_r by lia.
  rewrite (Z.mul_comm (2 ^ (w * i))), <- Z.div_div by lia. f_equal. f_equal.
  rewrite Z.add_comm, Z.mul_comm, Z.div_add, Z.div_small by lia. lia.
Qed.

Lemma word_split x : x = lane w 0 x + 2 ^ w * (x / 2 ^ w).
Proof. rewrite lane_0. pose proof (Z.div_mod x (2 ^ w) ltac:(lia)). lia. Qed.

Lemma lane_S i x : 0 <= i -> lane w (i + 1) x = lane w i (x / 2 ^ w).
Proof. intros Hi. rewrite (word_split x) at 1. apply lane_cons_S; [apply lane_range|done]. Qed.

Lemma pow_S n : 2 ^ (w * Z.of_nat (S n)) = 2 ^ w * 2 ^ (w * Z.of_nat n).
Proof. rewrite Nat2Z.inj_succ, Z.mul_succ_r, Z.add_comm, Z.pow_add_r by lia. done. Qed.

Lemma tail_range n x : 0 <= x < 2 ^ (w * Z.of_nat (S n)) -> 0 <= x / 2 ^ w < 2 ^ (w * Z.of_nat n).
Proof. rewrite pow_S. intros Hx. split; [apply Z.div_pos; lia|]. apply Z.div_lt_upper_bound; lia. Qed.

(** A word is determined by its lanes. *)
Lemma lanes_inj n x y : 0 <= x < 2 ^ (w * Z.of_nat n) -> 0 <= y < 2 ^ (w * Z.of_nat n) ->
  (forall i, 0 <= i < Z.of_nat n -> lane w i x = lane w i y) -> x = y.
Proof.
  revert x y. induction n as [|n IH]; intros x y Hx Hy H; [change (Z.of_nat 0) with 0 in *; rewrite Z.mul_0_r in *; change (2 ^ 0) with 1 in *; lia|].
  rewrite (word_split x), (word_split y). rewrite (H 0) by lia. f_equal. f_equal. apply IH; [by apply tail_range..|].
  intros i Hi. rewrite <- !lane_S by lia. apply H. lia.
Qed.

Lemma lane_of_0 i : lane w i 0 = 0.
Proof. unfold lane. by rewrite Zdiv_0_l, Zmod_0_l. Qed.

Lemma lane_above n i x : 0 <= x < 2 ^ (w * Z.of_nat n) -> Z.of_nat n <= i -> lane w i x = 0.
Proof.
  intros Hx Hi. unfold lane. rewrite Z.div_small; [apply Z.mod_0_l; lia|]. split; [lia|].
  apply Z.lt_le_trans with (2 ^ (w * Z.of_nat n)); [lia|]. apply Z.pow_le_mono_r; nia.
Qed.

(** ** Repeated values *)

Lemma lane_rep n v i : 0 <= v < 2 ^ w -> 0 <= i < Z.of_nat n -> lane w i (rep n w * v) = v.
Proof.
  intros Hv. revert i. induction n as [|n IH]; intros i Hi; [lia|]. cbn [rep].
  replace ((1 + 2 ^ w * rep n w) * v) with (v + 2 ^ w * (rep n w * v)) by lia.
  destruct (Z.eq_dec i 0) as [->|]; [by apply lane_cons_0|]. replace i with (i - 1 + 1) by lia.
  rewrite lane_cons_S by lia. apply IH. lia.
Qed.

Lemma rep_mul_range n v : 0 <= v < 2 ^ w -> 0 <= rep n w * v < 2 ^ (w * Z.of_nat n).
Proof.
  intros Hv. induction n as [|n IH]; [cbn; rewrite Z.mul_0_r; lia|]. rewrite pow_S. cbn [rep].
  replace ((1 + 2 ^ w * rep n w) * v) with (v + 2 ^ w * (rep n w * v)) by lia. nia.
Qed.

(** ** Sums and differences lane by lane *)

Lemma lane_add n x y i : (forall j, 0 <= j < Z.of_nat n -> lane w j x + lane w j y < 2 ^ w) ->
  0 <= i < Z.of_nat n -> lane w i (x + y) = lane w i x + lane w i y.
Proof.
  revert x y i. induction n as [|n IH]; intros x y i H Hi; [lia|].
  assert (E : x + y = (lane w 0 x + lane w 0 y) + 2 ^ w * (x / 2 ^ w + y / 2 ^ w))
    by (rewrite (word_split x) at 1; rewrite (word_split y) at 1; lia).
  pose proof (lane_range 0 x). pose proof (lane_range 0 y). specialize (H 0 ltac:(lia)) as Hzero.
  destruct (Z.eq_dec i 0) as [->|]; [rewrite E; apply lane_cons_0; lia|].
  replace i with (i - 1 + 1) by lia. rewrite E, lane_cons_S, !lane_S by lia. apply IH; [|lia].
  intros j Hj. rewrite <- !lane_S by lia. apply H. lia.
Qed.

Lemma lane_sub n x y i : (forall j, 0 <= j < Z.of_nat n -> lane w j y <= lane w j x) ->
  0 <= i < Z.of_nat n -> lane w i (x - y) = lane w i x - lane w i y.
Proof.
  revert x y i. induction n as [|n IH]; intros x y i H Hi; [lia|].
  assert (E : x - y = (lane w 0 x - lane w 0 y) + 2 ^ w * (x / 2 ^ w - y / 2 ^ w))
    by (rewrite (word_split x) at 1; rewrite (word_split y) at 1; lia).
  pose proof (lane_range 0 x). pose proof (lane_range 0 y). specialize (H 0 ltac:(lia)) as Hzero.
  destruct (Z.eq_dec i 0) as [->|]; [rewrite E; apply lane_cons_0; lia|].
  replace i with (i - 1 + 1) by lia. rewrite E, lane_cons_S, !lane_S by lia. apply IH; [|lia].
  intros j Hj. rewrite <- !lane_S by lia. apply H. lia.
Qed.

(** The first lane that borrows. *)
Lemma lane_sub_first n x y k : (forall j, 0 <= j < k -> lane w j y <= lane w j x) -> 0 <= k < Z.of_nat n ->
  lane w k (x - y) = (lane w k x - lane w k y) mod 2 ^ w.
Proof.
  revert x y k. induction n as [|n IH]; intros x y k H Hk; [lia|].
  assert (E : x - y = (lane w 0 x - lane w 0 y) + 2 ^ w * (x / 2 ^ w - y / 2 ^ w))
    by (rewrite (word_split x) at 1; rewrite (word_split y) at 1; lia).
  destruct (Z.eq_dec k 0) as [->|]; [rewrite lane_0, E, Z.mul_comm, Z.mod_add by lia; done|].
  pose proof (lane_range 0 x). pose proof (lane_range 0 y). specialize (H 0 ltac:(lia)) as Hzero.
  replace k with (k - 1 + 1) by lia. rewrite E, lane_cons_S, !lane_S by lia. apply IH; [|lia].
  intros j Hj. rewrite <- !lane_S by lia. apply H. lia.
Qed.

(** ** The top bit of a lane *)

Lemma lane_msb i x : 0 <= i -> Z.testbit x (w * i + (w - 1)) = (2 ^ (w - 1) <=? lane w i x).
Proof.
  intros Hi. rewrite <- testbit_lane by lia. pose proof (lane_range i x) as Hr. set (v := lane w i x) in *.
  assert (Hp : 2 ^ w = 2 * 2 ^ (w - 1)) by (rewrite <- Z.pow_succ_r by lia; f_equal; lia).
  rewrite Z.testbit_odd, Z.shiftr_div_pow2 by lia. destruct (Z.leb_spec (2 ^ (w - 1)) v).
  - replace (v / 2 ^ (w - 1)) with 1; [done|]. apply Z.div_unique with (v - 2 ^ (w - 1)); lia.
  - by rewrite Z.div_small by lia.
Qed.

(** The mask of the top bits. *)
Lemma testbit_tops n b : 0 <= b -> Z.testbit (rep n w * 2 ^ (w - 1)) b = (b <? w * Z.of_nat n) && (b mod w =? w - 1).
Proof.
  intros Hb. assert (Hv : 0 <= 2 ^ (w - 1) < 2 ^ w) by (split; [lia|]; apply Z.pow_lt_mono_r; lia).
  destruct (Z.ltb_spec b (w * Z.of_nat n)); cbn [andb].
  - replace b with (w * (b / w) + b mod w) at 1 by (pose proof (Z.div_mod b w ltac:(lia)); lia).
    pose proof (Z.mod_pos_bound b w Hw). rewrite <- testbit_lane by (try apply Z.div_pos; lia).
    rewrite lane_rep by (exact Hv || (split; [apply Z.div_pos; lia|apply Z.div_lt_upper_bound; lia])).
    rewrite Z.pow2_bits_eqb by lia. apply Z.eqb_sym.
  - apply (testbit_above _ (w * Z.of_nat n)); [by apply rep_mul_range|lia].
Qed.

(** Masked with the top bits, a word is zero unless a lane has its top bit. *)
Lemma tops_nonzero n x : Z.land x (rep n w * 2 ^ (w - 1)) <> 0 <-> exists i, 0 <= i < Z.of_nat n /\ 2 ^ (w - 1) <= lane w i x.
Proof.
  split.
  - intros Hne. destruct (decide (Exists (fun i => 2 ^ (w - 1) <= lane w (Z.of_nat i) x) (seq 0 n))) as [He|He].
    + apply Exists_exists in He as (i & Hi & Hl). apply in_seq in Hi. exists (Z.of_nat i). split; [lia|done].
    + exfalso. apply Hne. apply Z.bits_inj'. intros b Hb. rewrite Z.land_spec, Z.bits_0, testbit_tops by done.
      destruct (Z.ltb_spec b (w * Z.of_nat n)); [|apply andb_false_r]. destruct (Z.eqb_spec (b mod w) (w - 1)) as [Em|]; [|apply andb_false_r].
      cbn [andb]. rewrite andb_true_r. pose proof (Z.div_mod b w ltac:(lia)) as Eb. rewrite Em in Eb. rewrite Eb, lane_msb by (apply Z.div_pos; lia).
      apply Z.leb_gt. apply Z.nle_gt. intros Hl. apply He, Exists_exists. exists (Z.to_nat (b / w)).
      assert (0 <= b / w < Z.of_nat n) by (split; [apply Z.div_pos; lia|apply Z.div_lt_upper_bound; lia]).
      split; [apply in_seq; lia|]. by rewrite Z2Nat.id by lia.
  - intros (i & Hi & Hl) E. assert (Hb : Z.testbit (Z.land x (rep n w * 2 ^ (w - 1))) (w * i + (w - 1)) = false) by (rewrite E; apply Z.bits_0).
    rewrite Z.land_spec, lane_msb, testbit_tops, (proj2 (Z.leb_le (2 ^ (w - 1)) (lane w i x))) in Hb by nia. cbn [andb] in Hb.
    apply andb_false_iff in Hb as [Hb|Hb]; [apply Z.ltb_ge in Hb; nia|]. apply Z.eqb_neq in Hb. apply Hb.
    rewrite Z.add_comm, Z.mul_comm, Z.mod_add, Z.mod_small by lia. done.
Qed.

End Lanes.
