(* ===== verification/ArrayFind.v ===== *)
(** * Searching integer arrays (array_with_find.hpp, array_with_find.cpp)

    The searches walk over the elements a word at a time and report each match to a
    query state, which says whether to go on.  An array is given by its memory [m],
    the position [d] of its data and its element width [w].  The conditions are those
    of query_conditions.hpp, the query states those of query_state.hpp and array.cpp.

    The vector instructions are parameters ([Sse]), with their documented meaning in
    [SseSpec]; [sse_support] is the processor's level as in utilities.hpp, and [addr]
    the machine address of the data, which decides where an aligned vector starts. *)

From S2P Require Import Prelude Bytes NodeHeader ArrayDirect ArrayBits Lanes.

(** ** Conditions *)

Inductive Cond := Equal | NotEqual | Greater | Less | CondNone | NotNull.

Definition cond_holds (c : Cond) (v1 v2 : Z) : bool :=
  match c with
  | Equal => v1 =? v2
  | NotEqual => negb (v1 =? v2)
  | Greater => v2 <? v1
  | Less => v1 <? v2
  | CondNone | NotNull => true
  end.

Definition can_match (c : Cond) (v lbound ubound : Z) : bool :=
  match c with
  | Equal => (lbound <=? v) && (v <=? ubound)
  | NotEqual => negb ((v =? 0) && (ubound =? 0) && (lbound =? 0))
  | Greater => v <? ubound
  | Less => lbound <? v
  | CondNone | NotNull => true
  end.

Definition will_match (c : Cond) (v lbound ubound : Z) : bool :=
  match c with
  | Equal => (v =? 0) && (ubound =? 0) && (lbound =? 0)
  | NotEqual => (ubound <? v) || (v <? lbound)
  | Greater => v <? lbound
  | Less => ubound <? v
  | CondNone | NotNull => true
  end.

(** ** Query states *)

(** [match] with and without the value, the number of matches and the limit. *)
Class QueryState (St : Type) := {
  qs_match : Z -> St -> bool * St;
  qs_match_value : Z -> Z -> St -> bool * St;
  qs_match_count : St -> Z;
  qs_limit : St -> Z }.

(** A state does not look at the value, counts its matches, keeps its limit, and does
    not ask for more once the limit is reached. *)
Class QueryStateSpec (St : Type) `{QueryState St} := {
  qs_value : forall i v s, qs_match_value i v s = qs_match i s;
  qs_counts : forall i s, qs_match_count (qs_match i s).2 = qs_match_count s + 1;
  qs_keeps_limit : forall i s, qs_limit (qs_match i s).2 = qs_limit s;
  qs_stops : forall i s, (qs_match i s).1 = true -> qs_match_count s + 1 < qs_limit s }.

Record QueryStateCount := mkCount { c_count : Z; c_limit : Z }.
Record QueryStateFindFirst := mkFirst { f_count : Z; m_state : Z }.
Record QueryStateFindAll := mkAll { a_count : Z; a_limit : Z; m_keys : list Z }.

#[export] Instance count_state : QueryState QueryStateCount := {
  qs_match _ s := let s := mkCount (c_count s + 1) (c_limit s) in (c_count s <? c_limit s, s);
  qs_match_value _ _ s := let s := mkCount (c_count s + 1) (c_limit s) in (c_count s <? c_limit s, s);
  qs_match_count := c_count;
  qs_limit := c_limit }.

#[export] Instance first_state : QueryState QueryStateFindFirst := {
  qs_match i s := (false, mkFirst (f_count s + 1) i);
  qs_match_value i _ s := (false, mkFirst (f_count s + 1) i);
  qs_match_count := f_count;
  qs_limit _ := 1 }.

#[export] Instance all_state : QueryState QueryStateFindAll := {
  qs_match i s := let s := mkAll (a_count s + 1) (a_limit s) (m_keys s ++ [i]) in (a_count s <? a_limit s, s);
  qs_match_value i _ s := let s := mkAll (a_count s + 1) (a_limit s) (m_keys s ++ [i]) in (a_count s <? a_limit s, s);
  qs_match_count := a_count;
  qs_limit := a_limit }.

(** ** Bit tricks on a word *)

Definition no0 (v : Z) : Z := if v =? 0 then 1 else v.

Definition lower_bits (width : Z) : Z :=
  if width =? 1 then 0xFFFFFFFFFFFFFFFF
  else if width =? 2 then 0x5555555555555555
  else if width =? 4 then 0x1111111111111111
  else if width =? 8 then 0x0101010101010101
  else if width =? 16 then 0x0001000100010001
  else if width =? 32 then 0x0000000100000001
  else if width =? 64 then 0x0000000000000001
  else 2 ^ 64 - 1.

(** [(1ULL << width) - 1] without a warning for 64. *)
Definition ones_mask (width : Z) : Z :=
  if width =? 64 then 2 ^ 64 - 1 else u64 (u64 (Z.shiftl 1 (if width =? 64 then 0 else width)) - 1).

Definition not64 (v : Z) : Z := u64 (Z.lnot v).

Definition test_zero (width value : Z) : bool :=
  let lower := lower_bits width in
  let upper := u64 (Z.shiftl (lower_bits width * 1) (if width =? 0 then 0 else width - 1)) in
  let hasZeroByte := Z.land (Z.land (u64 (value - lower)) (not64 value)) upper in
  negb (hasZeroByte =? 0).

Fixpoint find_zero_loop (fuel : nat) (eq : bool) (width mask v start : Z) : Z :=
  match fuel with
  | O => start
  | S fuel =>
      if Bool.eqb eq (negb (Z.land (Z.shiftr v (width * start)) mask =? 0))
      then find_zero_loop fuel eq width mask v (start + 1) else start
  end.

(** At most 64 elements, so the loop ends within 65 rounds when one matches. *)
Definition find_zero (eq : bool) (width v : Z) : Z :=
  let start := 0 in
  let mask := ones_mask width in
  if Bool.eqb eq (Z.land (Z.shiftr v (width * start)) mask =? 0) then 0
  else
    let none hi lo := if eq then negb (test_zero width (Z.lor v hi)) else Z.land v lo =? 0 in
    let start :=
      if width <=? 8 then
        if none 0xffffffff00000000 0x00000000ffffffff then
          let start := start + 64 / no0 width / 2 in
          if width <=? 4 then
            if none 0xffff000000000000 0x0000ffffffffffff then start + 64 / no0 width / 4 else start
          else start
        else
          if width <=? 4 then
            if none 0xffffffffffff0000 0x000000000000ffff then start + 64 / no0 width / 4 else start
          else start
      else start in
    find_zero_loop 65 eq width mask v start.

Definition deBruijn : list Z :=
  [0; 1; 28; 2; 29; 14; 24; 3; 30; 22; 20; 15; 25; 17; 4; 8; 31; 27; 13; 23; 21; 19; 16; 7; 26; 12; 18; 6; 11; 5; 10; 9].

Definition first_set_bit (v : Z) : Z :=
  if sext 32 v =? - 2 ^ 31 then 31
  else nth (Z.to_nat (Z.shiftr (u32 (Z.land v (u32 (- sext 32 v)) * 0x077CB531)) 27)) deBruijn 0.

Definition first_set_bit64 (v : Z) : Z :=
  let v0 := u32 v in
  if negb (v0 =? 0) then first_set_bit v0
  else let v1 := u32 (Z.shiftr (u64 v) 32) in first_set_bit v1 + 32.

Definition find_gtlt_magic (gt : bool) (width v : Z) : Z :=
  let mask1 := ones_mask width in
  let mask2 := Z.shiftr mask1 1 in
  if gt then u64 ((2 ^ 64 - 1) / no0 mask1 * u64 (mask2 - v)) else u64 ((2 ^ 64 - 1) / no0 mask1 * u64 v).

(** The value of an element cut out of a word: signed from eight bits on. *)
Definition signed_lane (width x : Z) : Z := if width <? 8 then x else sext width x.

Definition round_up (p align : Z) : Z := p + (if p mod align =? 0 then 0 else align - p mod align).
Definition round_down (p align : Z) : Z := Z.land p (u64 (Z.lnot (align - 1))).

(** ** Vector instructions *)

Class Sse := {
  mm_set1 : Z -> Z -> Z;
  mm_cmpeq : Z -> Z -> Z -> Z;
  mm_cmpgt : Z -> Z -> Z -> Z;
  mm_cmplt : Z -> Z -> Z -> Z;
  mm_movemask_epi8 : Z -> Z }.

(** A comparison fills the lanes that satisfy it with ones and the others with
    zeros; the mask collects the top bits of the sixteen bytes. *)
Definition lanes_compared (rel : Z -> Z -> bool) (w a b r : Z) : Prop :=
  0 <= r < 2 ^ 128 /\
  forall i, 0 <= i < 128 / w -> lane w i r = if rel (sext w (lane w i a)) (sext w (lane w i b)) then 2 ^ w - 1 else 0.

Class SseSpec `{Sse} := {
  set1_spec : forall w v i, 0 <= i < 128 / w -> lane w i (mm_set1 w v) = v mod 2 ^ w;
  cmpeq_spec : forall w a b, lanes_compared Z.eqb w a b (mm_cmpeq w a b);
  cmpgt_spec : forall w a b, lanes_compared (fun x y => y <? x) w a b (mm_cmpgt w a b);
  cmplt_spec : forall w a b, lanes_compared Z.ltb w a b (mm_cmplt w a b);
  movemask_range : forall x, 0 <= mm_movemask_epi8 x < 2 ^ 16;
  movemask_spec : forall x j, 0 <= j < 16 -> Z.testbit (mm_movemask_epi8 x) j = Z.testbit x (8 * j + 7) }.

(** ** The searches *)

Section Find.
Context {St : Type} `{QueryState St} `{Sse}.

(** Code that reports matches and returns whether to go on. *)
Definition search : Type := St -> bool * St.
Definition go_on : search := fun s => (true, s).
Definition and_then (a b : search) : search := fun s => let '(c, s) := a s in if c then b s else (false, s).
Definition report (c : bool) (a : search) : search := if c then a else go_on.

(** [for (; i < end; ++i) if (f(i)) if (!act(i)) return false]. *)
Fixpoint linear (n : nat) (i : Z) (f : Z -> bool) (act : Z -> search) : search :=
  match n with O => go_on | S n => and_then (report (f i) (act i)) (linear n (i + 1) f act) end.

Definition find_all_will_match (start2 end_ baseindex : Z) : search := fun s =>
  let process := qs_limit s - qs_match_count s in
  let end2 := if process <? end_ - start2 then start2 + process else end_ in
  linear (Z.to_nat (end2 - start2)) start2 (fun _ => true) (fun i => qs_match (i + baseindex)) s.

Section Leaf.
Context (m : bytes) (d w : Z).

Definition get (i : Z) : Z := get_direct m d w i.

(** [while (eq ? test_zero(v2) : v2)], at most once per element and once more. *)
Fixpoint equality_chunk (fuel : nat) (eq : bool) (start baseindex v2 a : Z) : search :=
  match fuel with
  | O => go_on
  | S fuel =>
      if (if eq then test_zero w v2 else negb (v2 =? 0)) then
        let t := find_zero eq w v2 in
        let a := a + t in
        if 64 / no0 w <=? a then go_on
        else
          and_then (qs_match (a + start + baseindex))
            (let shift := (t + 1) * w in
             let v2 := if shift <? 64 then Z.shiftr v2 shift else 0 in
             equality_chunk fuel eq start baseindex v2 (a + 1))
      else go_on
  end.

(** [while (p < e)], over the words from [p]. *)
Fixpoint word_loop (n : nat) (p : Z) (body : Z -> search) : search :=
  match n with O => go_on | S n => and_then (body p) (word_loop n (p + 1) body) end.

(** The number of words [p] with [8 * p < e]. *)
Definition chunks (p e : Z) : nat := Z.to_nat ((e - 8 * p + 7) / 8).

(** From an element that starts a word: whole words, then the elements left over. *)
Definition equality_words (eq : bool) (value end_ baseindex start : Z) : search :=
  let tail start := linear (Z.to_nat (end_ - start)) start (fun i => Bool.eqb eq (get i =? value)) (fun i => qs_match (i + baseindex)) in
  if negb (w =? 32) && negb (w =? 64) then
    let p := start * w / 8 / 8 in
    let e := end_ * w / 8 - 8 in
    let mask := ones_mask w in
    let valuemask := u64 ((2 ^ 64 - 1) / no0 mask * Z.land (u64 value) mask) in
    let n := chunks p e in
    and_then
      (word_loop n p (fun p =>
         let chunk := get_word m d p in
         let v2 := Z.lxor chunk valuemask in
         let start := p * 8 * 8 / no0 w in
         equality_chunk 65 eq start baseindex v2 0))
      (tail ((p + Z.of_nat n) * 8 * 8 / no0 w))
  else tail start.

Definition compare_equality (eq : bool) (value start end_ baseindex : Z) : search :=
  let ee := round_up start (64 / no0 w) in
  let ee := if end_ <? ee then end_ else ee in
  and_then (linear (Z.to_nat (ee - start)) start (fun i => Bool.eqb eq (get i =? value)) (fun i => qs_match (i + baseindex)))
    (let start := Z.max start ee in
     if end_ <=? start then go_on else equality_words eq value end_ baseindex start).

(** [while (m)], at most once per element. *)
Fixpoint gtlt_bits (fuel : nat) (chunk baseindex mask1 bits p : Z) : search :=
  match fuel with
  | O => go_on
  | S fuel =>
      if bits =? 0 then go_on
      else
        let t := first_set_bit64 bits / no0 w in
        let p := p + t in
        and_then (qs_match_value (p + baseindex) (s64 (Z.land (Z.shiftr chunk (p * w)) mask1)))
          (let bits := if (t + 1) * w =? 64 then 0 else Z.shiftr bits ((t + 1) * w) in
           gtlt_bits fuel chunk baseindex mask1 bits (p + 1))
  end.

Definition find_gtlt_fast (gt : bool) (chunk magic baseindex : Z) : search :=
  let mask1 := ones_mask w in
  let mask2 := Z.shiftr mask1 1 in
  let tops := u64 ((2 ^ 64 - 1) / no0 mask1 * (mask2 + 1)) in
  let bits := if gt then Z.land (Z.lor (u64 (chunk + magic)) chunk) tops
              else Z.land (Z.land (u64 (chunk - magic)) (not64 chunk)) tops in
  gtlt_bits 65 chunk baseindex mask1 bits 0.

Definition relation (gt : bool) (v2 v : Z) : bool := if gt then v <? v2 else v2 <? v.

Fixpoint gtlt_loop (n : nat) (gt : bool) (v chunk baseindex i : Z) : search :=
  match n with
  | O => go_on
  | S n =>
      let v2 := signed_lane w (Z.land chunk (ones_mask w)) in
      and_then (report (relation gt v2 v) (qs_match_value (i + baseindex) v2))
        (gtlt_loop n gt v (Z.shiftr chunk w) baseindex (i + 1))
  end.

Definition find_gtlt (gt : bool) (v chunk baseindex : Z) : search :=
  gtlt_loop (Z.to_nat (64 / w)) gt v chunk baseindex 0.

(** One word: by the bit tricks if no element has its top bit and the value allows it. *)
Definition relation_word (gt : bool) (value magic baseindex p : Z) : search :=
  let mask := ones_mask w in
  let v := get_word m d p in
  let base := p * 8 * 8 / no0 w + baseindex in
  if negb (value =? s64 (Z.land magic mask)) && (0 <=? value) && (2 <=? w) && (value <=? Z.shiftr mask 1 - (if gt then 1 else 0)) then
    let upper := Z.land (u64 (Z.shiftl (lower_bits w) (no0 w - 1))) v in
    if upper =? 0 then find_gtlt_fast gt v magic base else find_gtlt gt value v base
  else find_gtlt gt value v base.

Definition relation_words (gt : bool) (value end_ baseindex start : Z) : search :=
  let tail start := linear (Z.to_nat (end_ - start)) start (fun i => relation gt (get i) value) (fun i => qs_match (i + baseindex)) in
  if (w =? 1) || (w =? 2) || (w =? 4) || (w =? 8) || (w =? 16) then
    let p := start * w / 8 / 8 in
    let e := end_ * w / 8 - 8 in
    let magic := find_gtlt_magic gt w value in
    let n := chunks p e in
    and_then (word_loop n p (relation_word gt value magic baseindex)) (tail ((p + Z.of_nat n) * 8 * 8 / no0 w))
  else tail start.

Definition compare_relation (gt : bool) (value start end_ baseindex : Z) : search :=
  let ee := round_up start (64 / no0 w) in
  let ee := if end_ <? ee then end_ else ee in
  and_then (linear (Z.to_nat (ee - start)) start (fun i => relation gt (get i) value) (fun i => qs_match_value (i + baseindex) (get i)))
    (let start := Z.max start ee in
     if end_ <=? start then go_on else relation_words gt value end_ baseindex start).

Definition compare (c : Cond) (value start end_ baseindex : Z) : search :=
  match c with
  | Equal => compare_equality true value start end_ baseindex
  | NotEqual => compare_equality false value start end_ baseindex
  | Greater => compare_relation true value start end_ baseindex
  | Less => compare_relation false value start end_ baseindex
  | _ => fun s => (false, s)
  end.

End Leaf.

(** [while (resmask != 0)], at most once per byte of a vector. *)
Fixpoint sse_bits (fuel : nat) (w baseindex resmask s : Z) : search :=
  match fuel with
  | O => go_on
  | S fuel =>
      if resmask =? 0 then go_on
      else
        let idx := first_set_bit resmask * 8 / no0 w in
        let s := s + idx in
        and_then (qs_match (s + baseindex))
          (sse_bits fuel w baseindex (Z.shiftr resmask ((idx + 1) * no0 w / 8)) (s + 1))
  end.

Definition sse_compare (c : Cond) (w a b : Z) : Z :=
  match c with
  | Equal | NotEqual => mm_cmpeq w a b
  | Greater => mm_cmpgt w a b
  | Less => mm_cmplt w a b
  | _ => 0
  end.

(** The vectors at [action_data] compared with those of [data]. *)
Fixpoint find_sse_intern (items : nat) (c : Cond) (w : Z) (action_data : Z -> Z) (data baseindex i : Z) : search :=
  match items with
  | O => go_on
  | S items =>
      let compare_result := sse_compare c w (action_data i) data in
      let resmask := mm_movemask_epi8 compare_result in
      let resmask := match c with NotEqual => Z.land (u32 (Z.lnot resmask)) 0x0000ffff | _ => resmask end in
      let s := i * 16 * 8 / no0 w in
      and_then (sse_bits 17 w baseindex resmask s) (find_sse_intern items c w action_data data baseindex (i + 1))
  end.

Definition get_vector (m : bytes) (a i : Z) : Z := le_val 16 m (a + 16 * i).

Definition find_sse (c : Cond) (m : bytes) (w value data items baseindex : Z) : search :=
  let search_value := mm_set1 w value in
  find_sse_intern (Z.to_nat items) c w (get_vector m data) search_value baseindex 0.

(** [start2] and [end] are element positions; the vectors lie at addresses that are
    multiples of sixteen. *)
Definition find_optimized (sse_support addr : Z) (m : bytes) (d size : Z) (c : Cond) (w value start end_ baseindex : Z) : search :=
  let start2 := start in
  let end_ := if end_ =? npos then size else end_ in
  if negb ((start2 <? size) && (start2 <? end_)) then go_on
  else
    let lbound := default 0 (lbound_for_width w) in
    let ubound := default 0 (ubound_for_width w) in
    if negb (can_match c value lbound ubound) then go_on
    else if will_match c value lbound ubound then find_all_will_match start2 end_ baseindex
    else
      let sse42 := 0 <? sse_support in
      let sse30 := 0 <=? sse_support in
      if negb (match c with Less => w =? 64 | _ => false end) && (16 <=? end_ - start2) && (8 <=? w) &&
         (sse42 || (sse30 && match c with Equal => w <? 64 | _ => false end)) then
        let a := round_up (addr + start2 * w / 8) 16 in
        let b := round_down (addr + end_ * w / 8) 16 in
        and_then (compare m d w c value start2 ((a - addr) * 8 / no0 w) baseindex)
          (and_then
             (if a <? b then
                if sse42 then find_sse c m w value (d + (a - addr)) ((b - a) / 16) (baseindex + (a - addr) * 8 / no0 w)
                else if sse30 then find_sse Equal m w value (d + (a - addr)) ((b - a) / 16) (baseindex + (a - addr) * 8 / no0 w)
                else go_on
              else go_on)
             (compare m d w c value ((b - addr) * 8 / no0 w) end_ baseindex))
      else compare m d w c value start2 end_ baseindex.

End Find.

(** The positions of the elements equal to [value], appended to [result]. *)
Definition find_all `{Sse} (sse_support addr : Z) (m : bytes) (d size w value col_offset begin end_ : Z) (result : list Z) : list Z :=
  let end_ := if end_ =? npos then size else end_ in
  m_keys (find_optimized sse_support addr m d size Equal w value begin end_ col_offset (mkAll 0 (2 ^ 64 - 1) result)).2.

(** [llbt::not_found] is [npos]. *)
Definition array_find_first `{Sse} (sse_support addr : Z) (m : bytes) (d size : Z) (c : Cond) (w value start end_ : Z) : Z :=
  if end_ - start =? 1 then (if cond_holds c (get m d w start) value then start else npos)
  else m_state (find_optimized sse_support addr m d size c w value start end_ 0 (mkFirst 0 npos)).2.

(** The reference: every element in turn. *)
Definition find_reference {St} `{QueryState St} (m : bytes) (d w : Z) (c : Cond) (value start end_ baseindex : Z) : St -> bool * St :=
  linear (Z.to_nat (end_ - start)) start (fun i => cond_holds c (get_direct m d w i) value) (fun i => qs_match (i + baseindex)).
