(* ===== verification/ArrayFindInv.v ===== *)
(** * Searches in integer arrays: lemmas on words, and the search for equality *)

From S2P Require Import Prelude Bytes NodeHeader ArrayDirect ArrayBits Lanes ArrayFind.

(** Widths that divide a word. *)
Definition word_width (w : Z) : Prop := w = 1 \/ w = 2 \/ w = 4 \/ w = 8 \/ w = 16 \/ w = 32 \/ w = 64.

Ltac word_cases H := let G := fresh "G" in destruct H as [G|[G|[G|[G|[G|[G|G]]]]]]; rewrite G in *; clear G.

(** The number of elements in a word. *)
Definition per_word (w : Z) : Z := 64 / w.

Lemma least_index (f : Z -> bool) (n : nat) : (exists i, 0 <= i < Z.of_nat n /\ f i = true) ->
  exists k, 0 <= k < Z.of_nat n /\ f k = true /\ forall j, 0 <= j < k -> f j = false.
Proof.
  induction n as [|n IH]; intros (i & Hi & Hf); [lia|].
  destruct (decide (Exists (fun k => f (Z.of_nat k) = true) (seq 0 n))) as [He|He].
  - apply Exists_exists in He as (k & Hk & Hfk). apply in_seq in Hk. destruct IH as (l & Hl & Hr); [exists (Z.of_nat k); split; [lia|done]|].
    exists l. split; [lia|done].
  - assert (Hno : forall j, 0 <= j < Z.of_nat n -> f j = false).
    { intros j Hj. apply not_true_is_false. intros Hfj. apply He, Exists_exists. exists (Z.to_nat j). rewrite in_seq, Z2Nat.id by lia. split; [lia|done]. }
    exists i. split; [done|]. split; [done|]. intros j Hj. apply Hno. destruct (Z.eq_dec i (Z.of_nat n)); [lia|].
    exfalso. rewrite Hno in Hf by lia. done.
Qed.

Section Width.
Context (w : Z) (Hw : word_width w).

Lemma width_pos : 0 < w.
Proof. word_cases Hw; lia. Qed.

Lemma per_word_pos : 0 < per_word w <= 64.
Proof. word_cases Hw; vm_compute; split; done. Qed.

Lemma per_word_mul : w * per_word w = 64.
Proof. word_cases Hw; reflexivity. Qed.

Lemma no0_width : no0 w = w.
Proof. word_cases Hw; reflexivity. Qed.

Abbreviation L := (Z.to_nat (per_word w)).

Lemma lanes_64 : w * Z.of_nat L = 64.
Proof. rewrite Z2Nat.id by (pose proof per_word_pos; lia). apply per_word_mul. Qed.

Lemma lower_bits_rep : lower_bits w = rep L w.
Proof. word_cases Hw; reflexivity. Qed.

Lemma ones_mask_eq : ones_mask w = 2 ^ w - 1.
Proof. word_cases Hw; reflexivity. Qed.

Lemma repeat_ones : (2 ^ 64 - 1) / no0 (ones_mask w) = rep L w.
Proof. word_cases Hw; vm_compute; reflexivity. Qed.

Lemma pow_w_le : 2 <= 2 ^ w <= 2 ^ 64.
Proof. word_cases Hw; vm_compute; split; done. Qed.

Lemma half_pow : 2 ^ w = 2 * 2 ^ (w - 1).
Proof. pose proof width_pos. rewrite <- Z.pow_succ_r by lia. f_equal. lia. Qed.

Lemma tops_eq : u64 (Z.shiftl (lower_bits w * 1) (if w =? 0 then 0 else w - 1)) = rep L w * 2 ^ (w - 1).
Proof. word_cases Hw; reflexivity. Qed.

Lemma land_mask x : Z.land x (ones_mask w) = x mod 2 ^ w.
Proof.
  rewrite ones_mask_eq. replace (2 ^ w - 1) with (Z.ones w) by (rewrite Z.ones_equiv; lia). apply Z.land_ones. pose proof width_pos. lia.
Qed.

Lemma lane_shift_mask x i : 0 <= i -> Z.land (Z.shiftr x (w * i)) (ones_mask w) = lane w i x.
Proof. intros Hi. rewrite land_mask. unfold lane. pose proof width_pos. by rewrite Z.shiftr_div_pow2 by nia. Qed.

(** Cutting a word to 64 bits keeps its lanes. *)
Lemma lane_u64 i x : 0 <= i < per_word w -> lane w i (u64 x) = lane w i x.
Proof.
  intros Hi. pose proof width_pos. pose proof per_word_mul. apply lane_ext; [lia|lia|lia|]. intros b Hb. unfold u64.
  rewrite testbit_mod_pow2 by nia. destruct (Z.ltb_spec (w * i + b) 64); [done|nia].
Qed.

Lemma msb_not64 i x : 0 <= i < per_word w -> Z.testbit (not64 x) (w * i + (w - 1)) = negb (2 ^ (w - 1) <=? lane w i x).
Proof.
  intros Hi. pose proof width_pos. pose proof per_word_mul. unfold not64, u64.
  rewrite testbit_mod_pow2 by nia. destruct (Z.ltb_spec (w * i + (w - 1)) 64); [|nia]. cbn [andb].
  rewrite Z.lnot_spec by nia. by rewrite lane_msb by lia.
Qed.

Lemma has_zero_lane v i : 0 <= i < per_word w ->
  (2 ^ (w - 1) <=? lane w i (Z.land (u64 (v - rep L w)) (not64 v))) =
  (2 ^ (w - 1) <=? lane w i (v - rep L w)) && negb (2 ^ (w - 1) <=? lane w i v).
Proof.
  intros Hi. pose proof width_pos. rewrite <- lane_msb by lia. rewrite Z.land_spec, msb_not64, lane_msb by lia. by rewrite lane_u64.
Qed.

Lemma lane_lower_bits i : 0 <= i < per_word w -> lane w i (rep L w) = 1.
Proof.
  intros Hi. pose proof pow_w_le. rewrite <- (Z.mul_1_r (rep L w)). apply lane_rep; [apply width_pos|lia|].
  rewrite Z2Nat.id by lia. done.
Qed.

(** [test_zero] tells exactly whether some element is zero. *)
Lemma test_zero_spec v : test_zero w v = true <-> exists i, 0 <= i < per_word w /\ lane w i v = 0.
Proof.
  pose proof width_pos as Hp. pose proof per_word_pos as Hl. pose proof half_pow as Hh. pose proof pow_w_le as Hpw.
  unfold test_zero. rewrite tops_eq, lower_bits_rep, negb_true_iff, Z.eqb_neq, tops_nonzero by done. rewrite Z2Nat.id by lia. split.
  - intros (i & Hi & Hm). apply Z.leb_le in Hm. rewrite has_zero_lane in Hm by done. apply andb_true_iff in Hm as [H1 H2].
    destruct (decide (Exists (fun k => lane w (Z.of_nat k) v = 0) (seq 0 L))) as [He|He].
    + apply Exists_exists in He as (k & Hk & Hz). apply in_seq in Hk. exists (Z.of_nat k). split; [lia|done].
    + exfalso. assert (Hpos : forall j, 0 <= j < Z.of_nat L -> lane w j (rep L w) <= lane w j v).
      { intros j Hj. rewrite lane_lower_bits by lia. pose proof (lane_range w Hp j v). destruct (Z.eq_dec (lane w j v) 0) as [E|]; [|lia].
        exfalso. apply He, Exists_exists. exists (Z.to_nat j). rewrite in_seq, Z2Nat.id by lia. split; [lia|done]. }
      rewrite (lane_sub w Hp L) in H1 by (done || lia). rewrite lane_lower_bits in H1 by done.
      apply Z.leb_le in H1. apply negb_true_iff, Z.leb_gt in H2. lia.
  - intros (i & Hi & Hz). destruct (least_index (fun k => lane w k v =? 0) L) as (k & Hk & Hzk & Hno).
    { exists i. split; [lia|]. by rewrite Hz. }
    apply Z.eqb_eq in Hzk. exists k. split; [lia|]. apply Z.leb_le. rewrite has_zero_lane by lia. rewrite Hzk.
    rewrite (lane_sub_first w Hp L); [|intros j Hj; rewrite lane_lower_bits by lia; specialize (Hno j Hj); apply Z.eqb_neq in Hno; pose proof (lane_range w Hp j v); lia|lia].
    rewrite Hzk, lane_lower_bits by lia. replace ((0 - 1) mod 2 ^ w) with (2 ^ w - 1) by (apply (Zmod_unique _ _ (-1)); lia).
    rewrite (proj2 (Z.leb_le (2 ^ (w - 1)) (2 ^ w - 1))), (proj2 (Z.leb_gt (2 ^ (w - 1)) 0)) by lia. done.
Qed.

Lemma word_nonzero v : 0 <= v < 2 ^ 64 -> v <> 0 <-> exists i, 0 <= i < per_word w /\ lane w i v <> 0.
Proof.
  intros Hv. pose proof width_pos as Hp. pose proof per_word_pos as Hl. split.
  - intros Hne. destruct (decide (Exists (fun k => lane w (Z.of_nat k) v <> 0) (seq 0 L))) as [He|He].
    + apply Exists_exists in He as (k & Hk & Hz). apply in_seq in Hk. exists (Z.of_nat k). split; [lia|done].
    + exfalso. apply Hne. apply (lanes_inj w Hp L); rewrite ?lanes_64; [done|lia|]. intros i Hi. rewrite lane_of_0 by done.
      destruct (Z.eq_dec (lane w i v) 0) as [|Hi0]; [done|]. exfalso. apply He, Exists_exists. exists (Z.to_nat i). rewrite in_seq, Z2Nat.id by lia. split; [lia|done].
  - intros (i & Hi & Hz) ->. by rewrite lane_of_0 in Hz.
Qed.

(** ** [find_zero] *)

(** Whether an element is what [find_zero] looks for. *)
Definition wanted (eq : bool) (x : Z) : bool := Bool.eqb eq (x =? 0).

(** With ones from bit [h] on, the elements below stay and the others are not zero. *)
Lemma lane_lor_high v h i : 0 <= v < 2 ^ 64 -> 0 <= h <= 64 -> h mod w = 0 -> 0 <= i < per_word w ->
  lane w i (Z.lor v (2 ^ 64 - 2 ^ h)) = if i <? h / w then lane w i v else 2 ^ w - 1.
Proof.
  intros Hv Hh Hm Hi. pose proof width_pos as Hp. pose proof per_word_mul as Hl.
  assert (Hbit : forall b, 0 <= b < 64 -> Z.testbit (2 ^ 64 - 2 ^ h) b = negb (b <? h)).
  { intros b Hb. replace (2 ^ 64 - 2 ^ h) with (Z.shiftl (Z.ones (64 - h)) h).
    - destruct (Z.ltb_spec b h); [by rewrite Z.shiftl_spec_low|]. rewrite Z.shiftl_spec by lia. apply Z.ones_spec_low. lia.
    - rewrite Z.shiftl_mul_pow2, Z.ones_equiv, Z.mul_pred_l, <- Z.pow_add_r by lia. by replace (64 - h + h) with 64 by lia. }
  assert (Eh : h = w * (h / w)) by (pose proof (Z.div_mod h w ltac:(lia)); lia).
  apply Z.bits_inj'. intros b Hb. destruct (Z.lt_ge_cases b w) as [Hbw|Hbw].
  - rewrite testbit_lane, Z.lor_spec, Hbit by (lia || nia). destruct (Z.ltb_spec i (h / w)).
    + rewrite testbit_lane by lia. destruct (Z.ltb_spec (w * i + b) h); [by rewrite orb_false_r|nia].
    + destruct (Z.ltb_spec (w * i + b) h); [nia|]. rewrite orb_true_r. replace (2 ^ w - 1) with (Z.ones w) by (rewrite Z.ones_equiv; lia).
      by rewrite Z.ones_spec_low by lia.
  - rewrite (testbit_above _ w) by (try (apply lane_range; lia); lia). destruct (i <? h / w).
    + by rewrite (testbit_above _ w) by (try (apply lane_range; lia); lia).
    + pose proof pow_w_le. by rewrite (testbit_above _ w) by lia.
Qed.

(** No wanted element below [h] bits, as [find_zero] tests it. *)
Lemma none_below (eq : bool) v h : 0 <= v < 2 ^ 64 -> 0 <= h <= 64 -> h mod w = 0 ->
  (if eq then negb (test_zero w (Z.lor v (2 ^ 64 - 2 ^ h))) else Z.land v (2 ^ h - 1) =? 0) = true ->
  forall i, 0 <= i < h / w -> wanted eq (lane w i v) = false.
Proof.
  intros Hv Hh Hm H i Hi. pose proof width_pos as Hp. pose proof per_word_mul as Hl. pose proof per_word_pos.
  assert (Hhw : h / w <= per_word w) by (apply Z.div_le_upper_bound; lia). unfold wanted. destruct eq.
  - apply negb_true_iff in H. cbn. destruct (Z.eqb_spec (lane w i v) 0) as [E|]; [|done]. exfalso.
    assert (test_zero w (Z.lor v (2 ^ 64 - 2 ^ h)) = true); [|congruence]. apply test_zero_spec. exists i. split; [lia|].
    rewrite lane_lor_high by (done || lia). by rewrite (proj2 (Z.ltb_lt i (h / w))) by lia.
  - apply Z.eqb_eq in H. replace (2 ^ h - 1) with (Z.ones h) in H by (rewrite Z.ones_equiv; lia). rewrite Z.land_ones in H by lia.
    assert (E : lane w i v = 0); [|by rewrite E]. rewrite <- (lane_of_0 w i). apply lane_ext; [done|lia|lia|]. intros b Hb. rewrite Z.bits_0.
    assert (w * i + b < h) by (pose proof (Z.div_mod h w ltac:(lia)); nia).
    replace (Z.testbit v (w * i + b)) with (Z.testbit (v mod 2 ^ h) (w * i + b)) by (rewrite testbit_mod_pow2 by nia; by rewrite (proj2 (Z.ltb_lt (w * i + b) h)) by lia).
    rewrite H. apply Z.bits_0.
Qed.

Lemma find_zero_loop_spec fuel eq v start k : 0 <= start <= k -> k < start + Z.of_nat fuel -> wanted eq (lane w k v) = true ->
  (forall j, start <= j < k -> wanted eq (lane w j v) = false) -> find_zero_loop fuel eq w (ones_mask w) v start = k.
Proof.
  revert start. induction fuel as [|fuel IH]; intros start Hs Hf Hk Hno; [lia|]. cbn [find_zero_loop]. rewrite lane_shift_mask by lia.
  assert (E : Bool.eqb eq (negb (lane w start v =? 0)) = negb (wanted eq (lane w start v))) by (unfold wanted; by destruct eq, (lane w start v =? 0)).
  rewrite E. destruct (Z.eq_dec start k) as [->|]; [by rewrite Hk|]. rewrite Hno by lia. cbn [negb]. apply IH; [lia|lia|done|]. intros j Hj. apply Hno. lia.
Qed.
End Width.

(** [find_zero] returns the first wanted element, when there is one. *)
Lemma find_zero_spec w (eq : bool) v k : word_width w -> 0 <= v < 2 ^ 64 -> 0 <= k < per_word w -> wanted eq (lane w k v) = true ->
  (forall j, 0 <= j < k -> wanted eq (lane w j v) = false) -> find_zero eq w v = k.
Proof.
  intros Hw Hv Hk Hwk Hno. pose proof (per_word_pos w Hw) as Hl. unfold find_zero.
  assert (E0 : Z.land (Z.shiftr v (w * 0)) (ones_mask w) = lane w 0 v) by (apply lane_shift_mask; [done|lia]). rewrite E0.
  change (Bool.eqb eq (lane w 0 v =? 0)) with (wanted eq (lane w 0 v)).
  destruct (Z.eq_dec k 0) as [->|Hk0]; [by rewrite Hwk|]. rewrite (Hno 0) by lia. cbv zeta.
  change 0xffffffff00000000 with (2 ^ 64 - 2 ^ 32). change 0x00000000ffffffff with (2 ^ 32 - 1).
  change 0xffff000000000000 with (2 ^ 64 - 2 ^ 48). change 0x0000ffffffffffff with (2 ^ 48 - 1).
  change 0xffffffffffff0000 with (2 ^ 64 - 2 ^ 16). change 0x000000000000ffff with (2 ^ 16 - 1).
  set (none := fun h => if eq then negb (test_zero w (Z.lor v (2 ^ 64 - 2 ^ h))) else Z.land v (2 ^ h - 1) =? 0).
  assert (Hnone : forall h, 0 <= h <= 64 -> h mod w = 0 -> none h = true -> h / w <= k).
  { intros h Hh Hm Hn. destruct (Z.le_gt_cases (h / w) k); [done|]. pose proof (none_below w Hw eq v h Hv Hh Hm Hn k ltac:(lia)). congruence. }
  fold (none 32) (none 48) (none 16). set (start := if w <=? 8 then _ else _).
  assert (Hs : 0 <= start <= k).
  { unfold start. pose proof (Hnone 32 ltac:(lia)) as N32. pose proof (Hnone 48 ltac:(lia)) as N48. pose proof (Hnone 16 ltac:(lia)) as N16. clearbody none.
    clear -Hw Hk N32 N48 N16. destruct Hw as [->|[->|[->|[->|[->|[->| ->]]]]]]; cbn [Z.leb Z.compare Pos.compare Pos.compare_cont];
      try (specialize (N32 eq_refl)); try (specialize (N48 eq_refl)); try (specialize (N16 eq_refl));
      change (no0 1) with 1; change (no0 2) with 2; change (no0 4) with 4; change (no0 8) with 8;
      destruct (none 32), (none 48), (none 16); repeat (match goal with H : true = true -> _ |- _ => specialize (H eq_refl) | H : false = true -> _ |- _ => clear H end); dlia. }
  apply find_zero_loop_spec; [done|lia|lia|done|]. intros j Hj. apply Hno. lia.
Qed.

(** ** The lowest set bit *)

Definition lowest (v k : Z) : Prop := 0 <= k /\ Z.testbit v k = true /\ forall j, 0 <= j < k -> Z.testbit v j = false.

Lemma lowest_form v k : lowest v k -> v mod 2 ^ (k + 1) = 2 ^ k.
Proof.
  intros (Hk & Hb & Hno). apply Z.bits_inj'. intros j Hj. rewrite testbit_mod_pow2, Z.pow2_bits_eqb by lia.
  destruct (Z.ltb_spec j (k + 1)), (Z.eqb_spec k j) as [->|]; cbn [andb]; try done; try lia. apply Hno. lia.
Qed.

Lemma lowest_isolated v k n : lowest v k -> 0 <= v < 2 ^ n -> k < n -> Z.land v ((- v) mod 2 ^ n) = 2 ^ k.
Proof.
  intros Hl Hv Hn. pose proof (lowest_form v k Hl) as Hf. destruct Hl as (Hk & Hb & Hno).
  assert (Hm : (v - 1) mod 2 ^ (k + 1) = 2 ^ k - 1).
  { pose proof (Z.div_mod v (2 ^ (k + 1)) ltac:(lia)) as E. rewrite Hf in E. symmetry. apply (Zmod_unique _ _ (v / 2 ^ (k + 1))); [|lia].
    rewrite Z.pow_add_r by lia. lia. }
  assert (Hd : (v - 1) / 2 ^ (k + 1) = v / 2 ^ (k + 1)).
  { pose proof (Z.div_mod v (2 ^ (k + 1)) ltac:(lia)) as E. rewrite Hf in E. symmetry. apply (Zdiv_unique _ _ _ (2 ^ k - 1)); [|lia].
    rewrite Z.pow_add_r by lia. lia. }
  apply Z.bits_inj'. intros j Hj. rewrite Z.land_spec, testbit_mod_pow2, Z.pow2_bits_eqb by lia.
  destruct (Z.ltb_spec j n); [|rewrite andb_false_r; symmetry; apply Z.eqb_neq; lia]. cbn [andb].
  replace (- v) with (Z.lnot (v - 1)) by (unfold Z.lnot; lia). rewrite Z.lnot_spec by lia. destruct (Z.lt_trichotomy j k) as [Hlt|[->|Hgt]].
  - rewrite Hno by lia. symmetry. apply Z.eqb_neq. lia.
  - rewrite Hb, Z.eqb_refl. replace (Z.testbit (v - 1) k) with (Z.testbit ((v - 1) mod 2 ^ (k + 1)) k) by (rewrite testbit_mod_pow2 by lia; by rewrite (proj2 (Z.ltb_lt k (k + 1))) by lia).
    rewrite Hm, (testbit_above _ k) by lia. done.
  - rewrite (proj2 (Z.eqb_neq k j)) by lia. replace (Z.testbit (v - 1) j) with (Z.testbit v j); [by destruct (Z.testbit v j)|].
    replace j with (j - (k + 1) + (k + 1)) by lia. rewrite <- !Z.div_pow2_bits by lia. by rewrite Hd.
Qed.

Lemma deBruijn_table : forallb (fun k => nth (Z.to_nat (Z.shiftr (u32 (2 ^ k * 0x077CB531)) 27)) deBruijn 0 =? k) (upto 32) = true.
Proof. vm_compute. reflexivity. Qed.

Lemma first_set_bit_spec v k : 0 <= v < 2 ^ 32 -> lowest v k -> first_set_bit v = k.
Proof.
  intros Hv Hl. assert (Hk : k < 32).
  { destruct Hl as (_ & Hb & _). destruct (Z.lt_ge_cases k 32); [done|]. rewrite (testbit_above v 32) in Hb by lia. done. }
  unfold first_set_bit. unfold sext. rewrite (Z.mod_small v) by lia. change (32 - 1) with 31.
  assert (E : u32 (- (if v <? 2 ^ 31 then v else v - 2 ^ 32)) = (- v) mod 2 ^ 32).
  { unfold u32. destruct (v <? 2 ^ 31); [done|]. replace (- (v - 2 ^ 32)) with (- v + 1 * 2 ^ 32) by lia. by rewrite Z.mod_add by lia. }
  rewrite E, (lowest_isolated v k 32 Hl Hv Hk). destruct (Z.eqb_spec (if v <? 2 ^ 31 then v else v - 2 ^ 32) (- 2 ^ 31)) as [E31|_].
  - assert (v = 2 ^ 31) as -> by (destruct (Z.ltb_spec v (2 ^ 31)); lia). destruct Hl as (H0 & Hb & _). rewrite Z.pow2_bits_eqb in Hb by lia. by apply Z.eqb_eq in Hb.
  - pose proof (upto_all _ _ deBruijn_table k) as Ht. apply Z.eqb_eq, Ht. destruct Hl. lia.
Qed.

Lemma first_set_bit64_spec v k : 0 <= v < 2 ^ 64 -> lowest v k -> first_set_bit64 v = k.
Proof.
  intros Hv (Hk & Hb & Hno). assert (Hk64 : k < 64) by (destruct (Z.lt_ge_cases k 64); [done|]; rewrite (testbit_above v 64) in Hb by lia; done).
  unfold first_set_bit64. assert (Hlow : forall j, 0 <= j -> Z.testbit (u32 v) j = (j <? 32) && Z.testbit v j) by (intros j Hj; unfold u32; by rewrite testbit_mod_pow2 by lia).
  destruct (Z.lt_ge_cases k 32) as [Hlt|Hge].
  - assert (Hl : lowest (u32 v) k).
    { split; [done|]. split; [rewrite Hlow by lia; by rewrite (proj2 (Z.ltb_lt k 32)), Hb by lia|]. intros j Hj. rewrite Hlow, Hno by lia. apply andb_false_r. }
    destruct (Z.eqb_spec (u32 v) 0) as [E|]; [destruct Hl as (_ & Hl & _); rewrite E, Z.bits_0 in Hl; done|]. cbn [negb].
    apply first_set_bit_spec; [apply u32_range|done].
  - assert (E : u32 v = 0).
    { apply Z.bits_inj'. intros j Hj. rewrite Hlow, Z.bits_0 by lia. destruct (Z.ltb_spec j 32); [|done]. cbn [andb]. apply Hno. lia. }
    rewrite E. cbn [Z.eqb negb]. rewrite u64_small by lia. assert (Hsh : forall j, 0 <= j -> Z.testbit (u32 (Z.shiftr v 32)) j = (j <? 32) && Z.testbit v (j + 32))
      by (intros j Hj; unfold u32; rewrite testbit_mod_pow2, Z.shiftr_spec by lia; done).
    rewrite (first_set_bit_spec _ (k - 32)); [lia|apply u32_range|]. split; [lia|]. split.
    + rewrite Hsh by lia. rewrite (proj2 (Z.ltb_lt (k - 32) 32)) by lia. cbn [andb]. by replace (k - 32 + 32) with k by lia.
    + intros j Hj. rewrite Hsh by lia. rewrite Hno by lia. apply andb_false_r.
Qed.

(** ** Searching integer arrays: each search is the linear one *)

(** ** Elements and lanes *)

Lemma testbit_signed_lane w x b : word_width w -> 0 <= x < 2 ^ w -> 0 <= b < w -> Z.testbit (signed_lane w x) b = Z.testbit x b.
Proof.
  intros Hw Hx Hb. unfold signed_lane. destruct (w <? 8); [done|]. unfold sext. rewrite Z.mod_small by done. destruct (x <? 2 ^ (w - 1)); [done|].
  replace (Z.testbit (x - 2 ^ w) b) with (Z.testbit ((x - 2 ^ w) mod 2 ^ w) b) by (rewrite testbit_mod_pow2 by lia; by rewrite (proj2 (Z.ltb_lt b w)) by lia).
  replace (x - 2 ^ w) with (x + (-1) * 2 ^ w) by lia. rewrite Z.mod_add, Z.mod_small by lia. done.
Qed.

Lemma word_valid w : word_width w -> valid_width w.
Proof. unfold word_width, valid_width. lia. Qed.

Lemma signed_lane_fits w x : word_width w -> 0 <= x < 2 ^ w -> fits w (signed_lane w x).
Proof.
  intros Hw Hx. unfold signed_lane, sext. destruct Hw as [->|[->|[->|[->|[->|[->| ->]]]]]]; cbn [Z.ltb Z.compare Pos.compare Pos.compare_cont];
    rewrite ?(Z.mod_small x) by done; unfold fits, lbound_for_width, ubound_for_width; cbn [Z.eqb Pos.eqb Z.ltb Z.compare Pos.compare Pos.compare_cont]; try (zdec; lia); lia.
Qed.

(** An element is determined by its bits. *)
Lemma elem_bits m d w i x : word_width w -> is_bytes m -> 0 <= i -> 0 <= x < 2 ^ w ->
  (forall b, 0 <= b < w -> tb m d (i * w + b) = Z.testbit x b) -> get_direct m d w i = signed_lane w x.
Proof.
  intros Hw Hm Hi Hx H. set (m' := set_direct m 0 w 0 (signed_lane w x)).
  rewrite <- (get_set_direct_eq m 0 w 0 (signed_lane w x)) by (done || lia || by apply word_valid || by apply signed_lane_fits).
  apply get_direct_tb; try done; [by apply word_valid|by apply is_bytes_set_direct|]. intros b Hb.
  rewrite H, set_direct_tb by (lia || by apply word_valid). rdec; [|lia]. replace (0 * w + b - 0 * w) with b by lia. by rewrite testbit_signed_lane.
Qed.

(** An element of an array is a lane of the word it lies in. *)
Lemma elem_lane m d w p j : word_width w -> is_bytes m -> 0 <= p -> 0 <= j < per_word w ->
  get_direct m d w (p * per_word w + j) = signed_lane w (lane w j (get_word m d p)).
Proof.
  intros Hw Hm Hp Hj. pose proof (per_word_mul w Hw) as Hl. pose proof (width_pos w Hw) as Hwp.
  apply elem_bits; [done|done|nia|by apply lane_range|]. intros b Hb.
  rewrite testbit_lane, testbit_get_word by (done || nia). f_equal. nia.
Qed.

Lemma signed_lane_eq w x v : word_width w -> 0 <= x < 2 ^ w -> fits w v -> (signed_lane w x =? v) = (x =? v mod 2 ^ w).
Proof.
  intros Hw Hx Hf. apply Bool.eq_iff_eq_true. rewrite !Z.eqb_eq. unfold signed_lane, sext.
  destruct Hw as [->|[->|[->|[->|[->|[->| ->]]]]]]; cbn [Z.ltb Z.compare Pos.compare Pos.compare_cont];
    rewrite ?(Z.mod_small x) by done; unfold fits, lbound_for_width, ubound_for_width in Hf; cbn [Z.eqb Pos.eqb Z.ltb Z.compare Pos.compare Pos.compare_cont] in Hf;
    try (zdec; dlia); dlia.
Qed.

(** ** Searches *)

Section Searches.
Context {St : Type} `{QueryState St}.

Definition same (a b : search (St := St)) : Prop := forall s, a s = b s.

#[global] Instance same_equiv : Equivalence same.
Proof. split; [done|by intros a b Hab s; rewrite Hab|by intros a b c Hab Hbc s; rewrite Hab, Hbc]. Qed.

#[global] Instance and_then_proper : Proper (same ==> same ==> same) and_then.
Proof. intros a a' Ha b b' Hb s. unfold and_then. rewrite Ha. destruct (a' s) as [[] s']; [apply Hb|done]. Qed.

Lemma and_then_assoc a b c : same (and_then (and_then a b) c) (and_then a (and_then b c)).
Proof. intros s. unfold and_then. by destruct (a s) as [[] s']. Qed.

Lemma go_on_then a : same (and_then go_on a) a.
Proof. done. Qed.

Lemma then_go_on a : same (and_then a go_on) a.
Proof. intros s. unfold and_then, go_on. by destruct (a s) as [[] s']. Qed.

Lemma linear_app a b i f act : same (linear (a + b) i f act) (and_then (linear a i f act) (linear b (i + Z.of_nat a) f act)).
Proof.
  revert i. induction a as [|a IH]; intros i; [by rewrite Z.add_0_r|]. cbn [Nat.add linear]. rewrite IH, and_then_assoc.
  by replace (i + Z.of_nat (S a)) with (i + 1 + Z.of_nat a) by lia.
Qed.

Lemma linear_none n i f act : (forall j, i <= j < i + Z.of_nat n -> f j = false) -> same (linear n i f act) go_on.
Proof.
  revert i. induction n as [|n IH]; intros i Hf; [done|]. cbn [linear]. rewrite Hf by lia. cbn [report]. rewrite go_on_then.
  apply IH. intros j Hj. apply Hf. lia.
Qed.

Lemma linear_ext n i f f' act act' : (forall j, i <= j < i + Z.of_nat n -> f j = f' j) ->
  (forall j, i <= j < i + Z.of_nat n -> f j = true -> same (act j) (act' j)) -> same (linear n i f act) (linear n i f' act').
Proof.
  revert i. induction n as [|n IH]; intros i Hf Ha; [done|]. cbn [linear]. rewrite <- (Hf i) by lia.
  rewrite IH by (intros; first [apply Hf; lia|apply Ha; [lia|done]]). destruct (f i) eqn:E; cbn [report]; [|done].
  by rewrite (Ha i ltac:(lia) E).
Qed.

(** The elements up to the first match, the match, and the rest. *)
Lemma linear_first n i t f act : 0 <= t < Z.of_nat n -> (forall j, 0 <= j < t -> f (i + j) = false) -> f (i + t) = true ->
  same (linear n i f act) (and_then (act (i + t)) (linear (n - Z.to_nat (t + 1)) (i + t + 1) f act)).
Proof.
  intros Ht Hno Hf. replace n with (Z.to_nat t + S (n - Z.to_nat (t + 1)))%nat at 1 by lia. rewrite linear_app, linear_none.
  - rewrite go_on_then. cbn [linear]. rewrite Z2Nat.id by lia. by rewrite Hf.
  - intros j Hj. replace j with (i + (j - i)) by lia. apply Hno. lia.
Qed.

(** Two ranges in a row. *)
Lemma linear_split a b c f act : a <= b <= c ->
  same (linear (Z.to_nat (c - a)) a f act) (and_then (linear (Z.to_nat (b - a)) a f act) (linear (Z.to_nat (c - b)) b f act)).
Proof.
  intros Hb. replace (Z.to_nat (c - a)) with (Z.to_nat (b - a) + Z.to_nat (c - b))%nat by lia. rewrite linear_app.
  by replace (a + Z.of_nat (Z.to_nat (b - a))) with b by lia.
Qed.

(** A loop over words, each of which is searched like its elements. *)
Lemma word_loop_linear l n p f act body : 0 < l -> (forall q, p <= q < p + Z.of_nat n -> same (body q) (linear (Z.to_nat l) (q * l) f act)) ->
  same (word_loop n p body) (linear (Z.to_nat (Z.of_nat n * l)) (p * l) f act).
Proof.
  intros Hl. revert p. induction n as [|n IH]; intros p Hb; [done|]. cbn [word_loop]. rewrite Hb by lia. rewrite IH by (intros; apply Hb; lia).
  replace (Z.to_nat (Z.of_nat (S n) * l)) with (Z.to_nat l + Z.to_nat (Z.of_nat n * l))%nat by nia. rewrite linear_app.
  by replace (p * l + Z.of_nat (Z.to_nat l)) with ((p + 1) * l) by lia.
Qed.

(** ** The equality search inside a word *)

Lemma wanted_iff (eq : bool) x : wanted eq x = true <-> if eq then x = 0 else x <> 0.
Proof. unfold wanted. by destruct eq, (Z.eqb_spec x 0). Qed.

Lemma equality_chunk_spec w (eq : bool) v start base : word_width w -> 0 <= v < 2 ^ 64 -> forall fuel a, 0 <= a <= per_word w -> per_word w < a + Z.of_nat fuel ->
  same (equality_chunk w fuel eq start base (Z.shiftr v (w * a)) a)
    (linear (Z.to_nat (per_word w - a)) (start + a) (fun i => wanted eq (lane w (i - start) v)) (fun i => qs_match (i + base))).
Proof.
  intros Hw Hv. pose proof (width_pos w Hw) as Hp. pose proof (per_word_pos w Hw) as Hl. pose proof (per_word_mul w Hw) as Hlm.
  induction fuel as [|fuel IH]; intros a Ha Hf; [lia|]. cbn [equality_chunk]. rewrite no0_width by done. fold (per_word w).
  set (v2 := Z.shiftr v (w * a)). assert (Hlane : forall j, 0 <= j -> lane w j v2 = lane w (j + a) v) by (intros j Hj; unfold v2; rewrite lane_shiftr by lia; f_equal; lia).
  assert (Hv2 : 0 <= v2 < 2 ^ 64).
  { unfold v2. rewrite Z.shiftr_div_pow2 by nia. split; [apply Z.div_pos; [lia|apply Z.pow_pos_nonneg; nia]|]. apply Z.div_lt_upper_bound; [apply Z.pow_pos_nonneg; nia|].
    pose proof (Z.pow_pos_nonneg 2 (w * a) ltac:(lia) ltac:(nia)). nia. }
  assert (Htest : (if eq then test_zero w v2 else negb (v2 =? 0)) = true <-> exists j, 0 <= j < per_word w /\ wanted eq (lane w j v2) = true).
  { destruct eq; [rewrite test_zero_spec by done|rewrite negb_true_iff, Z.eqb_neq, (word_nonzero w Hw v2 Hv2)];
      (split; intros (j & Hj & Hz); exists j; (split; [done|]); first [by apply (wanted_iff true)|by apply (wanted_iff false)]). }
  destruct (if eq then test_zero w v2 else negb (v2 =? 0)) eqn:Et.
  - apply proj1 in Htest. destruct (least_index (fun j => wanted eq (lane w j v2)) (Z.to_nat (per_word w))) as (t & Ht & Hwt & Hno).
    { destruct (Htest eq_refl) as (j & Hj & Hz). exists j. split; [lia|done]. }
    rewrite (find_zero_spec w eq v2 t Hw Hv2) by (done || lia). destruct (Z.leb_spec (per_word w) (a + t)).
    + symmetry. apply linear_none. intros i Hi. rewrite <- (Hno (i - start - a)) by lia. rewrite Hlane by lia. do 2 f_equal. lia.
    + rewrite (linear_first _ (start + a) t); [|lia| |].
      * replace (start + a + t) with (a + t + start) by lia. apply and_then_proper; [done|].
        assert (Es : (if (t + 1) * w <? 64 then Z.shiftr v2 ((t + 1) * w) else 0) = Z.shiftr v (w * (a + t + 1))).
        { unfold v2. destruct (Z.ltb_spec ((t + 1) * w) 64); [rewrite Z.shiftr_shiftr by nia; f_equal; lia|].
          rewrite Z.shiftr_div_pow2 by nia. symmetry. apply Z.div_small. split; [lia|]. apply Z.lt_le_trans with (2 ^ 64); [lia|]. apply Z.pow_le_mono_r; nia. }
        rewrite Es, IH by lia. replace (start + (a + t + 1)) with (a + t + start + 1) by lia.
        by replace (Z.to_nat (per_word w - a) - Z.to_nat (t + 1))%nat with (Z.to_nat (per_word w - (a + t + 1))) by lia.
      * intros j Hj. rewrite <- (Hno j) by lia. rewrite Hlane by lia. do 2 f_equal. lia.
      * rewrite <- Hwt. rewrite Hlane by lia. do 2 f_equal. lia.
  - symmetry. apply linear_none. intros i Hi. apply not_true_is_false. intros Hwi. apply proj2 in Htest. discriminate Htest.
    exists (i - start - a). split; [lia|]. rewrite Hlane by lia. by replace (i - start - a + a) with (i - start) by lia.
Qed.

(** ** Head, words and tail *)

Lemma word_index w p : word_width w -> p * 8 * 8 / no0 w = p * per_word w.
Proof. intros Hw. pose proof (per_word_mul w Hw) as Hlm. pose proof (width_pos w Hw). rewrite no0_width by done. replace (p * 8 * 8) with (p * per_word w * w) by (rewrite <- Z.mul_assoc, (Z.mul_comm (per_word w)), Hlm; lia). apply Z.div_mul. lia. Qed.

Lemma round_up_multiple p l : 0 <= p -> 0 < l -> exists k, round_up p l = k * l /\ p <= k * l < p + l.
Proof.
  intros Hp Hl. unfold round_up. pose proof (Z.div_mod p l ltac:(lia)). pose proof (Z.mod_pos_bound p l ltac:(lia)).
  destruct (Z.eqb_spec (p mod l) 0); [exists (p / l)|exists (p / l + 1)]; split; nia.
Qed.

Lemma aligned_then w start end_ f act (X : Z -> search) : word_width w -> 0 <= start ->
  (forall k, start <= k * per_word w < end_ -> same (X (k * per_word w)) (linear (Z.to_nat (end_ - k * per_word w)) (k * per_word w) f act)) ->
  let ee := round_up start (64 / no0 w) in
  let ee := if end_ <? ee then end_ else ee in
  same (and_then (linear (Z.to_nat (ee - start)) start f act) (let start := Z.max start ee in if end_ <=? start then go_on else X start))
    (linear (Z.to_nat (end_ - start)) start f act).
Proof.
  intros Hw Hs HX. cbv zeta. rewrite no0_width by done. fold (per_word w). pose proof (per_word_pos w Hw) as Hl.
  destruct (round_up_multiple start (per_word w) Hs ltac:(lia)) as (k & -> & Hk). destruct (Z.ltb_spec end_ (k * per_word w)).
  - destruct (Z.leb_spec end_ (Z.max start end_)); [apply then_go_on|lia].
  - rewrite Z.max_r by lia. destruct (Z.leb_spec end_ (k * per_word w)).
    + rewrite then_go_on. by replace (k * per_word w) with end_ by lia.
    + rewrite HX by lia. symmetry. apply linear_split. lia.
Qed.

Lemma words_then w k end_ f act body (tail : Z -> search) : word_width w -> 0 <= k -> k * per_word w < end_ ->
  (forall q, k <= q -> (q + 1) * per_word w < end_ -> same (body q) (linear (Z.to_nat (per_word w)) (q * per_word w) f act)) ->
  (forall i, k * per_word w <= i <= end_ -> same (tail i) (linear (Z.to_nat (end_ - i)) i f act)) ->
  let p := k * per_word w * w / 8 / 8 in
  let n := chunks p (end_ * w / 8 - 8) in
  same (and_then (word_loop n p body) (tail ((p + Z.of_nat n) * 8 * 8 / no0 w))) (linear (Z.to_nat (end_ - k * per_word w)) (k * per_word w) f act).
Proof.
  intros Hw Hk He Hb Ht p n. pose proof (per_word_pos w Hw) as Hl. pose proof (per_word_mul w Hw) as Hlm. pose proof (width_pos w Hw) as Hwp.
  assert (Ep : p = k) by (unfold p; replace (k * per_word w * w) with (k * 8 * 8) by nia; by rewrite !Z.div_mul by lia). clearbody p. subst p.
  assert (Hn : forall q, k <= q < k + Z.of_nat n -> (q + 1) * per_word w < end_).
  { intros q Hq. unfold n, chunks in Hq. assert (Hq8 : 8 * (q + 1) < end_ * w / 8) by dlia. assert (64 * (q + 1) < end_ * w) by dlia. nia. }
  assert (Hend : (k + Z.of_nat n) * per_word w <= end_).
  { destruct (decide (n = 0%nat)) as [->|]; [lia|]. specialize (Hn (k + Z.of_nat n - 1) ltac:(lia)). nia. }
  rewrite (word_loop_linear (per_word w) n k f act body); [|lia|intros q Hq; apply Hb; [lia|by apply Hn]]. rewrite word_index, Ht by (done || nia).
  rewrite (linear_split (k * per_word w) ((k + Z.of_nat n) * per_word w) end_) by nia.
  replace (Z.of_nat n * per_word w) with ((k + Z.of_nat n) * per_word w - k * per_word w) by lia. done.
Qed.

(** ** The equality search *)

Lemma valuemask_eq w value : word_width w ->
  u64 ((2 ^ 64 - 1) / no0 (ones_mask w) * Z.land (u64 value) (ones_mask w)) = rep (Z.to_nat (per_word w)) w * (value mod 2 ^ w).
Proof.
  intros Hw. pose proof (width_pos w Hw). pose proof (pow_w_le w Hw). rewrite repeat_ones, land_mask by done.
  assert (E : u64 value mod 2 ^ w = value mod 2 ^ w).
  { unfold u64. apply Z.mod_mod_divide. exists (2 ^ (64 - w)). rewrite <- Z.pow_add_r; [f_equal; lia|word_cases Hw; lia|lia]. }
  rewrite E. pose proof (Z.mod_pos_bound value (2 ^ w) ltac:(lia)).
  pose proof (rep_mul_range w ltac:(done) (Z.to_nat (per_word w)) (value mod 2 ^ w) ltac:(lia)) as Hr. rewrite lanes_64 in Hr by done.
  unfold u64. apply Z.mod_small. lia.
Qed.

Lemma equality_word m d w (eq : bool) value q base : word_width w -> is_bytes m -> 0 <= q -> fits w value ->
  same (equality_chunk w 65 eq (q * per_word w) base
          (Z.lxor (get_word m d q) (u64 ((2 ^ 64 - 1) / no0 (ones_mask w) * Z.land (u64 value) (ones_mask w)))) 0)
    (linear (Z.to_nat (per_word w)) (q * per_word w) (fun i => Bool.eqb eq (get m d w i =? value)) (fun i => qs_match (i + base))).
Proof.
  intros Hw Hm Hq Hf. rewrite valuemask_eq by done. pose proof (per_word_pos w Hw) as Hl. pose proof (width_pos w Hw) as Hp. pose proof (pow_w_le w Hw).
  set (v := Z.lxor _ _). assert (Hv : 0 <= v < 2 ^ 64).
  { pose proof (Z.mod_pos_bound value (2 ^ w) ltac:(lia)).
    pose proof (rep_mul_range w Hp (Z.to_nat (per_word w)) (value mod 2 ^ w) ltac:(lia)) as Hr. rewrite lanes_64 in Hr by done.
    apply lxor_range; [lia|by apply get_word_range|lia]. }
  rewrite <- (Z.shiftr_0_r v). replace 0 with (w * 0) at 1 by lia. rewrite (equality_chunk_spec w eq v _ base) by (done || lia).
  rewrite Z.sub_0_r, Z.add_0_r. apply linear_ext; [|done]. intros j Hj. unfold wanted, get. f_equal.
  replace j with (q * per_word w + (j - q * per_word w)) at 2 by lia. rewrite elem_lane by (done || lia).
  rewrite signed_lane_eq by (done || by apply lane_range). unfold v. rewrite lane_lxor by lia. rewrite lane_rep; [|lia|apply Z.mod_pos_bound; lia|rewrite Z2Nat.id; lia].
  apply Bool.eq_iff_eq_true. rewrite !Z.eqb_eq. by rewrite Z.lxor_eq_0_iff.
Qed.

Lemma compare_equality_linear m d w (eq : bool) value start end_ base : word_width w -> is_bytes m -> 0 <= start -> fits w value ->
  same (compare_equality m d w eq value start end_ base)
    (linear (Z.to_nat (end_ - start)) start (fun i => Bool.eqb eq (get m d w i =? value)) (fun i => qs_match (i + base))).
Proof.
  intros Hw Hm Hs Hf. pose proof (per_word_pos w Hw) as Hl. unfold compare_equality. apply (aligned_then w start end_ _ _ (equality_words m d w eq value end_ base)); [done|done|].
  intros k Hk. unfold equality_words. destruct (_ && _); [|done]. apply (words_then w k end_ _ _ _ (fun i => linear (Z.to_nat (end_ - i)) i _ _)); [done|nia|lia| |done].
  intros q Hq He. rewrite word_index by done. apply equality_word; (done || nia).
Qed.

(** ** Walking over the set bits of a word *)

(** Groups of [g] bits; a group with a set bit is reported and skipped. *)
Fixpoint walk (fuel : nat) (g : Z) (act : Z -> search (St := St)) (bits p : Z) : search :=
  match fuel with
  | O => go_on
  | S fuel =>
      if bits =? 0 then go_on
      else
        let p := p + first_set_bit64 bits / g in
        and_then (act p) (walk fuel g act (Z.shiftr bits ((first_set_bit64 bits / g + 1) * g)) (p + 1))
  end.

Lemma lowest_exists v : 0 < v < 2 ^ 64 -> exists k, 0 <= k < 64 /\ lowest v k.
Proof.
  intros Hv. destruct (least_index (Z.testbit v) 64) as (k & Hk & Hb & Hno); [|by exists k; split; [lia|split; [lia|]]].
  exists (Z.log2 v). split; [split; [apply Z.log2_nonneg|apply Z.log2_lt_pow2; lia]|]. apply Z.bit_log2. lia.
Qed.

Lemma lane_bit g i x b : 0 < g -> 0 <= i -> 0 <= b -> b / g = i -> Z.testbit x b = true -> lane g i x <> 0.
Proof.
  intros Hg Hi Hb <- Ht E. assert (Hm : Z.testbit (lane g (b / g) x) (b mod g) = Z.testbit x b).
  { pose proof (Z.mod_pos_bound b g Hg). rewrite testbit_lane by lia. f_equal. symmetry. apply Z.div_mod. lia. }
  rewrite E, Z.bits_0, Ht in Hm. done.
Qed.

Lemma lane_no_bits g i x : 0 < g -> 0 <= i -> (forall b, 0 <= b < g -> Z.testbit x (g * i + b) = false) -> lane g i x = 0.
Proof. intros Hg Hi Hb. rewrite <- (lane_of_0 g i). apply lane_ext; [done|done|done|]. intros b Hb'. rewrite Hb, Z.bits_0 by done. done. Qed.

(** The group of the lowest set bit is the first that is not zero. *)
Lemma lowest_group g x k : 0 < g -> lowest x k -> lane g (k / g) x <> 0 /\ forall j, 0 <= j < k / g -> lane g j x = 0.
Proof.
  intros Hg (Hk & Hb & Hno). split; [apply (lane_bit g _ x k); try done; apply Z.div_pos; lia|].
  intros j Hj. apply lane_no_bits; [done|lia|]. intros b Hb'. apply Hno. pose proof (Z.mul_div_le k g Hg). nia.
Qed.

Lemma walk_linear g n act B : 0 < g -> 0 <= n -> g * n <= 64 -> 0 <= B < 2 ^ (g * n) -> forall fuel p, 0 <= p -> n < p + Z.of_nat fuel ->
  same (walk fuel g act (Z.shiftr B (g * p)) p) (linear (Z.to_nat (n - p)) p (fun j => negb (lane g j B =? 0)) act).
Proof.
  intros Hg Hn Hgn HB. assert (HB64 : B < 2 ^ 64) by (apply Z.lt_le_trans with (2 ^ (g * n)); [lia|apply Z.pow_le_mono_r; lia]).
  induction fuel as [|fuel IH]; intros p Hp Hf; [replace (Z.to_nat (n - p)) with 0%nat by lia; done|]. cbn [walk].
  set (v := Z.shiftr B (g * p)). assert (Hlane : forall j, 0 <= j -> lane g j v = lane g (j + p) B) by (intros j Hj; unfold v; by rewrite lane_shiftr by lia).
  assert (Hv : 0 <= v < 2 ^ 64).
  { unfold v. rewrite Z.shiftr_div_pow2 by nia. pose proof (Z.pow_pos_nonneg 2 (g * p) ltac:(lia) ltac:(nia)).
    split; [apply Z.div_pos; lia|apply Z.div_lt_upper_bound; nia]. }
  destruct (Z.eqb_spec v 0) as [E|Ne].
  - symmetry. apply linear_none. intros j Hj. rewrite negb_false_iff, Z.eqb_eq. replace j with (j - p + p) by lia. rewrite <- Hlane, E by lia. apply lane_of_0.
  - destruct (lowest_exists v ltac:(lia)) as (k & Hk & Hl). rewrite (first_set_bit64_spec v k Hv Hl).
    destruct (lowest_group g v k Hg Hl) as [Hnz Hz]. set (t := k / g) in *. assert (Ht : 0 <= t) by (apply Z.div_pos; lia).
    assert (Htn : p + t < n).
    { destruct (Z.lt_ge_cases (p + t) n); [done|]. exfalso. apply Hnz. rewrite Hlane by done. apply (lane_above g Hg (Z.to_nat n)); [by rewrite Z2Nat.id|lia]. }
    rewrite (linear_first _ p t); [|lia| |].
    + apply and_then_proper; [done|]. unfold v. rewrite Z.shiftr_shiftr by nia. replace (g * p + (t + 1) * g) with (g * (p + t + 1)) by lia. rewrite IH by lia.
      by replace (Z.to_nat (n - p) - Z.to_nat (t + 1))%nat with (Z.to_nat (n - (p + t + 1))) by lia.
    + intros j Hj. rewrite negb_false_iff, Z.eqb_eq, Z.add_comm, <- Hlane by lia. by apply Hz.
    + rewrite negb_true_iff, Z.eqb_neq, Z.add_comm, <- Hlane by lia. done.
Qed.
End Searches.
