(* ===== verification/ArrayFindRel.v ===== *)
(** * The relational and the vector searches meet the linear one

    [compare_relation] with its bit tricks, and [find_sse] under the meaning of the
    vector instructions, report what a linear search reports. *)

From S2P Require Import Prelude Bytes NodeHeader ArrayDirect ArrayBits Lanes ArrayFind ArrayFindInv.

Section Relations.
Context {St : Type} `{QueryStateSpec St}.

Lemma value_same i v : same (qs_match_value i v) (qs_match i).
Proof. intros s. apply qs_value. Qed.

Lemma linear_shift n i k f (act : Z -> search (St := St)) : same (linear n i (fun j => f (j + k)) (fun j => act (j + k))) (linear n (i + k) f act).
Proof.
  revert i. induction n as [|n IH]; intros i; [done|]. cbn [linear]. rewrite IH. by replace (i + 1 + k) with (i + k + 1) by lia.
Qed.

(** ** One element after the other *)

Lemma gtlt_loop_linear w gt v chunk base n i : word_width w -> 0 <= i ->
  same (gtlt_loop w n gt v (Z.shiftr chunk (w * i)) base i)
    (linear n i (fun j => relation gt (signed_lane w (lane w j chunk)) v) (fun j => qs_match (j + base))).
Proof.
  intros Hw. pose proof (width_pos w Hw) as Hp. revert i. induction n as [|n IH]; intros i Hi; [done|]. cbn [gtlt_loop linear].
  rewrite lane_shift_mask by done. apply and_then_proper; [unfold report; destruct (relation _ _ _); [apply value_same|done]|].
  rewrite Z.shiftr_shiftr by lia. replace (w * i + w) with (w * (i + 1)) by lia. apply IH. lia.
Qed.

(** What one word should report. *)
Lemma word_linear m d w gt value q base (a : search (St := St)) : word_width w -> is_bytes m -> 0 <= q ->
  same a (linear (Z.to_nat (per_word w)) 0 (fun j => relation gt (signed_lane w (lane w j (get_word m d q))) value) (fun j => qs_match (j + (q * per_word w + base)))) ->
  same a (linear (Z.to_nat (per_word w)) (q * per_word w) (fun i => relation gt (get m d w i) value) (fun i => qs_match (i + base))).
Proof.
  intros Hw Hm Hq ->. pose proof (per_word_pos w Hw). 
  pose proof (linear_shift (Z.to_nat (per_word w)) 0 (q * per_word w) (fun i => relation gt (get m d w i) value) (fun i => qs_match (i + base))) as E.
  rewrite Z.add_0_l in E. rewrite <- E. apply linear_ext.
  - intros j Hj. rewrite Z.add_comm. unfold get. by rewrite elem_lane by (done || lia).
  - intros j Hj _. by rewrite Z.add_assoc.
Qed.

Lemma find_gtlt_linear m d w gt value q base : word_width w -> is_bytes m -> 0 <= q ->
  same (find_gtlt w gt value (get_word m d q) (q * per_word w + base))
    (linear (Z.to_nat (per_word w)) (q * per_word w) (fun i => relation gt (get m d w i) value) (fun i => qs_match (i + base))).
Proof.
  intros Hw Hm Hq. apply word_linear; [done..|]. unfold find_gtlt. rewrite <- (Z.shiftr_0_r (get_word m d q)) at 1.
  replace 0 with (w * 0) at 1 by lia. apply gtlt_loop_linear; [done|lia].
Qed.

(** ** All elements of a word at once *)

Lemma land_range a b n : 0 <= n -> 0 <= b < 2 ^ n -> 0 <= Z.land a b < 2 ^ n.
Proof.
  intros Hn Hb. replace (Z.land a b) with (Z.land a b mod 2 ^ n); [apply Z.mod_pos_bound; lia|].
  apply Z.bits_inj'. intros i Hi. rewrite testbit_mod_pow2 by lia. destruct (Z.ltb_spec i n); [done|]. by rewrite Z.land_spec, (testbit_above b n), andb_false_r by lia.
Qed.

Lemma signed_small w x : word_width w -> 0 <= x < 2 ^ (w - 1) -> signed_lane w x = x.
Proof.
  intros Hw Hx. pose proof (half_pow w Hw). unfold signed_lane, sext. destruct (w <? 8); [done|]. rewrite (Z.mod_small x) by lia.
  destruct (Z.ltb_spec x (2 ^ (w - 1))); [done|lia].
Qed.

Lemma gtlt_bits_walk w chunk base mask1 fuel bits p : word_width w -> 0 <= bits < 2 ^ 64 ->
  same (gtlt_bits w fuel chunk base mask1 bits p) (walk fuel w (fun j => qs_match (j + base)) bits p).
Proof.
  intros Hw. pose proof (width_pos w Hw) as Hp. revert bits p. induction fuel as [|fuel IH]; intros bits p Hb; [done|]. cbn [gtlt_bits walk].
  rewrite no0_width by done. destruct (Z.eqb_spec bits 0); [done|]. rewrite value_same. apply and_then_proper; [done|].
  destruct (lowest_exists bits ltac:(lia)) as (k & Hk & Hl). rewrite (first_set_bit64_spec bits k) by done. set (t := k / w).
  assert (Ht : 0 <= t) by (apply Z.div_pos; lia).
  assert (E : (if (t + 1) * w =? 64 then 0 else Z.shiftr bits ((t + 1) * w)) = Z.shiftr bits ((t + 1) * w)).
  { destruct (Z.eqb_spec ((t + 1) * w) 64) as [->|]; [|done]. rewrite Z.shiftr_div_pow2, Z.div_small by lia. done. }
  rewrite E. apply IH. rewrite Z.shiftr_div_pow2 by nia. pose proof (Z.pow_pos_nonneg 2 ((t + 1) * w) ltac:(lia) ltac:(nia)).
  split; [apply Z.div_pos; lia|apply Z.div_lt_upper_bound; nia].
Qed.

(** A word masked with the top bits has a lane that is not zero where the top bit is set. *)
Lemma lane_tops w i x : word_width w -> 0 <= i < per_word w ->
  negb (lane w i (Z.land x (rep (Z.to_nat (per_word w)) w * 2 ^ (w - 1))) =? 0) = (2 ^ (w - 1) <=? lane w i x).
Proof.
  intros Hw Hi. pose proof (width_pos w Hw) as Hp. pose proof (per_word_mul w Hw) as Hl.
  assert (Hbit : forall b, 0 <= b < w -> Z.testbit (Z.land x (rep (Z.to_nat (per_word w)) w * 2 ^ (w - 1))) (w * i + b) = Z.testbit x (w * i + b) && (b =? w - 1)).
  { intros b Hb. rewrite Z.land_spec, testbit_tops, Z2Nat.id, Hl by nia. rewrite (proj2 (Z.ltb_lt (w * i + b) 64)) by nia.
    replace ((w * i + b) mod w) with b by (apply (Zmod_unique _ _ i); lia). done. }
  rewrite <- lane_msb by lia. destruct (Z.testbit x (w * i + (w - 1))) eqn:E.
  - rewrite negb_true_iff, Z.eqb_neq. apply (lane_bit w _ _ (w * i + (w - 1))); [lia|lia|nia| |].
    + symmetry. apply (Zdiv_unique _ _ _ (w - 1)); lia.
    + rewrite Hbit by lia. by rewrite E, Z.eqb_refl.
  - rewrite negb_false_iff, Z.eqb_eq. apply lane_no_bits; [lia|lia|]. intros b Hb. rewrite Hbit by lia.
    destruct (Z.eqb_spec b (w - 1)) as [->|]; [by rewrite E|apply andb_false_r].
Qed.

Lemma half_mask w : word_width w -> Z.shiftr (ones_mask w) 1 = 2 ^ (w - 1) - 1.
Proof. intros Hw. word_cases Hw; reflexivity. Qed.

Lemma tops_of_mask w : word_width w -> u64 ((2 ^ 64 - 1) / no0 (ones_mask w) * (Z.shiftr (ones_mask w) 1 + 1)) = rep (Z.to_nat (per_word w)) w * 2 ^ (w - 1).
Proof. intros Hw. word_cases Hw; vm_compute; reflexivity. Qed.

Lemma tops_of_lower w : word_width w -> u64 (Z.shiftl (lower_bits w) (no0 w - 1)) = rep (Z.to_nat (per_word w)) w * 2 ^ (w - 1).
Proof. intros Hw. word_cases Hw; vm_compute; reflexivity. Qed.

Lemma magic_eq w v : word_width w -> 0 <= v < 2 ^ w -> u64 ((2 ^ 64 - 1) / no0 (ones_mask w) * u64 v) = rep (Z.to_nat (per_word w)) w * v.
Proof.
  intros Hw Hv. pose proof (pow_w_le w Hw). rewrite repeat_ones by done. unfold u64 at 2. rewrite (Z.mod_small v) by lia.
  pose proof (rep_mul_range w (width_pos w Hw) (Z.to_nat (per_word w)) v ltac:(lia)) as Hr. rewrite lanes_64 in Hr by done. unfold u64. apply Z.mod_small. lia.
Qed.

Lemma find_gtlt_fast_linear m d w value q base : word_width w -> is_bytes m -> 0 <= q -> w < 64 -> 0 <= value < 2 ^ (w - 1) - 1 ->
  Z.land (u64 (Z.shiftl (lower_bits w) (no0 w - 1))) (get_word m d q) = 0 ->
  same (find_gtlt_fast w true (get_word m d q) (find_gtlt_magic true w value) (q * per_word w + base))
    (linear (Z.to_nat (per_word w)) (q * per_word w) (fun i => relation true (get m d w i) value) (fun i => qs_match (i + base))).
Proof.
  intros Hw Hm Hq Hw64 Hv Hup. apply word_linear; [done..|]. pose proof (width_pos w Hw) as Hp. pose proof (per_word_pos w Hw) as Hl.
  pose proof (half_pow w Hw) as Hh. pose proof (pow_w_le w Hw) as Hpw. pose proof (per_word_mul w Hw) as Hlm. set (c := get_word m d q) in *.
  assert (Htop : forall i, 0 <= i < per_word w -> lane w i c < 2 ^ (w - 1)).
  { intros i Hi. destruct (Z.lt_ge_cases (lane w i c) (2 ^ (w - 1))); [done|]. exfalso. rewrite tops_of_lower, Z.land_comm in Hup by done.
    revert Hup. apply tops_nonzero; [done|]. exists i. rewrite Z2Nat.id by lia. done. }
  unfold find_gtlt_fast, find_gtlt_magic. rewrite tops_of_mask, half_mask by done. cbv iota. rewrite magic_eq by (done || lia).
  set (B := Z.land _ _). assert (HB : 0 <= B < 2 ^ (w * per_word w)).
  { rewrite Hlm. unfold B. pose proof (rep_mul_range w Hp (Z.to_nat (per_word w)) (2 ^ (w - 1)) ltac:(lia)) as Hr. rewrite lanes_64 in Hr by done.
    apply land_range; lia. }
  rewrite gtlt_bits_walk by (done || by rewrite <- Hlm). rewrite <- (Z.shiftr_0_r B). replace 0 with (w * 0) at 1 by lia.
  rewrite (walk_linear w (per_word w)) by (done || lia). rewrite Z.sub_0_r. apply linear_ext; [|done]. intros j Hj. assert (Hj' : 0 <= j < per_word w) by lia.
  unfold B. rewrite lane_tops by done.
  assert (Es : (2 ^ (w - 1) <=? lane w j (Z.lor (u64 (c + rep (Z.to_nat (per_word w)) w * (2 ^ (w - 1) - 1 - value))) c)) = (2 ^ (w - 1) <=? lane w j (c + rep (Z.to_nat (per_word w)) w * (2 ^ (w - 1) - 1 - value)))).
  { rewrite <- !lane_msb by lia. rewrite Z.lor_spec, (lane_msb w Hp j c) by lia. rewrite (proj2 (Z.leb_gt _ (lane w j c))) by (by apply Htop).
    rewrite orb_false_r, !lane_msb by lia. by rewrite lane_u64. }
  rewrite Es. rewrite (lane_add w Hp (Z.to_nat (per_word w))); [|intros i Hi; rewrite lane_rep by lia; specialize (Htop i ltac:(lia)); lia|lia].
  rewrite lane_rep by lia. unfold relation. specialize (Htop j Hj'). pose proof (lane_range w Hp j c) as Hr. rewrite signed_small by (done || lia). apply Bool.eq_iff_eq_true. rewrite Z.leb_le, Z.ltb_lt. lia.
Qed.

(** For "less than" the guard of the bit tricks never holds: the magic constant is the
    value repeated, so its lowest element is the value. *)
Lemma less_guard w value : word_width w -> 0 <= value <= Z.shiftr (ones_mask w) 1 -> w < 64 ->
  s64 (Z.land (find_gtlt_magic false w value) (ones_mask w)) = value.
Proof.
  intros Hw Hv Hw64. rewrite half_mask in Hv by done. pose proof (half_pow w Hw) as Hh. pose proof (width_pos w Hw) as Hp.
  unfold find_gtlt_magic. rewrite magic_eq by (done || lia). rewrite land_mask by done. pose proof (lane_rep w Hp (Z.to_nat (per_word w)) value 0) as Hl.
  unfold lane in Hl. rewrite Z.mul_0_r, Z.div_1_r in Hl. pose proof (per_word_pos w Hw). rewrite Hl by lia.
  assert (2 ^ w <= 2 ^ 63) by (apply Z.pow_le_mono_r; lia). unfold s64. apply sext_id; lia.
Qed.

Lemma relation_word_linear m d w gt value q base : word_width w -> w < 64 -> is_bytes m -> 0 <= q ->
  same (relation_word m d w gt value (find_gtlt_magic gt w value) base q)
    (linear (Z.to_nat (per_word w)) (q * per_word w) (fun i => relation gt (get m d w i) value) (fun i => qs_match (i + base))).
Proof.
  intros Hw Hw64 Hm Hq. unfold relation_word. rewrite word_index by done.
  destruct (_ && (value <=? _)) eqn:Eg; [|by apply find_gtlt_linear].
  destruct (Z.eqb_spec (Z.land (u64 (Z.shiftl (lower_bits w) (no0 w - 1))) (get_word m d q)) 0); [|by apply find_gtlt_linear].
  rewrite !andb_true_iff, negb_true_iff, Z.eqb_neq, !Z.leb_le in Eg. destruct gt.
  - apply find_gtlt_fast_linear; try done. rewrite half_mask in Eg by done. lia.
  - exfalso. rewrite less_guard in Eg by (done || lia). tauto.
Qed.

Lemma compare_relation_linear m d w gt value start end_ base : word_width w -> is_bytes m -> 0 <= start ->
  same (compare_relation m d w gt value start end_ base)
    (linear (Z.to_nat (end_ - start)) start (fun i => relation gt (get m d w i) value) (fun i => qs_match (i + base))).
Proof.
  intros Hw Hm Hs. pose proof (per_word_pos w Hw) as Hl.
  rewrite <- (aligned_then w start end_ _ _ (relation_words m d w gt value end_ base)); [|done|done|].
  - unfold compare_relation. apply and_then_proper; [|done]. apply linear_ext; [done|]. intros j _ _. apply value_same.
  - intros k Hk. unfold relation_words. destruct (_ || _) eqn:Ew; [|done].
    apply (words_then w k end_ _ _ _ (fun i => linear (Z.to_nat (end_ - i)) i _ _)); [done|nia|lia| |done].
    intros q Hq He. apply relation_word_linear; [done| |done|nia]. rewrite !orb_true_iff, !Z.eqb_eq in Ew. lia.
Qed.

Lemma compare_linear m d w c value start end_ base : word_width w -> is_bytes m -> 0 <= start -> fits w value -> c <> CondNone -> c <> NotNull ->
  same (compare m d w c value start end_ base)
    (linear (Z.to_nat (end_ - start)) start (fun i => cond_holds c (get m d w i) value) (fun i => qs_match (i + base))).
Proof.
  intros Hw Hm Hs Hf Hn Hnn. destruct c; cbn [compare]; try done; rewrite ?compare_equality_linear, ?compare_relation_linear by done;
    (apply linear_ext; [|done]; intros j _; cbn [cond_holds]; unfold relation; by destruct (get m d w j =? value)).
Qed.
End Relations.

(** ** Vectors *)

Section Vectors.
Context {St : Type} `{QueryStateSpec St} `{SseSpec}.

Definition vector_width (w : Z) : Prop := w = 8 \/ w = 16 \/ w = 32 \/ w = 64.

Lemma vector_word w : vector_width w -> word_width w.
Proof. unfold vector_width, word_width. lia. Qed.

Lemma group_width w : vector_width w -> exists g, w = 8 * g /\ 0 < g <= 8 /\ no0 w = w /\ 128 / w = 16 / g /\ g * (16 / g) = 16 /\ w * (128 / w) = 128.
Proof. intros [->|[->|[->| ->]]]; [exists 1|exists 2|exists 4|exists 8]; (split; [reflexivity|]); vm_compute; repeat split; done. Qed.

Lemma vector_elem m a w i j : vector_width w -> is_bytes m -> 0 <= i -> 0 <= j < 128 / w ->
  get_direct m a w (i * (128 / w) + j) = sext w (lane w j (get_vector m a i)).
Proof.
  intros Hw Hm Hi Hj. pose proof (width_pos w (vector_word w Hw)) as Hp. destruct (group_width w Hw) as (g & Eg & Hg & _ & _ & _ & Hn).
  rewrite (elem_bits m a w _ (lane w j (get_vector m a i))); [| by apply vector_word|done|nia|by apply lane_range|].
  - unfold signed_lane. destruct (Z.ltb_spec w 8); [|done]. destruct Hw as [->|[->|[->| ->]]]; lia.
  - intros b Hb. rewrite testbit_lane by lia. unfold get_vector. rewrite testbit_le_val by nia. rewrite u8_small by apply Hm. unfold tb.
    replace ((i * (128 / w) + j) * w + b) with (w * j + b + 16 * i * 8) by nia. rewrite Z.div_add, Z.mod_add by lia.
    do 2 f_equal. lia.
Qed.

(** The bits of the mask come in groups, one per element of the vector. *)
Lemma movemask_group w r rel j : vector_width w -> 0 <= j < 128 / w -> lane w j r = (if rel : bool then 2 ^ w - 1 else 0) ->
  forall b, 0 <= b < w / 8 -> Z.testbit (mm_movemask_epi8 r) (w / 8 * j + b) = rel.
Proof.
  intros Hw Hj E b Hb. destruct (group_width w Hw) as (g & Eg & Hg & _ & E128 & Hn & _). assert (Ew : w / 8 = g) by (rewrite Eg, Z.mul_comm; by apply Z.div_mul).
  rewrite Ew in *. rewrite movemask_spec by nia. replace (8 * (g * j + b) + 7) with (w * j + (8 * b + 7)) by nia.
  rewrite <- testbit_lane, E by nia. destruct rel; [|apply Z.bits_0].
  replace (2 ^ w - 1) with (Z.ones w) by (rewrite Z.ones_equiv; lia). apply Z.ones_spec_low. lia.
Qed.

Definition vector_mask (c : Cond) (resmask : Z) : Z := match c with NotEqual => Z.land (u32 (Z.lnot resmask)) 0x0000ffff | _ => resmask end.

Lemma vector_mask_spec c x j : 0 <= x < 2 ^ 16 -> 0 <= j < 16 ->
  Z.testbit (vector_mask c x) j = match c with NotEqual => negb (Z.testbit x j) | _ => Z.testbit x j end.
Proof.
  intros Hx Hj. destruct c; try done. cbn [vector_mask]. rewrite Z.land_spec. change 0xffff with (Z.ones 16). rewrite Z.ones_spec_low by lia.
  unfold u32. rewrite testbit_mod_pow2 by lia. destruct (Z.ltb_spec j 32); [|lia]. rewrite Z.lnot_spec by lia. apply andb_true_r.
Qed.

Lemma vector_mask_range c x : 0 <= x < 2 ^ 16 -> 0 <= vector_mask c x < 2 ^ 16.
Proof. intros Hx. destruct c; try done. apply land_range; lia. Qed.

Lemma fits_signed w v : vector_width w -> fits w v -> sext w (v mod 2 ^ w) = v.
Proof. intros [->|[->|[->| ->]]] Hf; rewrite sext_mod by lia; apply sext_id; unfold fits in Hf; cbn in Hf; lia. Qed.

(** The elements of a vector for which the instruction, and the condition, hold. *)
Lemma vector_compared c w x y j : c <> CondNone -> c <> NotNull -> 0 <= j < 128 / w ->
  exists rel : bool, lane w j (sse_compare c w x y) = (if rel then 2 ^ w - 1 else 0) /\
    cond_holds c (sext w (lane w j x)) (sext w (lane w j y)) = match c with NotEqual => negb rel | _ => rel end.
Proof.
  intros Hn Hnn Hj. destruct c; cbn [sse_compare]; try done;
    [destruct (cmpeq_spec w x y) as [_ E]|destruct (cmpeq_spec w x y) as [_ E]
    |destruct (cmpgt_spec w x y) as [_ E]|destruct (cmplt_spec w x y) as [_ E]];
    (eexists; split; [rewrite E by done; reflexivity|done]).
Qed.

Lemma sse_bits_walk w base fuel resmask s : vector_width w -> 0 <= resmask < 2 ^ 16 ->
  same (sse_bits fuel w base resmask s) (walk fuel (w / 8) (fun j => qs_match (j + base)) resmask s).
Proof.
  intros Hw. destruct (group_width w Hw) as (g & Eg & Hg & Hno & _). assert (Ew : w / 8 = g) by (rewrite Eg, Z.mul_comm; by apply Z.div_mul). rewrite Ew.
  revert resmask s. induction fuel as [|fuel IH]; intros resmask s Hr; [done|]. cbn [sse_bits walk]. destruct (Z.eqb_spec resmask 0); [done|].
  assert (Ef : first_set_bit resmask = first_set_bit64 resmask).
  { unfold first_set_bit64, u32. rewrite Z.mod_small by lia. destruct (Z.eqb_spec resmask 0); done. }
  rewrite Ef, Hno. replace (first_set_bit64 resmask * 8 / w) with (first_set_bit64 resmask / g) by (rewrite Eg, (Z.mul_comm 8 g), Z.div_mul_cancel_r; lia).
  set (t := first_set_bit64 resmask / g). replace ((t + 1) * w / 8) with ((t + 1) * g) by (rewrite Eg; replace ((t + 1) * (8 * g)) with ((t + 1) * g * 8) by lia; by rewrite Z.div_mul).
  assert (Ht : 0 <= t).
  { destruct (lowest_exists resmask ltac:(lia)) as (k & Hk & Hl). unfold t. rewrite (first_set_bit64_spec resmask k) by (done || lia). apply Z.div_pos; lia. }
  rewrite IH; [done|]. rewrite Z.shiftr_div_pow2 by nia. pose proof (Z.pow_pos_nonneg 2 ((t + 1) * g) ltac:(lia) ltac:(nia)).
  split; [apply Z.div_pos; lia|apply Z.div_lt_upper_bound; nia].
Qed.

Lemma walk_shift fuel g (act : Z -> search (St := St)) bits p k : same (walk fuel g act bits (p + k)) (walk fuel g (fun j => act (j + k)) bits p).
Proof.
  revert bits p. induction fuel as [|fuel IH]; intros bits p; [done|]. cbn [walk]. destruct (bits =? 0); [done|].
  replace (p + k + first_set_bit64 bits / g) with (p + first_set_bit64 bits / g + k) by lia. apply and_then_proper; [done|].
  rewrite <- IH. by replace (p + first_set_bit64 bits / g + k + 1) with (p + first_set_bit64 bits / g + 1 + k) by lia.
Qed.

(** One vector compared with another, lane by lane. *)
Lemma sse_vector_linear c w x y base s : vector_width w -> c <> CondNone -> c <> NotNull ->
  same (sse_bits 17 w base (vector_mask c (mm_movemask_epi8 (sse_compare c w x y))) s)
    (linear (Z.to_nat (128 / w)) s (fun j => cond_holds c (sext w (lane w (j - s) x)) (sext w (lane w (j - s) y))) (fun j => qs_match (j + base))).
Proof.
  intros Hw Hn Hnn. destruct (group_width w Hw) as (g & Eg & Hg & Hno & E128 & Hgn & Hwn).
  assert (Ew : w / 8 = g) by (rewrite Eg, Z.mul_comm; by apply Z.div_mul).
  set (R := mm_movemask_epi8 _). assert (HR : 0 <= R < 2 ^ 16) by apply movemask_range. pose proof (vector_mask_range c R HR) as HB. set (B := vector_mask c R) in *.
  rewrite <- (Z.add_0_l s) at 1. rewrite sse_bits_walk, walk_shift, Ew by done. rewrite <- (Z.shiftr_0_r B). replace 0 with (g * 0) at 1 by lia.
  rewrite (walk_linear g (128 / w)) by (lia || (rewrite E128, Hgn; done)). rewrite Z.sub_0_r.
  pose proof (linear_shift (Z.to_nat (128 / w)) 0 s (fun j => cond_holds c (sext w (lane w (j - s) x)) (sext w (lane w (j - s) y))) (fun j => qs_match (j + base))) as E.
  rewrite Z.add_0_l in E. rewrite <- E. apply linear_ext; [|done]. intros j Hj. replace (j + s - s) with j by lia.
  destruct (vector_compared c w x y j) as (rel & El & ->); [done..|lia|].
  pose proof (movemask_group w _ rel j Hw ltac:(lia) El) as Hbits. rewrite Ew in Hbits. fold R in Hbits.
  assert (Hb : forall b, 0 <= b < g -> Z.testbit B (g * j + b) = match c with NotEqual => negb rel | _ => rel end).
  { intros b Hb. unfold B. rewrite vector_mask_spec, Hbits by (done || nia). done. }
  destruct (match c with NotEqual => negb rel | _ => rel end).
  - rewrite negb_true_iff, Z.eqb_neq. apply (lane_bit g _ _ (g * j + 0)); [lia|lia|nia| |apply Hb; lia]. symmetry. apply (Zdiv_unique _ _ _ 0); lia.
  - rewrite negb_false_iff, Z.eqb_eq. apply lane_no_bits; [lia|lia|done].
Qed.

Lemma find_sse_vector c m w value data i base : vector_width w -> is_bytes m -> fits w value -> c <> CondNone -> c <> NotNull -> 0 <= i ->
  same (sse_bits 17 w base (vector_mask c (mm_movemask_epi8 (sse_compare c w (get_vector m data i) (mm_set1 w value)))) (i * 16 * 8 / no0 w))
    (linear (Z.to_nat (128 / w)) (i * (128 / w)) (fun j => cond_holds c (get_direct m data w j) value) (fun j => qs_match (j + base))).
Proof.
  intros Hw Hm Hf Hn Hnn Hi. destruct (group_width w Hw) as (g & Eg & Hg & Hno & E128 & Hgn & Hwn).
  replace (i * 16 * 8 / no0 w) with (i * (128 / w)) by (rewrite Hno; apply Z.div_unique_exact; [lia|nia]).
  rewrite sse_vector_linear by done. apply linear_ext; [|done]. intros j Hj. replace j with (i * (128 / w) + (j - i * (128 / w))) at 3 by lia.
  rewrite vector_elem by (done || lia). rewrite set1_spec, fits_signed by (done || lia). done.
Qed.

Lemma find_sse_linear c m w value data items base : vector_width w -> is_bytes m -> fits w value -> c <> CondNone -> c <> NotNull -> 0 <= items ->
  same (find_sse c m w value data items base)
    (linear (Z.to_nat (items * (128 / w))) 0 (fun j => cond_holds c (get_direct m data w j) value) (fun j => qs_match (j + base))).
Proof.
  intros Hw Hm Hf Hn Hnn Hi. destruct (group_width w Hw) as (g & Eg & Hg & Hno & E128 & Hgn & Hwn). unfold find_sse.
  assert (Hgen : forall n i, 0 <= i -> same (find_sse_intern n c w (get_vector m data) (mm_set1 w value) base i)
    (linear (Z.to_nat (Z.of_nat n * (128 / w))) (i * (128 / w)) (fun j => cond_holds c (get_direct m data w j) value) (fun j => qs_match (j + base)))).
  { induction n as [|n IH]; intros i Hi'; [done|]. cbn [find_sse_intern]. fold (vector_mask c (mm_movemask_epi8 (sse_compare c w (get_vector m data i) (mm_set1 w value)))).
    rewrite find_sse_vector, IH by (done || lia). replace (Z.to_nat (Z.of_nat (S n) * (128 / w))) with (Z.to_nat (128 / w) + Z.to_nat (Z.of_nat n * (128 / w)))%nat by nia.
    rewrite linear_app. by replace (i * (128 / w) + Z.of_nat (Z.to_nat (128 / w))) with ((i + 1) * (128 / w)) by nia. }
  rewrite Hgen by lia. by rewrite Z2Nat.id by lia.
Qed.
End Vectors.
