(* ===== verification/ArrayFindTheorems.v ===== *)
(** * Searching an integer array finds what a linear search finds *)

From S2P Require Import Prelude Bytes NodeHeader ArrayDirect ArrayBits Lanes ArrayFind ArrayFindInv ArrayFindRel.

(** ** The bounds of the width decide *)

Lemma can_match_sound c v1 v lo hi : lo <= v1 <= hi -> can_match c v lo hi = false -> cond_holds c v1 v = false.
Proof.
  intros Hb. destruct c; cbn [can_match cond_holds]; rewrite ?negb_false_iff, ?andb_false_iff, ?andb_true_iff, ?Z.leb_gt, ?Z.ltb_ge, ?Z.eqb_eq, ?Z.eqb_neq; try done; lia.
Qed.

Lemma will_match_sound c v1 v lo hi : lo <= v1 <= hi -> will_match c v lo hi = true -> cond_holds c v1 v = true.
Proof.
  intros Hb. destruct c; cbn [will_match cond_holds]; rewrite ?negb_true_iff, ?orb_true_iff, ?andb_true_iff, ?Z.leb_le, ?Z.ltb_lt, ?Z.eqb_eq, ?Z.eqb_neq; try done; lia.
Qed.

(** Undecided by the bounds, the value fits the width, which is not zero. *)
Lemma undecided c w v : valid_width w -> can_match c v (default 0 (lbound_for_width w)) (default 0 (ubound_for_width w)) = true ->
  will_match c v (default 0 (lbound_for_width w)) (default 0 (ubound_for_width w)) = false -> word_width w /\ fits w v /\ c <> CondNone /\ c <> NotNull.
Proof.
  intros Hw Hc Hwm. assert (Hcw : c <> CondNone /\ c <> NotNull) by (by destruct c).
  assert (Hb : default 0 (lbound_for_width w) <= v <= default 0 (ubound_for_width w) /\ w <> 0).
  { destruct c; cbn [can_match will_match] in *; rewrite ?negb_true_iff, ?orb_false_iff, ?andb_false_iff, ?andb_true_iff, ?Z.leb_le, ?Z.ltb_ge, ?Z.ltb_lt, ?Z.eqb_eq, ?Z.eqb_neq in *;
      (split; [lia|]; intros ->; cbn in *; lia) || tauto. }
  destruct Hb as [Hb Hne]. split_and!; [unfold valid_width, word_width in *; lia| |tauto..].
  width_cases Hw; done.
Qed.

Section Theorems.
Context {St : Type} `{QueryStateSpec St} `{SseSpec}.

(** Reporting everything stops at the limit, as a linear search does. *)
Lemma linear_limit n i base s : qs_match_count s < qs_limit s -> qs_limit s - qs_match_count s <= Z.of_nat n ->
  (linear n i (fun _ => true) (fun j => qs_match (j + base)) s).1 = false.
Proof.
  revert i s. induction n as [|n IH]; intros i s Hl Hn; [lia|]. cbn [linear report]. unfold and_then.
  pose proof (qs_counts (i + base) s) as Hc. pose proof (qs_keeps_limit (i + base) s) as Hk. pose proof (qs_stops (i + base) s) as Hst.
  destruct (qs_match (i + base) s) as [[] s'] eqn:E; [|done]. cbn [fst snd] in *. specialize (Hst eq_refl). apply IH; lia.
Qed.

Lemma find_all_will_match_linear start end_ base s : qs_match_count s < qs_limit s ->
  find_all_will_match start end_ base s = linear (Z.to_nat (end_ - start)) start (fun _ => true) (fun i => qs_match (i + base)) s.
Proof.
  intros Hl. unfold find_all_will_match. destruct (Z.ltb_spec (qs_limit s - qs_match_count s) (end_ - start)); [|done].
  set (p := qs_limit s - qs_match_count s) in *. rewrite (linear_split start (start + p) end_ (fun _ => true) (fun i => qs_match (i + base)) ltac:(lia) s).
  pose proof (linear_limit (Z.to_nat (start + p - start)) start base s Hl ltac:(lia)) as Hf. unfold and_then.
  destruct (linear _ start _ _ s) as [b s']. cbn in Hf. by rewrite Hf.
Qed.

Lemma get_direct_moved m d w k i j : word_width w -> is_bytes m -> 0 <= i -> 0 <= j -> k * 8 = i * w -> get_direct m (d + k) w j = get_direct m d w (i + j).
Proof.
  intros Hw Hm Hi Hj Hk. apply get_direct_tb; try done; [by apply word_valid|lia|]. intros b Hb. unfold tb.
  replace ((i + j) * w + b) with (j * w + b + k * 8) by lia. rewrite Z.div_add, Z.mod_add by lia. do 2 f_equal. lia.
Qed.

Lemma round_down_16 p : 0 <= p < 2 ^ 64 -> round_down p 16 = p - p mod 16.
Proof.
  intros Hp. unfold round_down. replace (u64 (Z.lnot (16 - 1))) with (Z.shiftl (Z.ones 60) 4) by reflexivity.
  replace (p - p mod 16) with (Z.shiftl (Z.shiftr p 4) 4) by (rewrite Z.shiftl_mul_pow2, Z.shiftr_div_pow2 by lia; change (2 ^ 4) with 16; pose proof (Z.div_mod p 16 ltac:(lia)); lia).
  apply Z.bits_inj'. intros b Hb. rewrite Z.land_spec. destruct (Z.lt_ge_cases b 4).
  - rewrite !Z.shiftl_spec_low by lia. apply andb_false_r.
  - rewrite !Z.shiftl_spec_high, Z.shiftr_spec by lia. replace (b - 4 + 4) with b by lia. destruct (Z.lt_ge_cases b 64).
    + rewrite Z.ones_spec_low by lia. apply andb_true_r.
    + rewrite (testbit_above p 64) by lia. done.
Qed.

(** An address that is a multiple of eight is the address of an element. *)
Lemma vector_index w addr a : vector_width w -> addr mod 8 = 0 -> a mod 8 = 0 -> exists i, (a - addr) * 8 / no0 w = i /\ i * w = (a - addr) * 8.
Proof.
  intros Hw Haddr Ha. eexists. split; [reflexivity|]. destruct (group_width w Hw) as (_ & _ & _ & -> & _).
  assert (E : (a - addr) * 8 mod w = 0) by (destruct Hw as [->|[->|[->| ->]]]; dlia). pose proof (Z.div_mod ((a - addr) * 8) w ltac:(intros ->; unfold vector_width in Hw; lia)). lia.
Qed.

(** The three parts of a search with vectors. *)
Lemma vector_parts c m d w value start end_ base addr : vector_width w -> is_bytes m -> fits w value -> c <> CondNone -> c <> NotNull ->
  0 <= start -> 16 <= end_ - start -> 0 <= addr -> addr mod 8 = 0 -> addr + end_ * w / 8 < 2 ^ 64 ->
  let a := round_up (addr + start * w / 8) 16 in
  let b := round_down (addr + end_ * w / 8) 16 in
  same (and_then (compare m d w c value start ((a - addr) * 8 / no0 w) base)
          (and_then (if a <? b then find_sse c m w value (d + (a - addr)) ((b - a) / 16) (base + (a - addr) * 8 / no0 w) else go_on)
             (compare m d w c value ((b - addr) * 8 / no0 w) end_ base)))
    (linear (Z.to_nat (end_ - start)) start (fun i => cond_holds c (get_direct m d w i) value) (fun i => qs_match (i + base))).
Proof.
  intros Hw Hm Hf Hn Hnn Hs Hlen Ha0 Ha8 Hmax a b. pose proof (vector_word w Hw) as Hww. destruct (group_width w Hw) as (g & Eg & Hg & Hno & E128 & Hgn & Hwn).
  assert (Hmul : forall i, i * w / 8 = i * g) by (intros i; rewrite Eg; replace (i * (8 * g)) with (i * g * 8) by lia; by apply Z.div_mul).
  subst a b. rewrite !Hmul in *. destruct (round_up_multiple (addr + start * g) 16 ltac:(nia) ltac:(lia)) as (k & -> & Hk).
  rewrite round_down_16 by nia. set (a := k * 16) in *. set (b := addr + end_ * g - (addr + end_ * g) mod 16).
  destruct (vector_index w addr a Hw Ha8 ltac:(unfold a; dlia)) as (ia & -> & Eia).
  assert (Hb16 : (b - a) / 16 * 16 = b - a) by (unfold a, b; dlia).
  destruct (vector_index w addr b Hw Ha8 ltac:(unfold b; dlia)) as (ib & -> & Eib). rewrite Eg in Eia, Eib.
  assert (Hse : start * g + 16 <= end_ * g) by nia. assert (Hab : a <= b) by (unfold a, b in *; dlia). assert (Hbe : b <= addr + end_ * g) by (unfold b; dlia).
  clearbody b. assert (Hi : start <= ia /\ ia <= ib /\ ib <= end_) by (clear -Eia Eib Hg Hk Hab Hbe; nia).
  rewrite !compare_linear by (done || lia).
  rewrite (linear_split start ia end_) by lia. apply and_then_proper; [done|]. rewrite (linear_split ia ib end_) by lia. apply and_then_proper; [|done].
  destruct (Z.ltb_spec a b); [|replace ib with ia by nia; by rewrite Z.sub_diag].
  rewrite find_sse_linear by (done || apply Z.div_pos; lia).
  replace ((b - a) / 16 * (128 / w)) with (ib - ia).
  - pose proof (linear_shift (Z.to_nat (ib - ia)) 0 ia (fun j => cond_holds c (get_direct m d w j) value) (fun j => qs_match (j + base))) as E.
    rewrite Z.add_0_l in E. unfold get. rewrite <- E. apply linear_ext.
    + intros j Hj. f_equal. rewrite (get_direct_moved m d w (a - addr) ia j) by (done || lia). f_equal. lia.
    + intros j Hj _. by replace (j + (base + ia)) with (j + ia + base) by lia.
  - rewrite E128. nia.
Qed.

(** Where the vectors are used. *)
Lemma vector_path c m d w value start end_ base addr sse_support : vector_width w -> is_bytes m -> fits w value -> c <> CondNone -> c <> NotNull ->
  0 <= start -> 16 <= end_ - start -> 0 <= addr -> addr mod 8 = 0 -> addr + end_ * w / 8 < 2 ^ 64 ->
  (0 <? sse_support) || ((0 <=? sse_support) && match c with Equal => w <? 64 | _ => false end) = true ->
  let a := round_up (addr + start * w / 8) 16 in
  let b := round_down (addr + end_ * w / 8) 16 in
  same (and_then (compare m d w c value start ((a - addr) * 8 / no0 w) base)
          (and_then
             (if a <? b then
                if 0 <? sse_support then find_sse c m w value (d + (a - addr)) ((b - a) / 16) (base + (a - addr) * 8 / no0 w)
                else if 0 <=? sse_support then find_sse Equal m w value (d + (a - addr)) ((b - a) / 16) (base + (a - addr) * 8 / no0 w)
                else go_on
              else go_on)
             (compare m d w c value ((b - addr) * 8 / no0 w) end_ base)))
    (find_reference m d w c value start end_ base).
Proof.
  intros Hw Hm Hf Hn Hnn Hs Hlen Ha Ha8 Hmax Hsse a b. unfold find_reference.
  rewrite <- (vector_parts c m d w value start end_ base addr) by done. fold a b. apply and_then_proper; [done|]. apply and_then_proper; [|done].
  destruct (a <? b); [|done]. destruct (0 <? sse_support); [done|]. destruct (0 <=? sse_support); [|done]. by destruct c.
Qed.

Lemma find_optimized_reference sse_support addr m d size c w value start end_ base s :
  valid_width w -> is_bytes m -> 0 <= start -> end_ = npos \/ end_ <= size ->
  0 <= addr -> addr mod 8 = 0 -> addr + size * w / 8 < 2 ^ 64 -> qs_match_count s < qs_limit s ->
  find_optimized sse_support addr m d size c w value start end_ base s =
  find_reference m d w c value start (if end_ =? npos then size else end_) base s.
Proof.
  intros Hw Hm Hs He Ha Ha8 Hmax Hl. unfold find_optimized. set (e := if end_ =? npos then size else end_).
  assert (Hes : e <= size) by (unfold e; destruct (Z.eqb_spec end_ npos); lia).
  destruct ((start <? size) && (start <? e)) eqn:Er; cbn [negb].
  2: { unfold find_reference. replace (Z.to_nat (e - start)) with 0%nat; [done|]. apply andb_false_iff in Er as [Er|Er]; apply Z.ltb_ge in Er; lia. }
  apply andb_true_iff in Er as [_ Er]. apply Z.ltb_lt in Er. assert (Hfit : forall i, start <= i -> default 0 (lbound_for_width w) <= get_direct m d w i <= default 0 (ubound_for_width w)).
  { intros i Hi. pose proof (get_direct_fits m d w i Hw ltac:(lia) Hm) as Hf. unfold fits in Hf. by destruct (lbound_for_width w), (ubound_for_width w). }
  destruct (can_match c value _ _) eqn:Ec; cbn [negb].
  2: { symmetry. apply linear_none. intros j Hj. apply (can_match_sound c _ _ _ _ (Hfit j ltac:(lia)) Ec). }
  destruct (will_match c value _ _) eqn:Ewm.
  { rewrite find_all_will_match_linear by done. apply linear_ext; [|done]. intros j Hj. symmetry. apply (will_match_sound c _ _ _ _ (Hfit j ltac:(lia)) Ewm). }
  destruct (undecided c w value Hw Ec Ewm) as (Hww & Hf & Hn & Hnn). destruct (_ && (_ || _)) eqn:Es.
  - rewrite !andb_true_iff, !Z.leb_le in Es. destruct Es as [[[_ Hlen] Hw8] Hsse].
    assert (Hv : vector_width w) by (unfold vector_width, word_width in *; lia).
    apply (vector_path c m d w value start e base addr sse_support); try done.
    apply Z.le_lt_trans with (addr + size * w / 8); [|done]. apply Z.add_le_mono_l, Z.div_le_mono; [lia|]. pose proof (width_pos w Hww). nia.
  - by apply compare_linear.
Qed.
(** Claim C17. Searching an integer array reports exactly the elements a linear search
    reports, in the same order and up to the same stop, for every condition, element
    width and range and with every level of vector instructions: [find_optimized] with
    its bounds check, word tricks and vectors equals [find_reference]. *)
Theorem find_correct sse_support addr m d size c w value start end_ base s :
  valid_width w -> is_bytes m -> 0 <= start -> end_ = npos \/ end_ <= size ->
  0 <= addr -> addr mod 8 = 0 -> addr + size * w / 8 < 2 ^ 64 -> qs_match_count s < qs_limit s ->
  find_optimized sse_support addr m d size c w value start end_ base s =
  find_reference m d w c value start (if end_ =? npos then size else end_) base s.
Proof. apply find_optimized_reference. Qed.
End Theorems.

(** ** The query states keep the rules *)

#[export] Instance count_state_spec : QueryStateSpec QueryStateCount.
Proof. split; try done. intros i s. cbn. rewrite Z.ltb_lt. done. Qed.

#[export] Instance all_state_spec : QueryStateSpec QueryStateFindAll.
Proof. split; try done. intros i s. cbn. rewrite Z.ltb_lt. done. Qed.

#[export] Instance first_state_spec : QueryStateSpec QueryStateFindFirst.
Proof. by split. Qed.

(** What a linear search leaves in each of them. *)

Lemma linear_first_state n i f base s :
  let r := linear n i f (fun j => qs_match (j + base)) s in
  (r = (true, s) /\ forall j, i <= j < i + Z.of_nat n -> f j = false) \/
  (exists j, i <= j < i + Z.of_nat n /\ f j = true /\ (forall k, i <= k < j -> f k = false) /\ r = (false, mkFirst (f_count s + 1) (j + base))).
Proof.
  revert i. induction n as [|n IH]; intros i; [left; split; [done|lia]|]. cbn [linear]. unfold and_then. destruct (f i) eqn:E; cbn [report].
  - right. exists i. split_and!; [lia|lia|done|lia|done].
  - cbn [go_on]. destruct (IH (i + 1)) as [(-> & Hno)|(j & Hj & Hf & Hno & ->)]; [left|right].
    + split; [done|]. intros j Hj. destruct (Z.eq_dec j i) as [->|]; [done|]. apply Hno. lia.
    + exists j. split_and!; [lia|lia|done| |done]. intros k Hk. destruct (Z.eq_dec k i) as [->|]; [done|]. apply Hno. lia.
Qed.

Lemma linear_all_state n i f base s : a_count s + Z.of_nat n < a_limit s ->
  exists k, a_count s <= k <= a_count s + Z.of_nat n /\
    linear n i f (fun j => qs_match (j + base)) s =
    (true, mkAll k (a_limit s) (m_keys s ++ map (fun j => j + base) (List.filter f (seqZ i (Z.of_nat n))))).
Proof.
  revert i s. induction n as [|n IH]; intros i s Hl; [exists (a_count s); cbn; rewrite app_nil_r; split; [lia|by destruct s]|].
  rewrite seqZ_cons by lia. replace (Z.pred (Z.of_nat (S n))) with (Z.of_nat n) by lia. replace (Z.succ i) with (i + 1) by lia.
  cbn [linear List.filter]. unfold and_then. destruct (f i) eqn:E; cbn [report go_on].
  - assert (Em : qs_match (i + base) s = (true, mkAll (a_count s + 1) (a_limit s) (m_keys s ++ [i + base]))).
    { cbn. by rewrite (proj2 (Z.ltb_lt (a_count s + 1) (a_limit s))) by lia. }
    rewrite Em.
    destruct (IH (i + 1) (mkAll (a_count s + 1) (a_limit s) (m_keys s ++ [i + base]))) as (k & Hk & ->); [cbn; lia|].
    exists k. cbn [a_count a_limit m_keys] in *. split; [lia|]. by rewrite <- app_assoc.
  - destruct (IH (i + 1) s ltac:(lia)) as (k & Hk & ->). exists k. split; [lia|done].
Qed.

Section Uses.
Context `{SseSpec}.

(** [Array::find_first] returns the first position in the range whose element
    satisfies the condition, and [not_found] when there is none. *)
Theorem array_find_first_correct sse_support addr m d size c w value start end_ :
  valid_width w -> is_bytes m -> 0 <= start <= size -> end_ = npos \/ end_ <= size -> size + 1 < npos ->
  0 <= addr -> addr mod 8 = 0 -> addr + size * w / 8 < 2 ^ 64 ->
  let r := array_find_first sse_support addr m d size c w value start end_ in
  let e := if end_ =? npos then size else end_ in
  let holds i := cond_holds c (get_direct m d w i) value in
  (r = npos /\ forall i, start <= i < e -> holds i = false) \/
  (start <= r < e /\ holds r = true /\ forall i, start <= i < r -> holds i = false).
Proof.
  intros Hw Hm Hs He Hn Ha Ha8 Hmax. cbv zeta. unfold array_find_first. set (e := if end_ =? npos then size else end_). destruct (Z.eqb_spec (end_ - start) 1) as [E1|].
  - assert (Ee : e = end_) by (unfold e; destruct (Z.eqb_spec end_ npos); lia). rewrite Ee.
    unfold get. destruct (cond_holds c (get_direct m d w start) value) eqn:E; [right|left].
    + split_and!; [lia|lia|done|lia].
    + split; [done|]. intros i Hi. by replace i with start by lia.
  - rewrite find_optimized_reference by (done || lia). fold e. unfold find_reference.
    destruct (linear_first_state (Z.to_nat (e - start)) start (fun i => cond_holds c (get_direct m d w i) value) 0 (mkFirst 0 npos))
      as [(-> & Hno)|(j & Hj & Hf & Hno & ->)]; [left|right]; cbn [snd m_state].
    + split; [done|]. intros i Hi. apply Hno. lia.
    + rewrite Z.add_0_r. split_and!; [lia|lia|done|done].
Qed.

(** [Array::find_all] appends to the result the positions of all elements of
    the range that equal the value, in order, each moved by the column offset. *)
Theorem find_all_correct sse_support addr m d size w value col_offset begin end_ result :
  valid_width w -> is_bytes m -> 0 <= begin -> end_ = npos \/ end_ <= size -> size < npos ->
  0 <= addr -> addr mod 8 = 0 -> addr + size * w / 8 < 2 ^ 64 ->
  find_all sse_support addr m d size w value col_offset begin end_ result =
  result ++ map (fun i => i + col_offset)
    (List.filter (fun i => get_direct m d w i =? value) (seqZ begin ((if end_ =? npos then size else end_) - begin))).
Proof.
  intros Hw Hm Hs He Hn Ha Ha8 Hmax. unfold find_all. set (e := if end_ =? npos then size else end_).
  assert (Hes : e <= size) by (unfold e; destruct (Z.eqb_spec end_ npos); lia).
  rewrite find_optimized_reference; [|done..|by right|done|done|done|done]. destruct (Z.eqb_spec e npos); [lia|]. unfold find_reference.
  destruct (linear_all_state (Z.to_nat (e - begin)) begin (fun i => cond_holds Equal (get_direct m d w i) value) col_offset (mkAll 0 (2 ^ 64 - 1) result))
    as (k & Hk & ->); [unfold npos in *; cbn; lia|]. cbn [snd m_keys cond_holds]. destruct (Z.lt_ge_cases begin e).
  - by rewrite Z2Nat.id by lia.
  - replace (Z.to_nat (e - begin)) with 0%nat by lia. by rewrite (seqZ_nil begin (e - begin)) by lia.
Qed.
End Uses.

(** ** A model of the vector instructions *)

(** The word with [n] lanes of [w] bits given by [f]. *)
Fixpoint pack (n : nat) (w : Z) (i : Z) (f : Z -> Z) : Z :=
  match n with O => 0 | S n => f i mod 2 ^ w + 2 ^ w * pack n w (i + 1) f end.

Lemma lane_pack n w i f j : 0 < w -> 0 <= j < Z.of_nat n -> lane w j (pack n w i f) = f (i + j) mod 2 ^ w.
Proof.
  intros Hw. revert i j. induction n as [|n IH]; intros i j Hj; [lia|]. cbn [pack]. pose proof (Z.mod_pos_bound (f i) (2 ^ w) ltac:(lia)).
  destruct (Z.eq_dec j 0) as [->|]; [rewrite lane_cons_0 by lia; by rewrite Z.add_0_r|].
  replace j with (j - 1 + 1) by lia. rewrite lane_cons_S, IH by lia. by replace (i + 1 + (j - 1)) with (i + (j - 1 + 1)) by lia.
Qed.

Lemma pack_range n w i f : 0 < w -> 0 <= pack n w i f < 2 ^ (w * Z.of_nat n).
Proof.
  intros Hw. revert i. induction n as [|n IH]; intros i; [change (Z.of_nat 0) with 0; rewrite Z.mul_0_r; cbn; lia|].
  rewrite pow_S by done. cbn [pack]. pose proof (Z.mod_pos_bound (f i) (2 ^ w) ltac:(lia)). specialize (IH (i + 1)). nia.
Qed.

Definition compare_lanes (rel : Z -> Z -> bool) (w a b : Z) : Z :=
  pack (Z.to_nat (128 / w)) w 0 (fun i => if rel (sext w (lane w i a)) (sext w (lane w i b)) then 2 ^ w - 1 else 0).

#[export] Instance lanes_sse : Sse := {
  mm_set1 w v := pack (Z.to_nat (128 / w)) w 0 (fun _ => v);
  mm_cmpeq := compare_lanes Z.eqb;
  mm_cmpgt := compare_lanes (fun x y => y <? x);
  mm_cmplt := compare_lanes Z.ltb;
  mm_movemask_epi8 x := pack 16 1 0 (fun j => Z.b2z (Z.testbit x (8 * j + 7))) }.

Lemma no_lanes w : w <= 0 -> 128 / w <= 0.
Proof.
  intros Hw. destruct (Z.eq_dec w 0) as [->|]; [done|]. pose proof (Z.div_mod 128 w ltac:(lia)). pose proof (Z.mod_neg_bound 128 w ltac:(lia)). nia.
Qed.

Lemma compare_lanes_spec rel w a b : lanes_compared rel w a b (compare_lanes rel w a b).
Proof.
  unfold lanes_compared, compare_lanes. destruct (Z.lt_ge_cases 0 w) as [Hw|Hw].
  - pose proof (Z.mul_div_le 128 w Hw) as Hd. pose proof (Z.div_pos 128 w ltac:(lia) Hw) as Hp. split.
    + pose proof (pack_range (Z.to_nat (128 / w)) w 0 (fun i => if rel (sext w (lane w i a)) (sext w (lane w i b)) then 2 ^ w - 1 else 0) Hw) as Hr.
      rewrite Z2Nat.id in Hr by lia. pose proof (Z.pow_le_mono_r 2 (w * (128 / w)) 128 ltac:(lia) Hd). lia.
    + intros i Hi. rewrite lane_pack by lia. rewrite Z.add_0_l. pose proof (Z.pow_pos_nonneg 2 w ltac:(lia) ltac:(lia)). destruct (rel _ _); apply Z.mod_small; lia.
  - pose proof (no_lanes w Hw). split; [|lia]. replace (Z.to_nat (128 / w)) with 0%nat by lia. done.
Qed.

#[export] Instance lanes_sse_spec : SseSpec.
Proof.
  split; try (intros; apply compare_lanes_spec).
  - intros w v i Hi. cbn [mm_set1 lanes_sse]. destruct (Z.lt_ge_cases 0 w) as [Hw|Hw]; [by rewrite lane_pack by lia|].
    pose proof (no_lanes w Hw). lia.
  - intros x. cbn [mm_movemask_epi8 lanes_sse]. by apply pack_range.
  - intros x j Hj. cbn [mm_movemask_epi8 lanes_sse]. set (f := fun j => Z.b2z (Z.testbit x (8 * j + 7))). pose proof (lane_pack 16 1 0 f j ltac:(lia) ltac:(lia)) as Hl.
    rewrite <- (Z.add_0_r j) at 1. replace (j + 0) with (1 * j + 0) by lia. rewrite <- (testbit_lane 1) by lia. rewrite Hl. unfold f.
    rewrite Z.add_0_l. by destruct (Z.testbit x (8 * j + 7)).
Qed.

(** ** Witnesses *)

Definition ramp : bytes := fun a => a mod 256.

Lemma ramp_bytes : is_bytes ramp.
Proof. intros a. by apply Z.mod_pos_bound. Qed.

Lemma find_correct_witness :
  find_optimized 1 40 ramp 3 60 Greater 8 7 2 npos 100 (mkAll 0 50 []) = find_reference ramp 3 8 Greater 7 2 60 100 (mkAll 0 50 []).
Proof. apply (find_correct 1 40 ramp 3 60 Greater 8 7 2 npos 100 (mkAll 0 50 [])); [unfold valid_width; lia|apply ramp_bytes|lia|by left|lia|done|vm_compute; reflexivity|vm_compute; reflexivity]. Defined.

Lemma array_find_first_correct_witness :
  array_find_first 0 40 ramp 3 60 Equal 8 40 2 npos = 37 /\
  (let r := array_find_first 0 40 ramp 3 60 Equal 8 40 2 npos in
   let e := if npos =? npos then 60 else npos in
   let holds i := cond_holds Equal (get_direct ramp 3 8 i) 40 in
   (r = npos /\ forall i, 2 <= i < e -> holds i = false) \/
   (2 <= r < e /\ holds r = true /\ forall i, 2 <= i < r -> holds i = false)).
Proof.
  split; [vm_compute; reflexivity|].
  apply (array_find_first_correct 0 40 ramp 3 60 Equal 8 40 2 npos); [unfold valid_width; lia|apply ramp_bytes|lia|by left|done|lia|done|vm_compute; reflexivity].
Defined.

Lemma find_all_correct_witness :
  find_all 1 40 ramp 3 300 8 6 1000 0 npos [7] =
  [7] ++ map (fun i => i + 1000) (List.filter (fun i => get_direct ramp 3 8 i =? 6) (seqZ 0 (300 - 0))).
Proof. apply (find_all_correct 1 40 ramp 3 300 8 6 1000 0 npos [7]); [unfold valid_width; lia|apply ramp_bytes|lia|by left|done|lia|done|vm_compute; reflexivity]. Defined.
