(* ===== verification/ArraySum.v ===== *)
(** * Sums and counts over integer arrays (array.cpp, utilities.cpp)

    [Array::sum] and [Array::count] add up and compare many elements of a word at once.
    As for the searches an array is its memory [m], the position [d] of its data and its
    width [w]; [addr] is the machine address of the data and the vector instructions are
    parameters with their documented meaning. *)

From S2P Require Import Prelude Bytes NodeHeader ArrayDirect ArrayBits Lanes ArrayFind.

(** ** Population counts *)

Definition a_popcount_bits : list Z := [
    0; 1; 1; 2; 1; 2; 2; 3; 1; 2; 2; 3; 2; 3; 3; 4; 1; 2; 2; 3; 2; 3; 3; 4; 2; 3; 3; 4; 3; 4; 4; 5; 1; 2; 2; 3; 2;
    3; 3; 4; 2; 3; 3; 4; 3; 4; 4; 5; 2; 3; 3; 4; 3; 4; 4; 5; 3; 4; 4; 5; 4; 5; 5; 6; 1; 2; 2; 3; 2; 3; 3; 4; 2; 3;
    3; 4; 3; 4; 4; 5; 2; 3; 3; 4; 3; 4; 4; 5; 3; 4; 4; 5; 4; 5; 5; 6; 2; 3; 3; 4; 3; 4; 4; 5; 3; 4; 4; 5; 4; 5; 5;
    6; 3; 4; 4; 5; 4; 5; 5; 6; 4; 5; 5; 6; 5; 6; 6; 7; 1; 2; 2; 3; 2; 3; 3; 4; 2; 3; 3; 4; 3; 4; 4; 5; 2; 3; 3; 4;
    3; 4; 4; 5; 3; 4; 4; 5; 4; 5; 5; 6; 2; 3; 3; 4; 3; 4; 4; 5; 3; 4; 4; 5; 4; 5; 5; 6; 3; 4; 4; 5; 4; 5; 5; 6; 4;
    5; 5; 6; 5; 6; 6; 7; 2; 3; 3; 4; 3; 4; 4; 5; 3; 4; 4; 5; 4; 5; 5; 6; 3; 4; 4; 5; 4; 5; 5; 6; 4; 5; 5; 6; 5; 6;
    6; 7; 3; 4; 4; 5; 4; 5; 5; 6; 4; 5; 5; 6; 5; 6; 6; 7; 4; 5; 5; 6; 5; 6; 6; 7; 5; 6; 6; 7; 6; 7; 7; 8].

Definition popcount_byte (x : Z) : Z := nth (Z.to_nat (Z.land 255 x)) a_popcount_bits 0.

Definition fast_popcount32 (x : Z) : Z :=
  popcount_byte x + popcount_byte (Z.shiftr x 8) + popcount_byte (Z.shiftr x 16) + popcount_byte (Z.shiftr x 24).

Definition fast_popcount64 (x : Z) : Z := fast_popcount32 (sext 32 x) + fast_popcount32 (sext 32 (Z.shiftr x 32)).

Definition m1 : Z := 0x5555555555555555.
Definition m2 : Z := 0x3333333333333333.
Definition m4 : Z := 0x0f0f0f0f0f0f0f0f.
Definition h01 : Z := 0x0101010101010101.

(** The steps of the parallel count: pairs, nibbles, bytes, and the sum of the bytes. *)
Definition fold2 (a : Z) : Z := u64 (Z.land a m2 + Z.land (Z.shiftr a 2) m2).
Definition fold4 (a : Z) : Z := Z.land (u64 (a + Z.shiftr a 4)) m4.
Definition fold8 (a : Z) : Z := Z.shiftr (u64 (a * h01)) 56.

(** ** Array::sum *)

Class SseSum := {
  mm_cvt : Z -> Z -> Z;
  mm_srli_si128 : Z -> Z -> Z;
  mm_add : Z -> Z -> Z -> Z }.

(** [_mm_cvtepi<w>_epi<2w>] extends the lower lanes, [_mm_srli_si128] shifts by bytes,
    [_mm_add_epi<w>] adds lane by lane, each lane by itself. *)
Class SseSumSpec `{SseSum} := {
  cvt_spec : forall w x i, 0 <= i < 128 / (2 * w) -> lane (2 * w) i (mm_cvt w x) = sext w (lane w i x) mod 2 ^ (2 * w);
  srli_spec : forall x n, 0 <= x < 2 ^ 128 -> 0 <= n -> mm_srli_si128 x n = Z.shiftr x (8 * n);
  add_spec : forall w a b i, 0 <= i < 128 / w -> lane w i (mm_add w a b) = (lane w i a + lane w i b) mod 2 ^ w;
  cvt_range : forall w x, 0 <= mm_cvt w x < 2 ^ 128;
  add_range : forall w a b, 0 <= mm_add w a b < 2 ^ 128 }.

Section Sum.
Context `{SseSum} (m : bytes) (d addr : Z).

(** [for (; start < end && unaligned; start++) s += get(start)]: the sum and [start]. *)
Fixpoint sum_unaligned (n : nat) (w start s : Z) : Z * Z :=
  match n with
  | O => (start, s)
  | S n =>
      if negb ((Z.land addr 0xf * 8 + start * w) mod 128 =? 0)
      then sum_unaligned n w (start + 1) (s64 (s + get_direct m d w start)) else (start, s)
  end.

Fixpoint sum_elems (n : nat) (w start s : Z) : Z :=
  match n with O => s | S n => sum_elems n w (start + 1) (s64 (s + get_direct m d w start)) end.

Definition sum_word (w a : Z) : Z :=
  if w =? 1 then fast_popcount64 (s64 a)
  else if w =? 2 then fold8 (fold4 (fold2 a))
  else fold8 (u64 (Z.land a m4 + Z.land (Z.shiftr a 4) m4)).

(** The words [t] onwards of the data at [data]. *)
Fixpoint sum_words (n : nat) (w data t s : Z) : Z :=
  match n with O => s | S n => sum_words n w data (t + 1) (s64 (s + sum_word w (get_word m data t))) end.

Definition sum_vector (w v sum_result : Z) : Z :=
  if w =? 8 then
    let vl := mm_cvt 8 v in
    let vh := mm_cvt 8 (mm_srli_si128 v 8) in
    let sum1 := mm_add 16 vl vh in
    let sumH := mm_cvt 16 sum1 in
    let sumL := mm_cvt 16 (mm_srli_si128 sum1 8) in
    mm_add 32 (mm_add 32 sum_result sumL) sumH
  else if w =? 16 then
    let vl := mm_cvt 16 v in
    let vh := mm_cvt 16 (mm_srli_si128 v 8) in
    mm_add 32 (mm_add 32 sum_result vl) vh
  else
    let v0 := mm_cvt 32 v in
    let v1 := mm_cvt 32 (mm_srli_si128 v 8) in
    mm_add 64 (mm_add 64 sum_result v0) v1.

Fixpoint sum_vectors (n : nat) (w data t sum_result : Z) : Z :=
  match n with O => sum_result | S n => sum_vectors n w data (t + 1) (sum_vector w (get_vector m data t) sum_result) end.

(** The lanes of the vector added to [s]. *)
Fixpoint sum_lanes (n : nat) (w sum2 t s : Z) : Z :=
  match n with O => s | S n => sum_lanes n w sum2 (t + 1) (s64 (s + sext w (lane w t sum2))) end.

Definition sum (sse_support size w start end_ : Z) : Z :=
  let end_ := if end_ =? npos then size else end_ in
  if (w =? 0) || (start =? end_) then 0
  else
    let '(start, s) := sum_unaligned (Z.to_nat (end_ - start)) w start 0 in
    let '(start, s) :=
      if (w =? 1) || (w =? 2) || (w =? 4) then
        let chunks := (end_ - start) * w / 8 / 8 in
        (start + 8 * 8 / no0 w * chunks, sum_words (Z.to_nat chunks) w (d + start * w / 8) 0 s)
      else (start, s) in
    let '(start, s) :=
      if (0 <? sse_support) && ((w =? 8) || (w =? 16) || (w =? 32)) && (16 * 8 / no0 w <? end_ - start) then
        let chunks := (end_ - start) * w / 8 / 16 in
        let sum2 := sum_vectors (Z.to_nat chunks) w (d + start * w / 8) 0 0 in
        let lw := if (w =? 8) || (w =? 16) then 32 else 64 in
        (start + 16 * 8 / no0 w * chunks, sum_lanes (Z.to_nat (128 / lw)) lw sum2 0 s)
      else (start, s) in
    sum_elems (Z.to_nat (end_ - start)) w start s.
End Sum.

(** ** Array::count *)

(** [~0ULL / (2^w - 1) * v]. *)
Definition segments (w v : Z) : Z := u64 ((2 ^ 64 - 1) / (2 ^ w - 1) * u64 v).

(** [a |= (a >> s) & c]. *)
Definition cascade_step (s c a : Z) : Z := Z.lor a (Z.land (Z.shiftr a s) c).

(** The number of elements of the word [a] that equal [value]. *)
Definition count_word (w value a : Z) : Z :=
  if w =? 1 then
    let a := if value =? 0 then not64 a else a in
    let a := u64 (a - Z.land (Z.shiftr a 1) m1) in
    fold8 (fold4 (fold2 a))
  else if w =? 2 then
    let v := segments 2 value in
    let c1 := segments 2 0x1 in
    let a := Z.lxor a v in
    let a := cascade_step 1 c1 a in
    let a := Z.land a m1 in
    let a := Z.lxor a m1 in
    fold8 (fold4 (fold2 a))
  else if w =? 4 then
    let v := segments 4 value in
    let m := segments 4 0x1 in
    let c1 := segments 4 0x7 in
    let c2 := segments 4 0x3 in
    let a := Z.lxor a v in
    let a := cascade_step 1 c1 a in
    let a := cascade_step 2 c2 a in
    let a := Z.land a m in
    let a := Z.lxor a m in
    fold8 (fold4 a)
  else if w =? 8 then
    let v := segments 8 value in
    let m := segments 8 0x1 in
    let c1 := segments 8 0x7F in
    let c2 := segments 8 0x3F in
    let c3 := segments 8 0x0F in
    let a := Z.lxor a v in
    let a := cascade_step 1 c1 a in
    let a := cascade_step 2 c2 a in
    let a := cascade_step 4 c3 a in
    let a := Z.land a m in
    let a := Z.lxor a m in
    fold8 a
  else
    let v := segments 16 value in
    let m := segments 16 0x1 in
    let c1 := segments 16 0x7FFF in
    let c2 := segments 16 0x3FFF in
    let c3 := segments 16 0x0FFF in
    let c4 := segments 16 0x00FF in
    let a := Z.lxor a v in
    let a := cascade_step 1 c1 a in
    let a := cascade_step 2 c2 a in
    let a := cascade_step 4 c3 a in
    let a := cascade_step 8 c4 a in
    let a := Z.land a m in
    let a := Z.lxor a m in
    fold8 a.

Section Count.
Context (m : bytes) (d : Z).

Fixpoint count_words (n : nat) (w value t value_count : Z) : Z :=
  match n with O => value_count | S n => count_words n w value (t + 1) (value_count + count_word w value (get_word m d t)) end.

(** [for (; i < end; ++i) if (f(i)) ++value_count]. *)
Fixpoint count_elems (n : nat) (f : Z -> bool) (i value_count : Z) : Z :=
  match n with O => value_count | S n => count_elems n f (i + 1) (if f i then value_count + 1 else value_count) end.

Definition count (size w value : Z) : Z :=
  let chunkvals := 64 / no0 w in
  let by_words :=
    let n := size / chunkvals in
    count_elems (Z.to_nat (size - n * chunkvals)) (fun i => value =? get_direct m d w i) (n * chunkvals) (count_words (Z.to_nat n) w value 0 0) in
  if w =? 0 then (if value =? 0 then size else 0)
  else if w =? 1 then (if 1 <? u64 value then 0 else by_words)
  else if w =? 2 then (if 3 <? u64 value then 0 else by_words)
  else if w =? 4 then (if 15 <? u64 value then 0 else by_words)
  else if w =? 8 then (if (0x7F <? value) || (value <? -0x80) then 0 else by_words)
  else if w =? 16 then (if (0x7FFF <? value) || (value <? -0x8000) then 0 else by_words)
  else if w =? 32 then count_elems (Z.to_nat size) (fun i => get_direct m d w i =? sext 32 value) 0 0
  else count_elems (Z.to_nat size) (fun i => get_direct m d w i =? value) 0 0.
End Count.
