(* ===== verification/ArraySumTheorems.v ===== *)
(** * Sums and counts of integer arrays: lemmas on words, and the theorems *)

From S2P Require Import Prelude Bytes NodeHeader ArrayDirect ArrayBits Lanes ArrayFind ArrayFindInv ArrayFindRel ArraySum ArrayFindTheorems.

(** ** Finite sums *)

(** [f i + f (i + 1) + ...], [n] terms. *)
Fixpoint sigma (n : nat) (i : Z) (f : Z -> Z) : Z := match n with O => 0 | S n => f i + sigma n (i + 1) f end.

Lemma sigma_ext n i f g : (forall j, i <= j < i + Z.of_nat n -> f j = g j) -> sigma n i f = sigma n i g.
Proof.
  revert i. induction n as [|n IH]; intros i H; [done|]. cbn [sigma]. rewrite (H i), (IH (i + 1)) by (lia || intros; apply H; lia). done.
Qed.

Lemma sigma_app a b i f : sigma (a + b) i f = sigma a i f + sigma b (i + Z.of_nat a) f.
Proof.
  revert i. induction a as [|a IH]; intros i; [cbn; by rewrite Z.add_0_r|]. cbn [Nat.add sigma]. rewrite IH.
  replace (i + 1 + Z.of_nat a) with (i + Z.of_nat (S a)) by lia. lia.
Qed.

Lemma sigma_shift n i k f : sigma n (i + k) f = sigma n i (fun j => f (j + k)).
Proof. revert i. induction n as [|n IH]; intros i; [done|]. cbn [sigma]. rewrite <- IH. by replace (i + 1 + k) with (i + k + 1) by lia. Qed.

(** Two neighbours at a time. *)
Lemma sigma_pairs n i f : sigma (2 * n) (2 * i) f = sigma n i (fun j => f (2 * j) + f (2 * j + 1)).
Proof.
  revert i. induction n as [|n IH]; intros i; [done|]. replace (2 * S n)%nat with (S (S (2 * n))) by lia. cbn [sigma].
  replace (2 * i + 1 + 1) with (2 * (i + 1)) by lia. rewrite IH. lia.
Qed.

Lemma sigma_bound n i f lo hi : (forall j, i <= j < i + Z.of_nat n -> lo <= f j <= hi) -> Z.of_nat n * lo <= sigma n i f <= Z.of_nat n * hi.
Proof.
  revert i. induction n as [|n IH]; intros i H; [cbn; lia|]. cbn [sigma]. pose proof (H i ltac:(lia)). specialize (IH (i + 1) ltac:(intros; apply H; lia)). lia.
Qed.

Definition lsum (n : nat) (w a : Z) : Z := sigma n 0 (fun i => lane w i a).

(** ** Bitwise operations lane by lane *)

Section Lane.
Context (w : Z) (Hw : 0 < w).

Lemma lane_bitwise (op : Z -> Z -> Z) (bop : bool -> bool -> bool) i x y :
  (forall a b k, 0 <= k -> Z.testbit (op a b) k = bop (Z.testbit a k) (Z.testbit b k)) -> bop false false = false -> 0 <= i ->
  lane w i (op x y) = op (lane w i x) (lane w i y).
Proof.
  intros Hop Hff Hi. apply Z.bits_inj'. intros b Hb. rewrite Hop by done. destruct (Z.lt_ge_cases b w).
  - rewrite !testbit_lane, Hop by lia. done.
  - rewrite !(testbit_above _ w) by (try (apply lane_range; lia); lia). done.
Qed.

Lemma lane_land i x y : 0 <= i -> lane w i (Z.land x y) = Z.land (lane w i x) (lane w i y).
Proof. apply (lane_bitwise Z.land andb); [|done]. intros. apply Z.land_spec. Qed.

Lemma lane_lor i x y : 0 <= i -> lane w i (Z.lor x y) = Z.lor (lane w i x) (lane w i y).
Proof. apply (lane_bitwise Z.lor orb); [|done]. intros. apply Z.lor_spec. Qed.

(** The lower half of a double lane. *)
Lemma lane_double i x : 0 <= i -> lane (2 * w) i x mod 2 ^ w = lane w (2 * i) x.
Proof.
  intros Hi. unfold lane. replace (2 * w * i) with (w * (2 * i)) by lia. apply Z.mod_mod_divide. exists (2 ^ w). rewrite <- Z.pow_add_r by lia. f_equal. lia.
Qed.

Lemma lane_split i x : 0 <= i -> lane (2 * w) i x = lane w (2 * i) x + 2 ^ w * lane w (2 * i + 1) x.
Proof.
  intros Hi. unfold lane. replace (2 * w * i) with (w * (2 * i)) by lia. replace (w * (2 * i + 1)) with (w * (2 * i) + w) by lia.
  rewrite (Z.pow_add_r 2 (w * (2 * i)) w), <- Z.div_div by nia. replace (2 ^ (2 * w)) with (2 ^ w * 2 ^ w) by (rewrite <- Z.pow_add_r by lia; f_equal; lia).
  apply Z.rem_mul_r; lia.
Qed.

(** Neighbours added into double lanes. *)
Lemma lane_land_half n i x : 0 <= i < Z.of_nat n -> lane (2 * w) i (Z.land x (rep n (2 * w) * (2 ^ w - 1))) = lane w (2 * i) x.
Proof.
  intros Hi. assert (Hlt : 2 ^ w <= 2 ^ (2 * w)) by (apply Z.pow_le_mono_r; lia).
  rewrite <- lane_double by lia. rewrite <- (Z.land_ones _ w) by lia. rewrite Z.ones_equiv, <- Z.sub_1_r.
  replace (Z.land (lane (2 * w) i x) (2 ^ w - 1)) with (Z.land (lane (2 * w) i x) (lane (2 * w) i (rep n (2 * w) * (2 ^ w - 1)))) by (by rewrite lane_rep by lia).
  apply Z.bits_inj'. intros b Hb. rewrite Z.land_spec. destruct (Z.lt_ge_cases b (2 * w)).
  - rewrite !testbit_lane, Z.land_spec by lia. done.
  - rewrite !(testbit_above _ (2 * w)) by (try (apply lane_range; lia); lia). done.
Qed.

Lemma lane_pairs n i x : 0 <= i < Z.of_nat n ->
  lane (2 * w) i (Z.land x (rep n (2 * w) * (2 ^ w - 1)) + Z.land (Z.shiftr x w) (rep n (2 * w) * (2 ^ w - 1))) =
  lane w (2 * i) x + lane w (2 * i + 1) x.
Proof.
  intros Hi. assert (Hs : forall j, 0 <= j < Z.of_nat n -> lane w (2 * j) (Z.shiftr x w) = lane w (2 * j + 1) x).
  { intros j Hj. rewrite <- (Z.mul_1_r w) at 2. apply lane_shiftr; lia. }
  assert (Hp : 2 ^ (2 * w) = 2 ^ w * 2 ^ w) by (rewrite <- Z.pow_add_r by lia; f_equal; lia). assert (2 <= 2 ^ w) by (replace 2 with (2 ^ 1) at 1 by done; apply Z.pow_le_mono_r; lia).
  rewrite (lane_add (2 * w) ltac:(lia) n) by (lia || intros j Hj; rewrite !lane_land_half, Hs by lia; pose proof (lane_range w Hw (2 * j) x); pose proof (lane_range w Hw (2 * j + 1) x); nia).
  by rewrite !lane_land_half, Hs by lia.
Qed.

(** Neighbours added first and cut out afterwards, when no sum leaves its lane. *)
Lemma lane_pairs_late n i x : 0 <= i < Z.of_nat n -> 0 <= x < 2 ^ (w * (2 * Z.of_nat n)) -> (forall j, 0 <= j < 2 * Z.of_nat n -> 2 * lane w j x < 2 ^ w) ->
  lane (2 * w) i (Z.land (x + Z.shiftr x w) (rep n (2 * w) * (2 ^ w - 1))) = lane w (2 * i) x + lane w (2 * i + 1) x.
Proof.
  intros Hi Hx Hb. rewrite lane_land_half by done. assert (Hs : forall j, 0 <= j -> lane w j (Z.shiftr x w) = lane w (j + 1) x).
  { intros j Hj. rewrite <- (Z.mul_1_r w) at 2. by apply lane_shiftr; lia. }
  assert (Hb' : forall j, 0 <= j -> 2 * lane w j x < 2 ^ w).
  { intros j Hj. destruct (Z.lt_ge_cases j (2 * Z.of_nat n)); [apply Hb; lia|]. rewrite (lane_above w Hw (2 * n)); [lia| |lia].
    by replace (w * Z.of_nat (2 * n)) with (w * (2 * Z.of_nat n)) by lia. }
  rewrite (lane_add w Hw (2 * n)), Hs by (lia || intros j Hj; rewrite Hs by lia; pose proof (Hb' j ltac:(lia)); pose proof (Hb' (j + 1) ltac:(lia)); lia). done.
Qed.
End Lane.

(** ** The folds *)

Lemma lsum_pairs n w a b : 0 < w -> (forall i, 0 <= i < Z.of_nat n -> lane (2 * w) i b = lane w (2 * i) a + lane w (2 * i + 1) a) -> lsum n (2 * w) b = lsum (2 * n) w a.
Proof. intros Hw H. unfold lsum. change 0 with (2 * 0) at 2. rewrite sigma_pairs. apply sigma_ext. intros j Hj. apply H. lia. Qed.

Lemma fold2_lane a i : 0 <= i < 16 -> lane 4 i (fold2 a) = lane 2 (2 * i) a + lane 2 (2 * i + 1) a.
Proof.
  intros Hi. unfold fold2. rewrite lane_u64 by (unfold word_width, per_word; lia || (change (64 / 4) with 16; lia)).
  apply (lane_pairs 2 ltac:(lia) 16 i a). lia.
Qed.

Lemma fold4_lane a i : 0 <= i < 8 -> 0 <= a < 2 ^ 64 -> (forall j, 0 <= j < 16 -> lane 4 j a <= 7) -> lane 8 i (fold4 a) = lane 4 (2 * i) a + lane 4 (2 * i + 1) a.
Proof.
  intros Hi Ha Hb. unfold fold4. rewrite <- (lane_pairs_late 4 ltac:(lia) 8 i a) by (lia || intros j Hj; specialize (Hb j); lia).
  change (2 * 4) with 8. rewrite !lane_land by lia. f_equal. apply lane_u64; [unfold word_width; lia|change (per_word 8) with 8; lia].
Qed.

(** Multiplied by ones, each lane holds the sum of the lanes up to it. *)
Lemma lane_partial_sums w n a : 0 < w -> (forall k, (k <= n)%nat -> lsum k w a < 2 ^ w) ->
  forall k, (k < n)%nat -> lane w (Z.of_nat k) (a * rep n w) = lsum (S k) w a.
Proof.
  intros Hw. assert (HS : forall k, lsum (S k) w a = lane w (Z.of_nat k) a + lsum k w a).
  { intros k. unfold lsum. rewrite <- Nat.add_1_r, sigma_app. cbn [sigma]. rewrite Z.add_0_l. lia. }
  induction n as [|n IH]; intros Hb k Hk; [lia|]. assert (Hl : forall j, 0 <= j < Z.of_nat (S n) -> lane w j (2 ^ w * (a * rep n w)) = lsum (Z.to_nat j) w a).
  { intros j Hj. destruct (Z.eq_dec j 0) as [->|]; [rewrite <- (Z.add_0_l (2 ^ w * _)); by rewrite lane_cons_0 by lia|].
    replace j with (j - 1 + 1) at 1 by lia. rewrite <- (Z.add_0_l (2 ^ w * _)), lane_cons_S by lia. replace (j - 1) with (Z.of_nat (Z.to_nat (j - 1))) by lia.
    rewrite IH by (lia || intros; apply Hb; lia). f_equal. lia. }
  cbn [rep]. replace (a * (1 + 2 ^ w * rep n w)) with (a + 2 ^ w * (a * rep n w)) by lia.
  rewrite (lane_add w Hw (S n)), Hl, HS, Nat2Z.id; [done|lia| |lia].
  intros j Hj. rewrite Hl by lia. pose proof (Hb (S (Z.to_nat j)) ltac:(lia)) as Hj'. rewrite HS, Z2Nat.id in Hj' by lia. lia.
Qed.

Lemma lsum_mono n k w a : 0 < w -> (k <= n)%nat -> 0 <= lsum k w a <= lsum n w a.
Proof.
  intros Hw Hk. unfold lsum. replace n with (k + (n - k))%nat by lia. rewrite sigma_app.
  assert (Hp : forall m i, 0 <= sigma m i (fun i => lane w i a)).
  { intros m i. pose proof (sigma_bound m i (fun i => lane w i a) 0 (2 ^ w) ltac:(intros j _; pose proof (lane_range w Hw j a); lia)). lia. }
  pose proof (Hp k 0). pose proof (Hp (n - k)%nat (0 + Z.of_nat k)). lia.
Qed.

(** Multiplying by [h01] adds the bytes up in the top one. *)
Lemma fold8_sum a : lsum 8 8 a < 256 -> fold8 a = lsum 8 8 a.
Proof.
  intros Hs. unfold fold8. rewrite Z.shiftr_div_pow2 by lia. rewrite <- (lane_partial_sums 8 8 a ltac:(lia)) by (lia || intros k Hk; pose proof (lsum_mono 8 k 8 a ltac:(lia) Hk); lia).
  change (rep 8 8) with h01. rewrite <- (lane_u64 8) by (unfold word_width; lia || (change (per_word 8) with 8; lia)). unfold lane. symmetry. apply Z.mod_small.
  unfold u64. pose proof (Z.mod_pos_bound (a * h01) (2 ^ 64) ltac:(lia)). split; [apply Z.div_pos; lia|apply Z.div_lt_upper_bound; lia].
Qed.

(** A bound on the lanes bounds their sum. *)
Lemma lsum_bound n w a hi : 0 < w -> (forall i, 0 <= i < Z.of_nat n -> lane w i a <= hi) -> lsum n w a <= Z.of_nat n * hi.
Proof. intros Hw H. apply (sigma_bound n 0 _ 0 hi). intros j Hj. pose proof (lane_range w Hw j a). specialize (H j ltac:(lia)). lia. Qed.

Lemma fold2_range a : 0 <= fold2 a < 2 ^ 64.
Proof. unfold fold2, u64. apply Z.mod_pos_bound. lia. Qed.

Lemma fold4_sum a : 0 <= a < 2 ^ 64 -> (forall j, 0 <= j < 16 -> lane 4 j a <= 7) -> fold8 (fold4 a) = lsum 16 4 a.
Proof.
  intros Ha Hb. assert (E : lsum 8 8 (fold4 a) = lsum 16 4 a) by (apply (lsum_pairs 8 4); [lia|]; intros i Hi; by apply fold4_lane).
  rewrite fold8_sum, E; [done|]. rewrite E. pose proof (lsum_bound 16 4 a 7 ltac:(lia) Hb). lia.
Qed.

Lemma fold2_sum a : fold8 (fold4 (fold2 a)) = lsum 32 2 a.
Proof.
  rewrite fold4_sum; [|apply fold2_range|].
  - apply (lsum_pairs 16 2); [lia|]. intros i Hi. by apply fold2_lane.
  - intros j Hj. rewrite fold2_lane by done. pose proof (lane_range 2 ltac:(lia) (2 * j) a). pose proof (lane_range 2 ltac:(lia) (2 * j + 1) a). lia.
Qed.

(** The first step on single bits. *)
Lemma fold1_sum a : 0 <= a < 2 ^ 64 -> fold8 (fold4 (fold2 (u64 (a - Z.land (Z.shiftr a 1) m1)))) = lsum 64 1 a.
Proof.
  intros Ha. rewrite fold2_sum. apply (lsum_pairs 32 1); [lia|]. intros i Hi. change (2 * 1) with 2.
  rewrite (lane_u64 2) by (unfold word_width; lia || (change (per_word 2) with 32; lia)).
  assert (Hl : forall j, 0 <= j < 32 -> lane 2 j (Z.land (Z.shiftr a 1) m1) = lane 1 (2 * j + 1) a).
  { intros j Hj. rewrite <- (lane_shiftr 1) by lia. apply (lane_land_half 1 ltac:(lia) 32 j (Z.shiftr a 1)). lia. }
  assert (Hs : forall j, 0 <= j -> lane 2 j a = lane 1 (2 * j) a + 2 ^ 1 * lane 1 (2 * j + 1) a) by (intros j Hj; by apply (lane_split 1)).
  rewrite (lane_sub 2 ltac:(lia) 32), Hl, Hs by (lia || intros j Hj; rewrite Hl, Hs by lia; pose proof (lane_range 1 ltac:(lia) (2 * j) a); pose proof (lane_range 1 ltac:(lia) (2 * j + 1) a); lia).
  lia.
Qed.

Lemma fold_nibbles a : fold8 (u64 (Z.land a m4 + Z.land (Z.shiftr a 4) m4)) = lsum 16 4 a.
Proof.
  set (b := u64 _). assert (Hl : forall i, 0 <= i < 8 -> lane 8 i b = lane 4 (2 * i) a + lane 4 (2 * i + 1) a).
  { intros i Hi. unfold b. rewrite (lane_u64 8) by (unfold word_width; lia || (change (per_word 8) with 8; lia)). apply (lane_pairs 4 ltac:(lia) 8). lia. }
  assert (E : lsum 8 8 b = lsum 16 4 a) by (apply (lsum_pairs 8 4); [lia|done]).
  rewrite fold8_sum, E; [done|]. rewrite E. pose proof (lsum_bound 16 4 a 15 ltac:(lia) ltac:(intros i _; pose proof (lane_range 4 ltac:(lia) i a); lia)). lia.
Qed.

(** ** The table of bit counts *)

Lemma popcount_table : forallb (fun b => nth (Z.to_nat b) a_popcount_bits 0 =? lsum 8 1 b) (upto 256) = true.
Proof. vm_compute. reflexivity. Qed.

Lemma lane_lane w v i j x : 0 < w -> 0 < v -> 0 <= i -> 0 <= j < v -> lane w j (lane (w * v) i x) = lane w (v * i + j) x.
Proof.
  intros Hw Hv Hi Hj. apply lane_ext; [done|lia|nia|]. intros b Hb. rewrite testbit_lane by nia. f_equal. nia.
Qed.

Lemma popcount_byte_sum x k : 0 <= k -> popcount_byte (Z.shiftr x (8 * k)) = sigma 8 (8 * k) (fun i => lane 1 i x).
Proof.
  intros Hk. unfold popcount_byte. assert (El : Z.land 255 (Z.shiftr x (8 * k)) = lane 8 k x).
  { rewrite Z.land_comm. change 255 with (Z.ones 8). rewrite Z.land_ones, Z.shiftr_div_pow2 by lia. done. }
  rewrite El. pose proof (lane_range 8 ltac:(lia) k x) as Hr. pose proof (upto_all _ _ popcount_table (lane 8 k x) Hr) as Et. apply Z.eqb_eq in Et. rewrite Et.
  unfold lsum. replace (8 * k) with (0 + 8 * k) by lia. rewrite sigma_shift. apply sigma_ext. intros j Hj.
  replace (lane 8 k x) with (lane (1 * 8) k x) by done. rewrite lane_lane by lia. f_equal. lia.
Qed.

Lemma popcount32_sum x : fast_popcount32 x = lsum 32 1 x.
Proof.
  pose proof (popcount_byte_sum x 0 ltac:(lia)) as E0. pose proof (popcount_byte_sum x 1 ltac:(lia)) as E1.
  pose proof (popcount_byte_sum x 2 ltac:(lia)) as E2. pose proof (popcount_byte_sum x 3 ltac:(lia)) as E3. rewrite Z.shiftr_0_r in E0.
  change (8 * 1) with 8 in E1. change (8 * 2) with 16 in E2. change (8 * 3) with 24 in E3.
  unfold fast_popcount32. rewrite E0, E1, E2, E3. unfold lsum. change 32%nat with (8 + (8 + (8 + 8)))%nat. rewrite !sigma_app.
  change (8 * 0) with 0. change (0 + Z.of_nat 8) with 8. change (8 + Z.of_nat 8) with 16. change (16 + Z.of_nat 8) with 24. lia.
Qed.

Lemma lane_sext w k x i : 0 < w -> 0 < k -> 0 <= i < k -> lane w i (sext (w * k) x) = lane w i x.
Proof.
  intros Hw Hk Hi. apply lane_ext; [done|lia|lia|]. intros b Hb.
  rewrite <- (Z.mod_pow2_bits_low (sext (w * k) x) (w * k)), <- (Z.mod_pow2_bits_low x (w * k)) by nia. f_equal. unfold sext.
  destruct (_ <? _); [apply Z.mod_mod; lia|]. rewrite <- (Z.mul_1_l (2 ^ (w * k))) at 2. rewrite <- Z.add_opp_r, <- Z.mul_opp_l, Z.mod_add by lia. apply Z.mod_mod. lia.
Qed.

Lemma popcount64_sum a : fast_popcount64 (s64 a) = lsum 64 1 a.
Proof.
  unfold fast_popcount64. rewrite !popcount32_sum. unfold lsum. change 64%nat with (32 + 32)%nat. rewrite sigma_app. change (Z.of_nat 32) with 32. f_equal.
  - apply sigma_ext. intros j Hj. replace 32 with (1 * 32) by lia. rewrite lane_sext by lia. unfold s64. replace 64 with (1 * 64) by lia. apply lane_sext; lia.
  - rewrite sigma_shift. apply sigma_ext. intros j Hj. replace 32 with (1 * 32) at 1 by lia. rewrite lane_sext by lia. replace 32 with (1 * 32) at 1 by lia.
    rewrite lane_shiftr by lia. unfold s64. replace 64 with (1 * 64) by lia. apply lane_sext; lia.
Qed.

Lemma sum_word_sum w a : w = 1 \/ w = 2 \/ w = 4 -> sum_word w a = lsum (Z.to_nat (per_word w)) w a.
Proof. intros [->|[->| ->]]; [apply popcount64_sum|apply fold2_sum|apply fold_nibbles]. Qed.

(** ** Cascades *)

(** [y] has a bit where one of the [n] bits of [x] from there on is set. *)
Definition spread (n x y : Z) : Prop := forall j, 0 <= j -> Z.testbit y j = true <-> exists b, j <= b < j + n /\ Z.testbit x b = true.

Lemma spread_1 x : spread 1 x x.
Proof. intros j Hj. split; [intros Ht; exists j; split; [lia|done]|intros (b & Hb & Ht); by replace j with b by lia]. Qed.

Lemma spread_double n x y : 0 < n -> spread n x y -> spread (2 * n) x (Z.lor y (Z.shiftr y n)).
Proof.
  intros Hn Hs j Hj. rewrite Z.lor_spec, Z.shiftr_spec, orb_true_iff, (Hs j), (Hs (j + n)) by lia. split.
  - intros [(b & Hb & Ht)|(b & Hb & Ht)]; exists b; (split; [lia|done]).
  - intros (b & Hb & Ht). destruct (Z.lt_ge_cases b (j + n)); [left|right]; exists b; (split; [lia|done]).
Qed.

Lemma spread_odd n x y : 0 <= x < 2 ^ n -> 0 <= n -> spread n x y -> Z.lxor (Z.land y 1) 1 = Z.b2z (x =? 0).
Proof.
  intros Hx Hn Hs. specialize (Hs 0 ltac:(lia)). rewrite Z.bit0_odd in Hs. change 1 with (Z.ones 1) at 1. rewrite Z.land_ones by lia. change (2 ^ 1) with 2. rewrite Zmod_odd.
  destruct (Z.eqb_spec x 0) as [->|Hne].
  - destruct (Z.odd y); [|done]. destruct (proj1 Hs eq_refl) as (b & _ & Hb). by rewrite Z.bits_0 in Hb.
  - rewrite (proj2 Hs); [done|]. exists (Z.log2 x). split; [split; [apply Z.log2_nonneg|rewrite Z.add_0_l; apply Z.log2_lt_pow2; lia]|apply Z.bit_log2; lia].
Qed.

Lemma segments_rep w v : word_width w -> w < 64 -> 0 <= v < 2 ^ w -> segments w v = rep (Z.to_nat (per_word w)) w * v.
Proof.
  intros Hw Hw64 Hv. rewrite <- (magic_eq w v) by done. unfold segments. rewrite ones_mask_eq by done. unfold no0.
  pose proof (pow_w_le w Hw). rewrite (proj2 (Z.eqb_neq (2 ^ w - 1) 0)) by lia. done.
Qed.

Lemma lane_segments w v i : word_width w -> w < 64 -> 0 <= v < 2 ^ w -> 0 <= i < per_word w -> lane w i (segments w v) = v.
Proof. intros Hw Hw64 Hv Hi. rewrite segments_rep by done. apply lane_rep; [by apply width_pos|done|]. rewrite Z2Nat.id; lia. Qed.

Lemma lane_cascade w s a i : word_width w -> w < 64 -> 0 < s < w -> 0 <= i < per_word w ->
  lane w i (cascade_step s (segments w (2 ^ (w - s) - 1)) a) = Z.lor (lane w i a) (Z.shiftr (lane w i a) s).
Proof.
  intros Hw Hw64 Hs Hi. pose proof (width_pos w Hw) as Hp. assert (Hpw : 2 ^ (w - s) <= 2 ^ w) by (apply Z.pow_le_mono_r; lia). pose proof (Z.pow_pos_nonneg 2 (w - s) ltac:(lia) ltac:(lia)).
  unfold cascade_step. rewrite lane_lor, lane_land, lane_segments by (done || lia). f_equal. apply Z.bits_inj'. intros b Hb.
  replace (2 ^ (w - s) - 1) with (Z.ones (w - s)) by (rewrite Z.ones_equiv; lia). rewrite Z.land_spec, Z.shiftr_spec by lia. destruct (Z.lt_ge_cases b (w - s)).
  - rewrite Z.ones_spec_low, andb_true_r, !testbit_lane, Z.shiftr_spec by nia. f_equal. lia.
  - rewrite Z.ones_spec_high, andb_false_r by lia. symmetry. apply (testbit_above _ w); [by apply lane_range|lia].
Qed.

(** What is left of a word after the cascades: a one in each lane that was zero. *)
Lemma isolated_lane w a b i : word_width w -> w < 64 -> 0 <= i < per_word w -> spread w (lane w i a) (lane w i b) ->
  lane w i (Z.lxor (Z.land b (segments w 1)) (segments w 1)) = Z.b2z (lane w i a =? 0).
Proof.
  intros Hw Hw64 Hi Hs. pose proof (width_pos w Hw) as Hp. pose proof (pow_w_le w Hw).
  rewrite lane_lxor, lane_land, lane_segments by (done || lia). apply (spread_odd w); [by apply lane_range|lia|done].
Qed.

Lemma lane_differs w value a i : word_width w -> w < 64 -> 0 <= value < 2 ^ w -> 0 <= i < per_word w -> (lane w i (Z.lxor a (segments w value)) =? 0) = (lane w i a =? value).
Proof.
  intros Hw Hw64 Hv Hi. pose proof (width_pos w Hw). rewrite lane_lxor, lane_segments by (done || lia). apply Bool.eq_iff_eq_true. by rewrite !Z.eqb_eq, Z.lxor_eq_0_iff.
Qed.

Lemma cascade_spread w s n c x b i : word_width w -> w < 64 -> 0 < s < w -> 0 <= i < per_word w -> n = 2 * s -> c = 2 ^ (w - s) - 1 ->
  spread s x (lane w i b) -> spread n x (lane w i (cascade_step s (segments w c) b)).
Proof. intros Hw Hw64 Hs Hi -> -> Hsp. rewrite lane_cascade by done. apply spread_double; [lia|done]. Qed.

Ltac cascades := repeat (eapply cascade_spread; [unfold word_width; lia|lia|lia|done|reflexivity|reflexivity|]); apply spread_1.

Lemma isolated_range w b : word_width w -> w < 64 -> 0 <= Z.lxor (Z.land b (segments w 1)) (segments w 1) < 2 ^ 64.
Proof.
  intros Hw Hw64. assert (Hs : 0 <= segments w 1 < 2 ^ 64) by (unfold segments, u64; apply Z.mod_pos_bound; lia).
  apply lxor_range; [lia|apply land_range; lia|done].
Qed.

(** A word with a one in each lane that holds the value. *)
Definition hits (w value a b : Z) : Prop := forall i, 0 <= i < per_word w -> lane w i b = Z.b2z (lane w i a =? value).

Lemma hits_isolated w value a b : word_width w -> w < 64 -> 0 <= value < 2 ^ w ->
  (forall i, 0 <= i < per_word w -> spread w (lane w i (Z.lxor a (segments w value))) (lane w i b)) -> hits w value a (Z.lxor (Z.land b (segments w 1)) (segments w 1)).
Proof.
  intros Hw Hw64 Hv Hs i Hi. rewrite (isolated_lane w (Z.lxor a (segments w value))) by (done || by apply Hs). by rewrite lane_differs.
Qed.

Lemma hits_sum w value a b : word_width w -> hits w value a b -> lsum (Z.to_nat (per_word w)) w b = sigma (Z.to_nat (per_word w)) 0 (fun i => Z.b2z (lane w i a =? value)).
Proof. intros Hw Hh. apply sigma_ext. intros j Hj. apply Hh. lia. Qed.

Lemma b2z_le b : 0 <= Z.b2z b <= 1.
Proof. by destruct b. Qed.

Lemma fold8_16 b : (forall i, 0 <= i < 4 -> 0 <= lane 16 i b <= 1) -> fold8 b = lsum 4 16 b.
Proof.
  intros Hb. assert (Hl : forall i, 0 <= i < 4 -> lane 16 i b = lane 8 (2 * i) b + lane 8 (2 * i + 1) b).
  { intros i Hi. specialize (Hb i Hi). pose proof (lane_split 8 ltac:(lia) i b ltac:(lia)) as E. change (2 * 8) with 16 in E. pose proof (lane_range 8 ltac:(lia) (2 * i + 1) b). pose proof (lane_range 8 ltac:(lia) (2 * i) b). lia. }
  assert (E : lsum 4 16 b = lsum 8 8 b) by (apply (lsum_pairs 4 8); [lia|done]).
  rewrite E. apply fold8_sum. rewrite <- E. pose proof (lsum_bound 4 16 b 1 ltac:(lia) ltac:(intros i Hi; specialize (Hb i Hi); lia)). lia.
Qed.

Lemma lane_1 i x : 0 <= i -> lane 1 i x = Z.b2z (Z.testbit x i).
Proof.
  intros Hi. unfold lane. rewrite Z.mul_1_l, <- Z.shiftr_div_pow2 by lia. change (2 ^ 1) with 2. rewrite <- Z.bit0_mod, Z.shiftr_spec by lia. by rewrite Z.add_0_l.
Qed.

Lemma count_word_1 value a : 0 <= a < 2 ^ 64 -> 0 <= value < 2 -> count_word 1 value a = sigma 64 0 (fun i => Z.b2z (lane 1 i a =? value)).
Proof.
  intros Ha Hv. unfold count_word. cbn [Z.eqb Pos.eqb]. cbv zeta. rewrite fold1_sum.
  - apply sigma_ext. intros j Hj. destruct (Z.eqb_spec value 0) as [->|].
    + unfold not64. rewrite (lane_u64 1) by (unfold word_width; lia || (change (per_word 1) with 64; lia)). rewrite !lane_1, Z.lnot_spec by lia. by destruct (Z.testbit a j).
    + replace value with 1 by lia. rewrite lane_1 by lia. by destruct (Z.testbit a j).
  - destruct (value =? 0); [|done]. unfold not64, u64. apply Z.mod_pos_bound. lia.
Qed.

Lemma count_word_sum w value a : word_width w -> w <= 16 -> 0 <= a < 2 ^ 64 -> 0 <= value < 2 ^ w ->
  count_word w value a = sigma (Z.to_nat (per_word w)) 0 (fun i => Z.b2z (lane w i a =? value)).
Proof.
  intros Hw H16 Ha Hv. assert (Hh : forall b, (forall i, 0 <= i < per_word w -> spread w (lane w i (Z.lxor a (segments w value))) (lane w i b)) ->
    let r := Z.lxor (Z.land b (segments w 1)) (segments w 1) in
    0 <= r < 2 ^ 64 /\ (forall i, 0 <= i < per_word w -> 0 <= lane w i r <= 1) /\ lsum (Z.to_nat (per_word w)) w r = sigma (Z.to_nat (per_word w)) 0 (fun i => Z.b2z (lane w i a =? value))).
  { intros b Hs r. pose proof (hits_isolated w value a b Hw ltac:(lia) Hv Hs) as Hh. split_and!; try (apply isolated_range; [done|lia]); [|by apply hits_sum].
    intros i Hi. unfold r. rewrite Hh by done. apply b2z_le. }
  destruct Hw as [->|[->|[->|[->|[->|[->| ->]]]]]]; try lia; [by apply count_word_1|..]; unfold count_word; cbn [Z.eqb Pos.eqb]; cbv zeta;
    try change m1 with (segments 2 1); set (b := cascade_step _ _ _) in |- *;
    destruct (Hh b ltac:(intros i Hi; unfold b; cascades)) as (Hr & Hl & <-); clear Hh.
  - apply fold2_sum.
  - apply fold4_sum; [done|]. intros j Hj. specialize (Hl j Hj). lia.
  - apply fold8_sum. pose proof (lsum_bound 8 8 _ 1 ltac:(lia) ltac:(intros i Hi; apply Hl; exact Hi)). lia.
  - by apply fold8_16.
Qed.

(** ** Sums and counts over integer arrays are those of the elements *)

(** ** Counting *)

Lemma count_elems_sum n f i acc : count_elems n f i acc = acc + sigma n i (fun j => Z.b2z (f j)).
Proof.
  revert i acc. induction n as [|n IH]; intros i acc; cbn [count_elems sigma]; [lia|]. rewrite IH. destruct (f i); cbn [Z.b2z]; lia.
Qed.

Lemma sigma_filter n i f : sigma n i (fun j => Z.b2z (f j)) = Z.of_nat (length (List.filter f (seqZ i (Z.of_nat n)))).
Proof.
  revert i. induction n as [|n IH]; intros i; [done|]. rewrite seqZ_cons by lia. replace (Z.pred (Z.of_nat (S n))) with (Z.of_nat n) by lia.
  cbn [sigma List.filter]. rewrite IH. replace (Z.succ i) with (i + 1) by lia. destruct (f i); cbn [Z.b2z length]; lia.
Qed.

(** The words of the data at [data], element by element. *)
Lemma sigma_words (g : Z -> Z) (h : Z -> Z) l n t : 0 < l ->
  (forall q, t <= q < t + Z.of_nat n -> h q = sigma (Z.to_nat l) (q * l) g) -> sigma n t h = sigma (Z.to_nat (Z.of_nat n * l)) (t * l) g.
Proof.
  intros Hl. revert t. induction n as [|n IH]; intros t H; [done|]. cbn [sigma]. rewrite H, IH by (lia || intros; apply H; lia).
  replace (Z.to_nat (Z.of_nat (S n) * l)) with (Z.to_nat l + Z.to_nat (Z.of_nat n * l))%nat by nia. rewrite sigma_app. f_equal. f_equal. lia.
Qed.

Lemma word_sum m d w q (f : Z -> Z) : word_width w -> is_bytes m -> 0 <= q ->
  sigma (Z.to_nat (per_word w)) 0 (fun j => f (signed_lane w (lane w j (get_word m d q)))) = sigma (Z.to_nat (per_word w)) (q * per_word w) (fun i => f (get_direct m d w i)).
Proof.
  intros Hw Hm Hq. pose proof (per_word_pos w Hw). rewrite <- (Z.add_0_l (q * per_word w)), sigma_shift. apply sigma_ext. intros j Hj.
  rewrite Z.add_comm, elem_lane by (done || lia). done.
Qed.

Lemma count_words_sum m d n w value t acc : count_words m d n w value t acc = acc + sigma n t (fun q => count_word w value (get_word m d q)).
Proof. revert t acc. induction n as [|n IH]; intros t acc; cbn [count_words sigma]; [lia|]. rewrite IH. lia. Qed.

(** All words and the elements left over. *)
Lemma count_by_words m d w size value : word_width w -> w <= 16 -> is_bytes m -> 0 <= size -> fits w value -> 0 <= value ->
  let n := size / (64 / no0 w) in
  count_elems (Z.to_nat (size - n * (64 / no0 w))) (fun i => value =? get_direct m d w i) (n * (64 / no0 w)) (count_words m d (Z.to_nat n) w value 0 0) =
  sigma (Z.to_nat size) 0 (fun i => Z.b2z (get_direct m d w i =? value)).
Proof.
  intros Hw H16 Hm Hs Hf Hv n. unfold n. clear n. rewrite no0_width by done. fold (per_word w). pose proof (per_word_pos w Hw) as Hl. set (n := size / per_word w).
  assert (Hn : 0 <= n) by (apply Z.div_pos; lia). pose proof (Z.mul_div_le size (per_word w) ltac:(lia)) as Hle. fold n in Hle.
  assert (Hvw : 0 <= value < 2 ^ w) by (unfold fits in Hf; destruct Hw as [->|[->|[->|[->|[->|[->| ->]]]]]]; cbn in Hf; lia).
  rewrite count_elems_sum, count_words_sum, Z.add_0_l.
  rewrite (sigma_words (fun i => Z.b2z (get_direct m d w i =? value)) _ (per_word w)); [|lia|].
  - rewrite Z2Nat.id, Z.mul_0_l by lia. replace (Z.to_nat size) with (Z.to_nat (n * per_word w) + Z.to_nat (size - n * per_word w))%nat by lia.
    rewrite sigma_app, Z.add_0_l, Z2Nat.id by lia. f_equal. apply sigma_ext. intros j Hj. by rewrite Z.eqb_sym.
  - intros q Hq. rewrite count_word_sum by (done || apply get_word_range). rewrite <- (word_sum m d w q (fun x => Z.b2z (x =? value))) by (done || lia).
    apply sigma_ext. intros j Hj. f_equal. rewrite signed_lane_eq by (done || apply lane_range; by apply width_pos). by rewrite Z.mod_small.
Qed.

Lemma sigma_none n i (f : Z -> bool) : (forall j, i <= j < i + Z.of_nat n -> f j = false) -> sigma n i (fun j => Z.b2z (f j)) = 0.
Proof. intros H. pose proof (sigma_bound n i (fun j => Z.b2z (f j)) 0 0 ltac:(intros j Hj; cbv beta; rewrite (H j) by done; cbn; lia)). lia. Qed.

Lemma elem_not_fits m d w i value : valid_width w -> is_bytes m -> 0 <= i -> ~ fits w value -> (get_direct m d w i =? value) = false.
Proof. intros Hw Hm Hi Hf. apply Z.eqb_neq. intros E. apply Hf. rewrite <- E. by apply get_direct_fits. Qed.

(** [Array::count] is the number of elements equal to the value: for every
    width, except for negative values at the widths 8 and 16 and for values that do not
    fit at width 32. *)
Theorem count_correct m d w size value :
  valid_width w -> is_bytes m -> 0 <= size -> - 2 ^ 63 <= value < 2 ^ 63 -> (w = 8 \/ w = 16 -> 0 <= value) -> (w = 32 -> fits 32 value) ->
  count m d size w value = Z.of_nat (length (List.filter (fun i => get_direct m d w i =? value) (seqZ 0 size))).
Proof.
  intros Hw Hm Hs Hv Hneg H32. rewrite <- (Z2Nat.id size) at 2 by done. rewrite <- sigma_filter.
  assert (Hno : ~ fits w value -> 0 = sigma (Z.to_nat size) 0 (fun i => Z.b2z (get_direct m d w i =? value))).
  { intros Hf. symmetry. apply sigma_none. intros j Hj. apply elem_not_fits; (done || lia). }
  assert (Hu : value < 0 -> u64 value = value + 2 ^ 64) by (intros; unfold u64; symmetry; apply (Zmod_unique _ _ (-1)); lia).
  assert (Hup : 0 <= value -> u64 value = value) by (intros; unfold u64; apply Z.mod_small; lia).
  destruct Hw as [->|[->|[->|[->|[->|[->|[->| ->]]]]]]]; unfold count; cbn [Z.eqb Pos.eqb]; cbv zeta;
    try (match goal with |- context [if ?c then 0 else _] => destruct c eqn:Ec end;
         [apply Hno; unfold fits; cbn; rewrite ?orb_true_iff, ?Z.ltb_lt in Ec; lia
         |rewrite ?orb_false_iff, ?Z.ltb_ge in Ec; apply count_by_words; try done; unfold word_width, fits; cbn; lia]).
  - destruct (Z.eqb_spec value 0) as [->|].
    + rewrite (sigma_ext _ _ _ (fun _ => 1)) by done. pose proof (sigma_bound (Z.to_nat size) 0 (fun _ => 1) 1 1 ltac:(lia)). lia.
    + apply Hno. unfold fits. cbn. lia.
  - rewrite count_elems_sum, Z.add_0_l. apply sigma_ext. intros j Hj. by rewrite sext_id by (specialize (H32 eq_refl); unfold fits in H32; cbn in H32; lia).
  - by rewrite count_elems_sum, Z.add_0_l.
Qed.

(** A negative value is not counted right at width 8: of eight elements that all
    hold -1, [Array::count] counts one, because the product that should repeat the value
    in each byte of a word borrows from the bytes above. *)
Theorem count_negative d :
  count (fun _ => 255) d 8 8 (-1) = 1 /\
  length (List.filter (fun i => get_direct (fun _ => 255) d 8 i =? -1) (seqZ 0 8)) = 8%nat.
Proof. split; vm_compute; reflexivity. Qed.

(** ** Summing *)

Lemma s64_add_l a b : s64 (s64 a + b) = s64 (a + b).
Proof.
  unfold s64. rewrite <- (sext_mod 64 (sext 64 a + b)), <- (sext_mod 64 (a + b)) by lia. f_equal.
  rewrite <- (Z.add_mod_idemp_l (sext 64 a)), <- (Z.add_mod_idemp_l a) by lia. f_equal. f_equal.
  unfold sext. destruct (_ <? _); [apply Z.mod_mod; lia|]. replace (a mod 2 ^ 64 - 2 ^ 64) with (a mod 2 ^ 64 + -1 * 2 ^ 64) by lia. rewrite Z.mod_add by lia. apply Z.mod_mod. lia.
Qed.

Lemma s64_add_r a b : s64 (a + s64 b) = s64 (a + b).
Proof. rewrite Z.add_comm, s64_add_l. f_equal. lia. Qed.

Section Sums.
Context `{SseSumSpec} (m : bytes) (d addr : Z) (Hm : is_bytes m).

Lemma sum_elems_sum n w start S : sum_elems m d n w start (s64 S) = s64 (S + sigma n start (get_direct m d w)).
Proof.
  revert start S. induction n as [|n IH]; intros start S; cbn [sum_elems sigma]; [by rewrite Z.add_0_r|]. rewrite s64_add_l, IH. f_equal. lia.
Qed.

Lemma sum_unaligned_sum n w start S : exists k : nat, (k <= n)%nat /\
  sum_unaligned m d addr n w start (s64 S) = (start + Z.of_nat k, s64 (S + sigma k start (get_direct m d w))) /\
  (k = n \/ (Z.land addr 0xf * 8 + (start + Z.of_nat k) * w) mod 128 = 0).
Proof.
  revert start S. induction n as [|n IH]; intros start S; cbn [sum_unaligned]; [exists 0%nat; cbn; rewrite !Z.add_0_r; auto|].
  destruct (Z.eqb_spec ((Z.land addr 0xf * 8 + start * w) mod 128) 0) as [E|E]; cbn [negb].
  - exists 0%nat. cbn [sigma]. rewrite !Z.add_0_r. split_and!; [lia|done|by right].
  - rewrite s64_add_l. destruct (IH (start + 1) (S + get_direct m d w start)) as (k & Hk & -> & Ha). exists (Datatypes.S k). cbn [sigma].
    split_and!; [lia|f_equal; [lia|f_equal; lia]|]. destruct Ha as [->|Ha]; [by left|right]. rewrite <- Ha. f_equal. lia.
Qed.

Lemma sum_words_sum n w data t S : sum_words m n w data t (s64 S) = s64 (S + sigma n t (fun q => sum_word w (get_word m data q))).
Proof.
  revert t S. induction n as [|n IH]; intros t S; cbn [sum_words sigma]; [by rewrite Z.add_0_r|]. rewrite s64_add_l, IH. f_equal. lia.
Qed.

(** Elements from an aligned position on are those of the moved data. *)
Lemma sigma_moved w start n : word_width w -> 0 <= start -> start * w mod 8 = 0 ->
  sigma n 0 (get_direct m (d + start * w / 8) w) = sigma n start (get_direct m d w).
Proof.
  intros Hw Hs Ha. rewrite <- (Z.add_0_l start) at 2. rewrite sigma_shift. apply sigma_ext. intros j Hj.
  rewrite (get_direct_moved m d w (start * w / 8) start j) by (done || lia || dlia). f_equal. lia.
Qed.

Lemma sum_words_elems w start n S : w = 1 \/ w = 2 \/ w = 4 -> 0 <= start -> 0 <= n -> start * w mod 8 = 0 ->
  sum_words m (Z.to_nat n) w (d + start * w / 8) 0 (s64 S) = s64 (S + sigma (Z.to_nat (n * per_word w)) start (get_direct m d w)).
Proof.
  intros Hw Hs Hn Ha. assert (Hww : word_width w) by (unfold word_width; lia). rewrite sum_words_sum. do 2 f_equal.
  rewrite (sigma_words (get_direct m (d + start * w / 8) w) _ (per_word w)); [|by apply per_word_pos|].
  - rewrite Z2Nat.id, Z.mul_0_l by done. by apply sigma_moved.
  - intros q Hq. rewrite sum_word_sum by done. rewrite <- (word_sum m _ w q (fun x => x)) by (done || lia). apply sigma_ext. intros j Hj.
    unfold signed_lane. by rewrite (proj2 (Z.ltb_lt w 8)) by lia.
Qed.

(** ** Vectors *)

(** The accumulators of a vector sum and what one vector adds to each. *)
Definition acc_width (w : Z) : Z := if (w =? 8) || (w =? 16) then 32 else 64.

Definition elem (w v j : Z) : Z := sext w (lane w j v).

Definition share (w v k : Z) : Z :=
  if w =? 8 then elem 8 v k + elem 8 v (k + 8) + elem 8 v (k + 4) + elem 8 v (k + 12)
  else if w =? 16 then elem 16 v k + elem 16 v (k + 4) else elem 32 v k + elem 32 v (k + 2).

Lemma elem_range w v j : 0 < w -> - 2 ^ (w - 1) <= elem w v j <= 2 ^ (w - 1) - 1.
Proof. intros Hw. pose proof (sext_range w (lane w j v) Hw). unfold elem. lia. Qed.

Lemma high_half w v j : 0 < w -> 0 <= v < 2 ^ 128 -> 0 <= j -> w * (64 / w) = 64 -> elem w (mm_srli_si128 v 8) j = elem w v (j + 64 / w).
Proof. intros Hw Hv Hj Hd. unfold elem. rewrite srli_spec by lia. change (8 * 8) with 64. rewrite <- Hd at 1. rewrite lane_shiftr; [done|done|done|]. apply Z.div_pos; lia. Qed.

Lemma add_mod_mod w a b c : 0 < w -> ((a + b mod 2 ^ w) mod 2 ^ w + c mod 2 ^ w) mod 2 ^ w = (a + b + c) mod 2 ^ w.
Proof. intros Hw. rewrite (Z.add_mod_idemp_r a b), (Z.add_mod_idemp_r _ c), (Z.add_mod_idemp_l (a + b)) by lia. done. Qed.

(** Two converted halves added to an accumulator. *)
Lemma add_halves w acc v k : w = 16 \/ w = 32 -> 0 <= v < 2 ^ 128 -> 0 <= k < 64 / w ->
  lane (2 * w) k (mm_add (2 * w) (mm_add (2 * w) acc (mm_cvt w v)) (mm_cvt w (mm_srli_si128 v 8))) =
  (lane (2 * w) k acc + (elem w v k + elem w v (k + 64 / w))) mod 2 ^ (2 * w).
Proof.
  intros Hw Hv Hk. assert (Hd : 128 / (2 * w) = 64 / w /\ w * (64 / w) = 64 /\ 0 < w) by (destruct Hw as [->| ->]; done). destruct Hd as (Hd & Hd' & Hp).
  rewrite !add_spec, !cvt_spec by lia. fold (elem w v k) (elem w (mm_srli_si128 v 8) k). rewrite high_half by (done || lia).
  rewrite add_mod_mod by lia. f_equal. lia.
Qed.

Lemma sum_vector_lane w v acc k : w = 8 \/ w = 16 \/ w = 32 -> 0 <= v < 2 ^ 128 -> 0 <= k < 128 / acc_width w ->
  lane (acc_width w) k (sum_vector w v acc) = (lane (acc_width w) k acc + share w v k) mod 2 ^ acc_width w.
Proof.
  intros Hw Hv Hk. destruct Hw as [->|[->| ->]].
  2: { apply (add_halves 16 acc v k); (done || lia). }
  2: { apply (add_halves 32 acc v k); (done || lia). }
  unfold sum_vector, share. cbn [Z.eqb Pos.eqb]. cbv zeta. set (sum1 := mm_add 16 _ _). assert (Hs1 : 0 <= sum1 < 2 ^ 128) by apply add_range.
  assert (E1 : forall j, 0 <= j < 8 -> elem 16 sum1 j = elem 8 v j + elem 8 v (j + 8)).
  { intros j Hj. unfold elem at 1, sum1. rewrite add_spec by (change (128 / 16) with 8; lia). change 16 with (2 * 8). rewrite !cvt_spec by (change (128 / (2 * 8)) with 8; lia).
    fold (elem 8 v j) (elem 8 (mm_srli_si128 v 8) j). rewrite high_half by (done || lia). change (64 / 8) with 8. rewrite <- Z.add_mod, sext_mod by lia.
    pose proof (elem_range 8 v j ltac:(lia)). pose proof (elem_range 8 v (j + 8) ltac:(lia)). apply sext_id; lia. }
  change (acc_width 8) with 32 in *. change (128 / 32) with 4 in Hk. rewrite !add_spec by (change (128 / 32) with 4; lia). change 32 with (2 * 16).
  rewrite !cvt_spec by (change (128 / (2 * 16)) with 4; lia). fold (elem 16 sum1 k) (elem 16 (mm_srli_si128 sum1 8) k). rewrite high_half by (done || lia). change (64 / 16) with 4.
  rewrite add_mod_mod, !E1 by lia. f_equal. replace (k + 4 + 8) with (k + 12) by lia. lia.
Qed.

Lemma vector_range data t : 0 <= get_vector m data t < 2 ^ 128.
Proof. apply (le_val_range 16). Qed.

Lemma sum_vectors_lane w n data t acc k : w = 8 \/ w = 16 \/ w = 32 -> 0 <= k < 128 / acc_width w ->
  lane (acc_width w) k (sum_vectors m n w data t acc) = (lane (acc_width w) k acc + sigma n t (fun q => share w (get_vector m data q) k)) mod 2 ^ acc_width w.
Proof.
  intros Hw Hk. assert (Hp : 0 < acc_width w) by (destruct Hw as [->|[->| ->]]; done). revert t acc. induction n as [|n IH]; intros t acc; cbn [sum_vectors sigma].
  - rewrite Z.add_0_r. symmetry. apply Z.mod_small. by apply lane_range.
  - rewrite IH, sum_vector_lane by (done || apply vector_range). rewrite Z.add_mod_idemp_l by lia. f_equal. lia.
Qed.

Lemma sigma_add n i f g : sigma n i f + sigma n i g = sigma n i (fun j => f j + g j).
Proof. revert i. induction n as [|n IH]; intros i; cbn [sigma]; [done|]. rewrite <- IH. lia. Qed.

(** Writes the sums out, with literals as positions. *)
Ltac shares_eq :=
  cbn [sigma]; unfold share; cbn [Z.eqb Pos.eqb];
  repeat match goal with |- context [elem ?w ?v ?x] => progress (let y := eval vm_compute in x in change (elem w v x) with (elem w v y)) end; lia.

(** The shares of a vector are its elements. *)
Lemma shares w v : w = 8 \/ w = 16 \/ w = 32 -> sigma (Z.to_nat (128 / acc_width w)) 0 (share w v) = sigma (Z.to_nat (128 / w)) 0 (elem w v).
Proof.
  intros [->|[->| ->]].
  - change (Z.to_nat (128 / acc_width 8)) with 4%nat. change (Z.to_nat (128 / 8)) with 16%nat. shares_eq.
  - change (Z.to_nat (128 / acc_width 16)) with 4%nat. change (Z.to_nat (128 / 16)) with 8%nat. shares_eq.
  - change (Z.to_nat (128 / acc_width 32)) with 2%nat. change (Z.to_nat (128 / 32)) with 4%nat. shares_eq.
Qed.

Lemma sigma_swap k n i j (f : Z -> Z -> Z) : sigma k i (fun a => sigma n j (fun b => f a b)) = sigma n j (fun b => sigma k i (fun a => f a b)).
Proof.
  revert i. induction k as [|k IH]; intros i; cbn [sigma].
  - pose proof (sigma_bound n j (fun _ => 0) 0 0 ltac:(lia)). lia.
  - rewrite IH. apply sigma_add.
Qed.

Lemma sum_lanes_sum n lw acc t S (X : Z -> Z) : (forall a k, t <= k < t + Z.of_nat n -> s64 (a + sext lw (lane lw k acc)) = s64 (a + X k)) ->
  sum_lanes n lw acc t (s64 S) = s64 (S + sigma n t X).
Proof.
  revert t S. induction n as [|n IH]; intros t S HX; cbn [sum_lanes sigma]; [by rewrite Z.add_0_r|].
  rewrite s64_add_l, HX, IH by (lia || intros; apply HX; lia). f_equal. lia.
Qed.

(** No more than this is added to a 32-bit accumulator at a time. *)
Definition share_bound (w : Z) : Z := if w =? 8 then 2 ^ 9 else 2 ^ 16.

Lemma lane_share_range w v k : w = 8 \/ w = 16 -> - share_bound w <= share w v k <= share_bound w - 1.
Proof.
  intros [->| ->]; unfold share, share_bound; cbn [Z.eqb Pos.eqb].
  - pose proof (elem_range 8 v k ltac:(lia)). pose proof (elem_range 8 v (k + 8) ltac:(lia)). pose proof (elem_range 8 v (k + 4) ltac:(lia)). pose proof (elem_range 8 v (k + 12) ltac:(lia)). lia.
  - pose proof (elem_range 16 v k ltac:(lia)). pose proof (elem_range 16 v (k + 4) ltac:(lia)). lia.
Qed.

Lemma vectors_sum w n data S : w = 8 \/ w = 16 \/ w = 32 -> 0 <= n -> (w <> 32 -> n * share_bound w <= 2 ^ 31) ->
  sum_lanes (Z.to_nat (128 / acc_width w)) (acc_width w) (sum_vectors m (Z.to_nat n) w data 0 0) 0 (s64 S) =
  s64 (S + sigma (Z.to_nat (n * (128 / w))) 0 (get_direct m data w)).
Proof.
  intros Hw Hn Hb. assert (Hv : vector_width w) by (unfold vector_width; lia).
  rewrite (sum_lanes_sum _ _ _ _ _ (fun k => sigma (Z.to_nat n) 0 (fun q => share w (get_vector m data q) k))).
  - do 2 f_equal. rewrite sigma_swap. destruct (group_width w Hv) as (g & Eg & Hg & _ & _ & _ & Hn128). assert (Hl : 0 < 128 / w) by nia.
    replace (n * (128 / w)) with (Z.of_nat (Z.to_nat n) * (128 / w)) by lia. 
    pose proof (fun h => sigma_words (get_direct m data w) h (128 / w) (Z.to_nat n) 0 Hl) as E. rewrite Z.mul_0_l in E. apply E. intros q Hq.
    rewrite shares by done. rewrite <- (Z.add_0_l (q * (128 / w))), sigma_shift. apply sigma_ext. intros j Hj. rewrite Z.add_comm, vector_elem by (done || lia). done.
  - intros a k Hk. rewrite sum_vectors_lane by (done || lia). rewrite lane_of_0, Z.add_0_l. set (X := sigma _ 0 _).
    assert (Hp : 0 < acc_width w) by (destruct Hw as [->|[->| ->]]; done). rewrite sext_mod by done. destruct (Z.eq_dec w 32) as [->|Hne]; [apply s64_add_r|].
    assert (Hw' : w = 8 \/ w = 16) by lia. assert (HX : - (n * share_bound w) <= X <= n * (share_bound w - 1)).
    { pose proof (sigma_bound (Z.to_nat n) 0 (fun q => share w (get_vector m data q) k) (- share_bound w) (share_bound w - 1) ltac:(intros j _; by apply lane_share_range)) as HX. fold X in HX. rewrite Z2Nat.id in HX by done. lia. }
    specialize (Hb Hne). assert (HXr : - 2 ^ 31 <= X < 2 ^ 31) by (destruct (Z.eq_dec n 0) as [->|]; lia).
    f_equal. f_equal. replace (acc_width w) with 32 by (by destruct Hw' as [->| ->]). apply sext_id; [lia|done].
Qed.

(** ** The whole sum *)

Lemma aligned_start w start : word_width w -> addr mod 8 = 0 -> (Z.land addr 0xf * 8 + start * w) mod 128 = 0 -> start * w mod 64 = 0.
Proof.
  intros Hw Ha E. assert (El : Z.land addr 15 = addr mod 16) by (change 15 with (Z.ones 4); by rewrite Z.land_ones).
  rewrite El in E. dlia.
Qed.

(** [s] is the sum of the elements from [start] up to [st]. *)
Definition so_far (w start end_ : Z) (r : Z * Z) : Prop :=
  start <= r.1 <= end_ /\ r.2 = s64 (sigma (Z.to_nat (r.1 - start)) start (get_direct m d w)).

Lemma so_far_more w start end_ st s n : so_far w start end_ (st, s) -> 0 <= n <= end_ - st ->
  so_far w start end_ (st + n, s64 (sigma (Z.to_nat (st - start)) start (get_direct m d w) + sigma (Z.to_nat n) st (get_direct m d w))).
Proof.
  intros [Hst _] Hn. cbn [fst] in Hst. split; cbn [fst snd]; [lia|]. f_equal.
  replace (Z.to_nat (st + n - start)) with (Z.to_nat (st - start) + Z.to_nat n)%nat by lia. rewrite sigma_app. do 2 f_equal. lia.
Qed.

Lemma so_far_words w start end_ st s : w = 1 \/ w = 2 \/ w = 4 -> 0 <= start -> so_far w start end_ (st, s) -> st = end_ \/ st * w mod 64 = 0 ->
  let chunks := (end_ - st) * w / 8 / 8 in
  so_far w start end_ (st + 8 * 8 / no0 w * chunks, sum_words m (Z.to_nat chunks) w (d + st * w / 8) 0 s).
Proof.
  intros Hw H0s Hso Ha chunks. assert (Hww : word_width w) by (unfold word_width; lia). assert (Hst : start <= st <= end_) by apply Hso. assert (Hs : s = _) by apply Hso. cbn [fst snd] in Hs.
  destruct Ha as [->|Ha]; [replace chunks with 0 by (unfold chunks; by rewrite Z.sub_diag); by rewrite Z.mul_0_r, Z.add_0_r|].
  pose proof (per_word_mul w Hww) as Hl. rewrite no0_width by done. change (8 * 8 / w) with (per_word w). assert (Hc : 0 <= chunks /\ 64 * chunks <= (end_ - st) * w) by (unfold chunks; split; [apply Z.div_pos; [apply Z.div_pos; nia|lia]|dlia]).
  rewrite Hs, sum_words_elems by (done || lia || dlia). rewrite (Z.mul_comm (per_word w)). apply (so_far_more w start end_ st s); [done|nia].
Qed.

Lemma so_far_vectors w start end_ st s : w = 8 \/ w = 16 \/ w = 32 -> 0 <= start -> so_far w start end_ (st, s) -> end_ - start < 2 ^ 24 -> (w = 16 -> end_ - start <= 2 ^ 18) ->
  let chunks := (end_ - st) * w / 8 / 16 in
  so_far w start end_ (st + 16 * 8 / no0 w * chunks,
    sum_lanes (Z.to_nat (128 / acc_width w)) (acc_width w) (sum_vectors m (Z.to_nat chunks) w (d + st * w / 8) 0 0) 0 s).
Proof.
  intros Hw H0s Hso H24 H18 chunks. assert (Hst : start <= st <= end_) by apply Hso. assert (Hs : s = _) by apply Hso. cbn [fst snd] in Hs.
  assert (Hv : vector_width w) by (unfold vector_width; lia). destruct (group_width w Hv) as (g & Eg & Hg & -> & _ & _ & Hl).
  assert (Hc : 0 <= chunks /\ 128 * chunks <= (end_ - st) * w) by (unfold chunks; split; [apply Z.div_pos; [apply Z.div_pos; nia|lia]|dlia]).
  rewrite Hs, vectors_sum; [|done|lia|intros; unfold share_bound; destruct Hw as [->|[->| ->]]; cbn [Z.eqb Pos.eqb]; try lia; specialize (H18 eq_refl); lia].
  change (16 * 8 / w) with (128 / w). rewrite sigma_moved by (by apply vector_word || lia || (destruct Hw as [->|[->| ->]]; dlia)).
  rewrite (Z.mul_comm (128 / w)). apply (so_far_more w start end_ st s); [done|nia].
Qed.

Lemma sum_total sse_support w size start end_ : valid_width w -> addr mod 8 = 0 -> 0 <= start <= end_ -> end_ <= size < 2 ^ 24 ->
  (0 < sse_support -> w = 16 -> end_ - start <= 2 ^ 18) ->
  sum m d addr sse_support size w start end_ = s64 (sigma (Z.to_nat (end_ - start)) start (get_direct m d w)).
Proof.
  intros Hw Ha Hs He H18. unfold sum. rewrite (proj2 (Z.eqb_neq end_ npos)) by (unfold npos; lia). destruct (Z.eqb_spec w 0) as [->|Hw0]; cbn [orb].
  { pose proof (sigma_bound (Z.to_nat (end_ - start)) start (get_direct m d 0) 0 0 ltac:(intros; unfold get_direct; cbn; lia)) as Hz. by replace (sigma _ _ _) with 0 by lia. }
  destruct (Z.eqb_spec start end_) as [->|Hne]; [by rewrite Z.sub_diag|]. assert (Hww : word_width w) by (unfold valid_width, word_width in *; lia).
  destruct (sum_unaligned_sum (Z.to_nat (end_ - start)) w start 0) as (k & Hk & E & Hal). change (s64 0) with 0 in E. rewrite E.
  assert (H1 : so_far w start end_ (start + Z.of_nat k, s64 (0 + sigma k start (get_direct m d w)))).
  { split; cbn [fst snd]; [lia|]. by replace (Z.to_nat (start + Z.of_nat k - start)) with k by lia. }
  set (st := start + Z.of_nat k) in *. set (s := s64 _) in *. clearbody s.
  assert (Hal' : st = end_ \/ st * w mod 64 = 0) by (destruct Hal as [->|Hal]; [left; unfold st; lia|right; by apply aligned_start]). clearbody st.
  assert (H2 : so_far w start end_ (if (w =? 1) || (w =? 2) || (w =? 4) then
      (st + 8 * 8 / no0 w * ((end_ - st) * w / 8 / 8), sum_words m (Z.to_nat ((end_ - st) * w / 8 / 8)) w (d + st * w / 8) 0 s) else (st, s))).
  { destruct (_ || _) eqn:Ew; [|done]. rewrite !orb_true_iff, !Z.eqb_eq in Ew. apply so_far_words; [lia|lia|done|done]. }
  destruct (if (w =? 1) || (w =? 2) || (w =? 4) then _ else _) as [st2 s2].
  fold (acc_width w). assert (H3 : so_far w start end_ (if (0 <? sse_support) && ((w =? 8) || (w =? 16) || (w =? 32)) && (16 * 8 / no0 w <? end_ - st2) then
      (st2 + 16 * 8 / no0 w * ((end_ - st2) * w / 8 / 16), sum_lanes (Z.to_nat (128 / acc_width w)) (acc_width w) (sum_vectors m (Z.to_nat ((end_ - st2) * w / 8 / 16)) w (d + st2 * w / 8) 0 0) 0 s2)
      else (st2, s2))).
  { destruct (_ && (_ <? _)) eqn:Ew; [|done]. rewrite !andb_true_iff, !orb_true_iff, !Z.eqb_eq, !Z.ltb_lt in Ew. apply so_far_vectors; try done; lia || tauto || (intros; apply H18; tauto). }
  cbv zeta. destruct (if (0 <? sse_support) && _ && _ then _ else _) as [st3 s3]. destruct H3 as [Hst3 Es3]. cbn [fst snd] in Hst3, Es3.
  rewrite Es3, sum_elems_sum. f_equal. replace (Z.to_nat (end_ - start)) with (Z.to_nat (st3 - start) + Z.to_nat (end_ - st3))%nat by lia. rewrite sigma_app. do 2 f_equal. lia.
Qed.

Lemma sigma_list n i f : sigma n i f = foldr Z.add 0 (map f (seqZ i (Z.of_nat n))).
Proof.
  revert i. induction n as [|n IH]; intros i; [done|]. rewrite seqZ_cons by lia. replace (Z.pred (Z.of_nat (S n))) with (Z.of_nat n) by lia.
  cbn [sigma map foldr]. rewrite IH. by replace (Z.succ i) with (i + 1) by lia.
Qed.

(** Claim C19. [Array::sum] is the sum of the elements of the range, wrapped to 64 bits:
    for every width and with and without vector instructions, as long as at most 2^18
    elements of 16 bits are summed with vectors. *)
Theorem sum_correct sse_support w size start end_ : valid_width w -> addr mod 8 = 0 -> 0 <= start <= end_ -> end_ <= size < 2 ^ 24 ->
  (0 < sse_support -> w = 16 -> end_ - start <= 2 ^ 18) ->
  sum m d addr sse_support size w start end_ = s64 (foldr Z.add 0 (map (get_direct m d w) (seqZ start (end_ - start)))).
Proof.
  intros Hw Ha Hs He H18. rewrite sum_total by done. rewrite sigma_list. by rewrite Z2Nat.id by lia.
Qed.
End Sums.

(** ** Beyond the bound *)

(** Elements of 16 bits that all hold the least value. *)
Definition lows : bytes := fun a => if Z.even a then 0 else 128.

Lemma lows_bytes : is_bytes lows.
Proof. intros a. unfold lows. destruct (Z.even a); lia. Qed.

Lemma lows_elem i : 0 <= i -> get_direct lows 0 16 i = - 2 ^ 15.
Proof.
  intros Hi. transitivity (get_direct lows 0 16 0); [|done]. apply get_direct_tb; try done; [unfold valid_width; lia|apply lows_bytes..|].
  intros b Hb. unfold tb, lows. replace ((i * 16 + b) / 8) with (0 * 16 / 8 + b / 8 + 2 * i) by dlia. replace ((i * 16 + b) mod 8) with ((0 * 16 + b) mod 8) by dlia.
  do 2 f_equal. replace (0 + (0 * 16 / 8 + b / 8 + 2 * i)) with (b / 8 + 2 * i) by dlia. replace (0 + (0 * 16 + b) / 8) with (b / 8) by dlia.
  by rewrite Z.even_add_mul_2.
Qed.

Section Beyond.
Context `{SseSumSpec}.

Lemma lows_share q k : 0 <= q -> 0 <= k < 4 -> share 16 (get_vector lows 0 q) k = - 2 ^ 16.
Proof.
  intros Hq Hk. assert (He : forall j, 0 <= j < 8 -> elem 16 (get_vector lows 0 q) j = - 2 ^ 15).
  { intros j Hj. unfold elem. rewrite <- vector_elem; [|unfold vector_width; lia|apply lows_bytes|done|done]. apply lows_elem. change (128 / 16) with 8. lia. }
  unfold share. cbn [Z.eqb Pos.eqb]. rewrite !He by lia. done.
Qed.

(** With vectors, 2^18 + 8 elements of 16 bits are enough for the 32-bit
    accumulators of [Array::sum] to overflow: the result is off by 2^34. *)
Theorem sum_overflow :
  sum lows 0 0 1 (2 ^ 18 + 8) 16 0 (2 ^ 18 + 8) = foldr Z.add 0 (map (get_direct lows 0 16) (seqZ 0 (2 ^ 18 + 8))) + 2 ^ 34.
Proof.
  set (n := 2 ^ 18 + 8). assert (Href : foldr Z.add 0 (map (get_direct lows 0 16) (seqZ 0 n)) = n * - 2 ^ 15).
  { rewrite <- (Z2Nat.id n) at 1 by done. rewrite <- sigma_list.
    pose proof (sigma_bound (Z.to_nat n) 0 (get_direct lows 0 16) (- 2 ^ 15) (- 2 ^ 15) ltac:(intros j Hj; rewrite lows_elem by lia; lia)) as Hb. rewrite Z2Nat.id in Hb by done. lia. }
  rewrite Href. unfold sum. change (n =? npos) with false. change (16 =? 0) with false. change (0 =? n) with false. cbv iota. cbn [orb].
  assert (Eu : sum_unaligned lows 0 0 (Z.to_nat (n - 0)) 16 0 0 = (0, 0)) by (destruct (Z.to_nat (n - 0)); done). rewrite Eu.
  cbn [Z.eqb Pos.eqb orb andb]. change (0 <? 1) with true. change (no0 16) with 16. change (16 * 8 / 16 <? n - 0) with true. cbn [andb]. cbv iota zeta.
  change ((n - 0) * 16 / 8 / 16) with 32769. change (n - (0 + 16 * 8 / 16 * 32769)) with 0. change (128 / 32) with 4. change (0 + 0 * 16 / 8) with 0.
  change (match n with 0 => true | _ => false end) with false. cbv iota.
  assert (Es : sum_lanes (Z.to_nat 4) 32 (sum_vectors lows (Z.to_nat 32769) 16 0 0 0) 0 (s64 0) = s64 (0 + sigma (Z.to_nat 4) 0 (fun _ => 32769 * - 2 ^ 16 + 2 ^ 32)));
    [apply sum_lanes_sum|change (s64 0) with 0 in Es; rewrite Es; vm_compute; reflexivity].
  intros a k Hk. change 32 with (acc_width 16) at 2. rewrite sum_vectors_lane by (lia || (change (128 / acc_width 16) with 4; lia)). rewrite lane_of_0, Z.add_0_l.
  pose proof (sigma_bound (Z.to_nat 32769) 0 (fun q => share 16 (get_vector lows 0 q) k) (- 2 ^ 16) (- 2 ^ 16) ltac:(intros j Hj; cbv beta; rewrite lows_share by lia; lia)) as Hb.
  rewrite Z2Nat.id in Hb by lia. replace (sigma _ _ _) with (32769 * - 2 ^ 16) by lia. done.
Qed.
End Beyond.

(** ** A model of the vector instructions, and witnesses *)

#[export] Instance lanes_sse_sum : SseSum := {
  mm_cvt w x := pack (Z.to_nat (128 / (2 * w))) (2 * w) 0 (fun i => sext w (lane w i x));
  mm_srli_si128 x n := Z.shiftr x (8 * n);
  mm_add w a b := pack (Z.to_nat (128 / w)) w 0 (fun i => lane w i a + lane w i b) }.

Lemma pack_vector w f : 0 <= pack (Z.to_nat (128 / w)) w 0 f < 2 ^ 128.
Proof.
  destruct (Z.lt_ge_cases 0 w) as [Hw|Hw].
  - pose proof (Z.mul_div_le 128 w Hw) as Hd. pose proof (pack_range (Z.to_nat (128 / w)) w 0 f Hw) as Hr. rewrite Z2Nat.id in Hr by (apply Z.div_pos; lia).
    pose proof (Z.pow_le_mono_r 2 (w * (128 / w)) 128 ltac:(lia) Hd). lia.
  - pose proof (no_lanes w Hw). by replace (Z.to_nat (128 / w)) with 0%nat by lia.
Qed.

Lemma pack_lane w f i : 0 <= i < 128 / w -> lane w i (pack (Z.to_nat (128 / w)) w 0 f) = f i mod 2 ^ w.
Proof.
  intros Hi. destruct (Z.lt_ge_cases 0 w) as [Hw|Hw]; [by rewrite lane_pack by lia|]. pose proof (no_lanes w Hw). lia.
Qed.

#[export] Instance lanes_sse_sum_spec : SseSumSpec.
Proof.
  split; [|done| |intros; apply pack_vector..]; intros w; intros.
  - by apply (pack_lane (2 * w) (fun i => sext w (lane w i _))).
  - by apply (pack_lane w (fun i => lane w i _ + lane w i _)).
Qed.

Lemma count_correct_witness :
  count ramp 3 300 8 7 = 2 /\ count ramp 3 300 8 7 = Z.of_nat (length (List.filter (fun i => get_direct ramp 3 8 i =? 7) (seqZ 0 300))).
Proof. split; [vm_compute; reflexivity|]. apply (count_correct ramp 3 8 300 7); [unfold valid_width; lia|apply ramp_bytes|lia|lia|lia|lia]. Defined.

Lemma sum_correct_witness :
  sum ramp 3 24 1 100 8 5 90 = 4250 /\ sum ramp 3 24 1 100 8 5 90 = s64 (foldr Z.add 0 (map (get_direct ramp 3 8) (seqZ 5 (90 - 5)))).
Proof. split; [vm_compute; reflexivity|]. apply (sum_correct ramp 3 24 ramp_bytes 1 8 100 5 90); [unfold valid_width; lia|done|lia|lia|lia]. Defined.

Lemma sum_overflow_witness :
  sum lows 0 0 1 (2 ^ 18 + 8) 16 0 (2 ^ 18 + 8) = foldr Z.add 0 (map (get_direct lows 0 16) (seqZ 0 (2 ^ 18 + 8))) + 2 ^ 34.
Proof. apply sum_overflow. Defined.
