(* ===== verification/ArrayLeafs.v ===== *)
(** * Comparing two integer arrays, and cascades (array_with_find.hpp, array_with_find.cpp)

    [compare_leafs] reports the positions at which two arrays satisfy a condition, with
    vectors when both have the same width and alignment.  The second array is given by its
    own memory [fm], data position [fd], width [fw] and machine address [faddr]. *)

From S2P Require Import Prelude Bytes NodeHeader ArrayDirect ArrayBits Lanes ArrayFind ArrayFindInv ArrayFindRel ArrayFindTheorems ArraySum ArraySumTheorems.

(** ** Cascades *)

Definition cascade (width : Z) (zero : bool) (a : Z) : Z :=
  if width =? 1 then (if zero then not64 a else a)
  else if width =? 2 then
    let c1 := segments 2 0x1 in
    let a := cascade_step 1 c1 a in
    let a := Z.land a m1 in
    if zero then Z.lxor a m1 else a
  else if width =? 4 then
    let m := segments 4 0x1 in
    let a := cascade_step 1 (segments 4 0x7) a in
    let a := cascade_step 2 (segments 4 0x3) a in
    let a := Z.land a m in
    if zero then Z.lxor a m else a
  else if width =? 8 then
    let m := segments 8 0x1 in
    let a := cascade_step 1 (segments 8 0x7F) a in
    let a := cascade_step 2 (segments 8 0x3F) a in
    let a := cascade_step 4 (segments 8 0x0F) a in
    let a := Z.land a m in
    if zero then Z.lxor a m else a
  else if width =? 16 then
    let m := segments 16 0x1 in
    let a := cascade_step 1 (segments 16 0x7FFF) a in
    let a := cascade_step 2 (segments 16 0x3FFF) a in
    let a := cascade_step 4 (segments 16 0x0FFF) a in
    let a := cascade_step 8 (segments 16 0x00FF) a in
    let a := Z.land a m in
    if zero then Z.lxor a m else a
  else if width =? 32 then
    let m := segments 32 0x1 in
    let a := cascade_step 1 (segments 32 0x7FFFFFFF) a in
    let a := cascade_step 2 (segments 32 0x3FFFFFFF) a in
    let a := cascade_step 4 (segments 32 0x0FFFFFFF) a in
    let a := cascade_step 8 (segments 32 0x00FFFFFF) a in
    let a := cascade_step 16 (segments 32 0x0000FFFF) a in
    let a := Z.land a m in
    if zero then Z.lxor a m else a
  else Z.b2z (Bool.eqb (a =? 0) zero).

(** ** Comparing leafs *)

Section Leafs.
Context {St : Type} `{QueryState St} `{Sse}.
Context (sse_support : Z) (m : bytes) (d addr w : Z) (fm : bytes) (fd faddr fw : Z).

Definition leafs_at (c : Cond) (baseindex start : Z) : search :=
  let v := get_direct m d w start in
  report (cond_holds c v (get_direct fm fd fw start)) (qs_match_value (start + baseindex) v).

(** [for (; start < end; start++)], [n = end - start]. *)
Fixpoint leafs_loop (n : nat) (c : Cond) (baseindex start : Z) : search :=
  match n with O => go_on | S n => and_then (leafs_at c baseindex start) (leafs_loop n c baseindex (start + 1)) end.

(** The elements before the first vector, then [next]. *)
Fixpoint leafs_unaligned (n : nat) (c : Cond) (baseindex start : Z) (next : Z -> search) : search :=
  match n with
  | O => next start
  | S n =>
      if negb ((Z.land addr 0xf * 8 + start * w) mod 128 =? 0)
      then and_then (leafs_at c baseindex start) (leafs_unaligned n c baseindex (start + 1) next) else next start
  end.

Fixpoint leafs_vectors (n : nat) (c : Cond) (baseindex start : Z) : search :=
  match n with
  | O => go_on
  | S n =>
      and_then (find_sse_intern 1 c w (get_vector m (d + start * w / 8)) (get_vector fm (fd + start * w / 8) 0) (baseindex + start) 0)
        (leafs_vectors n c baseindex (start + 128 / no0 w))
  end.

Definition compare_leafs_4 (c : Cond) (start end_ baseindex : Z) : search :=
  if (w =? 0) && (fw =? 0) then
    if cond_holds c 0 0 then linear (Z.to_nat (end_ - start)) start (fun _ => true) (fun i => qs_match_value (i + baseindex) 0) else go_on
  else
    let rest start := leafs_loop (Z.to_nat (end_ - start)) c baseindex start in
    if (0 <? sse_support) && (w =? fw) && ((w =? 8) || (w =? 16) || (w =? 32)) && (Z.land addr 0xf =? Z.land faddr 0xf) then
      leafs_unaligned (Z.to_nat (end_ - start)) c baseindex start (fun start =>
        if start =? end_ then go_on
        else
          let sse_items := (end_ - start) * w / 128 in
          let sse_end := start + sse_items * 128 / no0 w in
          and_then (leafs_vectors (Z.to_nat sse_items) c baseindex start) (rest sse_end))
    else rest start.

(** The first element, and then three more, without a check of the range. *)
Definition compare_leafs (c : Cond) (start end_ baseindex : Z) : search :=
  if start =? end_ then go_on
  else
    and_then (leafs_at c baseindex start)
      (let start := start + 1 in
       if start + 3 <? end_ then
         and_then (leafs_at c baseindex start)
           (and_then (leafs_at c baseindex (start + 1))
              (and_then (leafs_at c baseindex (start + 2)) (compare_leafs_4 c (start + 3) end_ baseindex)))
       else if start =? end_ then go_on
       else compare_leafs_4 c start end_ baseindex).
End Leafs.

(** The reference: every position in turn. *)
Definition leafs_reference {St} `{QueryState St} (m : bytes) (d w : Z) (fm : bytes) (fd fw : Z) (c : Cond) (start end_ baseindex : Z) : St -> bool * St :=
  linear (Z.to_nat (end_ - start)) start (fun i => cond_holds c (get_direct m d w i) (get_direct fm fd fw i)) (fun i => qs_match (i + baseindex)).

(** ** Theorems *)

(** The lowest bit of each lane tells whether the lane is zero. *)
Lemma isolate w (zero : bool) x y : 0 <= x < 2 ^ w -> 0 <= w -> spread w x y ->
  (if zero then Z.lxor (Z.land y 1) 1 else Z.land y 1) = Z.b2z (Bool.eqb zero (x =? 0)).
Proof.
  intros Hx Hw Hs. pose proof (spread_odd w x y Hx Hw Hs) as E. destruct zero; [rewrite E; by destruct (x =? 0)|].
  change 1 with (Z.ones 1) in E |- *. rewrite Z.land_ones in * by lia. change (2 ^ 1) with 2 in *. change (Z.ones 1) with 1 in E. rewrite Zmod_odd in *. by destruct (Z.odd y), (x =? 0).
Qed.

Lemma isolate_lane w (zero : bool) a b i : word_width w -> w < 64 -> 0 <= i < per_word w -> spread w (lane w i a) (lane w i b) ->
  lane w i (if zero then Z.lxor (Z.land b (segments w 1)) (segments w 1) else Z.land b (segments w 1)) = Z.b2z (Bool.eqb zero (lane w i a =? 0)).
Proof.
  intros Hw Hw64 Hi Hs. pose proof (width_pos w Hw) as Hp. pose proof (pow_w_le w Hw).
  rewrite <- (isolate w zero _ _ (lane_range w Hp i a) ltac:(lia) Hs).
  destruct zero; rewrite ?lane_lxor, lane_land, lane_segments by (done || lia); done.
Qed.

(** [cascade] sets the lowest bit of exactly those elements of a word that are
    zero, or that are not, and clears every other bit, at every width. *)
Theorem cascade_correct w (zero : bool) a i : word_width w -> 0 <= a < 2 ^ 64 -> 0 <= i < per_word w ->
  lane w i (cascade w zero a) = Z.b2z (Bool.eqb zero (lane w i a =? 0)).
Proof.
  intros Hw Ha Hi. destruct Hw as [->|[->|[->|[->|[->|[->| ->]]]]]]; unfold cascade; cbn [Z.eqb Pos.eqb]; cbv zeta;
    try (try change m1 with (segments 2 1); apply isolate_lane; [unfold word_width; lia|lia|done|cascades]).
  - change (per_word 1) with 64 in Hi. destruct zero; rewrite ?(lane_u64 1) by (unfold word_width; lia || done); rewrite !lane_1, ?Z.lnot_spec by lia.
    + unfold not64. rewrite <- lane_1, (lane_u64 1), lane_1, Z.lnot_spec by (lia || done || unfold word_width; lia). by destruct (Z.testbit a i).
    + by destruct (Z.testbit a i).
  - change (per_word 64) with 1 in Hi. replace i with 0 by lia. rewrite !lane_0. rewrite (Z.mod_small a) by lia.
    destruct (a =? 0), zero; reflexivity.
Qed.

Lemma cascade_correct_witness : lane 4 8 (cascade 4 true 0x5fd07a107610f610) = 1 /\ lane 4 8 (cascade 4 true 0x5fd07a107610f610) = Z.b2z (Bool.eqb true (lane 4 8 0x5fd07a107610f610 =? 0)).
Proof. split; [vm_compute; reflexivity|]. apply (cascade_correct 4 true 0x5fd07a107610f610 8); [unfold word_width; lia|lia|done]. Defined.

Section LeafsProofs.
Context {St : Type} `{QueryStateSpec St} `{SseSpec}.
Context (sse_support : Z) (m : bytes) (d addr w : Z) (fm : bytes) (fd faddr fw : Z).
Context (Hm : is_bytes m) (Hfm : is_bytes fm).

Abbreviation reference := (leafs_reference m d w fm fd fw).

Lemma leafs_at_reference c base start : same (leafs_at m d w fm fd fw c base start) (reference c start (start + 1) base).
Proof.
  unfold leafs_at, leafs_reference. replace (Z.to_nat (start + 1 - start)) with 1%nat by lia. cbn [linear]. rewrite then_go_on.
  unfold report. destruct (cond_holds _ _ _); [apply value_same|done].
Qed.

Lemma reference_split c a b e base : a <= b <= e -> same (reference c a e base) (and_then (reference c a b base) (reference c b e base)).
Proof. intros Hb. by apply linear_split. Qed.

Lemma leafs_loop_reference n c base start : same (leafs_loop m d w fm fd fw n c base start) (reference c start (start + Z.of_nat n) base).
Proof.
  revert start. induction n as [|n IH]; intros start; cbn [leafs_loop]; [unfold leafs_reference; by replace (Z.to_nat (start + Z.of_nat 0 - start)) with 0%nat by lia|].
  rewrite leafs_at_reference, IH, (reference_split c start (start + 1) (start + Z.of_nat (S n))) by lia. by replace (start + 1 + Z.of_nat n) with (start + Z.of_nat (S n)) by lia.
Qed.

Lemma leafs_unaligned_reference n c base start end_ next : end_ = start + Z.of_nat n ->
  (forall i, start <= i <= end_ -> i = end_ \/ (Z.land addr 0xf * 8 + i * w) mod 128 = 0 -> same (next i) (reference c i end_ base)) ->
  same (leafs_unaligned m d addr w fm fd fw n c base start next) (reference c start end_ base).
Proof.
  revert start. induction n as [|n IH]; intros start He Hn; cbn [leafs_unaligned]; [apply Hn; [lia|left; lia]|].
  destruct (Z.eqb_spec ((Z.land addr 0xf * 8 + start * w) mod 128) 0) as [E|E]; cbn [negb]; [apply Hn; [lia|by right]|].
  rewrite leafs_at_reference, (IH (start + 1)); [|lia|intros i Hi Hal; apply Hn; [lia|done]]. symmetry. apply reference_split. lia.
Qed.

Lemma leafs_vectors_reference n c base start : vector_width w -> fw = w -> c <> CondNone -> c <> NotNull -> 0 <= start ->
  same (leafs_vectors m d w fm fd n c base start) (reference c start (start + Z.of_nat n * (128 / w)) base).
Proof.
  intros Hw Hfw Hn Hnn. pose proof (vector_word w Hw) as Hww. destruct (group_width w Hw) as (g & Eg & Hg & Hno & _ & _ & Hl). assert (Hl' : 0 < 128 / w) by nia.
  assert (Ha : forall start, start * w / 8 * 8 = start * w) by (intros i; rewrite Eg; replace (i * (8 * g)) with (i * g * 8) by lia; by rewrite Z.div_mul).
  revert start. induction n as [|n IH]; intros start Hs; cbn [leafs_vectors]; [unfold leafs_reference; by replace (Z.to_nat (start + Z.of_nat 0 * (128 / w) - start)) with 0%nat by lia|].
  rewrite Hno, IH, (reference_split c start (start + 128 / w) (start + Z.of_nat (S n) * (128 / w))) by nia. apply and_then_proper; [|by replace (start + 128 / w + Z.of_nat n * (128 / w)) with (start + Z.of_nat (S n) * (128 / w)) by nia].
  cbn [find_sse_intern]. rewrite then_go_on. fold (vector_mask c (mm_movemask_epi8 (sse_compare c w (get_vector m (d + start * w / 8) 0) (get_vector fm (fd + start * w / 8) 0)))).
  replace (0 * 16 * 8 / no0 w) with 0 by (by rewrite !Z.mul_0_l). rewrite sse_vector_linear by done. unfold leafs_reference. replace (start + 128 / w - start) with (128 / w) by lia.
  pose proof (linear_shift (Z.to_nat (128 / w)) 0 start (fun i => cond_holds c (get_direct m d w i) (get_direct fm fd fw i)) (fun j => qs_match (j + base))) as E.
  rewrite Z.add_0_l in E. rewrite <- E. apply linear_ext.
  - intros j Hj. rewrite Z.sub_0_r, Hfw, (Z.add_comm j start). rewrite <- !(vector_elem _ _ w 0) by (done || lia). rewrite Z.mul_0_l, Z.add_0_l.
    by rewrite !(get_direct_moved _ _ w (start * w / 8) start j) by (done || lia || apply Ha).
  - intros j Hj _. by replace (j + (base + start)) with (j + start + base) by lia.
Qed.

Lemma compare_leafs_4_reference c start end_ base : c <> CondNone -> c <> NotNull -> 0 <= start <= end_ ->
  same (compare_leafs_4 sse_support m d addr w fm fd faddr fw c start end_ base) (reference c start end_ base).
Proof.
  intros Hn Hnn Hs. unfold compare_leafs_4. destruct ((w =? 0) && (fw =? 0)) eqn:E0.
  { apply andb_true_iff in E0 as [Ew Ef]. apply Z.eqb_eq in Ew, Ef. unfold leafs_reference. rewrite Ew, Ef. destruct (cond_holds c 0 0) eqn:Ec.
    - apply linear_ext; [by intros j _|]. intros j _ _. apply value_same.
    - symmetry. apply linear_none. intros j _. exact Ec. }
  assert (Hrest : forall i, i <= end_ -> same (leafs_loop m d w fm fd fw (Z.to_nat (end_ - i)) c base i) (reference c i end_ base)).
  { intros i Hi. rewrite leafs_loop_reference. by replace (i + Z.of_nat (Z.to_nat (end_ - i))) with end_ by lia. }
  destruct (_ && (_ =? Z.land faddr _)) eqn:Es; [|apply Hrest; lia]. rewrite !andb_true_iff, !orb_true_iff, !Z.eqb_eq in Es. destruct Es as [[[_ Efw] Hv] _].
  assert (Hw : vector_width w) by (unfold vector_width; lia). destruct (group_width w Hw) as (g & Eg & Hg & Hno & _ & _ & Hl).
  apply leafs_unaligned_reference; [lia|]. intros i Hi _. destruct (Z.eqb_spec i end_) as [->|Hne]; [unfold leafs_reference; by rewrite Z.sub_diag|].
  set (n := (end_ - i) * w / 128). assert (Hn0 : 0 <= n /\ 128 * n <= (end_ - i) * w) by (unfold n; split; [apply Z.div_pos; nia|dlia]).
  replace (n * 128 / no0 w) with (n * (128 / w)) by (rewrite Hno; apply Z.div_unique_exact; [lia|nia]).
  rewrite leafs_vectors_reference by (done || lia). rewrite Z2Nat.id, Hrest by nia. symmetry. apply reference_split. nia.
Qed.

Lemma compare_leafs_reference c start end_ base : c <> CondNone -> c <> NotNull -> 0 <= start <= end_ ->
  same (compare_leafs sse_support m d addr w fm fd faddr fw c start end_ base) (reference c start end_ base).
Proof.
  intros Hn Hnn Hs. unfold compare_leafs. destruct (Z.eqb_spec start end_) as [->|]; [unfold leafs_reference; by rewrite Z.sub_diag|].
  rewrite (reference_split c start (start + 1) end_) by lia. apply and_then_proper; [apply leafs_at_reference|]. destruct (Z.ltb_spec (start + 1 + 3) end_).
  - rewrite (reference_split c (start + 1) (start + 1 + 1) end_), (reference_split c (start + 1 + 1) (start + 1 + 1 + 1) end_), (reference_split c (start + 1 + 1 + 1) (start + 1 + 1 + 1 + 1) end_) by lia.
    replace (start + 1 + 2) with (start + 1 + 1 + 1) by lia. replace (start + 1 + 3) with (start + 1 + 1 + 1 + 1) by lia. by rewrite !leafs_at_reference, compare_leafs_4_reference by (done || lia).
  - destruct (Z.eqb_spec (start + 1) end_) as [->|]; [unfold leafs_reference; by rewrite Z.sub_diag|]. apply compare_leafs_4_reference; (done || lia).
Qed.

(** Claim C18. Comparing two arrays element by element reports exactly the positions of the
    range at which the condition holds, in order and up to the same stop as a loop over
    the elements, whatever the widths, alignments and vector instructions. *)
Theorem compare_leafs_correct c start end_ base s : c <> CondNone -> c <> NotNull -> 0 <= start <= end_ ->
  compare_leafs sse_support m d addr w fm fd faddr fw c start end_ base s = leafs_reference m d w fm fd fw c start end_ base s.
Proof. intros. by apply compare_leafs_reference. Qed.
End LeafsProofs.

Lemma compare_leafs_correct_witness :
  compare_leafs 1 ramp 3 40 8 ramp 4 56 8 Less 2 40 100 (mkAll 0 50 []) = leafs_reference ramp 3 8 ramp 4 8 Less 2 40 100 (mkAll 0 50 []).
Proof. apply (compare_leafs_correct 1 ramp 3 40 8 ramp 4 56 8 ramp_bytes ramp_bytes Less 2 40 100 (mkAll 0 50 [])); [done|done|lia]. Defined.
