(* ===== verification/Blobs.v ===== *)
(** * Blobs (array_blob.cpp)

    What the leaves of binary values are made of.  A blob is one node of bytes or, above
    [max_binary_size], a node of references to such nodes.  Nodes appear as the values
    they hold: integer arrays as lists, with the operations that the integer arrays are
    shown to have; their placement, copying on write and the references to them are those
    of the node accessor.  [ro] says whether the node is in the committed, read-only part
    of the file.  A [BinaryData] is [None] when it is null. *)

From S2P Require Import Prelude Bytes.

Definition BinaryData : Type := option (list Z).

Definition bd_data (v : BinaryData) : list Z := default [] v.
Definition bd_size (v : BinaryData) : nat := length (bd_data v).
Definition bd_is_null (v : BinaryData) : bool := match v with None => true | Some _ => false end.

Definition zlen {A} (l : list A) : Z := Z.of_nat (length l).

(** ** ArrayBlob *)

Definition max_binary_size : Z := 0xFFFFF8 - 8.

(** One node of bytes, or a node with the context flag that refers to such nodes. *)
Inductive ArrayBlob := One (data : list Z) | Split (nodes : list (list Z)).

Definition blob_size (b : ArrayBlob) : Z :=
  match b with One l => zlen l | Split nodes => sumf zlen nodes end.

(** The bytes of a list, as memory. *)
Definition mem_of (l : list Z) : bytes := fun a => nth (Z.to_nat a) l 0.

Definition zero_term (add_zero_term : bool) : Z := if add_zero_term then 1 else 0.

(** The part of [ArrayBlob::replace] that stays within one node. *)
Definition replace_one (ro : bool) (l : list Z) (begin end_ : Z) (data : list Z) (add_zero_term : bool) : list Z :=
  let data_size := zlen data in
  let remove_size := end_ - begin in
  let add_size := data_size + zero_term add_zero_term in
  let old_size := zlen l in
  let new_size := old_size - remove_size + add_size in
  let m := mem_of l in
  if (remove_size =? add_size) && ro && ((data_size =? 0) || bool_decide (slice m begin data_size = data)) then l
  else
    let modify_begin := begin in
    let m :=
      if negb (begin =? old_size) then
        let n := old_size - end_ in
        if remove_size <? add_size then blit m (new_size - n) m end_ n
        else if add_size <? remove_size then blit m (modify_begin + add_size) m end_ n
        else m
      else m in
    let m := blit m modify_begin (mem_of data) 0 data_size in
    let m := if add_zero_term then upd m (modify_begin + data_size) 0 else m in
    slice m 0 new_size.

(** [while (data_size)]: nodes of at most [max_binary_size] bytes. *)
Fixpoint new_nodes (fuel : nat) (data : list Z) : list (list Z) :=
  match fuel with
  | O => []
  | S fuel =>
      match data with
      | [] => []
      | _ =>
          let size_to_copy := Z.to_nat (Z.min max_binary_size (zlen data)) in
          replace_one false [] 0 0 (take size_to_copy data) false :: new_nodes fuel (drop size_to_copy data)
      end
  end.

(** Appending to a blob with the context flag: the room in the last node first.  When the
    data does not fill that room, [data_size -= space_left] wraps and the loop runs out
    of the data. *)
Definition blob_append (ro : bool) (nodes : list (list Z)) (data : list Z) : result ArrayBlob :=
  let last := default [] (list.last nodes) in
  let space_left := max_binary_size - zlen last in
  let size_to_copy := Z.to_nat (Z.min space_left (zlen data)) in
  let last := replace_one ro last (zlen last) (zlen last) (take size_to_copy data) false in
  if zlen data <? space_left then Throw OutOfRange
  else Ok (Split (take (length nodes - 1) nodes ++ last :: new_nodes (length data) (drop (Z.to_nat space_left) data))).

(** [ArrayBlob::create] and [add] of the whole value. *)
Definition new_blob (data : list Z) (add_zero_term : bool) : result ArrayBlob :=
  if max_binary_size <? zlen data + zero_term add_zero_term then blob_append false [[]] data
  else Ok (One (replace_one false [] 0 0 data add_zero_term)).

Definition blob_replace (ro : bool) (nodes : list (list Z)) (begin end_ : Z) (data : list Z) (add_zero_term : bool) : result ArrayBlob :=
  let sz := blob_size (Split nodes) in
  if (begin =? sz) && (end_ =? sz) then blob_append ro nodes data
  else if (begin =? 0) && (end_ =? sz) then new_blob data add_zero_term
  else Throw AssertionFailed.

Definition blob_replace_one (ro : bool) (b : ArrayBlob) (begin end_ : Z) (data : list Z) (add_zero_term : bool) : result ArrayBlob :=
  match b with
  | Split _ => Throw AssertionFailed
  | One l =>
      if max_binary_size <? zlen l - (end_ - begin) + (zlen data + zero_term add_zero_term) then blob_replace ro [l] begin end_ data add_zero_term
      else Ok (One (replace_one ro l begin end_ data add_zero_term))
  end.

Definition blob_add (ro : bool) (b : ArrayBlob) (data : list Z) (add_zero_term : bool) : result ArrayBlob :=
  blob_replace_one ro b (blob_size b) (blob_size b) data add_zero_term.
Definition blob_insert (ro : bool) (b : ArrayBlob) (pos : Z) (data : list Z) (add_zero_term : bool) : result ArrayBlob :=
  blob_replace_one ro b pos pos data add_zero_term.
Definition blob_erase (ro : bool) (b : ArrayBlob) (begin end_ : Z) : result ArrayBlob := blob_replace_one ro b begin end_ [] false.

(** The piece of the blob at [pos] and the position of the next one, 0 after the last. *)
Fixpoint get_at_nodes (nodes : list (list Z)) (offset pos : Z) : list Z * Z :=
  match nodes with
  | [] => ([], 0)
  | node :: rest =>
      if offset <? zlen node then (drop (Z.to_nat offset) node, match rest with [] => 0 | _ => pos + (zlen node - offset) end)
      else get_at_nodes rest (offset - zlen node) pos
  end.

Definition blob_get_at (b : ArrayBlob) (pos : Z) : list Z * Z :=
  match b with
  | Split nodes => get_at_nodes nodes pos pos
  | One l => (if pos <? zlen l then drop (Z.to_nat pos) l else [], 0)
  end.

(** ** Integer arrays as lists *)

Definition adjust (begin : nat) (diff : Z) (l : list Z) : list Z := take begin l ++ map (fun v => v + diff) (drop begin l).
