(* ===== verification/SmallBlobs.v ===== *)
(** * Small blobs (array_blobs_small.cpp)

    Values of at most 64 bytes lie one behind the other in one blob; an integer array holds
    their ends and another one marks the nulls. *)

From S2P Require Import Prelude Bytes Blobs.

Record ArraySmallBlobs := mkSmall { m_offsets : list Z; m_blob : ArrayBlob; m_nulls : list Z }.

(** The bytes of the node at [m_blob]; a node with the context flag holds no bytes. *)
Definition node_bytes (b : ArrayBlob) : list Z := match b with One l => l | Split _ => [] end.

Definition b2i (b : bool) : Z := if b then 1 else 0.

Definition offset_before (l : list Z) (ndx : nat) : Z := match ndx with O => 0 | S n => nth n l 0 end.

Module Small.

(** [create(values, count)], and [create_array] of [size] nulls or empty values. *)
Fixpoint ends (end_ : Z) (values : list BinaryData) : list Z :=
  match values with [] => [] | v :: values => let end_ := end_ + Z.of_nat (bd_size v) in end_ :: ends end_ values end.

Definition create (values : list BinaryData) : ArraySmallBlobs :=
  mkSmall (ends 0 values) (One (concat (map bd_data values))) (map (fun v => b2i (bd_is_null v)) values).

Definition create_array (size : nat) (defaults : BinaryData) : result ArraySmallBlobs :=
  if negb (bd_size defaults =? 0)%nat then Throw AssertionFailed
  else Ok (mkSmall (repeat 0 size) (One []) (repeat (b2i (bd_is_null defaults)) size)).

Definition size (s : ArraySmallBlobs) : nat := length (m_offsets s).

Definition get (s : ArraySmallBlobs) (ndx : nat) : BinaryData :=
  if negb (nth ndx (m_nulls s) 0 =? 0) then None
  else
    let begin := offset_before (m_offsets s) ndx in
    let end_ := nth ndx (m_offsets s) 0 in
    Some (slice (mem_of (node_bytes (m_blob s))) begin (end_ - begin)).

Definition is_null (s : ArraySmallBlobs) (ndx : nat) : bool := negb (nth ndx (m_nulls s) 0 =? 0).

Definition add (ro : bool) (s : ArraySmallBlobs) (value : BinaryData) (add_zero_term : bool) : result ArraySmallBlobs :=
  blob ← blob_add ro (m_blob s) (bd_data value) add_zero_term;
  let end_ := Z.of_nat (bd_size value) + zero_term add_zero_term in
  let end_ := match list.last (m_offsets s) with Some back => end_ + back | None => end_ end in
  Ok (mkSmall (m_offsets s ++ [end_]) blob (m_nulls s ++ [b2i (bd_is_null value)])).

Definition set (ro : bool) (s : ArraySmallBlobs) (ndx : nat) (value : BinaryData) (add_zero_term : bool) : result ArraySmallBlobs :=
  let start := offset_before (m_offsets s) ndx in
  let current_end := nth ndx (m_offsets s) 0 in
  let stored_size := Z.of_nat (bd_size value) + zero_term add_zero_term in
  let diff := start + stored_size - current_end in
  blob ← blob_replace_one ro (m_blob s) start current_end (bd_data value) add_zero_term;
  Ok (mkSmall (adjust ndx diff (m_offsets s)) blob (<[ndx := b2i (bd_is_null value)]> (m_nulls s))).

Definition insert (ro : bool) (s : ArraySmallBlobs) (ndx : nat) (value : BinaryData) (add_zero_term : bool) : result ArraySmallBlobs :=
  let pos := offset_before (m_offsets s) ndx in
  blob ← blob_insert ro (m_blob s) pos (bd_data value) add_zero_term;
  let stored_size := Z.of_nat (bd_size value) + zero_term add_zero_term in
  Ok (mkSmall (adjust (ndx + 1) stored_size (list_insert_at ndx (pos + stored_size) (m_offsets s))) blob
        (list_insert_at ndx (b2i (bd_is_null value)) (m_nulls s))).

Definition erase (ro : bool) (s : ArraySmallBlobs) (ndx : nat) : result ArraySmallBlobs :=
  let start := offset_before (m_offsets s) ndx in
  let end_ := nth ndx (m_offsets s) 0 in
  blob ← blob_erase ro (m_blob s) start end_;
  Ok (mkSmall (adjust ndx (start - end_) (list_erase_range ndx (S ndx) (m_offsets s))) blob (list_erase_range ndx (S ndx) (m_nulls s))).

(** [m_blob.truncate] cuts the node, whatever it holds. *)
Definition truncate (s : ArraySmallBlobs) (new_size : nat) : result ArraySmallBlobs :=
  if negb ((new_size =? 0)%nat || (new_size <? size s)%nat) then Throw AssertionFailed
  else
    let sz := offset_before (m_offsets s) new_size in
    Ok (mkSmall (take new_size (m_offsets s))
          (match m_blob s with One l => One (take (Z.to_nat sz) l) | Split nodes => Split (take (Z.to_nat sz) nodes) end)
          (take new_size (m_nulls s))).

Definition clear (s : ArraySmallBlobs) : ArraySmallBlobs := mkSmall [] (One []) [].

(** [for (i = begin; i != end; ++i)], [n = end - begin]. *)
Fixpoint find_null (n : nat) (s : ArraySmallBlobs) (i : nat) : option nat :=
  match n with
  | O => None
  | S n => if negb (nth i (m_nulls s) 0 =? 0) then Some i else find_null n s (S i)
  end.

Fixpoint find_value (n : nat) (s : ArraySmallBlobs) (value : list Z) (full_size start_ofs : Z) (i : nat) : option nat :=
  match n with
  | O => None
  | S n =>
      let end_ofs := nth i (m_offsets s) 0 in
      let this_size := end_ofs - start_ofs in
      if (nth i (m_nulls s) 0 =? 0) && (this_size =? full_size) && bool_decide (slice (mem_of (node_bytes (m_blob s))) start_ofs (zlen value) = value)
      then Some i else find_value n s value full_size end_ofs (S i)
  end.

Definition find_first (s : ArraySmallBlobs) (value : BinaryData) (is_string : bool) (begin end_ : nat) : option nat :=
  match value with
  | None => find_null (end_ - begin) s begin
  | Some data => find_value (end_ - begin) s data (zlen data + zero_term is_string) (offset_before (m_offsets s) begin) begin
  end.

End Small.
