(* ===== verification/BigBlobs.v ===== *)
(** * Big blobs (array_blobs_big.cpp)

    Every value has a blob of its own; a null has none. *)

From S2P Require Import Prelude Bytes Blobs.

Definition ArrayBigBlobs : Type := list (option ArrayBlob).

Module Big.
Section Big.
(** The bytes of a node of references. *)
Context (refs_bytes : list (list Z) -> list Z).

Definition make_blob (value : list Z) (add_zero_term : bool) : result ArrayBlob :=
  if max_binary_size <? zlen value + zero_term add_zero_term then new_blob value add_zero_term
  else Ok (One (value ++ if add_zero_term then [0] else [])).

Fixpoint create (values : list BinaryData) : result ArrayBigBlobs :=
  match values with
  | [] => Ok []
  | v :: values =>
      b ← (match v with None => Ok None | Some data => blob ← make_blob data false; Ok (Some blob) end);
      rest ← create values;
      Ok (b :: rest)
  end.

Definition get (s : ArrayBigBlobs) (ndx : nat) : BinaryData :=
  match nth ndx s None with Some (One l) => Some l | _ => None end.

Definition is_null (s : ArrayBigBlobs) (ndx : nat) : bool := match nth ndx s None with None => true | Some _ => false end.

Definition get_at (s : ArrayBigBlobs) (ndx : nat) (pos : Z) : BinaryData * Z :=
  match nth ndx s None with None => (None, pos) | Some b => let '(d, pos) := blob_get_at b pos in (Some d, pos) end.

Definition add (s : ArrayBigBlobs) (value : BinaryData) (add_zero_term : bool) : result ArrayBigBlobs :=
  match value with
  | None => Ok (s ++ [None])
  | Some data => blob ← new_blob data add_zero_term; Ok (s ++ [Some blob])
  end.

Definition set (ro : bool) (s : ArrayBigBlobs) (ndx : nat) (value : BinaryData) (add_zero_term : bool) : result ArrayBigBlobs :=
  match nth ndx s None, value with
  | None, None => Ok s
  | None, Some data => blob ← make_blob data add_zero_term; Ok (<[ndx := Some blob]> s)
  | Some (One l), Some data =>
      if ro then blob ← make_blob data add_zero_term; Ok (<[ndx := Some blob]> s)
      else blob ← blob_replace_one false (One l) 0 (zlen l) data add_zero_term; Ok (<[ndx := Some blob]> s)
  | Some (Split nodes), Some data => blob ← blob_replace ro nodes 0 (blob_size (Split nodes)) data add_zero_term; Ok (<[ndx := Some blob]> s)
  | Some _, None => Ok (<[ndx := None]> s)
  end.

Definition insert (s : ArrayBigBlobs) (ndx : nat) (value : BinaryData) (add_zero_term : bool) : result ArrayBigBlobs :=
  match value with
  | None => Ok (list_insert_at ndx None s)
  | Some data => blob ← new_blob data add_zero_term; Ok (list_insert_at ndx (Some blob) s)
  end.

Definition erase (s : ArrayBigBlobs) (ndx : nat) : ArrayBigBlobs := list_erase_range ndx (S ndx) s.
Definition truncate (s : ArrayBigBlobs) (new_size : nat) : ArrayBigBlobs := take new_size s.
Definition clear (s : ArrayBigBlobs) : ArrayBigBlobs := [].

(** Size and contents of the node at the top of a blob. *)
Definition top_size (b : ArrayBlob) : Z := match b with One l => zlen l | Split nodes => zlen nodes end.
Definition top_bytes (b : ArrayBlob) : list Z := match b with One l => l | Split nodes => refs_bytes nodes end.

Definition matches (value : BinaryData) (is_string : bool) (b : option ArrayBlob) : bool :=
  match value, b with
  | None, None => true
  | Some data, Some b => (top_size b =? zlen data + zero_term is_string) && bool_decide (take (length data) (top_bytes b) = data)
  | _, _ => false
  end.

Fixpoint find_loop (n : nat) (s : ArrayBigBlobs) (value : BinaryData) (is_string : bool) (i : nat) : option nat :=
  match n with
  | O => None
  | S n => if matches value is_string (nth i s None) then Some i else find_loop n s value is_string (S i)
  end.

Definition find_first (s : ArrayBigBlobs) (value : BinaryData) (is_string : bool) (begin end_ : nat) : option nat :=
  find_loop (end_ - begin) s value is_string begin.

(** [for (;;) { ndx = find_first(value, begin, end); ... begin = ndx + 1 }]: the positions. *)
Fixpoint find_all (fuel : nat) (s : ArrayBigBlobs) (value : BinaryData) (is_string : bool) (begin end_ : nat) : list nat :=
  match fuel with
  | O => []
  | S fuel =>
      match find_first s value is_string begin end_ with
      | None => []
      | Some ndx => ndx :: find_all fuel s value is_string (S ndx) end_
      end
  end.

Definition count (s : ArrayBigBlobs) (value : BinaryData) (is_string : bool) (begin end_ : nat) : nat :=
  length (find_all (S (end_ - begin)) s value is_string begin end_).
End Big.
End Big.
