(* ===== verification/PackedBlobs.v ===== *)
(** * Packed leaves of binary values (array_packed_blobs.cpp)

    Values lie in immutable blocks of bytes with a directory; small integer arrays hold the
    logical order and the places of replaced values.  Blocks are the bytes of their nodes,
    up to the size in the header; the padding to eight bytes behind them is left out. *)

From S2P Require Import Prelude Bytes Blobs.

(** ** Bytes of a block *)

Definition byte_at (l : list Z) (i : nat) : Z := nth i l 0.

Definition read_u16 (l : list Z) (p : nat) : Z := Z.lor (u8 (byte_at l p)) (Z.shiftl (u8 (byte_at l (p + 1))) 8).

Definition read_u32 (l : list Z) (p : nat) : Z :=
  Z.lor (Z.lor (Z.lor (u8 (byte_at l p)) (Z.shiftl (u8 (byte_at l (p + 1))) 8)) (Z.shiftl (u8 (byte_at l (p + 2))) 16))
    (Z.shiftl (u8 (byte_at l (p + 3))) 24).

(** What [write_u16] and [write_u32] store. *)
Definition write_u16 (value : Z) : list Z := [u8 value; u8 (Z.shiftr value 8)].
Definition write_u32 (value : Z) : list Z := [u8 value; u8 (Z.shiftr value 8); u8 (Z.shiftr value 16); u8 (Z.shiftr value 24)].

Definition target_block_size : Z := 256 * 1024.
Definition max_inline_block_size : Z := 1024 * 1024.
Definition block_magic : Z := 0x4b4c4250.
Definition block_version : Z := 1.
Definition null_length : Z := 0xffffffff.
Definition block_header_size : nat := 16.
Definition directory_entry_size : nat := 8.

(** The number of values, from the first of [values] on, that share a block. *)
Fixpoint block_loop (values : list BinaryData) (used : Z) (n : nat) : nat :=
  match values with
  | [] => n
  | v :: values =>
      let value_size := Z.of_nat (bd_size v) in
      let need := 8 + value_size in
      let standalone := max_inline_block_size <? value_size in
      if negb (n =? 0)%nat && (standalone || (target_block_size <? used + need)) then n
      else if (n =? 0)%nat && standalone then 1
      else block_loop values (used + need) (S n)
  end.

Definition block_end (values : list BinaryData) : nat := block_loop values 16 0.

Definition can_pack (values : list BinaryData) : bool :=
  match values with
  | [] => false
  | _ => forallb (fun v => Z.of_nat (bd_size v) <=? max_binary_size - (8 + 16 + 8)) values
  end.

(** The sum of the sizes, unless it leaves 32 bits. *)
Fixpoint payload_size (values : list BinaryData) (sum : Z) : result Z :=
  match values with
  | [] => Ok sum
  | v :: values => if 2 ^ 32 - 1 - sum <? Z.of_nat (bd_size v) then Throw LengthError else payload_size values (sum + Z.of_nat (bd_size v))
  end.

Fixpoint directory (values : list BinaryData) (offset : Z) : list Z :=
  match values with
  | [] => []
  | v :: values =>
      write_u32 offset ++ write_u32 (if bd_is_null v then null_length else u32 (Z.of_nat (bd_size v))) ++ directory values (offset + Z.of_nat (bd_size v))
  end.

Definition create_block (values : list BinaryData) : result (list Z) :=
  let count := zlen values in
  if (count =? 0) || (2 ^ 16 - 1 <? count) then Throw InvalidArgument
  else
    payload ← payload_size values 0;
    let data_size := 16 + count * 8 + payload in
    if max_binary_size <? data_size then Throw LengthError
    else Ok (write_u32 block_magic ++ write_u16 block_version ++ write_u16 (u16 count) ++ write_u32 (u32 (count * 8)) ++ write_u32 (u32 payload) ++
             directory values 0 ++ concat (map bd_data values)).

Definition get_from_block (block : list Z) (row : nat) : BinaryData :=
  let directory_size := Z.to_nat (read_u32 block 8) in
  let entry := (block_header_size + row * directory_entry_size)%nat in
  let offset := Z.to_nat (read_u32 block entry) in
  let length := read_u32 block (entry + 4) in
  if length =? null_length then None
  else Some (take (Z.to_nat length) (drop (block_header_size + directory_size + offset) block)).

(** ** The leaf *)

Record ArrayPackedBlobs := mkPacked {
  m_base_blocks : list (list Z); m_base_ends : list Z; m_delta_blocks : list (list Z); m_overrides : list Z; m_order : list Z }.

Module Packed.

(** [for (begin = 0; begin < count;)]: at most one round per value. *)
Fixpoint append_base_blocks (fuel : nat) (blocks : list (list Z)) (ends : list Z) (total : Z) (values : list BinaryData) : result (list (list Z) * list Z) :=
  match fuel with
  | O => OutOfFuel
  | S fuel =>
      match values with
      | [] => Ok (blocks, ends)
      | _ =>
          let n := block_end values in
          block ← create_block (take n values);
          let total := total + Z.of_nat n in
          append_base_blocks fuel (blocks ++ [block]) (ends ++ [total]) total (drop n values)
      end
  end.

Definition create (values : list BinaryData) : result ArrayPackedBlobs :=
  if negb (can_pack values) then Throw LengthError
  else
    base ← append_base_blocks (S (length values)) [] [] 0 values;
    Ok (mkPacked base.1 base.2 [] (repeat 0 (length values)) (map Z.of_nat (seq 0 (length values)))).

Definition size (s : ArrayPackedBlobs) : nat := length (m_order s).

(** The base block that holds [slot], and the end of the one before it. *)
Fixpoint find_block (ends : list Z) (slot previous_end : Z) (block_ndx : nat) : nat * Z :=
  match ends with
  | [] => (block_ndx, previous_end)
  | e :: ends => if e <=? slot then find_block ends slot e (S block_ndx) else (block_ndx, previous_end)
  end.

Definition get_slot (s : ArrayPackedBlobs) (slot : Z) : BinaryData :=
  let encoded := u64 (nth (Z.to_nat slot) (m_overrides s) 0) in
  if negb (encoded =? 0) then
    let location := encoded - 1 in
    let block_ndx := Z.to_nat (Z.shiftr location 16) in
    let row := Z.to_nat (Z.land location 0xffff) in
    get_from_block (nth block_ndx (m_delta_blocks s) []) row
  else
    let '(block_ndx, previous_end) := find_block (m_base_ends s) slot 0 0 in
    get_from_block (nth block_ndx (m_base_blocks s) []) (Z.to_nat (slot - previous_end)).

Definition get (s : ArrayPackedBlobs) (ndx : nat) : BinaryData := get_slot s (nth ndx (m_order s) 0).

Definition location (block_ndx row : nat) : Z := Z.lor (Z.shiftl (Z.of_nat block_ndx) 16) (Z.of_nat row).

Definition append_delta_block (s : ArrayPackedBlobs) (values : list BinaryData) : result (ArrayPackedBlobs * nat) :=
  block ← create_block values;
  Ok (mkPacked (m_base_blocks s) (m_base_ends s) (m_delta_blocks s ++ [block]) (m_overrides s) (m_order s), length (m_delta_blocks s)).

Fixpoint append_rows (n : nat) (s : ArrayPackedBlobs) (block_ndx row : nat) : ArrayPackedBlobs :=
  match n with
  | O => s
  | S n =>
      let slot := zlen (m_overrides s) in
      append_rows n (mkPacked (m_base_blocks s) (m_base_ends s) (m_delta_blocks s) (m_overrides s ++ [location block_ndx row + 1]) (m_order s ++ [slot])) block_ndx (S row)
  end.

Fixpoint append (fuel : nat) (s : ArrayPackedBlobs) (values : list BinaryData) : result ArrayPackedBlobs :=
  match fuel with
  | O => OutOfFuel
  | S fuel =>
      match values with
      | [] => Ok s
      | _ =>
          let n := block_end values in
          r ← append_delta_block s (take n values);
          append fuel (append_rows n r.1 r.2 0) (drop n values)
      end
  end.

Definition add (s : ArrayPackedBlobs) (value : BinaryData) : result ArrayPackedBlobs := append 2 s [value].

Definition insert (s : ArrayPackedBlobs) (ndx : nat) (value : BinaryData) : result ArrayPackedBlobs :=
  r ← append_delta_block s [value];
  let s := r.1 in
  let slot := zlen (m_overrides s) in
  Ok (mkPacked (m_base_blocks s) (m_base_ends s) (m_delta_blocks s) (m_overrides s ++ [Z.shiftl (Z.of_nat r.2) 16 + 1]) (list_insert_at ndx slot (m_order s))).

Fixpoint set_rows (positions : list nat) (s : ArrayPackedBlobs) (position_base block_ndx row : nat) : ArrayPackedBlobs :=
  match positions with
  | [] => s
  | p :: positions =>
      let local_ndx := (p - position_base)%nat in
      let slot := Z.to_nat (nth local_ndx (m_order s) 0) in
      set_rows positions (mkPacked (m_base_blocks s) (m_base_ends s) (m_delta_blocks s) (<[slot := location block_ndx row + 1]> (m_overrides s)) (m_order s))
        position_base block_ndx (S row)
  end.

Fixpoint set_many (fuel : nat) (s : ArrayPackedBlobs) (positions : list nat) (values : list BinaryData) (position_base : nat) : result ArrayPackedBlobs :=
  match fuel with
  | O => OutOfFuel
  | S fuel =>
      match values with
      | [] => Ok s
      | _ =>
          let n := block_end values in
          r ← append_delta_block s (take n values);
          set_many fuel (set_rows (take n positions) r.1 position_base r.2 0) (drop n positions) (drop n values) position_base
      end
  end.

Definition set (s : ArrayPackedBlobs) (ndx : nat) (value : BinaryData) : result ArrayPackedBlobs := set_many 2 s [ndx] [value] 0.

Definition with_order (order : list Z) (s : ArrayPackedBlobs) : ArrayPackedBlobs :=
  mkPacked (m_base_blocks s) (m_base_ends s) (m_delta_blocks s) (m_overrides s) order.

Definition erase (s : ArrayPackedBlobs) (ndx : nat) : ArrayPackedBlobs := with_order (list_erase_range ndx (S ndx) (m_order s)) s.

Definition truncate (s : ArrayPackedBlobs) (new_size : nat) : ArrayPackedBlobs :=
  if (new_size <? size s)%nat then with_order (take new_size (m_order s)) s else s.

Definition clear (s : ArrayPackedBlobs) : ArrayPackedBlobs := with_order [] s.

Definition bd_equal (a b : BinaryData) : bool :=
  if negb (Bool.eqb (bd_is_null a) (bd_is_null b)) || negb (bd_size a =? bd_size b)%nat then false
  else bd_is_null a || (bd_size a =? 0)%nat || bool_decide (bd_data a = bd_data b).

Fixpoint find_loop (n : nat) (s : ArrayPackedBlobs) (value : BinaryData) (i : nat) : option nat :=
  match n with O => None | S n => if bd_equal (get s i) value then Some i else find_loop n s value (S i) end.

Definition find_first (s : ArrayPackedBlobs) (value : BinaryData) (begin end_ : nat) : option nat := find_loop (end_ - begin) s value begin.

Definition needs_normalize (s : ArrayPackedBlobs) : bool :=
  if negb (length (m_delta_blocks s) =? 0)%nat then true
  else
    let base_size := default 0 (list.last (m_base_ends s)) in
    if negb (zlen (m_order s) =? base_size) || negb (zlen (m_overrides s) =? base_size) then true
    else existsb (fun i => negb (nth i (m_order s) 0 =? Z.of_nat i) || negb (nth i (m_overrides s) 0 =? 0)) (seq 0 (length (m_order s))).

End Packed.
