(* ===== verification/ArrayBinary.v ===== *)
(** * Leaves of binary values (array_binary.cpp)

    [ArrayBinary] holds its values in one of three representations and changes between
    them: small blobs, big blobs and packed blocks. *)

From S2P Require Import Prelude Bytes Blobs SmallBlobs BigBlobs PackedBlobs.

Inductive ArrayBinary := KSmall (s : ArraySmallBlobs) | KBig (s : ArrayBigBlobs) | KPacked (s : ArrayPackedBlobs).

Module Binary.
Section Binary.
Context (refs_bytes : list (list Z) -> list Z).

Definition small_blob_max_size : Z := 64.

Definition is_large (v : BinaryData) : bool := small_blob_max_size <? Z.of_nat (bd_size v).

Definition create : ArrayBinary := KSmall (Small.create []).

Definition create_values (values : list BinaryData) : result ArrayBinary :=
  let needs_big := existsb is_large values in
  let total_size := sumf (fun v => Z.of_nat (bd_size v)) values in
  if negb needs_big then Ok (KSmall (Small.create values))
  else if (4096 <? total_size) && can_pack values then s ← Packed.create values; Ok (KPacked s)
  else s ← Big.create values; Ok (KBig s).

Definition size (a : ArrayBinary) : nat :=
  match a with KSmall s => Small.size s | KBig s => length s | KPacked s => Packed.size s end.

Definition get (a : ArrayBinary) (ndx : nat) : BinaryData :=
  match a with KSmall s => Small.get s ndx | KBig s => Big.get s ndx | KPacked s => Packed.get s ndx end.

Definition get_at (a : ArrayBinary) (ndx : nat) (pos : Z) : BinaryData * Z :=
  match a with KSmall s => (Small.get s ndx, 0) | KBig s => Big.get_at s ndx pos | KPacked s => (Packed.get s ndx, 0) end.

Definition is_null (a : ArrayBinary) (ndx : nat) : bool :=
  match a with KSmall s => Small.is_null s ndx | KBig s => Big.is_null s ndx | KPacked s => bd_is_null (Packed.get s ndx) end.

(** The values as [get] returns them. *)
Definition get_all (a : ArrayBinary) : list BinaryData := map (get a) (seq 0 (size a)).

Fixpoint add_all (s : ArrayBigBlobs) (values : list BinaryData) : result ArrayBigBlobs :=
  match values with [] => Ok s | v :: values => s ← Big.add s v false; add_all s values end.

(** Small blobs become big ones for a value that is too large for them. *)
Definition upgrade_leaf (s : ArraySmallBlobs) (value_size : Z) : result (ArraySmallBlobs + ArrayBigBlobs) :=
  if value_size <=? small_blob_max_size then Ok (inl s)
  else b ← add_all [] (map (Small.get s) (seq 0 (Small.size s))); Ok (inr b).

Definition add (ro : bool) (a : ArrayBinary) (value : BinaryData) : result ArrayBinary :=
  match a with
  | KPacked s => s ← Packed.add s value; Ok (KPacked s)
  | KBig s => s ← Big.add s value false; Ok (KBig s)
  | KSmall s =>
      u ← upgrade_leaf s (Z.of_nat (bd_size value));
      match u with
      | inl s => s ← Small.add ro s value false; Ok (KSmall s)
      | inr b => b ← Big.add b value false; Ok (KBig b)
      end
  end.

Definition replace_with_packed (values : list BinaryData) : result ArrayBinary := s ← Packed.create values; Ok (KPacked s).
Definition replace_with_empty : ArrayBinary := KSmall (Small.create []).

Fixpoint add_values (ro : bool) (a : ArrayBinary) (values : list BinaryData) : result ArrayBinary :=
  match values with [] => Ok a | v :: values => a ← add ro a v; add_values ro a values end.

Definition append (ro : bool) (a : ArrayBinary) (values : list BinaryData) : result ArrayBinary :=
  match values with
  | [] => Ok a
  | _ =>
      match a with
      | KPacked s => s ← Packed.append (S (length values)) s values; Ok (KPacked s)
      | _ =>
          let all := get_all a ++ values in
          let total_size := sumf (fun v => Z.of_nat (bd_size v)) all in
          let has_large := existsb is_large all in
          if has_large && (4096 <? total_size) && can_pack all then replace_with_packed all
          else add_values ro a values
      end
  end.

Definition set (ro : bool) (a : ArrayBinary) (ndx : nat) (value : BinaryData) : result ArrayBinary :=
  match a with
  | KPacked s => s ← Packed.set s ndx value; Ok (KPacked s)
  | KBig s => s ← Big.set ro s ndx value false; Ok (KBig s)
  | KSmall s =>
      u ← upgrade_leaf s (Z.of_nat (bd_size value));
      match u with
      | inl s => s ← Small.set ro s ndx value false; Ok (KSmall s)
      | inr b => b ← Big.set false b ndx value false; Ok (KBig b)
      end
  end.

Fixpoint set_each (ro : bool) (a : ArrayBinary) (positions : list nat) (values : list BinaryData) (position_base : nat) : result ArrayBinary :=
  match positions, values with
  | p :: positions, v :: values => a ← set ro a (p - position_base) v; set_each ro a positions values position_base
  | _, _ => Ok a
  end.

Definition set_many (ro : bool) (a : ArrayBinary) (positions : list nat) (values : list BinaryData) (position_base : nat) : result ArrayBinary :=
  match a with
  | KPacked s => s ← Packed.set_many (S (length values)) s positions values position_base; Ok (KPacked s)
  | _ => set_each ro a positions values position_base
  end.

Definition insert (ro : bool) (a : ArrayBinary) (ndx : nat) (value : BinaryData) : result ArrayBinary :=
  match a with
  | KPacked s => s ← Packed.insert s ndx value; Ok (KPacked s)
  | KBig s => s ← Big.insert s ndx value false; Ok (KBig s)
  | KSmall s =>
      u ← upgrade_leaf s (Z.of_nat (bd_size value));
      match u with
      | inl s => s ← Small.insert ro s ndx value false; Ok (KSmall s)
      | inr b => b ← Big.insert b ndx value false; Ok (KBig b)
      end
  end.

Definition erase (ro : bool) (a : ArrayBinary) (ndx : nat) : result ArrayBinary :=
  match a with
  | KSmall s => s ← Small.erase ro s ndx; Ok (KSmall s)
  | KBig s => Ok (KBig (Big.erase s ndx))
  | KPacked s => Ok (KPacked (Packed.erase s ndx))
  end.

Definition truncate (a : ArrayBinary) (ndx : nat) : result ArrayBinary :=
  match a with
  | KSmall s => s ← Small.truncate s ndx; Ok (KSmall s)
  | KBig s => Ok (KBig (Big.truncate s ndx))
  | KPacked s => Ok (KPacked (Packed.truncate s ndx))
  end.

(** The values from [ndx] on are appended to [dst] and cut off. *)
Definition move (ro : bool) (a dst : ArrayBinary) (ndx : nat) : result (ArrayBinary * ArrayBinary) :=
  dst ← append ro dst (drop ndx (get_all a));
  a ← truncate a ndx;
  Ok (a, dst).

Definition clear (a : ArrayBinary) : ArrayBinary :=
  match a with
  | KPacked _ => replace_with_empty
  | KSmall s => KSmall (Small.clear s)
  | KBig s => KBig (Big.clear s)
  end.

Definition normalize_packed (a : ArrayBinary) : result (ArrayBinary * bool) :=
  match a with
  | KPacked s =>
      if negb (Packed.needs_normalize s) then Ok (a, false)
      else if (size a =? 0)%nat then Ok (replace_with_empty, true)
      else a ← replace_with_packed (get_all a); Ok (a, true)
  | _ => Ok (a, false)
  end.

Definition find_first (a : ArrayBinary) (value : BinaryData) (begin end_ : nat) : option nat :=
  match a with
  | KSmall s => Small.find_first s value false begin end_
  | KBig s => Big.find_first refs_bytes s value false begin end_
  | KPacked s => Packed.find_first s value begin end_
  end.
End Binary.
End Binary.

(** ** Reading a value piece by piece (column_binary.hpp)

    The column is what its [get_at] returns. *)
Record BinaryIterator := mkIter {
  m_end_of_data : bool; m_binary_col : option (nat -> Z -> BinaryData * Z); m_ndx : nat; m_pos : Z; m_binary : BinaryData }.

Definition iter_column (col : nat -> Z -> BinaryData * Z) (ndx : nat) : BinaryIterator := mkIter false (Some col) ndx 0 None.
Definition iter_value (binary : BinaryData) : BinaryIterator := mkIter false None 0 0 binary.

Definition get_next (it : BinaryIterator) : BinaryData * BinaryIterator :=
  if negb (m_end_of_data it) then
    match m_binary_col it with
    | Some col =>
        let '(ret, pos) := col (m_ndx it) (m_pos it) in
        (ret, mkIter (pos =? 0) (Some col) (m_ndx it) pos (m_binary it))
    | None =>
        if negb (bd_is_null (m_binary it)) then (m_binary it, mkIter true None (m_ndx it) (m_pos it) (m_binary it)) else (None, it)
    end
  else (None, it).
