(* ===== verification/BlobsInv.v ===== *)
(** * Blobs and the leaves of small and of big blobs

    What the operations on one blob do to its bytes, and the lists of values that leaves of
    small and of big blobs hold. *)

From S2P Require Import Prelude Bytes Blobs SmallBlobs BigBlobs.

Lemma zlen_app {A} (l k : list A) : zlen (l ++ k) = zlen l + zlen k.
Proof. unfold zlen. rewrite length_app. lia. Qed.
Lemma zlen_cons {A} (x : A) l : zlen (x :: l) = 1 + zlen l.
Proof. unfold zlen. cbn [length]. lia. Qed.
Lemma zlen_nonneg {A} (l : list A) : 0 <= zlen l.
Proof. unfold zlen. lia. Qed.

Lemma list_eq_nth (l k : list Z) : length l = length k -> (forall i, (i < length l)%nat -> nth i l 0 = nth i k 0) -> l = k.
Proof.
  intros Hl H. apply (nth_ext _ _ 0 0 Hl H).
Qed.

Lemma slice_mem_of l a n : 0 <= a -> 0 <= n -> a + n <= zlen l -> slice (mem_of l) a n = take (Z.to_nat n) (drop (Z.to_nat a) l).
Proof.
  intros Ha Hn Hl. unfold zlen in Hl. apply list_eq_nth; [rewrite length_slice, length_take, length_drop; lia|].
  intros i Hi. rewrite length_slice in Hi. rewrite nth_slice by lia. unfold mem_of.
  rewrite !nth_lookup, lookup_take_lt, lookup_drop by lia. do 2 f_equal. lia.
Qed.

(** ** Splicing *)

Definition zero_bytes (z : bool) : list Z := if z then [0] else [].

Lemma zlen_zero_bytes z : zlen (zero_bytes z) = zero_term z.
Proof. by destruct z. Qed.

Definition splice (l : list Z) (begin end_ : Z) (data : list Z) : list Z := take (Z.to_nat begin) l ++ data ++ drop (Z.to_nat end_) l.

Lemma nth_splice l b e data i : 0 <= b <= e -> e <= zlen l ->
  nth i (splice l b e data) 0 =
  if Z.of_nat i <? b then nth i l 0
  else if Z.of_nat i <? b + zlen data then nth (i - Z.to_nat b) data 0
  else nth (Z.to_nat (Z.of_nat i - b - zlen data + e)) l 0.
Proof.
  intros Hb He. unfold splice, zlen in *. rewrite !nth_lookup. destruct (Z.ltb_spec (Z.of_nat i) b).
  - by rewrite lookup_app_l, lookup_take_lt by (rewrite ?length_take; lia).
  - rewrite lookup_app_r by (rewrite length_take; lia). rewrite length_take, Nat.min_l by lia. destruct (Z.ltb_spec (Z.of_nat i) (b + Z.of_nat (length data))).
    + rewrite lookup_app_l by lia. done.
    + rewrite lookup_app_r, lookup_drop by lia. do 2 f_equal. lia.
Qed.

Lemma zlen_splice l b e data : 0 <= b <= e -> e <= zlen l -> zlen (splice l b e data) = zlen l - (e - b) + zlen data.
Proof. intros Hb He. unfold splice, zlen in *. rewrite !length_app, length_take, length_drop. lia. Qed.

(** The early return for unchanged data needs the terminator that is already there. *)
Lemma replace_one_splice ro l b e data z : 0 <= b <= e -> e <= zlen l ->
  (ro = true -> z = true -> e = b + zlen data + 1 -> nth (Z.to_nat (b + zlen data)) l 0 = 0) ->
  replace_one ro l b e data z = splice l b e (data ++ zero_bytes z).
Proof.
  intros Hb He Hz. pose proof (zlen_nonneg data) as Hd. pose proof (zlen_splice l b e (data ++ zero_bytes z) Hb He) as Hlen. rewrite zlen_app, zlen_zero_bytes in Hlen.
  assert (Hz01 : 0 <= zero_term z <= 1) by (by destruct z).
  assert (Hnth : forall i, (i < length data)%nat -> nth i (data ++ zero_bytes z) 0 = nth i data 0) by (intros i Hi; by rewrite app_nth1).
  assert (Hterm : forall i, (length data <= i)%nat -> nth i (data ++ zero_bytes z) 0 = 0).
  { intros i Hi. rewrite app_nth2 by lia. destruct z; [|by destruct (i - length data)%nat]. cbn. by destruct (i - length data)%nat as [|[|]]. }
  unfold replace_one. destruct (_ && _) eqn:Ec.
  - rewrite !andb_true_iff, orb_true_iff, !Z.eqb_eq, bool_decide_eq_true in Ec. destruct Ec as [[Er ->] Hsame].
    apply list_eq_nth; [unfold zlen in Hlen, Er; lia|]. intros i Hi. rewrite nth_splice by done. rewrite zlen_app, zlen_zero_bytes.
    destruct (Z.ltb_spec (Z.of_nat i) b); [done|]. destruct (Z.ltb_spec (Z.of_nat i) (b + (zlen data + zero_term z))); [|f_equal; lia].
    destruct (Nat.lt_ge_cases (i - Z.to_nat b) (length data)) as [Hlt|Hge].
    + rewrite Hnth by done. destruct Hsame as [E0|Esl]; [unfold zlen in E0; lia|]. rewrite <- Esl, nth_slice by (unfold zlen; lia). unfold mem_of. f_equal. lia.
    + rewrite Hterm by done. destruct z; unfold zero_term in *; [|unfold zlen in *; lia]. replace i with (Z.to_nat (b + zlen data)) by (unfold zlen in *; lia). apply Hz; (done || lia).
  - clear Ec. apply list_eq_nth; [rewrite length_slice; unfold zlen in *; lia|]. intros i Hi. rewrite length_slice in Hi. rewrite nth_slice, nth_splice by (done || lia).
    rewrite zlen_app, zlen_zero_bytes, Z.add_0_l. set (x := Z.of_nat i). set (n := zlen l - e).
    set (m1 := if negb (b =? zlen l) then _ else mem_of l).
    assert (Hout : x < b \/ b + (zlen data + zero_term z) <= x -> m1 x = nth (Z.to_nat (if x <? b then x else x - b - (zlen data + zero_term z) + e)) l 0).
    { intros Hx. unfold m1, mem_of, blit. unfold n. destruct (Z.eqb_spec b (zlen l)); cbn [negb]; [f_equal; zdecs; lia|].
      destruct (Z.ltb_spec (e - b) (zlen data + zero_term z)); [|destruct (Z.ltb_spec (zlen data + zero_term z) (e - b))]; try rdec; destruct (Z.ltb_spec x b); f_equal; lia. }
    clearbody m1. assert (Hin : (if z then upd (blit m1 b (mem_of data) 0 (zlen data)) (b + zlen data) 0 else blit m1 b (mem_of data) 0 (zlen data)) x =
      if in_range b (zlen data + zero_term z) x then nth (Z.to_nat (x - b)) (data ++ zero_bytes z) 0 else m1 x).
    { destruct z; unfold zero_term in *; unfold upd, blit, mem_of.
      - destruct (Z.eqb_spec x (b + zlen data)) as [->|]; [rdec; [|lia]; symmetry; apply Hterm; unfold zlen; lia|].
        repeat rdec; try lia; first [done|rewrite Z.add_0_r; symmetry; apply Hnth; unfold zlen in *; lia].
      - rewrite (Z.add_0_r (zlen data)). rdec; [|done]. rewrite Z.add_0_r. symmetry. apply Hnth. unfold zlen in *. lia. }
    rewrite Hin. rdec.
    + destruct (Z.ltb_spec x b); [lia|]. destruct (Z.ltb_spec x (b + (zlen data + zero_term z))); [|lia]. f_equal. lia.
    + rewrite Hout by lia. destruct (Z.ltb_spec x b); [f_equal; lia|]. destruct (Z.ltb_spec x (b + (zlen data + zero_term z))); [lia|done].
Qed.

Lemma splice_mid a b c d : splice (a ++ b ++ c) (zlen a) (zlen a + zlen b) d = a ++ d ++ c.
Proof.
  unfold splice, zlen. rewrite Nat2Z.id. replace (Z.to_nat (Z.of_nat (length a) + Z.of_nat (length b))) with (length a + length b)%nat by lia.
  rewrite take_app_length, <- drop_drop, drop_app_length. by rewrite drop_app_length.
Qed.

Lemma splice_end a d : splice a (zlen a) (zlen a) d = a ++ d.
Proof. pose proof (splice_mid a [] [] d) as E. cbn [app] in E. rewrite !app_nil_r in E. change (zlen (@nil Z)) with 0 in E. by rewrite Z.add_0_r in E. Qed.

Lemma splice_all a d : splice a 0 (zlen a) d = d.
Proof. pose proof (splice_mid [] a [] d) as E. cbn [app] in E. by rewrite !app_nil_r in E. Qed.

(** ** Blobs *)

Definition blob_bytes (b : ArrayBlob) : list Z := match b with One l => l | Split nodes => concat nodes end.

Definition blob_ok (b : ArrayBlob) : Prop :=
  match b with
  | One l => zlen l <= max_binary_size
  | Split nodes => Forall (fun n => 0 < zlen n <= max_binary_size) nodes /\ max_binary_size <= zlen (concat nodes)
  end.

Lemma replace_one_empty data z : replace_one false [] 0 0 data z = data ++ zero_bytes z.
Proof. rewrite replace_one_splice by (done || unfold zlen; cbn; lia). unfold splice. cbn. by rewrite app_nil_r. Qed.

Lemma take_to_nat_min (data : list Z) n : 0 <= n -> take (Z.to_nat (Z.min n (zlen data))) data = take (Z.to_nat n) data.
Proof. intros Hn. unfold zlen. destruct (Z.le_ge_cases n (Z.of_nat (length data))); [by rewrite Z.min_l|]. rewrite Z.min_r, !take_ge by lia. done. Qed.

Lemma new_nodes_spec fuel data : (length data <= fuel)%nat ->
  concat (new_nodes fuel data) = data /\ Forall (fun n => 0 < zlen n <= max_binary_size) (new_nodes fuel data).
Proof.
  revert data. induction fuel as [|fuel IH]; intros data Hf; [by destruct data; [|cbn in Hf; lia]|]. cbn [new_nodes]. destruct data as [|x data']; [done|].
  set (data := x :: data') in *. set (k := Z.to_nat (Z.min max_binary_size (zlen data))).
  assert (Hk : (0 < k <= length data)%nat /\ Z.of_nat k <= max_binary_size) by (unfold k, data, zlen, max_binary_size; cbn [length]; lia).
  destruct (IH (drop k data)) as [Hc Hall]; [rewrite length_drop; lia|]. rewrite replace_one_empty. cbn [zero_bytes concat]. rewrite app_nil_r, Hc, take_drop. split; [done|].
  constructor; [|done]. unfold zlen. rewrite length_take. lia.
Qed.

Lemma blob_append_spec ro nodes n data : Forall (fun n => 0 < zlen n <= max_binary_size) nodes -> zlen n <= max_binary_size -> max_binary_size - zlen n <= zlen data -> zlen n + zlen data > 0 ->
  exists b, blob_append ro (nodes ++ [n]) data = Ok b /\ (exists nodes', b = Split nodes') /\ blob_bytes b = concat (nodes ++ [n]) ++ data /\ blob_ok b.
Proof.
  intros Hns Hn Hd Hpos. unfold blob_append. rewrite last_snoc. cbn [default from_option]. pose proof (zlen_nonneg n).
  assert (E : (zlen data <? max_binary_size - zlen n) = false) by (apply Z.ltb_ge; lia). unfold id. rewrite E. eexists. split; [done|].
  rewrite length_app. cbn [length]. replace (length nodes + 1 - 1)%nat with (length nodes) by lia. rewrite take_app_length.
  rewrite replace_one_splice by (done || lia). cbn [zero_bytes]. rewrite splice_end, app_nil_r, take_to_nat_min by lia.
  destruct (new_nodes_spec (length data) (drop (Z.to_nat (max_binary_size - zlen n)) data)) as [Hc Hall]; [rewrite length_drop; lia|].
  assert (Hcat : concat (nodes ++ (n ++ take (Z.to_nat (max_binary_size - zlen n)) data) :: new_nodes (length data) (drop (Z.to_nat (max_binary_size - zlen n)) data)) = concat (nodes ++ [n]) ++ data).
  { rewrite !concat_app. cbn [concat]. rewrite Hc, app_nil_r, <- !app_assoc, take_drop. done. }
  split_and!; [by eexists|done|]. split.
  - apply Forall_app. split; [done|]. constructor; [|done]. rewrite zlen_app. assert (Ht : zlen (take (Z.to_nat (max_binary_size - zlen n)) data) = max_binary_size - zlen n) by (unfold zlen at 1; rewrite length_take; unfold zlen in *; lia).
    rewrite Ht. unfold max_binary_size. lia.
  - rewrite Hcat, zlen_app, concat_app, zlen_app. cbn [concat]. rewrite app_nil_r. pose proof (zlen_nonneg (concat nodes)). lia.
Qed.

Lemma new_blob_spec data z : exists b, new_blob data z = Ok b /\ blob_ok b /\
  if max_binary_size <? zlen data + zero_term z then (exists nodes, b = Split nodes) /\ blob_bytes b = data else b = One (data ++ zero_bytes z).
Proof.
  unfold new_blob. destruct (Z.ltb_spec max_binary_size (zlen data + zero_term z)) as [Hl|Hl].
  - destruct (blob_append_spec false [] [] data) as (b & E & Hs & Hb & Hok); [done|done|destruct z; unfold zero_term, zlen in *; cbn [length]; lia|unfold zlen, max_binary_size in *; destruct z; unfold zero_term in *; cbn [length]; lia|].
    cbn [app] in E. exists b. split_and!; done.
  - eexists. split; [done|]. rewrite replace_one_empty. split; [|done]. cbn. rewrite zlen_app, zlen_zero_bytes. lia.
Qed.

Lemma blob_replace_one_small ro l b e data z : 0 <= b <= e -> e <= zlen l ->
  (ro = true -> z = true -> e = b + zlen data + 1 -> nth (Z.to_nat (b + zlen data)) l 0 = 0) ->
  zlen l - (e - b) + (zlen data + zero_term z) <= max_binary_size ->
  blob_replace_one ro (One l) b e data z = Ok (One (splice l b e (data ++ zero_bytes z))).
Proof.
  intros Hb He Hz Hm. unfold blob_replace_one. rewrite (proj2 (Z.ltb_ge _ _)) by lia. by rewrite replace_one_splice.
Qed.

(** Reading a blob piece by piece. *)
Fixpoint read_pieces (fuel : nat) (b : ArrayBlob) (pos : Z) : list Z :=
  match fuel with
  | O => []
  | S fuel => let '(d, pos) := blob_get_at b pos in d ++ if pos =? 0 then [] else read_pieces fuel b pos
  end.

Lemma get_at_nodes_at pre n post pos : (0 < length n)%nat ->
  get_at_nodes (pre ++ n :: post) (zlen (concat pre)) pos = (n, match post with [] => 0 | _ => pos + zlen n end).
Proof.
  intros Hn. revert pos. induction pre as [|p pre IH]; intros pos; cbn [app get_at_nodes concat].
  - rewrite (proj2 (Z.ltb_lt _ _)) by (unfold zlen; cbn [length]; lia). cbn. by rewrite Z.sub_0_r.
  - rewrite zlen_app. rewrite (proj2 (Z.ltb_ge _ _)) by (pose proof (zlen_nonneg (concat pre)); lia).
    replace (zlen p + zlen (concat pre) - zlen p) with (zlen (concat pre)) by lia. apply IH.
Qed.

Lemma read_pieces_nodes fuel pre post : Forall (fun n => 0 < zlen n <= max_binary_size) (pre ++ post) -> post <> [] -> (length post <= fuel)%nat ->
  read_pieces fuel (Split (pre ++ post)) (zlen (concat pre)) = concat post.
Proof.
  revert fuel pre. induction post as [|n post IH]; intros fuel pre Hall Hne Hf; [done|]. destruct fuel as [|fuel]; [cbn in Hf; lia|]. cbn [read_pieces blob_get_at].
  assert (Hn : 0 < zlen n) by (apply Forall_app in Hall as [_ Hall]; apply Forall_inv in Hall; lia).
  rewrite get_at_nodes_at by (unfold zlen in Hn; lia). destruct post as [|n' post]; [cbn; by rewrite app_nil_r|]. pose proof (zlen_nonneg (concat pre)).
  rewrite (proj2 (Z.eqb_neq _ _)) by lia. rewrite cons_middle, app_assoc in Hall |- *. specialize (IH fuel (pre ++ [n]) Hall ltac:(done) ltac:(cbn in *; lia)).
  rewrite concat_app in IH. cbn [concat] in IH |- *. rewrite app_nil_r, zlen_app in IH. by rewrite IH.
Qed.

(** The pieces that [get_at] returns are the whole blob. *)
Lemma read_pieces_blob b fuel : blob_ok b -> (match b with One _ => 1 | Split nodes => length nodes end <= fuel)%nat -> read_pieces fuel b 0 = blob_bytes b.
Proof.
  intros Hok Hf. destruct b as [l|nodes]; cbn [blob_bytes].
  - destruct fuel; [lia|]. cbn [read_pieces blob_get_at]. rewrite app_nil_r. by destruct l.
  - destruct Hok as [Hall Hlen]. apply (read_pieces_nodes fuel [] nodes); [done| |done]. intros ->. unfold zlen, max_binary_size in Hlen. cbn in Hlen. lia.
Qed.

(** ** Searches: the first index of a range with a property *)

Definition is_first (P : nat -> Prop) (b e : nat) (r : option nat) : Prop :=
  match r with
  | Some j => (b <= j < e)%nat /\ P j /\ forall k, (b <= k < j)%nat -> ~ P k
  | None => forall k, (b <= k < e)%nat -> ~ P k
  end.

Lemma is_first_nil P b e : (e <= b)%nat -> is_first P b e None.
Proof. intros H k Hk. lia. Qed.

Lemma is_first_here (P : nat -> Prop) b e : (b < e)%nat -> P b -> is_first P b e (Some b).
Proof. intros H HP. split_and!; [lia|lia|done|]. intros k Hk. lia. Qed.

Lemma is_first_next (P : nat -> Prop) b e r : ~ P b -> is_first P (S b) e r -> is_first P b e r.
Proof.
  intros HP Hr. assert (Hk : forall k, (b <= k)%nat -> (S b <= k -> ~ P k)%nat -> ~ P k) by (intros k Hb H; destruct (decide (k = b)) as [->|]; [done|apply H; lia]).
  destruct r as [j|]; cbn in *.
  - destruct Hr as (Hj & HPj & Hr). split_and!; [lia|lia|done|]. intros k Hkj. apply Hk; [lia|]. intros. apply Hr. lia.
  - intros k Hkj. apply Hk; [lia|]. intros. apply Hr. lia.
Qed.

(** A long run of one byte, never evaluated. *)
Definition large (n : Z) : list Z := repeat 7 (Z.to_nat n).

Lemma zlen_large n : 0 <= n -> zlen (large n) = n.
Proof. intros Hn. unfold zlen, large. rewrite repeat_length. lia. Qed.

(** ** Small blobs hold the list of their values *)

Fixpoint ends_of (acc : Z) (ls : list (list Z)) : list Z :=
  match ls with [] => [] | l :: ls => (acc + zlen l) :: ends_of (acc + zlen l) ls end.

Definition stored : Type := list Z * bool.
Definition st_bytes (ds : list stored) : list (list Z) := map fst ds.
Definition small_of (ds : list stored) : ArraySmallBlobs :=
  mkSmall (ends_of 0 (st_bytes ds)) (One (concat (st_bytes ds))) (map (fun d => b2i d.2) ds).

(** What is stored for a value: its bytes, with a terminator if it is a string. *)
Definition st_of (z : bool) (v : BinaryData) : stored := (bd_data v ++ zero_bytes z, bd_is_null v).

Lemma small_create c : Small.create c = small_of (map (st_of false) c).
Proof.
  assert (E : st_bytes (map (st_of false) c) = map bd_data c) by (unfold st_bytes; rewrite map_map; apply map_ext; intros v; cbn; apply app_nil_r).
  unfold Small.create, small_of. rewrite E, map_map. f_equal. generalize 0. clear E. induction c as [|v c IH]; intros acc; [done|].
  cbn [Small.ends map ends_of]. unfold zlen, bd_size in *. by rewrite IH.
Qed.

Lemma length_ends_of acc ls : length (ends_of acc ls) = length ls.
Proof. revert acc. induction ls as [|l ls IH]; intros acc; cbn; [done|by rewrite IH]. Qed.

Lemma ends_of_app acc l1 l2 : ends_of acc (l1 ++ l2) = ends_of acc l1 ++ ends_of (acc + zlen (concat l1)) l2.
Proof.
  revert acc. induction l1 as [|l l1 IH]; intros acc; cbn [app ends_of concat]; [by rewrite Z.add_0_r|].
  rewrite IH, zlen_app. by rewrite Z.add_assoc.
Qed.

Lemma ends_of_shift acc d ls : map (fun v => v + d) (ends_of acc ls) = ends_of (acc + d) ls.
Proof.
  revert acc. induction ls as [|l ls IH]; intros acc; cbn [ends_of map]; [done|]. rewrite IH. f_equal; [lia|]. f_equal. lia.
Qed.

Lemma last_ends_of acc ls : list.last (ends_of acc ls) = match ls with [] => None | _ => Some (acc + zlen (concat ls)) end.
Proof.
  destruct ls as [|l ls] using rev_ind; [done|]. rewrite ends_of_app. cbn [ends_of]. rewrite last_snoc, concat_app, zlen_app. cbn [concat].
  rewrite app_nil_r, Z.add_assoc. by destruct ls.
Qed.

Lemma nth_app_at {A} (l1 : list A) x l2 d : nth (length l1) (l1 ++ x :: l2) d = x.
Proof. rewrite app_nth2 by lia. by rewrite Nat.sub_diag. Qed.

Lemma offset_before_at l1 l2 : offset_before (ends_of 0 (l1 ++ l2)) (length l1) = zlen (concat l1).
Proof.
  destruct l1 as [|x l1 _] using rev_ind; [done|]. rewrite length_app, Nat.add_1_r. cbn [offset_before].
  rewrite <- app_assoc, ends_of_app. cbn [app ends_of]. rewrite <- (length_ends_of 0 l1) at 1. rewrite nth_app_at, concat_app, zlen_app. cbn [concat]. by rewrite app_nil_r.
Qed.

Lemma ends_nth_at l1 x l2 : nth (length l1) (ends_of 0 (l1 ++ x :: l2)) 0 = zlen (concat l1) + zlen x.
Proof. rewrite ends_of_app. cbn [ends_of]. rewrite <- (length_ends_of 0 l1) at 1. by rewrite nth_app_at. Qed.

Lemma adjust_app n l1 l2 d : n = length l1 -> adjust n d (l1 ++ l2) = l1 ++ map (fun v => v + d) l2.
Proof. intros ->. unfold adjust. by rewrite take_app_length, drop_app_length. Qed.

(** ** Reading *)

Lemma st_split (ds : list stored) i (d : stored) : ds !! i = Some d -> exists ds1 ds2, ds = ds1 ++ d :: ds2 /\ i = length ds1.
Proof. intros H. exists (take i ds), (drop (S i) ds). rewrite take_drop_middle by done. split; [done|]. rewrite length_take. apply lookup_lt_Some in H. lia. Qed.

Lemma st_bytes_app ds1 ds2 : st_bytes (ds1 ++ ds2) = st_bytes ds1 ++ st_bytes ds2.
Proof. apply map_app. Qed.

Lemma length_st_bytes ds : length (st_bytes ds) = length ds.
Proof. apply length_map. Qed.

Lemma small_size_of ds : Small.size (small_of ds) = length ds.
Proof. unfold Small.size, small_of. cbn [m_offsets]. by rewrite length_ends_of, length_st_bytes. Qed.

Lemma small_null_at ds1 (d : stored) ds2 : nth (length ds1) (map (fun d : stored => b2i d.2) (ds1 ++ d :: ds2)) 0 = b2i d.2.
Proof. rewrite map_app. cbn [map]. rewrite <- (length_map (fun d : stored => b2i d.2) ds1). apply nth_app_at. Qed.

Lemma small_slice_at l1 x l2 n : 0 <= n <= zlen x ->
  slice (mem_of (concat (l1 ++ x :: l2))) (zlen (concat l1)) n = take (Z.to_nat n) x.
Proof.
  intros Hn. pose proof (zlen_nonneg (concat l1)). pose proof (zlen_nonneg (concat l2)). rewrite concat_app. cbn [concat]. rewrite slice_mem_of by (rewrite ?zlen_app; lia).
  unfold zlen at 1. rewrite Nat2Z.id, drop_app_length. apply take_app_le. unfold zlen in Hn. lia.
Qed.

Lemma b2i_zero b : (b2i b =? 0) = negb b.
Proof. by destruct b. Qed.

Lemma small_get_at (ds : list stored) i (d : stored) : ds !! i = Some d -> Small.get (small_of ds) i = if d.2 then None else Some d.1.
Proof.
  intros (ds1 & ds2 & -> & ->)%st_split. unfold Small.get, small_of. cbn [m_nulls m_offsets m_blob node_bytes]. rewrite small_null_at, b2i_zero, negb_involutive.
  destruct (d.2); [done|]. rewrite st_bytes_app. change (st_bytes (d :: ds2)) with (d.1 :: st_bytes ds2). rewrite <- (length_st_bytes ds1), offset_before_at, ends_nth_at.
  rewrite Z.add_simpl_l, small_slice_at by (pose proof (zlen_nonneg d.1); lia). unfold zlen. by rewrite Nat2Z.id, firstn_all.
Qed.

Lemma small_is_null_at (ds : list stored) i (d : stored) : ds !! i = Some d -> Small.is_null (small_of ds) i = d.2.
Proof. intros (ds1 & ds2 & -> & ->)%st_split. unfold Small.is_null. cbn [m_nulls small_of]. by rewrite small_null_at, b2i_zero, negb_involutive. Qed.

(** ** Writing

    [total] is what the blob holds; below [max_binary_size] it stays one node. *)
Definition total (ds : list stored) : Z := zlen (concat (st_bytes ds)).

Lemma total_app ds1 ds2 : total (ds1 ++ ds2) = total ds1 + total ds2.
Proof. unfold total. by rewrite st_bytes_app, concat_app, zlen_app. Qed.
Lemma total_cons (d : stored) ds : total (d :: ds) = zlen d.1 + total ds.
Proof. unfold total, st_bytes. cbn [map concat]. by rewrite zlen_app. Qed.
Lemma total_nonneg ds : 0 <= total ds.
Proof. apply zlen_nonneg. Qed.

Lemma zlen_st_of z v : zlen (st_of z v).1 = Z.of_nat (bd_size v) + zero_term z.
Proof. unfold st_of. cbn [fst]. by rewrite zlen_app, zlen_zero_bytes. Qed.

Lemma st_bytes_mid ds1 (d : stored) ds2 : st_bytes (ds1 ++ d :: ds2) = st_bytes ds1 ++ d.1 :: st_bytes ds2.
Proof. by rewrite st_bytes_app. Qed.

Lemma small_add ro ds v z : total ds + zlen (st_of z v).1 <= max_binary_size ->
  Small.add ro (small_of ds) v z = Ok (small_of (ds ++ [st_of z v])).
Proof.
  intros Ht. unfold Small.add, small_of, blob_add. cbn [m_offsets m_blob m_nulls blob_size]. change (zlen (concat (st_bytes ds))) with (total ds). rewrite zlen_st_of in Ht.
  rewrite blob_replace_one_small by first [unfold total; lia|apply total_nonneg|unfold total, zlen, bd_size in *; lia|intros; unfold zlen in *; lia].
  cbn. unfold total at 1 2. rewrite splice_end, last_ends_of, st_bytes_mid, ends_of_app, concat_app, map_app. cbn [ends_of concat map st_bytes]. rewrite app_nil_r.
  rewrite zlen_st_of. do 3 f_equal. f_equal. destruct (st_bytes ds); [change (zlen (concat [])) with 0|]; lia.
Qed.

Definition ends_zero (d : stored) : Prop := exists l, d.1 = l ++ [0].

Lemma splice_concat l1 x l2 d : splice (concat (l1 ++ x :: l2)) (zlen (concat l1)) (zlen (concat l1) + zlen x) d = concat (l1 ++ d :: l2).
Proof. rewrite !concat_app. cbn [concat]. apply splice_mid. Qed.

Lemma splice_concat_insert l1 l2 d : splice (concat (l1 ++ l2)) (zlen (concat l1)) (zlen (concat l1)) d = concat (l1 ++ d :: l2).
Proof. rewrite !concat_app. cbn [concat]. pose proof (splice_mid (concat l1) [] (concat l2) d) as E. change (zlen (@nil Z)) with 0 in E. by rewrite Z.add_0_r in E. Qed.

Lemma small_terminator ds1 d ds2 n : ends_zero d -> zlen d.1 = n + 1 -> 0 <= n -> nth (Z.to_nat (total ds1 + n)) (concat (st_bytes (ds1 ++ d :: ds2))) 0 = 0.
Proof.
  intros [l E] Hn H0. rewrite st_bytes_mid, E, concat_app. cbn [concat]. rewrite <- app_assoc. assert (Hl : n = zlen l) by (rewrite E, zlen_app in Hn; change (zlen [0]) with 1 in Hn; lia).
  subst n. rewrite app_assoc. unfold total. rewrite <- zlen_app. unfold zlen. rewrite Nat2Z.id. apply nth_app_at.
Qed.

Lemma insert_mid {A} (l1 : list A) x l2 y : <[length l1 := y]> (l1 ++ x :: l2) = l1 ++ y :: l2.
Proof. pose proof (insert_app_r l1 (x :: l2) 0 y) as E. by rewrite Nat.add_0_r in E. Qed.

Lemma map_insert_mid {A B} (f : A -> B) ds1 d ds2 y : <[length ds1 := y]> (map f (ds1 ++ d :: ds2)) = map f ds1 ++ y :: map f ds2.
Proof. rewrite map_app. cbn [map]. rewrite <- (length_map f ds1). apply insert_mid. Qed.

Lemma small_set ro ds i d v z : ds !! i = Some d -> (z = true -> ends_zero d) -> total ds - zlen d.1 + zlen (st_of z v).1 <= max_binary_size ->
  Small.set ro (small_of ds) i v z = Ok (small_of (<[i := st_of z v]> ds)).
Proof.
  intros (ds1 & ds2 & -> & ->)%st_split Hz Ht. rewrite total_app, total_cons, zlen_st_of in Ht. unfold Small.set, small_of. cbn [m_offsets m_blob m_nulls].
  rewrite insert_mid, map_insert_mid, !st_bytes_mid. rewrite <- (length_st_bytes ds1), offset_before_at, ends_nth_at.
  pose proof (zlen_nonneg d.1). pose proof (total_nonneg ds1). pose proof (total_nonneg ds2). unfold total in *.
  rewrite blob_replace_one_small; [|lia|rewrite concat_app, zlen_app; cbn [concat]; rewrite zlen_app; lia| |rewrite concat_app, zlen_app; cbn [concat]; rewrite zlen_app; unfold zlen, bd_size in *; lia].
  2: { intros _ -> E. rewrite <- st_bytes_mid. apply (small_terminator ds1 d ds2); [by apply Hz|lia|apply zlen_nonneg]. }
  cbn [mbind result_bind]. rewrite splice_concat, !ends_of_app. rewrite adjust_app by (by rewrite length_ends_of). cbn [ends_of map]. rewrite ends_of_shift, zlen_st_of.
  do 2 f_equal; [|by rewrite map_app]. f_equal. f_equal; [lia|]. f_equal. lia.
Qed.

Lemma insert_at_app {A} n (l1 l2 : list A) x : n = length l1 -> list_insert_at n x (l1 ++ l2) = l1 ++ x :: l2.
Proof. intros ->. unfold list_insert_at. by rewrite take_app_length, drop_app_length. Qed.

Lemma st_split_le (ds : list stored) i : (i <= length ds)%nat -> exists ds1 ds2, ds = ds1 ++ ds2 /\ i = length ds1.
Proof. intros H. exists (take i ds), (drop i ds). rewrite take_drop, length_take. split; [done|lia]. Qed.

Lemma small_insert ro ds i v z : (i <= length ds)%nat -> total ds + zlen (st_of z v).1 <= max_binary_size ->
  Small.insert ro (small_of ds) i v z = Ok (small_of (list_insert_at i (st_of z v) ds)).
Proof.
  intros (ds1 & ds2 & -> & ->)%st_split_le Ht. rewrite total_app, zlen_st_of in Ht. unfold Small.insert, small_of, blob_insert. cbn [m_offsets m_blob m_nulls].
  rewrite !map_app, (insert_at_app _ ds1), (insert_at_app _ (map _ _)) by (by rewrite ?length_map). rewrite st_bytes_mid, st_bytes_app, map_app.
  rewrite <- (length_st_bytes ds1), offset_before_at. pose proof (total_nonneg ds1). pose proof (total_nonneg ds2). unfold total in *.
  rewrite blob_replace_one_small; [|lia|rewrite concat_app, zlen_app; lia|intros; unfold zlen in *; lia|rewrite concat_app, zlen_app; unfold zlen, bd_size in *; lia].
  cbn [mbind result_bind]. rewrite splice_concat_insert, !ends_of_app, insert_at_app by (by rewrite length_ends_of).
  rewrite (cons_middle _ (ends_of _ _)), app_assoc.
  rewrite adjust_app, ends_of_shift, <- app_assoc by (rewrite length_app, length_ends_of; cbn [length]; lia). cbn [ends_of map app]. rewrite zlen_st_of. done.
Qed.

Lemma erase_mid {A} n (l1 : list A) x l2 : n = length l1 -> list_erase_range n (S n) (l1 ++ x :: l2) = l1 ++ l2.
Proof. intros ->. unfold list_erase_range. rewrite take_app_length, <- Nat.add_1_r, drop_app_add. done. Qed.

Lemma small_erase ro ds i d : ds !! i = Some d -> total ds <= max_binary_size -> Small.erase ro (small_of ds) i = Ok (small_of (list_erase_range i (S i) ds)).
Proof.
  intros (ds1 & ds2 & -> & ->)%st_split Ht. rewrite total_app, total_cons in Ht. unfold Small.erase, small_of, blob_erase. cbn [m_offsets m_blob m_nulls].
  rewrite !map_app. cbn [map]. rewrite (erase_mid _ ds1), (erase_mid _ (map _ _)), map_app, st_bytes_mid, st_bytes_app by (by rewrite ?length_map).
  rewrite <- (length_st_bytes ds1), offset_before_at, ends_nth_at. pose proof (zlen_nonneg d.1). pose proof (total_nonneg ds1). pose proof (total_nonneg ds2). unfold total in *.
  rewrite blob_replace_one_small; [|lia|rewrite concat_app, zlen_app; cbn [concat]; rewrite zlen_app; lia|done|rewrite concat_app, zlen_app; cbn [concat]; rewrite zlen_app; change (zlen (@nil Z)) with 0; unfold zero_term; lia].
  cbn [mbind result_bind]. rewrite splice_concat, !ends_of_app, !concat_app. cbn [concat ends_of]. rewrite erase_mid, adjust_app, ends_of_shift by (by rewrite length_ends_of).
  do 3 f_equal. f_equal. lia.
Qed.

Lemma small_truncate ds n : (n < length ds)%nat \/ n = O -> Small.truncate (small_of ds) n = Ok (small_of (take n ds)).
Proof.
  intros Hn. unfold Small.truncate. rewrite small_size_of. assert (E : ((n =? 0)%nat || (n <? length ds)%nat) = true) by (destruct Hn as [Hn| ->]; [apply Nat.ltb_lt in Hn; by rewrite Hn, orb_true_r|done]).
  rewrite E. cbn [negb]. assert (Hle : (n <= length ds)%nat) by lia. apply st_split_le in Hle as (ds1 & ds2 & -> & ->). unfold small_of. cbn [m_offsets m_blob m_nulls].
  rewrite take_app_length, !map_app, st_bytes_app. rewrite <- (length_st_bytes ds1), offset_before_at, length_st_bytes. rewrite <- (length_map (fun d : stored => b2i d.2) ds1) at 2.
  rewrite take_app_length, concat_app. unfold zlen. rewrite Nat2Z.id, take_app_length, ends_of_app. rewrite (take_app_length' (ends_of _ _)) by (by rewrite length_ends_of, length_st_bytes). done.
Qed.

(** ** Searching *)

Lemma st_of_lookup z (c : list BinaryData) i v : c !! i = Some v -> map (st_of z) c !! i = Some (st_of z v).
Proof. intros H. by rewrite list_lookup_fmap, H. Qed.

Lemma small_find_null z c n i : (i + n <= length c)%nat ->
  is_first (fun i => c !! i = Some (None : BinaryData)) i (i + n) (Small.find_null n (small_of (map (st_of z) c)) i).
Proof.
  revert i. induction n as [|n IH]; intros i Hn; cbn [Small.find_null]; [apply is_first_nil; lia|].
  destruct (lookup_lt_is_Some_2 c i) as [v Hv]; [lia|]. pose proof (small_is_null_at _ _ _ (st_of_lookup z _ _ _ Hv)) as E. unfold Small.is_null in E. rewrite E. cbn [st_of snd].
  destruct v as [l|]; cbn [bd_is_null].
  - apply is_first_next; [intros H; congruence|]. replace (i + S n)%nat with (S i + n)%nat by lia. apply IH. lia.
  - apply is_first_here; [lia|done].
Qed.

Lemma small_find_value z c data n i : (i + n <= length c)%nat ->
  is_first (fun i => c !! i = Some (Some data : BinaryData)) i (i + n)
    (Small.find_value n (small_of (map (st_of z) c)) data (zlen data + zero_term z) (offset_before (m_offsets (small_of (map (st_of z) c))) i) i).
Proof.
  revert i. induction n as [|n IH]; intros i Hn; cbn [Small.find_value]; [apply is_first_nil; lia|].
  destruct (lookup_lt_is_Some_2 c i) as [v Hv]; [lia|].
  match goal with |- context [if ?b then _ else _] => assert (E : b = bool_decide (v = Some data)) end.
  - apply (st_of_lookup z) in Hv. apply st_split in Hv as (ds1 & ds2 & -> & ->). unfold small_of. cbn [m_offsets m_blob m_nulls node_bytes]. rewrite small_null_at, st_bytes_mid.
    rewrite <- (length_st_bytes ds1), offset_before_at, ends_nth_at, Z.add_simpl_l, zlen_st_of, b2i_zero. cbn [st_of snd]. destruct v as [l|]; cbn [bd_is_null negb andb]; [|by rewrite bool_decide_false].
    destruct (Z.eqb_spec (Z.of_nat (bd_size (Some l)) + zero_term z) (zlen data + zero_term z)) as [El|El]; cbn [andb].
    + assert (El' : length l = length data) by (unfold zlen, bd_size in El; cbn in El; lia). rewrite small_slice_at by (rewrite zlen_st_of; unfold zlen, bd_size; cbn; destruct z; unfold zero_term; lia).
      cbn [st_of fst bd_data default from_option]. unfold zlen. rewrite Nat2Z.id, <- El', take_app_length. apply bool_decide_ext. unfold id. split; congruence.
    + rewrite bool_decide_false; [done|]. intros [= ->]. done.
  - rewrite E. destruct (bool_decide_reflect (v = Some data)) as [->|Hne].
    + apply is_first_here; [lia|done].
    + apply is_first_next; [intros H; congruence|]. replace (i + S n)%nat with (S i + n)%nat by lia. apply IH. lia.
Qed.

Lemma small_find_first z c v b e : (b <= e <= length c)%nat ->
  is_first (fun i => c !! i = Some v) b e (Small.find_first (small_of (map (st_of z) c)) v z b e).
Proof.
  intros H. replace e with (b + (e - b))%nat at 1 by lia. unfold Small.find_first. destruct v; [apply small_find_value|apply small_find_null]; lia.
Qed.

(** ** Big blobs hold the list of their values *)

Definition value_of (b : option ArrayBlob) : BinaryData := blob_bytes <$> b.
Definition values_of (s : ArrayBigBlobs) : list BinaryData := map value_of s.
Definition big_ok (s : ArrayBigBlobs) : Prop := Forall (fun b => match b with None => True | Some b => blob_ok b end) s.

(** A blob of binary data that is in order: one node, or what does not fit in one. *)
Lemma new_blob_value data : exists b, new_blob data false = Ok b /\ blob_ok b /\ blob_bytes b = data.
Proof.
  destruct (new_blob_spec data false) as (b & E & Hok & Hb). exists b. split_and!; [done|done|]. destruct (_ <? _); [by destruct Hb|]. subst b. cbn. apply app_nil_r.
Qed.

Lemma make_blob_new value z : Big.make_blob value z = new_blob value z.
Proof. unfold Big.make_blob, new_blob. destruct (_ <? _); [done|]. rewrite replace_one_empty. by destruct z. Qed.

Lemma blob_replace_all ro nodes data : blob_ok (Split nodes) -> blob_replace ro nodes 0 (blob_size (Split nodes)) data false = new_blob data false.
Proof.
  intros [_ Hs]. assert (E : blob_size (Split nodes) = zlen (concat nodes)).
  { unfold blob_size. clear Hs. induction nodes as [|n nodes IH]; [done|]. rewrite sumf_cons, IH. cbn [concat]. by rewrite zlen_app. }
  unfold blob_replace. rewrite Z.eqb_refl, (proj2 (Z.eqb_neq 0 _)) by (rewrite E; unfold max_binary_size in Hs; lia). done.
Qed.

Lemma blob_replace_one_all l data : zlen l <= max_binary_size -> exists b, blob_replace_one false (One l) 0 (zlen l) data false = Ok b /\ blob_ok b /\ blob_bytes b = data.
Proof.
  intros Hl. pose proof (zlen_nonneg l). destruct (Z.le_gt_cases (zlen data) max_binary_size) as [Hd|Hd].
  - rewrite blob_replace_one_small by (done || unfold zero_term; lia). rewrite splice_all. cbn [zero_bytes]. rewrite app_nil_r. by eexists.
  - unfold blob_replace_one. rewrite (proj2 (Z.ltb_lt _ _)) by (unfold zero_term; lia). unfold blob_replace.
    replace (blob_size (Split [l])) with (zlen l) by (unfold blob_size; rewrite sumf_cons; cbn; lia). rewrite Z.eqb_refl. destruct (Z.eqb_spec 0 (zlen l)) as [E|E]; cbn [andb].
    + destruct l; [|unfold zlen in E; cbn in E; lia]. destruct (new_blob_value data) as (b & Eb & Hb). exists b. unfold new_blob in Eb. by rewrite (proj2 (Z.ltb_lt _ _)) in Eb by (unfold zero_term; lia).
    + apply new_blob_value.
Qed.

Lemma values_of_app s t : values_of (s ++ t) = values_of s ++ values_of t.
Proof. apply map_app. Qed.

Lemma big_ok_app s t : big_ok (s ++ t) <-> big_ok s /\ big_ok t.
Proof. apply Forall_app. Qed.

(** ** Writing *)

Lemma big_add s v : big_ok s -> exists s', Big.add s v false = Ok s' /\ big_ok s' /\ values_of s' = values_of s ++ [v].
Proof.
  intros Hs. unfold Big.add. destruct v as [data|].
  - destruct (new_blob_value data) as (b & -> & Hb & Eb). eexists. split; [done|]. rewrite big_ok_app, values_of_app. cbn. rewrite Eb. split; [|done]. split; [done|]. by repeat constructor.
  - eexists. split; [done|]. rewrite big_ok_app, values_of_app. split; [|done]. split; [done|]. by repeat constructor.
Qed.

Lemma big_create values : exists s, Big.create values = Ok s /\ big_ok s /\ values_of s = values.
Proof.
  induction values as [|v values (s & E & Hs & Ev)]; [exists []; by split_and!; [| constructor |]|]. cbn [Big.create]. rewrite E. destruct v as [data|].
  - rewrite make_blob_new. destruct (new_blob_value data) as (b & -> & Hb & Eb). exists (Some b :: s). change (values_of (Some b :: s)) with (Some (blob_bytes b) :: values_of s). rewrite Eb, Ev. split_and!; [done|by apply Forall_cons|done].
  - exists (None :: s). change (values_of (None :: s)) with (None :: values_of s). rewrite Ev. split_and!; [done|by apply Forall_cons|done].
Qed.

Lemma values_of_insert i b s : values_of (<[i := b]> s) = <[i := value_of b]> (values_of s).
Proof. apply list_fmap_insert. Qed.

Lemma big_ok_insert i b s : big_ok s -> match b with None => True | Some b => blob_ok b end -> big_ok (<[i := b]> s).
Proof. intros Hs Hb. by apply Forall_insert. Qed.

Lemma big_lookup s i v : values_of s !! i = Some v -> exists b, s !! i = Some b /\ nth i s None = b /\ v = value_of b.
Proof.
  unfold values_of. rewrite list_lookup_fmap_Some. intros (b & -> & Hb). exists b. split_and!; [done| |done]. by rewrite nth_lookup, Hb.
Qed.

Lemma big_ok_lookup s i b : big_ok s -> s !! i = Some (Some b) -> blob_ok b.
Proof. intros Hs Hi. exact (Forall_lookup_1 _ _ _ _ Hs Hi). Qed.

(** Every way in which [set] stores bytes stores these. *)
Lemma big_store s i (m : result ArrayBlob) data : big_ok s -> (exists b, m = Ok b /\ blob_ok b /\ blob_bytes b = data) ->
  exists s', (blob ← m; Ok (<[i := Some blob]> s)) = Ok s' /\ big_ok s' /\ values_of s' = <[i := Some data]> (values_of s).
Proof. intros Hs (b & -> & Hb & <-). eexists. split; [done|]. split; [by apply big_ok_insert|]. apply values_of_insert. Qed.

Lemma big_set ro s i v : big_ok s -> (i < length s)%nat -> exists s', Big.set ro s i v false = Ok s' /\ big_ok s' /\ values_of s' = <[i := v]> (values_of s).
Proof.
  intros Hs Hi. destruct (lookup_lt_is_Some_2 s i Hi) as [b Hb]. unfold Big.set. rewrite nth_lookup, Hb. cbn [default from_option].
  assert (Hnull : b = None -> <[i := None]> (values_of s) = values_of s) by (intros ->; apply list_insert_id; unfold values_of; by rewrite list_lookup_fmap, Hb).
  unfold id. destruct b as [b|], v as [data|].
  - pose proof (big_ok_lookup _ _ _ Hs Hb) as Hbok. destruct b as [l|nodes].
    + destruct ro; apply big_store; try done; [rewrite make_blob_new; apply new_blob_value|by apply blob_replace_one_all].
    + apply big_store; [done|]. rewrite blob_replace_all by done. apply new_blob_value.
  - assert (exists s', Ok (<[i:=None]> s) = Ok s' /\ big_ok s' /\ values_of s' = <[i:=None]> (values_of s)) by (eexists; split; [done|]; split; [by apply big_ok_insert|apply values_of_insert]).
    by destruct b.
  - apply big_store; [done|]. rewrite make_blob_new. apply new_blob_value.
  - eexists. split; [done|]. split; [done|]. symmetry. by apply Hnull.
Qed.

Lemma values_of_insert_at i b s : values_of (list_insert_at i b s) = list_insert_at i (value_of b) (values_of s).
Proof. unfold list_insert_at, values_of. rewrite map_app. cbn [map]. by rewrite <- firstn_map, <- skipn_map. Qed.

Lemma big_insert s i v : big_ok s -> exists s', Big.insert s i v false = Ok s' /\ big_ok s' /\ values_of s' = list_insert_at i v (values_of s).
Proof.
  intros Hs. unfold Big.insert. destruct v as [data|].
  - destruct (new_blob_value data) as (b & -> & Hb & Eb). eexists. split; [done|]. split; [by apply Forall_insert_at|]. rewrite values_of_insert_at. cbn. by rewrite Eb.
  - eexists. split; [done|]. split; [by apply Forall_insert_at|]. apply values_of_insert_at.
Qed.

Lemma big_erase s i : big_ok s -> big_ok (Big.erase s i) /\ values_of (Big.erase s i) = list_erase_range i (S i) (values_of s).
Proof. intros Hs. split; [by apply Forall_erase|]. unfold Big.erase, list_erase_range, values_of. by rewrite map_app, <- firstn_map, <- skipn_map. Qed.

Lemma big_truncate s n : big_ok s -> big_ok (Big.truncate s n) /\ values_of (Big.truncate s n) = take n (values_of s).
Proof. intros Hs. split; [by apply Forall_take|]. unfold Big.truncate, values_of. by rewrite firstn_map. Qed.

(** ** Reading *)

Definition bd_small (v : BinaryData) : Prop := Z.of_nat (bd_size v) < max_binary_size.

Lemma value_small b : match b with None => True | Some b => blob_ok b end -> bd_small (value_of b) -> b = One <$> value_of b.
Proof. destruct b as [[l|nodes]|]; [done| |done]. intros [_ Hb] Hs. unfold bd_small, bd_size in Hs. cbn in Hs. unfold zlen in Hb. lia. Qed.

Lemma big_get s i v : big_ok s -> values_of s !! i = Some v -> bd_small v -> Big.get s i = v.
Proof.
  intros Hs (b & Hb & Hn & ->)%big_lookup Hv. unfold Big.get. rewrite Hn. rewrite (value_small b); [|exact (Forall_lookup_1 _ _ _ _ Hs Hb)|done]. by destruct (value_of b).
Qed.

Lemma big_is_null s i v : values_of s !! i = Some v -> Big.is_null s i = bd_is_null v.
Proof. intros (b & _ & Hn & ->)%big_lookup. unfold Big.is_null. rewrite Hn. by destruct b. Qed.

(** ** Searching *)

Section Search.
Context (refs_bytes : list (list Z) -> list Z).

Lemma big_matches b value : match b with None => True | Some b => blob_ok b end -> bd_small (value_of b) ->
  Big.matches refs_bytes value false b = bool_decide (value_of b = value).
Proof.
  intros Hb Hs. rewrite (value_small b Hb Hs). generalize (value_of b). intros v. destruct v as [l|], value as [data|]; cbn; try done.
  rewrite Z.add_0_r. destruct (Z.eqb_spec (zlen l) (zlen data)) as [E|E]; cbn [andb].
  - unfold zlen in E. rewrite take_ge by lia. apply bool_decide_ext. split; congruence.
  - symmetry. apply bool_decide_false. intros [= ->]. done.
Qed.

Lemma big_find_first s v b e : big_ok s -> Forall bd_small (values_of s) -> (b <= e <= length s)%nat ->
  is_first (fun i => values_of s !! i = Some v) b e (Big.find_first refs_bytes s v false b e).
Proof.
  intros Hs Hsm H. unfold Big.find_first. remember (e - b)%nat as n eqn:En. revert b H En. induction n as [|n IH]; intros b H En; cbn [Big.find_loop]; [apply is_first_nil; lia|].
  destruct (lookup_lt_is_Some_2 (values_of s) b) as [v' Hv]; [unfold values_of; rewrite length_map; lia|]. pose proof (Forall_lookup_1 _ _ _ _ Hsm Hv) as Hv'.
  destruct (big_lookup _ _ _ Hv) as (ob & Hob & -> & ->). rewrite big_matches; [|exact (Forall_lookup_1 _ _ _ _ Hs Hob)|done]. destruct (bool_decide_reflect (value_of ob = v)) as [<-|Hne].
  - apply is_first_here; [lia|done].
  - apply is_first_next; [intros Hc; congruence|]. apply IH; lia.
Qed.
End Search.
