(* ===== verification/PackedBlobsInv.v ===== *)
(** * Packed leaves hold the list of their values

    A block gives back the values it is made of; the leaf is the list of the values at the
    places in its order, and its operations act on that list. *)

From S2P Require Import Prelude Bytes Blobs PackedBlobs BlobsInv.

(** ** Blocks *)

Lemma read_u32_write v : Z.lor (Z.lor (Z.lor (u8 (u8 v)) (Z.shiftl (u8 (u8 (Z.shiftr v 8))) 8)) (Z.shiftl (u8 (u8 (Z.shiftr v 16))) 16))
    (Z.shiftl (u8 (u8 (Z.shiftr v 24))) 24) = u32 v.
Proof.
  rewrite !u8_u8. pose proof (u8_range v). pose proof (u8_range (Z.shiftr v 8)). pose proof (u8_range (Z.shiftr v 16)).
  rewrite (lor_add _ _ 8), (lor_add _ _ 16), (lor_add _ _ 24) by lia. rewrite !Z.shiftr_div_pow2 by lia. unfold u8, u32. 
  change (2 ^ 8) with 256. change (2 ^ 16) with 65536. change (2 ^ 24) with 16777216. change (2 ^ 32) with 4294967296.
  Z.div_mod_to_equations. lia.
Qed.

Lemma byte_at_app (l1 l2 : list Z) k : byte_at (l1 ++ l2) (length l1 + k) = byte_at l2 k.
Proof. unfold byte_at. rewrite app_nth2 by lia. f_equal. lia. Qed.

Lemma read_u32_at p l1 v l2 : p = length l1 -> read_u32 (l1 ++ write_u32 v ++ l2) p = u32 v.
Proof. intros ->. unfold read_u32. rewrite !byte_at_app. rewrite <- (Nat.add_0_r (length l1)) at 1. rewrite byte_at_app. apply read_u32_write. Qed.

Definition sizes (vs : list BinaryData) : Z := sumf (fun v => Z.of_nat (bd_size v)) vs.

Lemma sizes_app vs ws : sizes (vs ++ ws) = sizes vs + sizes ws.
Proof. unfold sizes. by rewrite sumf_app. Qed.
Lemma sizes_cons v vs : sizes (v :: vs) = Z.of_nat (bd_size v) + sizes vs.
Proof. unfold sizes. by rewrite sumf_cons. Qed.
Lemma sizes_nonneg vs : 0 <= sizes vs.
Proof. apply sumf_nonneg. intros v. lia. Qed.

Lemma zlen_datas vs : zlen (concat (map bd_data vs)) = sizes vs.
Proof. induction vs as [|v vs IH]; [done|]. cbn [map concat]. by rewrite zlen_app, sizes_cons, IH. Qed.

Lemma payload_size_ok vs sum : 0 <= sum -> sum + sizes vs < 2 ^ 32 -> payload_size vs sum = Ok (sum + sizes vs).
Proof.
  revert sum. induction vs as [|v vs IH]; intros sum H0 Hs; cbn [payload_size]; [f_equal; unfold sizes; cbn; lia|]. rewrite sizes_cons in *. pose proof (sizes_nonneg vs).
  rewrite (proj2 (Z.ltb_ge _ _)) by lia. rewrite IH by lia. f_equal. lia.
Qed.

(** The values fit in one block. *)
Definition fits (vs : list BinaryData) : Prop := vs <> [] /\ zlen vs <= 65535 /\ 16 + zlen vs * 8 + sizes vs <= max_binary_size.

Definition block_of (vs : list BinaryData) : list Z :=
  write_u32 block_magic ++ write_u16 block_version ++ write_u16 (u16 (zlen vs)) ++ write_u32 (u32 (zlen vs * 8)) ++ write_u32 (u32 (sizes vs)) ++
  directory vs 0 ++ concat (map bd_data vs).

Lemma create_block_ok vs : fits vs -> create_block vs = Ok (block_of vs).
Proof.
  intros (Hne & Hc & Hs). unfold create_block. destruct vs as [|v vs]; [done|]. set (l := v :: vs) in *. pose proof (sizes_nonneg l). assert (Hp : 0 < zlen l) by (unfold l; rewrite zlen_cons; pose proof (zlen_nonneg vs); lia). clearbody l.
  rewrite (proj2 (Z.eqb_neq _ _)), (proj2 (Z.ltb_ge _ _)) by lia. unfold max_binary_size in Hs. rewrite payload_size_ok by lia. cbn. rewrite (proj2 (Z.ltb_ge _ _)) by (unfold max_binary_size; lia). done.
Qed.

(** A value that leaves no room is refused, and nothing is written. *)
Lemma create_block_too_large v : max_binary_size - 24 < Z.of_nat (bd_size v) -> create_block [v] = Throw LengthError.
Proof.
  intros Hv. unfold create_block. change ((zlen [v] =? 0) || (2 ^ 16 - 1 <? zlen [v])) with false. cbv iota. cbn [payload_size].
  destruct (2 ^ 32 - 1 - 0 <? _); [done|]. cbn [mbind result_bind]. change (zlen [v]) with 1. rewrite (proj2 (Z.ltb_lt _ _)) by (unfold max_binary_size in *; lia). done.
Qed.

Lemma length_directory vs o : length (directory vs o) = (length vs * 8)%nat.
Proof. revert o. induction vs as [|v vs IH]; intros o; cbn [directory]; [done|]. rewrite !length_app, IH. cbn [length write_u32]. lia. Qed.

Lemma directory_app vs ws o : directory (vs ++ ws) o = directory vs o ++ directory ws (o + sizes vs).
Proof.
  revert o. induction vs as [|v vs IH]; intros o; cbn [app directory]; [unfold sizes; cbn; by rewrite Z.add_0_r|]. rewrite IH, sizes_cons, <- !app_assoc. do 3 f_equal. f_equal. lia.
Qed.

Definition entry_length (v : BinaryData) : Z := if bd_is_null v then null_length else u32 (Z.of_nat (bd_size v)).

Lemma directory_entry pre vs1 v vs2 o post p : p = (length pre + length vs1 * 8)%nat ->
  read_u32 (pre ++ directory (vs1 ++ v :: vs2) o ++ post) p = u32 (o + sizes vs1) /\
  read_u32 (pre ++ directory (vs1 ++ v :: vs2) o ++ post) (p + 4) = u32 (entry_length v).
Proof.
  intros ->. rewrite directory_app. cbn [directory]. rewrite <- !app_assoc. split.
  - rewrite app_assoc. apply read_u32_at. by rewrite length_app, length_directory.
  - rewrite (app_assoc pre), (app_assoc (pre ++ _)). apply read_u32_at. rewrite !length_app, length_directory. cbn [length write_u32]. lia.
Qed.

Lemma block_of_parts vs : exists head, length head = 16%nat /\ block_of vs = head ++ directory vs 0 ++ concat (map bd_data vs) /\ read_u32 (block_of vs) 8 = u32 (u32 (zlen vs * 8)).
Proof.
  exists (write_u32 block_magic ++ write_u16 block_version ++ write_u16 (u16 (zlen vs)) ++ write_u32 (u32 (zlen vs * 8)) ++ write_u32 (u32 (sizes vs))).
  split_and!; [done|unfold block_of; by rewrite <- !app_assoc|]. unfold block_of.
  rewrite (app_assoc (write_u16 block_version)), (app_assoc (write_u32 block_magic)). by apply read_u32_at.
Qed.

Lemma u32_entry_length v : Z.of_nat (bd_size v) < null_length -> u32 (entry_length v) = match v with None => null_length | Some l => zlen l end.
Proof. intros Hv. destruct v as [l|]; [|done]. unfold entry_length, null_length in *. unfold bd_size in *. cbn in *. rewrite !u32_small; unfold zlen; try lia; apply u32_range. Qed.

Lemma datas_at vs1 v vs2 : take (bd_size v) (drop (Z.to_nat (sizes vs1)) (concat (map bd_data (vs1 ++ v :: vs2)))) = bd_data v.
Proof.
  rewrite map_app, concat_app. cbn [map concat]. rewrite <- zlen_datas. unfold zlen. rewrite Nat2Z.id, drop_app_length. apply take_app_length.
Qed.

Lemma get_from_block_of vs row v : fits vs -> vs !! row = Some v -> get_from_block (block_of vs) row = v.
Proof.
  intros (_ & Hc & Hs) Hv. pose proof (take_drop_middle _ _ _ Hv) as E. assert (Hrow : row = length (take row vs)) by (rewrite length_take; apply lookup_lt_Some in Hv; lia).
  set (vs1 := take row vs) in *. set (vs2 := drop (S row) vs) in *. clearbody vs1 vs2. subst row. pose proof (sizes_nonneg vs1). pose proof (sizes_nonneg vs2).
  assert (Hsz : sizes vs = sizes vs1 + (Z.of_nat (bd_size v) + sizes vs2)) by (by rewrite <- E, sizes_app, sizes_cons). unfold max_binary_size in Hs. pose proof (zlen_nonneg vs).
  destruct (block_of_parts vs) as (head & Hh & Eb & E8). unfold get_from_block. rewrite E8, !u32_small by (rewrite ?u32_small; lia).
  assert (Ee : (block_header_size + length vs1 * directory_entry_size = length head + length vs1 * 8)%nat) by (by rewrite Hh).
  destruct (directory_entry head vs1 v vs2 0 (concat (map bd_data vs)) _ Ee) as [E1 E2]. rewrite E in E1, E2. rewrite Eb, E1, E2, (u32_small (0 + sizes vs1)) by lia. rewrite u32_entry_length by (unfold null_length; lia).
  destruct v as [l|]; [|done]. rewrite (proj2 (Z.eqb_neq _ _)) by (unfold bd_size, null_length, zlen in *; cbn in *; lia). f_equal.
  replace (block_header_size + Z.to_nat (zlen vs * 8) + Z.to_nat (0 + sizes vs1))%nat with (length (head ++ directory vs 0) + Z.to_nat (sizes vs1))%nat by (rewrite length_app, length_directory, Hh; unfold block_header_size, zlen; lia).
  rewrite app_assoc, drop_app_add. unfold zlen. rewrite Nat2Z.id, <- E. apply (datas_at vs1 (Some l) vs2).
Qed.

(** ** Grouping values into blocks *)

Definition packable (v : BinaryData) : Prop := Z.of_nat (bd_size v) <= max_binary_size - 24.

Lemma block_loop_later values used n : (0 < n)%nat ->
  exists k, block_loop values used n = (n + k)%nat /\ (k <= length values)%nat /\ (k = O \/ used + zlen (take k values) * 8 + sizes (take k values) <= target_block_size).
Proof.
  revert used n. induction values as [|v values IH]; intros used n Hn; cbn [block_loop]; [exists O; cbn; lia|].
  rewrite (proj2 (Nat.eqb_neq n 0)) by lia. cbn [negb andb]. destruct (_ || _) eqn:E; [exists O; cbn; lia|]. apply orb_false_iff in E as [_ E]. apply Z.ltb_ge in E.
  destruct (IH (used + (8 + Z.of_nat (bd_size v))) (S n)) as (k & Ek & Hk & Hu); [lia|]. exists (S k). rewrite Ek. cbn [take length]. rewrite zlen_cons, sizes_cons. split_and!; [lia|lia|].
  right. destruct Hu as [->|Hu]; [|lia]. change (take 0 values) with (@nil BinaryData). change (sizes []) with 0. change (zlen (@nil BinaryData)) with 0. lia.
Qed.

(** A block takes at least one value, and more only up to the target size. *)
Lemma block_end_fits values : values <> [] -> Forall packable values -> (1 <= block_end values <= length values)%nat /\ fits (take (block_end values) values).
Proof.
  intros Hne Hp. destruct values as [|v values]; [done|]. unfold block_end. cbn [block_loop Nat.eqb negb andb]. pose proof (Forall_inv Hp) as Hv. unfold packable in Hv.
  assert (H1 : fits (take 1 (v :: values))) by (split_and!; [done|done|change (take 1 (v :: values)) with [v]; rewrite sizes_cons; change (zlen [v]) with 1; change (sizes []) with 0; lia]).
  destruct (_ <? _); [split; [cbn; lia|done]|]. destruct (block_loop_later values (16 + (8 + Z.of_nat (bd_size v))) 1) as (k & -> & Hk & Hu); [lia|].
  split; [cbn; lia|]. destruct Hu as [->|Hu]; [done|]. change (1 + k)%nat with (S k). pose proof (sizes_nonneg (take k values)). pose proof (zlen_nonneg (take k values)).
  cbn [take]. split_and!; [done| |]; rewrite ?sizes_cons, zlen_cons; unfold target_block_size, max_binary_size in *; lia.
Qed.

(** ** The base blocks *)

Fixpoint cumul (p : Z) (chunks : list (list BinaryData)) : list Z :=
  match chunks with [] => [] | c :: chunks => (p + zlen c) :: cumul (p + zlen c) chunks end.

Lemma cumul_app p l1 l2 : cumul p (l1 ++ l2) = cumul p l1 ++ cumul (p + zlen (concat l1)) l2.
Proof.
  revert p. induction l1 as [|c l1 IH]; intros p; cbn [app cumul concat]; [by rewrite Z.add_0_r|]. rewrite IH, zlen_app. by rewrite Z.add_assoc.
Qed.

Lemma append_base_blocks_ok fuel done_ values : Forall packable values -> (length values < fuel)%nat ->
  exists chunks, Packed.append_base_blocks fuel (map block_of done_) (cumul 0 done_) (zlen (concat done_)) values = Ok (map block_of (done_ ++ chunks), cumul 0 (done_ ++ chunks)) /\
    concat chunks = values /\ Forall fits chunks.
Proof.
  revert done_ values. induction fuel as [|fuel IH]; intros done_ values Hp Hf; [lia|]. destruct values as [|v values]; [by exists []; rewrite app_nil_r|].
  set (l := v :: values) in *. cbn [Packed.append_base_blocks]. destruct (block_end_fits l) as [Hn Hfit]; [done|done|]. set (n := block_end l) in *. clearbody n.
  unfold l at 1. fold l. rewrite create_block_ok by done. cbn [mbind result_bind].
  destruct (IH (done_ ++ [take n l]) (drop n l)) as (chunks & E & Hc & Hall); [by apply Forall_drop|rewrite length_drop; lia|]. exists (take n l :: chunks).
  rewrite map_app, cumul_app, concat_app, zlen_app in E. cbn [map cumul concat] in E. rewrite app_nil_r in E. assert (El : zlen (take n l) = Z.of_nat n) by (unfold zlen; rewrite length_take; lia). rewrite El in E.
  cbn [concat]. rewrite Hc, take_drop. split_and!; [|done|by constructor]. rewrite (cons_middle (take n l)), app_assoc. exact E.
Qed.

Lemma find_block_at chunks p n i v : Forall fits chunks -> concat chunks !! i = Some v ->
  let '(b, q) := Packed.find_block (cumul p chunks) (p + Z.of_nat i) p n in (n <= b)%nat /\ get_from_block (nth (b - n) (map block_of chunks) []) (Z.to_nat (p + Z.of_nat i - q)) = v.
Proof.
  revert p n i. induction chunks as [|c chunks IH]; intros p n i Hf Hv; [done|]. cbn [cumul Packed.find_block concat] in *. inversion_clear Hf as [|? ? Hc Hcs].
  destruct (Z.leb_spec (p + zlen c) (p + Z.of_nat i)) as [Hle|Hlt].
  - unfold zlen in Hle. rewrite lookup_app_r in Hv by lia. specialize (IH (p + zlen c) (S n) _ Hcs Hv). replace (p + zlen c + Z.of_nat (i - length c)) with (p + Z.of_nat i) in IH by (unfold zlen; lia).
    destruct (Packed.find_block _ _ _ _) as [b q]. destruct IH as [Hb IH]. split; [lia|]. replace (b - n)%nat with (S (b - S n)) by lia. exact IH.
  - unfold zlen in Hlt. rewrite lookup_app_l in Hv by lia. split; [lia|]. rewrite Nat.sub_diag, Z.add_simpl_l, Nat2Z.id. cbn [map nth]. by apply get_from_block_of.
Qed.

(** ** The leaf *)

Definition max_blocks : Z := 2 ^ 47.

Definition place_ok (blocks : nat) (e : Z) : Prop :=
  e = 0 \/ exists b r, (b < blocks)%nat /\ Z.of_nat b < max_blocks /\ Z.of_nat r < 65536 /\ e = Packed.location b r + 1.

Record packed_inv (s : ArrayPackedBlobs) : Prop := {
  pi_order : Forall (fun slot => 0 <= slot < zlen (m_overrides s)) (m_order s);
  pi_nodup : NoDup (m_order s);
  pi_places : Forall (place_ok (length (m_delta_blocks s))) (m_overrides s) }.

Definition packed_values (s : ArrayPackedBlobs) : list BinaryData := map (Packed.get_slot s) (m_order s).

Lemma location_eq b r : Z.of_nat r < 65536 -> Packed.location b r = Z.of_nat b * 65536 + Z.of_nat r.
Proof. intros Hr. unfold Packed.location. rewrite Z.lor_comm, (lor_add _ _ 16) by lia. change (2 ^ 16) with 65536. lia. Qed.

(** What a place in [m_overrides] means: 0 for the base, else a row of a delta block. *)
Definition place_value (s : ArrayPackedBlobs) (slot e : Z) : BinaryData :=
  if e =? 0 then let '(b, q) := Packed.find_block (m_base_ends s) slot 0 0 in get_from_block (nth b (m_base_blocks s) []) (Z.to_nat (slot - q))
  else get_from_block (nth (Z.to_nat ((e - 1) / 65536)) (m_delta_blocks s) []) (Z.to_nat ((e - 1) mod 65536)).

Lemma place_range n e : place_ok n e -> 0 <= e < 2 ^ 64.
Proof. intros [->|(b & r & _ & Hb & Hr & ->)]; [lia|]. rewrite location_eq by done. unfold max_blocks in Hb. lia. Qed.

Lemma get_slot_place s slot e : m_overrides s !! Z.to_nat slot = Some e -> place_ok (length (m_delta_blocks s)) e -> Packed.get_slot s slot = place_value s slot e.
Proof.
  intros He Hok. apply place_range in Hok. unfold Packed.get_slot, place_value. rewrite nth_lookup, He. cbn [default from_option]. unfold u64, id. rewrite Z.mod_small by done.
  destruct (Z.eqb_spec e 0) as [->|Hne]; [done|]. cbn [negb]. rewrite Z.shiftr_div_pow2 by lia. change 0xffff with (Z.ones 16). by rewrite Z.land_ones by lia.
Qed.

Lemma place_value_location s slot b r : Z.of_nat r < 65536 -> place_value s slot (Packed.location b r + 1) = get_from_block (nth b (m_delta_blocks s) []) r.
Proof.
  intros Hr. rewrite location_eq by done. unfold place_value. rewrite (proj2 (Z.eqb_neq _ _)) by lia. rewrite Z.add_simpl_r.
  rewrite Z.div_add_l, Z.div_small, Z.add_0_r by lia. rewrite Z.add_comm, Z.mod_add, Z.mod_small by lia. by rewrite !Nat2Z.id.
Qed.

(** The values of slots depend on their places, the base and the delta blocks that exist. *)
Lemma place_value_more s t slot e : m_base_ends t = m_base_ends s -> m_base_blocks t = m_base_blocks s -> m_delta_blocks s `prefix_of` m_delta_blocks t ->
  place_ok (length (m_delta_blocks s)) e -> place_value t slot e = place_value s slot e.
Proof.
  intros E1 E2 [more E3] [->|(b & r & Hb & _ & Hr & ->)]; [unfold place_value; by rewrite E1, E2|].
  rewrite !place_value_location by done. by rewrite E3, app_nth1.
Qed.

Lemma place_ok_more n m e : (n <= m)%nat -> place_ok n e -> place_ok m e.
Proof. intros H [->|(b & r & Hb & H1 & H2 & ->)]; [by left|]. right. exists b, r. split_and!; [lia|done|done|done]. Qed.

Lemma packed_slot s slot : packed_inv s -> 0 <= slot < zlen (m_overrides s) ->
  exists e, m_overrides s !! Z.to_nat slot = Some e /\ place_ok (length (m_delta_blocks s)) e /\ Packed.get_slot s slot = place_value s slot e.
Proof.
  intros Hinv Hs. unfold zlen in Hs. destruct (lookup_lt_is_Some_2 (m_overrides s) (Z.to_nat slot)) as [e He]; [lia|]. pose proof (Forall_lookup_1 _ _ _ _ (pi_places s Hinv) He). exists e. split_and!; [done|done|].
  by apply get_slot_place.
Qed.

(** Slots keep their values when the place stays and blocks are only added. *)
Lemma get_slot_more s t slot : packed_inv s -> 0 <= slot < zlen (m_overrides s) -> m_base_ends t = m_base_ends s -> m_base_blocks t = m_base_blocks s ->
  m_delta_blocks s `prefix_of` m_delta_blocks t -> m_overrides t !! Z.to_nat slot = m_overrides s !! Z.to_nat slot -> Packed.get_slot t slot = Packed.get_slot s slot.
Proof.
  intros Hinv Hs E1 E2 E3 E4. destruct (packed_slot s slot Hinv Hs) as (e & He & Hok & ->). rewrite (get_slot_place t slot e).
  - by apply place_value_more.
  - by rewrite E4.
  - apply (place_ok_more (length (m_delta_blocks s))); [by apply prefix_length|done].
Qed.

Lemma packed_get s i v : packed_values s !! i = Some v -> Packed.get s i = v.
Proof. unfold packed_values, Packed.get. rewrite list_lookup_fmap_Some. intros (slot & -> & Hs). by rewrite nth_lookup, Hs. Qed.

Lemma packed_size s : Packed.size s = length (packed_values s).
Proof. unfold packed_values. by rewrite length_map. Qed.

(** *** A new block *)

Definition with_block (s : ArrayPackedBlobs) (block : list Z) : ArrayPackedBlobs :=
  mkPacked (m_base_blocks s) (m_base_ends s) (m_delta_blocks s ++ [block]) (m_overrides s) (m_order s).

Lemma with_block_ok s block : packed_inv s -> packed_inv (with_block s block) /\ packed_values (with_block s block) = packed_values s.
Proof.
  intros Hinv. split.
  - destruct Hinv as [H1 H2 H3]. split; [done|done|]. cbn [with_block m_delta_blocks m_overrides]. eapply Forall_impl; [|exact H3]. intros e. apply place_ok_more. rewrite length_app. lia.
  - unfold packed_values. cbn [with_block m_order]. apply map_ext_Forall. eapply Forall_impl; [|exact (pi_order s Hinv)]. cbn. intros slot Hs. apply get_slot_more; try done. by apply prefix_app_r.
Qed.

(** *** A row becomes a new slot, at any place in the order *)

Definition with_row (s : ArrayPackedBlobs) (b r i : nat) : ArrayPackedBlobs :=
  mkPacked (m_base_blocks s) (m_base_ends s) (m_delta_blocks s) (m_overrides s ++ [Packed.location b r + 1]) (list_insert_at i (zlen (m_overrides s)) (m_order s)).

Lemma with_row_ok s b r i v : packed_inv s -> (b < length (m_delta_blocks s))%nat -> Z.of_nat b < max_blocks -> Z.of_nat r < 65536 -> get_from_block (nth b (m_delta_blocks s) []) r = v ->
  packed_inv (with_row s b r i) /\ packed_values (with_row s b r i) = list_insert_at i v (packed_values s).
Proof.
  intros Hinv Hb Hm Hr Hv. pose proof (pi_order s Hinv) as Ho. assert (Hnew : place_ok (length (m_delta_blocks s)) (Packed.location b r + 1)) by (right; by exists b, r).
  assert (Hold : forall slot, 0 <= slot < zlen (m_overrides s) -> Packed.get_slot (with_row s b r i) slot = Packed.get_slot s slot).
  { intros slot Hs. apply get_slot_more; try done. cbn [with_row m_overrides]. apply lookup_app_l. unfold zlen in Hs. lia. }
  split.
  - split; cbn [with_row m_order m_overrides m_delta_blocks].
    + apply Forall_insert_at; [rewrite zlen_app; change (zlen [_]) with 1; pose proof (zlen_nonneg (m_overrides s)); lia|]. eapply Forall_impl; [|exact Ho]. cbn. intros slot Hs. rewrite zlen_app. change (zlen [_]) with 1. lia.
    + unfold list_insert_at. rewrite <- Permutation_middle, take_drop.
      constructor; [|exact (pi_nodup s Hinv)]. intros Hin. rewrite list.Forall_forall in Ho. apply Ho in Hin. lia.
    + apply Forall_app. split; [exact (pi_places s Hinv)|by constructor].
  - unfold packed_values. cbn [with_row m_order]. unfold list_insert_at. rewrite map_app, firstn_map, skipn_map. cbn [map]. f_equal; [|f_equal].
    + apply map_ext_Forall. apply Forall_take. eapply Forall_impl; [|exact Ho]. exact Hold.
    + rewrite (get_slot_place _ _ (Packed.location b r + 1)); [by rewrite place_value_location| |done]. cbn [with_row m_overrides]. unfold zlen. rewrite Nat2Z.id. by apply list_lookup_middle.
    + apply map_ext_Forall. apply Forall_drop. eapply Forall_impl; [|exact Ho]. exact Hold.
Qed.

(** *** A row replaces the value of a slot *)

Definition with_place (s : ArrayPackedBlobs) (b r slot : nat) : ArrayPackedBlobs :=
  mkPacked (m_base_blocks s) (m_base_ends s) (m_delta_blocks s) (<[slot := Packed.location b r + 1]> (m_overrides s)) (m_order s).

Lemma with_place_ok s b r i v : packed_inv s -> (i < length (m_order s))%nat -> (b < length (m_delta_blocks s))%nat -> Z.of_nat b < max_blocks -> Z.of_nat r < 65536 ->
  get_from_block (nth b (m_delta_blocks s) []) r = v ->
  let t := with_place s b r (Z.to_nat (nth i (m_order s) 0)) in packed_inv t /\ packed_values t = <[i := v]> (packed_values s).
Proof.
  intros Hinv Hi Hb Hm Hr Hv t. pose proof (pi_order s Hinv) as Ho. assert (Hnew : place_ok (length (m_delta_blocks s)) (Packed.location b r + 1)) by (right; by exists b, r).
  destruct (lookup_lt_is_Some_2 _ _ Hi) as [slot Hslot]. unfold t. rewrite nth_lookup, Hslot. cbn [default from_option]. unfold id. pose proof (Forall_lookup_1 _ _ _ _ Ho Hslot) as Hs. cbn in Hs. unfold zlen in Hs.
  assert (Hinv' : packed_inv (with_place s b r (Z.to_nat slot))).
  { destruct Hinv as [H1 H2 H3]. split; cbn [with_place m_order m_overrides m_delta_blocks]; [|done|by apply Forall_insert]. unfold zlen. by rewrite length_insert. }
  split; [done|]. apply list_eq. intros k. unfold packed_values. cbn [with_place m_order]. destruct (decide (k = i)) as [->|Hne].
  - rewrite list_lookup_insert_eq by (by rewrite length_map). rewrite list_lookup_fmap, Hslot. cbn. f_equal.
    rewrite (get_slot_place _ _ (Packed.location b r + 1)); [by rewrite place_value_location| |done]. cbn [with_place m_overrides]. apply list_lookup_insert_eq. lia.
  - rewrite list_lookup_insert_ne by done. rewrite !list_lookup_fmap. destruct (m_order s !! k) as [slot'|] eqn:Hk; [|done]. cbn. f_equal. pose proof (Forall_lookup_1 _ _ _ _ Ho Hk) as Hs'. cbn in Hs'.
    apply get_slot_more; try done. cbn [with_place m_overrides]. apply list_lookup_insert_ne. intros E. apply Hne. apply (NoDup_lookup _ _ _ _ (pi_nodup s Hinv) Hk). rewrite Hslot. f_equal. lia.
Qed.

(** *** Appending *)

Definition few_blocks (n : nat) (s : ArrayPackedBlobs) : Prop := zlen (m_delta_blocks s) + Z.of_nat n <= max_blocks.

Lemma append_delta_block_ok s vs : fits vs -> Packed.append_delta_block s vs = Ok (with_block s (block_of vs), length (m_delta_blocks s)).
Proof. intros Hf. unfold Packed.append_delta_block. by rewrite create_block_ok. Qed.

Lemma last_block s block : nth (length (m_delta_blocks s)) (m_delta_blocks (with_block s block)) [] = block.
Proof. cbn [with_block m_delta_blocks]. rewrite app_nth2 by lia. by rewrite Nat.sub_diag. Qed.

Lemma append_rows_ok n s b r vs : packed_inv s -> fits vs -> (b < length (m_delta_blocks s))%nat -> Z.of_nat b < max_blocks -> nth b (m_delta_blocks s) [] = block_of vs -> (r + n <= length vs)%nat ->
  packed_inv (Packed.append_rows n s b r) /\ packed_values (Packed.append_rows n s b r) = packed_values s ++ take n (drop r vs) /\
  m_delta_blocks (Packed.append_rows n s b r) = m_delta_blocks s.
Proof.
  intros Hinv Hf. revert s r Hinv. induction n as [|n IH]; intros s r Hinv Hb Hm Hblk Hr; cbn [Packed.append_rows]; [by rewrite app_nil_r|].
  destruct (lookup_lt_is_Some_2 vs r) as [v Hv]; [lia|]. assert (Hr16 : Z.of_nat r < 65536) by (destruct Hf as (_ & Hc & _); unfold zlen in Hc; lia).
  destruct (with_row_ok s b r (length (m_order s)) v) as [Hinv' Hvals]; [done|done|done|done|rewrite Hblk; by apply get_from_block_of|].
  assert (E : with_row s b r (length (m_order s)) = mkPacked (m_base_blocks s) (m_base_ends s) (m_delta_blocks s) (m_overrides s ++ [Packed.location b r + 1]) (m_order s ++ [zlen (m_overrides s)]))
    by (unfold with_row, list_insert_at; by rewrite take_ge, drop_ge by lia).
  rewrite E in *. destruct (IH _ (S r) Hinv' Hb Hm Hblk) as (H1 & H2 & H3); [lia|]. split_and!; [done| |done]. rewrite H2, Hvals. unfold list_insert_at.
  rewrite take_ge, drop_ge, <- app_assoc by (rewrite <- packed_size; done). cbn [app]. by rewrite (drop_S vs v r Hv).
Qed.

Lemma packed_append fuel s vs : packed_inv s -> Forall packable vs -> (length vs < fuel)%nat -> few_blocks (length vs) s ->
  exists s', Packed.append fuel s vs = Ok s' /\ packed_inv s' /\ packed_values s' = packed_values s ++ vs /\ (length (m_delta_blocks s') <= length (m_delta_blocks s) + length vs)%nat.
Proof.
  revert s vs. induction fuel as [|fuel IH]; intros s vs Hinv Hp Hf Hfew; [lia|]. destruct vs as [|v vs]; [exists s; rewrite app_nil_r; split_and!; [done|done|done|lia]|].
  cbn [Packed.append]. set (l := v :: vs) in *. destruct (block_end_fits l) as [Hn Hfit]; [done|done|]. set (n := block_end l) in *. clearbody n. unfold few_blocks, zlen in Hfew.
  rewrite append_delta_block_ok by done. cbn [mbind result_bind fst snd]. destruct (with_block_ok s (block_of (take n l)) Hinv) as [Hi Hv].
  assert (Hlen : length (m_delta_blocks (with_block s (block_of (take n l)))) = S (length (m_delta_blocks s))) by (cbn [with_block m_delta_blocks]; rewrite length_app; cbn; lia).
  destruct (append_rows_ok n (with_block s (block_of (take n l))) (length (m_delta_blocks s)) 0 (take n l)) as (H1 & H2 & H3); [done|done|lia|lia|apply last_block|rewrite length_take; lia|].
  destruct (IH (Packed.append_rows n (with_block s (block_of (take n l))) (length (m_delta_blocks s)) 0) (drop n l)) as (s' & E & Hs' & Hv' & Hd); [done|by apply Forall_drop|rewrite length_drop; lia|unfold few_blocks, zlen; rewrite H3, Hlen, length_drop; lia|].
  exists s'. split_and!; [done|done| |rewrite H3, Hlen, length_drop in Hd; lia]. rewrite Hv', H2, Hv, drop_0, take_take, Nat.min_id, <- app_assoc. by rewrite take_drop.
Qed.

(** *** Inserting, replacing and cutting *)

Lemma fits_one v : packable v -> fits [v].
Proof. intros Hv. unfold packable in Hv. split_and!; [done|done|]. rewrite sizes_cons. change (zlen [v]) with 1. change (sizes []) with 0. lia. Qed.

Lemma packed_insert s i v : packed_inv s -> packable v -> few_blocks 1 s ->
  exists s', Packed.insert s i v = Ok s' /\ packed_inv s' /\ packed_values s' = list_insert_at i v (packed_values s) /\ length (m_delta_blocks s') = S (length (m_delta_blocks s)).
Proof.
  intros Hinv Hp Hfew. unfold few_blocks, zlen in Hfew. unfold Packed.insert. rewrite append_delta_block_ok by (by apply fits_one). cbn [mbind result_bind fst snd].
  destruct (with_block_ok s (block_of [v]) Hinv) as [Hi Hv]. assert (Hlen : length (m_delta_blocks (with_block s (block_of [v]))) = S (length (m_delta_blocks s))) by (cbn [with_block m_delta_blocks]; rewrite length_app; cbn; lia).
  destruct (with_row_ok (with_block s (block_of [v])) (length (m_delta_blocks s)) 0 i v) as [H1 H2]; [done|lia|lia|lia|rewrite last_block; apply get_from_block_of; [by apply fits_one|done]|].
  eexists. split; [done|]. unfold with_row in H1, H2. replace (Packed.location (length (m_delta_blocks s)) 0 + 1) with (Z.shiftl (Z.of_nat (length (m_delta_blocks s))) 16 + 1) in H1, H2 by (unfold Packed.location; by rewrite Z.lor_0_r).
  rewrite Hv in H2. split_and!; [exact H1|exact H2|exact Hlen].
Qed.

Fixpoint set_values (c : list BinaryData) (positions : list nat) (values : list BinaryData) (base : nat) : list BinaryData :=
  match positions, values with
  | p :: positions, v :: values => set_values (<[(p - base)%nat := v]> c) positions values base
  | _, _ => c
  end.

Lemma set_values_app c ps1 vs1 ps2 vs2 base : length ps1 = length vs1 -> set_values c (ps1 ++ ps2) (vs1 ++ vs2) base = set_values (set_values c ps1 vs1 base) ps2 vs2 base.
Proof. revert c vs1. induction ps1 as [|p ps1 IH]; intros c [|v vs1] H; try done. cbn [app set_values]. apply IH. cbn in H. lia. Qed.

Lemma set_rows_ok ps s base b r vs : packed_inv s -> fits vs -> (b < length (m_delta_blocks s))%nat -> Z.of_nat b < max_blocks -> nth b (m_delta_blocks s) [] = block_of vs -> (r + length ps <= length vs)%nat ->
  Forall (fun p => (p - base < length (m_order s))%nat) ps ->
  let t := Packed.set_rows ps s base b r in
  packed_inv t /\ packed_values t = set_values (packed_values s) ps (drop r vs) base /\ m_delta_blocks t = m_delta_blocks s /\ m_order t = m_order s.
Proof.
  intros Hinv Hf. revert s r Hinv. induction ps as [|p ps IH]; intros s r Hinv Hb Hm Hblk Hr Hps; cbn [Packed.set_rows set_values]; [by destruct (drop r vs)|].
  cbn [length] in Hr. destruct (lookup_lt_is_Some_2 vs r) as [v Hv]; [lia|]. assert (Hr16 : Z.of_nat r < 65536) by (destruct Hf as (_ & Hc & _); unfold zlen in Hc; lia).
  inversion_clear Hps as [|? ? Hp Hps']. destruct (with_place_ok s b r (p - base)%nat v) as [Hinv' Hvals]; [done|done|done|done|done|rewrite Hblk; by apply get_from_block_of|].
  destruct (IH _ (S r) Hinv' Hb Hm Hblk) as (H1 & H2 & H3 & H4); [lia|done|]. rewrite (drop_S vs v r Hv). cbn zeta in *. rewrite Hvals in H2. by split_and!.
Qed.

Lemma length_set_values c ps vs base : length (set_values c ps vs base) = length c.
Proof. revert c vs. induction ps as [|p ps IH]; intros c [|v vs]; cbn [set_values]; try done. by rewrite IH, length_insert. Qed.

Lemma packed_set_many fuel s ps vs base : packed_inv s -> Forall packable vs -> (length vs < fuel)%nat -> few_blocks (length vs) s -> length ps = length vs ->
  Forall (fun p => (p - base < length (m_order s))%nat) ps ->
  exists s', Packed.set_many fuel s ps vs base = Ok s' /\ packed_inv s' /\ packed_values s' = set_values (packed_values s) ps vs base /\ (length (m_delta_blocks s') <= length (m_delta_blocks s) + length vs)%nat.
Proof.
  revert s ps vs. induction fuel as [|fuel IH]; intros s ps vs Hinv Hp Hf Hfew Hlps Hps; [lia|]. destruct vs as [|v vs]; [exists s; destruct ps; [|done]; split_and!; [done|done|done|lia]|].
  cbn [Packed.set_many]. set (l := v :: vs) in *. destruct (block_end_fits l) as [Hn Hfit]; [done|done|]. set (n := block_end l) in *. clearbody n. unfold few_blocks, zlen in Hfew.
  rewrite append_delta_block_ok by done. cbn [mbind result_bind fst snd]. destruct (with_block_ok s (block_of (take n l)) Hinv) as [Hi Hv].
  assert (Hlen : length (m_delta_blocks (with_block s (block_of (take n l)))) = S (length (m_delta_blocks s))) by (cbn [with_block m_delta_blocks]; rewrite length_app; cbn; lia).
  destruct (set_rows_ok (take n ps) (with_block s (block_of (take n l))) base (length (m_delta_blocks s)) 0 (take n l)) as (H1 & H2 & H3 & H4); [done|done|lia|lia|apply last_block|rewrite !length_take; lia|by apply Forall_take|].
  destruct (IH (Packed.set_rows (take n ps) (with_block s (block_of (take n l))) base (length (m_delta_blocks s)) 0) (drop n ps) (drop n l)) as (s' & E & Hs' & Hv' & Hd);
    [done|by apply Forall_drop|rewrite length_drop; lia|unfold few_blocks, zlen; rewrite H3, Hlen, length_drop; lia|rewrite !length_drop; lia|rewrite H4; by apply Forall_drop|].
  exists s'. split_and!; [done|done| |rewrite H3, Hlen, length_drop in Hd; lia]. rewrite Hv', H2, Hv, drop_0. rewrite <- set_values_app by (rewrite !length_take; lia). by rewrite !take_drop.
Qed.

Lemma with_order_ok s order : packed_inv s -> order `sublist_of` m_order s -> packed_inv (Packed.with_order order s) /\ packed_values (Packed.with_order order s) = map (Packed.get_slot s) order.
Proof.
  intros [H1 H2 H3] Hsub. split; [|done]. split; cbn [Packed.with_order m_order m_overrides m_delta_blocks]; [rewrite list.Forall_forall in H1 |- *; intros x Hx; apply H1; by eapply elem_of_sublist|by eapply sublist_NoDup|done].
Qed.

Lemma packed_erase s i : packed_inv s -> packed_inv (Packed.erase s i) /\ packed_values (Packed.erase s i) = list_erase_range i (S i) (packed_values s).
Proof.
  intros Hinv. destruct (with_order_ok s (list_erase_range i (S i) (m_order s)) Hinv) as [H1 H2].
  - unfold list_erase_range. rewrite <- (take_drop i (m_order s)) at 3. apply sublist_app; [done|]. replace (S i) with (i + 1)%nat by lia. rewrite <- drop_drop. apply sublist_drop.
  - split; [done|]. unfold Packed.erase. rewrite H2. unfold list_erase_range, packed_values. by rewrite map_app, firstn_map, skipn_map.
Qed.

Lemma packed_truncate s n : packed_inv s -> packed_inv (Packed.truncate s n) /\ packed_values (Packed.truncate s n) = take n (packed_values s).
Proof.
  intros Hinv. unfold Packed.truncate. destruct (Nat.ltb_spec n (Packed.size s)) as [H|H].
  - destruct (with_order_ok s (take n (m_order s)) Hinv (sublist_take _ _)) as [H1 H2]. split; [done|]. rewrite H2. unfold packed_values. by rewrite firstn_map.
  - split; [done|]. rewrite take_ge; [done|]. by rewrite <- packed_size.
Qed.

(** *** A new leaf *)

Lemma cumul_last p chunks : default p (list.last (cumul p chunks)) = p + zlen (concat chunks).
Proof.
  destruct chunks as [|c chunks _] using rev_ind; [cbn; by rewrite Z.add_0_r|]. rewrite cumul_app. cbn [cumul]. rewrite last_snoc, concat_app, zlen_app. cbn [concat default from_option].
  rewrite app_nil_r. unfold id. lia.
Qed.

Lemma can_pack_packable values : can_pack values = true -> Forall packable values.
Proof.
  intros H. assert (Hall : forallb (fun v => Z.of_nat (bd_size v) <=? max_binary_size - (8 + 16 + 8)) values = true) by (by destruct values). apply List.Forall_forall. intros v Hv.
  rewrite forallb_forall in Hall. specialize (Hall v Hv). apply Z.leb_le in Hall. unfold packable. lia.
Qed.

Lemma lookup_repeat_zero n i : (i < n)%nat -> repeat 0 n !! i = Some 0.
Proof. revert i. induction n as [|n IH]; intros [|i] Hi; try lia; [done|]. apply IH. lia. Qed.

(** The leaf holds the values, and no call of [normalize_packed] would change it. *)
Lemma packed_create values : can_pack values = true ->
  exists s, Packed.create values = Ok s /\ packed_inv s /\ packed_values s = values /\ m_delta_blocks s = [] /\ Packed.needs_normalize s = false.
Proof.
  intros Hc. unfold Packed.create. rewrite Hc. cbn [negb]. destruct (append_base_blocks_ok (S (length values)) [] values) as (chunks & E & Hcat & Hf); [by apply can_pack_packable|lia|].
  cbn [map cumul concat] in E. change (zlen []) with 0 in E. rewrite E. cbn [mbind result_bind fst snd app]. eexists. split; [done|].
  assert (Hlk : forall i slot, map Z.of_nat (seq 0 (length values)) !! i = Some slot -> slot = Z.of_nat i /\ (i < length values)%nat).
  { intros i slot. rewrite list_lookup_fmap_Some. intros (k & -> & Hk). apply lookup_seq in Hk. lia. }
  assert (Hinv : packed_inv (mkPacked (map block_of chunks) (cumul 0 chunks) [] (repeat 0 (length values)) (map Z.of_nat (seq 0 (length values))))).
  { split; cbn [m_order m_overrides m_delta_blocks].
    - apply Forall_lookup_2. intros i slot Hi. apply Hlk in Hi. unfold zlen. rewrite repeat_length. lia.
    - apply NoDup_fmap_2; [intros ? ?; lia|apply NoDup_seq].
    - apply Forall_lookup_2. intros i e Hi. left. pose proof (lookup_lt_Some _ _ _ Hi) as Hlt. rewrite repeat_length in Hlt. rewrite lookup_repeat_zero in Hi by done. congruence. }
  split_and!; [done| |done|].
  - apply list_eq. intros i. unfold packed_values. cbn [m_order]. rewrite list_lookup_fmap. destruct (values !! i) as [v|] eqn:Hv.
    + assert (Hi : (i < length values)%nat) by (by apply lookup_lt_Some in Hv). rewrite list_lookup_fmap, lookup_seq_lt by done. cbn. f_equal.
      rewrite (get_slot_place _ _ 0); [|cbn [m_overrides]; rewrite Nat2Z.id; by apply lookup_repeat_zero|by left]. unfold place_value. cbn [Z.eqb m_base_ends m_base_blocks].
      rewrite <- Hcat in Hv. pose proof (find_block_at chunks 0 0 i v Hf Hv) as Hfb. cbn in Hfb |- *. destruct (Packed.find_block _ _ _ _) as [b q]. by rewrite Nat.sub_0_r in Hfb; destruct Hfb.
    + apply lookup_ge_None in Hv. rewrite list_lookup_fmap, lookup_seq_ge by done. done.
  - unfold Packed.needs_normalize. cbn [m_delta_blocks m_base_ends m_order m_overrides length Nat.eqb negb]. rewrite cumul_last, Hcat. unfold zlen. rewrite length_map, length_seq, repeat_length, Z.add_0_l, Z.eqb_refl. cbn [negb orb].
    apply not_true_is_false. rewrite existsb_exists. intros (i & Hi & Hb). apply in_seq in Hi. rewrite !nth_lookup, list_lookup_fmap, lookup_seq_lt, lookup_repeat_zero in Hb by lia. cbn in Hb. by rewrite Z.eqb_refl in Hb.
Qed.

(** *** Searching *)

Lemma bd_equal_spec a b : Packed.bd_equal a b = bool_decide (a = b).
Proof.
  unfold Packed.bd_equal. destruct a as [l|], b as [k|]; cbn; try done. unfold bd_size. cbn. destruct (Nat.eqb_spec (length l) (length k)) as [E|E]; cbn.
  - destruct (Nat.eqb_spec (length l) 0) as [E0|_]; cbn.
    + symmetry. apply bool_decide_true. destruct l; [|done]. by destruct k.
    + apply bool_decide_ext. unfold id. split; congruence.
  - symmetry. apply bool_decide_false. congruence.
Qed.

Lemma packed_find_first s v b e : (b <= e <= length (packed_values s))%nat -> is_first (fun i => packed_values s !! i = Some v) b e (Packed.find_first s v b e).
Proof.
  intros H. unfold Packed.find_first. remember (e - b)%nat as n eqn:En. revert b H En. induction n as [|n IH]; intros b H En; cbn [Packed.find_loop]; [apply is_first_nil; lia|].
  destruct (lookup_lt_is_Some_2 (packed_values s) b) as [w Hw]; [lia|]. rewrite (packed_get _ _ _ Hw), bd_equal_spec. destruct (bool_decide_reflect (w = v)) as [<-|Hne].
  - apply is_first_here; [lia|done].
  - apply is_first_next; [intros Hc; congruence|]. apply IH; lia.
Qed.
