(* ===== verification/ArrayBinaryInv.v ===== *)
(** * Leaves of binary values hold the list of their values

    [BlobReader] is what each representation promises to its readers; the three
    representations and the leaf itself are instances.  The operations of the leaf are
    those of the representations and the conversions between them. *)

From S2P Require Import Prelude Bytes Blobs SmallBlobs BigBlobs PackedBlobs ArrayBinary BlobsInv PackedBlobsInv.

(** ** What a representation promises to readers *)

Class BlobReader (T : Type) := {
  rd_ok : T -> Prop;
  rd_values : T -> list BinaryData;
  rd_size : T -> nat;
  rd_get : T -> nat -> BinaryData;
  rd_is_null : T -> nat -> bool;
  rd_find_first : T -> BinaryData -> nat -> nat -> option nat;
  rd_size_ok s : rd_ok s -> rd_size s = length (rd_values s);
  rd_get_ok s i v : rd_ok s -> rd_values s !! i = Some v -> rd_get s i = v;
  rd_is_null_ok s i v : rd_ok s -> rd_values s !! i = Some v -> rd_is_null s i = bd_is_null v;
  rd_find_ok s v b e : rd_ok s -> (b <= e <= length (rd_values s))%nat -> is_first (fun i => rd_values s !! i = Some v) b e (rd_find_first s v b e) }.

Lemma rd_get_all `{BlobReader T} s : rd_ok s -> map (rd_get s) (seq 0 (rd_size s)) = rd_values s.
Proof.
  intros Hs. apply list_eq. intros i. rewrite list_lookup_fmap, rd_size_ok by done. destruct (rd_values s !! i) as [v|] eqn:Hv.
  - rewrite lookup_seq_lt by (by apply lookup_lt_Some in Hv). cbn. by rewrite (rd_get_ok s i v).
  - apply lookup_ge_None in Hv. by rewrite lookup_seq_ge.
Qed.

(** *** Small blobs *)

Definition small_values (s : ArraySmallBlobs) : list BinaryData := map (Small.get s) (seq 0 (Small.size s)).
Definition small_ok (s : ArraySmallBlobs) : Prop := exists c, s = Small.create c /\ existsb Binary.is_large c = false.

Lemma small_create_get c i v : c !! i = Some v -> Small.get (Small.create c) i = v.
Proof. intros Hv. rewrite small_create, (small_get_at _ _ _ (st_of_lookup false _ _ _ Hv)). cbn. rewrite app_nil_r. by destruct v. Qed.

Lemma small_create_values c : small_values (Small.create c) = c.
Proof.
  unfold small_values. assert (E : Small.size (Small.create c) = length c) by (by rewrite small_create, small_size_of, length_map). rewrite E. apply list_eq. intros i.
  rewrite list_lookup_fmap. destruct (c !! i) as [v|] eqn:Hv.
  - rewrite lookup_seq_lt by (by apply lookup_lt_Some in Hv). cbn. by rewrite (small_create_get _ _ _ Hv).
  - apply lookup_ge_None in Hv. by rewrite lookup_seq_ge.
Qed.

#[export, refine] Instance small_reader : BlobReader ArraySmallBlobs := {|
  rd_ok := small_ok; rd_values := small_values; rd_size := Small.size; rd_get := Small.get; rd_is_null := Small.is_null;
  rd_find_first := fun s v b e => Small.find_first s v false b e |}.
Proof.
  - intros s _. unfold small_values. by rewrite length_map, length_seq.
  - intros s i v (c & -> & _). rewrite small_create_values. apply small_create_get.
  - intros s i v (c & -> & _). rewrite small_create_values. intros Hv. by rewrite small_create, (small_is_null_at _ _ _ (st_of_lookup false _ _ _ Hv)).
  - intros s v b e (c & -> & _). rewrite small_create_values, small_create. apply small_find_first.
Defined.

(** *** Big blobs and packed blocks *)

Definition big_rd_ok (s : ArrayBigBlobs) : Prop := big_ok s /\ Forall packable (values_of s).

Lemma packable_small v : packable v -> bd_small v.
Proof. unfold packable, bd_small. lia. Qed.

Definition binary_ok (a : ArrayBinary) : Prop :=
  match a with KSmall s => small_ok s | KBig s => big_rd_ok s | KPacked s => packed_inv s end.
Definition binary_values (a : ArrayBinary) : list BinaryData :=
  match a with KSmall s => small_values s | KBig s => values_of s | KPacked s => packed_values s end.

Section Readers.
Context (refs_bytes : list (list Z) -> list Z).

#[export, refine] Instance big_reader : BlobReader ArrayBigBlobs := {|
  rd_ok := big_rd_ok; rd_values := values_of; rd_size := fun s => length s; rd_get := Big.get; rd_is_null := Big.is_null;
  rd_find_first := fun s v b e => Big.find_first refs_bytes s v false b e |}.
Proof.
  - intros s _. unfold values_of. by rewrite length_map.
  - intros s i v [Hs Hp] Hv. apply big_get; [done|done|]. apply packable_small. exact (Forall_lookup_1 _ _ _ _ Hp Hv).
  - intros s i v _. apply big_is_null.
  - intros s v b e [Hs Hp] H. apply big_find_first; [done|eapply Forall_impl; [|exact Hp]; exact packable_small|]. unfold values_of in H. by rewrite length_map in H.
Defined.

#[export, refine] Instance packed_reader : BlobReader ArrayPackedBlobs := {|
  rd_ok := packed_inv; rd_values := packed_values; rd_size := Packed.size; rd_get := Packed.get; rd_is_null := fun s i => bd_is_null (Packed.get s i);
  rd_find_first := fun s v b e => Packed.find_first s v b e |}.
Proof.
  - intros s _. apply packed_size.
  - intros s i v _. apply packed_get.
  - intros s i v _ Hv. by rewrite (packed_get _ _ _ Hv).
  - intros s v b e _. apply packed_find_first.
Defined.

(** *** The leaf *)

#[export, refine] Instance binary_reader : BlobReader ArrayBinary := {|
  rd_ok := binary_ok; rd_values := binary_values; rd_size := Binary.size; rd_get := Binary.get; rd_is_null := Binary.is_null;
  rd_find_first := Binary.find_first refs_bytes |}.
Proof.
  - intros [s|s|s]; exact (rd_size_ok s).
  - intros [s|s|s]; exact (rd_get_ok s).
  - intros [s|s|s]; exact (rd_is_null_ok s).
  - intros [s|s|s]; exact (rd_find_ok s).
Defined.
End Readers.

Lemma binary_size a : binary_ok a -> Binary.size a = length (binary_values a).
Proof. exact (@rd_size_ok _ (binary_reader (fun _ => [])) a). Qed.

Lemma binary_get_all a : binary_ok a -> Binary.get_all a = binary_values a.
Proof. exact (@rd_get_all _ (binary_reader (fun _ => [])) a). Qed.

(** ** Writing *)

(** The bytes of a leaf of small blobs stay in one node. *)
Definition max_leaf : nat := Z.to_nat 262143.

(** The rows that a packed leaf can still take: places have 47 bits for the block. *)
Definition blocks (a : ArrayBinary) : Z := match a with KPacked s => zlen (m_delta_blocks s) | _ => 0 end.

(** [a'] holds [c] and has at most [n] blocks more than [a]. *)
Definition becomes (a : ArrayBinary) (n : nat) (r : result ArrayBinary) (c : list BinaryData) : Prop :=
  exists a', r = Ok a' /\ binary_ok a' /\ binary_values a' = c /\ blocks a' <= blocks a + Z.of_nat n.

Lemma becomes_small a n c : existsb Binary.is_large c = false -> 0 <= blocks a -> becomes a n (Ok (KSmall (Small.create c))) c.
Proof. intros Hc Hb. eexists. split; [done|]. split_and!; [by exists c|apply small_create_values|cbn [blocks]; lia]. Qed.

Lemma becomes_big a n s c : big_ok s -> Forall packable c -> values_of s = c -> 0 <= blocks a -> becomes a n (Ok (KBig s)) c.
Proof. intros Hs Hp <- Hb. eexists. split; [done|]. split_and!; [done|done|cbn [blocks]; lia]. Qed.

Lemma blocks_nonneg a : 0 <= blocks a.
Proof. destruct a; cbn; try done. apply zlen_nonneg. Qed.

Lemma total_bound c : existsb Binary.is_large c = false -> total (map (st_of false) c) <= 64 * zlen c.
Proof.
  induction c as [|v c IH]; [done|]. cbn [existsb map]. intros [Hv Hc]%orb_false_iff. unfold Binary.is_large, Binary.small_blob_max_size in Hv. apply Z.ltb_ge in Hv.
  rewrite total_cons, zlen_st_of, zlen_cons. unfold zero_term. specialize (IH Hc). lia.
Qed.

Lemma small_packable c : existsb Binary.is_large c = false -> Forall packable c.
Proof.
  induction c as [|v c IH]; [done|]. cbn [existsb]. intros [Hv Hc]%orb_false_iff. unfold Binary.is_large, Binary.small_blob_max_size in Hv. apply Z.ltb_ge in Hv.
  constructor; [unfold packable, max_binary_size; lia|by apply IH].
Qed.

Lemma add_all_ok s vs : big_ok s -> exists s', Binary.add_all s vs = Ok s' /\ big_ok s' /\ values_of s' = values_of s ++ vs.
Proof.
  revert s. induction vs as [|v vs IH]; intros s Hs; cbn [Binary.add_all]; [exists s; by rewrite app_nil_r|].
  destruct (big_add s v Hs) as (s1 & -> & H1 & E1). cbn [mbind result_bind]. destruct (IH s1 H1) as (s2 & -> & H2 & E2). exists s2. rewrite E2, E1, <- app_assoc. done.
Qed.

(** Small blobs stay for a small value and become the same values as big blobs otherwise. *)
Lemma upgrade_leaf_ok c v : existsb Binary.is_large c = false ->
  if Binary.is_large v then exists b, Binary.upgrade_leaf (Small.create c) (Z.of_nat (bd_size v)) = Ok (inr b) /\ big_ok b /\ values_of b = c
  else Binary.upgrade_leaf (Small.create c) (Z.of_nat (bd_size v)) = Ok (inl (Small.create c)).
Proof.
  intros Hc. unfold Binary.upgrade_leaf, Binary.is_large. rewrite Z.leb_antisym. destruct (_ <? _); cbn [negb]; [|done].
  destruct (add_all_ok [] (small_values (Small.create c))) as (b & E & Hb & Ev); [by constructor|]. unfold small_values in E. rewrite E. exists b. split_and!; [done|done|]. by rewrite Ev, small_create_values.
Qed.

(** An operation on small blobs, or on big ones after the upgrade. *)
Lemma upgrade_op a n c c' v fs fb : existsb Binary.is_large c = false -> Forall packable c' ->
  (Binary.is_large v = false -> fs (Small.create c) = Ok (Small.create c') /\ existsb Binary.is_large c' = false) ->
  (forall b, big_ok b -> values_of b = c -> exists b', fb b = Ok b' /\ big_ok b' /\ values_of b' = c') ->
  becomes a n (u ← Binary.upgrade_leaf (Small.create c) (Z.of_nat (bd_size v));
               match u with inl s => s ← fs s; Ok (KSmall s) | inr b => b ← fb b; Ok (KBig b) end) c'.
Proof.
  intros Hc Hp Hs Hb. pose proof (upgrade_leaf_ok c v Hc) as Hu. pose proof (blocks_nonneg a). destruct (Binary.is_large v).
  - destruct Hu as (b & -> & Hok & Ev). cbn [mbind result_bind]. destruct (Hb b Hok Ev) as (b' & -> & Hok' & Ev'). by apply becomes_big.
  - rewrite Hu. cbn [mbind result_bind]. destruct Hs as [-> Hl]; [done|]. by apply becomes_small.
Qed.

Lemma existsb_insert_at {A} (f : A -> bool) i x l : existsb f (list_insert_at i x l) = f x || existsb f l.
Proof. unfold list_insert_at. rewrite <- (take_drop i l) at 3. rewrite !existsb_app. cbn [existsb]. destruct (f x), (existsb f (take i l)); done. Qed.

Lemma existsb_cut {A} (f : A -> bool) n l : existsb f l = false -> existsb f (take n l) = false /\ existsb f (drop n l) = false.
Proof. rewrite <- (take_drop n l) at 1. rewrite existsb_app. apply orb_false_iff. Qed.

Lemma existsb_insert {A} (f : A -> bool) i x l : f x = false -> existsb f l = false -> existsb f (<[i := x]> l) = false.
Proof.
  intros Hx Hl. revert i. induction l as [|y l IH]; intros i; [done|]. cbn [existsb] in Hl. apply orb_false_iff in Hl as [Hy Hl]. destruct i as [|i]; cbn; [by rewrite Hx, Hl|]. rewrite Hy. by apply IH.
Qed.

Lemma st_insert i v c : <[i := st_of false v]> (map (st_of false) c) = map (st_of false) (<[i := v]> c).
Proof. symmetry. apply list_fmap_insert. Qed.

Lemma st_insert_at i v c : list_insert_at i (st_of false v) (map (st_of false) c) = map (st_of false) (list_insert_at i v c).
Proof. unfold list_insert_at. by rewrite map_app, firstn_map, skipn_map. Qed.

Lemma st_erase i c : list_erase_range i (S i) (map (st_of false) c) = map (st_of false) (list_erase_range i (S i) c).
Proof. unfold list_erase_range. by rewrite map_app, firstn_map, skipn_map. Qed.

Lemma small_room c v : existsb Binary.is_large c = false -> Binary.is_large v = false -> (length c < max_leaf)%nat -> total (map (st_of false) c) + zlen (st_of false v).1 <= max_binary_size.
Proof.
  intros Hc Hv Hl. pose proof (total_bound c Hc). rewrite zlen_st_of. unfold Binary.is_large, Binary.small_blob_max_size in Hv. apply Z.ltb_ge in Hv. unfold zero_term, max_binary_size, zlen, max_leaf in *. lia.
Qed.

Definition room (n : nat) (a : ArrayBinary) : Prop := blocks a + Z.of_nat n <= max_blocks.

Lemma binary_packable a : binary_ok a -> match a with KPacked _ => True | _ => Forall packable (binary_values a) end.
Proof. destruct a as [s|s|s]; [|by intros [_ ?]|done]. intros (c & -> & Hc). cbn [binary_values]. rewrite small_create_values. by apply small_packable. Qed.

Lemma becomes_packed s n s' c : packed_inv s' -> packed_values s' = c -> (length (m_delta_blocks s') <= length (m_delta_blocks s) + n)%nat -> becomes (KPacked s) n (Ok (KPacked s')) c.
Proof. intros Hi Hv Hb. eexists. split; [done|]. split_and!; [done|done|]. cbn. unfold zlen. lia. Qed.

Lemma binary_add_ok ro a v : binary_ok a -> packable v -> (length (binary_values a) < max_leaf)%nat -> room 1 a -> becomes a 1 (Binary.add ro a v) (binary_values a ++ [v]).
Proof.
  intros Ha Hv Hl Hr. pose proof (blocks_nonneg a). pose proof (binary_packable a Ha) as Hp. destruct a as [s|s|s].
  - destruct Ha as (c & -> & Hc). cbn [binary_values Binary.add] in Hl, Hp |- *. rewrite small_create_values in *. apply upgrade_op; [done|by apply Forall_app; split; [|constructor]| |].
    + intros Hsm. rewrite !small_create, small_add by (by apply small_room). rewrite map_app. split; [done|]. rewrite existsb_app. cbn [existsb]. by rewrite Hc, Hsm.
    + intros b Hb <-. by apply big_add.
  - destruct Ha as [Hs Hps]. cbn. destruct (big_add s v Hs) as (s' & -> & Hs' & E). apply becomes_big; [done|by apply Forall_app; split; [|constructor]|done|done].
  - cbn [Binary.add]. destruct (packed_append 2 s [v]) as (s' & E & Hi & Hvals & Hb); [done|by constructor|cbn; lia|exact Hr|]. unfold Packed.add. rewrite E. by apply becomes_packed.
Qed.

Lemma binary_insert_ok ro a i v : binary_ok a -> packable v -> (i <= length (binary_values a))%nat -> (length (binary_values a) < max_leaf)%nat -> room 1 a ->
  becomes a 1 (Binary.insert ro a i v) (list_insert_at i v (binary_values a)).
Proof.
  intros Ha Hv Hi Hl Hr. pose proof (blocks_nonneg a). pose proof (binary_packable a Ha) as Hp. destruct a as [s|s|s].
  - destruct Ha as (c & -> & Hc). cbn [binary_values Binary.insert Binary.set] in Hl, Hp, Hi |- *. rewrite small_create_values in *. apply upgrade_op; [done|by apply Forall_insert_at| |].
    + intros Hsm. rewrite !small_create, small_insert by (rewrite ?length_map; by try apply small_room). rewrite st_insert_at. split; [done|]. by rewrite existsb_insert_at, Hc, Hsm.
    + intros b Hb <-. by apply big_insert.
  - destruct Ha as [Hs Hps]. cbn. destruct (big_insert s i v Hs) as (s' & -> & Hs' & E). apply becomes_big; [done|by apply Forall_insert_at|done|done].
  - cbn [Binary.insert]. destruct (packed_insert s i v) as (s' & -> & Hinv & Hvals & Hb); [done|done|exact Hr|]. apply becomes_packed; [done|done|lia].
Qed.

Lemma binary_set_ok ro a i v : binary_ok a -> packable v -> (i < length (binary_values a))%nat -> (length (binary_values a) <= max_leaf)%nat -> room 1 a ->
  becomes a 1 (Binary.set ro a i v) (<[i := v]> (binary_values a)).
Proof.
  intros Ha Hv Hi Hl Hr. pose proof (blocks_nonneg a). pose proof (binary_packable a Ha) as Hp. destruct a as [s|s|s].
  - destruct Ha as (c & -> & Hc). cbn [binary_values Binary.insert Binary.set] in Hl, Hp, Hi |- *. rewrite small_create_values in *. apply upgrade_op; [done|by apply Forall_insert| |].
    + intros Hsm. destruct (lookup_lt_is_Some_2 c i Hi) as [w Hw]. rewrite !small_create. rewrite (small_set _ _ _ (st_of false w)); [|by apply st_of_lookup|done|].
      * rewrite st_insert. split; [done|]. by apply existsb_insert.
      * pose proof (total_bound (<[i := v]> c) (existsb_insert _ i v c Hsm Hc)) as Ht. rewrite <- st_insert in Ht. apply (st_of_lookup false) in Hw. apply st_split in Hw as (d1 & d2 & E & ->). unfold zlen in Ht. rewrite length_insert in Ht.
        rewrite E, insert_mid in Ht. rewrite E. rewrite total_app, total_cons in Ht |- *. unfold max_binary_size, max_leaf, zlen in *. lia.
    + intros b Hb <-. apply big_set; [done|]. unfold values_of in Hi. by rewrite length_map in Hi.
  - destruct Ha as [Hs Hps]. cbn in Hi |- *. unfold values_of in Hi. rewrite length_map in Hi. destruct (big_set ro s i v Hs Hi) as (s' & -> & Hs' & E). apply becomes_big; [done|by apply Forall_insert|done|done].
  - cbn [Binary.set]. destruct (packed_set_many 2 s [i] [v] 0) as (s' & E & Hinv & Hvals & Hb); [done|by constructor|cbn; lia|exact Hr|done| |].
    + constructor; [|done]. rewrite Nat.sub_0_r. cbn in Hi. by rewrite <- packed_size in Hi.
    + unfold Packed.set. rewrite E. cbn [set_values] in Hvals. rewrite Nat.sub_0_r in Hvals. by apply becomes_packed.
Qed.

(** Two steps. *)
Lemma becomes_bind a n m r f c c' : becomes a n r c -> (forall a', binary_ok a' -> binary_values a' = c -> blocks a' <= blocks a + Z.of_nat n -> becomes a' m (f a') c') ->
  becomes a (n + m) (a' ← r; f a') c'.
Proof.
  intros (a1 & -> & H1 & E1 & B1) Hf. cbn [mbind result_bind]. destruct (Hf a1 H1 E1 B1) as (a2 & -> & H2 & E2 & B2). exists a2. split_and!; [done|done|done|lia].
Qed.

Lemma add_values_ok ro a vs : binary_ok a -> Forall packable vs -> (length (binary_values a) + length vs <= max_leaf)%nat -> room (length vs) a ->
  becomes a (length vs) (Binary.add_values ro a vs) (binary_values a ++ vs).
Proof.
  revert a. induction vs as [|v vs IH]; intros a Ha Hp Hl Hr; cbn [Binary.add_values].
  - exists a. rewrite app_nil_r. split_and!; [done|done|done|lia].
  - inversion_clear Hp as [|? ? Hv Hvs]. cbn [length] in *. apply (becomes_bind a 1 (length vs) _ _ (binary_values a ++ [v])).
    + apply binary_add_ok; [done|done|lia|unfold room in *; lia].
    + intros a' Ha' Ev Hb. rewrite (cons_middle v), app_assoc, <- Ev. apply IH; [done|done|rewrite Ev, length_app; cbn [length]; lia|unfold room in *; lia].
Qed.

Lemma replace_with_packed_ok a n vs : can_pack vs = true -> becomes a n (Binary.replace_with_packed vs) vs.
Proof.
  intros Hc. unfold Binary.replace_with_packed. destruct (packed_create vs Hc) as (s & -> & Hi & Hv & Hd & _). eexists. split; [done|]. split_and!; [done|done|].
  cbn. rewrite Hd. pose proof (blocks_nonneg a). change (zlen []) with 0. lia.
Qed.

Lemma binary_append_ok ro a vs : binary_ok a -> Forall packable vs -> (length (binary_values a) + length vs <= max_leaf)%nat -> room (length vs) a ->
  becomes a (length vs) (Binary.append ro a vs) (binary_values a ++ vs).
Proof.
  intros Ha Hp Hl Hr. unfold Binary.append. destruct vs as [|v vs'] eqn:Evs; [exists a; rewrite app_nil_r; split_and!; [done|done|done|lia]|]. rewrite <- Evs in *. clear v vs' Evs.
  assert (Hother : becomes a (length vs) (let all := Binary.get_all a ++ vs in let total_size := sumf (fun v => Z.of_nat (bd_size v)) all in let has_large := existsb Binary.is_large all in
    if has_large && (4096 <? total_size) && can_pack all then Binary.replace_with_packed all else Binary.add_values ro a vs) (binary_values a ++ vs)).
  { cbv zeta. rewrite binary_get_all by done. destruct (_ && can_pack _) eqn:E; [|by apply add_values_ok]. apply andb_true_iff in E as [_ E]. by apply replace_with_packed_ok. }
  destruct a as [s|s|s]; [exact Hother|exact Hother|]. destruct (packed_append (S (length vs)) s vs) as (s' & -> & Hi & Hv & Hb); [done|done|lia|exact Hr|]. by apply becomes_packed.
Qed.

Lemma set_each_ok ro a ps vs base : binary_ok a -> Forall packable vs -> length ps = length vs -> Forall (fun p => (p - base < length (binary_values a))%nat) ps ->
  (length (binary_values a) <= max_leaf)%nat -> room (length vs) a -> becomes a (length vs) (Binary.set_each ro a ps vs base) (set_values (binary_values a) ps vs base).
Proof.
  revert a vs. induction ps as [|p ps IH]; intros a [|v vs] Ha Hp Hlen Hps Hl Hr; try done; cbn [Binary.set_each set_values].
  - exists a. split_and!; [done|done|done|lia].
  - inversion_clear Hp as [|? ? Hv Hvs]. inversion_clear Hps as [|? ? Hp0 Hps']. cbn [length] in *. apply (becomes_bind a 1 (length vs) _ _ (<[(p - base)%nat := v]> (binary_values a))).
    + apply binary_set_ok; [done|done|done|done|unfold room in *; lia].
    + intros a' Ha' Ev Hb. rewrite <- Ev. apply IH; [done|done|lia|by rewrite Ev, length_insert|by rewrite Ev, length_insert|unfold room in *; lia].
Qed.

Lemma binary_set_many_ok ro a ps vs base : binary_ok a -> Forall packable vs -> length ps = length vs -> Forall (fun p => (p - base < length (binary_values a))%nat) ps ->
  (length (binary_values a) <= max_leaf)%nat -> room (length vs) a -> becomes a (length vs) (Binary.set_many ro a ps vs base) (set_values (binary_values a) ps vs base).
Proof.
  intros Ha Hp Hlen Hps Hl Hr. destruct a as [s|s|s]; [by apply set_each_ok|by apply set_each_ok|]. cbn [Binary.set_many].
  destruct (packed_set_many (S (length vs)) s ps vs base) as (s' & -> & Hi & Hv & Hb); [done|done|lia|exact Hr|done| |by apply becomes_packed].
  eapply Forall_impl; [|exact Hps]. cbn. intros p. by rewrite <- packed_size.
Qed.

Lemma binary_erase_ok ro a i : binary_ok a -> (i < length (binary_values a))%nat -> (length (binary_values a) <= max_leaf)%nat ->
  becomes a 0 (Binary.erase ro a i) (list_erase_range i (S i) (binary_values a)).
Proof.
  intros Ha Hi Hl. pose proof (blocks_nonneg a). pose proof (binary_packable a Ha) as Hp. destruct a as [s|s|s]; cbn [Binary.erase].
  - destruct Ha as (c & -> & Hc). cbn [binary_values] in *. rewrite small_create_values in *. destruct (lookup_lt_is_Some_2 c i Hi) as [w Hw]. rewrite small_create.
    rewrite (small_erase _ _ _ (st_of false w)); [|by apply st_of_lookup|pose proof (total_bound c Hc); unfold max_binary_size, max_leaf, zlen in *; lia]. rewrite st_erase, <- (small_create (list_erase_range i (S i) c)).
    apply becomes_small; [|done]. unfold list_erase_range. rewrite existsb_app. by rewrite (proj1 (existsb_cut _ i c Hc)), (proj2 (existsb_cut _ (S i) c Hc)).
  - destruct Ha as [Hs Hps]. destruct (big_erase s i Hs) as [H1 H2]. apply becomes_big; [done|by apply Forall_erase|done|done].
  - destruct (packed_erase s i Ha) as [H1 H2]. apply becomes_packed; [done|done|]. cbn. lia.
Qed.

Lemma binary_truncate_ok a n : binary_ok a -> (n < length (binary_values a))%nat \/ n = O -> becomes a 0 (Binary.truncate a n) (take n (binary_values a)).
Proof.
  intros Ha Hn. pose proof (blocks_nonneg a). pose proof (binary_packable a Ha) as Hp. destruct a as [s|s|s]; cbn [Binary.truncate].
  - destruct Ha as (c & -> & Hc). cbn [binary_values] in *. rewrite small_create_values in *. rewrite small_create, small_truncate by (by rewrite length_map). rewrite firstn_map, <- (small_create (take n c)).
    apply becomes_small; [|done]. by apply existsb_cut.
  - destruct Ha as [Hs Hps]. destruct (big_truncate s n Hs) as [H1 H2]. apply becomes_big; [done|by apply Forall_take|done|done].
  - destruct (packed_truncate s n Ha) as [H1 H2]. apply becomes_packed; [done|done|]. unfold Packed.truncate. destruct (_ <? _)%nat; cbn; lia.
Qed.

Lemma binary_clear_ok a : binary_ok a -> becomes a 0 (Ok (Binary.clear a)) [].
Proof.
  intros Ha. pose proof (blocks_nonneg a). destruct a as [s|s|s]; cbn [Binary.clear].
  - by apply (becomes_small (KSmall s) 0 []).
  - apply (becomes_big (KBig s)); [by apply Forall_nil|by apply Forall_nil|done|done].
  - by apply (becomes_small (KPacked s) 0 []).
Qed.

(** Values that [normalize_packed] and [move] can pack again. *)
Definition repackable (v : BinaryData) : Prop := Z.of_nat (bd_size v) <= max_binary_size - 32.

Lemma repackable_can_pack vs : vs <> [] -> Forall repackable vs -> can_pack vs = true.
Proof.
  intros Hne Hp. unfold can_pack. destruct vs as [|v vs]; [done|]. apply forallb_forall. intros w Hw. apply Z.leb_le. rewrite List.Forall_forall in Hp. exact (Hp w Hw).
Qed.

Lemma binary_normalize_ok a : binary_ok a -> Forall repackable (binary_values a) -> becomes a 0 (r ← Binary.normalize_packed a; Ok r.1) (binary_values a).
Proof.
  intros Ha Hp. assert (Hsame : becomes a 0 (Ok a) (binary_values a)) by (exists a; split_and!; [done|done|done|lia]). pose proof (blocks_nonneg a). destruct a as [s|s|s]; [done|done|]. unfold Binary.normalize_packed.
  destruct (Packed.needs_normalize s); cbn [negb]; [|done]. rewrite binary_size by done. destruct (Nat.eqb_spec (length (binary_values (KPacked s))) 0) as [E|E].
  - apply nil_length_inv in E. rewrite E. by apply (becomes_small (KPacked s) 0 []).
  - rewrite binary_get_all by done. assert (Hne : binary_values (KPacked s) <> []) by (intros E0; by rewrite E0 in E). pose proof (replace_with_packed_ok (KPacked s) 0 _ (repackable_can_pack _ Hne Hp)) as (a' & E' & Ha'). rewrite E'. by exists a'.
Qed.

Lemma create_values_ok vs : Forall packable vs -> becomes Binary.create 0 (Binary.create_values vs) vs.
Proof.
  intros Hp. unfold Binary.create_values. destruct (existsb Binary.is_large vs) eqn:E; cbn [negb]; [|by apply becomes_small]. destruct (_ && can_pack vs) eqn:Ec.
  - apply andb_true_iff in Ec as [_ Ec]. by apply replace_with_packed_ok.
  - destruct (big_create vs) as (s & -> & Hs & Ev). by apply becomes_big.
Qed.

(** The values from [n] on move behind those of the other leaf. *)
Lemma binary_move_ok ro a dst n : binary_ok a -> binary_ok dst -> (n < length (binary_values a))%nat -> Forall packable (binary_values a) ->
  (length (binary_values dst) + (length (binary_values a) - n) <= max_leaf)%nat -> room (length (binary_values a) - n) dst ->
  exists a' dst', Binary.move ro a dst n = Ok (a', dst') /\ binary_ok a' /\ binary_ok dst' /\
    binary_values a' = take n (binary_values a) /\ binary_values dst' = binary_values dst ++ drop n (binary_values a).
Proof.
  intros Ha Hd Hn Hp Hl Hr. unfold Binary.move. rewrite binary_get_all by done.
  destruct (binary_append_ok ro dst (drop n (binary_values a))) as (dst' & -> & Hd' & Ed & _); [done|by apply Forall_drop|by rewrite length_drop|by rewrite length_drop|]. cbn [mbind result_bind].
  destruct (binary_truncate_ok a n Ha) as (a' & -> & Ha' & Ea & _); [by left|]. by exists a', dst'.
Qed.
