(* ===== verification/ArrayBinaryTheorems.v ===== *)
(** * Theorems on leaves of binary values

    Any sequence of operations acts on a leaf as on a list, through the changes of
    representation; values above the size of one node are stored and can be read in
    pieces, but not by [get], and are lost when a leaf is packed or moved. *)

From S2P Require Import Prelude Bytes Blobs SmallBlobs BigBlobs PackedBlobs ArrayBinary BlobsInv PackedBlobsInv ArrayBinaryInv.

(** ** Sequences of operations *)

Inductive binary_op :=
| BAdd (v : BinaryData) | BAppend (vs : list BinaryData) | BSet (ndx : nat) (v : BinaryData)
| BSetMany (positions : list nat) (vs : list BinaryData) (position_base : nat)
| BInsert (ndx : nat) (v : BinaryData) | BErase (ndx : nat) | BTruncate (ndx : nat) | BClear | BNormalize.

(** An operation, on nodes that are read-only or not. *)
Definition binary_step (ro : bool) (o : binary_op) (a : ArrayBinary) : result ArrayBinary :=
  match o with
  | BAdd v => Binary.add ro a v
  | BAppend vs => Binary.append ro a vs
  | BSet i v => Binary.set ro a i v
  | BSetMany ps vs base => Binary.set_many ro a ps vs base
  | BInsert i v => Binary.insert ro a i v
  | BErase i => Binary.erase ro a i
  | BTruncate n => Binary.truncate a n
  | BClear => Ok (Binary.clear a)
  | BNormalize => r ← Binary.normalize_packed a; Ok r.1
  end.

Fixpoint binary_run (ops : list (bool * binary_op)) (a : ArrayBinary) : result ArrayBinary :=
  match ops with [] => Ok a | (ro, o) :: ops => a ← binary_step ro o a; binary_run ops a end.

(** The same on lists. *)
Definition list_op (o : binary_op) (c : list BinaryData) : list BinaryData :=
  match o with
  | BAdd v => c ++ [v]
  | BAppend vs => c ++ vs
  | BSet i v => <[i := v]> c
  | BSetMany ps vs base => set_values c ps vs base
  | BInsert i v => list_insert_at i v c
  | BErase i => list_erase_range i (S i) c
  | BTruncate n => take n c
  | BClear => []
  | BNormalize => c
  end.

(** Indices are in range, and the values fit in a block; those to be packed again in one
    with a header. *)
Definition op_fits (o : binary_op) (c : list BinaryData) : Prop :=
  match o with
  | BAdd v => packable v /\ (length c < max_leaf)%nat
  | BAppend vs => Forall packable vs /\ (length c + length vs <= max_leaf)%nat
  | BSet i v => packable v /\ (i < length c <= max_leaf)%nat
  | BSetMany ps vs base => Forall packable vs /\ length ps = length vs /\ Forall (fun p => (base <= p /\ p - base < length c)%nat) ps /\ (length c <= max_leaf)%nat
  | BInsert i v => packable v /\ (i <= length c < max_leaf)%nat
  | BErase i => (i < length c <= max_leaf)%nat
  | BTruncate n => (n < length c)%nat \/ n = O
  | BClear => True
  | BNormalize => Forall repackable c
  end.

Fixpoint ops_fit (ops : list (bool * binary_op)) (c : list BinaryData) : Prop :=
  match ops with [] => True | (_, o) :: ops => op_fits o c /\ ops_fit ops (list_op o c) end.

(** Blocks that an operation may add to a packed leaf. *)
Definition op_blocks (o : binary_op) : nat :=
  match o with BAdd _ | BSet _ _ | BInsert _ _ => 1 | BAppend vs | BSetMany _ vs _ => length vs | _ => 0 end.

Definition list_run (ops : list (bool * binary_op)) (c : list BinaryData) : list BinaryData := foldl (fun c o => list_op o.2 c) c ops.
Definition run_blocks (ops : list (bool * binary_op)) : Z := sumf (fun o => Z.of_nat (op_blocks o.2)) ops.

Lemma binary_step_ok ro o a : binary_ok a -> op_fits o (binary_values a) -> room (op_blocks o) a -> becomes a (op_blocks o) (binary_step ro o a) (list_op o (binary_values a)).
Proof.
  intros Ha Hf Hr. destruct o as [v|vs|i v|ps vs base|i v|i|n| |]; cbn [binary_step list_op op_fits op_blocks] in *.
  - apply binary_add_ok; tauto.
  - apply binary_append_ok; tauto.
  - apply binary_set_ok; tauto.
  - destruct Hf as (H1 & H2 & H3 & H4). apply binary_set_many_ok; try done. eapply Forall_impl; [|exact H3]. cbn. tauto.
  - apply binary_insert_ok; tauto.
  - apply binary_erase_ok; tauto.
  - by apply binary_truncate_ok.
  - by apply binary_clear_ok.
  - by apply binary_normalize_ok.
Qed.

Lemma binary_run_ok ops a : binary_ok a -> ops_fit ops (binary_values a) -> blocks a + run_blocks ops <= max_blocks ->
  exists a', binary_run ops a = Ok a' /\ binary_ok a' /\ binary_values a' = list_run ops (binary_values a).
Proof.
  revert a. induction ops as [|[ro o] ops IH]; intros a Ha Hf Hb; cbn [binary_run ops_fit] in *; [by exists a|]. destruct Hf as [Ho Hops]. unfold run_blocks in Hb. rewrite sumf_cons in Hb. cbn [snd] in Hb.
  assert (Hn : 0 <= run_blocks ops) by (apply sumf_nonneg; intros; lia). fold (run_blocks ops) in Hb.
  destruct (binary_step_ok ro o a Ha Ho) as (a1 & -> & H1 & E1 & B1); [unfold room; lia|]. cbn [mbind result_bind]. rewrite <- E1 in Hops.
  destruct (IH a1 H1 Hops) as (a2 & -> & H2 & E2); [lia|]. exists a2. split_and!; [done|done|]. by rewrite E2, E1.
Qed.

(** What the readers of a leaf see. *)
Definition reads_as (refs_bytes : list (list Z) -> list Z) (a : ArrayBinary) (c : list BinaryData) : Prop :=
  Binary.size a = length c /\
  (forall i v, c !! i = Some v -> Binary.get a i = v /\ Binary.is_null a i = bd_is_null v) /\
  (forall v b e, (b <= e <= length c)%nat -> is_first (fun i => c !! i = Some v) b e (Binary.find_first refs_bytes a v b e)).

Lemma binary_reads refs_bytes a : binary_ok a -> reads_as refs_bytes a (binary_values a).
Proof.
  intros Ha. pose (rd := binary_reader refs_bytes). split_and!.
  - exact (rd_size_ok a Ha).
  - intros i v Hv. split; [exact (rd_get_ok a i v Ha Hv)|exact (rd_is_null_ok a i v Ha Hv)].
  - intros v b e. exact (rd_find_ok a v b e Ha).
Qed.


(** ** Reading in pieces *)

(** Leaves with values of any size. *)
Definition binary_holds (a : ArrayBinary) : Prop :=
  match a with KSmall s => small_ok s | KBig s => big_ok s | KPacked s => packed_inv s end.

(** A client that takes the pieces of a value until the iterator is at its end. *)
Fixpoint read_through (fuel : nat) (it : BinaryIterator) : list Z :=
  match fuel with
  | O => []
  | S fuel => let '(d, it) := get_next it in bd_data d ++ if m_end_of_data it then [] else read_through fuel it
  end.

Lemma read_through_big fuel s i b pos : nth i s None = Some b -> read_through fuel (mkIter false (Some (Binary.get_at (KBig s))) i pos None) = read_pieces fuel b pos.
Proof.
  intros Hb. revert pos. induction fuel as [|fuel IH]; intros pos; [done|]. cbn [read_through read_pieces get_next m_end_of_data m_binary_col m_ndx m_pos negb Binary.get_at]. unfold Big.get_at. rewrite Hb.
  destruct (blob_get_at b pos) as [d p]. cbn [bd_data default from_option m_binary m_end_of_data]. unfold id. destruct (p =? 0); [done|]. by rewrite <- IH.
Qed.

Lemma read_through_whole fuel a i : (0 < fuel)%nat -> (Binary.get_at a i 0).2 = 0 -> read_through fuel (iter_column (Binary.get_at a) i) = bd_data (Binary.get_at a i 0).1.
Proof.
  intros Hf Hp. destruct fuel as [|fuel]; [lia|]. cbn [read_through get_next iter_column m_end_of_data m_binary_col m_ndx m_pos negb]. destruct (Binary.get_at a i 0) as [d p]. cbn in Hp. subst p. cbn. by rewrite app_nil_r.
Qed.

Lemma nodes_few (nodes : list (list Z)) : Forall (fun n => 0 < zlen n <= max_binary_size) nodes -> (length nodes <= length (concat nodes))%nat.
Proof. induction 1 as [|n nodes Hn _ IH]; [done|]. cbn [length concat]. rewrite length_app. unfold zlen in Hn. lia. Qed.

Lemma read_through_value fuel a i v : binary_holds a -> binary_values a !! i = Some v -> (bd_size v < fuel)%nat -> read_through fuel (iter_column (Binary.get_at a) i) = bd_data v.
Proof.
  intros Ha Hv Hf. destruct a as [s|s|s].
  - rewrite read_through_whole by (done || lia). cbn [Binary.get_at fst]. f_equal. exact (@rd_get_ok _ small_reader s i v Ha Hv).
  - cbn in Ha, Hv. destruct (big_lookup _ _ _ Hv) as (b & Hb & Hn & ->). destruct b as [b|].
    + unfold iter_column. rewrite read_through_big with (b := b) by done. pose proof (big_ok_lookup _ _ _ Ha Hb) as Hok. apply read_pieces_blob; [done|]. unfold bd_size in Hf. cbn in Hf. destruct b as [l|nodes]; [lia|]. destruct Hok as [Hn' _]. apply nodes_few in Hn'. cbn in Hf. lia.
    + rewrite read_through_whole; [|lia|]; cbn [Binary.get_at]; unfold Big.get_at; by rewrite Hn.
  - rewrite read_through_whole by (done || lia). cbn [Binary.get_at fst]. by rewrite (packed_get s i v Hv).
Qed.

(** The pieces that an iterator over a value returns are the bytes of the value,
    of whatever size it is and however the leaf holds it. *)
Theorem iterator_reads_value (fuel : nat) (a : ArrayBinary) (i : nat) (v : BinaryData) :
  binary_holds a -> binary_values a !! i = Some v -> (bd_size v < fuel)%nat -> read_through fuel (iter_column (Binary.get_at a) i) = bd_data v.
Proof. apply read_through_value. Qed.

(** ** Values above the size of one node *)

(** The node of references has fewer entries than the value has bytes. *)
Lemma new_blob_large l : max_binary_size < zlen l -> exists nodes, new_blob l false = Ok (Split nodes) /\ zlen nodes < zlen l.
Proof.
  intros Hl. unfold new_blob, blob_append. rewrite (proj2 (Z.ltb_lt max_binary_size _)) by (unfold zero_term; lia). cbn [list.last default from_option]. unfold id. change (zlen []) with 0. rewrite Z.sub_0_r.
  rewrite (proj2 (Z.ltb_ge _ _)) by lia. eexists. split; [done|]. cbn [length Nat.sub take app]. rewrite zlen_cons.
  destruct (new_nodes_spec (length l) (drop (Z.to_nat max_binary_size) l)) as [Hc Hall]; [rewrite length_drop; lia|]. apply nodes_few in Hall. rewrite Hc, length_drop in Hall. unfold zlen, max_binary_size in *. lia.
Qed.

Lemma add_large ro l : max_binary_size < zlen l ->
  exists nodes, Binary.add ro Binary.create (Some l) = Ok (KBig [Some (Split nodes)]) /\ blob_ok (Split nodes) /\ concat nodes = l /\ zlen nodes < zlen l.
Proof.
  intros Hl. destruct (new_blob_large l Hl) as (nodes & E & Hfew). destruct (new_blob_spec l false) as (b & E' & Hok & Hb). rewrite E in E'. injection E' as <-.
  unfold zero_term in Hb. rewrite Z.add_0_r, (proj2 (Z.ltb_lt _ _)) in Hb by done. exists nodes. split_and!; [|exact Hok|apply Hb|done].
  cbn [Binary.add Binary.create]. unfold Binary.upgrade_leaf, Binary.small_blob_max_size. rewrite (proj2 (Z.leb_gt _ _)) by (unfold bd_size, zlen, max_binary_size in *; cbn; lia).
  cbn [mbind result_bind Small.size Small.create Small.ends m_offsets length seq map Binary.add_all]. cbn [Big.add]. by rewrite E.
Qed.

(** A value of more than 16,777,200 bytes is stored in several nodes: it can be
    read in pieces and is not null, but [get] returns null, searches for it do not find
    it, and when a batch with a larger value is appended the leaf is packed from what
    [get] returns: the value becomes null. *)
Theorem large_value_lost (refs_bytes : list (list Z) -> list Z) (ro : bool) (l w : list Z) (fuel : nat) :
  max_binary_size < zlen l -> 4096 < zlen w <= max_binary_size - 32 -> (length l < fuel)%nat ->
  exists a a', Binary.add ro Binary.create (Some l) = Ok a /\
    read_through fuel (iter_column (Binary.get_at a) 0) = l /\ Binary.is_null a 0 = false /\
    Binary.get a 0 = None /\ Binary.find_first refs_bytes a (Some l) 0 1 = None /\
    Binary.append ro a [Some w] = Ok a' /\ Binary.size a' = 2%nat /\ Binary.is_null a' 0 = true /\ Binary.get_at a' 0 0 = (None, 0).
Proof.
  intros Hl Hw Hf. destruct (add_large ro l Hl) as (nodes & E & Hok & Hc & Hfew).
  assert (Hcan : can_pack [None; Some w] = true) by (unfold can_pack, bd_size; cbn [forallb bd_data default from_option length]; unfold id, zlen in *; apply andb_true_iff; split; [done|]; apply andb_true_iff; split; [apply Z.leb_le; lia|done]).
  destruct (replace_with_packed_ok Binary.create 0 [None; Some w] Hcan) as (a' & Ea' & Hok' & Hv' & _). exists (KBig [Some (Split nodes)]), a'. split_and!; [done| |done|done| | | | |].
  - apply (read_through_value fuel (KBig [Some (Split nodes)]) 0 (Some l)); [by constructor| |exact Hf]. cbn. by rewrite Hc.
  - cbn. rewrite Z.add_0_r, (proj2 (Z.eqb_neq _ _)) by lia. done.
  - cbn [Binary.append Binary.get_all Binary.size Binary.get length seq map Big.get nth app]. unfold Binary.is_large, Binary.small_blob_max_size, bd_size. cbn [existsb sumf bd_data default from_option length]. unfold id.
    match goal with |- (if ?b then _ else _) = _ => assert (Hb : b = true) end; [|by rewrite Hb].
    apply andb_true_iff. split; [|exact Hcan]. unfold zlen in Hw. rewrite !(proj2 (Z.ltb_lt _ (_ + _))), (proj2 (Z.ltb_lt 64 (Z.of_nat (length w)))) by lia. done.
  - rewrite binary_size by done. by rewrite Hv'.
  - apply (@rd_is_null_ok _ (binary_reader refs_bytes) a' 0 None Hok'). cbn. by rewrite Hv'.
  - assert (Hg : Binary.get a' 0 = None) by (apply (@rd_get_ok _ (binary_reader refs_bytes) a' 0 None Hok'); cbn; by rewrite Hv').
    revert Ea'. unfold Binary.replace_with_packed. destruct (Packed.create [None; Some w]) as [s| |]; cbn; [|done|done]. intros [= <-]. cbn in Hg |- *. by rewrite Hg.
Qed.

(** ** Limits of packed leaves *)

Lemma packed_leaf vs : existsb Binary.is_large vs = true -> 4096 < sizes vs -> can_pack vs = true ->
  exists s, Binary.create_values vs = Ok (KPacked s) /\ packed_inv s /\ packed_values s = vs /\ m_delta_blocks s = [].
Proof.
  intros Hl Ht Hc. unfold Binary.create_values. rewrite Hl, Hc. cbn [negb]. unfold sizes in Ht. rewrite (proj2 (Z.ltb_lt 4096 _)) by done. cbn [andb].
  destruct (packed_create vs Hc) as (s & -> & Hi & Hv & Hd & _). by exists s.
Qed.

Lemma create_not_packable vs v : In v vs -> max_binary_size - 32 < Z.of_nat (bd_size v) -> Packed.create vs = Throw LengthError.
Proof.
  intros Hin Hv. unfold Packed.create. assert (E : can_pack vs = false); [|by rewrite E]. unfold can_pack. destruct vs as [|w vs]; [done|]. apply not_true_is_false. rewrite forallb_forall. intros Hall. specialize (Hall v Hin). apply Z.leb_le in Hall. lia.
Qed.

Lemma block_end_one v : block_end [v] = 1%nat.
Proof. unfold block_end. cbn [block_loop Nat.eqb negb andb]. by destruct (_ <? _). Qed.

Lemma packed_add_delta s v s' : packable v -> Packed.add s v = Ok s' -> Packed.needs_normalize s' = true.
Proof.
  intros Hp. unfold Packed.add. cbn [Packed.append]. rewrite block_end_one. cbn [take drop]. rewrite append_delta_block_ok by (by apply fits_one). cbn [mbind result_bind fst snd Packed.append_rows]. intros [= <-].
  unfold Packed.needs_normalize. cbn [with_block m_delta_blocks]. by rewrite length_app, Nat.add_1_r.
Qed.

Lemma append_delta_block_too_large s v : max_binary_size - 24 < Z.of_nat (bd_size v) -> Packed.append_delta_block s [v] = Throw LengthError.
Proof. intros Hv. unfold Packed.append_delta_block. by rewrite create_block_too_large. Qed.

(** A leaf made of packed values refuses to add, insert or set a value of more
    than 16,777,176 bytes, although the other representations take it; and it takes
    values of 16,777,169 to 16,777,176 bytes that it cannot pack again, so that
    [normalize_packed], and with it [Store::compact], throws. *)
Theorem packed_leaf_limits (ro : bool) (vs : list BinaryData) (v : BinaryData) (i : nat) :
  existsb Binary.is_large vs = true -> 4096 < sizes vs -> can_pack vs = true -> max_binary_size - 32 < Z.of_nat (bd_size v) -> (i < length vs)%nat ->
  exists a, Binary.create_values vs = Ok a /\
    if Z.of_nat (bd_size v) <=? max_binary_size - 24 then
      exists a', Binary.add ro a v = Ok a' /\ Binary.get a' (length vs) = v /\ Binary.normalize_packed a' = Throw LengthError
    else Binary.add ro a v = Throw LengthError /\ Binary.insert ro a i v = Throw LengthError /\ Binary.set ro a i v = Throw LengthError.
Proof.
  intros Hl Ht Hc Hv Hi. destruct (packed_leaf vs Hl Ht Hc) as (s & E & Hinv & Hvals & Hd). exists (KPacked s). split; [done|]. destruct (Z.leb_spec (Z.of_nat (bd_size v)) (max_binary_size - 24)) as [Hp|Hp].
  - destruct (packed_append 2 s [v]) as (s' & E' & Hinv' & Hvals' & Hb); [done|by constructor|cbn; lia|unfold few_blocks; rewrite Hd; done|]. rewrite Hvals in Hvals'.
    exists (KPacked s'). cbn [Binary.add Binary.get]. unfold Packed.add. rewrite E'. split_and!; [done|apply packed_get; rewrite Hvals'; by apply list_lookup_middle|].
    unfold Binary.normalize_packed. rewrite (packed_add_delta s v s') by done. cbn [negb]. pose proof (binary_size (KPacked s') Hinv') as Hsz. pose proof (binary_get_all (KPacked s') Hinv') as Hall. cbn [binary_values] in Hsz, Hall.
    rewrite Hvals' in Hsz, Hall. rewrite Hsz, Hall, length_app, Nat.add_1_r. cbn [Nat.eqb]. unfold Binary.replace_with_packed. rewrite (create_not_packable _ v); [done|apply in_app_iff; right; by left|done].
  - cbn [Binary.add Binary.insert Binary.set]. unfold Packed.add, Packed.set, Packed.insert. cbn [Packed.append Packed.set_many]. rewrite block_end_one. cbn [take]. by rewrite append_delta_block_too_large.
Qed.

(** A block of packed values gives back each of them, nulls and empty values
    told apart, and is as long as its header, directory and payload. *)
Theorem packed_block_roundtrip (vs : list BinaryData) :
  vs <> [] -> zlen vs <= 65535 -> 16 + zlen vs * 8 + sizes vs <= max_binary_size ->
  exists block, create_block vs = Ok block /\ zlen block = 16 + zlen vs * 8 + sizes vs /\
    forall row v, vs !! row = Some v -> get_from_block block row = v.
Proof.
  intros H1 H2 H3. assert (Hf : fits vs) by (by split_and!). exists (block_of vs). split_and!; [by apply create_block_ok| |intros row v; by apply get_from_block_of].
  destruct (block_of_parts vs) as (head & Hh & -> & _). rewrite !zlen_app, zlen_datas. unfold zlen. rewrite Hh, length_directory. lia.
Qed.

(** ** Witnesses *)

Lemma bd_size_large n : 0 <= n -> Z.of_nat (bd_size (Some (large n))) = n.
Proof. apply zlen_large. Qed.

Definition example_ops : list (bool * binary_op) :=
  [(false, BAdd (Some [1; 2])); (true, BInsert 0 None); (false, BAppend [Some (large 5000); Some []]); (true, BSet 1 (Some [9]));
   (false, BSetMany [12; 13]%nat [Some [3]; None] 10); (false, BNormalize); (true, BErase 0); (false, BTruncate 2)].

Lemma below_max_leaf n : Z.of_nat n < 262143 -> (n < max_leaf)%nat /\ (n <= max_leaf)%nat.
Proof. unfold max_leaf. lia. Qed.


Lemma iterator_reads_value_witness : read_through 3 (iter_column (Binary.get_at (KBig [None; Some (One [4; 5])])) 1) = [4; 5].
Proof.
  apply (iterator_reads_value 3 (KBig [None; Some (One [4; 5])]) 1 (Some [4; 5])); [|reflexivity|cbn; lia].
  repeat constructor; cbn; unfold zlen, max_binary_size; cbn; lia.
Defined.

Lemma large_value_lost_witness : exists a a', Binary.add false Binary.create (Some (large 16777201)) = Ok a /\
    read_through (S (Z.to_nat 16777201)) (iter_column (Binary.get_at a) 0) = large 16777201 /\ Binary.is_null a 0 = false /\
    Binary.get a 0 = None /\ Binary.find_first (fun _ => []) a (Some (large 16777201)) 0 1 = None /\
    Binary.append false a [Some (large 5000)] = Ok a' /\ Binary.size a' = 2%nat /\ Binary.is_null a' 0 = true /\ Binary.get_at a' 0 0 = (None, 0).
Proof.
  apply (large_value_lost (fun _ => []) false (large 16777201) (large 5000)).
  - rewrite zlen_large; [reflexivity|lia].
  - rewrite zlen_large; [split; [reflexivity|discriminate]|lia].
  - unfold large. rewrite repeat_length. apply Nat.lt_succ_diag_r.
Defined.

Lemma packed_leaf_limits_witness : exists a, Binary.create_values [Some (large 5000)] = Ok a /\
    if Z.of_nat (bd_size (Some (large 16777170))) <=? max_binary_size - 24 then
      exists a', Binary.add false a (Some (large 16777170)) = Ok a' /\ Binary.get a' 1 = Some (large 16777170) /\ Binary.normalize_packed a' = Throw LengthError
    else Binary.add false a (Some (large 16777170)) = Throw LengthError /\ Binary.insert false a 0 (Some (large 16777170)) = Throw LengthError /\ Binary.set false a 0 (Some (large 16777170)) = Throw LengthError.
Proof.
  apply (packed_leaf_limits false [Some (large 5000)] (Some (large 16777170)) 0); [vm_compute; reflexivity|vm_compute; reflexivity|vm_compute; reflexivity| |apply Nat.lt_0_1].
  rewrite bd_size_large; [reflexivity|lia].
Defined.

Lemma packed_block_roundtrip_witness : exists block, create_block [Some [1; 2]; None; Some []] = Ok block /\ zlen block = 42 /\
    forall row v, [Some [1; 2]; None; Some []] !! row = Some v -> get_from_block block row = v.
Proof. apply (packed_block_roundtrip [Some [1; 2]; None; Some []]); [discriminate|discriminate|discriminate]. Defined.
