(* ===== verification/StringShort.v ===== *)
(** * Short strings (array_string_short.cpp)

    Every element has a block of the same number of bytes: the string, zero bytes, and in
    the last byte their number, or the size of the block for a null.  The bytes of the node
    are memory; [junk] is what newly allocated memory holds.  [ro] says whether the node is
    in the read-only part of the file.  A [StringData] is like a [BinaryData]. *)

From S2P Require Import Prelude Bytes Blobs.

Definition StringData : Type := BinaryData.

Record ArrayStringShort := mkShort { sh_nullable : bool; sh_size : nat; sh_width : Z; sh_data : bytes }.

Definition max_width : Z := 64.

Definition round_up (size : Z) : Z :=
  if size <=? 2 then size
  else
    let size := size - 1 in
    let size := Z.lor size (Z.shiftr size 1) in
    let size := Z.lor size (Z.shiftr size 2) in
    let size := Z.lor size (Z.shiftr size 4) in
    size + 1.

(** [std::fill] with zero bytes. *)
Definition fill_zero (m : bytes) (a n : Z) : bytes := fun x => if in_range a n x then 0 else m x.

(** [alloc]: the first [used] bytes are kept. *)
Definition realloc (junk m : bytes) (used : Z) : bytes := fun x => if x <? used then m x else junk x.

(** Loops over the elements from the last one down: [k] of them are left. *)
Fixpoint expand_old (k : nat) (m : bytes) (old_width new_width : Z) : bytes :=
  match k with
  | O => m
  | S k =>
      let new_begin := Z.of_nat k * new_width in
      let old_begin := Z.of_nat k * old_width in
      let m := upd m (new_begin + new_width - 1) (u8 (sext 8 (m (old_begin + old_width - 1)) + (new_width - old_width))) in
      let m := fill_zero m (new_begin + old_width - 1) (new_width - old_width) in
      let m := blit m new_begin m old_begin (old_width - 1) in
      expand_old k m old_width new_width
  end.

Fixpoint expand_nulls (k : nat) (m : bytes) (new_width : Z) : bytes :=
  match k with
  | O => m
  | S k =>
      let new_begin := Z.of_nat k * new_width in
      let m := upd m (new_begin + new_width - 1) (u8 new_width) in
      let m := fill_zero m new_begin (new_width - 1) in
      expand_nulls k m new_width
  end.

Module Short.

Definition create (nullable : bool) (m : bytes) : ArrayStringShort := mkShort nullable 0 0 m.

Definition null_value (s : ArrayStringShort) : StringData := if sh_nullable s then None else Some [].

(** [(m_width - 1) - data[m_width - 1]], in a [size_t]. *)
Definition data_size (s : ArrayStringShort) (ndx : nat) : Z :=
  u64 (sh_width s - 1 - sext 8 (sh_data s (Z.of_nat ndx * sh_width s + sh_width s - 1))).

Definition get (s : ArrayStringShort) (ndx : nat) : StringData :=
  if sh_width s =? 0 then null_value s
  else
    let array_size := data_size s ndx in
    if array_size =? 2 ^ 64 - 1 then null_value s
    else Some (slice (sh_data s) (Z.of_nat ndx * sh_width s) array_size).

Definition is_null (s : ArrayStringShort) (ndx : nat) : bool := bd_is_null (get s ndx).

(** The value is what elements of a block of size zero are. *)
Definition is_default (s : ArrayStringShort) (value : StringData) : bool :=
  if sh_nullable s then bd_is_null value else (bd_size value =? 0)%nat.

Definition write_value (s : ArrayStringShort) (ndx : nat) (value : StringData) : ArrayStringShort :=
  let begin := Z.of_nat ndx * sh_width s in
  let end_ := begin + (sh_width s - 1) in
  let size := Z.of_nat (bd_size value) in
  let m := blit (sh_data s) begin (mem_of (bd_data value)) 0 size in
  let m := fill_zero m (begin + size) (end_ - (begin + size)) in
  let m := upd m end_ (if bd_is_null value then u8 (sh_width s) else u8 (end_ - (begin + size))) in
  mkShort (sh_nullable s) (sh_size s) (sh_width s) m.

Definition set (ro : bool) (junk : bytes) (s : ArrayStringShort) (ndx : nat) (value : StringData) : result ArrayStringShort :=
  if negb (ndx <? sh_size s)%nat || negb (Z.of_nat (bd_size value) <? max_width) then Throw AssertionFailed
  else if is_default s value && (sh_width s =? 0) then Ok s
  else if sh_width s <=? Z.of_nat (bd_size value) then
    let new_width := round_up (Z.of_nat (bd_size value) + 1) in
    let m := realloc junk (sh_data s) (Z.of_nat (sh_size s) * sh_width s) in
    let m := if 0 <? sh_width s then expand_old (sh_size s) m (sh_width s) new_width else expand_nulls (sh_size s) m new_width in
    Ok (write_value (mkShort (sh_nullable s) (sh_size s) new_width m) ndx value)
  else if ro && bool_decide (get s ndx = value) then Ok s
  else Ok (write_value s ndx value).

Definition insert (junk junk' : bytes) (s : ArrayStringShort) (ndx : nat) (value : StringData) : result ArrayStringShort :=
  if negb (ndx <=? sh_size s)%nat || negb (Z.of_nat (bd_size value) <? max_width) then Throw AssertionFailed
  else
    let old_size := sh_size s in
    let m := realloc junk (sh_data s) (Z.of_nat old_size * sh_width s) in
    let m := blit m (sh_width s * Z.of_nat (ndx + 1)) m (sh_width s * Z.of_nat ndx) (sh_width s * Z.of_nat (old_size - ndx)) in
    set false junk' (mkShort (sh_nullable s) (S old_size) (sh_width s) m) ndx value.

Definition add (junk junk' : bytes) (s : ArrayStringShort) (value : StringData) : result ArrayStringShort :=
  if negb (sh_nullable s) && bd_is_null value then Throw AssertionFailed else insert junk junk' s (sh_size s) value.

Definition erase (s : ArrayStringShort) (ndx : nat) : result ArrayStringShort :=
  if negb (ndx <? sh_size s)%nat then Throw AssertionFailed
  else
    let m := sh_data s in
    let new_begin := Z.of_nat ndx * sh_width s in
    let old_begin := new_begin + sh_width s in
    let m := if (ndx <? sh_size s - 1)%nat then blit m new_begin m old_begin (Z.of_nat (sh_size s) * sh_width s - old_begin) else m in
    Ok (mkShort (sh_nullable s) (sh_size s - 1) (sh_width s) m).

(** [Array::truncate] and [Array::clear]. *)
Definition truncate (s : ArrayStringShort) (new_size : nat) : result ArrayStringShort :=
  if negb (new_size <=? sh_size s)%nat then Throw AssertionFailed
  else if (new_size =? sh_size s)%nat then Ok s
  else Ok (mkShort (sh_nullable s) new_size (if (new_size =? 0)%nat then 0 else sh_width s) (sh_data s)).
Definition clear (s : ArrayStringShort) : result ArrayStringShort := truncate s 0.

(** [for (i = begin; i != end; ++i) if (p(i)) return i]. *)
Fixpoint find_loop (n : nat) (p : nat -> bool) (i : nat) : option nat :=
  match n with O => None | S n => if p i then Some i else find_loop n p (S i) end.

Definition find_first (s : ArrayStringShort) (value : StringData) (begin end_ : nat) : result (option nat) :=
  if negb ((begin <=? sh_size s) && (end_ <=? sh_size s) && (begin <=? end_))%nat then Throw AssertionFailed
  else if sh_width s =? 0 then Ok (if is_default s value && (begin <? sh_size s)%nat then Some begin else None)
  else
    let value_size := Z.of_nat (bd_size value) in
    if sh_width s <=? value_size then Ok None
    else
      let n := (end_ - begin)%nat in
      if is_default s value then
        Ok (find_loop n (fun i => if sh_nullable s then is_null s i else (bd_size (get s i) =? 0)%nat) begin)
      else if value_size =? 0 then Ok (find_loop n (fun i => data_size s i =? 0) begin)
      else
        Ok (find_loop n (fun i => bool_decide (slice (sh_data s) (Z.of_nat i * sh_width s) value_size = bd_data value) && (data_size s i =? value_size)) begin).

Fixpoint count (fuel : nat) (s : ArrayStringShort) (value : StringData) (begin end_ : nat) : result nat :=
  match fuel with
  | O => OutOfFuel
  | S fuel =>
      r ← find_first s value begin end_;
      match r with
      | None => Ok 0%nat
      | Some ndx => n ← count fuel s value (S ndx) end_; Ok (S n)
      end
  end.

Definition compare_string (s c : ArrayStringShort) : bool :=
  (sh_size c =? sh_size s)%nat && forallb (fun i => bool_decide (get s i = get c i)) (seq 0 (sh_size s)).

End Short.
