(* ===== verification/StringData.v ===== *)
(** * Strings and binary values: equality, order and searches (string_data.hpp, string_data.cpp, binary_data.hpp)

    A value is null or a list of bytes, as unsigned characters.  The operators of
    [StringData] and [BinaryData] have the same definitions. *)

From S2P Require Import Prelude Bytes Blobs.

(** [memcmp] of the first [n] bytes: negative, zero or positive. *)
Fixpoint memcmp (n : nat) (a b : list Z) : Z :=
  match n, a, b with
  | S n, x :: a, y :: b => if x <? y then -1 else if y <? x then 1 else memcmp n a b
  | _, _, _ => 0
  end.

(** [operator==] and the other comparisons. *)
Definition sd_eq (a b : BinaryData) : bool :=
  (bd_size a =? bd_size b)%nat && Bool.eqb (bd_is_null a) (bd_is_null b) && bool_decide (bd_data a = bd_data b).

Definition sd_less (a b : BinaryData) : bool :=
  if bd_is_null a || bd_is_null b then bd_is_null a && negb (bd_is_null b)
  else
    let cmp := memcmp (Nat.min (bd_size a) (bd_size b)) (bd_data a) (bd_data b) in
    if (cmp =? 0) && (bd_size a <? bd_size b)%nat then true else cmp <? 0.

Definition sd_greater (a b : BinaryData) : bool := sd_less b a.
Definition sd_less_equal (a b : BinaryData) : bool := negb (sd_less b a).
Definition sd_greater_equal (a b : BinaryData) : bool := negb (sd_less a b).

Definition begins_with (s d : BinaryData) : bool :=
  if bd_is_null s && negb (bd_is_null d) then false
  else (bd_size d <=? bd_size s)%nat && bool_decide (take (bd_size d) (bd_data s) = bd_data d).

Definition ends_with (s d : BinaryData) : bool :=
  if bd_is_null s && negb (bd_is_null d) then false
  else (bd_size d <=? bd_size s)%nat && bool_decide (drop (bd_size s - bd_size d) (bd_data s) = bd_data d).

(** [std::search]: the first place in [l] where [d] begins. *)
Fixpoint std_search (l d : list Z) (i : nat) : option nat :=
  if bool_decide (take (length d) l = d) then Some i
  else match l with [] => None | _ :: l => std_search l d (S i) end.

Definition contains (s d : BinaryData) : bool :=
  if bd_is_null s && negb (bd_is_null d) then false
  else (bd_size d =? 0)%nat || match std_search (bd_data s) (bd_data d) 0 with Some _ => true | None => false end.

(** The search with a table of distances; [p] is the place of the last byte of the candidate. *)
Fixpoint charmap_loop (fuel : nat) (charmap : Z -> Z) (l d : list Z) (p : nat) : option bool :=
  match fuel with
  | O => None
  | S fuel =>
      if (p <? length l)%nat then
        let c := nth p l 0 in
        let needle_size := length d in
        if (c =? nth (needle_size - 1) d 0) && bool_decide (take needle_size (drop (p + 1 - needle_size) l) = d) then Some true
        else if charmap c =? 0 then charmap_loop fuel charmap l d (p + needle_size)
        else charmap_loop fuel charmap l d (p + Z.to_nat (charmap c))
      else Some false
  end.

Definition contains_charmap (s d : BinaryData) (charmap : Z -> Z) : option bool :=
  if bd_is_null s && negb (bd_is_null d) then Some false
  else if (bd_size d =? 0)%nat then Some true
  else charmap_loop (S (bd_size s)) charmap (bd_data s) (bd_data d) (bd_size d - 1).

(** ** Wildcards *)

Definition star : Z := 42.
Definition question : Z := 63.

(** [while (p1 + p != text.size() && (text[p1 + p] & 0xc0) == 0x80) ++p]: the bytes that
    continue a character of several bytes. *)
Fixpoint continuation (l : list Z) : nat :=
  match l with
  | x :: l => if Z.land x 0xc0 =? 0x80 then S (continuation l) else O
  | [] => O
  end.

(** The places to come back to, the last one first: [textpos] with [patternpos]. *)
Definition backtrack : Type := list (nat * nat).

Inductive like_result := LDone (b : bool) | LNext (p1 p2 : nat) (stack : backtrack).

Definition no_match (text : list Z) (p1 : nat) (stack : backtrack) : like_result :=
  match stack with
  | [] => LDone false
  | _ :: rest =>
      let stack := if (p1 =? length text)%nat then rest else stack in
      match stack with
      | [] => LDone false
      | (t, q) :: rest => LNext (S t) q ((S t, q) :: rest)
      end
  end.

(** One round of the loop of [matchlike], with the pattern in the other case if there is one. *)
Definition like_step (text pattern : list Z) (alternate : option (list Z)) (p1 p2 : nat) (stack : backtrack) : like_result :=
  let pat := nth p2 pattern 0 in
  if (p1 =? length text)%nat then
    if (p2 =? length pattern)%nat then LDone true
    else if (Z.of_nat p2 =? u64 (Z.of_nat (length pattern) - 1)) && (pat =? star) then LDone true
    else no_match text p1 stack
  else if (p2 =? length pattern)%nat then no_match text p1 stack
  else if pat =? star then LNext p1 (S p2) ((p1, S p2) :: stack)
  else
    let c := nth p1 text 0 in
    if pat =? question then
      if Z.land c 0x80 =? 0 then LNext (S p1) (S p2) stack
      else LNext (p1 + (1 + continuation (drop (S p1) text))) (S p2) stack
    else if pat =? c then LNext (S p1) (S p2) stack
    else if match alternate with Some a => nth p2 a 0 =? c | None => false end then LNext (S p1) (S p2) stack
    else no_match text p1 stack.

Fixpoint like_loop (fuel : nat) (text pattern : list Z) (alternate : option (list Z)) (p1 p2 : nat) (stack : backtrack) : option bool :=
  match fuel with
  | O => None
  | S fuel =>
      match like_step text pattern alternate p1 p2 stack with
      | LDone b => Some b
      | LNext p1 p2 stack => like_loop fuel text pattern alternate p1 p2 stack
      end
  end.

Definition matchlike (fuel : nat) (text pattern : list Z) : option bool := like_loop fuel text pattern None 0 0 [].
Definition matchlike_ins (fuel : nat) (text pattern_upper pattern_lower : list Z) : option bool := like_loop fuel text pattern_upper (Some pattern_lower) 0 0 [].

Definition like (fuel : nat) (s d : BinaryData) : option bool :=
  match s, d with
  | Some text, Some pattern => matchlike fuel text pattern
  | _, _ => Some (bd_is_null s && bd_is_null d)
  end.
