(* ===== verification/StringDataTheorems.v ===== *)
(** * Theorems on strings: the order is total, the searches are exact

    The order of strings is a strict total order; both substring searches find a substring
    exactly when there is one; the wildcard matcher terminates and decides the meaning of
    patterns without two stars in a row. *)

From S2P Require Import Prelude Bytes Blobs StringData.

(** ** Order *)

Lemma sd_eq_spec a b : sd_eq a b = bool_decide (a = b).
Proof.
  unfold sd_eq, bd_size. destruct a as [l|], b as [k|]; cbn; try done.
  - rewrite andb_true_r. destruct (Nat.eqb_spec (length l) (length k)) as [E|E]; cbn; [apply bool_decide_ext; unfold id; split; congruence|]. symmetry. apply bool_decide_false. congruence.
  - by rewrite andb_false_r.
  - by rewrite andb_false_r.
Qed.

(** The order that [operator<] computes: at the first difference, or by length. *)
Fixpoint lex (a b : list Z) : bool :=
  match a, b with
  | [], [] => false
  | [], _ :: _ => true
  | _ :: _, [] => false
  | x :: a, y :: b => if x <? y then true else if y <? x then false else lex a b
  end.

Lemma sd_less_lex l k : sd_less (Some l) (Some k) = lex l k.
Proof.
  unfold sd_less, bd_size. cbn [bd_is_null orb bd_data default from_option]. unfold id. revert k. induction l as [|x l IH]; intros [|y k]; cbn; try done.
  destruct (Z.ltb_spec x y) as [H|H]; cbn; [done|]. destruct (Z.ltb_spec y x) as [H'|H']; cbn; [done|]. rewrite <- IH. done.
Qed.

Lemma lex_irrefl l : lex l l = false.
Proof. induction l as [|x l IH]; cbn; [done|]. by rewrite Z.ltb_irrefl. Qed.

Lemma lex_trans a b c : lex a b = true -> lex b c = true -> lex a c = true.
Proof.
  revert b c. induction a as [|x a IH]; intros [|y b] [|z c]; cbn; try done. destruct (Z.ltb_spec x y), (Z.ltb_spec y z); try done.
  - rewrite (proj2 (Z.ltb_lt x z)) by lia. done.
  - destruct (Z.ltb_spec z y); [done|]. replace z with y by lia. rewrite (proj2 (Z.ltb_lt x y)) by lia. done.
  - destruct (Z.ltb_spec y x); [done|]. replace x with y by lia. rewrite (proj2 (Z.ltb_lt y z)) by lia. done.
  - destruct (Z.ltb_spec y x), (Z.ltb_spec z y); try done. replace x with z by lia. rewrite Z.ltb_irrefl. apply IH.
Qed.

Lemma lex_total a b : lex a b = false -> lex b a = false -> a = b.
Proof.
  revert b. induction a as [|x a IH]; intros [|y b]; cbn; try done. destruct (Z.ltb_spec x y), (Z.ltb_spec y x); try done; try lia. intros H1 H2. f_equal; [lia|by apply IH].
Qed.

Lemma sd_less_irrefl a : sd_less a a = false.
Proof. destruct a as [l|]; [|done]. rewrite sd_less_lex. apply lex_irrefl. Qed.

Lemma sd_less_trans a b c : sd_less a b = true -> sd_less b c = true -> sd_less a c = true.
Proof. destruct a as [l|], b as [k|], c as [m|]; try done. rewrite !sd_less_lex. apply lex_trans. Qed.

Lemma sd_less_total a b : sd_less a b = false -> sd_less b a = false -> a = b.
Proof. destruct a as [l|], b as [k|]; try done. rewrite !sd_less_lex. intros. f_equal. by apply lex_total. Qed.

(** The comparisons of strings and of binary values are those of one strict
    total order in which null is the least value: exactly one of less, equal and greater
    holds, less is transitive, and the other two comparisons are its negations. *)
Theorem string_order_total (a b c : BinaryData) :
  sd_less a a = false /\ sd_less None (Some (bd_data a)) = true /\
  (sd_less a b = true -> sd_less b c = true -> sd_less a c = true) /\
  sd_eq a b = negb (sd_less a b) && negb (sd_greater a b) /\ sd_less a b && sd_greater a b = false /\
  sd_less_equal a b = sd_less a b || sd_eq a b /\ sd_greater_equal a b = sd_greater a b || sd_eq a b.
Proof.
  assert (Hex : sd_less a b && sd_greater a b = false).
  { unfold sd_greater. destruct (sd_less a b) eqn:E1, (sd_less b a) eqn:E2; try done. pose proof (sd_less_trans _ _ _ E1 E2) as E. by rewrite sd_less_irrefl in E. }
  assert (Heq : sd_eq a b = negb (sd_less a b) && negb (sd_greater a b)).
  { rewrite sd_eq_spec. unfold sd_greater. destruct (bool_decide_reflect (a = b)) as [->|Hne]; [by rewrite sd_less_irrefl|].
    destruct (sd_less a b) eqn:E1, (sd_less b a) eqn:E2; try done. exfalso. apply Hne. by apply sd_less_total. }
  split_and!; [apply sd_less_irrefl|done|apply sd_less_trans|done|done| |].
  - unfold sd_less_equal. rewrite Heq. fold (sd_greater a b). destruct (sd_less a b), (sd_greater a b); done.
  - unfold sd_greater_equal. rewrite Heq. destruct (sd_less a b), (sd_greater a b); done.
Qed.

(** ** Substrings *)

Definition occurs_at (d l : list Z) (i : nat) : Prop := take (length d) (drop i l) = d.

Lemma std_search_spec l d i : match std_search l d i with Some j => (i <= j)%nat /\ occurs_at d l (j - i) | None => forall j, ~ occurs_at d l j end.
Proof.
  revert i. induction l as [|x l IH]; intros i; cbn [std_search].
  - destruct (bool_decide_reflect (take (length d) [] = d)) as [E|E]; [split; [lia|]; by rewrite Nat.sub_diag|]. intros j Hj. apply E. unfold occurs_at in Hj. by rewrite drop_nil in Hj.
  - destruct (bool_decide_reflect (take (length d) (x :: l) = d)) as [E|E]; [split; [lia|]; by rewrite Nat.sub_diag|]. specialize (IH (S i)). destruct (std_search l d (S i)) as [j|].
    + destruct IH as [Hj Ho]. split; [lia|]. unfold occurs_at in *. replace (j - i)%nat with (S (j - S i)) by lia. done.
    + intros [|j] Hj; [done|]. by apply (IH j).
Qed.

Definition contains_spec (s d : BinaryData) : Prop :=
  match s, d with
  | None, Some _ => False
  | _, _ => exists i, occurs_at (bd_data d) (bd_data s) i
  end.

Lemma contains_correct s d : contains s d = true <-> contains_spec s d.
Proof.
  unfold contains, contains_spec. destruct (bd_is_null s && negb (bd_is_null d)) eqn:En; [by destruct s, d|].
  assert (Hn : contains_spec s d <-> exists i, occurs_at (bd_data d) (bd_data s) i) by (unfold contains_spec; by destruct s, d). unfold contains_spec in Hn. rewrite Hn. clear Hn En.
  unfold bd_size. destruct (Nat.eqb_spec (length (bd_data d)) 0) as [E|E]; cbn [orb].
  - split; [intros _|done]. exists O. unfold occurs_at. rewrite E. by apply nil_length_inv in E as ->.
  - pose proof (std_search_spec (bd_data s) (bd_data d) 0) as H. destruct (std_search _ _ 0) as [j|]; [split; [intros _|done]; eexists; apply H|split; [done|]]. intros [i Hi]. by apply H in Hi.
Qed.

(** What the table of distances holds: at most the size of the needle, and for a byte of
    the needle other than its last at most the distance to the end. *)
Definition safe_charmap (charmap : Z -> Z) (d : list Z) : Prop :=
  (forall c, 0 <= charmap c <= Z.of_nat (length d)) /\
  forall i, (S i < length d)%nat -> 0 < charmap (nth i d 0) <= Z.of_nat (length d - 1 - i).

Lemma occurs_last d l i : occurs_at d l i -> (0 < length d)%nat -> (i + length d <= length l)%nat /\ forall k, (k < length d)%nat -> nth (i + k) l 0 = nth k d 0.
Proof.
  unfold occurs_at. intros E Hd. assert (Hl : (length d <= length (drop i l))%nat) by (rewrite <- E at 1; rewrite length_take; lia). rewrite length_drop in Hl. split; [lia|]. intros k Hk.
  rewrite <- E at 1. rewrite !nth_lookup, lookup_take_lt, lookup_drop by done. done.
Qed.

(** After a step no occurrence has been passed. *)
Lemma charmap_loop_ok charmap l d fuel p : (0 < length d)%nat -> safe_charmap charmap d -> (length d - 1 <= p)%nat -> (length l - p < fuel)%nat ->
  exists b, charmap_loop fuel charmap l d p = Some b /\ (b = true <-> exists i, (p <= i + (length d - 1))%nat /\ occurs_at d l i).
Proof.
  intros Hd [Hpos Hmap]. revert p. induction fuel as [|fuel IH]; intros p Hp Hf; [lia|]. cbn [charmap_loop]. destruct (Nat.ltb_spec p (length l)) as [Hlt|Hge].
  2: { exists false. split; [done|]. split; [done|]. intros (i & Hi & Ho). apply occurs_last in Ho as [Ho _]; [lia|done]. }
  destruct ((nth p l 0 =? nth (length d - 1) d 0) && bool_decide (take (length d) (drop (p + 1 - length d) l) = d)) eqn:E.
  { apply andb_true_iff in E as [_ E]. apply bool_decide_eq_true in E. exists true. split; [done|]. split; [|done]. intros _. exists (p + 1 - length d)%nat. split; [lia|done]. }
  assert (Hhere : forall i, occurs_at d l i -> (i + (length d - 1) <> p)%nat).
  { intros i Ho Hi. destruct (occurs_last d l i Ho Hd) as [_ Hk]. apply andb_false_iff in E as [E|E].
    - apply Z.eqb_neq in E. apply E. rewrite <- Hi. apply Hk. lia.
    - apply bool_decide_eq_false in E. apply E. replace (p + 1 - length d)%nat with i by lia. exact Ho. }
  set (sh := if charmap (nth p l 0) =? 0 then length d else Z.to_nat (charmap (nth p l 0))).
  assert (Hstep : exists b, charmap_loop fuel charmap l d (p + sh) = Some b /\ (b = true <-> exists i, (p + sh <= i + (length d - 1))%nat /\ occurs_at d l i)).
  { assert (0 < sh)%nat by (unfold sh; destruct (Z.eqb_spec (charmap (nth p l 0)) 0); [done|pose proof (Hpos (nth p l 0)); lia]). apply IH; lia. }
  assert (Hskip : forall i, (p <= i + (length d - 1))%nat -> occurs_at d l i -> (p + sh <= i + (length d - 1))%nat).
  { intros i Hi Ho. pose proof (Hhere i Ho) as Hne. destruct (occurs_last d l i Ho Hd) as [_ Hk]. pose proof (Hpos (nth p l 0)) as Hc. unfold sh. destruct (decide (p < i)%nat) as [Hpi|Hpi].
    - destruct (Z.eqb_spec (charmap (nth p l 0)) 0); lia.
    - assert (E' : nth p l 0 = nth (p - i) d 0) by (rewrite <- Hk by lia; f_equal; lia). pose proof (Hmap (p - i)%nat ltac:(lia)) as Hs. rewrite <- E' in Hs. rewrite (proj2 (Z.eqb_neq _ _)) by lia. lia. }
  destruct Hstep as (b & Eb & Hb). exists b. split; [unfold sh in Eb; by destruct (charmap (nth p l 0) =? 0)|]. rewrite Hb. split; intros (i & Hi & Ho); exists i; split; try done; [lia|by apply Hskip].
Qed.

(** The search for a substring with a table of distances terminates and gives
    the same answer as the plain search, which is that the substring occurs; null
    contains only null. *)
Theorem contains_charmap_correct (s d : BinaryData) (charmap : Z -> Z) :
  safe_charmap charmap (bd_data d) -> contains_charmap s d charmap = Some (contains s d) /\ (contains s d = true <-> contains_spec s d).
Proof.
  intros Hmap. split; [|apply contains_correct]. unfold contains_charmap. destruct (bd_is_null s && negb (bd_is_null d)) eqn:En; [unfold contains; by rewrite En|].
  destruct (Nat.eqb_spec (bd_size d) 0) as [E0|E0]; [unfold contains; by rewrite En, E0|]. unfold bd_size in *.
  destruct (charmap_loop_ok charmap (bd_data s) (bd_data d) (S (length (bd_data s))) (length (bd_data d) - 1)) as (b & -> & Hb); [lia|done|lia|lia|]. f_equal. apply eq_true_iff_eq. rewrite Hb, contains_correct.
  assert (Hn : contains_spec s d <-> exists i, occurs_at (bd_data d) (bd_data s) i) by (unfold contains_spec; by destruct s, d). rewrite Hn. split; intros (i & Hi); [destruct Hi as [_ Hi]|]; exists i; [done|]. split; [lia|done].
Qed.

(** ** Wildcards *)

(** What a pattern means: a star stands for any bytes, a question mark for one character of
    one or more bytes, other bytes for themselves or for the byte of the other case.  The
    pattern is a list of bytes with their alternatives. *)
Definition char_rest (c : Z) (text : list Z) : nat := if Z.land c 0x80 =? 0 then O else continuation text.

Fixpoint glob (pattern : list (Z * Z)) (text : list Z) : bool :=
  match pattern with
  | [] => match text with [] => true | _ => false end
  | (a, b) :: pattern =>
      if a =? star then
        (fix any (text : list Z) := glob pattern text || match text with [] => false | _ :: text => any text end) text
      else
        match text with
        | [] => false
        | c :: text =>
            if a =? question then glob pattern (drop (char_rest c text) text)
            else if (a =? c) || (b =? c) then glob pattern text else false
        end
  end.

(** No two stars in a row. *)
Fixpoint single_stars (pattern : list (Z * Z)) : bool :=
  match pattern with
  | (a, _) :: (((b, _) :: _) as rest) => negb ((a =? star) && (b =? star)) && single_stars rest
  | _ => true
  end.

Lemma glob_star_unfold b P text : glob ((star, b) :: P) text = glob P text || match text with [] => false | _ :: t => glob ((star, b) :: P) t end.
Proof. by destruct text. Qed.

Lemma glob_star_iff b P text : glob ((star, b) :: P) text = true <-> exists i, (i <= length text)%nat /\ glob P (drop i text) = true.
Proof.
  induction text as [|c text IH]; rewrite glob_star_unfold, orb_true_iff.
  - split; [intros [H|H]; [by exists O|done]|]. intros (i & Hi & H). left. by rewrite drop_nil in H.
  - rewrite IH. split.
    + intros [H|(i & Hi & H)]; [exists O; split; [lia|done]|exists (S i); split; [cbn; lia|done]].
    + intros ([|i] & Hi & H); [by left|right]. exists i. split; [cbn in Hi; lia|done].
Qed.

Lemma drop_cons_nth (l : list Z) p : (p < length l)%nat -> drop p l = nth p l 0 :: drop (S p) l.
Proof. intros H. destruct (lookup_lt_is_Some_2 l p H) as [x Hx]. rewrite nth_lookup, Hx. by apply drop_S. Qed.

Lemma continuation_le l : (continuation l <= length l)%nat.
Proof. induction l as [|x l IH]; cbn; [lia|]. destruct (_ =? _); lia. Qed.

(** The end of the character at a place, and that it does not go back. *)
Definition next_char (text : list Z) (p : nat) : nat := (p + 1 + char_rest (nth p text 0%Z) (drop (S p) text))%nat.

Lemma next_char_le text p : (p < length text)%nat -> (p < next_char text p <= length text)%nat.
Proof. intros H. unfold next_char, char_rest. pose proof (continuation_le (drop (S p) text)). rewrite length_drop in *. destruct (_ =? _); lia. Qed.

(** Within the bytes of a character the next character is the same one. *)
Lemma continuation_inside l i : (i < continuation l)%nat -> (i + continuation (drop i l) = continuation l)%nat /\ Z.land (nth i l 0) 0x80 <> 0.
Proof.
  revert i. induction l as [|x l IH]; intros i; cbn [continuation]; [lia|]. destruct (Z.eqb_spec (Z.land x 0xc0) 0x80) as [E|E]; [|lia]. destruct i as [|i]; intros Hi.
  - cbn [drop nth continuation]. rewrite (proj2 (Z.eqb_eq _ _) E). split; [done|]. intros E0. assert (Hb : Z.testbit (Z.land x 0xc0) 7 = true) by (by rewrite E). assert (Hb' : Z.testbit (Z.land x 0x80) 7 = false) by (by rewrite E0).
    rewrite Z.land_spec in Hb, Hb'. cbn in Hb, Hb'. by rewrite Hb' in Hb.
  - destruct (IH i) as [H1 H2]; [lia|]. cbn [drop nth]. split; [lia|done].
Qed.

Lemma next_char_mono text p q : (p <= q < length text)%nat -> (next_char text p <= next_char text q)%nat.
Proof.
  intros Hpq. destruct (decide (p = q)) as [->|Hne]; [done|]. destruct (decide (next_char text p <= q)%nat) as [H|H]; [pose proof (next_char_le text q ltac:(lia)); lia|].
  unfold next_char, char_rest in *. destruct (Z.land (nth p text 0) 0x80 =? 0); [lia|]. set (l := drop (S p) text) in *. destruct (continuation_inside l (q - S p)) as [H1 H2]; [lia|].
  assert (En : nth (q - S p) l 0 = nth q text 0) by (unfold l; rewrite !nth_lookup, lookup_drop; do 2 f_equal; lia). rewrite En in H2. rewrite (proj2 (Z.eqb_neq _ _)) by done.
  assert (Ed : drop (q - S p) l = drop q text) by (unfold l; rewrite drop_drop; f_equal; lia). rewrite Ed in H1. rewrite (drop_cons_nth text q) in H1 by lia. cbn [continuation] in H1. destruct (_ =? _) eqn:E in H1; lia.
Qed.

Section Like.
Context (text : list Z) (P : list (Z * Z)).
Hypothesis Hsingle : single_stars P = true.
Hypothesis Hsize : Z.of_nat (length P) < 2 ^ 64.

Let n := length text.
Let k := length P.
Let M (p1 p2 : nat) : bool := glob (drop p2 P) (drop p1 text).
Let loop (fuel p1 p2 : nat) (stack : backtrack) : option bool := like_loop fuel text (map fst P) (Some (map snd P)) p1 p2 stack.

Let after (fuel : nat) (r : like_result) : option bool :=
  match r with LDone b => Some b | LNext p1 p2 stack => loop fuel p1 p2 stack end.

(** Going back to the last star, one byte further. *)
Let retry (stack : backtrack) : like_result :=
  match stack with [] => LDone false | (t, q) :: rest => LNext (S t) q ((S t, q) :: rest) end.

Lemma loop_S fuel p1 p2 stack : loop (S fuel) p1 p2 stack = after fuel (like_step text (map fst P) (Some (map snd P)) p1 p2 stack).
Proof. done. Qed.

Lemma no_match_retry p1 stack : no_match text p1 stack = retry (if (p1 =? n)%nat then tl stack else stack).
Proof. unfold no_match, retry, n. destruct stack as [|[t q] rest]; destruct (p1 =? length text)%nat; cbn [tl]; done. Qed.

Lemma pattern_at p2 : (p2 < k)%nat -> exists a b, drop p2 P = (a, b) :: drop (S p2) P /\ nth p2 (map fst P) 0 = a /\ nth p2 (map snd P) 0 = b.
Proof.
  intros H. destruct (lookup_lt_is_Some_2 P p2 H) as [[a b] Hp]. exists a, b. split; [by apply drop_S|]. rewrite !nth_lookup, !list_lookup_fmap, Hp. done.
Qed.

Lemma single_stars_drop i : single_stars (drop i P) = true.
Proof.
  revert Hsingle. generalize P. induction i as [|i IH]; intros Q HQ; [done|]. destruct Q as [|[a b] Q]; [done|]. cbn [drop]. apply IH. cbn in HQ. destruct Q as [|[c d] Q]; [done|]. by apply andb_true_iff in HQ as [_ HQ].
Qed.

(** At the end of the text only the empty pattern and a last star match. *)
Lemma match_at_end p2 : (p2 < k)%nat -> M n p2 = (p2 =? k - 1)%nat && (nth p2 (map fst P) 0 =? star).
Proof.
  intros Hp. destruct (pattern_at p2 Hp) as (a & b & E & -> & _). unfold M, n. rewrite E, drop_all. destruct (Z.eqb_spec a star) as [->|Hne].
  - rewrite glob_star_unfold, orb_false_r, andb_true_r. destruct (Nat.eqb_spec p2 (k - 1)) as [Ek|Ek]; [rewrite drop_ge by (unfold k in *; lia); done|].
    destruct (pattern_at (S p2)) as (c & d & E' & _); [lia|]. rewrite E'. pose proof (single_stars_drop p2) as Hs. rewrite E, E' in Hs. cbn [single_stars] in Hs. apply andb_true_iff in Hs as [Hs _]. cbn [glob].
    destruct (Z.eqb_spec c star) as [->|]; [done|done].
  - rewrite andb_false_r. cbn [glob]. by rewrite (proj2 (Z.eqb_neq _ _)).
Qed.

(** What the rounds from a place in text and pattern on come to: the end with a match, or
    the retry of a star of the stack, the last one or, if nothing further on in the text
    can match, the one before. *)
Definition outcome (p1 p2 : nat) (stack : backtrack) : Prop :=
  exists m, if M p1 p2 then forall f, loop (m + f) p1 p2 stack = Some true
  else exists dead : bool, (dead = true -> forall t, (p1 <= t <= n)%nat -> M t p2 = false) /\ (p1 = n -> dead = true) /\
    forall f, loop (m + f) p1 p2 stack = after f (retry (if dead then tl stack else stack)).

(** A round that reads one character goes on behind it. *)
Lemma outcome_next p1 p2 q1 stack : (p1 < n)%nat -> M p1 p2 = M q1 (S p2) -> (forall t, (p1 <= t <= n)%nat -> M t p2 = true -> exists t', (q1 <= t' <= n)%nat /\ M t' (S p2) = true) ->
  (forall f, loop (S f) p1 p2 stack = loop f q1 (S p2) stack) -> outcome q1 (S p2) stack -> outcome p1 p2 stack.
Proof.
  intros Hp EM Hlater Hstep (m & Ho). exists (S m). rewrite EM. destruct (M q1 (S p2)).
  - intros f. cbn [Nat.add]. rewrite Hstep. apply Ho.
  - destruct Ho as (dead & Hd & He & Hf). exists dead. split_and!; [|lia|].
    + intros Ed t Ht. apply not_true_is_false. intros HM. destruct (Hlater t Ht HM) as (t' & Ht' & HM'). rewrite Hd in HM' by done. done.
    + intros f. cbn [Nat.add]. rewrite Hstep. apply Hf.
Qed.

(** A star: the text is tried from every place on. *)
Lemma outcome_star p1 p2 b stack : (p1 <= n)%nat -> drop p2 P = (star, b) :: drop (S p2) P -> (forall t stack, (t <= n)%nat -> outcome t (S p2) stack) ->
  exists m, if M p1 p2 then forall f, loop (m + f) p1 (S p2) ((p1, S p2) :: stack) = Some true else forall f, loop (m + f) p1 (S p2) ((p1, S p2) :: stack) = after f (retry stack).
Proof.
  intros Hp E IH. remember (n - p1)%nat as r eqn:Er. revert p1 Hp Er. induction r as [|r IHr]; intros p1 Hp Er.
  all: assert (EM : M p1 p2 = M p1 (S p2) || match drop p1 text with [] => false | _ => M (S p1) p2 end) by (unfold M; rewrite E, glob_star_unfold; f_equal; destruct (drop p1 text) as [|c t] eqn:Ed; [done|]; replace (drop (S p1) text) with (drop 1 (drop p1 text)) by (rewrite drop_drop; f_equal; lia); rewrite Ed; done).
  all: destruct (IH p1 ((p1, S p2) :: stack) Hp) as (m & Ho); destruct (M p1 (S p2)) eqn:Em; [exists m; by rewrite EM|]; destruct Ho as (dead & Hd & He & Hf).
  - rewrite He in * by lia. rewrite drop_ge in EM by (unfold n in *; lia). exists m. by rewrite EM.
  - destruct dead.
    + exists m. assert (Hno : M p1 p2 = false); [|by rewrite Hno]. apply not_true_is_false. unfold M. rewrite E, glob_star_iff. intros (i & Hi & HM). rewrite length_drop in Hi. fold n in Hi.
      assert (HM' : M (p1 + i) (S p2) = true) by (unfold M; rewrite <- HM; f_equal; by rewrite drop_drop). rewrite Hd in HM' by lia. done.
    + destruct (IHr (S p1)) as (m' & Ho'); [lia|lia|]. exists (m + m')%nat. assert (EM' : M p1 p2 = M (S p1) p2) by (rewrite EM; cbn [orb]; destruct (drop p1 text) eqn:Ed; [|done]; apply (f_equal length) in Ed; rewrite length_drop in Ed; unfold n in *; cbn in Ed; lia).
      rewrite EM'. destruct (M (S p1) p2); intros f; rewrite <- Nat.add_assoc, Hf; cbn [retry after]; apply Ho'.
Qed.

Lemma nth_fst p2 a b : drop p2 P = (a, b) :: drop (S p2) P -> nth p2 (map fst P) 0 = a /\ nth p2 (map snd P) 0 = b.
Proof.
  intros E. assert (Hp : P !! p2 = Some (a, b)) by (rewrite <- (Nat.add_0_r p2), <- lookup_drop, E; done). rewrite !nth_lookup, !list_lookup_fmap, Hp. done.
Qed.

Lemma all_outcomes r p1 p2 stack : (k - p2 = r)%nat -> (p2 <= k)%nat -> (p1 <= n)%nat -> outcome p1 p2 stack.
Proof.
  revert p1 p2 stack. induction r as [r IHr] using lt_wf_ind. intros p1 p2 stack Hr Hk Hn. assert (Hlen : length (map fst P) = k) by apply length_map.
  assert (Hstep : forall f, loop (S f) p1 p2 stack = after f (like_step text (map fst P) (Some (map snd P)) p1 p2 stack)) by done. unfold like_step in Hstep. rewrite Hlen in Hstep. fold n in Hstep.
  destruct (Nat.eqb_spec p1 n) as [->|Hp1].
  - destruct (Nat.eqb_spec p2 k) as [->|Hp2].
    + exists 1%nat. assert (EM : M n k = true) by (unfold M, n, k; by rewrite !drop_all). rewrite EM. exact Hstep.
    + assert (EM := match_at_end p2 ltac:(lia)). replace (Z.of_nat p2 =? u64 (Z.of_nat k - 1)) with (p2 =? k - 1)%nat in Hstep.
      2: { unfold u64. rewrite Z.mod_small. - destruct (Nat.eqb_spec p2 (k - 1)), (Z.eqb_spec (Z.of_nat p2) (Z.of_nat k - 1)); lia || done. - unfold k. lia. }
      exists 1%nat. rewrite EM. destruct (_ && _); [exact Hstep|]. exists true. split_and!; [|done|].
      * intros _ t Ht. by replace t with n by lia.
      * intros f. change (1 + f)%nat with (S f). rewrite Hstep, no_match_retry, Nat.eqb_refl. done.
  - assert (Hlt : (p1 < n)%nat) by lia. assert (Hfail : M p1 p2 = false -> (forall f, loop (S f) p1 p2 stack = after f (no_match text p1 stack)) -> outcome p1 p2 stack).
    { intros EM Hf. exists 1%nat. rewrite EM. exists false. split_and!; [done|lia|]. intros f. change (1 + f)%nat with (S f). rewrite Hf, no_match_retry. by rewrite (proj2 (Nat.eqb_neq p1 n)). }
    assert (Ht : forall t, (t < n)%nat -> drop t text = nth t text 0 :: drop (S t) text) by (intros t Hlt'; by apply drop_cons_nth).
    destruct (Nat.eqb_spec p2 k) as [->|Hp2].
    { apply Hfail; [|exact Hstep]. unfold M, k. by rewrite drop_all, Ht. }
    destruct (pattern_at p2 ltac:(lia)) as (a & b & E & Ea & Eb). rewrite Ea, Eb in Hstep. destruct (Z.eqb_spec a star) as [->|Hstar].
    + destruct (outcome_star p1 p2 b stack Hn E) as (m & Ho); [intros t st Htn; apply (IHr (k - S p2)%nat); lia|]. exists (S m). destruct (M p1 p2).
      * intros f. cbn [Nat.add]. rewrite Hstep. apply Ho.
      * exists false. split_and!; [done|lia|]. intros f. cbn [Nat.add]. rewrite Hstep. apply Ho.
    + assert (EM : forall t, (t < n)%nat -> M t p2 = if a =? question then M (next_char text t) (S p2) else if (a =? nth t text 0) || (b =? nth t text 0) then M (S t) (S p2) else false).
      { intros t Htn. unfold M. rewrite E, (Ht t) by done. cbn [glob]. rewrite (proj2 (Z.eqb_neq a star)) by done. destruct (a =? question); [|done]. f_equal. rewrite drop_drop. unfold next_char. f_equal. lia. }
      assert (Hend : M n p2 = false) by (rewrite match_at_end, Ea by lia; by rewrite (proj2 (Z.eqb_neq a star)), andb_false_r).
      assert (Hnext : forall q1, (p1 < q1 <= n)%nat -> M p1 p2 = M q1 (S p2) -> (forall t, (p1 <= t < n)%nat -> M t p2 = true -> exists t', (q1 <= t' <= n)%nat /\ M t' (S p2) = true) ->
        (forall f, loop (S f) p1 p2 stack = loop f q1 (S p2) stack) -> outcome p1 p2 stack).
      { intros q1 Hq EMq Hl Hf. apply (outcome_next p1 p2 q1); [done|done| |done|apply (IHr (k - S p2)%nat); lia]. intros t Htn HM. apply (Hl t); [|done]. destruct (decide (t = n)) as [->|]; [congruence|lia]. }
      assert (Hone : a <> question -> (a =? nth p1 text 0) || (b =? nth p1 text 0) = true -> (forall f, loop (S f) p1 p2 stack = loop f (S p1) (S p2) stack) -> outcome p1 p2 stack).
      { intros Hq Hc Hf. apply (Hnext (S p1)); [lia|rewrite EM by done; by rewrite (proj2 (Z.eqb_neq a question)), Hc| |done]. intros t Htn HM. rewrite EM, (proj2 (Z.eqb_neq a question)) in HM by (done || lia).
        exists (S t). split; [lia|]. destruct ((a =? nth t text 0) || (b =? nth t text 0)); [exact HM|discriminate]. }
      destruct (Z.eqb_spec a question) as [->|Hq].
      * apply (Hnext (next_char text p1)); [apply next_char_le; done|by rewrite EM| |].
        -- intros t Htn HM. rewrite EM in HM by lia. exists (next_char text t). split; [|done]. split; [apply next_char_mono; unfold n in *; lia|apply next_char_le; unfold n in *; lia].
        -- intros f. rewrite Hstep. unfold next_char, char_rest. destruct (Z.land _ _ =? 0); cbn [after]; f_equal; lia.
      * destruct (Z.eqb_spec a (nth p1 text 0)) as [Ec|Ec]; [apply Hone; [done|done|exact Hstep]|]. destruct (b =? nth p1 text 0) eqn:Ec'.
        -- apply Hone; [done|done|exact Hstep].
        -- apply Hfail; [|exact Hstep]. rewrite EM by done. by rewrite (proj2 (Z.eqb_neq a _)), Ec' by done.
Qed.

Lemma like_loop_correct : exists m, forall f, like_loop (m + f) text (map fst P) (Some (map snd P)) 0 0 [] = Some (glob P text).
Proof.
  destruct (all_outcomes (k - 0) 0 0 []) as (m & Ho); [done|lia|lia|]. exists m. intros f. unfold M in Ho. rewrite !drop_0 in Ho. destruct (glob P text); [apply Ho|]. destruct Ho as (dead & _ & _ & Hf). specialize (Hf f). unfold loop in Hf. rewrite Hf. by destruct dead.
Qed.
End Like.

Lemma like_loop_none fuel text pattern p1 p2 stack : like_loop fuel text pattern None p1 p2 stack = like_loop fuel text pattern (Some pattern) p1 p2 stack.
Proof.
  revert p1 p2 stack. induction fuel as [|fuel IH]; intros p1 p2 stack; [done|]. cbn [like_loop].
  assert (E : like_step text pattern None p1 p2 stack = like_step text pattern (Some pattern) p1 p2 stack) by (unfold like_step; cbv zeta; destruct (nth p2 pattern 0 =? nth p1 text 0); done).
  rewrite E. destruct (like_step text pattern (Some pattern) p1 p2 stack); [reflexivity|]. apply IH.
Qed.

(** A pattern without alternatives. *)
Definition plain (pattern : list Z) : list (Z * Z) := map (fun c => (c, c)) pattern.

Lemma plain_fst pattern : map fst (plain pattern) = pattern.
Proof. unfold plain. rewrite map_map. apply map_id. Qed.
Lemma plain_snd pattern : map snd (plain pattern) = pattern.
Proof. unfold plain. rewrite map_map. apply map_id. Qed.

(** Claim C22: the wildcard matcher with its stack of places to come back to terminates and
    decides exactly what the pattern means, case-sensitively and with a pattern in the
    other case, for patterns without two stars in a row. *)
Theorem like_correct (text : list Z) (pattern : list (Z * Z)) : single_stars pattern = true -> Z.of_nat (length pattern) < 2 ^ 64 ->
  exists m, forall f, matchlike_ins (m + f) text (map fst pattern) (map snd pattern) = Some (glob pattern text) /\
    (map fst pattern = map snd pattern -> like (m + f) (Some text) (Some (map fst pattern)) = Some (glob pattern text)).
Proof.
  intros Hs Hl. destruct (like_loop_correct text pattern Hs Hl) as (m & Hm). exists m. intros f. split; [apply Hm|]. intros E. unfold like, matchlike. rewrite like_loop_none. rewrite E at 2. apply Hm.
Qed.

(** ** Two stars at the end *)

Definition literal (c : Z) : bool := negb (c =? star) && negb (c =? question).

Lemma like_literal fuel text rest i : forallb literal text = true -> (i <= length text)%nat -> (length text - i <= fuel)%nat ->
  like_loop fuel text (text ++ rest) None i i [] = like_loop (fuel - (length text - i)) text (text ++ rest) None (length text) (length text) [].
Proof.
  intros Hl Hi Hf. remember (length text - i)%nat as r eqn:Er. revert i fuel Hi Hf Er. induction r as [|r IH]; intros i fuel Hi Hf Er; [by replace i with (length text) by lia; rewrite Nat.sub_0_r|].
  destruct fuel as [|fuel]; [lia|]. cbn [like_loop]. unfold like_step. rewrite (proj2 (Nat.eqb_neq i _)), (proj2 (Nat.eqb_neq i _)) by (rewrite ?length_app; lia).
  assert (Hn : nth i (text ++ rest) 0 = nth i text 0) by (apply app_nth1; lia). rewrite Hn. rewrite forallb_forall in Hl. specialize (Hl (nth i text 0) ltac:(apply nth_In; lia)). unfold literal in Hl. apply andb_true_iff in Hl as [H1 H2].
  apply negb_true_iff in H1, H2. rewrite H1, H2, Z.eqb_refl. change (S fuel - S r)%nat with (fuel - r)%nat. apply IH; lia.
Qed.

Lemma glob_literal text P : forallb literal text = true -> glob (plain text ++ P) text = glob P [].
Proof.
  induction text as [|c text IH]; [done|]. cbn [forallb]. intros [Hc Ht]%andb_true_iff. unfold literal in Hc. apply andb_true_iff in Hc as [H1 H2]. apply negb_true_iff in H1, H2. cbn [plain map app glob]. rewrite H1, H2, Z.eqb_refl. cbn [orb]. by apply IH.
Qed.

(** A pattern that ends in two stars does not match the text before them,
    although a star stands for no bytes as well: at the end of the text the matcher
    accepts one more star only. *)
Theorem like_two_stars (text : list Z) (f : nat) : forallb literal text = true ->
  like (length text + S f) (Some text) (Some (text ++ [star; star])) = Some false /\ glob (plain (text ++ [star; star])) text = true.
Proof.
  intros Hl. split.
  - unfold like, matchlike. rewrite like_literal by (done || lia). rewrite Nat.sub_0_r, Nat.add_comm, Nat.add_sub. cbn [like_loop]. unfold like_step. rewrite Nat.eqb_refl, length_app. cbn [length].
    rewrite (proj2 (Nat.eqb_neq _ _)) by lia. assert (E : (Z.of_nat (length text) =? u64 (Z.of_nat (length text + 2) - 1)) = false).
    { apply Z.eqb_neq. unfold u64. pose proof (Z.mod_pos_bound (Z.of_nat (length text + 2) - 1) (2 ^ 64) ltac:(lia)). intros E. rewrite <- E in *. destruct (decide (Z.of_nat (length text + 2) - 1 < 2 ^ 64)) as [Hs|Hs]; [rewrite Z.mod_small in E by lia; lia|]. replace (Z.of_nat (length text + 2) - 1) with (2 ^ 64) in E by lia. rewrite Z.mod_same in E by lia. lia. }
    by rewrite E.
  - unfold plain. rewrite map_app. change (map (fun c => (c, c)) text) with (plain text). by rewrite glob_literal.
Qed.

(** ** Witnesses *)

Definition example_charmap (c : Z) : Z := if c =? 1 then 2 else if c =? 2 then 1 else 0.

Lemma contains_charmap_correct_witness :
  contains_charmap (Some [3; 1; 2; 2; 1; 2; 1]) (Some [1; 2; 1]) example_charmap = Some (contains (Some [3; 1; 2; 2; 1; 2; 1]) (Some [1; 2; 1])) /\
  (contains (Some [3; 1; 2; 2; 1; 2; 1]) (Some [1; 2; 1]) = true <-> contains_spec (Some [3; 1; 2; 2; 1; 2; 1]) (Some [1; 2; 1])).
Proof.
  apply (contains_charmap_correct (Some [3; 1; 2; 2; 1; 2; 1]) (Some [1; 2; 1]) example_charmap). split.
  - intros c. unfold example_charmap. cbn. destruct (c =? 1), (c =? 2); lia.
  - intros [|[|i]] Hi; cbn in *; lia.
Defined.

Lemma like_correct_witness : exists m, forall f,
  matchlike_ins (m + f) [97; 98; 99; 98] (map fst [(star, star); (66, 98); (question, question); (66, 98)]) (map snd [(star, star); (66, 98); (question, question); (66, 98)]) =
    Some (glob [(star, star); (66, 98); (question, question); (66, 98)] [97; 98; 99; 98]) /\
  (map fst [(star, star); (66, 98); (question, question); (66, 98)] = map snd [(star, star); (66, 98); (question, question); (66, 98)] ->
   like (m + f) (Some [97; 98; 99; 98]) (Some (map fst [(star, star); (66, 98); (question, question); (66, 98)])) = Some (glob [(star, star); (66, 98); (question, question); (66, 98)] [97; 98; 99; 98])).
Proof. apply (like_correct [97; 98; 99; 98] [(star, star); (66, 98); (question, question); (66, 98)]); [reflexivity|cbn; lia]. Defined.

Lemma like_two_stars_witness :
  like (length [97; 98] + 1) (Some [97; 98]) (Some ([97; 98] ++ [star; star])) = Some false /\ glob (plain ([97; 98] ++ [star; star])) [97; 98] = true.
Proof. apply (like_two_stars [97; 98] 0). reflexivity. Defined.
