(* ===== verification/ArrayString.v ===== *)
(** * Leaves of strings (array_string.cpp)

    [ArrayString] holds its strings as short strings, as small blobs or as big blobs, with
    a zero byte behind each string in a blob, and changes to the next representation when
    a longer string comes.  The enumerated strings of the source belong to a table layer
    that is not there: no file holds them and opening one terminates the process. *)

From S2P Require Import Prelude Bytes Blobs SmallBlobs BigBlobs StringShort StringData.

Inductive ArrayString := SShort (s : ArrayStringShort) | SMedium (s : ArraySmallBlobs) | SBig (s : ArrayBigBlobs).

(** Without the zero byte at the end. *)
Definition cut_zero (v : BinaryData) : StringData := match v with None => None | Some l => Some (take (length l - 1) l) end.

Module Strings.

Definition small_string_max_size : nat := 15.
Definition medium_string_max_size : nat := 63.

Definition get_string_small (s : ArraySmallBlobs) (ndx : nat) : StringData := cut_zero (Small.get s ndx).
Definition get_string_big (s : ArrayBigBlobs) (ndx : nat) : StringData := cut_zero (Big.get s ndx).

(** [add_string] and the like of the blobs. *)
Definition add_string_small (ro : bool) (s : ArraySmallBlobs) (value : StringData) : result ArraySmallBlobs := Small.add ro s value true.
Definition set_string_small (ro : bool) (s : ArraySmallBlobs) (ndx : nat) (value : StringData) : result ArraySmallBlobs := Small.set ro s ndx value true.
Definition insert_string_small (ro : bool) (s : ArraySmallBlobs) (ndx : nat) (value : StringData) : result ArraySmallBlobs := Small.insert ro s ndx value true.
Definition add_string_big (s : ArrayBigBlobs) (value : StringData) : result ArrayBigBlobs := Big.add s value true.
Definition set_string_big (ro : bool) (s : ArrayBigBlobs) (ndx : nat) (value : StringData) : result ArrayBigBlobs := Big.set ro s ndx value true.
Definition insert_string_big (s : ArrayBigBlobs) (ndx : nat) (value : StringData) : result ArrayBigBlobs := Big.insert s ndx value true.

Section Strings.
Context (refs_bytes : list (list Z) -> list Z).

Definition create (m : bytes) : ArrayString := SShort (Short.create true m).

Definition size (a : ArrayString) : nat := match a with SShort s => sh_size s | SMedium s => Small.size s | SBig s => length s end.

Fixpoint add_all_small (s : ArraySmallBlobs) (values : list StringData) : result ArraySmallBlobs :=
  match values with [] => Ok s | v :: values => s ← add_string_small false s v; add_all_small s values end.
Fixpoint add_all_big (s : ArrayBigBlobs) (values : list StringData) : result ArrayBigBlobs :=
  match values with [] => Ok s | v :: values => s ← add_string_big s v; add_all_big s values end.

Definition get (a : ArrayString) (ndx : nat) : StringData :=
  match a with SShort s => Short.get s ndx | SMedium s => get_string_small s ndx | SBig s => get_string_big s ndx end.

Definition is_null (a : ArrayString) (ndx : nat) : bool :=
  match a with SShort s => Short.is_null s ndx | SMedium s => Small.is_null s ndx | SBig s => Big.is_null s ndx end.

(** The strings as [get] returns them. *)
Definition get_all (a : ArrayString) : list StringData := map (get a) (seq 0 (size a)).

Definition upgrade_leaf (a : ArrayString) (value_size : nat) : result ArrayString :=
  match a with
  | SBig _ => Ok a
  | SMedium _ =>
      if (value_size <=? medium_string_max_size)%nat then Ok a
      else b ← add_all_big [] (get_all a); Ok (SBig b)
  | SShort _ =>
      if (value_size <=? small_string_max_size)%nat then Ok a
      else if (value_size <=? medium_string_max_size)%nat then s ← add_all_small (Small.create []) (get_all a); Ok (SMedium s)
      else b ← add_all_big [] (get_all a); Ok (SBig b)
  end.

Definition add (ro : bool) (junk junk' : bytes) (a : ArrayString) (value : StringData) : result ArrayString :=
  a ← upgrade_leaf a (bd_size value);
  match a with
  | SShort s => s ← Short.add junk junk' s value; Ok (SShort s)
  | SMedium s => s ← add_string_small ro s value; Ok (SMedium s)
  | SBig s => s ← add_string_big s value; Ok (SBig s)
  end.

Definition set (ro : bool) (junk : bytes) (a : ArrayString) (ndx : nat) (value : StringData) : result ArrayString :=
  a ← upgrade_leaf a (bd_size value);
  match a with
  | SShort s => s ← Short.set ro junk s ndx value; Ok (SShort s)
  | SMedium s => s ← set_string_small ro s ndx value; Ok (SMedium s)
  | SBig s => s ← set_string_big ro s ndx value; Ok (SBig s)
  end.

Definition set_null (ro : bool) (junk : bytes) (a : ArrayString) (ndx : nat) : result ArrayString := set ro junk a ndx None.

Definition insert (ro : bool) (junk junk' : bytes) (a : ArrayString) (ndx : nat) (value : StringData) : result ArrayString :=
  a ← upgrade_leaf a (bd_size value);
  match a with
  | SShort s => s ← Short.insert junk junk' s ndx value; Ok (SShort s)
  | SMedium s => s ← insert_string_small ro s ndx value; Ok (SMedium s)
  | SBig s => s ← insert_string_big s ndx value; Ok (SBig s)
  end.

Definition erase (ro : bool) (a : ArrayString) (ndx : nat) : result ArrayString :=
  match a with
  | SShort s => s ← Short.erase s ndx; Ok (SShort s)
  | SMedium s => s ← Small.erase ro s ndx; Ok (SMedium s)
  | SBig s => Ok (SBig (Big.erase s ndx))
  end.

Definition truncate (a : ArrayString) (ndx : nat) : result ArrayString :=
  match a with
  | SShort s => s ← Short.truncate s ndx; Ok (SShort s)
  | SMedium s => s ← Small.truncate s ndx; Ok (SMedium s)
  | SBig s => Ok (SBig (Big.truncate s ndx))
  end.

Fixpoint add_values (ro : bool) (junk : nat -> bytes) (a : ArrayString) (values : list StringData) : result ArrayString :=
  match values with
  | [] => Ok a
  | v :: values => a ← add ro (junk (2 * length values)%nat) (junk (2 * length values + 1)%nat) a v; add_values ro junk a values
  end.

Definition move (ro : bool) (junk : nat -> bytes) (a dst : ArrayString) (ndx : nat) : result (ArrayString * ArrayString) :=
  dst ← add_values ro junk dst (drop ndx (get_all a));
  a ← truncate a ndx;
  Ok (a, dst).

Definition clear (a : ArrayString) : result ArrayString :=
  match a with
  | SShort s => s ← Short.clear s; Ok (SShort s)
  | SMedium s => Ok (SMedium (Small.clear s))
  | SBig s => Ok (SBig (Big.clear s))
  end.

Definition find_first (a : ArrayString) (value : StringData) (begin end_ : nat) : result (option nat) :=
  match a with
  | SShort s => Short.find_first s value begin end_
  | SMedium s => Ok (Small.find_first s value true begin end_)
  | SBig s => Ok (Big.find_first refs_bytes s value true begin end_)
  end.

(** [while (0 < sz)] of [lower_bound_string]. *)
Fixpoint lower_bound_string (fuel : nat) (get : nat -> StringData) (value : StringData) (i sz : nat) : option nat :=
  match fuel with
  | O => None
  | S fuel =>
      if (0 <? sz)%nat then
        let half := (sz / 2)%nat in
        let mid := (i + half)%nat in
        if sd_less (get mid) value then lower_bound_string fuel get value (mid + 1) (sz - (half + 1)) else lower_bound_string fuel get value i half
      else Some i
  end.

Definition lower_bound (a : ArrayString) (value : StringData) : option nat := lower_bound_string (S (size a)) (get a) value 0 (size a).
End Strings.
End Strings.
