(* ===== verification/ArrayStringInv.v ===== *)
(** * Leaves of strings hold the list of their strings

    First the blocks of short strings; then [string_rep] relates a leaf in each of its
    representations to the list it holds, and the operations keep it, with the strings that
    do not fit moving to the next representation. *)

From S2P Require Import Prelude Bytes ArrayDirect Blobs StringShort BlobsInv SmallBlobs BigBlobs StringData ArrayString StringDataTheorems.

(** ** Blocks *)

Definition block_byte (w : Z) (v : StringData) (k : Z) : Z :=
  if k =? w - 1 then match v with None => w | Some s => w - 1 - zlen s end else nth (Z.to_nat k) (bd_data v) 0.

Definition block_at (m : bytes) (w a : Z) (v : StringData) : Prop := forall k, 0 <= k < w -> m (a + k) = block_byte w v k.

Definition vsize (v : StringData) : Z := Z.of_nat (bd_size v).

Lemma vsize_nonneg v : 0 <= vsize v.
Proof. unfold vsize. lia. Qed.

Lemma nth_past (v : StringData) k : vsize v <= k -> nth (Z.to_nat k) (bd_data v) 0 = 0.
Proof. intros H. apply nth_overflow. unfold vsize, bd_size in H. lia. Qed.

Lemma block_last w v : vsize v < w -> block_byte w v (w - 1) = match v with None => w | Some s => w - 1 - zlen s end.
Proof. intros _. unfold block_byte. by rewrite Z.eqb_refl. Qed.

Lemma block_inner w v k : k <> w - 1 -> block_byte w v k = nth (Z.to_nat k) (bd_data v) 0.
Proof. intros H. unfold block_byte. by rewrite (proj2 (Z.eqb_neq _ _)). Qed.

Lemma block_at_ext m m' w a v : (forall x, a <= x < a + w -> m' x = m x) -> block_at m w a v -> block_at m' w a v.
Proof. intros E H k Hk. rewrite E by lia. by apply H. Qed.

(** One round of the loop that makes the blocks wider. *)
Definition widen (m : bytes) (a b ow nw : Z) : bytes :=
  let m1 := upd m (b + nw - 1) (u8 (sext 8 (m (a + ow - 1)) + (nw - ow))) in
  let m2 := fill_zero m1 (b + ow - 1) (nw - ow) in
  blit m2 b m2 a (ow - 1).

Lemma widen_frame m a b ow nw x : 0 < ow < nw -> x < b \/ b + nw <= x -> widen m a b ow nw x = m x.
Proof. intros How Hx. unfold widen, blit, fill_zero, upd. repeat rdec; try lia. by rewrite (proj2 (Z.eqb_neq _ _)) by lia. Qed.

Lemma widen_block m a b ow nw v : 0 <= a <= b -> 0 < ow < nw -> nw <= 64 -> vsize v < ow -> block_at m ow a v -> block_at (widen m a b ow nw) nw b v.
Proof.
  intros Hab How Hnw Hv Hm k Hk. pose proof (vsize_nonneg v). unfold widen, blit, fill_zero, upd. destruct (Z.eq_dec k (nw - 1)) as [->|Hne].
  - rewrite block_last by lia. repeat rdec; try lia. replace (b + (nw - 1)) with (b + nw - 1) by lia. rewrite Z.eqb_refl. replace (a + ow - 1) with (a + (ow - 1)) by lia.
    rewrite Hm, block_last by lia. assert (Hl : match v with Some s => zlen s = vsize v | None => True end) by (by destruct v). unfold u8. change (2 ^ 8) with 256. rewrite sext_id by (destruct v; lia). rewrite Z.mod_small by (destruct v; lia). destruct v; lia.
  - rewrite block_inner by done. repeat rdec; try lia.
    + rewrite (proj2 (Z.eqb_neq _ _)) by lia. replace (b + k - b + a) with (a + k) by lia. rewrite Hm, block_inner by lia. done.
    + symmetry. apply nth_past. lia.
Qed.

Lemma null_step m b nw : 0 <= b -> 0 < nw <= 64 ->
  let m' := fill_zero (upd m (b + nw - 1) (u8 nw)) b (nw - 1) in block_at m' nw b None /\ forall x, x < b \/ b + nw <= x -> m' x = m x.
Proof.
  intros Hb Hnw m'. split.
  - intros k Hk. unfold m', fill_zero, upd, block_byte. destruct (Z.eqb_spec k (nw - 1)) as [->|Hne].
    + rdec; [lia|]. replace (b + (nw - 1)) with (b + nw - 1) by lia. rewrite Z.eqb_refl. unfold u8. apply Z.mod_small. lia.
    + rdec; [|lia]. cbn. by destruct (Z.to_nat k).
  - intros x Hx. unfold m', fill_zero, upd. rdec; [lia|]. by rewrite (proj2 (Z.eqb_neq _ _)) by lia.
Qed.

(** Of the elements only those with [P] need be in order. *)
Lemma expand_old_ok (P : nat -> Prop) n m ow nw (c : list StringData) : 0 < ow < nw -> nw <= 64 ->
  (forall i v, c !! i = Some v -> P i -> block_at m ow (Z.of_nat i * ow) v /\ vsize v < ow) ->
  (forall i v, c !! i = Some v -> P i -> (i < n)%nat -> block_at (expand_old n m ow nw) nw (Z.of_nat i * nw) v) /\
  (forall x, Z.of_nat n * nw <= x -> expand_old n m ow nw x = m x).
Proof.
  intros How Hnw. assert (Hgen : forall m, (forall i v, c !! i = Some v -> P i -> (i < n)%nat -> block_at m ow (Z.of_nat i * ow) v /\ vsize v < ow) ->
    (forall i v, c !! i = Some v -> P i -> (i < n)%nat -> block_at (expand_old n m ow nw) nw (Z.of_nat i * nw) v) /\ (forall x, Z.of_nat n * nw <= x -> expand_old n m ow nw x = m x)); [|intros H; apply Hgen; auto].
  clear m. induction n as [|n IH]; intros m Hm; cbn [expand_old]; [split; [lia|done]|]. set (a := Z.of_nat n * ow). set (b := Z.of_nat n * nw). assert (Hab : 0 <= a <= b) by (unfold a, b; nia).
  change (expand_old n _ ow nw) with (expand_old n (widen m a b ow nw) ow nw). destruct (IH (widen m a b ow nw)) as [H1 H2].
  { intros i w Hi HP Hlt. destruct (Hm i w Hi HP) as [Hb' Hs']; [lia|]. split; [|done]. eapply block_at_ext; [|exact Hb']. intros x Hx. apply widen_frame; [done|]. left. unfold b. nia. }
  split.
  - intros i w Hi HP Hlt. destruct (decide (i = n)) as [->|Hne]; [|apply H1; [done|done|lia]]. destruct (Hm n w Hi HP) as [Hblk Hs]; [lia|]. eapply block_at_ext; [|exact (widen_block m a b ow nw w Hab How Hnw Hs Hblk)]. intros x Hx. apply H2. unfold b in Hx. lia.
  - intros x Hx. rewrite H2 by nia. apply widen_frame; [done|]. right. unfold b. nia.
Qed.

Lemma expand_nulls_ok n m nw : 0 < nw <= 64 ->
  (forall i, (i < n)%nat -> block_at (expand_nulls n m nw) nw (Z.of_nat i * nw) None) /\ (forall x, Z.of_nat n * nw <= x -> expand_nulls n m nw x = m x).
Proof.
  intros Hnw. revert m. induction n as [|n IH]; intros m; cbn [expand_nulls]; [split; [lia|done]|]. set (b := Z.of_nat n * nw) in *.
  destruct (null_step m b nw) as [Hnew Hframe]; [unfold b; nia|done|]. cbv zeta in Hnew, Hframe |- *. match goal with |- context [expand_nulls n ?m' nw] => set (m3 := m') in * end.
  destruct (IH m3) as [H1 H2]. split.
  - intros i Hlt. destruct (decide (i = n)) as [->|Hne]; [|apply H1; lia]. eapply block_at_ext; [|exact Hnew]. intros x Hx. apply H2. unfold b in Hx. lia.
  - intros x Hx. rewrite H2 by nia. apply Hframe. right. unfold b. nia.
Qed.

(** ** The array *)

Definition widths : list Z := [1; 2; 4; 8; 16; 32; 64].

(** The widths that the code asks for are those a node header can hold. *)
Lemma round_up_width n : 1 <= n <= 64 -> n <= round_up n /\ In (round_up n) widths.
Proof.
  intros Hn. assert (H : forallb (fun k => (k <=? round_up k) && existsb (Z.eqb (round_up k)) widths) (map Z.of_nat (seq 1 64)) = true) by reflexivity.
  rewrite forallb_forall in H. specialize (H n). rewrite andb_true_iff, Z.leb_le, existsb_exists in H. destruct H as [H1 (w & Hw & E)].
  - apply in_map_iff. exists (Z.to_nat n). split; [lia|]. apply in_seq. lia.
  - split; [done|]. apply Z.eqb_eq in E. by rewrite E.
Qed.

Lemma widths_range w : In w widths -> 0 < w <= 64.
Proof. cbn. lia. Qed.

(** [c] has a null where a block of the array is that of a null. *)
Record short_ok (s : ArrayStringShort) (c : list StringData) : Prop := {
  so_size : length c = sh_size s;
  so_width : sh_width s = 0 /\ Forall (eq None) c \/ In (sh_width s) widths /\
    forall i v, c !! i = Some v -> block_at (sh_data s) (sh_width s) (Z.of_nat i * sh_width s) v /\ vsize v < sh_width s }.

(** Without nulls, a null reads as the empty string. *)
Definition view (nullable : bool) (v : StringData) : StringData := match v with None => if nullable then None else Some [] | Some l => Some l end.

Definition short_holds (s : ArrayStringShort) (c : list StringData) : Prop := exists raw, short_ok s raw /\ c = map (view (sh_nullable s)) raw.

Lemma view_view n v : view n (view n v) = view n v.
Proof. by destruct v, n. Qed.

Lemma data_size_at s i v : block_at (sh_data s) (sh_width s) (Z.of_nat i * sh_width s) v -> vsize v < sh_width s <= 64 ->
  Short.data_size s i = match v with None => 2 ^ 64 - 1 | Some l => zlen l end.
Proof.
  intros Hb Hw. pose proof (vsize_nonneg v). unfold Short.data_size. rewrite <- Z.add_sub_assoc, Hb, block_last by lia.
  assert (Hl : match v with Some s => zlen s = vsize v | None => True end) by (by destruct v). unfold u64. rewrite sext_id by (destruct v; lia). destruct v as [l|].
  - rewrite Z.mod_small by lia. lia.
  - replace (sh_width s - 1 - sh_width s) with (-1) by lia. done.
Qed.

Lemma block_slice m w a v n : block_at m w a v -> vsize v < w -> 0 <= n <= vsize v -> slice m a n = take (Z.to_nat n) (bd_data v).
Proof.
  intros Hb Hv Hn. unfold vsize, bd_size in *. apply list_eq_nth; [rewrite length_slice, length_take; lia|]. rewrite length_slice. intros i Hi. rewrite nth_slice by lia.
  rewrite Hb, block_inner by lia. rewrite Nat2Z.id, !nth_lookup, lookup_take_lt by lia. done.
Qed.

Lemma short_get s c i v : short_ok s c -> c !! i = Some v -> Short.get s i = view (sh_nullable s) v.
Proof.
  intros [Hsz [[Hw Hall]|[Hw Hb]]] Hv; unfold Short.get, Short.null_value.
  - rewrite Hw. cbn. pose proof (Forall_lookup_1 _ _ _ _ Hall Hv) as E. cbn in E. by subst v.
  - apply widths_range in Hw. destruct (Hb i v Hv) as [Hblk Hs]. rewrite (proj2 (Z.eqb_neq _ _)) by lia. rewrite (data_size_at s i v Hblk) by lia. destruct v as [l|]; [|done].
    assert (Hl : zlen l = vsize (Some l)) by done. rewrite (proj2 (Z.eqb_neq _ _)) by lia. cbn [view]. f_equal. rewrite (block_slice _ _ _ _ _ Hblk) by (pose proof (zlen_nonneg l); lia).
    cbn [bd_data default from_option]. apply take_ge. unfold zlen. lia.
Qed.

Lemma short_holds_get s c i v : short_holds s c -> c !! i = Some v -> Short.get s i = v.
Proof. intros (raw & Hok & ->). rewrite list_lookup_fmap_Some. intros (r & -> & Hr). by apply (short_get s raw). Qed.

Lemma short_holds_size s c : short_holds s c -> sh_size s = length c.
Proof. intros (raw & [Hsz _] & ->). by rewrite length_map. Qed.

(** *** Writing a value into its block *)

Lemma write_value_ok s n v : In (sh_width s) widths -> vsize v < sh_width s ->
  let s' := Short.write_value s n v in
  block_at (sh_data s') (sh_width s) (Z.of_nat n * sh_width s) v /\
  forall x, x < Z.of_nat n * sh_width s \/ Z.of_nat n * sh_width s + sh_width s <= x -> sh_data s' x = sh_data s x.
Proof.
  intros Hw Hv. apply widths_range in Hw. pose proof (vsize_nonneg v). unfold Short.write_value. cbn [sh_data]. fold (vsize v). set (a := Z.of_nat n * sh_width s). clearbody a. set (w := sh_width s) in *. clearbody w. split.
  - intros k Hk. unfold upd, fill_zero, blit, block_byte, mem_of. destruct (Z.eqb_spec k (w - 1)) as [->|Hne].
    + rewrite Z.eqb_refl. unfold u8. change (2 ^ 8) with 256. destruct v as [l|]; cbn [bd_is_null]; [|apply Z.mod_small; lia]. assert (Hl : zlen l = vsize (Some l)) by done. rewrite Z.mod_small by lia. lia.
    + rewrite (proj2 (Z.eqb_neq _ _)) by lia. repeat rdec; try lia.
      * symmetry. apply nth_past. lia.
      * f_equal. lia.
  - intros x Hx. unfold upd, fill_zero, blit. rewrite (proj2 (Z.eqb_neq _ _)) by lia. repeat rdec; lia.
Qed.

(** All the blocks but one are in order; that one is written. *)
Lemma write_value_list s n v c : In (sh_width s) widths -> vsize v < sh_width s -> length c = sh_size s -> (n < length c)%nat ->
  (forall i w, c !! i = Some w -> i <> n -> block_at (sh_data s) (sh_width s) (Z.of_nat i * sh_width s) w /\ vsize w < sh_width s) ->
  short_ok (Short.write_value s n v) (<[n := v]> c).
Proof.
  intros Hw Hv Hl Hn Hb. destruct (write_value_ok s n v Hw Hv) as [H1 H2]. split; [by rewrite length_insert|]. right. split; [done|]. cbn [sh_width Short.write_value]. intros i w Hi.
  destruct (decide (i = n)) as [->|Hne].
  - rewrite list_lookup_insert_eq in Hi by done. by injection Hi as <-.
  - rewrite list_lookup_insert_ne in Hi by done. destruct (Hb i w Hi Hne) as [Hbi Hs]. split; [|done]. eapply block_at_ext; [|exact Hbi]. intros x Hx. apply H2. apply widths_range in Hw. destruct (decide (i < n)%nat); [left|right]; nia.
Qed.

(** *** Setting a value

    [c] is right at every place but possibly [n], where memory may hold anything. *)
Definition blocks_but (s : ArrayStringShort) (n : nat) (c : list StringData) : Prop :=
  sh_width s = 0 /\ (forall i v, c !! i = Some v -> i <> n -> v = None) \/
  In (sh_width s) widths /\ forall i v, c !! i = Some v -> i <> n -> block_at (sh_data s) (sh_width s) (Z.of_nat i * sh_width s) v /\ vsize v < sh_width s.

Lemma map_view_insert b n v c : map (view b) (<[n := v]> c) = <[n := view b v]> (map (view b) c).
Proof. apply list_fmap_insert. Qed.

Lemma realloc_same junk m used x : x < used -> realloc junk m used x = m x.
Proof. intros H. unfold realloc. by rewrite (proj2 (Z.ltb_lt _ _)). Qed.

(** The blocks are made wider for a value that does not fit. *)
Lemma short_grow junk s n v c : blocks_but s n c -> length c = sh_size s -> (n < length c)%nat -> sh_width s <= vsize v < 64 ->
  let new_width := round_up (vsize v + 1) in
  let m := realloc junk (sh_data s) (Z.of_nat (sh_size s) * sh_width s) in
  let m := if 0 <? sh_width s then expand_old (sh_size s) m (sh_width s) new_width else expand_nulls (sh_size s) m new_width in
  short_ok (Short.write_value (mkShort (sh_nullable s) (sh_size s) new_width m) n v) (<[n := v]> c).
Proof.
  intros Hc Hl Hn Hv new_width m m'. pose proof (vsize_nonneg v). destruct (round_up_width (vsize v + 1)) as [Hle Hin]; [lia|]. fold new_width in Hle, Hin. pose proof (widths_range _ Hin).
  apply write_value_list; [done|cbn; lia|done|done|]. cbn [sh_data sh_width]. intros i w Hi Hne. assert (Hlt : (i < sh_size s)%nat) by (apply lookup_lt_Some in Hi; lia). unfold m'. destruct Hc as [[Hw Hnull]|[Hw Hb]].
  - rewrite Hw. cbn [Z.ltb Z.compare]. rewrite (Hnull i w Hi Hne). destruct (expand_nulls_ok (sh_size s) m new_width) as [H1 _]; [lia|]. split; [by apply H1|]. unfold vsize, bd_size. cbn. lia.
  - apply widths_range in Hw. rewrite (proj2 (Z.ltb_lt _ _)) by lia. destruct (expand_old_ok (fun i => i <> n) (sh_size s) m (sh_width s) new_width c) as [H1 _]; [lia|lia| |].
    + intros j u Hj Hju. destruct (Hb j u Hj Hju) as [Hbj Hsj]. split; [|done]. eapply block_at_ext; [|exact Hbj]. intros x Hx. apply realloc_same. apply lookup_lt_Some in Hj. nia.
    + split; [by apply H1|]. destruct (Hb i w Hi Hne). lia.
Qed.

Lemma short_set ro junk s n v c : blocks_but s n c -> (ro = true -> short_ok s c) -> length c = sh_size s -> (n < length c)%nat -> vsize v < 64 ->
  exists s', Short.set ro junk s n v = Ok s' /\ sh_nullable s' = sh_nullable s /\ short_holds s' (<[n := view (sh_nullable s) v]> (map (view (sh_nullable s)) c)).
Proof.
  intros Hc Hro Hl Hn Hv. pose proof (vsize_nonneg v). unfold Short.set. fold (vsize v). rewrite (proj2 (Nat.ltb_lt _ _)), (proj2 (Z.ltb_lt _ max_width)) by (unfold max_width; lia). cbn [negb orb].
  destruct (Short.is_default s v && (sh_width s =? 0)) eqn:E0.
  - apply andb_true_iff in E0 as [Ed Ew]. apply Z.eqb_eq in Ew. eexists. split; [done|]. split; [done|]. destruct Hc as [[_ Hnull]|[Hw _]]; [|apply widths_range in Hw; lia].
    exists (<[n := None]> c). split; [split; [by rewrite length_insert|left; split; [done|]]|].
    + apply Forall_lookup_2. intros i w Hi. destruct (decide (i = n)) as [->|Hne]; [rewrite list_lookup_insert_eq in Hi by done; congruence|]. rewrite list_lookup_insert_ne in Hi by done. symmetry. by apply (Hnull i).
    + rewrite map_view_insert. f_equal. unfold Short.is_default in Ed. unfold view. destruct (sh_nullable s), v as [[|]|]; done.
  - destruct (Z.leb_spec (sh_width s) (vsize v)) as [Hle|Hlt].
    + eexists. split; [done|]. split; [done|]. eexists. split; [apply (short_grow junk s n v c); [done|done|done|lia]|]. cbn [sh_nullable Short.write_value]. by rewrite map_view_insert.
    + destruct Hc as [[Hw _]|[Hw Hb]]; [lia|]. destruct (ro && bool_decide (Short.get s n = v)) eqn:Er.
      * apply andb_true_iff in Er as [-> Eg]. apply bool_decide_eq_true in Eg. eexists. split; [done|]. split; [done|]. exists c. split; [by apply Hro|]. destruct (lookup_lt_is_Some_2 c n Hn) as [r Hr]. rewrite (short_get s c n r (Hro eq_refl) Hr) in Eg.
        rewrite <- Eg, view_view. apply list_insert_id. by rewrite list_lookup_fmap, Hr.
      * eexists. split; [done|]. split; [done|]. eexists. split; [by apply write_value_list|]. cbn [sh_nullable Short.write_value]. by rewrite map_view_insert.
Qed.

(** *** The other operations *)

Lemma short_ok_but s n c : short_ok s c -> blocks_but s n c.
Proof.
  intros [_ [[Hw Hall]|[Hw Hb]]]; [left|right]; split; try done.
  - intros i v Hi _. symmetry. exact (Forall_lookup_1 _ _ _ _ Hall Hi).
  - intros i v Hi _. by apply Hb.
Qed.

Lemma short_holds_set ro junk s n v c : short_holds s c -> (n < length c)%nat -> vsize v < 64 ->
  exists s', Short.set ro junk s n v = Ok s' /\ sh_nullable s' = sh_nullable s /\ short_holds s' (<[n := view (sh_nullable s) v]> c).
Proof.
  intros (raw & Hok & ->) Hn Hv. rewrite length_map in Hn. apply short_set; [by apply short_ok_but|done|apply Hok|done|done].
Qed.

Lemma short_holds_insert junk junk' s n v c : short_holds s c -> (n <= length c)%nat -> vsize v < 64 ->
  exists s', Short.insert junk junk' s n v = Ok s' /\ sh_nullable s' = sh_nullable s /\ short_holds s' (list_insert_at n (view (sh_nullable s) v) c).
Proof.
  intros (raw & Hok & ->) Hn Hv. rewrite length_map in Hn. pose proof (so_size _ _ Hok) as Hsz. unfold Short.insert. fold (vsize v).
  rewrite (proj2 (Nat.leb_le _ _)), (proj2 (Z.ltb_lt _ max_width)) by (unfold max_width; lia). cbn [negb orb]. set (m := realloc junk _ _). set (m' := blit m _ m _ _).
  destruct (short_set false junk' (mkShort (sh_nullable s) (S (sh_size s)) (sh_width s) m') n v (list_insert_at n None raw)) as (s' & E & Hs'); [|done|cbn; by rewrite length_list_insert_at, Hsz|rewrite length_list_insert_at; lia|done|].
  - assert (Hlk : forall i w, list_insert_at n None raw !! i = Some w -> i <> n -> raw !! (if (i <? n)%nat then i else i - 1)%nat = Some w).
    { intros i w Hi Hne. rewrite lookup_list_insert_at in Hi by done. destruct (Nat.ltb_spec i n); [done|]. by rewrite (proj2 (Nat.eqb_neq i n)) in Hi. }
    destruct (so_width _ _ Hok) as [[Hw Hall]|[Hw Hb]]; [left|right]; split; try done.
    + intros i w Hi Hne. symmetry. exact (Forall_lookup_1 _ _ _ _ Hall (Hlk i w Hi Hne)).
    + cbn [sh_width sh_data]. apply widths_range in Hw. intros i w Hi Hne. pose proof (Hlk i w Hi Hne) as Hr. revert Hr. destruct (Nat.ltb_spec i n) as [Hlt|Hge]; intros Hr.
      all: destruct (Hb _ w Hr) as [Hbr Hs]; split; [|done]; apply lookup_lt_Some in Hr; intros k Hk; unfold m', blit.
      * assert (Hi1 : Z.of_nat i * sh_width s + sh_width s <= Z.of_nat n * sh_width s <= Z.of_nat (sh_size s) * sh_width s) by nia. rdec; [lia|]. unfold m. rewrite realloc_same by lia. by apply Hbr.
      * assert (Hr2 : (i - 1 < sh_size s)%nat) by (rewrite <- Hsz; exact Hr). assert (Hi1 : Z.of_nat (n + 1) * sh_width s <= Z.of_nat i * sh_width s) by nia. assert (Hi2 : Z.of_nat i * sh_width s <= Z.of_nat (sh_size s) * sh_width s) by (apply Z.mul_le_mono_nonneg_r; lia).
        replace (Z.of_nat (i - 1) * sh_width s) with (Z.of_nat i * sh_width s - sh_width s) in Hbr by (rewrite Nat2Z.inj_sub by lia; lia). replace (Z.of_nat (sh_size s - n)) with (Z.of_nat (sh_size s) - Z.of_nat n) by lia.
        rdec; [|lia]. unfold m. rewrite realloc_same by lia. rewrite <- Hbr by done. f_equal. lia.
  - exists s'. split; [done|]. cbn [sh_nullable] in Hs'. destruct Hs' as [-> Hs']. split; [done|]. unfold list_insert_at in *. rewrite map_app in Hs'. cbn [map] in Hs'. rewrite <- firstn_map, <- skipn_map in Hs'. 
    replace n with (length (take n (map (view (sh_nullable s)) raw))) in Hs' at 1 by (rewrite length_take, length_map; lia). rewrite <- (Nat.add_0_r (length _)) in Hs'. by rewrite insert_app_r in Hs'.
Qed.

Lemma short_holds_erase s n c : short_holds s c -> (n < length c)%nat ->
  exists s', Short.erase s n = Ok s' /\ sh_nullable s' = sh_nullable s /\ short_holds s' (list_erase_range n (S n) c).
Proof.
  intros (raw & Hok & ->) Hn. rewrite length_map in Hn. pose proof (so_size _ _ Hok) as Hsz. unfold Short.erase. rewrite (proj2 (Nat.ltb_lt n _)) by lia. cbn [negb]. eexists. split; [done|]. split; [done|].
  exists (list_erase_range n (S n) raw). cbn [sh_nullable]. split; [|unfold list_erase_range; by rewrite map_app, firstn_map, skipn_map].
  split; [cbn; unfold list_erase_range; rewrite length_app, length_take, length_drop; lia|]. cbn [sh_width sh_data]. destruct (so_width _ _ Hok) as [[Hw Hall]|[Hw Hb]]; [left|right]; split; try done; [by apply Forall_erase|].
  apply widths_range in Hw. set (w := sh_width s) in *. intros i v Hi. rewrite lookup_list_erase_range in Hi by lia. replace (i + (S n - n))%nat with (S i) in Hi by lia. destruct (Nat.ltb_spec i n) as [Hlt|Hge].
  - destruct (Hb i v Hi) as [Hbr Hs]. split; [|done]. eapply block_at_ext; [|exact Hbr]. intros x Hx. destruct (_ <? _)%nat; [|done]. unfold blit. assert (Z.of_nat i * w + w <= Z.of_nat n * w) by nia. rdec; [lia|done].
  - destruct (Hb (S i) v Hi) as [Hbr Hs]. split; [|done]. apply lookup_lt_Some in Hi. rewrite (proj2 (Nat.ltb_lt _ _)) by lia. intros k Hk. unfold blit. assert (Z.of_nat n * w <= Z.of_nat i * w) by nia. assert (Z.of_nat i * w + w + w <= Z.of_nat (sh_size s) * w) by nia.
    rdec; [|lia]. rewrite <- Hbr by done. f_equal. lia.
Qed.

Lemma short_holds_truncate s n c : short_holds s c -> (n <= length c)%nat ->
  exists s', Short.truncate s n = Ok s' /\ sh_nullable s' = sh_nullable s /\ short_holds s' (take n c).
Proof.
  intros (raw & Hok & ->) Hn. rewrite length_map in Hn. pose proof (so_size _ _ Hok) as Hsz. unfold Short.truncate. rewrite (proj2 (Nat.leb_le _ _)) by lia. cbn [negb]. destruct (Nat.eqb_spec n (sh_size s)) as [->|Hne].
  - eexists. split; [done|]. split; [done|]. exists raw. split; [done|]. rewrite take_ge; [done|]. rewrite length_map. lia.
  - eexists. split; [done|]. split; [done|]. exists (take n raw). cbn [sh_nullable]. split; [|by rewrite firstn_map]. split; [cbn; rewrite length_take; lia|]. cbn [sh_width sh_data]. destruct (Nat.eqb_spec n 0) as [->|Hn0].
    + left. by split; [|constructor].
    + destruct (so_width _ _ Hok) as [[Hw Hall]|[Hw Hb]]; [left; split; [done|by apply Forall_take]|right]. split; [done|]. intros i v Hi. apply lookup_take_Some in Hi as [Hi _]. by apply Hb.
Qed.

(** *** Searching *)

Lemma find_loop_first n p (P : nat -> Prop) b e : e = (b + n)%nat -> (forall i, (b <= i < e)%nat -> p i = true <-> P i) -> is_first P b e (Short.find_loop n p b).
Proof.
  intros ->. revert b. induction n as [|n IH]; intros b Hp; cbn [Short.find_loop]; [apply is_first_nil; lia|]. destruct (p b) eqn:E.
  - apply is_first_here; [lia|]. apply Hp; [lia|done].
  - apply is_first_next; [intros H; apply Hp in H; [congruence|lia]|]. replace (b + S n)%nat with (S b + n)%nat by lia. apply IH. intros i Hi. apply Hp. lia.
Qed.

Lemma vsize_view n v : vsize (view n v) = vsize v.
Proof. by destruct v, n. Qed.

Lemma default_null s v : Short.is_default s v = true -> view (sh_nullable s) v = view (sh_nullable s) None.
Proof. unfold Short.is_default, view. destruct (sh_nullable s), v as [[|]|]; done. Qed.

Lemma view_eq_size s v w : view (sh_nullable s) v = view (sh_nullable s) w -> vsize v = vsize w.
Proof. intros E. by rewrite <- (vsize_view (sh_nullable s) v), E, vsize_view. Qed.

(** The three tests that the loops make, on a block of a value. *)
Lemma test_default s i raw r v : short_ok s raw -> raw !! i = Some r -> Short.is_default s v = true ->
  (if sh_nullable s then Short.is_null s i else (bd_size (Short.get s i) =? 0)%nat) = true <-> view (sh_nullable s) r = view (sh_nullable s) v.
Proof.
  intros Hok Hr Hd. rewrite (default_null s v Hd). unfold Short.is_null. rewrite (short_get s raw i r Hok Hr). destruct (sh_nullable s), r as [[|x l]|]; cbn; by split.
Qed.

Lemma test_empty s i r v : block_at (sh_data s) (sh_width s) (Z.of_nat i * sh_width s) r -> vsize r < sh_width s <= 64 -> Short.is_default s v = false -> vsize v = 0 ->
  (Short.data_size s i =? 0) = true <-> view (sh_nullable s) r = view (sh_nullable s) v.
Proof.
  intros Hb Hs Hd Hv. rewrite (data_size_at s i r Hb Hs), Z.eqb_eq. unfold Short.is_default, vsize, bd_size in *. destruct (sh_nullable s); [|by destruct v as [[|]|]]. destruct v as [[|]|]; try done. destruct r as [[|x l]|]; cbn; by split.
Qed.

Lemma test_value s i r v : block_at (sh_data s) (sh_width s) (Z.of_nat i * sh_width s) r -> vsize r < sh_width s <= 64 -> 0 < vsize v < sh_width s ->
  bool_decide (slice (sh_data s) (Z.of_nat i * sh_width s) (vsize v) = bd_data v) && (Short.data_size s i =? vsize v) = true <-> view (sh_nullable s) r = view (sh_nullable s) v.
Proof.
  intros Hb Hs Hv. rewrite andb_true_iff, bool_decide_eq_true, (data_size_at s i r Hb Hs), Z.eqb_eq. split.
  - intros [E1 E2]. destruct r as [l|]; [|lia]. assert (Hl : vsize (Some l) = vsize v) by (by rewrite <- E2). rewrite (block_slice _ _ _ _ _ Hb), take_ge in E1 by (unfold vsize, bd_size in *; lia).
    destruct v as [k|]; [|unfold vsize, bd_size in Hv; cbn in Hv; lia]. cbn in E1. by subst k.
  - intros E. pose proof (view_eq_size s r v E) as Ev. destruct v as [k|]; [|unfold vsize, bd_size in Hv; cbn in Hv; lia]. destruct r as [l|]; [|unfold vsize, bd_size in Ev; cbn in Ev; unfold vsize, bd_size in Hv; cbn in Hv; lia].
    cbn in E. injection E as ->. split; [|done]. rewrite (block_slice _ _ _ _ _ Hb), take_ge by (unfold vsize, bd_size in *; cbn in *; lia). done.
Qed.

Lemma short_find_first s c v b e : short_holds s c -> (b <= e <= length c)%nat -> (b < e \/ e = length c)%nat ->
  exists r, Short.find_first s v b e = Ok r /\ is_first (fun i => c !! i = Some (view (sh_nullable s) v)) b e r.
Proof.
  intros (raw & Hok & ->) Hbe Hne. rewrite length_map in *. pose proof (so_size _ _ Hok) as Hsz. unfold Short.find_first. rewrite <- Hsz. rewrite !(proj2 (Nat.leb_le _ _)) by lia. cbn [negb andb].
  assert (Hraw : forall i, (b <= i < e)%nat -> exists r, raw !! i = Some r /\ map (view (sh_nullable s)) raw !! i = Some (view (sh_nullable s) r)).
  { intros i Hi. destruct (lookup_lt_is_Some_2 raw i) as [r Hr]; [lia|]. exists r. split; [done|]. by rewrite list_lookup_fmap, Hr. }
  assert (Hiff : forall p : nat -> bool, (forall i r, (b <= i < e)%nat -> raw !! i = Some r -> p i = true <-> view (sh_nullable s) r = view (sh_nullable s) v) ->
    exists r, Ok (Short.find_loop (e - b) p b) = Ok r /\ is_first (fun i => map (view (sh_nullable s)) raw !! i = Some (view (sh_nullable s) v)) b e r).
  { intros p Hp. eexists. split; [done|]. apply find_loop_first; [lia|]. intros i Hi. destruct (Hraw i Hi) as (r & Hr & ->). rewrite (Hp i r Hi Hr). split; congruence. }
  fold (vsize v). destruct (so_width _ _ Hok) as [[Hw Hall]|[Hw Hb]].
  - rewrite Hw. cbn [Z.eqb]. eexists. split; [done|]. assert (Hn : forall i, (b <= i < e)%nat -> map (view (sh_nullable s)) raw !! i = Some (view (sh_nullable s) None)).
    { intros i Hi. destruct (Hraw i Hi) as (r & Hr & ->). pose proof (Forall_lookup_1 _ _ _ _ Hall Hr) as E. cbn in E. by subst r. }
    destruct (Short.is_default s v) eqn:Ed; cbn [andb].
    + destruct (Nat.ltb_spec b (length raw)); [|apply is_first_nil; lia]. apply is_first_here; [lia|]. rewrite (default_null s v Ed). apply Hn. lia.
    + intros i Hi E. rewrite Hn in E by done. injection E as E. unfold Short.is_default, view in *. destruct (sh_nullable s), v as [[|]|]; done.
  - pose proof (widths_range _ Hw). rewrite (proj2 (Z.eqb_neq _ _)) by lia. destruct (Z.leb_spec (sh_width s) (vsize v)) as [Hle|Hlt].
    + eexists. split; [done|]. intros i Hi E. destruct (Hraw i Hi) as (r & Hr & E'). rewrite E' in E. injection E as E. apply view_eq_size in E. destruct (Hb i r Hr). lia.
    + destruct (Short.is_default s v) eqn:Ed; [apply Hiff; intros i r _ Hr; by apply (test_default s i raw)|].
      destruct (Z.eqb_spec (vsize v) 0) as [E0|E0]; apply Hiff; intros i r _ Hr; destruct (Hb i r Hr) as [Hbi Hsi]; [apply test_empty; [done|lia|done|done]|].
      apply test_value; [done|lia|]. pose proof (vsize_nonneg v). lia.
Qed.

(** ** Leaves of strings hold the list of their strings *)

(** ** Big blobs with a zero byte behind each string *)

Definition big_of (c : list StringData) : ArrayBigBlobs := map (fmap (fun l => One (l ++ [0]))) c.

Definition string_fits (v : StringData) : Prop := vsize v < max_binary_size.

Lemma new_blob_string l : string_fits (Some l) -> new_blob l true = Ok (One (l ++ [0])).
Proof.
  intros Hl. destruct (new_blob_spec l true) as (b & E & _ & Hb). unfold string_fits, vsize, bd_size in Hl. cbn in Hl. unfold zero_term in Hb. rewrite (proj2 (Z.ltb_ge _ _)) in Hb by (unfold zlen; lia). by rewrite E, Hb.
Qed.

Lemma big_of_app c d : big_of (c ++ d) = big_of c ++ big_of d.
Proof. apply map_app. Qed.

Lemma big_of_nth c i v : c !! i = Some v -> nth i (big_of c) None = (fun l => One (l ++ [0])) <$> v.
Proof. intros H. assert (E : big_of c !! i = Some ((fun l => One (l ++ [0])) <$> v)) by (apply list_lookup_fmap_Some; by exists v). rewrite nth_lookup. exact (f_equal (default None) E). Qed.

Lemma big_string_add c v : string_fits v -> Big.add (big_of c) v true = Ok (big_of (c ++ [v])).
Proof. intros Hv. unfold Big.add. rewrite big_of_app. destruct v as [l|]; [|done]. by rewrite new_blob_string. Qed.

Lemma big_string_insert c i v : string_fits v -> Big.insert (big_of c) i v true = Ok (big_of (list_insert_at i v c)).
Proof.
  intros Hv. unfold Big.insert, big_of, list_insert_at. rewrite map_app, <- firstn_map. cbn [map]. rewrite <- skipn_map. destruct v as [l|]; [|done]. by rewrite new_blob_string.
Qed.

Lemma big_string_set ro c i v : string_fits v -> Forall string_fits c -> (i < length c)%nat -> Big.set ro (big_of c) i v true = Ok (big_of (<[i := v]> c)).
Proof.
  intros Hv Hc Hi. destruct (lookup_lt_is_Some_2 c i Hi) as [w Hw]. pose proof (Forall_lookup_1 _ _ _ _ Hc Hw) as Hf. unfold Big.set. rewrite (big_of_nth c i w Hw).
  assert (E : forall b : option ArrayBlob, b = (fun l => One (l ++ [0])) <$> v -> <[i := b]> (big_of c) = big_of (<[i := v]> c)) by (intros b ->; unfold big_of; symmetry; apply list_fmap_insert).
  assert (Hst : forall (m : result ArrayBlob) l, v = Some l -> m = Ok (One (l ++ [0])) -> (blob ← m; Ok (<[i := Some blob]> (big_of c))) = Ok (big_of (<[i := v]> c))) by (intros m l -> ->; cbn; f_equal; by apply E).
  destruct w as [k|], v as [l|]; cbn [fmap option_fmap option_map].
  - destruct ro; apply (Hst _ l eq_refl); [by rewrite make_blob_new, new_blob_string|]. unfold string_fits, vsize, bd_size in Hv, Hf. cbn in Hv, Hf. pose proof (zlen_nonneg (k ++ [0])).
    rewrite blob_replace_one_small by (done || (rewrite ?zlen_app; unfold zlen, zero_term; cbn; lia)). by rewrite splice_all.
  - f_equal. by apply E.
  - apply (Hst _ l eq_refl). by rewrite make_blob_new, new_blob_string.
  - f_equal. unfold big_of. rewrite list_insert_id; [done|done].
Qed.

Lemma cut_zero_app l : cut_zero (Some (l ++ [0])) = Some l.
Proof. cbn. rewrite length_app, Nat.add_sub. by rewrite take_app_length. Qed.

Lemma big_string_get c i v : c !! i = Some v -> Strings.get_string_big (big_of c) i = v /\ Big.is_null (big_of c) i = bd_is_null v.
Proof.
  intros Hv. unfold Strings.get_string_big, Big.get, Big.is_null. rewrite (big_of_nth c i v Hv). destruct v as [l|]; [|done]. cbn [fmap option_fmap option_map]. by rewrite cut_zero_app.
Qed.

Lemma big_string_matches refs_bytes v w : Big.matches refs_bytes w true ((fun l => One (l ++ [0])) <$> v) = bool_decide (v = w).
Proof.
  destruct v as [l|], w as [k|]; cbn [fmap option_fmap option_map Big.matches]; try done. cbn [Big.top_size Big.top_bytes]. unfold zero_term. rewrite zlen_app. change (zlen [0]) with 1.
  destruct (Z.eqb_spec (zlen l + 1) (zlen k + 1)) as [E|E]; cbn [andb].
  - assert (El : length k = length l) by (unfold zlen in E; lia). rewrite El, take_app_length. apply bool_decide_ext. split; congruence.
  - symmetry. apply bool_decide_false. congruence.
Qed.

Lemma big_string_find refs_bytes (c : list StringData) (v : StringData) b e : (b <= e <= length c)%nat -> is_first (fun i => c !! i = Some v) b e (Big.find_first refs_bytes (big_of c) v true b e).
Proof.
  intros H. unfold Big.find_first. remember (e - b)%nat as n eqn:En. revert b H En. induction n as [|n IH]; intros b H En; cbn [Big.find_loop]; [apply is_first_nil; lia|].
  destruct (lookup_lt_is_Some_2 c b) as [w Hw]; [lia|]. rewrite (big_of_nth c b w Hw), big_string_matches. match goal with |- context [bool_decide ?P] => destruct (bool_decide_reflect P) as [->|Hne] end.
  - apply is_first_here; [lia|done].
  - apply is_first_next; [intros Hc; congruence|]. apply IH; lia.
Qed.

(** ** Small blobs with a zero byte behind each string *)

Definition medium_of (c : list StringData) : ArraySmallBlobs := small_of (map (st_of true) c).
Definition is_medium (v : StringData) : Prop := vsize v <= 63.

(** As many strings as fit in one node of bytes. *)
Definition max_strings : nat := Z.to_nat 262143.

Lemma medium_total c : Forall is_medium c -> total (map (st_of true) c) <= 64 * zlen c.
Proof. induction 1 as [|v c Hv _ IH]; [done|]. cbn [map]. rewrite total_cons, zlen_st_of, zlen_cons. unfold is_medium, vsize in Hv. unfold zero_term. lia. Qed.

Lemma medium_room c v : Forall is_medium c -> is_medium v -> (length c < max_strings)%nat -> total (map (st_of true) c) + zlen (st_of true v).1 <= max_binary_size.
Proof. intros Hc Hv Hl. pose proof (medium_total c Hc). rewrite zlen_st_of. unfold is_medium, vsize, zero_term, max_binary_size, zlen, max_strings in *. lia. Qed.

Lemma st_of_zero v : ends_zero (st_of true v).
Proof. by exists (bd_data v). Qed.

Lemma medium_lookup (c : list StringData) i v : c !! i = Some v -> map (st_of true) c !! i = Some (st_of true v).
Proof. apply st_of_lookup. Qed.

Lemma medium_add ro c v : Forall is_medium c -> is_medium v -> (length c < max_strings)%nat -> Small.add ro (medium_of c) v true = Ok (medium_of (c ++ [v])).
Proof. intros Hc Hv Hl. unfold medium_of. rewrite small_add by (by apply medium_room). by rewrite map_app. Qed.

Lemma medium_insert ro c i v : Forall is_medium c -> is_medium v -> (length c < max_strings)%nat -> (i <= length c)%nat -> Small.insert ro (medium_of c) i v true = Ok (medium_of (list_insert_at i v c)).
Proof.
  intros Hc Hv Hl Hi. unfold medium_of. rewrite small_insert by (rewrite ?length_map; by try apply medium_room). unfold list_insert_at. by rewrite map_app, firstn_map, skipn_map.
Qed.

Lemma medium_set ro c i v : Forall is_medium c -> is_medium v -> (length c <= max_strings)%nat -> (i < length c)%nat -> Small.set ro (medium_of c) i v true = Ok (medium_of (<[i := v]> c)).
Proof.
  intros Hc Hv Hl Hi. destruct (lookup_lt_is_Some_2 c i Hi) as [w Hw]. assert (Ei : <[i := st_of true v]> (map (st_of true) c) = map (st_of true) (<[i := v]> c)) by (symmetry; apply list_fmap_insert).
  unfold medium_of. rewrite (small_set _ _ _ (st_of true w)); [by rewrite Ei|by apply medium_lookup|intros _; apply st_of_zero|].
  pose proof (medium_total (<[i := v]> c) ltac:(by apply Forall_insert)) as Ht. rewrite <- Ei in Ht. apply medium_lookup in Hw. apply st_split in Hw as (d1 & d2 & E & ->). unfold zlen in Ht. rewrite length_insert in Ht.
  rewrite E, insert_mid in Ht. rewrite E. rewrite total_app, total_cons in Ht |- *. unfold max_binary_size, max_strings, zlen in *. lia.
Qed.

Lemma medium_erase ro c i : Forall is_medium c -> (length c <= max_strings)%nat -> (i < length c)%nat -> Small.erase ro (medium_of c) i = Ok (medium_of (list_erase_range i (S i) c)).
Proof.
  intros Hc Hl Hi. destruct (lookup_lt_is_Some_2 c i Hi) as [w Hw]. unfold medium_of. rewrite (small_erase _ _ _ (st_of true w)); [|by apply medium_lookup|pose proof (medium_total c Hc); unfold max_binary_size, max_strings, zlen in *; lia].
  unfold list_erase_range. by rewrite map_app, firstn_map, skipn_map.
Qed.

Lemma medium_truncate c n : (n < length c)%nat \/ n = O -> Small.truncate (medium_of c) n = Ok (medium_of (take n c)).
Proof. intros H. unfold medium_of. rewrite small_truncate by (by rewrite length_map). by rewrite firstn_map. Qed.

Lemma medium_get (c : list StringData) i v : c !! i = Some v -> Strings.get_string_small (medium_of c) i = v /\ Small.is_null (medium_of c) i = bd_is_null v.
Proof.
  intros Hv. apply medium_lookup in Hv. unfold Strings.get_string_small, medium_of. rewrite (small_get_at _ _ _ Hv), (small_is_null_at _ _ _ Hv). split; [|done]. destruct v as [l|]; [|done]. apply cut_zero_app.
Qed.

(** ** The leaf *)

Definition string_rep (a : ArrayString) (c : list StringData) : Prop :=
  match a with
  | SShort s => sh_nullable s = true /\ short_holds s c
  | SMedium s => s = medium_of c /\ Forall is_medium c
  | SBig s => s = big_of c /\ Forall string_fits c
  end.

Lemma map_view_true c : map (view true) c = c.
Proof. rewrite <- (map_id c) at 2. apply map_ext. by intros [|]. Qed.

Lemma short_sizes s c : sh_nullable s = true -> short_holds s c -> Forall is_medium c.
Proof.
  intros En (raw & [_ Hw] & ->). rewrite En, map_view_true. destruct Hw as [[_ Hall]|[Hw Hb]].
  - eapply Forall_impl; [|exact Hall]. by intros v <-.
  - apply widths_range in Hw. apply Forall_lookup_2. intros i v Hv. destruct (Hb i v Hv). unfold is_medium. lia.
Qed.

Lemma medium_fits v : is_medium v -> string_fits v.
Proof. unfold is_medium, string_fits, max_binary_size. lia. Qed.

Lemma string_rep_fits a c : string_rep a c -> Forall string_fits c.
Proof.
  destruct a as [s|s|s]; intros [H1 H2]; [|eapply Forall_impl; [|exact H2]; apply medium_fits|done]. eapply Forall_impl; [|exact (short_sizes s c H1 H2)]. apply medium_fits.
Qed.

Lemma string_size a c : string_rep a c -> Strings.size a = length c.
Proof.
  destruct a as [s|s|s]; intros [H1 H2]; cbn [Strings.size]; [by apply short_holds_size| |].
  - subst s. unfold medium_of. by rewrite small_size_of, length_map.
  - subst s. unfold big_of. by rewrite length_map.
Qed.

Lemma string_get a c i v : string_rep a c -> c !! i = Some v -> Strings.get a i = v /\ Strings.is_null a i = bd_is_null v.
Proof.
  destruct a as [s|s|s]; intros [H1 H2] Hv; cbn [Strings.get Strings.is_null].
  - unfold Short.is_null. by rewrite (short_holds_get s c i v H2 Hv).
  - subst s. by apply medium_get.
  - subst s. by apply big_string_get.
Qed.

Lemma string_get_all a c : string_rep a c -> Strings.get_all a = c.
Proof.
  intros Hr. unfold Strings.get_all. rewrite (string_size a c Hr). apply list_eq. intros i. rewrite list_lookup_fmap. destruct (c !! i) as [v|] eqn:Hv.
  - rewrite lookup_seq_lt by (by apply lookup_lt_Some in Hv). cbn. by rewrite (proj1 (string_get a c i v Hr Hv)).
  - apply lookup_ge_None in Hv. by rewrite lookup_seq_ge.
Qed.

(** *** Changing the representation *)

Lemma add_all_small_ok c d : Forall is_medium (c ++ d) -> (length (c ++ d) <= max_strings)%nat -> Strings.add_all_small (medium_of c) d = Ok (medium_of (c ++ d)).
Proof.
  revert c. induction d as [|v d IH]; intros c Hall Hl; cbn [Strings.add_all_small]; [by rewrite app_nil_r|]. unfold Strings.add_string_small. rewrite length_app in Hl. cbn [length] in Hl.
  apply Forall_app in Hall as [Hc Hvd]. inversion_clear Hvd as [|? ? Hv Hd]. rewrite medium_add by (done || lia). cbn [mbind result_bind]. rewrite IH; [by rewrite <- app_assoc| |rewrite !length_app; cbn; lia]. rewrite <- app_assoc. cbn [app]. apply Forall_app. split; [done|by constructor].
Qed.

Lemma add_all_big_ok c d : Forall string_fits d -> Strings.add_all_big (big_of c) d = Ok (big_of (c ++ d)).
Proof.
  revert c. induction d as [|v d IH]; intros c Hall; cbn [Strings.add_all_big]; [by rewrite app_nil_r|]. inversion_clear Hall as [|? ? Hv Hd]. unfold Strings.add_string_big. rewrite big_string_add by done. cbn [mbind result_bind]. rewrite IH by done. by rewrite <- app_assoc.
Qed.

(** After the upgrade the leaf holds the same strings and has room for one of this size. *)
Definition ready (a : ArrayString) (n : nat) : Prop :=
  match a with SShort _ => (n <= 15)%nat | SMedium _ => (n <= 63)%nat | SBig _ => True end.

Lemma upgrade_leaf_string a c n : string_rep a c -> (length c <= max_strings)%nat -> exists a', Strings.upgrade_leaf a n = Ok a' /\ string_rep a' c /\ ready a' n.
Proof.
  intros Hr Hl. pose proof (string_rep_fits a c Hr) as Hf. pose proof (string_get_all a c Hr) as Hg. unfold Strings.upgrade_leaf, Strings.small_string_max_size, Strings.medium_string_max_size. rewrite Hg.
  assert (Hbig : exists a', (b ← Strings.add_all_big [] c; Ok (SBig b)) = Ok a' /\ string_rep a' c /\ ready a' n) by (rewrite (add_all_big_ok [] c Hf : Strings.add_all_big [] c = _); by eexists).
  destruct a as [s|s|s]; [|destruct (Nat.leb_spec n 63); [by eexists|exact Hbig]|by eexists].
  destruct (Nat.leb_spec n 15); [by eexists|]. destruct (Nat.leb_spec n 63); [|exact Hbig]. destruct Hr as [H1 H2]. pose proof (short_sizes s c H1 H2) as Hm.
  rewrite (add_all_small_ok [] c Hm Hl : Strings.add_all_small (Small.create []) c = _). eexists. split; [done|]. split; [done|]. done.
Qed.

(** *** The operations *)

Definition gives (r : result ArrayString) (c : list StringData) : Prop := exists a, r = Ok a /\ string_rep a c.

Lemma short_gives (m : result ArrayStringShort) c : (exists s, m = Ok s /\ sh_nullable s = true /\ short_holds s c) -> gives (s ← m; Ok (SShort s)) c.
Proof. intros (s & -> & E & Hs). by eexists. Qed.

Lemma view_true v : view true v = v.
Proof. by destruct v. Qed.

Lemma short_gives_of s (m : result ArrayStringShort) c : sh_nullable s = true -> (exists s', m = Ok s' /\ sh_nullable s' = sh_nullable s /\ short_holds s' c) -> gives (s ← m; Ok (SShort s)) c.
Proof. intros En Hm. apply short_gives. by rewrite En in Hm. Qed.

Lemma medium_gives (m : result ArraySmallBlobs) c : m = Ok (medium_of c) -> Forall is_medium c -> gives (s ← m; Ok (SMedium s)) c.
Proof. intros -> Hc. by eexists. Qed.

Lemma big_gives (m : result ArrayBigBlobs) c : m = Ok (big_of c) -> Forall string_fits c -> gives (s ← m; Ok (SBig s)) c.
Proof. intros -> Hc. by eexists. Qed.

Lemma insert_at_end {A} (x : A) l : list_insert_at (length l) x l = l ++ [x].
Proof. unfold list_insert_at. by rewrite firstn_all, skipn_all. Qed.

Lemma ready_medium (v : StringData) : (bd_size v <= 63)%nat -> is_medium v.
Proof. unfold is_medium, vsize. lia. Qed.

Lemma string_add ro junk junk' a c v : string_rep a c -> string_fits v -> (length c < max_strings)%nat -> gives (Strings.add ro junk junk' a v) (c ++ [v]).
Proof.
  intros Hr Hv Hl. pose proof (string_rep_fits a c Hr) as Hf. destruct (upgrade_leaf_string a c (bd_size v) Hr) as (a' & E & Hr' & Hrd); [lia|]. unfold Strings.add. rewrite E. cbn [mbind result_bind]. destruct a' as [s|s|s]; destruct Hr' as [H1 H2]; cbn [ready] in Hrd.
  - apply (short_gives_of s); [done|]. assert (Ea : Short.add junk junk' s v = Short.insert junk junk' s (length c) v) by (unfold Short.add; rewrite H1; cbn [negb andb]; by rewrite (short_holds_size s c H2)). rewrite Ea, <- insert_at_end.
    destruct (short_holds_insert junk junk' s (length c) v c) as (s' & Hs'); [done|done|unfold vsize; lia|]. exists s'. by rewrite H1, view_true in Hs'; rewrite H1.
  - subst s. apply medium_gives; [by apply medium_add; [|apply ready_medium|]|]. apply Forall_app. split; [done|]. constructor; [by apply ready_medium|done].
  - subst s. apply big_gives; [by apply big_string_add|]. apply Forall_app. split; [done|by constructor].
Qed.

Lemma string_insert ro junk junk' a c i v : string_rep a c -> string_fits v -> (i <= length c)%nat -> (length c < max_strings)%nat -> gives (Strings.insert ro junk junk' a i v) (list_insert_at i v c).
Proof.
  intros Hr Hv Hi Hl. pose proof (string_rep_fits a c Hr) as Hf. destruct (upgrade_leaf_string a c (bd_size v) Hr) as (a' & E & Hr' & Hrd); [lia|]. unfold Strings.insert. rewrite E. cbn [mbind result_bind]. destruct a' as [s|s|s]; destruct Hr' as [H1 H2]; cbn [ready] in Hrd.
  - apply (short_gives_of s); [done|]. destruct (short_holds_insert junk junk' s i v c) as (s' & Hs'); [done|done|unfold vsize; lia|]. exists s'. by rewrite H1, view_true in Hs'; rewrite H1.
  - subst s. apply medium_gives; [by apply medium_insert; [|apply ready_medium| |]|]. apply Forall_insert_at; [by apply ready_medium|done].
  - subst s. apply big_gives; [by apply big_string_insert|]. by apply Forall_insert_at.
Qed.

Lemma string_set ro junk a c i v : string_rep a c -> string_fits v -> (i < length c)%nat -> (length c <= max_strings)%nat -> gives (Strings.set ro junk a i v) (<[i := v]> c).
Proof.
  intros Hr Hv Hi Hl. pose proof (string_rep_fits a c Hr) as Hf. destruct (upgrade_leaf_string a c (bd_size v) Hr) as (a' & E & Hr' & Hrd); [lia|]. unfold Strings.set. rewrite E. cbn [mbind result_bind]. destruct a' as [s|s|s]; destruct Hr' as [H1 H2]; cbn [ready] in Hrd.
  - apply (short_gives_of s); [done|]. destruct (short_holds_set ro junk s i v c) as (s' & Hs'); [done|done|unfold vsize; lia|]. exists s'. by rewrite H1, view_true in Hs'; rewrite H1.
  - subst s. apply medium_gives; [by apply medium_set; [|apply ready_medium| |]|]. apply Forall_insert; [done|by apply ready_medium].
  - subst s. apply big_gives; [by apply big_string_set|]. by apply Forall_insert.
Qed.

Lemma string_erase ro a c i : string_rep a c -> (i < length c)%nat -> (length c <= max_strings)%nat -> gives (Strings.erase ro a i) (list_erase_range i (S i) c).
Proof.
  intros Hr Hi Hl. destruct a as [s|s|s]; destruct Hr as [H1 H2]; cbn [Strings.erase].
  - apply (short_gives_of s); [done|]. by apply short_holds_erase.
  - subst s. apply medium_gives; [by apply medium_erase|]. by apply Forall_erase.
  - subst s. eexists. split; [done|]. split; [|by apply Forall_erase]. unfold Big.erase, big_of, list_erase_range. by rewrite map_app, firstn_map, skipn_map.
Qed.

Lemma string_truncate a c n : string_rep a c -> (n < length c)%nat \/ n = O -> gives (Strings.truncate a n) (take n c).
Proof.
  intros Hr Hn. destruct a as [s|s|s]; destruct Hr as [H1 H2]; cbn [Strings.truncate].
  - apply (short_gives_of s); [done|]. apply short_holds_truncate; [done|lia].
  - subst s. apply medium_gives; [by apply medium_truncate|]. by apply Forall_take.
  - subst s. eexists. split; [done|]. split; [|by apply Forall_take]. unfold Big.truncate, big_of. by rewrite firstn_map.
Qed.

Lemma string_clear a c : string_rep a c -> gives (Strings.clear a) [].
Proof.
  intros Hr. destruct a as [s|s|s]; destruct Hr as [H1 H2]; cbn [Strings.clear].
  - apply (short_gives_of s); [done|]. destruct (short_holds_truncate s 0 c H2) as (s' & E & Hs'); [lia|]. by exists s'.
  - by eexists.
  - by eexists.
Qed.

Lemma string_add_values ro junk a c vs : string_rep a c -> Forall string_fits vs -> (length c + length vs <= max_strings)%nat -> gives (Strings.add_values ro junk a vs) (c ++ vs).
Proof.
  revert a c. induction vs as [|v vs IH]; intros a c Hr Hf Hl; cbn [Strings.add_values]; [exists a; by rewrite app_nil_r|]. inversion_clear Hf as [|? ? Hv Hvs]. cbn [length] in Hl.
  destruct (string_add ro (junk (2 * length vs)%nat) (junk (2 * length vs + 1)%nat) a c v Hr Hv) as (a' & -> & Hr'); [lia|]. cbn [mbind result_bind]. rewrite (cons_middle v), app_assoc. apply IH; [done|done|rewrite length_app; cbn; lia].
Qed.

Lemma string_find_first refs_bytes a c v b e : string_rep a c -> (b <= e <= length c)%nat -> (b < e \/ e = length c)%nat ->
  exists r, Strings.find_first refs_bytes a v b e = Ok r /\ is_first (fun i => c !! i = Some v) b e r.
Proof.
  intros Hr Hbe Hne. destruct a as [s|s|s]; destruct Hr as [H1 H2]; cbn [Strings.find_first].
  - destruct (short_find_first s c v b e H2 Hbe Hne) as (r & E & Hf). exists r. split; [done|]. rewrite H1 in Hf. by destruct v.
  - subst s. eexists. split; [done|]. by apply small_find_first.
  - subst s. eexists. split; [done|]. by apply big_string_find.
Qed.
