(* ===== verification/ArrayStringTheorems.v ===== *)
(** * Theorems on leaves of strings

    Any sequence of operations acts on a leaf as on a list of strings, whichever memory the
    allocator hands out; the binary search finds the place of a string; strings that do not
    fit in one node with their terminator read as null; a search of an empty range of a
    leaf of nulls leaves the range. *)

From S2P Require Import Prelude Bytes Blobs SmallBlobs BigBlobs StringShort StringData ArrayString BlobsInv ArrayStringInv StringDataTheorems.

(** ** Sequences of operations *)

Inductive string_op :=
| SAdd (v : StringData) | SSet (ndx : nat) (v : StringData) | SInsert (ndx : nat) (v : StringData) | SErase (ndx : nat) | STruncate (ndx : nat) | SClear.

(** The surroundings of a call: whether the node is read-only, and what fresh memory holds. *)
Record call := mkCall { c_ro : bool; c_junk : bytes; c_junk' : bytes }.

Definition string_step (k : call) (o : string_op) (a : ArrayString) : result ArrayString :=
  match o with
  | SAdd v => Strings.add (c_ro k) (c_junk k) (c_junk' k) a v
  | SSet i v => Strings.set (c_ro k) (c_junk k) a i v
  | SInsert i v => Strings.insert (c_ro k) (c_junk k) (c_junk' k) a i v
  | SErase i => Strings.erase (c_ro k) a i
  | STruncate n => Strings.truncate a n
  | SClear => Strings.clear a
  end.

Fixpoint string_run (ops : list (call * string_op)) (a : ArrayString) : result ArrayString :=
  match ops with [] => Ok a | (k, o) :: ops => a ← string_step k o a; string_run ops a end.

Definition strings_op (o : string_op) (c : list StringData) : list StringData :=
  match o with
  | SAdd v => c ++ [v]
  | SSet i v => <[i := v]> c
  | SInsert i v => list_insert_at i v c
  | SErase i => list_erase_range i (S i) c
  | STruncate n => take n c
  | SClear => []
  end.

Definition strings_run (ops : list (call * string_op)) (c : list StringData) : list StringData := foldl (fun c o => strings_op o.2 c) c ops.

(** Indices are in range and strings shorter than one node. *)
Definition string_op_fits (o : string_op) (c : list StringData) : Prop :=
  match o with
  | SAdd v => string_fits v /\ (length c < max_strings)%nat
  | SSet i v => string_fits v /\ (i < length c <= max_strings)%nat
  | SInsert i v => string_fits v /\ (i <= length c < max_strings)%nat
  | SErase i => (i < length c <= max_strings)%nat
  | STruncate n => (n < length c)%nat \/ n = O
  | SClear => True
  end.

Fixpoint string_ops_fit (ops : list (call * string_op)) (c : list StringData) : Prop :=
  match ops with [] => True | (_, o) :: ops => string_op_fits o c /\ string_ops_fit ops (strings_op o c) end.

Lemma string_step_ok k o a c : string_rep a c -> string_op_fits o c -> gives (string_step k o a) (strings_op o c).
Proof.
  intros Hr Hf. destruct o; cbn [string_step strings_op string_op_fits] in *.
  - apply string_add; tauto.
  - apply string_set; tauto.
  - apply string_insert; tauto.
  - apply string_erase; tauto.
  - by apply string_truncate.
  - by apply (string_clear a c).
Qed.

Lemma string_run_ok ops a c : string_rep a c -> string_ops_fit ops c -> gives (string_run ops a) (strings_run ops c).
Proof.
  revert a c. induction ops as [|[k o] ops IH]; intros a c Hr Hf; cbn [string_run string_ops_fit] in *; [by exists a|]. destruct Hf as [Ho Hops]. destruct (string_step_ok k o a c Hr Ho) as (a' & -> & Hr'). by apply IH.
Qed.

(** What the readers of a leaf see. *)
Definition string_reads (refs_bytes : list (list Z) -> list Z) (a : ArrayString) (c : list StringData) : Prop :=
  Strings.size a = length c /\
  (forall i v, c !! i = Some v -> Strings.get a i = v /\ Strings.is_null a i = bd_is_null v) /\
  (forall v b e, (b < e <= length c)%nat -> exists r, Strings.find_first refs_bytes a v b e = Ok r /\ is_first (fun i => c !! i = Some v) b e r).

Lemma string_rep_reads refs_bytes a c : string_rep a c -> string_reads refs_bytes a c.
Proof.
  intros Hr. split_and!; [by apply string_size|intros i v; by apply string_get|]. intros v b e Hbe. apply string_find_first; [done|lia|lia].
Qed.

Lemma string_create m : string_rep (Strings.create m) [].
Proof. split; [done|]. exists []. split; [|done]. split; [done|]. left. by split. Qed.


(** ** Binary search *)

(** The place before which everything is less than the value, and nothing behind it is. *)
Definition is_lower_bound (c : list StringData) (v : StringData) (r : nat) : Prop :=
  (r <= length c)%nat /\ forall i w, c !! i = Some w -> sd_less w v = true <-> (i < r)%nat.

Definition sorted (c : list StringData) : Prop := forall i j v w, (i < j)%nat -> c !! i = Some v -> c !! j = Some w -> sd_less w v = false.

Lemma sorted_less c i j v w x : sorted c -> (i <= j)%nat -> c !! i = Some v -> c !! j = Some w -> sd_less w x = true -> sd_less v x = true.
Proof.
  intros Hs Hij Hv Hw Hx. destruct (decide (i = j)) as [->|Hne]; [congruence|]. assert (Hvw := Hs i j v w ltac:(lia) Hv Hw). destruct (sd_less v w) eqn:E; [by eapply sd_less_trans|]. by rewrite (sd_less_total v w E Hvw).
Qed.

Lemma lower_bound_loop fuel get c v i sz : sorted c -> (forall k w, c !! k = Some w -> get k = w) -> (i + sz <= length c)%nat -> (sz < fuel)%nat ->
  (forall k w, c !! k = Some w -> (k < i)%nat -> sd_less w v = true) -> (forall k w, c !! k = Some w -> (i + sz <= k)%nat -> sd_less w v = false) ->
  exists r, Strings.lower_bound_string fuel get v i sz = Some r /\ is_lower_bound c v r.
Proof.
  intros Hs Hg. revert i sz. induction fuel as [|fuel IH]; intros i sz Hsz Hf Hlo Hhi; [lia|]. cbn [Strings.lower_bound_string]. destruct (Nat.ltb_spec 0 sz) as [Hpos|Hz].
  - assert (Hh : (sz / 2 < sz)%nat) by (apply Nat.div_lt; lia). destruct (lookup_lt_is_Some_2 c (i + sz / 2)%nat) as [w Hw]; [lia|]. rewrite (Hg _ _ Hw). destruct (sd_less w v) eqn:E; apply IH; try lia.
    + intros k u Hu Hk. apply (sorted_less c k (i + sz / 2)%nat u w v); try done. lia.
    + intros k u Hu Hk. apply (Hhi k); [done|lia].
    + done.
    + intros k u Hu Hk. apply not_true_is_false. intros Hx. assert (Hc : sd_less w v = true) by (apply (sorted_less c (i + sz / 2)%nat k w u v); done). congruence.
  - exists i. split; [done|]. split; [lia|]. intros k w Hw. split; [|by apply Hlo]. intros Hx. destruct (decide (k < i)%nat); [done|]. rewrite (Hhi k w Hw) in Hx by lia. done.
Qed.

(** The binary search in a sorted leaf returns the place before which exactly the
    smaller strings are, in each representation. *)
Theorem string_lower_bound_correct (a : ArrayString) (c : list StringData) (v : StringData) :
  string_rep a c -> sorted c -> exists r, Strings.lower_bound a v = Some r /\ is_lower_bound c v r.
Proof.
  intros Hr Hs. unfold Strings.lower_bound. rewrite (string_size a c Hr). apply lower_bound_loop; try done; try lia.
  - intros k w Hw. by apply (string_get a c).
  - intros k w Hw Hk. apply lookup_lt_Some in Hw. destruct (Nat.lt_irrefl k). exact (Nat.lt_le_trans _ _ _ Hw Hk).
Qed.

(** ** Strings that do not fit in one node *)

Lemma new_blob_long l : max_binary_size <= zlen l -> exists nodes, new_blob l true = Ok (Split nodes) /\ concat nodes = l.
Proof.
  intros Hl. destruct (new_blob_spec l true) as (b & E & _ & Hb). unfold zero_term in Hb. rewrite (proj2 (Z.ltb_lt _ _)) in Hb by lia. destruct Hb as [[nodes ->] Hb]. by exists nodes.
Qed.

(** A string of 16,777,200 bytes or more can be added to a leaf and is stored in
    full, but [get] returns null for it although [is_null] denies it, and moving it to
    another leaf stores a null there. *)
Theorem long_string_lost (m m' : bytes) (junk : nat -> bytes) (k : call) (l : list Z) :
  max_binary_size <= zlen l ->
  exists nodes a dst, string_step k (SAdd (Some l)) (Strings.create m) = Ok (SBig [Some (Split nodes)]) /\ concat nodes = l /\
    Strings.is_null (SBig [Some (Split nodes)]) 0 = false /\ Strings.get (SBig [Some (Split nodes)]) 0 = None /\
    Strings.move (c_ro k) junk (SBig [Some (Split nodes)]) (Strings.create m') 0 = Ok (a, dst) /\ Strings.size dst = 1%nat /\ Strings.is_null dst 0 = true.
Proof.
  intros Hl. destruct (new_blob_long l Hl) as (nodes & E & Hc). exists nodes.
  destruct (string_add (c_ro k) (junk 0%nat) (junk 1%nat) (Strings.create m') [] None (string_create m')) as (dst & Ed & Hr); [done|unfold max_strings; cbn [length]; lia|]. exists (SBig []), dst.
  split_and!; [|done|done|done| |by apply (string_size dst [None])|by apply (string_get dst [None] 0 None)].
  - cbn [string_step]. unfold Strings.add, Strings.upgrade_leaf, Strings.create. assert (Hsz : (63 < bd_size (Some l))%nat) by (unfold bd_size; cbn; unfold zlen, max_binary_size in Hl; lia). unfold Strings.small_string_max_size, Strings.medium_string_max_size.
    rewrite !(proj2 (Nat.leb_gt _ _)) by lia. cbn [Strings.get_all Strings.size Short.create sh_size seq map Strings.add_all_big mbind result_bind]. unfold Strings.add_string_big. cbn [Big.add]. by rewrite E.
  - unfold Strings.move. cbn [Strings.get_all Strings.size length seq map Strings.get drop Strings.add_values]. change (Strings.get_string_big [Some (Split nodes)] 0) with (None : StringData). change (2 * 0)%nat with 0%nat. change (0 + 1)%nat with 1%nat. by rewrite Ed.
Qed.

(** ** Searches of an empty range *)

(** In a leaf of short strings that are all null, the search for null in an empty
    range before the end returns the place behind the range, and counting the nulls of a
    part of the leaf goes on behind that part, where the assertion of the search fails. *)
Theorem null_search_leaves_range (m : bytes) (n b e fuel : nat) : (b < e < n)%nat -> (e - b + 2 <= fuel)%nat ->
  let s := mkShort true n 0 m in
  short_holds s (repeat None n) /\ Short.find_first s None e e = Ok (Some e) /\ Short.count fuel s None b e = Throw AssertionFailed.
Proof.
  intros Hbe Hfuel s. assert (Hfind : forall i, (i <= e)%nat -> Short.find_first s None i e = Ok (Some i)).
  { intros i Hi. unfold Short.find_first. cbn [s sh_size sh_width]. rewrite !(proj2 (Nat.leb_le _ _)) by lia. cbn [negb andb Z.eqb Short.is_default sh_nullable bd_is_null]. by rewrite (proj2 (Nat.ltb_lt _ _)) by lia. }
  split_and!; [|by apply Hfind|].
  - exists (repeat None n). split; [split; [apply repeat_length|left; split; [done|]]|by rewrite map_view_true]. apply List.Forall_forall. intros x Hx. apply repeat_spec in Hx. done.
  - assert (Hb : (b <= S e /\ S e - b + 1 <= fuel)%nat) by lia. clear Hbe Hfuel. revert b Hb. induction fuel as [|fuel IH]; intros b Hb; [lia|]. cbn [Short.count]. destruct (decide (b = S e)) as [->|Hne].
    + unfold Short.find_first. by rewrite (proj2 (Nat.leb_gt (S e) e)), andb_false_r by lia.
    + rewrite Hfind by lia. cbn [mbind result_bind]. by rewrite IH by lia.
Qed.

(** ** Witnesses *)

Definition quiet (ro : bool) : call := mkCall ro (fun _ => 7) (fun _ => 9).

Definition hello : list Z := [104; 101; 108; 108; 111].


Lemma string_lower_bound_correct_witness : exists r, Strings.lower_bound (SBig (big_of [None; Some hello; Some (repeat 120 70%nat)])) (Some [105]) = Some r /\ is_lower_bound [None; Some hello; Some (repeat 120 70%nat)] (Some [105]) r.
Proof.
  apply (string_lower_bound_correct (SBig (big_of [None; Some hello; Some (repeat 120 70%nat)])) [None; Some hello; Some (repeat 120 70%nat)] (Some [105])).
  - cbn [string_rep]. split; [done|]. repeat constructor.
  - intros [|[|[|i]]] [|[|[|j]]] v w Hij Hv Hw; try lia; try discriminate; injection Hv as <-; injection Hw as <-; reflexivity.
Defined.

Lemma long_string_lost_witness : exists nodes a dst,
    string_step (quiet false) (SAdd (Some (large 16777200))) (Strings.create (fun _ => 0)) = Ok (SBig [Some (Split nodes)]) /\ concat nodes = large 16777200 /\
    Strings.is_null (SBig [Some (Split nodes)]) 0 = false /\ Strings.get (SBig [Some (Split nodes)]) 0 = None /\
    Strings.move (c_ro (quiet false)) (fun _ _ => 3) (SBig [Some (Split nodes)]) (Strings.create (fun _ => 1)) 0 = Ok (a, dst) /\ Strings.size dst = 1%nat /\ Strings.is_null dst 0 = true.
Proof.
  apply (long_string_lost (fun _ => 0) (fun _ => 1) (fun _ _ => 3) (quiet false) (large 16777200)). rewrite zlen_large; [discriminate|lia].
Defined.

Lemma null_search_leaves_range_witness : Short.find_first (mkShort true 3 0 (fun _ => 0)) None 2 2 = Ok (Some 2%nat) /\ Short.count 4 (mkShort true 3 0 (fun _ => 0)) None 1 2 = Throw AssertionFailed.
Proof. apply (null_search_leaves_range (fun _ => 0) 3 1 2 4); lia. Defined.
