(* ===== verification/BPlusTree.v ===== *)
(** * The B+-tree

    Models [bplustree.cpp] and [bplustree.hpp]: the node classes
    [BPlusTreeLeaf] and [BPlusTreeInner], [BPlusTreeBase] and [BPlusTree<T>].

    A child ref is owned by exactly one parent, so a node holds its children
    themselves. A leaf is the list of its elements. An inner node is its
    array's first slot (the tagged number of elements per child in compact
    form, or the offsets array in general form), its children, and the last
    slot, the tree size. [m_offsets], an [ArrayUnsigned], is the list of the
    numbers it holds. Sizes and indices are [nat]; [npos] is [None].

    The leaf cache is threaded through every operation: the two bounds with
    their 64-bit arithmetic, and the contents of the leaf [m_leaf_cache] is
    attached to. A leaf that is the child of an inner node is always reached
    through the cache, so a change made to it is a change of the cached leaf;
    a root leaf is a separate accessor.

    [MAX] is [LLBT_MAX_BPNODE_SIZE], a build option whose default is 1000. *)

From S2P Require Import Prelude.

Local Open Scope nat_scope.

(** ** Data *)

(** Slot 0 of an inner node. *)
Inductive Slot :=
| Compact (elems_per_child : nat)
| Offsets (offs : list nat).

#[warnings="-register-all"] Inductive node {A : Type} :=
| Leaf (xs : list A)
| Inner (slot0 : Slot) (children : list node) (tree_size : nat).
Arguments node : clear implicits.

(** [BPlusTreeNode::State]; the two split fields are outputs. *)
Record State {A : Type} := mkState {
  split_offset : nat;
  split_size : nat;
  insert_count : nat;
  append_leaf : option (list A)
}.
Arguments State : clear implicits.
Arguments mkState {A}.

Record Cache {A : Type} := mkCache {
  m_cached_leaf_begin : Z;
  m_cached_leaf_end : Z;
  m_leaf_cache : list A
}.
Arguments Cache : clear implicits.
Arguments mkCache {A}.

Inductive IteratorControl := AdvanceToNext | Stop.

(** The [i]-th element handed to a continuation; a ref out of range is not a
    valid access. *)
Fixpoint on_nth {B C : Type} (f : B -> C) (d : C) (l : list B) (i : nat) : C :=
  match l, i with
  | x :: _, O => f x
  | _ :: l, S i => on_nth f d l i
  | [], _ => d
  end.

(** ** The offsets array *)

(** [ArrayUnsigned::upper_bound]. *)
Definition offs_upper_bound (offs : list nat) (value : nat) : nat :=
  bsearch (length offs) (fun i => negb (value <? nth i offs 0)) 0 (length offs).

(** [ArrayUnsigned::adjust]. *)
Definition offs_adjust (offs : list nat) (b e : nat) (diff : Z) : list nat :=
  take b offs ++
  map (fun v => Z.to_nat (Z.of_nat v + diff)) (take (e - b) (drop b offs)) ++
  drop (b `max` e) offs.

Definition get_bp_node_offset (offs : list nat) (child_ndx : nat) : nat :=
  match child_ndx with O => 0 | S i => nth i offs 0 end.

(** [m_offsets]; it is detached in compact form. *)
Definition m_offsets (s : Slot) : list nat :=
  match s with Offsets o => o | Compact _ => [] end.

Fixpoint offsets_loop (num_offsets offs elems_per_child : nat) : list nat :=
  match num_offsets with
  | O => []
  | S k => (offs + elems_per_child) :: offsets_loop k (offs + elems_per_child) elems_per_child
  end.

Definition ensure_offsets (s : Slot) (num_children : nat) : Slot :=
  match s with
  | Offsets o => Offsets o
  | Compact elems_per_child => Offsets (offsets_loop (num_children - 1) 0 elems_per_child)
  end.

(** An inner node being assembled: its first slot and its child refs. *)
Definition add_bp_node_ref {B} (n : Slot * list B) (ref : B) (offset : nat) : Slot * list B :=
  (match n.1 with
   | Offsets o => if offset =? 0 then Offsets o else Offsets (o ++ [offset])
   | Compact e => Compact e
   end, n.2 ++ [ref]).

Section Tree.
Context {A : Type} (MAX : nat).

Definition is_leaf (t : node A) : bool := match t with Leaf _ => true | Inner _ _ _ => false end.

Definition is_compact (t : node A) : bool :=
  match t with Leaf _ | Inner (Compact _) _ _ => true | Inner (Offsets _) _ _ => false end.

Definition get_node_size (t : node A) : nat :=
  match t with Leaf xs => length xs | Inner _ cs _ => length cs end.

Definition get_tree_size (t : node A) : nat :=
  match t with Leaf xs => length xs | Inner _ _ ts => ts end.

(** ** The leaf cache *)

Definition set_leaf_bounds (c : Cache A) (b e : Z) : Cache A := mkCache b e (m_leaf_cache c).

Definition invalidate_leaf_cache (c : Cache A) : Cache A := set_leaf_bounds c npos npos.

Definition adjust_leaf_bounds (c : Cache A) (incr : Z) : Cache A :=
  set_leaf_bounds c (m_cached_leaf_begin c) (u64 (m_cached_leaf_end c + incr)).

Definition write_leaf (c : Cache A) (xs : list A) : Cache A :=
  mkCache (m_cached_leaf_begin c) (m_cached_leaf_end c) xs.

(** [BPlusTreeInner::cache_leaf]. *)
Definition cache_leaf (xs : list A) (offset : nat) : Cache A :=
  mkCache (Z.of_nat offset) (Z.of_nat (offset + length xs)) xs.

(** Around an access to a child: a leaf is attached to the cache first, and
    what the access leaves in it is what the cache then holds. *)
Definition enter_child (c : Cache A) (child : node A) (offset : nat) : Cache A :=
  match child with Leaf xs => cache_leaf xs offset | Inner _ _ _ => c end.

Definition leave_child (c : Cache A) (child : node A) : Cache A :=
  match child with Leaf xs => write_leaf c xs | Inner _ _ _ => c end.

(** ** Descending *)

(** The child that holds element [n], and the index of its first element. *)
Definition find_child (s : Slot) (n : nat) : nat * nat :=
  match s with
  | Offsets o => let child_ndx := offs_upper_bound o n in (child_ndx, get_bp_node_offset o child_ndx)
  | Compact elems_per_child =>
      let child_ndx := n / elems_per_child in (child_ndx, child_ndx * elems_per_child)
  end.

Definition last_child (s : Slot) (num_children : nat) : nat * nat :=
  let child_ndx := num_children - 1 in
  (child_ndx,
   match s with
   | Offsets o => get_bp_node_offset o child_ndx
   | Compact elems_per_child => child_ndx * elems_per_child
   end).

Fixpoint bptree_access {R : Type} (my_offset : nat) (t : node A) (n : nat)
    (func : list A -> nat -> list A * R) (c : Cache A) : result (node A * R * Cache A) :=
  match t with
  | Leaf xs => let '(xs', r) := func xs n in Ok (Leaf xs', r, c)
  | Inner s cs ts =>
      let '(child_ndx, child_offset) := find_child s n in
      on_nth (fun child =>
        '(child', r, c) ← bptree_access (child_offset + my_offset) child (n - child_offset) func
                            (enter_child c child (child_offset + my_offset));
        Ok (Inner s (<[child_ndx := child']> cs) ts, r, leave_child c child'))
        (Throw OutOfRange) cs child_ndx
  end.

(** ** Inserting *)

(** [BPlusTreeLeaf::bptree_insert]. The leaf's changes go to the leaf itself;
    the cache carries the bounds. *)
Definition leaf_insert (xs : list A) (ndx : option nat) (st : State A)
    (func : list A -> nat -> list A) (c : Cache A) : result (node A * option (node A) * State A * Cache A) :=
  let leaf_size := length xs in
  let ndx := match ndx with Some n => n `min` leaf_size | None => leaf_size end in
  match append_leaf st with
  | Some leaf =>
      if negb (ndx =? leaf_size) then Throw AssertionFailed else
      Ok (Leaf xs, Some (Leaf leaf),
          mkState leaf_size (leaf_size + insert_count st) (insert_count st) (append_leaf st), c)
  | None =>
      if leaf_size <? MAX then
        let xs' := func xs ndx in
        if negb (length xs' =? leaf_size + insert_count st) then Throw AssertionFailed else
        if negb (length xs' <=? MAX) then Throw AssertionFailed else
        Ok (Leaf xs', None, st, adjust_leaf_bounds c (Z.of_nat (insert_count st)))
      else
      if negb (insert_count st =? 1) then Throw AssertionFailed else
      if ndx =? leaf_size then
        Ok (Leaf xs, Some (Leaf (func [] 0)),
            mkState ndx (leaf_size + 1) (insert_count st) (append_leaf st), c)
      else
        (* the leaf keeps its first [ndx] elements and the new one *)
        let new_leaf := drop ndx xs in
        Ok (Leaf (func (take ndx xs) ndx), Some (Leaf new_leaf),
            mkState (ndx + 1) (leaf_size + 1) (insert_count st) (append_leaf st),
            invalidate_leaf_cache c)
  end.

(** [BPlusTreeInner::move]: the children from [ndx] on go to [dst], with their
    offsets less [adj]. *)
Fixpoint inner_move_loop {B} (offs : list nat) (i : nat) (refs : list B) (adj : Z)
    (dst : Slot * list B) : Slot * list B :=
  match refs with
  | [] => dst
  | ref :: refs =>
      let offs_i := get_bp_node_offset offs i in
      inner_move_loop offs (S i) refs adj
        (add_bp_node_ref dst ref (Z.to_nat (Z.of_nat offs_i - adj)))
  end.

Definition inner_move {B} (src dst : Slot * list B) (ndx : nat) (adj : Z) :
    (Slot * list B) * (Slot * list B) :=
  let dst := inner_move_loop (m_offsets src.1) ndx (drop ndx src.2) adj dst in
  ((match src.1 with
    | Offsets o => if 0 <? ndx then Offsets (take (ndx - 1) o) else Offsets o
    | Compact e => Compact e
    end, take ndx src.2), dst).

(** [BPlusTreeInner::insert_bp_node] on the node whose child [child_ndx] was
    split. *)
Definition insert_bp_node (s : Slot) (cs : list (node A)) (ts : nat) (child_ndx : nat)
    (new_sibling_ref : node A) (st : State A) : node A * option (node A) * State A :=
  let new_ref_ndx := child_ndx + 1 in
  let sz := length cs in
  if sz <? MAX then
    let s' :=
      match s with
      | Offsets o =>
          let elem_ndx_offset := get_bp_node_offset o child_ndx in
          let o := list_insert_at child_ndx (elem_ndx_offset + split_offset st) o in
          Offsets (offs_adjust o (child_ndx + 1) (length o) (Z.of_nat (insert_count st)))
      | Compact e => Compact e
      end in
    (Inner s' (list_insert_at new_ref_ndx new_sibling_ref cs) (ts + insert_count st), None, st)
  else
    let '(new_slot, elem_ndx_offset) :=
      match s with
      | Offsets o => (Offsets [], get_bp_node_offset o child_ndx)
      | Compact elems_per_child => (Compact elems_per_child, child_ndx * elems_per_child)
      end in
    if new_ref_ndx =? sz then
      let new_split_offset := elem_ndx_offset + split_offset st in
      let new_split_size := elem_ndx_offset + split_size st in
      let '(ns, ncs) := add_bp_node_ref (new_slot, []) new_sibling_ref 0 in
      (Inner s cs new_split_offset, Some (Inner ns ncs (new_split_size - new_split_offset)),
       mkState new_split_offset new_split_size (insert_count st) (append_leaf st))
    else
      let new_split_offset := elem_ndx_offset + split_size st in
      let new_split_size := ts + 1 in
      let '(src, (ns, ncs)) :=
        inner_move (s, cs) (new_slot, []) new_ref_ndx (Z.of_nat new_split_offset - 1) in
      let '(s', cs') := add_bp_node_ref src new_sibling_ref (elem_ndx_offset + split_offset st) in
      (Inner s' cs' new_split_offset, Some (Inner ns ncs (new_split_size - new_split_offset)),
       mkState new_split_offset new_split_size (insert_count st) (append_leaf st)).

Fixpoint bptree_insert (my_offset : nat) (t : node A) (ndx : option nat) (st : State A)
    (func : list A -> nat -> list A) (c : Cache A) : result (node A * option (node A) * State A * Cache A) :=
  match t with
  | Leaf xs => leaf_insert xs ndx st func c
  | Inner s cs ts =>
      let s := match ndx with Some _ => ensure_offsets s (length cs) | None => s end in
      let '(child_ndx, child_offset) :=
        match ndx with Some n => find_child s n | None => last_child s (length cs) end in
      let ndx := match ndx with Some n => Some (n - child_offset) | None => None end in
      on_nth (fun child =>
        '(child', new_sibling_ref, st, c) ←
          bptree_insert (child_offset + my_offset) child ndx st func
            (enter_child c child (child_offset + my_offset));
        let c := leave_child c child' in
        let cs := <[child_ndx := child']> cs in
        match new_sibling_ref with
        | None =>
            let s :=
              match s with
              | Offsets o => Offsets (offs_adjust o child_ndx (length o) (Z.of_nat (insert_count st)))
              | Compact e => Compact e
              end in
            Ok (Inner s cs (ts + insert_count st), None, st, c)
        | Some sibling =>
            let '(t', sib, st) := insert_bp_node s cs ts child_ndx sibling st in
            Ok (t', sib, st, c)
        end)
        (Throw OutOfRange) cs child_ndx
  end.

(** ** Erasing *)

(** [BPlusTreeInner::erase_and_destroy_bp_node]. *)
Definition erase_and_destroy_bp_node {B} (offs : list nat) (cs : list B) (ndx : nat) : list nat * list B :=
  let sz := length offs in
  (if sz =? 0 then offs
   else if ndx <? sz then list_erase_range ndx (S ndx) offs
   else list_erase_range (sz - 1) sz offs,
   list_erase_range ndx (S ndx) cs).

(** The merge of child [child_ndx] with its right sibling: the merged child
    and this node's offsets before the sibling is removed. [None] when the
    two are too big together. *)
Definition merge_children (offs : list nat) (child_ndx erase_node_size : nat) (child sibling : node A) :
    option (node A * list nat) :=
  let sibling_ndx := child_ndx + 1 in
  let combined_size := get_node_size sibling + erase_node_size in
  if combined_size <? MAX * 3 / 4 then
    let offs' :=
      if sibling_ndx <? length offs then <[sibling_ndx - 1 := nth sibling_ndx offs 0]> offs else offs in
    match child, sibling with
    | Leaf xs, Leaf ys => Some (Leaf (xs ++ ys), offs')
    | Inner s1 cs1 orig_size, Inner s2 cs2 size_of_moved =>
        let s1 := ensure_offsets s1 (length cs1) in
        let s2 := ensure_offsets s2 (length cs2) in
        let sibling_offs := nth (sibling_ndx - 1) offs 0 in
        let erase_node_offs := get_bp_node_offset offs child_ndx in
        let offs_adj := (Z.of_nat erase_node_offs - Z.of_nat sibling_offs)%Z in
        let '(_, (s1, cs1)) := inner_move (s2, cs2) (s1, cs1) 0 offs_adj in
        Some (Inner s1 cs1 (orig_size + size_of_moved), offs')
    | _, _ => None
    end
  else None.

(** Lines 421-488: what follows the erasure in the child. *)
Definition after_erase (offs : list nat) (cs : list (node A)) (ts child_ndx erase_node_size : nat)
    (child : node A) (c : Cache A) : node A * nat * Cache A :=
  let num_children := length cs in
  let unchanged := (Inner (Offsets offs) cs ts, num_children, c) in
  if erase_node_size =? 0 then
    if num_children =? 1 then (Inner (Offsets offs) cs ts, 0, c)
    else
      let '(offs, cs) := erase_and_destroy_bp_node offs cs child_ndx in
      (Inner (Offsets offs) cs ts, num_children - 1, c)
  else if (erase_node_size <? MAX / 2) && (child_ndx <? num_children - 1) then
    on_nth (fun sibling =>
      match merge_children offs child_ndx erase_node_size child sibling with
      | Some (merged, offs) =>
          let c := if is_leaf child then invalidate_leaf_cache (leave_child c merged) else c in
          let '(offs, cs) := erase_and_destroy_bp_node offs (<[child_ndx := merged]> cs) (child_ndx + 1) in
          (Inner (Offsets offs) cs ts, num_children - 1, c)
      | None => unchanged
      end)
      unchanged cs (child_ndx + 1)
  else unchanged.

Fixpoint bptree_erase (my_offset : nat) (t : node A) (n : nat) (func : list A -> nat -> list A)
    (c : Cache A) : result (node A * nat * Cache A) :=
  match t with
  | Leaf xs => let xs' := func xs n in Ok (Leaf xs', length xs', c)
  | Inner s cs ts =>
      let o := m_offsets (ensure_offsets s (length cs)) in
      let child_ndx := offs_upper_bound o n in
      let child_offset := get_bp_node_offset o child_ndx in
      on_nth (fun child =>
        '(child', erase_node_size, c) ←
          bptree_erase (child_offset + my_offset) child (n - child_offset) func
            (enter_child c child (child_offset + my_offset));
        let c := leave_child c child' in
        let c :=
          if is_leaf child then
            if erase_node_size =? 0 then invalidate_leaf_cache c else adjust_leaf_bounds c (-1)
          else c in
        let o := offs_adjust o child_ndx (length o) (-1) in
        Ok (after_erase o (<[child_ndx := child']> cs) (ts - 1) child_ndx erase_node_size child' c))
        (Throw OutOfRange) cs child_ndx
  end.

(** ** Traversing *)

(** The loop over the children; [visit] is called with the index of the child's
    first element. *)
Fixpoint traverse_children {R : Type}
    (visit : nat -> node A -> R -> Cache A -> node A * R * bool * Cache A)
    (s : Slot) (my_offset i : nat) (l : list (node A)) (r : R) (c : Cache A) : list (node A) * R * bool * Cache A :=
  match l with
  | [] => ([], r, false, c)
  | child :: l =>
      let child_offset :=
        match s with
        | Offsets o => get_bp_node_offset o i
        | Compact elems_per_child => i * elems_per_child
        end in
      let '(child', r, done, c) := visit (child_offset + my_offset) child r c in
      if done then (child' :: l, r, true, c)
      else let '(l', r, done, c) := traverse_children visit s my_offset (S i) l r c in (child' :: l', r, done, c)
  end.

Definition is_stop (ctl : IteratorControl) : bool := match ctl with Stop => true | AdvanceToNext => false end.

(** The callback sees a leaf and the index of its first element; it may change
    the leaf, and carries its own state. *)
Fixpoint bptree_traverse {R : Type} (my_offset : nat) (t : node A)
    (func : list A -> nat -> R -> list A * R * IteratorControl) (r : R) (c : Cache A) :
    node A * R * bool * Cache A :=
  match t with
  | Leaf xs => let '(xs', r, ctl) := func xs 0 r in (Leaf xs', r, is_stop ctl, c)
  | Inner s cs ts =>
      let '(cs', r, done, c) :=
        traverse_children (fun child_start child r c =>
          match child with
          | Leaf xs =>
              let c := cache_leaf xs child_start in
              let '(xs', r, ctl) := func xs child_start r in
              (Leaf xs', r, is_stop ctl, write_leaf c xs')
          | Inner _ _ _ => bptree_traverse child_start child func r c
          end) s my_offset 0 cs r c in
      (Inner s cs' ts, r, done, c)
  end.

(** ** The tree object *)

Record BPlusTree := mkTree {
  m_root : node A;
  m_size : nat;
  m_cache : Cache A
}.

Definition no_cache : Cache A := mkCache npos npos [].

(** [BPlusTreeBase::create] of a detached accessor. *)
Definition tree_create : BPlusTree := mkTree (Leaf []) 0 no_cache.

Definition tree_init_from_ref (root : node A) : BPlusTree := mkTree root (get_tree_size root) no_cache.

(** [BPlusTreeBase::bptree_insert]. *)
Definition base_insert (t : BPlusTree) (n : option nat) (func : list A -> nat -> list A)
    (count : nat) (leaf : option (list A)) : result (node A * Cache A) :=
  let bptree_size := get_tree_size (m_root t) in
  let n := match n with Some k => if k =? bptree_size then None else Some k | None => None end in
  '(root, new_sibling_ref, st, c) ← bptree_insert 0 (m_root t) n (mkState 0 0 count leaf) func (m_cache t);
  match new_sibling_ref with
  | None => Ok (root, c)
  | Some sibling =>
      let compact_form := match n with None => is_compact root | Some _ => false end in
      let new_root := if compact_form then (Compact (split_offset st), []) else (Offsets [], []) in
      let new_root := add_bp_node_ref new_root root 0 in
      let new_root := add_bp_node_ref new_root sibling (split_offset st) in
      Ok (Inner new_root.1 new_root.2 (split_size st), c)
  end.

Definition tree_insert (t : BPlusTree) (n : option nat) (value : A) : result BPlusTree :=
  '(root, c) ← base_insert t n (fun xs i => list_insert_at i value xs) 1 None;
  Ok (mkTree root (m_size t + 1) c).

Definition tree_add (t : BPlusTree) (value : A) : result BPlusTree := tree_insert t None value.

(** The loop of [BPlusTreeBase::bptree_erase]. *)
Fixpoint collapse_root (t : node A) (root_size : nat) : node A :=
  match t with
  | Inner _ (child :: _) _ => if root_size =? 1 then collapse_root child (get_node_size child) else t
  | _ => t
  end.

Definition tree_erase (t : BPlusTree) (n : nat) : result BPlusTree :=
  '(root, root_size, c) ← bptree_erase 0 (m_root t) n (fun xs i => list_erase_range i (S i) xs) (m_cache t);
  Ok (mkTree (collapse_root root root_size) (m_size t - 1) c).

Definition get_uncached (t : BPlusTree) (n : nat) : result (A * BPlusTree) :=
  '(root, v, c) ← bptree_access 0 (m_root t) n (fun xs i => (xs, xs !! i)) (m_cache t);
  match v with Some x => Ok (x, mkTree root (m_size t) c) | None => Throw OutOfRange end.

Definition tree_get (t : BPlusTree) (n : nat) : result (A * BPlusTree) :=
  let c := m_cache t in
  if (m_cached_leaf_begin c <=? Z.of_nat n)%Z && (Z.of_nat n <? m_cached_leaf_end c)%Z then
    match m_leaf_cache c !! Z.to_nat (Z.of_nat n - m_cached_leaf_begin c)%Z with
    | Some x => Ok (x, t)
    | None => Throw OutOfRange
    end
  else get_uncached t n.

Definition tree_set (t : BPlusTree) (n : nat) (value : A) : result BPlusTree :=
  '(root, _, c) ← bptree_access 0 (m_root t) n (fun xs i => (<[i := value]> xs, tt)) (m_cache t);
  Ok (mkTree root (m_size t) c).

Definition tree_swap (t : BPlusTree) (ndx1 ndx2 : nat) : result BPlusTree :=
  '(tmp, t) ← tree_get t ndx1;
  '(v2, t) ← tree_get t ndx2;
  t ← tree_set t ndx1 v2;
  tree_set t ndx2 tmp.

Definition tree_clear (t : BPlusTree) : BPlusTree :=
  match m_root t with
  | Leaf _ => mkTree (Leaf []) 0 (m_cache t)
  | Inner _ _ _ => mkTree (Leaf []) 0 (invalidate_leaf_cache (m_cache t))
  end.

Definition get_all (t : BPlusTree) : list A * BPlusTree :=
  let '(root, all_values, _, c) :=
    bptree_traverse 0 (m_root t) (fun xs _ acc => (xs, acc ++ xs, AdvanceToNext)) [] (m_cache t) in
  (all_values, mkTree root (m_size t) c).

(** [get_range]: one descent per touched leaf. *)
Fixpoint get_range (fuel : nat) (t : BPlusTree) (n count : nat) : result (list A * BPlusTree) :=
  match count, fuel with
  | O, _ => Ok ([], t)
  | _, O => OutOfFuel
  | _, S fuel =>
      '(root, out, c) ←
        bptree_access 0 (m_root t) n
          (fun xs ndx => let copied := count `min` (length xs - ndx) in (xs, take copied (drop ndx xs)))
          (m_cache t);
      let copied := length out in
      '(rest, t) ← get_range fuel (mkTree root (m_size t) c) (n + copied) (count - copied);
      Ok (out ++ rest, t)
  end.

(** ** Bulk operations *)

Fixpoint check_positions (size : nat) (prev : option nat) (positions : list nat) : result unit :=
  match positions with
  | [] => Ok tt
  | p :: positions =>
      if size <=? p then Throw OutOfRange else
      if match prev with Some q => p <=? q | None => false end then Throw InvalidArgument else
      check_positions size (Some p) positions
  end.

(** The updates of one leaf: those whose position is below its end. *)
Fixpoint set_leaf_loop (offset end_ : nat) (xs : list A) (pv : list (nat * A)) : list A * list (nat * A) :=
  match pv with
  | (p, v) :: pv' =>
      if p <? end_ then set_leaf_loop offset end_ (<[p - offset := v]> xs) pv' else (xs, pv)
  | [] => (xs, [])
  end.

Definition set_many (t : BPlusTree) (pv : list (nat * A)) : result BPlusTree :=
  if length pv =? 0 then Ok t else
  _ ← check_positions (m_size t) None (map fst pv);
  let '(root, _, _, c) :=
    bptree_traverse 0 (m_root t)
      (fun xs offset rest =>
         let '(xs, rest) := set_leaf_loop offset (offset + length xs) xs rest in
         (xs, rest, if length rest =? 0 then Stop else AdvanceToNext))
      pv (m_cache t) in
  Ok (mkTree root (m_size t) (invalidate_leaf_cache c)).

(** Erased from the last position to the first. *)
Fixpoint erase_many_loop (t : BPlusTree) (positions : list nat) : result BPlusTree :=
  match positions with
  | [] => Ok t
  | p :: positions => t ← erase_many_loop t positions; tree_erase t p
  end.

Definition erase_many (t : BPlusTree) (positions : list nat) : result BPlusTree :=
  if length positions =? 0 then Ok t else
  _ ← check_positions (m_size t) None positions;
  erase_many_loop t positions.

(** The leaves of [add_from] on an empty tree: chunks of at most [MAX]. *)
Fixpoint chunk_loop {B} (fuel : nat) (xs : list B) : list (list B) :=
  match fuel, xs with
  | S fuel, _ :: _ => take MAX xs :: chunk_loop fuel (drop MAX xs)
  | _, _ => []
  end.

(** One level of [bulk_adopt_leaves]: [i] counts the nodes already grouped. *)
Fixpoint group_level (fuel : nat) (level : list (node A)) (i level_size elems_per_child total_size : nat) :
    list (node A) :=
  match fuel, level with
  | S fuel, _ :: _ =>
      let n := (level_size - i) `min` MAX in
      let sub_size :=
        if i + n <? level_size then n * elems_per_child else total_size - i * elems_per_child in
      Inner (Compact elems_per_child) (take n level) sub_size ::
      group_level fuel (drop n level) (i + MAX) level_size elems_per_child total_size
  | _, _ => []
  end.

Fixpoint bulk_levels (fuel : nat) (level : list (node A)) (elems_per_child total_size : nat) : result (node A) :=
  match level, fuel with
  | [root], _ => Ok root
  | [], _ => Throw AssertionFailed
  | _, O => OutOfFuel
  | _, S fuel =>
      bulk_levels fuel (group_level (length level) level 0 (length level) elems_per_child total_size)
        (elems_per_child * MAX) total_size
  end.

Definition bulk_adopt_leaves (t : BPlusTree) (level : list (list A)) (total_size : nat) : result BPlusTree :=
  if negb ((m_size t =? 0) && (get_tree_size (m_root t) =? 0)) then Throw AssertionFailed else
  match level with
  | [] => Ok t
  | _ =>
      root ← bulk_levels (length level) (map Leaf level) MAX total_size;
      Ok (mkTree root total_size (invalidate_leaf_cache (m_cache t)))
  end.

(** The values of [fill(offset, n, out)] are the next [n] of [values]. *)
Fixpoint append_loop (fuel : nat) (t : BPlusTree) (values : list A) : result BPlusTree :=
  match values, fuel with
  | [], _ => Ok t
  | _, O => OutOfFuel
  | _, S fuel =>
      '(root, tail_size, c) ← bptree_access 0 (m_root t) (m_size t - 1) (fun xs _ => (xs, length xs)) (m_cache t);
      let t := mkTree root (m_size t) c in
      if tail_size =? MAX then
        let n := length values `min` MAX in
        '(root, c) ← base_insert t None (fun xs _ => xs) n (Some (take n values));
        append_loop fuel (mkTree root (m_size t + n) c) (drop n values)
      else
        let n := length values `min` (MAX - tail_size) in
        '(root, c) ← base_insert t None (fun xs _ => xs ++ take n values) n None;
        append_loop fuel (mkTree root (m_size t + n) c) (drop n values)
  end.

Definition add_from (t : BPlusTree) (values : list A) : result BPlusTree :=
  if length values =? 0 then Ok t else
  if negb (m_size t =? 0) then append_loop (length values) t values
  else bulk_adopt_leaves t (chunk_loop (length values) values) (length values).

(** ** Searching *)

Fixpoint subtree_first_value (t : node A) : option A :=
  match t with
  | Leaf xs => xs !! 0
  | Inner _ (child :: _) _ => subtree_first_value child
  | Inner _ [] _ => None
  end.

(** Whether the value read compares less than [value]. *)
Definition read_lt (ltb : A -> A -> bool) (value : A) (r : option A) : bool :=
  match r with Some x => ltb x value | None => false end.

Fixpoint lower_bound_loop (ltb : A -> A -> bool) (t : node A) (base : nat) (value : A) : nat :=
  match t with
  | Inner s cs _ =>
      let nchildren := length cs in
      let child_ndx :=
        bsearch nchildren
          (fun mid => read_lt ltb value (cs !! mid ≫= subtree_first_value)) 1 nchildren - 1 in
      let base :=
        if 0 <? child_ndx then
          match s with
          | Compact elems_per_child => base + elems_per_child * child_ndx
          | Offsets o => base + nth (child_ndx - 1) o 0
          end
        else base in
      on_nth (fun child => lower_bound_loop ltb child base value) base cs child_ndx
  | Leaf xs => base + bsearch (length xs) (fun mid => read_lt ltb value (xs !! mid)) 0 (length xs)
  end.

Definition tree_lower_bound (ltb : A -> A -> bool) (t : BPlusTree) (value : A) : nat :=
  if m_size t =? 0 then 0 else lower_bound_loop ltb (m_root t) 0 value.

(** The first index in [xs] of an element equal to [value], or its size. *)
Fixpoint leaf_find_first (eqb : A -> A -> bool) (value : A) (xs : list A) : nat :=
  match xs with
  | [] => 0
  | x :: xs => if eqb x value then 0 else S (leaf_find_first eqb value xs)
  end.

Definition find_first (eqb : A -> A -> bool) (t : BPlusTree) (value : A) : option nat * BPlusTree :=
  let '(root, r, _, c) :=
    bptree_traverse 0 (m_root t)
      (fun xs offset r =>
         let i := leaf_find_first eqb value xs in
         if i <? length xs then (xs, Some (i + offset), Stop) else (xs, r, AdvanceToNext))
      None (m_cache t) in
  (r, mkTree root (m_size t) c).

(** ** Splitting an oversized root *)

(** [BPlusTreeInner::split_root] on a compact node. *)
Fixpoint split_inner_loop (fuel : nat) (cs : list (node A)) (elems_per_child tree_size accumulated_size : nat) :
    list (node A) :=
  match fuel, cs with
  | S fuel, _ :: _ =>
      let to_move := MAX `min` length cs in
      let this_size :=
        if tree_size <? accumulated_size + to_move * elems_per_child
        then tree_size - accumulated_size else to_move * elems_per_child in
      Inner (Compact elems_per_child) (take to_move cs) this_size ::
      split_inner_loop fuel (drop to_move cs) elems_per_child tree_size (accumulated_size + this_size)
  | _, _ => []
  end.

Definition split_root (t : node A) : result (node A) :=
  match t with
  | Leaf xs => Ok (Inner (Compact MAX) (map Leaf (chunk_loop (length xs) xs)) (length xs))
  | Inner (Compact elems_per_child) cs ts =>
      Ok (Inner (Compact (MAX * elems_per_child)) (split_inner_loop (length cs) cs elems_per_child ts 0) ts)
  | Inner (Offsets _) _ _ => Throw AssertionFailed
  end.

Fixpoint split_if_needed (fuel : nat) (t : node A) : result (node A) :=
  if MAX <? get_node_size t then
    match fuel with O => OutOfFuel | S fuel => t ← split_root t; split_if_needed fuel t end
  else Ok t.

End Tree.
Arguments BPlusTree : clear implicits.
Arguments mkTree {A}.
