(* ===== verification/BPTreeWf.v ===== *)
(** * The B+-tree invariant

    What [BPlusTreeInner::verify] asserts of a tree, and more: equal depth, no
    empty node below the root, offsets that are the prefix sums of the child
    sizes, and, in compact form, children that are compact and full up to the
    last. The file also has what the descent needs: the offsets array as a
    function of the children, and the child an index falls in. *)

From S2P Require Import Prelude BPlusTree.

Local Open Scope nat_scope.

Section Wf.
Context {A : Type} (MAX : nat).
Implicit Types (t c : node A) (cs l r : list (node A)).

(** ** Contents, sizes and offsets *)

Fixpoint elements t : list A :=
  match t with Leaf xs => xs | Inner _ cs _ => concat (map elements cs) end.

Definition elems cs : list A := concat (map elements cs).

Definition tsum cs : nat := sum_list (map get_tree_size cs).

(** The capacity of a node of height [h]. *)
Definition cap (h : nat) : nat := MAX ^ S h.
#[global] Arguments cap : simpl never.

(** The index of the first element of each child, the first one at [b]. *)
Fixpoint starts (b : nat) cs : list nat :=
  match cs with [] => [] | c :: cs => b :: starts (b + get_tree_size c) cs end.

Definition offsets_of cs : list nat := tail (starts 0 cs).

Definition slot_ok (h : nat) (s : Slot) cs : Prop :=
  match s with
  | Offsets o => o = offsets_of cs
  | Compact e =>
      e = cap h /\ Forall (fun c => is_compact c = true) cs /\
      forall i c, cs !! i = Some c -> S i < length cs -> get_tree_size c = cap h
  end.

Fixpoint wf (h : nat) t : Prop :=
  match h, t with
  | O, Leaf xs => 1 <= length xs <= MAX
  | S h, Inner s cs ts => 1 <= length cs <= MAX /\ Forall (wf h) cs /\ ts = tsum cs /\ slot_ok h s cs
  | _, _ => False
  end.

(** The whole tree: an empty leaf, or a tree whose inner root has two children
    at least. *)
Definition root_ok t : Prop :=
  t = Leaf [] \/ exists h, wf h t /\ (is_leaf t = false -> 2 <= get_node_size t).

(** ** Sums *)

Lemma tsum_app l r : tsum (l ++ r) = tsum l + tsum r.
Proof. unfold tsum. rewrite map_app. induction l as [|x l IH]; cbn in *; lia. Qed.
Lemma tsum_cons c r : tsum (c :: r) = get_tree_size c + tsum r.
Proof. done. Qed.
Lemma elems_app l r : elems (l ++ r) = elems l ++ elems r.
Proof. unfold elems. by rewrite map_app, concat_app. Qed.
Lemma elems_cons c r : elems (c :: r) = elements c ++ elems r.
Proof. done. Qed.
Lemma elements_inner s cs ts : elements (Inner s cs ts) = elems cs.
Proof. done. Qed.

Lemma tsum_elems cs :
  Forall (fun c => get_tree_size c = length (elements c)) cs -> tsum cs = length (elems cs).
Proof.
  induction 1 as [|c cs Hc Hcs IH]; [done|]. rewrite tsum_cons, elems_cons, length_app. lia.
Qed.

Lemma wf_size h t : wf h t -> get_tree_size t = length (elements t).
Proof.
  revert t. induction h as [|h IH]; intros [xs|s cs ts]; try done.
  intros (_ & Hcs & -> & _). rewrite elements_inner. apply tsum_elems.
  eapply Forall_impl; [|exact Hcs]. auto.
Qed.

Lemma wf_tsum h cs : Forall (wf h) cs -> tsum cs = length (elems cs).
Proof. intros. apply tsum_elems. eapply Forall_impl; [|done]. apply wf_size. Qed.

Lemma wf_pos h t : wf h t -> 1 <= get_tree_size t.
Proof.
  revert t. induction h as [|h IH]; intros [xs|s cs ts]; try done.
  - cbn. lia.
  - intros (Hl & Hcs & -> & _). destruct cs as [|c cs]; [cbn in Hl; lia|].
    apply Forall_cons_iff in Hcs as [Hc _]. cbn [get_tree_size]. rewrite tsum_cons. specialize (IH c Hc). lia.
Qed.

Lemma tsum_le_cap h cs : Forall (fun c => get_tree_size c <= cap h) cs -> tsum cs <= length cs * cap h.
Proof. induction 1 as [|c cs Hc Hcs IH]; [cbn; lia|]. rewrite tsum_cons. cbn [length]. lia. Qed.

Lemma wf_cap h t : wf h t -> get_tree_size t <= cap h.
Proof.
  revert t. induction h as [|h IH]; intros [xs|s cs ts]; try done.
  - unfold cap. rewrite Nat.pow_1_r. cbn. lia.
  - intros (Hl & Hcs & -> & _). cbn [get_tree_size].
    etrans; [apply (tsum_le_cap h); eapply Forall_impl; [|exact Hcs]; auto|].
    unfold cap. rewrite (Nat.pow_succ_r' MAX (S h)). apply Nat.mul_le_mono_r. lia.
Qed.

(** ** The offsets array *)

Lemma starts_app b l r : starts b (l ++ r) = starts b l ++ starts (b + tsum l) r.
Proof.
  revert b. induction l as [|c l IH]; intros b; cbn [starts app]; [f_equal; cbn; lia|].
  rewrite IH, tsum_cons, Nat.add_assoc. done.
Qed.

Lemma length_starts b cs : length (starts b cs) = length cs.
Proof. revert b. induction cs as [|c cs IH]; intros b; cbn; auto. Qed.

Lemma starts_shift (d : Z) b b' cs : (Z.of_nat b' = Z.of_nat b + d)%Z ->
  map (fun v => Z.to_nat (Z.of_nat v + d)) (starts b cs) = starts b' cs.
Proof.
  revert b b'. induction cs as [|c cs IH]; intros b b' Hb; [done|]. cbn [starts map]. f_equal; [lia|].
  apply IH. lia.
Qed.

Lemma length_offsets_of cs : length (offsets_of cs) = length cs - 1.
Proof. unfold offsets_of. destruct cs; cbn; [done|]. rewrite length_starts. lia. Qed.

(** The offsets up to and including the start of the child after [l]. *)
Definition heads l : list nat := tail (starts 0 l ++ [tsum l]).

Lemma length_heads l : length (heads l) = length l.
Proof. unfold heads. destruct l; cbn; [done|]. rewrite length_app, length_starts. cbn. lia. Qed.

Lemma offsets_split l c r :
  offsets_of (l ++ c :: r) = heads l ++ starts (tsum l + get_tree_size c) r.
Proof.
  unfold offsets_of, heads. rewrite starts_app. cbn [starts]. destruct l; [done|].
  cbn [starts app tail]. by rewrite <- app_assoc.
Qed.

Lemma heads_snoc l c : heads (l ++ [c]) = heads l ++ [tsum (l ++ [c])].
Proof. unfold heads. rewrite starts_app. destruct l; [done|]. cbn [starts app tail]. by rewrite <- !app_assoc. Qed.

Lemma heads_offset l x : get_bp_node_offset (heads l ++ x) (length l) = tsum l.
Proof.
  destruct l as [|c l] using rev_ind; [done|]. clear IHl. rewrite length_app, Nat.add_1_r. cbn [get_bp_node_offset].
  rewrite heads_snoc, <- app_assoc, app_nth2; rewrite length_heads; [|lia]. by rewrite Nat.sub_diag.
Qed.

Lemma offsets_nth cs i : S i < length cs -> nth i (offsets_of cs) 0 = tsum (take (S i) cs).
Proof.
  intros Hi. rewrite <- (take_drop (S i) cs) at 1. destruct (drop (S i) cs) as [|c r] eqn:E.
  { apply (f_equal length) in E. rewrite length_drop in E. cbn in E. lia. }
  rewrite offsets_split.
  assert (Hl : length (take (S i) cs) = S i) by (rewrite length_take; lia).
  pose proof (heads_offset (take (S i) cs) (starts (tsum (take (S i) cs) + get_tree_size c) r)) as H.
  rewrite Hl in H. exact H.
Qed.

Lemma heads_adjust l b b' r (d : Z) : (Z.of_nat b' = Z.of_nat b + d)%Z ->
  let o := heads l ++ starts b r in
  offs_adjust o (length l) (length o) d = heads l ++ starts b' r.
Proof.
  intros Hb o. unfold offs_adjust, o. rewrite length_app, length_heads.
  rewrite (take_app_length' (heads l)), (drop_app_length' (heads l)) by (by rewrite length_heads).
  rewrite take_ge by (rewrite length_starts; lia). rewrite (starts_shift d b b') by done.
  rewrite (drop_ge (heads l ++ _)) by (rewrite length_app, length_heads; lia). by rewrite app_nil_r.
Qed.

(** ** The compact form *)

Lemma compact_offsets e b cs :
  (forall i c, cs !! i = Some c -> S i < length cs -> get_tree_size c = e) ->
  offsets_loop (length cs) b e = starts (b + e) cs.
Proof.
  revert b. induction cs as [|c cs IH]; intros b Hc; [done|]. cbn [length offsets_loop starts]. f_equal.
  destruct cs as [|c2 cs]; [done|]. rewrite (Hc 0 c) by (done || cbn; lia).
  apply IH. intros i x Hx Hi. apply (Hc (S i)); [done|cbn in *; lia].
Qed.

Lemma ensure_offsets_ok h s cs : slot_ok h s cs ->
  ensure_offsets s (length cs) = Offsets (offsets_of cs).
Proof.
  destruct s as [e|o]; cbn; [|by intros ->]. intros (-> & _ & Hf). f_equal.
  destruct cs as [|c cs]; [done|]. cbn [length]. rewrite Nat.sub_0_r || rewrite Nat.sub_succ, Nat.sub_0_r.
  unfold offsets_of. cbn [starts tail]. destruct cs as [|c2 cs]; [done|].
  rewrite (Hf 0 c) by (done || cbn; lia). rewrite compact_offsets; [f_equal; lia|].
  intros i x Hx Hi. apply (Hf (S i)); [done|cbn in *; lia].
Qed.

Lemma compact_tsum h l c r :
  (forall i x, (l ++ c :: r) !! i = Some x -> S i < length (l ++ c :: r) -> get_tree_size x = cap h) ->
  tsum l = length l * cap h.
Proof.
  intros Hf. assert (HF : Forall (fun x => get_tree_size x = cap h) l).
  { apply Forall_lookup. intros i x Hx. pose proof (lookup_lt_Some _ _ _ Hx). apply (Hf i).
    - by apply lookup_app_l_Some.
    - rewrite length_app. cbn. lia. }
  clear Hf. induction HF as [|x l Hx HF IH]; [done|]. rewrite tsum_cons. cbn [length]. lia.
Qed.

(** ** Children by position *)

Lemma on_nth_middle {B C} (f : B -> C) d (x y : list B) (z : B) : on_nth f d (x ++ z :: y) (length x) = f z.
Proof. induction x; [done|exact IHx]. Qed.

Lemma insert_middle {B} (x y : list B) (z z' : B) : <[length x := z']> (x ++ z :: y) = x ++ z' :: y.
Proof. rewrite insert_app_r_alt by done. by rewrite Nat.sub_diag. Qed.

Lemma split_at {B} (l : list B) i : i < length l -> exists x z y, l = x ++ z :: y /\ length x = i.
Proof.
  intros Hi. destruct (lookup_lt_is_Some_2 l i Hi) as [z Hz]. exists (take i l), z, (drop (S i) l).
  rewrite take_drop_middle by done. rewrite length_take. split; [done|lia].
Qed.

Lemma tsum_take_mono cs i j : i <= j -> tsum (take i cs) <= tsum (take j cs).
Proof.
  intros Hij. assert (He : take i (take j cs) = take i cs) by (rewrite take_take; f_equal; lia).
  rewrite <- (take_drop i (take j cs)), tsum_app, He. lia.
Qed.

(** The child the search in the offsets finds: it starts at or before [n], and
    the next one starts after [n]. *)
Lemma upper_bound_child cs n : cs <> [] ->
  exists l c r, cs = l ++ c :: r /\ offs_upper_bound (offsets_of cs) n = length l /\
    tsum l <= n /\ (r <> [] -> n < tsum l + get_tree_size c).
Proof.
  intros Hne. set (o := offsets_of cs). pose proof (length_offsets_of cs) as Ho. fold o in Ho.
  assert (Hcs : 0 < length cs) by (destruct cs; [done|cbn; lia]).
  destruct (bsearch_spec (fun i => negb (n <? nth i o 0)) (length o) 0 (length o)) as (Hk & Ht & Hf); [|lia..|].
  { intros i j Hij. rewrite !negb_true_iff, !Nat.ltb_ge. unfold o. rewrite !offsets_nth by lia.
    intros. etrans; [apply tsum_take_mono|eassumption]. lia. }
  fold (offs_upper_bound o n) in *. set (k := offs_upper_bound o n) in *.
  destruct (split_at cs k) as (l & c & r & Hc & Hl); [lia|]. exists l, c, r. split; [done|]. split; [done|].
  assert (Htk : take k cs = l) by (rewrite Hc, take_app_length'; [done|lia]).
  split.
  - destruct k as [|k']; [destruct l; [cbn; lia|done]|].
    specialize (Ht k' ltac:(lia)). apply negb_true_iff, Nat.ltb_ge in Ht.
    unfold o in Ht. rewrite offsets_nth, Htk in Ht by lia. done.
  - intros Hr. assert (Hlt : S k < length cs).
    { rewrite Hc, length_app. cbn. destruct r; [done|cbn; lia]. }
    specialize (Hf k ltac:(lia)). apply negb_false_iff, Nat.ltb_lt in Hf. unfold o in Hf.
    rewrite offsets_nth in Hf by lia. erewrite take_S_r in Hf by (rewrite Hc, lookup_app_r, Hl, Nat.sub_diag by lia; done).
    rewrite Htk, tsum_app in Hf. cbn in Hf. lia.
Qed.

Lemma find_child_offsets cs n : cs <> [] -> n < tsum cs ->
  exists l c r, cs = l ++ c :: r /\
    find_child (Offsets (offsets_of cs)) n = (length l, tsum l) /\ tsum l <= n < tsum l + get_tree_size c.
Proof.
  intros Hne Hn. destruct (upper_bound_child cs n Hne) as (l & c & r & Hc & Hk & Hlo & Hhi).
  exists l, c, r. split; [done|]. unfold find_child. rewrite Hk. split.
  - f_equal. rewrite Hc, offsets_split. apply heads_offset.
  - destruct r as [|x r]; [|split; [done|by apply Hhi]]. rewrite Hc, tsum_app, tsum_cons in Hn. cbn in Hn. lia.
Qed.

Lemma find_child_compact h cs n : Forall (wf h) cs -> slot_ok h (Compact (cap h)) cs -> n < tsum cs ->
  exists l c r, cs = l ++ c :: r /\
    find_child (Compact (cap h)) n = (length l, tsum l) /\ tsum l <= n < tsum l + get_tree_size c.
Proof.
  intros Hw (_ & _ & Hf) Hn. pose proof (tsum_le_cap h cs) as Hs.
  assert (Hs' : tsum cs <= length cs * cap h).
  { apply Hs. eapply Forall_impl; [|exact Hw]. apply wf_cap. }
  assert (Hcap : cap h <> 0) by (intros Ez; rewrite Ez, Nat.mul_0_r in Hs'; lia).
  assert (Hk : n / cap h < length cs) by (apply Nat.Div0.div_lt_upper_bound; rewrite Nat.mul_comm; lia).
  destruct (split_at cs _ Hk) as (l & c & r & Hc & Hl). exists l, c, r. split; [done|].
  pose proof Hf as Hf'. rewrite Hc in Hf'. pose proof (compact_tsum h l c r Hf') as Ht.
  unfold find_child. rewrite <- Hl, <- Ht. split; [done|]. rewrite Ht, Hl.
  pose proof (Nat.div_mod_eq n (cap h)). pose proof (Nat.mod_upper_bound n (cap h) Hcap). split; [lia|].
  destruct r as [|x r].
  - rewrite Hc, tsum_app, tsum_cons, Ht, Hl in Hn. change (tsum []) with 0 in Hn. lia.
  - rewrite (Hf (length l) c); [lia| |].
    + rewrite Hc. by apply list_lookup_middle.
    + rewrite Hc, length_app. cbn. lia.
Qed.

(** The child holding element [n], in either form. *)
Lemma find_child_spec h s cs ts n : wf (S h) (Inner s cs ts) -> n < ts ->
  exists l c r, cs = l ++ c :: r /\
    find_child s n = (length l, tsum l) /\ tsum l <= n < tsum l + get_tree_size c.
Proof.
  intros (Hl & Hw & -> & Hs) Hn. destruct s as [e|o].
  - pose proof Hs as [-> _]. by apply find_child_compact.
  - cbn in Hs. subst o. apply find_child_offsets; [|done]. intros ->. cbn in Hl. lia.
Qed.

Lemma last_child_spec h s cs ts : wf (S h) (Inner s cs ts) ->
  exists l c, cs = l ++ [c] /\ last_child s (length cs) = (length l, tsum l).
Proof.
  intros (Hl & Hw & -> & Hs). destruct (split_at cs (length cs - 1)) as (l & c & r & Hc & Hll); [lia|].
  assert (r = []) as ->.
  { apply length_zero_iff_nil. rewrite Hc, length_app in Hll. cbn in Hll. lia. }
  exists l, c. split; [done|]. unfold last_child. rewrite <- Hll. f_equal. destruct s as [e|o].
  - destruct Hs as (-> & _ & Hf). rewrite Hc in Hf. symmetry. by eapply compact_tsum.
  - cbn in Hs. subst o. rewrite Hc, offsets_split. apply heads_offset.
Qed.

(** ** Building inner nodes *)

Lemma wf_offsets h cs : 1 <= length cs <= MAX -> Forall (wf h) cs ->
  wf (S h) (Inner (Offsets (offsets_of cs)) cs (tsum cs)).
Proof. done. Qed.

Lemma wf_compact h l c : length l < MAX -> Forall (wf h) l -> wf h c ->
  Forall (fun x => is_compact x = true /\ get_tree_size x = cap h) l -> is_compact c = true ->
  wf (S h) (Inner (Compact (cap h)) (l ++ [c]) (tsum (l ++ [c]))).
Proof.
  intros Hl Hw Hc Hf Hcc. cbn. rewrite length_app. cbn. split; [lia|].
  split; [by apply Forall_app; auto|]. split; [done|]. split; [done|]. split.
  - apply Forall_app. split; [|by auto]. eapply Forall_impl; [|exact Hf]. by intros x [? _].
  - intros i x Hx Hi. rewrite lookup_app_l in Hx by lia.
    by destruct (Forall_lookup_1 _ _ _ _ Hf Hx).
Qed.

Lemma slot_compact_full h l c r : slot_ok h (Compact (cap h)) (l ++ c :: r) ->
  Forall (fun x => is_compact x = true /\ get_tree_size x = cap h) l /\ is_compact c = true.
Proof.
  intros (_ & Hc & Hf). apply Forall_app in Hc as [Hl Hc]. apply Forall_cons_iff in Hc as [Hc _].
  split; [|done]. apply Forall_lookup. intros i x Hx. split; [by eapply (Forall_lookup_1 _ _ _ _ Hl)|].
  pose proof (lookup_lt_Some _ _ _ Hx). apply (Hf i).
  - by apply lookup_app_l_Some.
  - rewrite length_app. cbn. lia.
Qed.

End Wf.
