(* ===== verification/BPTreeInsert.v ===== *)
(** * Insertion into the B+-tree

    [bptree_insert] on a well-formed node never fails one of its release
    assertions, inserts the new elements at their position, and leaves a
    well-formed node, or two of them with the split offset and size the parent
    needs. The leaf cache stays attached to a leaf of the result. *)

From S2P Require Import Prelude BPlusTree BPTreeWf.

Local Open Scope nat_scope.

Section Insert.
Context {A : Type}.
Implicit Types (t : node A) (c : Cache A) (cs l r : list (node A)) (E ins xs : list A).

(** ** Insertion in lists *)

Definition ins_at (p : nat) ins E : list A := take p E ++ ins ++ drop p E.
Arguments ins_at : simpl never.

Definition pos (ndx : option nat) E : nat := match ndx with Some n => n | None => length E end.

Lemma ins_at_middle x y E ins p q : p <= length E -> q = length x + p ->
  ins_at q ins (x ++ E ++ y) = x ++ ins_at p ins E ++ y.
Proof.
  intros Hp ->. unfold ins_at. rewrite take_app_add, drop_app_add, take_app_le, drop_app_le by done.
  by rewrite <- !app_assoc.
Qed.

Lemma ins_at_end E ins : ins_at (length E) ins E = E ++ ins.
Proof. unfold ins_at. by rewrite take_ge, drop_ge, app_nil_r by lia. Qed.

Lemma length_ins_at p ins E : length (ins_at p ins E) = length E + length ins.
Proof. unfold ins_at. rewrite !length_app, length_take, length_drop. lia. Qed.

(** ** The leaf cache *)

(** The cache is empty, or attached to a leaf whose elements are a segment of
    [E], the first element of which has index [off]. *)
Definition cached_in (off : nat) E (c : Cache A) : Prop :=
  m_cached_leaf_begin c = npos \/
  exists pre post, E = pre ++ m_leaf_cache c ++ post /\
    m_cached_leaf_begin c = Z.of_nat (off + length pre) /\
    m_cached_leaf_end c = Z.of_nat (off + length pre + length (m_leaf_cache c)).

Lemma cached_in_lift off off' x E y (c : Cache A) : cached_in off' E c -> off' = off + length x ->
  cached_in off (x ++ E ++ y) c.
Proof.
  intros [Hc|(pre & post & -> & Hb & He)] ->; [by left|]. right. exists (x ++ pre), (post ++ y).
  rewrite <- !app_assoc, length_app. split; [done|]. rewrite Hb, He. split; lia.
Qed.

Lemma cached_in_leaf off xs E (c : Cache A) : m_cached_leaf_begin c = Z.of_nat off ->
  m_cached_leaf_end c = Z.of_nat (off + length xs) -> cached_in off (xs ++ E) (write_leaf c xs).
Proof. intros. right. exists [], E. cbn. split; [done|]. split; [rewrite H; lia|rewrite H0; lia]. Qed.

(** ** The last leaf *)

(** The last leaf, where appended elements go. *)
Fixpoint tail_leaf t : list A :=
  match t with Leaf xs => xs | Inner _ cs _ => on_nth tail_leaf [] cs (length cs - 1) end.

Lemma tail_leaf_last s l (ch : node A) ts : tail_leaf (Inner s (l ++ [ch]) ts) = tail_leaf ch.
Proof.
  cbn [tail_leaf]. rewrite length_app. cbn [length]. replace (length l + 1 - 1) with (length l) by lia.
  apply on_nth_middle.
Qed.

(** ** Moving children *)

(** [move] of children whose offsets are above [adj]. *)
Lemma move_loop_starts H b (refs : list (node A)) (adj : Z) d ds : (adj < Z.of_nat b)%Z ->
  inner_move_loop (H ++ starts b refs) (S (length H)) refs adj (Offsets d, ds) =
  (Offsets (d ++ starts (Z.to_nat (Z.of_nat b - adj)) refs), ds ++ refs).
Proof.
  revert H b d ds. induction refs as [|x refs IH]; intros H b d ds Hb; cbn [inner_move_loop starts].
  { by rewrite !app_nil_r. }
  cbn [get_bp_node_offset]. rewrite app_nth2, Nat.sub_diag by lia. cbn [nth].
  unfold add_bp_node_ref. cbn [fst snd]. rewrite (proj2 (Nat.eqb_neq _ _)) by lia.
  replace (H ++ b :: starts (b + get_tree_size x) refs) with ((H ++ [b]) ++ starts (b + get_tree_size x) refs)
    by (by rewrite <- app_assoc).
  replace (S (S (length H))) with (S (length (H ++ [b]))) by (rewrite length_app; cbn; lia).
  rewrite IH by lia. rewrite <- !app_assoc. cbn [app]. repeat f_equal. lia.
Qed.

Context (MAX : nat) (HMAX : 2 <= MAX).

(** ** What an insertion leaves *)

Definition sib_elems (sib : option (node A)) : list A :=
  match sib with Some s => elements s | None => [] end.

(** The node [t'], or [t'] and a new right sibling, hold [E]; on the compact
    form the result is compact, and a node that was split is full. *)
Record split_ok (h : nat) (comp : bool) E (st : State A) t' (sib : option (node A)) (st' : State A) : Prop := {
  i_wf : wf MAX h t';
  i_sib : match sib with
          | None => True
          | Some s => wf MAX h s /\ split_offset st' = get_tree_size t' /\
                      split_size st' = get_tree_size t' + get_tree_size s
          end;
  i_elems : elements t' ++ sib_elems sib = E;
  i_compact : comp = true -> is_compact t' = true /\
              match sib with Some s => is_compact s = true /\ get_tree_size t' = cap MAX h | None => True end;
  i_count : insert_count st' = insert_count st
}.

Definition append_compact (ndx : option nat) t : bool :=
  match ndx with None => is_compact t | Some _ => false end.

Definition inserted (h : nat) (ndx : option nat) t ins (st : State A) t' (sib : option (node A)) (st' : State A) : Prop :=
  split_ok h (append_compact ndx t) (ins_at (pos ndx (elements t)) ins (elements t)) st t' sib st'.

(** The three ways the tree calls [bptree_insert]: one element anywhere; a run
    of elements at the end of a tail leaf [tl] with room for them; a new leaf
    after a full tail leaf. *)
Inductive ins_ok (ndx : option nat) (tl : list A) (st : State A) (func : list A -> nat -> list A) ins : Prop :=
| ins_one v :
    ins = [v] -> insert_count st = 1 -> append_leaf st = None ->
    (forall xs i, func xs i = list_insert_at i v xs) -> ins_ok ndx tl st func ins
| ins_run :
    ndx = None -> 1 <= length ins -> length tl + length ins <= MAX -> insert_count st = length ins ->
    append_leaf st = None -> (forall xs i, func xs i = xs ++ ins) -> ins_ok ndx tl st func ins
| ins_leaf :
    ndx = None -> 1 <= length ins <= MAX -> length tl = MAX -> insert_count st = length ins ->
    append_leaf st = Some ins -> ins_ok ndx tl st func ins.

Lemma ins_count ndx tl st func ins : ins_ok ndx tl st func ins ->
  insert_count st = length ins /\ 1 <= length ins /\ (ndx <> None -> length ins = 1).
Proof. intros [v -> ? ? ?|? ? ? ? ? ?|? ? ? ? ?]; cbn; repeat split; try done; lia. Qed.

(** ** Leaves *)

(** What the insertion does to the bounds of the cache. *)
Definition leaf_cache_after (c c' : Cache A) (count : nat) xs (t' : node A) : Prop :=
  m_leaf_cache c' = m_leaf_cache c /\
  (m_cached_leaf_begin c' = npos \/
   (m_cached_leaf_begin c' = m_cached_leaf_begin c /\
    (m_cached_leaf_end c' = u64 (m_cached_leaf_end c + Z.of_nat count) /\ get_tree_size t' = length xs + count \/
     m_cached_leaf_end c' = m_cached_leaf_end c /\ t' = Leaf xs))).

Lemma list_insert_at_ins p v xs : list_insert_at p v xs = ins_at p [v] xs.
Proof. done. Qed.

(** The result of a leaf insertion, for each way of calling it. *)
Definition leaf_inserted xs ndx st func ins c : Prop :=
  exists t' sib st' c', leaf_insert MAX xs ndx st func c = Ok (t', sib, st', c') /\
    inserted 0 ndx (Leaf xs) ins st t' sib st' /\ is_leaf t' = true /\
    leaf_cache_after c c' (insert_count st) xs t'.

Lemma cap_0 : cap MAX 0 = MAX.
Proof. apply Nat.pow_1_r. Qed.

Lemma leaf_insert_room xs ndx st func v c :
  length xs < MAX -> match ndx with Some n => n < length xs | None => True end ->
  insert_count st = 1 -> append_leaf st = None -> (forall ys i, func ys i = list_insert_at i v ys) ->
  leaf_inserted xs ndx st func [v] c.
Proof.
  intros Hx Hn Hc Ha Hf. unfold leaf_inserted, leaf_insert. rewrite Ha, (proj2 (Nat.ltb_lt _ _) Hx).
  assert (Hp : match ndx with Some n => n `min` length xs | None => length xs end = pos ndx xs)
    by (unfold pos; destruct ndx; lia).
  rewrite Hp, Hf, list_insert_at_ins, length_ins_at, Hc. cbn [length]. rewrite Nat.eqb_refl. cbn [negb].
  rewrite (proj2 (Nat.leb_le _ _)) by lia. cbn [negb]. eexists _, _, _, _. split; [done|].
  split; [split; cbn; try done|].
  - rewrite length_ins_at. cbn. lia.
  - by rewrite app_nil_r.
  - split; [done|]. split; [done|]. right. split; [done|]. left. cbn. by rewrite length_ins_at.
Qed.

Lemma leaf_insert_full xs ndx st func v c :
  length xs = MAX -> match ndx with Some n => n < length xs | None => True end ->
  insert_count st = 1 -> append_leaf st = None -> (forall ys i, func ys i = list_insert_at i v ys) ->
  leaf_inserted xs ndx st func [v] c.
Proof.
  intros Hx Hn Hc Ha Hf. unfold leaf_inserted, leaf_insert. rewrite Ha, Hc, (proj2 (Nat.ltb_ge _ _)) by lia.
  cbn [negb Nat.eqb]. destruct ndx as [n|].
  - rewrite Nat.min_l by lia. rewrite (proj2 (Nat.eqb_neq _ _)) by lia. rewrite Hf.
    assert (Hlt : length (take n xs) = n) by (rewrite length_take; lia).
    assert (Hie : list_insert_at n v (take n xs) = take n xs ++ [v]).
    { unfold list_insert_at. by rewrite take_ge, drop_ge by lia. }
    rewrite Hie. eexists _, _, _, _. split; [done|]. split; [split; cbn; try done|].
    + rewrite length_app, Hlt. cbn. lia.
    + rewrite length_app, Hlt, length_drop. cbn. lia.
    + unfold ins_at. by rewrite <- app_assoc.
    + split; [done|]. split; [done|]. by left.
  - rewrite Nat.eqb_refl, Hf. eexists _, _, _, _. split; [done|]. split; [split; cbn; try done|].
    + lia.
    + repeat split; lia.
    + by rewrite ins_at_end.
    + rewrite cap_0. repeat split; lia.
    + split; [done|]. split; [done|]. right. split; [done|]. by right.
Qed.

Lemma leaf_insert_spec xs ndx st func ins c :
  length xs <= MAX -> match ndx with Some n => n < length xs | None => True end ->
  ins_ok ndx xs st func ins -> leaf_inserted xs ndx st func ins c.
Proof.
  intros Hx Hn [v -> Hc Ha Hf| -> Hl Htl Hc Ha Hf| -> Hl Htl Hc Ha].
  - destruct (Nat.eq_dec (length xs) MAX); [by apply leaf_insert_full|apply leaf_insert_room; (done || lia)].
  - unfold leaf_inserted, leaf_insert. rewrite Ha, (proj2 (Nat.ltb_lt _ _)) by lia.
    rewrite Hf, length_app, Hc, Nat.eqb_refl. cbn [negb]. rewrite (proj2 (Nat.leb_le _ _)) by lia. cbn [negb].
    eexists _, _, _, _. split; [done|]. split; [split; cbn; try done|].
    + rewrite length_app. lia.
    + by rewrite app_nil_r, ins_at_end.
    + split; [done|]. split; [done|]. right. split; [done|]. left. cbn. by rewrite length_app.
  - unfold leaf_inserted, leaf_insert. rewrite Ha, Nat.eqb_refl. cbn [negb].
    eexists _, _, _, _. split; [done|]. split; [split; cbn; try done|].
    + lia.
    + repeat split; lia.
    + by rewrite ins_at_end.
    + rewrite cap_0. repeat split; lia.
    + split; [done|]. split; [done|]. right. split; [done|]. by right.
Qed.

(** ** Inner nodes *)

(** What a split child brings to its parent: the child [ch] of [l ++ ch :: r]
    became [ch'] and [sib]. *)
Record child_split (h : nat) (s : Slot) l (ch ch' sib : node A) r (st : State A) : Prop := {
  c_wf : Forall (wf MAX h) (l ++ ch :: r);
  c_len : length (l ++ ch :: r) <= MAX;
  c_slot : slot_ok MAX h s (l ++ ch :: r);
  c_ch' : wf MAX h ch';
  c_sib : wf MAX h sib;
  c_sum : get_tree_size ch' + get_tree_size sib = get_tree_size ch + insert_count st;
  c_offset : split_offset st = get_tree_size ch';
  c_size : split_size st = get_tree_size ch' + get_tree_size sib;
  c_one : r <> [] -> insert_count st = 1;
  c_compact : match s with
              | Compact _ => r = [] /\ is_compact ch' = true /\ is_compact sib = true /\
                             get_tree_size ch' = cap MAX h
              | Offsets _ => True
              end
}.

Definition slot_compact (s : Slot) : bool := match s with Compact _ => true | Offsets _ => false end.

Definition node_split (h : nat) (s : Slot) l (ch ch' sib : node A) r (st : State A) : Prop :=
  exists t' sib' st',
    insert_bp_node MAX s (l ++ ch' :: r) (tsum (l ++ ch :: r)) (length l) sib st = (t', sib', st') /\
    split_ok (S h) (slot_compact s) (elems l ++ elements ch' ++ elements sib ++ elems r) st t' sib' st'.

Lemma child_split_wf h s l ch ch' sib r st : child_split h s l ch ch' sib r st ->
  Forall (wf MAX h) l /\ Forall (wf MAX h) r.
Proof. intros [H _ _ _ _ _ _ _ _ _]. apply Forall_app in H as [? H]. by apply Forall_cons_iff in H as [_ ?]. Qed.

Lemma insert_at_middle {B} (x y : list B) (z v : B) :
  list_insert_at (length x + 1) v (x ++ z :: y) = x ++ z :: v :: y.
Proof.
  unfold list_insert_at. replace (x ++ z :: y) with ((x ++ [z]) ++ y) by (by rewrite <- app_assoc).
  rewrite take_app_length', drop_app_length' by (rewrite length_app; cbn; lia). by rewrite <- app_assoc.
Qed.

(** The offsets of a node that takes in the new sibling. *)
Lemma offsets_room l ch ch' sib r (count : nat) :
  get_tree_size ch' + get_tree_size sib = get_tree_size ch + count ->
  let o := list_insert_at (length l) (tsum l + get_tree_size ch') (offsets_of (l ++ ch :: r)) in
  offs_adjust o (length l + 1) (length o) (Z.of_nat count) = offsets_of (l ++ ch' :: sib :: r).
Proof.
  intros Hs o. assert (Ho : o = heads (l ++ [ch']) ++ starts (tsum l + get_tree_size ch) r).
  { unfold o, list_insert_at. rewrite offsets_split.
    rewrite take_app_length', drop_app_length' by (by rewrite length_heads).
    unfold heads. rewrite tsum_app, starts_app. cbn [starts]. destruct l; cbn [starts app tail].
    - rewrite tsum_cons. cbn. by rewrite !Nat.add_0_r.
    - rewrite <- !app_assoc. cbn [app]. rewrite (tsum_cons ch'). cbn. by rewrite Nat.add_0_r. }
  rewrite Ho. replace (length l + 1) with (length (l ++ [ch'])) by (rewrite length_app; done).
  rewrite (heads_adjust _ _ (tsum l + get_tree_size ch' + get_tree_size sib)) by lia.
  replace (l ++ ch' :: sib :: r) with ((l ++ [ch']) ++ sib :: r) by (by rewrite <- app_assoc).
  rewrite offsets_split, tsum_app. do 2 f_equal. rewrite tsum_cons. cbn. lia.
Qed.

Lemma insert_room h s l ch ch' sib r st : child_split h s l ch ch' sib r st ->
  length (l ++ ch' :: r) < MAX -> node_split h s l ch ch' sib r st.
Proof.
  intros Hc Hlt. destruct (child_split_wf _ _ _ _ _ _ _ _ Hc) as [Hl Hr].
  destruct Hc as [_ _ Hs Hch' Hsib Hsum Hoff Hsz _ Hcomp]. unfold node_split, insert_bp_node.
  rewrite (proj2 (Nat.ltb_lt _ _) Hlt), insert_at_middle. eexists _, _, _. split; [done|].
  assert (Hts : tsum (l ++ ch :: r) + insert_count st = tsum (l ++ ch' :: sib :: r)).
  { rewrite !tsum_app, !tsum_cons. lia. }
  assert (Hlen : 1 <= length (l ++ ch' :: sib :: r) <= MAX).
  { rewrite length_app in *. cbn in *. lia. }
  rewrite Hts. assert (Hw : Forall (wf MAX h) (l ++ ch' :: sib :: r)) by (apply Forall_app; auto).
  split; [|done| |destruct s; [done|discriminate]|done].
  - destruct s as [e|o]; cbn [slot_ok] in Hs.
    + destruct Hcomp as (-> & Hc1 & Hc2 & Hc3). pose proof Hs as (-> & _). 
      apply slot_compact_full in Hs as [Hf _].
      replace (l ++ [ch'; sib]) with ((l ++ [ch']) ++ [sib]) in * by (by rewrite <- app_assoc).
      apply wf_compact; try done.
      * by apply Forall_app in Hw as [? _].
      * apply Forall_app. auto.
    + subst o. rewrite offsets_split, heads_offset, <- offsets_split, Hoff, (offsets_room _ _ _ sib) by done.
      by apply wf_offsets.
  - cbn. rewrite app_nil_r. fold (elems (l ++ ch' :: sib :: r)). by rewrite elems_app, !elems_cons.
Qed.

(** The split child was the last one of a full node. *)
Lemma insert_split_last h s l ch ch' sib st : child_split h s l ch ch' sib [] st ->
  length (l ++ [ch']) = MAX -> node_split h s l ch ch' sib [] st.
Proof.
  intros Hc Hlen. destruct (child_split_wf _ _ _ _ _ _ _ _ Hc) as [Hl _].
  destruct Hc as [_ _ Hs Hch' Hsib Hsum Hoff Hsz _ Hcomp]. unfold node_split, insert_bp_node.
  rewrite (proj2 (Nat.ltb_ge _ _)) by lia.
  replace (length l + 1 =? length (l ++ [ch'])) with true by (symmetry; apply Nat.eqb_eq; rewrite length_app; done).
  assert (Hw : Forall (wf MAX h) (l ++ [ch'])) by (apply Forall_app; auto).
  assert (Hts : tsum l + get_tree_size ch' = tsum (l ++ [ch'])) by (rewrite tsum_app, tsum_cons; cbn; lia).
  destruct s as [e|o]; cbn [slot_ok] in Hs.
  - pose proof Hs as (-> & _ & Hf). pose proof (compact_tsum _ _ _ _ _ Hf) as Htl. rewrite <- Htl.
    destruct Hcomp as (_ & Hc1 & Hc2 & Hc3). apply slot_compact_full in Hs as [Hfl _].
    eexists _, _, _. split; [done|]. cbn [add_bp_node_ref fst snd app]. rewrite Hoff, Hsz, Hts.
    replace (tsum l + _ - _) with (tsum [sib]) by (rewrite <- Hts, tsum_cons; cbn; lia). split.
    + apply wf_compact; try done. rewrite length_app in Hlen. cbn in Hlen. lia.
    + split; [|cbn [get_tree_size split_offset split_size]; rewrite <- Hts, tsum_cons; cbn; lia].
      apply (wf_compact MAX h [] sib); try done. cbn; lia.
    + cbn. fold (elems (l ++ [ch'])). rewrite elems_app, elems_cons. cbn. by rewrite <- !app_assoc.
    + intros _. split; [done|]. split; [done|]. cbn [get_tree_size]. rewrite <- Hts, Htl, Hc3.
      rewrite length_app in Hlen. cbn in Hlen. unfold cap. rewrite (Nat.pow_succ_r' MAX (S h)).
      generalize (MAX ^ S h) as k. intros k. rewrite <- Hlen. lia.
    + done.
  - subst o. rewrite offsets_split, heads_offset. eexists _, _, _. split; [done|].
    cbn [add_bp_node_ref fst snd app Nat.eqb]. rewrite Hoff, Hsz, Hts.
    replace (tsum l + _ - _) with (tsum [sib]) by (rewrite <- Hts, tsum_cons; cbn; lia).
    change (starts (tsum l + get_tree_size ch) []) with (starts (A := A) (tsum l + get_tree_size ch') []).
    rewrite <- offsets_split. split; try done.
    + apply wf_offsets; [lia|done].
    + split; [|cbn [get_tree_size split_offset split_size]; rewrite <- Hts, tsum_cons; cbn; lia].
      apply (wf_offsets MAX h [sib]); [cbn; lia|auto].
    + cbn. fold (elems (l ++ [ch'])). rewrite elems_app, elems_cons. cbn. by rewrite <- !app_assoc.
Qed.

(** The children to the right of a split child move to the new node, with
    their offsets counted from it. *)
Lemma move_right l ch ch' x r : 1 <= get_tree_size x ->
  inner_move (Offsets (offsets_of (l ++ ch :: x :: r)), l ++ ch' :: x :: r) (Offsets [], [])
    (length l + 1) (Z.of_nat (tsum l + get_tree_size ch)) =
  ((Offsets (heads l), l ++ [ch']), (Offsets (offsets_of (x :: r)), x :: r)).
Proof.
  intros Hx. unfold inner_move. cbn [fst snd m_offsets]. rewrite (proj2 (Nat.ltb_lt _ _)) by lia.
  replace (length l + 1 - 1) with (length l) by lia.
  rewrite offsets_split at 1. rewrite take_app_length' by (by rewrite length_heads).
  replace (l ++ ch' :: x :: r) with ((l ++ [ch']) ++ x :: r) by (by rewrite <- app_assoc).
  rewrite take_app_length', drop_app_length' by (rewrite length_app; done).
  f_equal. cbn [inner_move_loop starts].
  replace (l ++ ch :: x :: r) with ((l ++ [ch]) ++ x :: r) by (by rewrite <- app_assoc).
  rewrite offsets_split, tsum_app, (tsum_cons ch). change (tsum []) with 0. rewrite Nat.add_0_r.
  replace (length l + 1) with (length (l ++ [ch])) by (rewrite length_app; done).
  rewrite heads_offset, tsum_app, (tsum_cons ch). change (tsum []) with 0. rewrite Nat.add_0_r, Z.sub_diag.
  unfold add_bp_node_ref. cbn [fst snd app]. change (Z.to_nat 0 =? 0) with true. cbv iota.
  rewrite <- (length_heads (l ++ [ch])), move_loop_starts by lia. cbn [app]. unfold offsets_of. cbn [starts tail].
  do 3 f_equal. lia.
Qed.

(** The split child was followed by others. *)
Lemma insert_split_mid h s l ch ch' sib x r st : child_split h s l ch ch' sib (x :: r) st ->
  length (l ++ ch' :: x :: r) = MAX -> node_split h s l ch ch' sib (x :: r) st.
Proof.
  intros Hc Hlen. destruct (child_split_wf _ _ _ _ _ _ _ _ Hc) as [Hl Hr].
  destruct Hc as [_ _ Hs Hch' Hsib Hsum Hoff Hsz Hone Hcomp]. unfold node_split, insert_bp_node.
  specialize (Hone ltac:(done)). rewrite Hone in Hsum.
  rewrite (proj2 (Nat.ltb_ge _ _)) by lia. rewrite (proj2 (Nat.eqb_neq _ _)) by (rewrite length_app; cbn; lia).
  destruct s as [e|o]; [by destruct Hcomp|]. cbn [slot_ok] in Hs. subst o.
  assert (Ho : get_bp_node_offset (offsets_of (l ++ ch :: x :: r)) (length l) = tsum l)
    by (rewrite offsets_split; apply heads_offset).
  rewrite Ho, Hsz, Hoff.
  replace (Z.of_nat (tsum l + (get_tree_size ch' + get_tree_size sib)) - 1)%Z
    with (Z.of_nat (tsum l + get_tree_size ch)) by lia.
  pose proof Hr as Hr'. apply Forall_cons_iff in Hr' as [Hx _]. pose proof (wf_pos _ _ _ Hx) as Hxp.
  rewrite move_right by done. unfold add_bp_node_ref. cbn [fst snd].
  pose proof (wf_pos _ _ _ Hch') as Hcp. rewrite (proj2 (Nat.eqb_neq _ _)) by lia.
  assert (Ht1 : tsum l + (get_tree_size ch' + get_tree_size sib) = tsum (l ++ [ch'; sib])).
  { rewrite tsum_app, !tsum_cons. cbn. lia. }
  assert (Ht2 : tsum (l ++ ch :: x :: r) + 1 - tsum (l ++ [ch'; sib]) = tsum (x :: r)).
  { rewrite <- Ht1, !tsum_app, (tsum_cons ch). lia. }
  rewrite Ht1, Ht2, <- app_assoc. cbn [app].
  replace (heads l ++ [tsum l + get_tree_size ch']) with (offsets_of (l ++ [ch'; sib])) by (by rewrite (offsets_split l ch' [sib])).
  eexists _, _, _. split; [done|]. rewrite length_app in Hlen. cbn in Hlen. split; try done.
  - apply wf_offsets; [rewrite length_app; cbn; lia|]. apply Forall_app. auto.
  - split; [apply wf_offsets; [cbn; lia|done]|]. cbn [get_tree_size split_offset split_size].
    split; [done|]. rewrite <- Ht1, !tsum_app, !tsum_cons in *. lia.
  - cbn. fold (elems (l ++ [ch'; sib])). fold (elems r). rewrite elems_app, !elems_cons. cbn.
    rewrite app_nil_r, <- !app_assoc. done.
Qed.

Lemma insert_bp_node_spec h s l ch ch' sib r st : child_split h s l ch ch' sib r st -> node_split h s l ch ch' sib r st.
Proof.
  intros Hc. pose proof (c_len _ _ _ _ _ _ _ _ Hc) as Hl.
  assert (Hle : length (l ++ ch' :: r) <= MAX) by (rewrite length_app in *; done).
  destruct (Nat.eq_dec (length (l ++ ch' :: r)) MAX); [|apply insert_room; [done|lia]].
  destruct r; [by apply insert_split_last|by apply insert_split_mid].
Qed.

(** ** The whole descent *)

(** What an inner node does with the outcome of its child. *)
Definition parent_step (s : Slot) cs (ts child_ndx : nat) (sib : option (node A)) (st : State A) c :
    result (node A * option (node A) * State A * Cache A) :=
  match sib with
  | None =>
      Ok (Inner match s with
                | Offsets o => Offsets (offs_adjust o child_ndx (length o) (Z.of_nat (insert_count st)))
                | Compact e => Compact e
                end cs (ts + insert_count st), None, st, c)
  | Some sibling =>
      let '(t', sib, st) := insert_bp_node MAX s cs ts child_ndx sibling st in Ok (t', sib, st, c)
  end.

Lemma parent_step_spec h s l ch r E st ch' sib st1 c :
  Forall (wf MAX h) (l ++ ch :: r) -> length (l ++ ch :: r) <= MAX -> slot_ok MAX h s (l ++ ch :: r) ->
  split_ok h (slot_compact s) E st ch' sib st1 -> length E = get_tree_size ch + insert_count st ->
  (r <> [] -> insert_count st = 1) -> (slot_compact s = true -> r = []) ->
  exists t' sib' st', parent_step s (l ++ ch' :: r) (tsum (l ++ ch :: r)) (length l) sib st1 c = Ok (t', sib', st', c) /\
    split_ok (S h) (slot_compact s) (elems l ++ E ++ elems r) st t' sib' st'.
Proof.
  intros Hw Hlen Hs [Hch' Hsib HE Hcomp Hcnt] HlE Hone Hr. rewrite <- Hcnt in *.
  pose proof (wf_size _ _ _ Hch') as Hsz. destruct sib as [sib|]; cbn [sib_elems] in HE.
  - destruct Hsib as (Hws & Hso & Hss). pose proof (wf_size _ _ _ Hws) as Hszs.
    destruct (insert_bp_node_spec h s l ch ch' sib r st1) as (t' & sib' & st' & He & Ho).
    { split; try done.
      - rewrite <- HE, length_app in HlE. lia.
      - destruct s; [|done]. destruct Hcomp as (? & ? & ?); [done|]. auto. }
    unfold parent_step. rewrite He. eexists _, _, _. split; [done|]. rewrite <- HE, <- app_assoc.
    destruct Ho as [H1 H2 H3 H4 H5]. split; auto. congruence.
  - rewrite app_nil_r in HE. subst E. rewrite <- Hsz in HlE. eexists _, _, _. split; [done|].
    assert (Hts : tsum (l ++ ch :: r) + insert_count st1 = tsum (l ++ ch' :: r)).
    { rewrite !tsum_app, !tsum_cons. lia. }
    rewrite Hts. apply Forall_app in Hw as [Hl Hw]. apply Forall_cons_iff in Hw as [_ Hwr]. rewrite length_app in Hlen.
    split; [|done| |by destruct s|done].
    + destruct s as [e|o]; cbn [slot_ok] in Hs.
      * rewrite (Hr eq_refl) in *. pose proof Hs as (-> & _). apply slot_compact_full in Hs as [Hf _].
        apply wf_compact; try done; [cbn in Hlen; lia|]. by apply Hcomp.
      * subst o. rewrite offsets_split, (heads_adjust l _ (tsum l + get_tree_size ch')), <- offsets_split by lia.
        apply wf_offsets; [rewrite length_app; cbn in *; lia|]. apply Forall_app. auto.
    + cbn. rewrite app_nil_r. fold (elems (l ++ ch' :: r)). by rewrite elems_app, elems_cons.
Qed.

(** The child an insertion descends to. *)
Lemma insert_child h s cs ts ndx : wf MAX (S h) (Inner s cs ts) ->
  match ndx with Some n => n < ts | None => True end ->
  let s1 := match ndx with Some _ => ensure_offsets s (length cs) | None => s end in
  exists l ch r, cs = l ++ ch :: r /\ slot_ok MAX h s1 cs /\
    match ndx with Some n => find_child s1 n | None => last_child s1 (length cs) end = (length l, tsum l) /\
    match ndx with
    | Some n => tsum l <= n < tsum l + get_tree_size ch /\ slot_compact s1 = false
    | None => r = []
    end.
Proof.
  intros Hw Hn s1. pose proof Hw as (Hl & HF & Hts & Hs). destruct ndx as [n|].
  - unfold s1. rewrite (ensure_offsets_ok _ _ _ _ Hs).
    destruct (find_child_offsets cs n) as (l & ch & r & Hc & Hf & Hb).
    + intros ->. cbn in Hl. lia.
    + lia.
    + exists l, ch, r. repeat split; (done || lia).
  - destruct (last_child_spec _ _ _ _ _ Hw) as (l & ch & Hc & Hf). exists l, ch, []. auto.
Qed.

Lemma ins_ok_child ndx ndx' tl tl' st func ins : ins_ok ndx tl st func ins ->
  (ndx = None -> ndx' = None /\ tl' = tl) -> ins_ok ndx' tl' st func ins.
Proof.
  intros [v ? ? ? ?|? ? ? ? ? ?|? ? ? ? ?] Hn; [by eapply ins_one|destruct Hn as [-> ->]; [done|]..].
  - by apply ins_run.
  - by apply ins_leaf.
Qed.

Lemma leaf_cached xs t' sib c c' off count :
  is_leaf t' = true -> leaf_cache_after (cache_leaf xs off) c' count xs t' ->
  (Z.of_nat (off + length xs + count) < 2 ^ 64)%Z ->
  cached_in off (elements t' ++ sib_elems sib) (leave_child c' t').
Proof.
  intros Hlf [_ Hb] Hlt. destruct t' as [ys|]; [|done]. cbn [elements leave_child].
  destruct Hb as [Hb|(Hb & [[He Hs]|[He Hs]])]; [by left| |]; cbn in Hb, He, Hs.
  - apply cached_in_leaf; [done|]. rewrite He, u64_small by lia. lia.
  - injection Hs as ->. by apply cached_in_leaf.
Qed.

Lemma bptree_insert_spec h t ndx st func ins c off :
  wf MAX h t -> match ndx with Some n => n < get_tree_size t | None => True end ->
  ins_ok ndx (tail_leaf t) st func ins -> (Z.of_nat (off + get_tree_size t + length ins) < 2 ^ 64)%Z ->
  exists t' sib st' c',
    bptree_insert MAX off t ndx st func (enter_child c t off) = Ok (t', sib, st', c') /\
    inserted h ndx t ins st t' sib st' /\ cached_in off (elements t' ++ sib_elems sib) (leave_child c' t').
Proof.
  revert t ndx c off. induction h as [|h IH]; intros [xs|s cs ts] ndx c off Hw Hn Hi Hb; try done.
  - destruct (leaf_insert_spec xs ndx st func ins (cache_leaf xs off)) as (t' & sib & st' & c' & He & Ho & Hlf & Hc);
      [cbn in Hw; lia|done..|].
    exists t', sib, st', c'. split; [done|]. split; [done|]. eapply leaf_cached; [done..|].
    apply ins_count in Hi as (-> & _). done.
  - destruct (insert_child _ _ _ _ ndx Hw Hn) as (l & ch & r & -> & Hs1 & Hf & Hsel).
    cbn [bptree_insert enter_child]. destruct Hw as (Hlen & HF & -> & Hs).
    set (s1 := match ndx with Some _ => ensure_offsets s (length (l ++ ch :: r)) | None => s end) in *.
    rewrite Hf, on_nth_middle. pose proof HF as HF'. apply Forall_app in HF' as [Hwl HF'].
    apply Forall_cons_iff in HF' as [Hch Hwr]. pose proof (wf_tsum _ _ _ Hwl) as Htl.
    pose proof (wf_size _ _ _ Hch) as Hsz. pose proof (ins_count _ _ _ _ _ Hi) as (Hcnt & Hpos & Hone).
    set (ndx' := match ndx with Some n => Some (n - tsum l) | None => None end).
    destruct (IH ch ndx' c (tsum l + off)) as (ch' & sib & st1 & c1 & He & Ho & Hc1); [done|..].
    { destruct ndx; [unfold ndx'; lia|done]. }
    { eapply ins_ok_child; [done|]. intros ->. split; [done|]. subst r. by rewrite tail_leaf_last. }
    { cbn [get_tree_size] in Hb. rewrite tsum_app, tsum_cons in Hb. lia. }
    rewrite He. cbn [mbind result_bind]. rewrite insert_middle.
    set (E1 := ins_at (pos ndx' (elements ch)) ins (elements ch)).
    destruct (parent_step_spec h s1 l ch r E1 st ch' sib st1 (leave_child c1 ch')) as (t' & sib' & st' & Hp & Hso); try done.
    { lia. }
    { destruct Ho as [H1 H2 H3 H4 H5]. split; try done. intros Hc. apply H4. destruct ndx; [destruct Hsel as [_ Hsel]; congruence|].
      unfold ndx', append_compact. destruct s1 as [e|]; [|done]. destruct Hs1 as (-> & Hs1).
      by eapply slot_compact_full. }
    { unfold E1. rewrite length_ins_at, Hcnt, Hsz. done. }
    { intros Hr. rewrite Hcnt. apply Hone. by destruct ndx. }
    { destruct ndx; [|done]. destruct Hsel as [_ ->]. done. }
    exists t', sib', st', (leave_child c1 ch'). split; [exact Hp|].
    assert (HE : elems l ++ E1 ++ elems r = ins_at (pos ndx (elems (l ++ ch :: r))) ins (elems (l ++ ch :: r))).
    { rewrite elems_app, elems_cons. symmetry. apply ins_at_middle.
      - destruct ndx; cbn; lia.
      - unfold ndx'. destruct ndx as [n|]; cbn [pos]; [lia|]. subst r. cbn. rewrite !length_app. cbn. lia. }
    split.
    + unfold inserted. cbn [elements]. fold (elems (l ++ ch :: r)). rewrite <- HE.
      destruct Hso as [H1 H2 H3 H4 H5]. split; try done. intros Hc. apply H4. by destruct ndx.
    + destruct t' as [|s' cs' ts']; [by destruct (i_wf _ _ _ _ _ _ _ Hso)|]. cbn [leave_child].
      rewrite (i_elems _ _ _ _ _ _ _ Hso). apply (cached_in_lift off (tsum l + off)); [|lia].
      unfold E1. by rewrite <- (i_elems _ _ _ _ _ _ _ Ho).
Qed.

End Insert.
