(* ===== verification/BPTreeErase.v ===== *)
(** * Erasure from the B+-tree

    [bptree_erase] on a well-formed node removes the element, keeps the node
    well-formed through the removal of an empty child or the merge of two small
    siblings, and reports size 0 exactly when nothing is left of the node. *)

From S2P Require Import Prelude BPlusTree BPTreeWf BPTreeInsert.

Local Open Scope nat_scope.

Section Erase.
Context {A : Type}.
Implicit Types (t : node A) (c : Cache A) (cs l r : list (node A)) (E xs : list A).

Definition erase_at (n : nat) E : list A := list_erase_range n (S n) E.

Lemma length_erase_at n E : n < length E -> length (erase_at n E) = length E - 1.
Proof. intros. unfold erase_at, list_erase_range. rewrite length_app, length_take, length_drop. lia. Qed.

Lemma erase_at_middle x y E p q : p < length E -> q = length x + p ->
  erase_at q (x ++ E ++ y) = x ++ erase_at p E ++ y.
Proof.
  intros Hp ->. unfold erase_at, list_erase_range. rewrite <- Nat.add_succ_r.
  rewrite take_app_add, drop_app_add, take_app_le, drop_app_le by lia. by rewrite <- !app_assoc.
Qed.

Lemma erase_at_app {B} (x y : list B) (z : B) : list_erase_range (length x) (S (length x)) (x ++ z :: y) = x ++ y.
Proof.
  unfold list_erase_range. rewrite take_app_length.
  replace (x ++ z :: y) with ((x ++ [z]) ++ y) by (by rewrite <- app_assoc).
  rewrite drop_app_length'; [done|]. rewrite length_app. cbn. lia.
Qed.

Context (MAX : nat) (HMAX : 2 <= MAX).

(** The outcome on a node: [E] is what it still holds. *)
Definition erased (h : nat) E t' (sz : nat) : Prop :=
  elements t' = E /\ (sz = 0 /\ E = [] \/ sz = get_node_size t' /\ wf MAX h t').

Lemma wf_node_size h t : wf MAX h t -> 1 <= get_node_size t <= MAX.
Proof. destruct h, t; cbn; try done. tauto. Qed.

(** ** Removing a child *)

Lemma remove_child l (ch : node A) r : l ++ r <> [] ->
  erase_and_destroy_bp_node (heads l ++ starts (tsum l) r) (l ++ ch :: r) (length l) = (offsets_of (l ++ r), l ++ r).
Proof.
  intros Hne. unfold erase_and_destroy_bp_node. rewrite erase_at_app. f_equal. rewrite length_app, length_heads, length_starts.
  rewrite (proj2 (Nat.eqb_neq _ _)) by (destruct l, r; cbn; (done || lia)).
  destruct r as [|x r]; cbn [length].
  - rewrite Nat.add_0_r, Nat.ltb_irrefl. destruct l as [|y l] using rev_ind; [done|]. clear IHl.
    rewrite heads_snoc, !app_nil_r, length_app. cbn [starts length].
    replace (length l + 1) with (S (length l)) by lia. cbn [Nat.sub]. rewrite Nat.sub_0_r.
    rewrite <- (length_heads l), erase_at_app, app_nil_r, offsets_split. cbn. by rewrite app_nil_r.
  - rewrite (proj2 (Nat.ltb_lt _ _)) by lia. cbn [starts]. rewrite <- (length_heads l), erase_at_app.
    by rewrite offsets_split.
Qed.

(** The offsets once the child after [ch'] is merged into it. *)
Lemma merge_offsets l (ch' merged x : node A) r : get_tree_size merged = get_tree_size ch' + get_tree_size x ->
  let o := heads l ++ starts (tsum l + get_tree_size ch') (x :: r) in
  let o' := if length l + 1 <? length o then <[length l + 1 - 1 := nth (length l + 1) o 0]> o else o in
  erase_and_destroy_bp_node o' (l ++ merged :: x :: r) (length l + 1) =
  (offsets_of (l ++ merged :: r), l ++ merged :: r).
Proof.
  intros Hm o o'. cbn [starts] in o. set (b := tsum l + get_tree_size ch') in o.
  unfold erase_and_destroy_bp_node. f_equal.
  - assert (Ho : length o = length l + 1 + length r).
    { unfold o. rewrite length_app, length_heads. cbn. rewrite length_starts. lia. }
    replace (length o') with (length o) by (unfold o'; destruct (_ <? _); [by rewrite length_insert|done]).
    rewrite (proj2 (Nat.eqb_neq _ _)) by lia. unfold o'. rewrite Ho.
    destruct r as [|y r]; cbn [length starts] in *.
    + rewrite Nat.add_0_r, Nat.ltb_irrefl. replace (length l + 1 - 1) with (length l) by lia.
      replace (length l + 1) with (S (length l)) by lia. unfold o. cbn [starts].
      rewrite <- (length_heads l), erase_at_app, offsets_split. done.
    + rewrite (proj2 (Nat.ltb_lt _ _)) by lia. unfold o. cbn [starts].
      replace (length l + 1 - 1) with (length (heads l)) by (rewrite length_heads; lia). rewrite insert_middle.
      rewrite app_nth2 by (rewrite length_heads; lia). rewrite length_heads.
      replace (length l + 1 - length l) with 1 by lia. cbn [nth].
      replace (heads l ++ b + get_tree_size x :: b + get_tree_size x :: starts (b + get_tree_size x + get_tree_size y) r)
        with ((heads l ++ [b + get_tree_size x]) ++ b + get_tree_size x :: starts (b + get_tree_size x + get_tree_size y) r)
        by (by rewrite <- app_assoc).
      replace (length l + 1) with (length (heads l ++ [b + get_tree_size x])) by (rewrite length_app, length_heads; done).
      rewrite erase_at_app, offsets_split, <- app_assoc. cbn [starts app].
      replace (tsum l + get_tree_size merged) with (b + get_tree_size x) by lia. done.
  - replace (l ++ merged :: x :: r) with ((l ++ [merged]) ++ x :: r) by (by rewrite <- app_assoc).
    replace (length l + 1) with (length (l ++ [merged])) by (rewrite length_app; done).
    rewrite erase_at_app, <- app_assoc. done.
Qed.

(** ** Merging two children *)

Lemma move_all cs1 (x : node A) cs2 (n1 : nat) : cs1 <> [] -> n1 = tsum cs1 -> 1 <= n1 ->
  (inner_move (Offsets (offsets_of (x :: cs2)), x :: cs2) (Offsets (offsets_of cs1), cs1) 0 (- Z.of_nat n1)).2 =
  (Offsets (offsets_of (cs1 ++ x :: cs2)), cs1 ++ x :: cs2).
Proof.
  intros Hne -> Hp. unfold inner_move. cbn [fst snd drop m_offsets inner_move_loop get_bp_node_offset].
  unfold add_bp_node_ref. cbn [fst snd].
  rewrite (proj2 (Nat.eqb_neq _ _)) by lia. unfold offsets_of at 1. cbn [starts tail].
  change (starts (0 + get_tree_size x) cs2) with ([] ++ starts (get_tree_size x) cs2).
  change 1 with (S (length (@nil nat))). rewrite move_loop_starts by lia. f_equal.
  - f_equal. unfold offsets_of. rewrite starts_app. destruct cs1; [done|]. cbn [starts app tail].
    rewrite <- app_assoc. cbn [app]. repeat f_equal; lia.
  - by rewrite <- app_assoc.
Qed.

Lemma merge_children_spec h l (ch' x : node A) r :
  wf MAX h ch' -> wf MAX h x -> forall m o',
  let o := heads l ++ starts (tsum l + get_tree_size ch') (x :: r) in
  merge_children MAX o (length l) (get_node_size ch') ch' x = Some (m, o') ->
  wf MAX h m /\ get_tree_size m = get_tree_size ch' + get_tree_size x /\ elements m = elements ch' ++ elements x /\
  get_node_size m = get_node_size ch' + get_node_size x /\
  o' = (if length l + 1 <? length o then <[length l + 1 - 1 := nth (length l + 1) o 0]> o else o).
Proof.
  intros Hc Hx m o' o. unfold merge_children.
  destruct (Nat.ltb_spec (get_node_size x + get_node_size ch') (MAX * 3 / 4)) as [Hlt|]; [|done].
  assert (Hle : MAX * 3 / 4 <= MAX) by (apply Nat.Div0.div_le_upper_bound; lia).
  destruct h as [|h], ch' as [xs|s1 cs1 n1], x as [ys|s2 cs2 n2]; try done.
  - intros [= <- <-]. cbn in *. rewrite length_app. repeat split; lia.
  - destruct Hc as (Hl1 & Hw1 & -> & Hs1), Hx as (Hl2 & Hw2 & -> & Hs2).
    rewrite (ensure_offsets_ok _ _ _ _ Hs1), (ensure_offsets_ok _ _ _ _ Hs2).
    assert (Hn : nth (length l + 1 - 1) o 0 = tsum l + tsum cs1).
    { unfold o. rewrite app_nth2 by (rewrite length_heads; lia). rewrite length_heads.
      replace (length l + 1 - 1 - length l) with 0 by lia. done. }
    rewrite Hn. unfold o at 1. rewrite heads_offset.
    replace (Z.of_nat (tsum l) - Z.of_nat (tsum l + tsum cs1))%Z with (- Z.of_nat (tsum cs1))%Z by lia.
    destruct cs2 as [|x cs2]; [cbn in Hl2; lia|].
    assert (Hne : cs1 <> []) by (intros ->; cbn in Hl1; lia).
    assert (Hp : 1 <= tsum cs1).
    { destruct cs1 as [|y cs1]; [done|]. apply Forall_cons_iff in Hw1 as [Hy _].
      apply wf_pos in Hy. rewrite tsum_cons. lia. }
    pose proof (move_all cs1 x cs2 _ Hne eq_refl Hp) as Hm.
    destruct (inner_move _ _ _ _) as [? [s3 cs3]]. cbn [snd] in Hm. injection Hm as -> ->.
    intros [= <- <-]. split; [|split; [done|split; [|split; [by cbn; rewrite length_app|done]]]].
    + rewrite <- tsum_app. apply wf_offsets; [rewrite length_app; cbn in *; lia|]. by apply Forall_app.
    + cbn. fold (elems (cs1 ++ x :: cs2)). fold (elems cs1). by rewrite elems_app, elems_cons.
Qed.

(** ** An inner node after the erasure in a child *)

(** The erasure leaves a leaf of the tree below the root: a root that has lost
    a child is not collapsed into a leaf. *)
Definition keeps_leaf (num_children : nat) t' (sz : nat) : Prop :=
  sz <> 0 /\ (sz = num_children \/ is_leaf (collapse_root t' sz) = false).

(** The child [ch] of [l ++ ch :: r] lost one element and became [ch']. *)
Record child_erased (h : nat) l (ch ch' : node A) r E (sz : nat) : Prop := {
  e_wf : Forall (wf MAX h) (l ++ ch :: r);
  e_len : length (l ++ ch :: r) <= MAX;
  e_out : erased h E ch' sz;
  e_size : get_tree_size ch = length E + 1
}.

Definition node_erased (h : nat) l (ch ch' : node A) r E (sz : nat) c : Prop :=
  exists t' sz' c',
    after_erase MAX (heads l ++ starts (tsum l + length E) r) (l ++ ch' :: r) (tsum (l ++ ch :: r) - 1)
      (length l) sz ch' c = (t', sz', c') /\
    erased (S h) (elems l ++ E ++ elems r) t' sz' /\ is_leaf t' = false /\
    (m_cached_leaf_begin c' = npos \/ c' = c /\ keeps_leaf (length (l ++ ch :: r)) t' sz').

Lemma child_erased_wf h l ch ch' r E sz : child_erased h l ch ch' r E sz ->
  Forall (wf MAX h) l /\ Forall (wf MAX h) r.
Proof. intros [H _ _ _]. apply Forall_app in H as [? H]. by apply Forall_cons_iff in H as [_ ?]. Qed.

Lemma erased_inner h cs : 1 <= length cs <= MAX -> Forall (wf MAX h) cs ->
  erased (S h) (elems cs) (Inner (Offsets (offsets_of cs)) cs (tsum cs)) (length cs).
Proof. intros. split; [done|]. right. split; [done|]. by apply wf_offsets. Qed.

Lemma after_erase_empty h l ch ch' r sz c : child_erased h l ch ch' r [] sz -> sz = 0 ->
  m_cached_leaf_begin c = npos -> node_erased h l ch ch' r [] sz c.
Proof.
  intros Hc -> Hnp. destruct (child_erased_wf _ _ _ _ _ _ _ Hc) as [Hl Hr]. destruct Hc as [_ Hlen [He _] Hsz].
  cbn in Hsz. unfold node_erased, after_erase. cbn [length Nat.eqb]. rewrite Nat.add_0_r.
  destruct (Nat.eqb_spec (length (l ++ ch' :: r)) 1) as [H1|H1]; rewrite length_app in H1; cbn in H1.
  - destruct l, r; cbn in H1; try lia. eexists _, _, _. split; [done|]. split; [|auto].
    split; [|by left]. cbn. by rewrite He.
  - assert (Hne : l ++ r <> []) by (destruct l, r; cbn in *; done).
    rewrite remove_child by done. eexists _, _, _. split; [done|]. split; [|auto].
    replace (tsum (l ++ ch :: r) - 1) with (tsum (l ++ r)) by (rewrite !tsum_app, tsum_cons; lia).
    replace (length (l ++ ch' :: r) - 1) with (length (l ++ r)) by (rewrite !length_app; cbn; lia).
    cbn [app]. rewrite <- elems_app. apply erased_inner.
    + rewrite length_app in *. cbn in Hlen. destruct l, r; cbn in *; (done || lia).
    + by apply Forall_app.
Qed.

(** The merge of [ch'] and its sibling [x] into [m]. *)
Lemma after_merge h l (ch' x m : node A) r o' c E :
  wf MAX h ch' -> Forall (wf MAX h) l -> Forall (wf MAX h) (x :: r) -> elements ch' = E ->
  length l + S (S (length r)) <= MAX ->
  merge_children MAX (offsets_of (l ++ ch' :: x :: r)) (length l) (get_node_size ch') ch' x = Some (m, o') ->
  let '(offs, cs) := erase_and_destroy_bp_node o' (<[length l := m]> (l ++ ch' :: x :: r)) (length l + 1) in
  let t' := Inner (Offsets offs) cs (tsum (l ++ ch' :: x :: r)) in
  let sz := length (l ++ ch' :: x :: r) - 1 in
  let c' := if is_leaf ch' then invalidate_leaf_cache (leave_child c m) else c in
  erased (S h) (elems l ++ E ++ elems (x :: r)) t' sz /\
  (m_cached_leaf_begin c' = npos \/ c' = c /\ keeps_leaf (length (l ++ ch' :: x :: r)) t' sz).
Proof.
  intros Hch' Hl Hr <- Hlen Em. apply Forall_cons_iff in Hr as [Hx Hr]. rewrite offsets_split in Em.
  apply (merge_children_spec h) in Em as (Hwm & Hsm & Hem & Hnm & ->); [|done..].
  rewrite insert_middle, merge_offsets by done. cbv zeta.
  replace (length (l ++ ch' :: x :: r) - 1) with (length (l ++ m :: r)) by (rewrite !length_app; cbn; lia).
  replace (tsum (l ++ ch' :: x :: r)) with (tsum (l ++ m :: r)) by (rewrite !tsum_app, !tsum_cons; lia).
  replace (elems l ++ elements ch' ++ elems (x :: r)) with (elems (l ++ m :: r))
    by (rewrite elems_app, !elems_cons, Hem, <- app_assoc; done).
  split; [apply erased_inner; [rewrite length_app; cbn in *; lia|apply Forall_app; auto]|].
  destruct ch' as [xs|s1 cs1 n1]; [by left|]. right. split; [done|]. rewrite !length_app. cbn [length].
  split; [lia|]. right. destruct h as [|h]; [done|]. destruct m as [|sm csm nm]; [by destruct Hwm|].
  destruct l as [|y l]; cbn [collapse_root app length]; [|by rewrite (proj2 (Nat.eqb_neq _ _)) by lia].
  destruct r; cbn [length Nat.add Nat.sub Nat.eqb]; [|done].
  pose proof (wf_node_size _ _ Hch'). pose proof (wf_node_size _ _ Hx). destruct csm as [|z csm]; [done|].
  cbn [collapse_root]. rewrite (proj2 (Nat.eqb_neq _ _)) by lia. done.
Qed.

Lemma after_erase_spec h l ch ch' r E sz c : child_erased h l ch ch' r E sz ->
  (sz = 0 -> m_cached_leaf_begin c = npos) -> node_erased h l ch ch' r E sz c.
Proof.
  intros Hc Hnp. pose proof Hc as [Hw Hlen [He [[-> ->]|[-> Hch']]] Hsz]; [by apply after_erase_empty; auto|].
  destruct (child_erased_wf _ _ _ _ _ _ _ Hc) as [Hl Hr]. clear Hc.
  pose proof (wf_node_size _ _ Hch') as Hn. pose proof (wf_size _ _ _ Hch') as Hs. rewrite He in Hs.
  assert (Hts : tsum (l ++ ch :: r) - 1 = tsum (l ++ ch' :: r)) by (rewrite !tsum_app, !tsum_cons; lia).
  assert (Hll : length (l ++ ch :: r) = length (l ++ ch' :: r)) by (by rewrite !length_app).
  assert (Hun : erased (S h) (elems l ++ E ++ elems r)
    (Inner (Offsets (offsets_of (l ++ ch' :: r))) (l ++ ch' :: r) (tsum (l ++ ch' :: r))) (length (l ++ ch' :: r))).
  { rewrite <- He, <- elems_cons, <- elems_app. apply erased_inner; [rewrite length_app in *; cbn in *; lia|].
    apply Forall_app. auto. }
  unfold node_erased. rewrite Hll in *. rewrite length_app in Hlen. cbn [length] in Hlen.
  assert (Hk : keeps_leaf (length (l ++ ch' :: r)) (Inner (Offsets (offsets_of (l ++ ch' :: r))) (l ++ ch' :: r)
    (tsum (l ++ ch' :: r))) (length (l ++ ch' :: r))).
  { split; [rewrite length_app; cbn; lia|by left]. }
  unfold after_erase. rewrite <- Hs, Hts, <- offsets_split.
  rewrite (proj2 (Nat.eqb_neq _ _)) by lia. destruct (_ && _) eqn:Hm; [|eauto 10].
  apply andb_true_iff in Hm as [_ Hm]. apply Nat.ltb_lt in Hm. rewrite length_app in Hm. cbn in Hm.
  destruct r as [|x r]; [cbn in Hm; lia|].
  match goal with |- context [on_nth ?f ?d _ _] => assert (Hx : on_nth f d (l ++ ch' :: x :: r) (length l + 1) = f x) end.
  { replace (l ++ ch' :: x :: r) with ((l ++ [ch']) ++ x :: r) by (by rewrite <- app_assoc).
    replace (length l + 1) with (length (l ++ [ch'])) by (by rewrite length_app). by rewrite on_nth_middle. }
  rewrite Hx. clear Hx. cbv beta.
  destruct (merge_children _ _ _ _ _ _) as [[m o']|] eqn:Em; [|eauto 10].
  apply (after_merge h l ch' x m r o' c E) in Em; try done.
  destruct (erase_and_destroy_bp_node _ _ _) as [offs cs]. destruct Em as [? ?]. eauto 10.
Qed.

(** ** The whole descent *)

Lemma cached_npos off E c : m_cached_leaf_begin c = npos -> cached_in off E c.
Proof. by left. Qed.

(** The cache after the erasure in a leaf that is a child. *)
Lemma erase_leaf_cached xs n off E : n < length xs -> E = erase_at n xs ->
  (Z.of_nat (off + length xs) < 2 ^ 64)%Z ->
  let c := write_leaf (cache_leaf xs off) E in
  cached_in off E (if length E =? 0 then invalidate_leaf_cache c else adjust_leaf_bounds c (-1)).
Proof.
  intros Hn -> Hb c. destruct (Nat.eqb_spec (length (erase_at n xs)) 0); [by left|].
  rewrite <- (app_nil_r (erase_at n xs)) at 1.
  pose proof (length_erase_at n xs Hn) as Hl.
  apply (cached_in_leaf off (erase_at n xs) [] (adjust_leaf_bounds c (-1))).
  - done.
  - cbn. rewrite u64_small, Hl by lia. lia.
Qed.

Lemma bptree_erase_spec h t n c off func :
  (forall xs i, func xs i = erase_at i xs) ->
  wf MAX h t -> n < get_tree_size t -> (Z.of_nat (off + get_tree_size t) < 2 ^ 64)%Z ->
  exists t' sz c', bptree_erase MAX off t n func c = Ok (t', sz, c') /\
    erased h (erase_at n (elements t)) t' sz /\
    match t with
    | Leaf _ => c' = c /\ is_leaf t' = true /\ sz = length (elements t')
    | Inner _ _ _ =>
        is_leaf t' = false /\
        (m_cached_leaf_begin c' = npos \/ cached_in off (elements t') c' /\ keeps_leaf (get_node_size t) t' sz)
    end.
Proof.
  intros Hf. revert t n c off. induction h as [|h IH]; intros [xs|s cs ts] n c off Hw Hn Hb; try done.
  - cbn in Hw, Hn. cbn [bptree_erase]. rewrite Hf. eexists _, _, _. split; [done|]. split; [|auto].
    split; [done|]. cbn. rewrite length_erase_at by done. destruct (Nat.eq_dec (length xs) 1) as [H1|].
    + left. split; [lia|]. apply length_zero_iff_nil. rewrite length_erase_at; lia.
    + right. lia.
  - destruct Hw as (Hlen & HF & -> & Hs). cbn [bptree_erase]. rewrite (ensure_offsets_ok _ _ _ _ Hs).
    cbn [m_offsets get_tree_size] in *.
    destruct (find_child_offsets cs n) as (l & ch & r & -> & Hfc & Hsel); [by intros ->; cbn in Hlen; lia|done|].
    unfold find_child in Hfc. injection Hfc as Hk Ho. rewrite Ho, Hk, on_nth_middle.
    pose proof HF as HF'. apply Forall_app in HF' as [Hwl HF']. apply Forall_cons_iff in HF' as [Hch Hwr].
    pose proof (wf_tsum _ _ _ Hwl) as Htl. pose proof (wf_size _ _ _ Hch) as Hsz.
    rewrite tsum_app, tsum_cons in Hb.
    destruct (IH ch (n - tsum l) (enter_child c ch (tsum l + off)) (tsum l + off))
      as (ch' & sz & c1 & He & Her & Hc1); [done|lia..|].
    rewrite He. cbn [mbind result_bind]. rewrite insert_middle.
    set (E := erase_at (n - tsum l) (elements ch)) in *.
    assert (HlE : get_tree_size ch = length E + 1) by (unfold E; rewrite length_erase_at; lia).
    rewrite offsets_split, (heads_adjust l _ (tsum l + length E)) by lia.
    set (c2 := if is_leaf ch then _ else _).
    assert (Hc2 : (sz = 0 -> m_cached_leaf_begin c2 = npos) /\ cached_in (tsum l + off) E c2).
    { destruct Her as [Hel _]. unfold c2. destruct ch as [xs|s2 cs2 ts2]; cbn [is_leaf].
      - destruct Hc1 as (-> & Hl' & ->). destruct ch' as [ys|]; [|done]. cbn [elements leave_child] in *. subst ys.
        split; [by intros ->|]. apply (erase_leaf_cached xs (n - tsum l)); (done || cbn in *; lia).
      - destruct Hc1 as (Hl' & Hc1). destruct ch'; [done|]. cbn [leave_child]. rewrite Hel in Hc1.
        destruct Hc1 as [Hc1|[Hc1 [Hnz _]]]; split; (done || by left). }
    destruct Hc2 as [Hz Hc2].
    destruct (after_erase_spec h l ch ch' r E sz c2) as (t' & sz' & c' & Ha & Hout & Hlf & Hcc); [by split; (done || lia)|done|].
    rewrite Ha. eexists _, _, _. split; [done|].
    assert (HE : elems l ++ E ++ elems r = erase_at n (elems (l ++ ch :: r))).
    { rewrite elems_app, elems_cons. symmetry. apply erase_at_middle; lia. }
    rewrite elements_inner, <- HE. split; [done|]. split; [done|].
    destruct Hcc as [|[-> Hkl]]; [by left|]. right. split; [|done]. destruct Hout as [-> _].
    apply (cached_in_lift off (tsum l + off)); [done|lia].
Qed.

End Erase.
