(* ===== verification/BPTreeOps.v ===== *)
(** * The B+-tree operations refine list operations

    The invariant [tree_ok] of a [BPlusTree] object covers the shape of the
    tree, the cached size and the leaf cache. Each operation is shown to
    succeed, to keep the invariant, and to act on the contents as the list
    operation it stands for. *)

From S2P Require Import Prelude BPlusTree BPTreeWf BPTreeInsert BPTreeErase.

Local Open Scope nat_scope.

Section Access.
Context {A : Type} (MAX : nat).
Implicit Types (t : node A) (c : Cache A) (cs l : list (node A)) (E xs : list A).

(** ** Replacing children by others of the same size *)

Definition reshaped (h : nat) t t' : Prop :=
  wf MAX h t' /\ get_tree_size t' = get_tree_size t /\ is_compact t' = is_compact t.

Lemma starts_ext b cs cs' : map get_tree_size cs' = map get_tree_size cs -> starts b cs' = starts b cs.
Proof.
  revert b cs'. induction cs as [|x cs IH]; intros b [|y cs'] H; try done. cbn in *. injection H as Hx H.
  rewrite Hx. f_equal. by apply IH.
Qed.

Lemma wf_replace_all h s cs cs' ts : wf MAX (S h) (Inner s cs ts) -> Forall2 (reshaped h) cs cs' ->
  wf MAX (S h) (Inner s cs' ts).
Proof.
  intros (Hl & _ & -> & Hs) HF. pose proof (Forall2_length HF) as Hlen.
  assert (Hm : map get_tree_size cs' = map get_tree_size cs).
  { clear - HF. induction HF as [|x y cs cs' (_ & H & _) HF IH]; [done|]. cbn. by rewrite H, IH. }
  split; [lia|]. split.
  { clear - HF. induction HF as [|x y cs cs' (? & _) HF IH]; auto. }
  split; [unfold tsum; by rewrite Hm|]. destruct s as [e|o]; cbn [slot_ok] in *.
  - destruct Hs as (-> & Hc & Hf). split; [done|]. split.
    + clear - HF Hc. induction HF as [|x y cs cs' (_ & _ & H) HF IH]; [done|]. apply Forall_cons_iff in Hc as [? ?].
      constructor; [congruence|auto].
    + intros i y Hy Hi. destruct (Forall2_lookup_r _ _ _ _ _ HF Hy) as (x & Hx & _ & -> & _).
      apply (Hf i); [done|lia].
  - subst o. unfold offsets_of. f_equal. symmetry. by apply starts_ext.
Qed.

Lemma wf_replace h s l ch ch' (r : list (node A)) ts : wf MAX (S h) (Inner s (l ++ ch :: r) ts) -> reshaped h ch ch' ->
  wf MAX (S h) (Inner s (l ++ ch' :: r) ts).
Proof.
  intros Hw Hch. eapply wf_replace_all; [exact Hw|]. destruct Hw as (_ & HF & _).
  assert (Hr : forall x, Forall (wf MAX h) x -> Forall2 (reshaped h) x x).
  { intros x. induction 1; constructor; [done|done]. }
  apply Forall_app in HF as [HF1 HF2]. apply Forall_cons_iff in HF2 as [_ HF2].
  apply Forall2_app; [auto|]. constructor; auto.
Qed.

(** ** Access *)

(** [t'] is [t] with the elements of one leaf changed. *)
Record accessed (h : nat) t t' (pre leaf leaf' post : list A) : Prop := {
  a_wf : wf MAX h t';
  a_elems : elements t' = pre ++ leaf' ++ post;
  a_size : get_tree_size t' = get_tree_size t;
  a_compact : is_compact t' = is_compact t;
  a_leaf : is_leaf t' = is_leaf t;
  a_node_size : get_node_size t' = get_node_size t;
  a_same : leaf' = leaf -> t' = t
}.

Lemma bptree_access_spec {R} h t n (func : list A -> nat -> list A * R) c off :
  (forall xs i, length (func xs i).1 = length xs) -> wf MAX h t -> n < get_tree_size t ->
  exists pre leaf post t' c',
    elements t = pre ++ leaf ++ post /\ length pre <= n < length pre + length leaf /\
    (S n = get_tree_size t -> leaf = tail_leaf t) /\
    bptree_access off t n func (enter_child c t off) = Ok (t', (func leaf (n - length pre)).2, c') /\
    accessed h t t' pre leaf (func leaf (n - length pre)).1 post /\
    cached_in off (elements t') (leave_child c' t').
Proof.
  intros Hfn. revert t n c off. induction h as [|h IH]; intros [xs|s cs ts] n c off Hw Hn; try done.
  - cbn in Hn, Hw. cbn [bptree_access]. pose proof (Hfn xs n) as Hl. destruct (func xs n) as [xs' r] eqn:Ef. cbn [fst] in Hl.
    exists [], xs, [], (Leaf xs'), (cache_leaf xs off). cbn [length app]. rewrite Nat.sub_0_r, app_nil_r, Ef.
    split; [done|]. split; [lia|]. split; [done|]. split; [done|]. split.
    + split; cbn; try done; [lia|by rewrite app_nil_r|by intros ->].
    + cbn [elements leave_child]. rewrite <- (app_nil_r xs') at 1. apply cached_in_leaf; [done|]. cbn. by rewrite Hl.
  - destruct (find_child_spec _ _ _ _ _ _ Hw Hn) as (l & ch & r & -> & Hf & Hb). cbn [bptree_access enter_child].
    rewrite Hf, on_nth_middle. pose proof Hw as (Hlen & HF & -> & Hs). apply Forall_app in HF as [Hwl HF].
    apply Forall_cons_iff in HF as [Hch Hwr]. pose proof (wf_tsum _ _ _ Hwl) as Htl.
    destruct (IH ch (n - tsum l) c (tsum l + off)) as (pre & leaf & post & ch' & c' & He & Hp & Htail & Ha & Hac & Hc);
      [done|lia|].
    rewrite Ha. cbn [mbind result_bind]. rewrite insert_middle. destruct Hac as [Hw' Hel Hsz Hcp Hlf Hns Hsm].
    assert (Hidx : n - length (elems l ++ pre) = n - tsum l - length pre) by (rewrite length_app; lia).
    exists (elems l ++ pre), leaf, (post ++ elems r), (Inner s (l ++ ch' :: r) (tsum (l ++ ch :: r))), (leave_child c' ch').
    rewrite Hidx. set (leaf' := (func leaf (n - tsum l - length pre)).1) in *.
    assert (HE : elems (l ++ ch' :: r) = (elems l ++ pre) ++ leaf' ++ post ++ elems r).
    { rewrite elems_app, elems_cons, Hel, <- !app_assoc. done. }
    split; [rewrite elements_inner, elems_app, elems_cons, He, <- !app_assoc; done|].
    split; [rewrite length_app; lia|]. split.
    { cbn [get_tree_size]. intros HS. destruct r as [|x r]; [by rewrite tail_leaf_last; apply Htail;
        rewrite tsum_app, tsum_cons in HS; cbn in HS; lia|].
      apply Forall_cons_iff in Hwr as [Hx _]. apply wf_pos in Hx. rewrite tsum_app, !tsum_cons in HS. lia. }
    split; [done|]. split.
    + split; try done; [by eapply wf_replace; [|split]|by cbn; rewrite !length_app|by intros ->; rewrite Hsm].
    + cbn [leave_child]. rewrite elements_inner, elems_app, elems_cons. apply (cached_in_lift off (tsum l + off)); [done|lia].
Qed.

(** ** Traversal *)

Fixpoint leaves t : list (list A) :=
  match t with Leaf xs => [xs] | Inner _ cs _ => concat (map leaves cs) end.

(** The callback on each leaf in turn. *)
Fixpoint fold_leaves {R} (func : list A -> nat -> R -> list A * R * IteratorControl) (off : nat)
    (ls : list (list A)) (r : R) : list (list A) * R * bool :=
  match ls with
  | [] => ([], r, false)
  | xs :: ls =>
      let '(xs', r, ctl) := func xs off r in
      match ctl with
      | Stop => (xs' :: ls, r, true)
      | AdvanceToNext => let '(ls', r, d) := fold_leaves func (off + length xs) ls r in (xs' :: ls', r, d)
      end
  end.

Lemma concat_leaves t : concat (leaves t) = elements t.
Proof.
  revert t. fix IH 1. intros [xs|s cs ts]; cbn; [apply app_nil_r|].
  induction cs as [|c cs IHcs]; [done|]. cbn. rewrite concat_app, IH, IHcs. done.
Qed.

Lemma fold_leaves_app {R} (func : list A -> nat -> R -> list A * R * IteratorControl) off ls1 ls2 (r : R) :
  fold_leaves func off (ls1 ++ ls2) r =
  let '(ls1', r, d) := fold_leaves func off ls1 r in
  if d then (ls1' ++ ls2, r, true)
  else let '(ls2', r, d) := fold_leaves func (off + length (concat ls1)) ls2 r in (ls1' ++ ls2', r, d).
Proof.
  revert off r. induction ls1 as [|xs ls1 IH]; intros off r; cbn [fold_leaves app concat].
  { cbn. rewrite Nat.add_0_r. by destruct (fold_leaves func off ls2 r) as [[? ?] ?]. }
  destruct (func xs off r) as [[xs' r1] []]; [|done]. rewrite IH.
  destruct (fold_leaves func (off + length xs) ls1 r1) as [[ls1' r2] []]; [done|].
  rewrite length_app, Nat.add_assoc. by destruct (fold_leaves func _ ls2 r2) as [[? ?] ?].
Qed.

(** The index at which a child starts, as the traversal computes it. *)
Lemma child_start h s l (ch : node A) r : slot_ok MAX h s (l ++ ch :: r) ->
  match s with
  | Offsets o => get_bp_node_offset o (length l)
  | Compact e => length l * e
  end = tsum l.
Proof.
  destruct s as [e|o]; cbn [slot_ok].
  - intros (-> & _ & Hf). symmetry. by eapply compact_tsum.
  - intros ->. rewrite offsets_split. apply heads_offset.
Qed.

Section Traverse.
Context {R : Type} (func : list A -> nat -> R -> list A * R * IteratorControl).
Context (Hfn : forall xs o r, length (func xs o r).1.1 = length xs).

(** The outcome of visiting [t], whose first element has index [off]. *)
Definition visited (h : nat) t (off : nat) (r : R) (out : node A * R * bool * Cache A) : Prop :=
  let '(t', r', d, c') := out in
  fold_leaves func off (leaves t) r = (leaves t', r', d) /\ reshaped h t t' /\
  is_leaf t' = is_leaf t /\ get_node_size t' = get_node_size t /\ cached_in off (elements t') c'.

Lemma traverse_children_spec h s off visit cs :
  (forall o t r c, wf MAX h t -> visited h t o r (visit o t r c)) ->
  Forall (wf MAX h) cs -> slot_ok MAX h s cs -> forall l2 l r c, cs = l ++ l2 ->
  let '(l2', r', d, c') := traverse_children visit s off (length l) l2 r c in
  fold_leaves func (tsum l + off) (concat (map leaves l2)) r = (concat (map leaves l2'), r', d) /\
  Forall2 (reshaped h) l2 l2' /\
  match l2 with [] => c' = c | _ => cached_in (tsum l + off) (elems l2') c' end.
Proof.
  intros Hv Hw Hs. induction l2 as [|ch l2 IH]; intros l r c Hcs; [done|]. cbn [traverse_children].
  rewrite Hcs in Hs, Hw. rewrite (child_start _ _ _ _ _ Hs). apply Forall_app in Hw as [Hwl Hw].
  apply Forall_cons_iff in Hw as [Hch Hw2]. specialize (Hv (tsum l + off) ch r c Hch).
  destruct (visit (tsum l + off) ch r c) as [[[ch' r1] d1] c1]. destruct Hv as (Hfl & Hre & _ & _ & Hc1).
  cbn [map concat]. rewrite fold_leaves_app, Hfl, concat_leaves, <- (wf_size _ _ _ Hch).
  assert (Hrefl : Forall2 (reshaped h) l2 l2).
  { clear - Hw2. induction Hw2; constructor; done. }
  destruct d1.
  { split; [done|]. split; [by constructor|]. rewrite elems_cons.
    apply (cached_in_lift (tsum l + off) (tsum l + off) [] _ (elems l2)); [done|]. cbn. lia. }
  specialize (IH (l ++ [ch]) r1 c1). rewrite length_app, Nat.add_1_r in IH.
  destruct (traverse_children visit s off (S (length l)) l2 r1 c1) as [[[l2' r2] d2] c2].
  destruct IH as (Hf2 & HF2 & Hc2); [rewrite Hcs, <- app_assoc; done|].
  rewrite tsum_app, tsum_cons in Hf2, Hc2. change (tsum []) with 0 in *.
  replace (tsum l + off + get_tree_size ch) with (tsum l + (get_tree_size ch + 0) + off) by lia.
  rewrite Hf2. split; [done|]. split; [by constructor|]. rewrite elems_cons.
  destruct l2 as [|x l2].
  - inversion HF2; subst. rewrite app_nil_r. done.
  - rewrite <- (app_nil_r (elems l2')). eapply cached_in_lift; [exact Hc2|].
    destruct Hre as (Hw' & Hsz & _). rewrite <- (wf_size _ _ _ Hw'). lia.
Qed.

Lemma visit_leaf xs off r : 1 <= length xs <= MAX ->
  visited 0 (Leaf xs) off r
    (let '(xs', r, ctl) := func xs off r in (Leaf xs', r, is_stop ctl, write_leaf (cache_leaf xs off) xs')).
Proof.
  intros Hx. pose proof (Hfn xs off r) as Hl. unfold visited. cbn [leaves fold_leaves].
  destruct (func xs off r) as [[xs' r'] ctl]. cbn [fst] in Hl.
  assert (Hc : cached_in off xs' (write_leaf (cache_leaf xs off) xs')).
  { rewrite <- (app_nil_r xs') at 1. apply cached_in_leaf; [done|]. cbn. by rewrite Hl. }
  destruct ctl; cbn; repeat split; (done || lia).
Qed.

Lemma bptree_traverse_spec h t off r c : wf MAX h t -> is_leaf t = false ->
  visited h t off r (bptree_traverse off t func r c).
Proof.
  revert t off r c. induction h as [|h IH]; intros [xs|s cs ts] off r c Hw Hlf; try done.
  cbn [bptree_traverse]. pose proof Hw as (Hlen & HF & _ & Hs).
  match goal with |- context [traverse_children ?v s off 0 cs r c] =>
    assert (Hv : forall o t r c, wf MAX h t -> visited h t o r (v o t r c)); [|
    pose proof (traverse_children_spec h s off v cs Hv HF Hs cs [] r c eq_refl) as Hc; cbn [length] in Hc;
    destruct (traverse_children v s off 0 cs r c) as [[[cs' r'] d] c'] ] end.
  - intros o [xs|s2 cs2 ts2] r2 c2 Hw2; [|by apply IH]. destruct h; [|done]. by apply visit_leaf.
  - destruct Hc as (Hfl & HF2 & Hc). destruct cs as [|x cs]; [cbn in Hlen; lia|].
    split; [exact Hfl|]. split; [split; [by eapply wf_replace_all|done]|]. split; [done|].
    split; [symmetry; exact (Forall2_length HF2)|exact Hc].
Qed.

End Traverse.
End Access.

(** ** The B+-tree operations refine list operations *)

Section Ops.
Context {A : Type} (MAX : nat).
Implicit Types (t : BPlusTree A) (c : Cache A) (E ins xs : list A).

(** ** The invariant *)

Definition content t : list A := elements (m_root t).

(** A cache that is in use is attached to a leaf of an inner root. *)
Definition cache_ok (root : node A) c : Prop :=
  m_cached_leaf_begin c = npos \/ is_leaf root = false /\ cached_in 0 (elements root) c.

(** Indices below [npos]. *)
Definition fits (n : nat) : Prop := (Z.of_nat n < 2 ^ 64 - 1)%Z.

Record tree_ok t : Prop := {
  t_root : root_ok MAX (m_root t);
  t_size : m_size t = length (content t);
  t_cache : cache_ok (m_root t) (m_cache t);
  t_fits : fits (m_size t)
}.

Lemma root_size (root : node A) : root_ok MAX root -> get_tree_size root = length (elements root).
Proof. intros [->|(h & Hw & _)]; [done|by eapply wf_size]. Qed.

Lemma root_wf_leaf xs : length xs <= MAX -> root_ok MAX (Leaf xs).
Proof. intros. destruct xs as [|x xs]; [by left|]. right. exists 0. split; [cbn in *; lia|done]. Qed.

Lemma root_leaf_len xs : root_ok MAX (Leaf xs) -> length xs <= MAX.
Proof. intros [[= ->]|([|h] & Hw & _)]; cbn in *; (done || lia). Qed.

Lemma cache_inner s (cs : list (node A)) ts c : cached_in 0 (elements (Inner s cs ts)) c -> cache_ok (Inner s cs ts) c.
Proof. intros. right. by split. Qed.

(** ** Reading and writing one element *)

(** An access at [n] applies its callback to the leaf [pre ++ leaf ++ post] is
    cut at; the tree and its cache stay well-formed. *)
Lemma root_access {R} t n (func : list A -> nat -> list A * R) :
  (forall xs i, length (func xs i).1 = length xs) -> tree_ok t -> n < m_size t ->
  exists pre leaf post root c,
    content t = pre ++ leaf ++ post /\ length pre <= n < length pre + length leaf /\
    (S n = m_size t -> leaf = tail_leaf (m_root t)) /\
    bptree_access 0 (m_root t) n func (m_cache t) = Ok (root, (func leaf (n - length pre)).2, c) /\
    tree_ok (mkTree root (m_size t) c) /\ elements root = pre ++ (func leaf (n - length pre)).1 ++ post /\
    ((func leaf (n - length pre)).1 = leaf -> root = m_root t).
Proof.
  intros Hfn [Hr Hsz Hc Hfit] Hn. unfold content in *. destruct (m_root t) as [xs|s cs ts] eqn:Er.
  - cbn [bptree_access]. cbn in Hsz. pose proof (Hfn xs n) as Hl. destruct (func xs n) as [xs' r] eqn:Ef. cbn [fst] in Hl.
    exists [], xs, [], (Leaf xs'), (m_cache t). cbn [length app elements tail_leaf]. rewrite Nat.sub_0_r, !app_nil_r, Ef.
    cbn [fst snd]. split; [done|]. split; [lia|]. split; [done|]. split; [done|]. split; [|split; [done|by intros ->]].
    split; cbn; try done; [|lia|by destruct Hc as [?|[? _]]; [left|]].
    apply root_wf_leaf. rewrite Hl. by apply root_leaf_len.
  - destruct Hr as [?|(h & Hw & H2)]; [done|]. pose proof (wf_size _ _ _ Hw) as Hs.
    destruct (bptree_access_spec MAX h (Inner s cs ts) n func (m_cache t) 0 Hfn Hw)
      as (pre & leaf & post & root & c & He & Hp & Htl & Ha & [Hw' Hel Hsz' Hcp Hlf Hns Hsm] & Hca); [lia|].
    exists pre, leaf, post, root, c. split; [done|]. split; [done|]. split; [intros; apply Htl; lia|].
    split; [exact Ha|]. split; [|done]. destruct root as [|s' cs' ts']; [done|].
    split; unfold content; cbn [m_root m_size m_cache]; [|by rewrite <- (wf_size _ _ _ Hw'), Hsz', Hs| |done].
    + right. exists h. split; [done|]. intros _. rewrite Hns. by apply H2.
    + by apply cache_inner.
Qed.

Lemma get_uncached_spec t n x : tree_ok t -> content t !! n = Some x ->
  exists t', get_uncached t n = Ok (x, t') /\ tree_ok t' /\ m_root t' = m_root t /\ m_size t' = m_size t.
Proof.
  intros Ht Hx. pose proof (lookup_lt_Some _ _ _ Hx) as Hn. rewrite <- (t_size _ Ht) in Hn. unfold get_uncached.
  destruct (root_access t n (fun xs i => (xs, xs !! i))) as (pre & leaf & post & root & c & He & Hp & _ & -> & Ht' & Hel & Hsm); try done.
  cbn [mbind result_bind fst snd] in *. rewrite He, lookup_app_r, lookup_app_l in Hx by lia. rewrite Hx.
  eexists. split; [done|]. split; [done|]. split; [by apply Hsm|done].
Qed.

(** The cached path and the descent read the same element. *)
Lemma tree_get_spec t n x : tree_ok t -> content t !! n = Some x ->
  exists t', tree_get t n = Ok (x, t') /\ tree_ok t' /\ m_root t' = m_root t /\ m_size t' = m_size t.
Proof.
  intros Ht Hx. unfold tree_get. destruct (_ && _) eqn:Eb; [|by apply get_uncached_spec].
  apply andb_true_iff in Eb as [Hb He]. apply Z.leb_le in Hb. apply Z.ltb_lt in He.
  pose proof (lookup_lt_Some _ _ _ Hx) as Hn. rewrite <- (t_size _ Ht) in Hn.
  pose proof (t_fits _ Ht) as Hf. unfold fits in Hf.
  destruct (t_cache _ Ht) as [Hc|[_ [Hc|(pre & post & HE & Hbg & Hend)]]]; [unfold npos in Hc; lia..|].
  unfold content in Hx. rewrite HE in Hx. rewrite lookup_app_r, lookup_app_l in Hx by lia.
  replace (Z.to_nat (Z.of_nat n - m_cached_leaf_begin (m_cache t))) with (n - length pre) by lia.
  rewrite Hx. eauto 10.
Qed.

Lemma insert_segment {B} (pre leaf post : list B) n v : length pre <= n < length pre + length leaf ->
  <[n := v]> (pre ++ leaf ++ post) = pre ++ <[n - length pre := v]> leaf ++ post.
Proof. intros. rewrite insert_app_r_alt, insert_app_l by lia. done. Qed.

Lemma tree_set_spec t n v : tree_ok t -> n < m_size t ->
  exists t', tree_set t n v = Ok t' /\ tree_ok t' /\ content t' = <[n := v]> (content t).
Proof.
  intros Ht Hn. unfold tree_set.
  destruct (root_access t n (fun xs i => (<[i := v]> xs, tt))) as (pre & leaf & post & root & c & He & Hp & _ & -> & Ht' & Hel & _); try done.
  { intros. cbn. apply length_insert. }
  cbn [mbind result_bind fst snd] in *. eexists. split; [done|]. split; [done|].
  by rewrite He, insert_segment.
Qed.

Context (HMAX : 2 <= MAX).

(** ** Insertion *)

Lemma on_nth_cases {B C} (f : B -> C) d l i : on_nth f d l i = d \/ exists x, on_nth f d l i = f x.
Proof. revert i. induction l as [|y l IH]; intros [|i]; cbn; eauto. Qed.

Lemma insert_bp_node_form s (cs : list (node A)) ts i sib st (t' : node A) sib' st' :
  insert_bp_node MAX s cs ts i sib st = (t', sib', st') ->
  is_compact t' = slot_compact s /\ (sib' = None -> length cs < get_node_size t').
Proof.
  unfold insert_bp_node. destruct (Nat.ltb_spec (length cs) MAX).
  { intros [= <- <- <-]. split; [by destruct s|]. intros _. cbn. unfold list_insert_at.
    rewrite length_app, length_take. cbn [length]. rewrite length_drop. lia. }
  destruct s as [e|o]; destruct (_ =? _); unfold inner_move, add_bp_node_ref; cbn [fst snd].
  - intros [= <- <- <-]. done.
  - destruct (inner_move_loop _ _ _ _ _). intros [= <- <- <-]. done.
  - intros [= <- <- <-]. done.
  - destruct (inner_move_loop _ _ _ _ _). rewrite (proj2 (Nat.ltb_lt 0 _)) by lia.
    intros [= <- <- <-]. split; [|done]. cbn. by destruct (_ =? _).
Qed.

(** An inner node keeps its form on append, and loses no child when it is not
    split. *)
Lemma insert_form off s (cs : list (node A)) ts ndx st func c (t' : node A) sib st' c' :
  bptree_insert MAX off (Inner s cs ts) ndx st func c = Ok (t', sib, st', c') ->
  (ndx = None -> is_compact t' = slot_compact s) /\ (sib = None -> length cs <= get_node_size t').
Proof.
  cbn [bptree_insert].
  set (s1 := match ndx with Some _ => ensure_offsets s (length cs) | None => s end).
  assert (Hs1 : ndx = None -> slot_compact s1 = slot_compact s) by (by unfold s1; intros ->).
  destruct (match ndx with Some n => find_child s1 n | None => last_child s1 (length cs) end) as [ci co].
  match goal with |- on_nth ?f ?d ?l ?i = _ -> _ => destruct (on_nth_cases f d l i) as [-> | [x ->]] end; [done|].
  destruct (bptree_insert MAX (co + off) x _ st func _) as [[[[x' sib1] st1] c1]| |]; cbn [mbind result_bind]; try done.
  destruct sib1 as [sib1|].
  - destruct (insert_bp_node MAX s1 _ ts ci sib1 st1) as [[t2 sib2] st2] eqn:E. intros [= <- <- <- <-].
    apply insert_bp_node_form in E as [Hc Hl]. rewrite length_insert in Hl. split; [intros; rewrite Hc; auto|].
    intros. apply Nat.lt_le_incl. auto.
  - intros [= <- <- <- <-]. split; [intros Hn; rewrite <- Hs1 by done; by destruct s1|].
    intros _. cbn. by rewrite length_insert.
Qed.

(** The two halves of a split root under a new one. *)
Lemma new_root_ok h (a b : node A) comp : wf MAX h a -> wf MAX h b ->
  (comp = true -> is_compact a = true /\ is_compact b = true /\ get_tree_size a = cap MAX h) ->
  exists s,
    add_bp_node_ref (add_bp_node_ref (if comp then (Compact (get_tree_size a), []) else (Offsets [], [])) a 0)
      b (get_tree_size a) = (s, [a; b]) /\
    root_ok MAX (Inner s [a; b] (get_tree_size a + get_tree_size b)).
Proof.
  intros Ha Hb Hc. pose proof (wf_pos _ _ _ Ha).
  replace (get_tree_size a + get_tree_size b) with (tsum [a; b]) by (rewrite !tsum_cons; cbn; lia).
  destruct comp; unfold add_bp_node_ref; cbn [fst snd app Nat.eqb].
  - eexists. split; [done|]. right. exists (S h). split; [|cbn; lia].
    destruct (Hc eq_refl) as (Hca & Hcb & Hs). rewrite Hs. apply (wf_compact MAX h [a] b); cbn; auto.
  - rewrite (proj2 (Nat.eqb_neq _ _)) by lia. eexists. split; [done|]. right. exists (S h). split; [|cbn; lia].
    apply (wf_offsets MAX h [a; b]); cbn; auto.
Qed.

Definition norm (n : option nat) (size : nat) : option nat :=
  match n with Some k => if k =? size then None else Some k | None => None end.

(** The insertion as the root sees it, whatever its kind. *)
Lemma root_insert (root : node A) ndx st func ins c :
  root_ok MAX root -> match ndx with Some k => k < length (elements root) | None => True end ->
  ins_ok MAX ndx (tail_leaf root) st func ins -> fits (length (elements root) + length ins) -> cache_ok root c ->
  exists h root' sib st' c', bptree_insert MAX 0 root ndx st func c = Ok (root', sib, st', c') /\
    inserted MAX h ndx root ins st root' sib st' /\
    (m_cached_leaf_begin c' = npos \/ is_leaf root' = false /\ cached_in 0 (elements root' ++ sib_elems sib) c') /\
    (ndx = None -> is_compact root' = is_compact root) /\
    (sib = None -> is_leaf root' = false -> 2 <= get_node_size root').
Proof.
  intros Hr Hn Hi Hf Hc. unfold fits in *. destruct root as [xs|s cs ts].
  - destruct (leaf_insert_spec MAX HMAX xs ndx st func ins c) as (t' & sib & st' & c' & He & Ho & Hlf & Hcc);
      [by apply root_leaf_len|done..|].
    exists 0, t', sib, st', c'. split; [done|]. split; [done|]. destruct t' as [ys|]; [|done]. split; [|done].
    left. destruct Hc as [Hc|[? _]]; [|done]. by destruct Hcc as [_ [?|[-> _]]].
  - destruct Hr as [?|(h & Hw & H2)]; [done|]. pose proof (wf_size _ _ _ Hw) as Hs.
    destruct (bptree_insert_spec MAX HMAX h (Inner s cs ts) ndx st func ins c 0)
      as (t' & sib & st' & c' & He & Ho & Hcc); [done|by rewrite Hs|done|rewrite Hs; lia|].
    exists h, t', sib, st', c'. split; [done|]. split; [done|].
    destruct h as [|h]; [done|]. destruct t' as [|s' cs' ts']; [by destruct (i_wf _ _ _ _ _ _ _ _ Ho)|].
    apply insert_form in He as [Hf1 Hf2]. split; [by right|]. split; [intros; rewrite Hf1 by done; by destruct s|].
    intros Hs2 _. specialize (H2 eq_refl). specialize (Hf2 Hs2). cbn in *. lia.
Qed.

Lemma base_insert_spec t n func count leaf ins :
  tree_ok t -> match n with Some k => k <= m_size t | None => True end ->
  ins_ok MAX (norm n (m_size t)) (tail_leaf (m_root t)) (mkState 0 0 count leaf) func ins ->
  fits (m_size t + length ins) ->
  exists root c, base_insert MAX t n func count leaf = Ok (root, c) /\ root_ok MAX root /\
    elements root = ins_at (pos n (content t)) ins (content t) /\ cache_ok root c.
Proof.
  intros [Hr Hsz Hc Hfit] Hn Hi Hf. unfold base_insert. rewrite (root_size _ Hr). fold (content t). rewrite <- Hsz.
  fold (norm n (m_size t)). set (n' := norm n (m_size t)) in *.
  assert (Hpos : pos n' (content t) = pos n (content t)).
  { unfold n', norm, pos. destruct n as [k|]; [|done]. destruct (Nat.eqb_spec k (m_size t)); lia. }
  assert (Hlt : match n' with Some k => k < length (content t) | None => True end).
  { unfold n', norm. destruct n as [k|]; [|done]. destruct (Nat.eqb_spec k (m_size t)); (done || lia). }
  rewrite <- Hpos. clearbody n'. clear Hpos Hn n. rewrite Hsz in Hf.
  destruct (root_insert (m_root t) n' _ func ins (m_cache t) Hr Hlt Hi Hf Hc)
    as (h & root & sib & st & c & -> & [Hw Hsib Hel Hcomp Hcnt] & Hca & Hform & H2).
  cbn [mbind result_bind]. fold (content t) in Hel. destruct sib as [sib|]; cbn [sib_elems] in *.
  - destruct Hsib as (Hws & -> & ->). eexists _, _. split; [done|].
    set (comp := match n' with None => is_compact root | Some _ => false end).
    destruct (new_root_ok h root sib comp Hw Hws) as (s & Hcs & Hro).
    { unfold comp. intros Hcp. destruct n'; [done|]. destruct Hcomp as (? & ? & ?); [|auto].
      cbn. by rewrite <- Hform. }
    rewrite Hcs. cbn [fst snd]. split; [exact Hro|].
    assert (HE : elements (Inner s [root; sib] (get_tree_size root + get_tree_size sib)) = elements root ++ elements sib)
      by (cbn; by rewrite app_nil_r).
    split; [by rewrite HE|]. destruct Hca as [|[_ Hca]]; [by left|]. apply cache_inner. by rewrite HE.
  - rewrite app_nil_r in *. eexists _, _. split; [done|]. split; [right; eauto|]. split; [done|].
    destruct Hca as [|[? ?]]; [by left|by right].
Qed.

(** One element inserted at [n], or at the end. *)
Lemma tree_insert_spec t n v : tree_ok t -> match n with Some k => k <= m_size t | None => True end ->
  fits (m_size t + 1) ->
  exists t', tree_insert MAX t n v = Ok t' /\ tree_ok t' /\
    content t' = list_insert_at (pos n (content t)) v (content t).
Proof.
  intros Ht Hn Hf.
  destruct (base_insert_spec t n (fun xs i => list_insert_at i v xs) 1 None [v]) as (root & c & He & Hr & Hel & Hc); try done.
  { by eapply ins_one. }
  unfold tree_insert. rewrite He. eexists. split; [done|]. split; [|done]. split; try done.
  unfold content. cbn [m_root m_size]. rewrite Hel, length_ins_at, (t_size _ Ht). done.
Qed.

(** ** Erasure *)

Lemma collapse_root_spec h (root : node A) : wf MAX h root ->
  root_ok MAX (collapse_root root (get_node_size root)) /\
  elements (collapse_root root (get_node_size root)) = elements root.
Proof.
  revert root. induction h as [|h IH]; intros [xs|s cs ts] Hw; try done.
  - split; [|done]. right. exists 0. by split.
  - cbn [get_node_size]. destruct cs as [|c cs]; [destruct Hw; cbn in *; lia|]. cbn [collapse_root].
    destruct (Nat.eqb_spec (length (c :: cs)) 1) as [H1|H1].
    + destruct cs; [|done]. destruct Hw as (_ & HF & _). apply Forall_cons_iff in HF as [Hc _].
      destruct (IH c Hc) as [Hr ->]. split; [done|]. cbn. by rewrite app_nil_r.
    + split; [|done]. right. exists (S h). split; [done|]. cbn in *. lia.
Qed.

Lemma wf_children_le h s (cs : list (node A)) ts : wf MAX (S h) (Inner s cs ts) -> length cs <= ts.
Proof.
  intros (_ & HF & -> & _). induction HF as [|c cs Hc HF IH]; [done|]. rewrite tsum_cons. cbn [length].
  apply wf_pos in Hc. lia.
Qed.

Lemma tree_erase_spec t n : tree_ok t -> n < m_size t ->
  exists t', tree_erase MAX t n = Ok t' /\ tree_ok t' /\ content t' = erase_at n (content t).
Proof.
  intros [Hr Hsz Hc Hfit] Hn. unfold tree_erase.
  assert (Hlen : length (erase_at n (content t)) = m_size t - 1) by (rewrite length_erase_at; lia).
  unfold fits, content in *. destruct (m_root t) as [xs|s cs ts] eqn:Er.
  - cbn [bptree_erase mbind result_bind]. eexists. split; [done|]. split; [|done].
    split; unfold content; cbn [m_root m_size m_cache collapse_root elements] in *.
    + apply root_wf_leaf. apply root_leaf_len in Hr. unfold erase_at in Hlen. lia.
    + done.
    + by destruct Hc as [?|[? _]]; [left|].
    + unfold fits. lia.
  - destruct Hr as [?|(h & Hw & H2)]; [done|]. specialize (H2 eq_refl). pose proof (wf_size _ _ _ Hw) as Hs.
    destruct h as [|h]; [done|]. pose proof (wf_children_le _ _ _ _ Hw) as Hcl.
    destruct (bptree_erase_spec MAX HMAX (S h) (Inner s cs ts) n (m_cache t) 0
      (fun xs i => list_erase_range i (S i) xs)) as (root & sz & c' & -> & [Hel Hout] & Hlf & Hcc); try done; try lia.
    destruct Hout as [[-> Hnil]|[-> Hw']].
    { rewrite Hnil in Hlen. cbn in *. lia. }
    cbn [mbind result_bind]. eexists. split; [done|]. destruct (collapse_root_spec _ _ Hw') as [Hro Hce].
    split; [|by unfold content; cbn [m_root]; rewrite Hce]. split; unfold content; cbn [m_root m_size m_cache].
    + done.
    + by rewrite Hce, Hel.
    + destruct Hcc as [Hcc|[Hcc [_ Hk]]]; [by left|]. right. rewrite Hce. split; [|done].
      destruct Hk as [Hk|Hk]; [|done]. destruct root as [|s' cs' ts']; [done|]. cbn [get_node_size] in *.
      destruct cs' as [|x cs']; [done|]. cbn [collapse_root]. rewrite (proj2 (Nat.eqb_neq _ _)) by lia. done.
    + unfold fits. lia.
Qed.

End Ops.
