(* ===== verification/BPTreeBulk.v ===== *)
(** * Bulk operations and searches of the B+-tree

    The operations over a whole tree, the building of trees from runs of values,
    and [lower_bound] on a tree whose elements are partitioned by the search value. *)

From stdpp Require Import sorting.
From S2P Require Import Prelude BPlusTree BPTreeWf BPTreeInsert BPTreeErase BPTreeOps.

Local Open Scope nat_scope.

Section Bulk.
Context {A : Type} (MAX : nat).
Implicit Types (t : BPlusTree A) (c : Cache A) (E xs : list A).

(** ** Traversals of a whole tree *)

Lemma root_traverse {R} t (func : list A -> nat -> R -> list A * R * IteratorControl) (r : R) :
  (forall xs o r, length (func xs o r).1.1 = length xs) -> tree_ok MAX t ->
  let '(root, r', d, c) := bptree_traverse 0 (m_root t) func r (m_cache t) in
  fold_leaves func 0 (leaves (m_root t)) r = (leaves root, r', d) /\ tree_ok MAX (mkTree root (m_size t) c).
Proof.
  intros Hfn [Hr Hsz Hc Hfit]. unfold content in Hsz. destruct (m_root t) as [xs|s cs ts] eqn:Er.
  - cbn [bptree_traverse leaves fold_leaves]. pose proof (Hfn xs 0 r) as Hl.
    destruct (func xs 0 r) as [[xs' r'] ctl]. cbn [fst] in Hl. split; [by destruct ctl|].
    split; cbn; [apply root_wf_leaf; rewrite Hl; by apply root_leaf_len|cbn in Hsz; lia| |done].
    by destruct Hc as [?|[? _]]; [left|].
  - destruct Hr as [?|(h & Hw & H2)]; [done|].
    pose proof (bptree_traverse_spec MAX func Hfn h (Inner s cs ts) 0 r (m_cache t) Hw eq_refl) as Hv.
    destruct (bptree_traverse _ _ _ _ _) as [[[root r'] d] c].
    destruct Hv as (Hfl & (Hw' & Hs' & _) & Hlf & Hns & Hca). split; [done|].
    destruct root as [|s' cs' ts']; [done|]. split; unfold content; cbn [m_root m_size m_cache].
    + right. exists h. split; [done|]. intros _. rewrite Hns. by apply H2.
    + by rewrite <- (wf_size _ _ _ Hw'), Hs', (wf_size _ _ _ Hw).
    + by apply cache_inner.
    + done.
Qed.

Lemma get_all_spec t : tree_ok MAX t -> (get_all t).1 = content t /\ tree_ok MAX (get_all t).2 /\ content (get_all t).2 = content t.
Proof.
  intros Ht. unfold get_all.
  pose proof (root_traverse t (fun xs _ acc => (xs, acc ++ xs, AdvanceToNext)) [] ltac:(done) Ht) as H.
  destruct (bptree_traverse _ _ _ _ _) as [[[root r'] d] c]. destruct H as [Hf Ht']. cbn [fst snd].
  assert (Hg : forall ls off acc, fold_leaves (fun xs _ acc => (xs, acc ++ xs, AdvanceToNext)) off ls acc =
    (ls, acc ++ concat ls, false)).
  { induction ls as [|xs ls IH]; intros off acc; cbn; [by rewrite app_nil_r|]. rewrite IH. by rewrite <- app_assoc. }
  rewrite Hg in Hf. injection Hf as Hl <- _. rewrite concat_leaves. split; [done|]. split; [done|].
  unfold content. cbn [m_root]. by rewrite <- !concat_leaves, Hl.
Qed.

(** ** The first occurrence of a value *)

Lemma leaf_find_first_app (eqb : A -> A -> bool) v xs ys :
  leaf_find_first eqb v (xs ++ ys) =
  if leaf_find_first eqb v xs <? length xs then leaf_find_first eqb v xs else length xs + leaf_find_first eqb v ys.
Proof.
  induction xs as [|x xs IH]; [done|]. cbn [app leaf_find_first length]. destruct (eqb x v); [done|]. rewrite IH.
  change (S (leaf_find_first eqb v xs) <? S (length xs)) with (leaf_find_first eqb v xs <? length xs).
  by destruct (_ <? _).
Qed.

Lemma leaf_find_first_le (eqb : A -> A -> bool) v xs : leaf_find_first eqb v xs <= length xs.
Proof. induction xs as [|x xs IH]; cbn; [done|]. destruct (eqb x v); lia. Qed.

Lemma find_first_spec (eqb : A -> A -> bool) t v : tree_ok MAX t ->
  let i := leaf_find_first eqb v (content t) in
  (find_first eqb t v).1 = (if i <? m_size t then Some i else None) /\ tree_ok MAX (find_first eqb t v).2 /\
  content (find_first eqb t v).2 = content t.
Proof.
  intros Ht i. unfold find_first.
  set (func := fun xs offset r => _).
  assert (Hfn : forall xs o r, (func xs o r).1.1 = xs).
  { intros. unfold func. by destruct (_ <? _). }
  pose proof (root_traverse t func None ltac:(intros; by rewrite Hfn) Ht) as H.
  destruct (bptree_traverse _ _ _ _ _) as [[[root r'] d] c]. destruct H as [Hf Ht']. cbn [fst snd].
  assert (Hg : forall ls off, let k := leaf_find_first eqb v (concat ls) in
    fold_leaves func off ls None = (ls, if k <? length (concat ls) then Some (k + off) else None, k <? length (concat ls))).
  { induction ls as [|xs ls IH]; intros off; cbn [fold_leaves concat]; [done|].
    rewrite leaf_find_first_app, length_app. unfold func at 1. destruct (Nat.ltb_spec (leaf_find_first eqb v xs) (length xs)).
    - rewrite (proj2 (Nat.ltb_lt _ _)) by lia. done.
    - rewrite IH. set (k := leaf_find_first eqb v (concat ls)).
      replace (length xs + k <? length xs + length (concat ls)) with (k <? length (concat ls))
        by (destruct (Nat.ltb_spec k (length (concat ls))), (Nat.ltb_spec (length xs + k) (length xs + length (concat ls))); (done || lia)).
      destruct (_ <? _); [|done]. do 3 f_equal. lia. }
  rewrite Hg in Hf. injection Hf as Hl <- _. rewrite concat_leaves. fold (content t). rewrite (t_size _ _ Ht), Nat.add_0_r.
  split; [done|]. split; [by rewrite <- (t_size _ _ Ht)|]. unfold content. cbn [m_root]. by rewrite <- !concat_leaves, Hl.
Qed.

(** ** Updating many positions *)

Definition apply_sets (off : nat) (pv : list (nat * A)) E : list A :=
  fold_left (fun E pv => <[pv.1 - off := pv.2]> E) pv E.

Lemma apply_sets_cons off p pv E : apply_sets off (p :: pv) E = apply_sets off pv (<[p.1 - off := p.2]> E).
Proof. done. Qed.

Lemma apply_sets_0 pv E : apply_sets 0 pv E = fold_left (fun E p => <[p.1 := p.2]> E) pv E.
Proof. revert E. induction pv as [|p pv IH]; intros E; [done|]. rewrite apply_sets_cons, Nat.sub_0_r. apply IH. Qed.

Lemma length_apply_sets off pv E : length (apply_sets off pv E) = length E.
Proof. revert E. induction pv as [|p pv IH]; intros E; [done|]. by rewrite apply_sets_cons, IH, length_insert. Qed.

Lemma apply_sets_app off pv1 pv2 E : apply_sets off (pv1 ++ pv2) E = apply_sets off pv2 (apply_sets off pv1 E).
Proof. apply fold_left_app. Qed.

Lemma apply_sets_l off pv xs ys : Forall (fun p => off <= p.1 < off + length xs) pv ->
  apply_sets off pv (xs ++ ys) = apply_sets off pv xs ++ ys.
Proof.
  revert xs. induction pv as [|p pv IH]; intros xs HF; [done|]. apply Forall_cons_iff in HF as [Hp HF].
  rewrite !apply_sets_cons, insert_app_l by lia. apply IH. by rewrite length_insert.
Qed.

Lemma apply_sets_r off pv xs ys : Forall (fun p => off + length xs <= p.1) pv ->
  apply_sets off pv (xs ++ ys) = xs ++ apply_sets (off + length xs) pv ys.
Proof.
  revert ys. induction pv as [|p pv IH]; intros ys HF; [done|]. apply Forall_cons_iff in HF as [Hp HF].
  rewrite !apply_sets_cons, insert_app_r_alt by lia. rewrite IH by done.
  by replace (p.1 - off - length xs) with (p.1 - (off + length xs)) by lia.
Qed.

Lemma set_leaf_loop_spec off end_ xs pv : StronglySorted lt (map fst pv) -> Forall (fun p => off <= p.1) pv ->
  exists pv1 pv2, pv = pv1 ++ pv2 /\ set_leaf_loop off end_ xs pv = (apply_sets off pv1 xs, pv2) /\
    Forall (fun p => off <= p.1 < end_) pv1 /\ Forall (fun p => end_ <= p.1) pv2.
Proof.
  revert xs. induction pv as [|[p v] pv IH]; intros xs Hs Ho; cbn [set_leaf_loop].
  { by exists [], []. }
  cbn in Hs. apply StronglySorted_inv in Hs as [Hs Hp]. apply Forall_cons_iff in Ho as [Hop Ho]. cbn in Hop.
  destruct (Nat.ltb_spec p end_).
  - destruct (IH (<[p - off := v]> xs) Hs Ho) as (pv1 & pv2 & -> & -> & H1 & H2).
    exists ((p, v) :: pv1), pv2. split; [done|]. split; [done|]. auto.
  - exists [], ((p, v) :: pv). split; [done|]. split; [done|]. split; [done|]. constructor; [done|].
    rewrite Forall_map in Hp. eapply Forall_impl; [|exact Hp]. cbn. lia.
Qed.

Definition set_func (xs : list A) (offset : nat) (rest : list (nat * A)) : list A * list (nat * A) * IteratorControl :=
  let '(xs, rest) := set_leaf_loop offset (offset + length xs) xs rest in
  (xs, rest, if length rest =? 0 then Stop else AdvanceToNext).

Lemma length_set_leaf_loop off e xs pv : length (set_leaf_loop off e xs pv).1 = length xs.
Proof.
  revert xs. induction pv as [|[p v] pv IH]; intros xs; cbn [set_leaf_loop]; [done|]. destruct (p <? e); [|done].
  by rewrite IH, length_insert.
Qed.

Lemma fold_sets ls off pv : StronglySorted lt (map fst pv) -> Forall (fun p => off <= p.1) pv ->
  concat (fold_leaves set_func off ls pv).1.1 = apply_sets off pv (concat ls) \/
  exists p, p ∈ pv /\ off + length (concat ls) <= p.1.
Proof.
  revert off pv. induction ls as [|xs ls IH]; intros off pv Hs Ho; cbn [fold_leaves concat].
  { destruct pv as [|p pv]; [by left|]. right. exists p. split; [left|]. apply Forall_cons_iff in Ho. cbn. lia. }
  unfold set_func at 1. destruct (set_leaf_loop_spec off (off + length xs) xs pv Hs Ho) as (pv1 & pv2 & -> & -> & H1 & H2).
  rewrite apply_sets_app, apply_sets_l by done. destruct pv2 as [|p2 pv2]; [by left|]. cbn [length Nat.eqb].
  rewrite map_app in Hs. apply StronglySorted_app in Hs as (_ & _ & Hs2).
  specialize (IH (off + length xs) (p2 :: pv2) Hs2 H2).
  destruct (fold_leaves set_func (off + length xs) ls (p2 :: pv2)) as [[ls' r] d]. cbn [fst] in *.
  destruct IH as [IH|(p & Hp & Hpl)].
  - left. cbn [concat]. rewrite IH, apply_sets_r; rewrite length_apply_sets; done.
  - right. exists p. split; [by apply elem_of_app; right|]. rewrite length_app. lia.
Qed.

Lemma check_positions_ok size prev ps : StronglySorted lt ps -> Forall (fun p => p < size) ps ->
  match prev with Some q => Forall (fun p => q < p) ps | None => True end ->
  check_positions size prev ps = Ok tt.
Proof.
  revert prev. induction ps as [|p ps IH]; intros prev Hs Hb Hq; [done|]. cbn [check_positions].
  apply StronglySorted_inv in Hs as [Hs Hp]. apply Forall_cons_iff in Hb as [Hpb Hb].
  rewrite (proj2 (Nat.leb_gt _ _)) by done.
  assert (Hprev : match prev with Some q => p <=? q | None => false end = false).
  { destruct prev; [|done]. apply Forall_cons_iff in Hq as [Hq _]. by apply Nat.leb_gt. }
  rewrite Hprev. by apply IH.
Qed.

(** Conversely, what passes the check is strictly increasing and in range. *)
Lemma check_positions_sound size prev ps : check_positions size prev ps = Ok tt ->
  StronglySorted lt ps /\ Forall (fun p => p < size) ps /\
  match prev with Some q => Forall (fun p => q < p) ps | None => True end.
Proof.
  revert prev. induction ps as [|p ps IH]; intros prev H; [by destruct prev; repeat constructor|]. cbn [check_positions] in H.
  destruct (Nat.leb_spec size p) as [|Hlt]; [done|].
  destruct (match prev with Some q => p <=? q | None => false end) eqn:Hprev; [done|].
  apply IH in H as (Hs & Hb & Hq). split; [by constructor|]. split; [by constructor|].
  destruct prev as [q|]; [|done]. apply Nat.leb_gt in Hprev. constructor; [done|].
  eapply Forall_impl; [|exact Hq]. cbn. lia.
Qed.

Lemma check_positions_fuel size prev ps : check_positions size prev ps <> OutOfFuel.
Proof.
  revert prev. induction ps as [|p ps IH]; intros prev; cbn [check_positions]; [done|].
  destruct (size <=? p); [done|]. destruct prev as [q|]; [destruct (p <=? q); [done|]|]; apply IH.
Qed.

Lemma set_many_spec t pv : tree_ok MAX t -> check_positions (m_size t) None (map fst pv) = Ok tt ->
  exists t', set_many t pv = Ok t' /\ tree_ok MAX t' /\
    content t' = fold_left (fun E p => <[p.1 := p.2]> E) pv (content t).
Proof.
  intros Ht Hck. unfold set_many. rewrite Hck. destruct pv as [|p pv]; [by exists t|]. cbn [length Nat.eqb mbind result_bind].
  set (pvs := p :: pv) in *. apply check_positions_sound in Hck as (Hs & Hb & _).
  assert (Hlen : forall xs o r, length (set_func xs o r).1.1 = length xs).
  { intros. unfold set_func. pose proof (length_set_leaf_loop o (o + length xs) xs r) as Hl.
    by destruct (set_leaf_loop _ _ _ _). }
  pose proof (root_traverse t set_func pvs Hlen Ht) as H. fold set_func.
  change (fun xs offset rest => let '(xs0, rest0) := set_leaf_loop offset (offset + length xs) xs rest in
    (xs0, rest0, if length rest0 =? 0 then Stop else AdvanceToNext)) with set_func.
  destruct (bptree_traverse _ _ _ _ _) as [[[root r'] d] c]. destruct H as [Hf Ht'].
  eexists. split; [done|]. split.
  { destruct Ht' as [H1 H2 H3 H4]. split; try done. by left. }
  unfold content. cbn [m_root]. rewrite <- (concat_leaves root), <- (concat_leaves (m_root t)).
  destruct (fold_sets (leaves (m_root t)) 0 pvs Hs) as [He|(q & Hq & Hqb)].
  - apply Forall_forall. lia.
  - rewrite Hf in He. cbn [fst] in He. by rewrite He, apply_sets_0.
  - exfalso. rewrite concat_leaves in Hqb. fold (content t) in Hqb. rewrite <- (t_size _ _ Ht) in Hqb.
    rewrite Forall_map in Hb. rewrite Forall_forall in Hb. specialize (Hb q ltac:(by apply list_elem_of_In)). cbn in Hb. lia.
Qed.

(** ** Swapping, clearing, reading a run *)

Lemma tree_swap_spec t i j x y : tree_ok MAX t -> content t !! i = Some x -> content t !! j = Some y ->
  exists t', tree_swap t i j = Ok t' /\ tree_ok MAX t' /\ content t' = <[j := x]> (<[i := y]> (content t)).
Proof.
  intros Ht Hx Hy. pose proof (lookup_lt_Some _ _ _ Hx) as Hi. pose proof (lookup_lt_Some _ _ _ Hy) as Hj.
  rewrite <- (t_size _ _ Ht) in Hi, Hj. unfold tree_swap.
  destruct (tree_get_spec MAX t i x Ht Hx) as (t1 & -> & Ht1 & Hr1 & Hs1). cbn [mbind result_bind].
  destruct (tree_get_spec MAX t1 j y Ht1) as (t2 & -> & Ht2 & Hr2 & Hs2); [unfold content; by rewrite Hr1|]. cbn [mbind result_bind].
  destruct (tree_set_spec MAX t2 i y Ht2) as (t3 & -> & Ht3 & Hc3); [lia|]. cbn [mbind result_bind].
  assert (Hs3 : m_size t3 = m_size t2) by (rewrite (t_size _ _ Ht3), Hc3, length_insert, <- (t_size _ _ Ht2); done).
  destruct (tree_set_spec MAX t3 j x Ht3) as (t4 & -> & Ht4 & Hc4); [lia|]. exists t4. split; [done|]. split; [done|].
  rewrite Hc4, Hc3. unfold content. by rewrite Hr2, Hr1.
Qed.

Lemma tree_clear_spec t : tree_ok MAX t -> tree_ok MAX (tree_clear t) /\ content (tree_clear t) = [].
Proof.
  intros [Hr _ Hc _]. unfold tree_clear. destruct (m_root t) as [xs|]; (split; [|done]).
  - split; cbn; try done; [by left|by destruct Hc as [?|[? _]]; [left|]].
  - split; cbn; try done; by left.
Qed.

Lemma get_range_spec fuel t n count : tree_ok MAX t -> n + count <= m_size t -> count <= fuel ->
  exists t', get_range fuel t n count = Ok (take count (drop n (content t)), t') /\ tree_ok MAX t' /\
    m_root t' = m_root t /\ m_size t' = m_size t.
Proof.
  revert t n count. induction fuel as [|fuel IH]; intros t n count Ht Hn Hf.
  { replace count with 0 by lia. by exists t. }
  destruct count as [|count]; [by exists t|]. cbn [get_range].
  set (func := fun xs ndx => _).
  destruct (root_access MAX t n func) as (pre & leaf & post & root & c & He & Hp & _ & -> & Ht' & Hel & Hsm); [done|done|lia|].
  cbn [mbind result_bind]. unfold func in *. cbn [fst snd] in *. clear func. specialize (Hsm eq_refl).
  set (k := S count `min` (length leaf - (n - length pre))). set (out := take k (drop (n - length pre) leaf)).
  assert (Hk : length out = k) by (unfold out; rewrite length_take, length_drop; lia).
  assert (Hk1 : 1 <= k <= S count) by (unfold k; lia).
  rewrite Hk. destruct (IH (mkTree root (m_size t) c) (n + k) (S count - k) Ht') as (t' & -> & Ht2 & Hr2 & Hs2); [cbn [m_size]; lia|lia|].
  cbn [mbind result_bind]. exists t'. split; [|by rewrite Hr2, Hs2; cbn; rewrite Hsm]. do 2 f_equal.
  unfold content at 1. cbn [m_root]. rewrite Hsm. fold (content t).
  replace (take (S count) (drop n (content t))) with (take (k + (S count - k)) (drop n (content t))) by (f_equal; lia).
  rewrite <- take_take_drop, drop_drop. f_equal. unfold out. rewrite He.
  rewrite drop_app_ge by lia. rewrite drop_app_le by lia. rewrite take_app_le; [done|]. rewrite length_drop. lia.
Qed.

(** ** Erasing many positions *)

(** The elements of [E], the first of which has index [i], outside [ps]. *)
Fixpoint without (i : nat) (ps : list nat) E : list A :=
  match E with
  | [] => []
  | x :: E => if bool_decide (i ∈ ps) then without (S i) ps E else x :: without (S i) ps E
  end.

Lemma without_app i ps xs ys : without i ps (xs ++ ys) = without i ps xs ++ without (i + length xs) ps ys.
Proof.
  revert i. induction xs as [|x xs IH]; intros i; cbn [without app length]; [by rewrite Nat.add_0_r|].
  rewrite IH, Nat.add_succ_r. by case_bool_decide.
Qed.

Lemma without_ext i ps qs E : (forall j, i <= j -> j ∈ ps <-> j ∈ qs) -> without i ps E = without i qs E.
Proof.
  revert i. induction E as [|x E IH]; intros i H; cbn [without]; [done|].
  rewrite (bool_decide_ext (i ∈ ps) (i ∈ qs)) by (apply H; lia). rewrite (IH (S i)); [done|]. intros. apply H. lia.
Qed.

Lemma without_before i ps E : Forall (fun p => i + length E <= p) ps -> without i ps E = E.
Proof.
  revert i. induction E as [|x E IH]; intros i H; cbn [without length] in *; [done|].
  rewrite bool_decide_eq_false_2.
  - f_equal. apply IH. eapply Forall_impl; [|exact H]. cbn. lia.
  - intros Hi. rewrite Forall_forall in H. apply list_elem_of_In in Hi. specialize (H _ Hi). lia.
Qed.

Lemma without_sorted ps E : StronglySorted lt ps -> Forall (fun p => p < length E) ps ->
  fold_right erase_at E ps = without 0 ps E.
Proof.
  induction ps as [|p ps IH]; intros Hs Hb; cbn [fold_right]; [symmetry; by apply without_before|].
  apply StronglySorted_inv in Hs as [Hs Hp]. apply Forall_cons_iff in Hb as [Hpb Hb]. rewrite IH by done.
  destruct (lookup_lt_is_Some_2 E p Hpb) as [x Hx]. rewrite <- (take_drop_middle E p x Hx).
  set (l := take p E). set (r := drop (S p) E). assert (Hl : length l = p) by (unfold l; rewrite length_take; lia).
  rewrite !without_app, Hl. cbn [without Nat.add]. rewrite (bool_decide_eq_true_2 (p ∈ p :: ps)) by left.
  rewrite bool_decide_eq_false_2.
  2:{ intros Hin. apply list_elem_of_In in Hin. rewrite Forall_forall in Hp. specialize (Hp _ Hin). lia. }
  rewrite !(without_before 0); [| |].
  - rewrite <- Hl. unfold erase_at. rewrite erase_at_app. f_equal. apply without_ext.
    intros j Hj. rewrite elem_of_cons. split; [by right|]. intros [->|]; [lia|done].
  - rewrite Hl. constructor; [lia|]. eapply Forall_impl; [|exact Hp]. cbn. lia.
  - rewrite Hl. eapply Forall_impl; [|exact Hp]. cbn. lia.
Qed.

Lemma sorted_count ps lo hi : StronglySorted lt ps -> Forall (fun p => lo <= p < hi) ps -> length ps <= hi - lo.
Proof.
  revert lo. induction ps as [|p ps IH]; intros lo Hs Hb; cbn [length]; [lia|].
  apply StronglySorted_inv in Hs as [Hs Hp]. apply Forall_cons_iff in Hb as [Hpb Hb].
  assert (length ps <= hi - S p); [|lia]. apply IH; [done|]. rewrite Forall_forall in *. intros q Hq.
  specialize (Hp q Hq). specialize (Hb q Hq). lia.
Qed.

Context (HMAX : 2 <= MAX).

Lemma erase_many_loop_spec t ps : tree_ok MAX t -> StronglySorted lt ps -> Forall (fun p => p < m_size t) ps ->
  exists t', erase_many_loop MAX t ps = Ok t' /\ tree_ok MAX t' /\ content t' = fold_right erase_at (content t) ps /\
    m_size t' = m_size t - length ps.
Proof.
  intros Ht. induction ps as [|p ps IH]; intros Hs Hb; cbn [erase_many_loop fold_right length].
  { exists t. rewrite Nat.sub_0_r. done. }
  pose proof Hs as Hs'. apply StronglySorted_inv in Hs as [Hs Hp]. apply Forall_cons_iff in Hb as [Hpb Hb].
  destruct (IH Hs Hb) as (t1 & -> & Ht1 & Hc1 & Hs1). cbn [mbind result_bind].
  assert (Hcount : length ps <= m_size t - S p).
  { apply sorted_count; [done|]. rewrite Forall_forall in *. intros q Hq. specialize (Hp q Hq). specialize (Hb q Hq). lia. }
  destruct (tree_erase_spec MAX HMAX t1 p) as (t2 & -> & Ht2 & Hc2); [done|lia|]. exists t2.
  split; [done|]. split; [done|]. split; [by rewrite Hc2, Hc1|].
  rewrite (t_size _ _ Ht2), Hc2, length_erase_at, <- (t_size _ _ Ht1); [lia|]. rewrite <- (t_size _ _ Ht1). lia.
Qed.

Lemma erase_many_spec t ps : tree_ok MAX t -> check_positions (m_size t) None ps = Ok tt ->
  exists t', erase_many MAX t ps = Ok t' /\ tree_ok MAX t' /\ content t' = without 0 ps (content t).
Proof.
  intros Ht Hck. unfold erase_many. rewrite Hck. apply check_positions_sound in Hck as (Hs & Hb & _).
  assert (Hw : fold_right erase_at (content t) ps = without 0 ps (content t)).
  { apply without_sorted; [done|]. by rewrite <- (t_size _ _ Ht). }
  destruct (erase_many_loop_spec t ps Ht Hs Hb) as (t' & He & Ht' & Hc' & _). rewrite <- Hw, <- Hc'.
  destruct ps as [|p ps]; [|by exists t']. exists t. cbn in *. injection He as ->. done.
Qed.

End Bulk.

(** ** Building B+-trees *)

Section Build.
Context {A : Type} (MAX : nat) (HMAX : 2 <= MAX).
Implicit Types (t : BPlusTree A) (c : Cache A) (E xs : list A).

(** ** Appending to a tree that has elements *)

Lemma tail_leaf_len h (t : node A) : wf MAX h t -> 1 <= length (tail_leaf t) <= MAX.
Proof.
  revert t. induction h as [|h IH]; intros [xs|s cs ts] Hw; try done.
  destruct Hw as (Hl & HF & _). destruct cs as [|c l] using rev_ind; [cbn in Hl; lia|].
  rewrite tail_leaf_last. apply IH. by apply Forall_app in HF as [_ HF]; apply Forall_cons_iff in HF as [HF _].
Qed.

Lemma append_loop_spec fuel t values : tree_ok MAX t -> 0 < m_size t -> length values <= fuel ->
  fits (m_size t + length values) ->
  exists t', append_loop MAX fuel t values = Ok t' /\ tree_ok MAX t' /\ content t' = content t ++ values.
Proof.
  revert t values. induction fuel as [|fuel IH]; intros t values Ht H0 Hf Hfit.
  { destruct values; [|cbn in Hf; lia]. exists t. by rewrite app_nil_r. }
  destruct values as [|v values]; [exists t; by rewrite app_nil_r|]. cbn [append_loop].
  set (vs := v :: values) in *. assert (Hvs : 1 <= length vs) by (cbn; lia).
  destruct (root_access MAX t (m_size t - 1) (fun xs _ => (xs, length xs)))
    as (pre & leaf & post & root & c & He & Hp & Htl & -> & Ht1 & _ & Hsm); [done|done|lia|].
  cbn [mbind result_bind fst snd m_size] in *. specialize (Hsm eq_refl). rewrite (Htl ltac:(lia)) in *. clear Htl. subst root.
  set (t1 := mkTree (m_root t) (m_size t) c) in *.
  assert (Hlen : 1 <= length (tail_leaf (m_root t)) <= MAX).
  { destruct (t_root _ _ Ht) as [Hr|(h & Hw & _)]; [|by eapply tail_leaf_len].
    pose proof (t_size _ _ Ht) as Hs. unfold content in Hs. rewrite Hr in Hs. cbn in Hs. lia. }
  assert (Hstep : forall n func leaf0, 1 <= n <= length vs ->
    ins_ok MAX None (tail_leaf (m_root t)) (mkState 0 0 n leaf0) func (take n vs) ->
    exists t', ('(root, c0) ← base_insert MAX t1 None func n leaf0;
      append_loop MAX fuel (mkTree root (m_size t + n) c0) (drop n vs)) = Ok t' /\
      tree_ok MAX t' /\ content t' = content t ++ vs).
  { intros n func leaf0 Hn Hi. unfold fits in *.
    destruct (base_insert_spec MAX HMAX t1 None func n leaf0 (take n vs)) as (root & c0 & -> & Hr & Hel & Hc); try done.
    { unfold fits. rewrite length_take. unfold t1. cbn [m_size]. lia. }
    cbn [mbind result_bind pos] in *. rewrite ins_at_end in Hel.
    destruct (IH (mkTree root (m_size t + n) c0) (drop n vs)) as (t' & -> & Ht' & Hc').
    - split; try done; unfold content; cbn [m_root m_size].
      + rewrite Hel, length_app, length_take, (t_size _ _ Ht). unfold content. cbn [m_root t1]. lia.
      + unfold fits. lia.
    - cbn. lia.
    - rewrite length_drop. lia.
    - cbn [m_size]. rewrite length_drop. unfold fits. lia.
    - exists t'. split; [done|]. split; [done|]. rewrite Hc'. unfold content at 1. cbn [m_root]. rewrite Hel.
      rewrite <- app_assoc, take_drop. done. }
  destruct (Nat.eqb_spec (length (tail_leaf (m_root t))) MAX) as [Hm|Hm].
  - apply (Hstep (length vs `min` MAX)); [lia|]. apply ins_leaf; cbn [insert_count append_leaf]; try done.
    + rewrite length_take. lia.
    + rewrite length_take. lia.
  - apply (Hstep (length vs `min` (MAX - length (tail_leaf (m_root t))))); [lia|].
    apply ins_run; cbn [insert_count append_leaf]; try done; rewrite length_take; lia.
Qed.

(** ** Chunks *)

Lemma concat_chunk_loop {B} fuel (xs : list B) : length xs <= fuel -> concat (chunk_loop MAX fuel xs) = xs.
Proof.
  revert xs. induction fuel as [|fuel IH]; intros [|x xs] Hf; try done; [cbn in Hf; lia|].
  cbn [chunk_loop concat]. rewrite IH; [apply take_drop|]. rewrite length_drop. cbn [length] in *. lia.
Qed.

Lemma chunk_loop_lookup {B} fuel (xs : list B) i ch : length xs <= fuel ->
  chunk_loop MAX fuel xs !! i = Some ch ->
  1 <= length ch <= MAX /\ (S i < length (chunk_loop MAX fuel xs) -> length ch = MAX).
Proof.
  revert xs i. induction fuel as [|fuel IH]; intros [|x xs] i Hf; try done. cbn [chunk_loop]. set (ys := x :: xs) in *.
  assert (Hys : 1 <= length ys) by (cbn; lia). destruct i as [|i]; cbn [lookup list_lookup].
  - intros [= <-]. rewrite length_take. split; [lia|]. cbn [length]. intros Hlt.
    destruct (Nat.le_gt_cases MAX (length ys)); [lia|]. rewrite drop_ge in Hlt by lia. destruct fuel; cbn in Hlt; lia.
  - intros Hi. apply IH in Hi; [|rewrite length_drop; lia]. destruct Hi as [? Hl]. split; [done|]. cbn [length].
    intros. apply Hl. lia.
Qed.

Lemma length_chunk_loop {B} fuel (xs : list B) : length xs <= fuel ->
  (length (chunk_loop MAX fuel xs) <= 1 -> length xs <= MAX) /\
  (2 <= length xs -> length (chunk_loop MAX fuel xs) < length xs) /\
  length (chunk_loop MAX fuel xs) <= length xs /\ (1 <= length xs -> 1 <= length (chunk_loop MAX fuel xs)).
Proof.
  revert xs. induction fuel as [|fuel IH]; intros [|x xs] Hf; [cbn; lia|cbn in Hf; lia|cbn; lia|]. cbn [chunk_loop]. set (ys := x :: xs) in *.
  assert (Hys : 1 <= length ys) by (cbn; lia). cbn [length].
  destruct (IH (drop MAX ys)) as (H1 & H2 & H3 & H4); [rewrite length_drop; lia|]. rewrite length_drop in *. lia.
Qed.

(** ** Levels *)

(** A level of nodes of height [h]: compact, and full up to the last one. *)
Definition level_ok (h : nat) (ns : list (node A)) : Prop :=
  Forall (wf MAX h) ns /\ slot_ok MAX h (Compact (cap MAX h)) ns.

Definition mk_group (h : nat) (cs : list (node A)) : node A := Inner (Compact (cap MAX h)) cs (tsum cs).

Lemma chunk_leaves_ok fuel xs : length xs <= fuel -> level_ok 0 (map Leaf (chunk_loop MAX fuel xs)).
Proof.
  intros Hf. split; [|split; [done|split]].
  - apply Forall_map, Forall_lookup. intros i ch Hi. by apply chunk_loop_lookup in Hi as [? _].
  - apply Forall_map, Forall_lookup. done.
  - intros i c Hi Hl. rewrite length_map in Hl. rewrite list_lookup_fmap in Hi.
    destruct (chunk_loop MAX fuel xs !! i) as [ch|] eqn:Ei; [|done]. injection Hi as <-.
    apply chunk_loop_lookup in Ei as [_ Ei]; [|done]. unfold cap. rewrite Nat.pow_1_r. by apply Ei.
Qed.

Lemma level_full_tsum h ns n : level_ok h ns -> n < length ns -> tsum (take n ns) = n * cap MAX h.
Proof.
  intros [_ (_ & _ & Hf)] Hn. destruct (split_at ns n Hn) as (x & z & y & -> & <-).
  rewrite take_app_length. eapply compact_tsum. exact Hf.
Qed.

Lemma level_split h l r : level_ok h (l ++ r) -> level_ok h l /\ level_ok h r.
Proof.
  intros [HF (_ & Hc & Hf)]. apply Forall_app in HF as [? ?]. apply Forall_app in Hc as [? ?].
  split; (split; [done|split; [done|split; [done|]]]); intros i c Hi Hl.
  - apply (Hf i); [by apply lookup_app_l_Some|]. rewrite length_app. lia.
  - apply (Hf (length l + i)); [|rewrite length_app; lia]. rewrite lookup_app_r by lia.
    by replace (length l + i - length l) with i by lia.
Qed.

Lemma level_nil h : level_ok h [].
Proof. split; [constructor|]. split; [done|]. split; [constructor|done]. Qed.

(** Grouping a level in chunks gives a level. *)
Lemma groups_ok h fuel ns : level_ok h ns -> length ns <= fuel ->
  level_ok (S h) (map (mk_group h) (chunk_loop MAX fuel ns)) /\ elems (map (mk_group h) (chunk_loop MAX fuel ns)) = elems ns.
Proof.
  revert ns. induction fuel as [|fuel IH]; intros ns Hl Hf.
  { destruct ns; [|cbn in Hf; lia]. split; [apply level_nil|done]. }
  destruct ns as [|n0 ns']; [split; [apply level_nil|done]|]. cbn [chunk_loop map]. set (ns := n0 :: ns') in *.
  assert (Hns : 1 <= length ns) by (cbn; lia). pose proof Hl as Hl0. rewrite <- (take_drop MAX ns) in Hl.
  apply level_split in Hl as [Hl1 Hl2].
  destruct (IH (drop MAX ns) Hl2) as [[HF (_ & Hc & Hfull)] He]; [rewrite length_drop; lia|].
  assert (Hg : wf MAX (S h) (mk_group h (take MAX ns))).
  { destruct Hl1 as [? ?]. split; [rewrite length_take; lia|]. done. }
  split.
  2:{ rewrite elems_cons, He. unfold mk_group. by rewrite elements_inner, <- elems_app, take_drop. }
  split; [by constructor|]. split; [done|]. split; [by constructor|].
  intros [|i] c Hi Hlen; cbn [lookup list_lookup length] in *.
  - injection Hi as <-. cbn [get_tree_size mk_group].
    assert (Hmore : MAX < length ns).
    { destruct (Nat.le_gt_cases (length ns) MAX); [|done]. rewrite drop_ge in Hlen by lia. destruct fuel; cbn in Hlen; lia. }
    rewrite (level_full_tsum h) by (done || lia). unfold cap. by rewrite (Nat.pow_succ_r' MAX (S h)).
  - apply (Hfull i); [done|lia].
Qed.

Lemma take_min_length {B} n (l : list B) : take (length l `min` n) l = take n l /\ drop (length l `min` n) l = drop n l.
Proof.
  destruct (Nat.le_gt_cases (length l) n).
  - rewrite Nat.min_l, !take_ge, !drop_ge by lia. done.
  - by rewrite Nat.min_r by lia.
Qed.

Lemma chunk_loop_nil {B} fuel : chunk_loop MAX fuel (@nil B) = [].
Proof. by destruct fuel. Qed.

(** [group_level] groups the level in chunks. *)
Lemma group_level_eq h fuel level i level_size total : level_ok h level ->
  level_size = i + length level -> total = i * cap MAX h + tsum level ->
  group_level MAX fuel level i level_size (cap MAX h) total = map (mk_group h) (chunk_loop MAX fuel level).
Proof.
  revert level i. induction fuel as [|fuel IH]; intros [|n0 level'] i Hl Hs Ht; try done.
  cbn [group_level chunk_loop map]. set (level := n0 :: level') in *.
  replace (level_size - i) with (length level) by lia. destruct (take_min_length MAX level) as [-> ->]. unfold mk_group at 1.
  destruct (Nat.ltb_spec (i + length level `min` MAX) level_size) as [Hlt|Hge].
  - assert (Hsum : tsum (take MAX level) = MAX * cap MAX h) by (apply level_full_tsum; (done || lia)).
    rewrite Nat.min_r by lia. rewrite Hsum. f_equal. pose proof Hl as Hl0. rewrite <- (take_drop MAX level) in Hl, Ht.
    rewrite tsum_app in Ht. apply level_split in Hl as [_ Hl]. apply IH; [done|rewrite length_drop; lia|lia].
  - rewrite (take_ge level) by lia. rewrite (drop_ge level) by lia. rewrite chunk_loop_nil. cbn [map].
    replace (group_level MAX fuel [] _ _ _ _) with (@nil (node A)) by (by destruct fuel). do 2 f_equal. lia.
Qed.

Lemma bulk_levels_spec fuel h level total : level_ok h level -> 1 <= length level <= S fuel -> total = tsum level ->
  (forall r, level = [r] -> is_leaf r = false -> 2 <= get_node_size r) ->
  exists root, bulk_levels MAX fuel level (cap MAX h) total = Ok root /\ root_ok MAX root /\ elements root = elems level.
Proof.
  revert h level. induction fuel as [|fuel IH]; intros h level Hl Hlen Ht Hr; destruct level as [|n0 [|n1 level]]; try (cbn in Hlen; lia).
  1,2: exists n0; split; [done|]; rewrite elems_cons; cbn; rewrite app_nil_r; split; [|done]; right; exists h;
       destruct Hl as [HF _]; apply Forall_cons_iff in HF as [HF _]; auto.
  cbn [bulk_levels]. set (ns := n0 :: n1 :: level) in *. assert (H2 : 2 <= length ns) by (cbn; lia).
  rewrite (group_level_eq h) by (done || lia). destruct (groups_ok h (length ns) ns Hl ltac:(lia)) as [Hg He].
  destruct (length_chunk_loop (length ns) ns ltac:(lia)) as (H1 & Hlt & _ & Hpos).
  replace (cap MAX h * MAX) with (cap MAX (S h)) by (unfold cap; rewrite (Nat.pow_succ_r' MAX (S h)); lia).
  rewrite <- He. apply IH; [done|rewrite length_map; lia| |].
  - destruct Hg as [Hg _]. by rewrite Ht, (wf_tsum _ _ _ (proj1 Hl)), (wf_tsum _ _ _ Hg), He.
  - intros r Hr1 _. assert (Hc : chunk_loop MAX (length ns) ns = [ns]).
    { pose proof (concat_chunk_loop (length ns) ns ltac:(lia)) as Hcc.
      destruct (chunk_loop MAX (length ns) ns) as [|ch [|]]; try done. cbn in Hcc. rewrite app_nil_r in Hcc. by subst ch. }
    rewrite Hc in Hr1. cbn [map] in Hr1. injection Hr1 as <-. done.
Qed.

Lemma elems_leaves (ls : list (list A)) : elems (map Leaf ls) = concat ls.
Proof. induction ls as [|x ls IH]; [done|]. cbn [map concat]. by rewrite elems_cons, IH. Qed.

(** ** Appending *)

Lemma add_from_spec t values : tree_ok MAX t -> fits (m_size t + length values) ->
  exists t', add_from MAX t values = Ok t' /\ tree_ok MAX t' /\ content t' = content t ++ values.
Proof.
  intros Ht Hfit. unfold add_from. destruct values as [|v values]; [exists t; by rewrite app_nil_r|].
  set (vs := v :: values) in *. assert (Hvs : 1 <= length vs) by (cbn; lia).
  rewrite (proj2 (Nat.eqb_neq (length vs) 0)) by lia. destruct (Nat.eqb_spec (m_size t) 0) as [H0|H0]; cbn [negb].
  2:{ apply append_loop_spec; (done || lia). }
  unfold bulk_adopt_leaves. pose proof (t_size _ _ Ht) as Hs. rewrite H0 in Hs.
  rewrite (root_size _ _ (t_root _ _ Ht)). fold (content t). rewrite <- Hs, H0. cbn [Nat.eqb andb negb].
  destruct (chunk_loop MAX (length vs) vs) as [|ch0 chs] eqn:Ech; [by cbn in Ech|]. cbv beta iota. rewrite <- Ech. clear ch0 chs Ech.
  set (chs := chunk_loop MAX (length vs) vs).
  destruct (length_chunk_loop (length vs) vs ltac:(lia)) as (_ & _ & Hle & Hpos). fold chs in Hle, Hpos.
  pose proof (chunk_leaves_ok (length vs) vs ltac:(lia)) as Hl. fold chs in Hl.
  assert (He : elems (map Leaf chs) = vs) by (rewrite elems_leaves; apply concat_chunk_loop; lia).
  destruct (bulk_levels_spec (length chs) 0 (map Leaf chs) (length vs)) as (root & Hb & Hr & Hel); [done|rewrite length_map; lia| | |].
  { destruct Hl as [Hl _]. by rewrite (wf_tsum _ _ _ Hl), He. }
  { intros r Hr Hlf. destruct chs as [|ch [|]]; [done| |done]. injection Hr as <-. done. }
  unfold cap in Hb. rewrite Nat.pow_1_r in Hb. rewrite Hb. cbn [mbind result_bind]. eexists. split; [done|].
  assert (Hnil : content t = []) by (apply length_zero_iff_nil; lia).
  split; [|rewrite Hnil; unfold content; cbn [m_root]; by rewrite Hel, He].
  split; [done|unfold content; cbn [m_root m_size]; by rewrite Hel, He|by left|].
  unfold fits in *. cbn [m_size]. lia.
Qed.

(** ** Splitting an oversized root *)

Lemma split_inner_eq h fuel cs ts acc : level_ok h cs -> ts = acc + tsum cs ->
  split_inner_loop MAX fuel cs (cap MAX h) ts acc = map (mk_group h) (chunk_loop MAX fuel cs).
Proof.
  revert cs acc. induction fuel as [|fuel IH]; intros [|c0 cs'] acc Hl Ht; try done.
  cbn [split_inner_loop chunk_loop map]. set (cs := c0 :: cs') in *. rewrite (Nat.min_comm MAX).
  destruct (take_min_length MAX cs) as [-> ->]. unfold mk_group at 1.
  assert (Hsz : (if ts <? acc + (length cs `min` MAX) * cap MAX h then ts - acc else (length cs `min` MAX) * cap MAX h) =
    tsum (take MAX cs)).
  { destruct (Nat.le_gt_cases (length cs) MAX).
    - rewrite take_ge, Nat.min_l by lia. pose proof (tsum_le_cap MAX h cs) as Hc.
      assert (tsum cs <= length cs * cap MAX h).
      { apply Hc. eapply Forall_impl; [|exact (proj1 Hl)]. apply wf_cap. }
      destruct (Nat.ltb_spec ts (acc + length cs * cap MAX h)); lia.
    - rewrite (level_full_tsum h), Nat.min_r by (done || lia).
      assert (MAX * cap MAX h <= tsum cs).
      { rewrite <- (level_full_tsum h cs MAX) by done. rewrite <- (take_drop MAX cs) at 2. rewrite tsum_app. lia. }
      rewrite (proj2 (Nat.ltb_ge _ _)) by lia. done. }
  rewrite Hsz. f_equal. apply IH.
  - rewrite <- (take_drop MAX cs) in Hl. by apply level_split in Hl as [_ ?].
  - rewrite <- (take_drop MAX cs), tsum_app in Ht. lia.
Qed.

Lemma split_inner_spec fuel h cs : level_ok h cs -> 2 <= length cs <= fuel ->
  exists root, split_if_needed MAX fuel (Inner (Compact (cap MAX h)) cs (tsum cs)) = Ok root /\
    root_ok MAX root /\ elements root = elems cs.
Proof.
  revert h cs. induction fuel as [|fuel IH]; intros h cs Hl Hlen; [lia|]. cbn [split_if_needed get_node_size].
  destruct (Nat.ltb_spec MAX (length cs)).
  - cbn [split_root mbind result_bind]. rewrite (split_inner_eq h) by (done || lia).
    destruct (groups_ok h (length cs) cs Hl ltac:(lia)) as [Hg He].
    destruct (length_chunk_loop (length cs) cs ltac:(lia)) as (H1 & H2 & _).
    replace (MAX * cap MAX h) with (cap MAX (S h)) by (unfold cap; by rewrite (Nat.pow_succ_r' MAX (S h))).
    replace (tsum cs) with (tsum (map (mk_group h) (chunk_loop MAX (length cs) cs)))
      by (by rewrite (wf_tsum _ _ _ (proj1 Hl)), (wf_tsum _ _ _ (proj1 Hg)), He).
    rewrite <- He. apply IH; [done|]. rewrite length_map. lia.
  - eexists. split; [done|]. split; [|done]. right. exists (S h). split; [|cbn; lia].
    destruct Hl. split; [lia|]. done.
Qed.

Lemma split_leaf_spec xs : exists root,
  split_if_needed MAX (length xs) (Leaf xs) = Ok root /\ root_ok MAX root /\ elements root = xs.
Proof.
  destruct (Nat.le_gt_cases (length xs) MAX).
  - exists (Leaf xs). split; [|split; [by apply root_wf_leaf|done]].
    destruct (length xs) eqn:E; cbn [split_if_needed get_node_size]; rewrite E, (proj2 (Nat.ltb_ge _ _)) by lia; done.
  - destruct (length xs) as [|k] eqn:E; [lia|]. cbn [split_if_needed get_node_size]. rewrite E, (proj2 (Nat.ltb_lt _ _)) by lia.
    cbn [split_root mbind result_bind]. set (chs := chunk_loop MAX (length xs) xs).
    pose proof (chunk_leaves_ok (length xs) xs ltac:(lia)) as Hl. fold chs in Hl.
    assert (He : elems (map Leaf chs) = xs) by (rewrite elems_leaves; apply concat_chunk_loop; lia).
    destruct (length_chunk_loop (length xs) xs ltac:(lia)) as (H1 & H2 & _). fold chs in H1, H2.
    destruct (split_inner_spec k 0 (map Leaf chs) Hl) as (root & Hs & Hr & Hel); [rewrite length_map; lia|].
    unfold cap in Hs. rewrite Nat.pow_1_r, (wf_tsum _ _ _ (proj1 Hl)), He in Hs. rewrite He in Hel. eauto.
Qed.

End Build.

(** ** Searching a sorted B+-tree *)

Section Search.
Context {A : Type} (MAX : nat).
Context (ltb : A -> A -> bool) (value : A).
Implicit Types (t : node A) (cs l : list (node A)) (E : list A).

Definition below (x : A) : bool := ltb x value.

(** The precondition of a binary search: what compares less comes first. *)
Definition partitioned E : Prop :=
  forall i j x y, i <= j -> E !! i = Some x -> E !! j = Some y -> below y = true -> below x = true.

(** The length of the prefix that compares less. *)
Fixpoint prefix_below E : nat :=
  match E with [] => 0 | x :: E => if below x then S (prefix_below E) else 0 end.

Lemma prefix_below_le E : prefix_below E <= length E.
Proof. induction E as [|x E IH]; cbn; [done|]. destruct (below x); lia. Qed.

Lemma prefix_below_split E k : k <= length E ->
  (forall i x, i < k -> E !! i = Some x -> below x = true) ->
  (forall x, E !! k = Some x -> below x = false) -> prefix_below E = k.
Proof.
  revert k. induction E as [|x E IH]; intros k Hk Hlt Hge; cbn [prefix_below length] in *; [lia|].
  destruct k as [|k]; [by rewrite (Hge x)|]. rewrite (Hlt 0 x) by (done || lia). f_equal.
  apply IH; [lia| |done]. intros i y Hi Hy. apply (Hlt (S i)); [lia|done].
Qed.

Lemma prefix_below_all x E : (forall y, y ∈ x -> below y = true) -> prefix_below (x ++ E) = length x + prefix_below E.
Proof.
  induction x as [|y x IH]; intros H; cbn; [done|]. rewrite (H y) by left. rewrite IH; [done|]. intros. apply H. by right.
Qed.

Lemma prefix_below_stop x E : (forall y, head E = Some y -> below y = false) -> prefix_below (x ++ E) = prefix_below x.
Proof.
  induction x as [|z x IH]; intros H; cbn; [|by rewrite IH by done].
  destruct E as [|y E]; [done|]. cbn. by rewrite (H y).
Qed.

Lemma prefix_below_lt E i x : i < prefix_below E -> E !! i = Some x -> below x = true.
Proof.
  revert i. induction E as [|y E IH]; intros i Hi Hx; cbn in *; [done|]. destruct (below y) eqn:Ey; [|lia].
  destruct i; [by injection Hx as <-|]. apply (IH i); [lia|done].
Qed.

Lemma prefix_below_ge E i x : partitioned E -> prefix_below E <= i -> E !! i = Some x -> below x = false.
Proof.
  intros Hp Hi Hx. destruct (below x) eqn:Ex; [|done]. exfalso.
  assert (Hlt : i < length E) by (by eapply lookup_lt_Some).
  assert (Hall : forall j y, j < S i -> E !! j = Some y -> below y = true) by (intros; eapply (Hp j i); eauto; lia).
  revert i Hi Hx Hlt Hall. clear Hp. induction E as [|y E IH]; intros i Hi Hx Hlt Hall; [done|]. cbn in *.
  rewrite (Hall 0 y) in Hi by (done || lia). destruct i as [|i]; [lia|]. apply (IH i); [lia|done|lia|].
  intros j z Hj Hz. apply (Hall (S j)); [lia|done].
Qed.

Lemma partitioned_app x E : partitioned (x ++ E) -> partitioned x /\ partitioned E.
Proof.
  intros Hp. split; intros i j a b Hij Ha Hb.
  - apply (Hp i j); [done|by apply lookup_app_l_Some..].
  - apply (Hp (length x + i) (length x + j)); [lia|rewrite lookup_app_r by lia..].
    + by replace (length x + i - length x) with i by lia.
    + by replace (length x + j - length x) with j by lia.
Qed.

Lemma leaf_search xs : partitioned xs ->
  bsearch (length xs) (fun mid => read_lt ltb value (xs !! mid)) 0 (length xs) = prefix_below xs.
Proof.
  intros Hp. destruct (bsearch_spec (fun mid => read_lt ltb value (xs !! mid)) (length xs) 0 (length xs)) as (Hk & Ht & Hf); [|lia..|].
  { intros i j Hij. destruct (lookup_lt_is_Some_2 xs i) as [x Hx]; [lia|]. destruct (lookup_lt_is_Some_2 xs j) as [y Hy]; [lia|].
    rewrite Hx, Hy. cbn. apply (Hp i j); (done || lia). }
  symmetry. apply prefix_below_split; [lia| |].
  - intros i x Hi Hx. specialize (Ht i ltac:(lia)). by rewrite Hx in Ht.
  - intros x Hx. pose proof (lookup_lt_Some _ _ _ Hx). specialize (Hf _ (conj (le_n _) H)). by rewrite Hx in Hf.
Qed.

Lemma first_value h t : wf MAX h t -> subtree_first_value t = head (elements t) /\ elements t <> [].
Proof.
  revert t. induction h as [|h IH]; intros [xs|s cs ts] Hw; try done.
  - destruct xs; [cbn in Hw; lia|done].
  - destruct Hw as (Hl & HF & _). destruct cs as [|c cs]; [cbn in Hl; lia|]. apply Forall_cons_iff in HF as [Hc _].
    destruct (IH c Hc) as [He Hne]. cbn [subtree_first_value]. rewrite elements_inner, elems_cons, He.
    by destruct (elements c).
Qed.

(** The first element of the child after [l], in the whole list. *)
Lemma first_of_child h l ch r : wf MAX h ch ->
  exists x, subtree_first_value ch = Some x /\ elems (l ++ ch :: r) !! length (elems l) = Some x.
Proof.
  intros Hw. destruct (first_value h ch Hw) as [-> Hne]. destruct (elements ch) as [|x E] eqn:Ec; [done|].
  exists x. split; [done|]. rewrite elems_app, elems_cons, Ec. by apply list_lookup_middle.
Qed.

Definition child_below cs (mid : nat) : bool := read_lt ltb value (cs !! mid ≫= subtree_first_value).

Lemma child_below_mono h cs i j : Forall (wf MAX h) cs -> partitioned (elems cs) -> i <= j < length cs ->
  child_below cs j = true -> child_below cs i = true.
Proof.
  intros HF Hp Hij. destruct (split_at cs i) as (l1 & c1 & r1 & E1 & <-); [lia|].
  destruct (split_at cs j) as (l2 & c2 & r2 & E2 & <-); [lia|].
  assert (Hc1 : wf MAX h c1) by (rewrite E1 in HF; apply Forall_app in HF as [_ HF]; by apply Forall_cons_iff in HF as [? _]).
  assert (Hc2 : wf MAX h c2) by (rewrite E2 in HF; apply Forall_app in HF as [_ HF]; by apply Forall_cons_iff in HF as [? _]).
  destruct (first_of_child h l1 c1 r1 Hc1) as (x & Hx & Hxl). destruct (first_of_child h l2 c2 r2 Hc2) as (y & Hy & Hyl).
  assert (Hl1 : cs !! length l1 = Some c1) by (rewrite E1; by apply list_lookup_middle).
  assert (Hl2 : cs !! length l2 = Some c2) by (rewrite E2; by apply list_lookup_middle).
  unfold child_below. rewrite Hl1, Hl2. cbn. rewrite Hx, Hy. cbn.
  rewrite <- E1 in Hxl. rewrite <- E2 in Hyl. apply (Hp _ _ _ _) with (2 := Hxl) (3 := Hyl).
  assert (Hl : l1 = take (length l1) l2).
  { rewrite <- (take_app_length l1 (c1 :: r1)) at 1. rewrite <- E1, E2. apply take_app_le. lia. }
  rewrite <- (take_drop (length l1) l2), <- Hl, elems_app, length_app. lia.
Qed.

(** The descent step: the elements before the chosen child compare less, those
    after it do not. *)
Lemma child_search h cs : Forall (wf MAX h) cs -> partitioned (elems cs) -> 1 <= length cs ->
  exists l ch r, cs = l ++ ch :: r /\ bsearch (length cs) (child_below cs) 1 (length cs) - 1 = length l /\
    prefix_below (elems cs) = length (elems l) + prefix_below (elements ch) /\ partitioned (elements ch) /\ wf MAX h ch.
Proof.
  intros HF Hp Hlen.
  destruct (bsearch_spec (child_below cs) (length cs) 1 (length cs)) as (Hk & Ht & Hf); [|lia..|].
  { intros i j Hij. apply (child_below_mono h); (done || lia). }
  set (k := bsearch _ _ _ _) in *. destruct (split_at cs (k - 1)) as (l & ch & r & Hcs & Hl); [lia|].
  exists l, ch, r. split; [done|]. split; [done|]. pose proof HF as HF'. rewrite Hcs in HF'. apply Forall_app in HF' as [Hwl HF'].
  apply Forall_cons_iff in HF' as [Hch Hwr]. pose proof Hp as Hp'. rewrite Hcs, elems_app, elems_cons in Hp'.
  assert (Hpc : partitioned (elements ch)) by (by apply partitioned_app in Hp' as [_ Hp']; apply partitioned_app in Hp' as [? _]).
  split; [|done]. rewrite Hcs, elems_app, elems_cons. rewrite prefix_below_all.
  - f_equal. apply prefix_below_stop. intros y Hy. destruct r as [|c2 r]; [done|].
    specialize (Hf k). rewrite Hcs, length_app in Hf. specialize (Hf ltac:(cbn; lia)).
    unfold child_below in Hf. replace k with (length (l ++ [ch])) in Hf by (rewrite length_app; cbn; lia).
    replace (l ++ ch :: c2 :: r) with ((l ++ [ch]) ++ c2 :: r) in Hf by (by rewrite <- app_assoc).
    rewrite list_lookup_middle in Hf by done. apply Forall_cons_iff in Hwr as [Hc2 _]. cbn in Hf.
    destruct (first_value h c2 Hc2) as [Hfv Hne]. rewrite Hfv in Hf. rewrite elems_cons in Hy.
    destruct (elements c2); [done|]. cbn in *. injection Hy as <-. done.
  - intros y Hy. destruct l as [|c0 l0]; [by apply elem_of_nil in Hy|]. set (l := c0 :: l0) in *.
    specialize (Ht (length l) ltac:(cbn in *; lia)). unfold child_below in Ht. rewrite Hcs, list_lookup_middle in Ht by done.
    cbn in Ht. destruct (first_of_child h l ch r Hch) as (x & Hx & Hxl). rewrite Hx in Ht. cbn in Ht.
    apply list_elem_of_lookup in Hy as [i Hi]. rewrite elems_app, elems_cons in Hxl. pose proof (lookup_lt_Some _ _ _ Hi).
    apply (Hp' i (length (elems l)) y x); [lia|by apply lookup_app_l_Some|done|done].
Qed.

Lemma lower_bound_loop_spec h t base : wf MAX h t -> partitioned (elements t) ->
  lower_bound_loop ltb t base value = base + prefix_below (elements t).
Proof.
  revert t base. induction h as [|h IH]; intros [xs|s cs ts] base Hw Hp; try done.
  { cbn [lower_bound_loop]. by rewrite leaf_search. }
  cbn [lower_bound_loop]. destruct Hw as (Hlen & HF & -> & Hs). rewrite elements_inner in *.
  destruct (child_search h cs HF Hp ltac:(lia)) as (l & ch & r & Hcs & Hk & Hpre & Hpc & Hch).
  fold (child_below cs). rewrite Hk, Hpre. rewrite Hcs in Hs, HF. apply Forall_app in HF as [Hwl _].
  pose proof (child_start MAX h s l ch r Hs) as Hst. rewrite Hcs, on_nth_middle, IH by done.
  rewrite <- (wf_tsum _ _ _ Hwl). destruct (Nat.ltb_spec 0 (length l)) as [Hl|Hl].
  - destruct s as [e|o]; [lia|]. unfold get_bp_node_offset in Hst. destruct (length l); [lia|].
    replace (S n - 1) with n by lia. lia.
  - destruct l; [cbn; lia|cbn in Hl; lia].
Qed.

End Search.
