(* ===== verification/BPTreeTheorems.v ===== *)
(** * The B+-tree is a sequence

    The contract of [BPlusTree<T>] for its users: every operation acts on the
    contents as the list operation of the same name, none of the release
    assertions of the insertion path can fail, and the leaf cache never serves a
    stale element. *)

From stdpp Require Import sorting.
From S2P Require Import Prelude BPlusTree BPTreeWf BPTreeInsert BPTreeErase BPTreeOps BPTreeBulk.

Local Open Scope nat_scope.

Section Theorems.
Context {A : Type} (MAX : nat).
Implicit Types (t : BPlusTree A) (E xs : list A).

(** ** Sequences of operations *)

Inductive op :=
| OpInsert (n : nat) (v : A)
| OpAdd (v : A)
| OpErase (n : nat)
| OpGet (n : nat)
| OpSet (n : nat) (v : A)
| OpSwap (i j : nat)
| OpAddFrom (vs : list A)
| OpSetMany (pv : list (nat * A))
| OpEraseMany (ps : list nat)
| OpClear.

(** The operation on the tree, with the value it returns. *)
Definition tree_step (o : op) t : result (option A * BPlusTree A) :=
  match o with
  | OpInsert n v => t' ← tree_insert MAX t (Some n) v; Ok (None, t')
  | OpAdd v => t' ← tree_add MAX t v; Ok (None, t')
  | OpErase n => t' ← tree_erase MAX t n; Ok (None, t')
  | OpGet n => '(v, t') ← tree_get t n; Ok (Some v, t')
  | OpSet n v => t' ← tree_set t n v; Ok (None, t')
  | OpSwap i j => t' ← tree_swap t i j; Ok (None, t')
  | OpAddFrom vs => t' ← add_from MAX t vs; Ok (None, t')
  | OpSetMany pv => t' ← set_many t pv; Ok (None, t')
  | OpEraseMany ps => t' ← erase_many MAX t ps; Ok (None, t')
  | OpClear => Ok (None, tree_clear t)
  end.

(** The same operation on a list; [None] where the arguments are out of range. *)
Definition list_step (o : op) E : option (option A * list A) :=
  match o with
  | OpInsert n v => if n <=? length E then Some (None, list_insert_at n v E) else None
  | OpAdd v => Some (None, E ++ [v])
  | OpErase n => if n <? length E then Some (None, list_erase_range n (S n) E) else None
  | OpGet n => x ← E !! n; Some (Some x, E)
  | OpSet n v => if n <? length E then Some (None, <[n := v]> E) else None
  | OpSwap i j => x ← E !! i; y ← E !! j; Some (None, <[j := x]> (<[i := y]> E))
  | OpAddFrom vs => Some (None, E ++ vs)
  | OpSetMany pv =>
      match check_positions (length E) None (map fst pv) with
      | Ok _ => Some (None, fold_left (fun E p => <[p.1 := p.2]> E) pv E)
      | _ => None
      end
  | OpEraseMany ps =>
      match check_positions (length E) None ps with Ok _ => Some (None, without 0 ps E) | _ => None end
  | OpClear => Some (None, [])
  end.

Fixpoint tree_run (ops : list op) t : result (list (option A) * BPlusTree A) :=
  match ops with
  | [] => Ok ([], t)
  | o :: ops => '(v, t) ← tree_step o t; '(vs, t) ← tree_run ops t; Ok (v :: vs, t)
  end.

(** The specification run; every size it passes through must be an index. *)
Fixpoint list_run (ops : list op) E : option (list (option A) * list A) :=
  match ops with
  | [] => Some ([], E)
  | o :: ops =>
      '(v, E) ← list_step o E;
      if (Z.of_nat (length E) <? 2 ^ 64 - 1)%Z then '(vs, E) ← list_run ops E; Some (v :: vs, E) else None
  end.

Lemma tree_create_ok : tree_ok MAX (@tree_create A).
Proof. split; [by left|done|by left|done]. Qed.

Lemma check_unit size prev ps u : check_positions size prev ps = Ok u -> check_positions size prev ps = Ok tt.
Proof. by destruct u. Qed.

Context (HMAX : 2 <= MAX).

Lemma tree_step_refines o t v E : tree_ok MAX t -> list_step o (content t) = Some (v, E) -> fits (length E) ->
  exists t', tree_step o t = Ok (v, t') /\ tree_ok MAX t' /\ content t' = E.
Proof.
  intros Ht Hs Hf. pose proof (t_size _ _ Ht) as Hsz. unfold fits in Hf.
  destruct o as [n x|x|n|n|n x|i j|vs|pv|ps|]; cbn [list_step tree_step] in *.
  - rewrite <- Hsz in Hs. destruct (Nat.leb_spec n (m_size t)); [|done]. injection Hs as <- <-.
    rewrite length_list_insert_at in Hf by lia.
    destruct (tree_insert_spec MAX HMAX t (Some n) x Ht) as (t' & -> & ? & ?); [done|unfold fits; lia|]. eauto.
  - injection Hs as <- <-. rewrite length_app in Hf. cbn in Hf. unfold tree_add.
    destruct (tree_insert_spec MAX HMAX t None x Ht) as (t' & -> & ? & Hc); [done|unfold fits; lia|].
    eexists. split; [done|]. split; [done|]. rewrite Hc. unfold pos. by rewrite list_insert_at_ins, ins_at_end.
  - rewrite <- Hsz in Hs. destruct (Nat.ltb_spec n (m_size t)); [|done]. injection Hs as <- <-.
    destruct (tree_erase_spec MAX HMAX t n Ht) as (t' & -> & ? & ?); [done|]. eauto.
  - destruct (content t !! n) as [x|] eqn:Ex; [|done]. injection Hs as <- <-.
    destruct (tree_get_spec MAX t n x Ht Ex) as (t' & -> & ? & Hr & _). eexists. split; [done|]. split; [done|].
    unfold content. by rewrite Hr.
  - rewrite <- Hsz in Hs. destruct (Nat.ltb_spec n (m_size t)); [|done]. injection Hs as <- <-.
    destruct (tree_set_spec MAX t n x Ht) as (t' & -> & ? & ?); [done|]. eauto.
  - destruct (content t !! i) as [x|] eqn:Ex; [|done]. destruct (content t !! j) as [y|] eqn:Ey; [|done].
    injection Hs as <- <-. destruct (tree_swap_spec MAX t i j x y Ht Ex Ey) as (t' & -> & ? & ?). eauto.
  - injection Hs as <- <-. rewrite length_app in Hf.
    destruct (add_from_spec MAX HMAX t vs Ht) as (t' & -> & ? & ?); [unfold fits; lia|]. eauto.
  - rewrite <- Hsz in Hs. destruct (check_positions _ _ _) as [u| |] eqn:Ec; [|done..]. injection Hs as <- <-.
    destruct (set_many_spec MAX t pv Ht (check_unit _ _ _ _ Ec)) as (t' & -> & ? & ?). eauto.
  - rewrite <- Hsz in Hs. destruct (check_positions _ _ _) as [u| |] eqn:Ec; [|done..]. injection Hs as <- <-.
    destruct (erase_many_spec MAX HMAX t ps Ht (check_unit _ _ _ _ Ec)) as (t' & -> & ? & ?). eauto.
  - injection Hs as <- <-. destruct (tree_clear_spec MAX t Ht). eauto.
Qed.

Lemma tree_run_refines ops t vs E : tree_ok MAX t -> list_run ops (content t) = Some (vs, E) ->
  exists t', tree_run ops t = Ok (vs, t') /\ tree_ok MAX t' /\ content t' = E.
Proof.
  revert t vs. induction ops as [|o ops IH]; intros t vs Ht Hr; cbn [list_run tree_run] in *.
  { injection Hr as <- <-. eauto. }
  destruct (list_step o (content t)) as [[v E1]|] eqn:Es; [|done]. cbn [mbind option_bind] in Hr.
  destruct (Z.ltb_spec (Z.of_nat (length E1)) (2 ^ 64 - 1)); [|done].
  destruct (tree_step_refines o t v E1 Ht Es) as (t1 & -> & Ht1 & <-); [done|]. cbn [mbind result_bind].
  destruct (list_run ops (content t1)) as [[vs1 E2]|] eqn:Er; [|done]. injection Hr as <- <-.
  destruct (IH t1 vs1 Ht1 Er) as (t2 & -> & ? & ?). eauto.
Qed.

End Theorems.
Arguments op : clear implicits.

(** ** The theorems *)

(** Claim C4: refinement. Any sequence of operations that is in range on the
    abstract list runs on a new B+-tree without an error, returns the same
    values, and ends in a well-formed tree that holds the same list. *)
Theorem tree_refines_list {A} (MAX : nat) (ops : list (op A)) vs E :
  2 <= MAX -> list_run ops [] = Some (vs, E) ->
  exists t, tree_run MAX ops tree_create = Ok (vs, t) /\ tree_ok MAX t /\ content t = E.
Proof. intros Hm Hr. apply tree_run_refines; [done|apply tree_create_ok|done]. Qed.

(** An insertion at any position, or at the end, of a well-formed tree
    succeeds (no release assertion fails), inserts exactly that element there,
    and keeps the invariant: equal depth, no empty node, node sizes within the
    limit, exact offsets and sizes, a coherent leaf cache. *)
Theorem tree_insert_correct {A} (MAX : nat) (t : BPlusTree A) n v :
  2 <= MAX -> tree_ok MAX t -> match n with Some k => k <= m_size t | None => True end -> fits (m_size t + 1) ->
  exists t', tree_insert MAX t n v = Ok t' /\ tree_ok MAX t' /\
    content t' = list_insert_at (match n with Some k => k | None => m_size t end) v (content t).
Proof.
  intros Hm Ht Hn Hf. destruct (tree_insert_spec MAX Hm t n v Ht Hn Hf) as (t' & H1 & H2 & H3).
  exists t'. split; [done|]. split; [done|]. rewrite H3. unfold pos. by rewrite (t_size _ _ Ht).
Qed.

(** An erasure removes exactly the element at that position and keeps
    the invariant, through the removal of emptied children, the merge of small
    siblings and the collapse of a root with one child. *)
Theorem tree_erase_correct {A} (MAX : nat) (t : BPlusTree A) n :
  2 <= MAX -> tree_ok MAX t -> n < m_size t ->
  exists t', tree_erase MAX t n = Ok t' /\ tree_ok MAX t' /\ content t' = list_erase_range n (S n) (content t).
Proof. intros Hm Ht Hn. by apply tree_erase_spec. Qed.

(** A read returns the element at its position, whether the cached
    leaf serves it or the tree is descended. *)
Theorem tree_get_correct {A} (MAX : nat) (t : BPlusTree A) n x :
  tree_ok MAX t -> content t !! n = Some x ->
  exists t1 t2, tree_get t n = Ok (x, t1) /\ get_uncached t n = Ok (x, t2) /\
    tree_ok MAX t1 /\ content t1 = content t.
Proof.
  intros Ht Hx. destruct (tree_get_spec MAX t n x Ht Hx) as (t1 & H1 & H2 & H3 & _).
  destruct (get_uncached_spec MAX t n x Ht Hx) as (t2 & H4 & _). exists t1, t2. unfold content. by rewrite H3.
Qed.

(** Appending many values appends them in order. An empty tree is
    built bottom-up, and what is built is well-formed: full compact nodes on
    every level except possibly the last of each. *)
Theorem add_from_correct {A} (MAX : nat) (t : BPlusTree A) values :
  2 <= MAX -> tree_ok MAX t -> fits (m_size t + length values) ->
  exists t', add_from MAX t values = Ok t' /\ tree_ok MAX t' /\ content t' = content t ++ values.
Proof. intros Hm Ht Hf. by apply add_from_spec. Qed.

(** [erase_many] accepts exactly the strictly increasing positions
    below the size. It then removes those elements and no other; on any other
    input it throws. *)
Theorem erase_many_correct {A} (MAX : nat) (t : BPlusTree A) ps :
  2 <= MAX -> tree_ok MAX t ->
  (StronglySorted lt ps /\ Forall (fun p => p < m_size t) ps ->
   exists t', erase_many MAX t ps = Ok t' /\ tree_ok MAX t' /\ content t' = without 0 ps (content t)) /\
  (~ (StronglySorted lt ps /\ Forall (fun p => p < m_size t) ps) -> exists e, erase_many MAX t ps = Throw e).
Proof.
  intros Hm Ht. split.
  - intros [Hs Hb]. apply erase_many_spec; [done..|]. by apply check_positions_ok.
  - intros Hn. unfold erase_many. destruct ps as [|p ps]; [destruct Hn; repeat constructor|]. cbn [length Nat.eqb].
    destruct (check_positions (m_size t) None (p :: ps)) as [[]|e|] eqn:Ec; [|by exists e|by apply check_positions_fuel in Ec].
    apply check_positions_sound in Ec as (? & ? & _). by destruct Hn.
Qed.

(** [set_many] on strictly increasing positions below the size writes
    each value at its position in one traversal and changes nothing else; on any
    other input it throws. *)
Theorem set_many_correct {A} (MAX : nat) (t : BPlusTree A) pv :
  tree_ok MAX t ->
  (StronglySorted lt (map fst pv) /\ Forall (fun p => p.1 < m_size t) pv ->
   exists t', set_many t pv = Ok t' /\ tree_ok MAX t' /\
     content t' = fold_left (fun E p => <[p.1 := p.2]> E) pv (content t)) /\
  (~ (StronglySorted lt (map fst pv) /\ Forall (fun p => p.1 < m_size t) pv) -> exists e, set_many t pv = Throw e).
Proof.
  intros Ht. split.
  - intros [Hs Hb]. apply set_many_spec; [done|]. apply check_positions_ok; [done| |done]. by apply Forall_map.
  - intros Hn. unfold set_many. destruct pv as [|p pv]; [destruct Hn; repeat constructor|]. cbn [length Nat.eqb].
    destruct (check_positions (m_size t) None (map fst (p :: pv))) as [[]|e|] eqn:Ec; [|by exists e|by apply check_positions_fuel in Ec].
    apply check_positions_sound in Ec as (? & Hb & _). destruct Hn. split; [done|]. by rewrite Forall_map in Hb.
Qed.

(** On a tree whose elements are partitioned by the search value (for
    one, a sorted tree), [lower_bound] returns the position where the elements
    that compare less end, in compact and general form alike and when equal
    elements span children. *)
Theorem tree_lower_bound_correct {A} (MAX : nat) (ltb : A -> A -> bool) (t : BPlusTree A) value :
  tree_ok MAX t -> partitioned ltb value (content t) ->
  let k := tree_lower_bound ltb t value in
  k <= m_size t /\ (forall i x, i < k -> content t !! i = Some x -> ltb x value = true) /\
  (forall i x, k <= i -> content t !! i = Some x -> ltb x value = false).
Proof.
  intros Ht Hp k. assert (Hk : k = prefix_below ltb value (content t)).
  { unfold k, tree_lower_bound. destruct (Nat.eqb_spec (m_size t) 0) as [H0|H0].
    - rewrite (t_size _ _ Ht) in H0. apply length_zero_iff_nil in H0 as ->. done.
    - destruct (t_root _ _ Ht) as [Hr|(h & Hw & _)].
      + rewrite (t_size _ _ Ht) in H0. unfold content in H0. by rewrite Hr in H0.
      + by rewrite (lower_bound_loop_spec MAX ltb value h). }
  rewrite Hk, (t_size _ _ Ht). split; [apply prefix_below_le|]. split; intros i x Hi Hx.
  - by apply (prefix_below_lt ltb value (content t) i x).
  - by apply (prefix_below_ge ltb value (content t) i x).
Qed.

(** An oversized leaf root is split, level by level, into a
    well-formed tree with the same elements, in at most as many rounds as it has
    elements. *)
Theorem split_if_needed_correct {A} (MAX : nat) (xs : list A) :
  2 <= MAX -> exists root, split_if_needed MAX (length xs) (Leaf xs) = Ok root /\ root_ok MAX root /\ elements root = xs.
Proof. intros Hm. by apply split_leaf_spec. Qed.

(** [find_first] returns the smallest index whose element equals the
    value, and [npos] when no element does. *)
Theorem find_first_correct {A} (MAX : nat) (eqb : A -> A -> bool) (t : BPlusTree A) v :
  tree_ok MAX t ->
  match (find_first eqb t v).1 with
  | Some i => (exists x, content t !! i = Some x /\ eqb x v = true) /\
              forall j y, j < i -> content t !! j = Some y -> eqb y v = false
  | None => forall j y, content t !! j = Some y -> eqb y v = false
  end.
Proof.
  intros Ht. destruct (find_first_spec MAX eqb t v Ht) as [-> _]. rewrite (t_size _ _ Ht).
  set (E := content t). clearbody E. assert (Hb : forall j y, j < leaf_find_first eqb v E -> E !! j = Some y -> eqb y v = false).
  { clear. induction E as [|x E IH]; intros j y Hj Hy; [done|]. cbn in Hj. destruct (eqb x v) eqn:Ex; [lia|].
    destruct j; [by injection Hy as <-|]. apply (IH j); [lia|done]. }
  destruct (Nat.ltb_spec (leaf_find_first eqb v E) (length E)) as [Hlt|Hge].
  - split; [|done]. destruct (lookup_lt_is_Some_2 E _ Hlt) as [x Hx]. exists x. split; [done|].
    clear - Hx. induction E as [|y E IH]; [done|]. cbn in Hx. destruct (eqb y v) eqn:Ey; [by injection Hx as <-|]. by apply IH.
  - intros j y Hy. apply (Hb j); [|done]. apply lookup_lt_Some in Hy. lia.
Qed.

(** ** Examples, with nodes of at most four entries *)

Definition ex_tree : BPlusTree nat :=
  mkTree (Inner (Compact 4) [Leaf [1; 2; 3; 4]; Leaf [5; 5; 5; 5]; Leaf [5; 9]] 10) 10
    (mkCache 4 8 [5; 5; 5; 5]).

Lemma ex_tree_ok : tree_ok 4 ex_tree.
Proof.
  split; [|done| |done].
  - right. exists 1. split; [|cbn; lia]. cbn. split; [lia|]. split; [repeat constructor; cbn; lia|].
    split; [done|]. split; [done|]. split; [repeat constructor|].
    intros [|[|i]] c Hc Hi; cbn in Hc, Hi; [by injection Hc as <-..|lia].
  - right. split; [done|]. right. exists [1; 2; 3; 4], [5; 9]. done.
Qed.

Definition ex_ops : list (op nat) :=
  [OpAddFrom [1; 2; 3; 4; 5; 6]; OpInsert 1 7; OpErase 0; OpGet 2; OpSetMany [(0, 8); (3, 9)];
   OpSwap 0 3; OpEraseMany [1; 4]; OpAdd 6; OpGet 0].

Lemma tree_refines_list_witness :
  exists t, tree_run 4 ex_ops tree_create = Ok ([None; None; None; Some 3; None; None; None; None; Some 9], t) /\
    tree_ok 4 t /\ content t = [9; 3; 8; 6; 6].
Proof. apply (tree_refines_list 4 ex_ops); [lia|by vm_compute]. Defined.

Lemma tree_insert_correct_witness :
  exists t', tree_insert 4 ex_tree (Some 2) 0 = Ok t' /\ tree_ok 4 t' /\ content t' = [1; 2; 0; 3; 4; 5; 5; 5; 5; 5; 9].
Proof. apply (tree_insert_correct 4 ex_tree (Some 2) 0); [lia|apply ex_tree_ok|cbn; lia|done]. Defined.

Lemma tree_erase_correct_witness :
  exists t', tree_erase 4 ex_tree 8 = Ok t' /\ tree_ok 4 t' /\ content t' = [1; 2; 3; 4; 5; 5; 5; 5; 9].
Proof. apply (tree_erase_correct 4 ex_tree 8); [lia|apply ex_tree_ok|cbn; lia]. Defined.

Lemma tree_get_correct_witness :
  exists t1 t2, tree_get ex_tree 7 = Ok (5, t1) /\ get_uncached ex_tree 7 = Ok (5, t2) /\
    tree_ok 4 t1 /\ content t1 = content ex_tree.
Proof. apply (tree_get_correct 4 ex_tree 7 5); [apply ex_tree_ok|done]. Defined.

Lemma add_from_correct_witness :
  exists t', add_from 4 tree_create (seq 0 23) = Ok t' /\ tree_ok 4 t' /\ content t' = content tree_create ++ seq 0 23.
Proof. apply (add_from_correct 4 tree_create (seq 0 23)); [lia|apply tree_create_ok|done]. Defined.

Lemma erase_many_correct_witness :
  (exists t', erase_many 4 ex_tree [0; 5; 9] = Ok t' /\ tree_ok 4 t' /\ content t' = [2; 3; 4; 5; 5; 5; 5]) /\
  exists e, erase_many 4 ex_tree [5; 5] = Throw e.
Proof.
  split.
  - apply (erase_many_correct 4 ex_tree [0; 5; 9]); [lia|apply ex_tree_ok|].
    split; repeat constructor; cbn; lia.
  - apply (erase_many_correct 4 ex_tree [5; 5]); [lia|apply ex_tree_ok|].
    intros [Hs _]. apply StronglySorted_inv in Hs as [_ Hs]. inversion Hs; subst. lia.
Defined.

Lemma set_many_correct_witness :
  exists t', set_many ex_tree [(1, 7); (8, 6)] = Ok t' /\ tree_ok 4 t' /\ content t' = [1; 7; 3; 4; 5; 5; 5; 5; 6; 9].
Proof.
  apply (set_many_correct 4 ex_tree [(1, 7); (8, 6)]); [apply ex_tree_ok|].
  split; repeat constructor; cbn; lia.
Defined.

Lemma ex_partitioned : partitioned Nat.ltb 5 (content ex_tree).
Proof.
  intros i j x y Hij Hx Hy. unfold below. rewrite !Nat.ltb_lt. intros Hlt.
  destruct i as [|[|[|[|i]]]]; [by cbn in Hx; injection Hx as <-; lia..|]. exfalso.
  destruct j as [|[|[|[|j]]]]; [lia..|].
  do 6 (destruct j as [|j]; [cbn in Hy; injection Hy as <-; lia|]). done.
Qed.

Lemma tree_lower_bound_correct_witness :
  tree_lower_bound Nat.ltb ex_tree 5 = 4 /\
  (forall i x, 4 <= i -> content ex_tree !! i = Some x -> Nat.ltb x 5 = false).
Proof.
  split; [by vm_compute|]. apply (tree_lower_bound_correct 4 Nat.ltb ex_tree 5); [apply ex_tree_ok|apply ex_partitioned].
Defined.

Lemma split_if_needed_correct_witness :
  exists root, split_if_needed 4 19 (Leaf (seq 0 19)) = Ok root /\ root_ok 4 root /\ elements root = seq 0 19.
Proof. apply (split_if_needed_correct 4 (seq 0 19)). lia. Defined.

Lemma find_first_correct_witness :
  (find_first Nat.eqb ex_tree 5).1 = Some 4 /\
  match (find_first Nat.eqb ex_tree 5).1 with
  | Some i => (exists x, content ex_tree !! i = Some x /\ Nat.eqb x 5 = true) /\
              forall j y, j < i -> content ex_tree !! j = Some y -> Nat.eqb y 5 = false
  | None => forall j y, content ex_tree !! j = Some y -> Nat.eqb y 5 = false
  end.
Proof. split; [by vm_compute|]. apply (find_first_correct 4 Nat.eqb ex_tree 5), ex_tree_ok. Defined.
