(* ===== verification/FreeList.v ===== *)
(** * The file's free list

    Models the free-space half of [GroupWriter] (group_writer.cpp): reading the
    free lists of the file, allocating space for the arrays of a commit,
    extending the file, and writing the free lists back. The position searches
    of [SlabAlloc] it calls (alloc_slab.cpp, alloc_slab.hpp, alloc.hpp) are
    included.

    [m_size_map], a multimap from chunk size to position, is the list of its
    entries in key order, and an iterator is an index into it. The three arrays
    of the file's free list are the list of the triples they hold. Sizes and
    positions are far below [2^63], so their sums do not wrap; the page size, a
    power of two, is a parameter. *)

From stdpp Require Import sorting.
From S2P Require Import Prelude.

(** ** Data *)

Record FreeSpaceEntry := mkEntry {
  e_ref : Z;
  e_size : Z;
  e_released_at_version : Z
}.

(** Entries [(size, pos)] in increasing order of size. *)
Abbreviation SizeMap := (list (Z * Z)).

Record GroupWriter := mkWriter {
  m_size_map : SizeMap;
  m_not_free_in_file : list FreeSpaceEntry;
  m_under_evacuation : list FreeSpaceEntry;
  m_evacuation_limit : Z;
  m_backoff : Z;
  m_logical_size : Z;
  m_file_size : Z
}.

Definition with_size_map (w : GroupWriter) (m : SizeMap) : GroupWriter :=
  mkWriter m (m_not_free_in_file w) (m_under_evacuation w) (m_evacuation_limit w) (m_backoff w)
    (m_logical_size w) (m_file_size w).

(** ** The multimap *)

(** The number of leading entries with a key below, or not above, [k]. *)
Fixpoint sm_lower_bound (k : Z) (m : SizeMap) : nat :=
  match m with (k', _) :: m => if k' <? k then S (sm_lower_bound k m) else 0%nat | [] => 0%nat end.

Fixpoint sm_upper_bound (k : Z) (m : SizeMap) : nat :=
  match m with (k', _) :: m => if k' <=? k then S (sm_upper_bound k m) else 0%nat | [] => 0%nat end.

(** [emplace]: after the entries with the same key. *)
Definition sm_emplace (k v : Z) (m : SizeMap) : SizeMap * nat :=
  (list_insert_at (sm_upper_bound k m) (k, v) m, sm_upper_bound k m).

Definition sm_erase (it : nat) (m : SizeMap) : SizeMap := list_erase_range it (S it) m.

(** ** Sections *)

Definition section_shift : Z := 26.

Definition get_section_base (index : Z) : Z := Z.shiftl index section_shift.
Definition get_section_index (pos : Z) : Z := Z.shiftr pos section_shift.

Definition get_upper_section_boundary (start_pos : Z) : Z :=
  get_section_base (1 + get_section_index start_pos).

Definition get_lower_section_boundary (start_pos : Z) : Z :=
  get_section_base (get_section_index start_pos).

Definition matches_section_boundary (pos : Z) : bool := pos =? get_lower_section_boundary pos.

Definition align_size_to_section_boundary (size : Z) : Z :=
  if matches_section_boundary size then size else get_upper_section_boundary size.

Fixpoint find_section_loop (fuel : nat) (alloc_pos end_of_block request_size : Z) : result Z :=
  match fuel with
  | O => OutOfFuel
  | S fuel =>
      if alloc_pos + request_size <=? end_of_block then
        let next_section_boundary := get_upper_section_boundary alloc_pos in
        if alloc_pos + request_size <=? next_section_boundary then Ok alloc_pos
        else find_section_loop fuel next_section_boundary end_of_block request_size
      else Ok 0
  end.

(** Each round but the first starts at a section boundary of the chunk. *)
Definition find_section_in_range (start_pos free_chunk_size request_size : Z) : result Z :=
  find_section_loop (Z.to_nat (free_chunk_size / 2 ^ section_shift) + 3) start_pos
    (start_pos + free_chunk_size) request_size.

(** ** Allocation *)

Section Writer.
Context (page_size : Z).

Definition round_up_to_page_size (size : Z) : Z :=
  Z.land (size + page_size - 1) (Z.lnot (page_size - 1)).

Definition split_freelist_chunk (m : SizeMap) (it : nat) (start_pos chunk_size alloc_pos : Z) : result (SizeMap * nat) :=
  let m := sm_erase it m in
  if negb (start_pos <? alloc_pos) then Throw AssertionFailed else
  if negb (Z.land alloc_pos 7 =? 0) then Throw AssertionFailed else
  let size_first := alloc_pos - start_pos in
  let size_second := chunk_size - size_first in
  let '(m, _) := sm_emplace size_first start_pos m in
  Ok (sm_emplace size_second alloc_pos m).

(** [None] is [m_size_map.end()]. *)
Definition search_free_space_in_free_list_element (m : SizeMap) (it : nat) (size : Z) :
    result (option (SizeMap * nat)) :=
  match m !! it with
  | None => Throw OutOfRange
  | Some (chunk_size, start_pos) =>
      alloc_pos ← find_section_in_range start_pos chunk_size size;
      if alloc_pos =? 0 then Ok None
      else if negb (alloc_pos =? start_pos) then
        r ← split_freelist_chunk m it start_pos chunk_size alloc_pos;
        Ok (Some r)
      else Ok (Some (m, it))
  end.

Fixpoint search_loop (fuel : nat) (m : SizeMap) (it : nat) (size : Z) : result (option (SizeMap * nat)) :=
  match m !! it with
  | None => Ok None
  | Some (k, _) =>
      match fuel with
      | O => OutOfFuel
      | S fuel =>
          if (k =? size) || (2 * size <=? k) then
            ret ← search_free_space_in_free_list_element m it size;
            match ret with
            | Some r => Ok (Some r)
            | None => search_loop fuel m (S it) size
            end
          else search_loop fuel m (sm_lower_bound (2 * size) m) size
      end
  end.

Definition search_free_space_in_part_of_freelist (m : SizeMap) (size : Z) : result (option (SizeMap * nat)) :=
  search_loop (length m) m (sm_lower_bound size m) size.

Definition growth_boundary : Z := 1024 * 1024.

(** [commit_size] is the slab space of the transaction, [SlabAlloc::get_commit_size]. *)
Definition extend_free_space (commit_size : Z) (w : GroupWriter) (requested_size : Z) : result (GroupWriter * nat) :=
  let logical_file_size := m_logical_size w in
  let minimal_new_size := logical_file_size in
  let minimal_new_size :=
    if minimal_new_size <? growth_boundary then minimal_new_size * 2
    else minimal_new_size + Z.max growth_boundary (commit_size + commit_size / 8) in
  let minimal_new_size := Z.max minimal_new_size (m_file_size w) in
  let required_new_size := logical_file_size + requested_size in
  let minimal_new_size :=
    if minimal_new_size <? required_new_size then required_new_size else minimal_new_size in
  if (2 ^ 64 - 1) / 4 * 3 <? minimal_new_size then Throw MaximumFileSizeExceeded else
  let new_file_size := minimal_new_size in
  let next_boundary := align_size_to_section_boundary new_file_size in
  let new_file_size := round_up_to_page_size new_file_size in
  let new_file_size := if next_boundary <? new_file_size then next_boundary else new_file_size in
  if negb (Z.land new_file_size 7 =? 0) then Throw AssertionFailed else
  (* resize_file: the file is preallocated, never shortened *)
  let file_size := Z.max (m_file_size w) new_file_size in
  let chunk_size := new_file_size - logical_file_size in
  if negb (Z.land chunk_size 7 =? 0) then Throw AssertionFailed else
  if chunk_size =? 0 then Throw AssertionFailed else
  let '(m, it) := sm_emplace chunk_size logical_file_size (m_size_map w) in
  Ok (mkWriter m (m_not_free_in_file w) (m_under_evacuation w) (m_evacuation_limit w) (m_backoff w)
        new_file_size file_size, it).

Definition emplace_entry (m : SizeMap) (e : FreeSpaceEntry) : SizeMap := (sm_emplace (e_size e) (e_ref e) m).1.

(** Giving up the evacuation: its chunks become allocatable. *)
Definition release_evacuation (w : GroupWriter) : GroupWriter :=
  mkWriter (fold_left emplace_entry (m_under_evacuation w) (m_size_map w)) (m_not_free_in_file w) [] 0 10
    (m_logical_size w) (m_file_size w).

Fixpoint reserve_loop (fuel : nat) (commit_size : Z) (w : GroupWriter) (chunk : option (SizeMap * nat)) (size : Z) :
    result (GroupWriter * nat) :=
  match chunk with
  | Some (m, it) => Ok (with_size_map w m, it)
  | None =>
      match fuel with
      | O => OutOfFuel
      | S fuel =>
          match m_under_evacuation w with
          | _ :: _ =>
              let w := release_evacuation w in
              chunk ← search_free_space_in_part_of_freelist (m_size_map w) size;
              reserve_loop fuel commit_size w chunk size
          | [] =>
              '(w, new_chunk) ← extend_free_space commit_size w size;
              chunk ← search_free_space_in_free_list_element (m_size_map w) new_chunk size;
              reserve_loop fuel commit_size w chunk size
          end
      end
  end.

Definition reserve_free_space (fuel : nat) (commit_size : Z) (w : GroupWriter) (size : Z) : result (GroupWriter * nat) :=
  chunk ← search_free_space_in_part_of_freelist (m_size_map w) size;
  reserve_loop fuel commit_size w chunk size.

Definition get_free_space (fuel : nat) (commit_size : Z) (w : GroupWriter) (size : Z) : result (Z * GroupWriter) :=
  '(w, p) ← reserve_free_space fuel commit_size w size;
  match m_size_map w !! p with
  | None => Throw OutOfRange
  | Some (chunk_size, chunk_pos) =>
      if negb (Z.land chunk_pos 7 =? 0) then Throw AssertionFailed else
      if negb (Z.land chunk_size 7 =? 0) then Throw AssertionFailed else
      let rest := chunk_size - size in
      let m := sm_erase p (m_size_map w) in
      let m := if 0 <? rest then (sm_emplace rest (chunk_pos + size) m).1 else m in
      Ok (chunk_pos, with_size_map w m)
  end.

End Writer.

(** ** Reading the free lists of the file *)

(** [merge_adjacent_entries_in_freelist]: [prev] is the entry being extended,
    [zeros] the entries merged into it, which stay in the list with size 0. *)
Fixpoint merge_loop (prev : FreeSpaceEntry) (zeros l : list FreeSpaceEntry) : list FreeSpaceEntry :=
  match l with
  | [] => prev :: zeros
  | it :: l =>
      if e_ref prev + e_size prev =? e_ref it then
        merge_loop (mkEntry (e_ref prev) (e_size prev + e_size it) (e_released_at_version prev))
          (zeros ++ [mkEntry (e_ref it) 0 (e_released_at_version it)]) l
      else prev :: zeros ++ merge_loop it [] l
  end.

Definition merge_adjacent_entries_in_freelist (l : list FreeSpaceEntry) : list FreeSpaceEntry :=
  match l with [] => [] | prev :: l => merge_loop prev [] l end.

Fixpoint move_free_in_file_to_size_map (l : list FreeSpaceEntry) (m : SizeMap) : result SizeMap :=
  match l with
  | [] => Ok m
  | elem :: l =>
      if e_size elem =? 0 then move_free_in_file_to_size_map l m else
      if negb (Z.land (e_size elem) 7 =? 0) then Throw AssertionFailed else
      if negb (Z.land (e_ref elem) 7 =? 0) then Throw AssertionFailed else
      move_free_in_file_to_size_map l (emplace_entry m elem)
  end.

(** The loop over the file's entries: those pinned by a live version, those
    beyond the evacuation limit, the free ones. *)
Fixpoint read_entries (limit_version evacuation_limit : Z) (file : list FreeSpaceEntry) :
    list FreeSpaceEntry * list FreeSpaceEntry * list FreeSpaceEntry :=
  match file with
  | [] => ([], [], [])
  | e :: file =>
      let '(pinned, evac, free) := read_entries limit_version evacuation_limit file in
      let ref := e_ref e in
      let size := e_size e in
      if limit_version <? e_released_at_version e then (e :: pinned, evac, free)
      else if evacuation_limit <? ref + size then
        if ref <? evacuation_limit then
          let still_free_size := evacuation_limit - ref in
          (pinned, mkEntry evacuation_limit (size - still_free_size) 0 :: evac, mkEntry ref still_free_size 0 :: free)
        else (pinned, mkEntry ref size 0 :: evac, free)
      else (pinned, evac, mkEntry ref size 0 :: free)
  end.

(** [file] holds the triples of [m_free_positions], [m_free_lengths] and
    [m_free_versions]; a limit of 0 is no limit. *)
Definition read_in_freelist (oldest_reachable_version evacuation_limit backoff logical_size file_size : Z)
    (file : list FreeSpaceEntry) : result GroupWriter :=
  let limit := if evacuation_limit =? 0 then npos else evacuation_limit in
  let '(pinned, evac, free) := read_entries oldest_reachable_version limit file in
  let evac := List.filter (fun e => negb (e_size e =? 0)) (merge_adjacent_entries_in_freelist evac) in
  m ← move_free_in_file_to_size_map (merge_adjacent_entries_in_freelist free) [];
  Ok (mkWriter m pinned evac evacuation_limit backoff logical_size file_size).

(** ** Writing the free lists back *)

Definition ref_le (a b : FreeSpaceEntry) : Prop := e_ref a <= e_ref b.
#[export] Instance ref_le_dec a b : Decision (ref_le a b) := Z_le_dec (e_ref a) (e_ref b).

(** The entries in position order, each checked against the one before it. The
    chunk at [reserve_pos] is not counted as free space. *)
Fixpoint check_entries (prev_ref prev_size : Z) (i : nat) (reserve_pos : Z) (l : list FreeSpaceEntry) :
    result (option nat * Z) :=
  match l with
  | [] => Ok (None, 0)
  | e :: l =>
      if e_ref e <? prev_ref + prev_size then Throw AssertionFailed else
      '(reserve_ndx, free_space_size) ← check_entries (e_ref e) (e_size e) (S i) reserve_pos l;
      if reserve_pos =? e_ref e
      then Ok (Some (default i reserve_ndx), free_space_size)
      else Ok (reserve_ndx, free_space_size + e_size e)
  end.

Definition sum_entries (l : list FreeSpaceEntry) : Z := fold_right (fun e n => e_size e + n) 0 l.

Record Recreated := mkRecreated {
  r_entries : list FreeSpaceEntry;
  r_reserve_ndx : nat;
  r_free_space_size : Z;
  r_locked_space_size : Z
}.

(** [new_free_space] holds the [(ref, size)] of [SlabAlloc::get_free_read_only]. *)
Definition all_entries (w : GroupWriter) (current_version : Z) (new_free_space : list (Z * Z)) : list FreeSpaceEntry :=
  map (fun p => mkEntry p.2 p.1 0) (m_size_map w) ++
  m_not_free_in_file w ++
  map (fun p => mkEntry p.1 p.2 current_version) new_free_space ++
  map (fun e => mkEntry (e_ref e) (e_size e) 0) (m_under_evacuation w).

Definition recreate_freelist (w : GroupWriter) (current_version : Z) (new_free_space : list (Z * Z)) (reserve_pos : Z) :
    result Recreated :=
  let free_in_file := merge_sort ref_le (all_entries w current_version new_free_space) in
  let locked_space_size :=
    sum_entries (m_not_free_in_file w) + fold_right (fun p n => p.2 + n) 0 new_free_space in
  '(reserve_ndx, free_space_size) ← check_entries 0 0 0 reserve_pos free_in_file;
  match reserve_ndx with
  | None => Throw AssertionFailed
  | Some ndx => Ok (mkRecreated free_in_file ndx free_space_size locked_space_size)
  end.

(** The last step of [write_group]: the space the free lists and the top array
    take is deducted from the reserved chunk. *)
Definition deduct_reserved (r : Recreated) (end_ref : Z) : list FreeSpaceEntry :=
  match r_entries r !! r_reserve_ndx r with
  | None => r_entries r
  | Some e =>
      let rest := e_ref e + e_size e - end_ref in
      <[r_reserve_ndx r := mkEntry end_ref rest (e_released_at_version e)]> (r_entries r)
  end.
