(* ===== verification/FreeListAlloc.v ===== *)
(** * The free list: counting the entries that cover a byte, and allocation *)

From stdpp Require Import sorting.
From S2P Require Import Prelude FreeList.

(** ** Counting *)

(** 1 when byte [x] is in the chunk of [size] bytes at [pos]. *)
Definition inb (x pos size : Z) : Z := if (pos <=? x) && (x <? pos + size) then 1 else 0.

Definition sm_count (x : Z) (m : SizeMap) : Z := sumf (fun p => inb x p.2 p.1) m.
Definition e_count (x : Z) (l : list FreeSpaceEntry) : Z := sumf (fun e => inb x (e_ref e) (e_size e)) l.

(** The allocatable bytes, and all bytes the writer tracks. *)
Definition free_count (x : Z) (w : GroupWriter) : Z := sm_count x (m_size_map w) + e_count x (m_under_evacuation w).
Definition w_count (x : Z) (w : GroupWriter) : Z := free_count x w + e_count x (m_not_free_in_file w).

Ltac inb_cases := unfold inb in *; repeat (zdec; cbn [andb] in *); try lia.

Lemma inb_range x pos size : 0 <= inb x pos size <= 1.
Proof. inb_cases. Qed.

Lemma inb_split x pos a b : 0 <= a -> 0 <= b -> inb x pos (a + b) = inb x pos a + inb x (pos + a) b.
Proof. intros. inb_cases. Qed.

Lemma sm_count_nonneg x m : 0 <= sm_count x m.
Proof. apply sumf_nonneg. intros. apply inb_range. Qed.
Lemma e_count_nonneg x l : 0 <= e_count x l.
Proof. apply sumf_nonneg. intros. apply inb_range. Qed.

(** ** Chunks *)

Definition chunk_ok (p : Z * Z) : Prop := 0 < p.1 /\ p.1 mod 8 = 0 /\ 0 < p.2 /\ p.2 mod 8 = 0.
Definition entry_ok (e : FreeSpaceEntry) : Prop := chunk_ok (e_size e, e_ref e).

Definition by_size (a b : Z * Z) : Prop := a.1 <= b.1.
Definition sm_ok (m : SizeMap) : Prop := Forall chunk_ok m /\ StronglySorted by_size m.

Lemma land7 z : (Z.land z 7 =? 0) = (z mod 8 =? 0).
Proof. change 7 with (Z.ones 3). by rewrite Z.land_ones. Qed.

Lemma sorted_insert k v m : StronglySorted by_size m ->
  StronglySorted by_size (list_insert_at (sm_upper_bound k m) (k, v) m).
Proof.
  induction m as [|[k' v'] m IH]; intros Hs; cbn [sm_upper_bound].
  { repeat constructor. }
  apply StronglySorted_inv in Hs as [Hs Hf]. destruct (Z.leb_spec k' k).
  - change (StronglySorted by_size ((k', v') :: list_insert_at (sm_upper_bound k m) (k, v) m)).
    constructor; [auto|]. apply Forall_insert_at; [done|done].
  - change (StronglySorted by_size ((k, v) :: (k', v') :: m)). constructor; [by constructor|].
    constructor; [unfold by_size; cbn; lia|]. eapply Forall_impl; [|exact Hf]. unfold by_size. cbn. lia.
Qed.

Lemma sorted_erase {B} (R : B -> B -> Prop) i l : StronglySorted R l -> StronglySorted R (list_erase_range i (S i) l).
Proof.
  intros Hs. revert i. induction Hs as [|a l Hs IH Hf]; intros i.
  - unfold list_erase_range. rewrite take_nil, drop_nil. constructor.
  - destruct i as [|i]; [done|]. change (StronglySorted R (a :: list_erase_range i (S i) l)).
    constructor; [apply IH|by apply Forall_erase].
Qed.

Lemma sm_emplace_spec k v m : sm_ok m -> chunk_ok (k, v) ->
  let '(m', it) := sm_emplace k v m in
  sm_ok m' /\ m' !! it = Some (k, v) /\ forall x, sm_count x m' = inb x v k + sm_count x m.
Proof.
  intros [Hc Hs] Hk. unfold sm_emplace. split; [split; [by apply Forall_insert_at|by apply sorted_insert]|]. split.
  - assert (Hle : forall m0, (sm_upper_bound k m0 <= length m0)%nat).
    { induction m0 as [|[k' v'] m0 IH]; cbn; [lia|]. destruct (k' <=? k); lia. }
    rewrite lookup_list_insert_at by apply Hle. rewrite Nat.ltb_irrefl, Nat.eqb_refl. done.
  - intros x. unfold sm_count. by rewrite sumf_insert_at.
Qed.

Lemma sm_erase_spec it k v m : sm_ok m -> m !! it = Some (k, v) ->
  sm_ok (sm_erase it m) /\ forall x, sm_count x (sm_erase it m) = sm_count x m - inb x v k.
Proof.
  intros [Hc Hs] Hi. split; [split; [by apply Forall_erase|by apply sorted_erase]|].
  intros x. unfold sm_count, sm_erase. by rewrite (sumf_erase _ _ _ _ Hi).
Qed.

(** ** Sections *)

Lemma upper_boundary pos : get_upper_section_boundary pos = (1 + pos / 2 ^ 26) * 2 ^ 26.
Proof. unfold get_upper_section_boundary, get_section_base, get_section_index, section_shift.
  by rewrite Z.shiftl_mul_pow2, Z.shiftr_div_pow2. Qed.

Lemma upper_boundary_spec pos : 0 <= pos ->
  let b := get_upper_section_boundary pos in pos < b <= pos + 2 ^ 26 /\ b mod 2 ^ 26 = 0.
Proof.
  intros Hp. cbv zeta. rewrite upper_boundary. rewrite Z.mod_mul by done. change (2 ^ 26) with 67108864. dlia.
Qed.

Lemma upper_boundary_in b pos : b mod 2 ^ 26 = 0 -> b <= pos < b + 2 ^ 26 -> get_upper_section_boundary pos = b + 2 ^ 26.
Proof. intros Hb Hp. rewrite upper_boundary. change (2 ^ 26) with 67108864 in *. dlia. Qed.

Lemma align_section_spec size : 0 <= size ->
  let b := align_size_to_section_boundary size in size <= b < size + 2 ^ 26 /\ b mod 2 ^ 26 = 0.
Proof.
  intros Hs. unfold align_size_to_section_boundary, matches_section_boundary, get_lower_section_boundary,
    get_section_base, get_section_index, section_shift. rewrite Z.shiftl_mul_pow2, Z.shiftr_div_pow2 by lia.
  pose proof (upper_boundary_spec size Hs) as Hu. rewrite upper_boundary in *.
  destruct (Z.eqb_spec size (size / 2 ^ 26 * 2 ^ 26)) as [He|He].
  - split; [lia|]. rewrite He. by rewrite Z.mod_mul.
  - split; [|apply Hu]. change (2 ^ 26) with 67108864 in *. dlia.
Qed.

(** The search in one chunk: the position found lies in the chunk and in one
    section; when none is found the chunk is too small, or ends before the
    request fits behind the next section boundary. *)
Lemma find_section_spec start chunk req : 0 < start -> 0 <= chunk -> 0 < req <= 2 ^ 26 ->
  exists p, find_section_in_range start chunk req = Ok p /\
    (p = 0 /\ (chunk < req \/ get_upper_section_boundary start < start + req /\
                 start + chunk < get_upper_section_boundary start + req) \/
     0 < p /\ start <= p /\ p + req <= start + chunk /\ p + req <= get_upper_section_boundary p /\
     (p = start \/ p = get_upper_section_boundary start)).
Proof.
  intros Hs Hc Hr. unfold find_section_in_range. rewrite Nat.add_comm. cbn [Nat.add find_section_loop].
  pose proof (upper_boundary_spec start ltac:(lia)) as [Hb Hbm]. set (b := get_upper_section_boundary start) in *.
  assert (Hbb : get_upper_section_boundary b = b + 2 ^ 26) by (apply upper_boundary_in; lia).
  destruct (Z.leb_spec (start + req) (start + chunk)); [|exists 0; split; [done|left; lia]].
  destruct (Z.leb_spec (start + req) b); [exists start; split; [done|right; fold b; lia]|].
  destruct (Z.leb_spec (b + req) (start + chunk)); [|exists 0; split; [done|left; lia]].
  rewrite Hbb, (proj2 (Z.leb_le _ _)) by lia. exists b. split; [done|]. right. rewrite Hbb. lia.
Qed.

(** ** Allocating file space *)

#[global] Arguments sm_count : simpl never.
#[global] Arguments e_count : simpl never.

(** The chunk [it] of [m'] can serve [size] bytes; [m'] covers what [m] does. *)
Definition found (m : SizeMap) (size : Z) (r : SizeMap * nat) : Prop :=
  let '(m', it) := r in
  sm_ok m' /\ (forall x, sm_count x m' = sm_count x m) /\
  exists k v, m' !! it = Some (k, v) /\ size <= k /\ v + size <= get_upper_section_boundary v.

Lemma chunk_at m it k v : sm_ok m -> m !! it = Some (k, v) -> chunk_ok (k, v).
Proof. intros [Hc _] Hi. by eapply (Forall_lookup_1 _ _ _ _ Hc). Qed.

Lemma split_spec m it k v p : sm_ok m -> m !! it = Some (k, v) -> v < p < v + k -> p mod 8 = 0 ->
  exists m' it', split_freelist_chunk m it v k p = Ok (m', it') /\ sm_ok m' /\
    (forall x, sm_count x m' = sm_count x m) /\ m' !! it' = Some (k - (p - v), p).
Proof.
  intros Hm Hi Hp Hp8. pose proof (chunk_at _ _ _ _ Hm Hi) as (Hk & Hk8 & Hv & Hv8). cbn in *.
  unfold split_freelist_chunk. rewrite (proj2 (Z.ltb_lt _ _)), land7, Hp8 by lia. cbn [negb Z.eqb].
  destruct (sm_erase_spec it k v m Hm Hi) as [Hm1 Hc1].
  pose proof (sm_emplace_spec (p - v) v (sm_erase it m) Hm1) as H1.
  destruct (sm_emplace (p - v) v (sm_erase it m)) as [m2 it2]. destruct H1 as (Hm2 & _ & Hc2).
  { split; cbn; [lia|]. split; [dlia|done]. }
  pose proof (sm_emplace_spec (k - (p - v)) p m2 Hm2) as H2.
  destruct (sm_emplace (k - (p - v)) p m2) as [m3 it3]. destruct H2 as (Hm3 & Hl3 & Hc3).
  { split; cbn; [lia|]. split; [dlia|lia]. }
  exists m3, it3. split; [done|]. split; [done|]. split; [|done]. intros x. rewrite Hc3, Hc2, Hc1.
  pose proof (inb_split x v (p - v) (k - (p - v)) ltac:(lia) ltac:(lia)) as Hs.
  replace (p - v + (k - (p - v))) with k in Hs by lia. replace (v + (p - v)) with p in Hs by lia. lia.
Qed.

Lemma search_element_spec m it k v size : sm_ok m -> m !! it = Some (k, v) -> 0 < size <= 2 ^ 26 ->
  search_free_space_in_free_list_element m it size = Ok None /\
    (k < size \/ get_upper_section_boundary v < v + size /\ v + k < get_upper_section_boundary v + size) \/
  exists r, search_free_space_in_free_list_element m it size = Ok (Some r) /\ found m size r.
Proof.
  intros Hm Hi Hs. pose proof (chunk_at _ _ _ _ Hm Hi) as (Hk & Hk8 & Hv & Hv8). cbn in *.
  unfold search_free_space_in_free_list_element. rewrite Hi.
  destruct (find_section_spec v k size) as (p & -> & Hp); [lia..|]. cbn [mbind result_bind].
  destruct Hp as [[-> Hp]|(Hp0 & Hvp & Hpe & Hpu & Hpc)]; [by left|]. right.
  rewrite (proj2 (Z.eqb_neq p 0)) by lia. destruct (Z.eqb_spec p v) as [->|Hne]; cbn [negb].
  - eexists. split; [done|]. split; [done|]. split; [done|]. exists k, v. split; [done|lia].
  - destruct Hpc as [|Hpc]; [done|].
    destruct (split_spec m it k v p) as (m' & it' & -> & Hm' & Hc' & Hl'); [done..|lia| |].
    { rewrite Hpc. destruct (upper_boundary_spec v ltac:(lia)) as [_ Hb]. change (2 ^ 26) with 67108864 in Hb. dlia. }
    eexists. split; [done|]. split; [done|]. split; [done|]. exists (k - (p - v)), p. split; [done|lia].
Qed.

Lemma lower_bound_after m it k v bound : StronglySorted by_size m -> m !! it = Some (k, v) -> k < bound ->
  (it < sm_lower_bound bound m <= length m)%nat.
Proof.
  intros Hs. revert it. induction Hs as [|[k0 v0] m Hs IH Hf]; intros it Hi Hk; [done|]. cbn [sm_lower_bound length].
  assert (Hk0 : k0 < bound).
  { destruct it; cbn in Hi; [injection Hi; lia|]. pose proof (Forall_lookup_1 _ _ _ _ Hf Hi) as H. unfold by_size in H. cbn in H. lia. }
  rewrite (proj2 (Z.ltb_lt _ _) Hk0). destruct it as [|it]; cbn in Hi.
  - assert (forall m0 b, (sm_lower_bound b m0 <= length m0)%nat).
    { induction m0 as [|[k1 v1] m0 IHm]; intros b; cbn; [lia|]. destruct (k1 <? b); [specialize (IHm b)|]; lia. }
    specialize (H m bound). lia.
  - specialize (IH it Hi Hk). lia.
Qed.

Lemma search_loop_spec fuel m it size : sm_ok m -> 0 < size <= 2 ^ 26 -> (length m - it <= fuel)%nat ->
  search_loop fuel m it size = Ok None \/ exists r, search_loop fuel m it size = Ok (Some r) /\ found m size r.
Proof.
  intros Hm Hs. revert it. induction fuel as [|fuel IH]; intros it Hf; cbn [search_loop].
  { rewrite lookup_ge_None_2 by lia. by left. }
  destruct (m !! it) as [[k v]|] eqn:Ei; [|by left]. pose proof (lookup_lt_Some _ _ _ Ei).
  destruct ((k =? size) || (2 * size <=? k)) eqn:Ek.
  - destruct (search_element_spec m it k v size Hm Ei Hs) as [[-> _]|(r & -> & Hr)]; cbn [mbind result_bind]; [|by eauto].
    apply IH. lia.
  - apply orb_false_iff in Ek as [_ Ek]. apply Z.leb_gt in Ek.
    destruct (lower_bound_after m it k v (2 * size) (proj2 Hm) Ei Ek). apply IH. lia.
Qed.

Lemma search_part_spec m size : sm_ok m -> 0 < size <= 2 ^ 26 ->
  search_free_space_in_part_of_freelist m size = Ok None \/
  exists r, search_free_space_in_part_of_freelist m size = Ok (Some r) /\ found m size r.
Proof. intros. apply search_loop_spec; (done || lia). Qed.

(** ** The writer *)

Record winv (w : GroupWriter) : Prop := {
  v_map : sm_ok (m_size_map w);
  v_evac : Forall entry_ok (m_under_evacuation w);
  v_pinned : Forall entry_ok (m_not_free_in_file w);
  v_once : forall x, w_count x w <= 1;
  v_inside : forall x, 0 < w_count x w -> 0 < x < m_logical_size w;
  v_logical : 0 < m_logical_size w /\ m_logical_size w mod 8 = 0
}.

Section Alloc.
Context (page_bits : Z) (Hpage : 3 <= page_bits <= 26).
Let page_size := 2 ^ page_bits.

Lemma round_up_spec size : 0 <= size ->
  let r := round_up_to_page_size page_size size in size <= r /\ r mod 8 = 0.
Proof.
  intros Hs. cbv zeta. unfold round_up_to_page_size, page_size.
  assert (Hp : 0 < 2 ^ page_bits) by (apply Z.pow_pos_nonneg; lia).
  set (n := size + 2 ^ page_bits - 1). replace (2 ^ page_bits - 1) with (Z.ones page_bits) by (rewrite Z.ones_equiv; lia).
  assert (He : Z.land n (Z.lnot (Z.ones page_bits)) = n / 2 ^ page_bits * 2 ^ page_bits).
  { rewrite <- Z.ldiff_land, Z.ldiff_ones_r by lia. by rewrite Z.shiftl_mul_pow2, Z.shiftr_div_pow2 by lia. }
  rewrite He. split; [unfold n; dlia|].
  assert (H8 : 2 ^ page_bits = 2 ^ (page_bits - 3) * 8) by (change 8 with (2 ^ 3); rewrite <- Z.pow_add_r by lia; f_equal; lia).
  rewrite H8, Z.mul_assoc. by rewrite Z.mod_mul.
Qed.

(** The new chunk starts at the old logical size and can hold the request. *)
Definition extended (w : GroupWriter) (size : Z) (r : GroupWriter * nat) : Prop :=
  let '(w', it) := r in
  let L := m_logical_size w in let L' := m_logical_size w' in
  L + size <= L' /\ m_size_map w' !! it = Some (L' - L, L) /\ sm_ok (m_size_map w') /\ L' mod 8 = 0 /\
  (forall x, sm_count x (m_size_map w') = inb x L (L' - L) + sm_count x (m_size_map w)) /\
  m_not_free_in_file w' = m_not_free_in_file w /\ m_under_evacuation w' = m_under_evacuation w.

Lemma extend_spec commit_size w size : winv w -> 0 < size -> size mod 8 = 0 ->
  extend_free_space page_size commit_size w size = Throw MaximumFileSizeExceeded \/
  exists r, extend_free_space page_size commit_size w size = Ok r /\ extended w size r.
Proof.
  intros [Hm _ _ _ _ [HL HL8]] Hs Hs8. unfold extend_free_space.
  set (m0 := Z.max _ (m_file_size w)). set (m1 := if m0 <? m_logical_size w + size then _ else _).
  assert (Hm1 : m_logical_size w + size <= m1) by (unfold m1; zdec; lia). clearbody m1. clear m0.
  destruct (_ <? m1); [by left|]. right.
  pose proof (align_section_spec m1 ltac:(lia)) as [Ha Ha8]. pose proof (round_up_spec m1 ltac:(lia)) as [Hr Hr8].
  set (n := if align_size_to_section_boundary m1 <? round_up_to_page_size page_size m1 then _ else _).
  assert (Hn : m1 <= n /\ n mod 8 = 0).
  { unfold n. zdec; split; try lia. change (2 ^ 26) with 67108864 in Ha8. dlia. }
  clearbody n. destruct Hn as [Hn Hn8]. rewrite !land7, Hn8. cbn [Z.eqb negb].
  assert (Hc8 : (n - m_logical_size w) mod 8 = 0) by dlia. rewrite Hc8. cbn [Z.eqb negb].
  rewrite (proj2 (Z.eqb_neq _ _)) by lia.
  pose proof (sm_emplace_spec (n - m_logical_size w) (m_logical_size w) (m_size_map w) Hm) as H1.
  destruct (sm_emplace _ _ _) as [m' it]. destruct H1 as (Hm' & Hl' & Hc').
  { split; cbn; lia. }
  eexists. split; [done|]. split; cbn [m_logical_size m_size_map m_not_free_in_file m_under_evacuation]; [lia|]. auto 10.
Qed.

(** What the search for space changes: the free bytes gain those of the file's
    extension. *)
Definition grown (w w' : GroupWriter) : Prop :=
  m_logical_size w <= m_logical_size w' /\ m_not_free_in_file w' = m_not_free_in_file w /\
  forall x, free_count x w' = free_count x w + inb x (m_logical_size w) (m_logical_size w' - m_logical_size w).

Lemma grown_refl w m : (forall x, sm_count x m = sm_count x (m_size_map w)) -> grown w (with_size_map w m).
Proof.
  intros Hc. split; [done|]. split; [done|]. intros x. unfold free_count. cbn. rewrite Hc. inb_cases.
Qed.

Lemma grown_trans w1 w2 w3 : grown w1 w2 -> grown w2 w3 -> grown w1 w3.
Proof.
  intros (H1 & H2 & H3) (H4 & H5 & H6). split; [lia|]. split; [congruence|]. intros x. rewrite H6, H3.
  pose proof (inb_split x (m_logical_size w1) (m_logical_size w2 - m_logical_size w1)
    (m_logical_size w3 - m_logical_size w2) ltac:(lia) ltac:(lia)) as Hs.
  replace (m_logical_size w2 - m_logical_size w1 + (m_logical_size w3 - m_logical_size w2))
    with (m_logical_size w3 - m_logical_size w1) in Hs by lia.
  replace (m_logical_size w1 + (m_logical_size w2 - m_logical_size w1)) with (m_logical_size w2) in Hs by lia. lia.
Qed.

Lemma grown_winv w w' : winv w -> grown w w' -> sm_ok (m_size_map w') -> Forall entry_ok (m_under_evacuation w') ->
  m_logical_size w' mod 8 = 0 -> winv w'.
Proof.
  intros [Hm He Hp Ho Hi HL] (Hl & Hn & Hc) Hm' He' H8. unfold w_count in *.
  assert (Hb : forall x, inb x (m_logical_size w) (m_logical_size w' - m_logical_size w) = 0 \/
    (inb x (m_logical_size w) (m_logical_size w' - m_logical_size w) = 1 /\ m_logical_size w <= x < m_logical_size w')).
  { intros x. inb_cases. }
  assert (Hx : forall x, m_logical_size w <= x -> free_count x w + e_count x (m_not_free_in_file w) = 0).
  { intros x Hx. pose proof (Hi x) as H. pose proof (sm_count_nonneg x (m_size_map w)).
    pose proof (e_count_nonneg x (m_under_evacuation w)). pose proof (e_count_nonneg x (m_not_free_in_file w)).
    unfold free_count in *. lia. }
  split; try done.
  - by rewrite Hn.
  - intros x. unfold w_count. rewrite Hc, Hn. specialize (Ho x). destruct (Hb x) as [->|[-> Hxb]]; [lia|].
    specialize (Hx x). lia.
  - intros x. unfold w_count. rewrite Hc, Hn. specialize (Hi x). destruct (Hb x) as [->|[-> Hxb]]; lia.
  - lia.
Qed.

Lemma extended_grown w size w' it : winv w -> 0 < size -> extended w size (w', it) -> winv w' /\ grown w w'.
Proof.
  intros Hw Hs (Hl & _ & Hm & H8 & Hc & Hn & He).
  assert (Hg : grown w w').
  { split; [lia|]. split; [done|]. intros x. unfold free_count. rewrite Hc, He. lia. }
  split; [|done]. apply (grown_winv w); try done. rewrite He. apply Hw.
Qed.

Lemma release_spec l m : Forall entry_ok l -> sm_ok m ->
  sm_ok (fold_left emplace_entry l m) /\ forall x, sm_count x (fold_left emplace_entry l m) = sm_count x m + e_count x l.
Proof.
  intros Hl. revert m. induction Hl as [|e l He Hl IH]; intros m Hm; cbn [fold_left].
  { split; [done|]. intros x. unfold e_count. cbn. lia. }
  pose proof (sm_emplace_spec (e_size e) (e_ref e) m Hm He) as H1. unfold emplace_entry at 2 4.
  destruct (sm_emplace _ _ _) as [m1 it1]. destruct H1 as (Hm1 & _ & Hc1). cbn [fst].
  destruct (IH m1 Hm1) as [Hm2 Hc2]. split; [done|]. intros x. rewrite Hc2, Hc1. unfold e_count. rewrite sumf_cons. lia.
Qed.

Lemma release_winv w : winv w -> winv (release_evacuation w) /\ grown w (release_evacuation w).
Proof.
  intros Hw. destruct (release_spec (m_under_evacuation w) (m_size_map w) (v_evac w Hw) (v_map w Hw)) as [Hm Hc].
  assert (Hg : grown w (release_evacuation w)).
  { split; [done|]. split; [done|]. intros x. unfold free_count. cbn [release_evacuation m_size_map m_under_evacuation m_logical_size].
    rewrite Hc. unfold e_count at 2. cbn [sumf]. inb_cases. }
  split; [|done]. apply (grown_winv w); try done. apply Hw.
Qed.

(** The chunk [reserve_free_space] returns. *)
Definition reserved (w : GroupWriter) (size : Z) (r : GroupWriter * nat) : Prop :=
  let '(w', it) := r in
  winv w' /\ grown w w' /\
  exists k v, m_size_map w' !! it = Some (k, v) /\ size <= k /\ v + size <= get_upper_section_boundary v.

Lemma reserved_trans w w1 size r : grown w w1 -> reserved w1 size r -> reserved w size r.
Proof. destruct r as [w' it]. intros H1 (H2 & H3 & H4). split; [done|]. split; [by eapply grown_trans|done]. Qed.

Lemma found_reserved fuel commit_size w size r : winv w -> found (m_size_map w) size r ->
  exists r', reserve_loop page_size fuel commit_size w (Some r) size = Ok r' /\ reserved w size r'.
Proof.
  destruct r as [m it]. intros Hw (Hm & Hc & Hk). exists (with_size_map w m, it). split; [by destruct fuel|].
  pose proof (grown_refl w m Hc) as Hg. split; [|by split]. apply (grown_winv w); try done; apply Hw.
Qed.

(** The outcome of an allocation step. *)
Definition served (w : GroupWriter) (size : Z) (o : result (GroupWriter * nat)) : Prop :=
  o = Throw MaximumFileSizeExceeded \/ exists r, o = Ok r /\ reserved w size r.

(** Where the end of the file is at least the request away from the next
    section boundary, one extension is enough. *)
Lemma reserve_extend_fits fuel commit_size w size : winv w -> 0 < size <= 2 ^ 25 -> size mod 8 = 0 ->
  m_under_evacuation w = [] -> m_logical_size w + size <= get_upper_section_boundary (m_logical_size w) ->
  served w size (reserve_loop page_size (S fuel) commit_size w None size).
Proof.
  intros Hw Hs Hs8 He Hb. cbn [reserve_loop]. rewrite He.
  destruct (extend_spec commit_size w size Hw ltac:(lia) Hs8) as [->|([w1 it] & -> & Hx)]; [by left|].
  cbn [mbind result_bind]. destruct (extended_grown w size w1 it Hw ltac:(lia) Hx) as [Hw1 Hg1].
  destruct Hx as (Hl & Hi & _).
  destruct (search_element_spec _ _ _ _ size (v_map w1 Hw1) Hi ltac:(lia)) as [[_ Hn]|(r & -> & Hr)]; [lia|].
  right. destruct (found_reserved fuel commit_size w1 size r Hw1 Hr) as (r' & Hr' & Hd). exists r'. split; [done|].
  by apply (reserved_trans w w1).
Qed.

(** A first extension can end within [size] of a section boundary with too
    little on each side of it; the second then fits. *)
Lemma reserve_extend fuel commit_size w size : winv w -> 0 < size <= 2 ^ 25 -> size mod 8 = 0 ->
  m_under_evacuation w = [] -> served w size (reserve_loop page_size (S (S fuel)) commit_size w None size).
Proof.
  intros Hw Hs Hs8 He. remember (S fuel) as f1 eqn:Ef. cbn [reserve_loop]. rewrite He.
  destruct (extend_spec commit_size w size Hw ltac:(lia) Hs8) as [->|([w1 it] & -> & Hx)]; [by left|].
  cbn [mbind result_bind]. destruct (extended_grown w size w1 it Hw ltac:(lia) Hx) as [Hw1 Hg1].
  destruct Hx as (Hl & Hi & _ & _ & _ & _ & He1).
  destruct (search_element_spec _ _ _ _ size (v_map w1 Hw1) Hi ltac:(lia)) as [[-> Hn]|(r & -> & Hr)].
  - assert (Hf : m_logical_size w1 + size <= get_upper_section_boundary (m_logical_size w1)).
    { destruct Hn as [Hn|[Hn1 Hn2]]; [lia|].
      destruct (upper_boundary_spec (m_logical_size w) ltac:(pose proof (v_logical w Hw); lia)) as [_ Hb].
      rewrite (upper_boundary_in (get_upper_section_boundary (m_logical_size w)) (m_logical_size w1)); [lia|done|lia]. }
    cbn [mbind result_bind]. rewrite Ef. destruct (reserve_extend_fits fuel commit_size w1 size Hw1 Hs Hs8 ltac:(congruence) Hf) as [->|(r & -> & Hr)].
    + by left.
    + right. exists r. split; [done|]. by apply (reserved_trans w w1).
  - right. destruct (found_reserved f1 commit_size w1 size r Hw1 Hr) as (r' & Hr' & Hd). exists r'. split; [done|].
    by apply (reserved_trans w w1).
Qed.

Lemma reserve_spec commit_size w size : winv w -> 0 < size <= 2 ^ 25 -> size mod 8 = 0 ->
  served w size (reserve_free_space page_size 3 commit_size w size).
Proof.
  intros Hw Hs Hs8. unfold reserve_free_space.
  destruct (search_part_spec (m_size_map w) size (v_map w Hw) ltac:(lia)) as [->|(r & -> & Hr)]; cbn [mbind result_bind].
  - destruct (m_under_evacuation w) as [|e l] eqn:Ee; [by apply reserve_extend|].
    cbn [reserve_loop]. rewrite Ee. destruct (release_winv w Hw) as [Hw1 Hg1].
    destruct (search_part_spec _ size (v_map _ Hw1) ltac:(lia)) as [->|(r & -> & Hr)].
    + destruct (reserve_extend 0 commit_size _ size Hw1 Hs Hs8 eq_refl) as [H|(r & H & Hr)]; [by left|].
      right. exists r. split; [exact H|]. by apply (reserved_trans w (release_evacuation w)).
    + right. destruct (found_reserved 2 commit_size _ size r Hw1 Hr) as (r' & Hr' & Hd). exists r'. split; [exact Hr'|].
      by apply (reserved_trans w (release_evacuation w)).
  - right. by apply found_reserved.
Qed.

(** ** Allocation *)

(** [pos] is a block of [size] bytes that was free or is new, [w'] tracks the rest. *)
Definition allocated (w : GroupWriter) (size : Z) (r : Z * GroupWriter) : Prop :=
  let '(pos, w') := r in
  winv w' /\ 0 < pos /\ pos mod 8 = 0 /\ pos + size <= get_upper_section_boundary pos /\
  pos + size <= m_logical_size w' /\ m_logical_size w <= m_logical_size w' /\
  m_not_free_in_file w' = m_not_free_in_file w /\
  forall x, free_count x w' + inb x pos size =
            free_count x w + inb x (m_logical_size w) (m_logical_size w' - m_logical_size w).

Lemma take_spec w it k v size : winv w -> 0 < size -> size mod 8 = 0 -> m_size_map w !! it = Some (k, v) -> size <= k ->
  let m := sm_erase it (m_size_map w) in
  let m := if 0 <? k - size then (sm_emplace (k - size) (v + size) m).1 else m in
  sm_ok m /\ forall x, sm_count x m + inb x v size = sm_count x (m_size_map w).
Proof.
  intros Hw Hs Hs8 Hi Hk. pose proof (chunk_at _ _ _ _ (v_map w Hw) Hi) as (Hk0 & Hk8 & Hv & Hv8). cbn in Hk0, Hk8, Hv, Hv8.
  destruct (sm_erase_spec it k v _ (v_map w Hw) Hi) as [Hm Hc]. cbv zeta. destruct (Z.ltb_spec 0 (k - size)).
  - pose proof (sm_emplace_spec (k - size) (v + size) _ Hm) as H1. destruct (sm_emplace _ _ _) as [m' it'].
    destruct H1 as (Hm' & _ & Hc'); [split; cbn; dlia|]. split; [done|]. intros x. cbn [fst]. rewrite Hc', Hc.
    pose proof (inb_split x v size (k - size) ltac:(lia) ltac:(lia)) as Hp.
    replace (size + (k - size)) with k in Hp by lia. lia.
  - split; [done|]. intros x. rewrite Hc. replace k with size by lia. lia.
Qed.

Lemma taken_winv w m pos size : winv w -> sm_ok m -> (forall x, sm_count x m + inb x pos size = sm_count x (m_size_map w)) ->
  winv (with_size_map w m).
Proof.
  intros [Hm He Hp Ho Hi HL] Hm' Hc. unfold w_count, free_count in *. split; try done.
  - intros x. unfold w_count, free_count. cbn. specialize (Ho x). specialize (Hc x). pose proof (inb_range x pos size). lia.
  - intros x. unfold w_count, free_count. cbn. specialize (Hi x). specialize (Hc x). pose proof (inb_range x pos size). lia.
Qed.

Lemma chunk_inside w it k v : winv w -> m_size_map w !! it = Some (k, v) -> v + k <= m_logical_size w.
Proof.
  intros Hw Hi. pose proof (chunk_at _ _ _ _ (v_map w Hw) Hi) as (Hk0 & _). cbn in Hk0.
  destruct (sm_erase_spec it k v _ (v_map w Hw) Hi) as [_ Hc]. specialize (Hc (v + k - 1)).
  pose proof (sm_count_nonneg (v + k - 1) (sm_erase it (m_size_map w))) as H0.
  assert (H1 : inb (v + k - 1) v k = 1) by inb_cases.
  pose proof (v_inside w Hw (v + k - 1)) as H. unfold w_count, free_count in H.
  pose proof (e_count_nonneg (v + k - 1) (m_under_evacuation w)). pose proof (e_count_nonneg (v + k - 1) (m_not_free_in_file w)). lia.
Qed.

Lemma get_free_space_spec commit_size w size : winv w -> 0 < size <= 2 ^ 25 -> size mod 8 = 0 ->
  get_free_space page_size 3 commit_size w size = Throw MaximumFileSizeExceeded \/
  exists r, get_free_space page_size 3 commit_size w size = Ok r /\ allocated w size r.
Proof.
  intros Hw Hs Hs8. unfold get_free_space.
  destruct (reserve_spec commit_size w size Hw Hs Hs8) as [->|([w1 it] & -> & Hw1 & (Hl & Hn & Hg) & k & v & Hi & Hk & Hu)]; [by left|].
  right. cbn [mbind result_bind]. rewrite Hi. pose proof (chunk_at _ _ _ _ (v_map w1 Hw1) Hi) as (Hk0 & Hk8 & Hv & Hv8).
  cbn in Hk0, Hk8, Hv, Hv8. rewrite !land7, Hk8, Hv8. cbn [Z.eqb negb].
  destruct (take_spec w1 it k v size Hw1 ltac:(lia) Hs8 Hi Hk) as [Hm Hc].
  eexists. split; [done|]. pose proof (chunk_inside w1 it k v Hw1 Hi).
  split; [by apply (taken_winv w1 _ v size)|]. split; [lia|]. split; [done|]. split; [done|]. split; [cbn; lia|]. split; [done|].
  split; [done|]. intros x. specialize (Hg x). specialize (Hc x). unfold free_count in *.
  cbn [with_size_map m_size_map m_under_evacuation m_logical_size]. lia.
Qed.

End Alloc.
