(* ===== verification/FreeListFile.v ===== *)
(** * The free lists of the file

    Reading the lists keeps every byte they cover, withholding the chunks a live
    version can still reach; writing them back produces lists in position order,
    without overlap, that cover the same bytes. *)

From stdpp Require Import sorting.
From S2P Require Import Prelude FreeList FreeListAlloc.

(** The lists as a commit leaves them: chunks in position order, apart from
    each other. *)
Definition before (a b : FreeSpaceEntry) : Prop := e_ref a + e_size a <= e_ref b.
Definition file_ok (l : list FreeSpaceEntry) : Prop := Forall entry_ok l /\ StronglySorted before l.

Lemma e_count_app x l1 l2 : e_count x (l1 ++ l2) = e_count x l1 + e_count x l2.
Proof. apply sumf_app. Qed.
Lemma e_count_cons x e l : e_count x (e :: l) = inb x (e_ref e) (e_size e) + e_count x l.
Proof. done. Qed.
Lemma e_count_nil x : e_count x [] = 0.
Proof. done. Qed.
#[global] Opaque e_count.

Lemma count_below x l : Forall (fun e => x < e_ref e) l -> e_count x l = 0.
Proof. induction 1 as [|e l He Hl IH]; [done|]. rewrite e_count_cons, IH. inb_cases. Qed.

Lemma file_once x l : file_ok l -> e_count x l <= 1.
Proof.
  intros [Hf Hs]. induction Hs as [|e l Hs IH Hb]; [by rewrite e_count_nil|].
  apply Forall_cons_iff in Hf as [He Hf]. rewrite e_count_cons. specialize (IH Hf).
  destruct (Z_lt_le_dec x (e_ref e + e_size e)).
  - rewrite (count_below x l); [pose proof (inb_range x (e_ref e) (e_size e)); lia|].
    eapply Forall_impl; [|exact Hb]. unfold before. intros. lia.
  - assert (inb x (e_ref e) (e_size e) = 0) as -> by inb_cases. lia.
Qed.

Lemma count_inside x l hi : Forall entry_ok l -> Forall (fun e => e_ref e + e_size e <= hi) l ->
  0 < e_count x l -> 0 < x < hi.
Proof.
  induction 1 as [|e l He Hl IH]; intros Hh; [rewrite e_count_nil; lia|]. apply Forall_cons_iff in Hh as [Hh Hh'].
  rewrite e_count_cons. destruct He as (? & _ & ? & _). cbn in *. specialize (IH Hh').
  destruct (Z_lt_le_dec 0 (e_count x l)); [auto|]. inb_cases.
Qed.

(** ** Merging *)

(** Entries that may have been merged away. *)
Definition entry_ok0 (e : FreeSpaceEntry) : Prop :=
  0 <= e_size e /\ e_size e mod 8 = 0 /\ 0 < e_ref e /\ e_ref e mod 8 = 0.

Definition nonempty (e : FreeSpaceEntry) : bool := negb (e_size e =? 0).

(** With a gap between them: nothing is left to merge. *)
Definition apart (a b : FreeSpaceEntry) : Prop := e_ref a + e_size a < e_ref b.

Lemma merge_loop_count x prev zeros l : 0 <= e_size prev -> Forall entry_ok0 l ->
  e_count x (merge_loop prev zeros l) = e_count x (prev :: zeros) + e_count x l.
Proof.
  intros Hp Hl. revert prev zeros Hp. induction Hl as [|it l Hi Hl IH]; intros prev zeros Hp; cbn [merge_loop].
  { rewrite e_count_nil. lia. }
  destruct Hi as (Hi0 & _). destruct (Z.eqb_spec (e_ref prev + e_size prev) (e_ref it)) as [E|E].
  - rewrite IH by (cbn; lia). rewrite !e_count_cons, e_count_app, e_count_cons, e_count_nil. cbn [e_ref e_size].
    rewrite (inb_split x (e_ref prev)) by lia. rewrite E. assert (inb x (e_ref it) 0 = 0) as -> by inb_cases. lia.
  - rewrite !e_count_cons, e_count_app, IH by done. rewrite e_count_cons, e_count_nil. lia.
Qed.

Lemma merge_count x l : Forall entry_ok0 l -> e_count x (merge_adjacent_entries_in_freelist l) = e_count x l.
Proof.
  destruct l as [|e l]; intros Hl; [done|]. apply Forall_cons_iff in Hl as [[He _] Hl].
  cbn [merge_adjacent_entries_in_freelist]. rewrite merge_loop_count by done. rewrite !e_count_cons, e_count_nil. lia.
Qed.

Lemma merge_loop_ok prev zeros l : entry_ok0 prev -> Forall entry_ok0 zeros -> Forall entry_ok0 l ->
  Forall entry_ok0 (merge_loop prev zeros l).
Proof.
  intros Hp Hz Hl. revert prev zeros Hp Hz. induction Hl as [|it l Hi Hl IH]; intros prev zeros Hp Hz; cbn [merge_loop].
  { by constructor. }
  destruct (Z.eqb_spec (e_ref prev + e_size prev) (e_ref it)).
  - apply IH.
    + destruct Hp as (? & ? & ? & ?), Hi as (? & ? & ? & ?). split; cbn; [lia|]. split; [dlia|auto].
    + apply Forall_app. split; [done|]. constructor; [|done]. destruct Hi as (? & ? & ? & ?). by split.
  - constructor; [done|]. apply Forall_app. split; [done|]. by apply IH.
Qed.

Lemma merge_ok l : Forall entry_ok0 l -> Forall entry_ok0 (merge_adjacent_entries_in_freelist l).
Proof. destruct l as [|e l]; intros Hl; [done|]. apply Forall_cons_iff in Hl as [He Hl]. by apply merge_loop_ok. Qed.

Lemma filter_ok0 l : Forall entry_ok0 l -> Forall entry_ok (List.filter nonempty l).
Proof.
  intros Hl. induction Hl as [|e l (Hs & H8 & Hr & Hr8) Hl IH]; cbn [List.filter]; [done|].
  unfold nonempty at 1. destruct (Z.eqb_spec (e_size e) 0); cbn [negb]; [done|]. constructor; [|done]. split; cbn; [lia|done].
Qed.

Lemma filter_count x l : Forall entry_ok0 l -> e_count x (List.filter nonempty l) = e_count x l.
Proof.
  intros Hl. induction Hl as [|e l (Hs & _) Hl IH]; cbn [List.filter]; [done|]. rewrite e_count_cons.
  unfold nonempty at 1. destruct (Z.eqb_spec (e_size e) 0) as [E|]; cbn [negb].
  - rewrite IH, E. inb_cases.
  - by rewrite e_count_cons, IH.
Qed.

Lemma filter_zeros l : Forall (fun e => e_size e = 0) l -> List.filter nonempty l = [].
Proof. induction 1 as [|e l He Hl IH]; cbn [List.filter]; [done|]. unfold nonempty at 1. by rewrite He. Qed.

Lemma filter_keep e l : 0 < e_size e -> List.filter nonempty (e :: l) = e :: List.filter nonempty l.
Proof. intros He. cbn [List.filter]. unfold nonempty at 1. by rewrite (proj2 (Z.eqb_neq (e_size e) 0)) by lia. Qed.

Lemma merge_loop_apart prev zeros l : 0 < e_size prev -> Forall (fun e => e_size e = 0) zeros ->
  Forall (fun e => 0 < e_size e) l -> StronglySorted before (prev :: l) ->
  let m := List.filter nonempty (merge_loop prev zeros l) in
  StronglySorted apart m /\ Forall (fun e => e_ref prev <= e_ref e) m.
Proof.
  intros Hp Hz Hl. revert prev zeros Hp Hz. induction Hl as [|it l Hi Hl IH]; intros prev zeros Hp Hz Hs; cbn [merge_loop].
  { cbv zeta. rewrite filter_keep, filter_zeros by done. split; repeat constructor; lia. }
  apply StronglySorted_inv in Hs as [Hs Hb]. pose proof Hs as Hs'. apply StronglySorted_inv in Hs' as [Hs' Hb'].
  apply Forall_cons_iff in Hb as [Hb0 Hb]. destruct (Z.eqb_spec (e_ref prev + e_size prev) (e_ref it)) as [E|E].
  - apply (IH (mkEntry _ _ _)); cbn; [lia| |].
    + apply Forall_app. split; [done|]. by repeat constructor.
    + constructor; [done|]. eapply Forall_impl; [|exact Hb']. unfold before. cbn. intros. lia.
  - cbv zeta. rewrite filter_keep, List.filter_app, filter_zeros by done. cbn [app].
    destruct (IH it [] Hi (Forall_nil _) Hs) as [Ha Hr]. unfold before in Hb0. split.
    + constructor; [done|]. eapply Forall_impl; [|exact Hr]. unfold apart. cbn. intros. lia.
    + constructor; [lia|]. eapply Forall_impl; [|exact Hr]. cbn. intros. lia.
Qed.

Lemma merge_apart l : file_ok l -> StronglySorted apart (List.filter nonempty (merge_adjacent_entries_in_freelist l)).
Proof.
  destruct l as [|e l]; intros [Hf Hs]; [constructor|]. apply Forall_cons_iff in Hf as [[He _] Hf].
  apply merge_loop_apart; [done..| |done]. eapply Forall_impl; [|exact Hf]. by intros a [Ha _].
Qed.

(** ** Reading *)

Lemma move_spec l m : Forall entry_ok0 l -> sm_ok m ->
  exists m', move_free_in_file_to_size_map l m = Ok m' /\ sm_ok m' /\ forall x, sm_count x m' = sm_count x m + e_count x l.
Proof.
  intros Hl. revert m. induction Hl as [|e l (Hs & Hs8 & Hr & Hr8) Hl IH]; intros m Hm; cbn [move_free_in_file_to_size_map].
  { exists m. split; [done|]. split; [done|]. intros x. rewrite e_count_nil. lia. }
  destruct (Z.eqb_spec (e_size e) 0) as [E|E].
  - destruct (IH m Hm) as (m' & -> & Hm' & Hc). exists m'. split; [done|]. split; [done|]. intros x.
    rewrite Hc, e_count_cons, E. inb_cases.
  - rewrite !land7, Hs8, Hr8. cbn [Z.eqb negb]. unfold emplace_entry.
    pose proof (sm_emplace_spec (e_size e) (e_ref e) m Hm) as H1. destruct (sm_emplace _ _ _) as [m1 it1].
    destruct H1 as (Hm1 & _ & Hc1); [split; cbn; lia|]. cbn [fst].
    destruct (IH m1 Hm1) as (m' & -> & Hm' & Hc).
    exists m'. split; [done|]. split; [done|]. intros x. rewrite Hc, Hc1, e_count_cons. lia.
Qed.

(** The chunks no live version can reach. *)
Definition reachable (oldest : Z) (e : FreeSpaceEntry) : bool := oldest <? e_released_at_version e.
Definition unreachable (oldest : Z) (e : FreeSpaceEntry) : bool := negb (reachable oldest e).

Lemma entry_ok_0 l : Forall entry_ok l -> Forall entry_ok0 l.
Proof. apply Forall_impl. intros e (? & ? & ? & ?). cbn in *. unfold entry_ok0. auto with lia. Qed.

Lemma read_entries_spec oldest limit file : Forall entry_ok file -> 0 < limit ->
  limit mod 8 = 0 \/ Forall (fun e => e_ref e + e_size e <= limit) file ->
  let '(pinned, evac, free) := read_entries oldest limit file in
  pinned = List.filter (reachable oldest) file /\ Forall entry_ok evac /\ Forall entry_ok free /\
  Forall (fun e => limit <= e_ref e) evac /\ Forall (fun e => e_ref e + e_size e <= limit) free /\
  forall x, e_count x evac + e_count x free = e_count x (List.filter (unreachable oldest) file).
Proof.
  intros Hf H0 Hl. induction Hf as [|e file He Hf IH]; cbn [read_entries].
  { split; [done|]. repeat split; constructor. }
  assert (Hl' : limit mod 8 = 0 \/ Forall (fun e => e_ref e + e_size e <= limit) file /\ e_ref e + e_size e <= limit).
  { destruct Hl as [|Hl]; [by left|]. apply Forall_cons_iff in Hl as [? ?]. auto. }
  assert (Hl2 : limit mod 8 = 0 \/ Forall (fun e => e_ref e + e_size e <= limit) file) by (destruct Hl' as [|[? ?]]; auto).
  specialize (IH Hl2). destruct (read_entries oldest limit file) as [[pinned evac] free].
  destruct IH as (IH1 & IH2 & IH3 & IH4 & IH5 & IH6). cbn [List.filter]. unfold unreachable, reachable in *.
  destruct (oldest <? e_released_at_version e); cbn [negb]; [split; [by rewrite IH1|auto]|].
  pose proof He as (Hs & Hs8 & Hr & Hr8). cbn in Hs, Hs8, Hr, Hr8.
  destruct (Z.ltb_spec limit (e_ref e + e_size e)); [destruct (Z.ltb_spec (e_ref e) limit)|].
  - destruct Hl' as [Hl'|[_ ?]]; [|lia]. split; [done|].
    split; [constructor; [split; cbn; dlia|done]|]. split; [constructor; [split; cbn; dlia|done]|].
    split; [by constructor|]. split; [constructor; [cbn; lia|done]|]. intros x. specialize (IH6 x). rewrite !e_count_cons. cbn [e_ref e_size].
    pose proof (inb_split x (e_ref e) (limit - e_ref e) (e_size e - (limit - e_ref e)) ltac:(lia) ltac:(lia)) as Hp.
    replace (limit - e_ref e + (e_size e - (limit - e_ref e))) with (e_size e) in Hp by lia.
    replace (e_ref e + (limit - e_ref e)) with limit in Hp by lia. lia.
  - split; [done|]. split; [by constructor|]. split; [done|]. split; [by constructor|]. split; [done|].
    intros x. specialize (IH6 x). rewrite !e_count_cons. cbn [e_ref e_size]. lia.
  - split; [done|]. split; [done|]. split; [by constructor|]. split; [done|]. split; [by constructor|].
    intros x. specialize (IH6 x). rewrite !e_count_cons. cbn [e_ref e_size]. lia.
Qed.

Lemma filter_split_count x oldest l :
  e_count x (List.filter (reachable oldest) l) + e_count x (List.filter (unreachable oldest) l) = e_count x l.
Proof.
  induction l as [|e l IH]; cbn [List.filter]; [done|]. unfold unreachable at 1. rewrite e_count_cons.
  destruct (reachable oldest e); cbn [negb]; rewrite e_count_cons; lia.
Qed.

Lemma Forall_filter {B} (P : B -> Prop) f l : Forall P l -> Forall P (List.filter f l).
Proof. induction 1 as [|a l Ha Hl IH]; cbn; [done|]. destruct (f a); [by constructor|done]. Qed.

Lemma read_in_spec oldest evac_limit backoff logical file_size file :
  file_ok file -> Forall (fun e => e_ref e + e_size e <= logical) file -> 0 < logical < 2 ^ 64 -> logical mod 8 = 0 ->
  0 <= evac_limit -> evac_limit mod 8 = 0 ->
  exists w, read_in_freelist oldest evac_limit backoff logical file_size file = Ok w /\ winv w /\
    m_logical_size w = logical /\
    m_not_free_in_file w = List.filter (reachable oldest) file /\
    (forall x, free_count x w = e_count x (List.filter (unreachable oldest) file)) /\
    (forall x, evac_limit <= x -> evac_limit <> 0 -> sm_count x (m_size_map w) = 0).
Proof.
  intros Hf Hin HL HL8 He He8. unfold read_in_freelist. set (limit := if evac_limit =? 0 then npos else evac_limit).
  assert (Hlim : 0 < limit /\ (limit mod 8 = 0 \/ Forall (fun e => e_ref e + e_size e <= limit) file) /\
    (evac_limit <> 0 -> limit = evac_limit)).
  { unfold limit. destruct (Z.eqb_spec evac_limit 0); [|split; [lia|auto]]. change npos with (2 ^ 64 - 1). split; [lia|].
    split; [|done]. right. eapply Forall_impl; [|exact Hin]. cbn. intros. lia. }
  clearbody limit. destruct Hlim as (Hl0 & Hl8 & Hle).
  pose proof (read_entries_spec oldest limit file (proj1 Hf) Hl0 Hl8) as H.
  destruct (read_entries oldest limit file) as [[pinned evac] free]. destruct H as (-> & Hev & Hfr & Hge & Hlt & Hc).
  destruct (move_spec (merge_adjacent_entries_in_freelist free) []) as (m & -> & Hm & Hmc); [by apply merge_ok, entry_ok_0|by split; constructor|].
  cbn [mbind result_bind]. eexists. split; [done|]. cbn [m_logical_size m_not_free_in_file].
  assert (Hfc : forall x, free_count x (mkWriter m (List.filter (reachable oldest) file) (List.filter nonempty (merge_adjacent_entries_in_freelist evac))
    evac_limit backoff logical file_size) = e_count x (List.filter (unreachable oldest) file)).
  { intros x. unfold free_count. cbn [m_size_map m_under_evacuation].
    rewrite Hmc, filter_count, !merge_count, <- Hc by (try apply merge_ok; by apply entry_ok_0). change (sm_count x []) with 0. lia. }
  split; [|repeat split; auto].
  - split; cbn [m_size_map m_under_evacuation m_not_free_in_file m_logical_size]; [done| | | | |lia].
    + by apply filter_ok0, merge_ok, entry_ok_0.
    + apply Forall_filter, Hf.
    + intros x. unfold w_count. rewrite Hfc. cbn [m_not_free_in_file]. pose proof (filter_split_count x oldest file).
      pose proof (file_once x file Hf). lia.
    + intros x. unfold w_count. rewrite Hfc. cbn [m_not_free_in_file]. pose proof (filter_split_count x oldest file).
      intros Hx. apply (count_inside x file); [apply Hf|done|lia].
  - intros x Hx Hn. cbn [m_size_map]. rewrite Hmc, merge_count by by apply entry_ok_0. change (sm_count x []) with 0.
    destruct (Z_lt_le_dec 0 (e_count x free)) as [Hp|]; [|pose proof (e_count_nonneg x free); lia].
    pose proof (count_inside x free limit Hfr Hlt Hp). specialize (Hle Hn). lia.
Qed.

(** ** Writing *)

#[global] Instance ref_le_total : Total ref_le.
Proof. intros a b. unfold ref_le. lia. Qed.
#[global] Instance ref_le_trans : Transitive ref_le.
Proof. intros a b c. unfold ref_le. lia. Qed.

(** Chunks that cover no byte twice are apart once they are in order. *)
Lemma sorted_file l : Forall entry_ok l -> StronglySorted ref_le l -> (forall x, e_count x l <= 1) -> file_ok l.
Proof.
  intros Hf Hs. induction Hs as [|e l Hs IH Hb]; intros Hc; [by split; constructor|].
  apply Forall_cons_iff in Hf as [He Hf]. destruct IH as [_ IH]; [done| |].
  { intros x. specialize (Hc x). rewrite e_count_cons in Hc. pose proof (inb_range x (e_ref e) (e_size e)). lia. }
  split; [by constructor|]. constructor; [done|]. clear IH Hs.
  assert (Hx : forall x, e_ref e <= x < e_ref e + e_size e -> e_count x l <= 0).
  { intros x Hx. specialize (Hc x). rewrite e_count_cons in Hc. assert (inb x (e_ref e) (e_size e) = 1) by inb_cases. lia. }
  clear Hc. induction Hb as [|b l Hb Hbs IH]; [done|]. apply Forall_cons_iff in Hf as [(Hbp & _) Hf]. cbn in Hbp. constructor.
  - unfold before, ref_le in *. destruct (Z_le_gt_dec (e_ref e + e_size e) (e_ref b)); [done|].
    specialize (Hx (e_ref b) ltac:(lia)). rewrite e_count_cons in Hx. pose proof (e_count_nonneg (e_ref b) l).
    assert (inb (e_ref b) (e_ref b) (e_size b) = 1) by inb_cases. lia.
  - apply IH; [done|]. intros x Hx'. specialize (Hx x Hx'). rewrite e_count_cons in Hx. pose proof (inb_range x (e_ref b) (e_size b)). lia.
Qed.

Lemma file_ok_inv e l : file_ok (e :: l) -> entry_ok e /\ file_ok l /\ Forall (before e) l.
Proof.
  intros [Hf Hs]. apply Forall_cons_iff in Hf as [He Hf]. apply StronglySorted_inv in Hs as [Hs Hb]. by repeat split; try apply He.
Qed.

Lemma check_other prev_ref prev_size i reserve_pos l : file_ok l ->
  Forall (fun e => prev_ref + prev_size <= e_ref e) l -> Forall (fun e => reserve_pos < e_ref e) l ->
  check_entries prev_ref prev_size i reserve_pos l = Ok (None, sum_entries l).
Proof.
  revert prev_ref prev_size i. induction l as [|e l IH]; intros prev_ref prev_size i Hl Hp Hr; cbn [check_entries]; [done|].
  apply file_ok_inv in Hl as (_ & Hl & Hb). apply Forall_cons_iff in Hp as [Hp _]. apply Forall_cons_iff in Hr as [Hr Hrs].
  rewrite (proj2 (Z.ltb_ge _ _)) by lia. rewrite IH; [|done..]. cbn [mbind result_bind].
  rewrite (proj2 (Z.eqb_neq _ _)) by lia. cbn [sum_entries fold_right]. do 2 f_equal. unfold sum_entries. lia.
Qed.

Lemma check_entries_spec prev_ref prev_size i l n e : file_ok l ->
  Forall (fun e => prev_ref + prev_size <= e_ref e) l -> l !! n = Some e ->
  check_entries prev_ref prev_size i (e_ref e) l = Ok (Some (i + n)%nat, sum_entries l - e_size e).
Proof.
  revert prev_ref prev_size i n. induction l as [|a l IH]; intros prev_ref prev_size i n Hl Hp Hn; [done|]. cbn [check_entries].
  apply file_ok_inv in Hl as ((Ha & _) & Hl & Hb). cbn in Ha. apply Forall_cons_iff in Hp as [Hp _].
  rewrite (proj2 (Z.ltb_ge _ _)) by lia. destruct n as [|n]; cbn in Hn.
  - injection Hn as ->. rewrite check_other; [|done|done|]. 2:{ eapply Forall_impl; [|exact Hb]. unfold before. intros. lia. }
    cbn [mbind result_bind]. rewrite Z.eqb_refl. cbn [default sum_entries fold_right]. unfold sum_entries.
    rewrite Nat.add_0_r. do 2 f_equal. lia.
  - rewrite (IH _ _ _ n Hl Hb Hn). cbn [mbind result_bind]. pose proof (Forall_lookup_1 _ _ _ _ Hb Hn) as Hba. unfold before in Hba.
    rewrite (proj2 (Z.eqb_neq _ _)) by lia. replace (i + S n)%nat with (S i + n)%nat by lia. do 2 f_equal.
    cbn [sum_entries fold_right]. unfold sum_entries. lia.
Qed.

(** The bytes released by the transaction. *)
Definition r_count (x : Z) (l : list (Z * Z)) : Z := sumf (fun p => inb x p.1 p.2) l.
Definition released_ok (l : list (Z * Z)) : Prop := Forall (fun p => chunk_ok (p.2, p.1)) l.

Lemma e_count_map {B} x (g : B -> FreeSpaceEntry) l : e_count x (map g l) = sumf (fun a => inb x (e_ref (g a)) (e_size (g a))) l.
Proof. induction l as [|a l IH]; [done|]. cbn [map sumf]. by rewrite e_count_cons, IH. Qed.

Lemma e_count_sumf x l : e_count x l = sumf (fun e => inb x (e_ref e) (e_size e)) l.
Proof. induction l as [|a l IH]; [done|]. cbn [sumf]. by rewrite e_count_cons, IH. Qed.

Lemma all_entries_count x w v rel : e_count x (all_entries w v rel) = w_count x w + r_count x rel.
Proof.
  unfold all_entries. rewrite !e_count_app, !e_count_map. cbn [e_ref e_size]. unfold w_count, free_count, r_count, sm_count.
  rewrite (e_count_sumf x (m_under_evacuation w)). lia.
Qed.

Lemma all_entries_ok w v rel : winv w -> released_ok rel -> Forall entry_ok (all_entries w v rel).
Proof.
  intros Hw Hr. unfold all_entries. repeat (apply Forall_app; split).
  - apply List.Forall_map. eapply Forall_impl; [|exact (proj1 (v_map w Hw))]. by intros [k p].
  - apply Hw.
  - apply List.Forall_map. eapply Forall_impl; [|exact Hr]. by intros [k p].
  - apply List.Forall_map. eapply Forall_impl; [|exact (v_evac w Hw)]. done.
Qed.

Lemma e_count_perm x l1 l2 : l1 ≡ₚ l2 -> e_count x l1 = e_count x l2.
Proof. rewrite !e_count_sumf. apply sumf_perm. Qed.

Lemma sum_perm l1 l2 : l1 ≡ₚ l2 -> sum_entries l1 = sum_entries l2.
Proof. unfold sum_entries. induction 1; cbn [fold_right] in *; lia. Qed.

(** The list in order, before the reserved chunk is cut. *)
Lemma sorted_entries_ok w v rel : winv w -> released_ok rel -> (forall x, w_count x w + r_count x rel <= 1) ->
  let l := merge_sort ref_le (all_entries w v rel) in
  file_ok l /\ l ≡ₚ all_entries w v rel.
Proof.
  intros Hw Hr Hc. cbv zeta. pose proof (merge_sort_Permutation ref_le (all_entries w v rel)) as Hp. split; [|done].
  apply sorted_file.
  - rewrite Hp. by apply all_entries_ok.
  - apply StronglySorted_merge_sort; apply _.
  - intros x. by rewrite (e_count_perm x _ _ Hp), all_entries_count.
Qed.

Lemma recreate_spec w v rel size pos : winv w -> released_ok rel -> (forall x, w_count x w + r_count x rel <= 1) ->
  (size, pos) ∈ m_size_map w ->
  exists r, recreate_freelist w v rel pos = Ok r /\ file_ok (r_entries r) /\ r_entries r ≡ₚ all_entries w v rel /\
    r_entries r !! r_reserve_ndx r = Some (mkEntry pos size 0) /\
    r_free_space_size r = sum_entries (all_entries w v rel) - size.
Proof.
  intros Hw Hr Hc Hi. destruct (sorted_entries_ok w v rel Hw Hr Hc) as [Hf Hp]. unfold recreate_freelist.
  assert (Hin : mkEntry pos size 0 ∈ merge_sort ref_le (all_entries w v rel)).
  { rewrite Hp. unfold all_entries. apply elem_of_app. left. apply list_elem_of_In, in_map_iff. exists (size, pos).
    split; [done|]. by apply list_elem_of_In. }
  apply list_elem_of_lookup in Hin as [n Hn].
  pose proof (check_entries_spec 0 0 0 _ n (mkEntry pos size 0) Hf) as Hck. cbn [e_ref e_size] in Hck. rewrite Hck; [|clear Hck|done].
  2:{ eapply Forall_impl; [|exact (proj1 Hf)]. intros e (_ & _ & He & _). cbn in He. lia. }
  cbn [mbind result_bind]. eexists. split; [done|]. cbn [r_entries r_reserve_ndx r_free_space_size]. split; [done|]. split; [done|].
  split; [done|]. by rewrite (sum_perm _ _ Hp).
Qed.

(** *** The space the lists and the top array take *)

Lemma file_ok_cut l n e end_ref : file_ok l -> l !! n = Some e -> e_ref e <= end_ref < e_ref e + e_size e -> end_ref mod 8 = 0 ->
  let l' := <[n := mkEntry end_ref (e_ref e + e_size e - end_ref) (e_released_at_version e)]> l in
  file_ok l' /\ forall x, e_count x l' + inb x (e_ref e) (end_ref - e_ref e) = e_count x l.
Proof.
  intros Hl Hn He H8. cbv zeta. revert n Hn. induction l as [|a l IH]; intros n Hn; [done|].
  apply file_ok_inv in Hl as (Ha & Hl & Hb). destruct n as [|n]; cbn in Hn; cbn [insert list_insert].
  - injection Hn as ->. destruct Ha as (? & ? & ? & ?). cbn in *. split.
    + split; [constructor; [split; cbn; [lia|]; split; [dlia|]; split; [lia|done]|apply Hl]|].
      constructor; [apply Hl|]. eapply Forall_impl; [|exact Hb]. unfold before. cbn. intros. lia.
    + intros x. rewrite !e_count_cons. cbn [e_ref e_size].
      pose proof (inb_split x (e_ref e) (end_ref - e_ref e) (e_ref e + e_size e - end_ref) ltac:(lia) ltac:(lia)) as Hp.
      replace (end_ref - e_ref e + (e_ref e + e_size e - end_ref)) with (e_size e) in Hp by lia.
      replace (e_ref e + (end_ref - e_ref e)) with end_ref in Hp by lia. lia.
  - destruct (IH Hl n Hn) as [[Hi1 Hi2] Hc]. split.
    + split; [by constructor|]. constructor; [done|]. apply Forall_insert; [done|].
      pose proof (Forall_lookup_1 _ _ _ _ Hb Hn) as Hba. unfold before in *. cbn. lia.
    + intros x. rewrite !e_count_cons, <- Z.add_assoc. f_equal. exact (Hc x).
Qed.
