(* ===== verification/FreeListTheorems.v ===== *)
(** * Properties of the file's free list

    Allocation, the lists' way through the file, and the whole cycle of a
    commit, each stated over the bytes of the file. *)

From stdpp Require Import sorting.
From S2P Require Import Prelude FreeList FreeListAlloc FreeListFile.

(** ** Lemmas *)

Lemma inside_of_count l hi : Forall entry_ok l -> (forall x, 0 < e_count x l -> x < hi) ->
  Forall (fun e => e_ref e + e_size e <= hi) l.
Proof.
  induction 1 as [|e l (He & _) Hl IH]; intros Hx; [done|]. cbn in He. constructor.
  - specialize (Hx (e_ref e + e_size e - 1)). rewrite e_count_cons in Hx. pose proof (e_count_nonneg (e_ref e + e_size e - 1) l).
    assert (inb (e_ref e + e_size e - 1) (e_ref e) (e_size e) = 1) by inb_cases. lia.
  - apply IH. intros x Hp. apply Hx. rewrite e_count_cons. pose proof (inb_range x (e_ref e) (e_size e)). lia.
Qed.

Lemma filter_insert_out f (l : list FreeSpaceEntry) n a b : l !! n = Some a -> f a = false -> f b = false ->
  List.filter f (<[n := b]> l) = List.filter f l.
Proof.
  revert n. induction l as [|c l IH]; intros n Hn Ha Hb; [done|]. destruct n as [|n]; cbn in Hn.
  - injection Hn as ->. change (List.filter f (b :: l) = List.filter f (a :: l)). cbn. by rewrite Ha, Hb.
  - change (List.filter f (c :: <[n:=b]> l) = List.filter f (c :: l)). cbn [List.filter]. by rewrite IH.
Qed.

Lemma filter_perm f (l1 l2 : list FreeSpaceEntry) : l1 ≡ₚ l2 -> List.filter f l1 ≡ₚ List.filter f l2.
Proof.
  induction 1 as [|a l1 l2 _ IH|a b l|l1 l2 l3 _ IH1 _ IH2]; cbn [List.filter]; [done| | |by rewrite IH1].
  - by destruct (f a); rewrite ?IH.
  - destruct (f a), (f b); try done. constructor.
Qed.

Lemma filter_map_out {B} f (g : B -> FreeSpaceEntry) l : (forall a, f (g a) = false) -> List.filter f (map g l) = [].
Proof. intros Hf. induction l as [|a l IH]; cbn; [done|]. by rewrite Hf, IH. Qed.

Lemma filter_map_in {B} f (g : B -> FreeSpaceEntry) l : (forall a, f (g a) = true) -> List.filter f (map g l) = map g l.
Proof. intros Hf. induction l as [|a l IH]; cbn; [done|]. by rewrite Hf, IH. Qed.

(** What stays pinned of the entries a commit writes. *)
Lemma pinned_count x oldest w v rel : 0 <= oldest ->
  e_count x (List.filter (reachable oldest) (all_entries w v rel)) =
  e_count x (List.filter (reachable oldest) (m_not_free_in_file w)) + (if oldest <? v then r_count x rel else 0).
Proof.
  intros Ho. assert (H0 : forall r s, reachable oldest (mkEntry r s 0) = false).
  { intros r s. unfold reachable. cbn. zdec; lia. }
  unfold all_entries. rewrite !List.filter_app, !e_count_app, (filter_map_out _ _ (m_size_map w)) by (intros; apply H0).
  rewrite (filter_map_out _ _ (m_under_evacuation w)) by (intros; apply H0). rewrite !e_count_nil.
  destruct (Z.ltb_spec oldest v) as [Hv|Hv].
  - rewrite filter_map_in; [rewrite e_count_map; unfold r_count; cbn [e_ref e_size]; lia|].
    intros a. unfold reachable. cbn. zdec; lia.
  - rewrite filter_map_out; [rewrite e_count_nil; lia|]. intros a. unfold reachable. cbn. zdec; lia.
Qed.

(** ** Sequences of allocations *)

Fixpoint get_free_spaces (page_size commit_size : Z) (w : GroupWriter) (sizes : list Z) : result (list (Z * Z) * GroupWriter) :=
  match sizes with
  | [] => Ok ([], w)
  | size :: sizes =>
      '(pos, w) ← get_free_space page_size 3 commit_size w size;
      '(blocks, w) ← get_free_spaces page_size commit_size w sizes;
      Ok ((pos, size) :: blocks, w)
  end.

Lemma get_free_spaces_spec page_bits commit_size sizes : 3 <= page_bits <= 26 ->
  Forall (fun size => 0 < size <= 2 ^ 25 /\ size mod 8 = 0) sizes -> forall w, winv w ->
  get_free_spaces (2 ^ page_bits) commit_size w sizes = Throw MaximumFileSizeExceeded \/
  exists blocks w', get_free_spaces (2 ^ page_bits) commit_size w sizes = Ok (blocks, w') /\ winv w' /\
    map snd blocks = sizes /\ m_logical_size w <= m_logical_size w' /\ m_not_free_in_file w' = m_not_free_in_file w /\
    forall x, free_count x w' + r_count x blocks =
              free_count x w + inb x (m_logical_size w) (m_logical_size w' - m_logical_size w).
Proof.
  intros Hp. induction 1 as [|size sizes [Hs Hs8] _ IH]; intros w Hw; cbn [get_free_spaces].
  { right. exists [], w. repeat (split; [done|]). intros x. change (r_count x []) with 0. inb_cases. }
  destruct (get_free_space_spec page_bits Hp commit_size w size Hw Hs Hs8)
    as [->|([pos w1] & -> & Hw1 & _ & _ & _ & _ & Hl1 & Hn1 & Hc1)]; [by left|]. cbn [mbind result_bind].
  destruct (IH w1 Hw1) as [->|(blocks & w2 & -> & Hw2 & Hb2 & Hl2 & Hn2 & Hc2)]; [by left|]. cbn [mbind result_bind].
  right. eexists _, w2. split; [done|]. split; [done|]. split; [cbn; by rewrite Hb2|]. split; [lia|]. split; [congruence|].
  intros x. specialize (Hc1 x). specialize (Hc2 x). change (r_count x ((pos, size) :: blocks)) with (inb x pos size + r_count x blocks).
  pose proof (inb_split x (m_logical_size w) (m_logical_size w1 - m_logical_size w) (m_logical_size w2 - m_logical_size w1)
    ltac:(lia) ltac:(lia)) as Hi.
  replace (m_logical_size w1 - m_logical_size w + (m_logical_size w2 - m_logical_size w1))
    with (m_logical_size w2 - m_logical_size w) in Hi by lia.
  replace (m_logical_size w + (m_logical_size w1 - m_logical_size w)) with (m_logical_size w1) in Hi by lia. lia.
Qed.

(** ** The theorems *)


(** The blocks a sequence of allocations hands out cover no byte twice,
    and none of a chunk that was pinned or of one that is still free. *)
Theorem allocations_disjoint page_bits commit_size w sizes : 3 <= page_bits <= 26 -> winv w ->
  Forall (fun size => 0 < size <= 2 ^ 25 /\ size mod 8 = 0) sizes ->
  get_free_spaces (2 ^ page_bits) commit_size w sizes = Throw MaximumFileSizeExceeded \/
  exists blocks w', get_free_spaces (2 ^ page_bits) commit_size w sizes = Ok (blocks, w') /\
    map snd blocks = sizes /\ winv w' /\
    forall x, r_count x blocks + e_count x (m_not_free_in_file w) + free_count x w' <= 1.
Proof.
  intros Hp Hw Hs. destruct (get_free_spaces_spec page_bits commit_size sizes Hp Hs w Hw)
    as [->|(blocks & w' & -> & Hw' & Hb & Hl & Hn & Hc)]; [by left|]. right. exists blocks, w'. split; [done|]. split; [done|].
  split; [done|]. intros x. specialize (Hc x). pose proof (v_once w Hw x) as Ho. pose proof (v_inside w Hw x) as Hi. unfold w_count in *.
  pose proof (sm_count_nonneg x (m_size_map w)). pose proof (e_count_nonneg x (m_under_evacuation w)).
  pose proof (e_count_nonneg x (m_not_free_in_file w)). unfold free_count in *. inb_cases.
Qed.

(** Merging keeps the bytes the list covers, and leaves a gap between
    any two chunks that remain. *)
Theorem merge_adjacent_correct l : file_ok l ->
  (forall x, e_count x (merge_adjacent_entries_in_freelist l) = e_count x l) /\
  StronglySorted apart (List.filter nonempty (merge_adjacent_entries_in_freelist l)).
Proof. intros Hl. split; [intros x; by apply merge_count, entry_ok_0, Hl|by apply merge_apart]. Qed.

(** From well-formed lists [read_in_freelist] builds a writer that
    satisfies the invariant. A chunk released after the oldest reachable version
    is withheld; the bytes of all others are free, and those at or above the
    evacuation limit cannot be allocated. *)
Theorem read_in_freelist_correct oldest evac_limit backoff logical file_size file :
  file_ok file -> Forall (fun e => e_ref e + e_size e <= logical) file -> 0 < logical < 2 ^ 64 -> logical mod 8 = 0 ->
  0 <= evac_limit -> evac_limit mod 8 = 0 ->
  exists w, read_in_freelist oldest evac_limit backoff logical file_size file = Ok w /\ winv w /\
    m_not_free_in_file w = List.filter (reachable oldest) file /\
    (forall x, free_count x w = e_count x (List.filter (unreachable oldest) file)) /\
    (forall x, evac_limit <= x -> evac_limit <> 0 -> sm_count x (m_size_map w) = 0).
Proof.
  intros Hf Hi HL HL8 He He8. destruct (read_in_spec oldest evac_limit backoff logical file_size file Hf Hi HL HL8 He He8)
    as (w & Hw & H1 & _ & H2 & H3 & H4). by exists w.
Qed.

(** [recreate_freelist] succeeds when the released chunks overlap none
    that is already in the lists: the entries it writes are those of the writer
    and the released ones, in position order, apart from each other, and the
    index it returns is that of the reserved chunk, whose size alone is left out
    of [m_free_space_size]. *)
Theorem recreate_freelist_correct w v rel size pos : winv w -> released_ok rel ->
  (forall x, w_count x w + r_count x rel <= 1) -> (size, pos) ∈ m_size_map w ->
  exists r, recreate_freelist w v rel pos = Ok r /\ file_ok (r_entries r) /\ r_entries r ≡ₚ all_entries w v rel /\
    r_entries r !! r_reserve_ndx r = Some (mkEntry pos size 0) /\
    r_free_space_size r = sum_entries (all_entries w v rel) - size.
Proof. apply recreate_spec. Qed.


(** ** Examples *)

(** A file of 1000 bytes with a chunk pinned by version 7, two free chunks that
    touch and one apart. *)
Definition example_file : list FreeSpaceEntry :=
  [mkEntry 24 40 3; mkEntry 64 16 5; mkEntry 104 48 8; mkEntry 200 400 0].

Definition example_writer : GroupWriter :=
  mkWriter [(56, 24); (400, 200)] [mkEntry 104 48 8] [] 0 0 1000 4096.

Ltac file_ok_tac := split; repeat (constructor; cbn; unfold before; cbn; try lia); try done.

Lemma example_file_ok : file_ok example_file.
Proof. file_ok_tac. Qed.

Lemma example_read : read_in_freelist 7 0 0 1000 4096 example_file = Ok example_writer.
Proof. vm_compute. reflexivity. Qed.

Lemma example_inside : Forall (fun e => e_ref e + e_size e <= 1000) example_file.
Proof. repeat (constructor; [cbn; lia|]). constructor. Qed.

Lemma example_winv : winv example_writer.
Proof.
  destruct (read_in_spec 7 0 0 1000 4096 example_file example_file_ok example_inside ltac:(lia) eq_refl ltac:(lia) eq_refl)
    as (w & Hw & H & _). rewrite example_read in Hw. by injection Hw as <-.
Qed.

Definition example_released : list (Z * Z) := [(80, 24)].

Lemma example_once x : w_count x example_writer + r_count x example_released <= 1.
Proof.
  rewrite <- (all_entries_count x example_writer 9), <- (e_count_perm x _ _ (merge_sort_Permutation ref_le _)).
  apply file_once. assert (E : merge_sort ref_le (all_entries example_writer 9 example_released) =
    [mkEntry 24 56 0; mkEntry 80 24 9; mkEntry 104 48 8; mkEntry 200 400 0]) by (vm_compute; reflexivity).
  rewrite E. file_ok_tac.
Qed.

Lemma example_released_ok : released_ok example_released.
Proof. repeat constructor. Qed.

Lemma example_released_inside x : 0 < r_count x example_released -> x < m_logical_size example_writer.
Proof. unfold r_count, example_released. cbn [sumf fst snd m_logical_size example_writer]. inb_cases. Qed.

Lemma example_reserved : (400, 200) ∈ m_size_map example_writer.
Proof. by apply elem_of_cons; right; apply list_elem_of_singleton. Qed.


Lemma example_sizes : Forall (fun size => 0 < size <= 2 ^ 25 /\ size mod 8 = 0) [64; 200; 2 ^ 25].
Proof. repeat (apply Forall_cons_iff; split; [split; [lia|done]|]). constructor. Qed.

Lemma allocations_disjoint_witness :
  get_free_spaces (2 ^ 12) 0 example_writer [64; 200; 2 ^ 25] = Throw MaximumFileSizeExceeded \/
  exists blocks w', get_free_spaces (2 ^ 12) 0 example_writer [64; 200; 2 ^ 25] = Ok (blocks, w') /\
    map snd blocks = [64; 200; 2 ^ 25] /\ winv w' /\
    forall x, r_count x blocks + e_count x (m_not_free_in_file example_writer) + free_count x w' <= 1.
Proof. exact (allocations_disjoint 12 0 example_writer [64; 200; 2 ^ 25] ltac:(lia) example_winv example_sizes). Defined.

Lemma merge_adjacent_correct_witness :
  (forall x, e_count x (merge_adjacent_entries_in_freelist example_file) = e_count x example_file) /\
  StronglySorted apart (List.filter nonempty (merge_adjacent_entries_in_freelist example_file)).
Proof. exact (merge_adjacent_correct example_file example_file_ok). Defined.

Lemma read_in_freelist_correct_witness : exists w,
  read_in_freelist 7 64 0 1000 4096 example_file = Ok w /\ winv w /\
  m_not_free_in_file w = [mkEntry 104 48 8] /\
  (forall x, free_count x w = e_count x [mkEntry 24 40 3; mkEntry 64 16 5; mkEntry 200 400 0]) /\
  (forall x, 64 <= x -> 64 <> 0 -> sm_count x (m_size_map w) = 0).
Proof.
  exact (read_in_freelist_correct 7 64 0 1000 4096 example_file example_file_ok example_inside ltac:(lia) eq_refl ltac:(lia) eq_refl).
Defined.

Lemma recreate_freelist_correct_witness : exists r,
  recreate_freelist example_writer 9 example_released 200 = Ok r /\ file_ok (r_entries r) /\
  r_entries r ≡ₚ all_entries example_writer 9 example_released /\
  r_entries r !! r_reserve_ndx r = Some (mkEntry 200 400 0) /\
  r_free_space_size r = sum_entries (all_entries example_writer 9 example_released) - 400.
Proof.
  exact (recreate_freelist_correct example_writer 9 example_released 400 200 example_winv example_released_ok example_once example_reserved).
Defined.

