(* ===== verification/FileHeader.v ===== *)
(** * The file header and its publication

    Models [SlabAlloc::Header] and its readers (alloc_slab.hpp, alloc_slab.cpp),
    the two-slot update of [GroupCommitter::commit] (group_writer.cpp) and the
    conversion from streaming form.

    The header is the first 24 bytes of the file: two top references of eight
    bytes, the mnemonic at 16, the two file format bytes at 20, a reserved byte,
    and the flags at 23.

    Storage is seen the way a crash sees it.  A program stores into memory, and
    what it stored reaches the disk byte by byte in any order, except across a
    barrier; a sync forces everything out. *)

From S2P Require Import Prelude Bytes.

(** ** The header *)

Definition sizeof_Header : Z := 24.
Definition sizeof_StreamingFooter : Z := 16.
Definition flags_SelectBit : Z := 1.
Definition footer_magic_cookie : Z := 0x3034125237E526C8.
Definition streaming_top_ref : Z := 0xFFFFFFFFFFFFFFFF.

Definition m_top_ref (header : bytes) (slot : Z) : Z := le_val 8 header (8 * slot).
Definition m_mnemonic (header : bytes) (i : Z) : Z := header (16 + i).
Definition m_file_format (header : bytes) (slot : Z) : Z := header (20 + slot).
Definition m_flags (header : bytes) : Z := header 23.

Definition set_top_ref (header : bytes) (slot v : Z) : bytes := put_loop 8 0 header (8 * slot) v.
Definition set_file_format (header : bytes) (slot v : Z) : bytes := upd header (20 + slot) (u8 v).
Definition set_flags (header : bytes) (v : Z) : bytes := upd header 23 (u8 v).

Definition slot_of (flags : Z) : Z := if negb (Z.land flags flags_SelectBit =? 0) then 1 else 0.
Definition slot_selector (header : bytes) : Z := slot_of (m_flags header).

(** ['T', '-', 'D', 'B'] *)
Definition mnemonic_ok (header : bytes) : bool :=
  (m_mnemonic header 0 =? 84) && (m_mnemonic header 1 =? 45) &&
  (m_mnemonic header 2 =? 68) && (m_mnemonic header 3 =? 66).

Definition put_mnemonic (header : bytes) : bytes :=
  upd (upd (upd (upd header 16 84) 17 45) 18 68) 19 66.

Definition empty_file_header : bytes := put_mnemonic (fun _ => 0).

Definition init_streaming_header (file_format_version : Z) : bytes :=
  set_file_format (put_mnemonic (set_top_ref (fun _ => 0) 0 streaming_top_ref)) 0 file_format_version.

Definition get_committed_file_format_version (header : bytes) : Z := m_file_format header (slot_selector header).
Definition get_committed_top_ref (header : bytes) : Z := m_top_ref header (slot_selector header).

Definition is_file_on_streaming_form (header : bytes) : bool :=
  (slot_selector header =? 0) && (m_top_ref header (slot_selector header) =? streaming_top_ref).

(** The footer: top reference and magic cookie, the last 16 bytes of a file. *)
Definition read_footer (file : bytes) (size : Z) : Z * Z :=
  (le_val 8 file (size - sizeof_StreamingFooter), le_val 8 file (size - sizeof_StreamingFooter + 8)).

Definition get_top_ref (buffer : bytes) (len : Z) : Z :=
  if is_file_on_streaming_form buffer then (read_footer buffer len).1 else m_top_ref buffer (slot_selector buffer).

(** [validate_header]; the message numbers follow the order of the throws.  A
    missing footer is only dereferenced in streaming form. *)
Definition validate_header (header : bytes) (footer : option (Z * Z)) (size : Z) : result Z :=
  if size <? sizeof_Header then Throw (InvalidDatabase 11) else
  if negb (size mod 8 =? 0) then Throw (InvalidDatabase 12) else
  if negb (mnemonic_ok header) then Throw (InvalidDatabase 13) else
  let slot := slot_selector header in
  let top_ref := m_top_ref header slot in
  top_ref ←
    (if (slot =? 0) && (top_ref =? streaming_top_ref) then
       if size <? sizeof_Header + sizeof_StreamingFooter then Throw (InvalidDatabase 14) else
       match footer with
       | None => Throw AssertionFailed
       | Some (footer_top_ref, cookie) =>
           if negb (cookie =? footer_magic_cookie) then Throw (InvalidDatabase 15) else Ok footer_top_ref
       end
     else Ok top_ref);
  if negb (top_ref mod 8 =? 0) then Throw (InvalidDatabase 16) else
  if size <=? top_ref then Throw (InvalidDatabase 17) else
  Ok top_ref.

Definition read_and_validate_header (file : bytes) (size : Z) : result Z :=
  let footer :=
    if is_file_on_streaming_form file && (sizeof_StreamingFooter + sizeof_Header <=? size)
    then Some (read_footer file size) else None in
  validate_header file footer size.

(** ** Storage *)

Inductive io := Store (f : bytes -> bytes) | Barrier | Sync.

(** Memory, and the epochs still under way, the newest first: the image at the
    barrier that opened the epoch, and the images since. *)
Record Disk := mkDisk { d_mem : bytes; d_epochs : list (bytes * list bytes) }.

Definition store (d : Disk) (m : bytes) : Disk :=
  mkDisk m (match d_epochs d with (base, images) :: es => (base, m :: images) :: es | [] => [(d_mem d, [m])] end).

Definition step (d : Disk) (op : io) : Disk :=
  match op with
  | Store f => store d (f (d_mem d))
  | Barrier => mkDisk (d_mem d) ((d_mem d, []) :: d_epochs d)
  | Sync => mkDisk (d_mem d) [(d_mem d, [])]
  end.

Definition run (ops : list io) (d : Disk) : Disk := fold_left step ops d.

(** A byte a crash in an epoch can leave. *)
Definition in_epoch (e : bytes * list bytes) (f : bytes) : Prop :=
  forall x, f x = e.1 x \/ exists m, m ∈ e.2 /\ f x = m x.

(** The files a crash can leave. *)
Definition crashed (d : Disk) (f : bytes) : Prop := exists e, e ∈ d_epochs d /\ in_epoch e f.

(** ** Publication *)

Inductive Durability := Full | MemOnly | Unsafe | Strict.

Definition durability_eqb (a b : Durability) : bool :=
  match a, b with Full, Full | MemOnly, MemOnly | Unsafe, Unsafe | Strict, Strict => true | _, _ => false end.

Definition sync_ops (disable_sync : bool) (durability : Durability) : list io :=
  if disable_sync then [] else if durability_eqb durability Strict then [Sync] else [Barrier].

(** [GroupCommitter::commit], as the sequence of its stores and syncs; [m] is
    the mapped file when it starts. *)
Definition commit (get_disable_sync_to_disk : bool) (durability : Durability) (file_format_version new_top_ref : Z)
    (m : bytes) : list io :=
  let old_flags := m_flags m in
  let new_flags := Z.lxor old_flags flags_SelectBit in
  let slot_selector := slot_of new_flags in
  let disable_sync := get_disable_sync_to_disk || durability_eqb durability Unsafe in
  [Store (fun m => if negb (u8 file_format_version =? m_file_format m slot_selector)
                   then set_file_format m slot_selector file_format_version else m);
   Store (fun m => set_top_ref m slot_selector new_top_ref)] ++
  sync_ops disable_sync durability ++
  [Store (fun m => set_flags m new_flags)] ++
  sync_ops disable_sync durability.

(** [convert_from_streaming_form]; [writable_map.sync()] forces the page out. *)
Definition convert_from_streaming_form (top_ref : Z) (m : bytes) : list io :=
  if negb (is_file_on_streaming_form m) then [] else
  [Store (fun m => set_top_ref m 1 top_ref);
   Store (fun m => set_file_format m 1 (m_file_format m 0));
   Sync;
   Store (fun m => set_flags m (Z.lor (m_flags m) flags_SelectBit));
   Sync].

(** ** Lemmas: storage *)

Lemma run_app ops1 ops2 d : run (ops1 ++ ops2) d = run ops2 (run ops1 d).
Proof. apply fold_left_app. Qed.

(** [x] has reached the disk: every crash leaves the byte of memory. *)
Definition settled (d : Disk) (x : Z) : Prop := forall f, crashed d f -> f x = d_mem d x.

Lemma crashed_barrier d f : crashed (step d Barrier) f -> crashed d f \/ forall x, f x = d_mem d x.
Proof.
  intros (e & He & Hf). cbn in He. apply elem_of_cons in He as [->|He]; [right|left; by exists e].
  intros x. destruct (Hf x) as [|(m & Hm & _)]; [done|]. cbn in Hm. by apply elem_of_nil in Hm.
Qed.

Lemma crashed_sync d f : crashed (step d Sync) f -> forall x, f x = d_mem d x.
Proof.
  intros (e & He & Hf) x. cbn in He. apply list_elem_of_singleton in He as ->.
  destruct (Hf x) as [|(m & Hm & _)]; [done|]. cbn in Hm. by apply elem_of_nil in Hm.
Qed.

(** A store adds its image to what a crash can leave. *)
Lemma crashed_store d m f : d_epochs d <> [] -> crashed (store d m) f ->
  exists f0, crashed d f0 /\ forall x, f x = f0 x \/ f x = m x.
Proof.
  intros Hne (e & He & Hf). unfold store in He. cbn [d_epochs] in He. destruct (d_epochs d) as [|[base images] es] eqn:Ee; [done|].
  apply elem_of_cons in He as [->|He].
  - exists (fun x => if decide (f x = m x) then base x else f x). split.
    + exists (base, images). rewrite Ee. split; [apply list_elem_of_here|]. intros x. cbn.
      destruct (decide (f x = m x)) as [|Hx]; [by left|]. destruct (Hf x) as [|(m' & Hm' & Hfx)]; [by left|]. right.
      cbn in Hm'. apply elem_of_cons in Hm' as [->|Hm']; [done|by exists m'].
    + intros x. destruct (decide (f x = m x)); auto.
  - exists f. split; [|auto]. exists e. rewrite Ee. split; [by apply list_elem_of_further|done].
Qed.

(** After a barrier, a store mixes only with the image at the barrier. *)
Lemma crashed_barrier_store d m f : crashed (store (step d Barrier) m) f ->
  crashed d f \/ forall x, f x = d_mem d x \/ f x = m x.
Proof.
  intros (e & He & Hf). cbn in He. apply elem_of_cons in He as [->|He]; [right|left; by exists e].
  intros x. destruct (Hf x) as [|(m' & Hm' & Hx)]; [by left|]. cbn in Hm'. apply list_elem_of_singleton in Hm' as ->. by right.
Qed.

Lemma crashed_sync_store d m f : crashed (store (step d Sync) m) f -> forall x, f x = d_mem d x \/ f x = m x.
Proof.
  intros (e & He & Hf) x. cbn in He. apply list_elem_of_singleton in He as ->.
  destruct (Hf x) as [|(m' & Hm' & Hx)]; [by left|]. cbn in Hm'. apply list_elem_of_singleton in Hm' as ->. by right.
Qed.
