(* ===== verification/FileCommit.v ===== *)
(** * Publishing a snapshot is atomic

    Whatever a crash leaves of the stores of [GroupCommitter::commit], opening
    the file finds the old snapshot or the new one, each with its data. *)

From S2P Require Import Prelude Bytes FileHeader.

(** ** Reading the header *)

Lemma land_1 z : Z.land z flags_SelectBit = z mod 2.
Proof. change flags_SelectBit with (Z.ones 1). by rewrite Z.land_ones. Qed.

Lemma slot_of_cases z : slot_of z = z mod 2.
Proof. unfold slot_of. rewrite land_1. destruct (Z.eqb_spec (z mod 2) 0) as [->|]; [done|]. cbn [negb]. dlia. Qed.

Lemma slot_of_u8 z : slot_of (u8 z) = slot_of z.
Proof. rewrite !slot_of_cases. unfold u8. change (2 ^ 8) with 256. dlia. Qed.

Lemma slot_flip z : slot_of (Z.lxor z flags_SelectBit) = 1 - slot_of z.
Proof.
  rewrite !slot_of_cases, <- !Z.bit0_mod, Z.lxor_spec. by destruct (Z.testbit z 0).
Qed.

Lemma slot_range z : slot_of z = 0 \/ slot_of z = 1.
Proof. rewrite slot_of_cases. pose proof (Z.mod_pos_bound z 2). lia. Qed.

(** [validate_header] outside streaming form. *)
Definition check_top (mnemonic : bool) (top_ref size : Z) : result Z :=
  if size <? sizeof_Header then Throw (InvalidDatabase 11) else
  if negb (size mod 8 =? 0) then Throw (InvalidDatabase 12) else
  if negb mnemonic then Throw (InvalidDatabase 13) else
  if negb (top_ref mod 8 =? 0) then Throw (InvalidDatabase 16) else
  if size <=? top_ref then Throw (InvalidDatabase 17) else Ok top_ref.

Lemma validate_plain f size : is_file_on_streaming_form f = false ->
  read_and_validate_header f size = check_top (mnemonic_ok f) (get_committed_top_ref f) size.
Proof.
  intros Hs. unfold read_and_validate_header, validate_header. rewrite Hs. cbn [andb]. unfold is_file_on_streaming_form in Hs.
  rewrite Hs. cbn [mbind result_bind]. done.
Qed.

(** The top reference a valid header selects. *)
Lemma validate_selects f size top : is_file_on_streaming_form f = false ->
  read_and_validate_header f size = Ok top -> top = get_committed_top_ref f.
Proof.
  intros Hs. rewrite validate_plain by done. unfold check_top. repeat case_match; congruence.
Qed.

Lemma m_top_ref_ext f g slot : (forall x, 8 * slot <= x < 8 * slot + 8 -> f x = g x) -> m_top_ref f slot = m_top_ref g slot.
Proof. intros H. apply le_val_ext. intros k Hk. rewrite H by lia. done. Qed.

Lemma mnemonic_ext f g : (forall x, 16 <= x < 20 -> f x = g x) -> mnemonic_ok f = mnemonic_ok g.
Proof. intros H. unfold mnemonic_ok, m_mnemonic. by rewrite !H by lia. Qed.

Lemma top_ref_set m slot v : 0 <= v < 2 ^ 64 -> m_top_ref (set_top_ref m slot v) slot = v.
Proof. intros Hv. unfold m_top_ref, set_top_ref. rewrite le_val_put. by apply Z.mod_small. Qed.

Lemma set_top_ref_at m slot v x : ~ 8 * slot <= x < 8 * slot + 8 -> set_top_ref m slot v x = m x.
Proof. intros Hx. unfold set_top_ref. rewrite put_loop_at. rdec; [lia|done]. Qed.

(** ** The commit *)

Section Commit.
Context (durability : Durability) (fmt new_top : Z) (d : Disk).
Context (Hdur : durability <> Unsafe).
Context (Hepoch : d_epochs d <> []).
Context (Hheader : forall x, 0 <= x < 24 -> settled d x).

Let m := d_mem d.
Let old := slot_selector m.
Let new := slot_of (Z.lxor (m_flags m) flags_SelectBit).
Let m1 := if negb (u8 fmt =? m_file_format m new) then set_file_format m new fmt else m.
Let m2 := set_top_ref m1 new new_top.
Let m3 := set_flags m2 (Z.lxor (m_flags m) flags_SelectBit).

Lemma slots : (old = 0 /\ new = 1) \/ (old = 1 /\ new = 0).
Proof. unfold new. rewrite slot_flip. fold (slot_selector m) old. unfold old, slot_selector. destruct (slot_range (m_flags m)); lia. Qed.

(** The bytes of the slot that is not selected. *)
Definition inactive (x : Z) : Prop := x = 20 + new \/ 8 * new <= x < 8 * new + 8.

Lemma m1_at x : x <> 20 + new -> m1 x = m x.
Proof. intros Hx. unfold m1, set_file_format. destruct (negb _); [by rewrite upd_ne|done]. Qed.
Lemma m2_at x : ~ inactive x -> m2 x = m x.
Proof. unfold inactive, m2. intros Hx. rewrite set_top_ref_at by lia. apply m1_at. lia. Qed.
Lemma m3_at x : x <> 23 -> m3 x = m2 x.
Proof. intros. unfold m3, set_flags. by rewrite upd_ne. Qed.

(** The file still holds the old snapshot. *)
Definition old_image (f : bytes) : Prop := forall x, settled d x -> ~ inactive x -> f x = m x.

Lemma old_store d' k f : d_epochs d' <> [] -> (forall g, crashed d' g -> old_image g) ->
  (forall x, ~ inactive x -> k x = m x) -> crashed (store d' k) f -> old_image f.
Proof.
  intros Hne Hd Hk Hf x Hx Hi. destruct (crashed_store d' k f Hne Hf) as (g & Hg & Hfx).
  destruct (Hfx x) as [->| ->]; [by apply Hd|by apply Hk].
Qed.

Lemma store_epochs d' k : d_epochs (store d' k) <> [].
Proof. unfold store. cbn. by destruct (d_epochs d') as [|[? ?] ?]. Qed.

Lemma old_0 f : crashed d f -> old_image f.
Proof. intros Hf x Hx _. by apply Hx. Qed.
Lemma old_1 f : crashed (store d m1) f -> old_image f.
Proof. apply old_store; [done|apply old_0|]. intros x Hx. apply m1_at. unfold inactive in Hx. lia. Qed.
Lemma old_2 f : crashed (store (store d m1) m2) f -> old_image f.
Proof. apply old_store; [apply store_epochs|apply old_1|apply m2_at]. Qed.

Lemma old_pointwise f : (forall x, f x = m2 x) -> old_image f.
Proof. intros Hf x _ Hx. rewrite Hf. by apply m2_at. Qed.

(** A mixture of the images before and after the flags is one of the two. *)
Lemma mixed_image f : (forall x, f x = m2 x \/ f x = m3 x) -> (forall x, f x = m3 x) \/ old_image f.
Proof.
  intros Hf. destruct (decide (f 23 = m3 23)) as [E|E].
  - left. intros x. destruct (decide (x = 23)) as [->|]; [done|]. destruct (Hf x) as [->|]; [|done]. by rewrite m3_at.
  - right. apply old_pointwise. intros x. destruct (Hf x) as [|Hx]; [done|]. destruct (decide (x = 23)) as [->|]; [done|].
    by rewrite Hx, m3_at.
Qed.

(** Every crash image of a commit holds the old snapshot or is the new one. *)
Lemma commit_images pre post f : commit false durability fmt new_top m = pre ++ post -> crashed (run pre d) f ->
  old_image f \/ forall x, f x = m3 x.
Proof.
  intros Hops Hf. unfold commit in Hops. cbv zeta in Hops. change (slot_of (Z.lxor (m_flags m) flags_SelectBit)) with new in Hops.
  assert (E : durability_eqb durability Unsafe = false) by (by destruct durability). rewrite E in Hops. clear E. cbn [orb] in Hops.
  unfold sync_ops in Hops. set (barrier := if durability_eqb durability Strict then [Sync] else [Barrier]) in Hops.
  assert (Hb : barrier = [Sync] \/ barrier = [Barrier]) by (unfold barrier; destruct (durability_eqb _ _); auto). clearbody barrier.
  destruct pre as [|o1 pre]; [left; by apply old_0|]. cbn [app] in Hops. injection Hops as <- Hops. cbn [run fold_left step] in Hf.
  destruct pre as [|o2 pre]; [left; by apply old_1|]. injection Hops as <- Hops. cbn [fold_left step] in Hf.
  change (store _ (set_top_ref _ _ _)) with (store (store d m1) m2) in Hf.
  destruct pre as [|o3 pre]; [left; by apply old_2|].
  assert (H3 : forall g, crashed (step (store (store d m1) m2) o3) g -> old_image g).
  { intros g Hg. destruct Hb as [-> | ->]; injection Hops as <- _.
    - apply old_pointwise. exact (crashed_sync _ _ Hg).
    - destruct (crashed_barrier _ _ Hg) as [|Hp]; [by apply old_2|by apply old_pointwise]. }
  cbn [fold_left] in Hf. destruct pre as [|o4 pre]; [left; by apply H3|].
  assert (H4 : forall g, crashed (store (step (store (store d m1) m2) o3) m3) g -> old_image g \/ forall x, g x = m3 x).
  { intros g Hg. destruct Hb as [-> | ->]; injection Hops as <- _.
    - destruct (mixed_image g (crashed_sync_store _ _ _ Hg)); auto.
    - destruct (crashed_barrier_store _ _ _ Hg) as [Hp|Hp]; [left; by apply old_2|]. destruct (mixed_image g Hp); auto. }
  assert (Hmem : d_mem (step (store (store d m1) m2) o3) = m2) by (destruct Hb as [-> | ->]; injection Hops as <- _; done).
  assert (Ho4 : o4 = Store (fun m' => set_flags m' (Z.lxor (m_flags m) flags_SelectBit)))
    by (destruct Hb as [-> | ->]; injection Hops as _ <- _; done).
  cbn [fold_left] in Hf. rewrite Ho4 in Hf. cbn [step] in Hf. rewrite Hmem in Hf. fold m3 in Hf.
  destruct pre as [|o5 pre]; [by apply H4|]. cbn [fold_left] in Hf.
  assert (pre = []) as -> by (destruct Hb as [-> | ->]; cbn in Hops; injection Hops as _ _ _ Hp; by destruct pre).
  cbn [fold_left] in Hf. destruct Hb as [-> | ->]; injection Hops as _ _ <- _.
  - right. exact (crashed_sync _ _ Hf).
  - destruct (crashed_barrier _ _ Hf) as [Hp|Hp]; [by apply H4|by right].
Qed.
(** What opening reads from an old image. *)
Lemma old_reads f : old_image f ->
  slot_selector f = old /\ mnemonic_ok f = mnemonic_ok m /\ get_committed_top_ref f = get_committed_top_ref m /\
  get_committed_file_format_version f = get_committed_file_format_version m.
Proof.
  intros Hf. assert (Hx : forall x, 0 <= x < 24 -> ~ inactive x -> f x = m x) by (intros; apply Hf; auto). clear Hf.
  unfold inactive in Hx. pose proof slots as Hs.
  assert (Hsel : slot_selector f = old) by (unfold old, slot_selector, m_flags; rewrite Hx by lia; done).
  unfold get_committed_top_ref, get_committed_file_format_version. rewrite Hsel. fold (slot_selector m). fold old.
  split; [done|]. split; [apply mnemonic_ext; intros; apply Hx; lia|]. split; [apply m_top_ref_ext; intros; apply Hx; lia|].
  unfold m_file_format. apply Hx; lia.
Qed.

(** What opening reads from the new image. *)
Lemma new_reads f : 0 <= new_top < 2 ^ 64 -> (forall x, f x = m3 x) ->
  slot_selector f = new /\ mnemonic_ok f = mnemonic_ok m /\ get_committed_top_ref f = new_top /\
  get_committed_file_format_version f = u8 fmt.
Proof.
  intros Ht Hf. pose proof slots as Hs. assert (Hsel : slot_selector f = new).
  { unfold slot_selector, m_flags. rewrite Hf. unfold m3, set_flags. rewrite upd_eq, slot_of_u8. done. }
  unfold get_committed_top_ref, get_committed_file_format_version. rewrite Hsel. split; [done|]. split.
  { apply mnemonic_ext. intros x Hx. rewrite Hf, m3_at, m2_at by (unfold inactive; lia). done. }
  split.
  - rewrite <- (top_ref_set m1 new new_top Ht). apply m_top_ref_ext. intros x Hx. rewrite Hf, m3_at by lia. done.
  - unfold m_file_format. rewrite Hf, m3_at by lia. unfold m2. rewrite set_top_ref_at by lia. unfold m1, set_file_format, m_file_format.
    destruct (Z.eqb_spec (u8 fmt) (m (20 + new))) as [->|]; [done|]. apply upd_eq.
Qed.

Lemma new_data f x : (forall y, f y = m3 y) -> 24 <= x -> f x = m x.
Proof. intros Hf Hx. rewrite Hf, m3_at, m2_at by (unfold inactive; pose proof slots; lia). done. Qed.

End Commit.

(** ** The theorems *)


(** With strict durability a commit that returns has reached the disk:
    every crash afterwards leaves the file the transaction wrote, opened at the
    new top array. *)
Theorem commit_strict_durable fmt new_top d f :
  0 <= new_top < 2 ^ 64 -> crashed (run (commit false Strict fmt new_top (d_mem d)) d) f ->
  get_committed_top_ref f = new_top /\ get_committed_file_format_version f = u8 fmt /\
  forall x, 24 <= x -> f x = d_mem d x.
Proof.
  intros Ht Hf. assert (Hn := crashed_sync _ _ Hf).
  destruct (new_reads fmt new_top d f Ht Hn) as (_ & _ & H3 & H4). split; [done|]. split; [done|].
  intros x Hx. by apply (new_data fmt new_top d f x Hn).
Qed.

(** ** Leaving streaming form *)

Section Convert.
Context (d : Disk) (size top : Z).
Context (Hepoch : d_epochs d <> []).
Context (Hsettled : forall x, settled d x).
Context (Hstream : is_file_on_streaming_form (d_mem d) = true).
Context (Hvalid : read_and_validate_header (d_mem d) size = Ok top).
Context (Hsize : size < 2 ^ 64).

Let m := d_mem d.
Let s1 := set_top_ref m 1 top.
Let s2 := set_file_format s1 1 (m_file_format s1 0).
Let s3 := set_flags s2 (Z.lor (m_flags s2) flags_SelectBit).

(** What streaming form and validity say of the file. *)
Lemma streaming_facts :
  slot_selector m = 0 /\ m_top_ref m 0 = streaming_top_ref /\ 40 <= size /\ size mod 8 = 0 /\ mnemonic_ok m = true /\
  read_footer m size = (top, footer_magic_cookie) /\ 0 <= top < size /\ top mod 8 = 0.
Proof.
  pose proof Hstream as Hs. unfold is_file_on_streaming_form in Hs. apply andb_true_iff in Hs as [H1 H2]. apply Z.eqb_eq in H1, H2. fold m in H1, H2.
  rewrite H1 in H2. pose proof Hvalid as Hv. unfold read_and_validate_header, validate_header in Hv. fold m in Hv.
  pose proof Hstream as Hs'. fold m in Hs'. rewrite Hs', H1, H2 in Hv. cbn [Z.eqb andb] in Hv. change (streaming_top_ref =? streaming_top_ref) with true in Hv.
  unfold sizeof_Header, sizeof_StreamingFooter in Hv. change (16 + 24) with 40 in Hv. change (24 + 16) with 40 in Hv.
  destruct (Z.ltb_spec size 24); [done|]. destruct (Z.eqb_spec (size mod 8) 0); [|done]. cbn [negb] in Hv.
  destruct (mnemonic_ok m); [|done]. cbn [negb] in Hv. destruct (Z.ltb_spec size 40); [done|].
  destruct (Z.leb_spec 40 size); [|lia]. cbn [andb] in Hv.
  assert (0 <= (read_footer m size).1) by apply le_val_range. destruct (read_footer m size) as [ft cookie]. cbn [fst] in *.
  destruct (Z.eqb_spec cookie footer_magic_cookie) as [E|]; [|done]. rewrite E. cbn [negb mbind result_bind] in Hv.
  destruct (Z.eqb_spec (ft mod 8) 0); [|done]. cbn [negb] in Hv. destruct (Z.leb_spec size ft); [done|]. injection Hv as <-. auto 10 with lia.
Qed.

(** The bytes of slot 1, which streaming form does not read. *)
Lemma s2_at x : x <> 21 -> ~ 8 <= x < 16 -> s2 x = m x.
Proof. intros H1 H2. unfold s2, set_file_format. rewrite upd_ne by lia. unfold s1. rewrite set_top_ref_at by lia. done. Qed.
Lemma s3_at x : x <> 23 -> s3 x = s2 x.
Proof. intros H. unfold s3, set_flags. by rewrite upd_ne. Qed.

(** A file that differs from the original in slot 1 only opens as before. *)
Lemma streaming_opens f : (forall x, x <> 21 -> ~ 8 <= x < 16 -> f x = m x) -> read_and_validate_header f size = Ok top.
Proof.
  intros Hf. destruct streaming_facts as (F1 & F2 & F3 & F4 & F5 & F6 & F7 & F8).
  assert (Hsel : slot_selector f = 0) by (unfold slot_selector, m_flags in *; by rewrite Hf by lia).
  assert (Htop : m_top_ref f 0 = streaming_top_ref) by (rewrite <- F2; apply m_top_ref_ext; intros; apply Hf; lia).
  assert (Hfoot : read_footer f size = (top, footer_magic_cookie)).
  { rewrite <- F6. unfold read_footer, sizeof_StreamingFooter. f_equal; apply le_val_ext; intros k Hk; by rewrite Hf by lia. }
  unfold read_and_validate_header, validate_header, is_file_on_streaming_form. rewrite Hsel, Htop, Hfoot.
  rewrite (mnemonic_ext f m), F5 by (intros; apply Hf; lia). change (streaming_top_ref =? streaming_top_ref) with true.
  unfold sizeof_Header, sizeof_StreamingFooter. change (16 + 24) with 40. change (24 + 16) with 40.
  rewrite (proj2 (Z.ltb_ge size 24)), (proj2 (Z.ltb_ge size 40)), (proj2 (Z.leb_le 40 size)), F4 by lia.
  cbn [negb andb Z.eqb mbind result_bind]. change (footer_magic_cookie =? footer_magic_cookie) with true. cbn [negb mbind result_bind].
  rewrite F8. cbn [Z.eqb negb]. by rewrite (proj2 (Z.leb_gt size top)) by lia.
Qed.

Lemma converted_opens f : (forall x, f x = s3 x) -> read_and_validate_header f size = Ok top.
Proof.
  intros Hf. destruct streaming_facts as (F1 & F2 & F3 & F4 & F5 & F6 & F7 & F8).
  assert (Hsel : slot_selector f = 1).
  { unfold slot_selector, m_flags. rewrite Hf. unfold s3, set_flags. rewrite upd_eq, slot_of_u8, slot_of_cases, <- Z.bit0_mod, Z.lor_spec.
    change (Z.testbit flags_SelectBit 0) with true. by rewrite orb_true_r. }
  assert (Htop : m_top_ref f 1 = top).
  { rewrite <- (top_ref_set m 1 top) by lia. apply m_top_ref_ext. intros x Hx. rewrite Hf, s3_at by lia.
    unfold s2, set_file_format. by rewrite upd_ne by lia. }
  rewrite validate_plain by (unfold is_file_on_streaming_form; by rewrite Hsel). unfold get_committed_top_ref. rewrite Hsel, Htop.
  rewrite (mnemonic_ext f m), F5 by (intros; rewrite Hf, s3_at, s2_at by lia; done).
  unfold check_top, sizeof_Header. rewrite (proj2 (Z.ltb_ge size 24)), F4, F8, (proj2 (Z.leb_gt size top)) by lia. done.
Qed.

Lemma convert_images pre post f : convert_from_streaming_form top m = pre ++ post -> crashed (run pre d) f ->
  (forall x, x <> 21 -> ~ 8 <= x < 16 -> f x = m x) \/ forall x, f x = s3 x.
Proof.
  intros Hops Hf. unfold convert_from_streaming_form in Hops. pose proof Hstream as Hs. fold m in Hs. rewrite Hs in Hops. cbn [negb] in Hops.
  assert (H1 : forall g, crashed (store d s1) g -> forall x, x <> 21 -> ~ 8 <= x < 16 -> g x = m x).
  { intros g Hg x Hx Hx'. destruct (crashed_store d s1 g Hepoch Hg) as (g0 & Hg0 & Hgx).
    destruct (Hgx x) as [->| ->]; [by apply Hsettled|]. unfold s1. by rewrite set_top_ref_at. }
  assert (H2 : forall g, crashed (store (store d s1) s2) g -> forall x, x <> 21 -> ~ 8 <= x < 16 -> g x = m x).
  { intros g Hg x Hx Hx'. destruct (crashed_store (store d s1) s2 g (store_epochs _ _) Hg) as (g0 & Hg0 & Hgx).
    destruct (Hgx x) as [->| ->]; [by apply H1|by apply s2_at]. }
  destruct pre as [|o1 pre]; [left; intros; by apply Hsettled|]. injection Hops as <- Hops. cbn [run fold_left step] in Hf.
  destruct pre as [|o2 pre]; [left; by apply H1|]. injection Hops as <- Hops. cbn [fold_left step] in Hf.
  destruct pre as [|o3 pre]; [left; by apply H2|]. injection Hops as <- Hops. cbn [fold_left] in Hf.
  destruct pre as [|o4 pre]; [left; intros; rewrite (crashed_sync _ _ Hf); by apply s2_at|]. injection Hops as <- Hops. cbn [fold_left] in Hf.
  destruct pre as [|o5 pre].
  - pose proof (crashed_sync_store _ _ _ Hf) as Hx. fold s3 in Hx. destruct (decide (f 23 = s3 23)) as [E|E].
    + right. intros x. destruct (decide (x = 23)) as [->|]; [done|]. destruct (Hx x) as [->|]; [|done]. by rewrite s3_at.
    + left. intros x H21 H8. destruct (Hx x) as [->|E']; [by apply s2_at|]. destruct (decide (x = 23)) as [->|]; [done|].
      rewrite E'. change (s3 x = m x). by rewrite s3_at, s2_at.
  - injection Hops as <- Hops. destruct pre; [|done]. right. exact (crashed_sync _ _ Hf).
Qed.
End Convert.

(** Leaving streaming form is atomic too.  From a settled file in
    streaming form, a crash at any point of the conversion leaves a file that
    opens at the same top array. *)
Theorem convert_crash_atomic d size top pre post f :
  d_epochs d <> [] -> (forall x, settled d x) -> is_file_on_streaming_form (d_mem d) = true ->
  read_and_validate_header (d_mem d) size = Ok top -> size < 2 ^ 64 ->
  convert_from_streaming_form top (d_mem d) = pre ++ post -> crashed (run pre d) f ->
  read_and_validate_header f size = Ok top.
Proof.
  intros He Hs Hst Hv Hsz Hops Hf. destruct (convert_images d top He Hs Hst pre post f Hops Hf) as [H|H].
  - by apply (streaming_opens d size top).
  - by apply (converted_opens d size top).
Qed.

(** ** Examples *)

(** A file of 4096 bytes at top array 64, with one byte of a new array still on
    its way to the disk. *)
Definition ex_base : bytes := set_top_ref empty_file_header 0 64.
Definition ex_disk : Disk := mkDisk (upd ex_base 200 7) [(ex_base, [upd ex_base 200 7])].

Lemma ex_settled x : 0 <= x < 24 -> settled ex_disk x.
Proof.
  intros Hx f (e & He & Hf). cbn in He. apply list_elem_of_singleton in He as ->. cbn [ex_disk d_mem].
  rewrite upd_ne by lia. destruct (Hf x) as [->|(m & Hm & ->)]; [done|]. cbn in Hm. apply list_elem_of_singleton in Hm as ->.
  by rewrite upd_ne by lia.
Qed.

(** The crash that has written half of the new top reference. *)
Definition ex_pre : list io := take 2 (commit false Full 24 128 (d_mem ex_disk)).
Definition ex_torn : bytes := fun x => if x <? 12 then d_mem (run ex_pre ex_disk) x else ex_base x.

Lemma ex_torn_crashed : crashed (run ex_pre ex_disk) ex_torn.
Proof.
  eexists. split; [apply list_elem_of_here|]. intros x. unfold ex_torn. destruct (x <? 12); [|by left].
  right. exists (d_mem (run ex_pre ex_disk)). split; [apply list_elem_of_here|done].
Qed.


Lemma commit_strict_durable_witness :
  let f := d_mem (run (commit false Strict 24 128 (d_mem ex_disk)) ex_disk) in
  get_committed_top_ref f = 128 /\ get_committed_file_format_version f = u8 24 /\
  forall x, 24 <= x -> f x = d_mem ex_disk x.
Proof.
  apply (commit_strict_durable 24 128 ex_disk).
  - lia.
  - eexists. split; [apply list_elem_of_here|]. intros x. by left.
Defined.

(** A file of 64 bytes in streaming form. *)
Definition ex_streaming : bytes :=
  put_loop 8 0 (put_loop 8 0 (init_streaming_header 24) 48 24) 56 footer_magic_cookie.
Definition ex_streaming_disk : Disk := mkDisk ex_streaming [(ex_streaming, [])].

Lemma ex_streaming_settled x : settled ex_streaming_disk x.
Proof.
  intros f (e & He & Hf). cbn in He. apply list_elem_of_singleton in He as ->. destruct (Hf x) as [|(m & Hm & _)]; [done|].
  cbn in Hm. by apply elem_of_nil in Hm.
Qed.

Lemma convert_crash_atomic_witness :
  read_and_validate_header (d_mem (run (take 4 (convert_from_streaming_form 24 ex_streaming)) ex_streaming_disk)) 64 = Ok 24.
Proof.
  apply (convert_crash_atomic ex_streaming_disk 64 24 (take 4 (convert_from_streaming_form 24 ex_streaming))
    (drop 4 (convert_from_streaming_form 24 ex_streaming))).
  - done.
  - exact ex_streaming_settled.
  - vm_compute. reflexivity.
  - vm_compute. reflexivity.
  - lia.
  - symmetry. apply take_drop.
  - eexists. split; [apply list_elem_of_here|]. intros x. right. eexists. split; [apply list_elem_of_here|done].
Defined.
