(* ===== verification/VersionList.v ===== *)
(** * Snapshots and the locks that pin them

    Models the version list in the lock file ([VersionList]), the
    [DB::VersionManager] of each session participant with its cache of the read
    locks it holds, and the lock bookkeeping of [DB] (db.cpp, db.hpp).

    The version list is shared memory guarded by an inter-process mutex; the cache
    belongs to one participant, whose [DB::m_mutex] serialises its own calls.
    [grab_read_lock] and [release_read_lock] therefore take two steps, one on
    the cache and one on the shared list, between which other participants run.

    An index is a [nat], [nil] is [None], and [VersionID()] is [None]. *)

From S2P Require Import Prelude.

(** ** The version list *)

Record ReadCount := mkRC {
  rc_version : Z;
  rc_filesize : Z;
  rc_current_top : Z;
  count_live : Z;
  count_frozen : Z;
  count_full : Z
}.

Definition zero_rc : ReadCount := mkRC 0 0 0 0 0 0.

Definition is_active (r : ReadCount) : bool := negb (rc_version r =? 0).
Definition deactivate (r : ReadCount) : ReadCount := mkRC 0 (rc_filesize r) (rc_current_top r) 0 0 0.
Definition activate (v : Z) (r : ReadCount) : ReadCount :=
  mkRC v (rc_filesize r) (rc_current_top r) (count_live r) (count_frozen r) (count_full r).
Definition set_top (top : Z) (r : ReadCount) : ReadCount :=
  mkRC (rc_version r) (rc_filesize r) top (count_live r) (count_frozen r) (count_full r).
Definition set_filesize (size : Z) (r : ReadCount) : ReadCount :=
  mkRC (rc_version r) size (rc_current_top r) (count_live r) (count_frozen r) (count_full r).

(** The length of the list is [entries]. *)
Record VersionList := mkVL {
  vl_data : list ReadCount;
  vl_allocating : nat;
  vl_newest : option nat
}.

Definition entries (vl : VersionList) : nat := length (vl_data vl).
Definition with_data (vl : VersionList) (l : list ReadCount) : VersionList := mkVL l (vl_allocating vl) (vl_newest vl).

(** The memory beyond the entries in use is fresh, and zero. *)
Definition reserve (size : nat) (vl : VersionList) : VersionList :=
  with_data vl (vl_data vl ++ replicate (size - entries vl) (deactivate zero_rc)).

(** [while (k < entries && data()[k].is_active()) ++k]. *)
Fixpoint find_inactive (l : list ReadCount) : option nat :=
  match l with
  | [] => None
  | r :: l => if is_active r then S <$> find_inactive l else Some 0%nat
  end.

Definition alloc_index (vl : VersionList) : option nat :=
  if bool_decide (vl_newest vl = Some (vl_allocating vl)) then find_inactive (vl_data vl) else Some (vl_allocating vl).

(** The list after each store of [try_allocate_entry] into entry [i]. *)
Definition alloc_trace (vl : VersionList) (i : nat) (top size version : Z) : list VersionList :=
  let s1 := mkVL (vl_data vl) i (vl_newest vl) in
  let s2 := with_data s1 (alter (set_top top) i (vl_data s1)) in
  let s3 := with_data s2 (alter (set_filesize size) i (vl_data s2)) in
  let s4 := with_data s3 (alter (activate version) i (vl_data s3)) in
  [s1; s2; s3; s4; mkVL (vl_data s4) i (Some i)].

(** [None] when all entries are in use. *)
Definition try_allocate_entry (top size version : Z) (vl : VersionList) : result (option VersionList) :=
  match alloc_index vl with
  | None => Ok None
  | Some i =>
      match vl_data vl !! i with
      | None => Throw OutOfRange
      | Some rc =>
          if (count_frozen rc =? 0) && (count_live rc =? 0) && (count_full rc =? 0)
          then Ok (Some (List.last (alloc_trace vl i top size version) vl)) else Throw AssertionFailed
      end
  end.

Definition free_entry (r : ReadCount) : ReadCount :=
  deactivate (mkRC (rc_version r) (2 ^ 64 - 1) (2 ^ 64 - 1) (count_live r) (count_frozen r) (count_full r)).

Definition init_versioning (top filesize version : Z) (vl : VersionList) : result VersionList :=
  r ← try_allocate_entry top filesize version (mkVL (map deactivate (vl_data vl)) 0 None);
  match r with Some vl => Ok vl | None => Throw OutOfRange end.

(** [TopRefMap], a map from versions to the top reference and logical file size,
    as its entries in key order. *)
Abbreviation TopRefMap := (list (Z * (Z * Z))).

Fixpoint top_refs_emplace (v : Z) (info : Z * Z) (m : TopRefMap) : TopRefMap :=
  match m with
  | [] => [(v, info)]
  | (v', info') :: m' =>
      if v <? v' then (v, info) :: m else if v =? v' then m else (v', info') :: top_refs_emplace v info m'
  end.

Definition max_version : Z := 2 ^ 64 - 1.

(** The oldest version with a full lock. *)
Definition oldest_full (l : list ReadCount) : Z :=
  fold_left (fun o r => if is_active r then
                          if negb (count_full r =? 0) then if rc_version r <? o then rc_version r else o else o
                        else o) l max_version.

Definition reachable_entry (oldest_full_v : Z) (r : ReadCount) : bool :=
  negb (count_frozen r =? 0) || negb (count_live r =? 0) || (oldest_full_v <=? rc_version r).

Definition collect_top_refs (oldest_full_v : Z) (l : list ReadCount) : TopRefMap :=
  fold_left (fun m r => if is_active r && reachable_entry oldest_full_v r
                        then top_refs_emplace (rc_version r) (rc_current_top r, rc_filesize r) m else m) l [].

Definition oldest_live (oldest_full_v : Z) (l : list ReadCount) : Z :=
  fold_left (fun o r => if is_active r && (negb (count_live r =? 0) || (oldest_full_v <=? rc_version r))
                        then if rc_version r <? o then rc_version r else o else o) l max_version.

Definition becomes_unreachable (oldest_full_v : Z) (r : ReadCount) : bool :=
  is_active r && ((count_frozen r =? 0) && (count_live r =? 0) && (rc_version r <? oldest_full_v)).

Record Purged := mkPurged {
  p_oldest_live : Z;
  p_top_refs : TopRefMap;
  p_any_new_unreachables : bool;
  p_list : VersionList
}.

(** An entry that a crash left half written is dropped. *)
Definition repair (vl : VersionList) : list ReadCount :=
  if bool_decide (vl_newest vl = Some (vl_allocating vl)) then vl_data vl
  else alter deactivate (vl_allocating vl) (vl_data vl).

Definition purge_versions (vl : VersionList) : result Purged :=
  let data := repair vl in
  let oldest_full_v := oldest_full data in
  let top_refs := collect_top_refs oldest_full_v data in
  let oldest_live_v := oldest_live oldest_full_v data in
  match top_refs with
  | [] => Throw AssertionFailed
  | (oldest_v, _) :: _ =>
      if match vl_newest vl ≫= (data !!.) with Some r => becomes_unreachable oldest_full_v r | None => false end
      then Throw AssertionFailed else
      if (oldest_v =? max_version) || (oldest_live_v =? max_version) then Throw AssertionFailed else
      Ok (mkPurged oldest_live_v top_refs
            (existsb (fun r => becomes_unreachable oldest_full_v r && (oldest_v <? rc_version r)) data)
            (with_data vl (map (fun r => if becomes_unreachable oldest_full_v r then free_entry r else r) data)))
  end.

(** ** Read locks *)

Inductive LockType := Frozen | Live | Full.

#[export] Instance LockType_eq_dec : EqDecision LockType.
Proof. solve_decision. Defined.

Record ReadLockInfo := mkLock {
  m_version : Z;
  m_reader_idx : nat;
  m_top_ref : Z;
  m_file_size : Z;
  m_type : LockType
}.

#[export] Instance ReadLockInfo_eq_dec : EqDecision ReadLockInfo.
Proof. solve_decision. Defined.

Definition field_for_type (r : ReadCount) (t : LockType) : Z :=
  match t with Frozen => count_frozen r | Live => count_live r | Full => count_full r end.

Definition set_field (t : LockType) (n : Z) (r : ReadCount) : ReadCount :=
  match t with
  | Frozen => mkRC (rc_version r) (rc_filesize r) (rc_current_top r) (count_live r) n (count_full r)
  | Live => mkRC (rc_version r) (rc_filesize r) (rc_current_top r) n (count_frozen r) (count_full r)
  | Full => mkRC (rc_version r) (rc_filesize r) (rc_current_top r) (count_live r) (count_frozen r) n
  end.

Definition populate_read_lock (idx : nat) (r : ReadCount) (t : LockType) : ReadLockInfo * ReadCount :=
  (mkLock (rc_version r) idx (rc_current_top r) (rc_filesize r) t, set_field t (u32 (field_for_type r t + 1)) r).

(** [try_grab_local_read_lock]; [newest] is the index the list shows at that
    moment. *)
Definition try_grab_local_read_lock (newest : option nat) (local : list ReadCount) (t : LockType)
    (version_id : option (Z * nat)) : option (ReadLockInfo * list ReadCount) :=
  match (match version_id with Some (_, i) => Some i | None => newest end) with
  | None => None
  | Some index =>
      match local !! index with
      | None => None
      | Some r =>
          if negb (is_active r) then None else
          if match version_id with Some (v, _) => negb (rc_version r =? v) | None => false end then None else
          if field_for_type r t =? 0 then None else
          let '(read_lock, r) := populate_read_lock index r t in
          Some (read_lock, <[index := r]> local)
      end
  end.

(** The part of [grab_read_lock] under the inter-process mutex. *)
Definition grab_shared (vl : VersionList) (t : LockType) (version_id : option (Z * nat)) :
    result (ReadLockInfo * VersionList) :=
  match vl_newest vl with
  | None => Throw AssertionFailed
  | Some newest =>
      let idx := match version_id with Some (_, i) => i | None => newest end in
      match vl_data vl !! idx with
      | None => Throw OutOfRange
      | Some r =>
          if match version_id with Some (v, _) => negb (v =? rc_version r) | None => false end
          then Throw (BadVersion (match version_id with Some (v, _) => v | None => max_version end)) else
          if negb (idx =? newest)%nat &&
             (bool_decide (t = Frozen) && (count_frozen r =? 0) && (count_live r =? 0) ||
              negb (bool_decide (t = Frozen)) && (count_live r =? 0))
          then Throw (BadVersion (match version_id with Some (v, _) => v | None => max_version end)) else
          let '(read_lock, r) := populate_read_lock idx r t in
          Ok (read_lock, with_data vl (<[idx := r]> (vl_data vl)))
      end
  end.

Definition grow_local_cache (new_size : nat) (local : list ReadCount) : list ReadCount :=
  local ++ replicate (new_size - length local) zero_rc.

(** The last part of [grab_read_lock]: the cache learns of the lock. *)
Definition record_local (read_lock : ReadLockInfo) (local : list ReadCount) : list ReadCount :=
  alter (fun r2 =>
    let r2 := if is_active r2 then r2
              else mkRC (m_version read_lock) (m_file_size read_lock) (m_top_ref read_lock) 0 0 0 in
    set_field (m_type read_lock) 1 r2)
    (m_reader_idx read_lock) (grow_local_cache (S (m_reader_idx read_lock)) local).

(** The part of [release_read_lock] on the cache; [true] when the shared list has
    to be told. *)
Definition release_local (read_lock : ReadLockInfo) (local : list ReadCount) : list ReadCount * bool :=
  match local !! m_reader_idx read_lock with
  | None => (local, true)
  | Some r =>
      let f := u32 (field_for_type r (m_type read_lock) - 1) in
      let r := set_field (m_type read_lock) f r in
      if 0 <? f then (<[m_reader_idx read_lock := r]> local, false) else
      let r := if (count_live r =? 0) && (count_full r =? 0) && (count_frozen r =? 0)
               then activate 0 r else r in
      (<[m_reader_idx read_lock := r]> local, true)
  end.

Definition release_shared (read_lock : ReadLockInfo) (vl : VersionList) : VersionList :=
  with_data vl (alter (fun r => set_field (m_type read_lock) (u32 (field_for_type r (m_type read_lock) - 1)) r)
                  (m_reader_idx read_lock) (vl_data vl)).

Definition get_version_id_of_latest_snapshot (local : list ReadCount) (vl : VersionList) : option (Z * nat) :=
  match vl_newest vl with
  | None => None
  | Some index =>
      match local !! index with
      | Some r => if is_active r then Some (rc_version r, index) else
                    (fun r => (rc_version r, index)) <$> vl_data vl !! index
      | None => (fun r => (rc_version r, index)) <$> vl_data vl !! index
      end
  end.

Definition add_version (new_top_ref new_file_size new_version : Z) (vl : VersionList) : result VersionList :=
  r ← try_allocate_entry new_top_ref new_file_size new_version vl;
  match r with
  | Some vl => Ok vl
  | None =>
      r ← try_allocate_entry new_top_ref new_file_size new_version (reserve (entries vl + 32) vl);
      match r with Some vl => Ok vl | None => Throw AssertionFailed end
  end.

(** ** A session participant *)

(** What a participant is in the middle of. *)
Inductive Pending :=
| Idle
| Grabbing (t : LockType) (version_id : option (Z * nat))
| Releasing (read_lock : ReadLockInfo).

(** [db_held] are the locks its transactions hold; [m_local_locks_held] is the list
    [DB] keeps to find them. *)
Record Participant := mkPart {
  m_local_readers : list ReadCount;
  m_local_locks_held : list ReadLockInfo;
  db_held : list ReadLockInfo;
  db_pending : Pending
}.

Definition new_participant : Participant := mkPart [] [] [] Idle.

Definition add_lock (l : ReadLockInfo) (local : list ReadCount) (P : Participant) : Participant :=
  mkPart local (m_local_locks_held P ++ [l]) (l :: db_held P) Idle.

(** [DB::grab_read_lock] up to the look at the cache, and the rest. *)
Definition grab_start (newest : option nat) (t : LockType) (version_id : option (Z * nat)) (P : Participant) : Participant :=
  match try_grab_local_read_lock newest (m_local_readers P) t version_id with
  | Some (l, local) => add_lock l local P
  | None => mkPart (m_local_readers P) (m_local_locks_held P) (db_held P) (Grabbing t version_id)
  end.

Definition grab_finish (t : LockType) (version_id : option (Z * nat)) (vl : VersionList) (P : Participant) :
    result (Participant * VersionList) :=
  '(l, vl) ← grab_shared vl t version_id;
  Ok (add_lock l (record_local l (m_local_readers P)) P, vl).

Definition set_idle (P : Participant) : Participant :=
  mkPart (m_local_readers P) (m_local_locks_held P) (db_held P) Idle.

(** The linear search with move-last-over of [do_release_read_lock]; it compares
    versions only. *)
Definition move_last_over (j : nat) (l : list ReadLockInfo) : list ReadLockInfo :=
  match l !! (length l - 1)%nat with Some x => take (length l - 1) (<[j := x]> l) | None => l end.

Definition untrack (version : Z) (l : list ReadLockInfo) : option (list ReadLockInfo) :=
  match list_find (fun x => m_version x = version) l with
  | Some (j, _) => Some (move_last_over j l)
  | None => None
  end.

Definition remove_one (l : ReadLockInfo) (held : list ReadLockInfo) : list ReadLockInfo :=
  match list_find (fun x => x = l) held with
  | Some (j, _) => list_erase_range j (S j) held
  | None => held
  end.

Definition release_start (l : ReadLockInfo) (P : Participant) : Participant :=
  match untrack (m_version l) (m_local_locks_held P) with
  | None => mkPart (m_local_readers P) (m_local_locks_held P) (remove_one l (db_held P)) Idle
  | Some tracked =>
      let '(local, tell) := release_local l (m_local_readers P) in
      mkPart local tracked (remove_one l (db_held P)) (if tell then Releasing l else Idle)
  end.

(** [release_all_read_locks], when the participant closes: the locks of the list. *)
Fixpoint release_each (tracked : list ReadLockInfo) (local : list ReadCount) (vl : VersionList) : list ReadCount * VersionList :=
  match tracked with
  | [] => (local, vl)
  | l :: tracked =>
      let '(local, tell) := release_local l local in
      release_each tracked local (if tell then release_shared l vl else vl)
  end.

Definition release_all_read_locks (P : Participant) (vl : VersionList) : Participant * VersionList :=
  let '(local, vl) := release_each (m_local_locks_held P) (m_local_readers P) vl in
  (mkPart local [] (db_held P) (db_pending P), vl).
