(* ===== verification/VersionRun.v ===== *)
(** * The session as a transition system

    Any number of participants grab and release read locks, clean up and add
    versions.  The invariant ties the three books that count locks: those the
    transactions hold, the cache of each participant, and the shared list. *)

From S2P Require Import Prelude VersionList.

Record Session := mkSession { s_list : VersionList; s_parts : list Participant }.

Definition put_part (p : nat) (P : Participant) (s : Session) : Session := mkSession (s_list s) (<[p := P]> (s_parts s)).

(** A write transaction is bound to the newest snapshot with a live lock. *)
Definition writer (P : Participant) (vl : VersionList) : Prop :=
  exists l, l ∈ db_held P /\ m_type l = Live /\ vl_newest vl = Some (m_reader_idx l).

(** Counters are 32 bits wide: a participant holds fewer than [2^32] locks, and a
    session has fewer than [2^32] participants. *)
Definition limit : Z := 2 ^ 32.

Inductive vstep : Session -> Session -> Prop :=
| vs_join s :
    Z.of_nat (length (s_parts s)) + 1 < limit ->
    vstep s (mkSession (s_list s) (s_parts s ++ [new_participant]))
| vs_grab_start s p P t vid :
    s_parts s !! p = Some P -> db_pending P = Idle -> Z.of_nat (length (db_held P)) + 1 < limit ->
    vstep s (put_part p (grab_start (vl_newest (s_list s)) t vid P) s)
| vs_grab_finish s p P t vid P' vl' :
    s_parts s !! p = Some P -> db_pending P = Grabbing t vid ->
    grab_finish t vid (s_list s) P = Ok (P', vl') ->
    vstep s (mkSession vl' (<[p := P']> (s_parts s)))
| vs_grab_refused s p P t vid e :
    s_parts s !! p = Some P -> db_pending P = Grabbing t vid ->
    grab_finish t vid (s_list s) P = Throw e ->
    vstep s (put_part p (set_idle P) s)
| vs_release_start s p P l :
    s_parts s !! p = Some P -> db_pending P = Idle -> l ∈ db_held P ->
    vstep s (put_part p (release_start l P) s)
| vs_release_finish s p P l :
    s_parts s !! p = Some P -> db_pending P = Releasing l ->
    vstep s (mkSession (release_shared l (s_list s)) (<[p := set_idle P]> (s_parts s)))
| vs_cleanup s p P r :
    s_parts s !! p = Some P -> writer P (s_list s) -> purge_versions (s_list s) = Ok r ->
    vstep s (mkSession (p_list r) (s_parts s))
| vs_add s p P n r top size version vl' :
    s_parts s !! p = Some P -> writer P (s_list s) ->
    vl_newest (s_list s) = Some n -> vl_data (s_list s) !! n = Some r -> rc_version r < version < max_version ->
    add_version top size version (s_list s) = Ok vl' ->
    vstep s (mkSession vl' (s_parts s)).

(** A session starts with one version and no participant. *)
Inductive vstart : Session -> Prop :=
| vstart_intro top size version data vl :
    0 < version < max_version -> data <> [] -> init_versioning top size version (mkVL data 0 None) = Ok vl ->
    vstart (mkSession vl []).

Inductive vreach : Session -> Prop :=
| vreach_start s : vstart s -> vreach s
| vreach_step s s' : vreach s -> vstep s s' -> vreach s'.

(** ** Counting locks *)

Definition same_slot (t : LockType) (i : nat) (l : ReadLockInfo) : bool :=
  bool_decide (m_type l = t) && bool_decide (m_reader_idx l = i).

Definition ind (b : bool) : Z := if b then 1 else 0.

(** The locks of type [t] on entry [i] a participant holds. *)
Definition cnt (t : LockType) (i : nat) (P : Participant) : Z := sumf (fun l => ind (same_slot t i l)) (db_held P).

Definition releasing (t : LockType) (i : nat) (P : Participant) : Z :=
  match db_pending P with Releasing l => ind (same_slot t i l) | _ => 0 end.

(** What a participant accounts for in the shared list. *)
Definition share (t : LockType) (i : nat) (P : Participant) : Z := ind (0 <? cnt t i P) + releasing t i P.

Definition field_at (t : LockType) (i : nat) (l : list ReadCount) : Z :=
  match l !! i with Some r => field_for_type r t | None => 0 end.

(** The entry [r] describes the snapshot of lock [l]. *)
Definition describes (r : ReadCount) (l : ReadLockInfo) : Prop :=
  rc_version r = m_version l /\ rc_current_top r = m_top_ref l /\ rc_filesize r = m_file_size l /\ m_version l <> 0.

Definition pinned (vl : VersionList) (l : ReadLockInfo) : Prop :=
  exists r, vl_data vl !! m_reader_idx l = Some r /\ describes r l.

(** Whether a participant may hold a lock on [l]'s entry: held or being released. *)
Definition has_lock (P : Participant) (l : ReadLockInfo) : Prop := l ∈ db_held P \/ db_pending P = Releasing l.

(** A request that missed the cache finds no lock of its own there later. *)
Definition request_ok (vl : VersionList) (P : Participant) : Prop :=
  match db_pending P with
  | Grabbing t None => forall n, vl_newest vl = Some n -> cnt t n P = 0
  | Grabbing t (Some (v, i)) => cnt t i P = 0 \/ exists l, l ∈ db_held P /\ m_reader_idx l = i /\ m_version l <> v
  | Releasing l => cnt (m_type l) (m_reader_idx l) P = 0
  | Idle => True
  end.

Definition grabbing (P : Participant) : Z := match db_pending P with Grabbing _ _ => 1 | _ => 0 end.

Record part_ok (vl : VersionList) (P : Participant) : Prop := {
  po_counts : forall t i, field_at t i (m_local_readers P) = cnt t i P;
  po_idle : forall i r, m_local_readers P !! i = Some r -> (forall t, cnt t i P = 0) -> rc_version r = 0;
  po_cache : forall l, l ∈ db_held P -> exists r, m_local_readers P !! m_reader_idx l = Some r /\ describes r l;
  po_tracked : map m_version (m_local_locks_held P) ≡ₚ map m_version (db_held P);
  po_few : Z.of_nat (length (db_held P)) + grabbing P < limit;
  po_pinned : forall l, has_lock P l -> pinned vl l;
  po_request : request_ok vl P
}.

(** The newest version is the largest, and versions tell entries apart. *)
Record list_ok (vl : VersionList) : Prop := {
  lo_newest : exists r, vl_newest vl = Some (vl_allocating vl) /\ vl_data vl !! vl_allocating vl = Some r /\ 0 < rc_version r < max_version /\
    forall i r', vl_data vl !! i = Some r' -> rc_version r' <= rc_version r;
  lo_range : forall i r, vl_data vl !! i = Some r -> 0 <= rc_version r;
  lo_unique : forall i j r r', vl_data vl !! i = Some r -> vl_data vl !! j = Some r' ->
    rc_version r = rc_version r' -> rc_version r <> 0 -> i = j
}.

Record sinv (s : Session) : Prop := {
  si_list : list_ok (s_list s);
  si_parts : Forall (part_ok (s_list s)) (s_parts s);
  si_counts : forall t i, field_at t i (vl_data (s_list s)) = sumf (share t i) (s_parts s);
  si_few : Z.of_nat (length (s_parts s)) < limit
}.

(** ** Lemmas: fields *)

Lemma field_set t t' n r : field_for_type (set_field t n r) t' = if decide (t = t') then n else field_for_type r t'.
Proof. by destruct t, t'. Qed.

Lemma set_field_version t n r : rc_version (set_field t n r) = rc_version r.
Proof. by destruct t. Qed.
Lemma set_field_top t n r : rc_current_top (set_field t n r) = rc_current_top r.
Proof. by destruct t. Qed.
Lemma set_field_size t n r : rc_filesize (set_field t n r) = rc_filesize r.
Proof. by destruct t. Qed.

Lemma describes_set t n r l : describes (set_field t n r) l <-> describes r l.
Proof. unfold describes. by rewrite set_field_version, set_field_top, set_field_size. Qed.

Lemma ind_range b : 0 <= ind b <= 1.
Proof. by destruct b. Qed.

Lemma cnt_nonneg t i P : 0 <= cnt t i P.
Proof. apply sumf_nonneg. intros. apply ind_range. Qed.

Lemma cnt_le t i P : cnt t i P <= Z.of_nat (length (db_held P)).
Proof. unfold cnt. pose proof (sumf_le (fun l => ind (same_slot t i l)) 1 (db_held P) (fun l => proj2 (ind_range _))). lia. Qed.

Lemma same_slot_true t i l : same_slot t i l = true <-> m_type l = t /\ m_reader_idx l = i.
Proof. unfold same_slot. by rewrite andb_true_iff, !bool_decide_eq_true. Qed.

Lemma same_slot_self l : same_slot (m_type l) (m_reader_idx l) l = true.
Proof. by apply same_slot_true. Qed.

Lemma cnt_pos l P : l ∈ db_held P -> 0 < cnt (m_type l) (m_reader_idx l) P.
Proof.
  intros Hl. pose proof (sumf_elem (fun l0 => ind (same_slot (m_type l) (m_reader_idx l) l0)) l (db_held P) (fun _ => proj1 (ind_range _)) Hl) as H.
  cbn beta in H. rewrite same_slot_self in H. cbn [ind] in H. unfold cnt. lia.
Qed.

Lemma cnt_witness t i P : 0 < cnt t i P -> exists l, l ∈ db_held P /\ m_type l = t /\ m_reader_idx l = i.
Proof.
  unfold cnt. induction (db_held P) as [|l held IH]; cbn [sumf]; [lia|]. intros H.
  destruct (same_slot t i l) eqn:E.
  - apply same_slot_true in E as [<- <-]. exists l. split; [apply list_elem_of_here|done].
  - cbn [ind] in H. destruct IH as (l' & Hl' & H'); [lia|]. exists l'. split; [by apply list_elem_of_further|done].
Qed.

Lemma share_range vl t i P : part_ok vl P -> 0 <= share t i P <= 1.
Proof.
  intros HP. unfold share, releasing. pose proof (ind_range (0 <? cnt t i P)). pose proof (po_request vl P HP) as Hr. unfold request_ok in Hr.
  destruct (db_pending P) as [|t' v'|l]; try lia. destruct (same_slot t i l) eqn:E; cbn [ind]; [|lia].
  apply same_slot_true in E as [<- <-]. rewrite Hr. cbn. lia.
Qed.

Lemma has_lock_share vl l P : part_ok vl P -> has_lock P l -> share (m_type l) (m_reader_idx l) P = 1.
Proof.
  intros HP H. pose proof (share_range vl (m_type l) (m_reader_idx l) P HP). enough (1 <= share (m_type l) (m_reader_idx l) P) by lia.
  unfold share, releasing. destruct H as [H|H].
  - pose proof (cnt_pos l P H). rewrite (proj2 (Z.ltb_lt _ _)) by lia. cbn [ind].
    destruct (db_pending P) as [| |l']; try lia. pose proof (ind_range (same_slot (m_type l) (m_reader_idx l) l')). lia.
  - rewrite H, same_slot_self. pose proof (ind_range (0 <? cnt (m_type l) (m_reader_idx l) P)). cbn [ind]. lia.
Qed.

Lemma shares_bound vl t i ps : Forall (part_ok vl) ps -> 0 <= sumf (share t i) ps <= Z.of_nat (length ps).
Proof.
  induction 1 as [|P ps HP Hps IH]; cbn [sumf length]; [lia|]. pose proof (share_range vl t i P HP). lia.
Qed.

(** A lock is counted in the shared list. *)
Lemma locked_field s P l : sinv s -> P ∈ s_parts s -> has_lock P l -> 0 < field_at (m_type l) (m_reader_idx l) (vl_data (s_list s)).
Proof.
  intros [_ Hp Hc _] HP Hl. rewrite Hc. pose proof (proj1 (List.Forall_forall _ _) Hp P (proj1 (list_elem_of_In _ _) HP)) as HPo.
  pose proof (has_lock_share _ l P HPo Hl) as H1. apply list_elem_of_lookup in HP as [p HP].
  rewrite <- (take_drop_middle _ _ _ HP), sumf_app, sumf_cons, H1.
  pose proof (shares_bound _ (m_type l) (m_reader_idx l) _ (Forall_take _ p _ Hp)).
  pose proof (shares_bound _ (m_type l) (m_reader_idx l) _ (Forall_drop _ (S p) _ Hp)). lia.
Qed.

(** ** Lemmas: participants *)

Lemma parts_lookup vl ps p P : Forall (part_ok vl) ps -> ps !! p = Some P -> part_ok vl P.
Proof. intros H HP. exact (Forall_lookup_1 _ _ _ _ H HP). Qed.

(** A participant that does not move only cares that its locks stay pinned. *)
Lemma part_ok_mono vl vl' P : part_ok vl P -> (forall l, has_lock P l -> pinned vl l -> pinned vl' l) ->
  request_ok vl' P -> part_ok vl' P.
Proof. intros [H1 H2 H3 H4 H5 H6 H7] Hpin Hreq. split; auto. Qed.

Lemma request_newest vl vl' P : vl_newest vl' = vl_newest vl -> request_ok vl P -> request_ok vl' P.
Proof. intros E. unfold request_ok. by rewrite E. Qed.

(** One participant moves. *)
Lemma sinv_move s p P P' vl' : sinv s -> s_parts s !! p = Some P ->
  list_ok vl' -> vl_newest vl' = vl_newest (s_list s) ->
  (forall l, pinned (s_list s) l -> pinned vl' l) -> part_ok vl' P' ->
  (forall t i, field_at t i (vl_data vl') = field_at t i (vl_data (s_list s)) - share t i P + share t i P') ->
  sinv (mkSession vl' (<[p := P']> (s_parts s))).
Proof.
  intros [Hl Hp Hc Hf] HP Hl' Hn Hpin HP' Hd. split; cbn [s_list s_parts]; [done| | |by rewrite length_insert].
  - apply Forall_insert; [|done]. eapply Forall_impl; [|exact Hp]. intros Q HQ.
    apply (part_ok_mono (s_list s)); [done|auto|]. apply (request_newest (s_list s)); [done|apply HQ].
  - intros t i. rewrite (sumf_insert _ _ P), Hd, Hc by done. lia.
Qed.

(** One participant moves on its cache only. *)
Lemma sinv_move_local s p P P' : sinv s -> s_parts s !! p = Some P -> part_ok (s_list s) P' ->
  (forall t i, share t i P' = share t i P) -> sinv (put_part p P' s).
Proof.
  intros Hs HP HP' Hsh. apply (sinv_move s p P); try done.
  - apply Hs.
  - intros t i. rewrite Hsh. lia.
Qed.

Lemma local_cache vl P i r t : part_ok vl P -> m_local_readers P !! i = Some r -> 0 < cnt t i P ->
  exists l, l ∈ db_held P /\ m_type l = t /\ m_reader_idx l = i /\ describes r l.
Proof.
  intros HP Hi Hc. destruct (cnt_witness t i P Hc) as (l & Hl & Ht & Hx). exists l. split; [done|]. split; [done|]. split; [done|].
  destruct (po_cache vl P HP l Hl) as (r' & Hr' & Hd). rewrite Hx, Hi in Hr'. by injection Hr' as <-.
Qed.

Lemma field_at_insert t i j r (l : list ReadCount) : (j < length l)%nat ->
  field_at t i (<[j := r]> l) = if decide (i = j) then field_for_type r t else field_at t i l.
Proof.
  intros Hj. unfold field_at. destruct (decide (i = j)) as [->|Hne]; [by rewrite list_lookup_insert_eq|].
  by rewrite list_lookup_insert_ne.
Qed.

Lemma cnt_add_lock t i l local P : cnt t i (add_lock l local P) = ind (same_slot t i l) + cnt t i P.
Proof. done. Qed.

Lemma share_add_lock t i l local P : match db_pending P with Releasing _ => False | _ => True end ->
  share t i (add_lock l local P) = if same_slot t i l then 1 else share t i P.
Proof.
  intros Hp. unfold share, releasing. cbn [add_lock db_pending]. rewrite cnt_add_lock. pose proof (cnt_nonneg t i P).
  destruct (same_slot t i l); cbn [ind].
  - by rewrite (proj2 (Z.ltb_lt _ _)) by lia.
  - rewrite Z.add_0_l. destruct (db_pending P); done.
Qed.

(** A cache that agrees with the locks held. *)
Record cache_ok (local : list ReadCount) (P : Participant) : Prop := {
  co_counts : forall t i, field_at t i local = cnt t i P;
  co_idle : forall i r, local !! i = Some r -> (forall t, cnt t i P = 0) -> rc_version r = 0;
  co_cache : forall l, l ∈ db_held P -> exists r, local !! m_reader_idx l = Some r /\ describes r l
}.

Lemma part_cache vl P : part_ok vl P -> cache_ok (m_local_readers P) P.
Proof. intros [H1 H2 H3 _ _ _ _]. by split. Qed.

Lemma add_lock_counts t i l r base P : base !! m_reader_idx l = Some r -> (forall t i, field_at t i base = cnt t i P) ->
  field_at t i (<[m_reader_idx l := set_field (m_type l) (cnt (m_type l) (m_reader_idx l) P + 1) r]> base) =
  ind (same_slot t i l) + cnt t i P.
Proof.
  intros Hb Hc. rewrite field_at_insert by by apply lookup_lt_Some in Hb. destruct (decide (i = m_reader_idx l)) as [->|Hi].
  - rewrite field_set. destruct (decide (m_type l = t)) as [<-|Ht]; [rewrite same_slot_self; cbn; lia|].
    assert (same_slot t (m_reader_idx l) l = false) as -> by (apply not_true_iff_false; rewrite same_slot_true; tauto).
    rewrite <- Hc. unfold field_at. by rewrite Hb.
  - assert (same_slot t i l = false) as -> by (apply not_true_iff_false; rewrite same_slot_true; intros [_ ?]; congruence). apply Hc.
Qed.

(** One more lock in the cache. *)
Lemma add_lock_cache l r base P : base !! m_reader_idx l = Some r -> describes r l ->
  (forall t i, field_at t i base = cnt t i P) ->
  (forall i r', i <> m_reader_idx l -> base !! i = Some r' -> (forall t, cnt t i P = 0) -> rc_version r' = 0) ->
  (forall l', l' ∈ db_held P -> exists r', base !! m_reader_idx l' = Some r' /\ describes r' l') ->
  let local := <[m_reader_idx l := set_field (m_type l) (cnt (m_type l) (m_reader_idx l) P + 1) r]> base in
  cache_ok local (add_lock l local P).
Proof.
  intros Hb Hd Hc Hi Hl. cbv zeta. pose proof (lookup_lt_Some _ _ _ Hb) as Hlen. split.
  - intros t i. by apply add_lock_counts.
  - intros i r' Hr' Hz. destruct (decide (i = m_reader_idx l)) as [->|Hne].
    + specialize (Hz (m_type l)). rewrite cnt_add_lock, same_slot_self in Hz. pose proof (cnt_nonneg (m_type l) (m_reader_idx l) P).
      cbn in Hz. lia.
    + rewrite list_lookup_insert_ne in Hr' by congruence. apply (Hi i); [done..|]. intros t. specialize (Hz t). rewrite cnt_add_lock in Hz.
      pose proof (ind_range (same_slot t i l)). pose proof (cnt_nonneg t i P). lia.
  - intros l' Hl'. cbn in Hl'. destruct (decide (m_reader_idx l' = m_reader_idx l)) as [E|E].
    + rewrite E, list_lookup_insert_eq by done. eexists. split; [done|]. apply describes_set.
      apply elem_of_cons in Hl' as [->|Hl']; [done|]. destruct (Hl l' Hl') as (r' & Hr' & Hd'). rewrite E, Hb in Hr'. by injection Hr' as <-.
    + apply elem_of_cons in Hl' as [->|Hl']; [done|]. rewrite list_lookup_insert_ne by congruence. by apply Hl.
Qed.

Lemma add_lock_ok vl P l local : part_ok vl P -> cache_ok local (add_lock l local P) ->
  Z.of_nat (length (db_held P)) + 1 < limit -> pinned vl l -> part_ok vl (add_lock l local P).
Proof.
  intros HP [H1 H2 H3] Hfew Hpin. split; [done..| | | |done].
  - cbn [add_lock m_local_locks_held db_held]. rewrite map_app. cbn [map]. rewrite (Permutation_app_comm _ [_]). cbn.
    by rewrite (po_tracked vl P HP).
  - unfold grabbing. cbn [add_lock db_held db_pending length]. lia.
  - intros l' [Hl'|Hl']; [|done]. cbn in Hl'. apply elem_of_cons in Hl' as [->|Hl']; [done|]. apply (po_pinned vl P HP). by left.
Qed.

(** A lock taken from the cache. *)
Lemma grab_local_ok vl P t vid newest l local : part_ok vl P -> db_pending P = Idle ->
  Z.of_nat (length (db_held P)) + 1 < limit ->
  try_grab_local_read_lock newest (m_local_readers P) t vid = Some (l, local) ->
  part_ok vl (add_lock l local P) /\ forall t i, share t i (add_lock l local P) = share t i P.
Proof.
  intros HP Hpend Hfew Hg. unfold try_grab_local_read_lock in Hg.
  destruct (match vid with Some (_, i) => Some i | None => newest end) as [idx|]; [|done].
  destruct (m_local_readers P !! idx) as [r|] eqn:Ei; [|done]. destruct (is_active r); [|done]. cbn [negb] in Hg.
  destruct (match vid with Some (v, _) => _ | None => _ end); [done|].
  destruct (Z.eqb_spec (field_for_type r t) 0) as [|Hne]; [done|]. injection Hg as Hl <-.
  pose proof (part_cache vl P HP) as [Hc1 Hc2 Hc3].
  pose proof (Hc1 t idx) as Hct. unfold field_at in Hct. rewrite Ei in Hct.
  pose proof (cnt_nonneg t idx P) as H0. pose proof (cnt_le t idx P) as Hle.
  destruct (local_cache vl P idx r t HP Ei ltac:(lia)) as (l0 & Hl0 & Ht0 & Hx0 & Hd0).
  assert (Hd : describes r l) by (destruct Hd0 as (E1 & _ & _ & E4); rewrite <- Hl; repeat split; cbn; congruence).
  assert (m_type l = t /\ m_reader_idx l = idx) as [Etl Eil] by (by rewrite <- Hl).
  rewrite Hct, u32_small by (unfold limit in *; lia).
  assert (Hco := add_lock_cache l r (m_local_readers P) P). rewrite Eil, Etl in Hco.
  split.
  - apply add_lock_ok; [done| |done|].
    + apply Hco; [done..| |done]. intros i r' _. apply Hc2.
    + destruct (po_pinned vl P HP l0 (or_introl Hl0)) as (rs & Hrs & Hds). exists rs. rewrite Eil, <- Hx0. split; [done|].
      destruct Hds as (E1 & E2 & E3 & E4), Hd0 as (F1 & F2 & F3 & F4), Hd as (G1 & G2 & G3 & G4). repeat split; congruence.
  - intros t' i'. rewrite share_add_lock by by rewrite Hpend. destruct (same_slot t' i' l) eqn:E; [|done].
    apply same_slot_true in E as [<- <-]. symmetry. rewrite <- Ht0, <- Hx0 in *. rewrite Etl, Eil. by apply (has_lock_share vl l0 P HP); left.
Qed.

(** A cached entry without an active version has no lock. *)
Lemma inactive_cnt P local i r t : cache_ok local P -> local !! i = Some r -> rc_version r = 0 -> cnt t i P = 0.
Proof.
  intros [_ _ Hc] Hi Hv. destruct (Z.eq_dec (cnt t i P) 0) as [|Hne]; [done|]. pose proof (cnt_nonneg t i P).
  destruct (cnt_witness t i P ltac:(lia)) as (l & Hl & _ & Hx). destruct (Hc l Hl) as (r' & Hr' & Hd & _ & _ & Hd0).
  rewrite Hx, Hi in Hr'. injection Hr' as <-. congruence.
Qed.

Lemma inactive_version r : is_active r = false -> rc_version r = 0.
Proof. unfold is_active. by destruct (Z.eqb_spec (rc_version r) 0). Qed.

Lemma active_version r : is_active r = true <-> rc_version r <> 0.
Proof. unfold is_active. by destruct (Z.eqb_spec (rc_version r) 0). Qed.

Lemma active_cnt P local i r : cache_ok local P -> local !! i = Some r -> rc_version r <> 0 -> exists t, 0 < cnt t i P.
Proof.
  intros [_ Hz _] Hi Hv. pose proof (cnt_nonneg Frozen i P). pose proof (cnt_nonneg Live i P). pose proof (cnt_nonneg Full i P).
  destruct (decide (0 < cnt Frozen i P)); [by exists Frozen|]. destruct (decide (0 < cnt Live i P)); [by exists Live|].
  destruct (decide (0 < cnt Full i P)); [by exists Full|]. exfalso. apply Hv, (Hz i r Hi). intros []; lia.
Qed.

(** A request that misses the cache. *)
Lemma grab_miss_ok vl P t vid : part_ok vl P -> db_pending P = Idle -> Z.of_nat (length (db_held P)) + 1 < limit ->
  try_grab_local_read_lock (vl_newest vl) (m_local_readers P) t vid = None ->
  let P' := mkPart (m_local_readers P) (m_local_locks_held P) (db_held P) (Grabbing t vid) in
  part_ok vl P' /\ forall t i, share t i P' = share t i P.
Proof.
  intros HP Hpend Hfew Hg. cbv zeta. split; [|intros t' i'; unfold share, releasing; cbn; by rewrite Hpend].
  pose proof HP as [H1 H2 H3 H4 H5 H6 _]. split; [done..|unfold grabbing; cbn; lia| |].
  { intros l [Hl|Hl]; [|done]. apply H6. by left. }
  unfold request_ok. cbn [db_pending]. unfold try_grab_local_read_lock in Hg.
  assert (Hcnt : forall i, match m_local_readers P !! i with None => True | Some r => is_active r = false \/ field_for_type r t = 0 end -> cnt t i P = 0).
  { intros i Hi. destruct (m_local_readers P !! i) as [r|] eqn:Ei.
    - destruct Hi as [Hi|Hi].
      + exact (inactive_cnt P _ i r t (part_cache vl P HP) Ei (inactive_version r Hi)).
      + rewrite <- H1. unfold field_at. by rewrite Ei.
    - rewrite <- H1. unfold field_at. by rewrite Ei. }
  change (cnt t ?i (mkPart _ _ (db_held P) _)) with (cnt t i P). destruct vid as [[v i]|].
  - destruct (m_local_readers P !! i) as [r|] eqn:Ei; [|left; apply Hcnt; by rewrite Ei].
    destruct (is_active r) eqn:Ea; [|left; apply Hcnt; rewrite Ei; auto]. cbn [negb] in Hg.
    destruct (Z.eqb_spec (rc_version r) v) as [|Hv]; cbn [negb] in Hg.
    + destruct (Z.eqb_spec (field_for_type r t) 0); [|done]. left. apply Hcnt. rewrite Ei. auto.
    + destruct (Z.eq_dec (cnt t i P) 0) as [|Hne]; [by left|]. right. pose proof (cnt_nonneg t i P).
      destruct (local_cache vl P i r t HP Ei ltac:(lia)) as (l & Hl & _ & Hx & Hd & _). exists l. split; [done|]. split; [done|congruence].
  - intros n Hn. change (cnt t n (mkPart _ _ (db_held P) _)) with (cnt t n P). apply Hcnt. rewrite Hn in Hg. destruct (m_local_readers P !! n) as [r|] eqn:Ei; [|done].
    destruct (is_active r); [|by left]. cbn [negb] in Hg. destruct (Z.eqb_spec (field_for_type r t) 0); [by right|done].
Qed.

(** A counted entry is active. *)
Lemma counted_pinned s t i : sinv s -> field_at t i (vl_data (s_list s)) <> 0 ->
  exists P l, P ∈ s_parts s /\ has_lock P l /\ m_reader_idx l = i /\ m_type l = t.
Proof.
  intros [_ Hp Hc _] Hf. rewrite Hc in Hf. clear Hc. induction Hp as [|P ps HP Hps IH]; cbn [sumf] in Hf; [done|].
  destruct (Z.eq_dec (share t i P) 0) as [E|E].
  - destruct IH as (Q & l & HQ & H); [lia|]. exists Q, l. split; [by apply list_elem_of_further|done].
  - unfold share, releasing in E. destruct (Z.ltb_spec 0 (cnt t i P)) as [Hpos|].
    + destruct (cnt_witness t i P Hpos) as (l & Hl & Ht & Hx). exists P, l. split; [apply list_elem_of_here|]. split; [by left|done].
    + cbn [ind] in E. destruct (db_pending P) as [| |l] eqn:Ep; [done|done|]. destruct (same_slot t i l) eqn:Es; [|done].
      apply same_slot_true in Es as [Ht Hx]. exists P, l. split; [apply list_elem_of_here|]. split; [by right|done].
Qed.

Lemma counted_active s t i r : sinv s -> vl_data (s_list s) !! i = Some r -> field_for_type r t <> 0 -> rc_version r <> 0.
Proof.
  intros Hs Hi Hf. destruct (counted_pinned s t i Hs) as (P & l & HP & Hl & Hx & _); [unfold field_at; by rewrite Hi|].
  pose proof (proj1 (List.Forall_forall _ _) (si_parts s Hs) P (proj1 (list_elem_of_In _ _) HP)) as HPo.
  destruct (po_pinned _ P HPo l Hl) as (r' & Hr' & Hd & _ & _ & Hd0). rewrite Hx, Hi in Hr'. injection Hr' as <-. congruence.
Qed.

(** ** Lemmas: the shared list *)

(** A change of counts keeps the list in order, and every lock pinned. *)
Lemma list_ok_field vl i t n r : list_ok vl -> vl_data vl !! i = Some r ->
  let vl' := with_data vl (<[i := set_field t n r]> (vl_data vl)) in
  list_ok vl' /\ forall l, pinned vl l -> pinned vl' l.
Proof.
  intros [(rn & Hn & Hrn & Hv & Hmax) H2 H3] Hi. cbv zeta. pose proof (lookup_lt_Some _ _ _ Hi) as Hlen.
  assert (Hsame : forall j r', <[i := set_field t n r]> (vl_data vl) !! j = Some r' ->
    exists r0, vl_data vl !! j = Some r0 /\ rc_version r0 = rc_version r').
  { intros j r' Hj. destruct (decide (j = i)) as [->|].
    - rewrite list_lookup_insert_eq in Hj by done. injection Hj as <-. exists r. by rewrite set_field_version.
    - rewrite list_lookup_insert_ne in Hj by congruence. eauto. }
  assert (Hback : forall j r0, vl_data vl !! j = Some r0 ->
    exists r', <[i := set_field t n r]> (vl_data vl) !! j = Some r' /\ rc_version r' = rc_version r0 /\ forall l, describes r0 l -> describes r' l).
  { intros j r0 Hj. destruct (decide (j = i)) as [->|].
    - rewrite Hi in Hj. injection Hj as <-. exists (set_field t n r). rewrite list_lookup_insert_eq, set_field_version by done.
      split; [done|]. split; [done|]. intros l. apply describes_set.
    - exists r0. by rewrite list_lookup_insert_ne by congruence. }
  split; [split; cbn [with_data vl_data vl_newest vl_allocating]|].
  - destruct (Hback _ _ Hrn) as (r' & Hr' & Hv' & _). exists r'. rewrite Hv'. split; [done|]. split; [done|]. split; [done|].
    intros j rj Hj. destruct (Hsame j rj Hj) as (r0 & Hr0 & <-). by apply (Hmax j).
  - intros j rj Hj. destruct (Hsame j rj Hj) as (r0 & Hr0 & <-). by apply (H2 j).
  - intros j k rj rk Hj Hk. destruct (Hsame j rj Hj) as (r0 & Hr0 & <-), (Hsame k rk Hk) as (r1 & Hr1 & <-). by apply H3.
  - intros l (r0 & Hr0 & Hd). destruct (Hback _ _ Hr0) as (r' & Hr' & _ & Hd'). exists r'. split; [done|]. by apply Hd'.
Qed.

(** The lock a request takes from the shared list. *)
Lemma grab_shared_spec s p P t vid l vl' : sinv s -> s_parts s !! p = Some P -> db_pending P = Grabbing t vid ->
  grab_shared (s_list s) t vid = Ok (l, vl') ->
  exists r, vl_data (s_list s) !! m_reader_idx l = Some r /\ describes r l /\ m_type l = t /\
    cnt t (m_reader_idx l) P = 0 /\
    vl' = with_data (s_list s) (<[m_reader_idx l := set_field t (u32 (field_for_type r t + 1)) r]> (vl_data (s_list s))).
Proof.
  intros Hs HP Hpend Hg. pose proof (parts_lookup _ _ _ _ (si_parts s Hs) HP) as HPo.
  destruct (si_list s Hs) as [(rn & Hn & Hrn & Hv & _) _ _].
  unfold grab_shared in Hg. rewrite Hn in Hg. set (n := vl_allocating (s_list s)) in *.
  set (idx := match vid with Some (_, i) => i | None => n end) in Hg.
  destruct (vl_data (s_list s) !! idx) as [r|] eqn:Ei; [|done].
  destruct (match vid with Some (v, _) => negb (v =? rc_version r) | None => false end) eqn:Ev; [done|].
  destruct (negb (idx =? n)%nat && _) eqn:Eb; [done|]. injection Hg as <- <-. exists r. cbn [m_reader_idx m_type m_version].
  split; [done|]. assert (Hact : rc_version r <> 0).
  { destruct (Nat.eqb_spec idx n) as [E|E]; cbn [negb andb] in Eb; [rewrite E, Hrn in Ei; injection Ei as <-; lia|].
    apply orb_false_iff in Eb as [E1 E2]. case_bool_decide as Ef; cbn [andb negb] in E1, E2.
    - apply andb_false_iff in E1 as [E1|E1]; apply Z.eqb_neq in E1; [by apply (counted_active s Frozen idx)|by apply (counted_active s Live idx)].
    - apply Z.eqb_neq in E2. by apply (counted_active s Live idx). }
  split; [by repeat split|]. split; [done|]. split; [|done].
  pose proof (po_request _ P HPo) as Hr. unfold request_ok in Hr. rewrite Hpend in Hr. destruct vid as [[v i]|]; [|by apply Hr].
  destruct Hr as [|(l0 & Hl0 & Hx & Hne)]; [done|]. destruct (po_pinned _ P HPo l0 (or_introl Hl0)) as (r0 & Hr0 & Hd0 & _).
  cbn in idx. unfold idx in Ei. rewrite Hx, Ei in Hr0. injection Hr0 as <-. destruct (Z.eqb_spec v (rc_version r)); [congruence|done].
Qed.

Lemma grow_lookup n local i r : grow_local_cache n local !! i = Some r -> local !! i = Some r \/ (local !! i = None /\ r = zero_rc).
Proof.
  unfold grow_local_cache. intros H. apply lookup_app_Some in H as [H|[H1 H]]; [by left|]. right.
  apply lookup_replicate in H as [-> _]. split; [by apply lookup_ge_None|done].
Qed.

Lemma grow_lookup_old n local i r : local !! i = Some r -> grow_local_cache n local !! i = Some r.
Proof. intros H. unfold grow_local_cache. by apply lookup_app_l_Some. Qed.

Lemma grow_long n local : (n <= length (grow_local_cache n local))%nat.
Proof. unfold grow_local_cache. rewrite length_app, length_replicate. lia. Qed.

(** A larger cache agrees with the same locks. *)
Lemma grow_cache_ok n local P : cache_ok local P -> cache_ok (grow_local_cache n local) P.
Proof.
  intros [H1 H2 H3]. split.
  - intros t i. rewrite <- H1. unfold field_at. destruct (grow_local_cache n local !! i) as [r|] eqn:E.
    + apply grow_lookup in E as [->|[-> ->]]; [done|by destruct t].
    + destruct (local !! i) as [r|] eqn:E'; [|done]. by rewrite (grow_lookup_old n _ _ _ E') in E.
  - intros i r Hi Hz. apply grow_lookup in Hi as [Hi|[_ ->]]; [by apply (H2 i)|done].
  - intros l Hl. destruct (H3 l Hl) as (r & Hr & Hd). exists r. split; [by apply grow_lookup_old|done].
Qed.

(** The cache learns of a lock it knows nothing of. *)
Lemma record_local_ok vl P l r : part_ok vl P -> vl_data vl !! m_reader_idx l = Some r -> describes r l ->
  cnt (m_type l) (m_reader_idx l) P = 0 ->
  cache_ok (record_local l (m_local_readers P)) (add_lock l (record_local l (m_local_readers P)) P).
Proof.
  intros HP Hr Hd Hz. pose proof (grow_cache_ok (S (m_reader_idx l)) _ P (part_cache vl P HP)) as Hco. unfold record_local.
  set (base := grow_local_cache (S (m_reader_idx l)) (m_local_readers P)) in *.
  assert (Hlen : (m_reader_idx l < length base)%nat) by (pose proof (grow_long (S (m_reader_idx l)) (m_local_readers P)); unfold base; lia).
  destruct (lookup_lt_is_Some_2 base _ Hlen) as [r2 Hr2]. rewrite (alter_insert _ _ _ _ Hr2).
  set (r3 := if is_active r2 then r2 else mkRC (m_version l) (m_file_size l) (m_top_ref l) 0 0 0).
  assert (Hd3 : describes r3 l).
  { unfold r3. destruct (is_active r2) eqn:Ea; [|destruct Hd as (_ & _ & _ & Hd); by repeat split].
    apply active_version in Ea. destruct (active_cnt P base _ r2 Hco Hr2 Ea) as [t Ht].
    destruct (cnt_witness t _ P Ht) as (l0 & Hl0 & _ & Hx). destruct (co_cache base P Hco l0 Hl0) as (ra & Hra & Ha).
    rewrite Hx, Hr2 in Hra. injection Hra as <-. destruct (po_pinned vl P HP l0 (or_introl Hl0)) as (rb & Hrb & Hb).
    rewrite Hx, Hr in Hrb. injection Hrb as <-. destruct Ha as (A1 & A2 & A3 & A4), Hb as (B1 & B2 & B3 & B4), Hd as (D1 & D2 & D3 & D4). repeat split; congruence. }
  assert (Hf3 : forall t, field_for_type r3 t = cnt t (m_reader_idx l) P).
  { intros t. rewrite <- (co_counts base P Hco). unfold field_at, r3. rewrite Hr2. destruct (is_active r2) eqn:Ea; [done|].
    pose proof (inactive_cnt P base _ r2 t Hco Hr2 (inactive_version r2 Ea)) as Hc0. rewrite <- (co_counts base P Hco) in Hc0.
    unfold field_at in Hc0. rewrite Hr2 in Hc0. rewrite Hc0. by destruct t. }
  pose proof (add_lock_cache l r3 (<[m_reader_idx l := r3]> base) P) as Ha. cbv zeta in Ha. rewrite list_insert_insert_eq, Hz in Ha.
  apply Ha; [by rewrite list_lookup_insert_eq|done| | |].
  - intros t i. rewrite field_at_insert by done. destruct (decide (i = m_reader_idx l)) as [->|]; [done|apply Hco].
  - intros i r' Hne Hi. rewrite list_lookup_insert_ne in Hi by congruence. by apply (co_idle base P Hco).
  - intros l' Hl'. destruct (co_cache base P Hco l' Hl') as (r' & Hr' & Hd'). destruct (decide (m_reader_idx l' = m_reader_idx l)) as [E|E].
    + exists r3. rewrite E, list_lookup_insert_eq by done. split; [done|]. rewrite E, Hr2 in Hr'. injection Hr' as <-. unfold r3.
      destruct (is_active r2) eqn:Ea; [done|]. apply inactive_version in Ea. destruct Hd' as (D1 & _ & _ & D4). congruence.
    + exists r'. by rewrite list_lookup_insert_ne by congruence.
Qed.

Lemma sum_without p P vl t i ps : Forall (part_ok vl) ps -> ps !! p = Some P -> sumf (share t i) ps - share t i P + 1 <= Z.of_nat (length ps).
Proof.
  intros Hp HP. rewrite <- (take_drop_middle _ _ _ HP), sumf_app, sumf_cons, length_app. cbn [length].
  pose proof (shares_bound vl t i _ (Forall_take _ p _ Hp)). pose proof (shares_bound vl t i _ (Forall_drop _ (S p) _ Hp)). lia.
Qed.

Lemma field_in vl t i r : vl_data vl !! i = Some r -> field_at t i (vl_data vl) = field_for_type r t.
Proof. unfold field_at. by intros ->. Qed.

Lemma sinv_grab_finish s p P t vid P' vl' : sinv s -> s_parts s !! p = Some P -> db_pending P = Grabbing t vid ->
  grab_finish t vid (s_list s) P = Ok (P', vl') -> sinv (mkSession vl' (<[p := P']> (s_parts s))).
Proof.
  intros Hs HP Hpend Hg. pose proof (parts_lookup _ _ _ _ (si_parts s Hs) HP) as HPo. unfold grab_finish in Hg.
  destruct (grab_shared (s_list s) t vid) as [[l vl0]| |] eqn:Eg; [|done..]. cbn [mbind result_bind] in Hg. injection Hg as <- <-.
  destruct (grab_shared_spec s p P t vid l vl0 Hs HP Hpend Eg) as (r & Hr & Hd & Ht & Hz & ->).
  destruct (list_ok_field (s_list s) (m_reader_idx l) t (u32 (field_for_type r t + 1)) r (si_list s Hs) Hr) as [Hl' Hpin].
  pose proof (lookup_lt_Some _ _ _ Hr) as Hlen.
  assert (Hshare : share t (m_reader_idx l) P = 0) by (unfold share, releasing; rewrite Hz, Hpend; done).
  apply (sinv_move s p P); [done..| |].
  - apply add_lock_ok.
    + apply (part_ok_mono (s_list s)); [done|auto|]. apply (request_newest (s_list s)); [done|apply HPo].
    + rewrite <- Ht in Hz. by apply (record_local_ok (s_list s) P l r).
    + pose proof (po_few _ P HPo) as Hf. unfold grabbing in Hf. rewrite Hpend in Hf. lia.
    + apply Hpin. by exists r.
  - intros t' i'. rewrite share_add_lock by by rewrite Hpend. cbn [with_data vl_data]. rewrite field_at_insert by done.
    destruct (same_slot t' i' l) eqn:E.
    + apply same_slot_true in E as [<- <-]. rewrite decide_True by done. rewrite Ht, field_set, decide_True by done.
      rewrite Hshare, (field_in _ _ _ _ Hr). pose proof (sum_without p P _ t (m_reader_idx l) _ (si_parts s Hs) HP) as Hb.
      pose proof (shares_bound _ t (m_reader_idx l) _ (si_parts s Hs)) as Hb0. rewrite <- (si_counts s Hs), (field_in _ _ _ _ Hr) in Hb, Hb0.
      pose proof (si_few s Hs) as Hf. unfold limit in Hf. rewrite u32_small by lia. lia.
    + destruct (decide (i' = m_reader_idx l)) as [->|]; [|lia]. rewrite field_set, decide_False, (field_in _ _ _ _ Hr); [lia|].
      intros <-. rewrite <- Ht, same_slot_self in E. done.
Qed.

Lemma sinv_grab_refused s p P t vid : sinv s -> s_parts s !! p = Some P -> db_pending P = Grabbing t vid -> sinv (put_part p (set_idle P) s).
Proof.
  intros Hs HP Hpend. pose proof (parts_lookup _ _ _ _ (si_parts s Hs) HP) as HPo. apply (sinv_move_local s p P); [done..| |].
  - pose proof HPo as [H1 H2 H3 H4 H5 H6 H7]. unfold grabbing in H5. rewrite Hpend in H5. split; [done..|unfold grabbing; cbn; lia| |done].
    intros l [Hl|Hl]; [|done]. apply H6. by left.
  - intros t' i'. unfold share, releasing. cbn [set_idle db_pending]. by rewrite Hpend.
Qed.

(** ** Lemmas: release *)

Lemma cnt_perm t i l P Q : db_held P ≡ₚ l :: db_held Q -> cnt t i P = ind (same_slot t i l) + cnt t i Q.
Proof. intros H. unfold cnt. by rewrite (sumf_perm _ _ _ H). Qed.

Lemma remove_one_perm l held : l ∈ held -> held ≡ₚ l :: remove_one l held.
Proof.
  intros Hl. unfold remove_one. destruct (list_find_elem_of (fun x => x = l) held l Hl eq_refl) as [[j x] E]. rewrite E.
  apply list_find_Some in E as (Hj & -> & _). unfold list_erase_range. rewrite <- (take_drop_middle held j l Hj) at 1. by rewrite Permutation_middle.
Qed.

Lemma move_last_over_perm j x (l : list ReadLockInfo) : l !! j = Some x -> l ≡ₚ x :: move_last_over j l.
Proof.
  intros Hj. unfold move_last_over. pose proof (lookup_lt_Some _ _ _ Hj) as Hlen.
  destruct (lookup_lt_is_Some_2 l (length l - 1) ltac:(lia)) as [y Hy]. rewrite Hy.
  assert (El : l = take (length l - 1) l ++ [y]).
  { rewrite <- (take_drop_middle l (length l - 1) y Hy) at 1. rewrite (drop_ge l) by lia. done. }
  set (n := (length l - 1)%nat) in *. set (a := take n l) in *. assert (Ha : length a = n) by (unfold a; rewrite length_take; lia).
  clearbody a. subst l. rewrite length_app in Hlen. cbn in Hlen. destruct (decide (j = n)) as [->|Hne].
  - rewrite lookup_app_r, Ha, Nat.sub_diag in Hj by lia. injection Hj as <-.
    rewrite insert_app_r_alt, Ha, Nat.sub_diag by lia. cbn. rewrite take_app_length'; [|done]. by rewrite Permutation_app_comm.
  - rewrite lookup_app_l in Hj by lia. rewrite insert_app_l by lia. rewrite take_app_length' by (by rewrite length_insert).
    rewrite <- (take_drop_middle a j x Hj) at 1. rewrite (insert_take_drop a j y) by lia. rewrite <- app_assoc. cbn.
    rewrite <- Permutation_middle. constructor. by rewrite (Permutation_app_comm (drop (S j) a) [y]).
Qed.

(** The list of [DB] loses an entry of the version released. *)
Lemma untrack_perm v l : v ∈ map m_version l -> exists l', untrack v l = Some l' /\ map m_version l ≡ₚ v :: map m_version l'.
Proof.
  intros Hv. apply list_elem_of_In, in_map_iff in Hv as (x & Hx & Hin). apply list_elem_of_In in Hin. unfold untrack.
  destruct (list_find_elem_of (fun y => m_version y = v) l x Hin Hx) as [[j y] E]. rewrite E. eexists. split; [done|].
  apply list_find_Some in E as (Hj & Hy & _). rewrite (move_last_over_perm j y l Hj) at 1. cbn [map]. by rewrite Hy.
Qed.

(** The entry of the cache after a release. *)
Definition released_rc (t : LockType) (n : Z) (r : ReadCount) : ReadCount :=
  let r := set_field t n r in
  if (0 <? n) || negb ((count_live r =? 0) && (count_full r =? 0) && (count_frozen r =? 0)) then r else activate 0 r.

Lemma released_field t n r t' : field_for_type (released_rc t n r) t' = if decide (t = t') then n else field_for_type r t'.
Proof. unfold released_rc. rewrite <- field_set. destruct (_ || _); [done|by destruct t']. Qed.

(** The entry keeps its snapshot exactly while a lock is left. *)
Lemma released_cases t n r : 0 <= n ->
  (rc_version (released_rc t n r) = 0 /\ forall t', field_for_type (released_rc t n r) t' = 0) \/
  ((exists t', field_for_type (released_rc t n r) t' <> 0) /\ forall l, describes r l -> describes (released_rc t n r) l).
Proof.
  intros Hn. unfold released_rc. set (r' := set_field t n r). assert (Hf : field_for_type r' t = n) by (unfold r'; rewrite field_set; by destruct (decide _)).
  destruct (Z.ltb_spec 0 n); cbn [orb].
  - right. split; [exists t; lia|]. intros l. by apply describes_set.
  - destruct (Z.eqb_spec (count_live r') 0), (Z.eqb_spec (count_full r') 0), (Z.eqb_spec (count_frozen r') 0); cbn [andb negb];
      [left; split; [done|by intros []] |right; (split; [|intros l; by apply describes_set])..];
      first [by exists Frozen | by exists Live | by exists Full].
Qed.

Lemma release_local_spec l local r n : local !! m_reader_idx l = Some r -> field_for_type r (m_type l) = n -> 1 <= n < 2 ^ 32 ->
  release_local l local = (<[m_reader_idx l := released_rc (m_type l) (n - 1) r]> local, n =? 1).
Proof.
  intros Hr Hf Hn. unfold release_local. rewrite Hr, Hf, u32_small by lia. unfold released_rc.
  destruct (Z.ltb_spec 0 (n - 1)), (Z.eqb_spec n 1); try lia; cbn [orb]; [done|]. by destruct (_ && _ && _).
Qed.

Lemma release_cache l local r P Q : cache_ok local P -> db_held P ≡ₚ l :: db_held Q -> local !! m_reader_idx l = Some r ->
  cache_ok (<[m_reader_idx l := released_rc (m_type l) (cnt (m_type l) (m_reader_idx l) P - 1) r]> local) Q.
Proof.
  intros [H1 H2 H3] Hp Hr. pose proof (lookup_lt_Some _ _ _ Hr) as Hlen.
  assert (Hc : forall t i, cnt t i P = ind (same_slot t i l) + cnt t i Q) by (intros; by apply cnt_perm).
  set (n := cnt (m_type l) (m_reader_idx l) P - 1).
  assert (Hn : 0 <= n) by (unfold n; rewrite Hc, same_slot_self; pose proof (cnt_nonneg (m_type l) (m_reader_idx l) Q); cbn; lia).
  assert (Hf : forall t, field_for_type (released_rc (m_type l) n r) t = cnt t (m_reader_idx l) Q).
  { intros t. rewrite released_field. pose proof (Hc t (m_reader_idx l)) as Ht. destruct (decide (m_type l = t)) as [<-|Hne].
    - unfold n. rewrite Ht, same_slot_self. cbn. lia.
    - assert (same_slot t (m_reader_idx l) l = false) as E by (apply not_true_iff_false; rewrite same_slot_true; tauto).
      rewrite E in Ht. rewrite <- H1 in Ht. unfold field_at in Ht. rewrite Hr in Ht. cbn in Ht. lia. }
  assert (Hne : forall t i, i <> m_reader_idx l -> cnt t i Q = cnt t i P).
  { intros t i Hi. rewrite Hc. assert (same_slot t i l = false) as -> by (apply not_true_iff_false; rewrite same_slot_true; intros [_ ?]; congruence). done. }
  split.
  - intros t i. rewrite field_at_insert by done. destruct (decide (i = m_reader_idx l)) as [->|Hi]; [done|]. by rewrite Hne.
  - intros i r' Hi Hz. destruct (decide (i = m_reader_idx l)) as [->|Hi'].
    + rewrite list_lookup_insert_eq in Hi by done. injection Hi as <-.
      destruct (released_cases (m_type l) n r Hn) as [[? _]|[[t Ht] _]]; [done|]. rewrite Hf, Hz in Ht. done.
    + rewrite list_lookup_insert_ne in Hi by congruence. apply (H2 i r' Hi). intros t. by rewrite <- Hne.
  - intros l' Hl'. destruct (H3 l') as (r' & Hr' & Hd'); [rewrite Hp; by apply list_elem_of_further|].
    destruct (decide (m_reader_idx l' = m_reader_idx l)) as [E|E].
    + rewrite E in Hr' |- *. rewrite Hr in Hr'. injection Hr' as <-. eexists. rewrite list_lookup_insert_eq by done. split; [done|].
      destruct (released_cases (m_type l) n r Hn) as [[_ Hz]|[_ Hd]]; [|by apply Hd].
      pose proof (cnt_pos l' Q Hl'). specialize (Hz (m_type l')). rewrite Hf, <- E in Hz. lia.
    + exists r'. by rewrite list_lookup_insert_ne by congruence.
Qed.
