(* ===== verification/VersionInv.v ===== *)
(** * The session invariant

    Every step of a session preserves it, so in every reachable state the three
    counts of read locks agree and every lock pins its snapshot. *)

From S2P Require Import Prelude VersionList VersionRun.

(** ** Releasing *)

Lemma release_start_eq vl P l : part_ok vl P -> db_pending P = Idle -> l ∈ db_held P ->
  exists r tracked, m_local_readers P !! m_reader_idx l = Some r /\
    map m_version (m_local_locks_held P) ≡ₚ m_version l :: map m_version tracked /\
    release_start l P =
      mkPart (<[m_reader_idx l := released_rc (m_type l) (cnt (m_type l) (m_reader_idx l) P - 1) r]> (m_local_readers P))
        tracked (remove_one l (db_held P)) (if cnt (m_type l) (m_reader_idx l) P =? 1 then Releasing l else Idle).
Proof.
  intros HP Hpend Hl. destruct (po_cache vl P HP l Hl) as (r & Hr & _). unfold release_start.
  destruct (untrack_perm (m_version l) (m_local_locks_held P)) as (tracked & -> & Ht).
  { rewrite (po_tracked vl P HP). apply list_elem_of_In, in_map, list_elem_of_In, Hl. }
  exists r, tracked. split; [done|]. split; [done|]. pose proof (cnt_pos l P Hl). pose proof (cnt_le (m_type l) (m_reader_idx l) P).
  pose proof (po_few vl P HP) as Hf. unfold grabbing in Hf. rewrite Hpend in Hf. unfold limit in Hf.
  rewrite (release_local_spec l _ r (cnt (m_type l) (m_reader_idx l) P) Hr); [done| |lia].
  rewrite <- (po_counts vl P HP). unfold field_at. by rewrite Hr.
Qed.

Lemma sinv_release_start s p P l : sinv s -> s_parts s !! p = Some P -> db_pending P = Idle -> l ∈ db_held P ->
  sinv (put_part p (release_start l P) s).
Proof.
  intros Hs HP Hpend Hl. pose proof (parts_lookup _ _ _ _ (si_parts s Hs) HP) as HPo.
  destruct (release_start_eq _ P l HPo Hpend Hl) as (r & tracked & Hr & Htr & ->). set (P' := mkPart _ _ _ _).
  assert (Hperm : db_held P ≡ₚ l :: db_held P') by (by apply remove_one_perm).
  assert (Hc : forall t i, cnt t i P = ind (same_slot t i l) + cnt t i P') by (intros; by apply cnt_perm).
  pose proof (cnt_nonneg (m_type l) (m_reader_idx l) P') as H0. pose proof (Hc (m_type l) (m_reader_idx l)) as Hcl. rewrite same_slot_self in Hcl. cbn [ind] in Hcl.
  assert (Hpend' : db_pending P' = if cnt (m_type l) (m_reader_idx l) P =? 1 then Releasing l else Idle) by done.
  apply (sinv_move_local s p P); [done..| |].
  - destruct (release_cache l (m_local_readers P) r P P' (part_cache _ P HPo) Hperm Hr) as [H1 H2 H3]. split; [done..| | | |].
    + apply (Permutation_cons_inv (a := m_version l)). change (m_version l :: map m_version tracked ≡ₚ map m_version (l :: db_held P')).
      by rewrite <- Htr, <- Hperm, (po_tracked _ P HPo).
    + pose proof (po_few _ P HPo) as Hf. unfold grabbing in *. rewrite Hpend in Hf. rewrite Hpend', (Permutation_length Hperm) in *. cbn [length] in *.
      destruct (_ =? 1); lia.
    + intros l' [Hl'|Hl']; apply (po_pinned _ P HPo); left.
      * rewrite Hperm. by apply list_elem_of_further.
      * rewrite Hpend' in Hl'. destruct (_ =? 1); [by injection Hl' as <-|done].
    + unfold request_ok. rewrite Hpend'. destruct (Z.eqb_spec (cnt (m_type l) (m_reader_idx l) P) 1); [lia|done].
  - intros t i. unfold share, releasing. rewrite Hpend, Hpend', (Hc t i). destruct (same_slot t i l) eqn:E; cbn [ind].
    + apply same_slot_true in E as [<- <-]. rewrite (proj2 (Z.ltb_lt 0 (1 + cnt (m_type l) (m_reader_idx l) P'))) by lia. cbn [ind].
      destruct (Z.eqb_spec (cnt (m_type l) (m_reader_idx l) P) 1).
      * rewrite same_slot_self, (proj2 (Z.ltb_ge _ _)) by lia. done.
      * by rewrite (proj2 (Z.ltb_lt _ _)) by lia.
    + rewrite Z.add_0_l. destruct (_ =? 1); [rewrite E; cbn; lia|done].
Qed.

Lemma sinv_release_finish s p P l : sinv s -> s_parts s !! p = Some P -> db_pending P = Releasing l ->
  sinv (mkSession (release_shared l (s_list s)) (<[p := set_idle P]> (s_parts s))).
Proof.
  intros Hs HP Hpend. pose proof (parts_lookup _ _ _ _ (si_parts s Hs) HP) as HPo.
  destruct (po_pinned _ P HPo l (or_intror Hpend)) as (r & Hr & Hd). unfold release_shared. rewrite (alter_insert _ _ _ _ Hr).
  set (n := u32 _). destruct (list_ok_field (s_list s) (m_reader_idx l) (m_type l) n r (si_list s Hs) Hr) as [Hl' Hpin].
  pose proof (lookup_lt_Some _ _ _ Hr) as Hlen.
  assert (Hlocked := locked_field s P l Hs (list_elem_of_lookup_2 _ _ _ HP) (or_intror Hpend)). rewrite (field_in _ _ _ _ Hr) in Hlocked.
  assert (Hn : n = field_for_type r (m_type l) - 1).
  { unfold n. apply u32_small. pose proof (shares_bound _ (m_type l) (m_reader_idx l) _ (si_parts s Hs)) as Hb.
    rewrite <- (si_counts s Hs), (field_in _ _ _ _ Hr) in Hb. pose proof (si_few s Hs) as Hf. unfold limit in Hf. lia. }
  apply (sinv_move s p P); [done..| |].
  - apply (part_ok_mono (with_data (s_list s) (<[m_reader_idx l := set_field (m_type l) n r]> (vl_data (s_list s))))); [|auto|done].
    pose proof HPo as [H1 H2 H3 H4 H5 H6 H7]. split; [done..|unfold grabbing in *; cbn; rewrite Hpend in H5; lia| |done].
    intros l' [Hl0|Hl0]; [|done]. apply Hpin, H6. by left.
  - intros t i. cbn [with_data vl_data]. rewrite field_at_insert by done. unfold share, releasing. cbn [set_idle db_pending]. rewrite Hpend.
    change (cnt t i (set_idle P)) with (cnt t i P). destruct (decide (i = m_reader_idx l)) as [->|Hi].
    + rewrite field_set, (field_in _ _ _ _ Hr). destruct (decide (m_type l = t)) as [<-|Ht]; [rewrite same_slot_self; cbn; lia|].
      assert (same_slot t (m_reader_idx l) l = false) as -> by (apply not_true_iff_false; rewrite same_slot_true; tauto). cbn. lia.
    + assert (same_slot t i l = false) as -> by (apply not_true_iff_false; rewrite same_slot_true; intros [_ ?]; congruence). cbn. lia.
Qed.

(** ** Joining, grabbing *)

Lemma sinv_join s : sinv s -> Z.of_nat (length (s_parts s)) + 1 < limit -> sinv (mkSession (s_list s) (s_parts s ++ [new_participant])).
Proof.
  intros [H1 H2 H3 H4] Hl. split; cbn [s_list s_parts]; [done| | |].
  - apply Forall_app. split; [done|]. constructor; [|done]. split; [done| |by intros l Hl'; apply elem_of_nil in Hl'|done|done| |done].
    + intros i r Hi. by destruct i.
    + intros l [Hl'|Hl']; [by apply elem_of_nil in Hl'|done].
  - intros t i. rewrite sumf_app, H3. change (sumf (share t i) [new_participant]) with 0. lia.
  - rewrite length_app. cbn. lia.
Qed.

Lemma sinv_grab_start s p P t vid : sinv s -> s_parts s !! p = Some P -> db_pending P = Idle ->
  Z.of_nat (length (db_held P)) + 1 < limit -> sinv (put_part p (grab_start (vl_newest (s_list s)) t vid P) s).
Proof.
  intros Hs HP Hpend Hf. pose proof (parts_lookup _ _ _ _ (si_parts s Hs) HP) as HPo. unfold grab_start.
  destruct (try_grab_local_read_lock _ _ t vid) as [[l local]|] eqn:E.
  - destruct (grab_local_ok _ P t vid _ l local HPo Hpend Hf E) as [H1 H2]. by apply (sinv_move_local s p P).
  - destruct (grab_miss_ok _ P t vid HPo Hpend Hf E) as [H1 H2]. by apply (sinv_move_local s p P).
Qed.

(** ** Cleaning up *)

(** The smallest version of the entries a test selects. *)
Lemma min_version (P : ReadCount -> bool) f l o :
  (forall o r, f o r = if P r then if rc_version r <? o then rc_version r else o else o) ->
  fold_left f l o <= o /\
  (forall r, r ∈ l -> P r = true -> fold_left f l o <= rc_version r) /\
  (fold_left f l o = o \/ exists r, r ∈ l /\ P r = true /\ rc_version r = fold_left f l o).
Proof.
  intros Hf. revert o. induction l as [|a l IH]; intros o; cbn [fold_left].
  { split; [done|]. split; [|by left]. intros r Hr. by apply elem_of_nil in Hr. }
  destruct (IH (f o a)) as (H1 & H2 & H3). rewrite Hf in H1 at 2.
  assert (Ho : f o a <= o /\ (P a = true -> f o a <= rc_version a) /\ (f o a = o \/ P a = true /\ rc_version a = f o a)).
  { rewrite Hf. destruct (P a); [|auto with lia]. destruct (Z.ltb_spec (rc_version a) o); auto with lia. }
  destruct Ho as (Ho1 & Ho2 & Ho3). rewrite <- Hf in H1. split; [lia|]. split.
  - intros r Hr Ha. apply elem_of_cons in Hr as [->|Hr]; [specialize (Ho2 Ha); lia|by apply H2].
  - destruct H3 as [->|(r & Hr & H3)]; [|right; exists r; split; [by apply list_elem_of_further|done]].
    destruct Ho3 as [->|(Ha & Hv)]; [by left|]. right. exists a. split; [apply list_elem_of_here|done].
Qed.

Definition fully_locked (r : ReadCount) : bool := is_active r && negb (count_full r =? 0).

Lemma oldest_full_spec l : oldest_full l <= max_version /\
  (forall r, r ∈ l -> fully_locked r = true -> oldest_full l <= rc_version r) /\
  (oldest_full l = max_version \/ exists r, r ∈ l /\ fully_locked r = true /\ rc_version r = oldest_full l).
Proof. apply min_version. intros o r. unfold fully_locked. by destruct (is_active r), (count_full r =? 0). Qed.

Lemma oldest_full_le l r : r ∈ l -> is_active r = true -> count_full r <> 0 -> oldest_full l <= rc_version r.
Proof.
  intros Hr Ha Hf. apply oldest_full_spec; [done|]. unfold fully_locked. rewrite Ha. by destruct (Z.eqb_spec (count_full r) 0).
Qed.

(** An entry that is freed has no lock. *)
Lemma unreachable_fields l r : r ∈ l -> becomes_unreachable (oldest_full l) r = true -> forall t, field_for_type r t = 0.
Proof.
  intros Hr Hb. unfold becomes_unreachable in Hb. rewrite !andb_true_iff, Z.ltb_lt, !Z.eqb_eq in Hb. destruct Hb as (Ha & (Hf & Hl) & Hv).
  intros []; [done|done|]. cbn. destruct (Z.eq_dec (count_full r) 0) as [|Hne]; [done|]. pose proof (oldest_full_le l r Hr Ha Hne). lia.
Qed.

Lemma purge_data vl r : list_ok vl -> purge_versions vl = Ok r ->
  p_list r = with_data vl (map (fun r => if becomes_unreachable (oldest_full (vl_data vl)) r then free_entry r else r) (vl_data vl)) /\
  p_top_refs r = collect_top_refs (oldest_full (vl_data vl)) (vl_data vl) /\
  p_oldest_live r = oldest_live (oldest_full (vl_data vl)) (vl_data vl).
Proof.
  intros [(rn & Hn & _) _ _] Hp. unfold purge_versions, repair in Hp. rewrite bool_decide_true in Hp by done.
  destruct (collect_top_refs _ _) as [|[v info] m]; [done|]. case_match; [done|]. case_match; [done|]. by injection Hp as <-.
Qed.

Lemma lookup_map_some {B C} (f : B -> C) (l : list B) i c : map f l !! i = Some c -> exists b, l !! i = Some b /\ c = f b.
Proof. intros H. rewrite list_lookup_fmap in H. destruct (l !! i) as [b|]; [|done]. exists b. by injection H. Qed.

(** A lock keeps its entry. *)
Lemma locked_kept s P l r : sinv s -> P ∈ s_parts s -> has_lock P l -> vl_data (s_list s) !! m_reader_idx l = Some r ->
  becomes_unreachable (oldest_full (vl_data (s_list s))) r = false.
Proof.
  intros Hs HP Hl Hr. apply not_true_iff_false. intros Hb. pose proof (locked_field s P l Hs HP Hl) as Hf. rewrite (field_in _ _ _ _ Hr) in Hf.
  rewrite (unreachable_fields _ r (list_elem_of_lookup_2 _ _ _ Hr) Hb) in Hf. lia.
Qed.

Lemma sinv_cleanup s p P r : sinv s -> s_parts s !! p = Some P -> writer P (s_list s) -> purge_versions (s_list s) = Ok r ->
  sinv (mkSession (p_list r) (s_parts s)).
Proof.
  intros Hs HP (lw & Hlw & _ & Hnw) Hp. destruct (purge_data _ r (si_list s Hs) Hp) as (-> & _ & _).
  set (o := oldest_full (vl_data (s_list s))). set (g := fun r => if becomes_unreachable o r then free_entry r else r).
  assert (Hkeep : forall Q l, Q ∈ s_parts s -> has_lock Q l -> pinned (s_list s) l -> pinned (with_data (s_list s) (map g (vl_data (s_list s)))) l).
  { intros Q l HQ Hl (r0 & Hr0 & Hd). exists r0. split; [|done]. cbn. rewrite list_lookup_fmap, Hr0. cbn. unfold g, o.
    by rewrite (locked_kept s Q l r0 Hs HQ Hl Hr0). }
  pose proof Hs as [[(rn & Hn & Hrn & Hv & Hmax) H2 H3] Hps Hc Hf].
  assert (Hgv : forall r0, rc_version (g r0) = rc_version r0 \/ rc_version (g r0) = 0) by (intros r0; unfold g; destruct (becomes_unreachable o r0); auto).
  split; cbn [s_list s_parts]; [split; cbn [with_data vl_data vl_newest vl_allocating]| | |done].
  - exists rn. split; [done|]. split.
    + rewrite list_lookup_fmap, Hrn. cbn. unfold g, o. rewrite Hn in Hnw. injection Hnw as Hnw.
      rewrite (locked_kept s P lw rn Hs (list_elem_of_lookup_2 _ _ _ HP) (or_introl Hlw)); [done|]. by rewrite <- Hnw.
    + split; [done|]. intros i r' Hi. destruct (lookup_map_some _ _ _ _ Hi) as (r0 & Hr0 & ->). specialize (Hmax i r0 Hr0).
      destruct (Hgv r0) as [-> | ->]; lia.
  - intros i r' Hi. destruct (lookup_map_some _ _ _ _ Hi) as (r0 & Hr0 & ->). specialize (H2 i r0 Hr0). destruct (Hgv r0) as [-> | ->]; lia.
  - intros i j r1 r2 Hi Hj He Hne. destruct (lookup_map_some _ _ _ _ Hi) as (a & Ha & ->), (lookup_map_some _ _ _ _ Hj) as (b & Hb & ->).
    destruct (Hgv a) as [Ea|Ea]; [|congruence]. destruct (Hgv b) as [Eb|Eb]; [|congruence]. apply (H3 i j a b); congruence.
  - apply List.Forall_forall. intros Q HQ. pose proof (proj1 (List.Forall_forall _ _) Hps Q HQ) as HQo. apply (part_ok_mono (s_list s)); [done| |].
    + intros l. apply Hkeep. by apply list_elem_of_In.
    + apply (request_newest (s_list s)); [done|apply HQo].
  - intros t i. rewrite <- Hc. unfold field_at. cbn. rewrite list_lookup_fmap. destruct (vl_data (s_list s) !! i) as [r0|] eqn:E; [|done]. cbn. unfold g.
    destruct (becomes_unreachable o r0) eqn:Eb; [|done]. rewrite (unreachable_fields _ r0 (list_elem_of_lookup_2 _ _ _ E) Eb). by destruct t.
Qed.

(** ** Adding a version *)

Lemma find_inactive_some l k : find_inactive l = Some k -> exists r, l !! k = Some r /\ rc_version r = 0.
Proof.
  revert k. induction l as [|a l IH]; intros k H; [done|]. cbn [find_inactive] in H. destruct (is_active a) eqn:E.
  - destruct (find_inactive l) as [k'|]; [|done]. injection H as <-. by apply IH.
  - injection H as <-. exists a. split; [done|by apply inactive_version].
Qed.

Lemma find_inactive_app l r m : rc_version r = 0 -> exists k, find_inactive (l ++ r :: m) = Some k.
Proof.
  intros Hr. induction l as [|a l [k IH]]; cbn [find_inactive app].
  - assert (is_active r = false) as -> by (unfold is_active; by rewrite Hr). by exists 0%nat.
  - destruct (is_active a); [|by exists 0%nat]. exists (S k). by rewrite IH.
Qed.

(** The list after an allocation in entry [k]. *)
Definition allocated_in (data : list ReadCount) (k : nat) (r : ReadCount) (top size version : Z) : VersionList :=
  mkVL (<[k := mkRC version size top (count_live r) (count_frozen r) (count_full r)]> data) k (Some k).

Lemma alter_on_insert {B} (f : B -> B) k x (l : list B) : (k < length l)%nat -> alter f k (<[k := x]> l) = <[k := f x]> l.
Proof. intros H. rewrite (alter_insert f k x) by by apply list_lookup_insert_eq. apply list_insert_insert_eq. Qed.

Lemma alloc_trace_last vl k r top size version : vl_data vl !! k = Some r ->
  List.last (alloc_trace vl k top size version) vl = allocated_in (vl_data vl) k r top size version.
Proof.
  intros Hk. unfold alloc_trace, allocated_in. cbn [List.last vl_data with_data]. pose proof (lookup_lt_Some _ _ _ Hk).
  rewrite (alter_insert (set_top top) k r) by done. by rewrite !alter_on_insert.
Qed.

(** Entries without a version carry no count. *)
Definition free_ok (l : list ReadCount) : Prop := forall i r t, l !! i = Some r -> rc_version r = 0 -> field_for_type r t = 0.

Lemma allocate_spec vl k r top size version : alloc_index vl = Some k -> vl_data vl !! k = Some r ->
  (forall t, field_for_type r t = 0) ->
  try_allocate_entry top size version vl = Ok (Some (allocated_in (vl_data vl) k r top size version)).
Proof.
  intros Hi Hk Hf. unfold try_allocate_entry. rewrite Hi, Hk. pose proof (Hf Frozen) as H1. pose proof (Hf Live) as H2. pose proof (Hf Full) as H3. cbn in H1, H2, H3.
  rewrite H1, H2, H3. cbn [Z.eqb andb]. by rewrite (alloc_trace_last vl k r).
Qed.

(** [add_version] always finds an entry, after growing the list if it must. *)
Lemma add_version_spec vl top size version : vl_newest vl = Some (vl_allocating vl) -> free_ok (vl_data vl) ->
  exists data k r, add_version top size version vl = Ok (allocated_in data k r top size version) /\
    data !! k = Some r /\ rc_version r = 0 /\ (data = vl_data vl \/ data = vl_data vl ++ replicate 32 (deactivate zero_rc)).
Proof.
  intros Hn Hfree. unfold add_version. destruct (find_inactive (vl_data vl)) as [k|] eqn:E.
  - destruct (find_inactive_some _ _ E) as (r & Hr & Hv). exists (vl_data vl), k, r.
    rewrite (allocate_spec vl k r) by (unfold alloc_index; rewrite ?bool_decide_true; eauto). auto.
  - assert (try_allocate_entry top size version vl = Ok None) as -> by (unfold try_allocate_entry, alloc_index; by rewrite bool_decide_true, E).
    set (data := vl_data vl ++ replicate 32 (deactivate zero_rc)).
    assert (Ed : vl_data (reserve (entries vl + 32) vl) = data) by (cbn; by replace (entries vl + 32 - entries vl)%nat with 32%nat by lia).
    destruct (find_inactive_app (vl_data vl) (deactivate zero_rc) (replicate 31 (deactivate zero_rc)) eq_refl) as [k E'].
    change (find_inactive data = Some k) in E'. destruct (find_inactive_some _ _ E') as (r & Hr & Hv). exists data, k, r. cbn [mbind result_bind].
    rewrite (allocate_spec _ k r), Ed; [by auto| |by rewrite Ed|].
    + unfold alloc_index. by rewrite Ed, bool_decide_true.
    + intros t. apply lookup_app_Some in Hr as [Hr|[_ Hr]]; [by apply (Hfree k)|]. apply lookup_replicate in Hr as [-> _]. by destruct t.
Qed.

(** An entry without a version has no lock. *)
Lemma inactive_free s i r t : sinv s -> vl_data (s_list s) !! i = Some r -> rc_version r = 0 -> field_for_type r t = 0.
Proof.
  intros Hs Hi Hv. destruct (Z.eq_dec (field_for_type r t) 0) as [|Hne]; [done|]. by destruct (counted_active s t i r Hs Hi Hne).
Qed.

Lemma inactive_no_lock s i r P l : sinv s -> vl_data (s_list s) !! i = Some r -> rc_version r = 0 -> P ∈ s_parts s -> has_lock P l -> m_reader_idx l <> i.
Proof.
  intros Hs Hi Hv HP Hl E. pose proof (proj1 (List.Forall_forall _ _) (si_parts s Hs) P (proj1 (list_elem_of_In _ _) HP)) as HPo.
  destruct (po_pinned _ P HPo l Hl) as (r' & Hr' & Hd & _ & _ & H0). rewrite E, Hi in Hr'. injection Hr' as <-. congruence.
Qed.

(** More entries change nothing. *)
Lemma sinv_grow s n : sinv s -> sinv (mkSession (with_data (s_list s) (vl_data (s_list s) ++ replicate n (deactivate zero_rc))) (s_parts s)).
Proof.
  intros [[(rn & Hn & Hrn & Hv & Hmax) H2 H3] Hps Hc Hf]. set (data := vl_data (s_list s) ++ _).
  assert (Hd : forall i r, data !! i = Some r -> vl_data (s_list s) !! i = Some r \/ rc_version r = 0 /\ (forall t, field_for_type r t = 0) /\ vl_data (s_list s) !! i = None).
  { intros i r Hi. apply lookup_app_Some in Hi as [|[Hge Hi]]; [by left|]. right. apply lookup_replicate in Hi as [-> _]. split; [done|].
    split; [by intros []|by apply lookup_ge_None]. }
  assert (Hold : forall i r, vl_data (s_list s) !! i = Some r -> data !! i = Some r) by (intros; by apply lookup_app_l_Some).
  split; cbn [s_list s_parts with_data vl_data]; [split; cbn [vl_data vl_newest vl_allocating]| | |done].
  - exists rn. split; [done|]. split; [by apply Hold|]. split; [done|]. intros i r Hi. destruct (Hd i r Hi) as [|[? _]]; [by apply (Hmax i)|lia].
  - intros i r Hi. destruct (Hd i r Hi) as [|[? _]]; [by apply (H2 i)|lia].
  - intros i j r r' Hi Hj He Hne. destruct (Hd i r Hi) as [Hi'|[? _]]; [|congruence]. destruct (Hd j r' Hj) as [Hj'|[? _]]; [|congruence]. by apply (H3 i j r r').
  - eapply Forall_impl; [|exact Hps]. intros Q HQ. apply (part_ok_mono (s_list s)); [done| |].
    + intros l _ (r & Hr & Hdl). exists r. split; [by apply Hold|done].
    + apply (request_newest (s_list s)); [done|apply HQ].
  - intros t i. rewrite <- Hc. unfold field_at. destruct (data !! i) as [r|] eqn:E.
    + destruct (Hd i r E) as [-> | (_ & Ht & ->)]; [done|apply Ht].
    + destruct (vl_data (s_list s) !! i) as [r|] eqn:E'; [|done]. by rewrite (Hold _ _ E') in E.
Qed.

Lemma sinv_allocate s k r top size version rn : sinv s -> vl_data (s_list s) !! k = Some r -> rc_version r = 0 ->
  vl_data (s_list s) !! vl_allocating (s_list s) = Some rn -> rc_version rn < version < max_version ->
  sinv (mkSession (allocated_in (vl_data (s_list s)) k r top size version) (s_parts s)).
Proof.
  intros Hs Hk Hv0 Hrn Hver. pose proof Hs as [[(rn' & Hn & Hrn' & Hv & Hmax) H2 H3] Hps Hc Hf]. rewrite Hrn in Hrn'. injection Hrn' as <-.
  pose proof (lookup_lt_Some _ _ _ Hk) as Hlen. set (rk := mkRC version size top (count_live r) (count_frozen r) (count_full r)).
  assert (Hl : forall i, <[k := rk]> (vl_data (s_list s)) !! i = if decide (i = k) then Some rk else vl_data (s_list s) !! i).
  { intros i. destruct (decide (i = k)) as [->|]; [by apply list_lookup_insert_eq|by apply list_lookup_insert_ne]. }
  split; cbn [s_list s_parts]; [split; cbn [allocated_in vl_data vl_newest vl_allocating]| | |done].
  - exists rk. rewrite Hl, decide_True by done. split; [done|]. split; [done|]. split; [cbn; lia|]. intros i r'. rewrite Hl. cbn.
    destruct (decide (i = k)); [intros E; injection E as <-; done|]. intros Hi. specialize (Hmax i r' Hi). lia.
  - intros i r'. rewrite Hl. destruct (decide (i = k)); [intros E; injection E as <-; cbn; lia|]. apply H2.
  - intros i j r1 r2. rewrite !Hl. destruct (decide (i = k)) as [->|Hi], (decide (j = k)) as [->|Hj]; [done| | |apply H3].
    + intros E1 E2 E. injection E1 as <-. specialize (Hmax j r2 E2). cbn in E. lia.
    + intros E1 E2 E. injection E2 as <-. specialize (Hmax i r1 E1). cbn in E. lia.
  - apply List.Forall_forall. intros Q HQ. pose proof (proj1 (List.Forall_forall _ _) Hps Q HQ) as HQo. apply list_elem_of_In in HQ.
    apply (part_ok_mono (s_list s)); [done| |].
    + intros l Hlk (r' & Hr' & Hd). exists r'. split; [|done]. cbn. fold rk. rewrite Hl, decide_False; [done|]. by apply (inactive_no_lock s k r Q l).
    + pose proof (po_request _ Q HQo) as Hr. unfold request_ok in *. destruct (db_pending Q) as [|t [[v i]|]|l]; [done|done| |done].
      intros n Hn'. cbn in Hn'. injection Hn' as <-. destruct (Z.eq_dec (cnt t k Q) 0) as [|Hne]; [done|]. pose proof (cnt_nonneg t k Q).
      destruct (cnt_witness t k Q ltac:(lia)) as (l & Hl' & _ & Hx). by destruct (inactive_no_lock s k r Q l Hs Hk Hv0 HQ (or_introl Hl')).
  - intros t i. rewrite <- Hc. unfold field_at. cbn. fold rk. rewrite Hl. destruct (decide (i = k)) as [->|]; [|done]. rewrite Hk. by destruct t.
Qed.

Lemma sinv_add s n r top size version vl' : sinv s -> vl_newest (s_list s) = Some n -> vl_data (s_list s) !! n = Some r ->
  rc_version r < version < max_version -> add_version top size version (s_list s) = Ok vl' -> sinv (mkSession vl' (s_parts s)).
Proof.
  intros Hs Hn Hr Hv Ha. destruct (lo_newest _ (si_list s Hs)) as (rn & Hn' & _). rewrite Hn in Hn'. injection Hn' as ->.
  destruct (add_version_spec (s_list s) top size version Hn (fun i r t => inactive_free s i r t Hs)) as (data & k & rk & Ea & Hk & Hv0 & Hd). rewrite Ea in Ha. injection Ha as <-.
  destruct Hd as [-> | ->]; [by apply (sinv_allocate s k rk top size version r)|].
  apply (sinv_allocate _ k rk top size version r (sinv_grow s 32 Hs)); [done..| |done]. by apply lookup_app_l_Some.
Qed.

(** ** Every reachable state *)

Lemma vstart_sinv s : vstart s -> sinv s.
Proof.
  intros [top size version data vl Hv Hd Hi]. unfold init_versioning in Hi. destruct data as [|a data]; [done|]. cbn [vl_data] in Hi.
  rewrite (allocate_spec _ 0%nat (deactivate a)) in Hi; [|done..|by intros []]. injection Hi as <-. unfold allocated_in. cbn [map]. set (r := mkRC version size top (count_live (deactivate a)) (count_frozen (deactivate a)) (count_full (deactivate a))).
  assert (Hl : forall i r', (r :: map deactivate data) !! i = Some r' -> i = 0%nat /\ r' = r \/ rc_version r' = 0).
  { intros [|i] r' H; [injection H as <-; by left|]. right. cbn in H. destruct (lookup_map_some _ _ _ _ H) as (b & _ & ->). done. }
  split; cbn [s_list s_parts]; [|done| |done].
  - split; cbn [vl_data vl_newest vl_allocating].
    + exists r. split; [done|]. split; [done|]. split; [done|]. intros i r' H. destruct (Hl i r' H) as [[_ ->]|]; [done|cbn; lia].
    + intros i r' H. destruct (Hl i r' H) as [[_ ->]|]; [cbn; lia|lia].
    + intros i j r1 r2 H1 H2 He Hne. destruct (Hl i r1 H1) as [[-> _]|]; [|done]. destruct (Hl j r2 H2) as [[-> _]|]; [done|congruence].
  - intros t i. cbn. unfold field_at. destruct ((r :: map deactivate data) !! i) as [r'|] eqn:E; [|done]. destruct i as [|i].
    + injection E as <-. by destruct t.
    + cbn in E. destruct (lookup_map_some _ _ _ _ E) as (b & _ & ->). by destruct t.
Qed.

Lemma vstep_sinv s s' : sinv s -> vstep s s' -> sinv s'.
Proof.
  intros Hs Hstep. destruct Hstep.
  - by apply sinv_join.
  - by apply sinv_grab_start.
  - by eapply sinv_grab_finish.
  - by eapply sinv_grab_refused.
  - by apply sinv_release_start.
  - by apply sinv_release_finish.
  - by eapply sinv_cleanup.
  - by eapply sinv_add.
Qed.

Lemma vreach_sinv s : vreach s -> sinv s.
Proof. induction 1 as [s Hs|s s' _ IH Hstep]; [by apply vstart_sinv|by eapply vstep_sinv]. Qed.
