(* ===== verification/VersionTheorems.v ===== *)
(** * Theorems on snapshots and their locks

    What a session guarantees in every reachable state of [VersionRun]: a lock
    pins its snapshot, a commit's cleanup keeps exactly the snapshots that locks
    need, no later lock can reach behind it, and a crash within an allocation
    leaves the list as before or as after. *)

From stdpp Require Import sorting relations.
From S2P Require Import Prelude VersionList VersionRun VersionInv.

(** ** The map of reachable versions *)

Definition top_ref_of (r : ReadCount) : Z * (Z * Z) := (rc_version r, (rc_current_top r, rc_filesize r)).

Definition key_lt (a b : Z * (Z * Z)) : Prop := a.1 < b.1.

Lemma emplace_inv v info m x : x ∈ top_refs_emplace v info m -> x = (v, info) \/ x ∈ m.
Proof.
  induction m as [|[v' info'] m IH]; cbn [top_refs_emplace].
  - intros H. apply elem_of_cons in H as [->|H]; [by left|by apply elem_of_nil in H].
  - destruct (v <? v'); [intros H; apply elem_of_cons in H as [->|H]; auto|]. destruct (v =? v'); [by right|].
    intros H. apply elem_of_cons in H as [->|H]; [right; apply list_elem_of_here|].
    destruct (IH H) as [->|]; [by left|right; by apply list_elem_of_further].
Qed.

Lemma emplace_keep v info m x : x ∈ m -> x ∈ top_refs_emplace v info m.
Proof.
  induction m as [|[v' info'] m IH]; intros H; [by apply elem_of_nil in H|]. cbn [top_refs_emplace].
  destruct (v <? v'); [by apply list_elem_of_further|]. destruct (v =? v'); [done|].
  apply elem_of_cons in H as [->|H]; [apply list_elem_of_here|apply list_elem_of_further; auto].
Qed.

Lemma emplace_here v info m : (forall info', (v, info') ∈ m -> info' = info) -> (v, info) ∈ top_refs_emplace v info m.
Proof.
  induction m as [|[v' info'] m IH]; intros H; cbn [top_refs_emplace]; [apply list_elem_of_here|].
  destruct (v <? v'); [apply list_elem_of_here|]. destruct (Z.eqb_spec v v') as [->|].
  - rewrite (H info') by apply list_elem_of_here. apply list_elem_of_here.
  - apply list_elem_of_further, IH. intros info'' H'. apply H. by apply list_elem_of_further.
Qed.

Lemma emplace_sorted v info m : StronglySorted key_lt m -> StronglySorted key_lt (top_refs_emplace v info m).
Proof.
  induction 1 as [|[v' info'] m Hm IH Hf]; cbn [top_refs_emplace]; [by repeat constructor|].
  destruct (Z.ltb_spec v v') as [Hlt|Hge].
  - constructor; [by constructor|]. constructor; [done|]. eapply Forall_impl; [|exact Hf]. unfold key_lt. cbn. lia.
  - destruct (Z.eqb_spec v v') as [->|]; [by constructor|]. constructor; [done|]. apply List.Forall_forall. intros x Hx.
    apply list_elem_of_In, emplace_inv in Hx as [->|Hx]; [unfold key_lt; cbn; lia|].
    by apply (proj1 (List.Forall_forall _ _) Hf), list_elem_of_In.
Qed.

Lemma sorted_head x m y : StronglySorted key_lt (x :: m) -> y ∈ x :: m -> x.1 <= y.1.
Proof.
  intros H Hy. apply elem_of_cons in Hy as [->|Hy]; [done|]. inversion H as [|? ? _ Hf]. subst.
  pose proof (proj1 (List.Forall_forall _ _) Hf y (proj1 (list_elem_of_In _ _) Hy)) as Hlt. unfold key_lt in Hlt. lia.
Qed.

(** Entries of one version agree, as versions are unique. *)
Definition agree (l : list ReadCount) : Prop :=
  forall r r', r ∈ l -> r' ∈ l -> rc_version r = rc_version r' -> rc_version r <> 0 -> r = r'.

Lemma list_ok_agree vl : list_ok vl -> agree (vl_data vl).
Proof.
  intros [_ _ Hu] r r' Hr Hr' E H0. apply list_elem_of_lookup in Hr as [i Hi], Hr' as [j Hj].
  pose proof (Hu i j r r' Hi Hj E H0) as ->. rewrite Hi in Hj. by injection Hj.
Qed.

Definition reaches (o : Z) (r : ReadCount) : bool := is_active r && reachable_entry o r.

Lemma collect_gen o all l m : agree all -> (forall r, r ∈ l -> r ∈ all) ->
  (forall x, x ∈ m -> exists r, r ∈ all /\ rc_version r <> 0 /\ x = top_ref_of r) -> StronglySorted key_lt m ->
  let m' := fold_left (fun m r => if is_active r && reachable_entry o r
                        then top_refs_emplace (rc_version r) (rc_current_top r, rc_filesize r) m else m) l m in
  StronglySorted key_lt m' /\ forall x, x ∈ m' <-> x ∈ m \/ exists r, r ∈ l /\ reaches o r = true /\ x = top_ref_of r.
Proof.
  intros Ha. revert m. induction l as [|a l IH]; intros m Hl Hm Hs; cbn zeta; cbn [fold_left].
  { split; [done|]. intros x. split; [by left|]. intros [|(r & Hr & _)]; [done|by apply elem_of_nil in Hr]. }
  assert (Hl' : forall r, r ∈ l -> r ∈ all) by (intros; apply Hl; by apply list_elem_of_further).
  assert (Haa : a ∈ all) by apply Hl, list_elem_of_here. destruct (is_active a && reachable_entry o a) eqn:E.
  - assert (Hv : rc_version a <> 0) by (apply active_version; by apply andb_true_iff in E as [E _]).
    destruct (IH (top_refs_emplace (rc_version a) (rc_current_top a, rc_filesize a) m) Hl') as [H1 H2].
    + intros x Hx. apply emplace_inv in Hx as [->|Hx]; [by exists a|by apply Hm].
    + by apply emplace_sorted.
    + split; [done|]. intros x. rewrite H2. split.
      * intros [Hx|(r & Hr & Hx)]; [|right; exists r; split; [by apply list_elem_of_further|done]].
        apply emplace_inv in Hx as [->|]; [|by left]. right. exists a. split; [apply list_elem_of_here|done].
      * intros [Hx|(r & Hr & Hx & ->)]; [left; by apply emplace_keep|]. apply elem_of_cons in Hr as [->|Hr]; [|right; by exists r].
        left. apply emplace_here. intros info' Hi. destruct (Hm _ Hi) as (r & Hr & Hr0 & Er). injection Er as Ev ->.
        by rewrite (Ha r a Hr Haa ltac:(congruence) Hr0).
  - destruct (IH m Hl' Hm Hs) as [H1 H2]. split; [done|]. intros x. rewrite H2. split.
    + intros [|(r & Hr & Hx)]; [by left|]. right. exists r. split; [by apply list_elem_of_further|done].
    + intros [|(r & Hr & Hx & ->)]; [by left|]. apply elem_of_cons in Hr as [->|Hr]; [unfold reaches in Hx; congruence|right; by exists r].
Qed.

Lemma collect_spec o l : agree l -> StronglySorted key_lt (collect_top_refs o l) /\
  forall x, x ∈ collect_top_refs o l <-> exists r, r ∈ l /\ reaches o r = true /\ x = top_ref_of r.
Proof.
  intros Ha. destruct (collect_gen o l l [] Ha) as [H1 H2]; [done|by intros x Hx; apply elem_of_nil in Hx|constructor|].
  split; [done|]. intros x. etransitivity; [apply H2|]. split; [intros [H|]; [by apply elem_of_nil in H|done]|by right].
Qed.

Lemma reaches_kept o r : is_active r = true -> reaches o r = negb (becomes_unreachable o r).
Proof.
  intros Ha. unfold reaches, becomes_unreachable, reachable_entry. rewrite Ha, Z.leb_antisym. cbn [andb].
  by destruct (count_frozen r =? 0), (count_live r =? 0), (rc_version r <? o).
Qed.

(** ** What locks need *)

(** A lock other than a full one needs its entry, a full one every version from
    its own on. *)
Definition needed (s : Session) (i : nat) (r : ReadCount) : Prop :=
  exists P l, P ∈ s_parts s /\ has_lock P l /\
    (m_reader_idx l = i /\ m_type l <> Full \/ m_type l = Full /\ m_version l <= rc_version r).

Lemma lock_entry s P l : sinv s -> P ∈ s_parts s -> has_lock P l ->
  exists r, vl_data (s_list s) !! m_reader_idx l = Some r /\ describes r l /\ 0 < field_for_type r (m_type l).
Proof.
  intros Hs HP Hl. pose proof (proj1 (List.Forall_forall _ _) (si_parts s Hs) P (proj1 (list_elem_of_In _ _) HP)) as HPo.
  destruct (po_pinned _ P HPo l Hl) as (r & Hr & Hd). exists r. split; [done|]. split; [done|].
  pose proof (locked_field s P l Hs HP Hl) as H. by rewrite (field_in _ _ _ _ Hr) in H.
Qed.

Lemma version_bound s i r : sinv s -> vl_data (s_list s) !! i = Some r -> 0 <= rc_version r < max_version.
Proof.
  intros [[(rn & _ & _ & Hv & Hm) Hr _] _ _ _] Hi. specialize (Hm i r Hi). specialize (Hr i r Hi). lia.
Qed.

Lemma kept_needed s i r : sinv s -> vl_data (s_list s) !! i = Some r -> rc_version r <> 0 ->
  becomes_unreachable (oldest_full (vl_data (s_list s))) r = false <-> needed s i r.
Proof.
  intros Hs Hi Hv. pose proof (proj2 (active_version r) Hv) as Ha. unfold becomes_unreachable. rewrite Ha. cbn [andb].
  set (o := oldest_full _). split.
  - assert (Hcase : forall t, t <> Full -> field_for_type r t <> 0 -> needed s i r).
    { intros t Ht Hf. destruct (counted_pinned s t i Hs) as (P & l & HP & Hl & Hx & Htl); [by rewrite (field_in _ _ _ _ Hi)|].
      exists P, l. split; [done|]. split; [done|]. left. by rewrite Htl. }
    destruct (Z.eqb_spec (count_frozen r) 0) as [Hf|Hf]; [|intros _; by apply (Hcase Frozen)].
    destruct (Z.eqb_spec (count_live r) 0) as [Hf'|Hf']; [|intros _; by apply (Hcase Live)]. cbn [andb]. rewrite Z.ltb_ge. intros Ho.
    destruct (oldest_full_spec (vl_data (s_list s))) as (_ & _ & [E|(r' & Hr' & Hful & E)]); fold o in E; [pose proof (version_bound s i r Hs Hi); lia|].
    apply andb_prop in Hful as [Ha' Hc]. apply negb_true_iff, Z.eqb_neq in Hc. apply list_elem_of_lookup in Hr' as [i' Hi'].
    destruct (counted_pinned s Full i' Hs) as (P & l & HP & Hl & Hx & Ht); [by rewrite (field_in _ _ _ _ Hi')|]. exists P, l. split; [done|]. split; [done|]. right.
    split; [done|]. destruct (lock_entry s P l Hs HP Hl) as (r2 & Hr2 & (Ev & _) & _). rewrite Hx, Hi' in Hr2. injection Hr2 as <-. lia.
  - intros (P & l & HP & Hl & Hcase). destruct (lock_entry s P l Hs HP Hl) as (r' & Hr' & (Ev & _ & _ & Hv0) & Hf).
    destruct Hcase as [[Hx Ht]|[Ht Hle]].
    + rewrite Hx, Hi in Hr'. injection Hr' as <-. destruct (m_type l); [| |done]; cbn in Hf.
      * by rewrite (proj2 (Z.eqb_neq (count_frozen r) 0)) by lia.
      * rewrite (proj2 (Z.eqb_neq (count_live r) 0)) by lia. by rewrite andb_false_r.
    + rewrite Ht in Hf. cbn in Hf. assert (o <= rc_version r') by (apply oldest_full_le; [by eapply list_elem_of_lookup_2|apply active_version; congruence|lia]).
      rewrite (proj2 (Z.ltb_ge _ _)) by lia. by rewrite !andb_false_r.
Qed.

(** ** The result of a cleanup *)

Lemma oldest_live_spec o l : (forall r, r ∈ l -> is_active r = true -> count_live r <> 0 \/ o <= rc_version r -> oldest_live o l <= rc_version r).
Proof.
  intros r Hr Ha Hc. apply (min_version (fun r => is_active r && (negb (count_live r =? 0) || (o <=? rc_version r)))); [done..|].
  rewrite Ha. cbn [andb]. destruct Hc as [Hc|Hc]; [by rewrite (proj2 (Z.eqb_neq _ _) Hc)|]. by rewrite (proj2 (Z.leb_le _ _) Hc), orb_true_r.
Qed.

Lemma purge_ok s p P : sinv s -> s_parts s !! p = Some P -> writer P (s_list s) -> exists r, purge_versions (s_list s) = Ok r.
Proof.
  intros Hs HP (lw & Hlw & Ht & Hnw). pose proof (si_list s Hs) as Hlo. pose proof Hlo as [(rn & Hn & Hrn & Hv & Hmax) _ _].
  rewrite Hn in Hnw. injection Hnw as Hnw. pose proof (list_elem_of_lookup_2 _ _ _ HP) as HPe.
  destruct (lock_entry s P lw Hs HPe (or_introl Hlw)) as (r0 & Hr0 & _ & Hf). rewrite <- Hnw, Hrn in Hr0. injection Hr0 as <-. rewrite Ht in Hf. cbn in Hf.
  pose proof (list_elem_of_lookup_2 _ _ _ Hrn) as Hin. assert (Ha : is_active rn = true) by (apply active_version; lia).
  unfold purge_versions, repair. rewrite bool_decide_true by done. set (o := oldest_full _).
  assert (Hr : reaches o rn = true). { unfold reaches, reachable_entry. rewrite Ha, (proj2 (Z.eqb_neq (count_live rn) 0)) by lia. by rewrite orb_true_r. }
  destruct (collect_spec o (vl_data (s_list s)) (list_ok_agree _ Hlo)) as [Hsort Helem].
  pose proof (proj2 (Helem (top_ref_of rn)) (ex_intro _ rn (conj Hin (conj Hr eq_refl)))) as Htop.
  destruct (collect_top_refs _ _) as [|[v info] m]; [by apply elem_of_nil in Htop|].
  pose proof (sorted_head _ _ _ Hsort Htop) as Hle. cbn in Hle.
  assert (Hc : count_live rn <> 0) by lia. pose proof (oldest_live_spec o _ rn Hin Ha (or_introl Hc)) as Hlive.
  rewrite Hn. cbn [mbind option_bind]. rewrite Hrn. rewrite (reaches_kept o rn Ha), negb_true_iff in Hr. rewrite Hr.
  rewrite (proj2 (Z.eqb_neq v max_version)), (proj2 (Z.eqb_neq (oldest_live _ _) max_version)) by lia. eauto.
Qed.

Lemma cleanup_spec s p P : sinv s -> s_parts s !! p = Some P -> writer P (s_list s) ->
  exists r, purge_versions (s_list s) = Ok r /\
    (forall i e, vl_data (s_list s) !! i = Some e -> rc_version e <> 0 ->
       exists e', vl_data (p_list r) !! i = Some e' /\ (rc_version e' <> 0 <-> needed s i e) /\ (needed s i e -> e' = e)) /\
    StronglySorted key_lt (p_top_refs r) /\
    (forall x, x ∈ p_top_refs r <-> exists e, e ∈ vl_data (p_list r) /\ rc_version e <> 0 /\ x = top_ref_of e) /\
    (forall Q l, Q ∈ s_parts s -> has_lock Q l ->
       (m_version l, (m_top_ref l, m_file_size l)) ∈ p_top_refs r /\ (m_type l <> Frozen -> p_oldest_live r <= m_version l)).
Proof.
  intros Hs HP Hw. destruct (purge_ok s p P Hs HP Hw) as [r Hr]. exists r. split; [done|].
  destruct (purge_data _ r (si_list s Hs) Hr) as (-> & -> & ->). cbn [with_data vl_data]. set (o := oldest_full (vl_data (s_list s))).
  destruct (collect_spec o (vl_data (s_list s)) (list_ok_agree _ (si_list s Hs))) as [Hsort Helem].
  split; [|split; [done|split]].
  - intros i e Hi He. pose proof (kept_needed s i e Hs Hi He) as Hk. fold o in Hk. rewrite list_lookup_fmap, Hi. cbn.
    eexists. split; [done|]. destruct (becomes_unreachable o e); cbn [free_entry deactivate rc_version];
      (split; [split; [|]|]; intros; try done; try (by apply Hk); exfalso; by apply Hk in H).
  - intros x. rewrite Helem. split.
    + intros (e & He & Hx & ->). exists e. pose proof (proj1 (andb_prop _ _ Hx)) as Ha. split; [|split; [by apply active_version|done]].
      rewrite (reaches_kept o e Ha), negb_true_iff in Hx. apply list_elem_of_fmap. exists e. by rewrite Hx.
    + intros (e & He & Hv & ->). apply list_elem_of_fmap in He as (e0 & -> & He0). destruct (becomes_unreachable o e0) eqn:E; [done|].
      exists e0. split; [done|]. split; [|done]. rewrite reaches_kept, E by by apply active_version. done.
  - intros Q l HQ Hl. destruct (lock_entry s Q l Hs HQ Hl) as (e & He & (E1 & E2 & E3 & E4) & Hf).
    pose proof (list_elem_of_lookup_2 _ _ _ He) as Hin. assert (Ha : is_active e = true) by (apply active_version; congruence). split.
    + apply Helem. exists e. split; [done|]. split; [|unfold top_ref_of; congruence].
      rewrite reaches_kept by done. unfold o. by rewrite (locked_kept s Q l e Hs HQ Hl He).
    + intros Ht. rewrite <- E1. apply oldest_live_spec; [done..|]. destruct (m_type l); [done|left; cbn in Hf; lia|].
      right. apply oldest_full_le; [done..|cbn in Hf; lia].
Qed.

(** ** What comes after a cleanup *)

(** The versions of the list. *)
Definition within (P : Z -> Prop) (s : Session) : Prop := forall e, e ∈ vl_data (s_list s) -> rc_version e <> 0 -> P (rc_version e).

Definition newest_version (s : Session) : Z :=
  match vl_newest (s_list s) ≫= (vl_data (s_list s) !!.) with Some r => rc_version r | None => 0 end.

Definition same_version (r r' : ReadCount) : Prop := rc_version r' = rc_version r.

Lemma same_insert d i r r' : d !! i = Some r -> same_version r r' -> Forall2 same_version d (<[i := r']> d).
Proof.
  intros Hi Hv. apply Forall2_same_length_lookup_2; [by rewrite length_insert|]. intros j x y Hx Hy. destruct (decide (j = i)) as [->|Hne].
  - rewrite list_lookup_insert_eq in Hy by by eapply lookup_lt_Some. rewrite Hi in Hx. injection Hx as <-. by injection Hy as <-.
  - rewrite list_lookup_insert_ne, Hx in Hy by done. by injection Hy as <-.
Qed.

Lemma same_within P s s' : Forall2 same_version (vl_data (s_list s)) (vl_data (s_list s')) -> vl_newest (s_list s') = vl_newest (s_list s) ->
  within P s -> within P s' /\ newest_version s <= newest_version s'.
Proof.
  intros H En Hw. split.
  - intros e' He' Hv. apply list_elem_of_lookup in He' as [i Hi]. destruct (Forall2_lookup_r _ _ _ _ _ H Hi) as (e & He & E). unfold same_version in E.
    rewrite E in Hv |- *. apply Hw; [by eapply list_elem_of_lookup_2|done].
  - unfold newest_version. rewrite En. destruct (vl_newest (s_list s)) as [n|]; cbn; [|done].
    destruct (vl_data (s_list s) !! n) as [r|] eqn:E.
    + destruct (Forall2_lookup_l _ _ _ _ _ H E) as (r' & -> & Er). rewrite Er. done.
    + destruct (vl_data (s_list s') !! n) eqn:E'; [|done]. destruct (Forall2_lookup_r _ _ _ _ _ H E') as (? & ? & _). congruence.
Qed.

Lemma grab_shared_same vl t vid l vl' : grab_shared vl t vid = Ok (l, vl') -> Forall2 same_version (vl_data vl) (vl_data vl') /\ vl_newest vl' = vl_newest vl.
Proof.
  unfold grab_shared. intros H. destruct (vl_newest vl) as [n|] eqn:En; [|done]. destruct (vl_data vl !! _) as [r|] eqn:Hr; [|done].
  case_match; [done|]. case_match; [done|]. cbn [populate_read_lock] in H. injection H as _ <-. cbn [with_data vl_data vl_newest]. split; [|done].
  eapply same_insert; [exact Hr|]. apply set_field_version.
Qed.

Lemma newest_is s rn : vl_newest (s_list s) = Some (vl_allocating (s_list s)) -> vl_data (s_list s) !! vl_allocating (s_list s) = Some rn ->
  newest_version s = rc_version rn.
Proof. intros Hn Hr. unfold newest_version. rewrite Hn. cbn. by rewrite Hr. Qed.

Lemma within_cleanup P s p Q r : sinv s -> within P s -> s_parts s !! p = Some Q -> writer Q (s_list s) -> purge_versions (s_list s) = Ok r ->
  within P (mkSession (p_list r) (s_parts s)) /\ newest_version s <= newest_version (mkSession (p_list r) (s_parts s)).
Proof.
  intros Hs Hw HQ Hwr Hp. destruct (purge_data _ r (si_list s Hs) Hp) as (El & _). split.
  - intros e He Hv. cbn in He. rewrite El in He. cbn in He. apply list_elem_of_fmap in He as (e0 & -> & He0). case_match; [done|]. by apply Hw.
  - destruct (lo_newest _ (si_list s Hs)) as (rn & Hn & Hrn & _). rewrite (newest_is s rn Hn Hrn). destruct Hwr as (lw & Hlw & _ & Hnw).
    rewrite Hn in Hnw. injection Hnw as Hnw. unfold newest_version. cbn. rewrite El. cbn. rewrite Hn. cbn. rewrite list_lookup_fmap, Hrn. cbn.
    by rewrite (locked_kept s Q lw rn Hs (list_elem_of_lookup_2 _ _ _ HQ) (or_introl Hlw)) by by rewrite <- Hnw.
Qed.

Lemma within_add P s n r top size version vl' : sinv s -> within P s -> vl_newest (s_list s) = Some n -> vl_data (s_list s) !! n = Some r ->
  rc_version r < version < max_version -> P version -> add_version top size version (s_list s) = Ok vl' ->
  within P (mkSession vl' (s_parts s)) /\ newest_version s <= newest_version (mkSession vl' (s_parts s)).
Proof.
  intros Hs Hw Hn Hr Hv HP Ha. pose proof (lo_newest _ (si_list s Hs)) as (rn & Hn' & Hrn & Hv' & _). rewrite Hn in Hn'. injection Hn' as ->.
  rewrite Hr in Hrn. injection Hrn as <-.
  destruct (add_version_spec (s_list s) top size version Hn (fun i r t => inactive_free s i r t Hs)) as (data & k & rk & Ea & Hk & _ & Hd).
  rewrite Ea in Ha. injection Ha as <-. split.
  - intros e He He0. cbn in He. apply list_elem_of_lookup in He as [j Hj]. destruct (decide (j = k)) as [->|Hne].
    + rewrite list_lookup_insert_eq in Hj by by eapply lookup_lt_Some. injection Hj as <-. done.
    + rewrite list_lookup_insert_ne in Hj by done. apply list_elem_of_lookup_2 in Hj. destruct Hd as [-> | ->]; [by apply Hw|].
      apply elem_of_app in Hj as [Hj|Hj]; [by apply Hw|]. by apply elem_of_replicate in Hj as [-> _].
  - rewrite (newest_is s r Hn Hr). unfold newest_version. cbn. rewrite list_lookup_insert_eq by by eapply lookup_lt_Some. cbn. lia.
Qed.

Lemma within_step P s s' : sinv s -> within P s -> (forall v, newest_version s < v -> P v) -> vstep s s' -> within P s' /\ newest_version s <= newest_version s'.
Proof.
  intros Hs Hf HP Hstep. destruct Hstep as [s|s p Q t vid|s p Q t vid Q' vl' HQ Hpend Hg|s p Q t vid e|s p Q l|s p Q l HQ Hpend|s p Q r HQ Hw Hp
    |s p Q n r top size version vl' HQ Hw Hn Hr Hv Ha]; try (split; [exact Hf|reflexivity]).
  - unfold grab_finish in Hg. destruct (grab_shared (s_list s) t vid) as [[l vl0]| |] eqn:E; [|done..]. injection Hg as _ <-.
    destruct (grab_shared_same _ _ _ _ _ E) as [H1 H2]. by apply (same_within P s).
  - destruct (lock_entry s Q l Hs (list_elem_of_lookup_2 _ _ _ HQ) (or_intror Hpend)) as (r & Hr & _).
    apply (same_within P s); [|done|done]. cbn. rewrite (alter_insert _ _ r) by done. eapply same_insert; [exact Hr|apply set_field_version].
  - by eapply within_cleanup.
  - apply (within_add P s n r top size version); try done. apply HP. unfold newest_version. rewrite Hn. cbn. rewrite Hr. lia.
Qed.

Lemma within_steps P s s' : sinv s -> within P s -> (forall v, newest_version s < v -> P v) -> rtc vstep s s' -> sinv s' /\ within P s'.
Proof.
  intros Hs Hf HP Hr. induction Hr as [|s s1 s2 H1 _ IH]; [done|]. destruct (within_step P s s1 Hs Hf HP H1) as [Hf1 Hle].
  apply IH; [by eapply vstep_sinv|done|]. intros v Hv. apply HP. lia.
Qed.

(** After a cleanup only the versions of its map can be locked, and newer ones. *)
Lemma cleanup_locks s p P r s' Q l : sinv s -> s_parts s !! p = Some P -> writer P (s_list s) ->
  purge_versions (s_list s) = Ok r -> rtc vstep (mkSession (p_list r) (s_parts s)) s' -> Q ∈ s_parts s' -> has_lock Q l ->
  m_version l ∈ map fst (p_top_refs r) \/ newest_version s < m_version l.
Proof.
  intros Hs HP Hw Hp Hsteps HQ Hl. destruct (cleanup_spec s p P Hs HP Hw) as (r' & Hr' & _ & _ & Helem & _).
  rewrite Hp in Hr'. injection Hr' as <-. pose proof (sinv_cleanup s p P r Hs HP Hw Hp) as Hs1.
  destruct (within_cleanup (fun _ => True) s p P r Hs ltac:(done) HP Hw Hp) as [_ Hle].
  destruct (within_steps (fun v => v ∈ map fst (p_top_refs r) \/ newest_version s < v) _ s' Hs1) as [Hs2 Hf2]; [|intros v Hv; right; lia|done|].
  - intros e He Hv. left. apply list_elem_of_In, in_map_iff. exists (top_ref_of e). split; [done|]. apply list_elem_of_In, Helem. by exists e.
  - destruct (lock_entry s' Q l Hs2 HQ Hl) as (e & He & (Ev & _ & _ & H0) & _). rewrite <- Ev. apply Hf2; [by eapply list_elem_of_lookup_2|congruence].
Qed.

(** ** A crash within an allocation *)

Lemma fold_skip {B} (f : B -> ReadCount -> B) l k a b m : l !! k = Some a -> (forall m, f m a = m) -> (forall m, f m b = m) ->
  fold_left f (<[k := b]> l) m = fold_left f l m.
Proof.
  intros Hk Ha Hb. revert k m Hk. induction l as [|x l IH]; intros [|k] m Hk; [done..| |].
  - cbn in Hk. injection Hk as ->. cbn [insert list_insert fold_left]. by rewrite Ha, Hb.
  - cbn in Hk. change (<[S k := b]> (x :: l)) with (x :: <[k := b]> l). cbn [fold_left]. by apply IH.
Qed.

Lemma existsb_skip (f : ReadCount -> bool) l k a b : l !! k = Some a -> f a = false -> f b = false -> existsb f (<[k := b]> l) = existsb f l.
Proof.
  intros Hk Ha Hb. revert k Hk. induction l as [|x l IH]; intros [|k] Hk; [done..| |].
  - cbn in Hk. injection Hk as ->. cbn [insert list_insert existsb]. by rewrite Ha, Hb.
  - cbn in Hk. change (<[S k := b]> (x :: l)) with (x :: <[k := b]> l). cbn [existsb]. by rewrite IH.
Qed.

(** A list that differs from [vl] in an entry without a version is cleaned up
    like [vl]. *)
Lemma purge_skip vl v k a b r : vl_newest v = vl_newest vl -> vl_newest vl = Some (vl_allocating vl) -> k <> vl_allocating vl ->
  vl_data vl !! k = Some a -> rc_version a = 0 -> rc_version b = 0 -> repair v = <[k := b]> (vl_data vl) -> purge_versions vl = Ok r ->
  exists r', purge_versions v = Ok r' /\ p_top_refs r' = p_top_refs r /\ p_oldest_live r' = p_oldest_live r /\
    p_any_new_unreachables r' = p_any_new_unreachables r /\
    forall i e, rc_version e <> 0 -> vl_data (p_list r') !! i = Some e <-> vl_data (p_list r) !! i = Some e.
Proof.
  intros Hn Hnv Hne Hk Ha Hb Hrep Hp. unfold purge_versions in *. rewrite Hrep, Hn. unfold repair in Hp. rewrite bool_decide_true in Hp by done.
  assert (Hia : is_active a = false) by (unfold is_active; by rewrite Ha). assert (Hib : is_active b = false) by (unfold is_active; by rewrite Hb).
  set (d := vl_data vl) in *.
  assert (Ho : oldest_full (<[k := b]> d) = oldest_full d) by (apply (fold_skip _ d k a b); [done|intros; by rewrite Hia|intros; by rewrite Hib]).
  rewrite Ho. set (o := oldest_full d) in *.
  assert (collect_top_refs o (<[k := b]> d) = collect_top_refs o d) as -> by (apply (fold_skip _ d k a b); [done|intros; by rewrite Hia|intros; by rewrite Hib]).
  assert (oldest_live o (<[k := b]> d) = oldest_live o d) as -> by (apply (fold_skip _ d k a b); [done|intros; by rewrite Hia|intros; by rewrite Hib]).
  destruct (collect_top_refs o d) as [|[ov info] m]; [done|].
  rewrite (existsb_skip _ d k a b) by (try done; unfold becomes_unreachable; by rewrite ?Hia, ?Hib).
  rewrite Hnv in *. cbn [mbind option_bind] in *. rewrite list_lookup_insert_ne by done. case_match; [done|]. case_match; [done|].
  injection Hp as <-. eexists. split; [done|]. do 3 (split; [done|]). intros i e He. cbn [p_list with_data vl_data].
  rewrite !list_lookup_fmap. destruct (decide (i = k)) as [->|Hi]; [|by rewrite list_lookup_insert_ne].
  rewrite list_lookup_insert_eq, Hk by by eapply lookup_lt_Some. cbn. unfold becomes_unreachable. rewrite Hia, Hib. cbn.
  split; intros Hx; injection Hx as <-; congruence.
Qed.

Lemma alloc_trace_cases vl k a top size version v : vl_data vl !! k = Some a -> rc_version a = 0 -> version <> 0 ->
  vl_newest vl = Some (vl_allocating vl) -> k <> vl_allocating vl -> v ∈ alloc_trace vl k top size version ->
  v = allocated_in (vl_data vl) k a top size version \/
  vl_newest v = vl_newest vl /\ vl_allocating v = k /\ exists b, rc_version b = 0 /\ repair v = <[k := b]> (vl_data vl).
Proof.
  intros Hk Ha Hv Hn Hne Hin. pose proof (lookup_lt_Some _ _ _ Hk) as Hlen.
  assert (Hbd : bool_decide (vl_newest vl = Some k) = false) by (apply bool_decide_false; rewrite Hn; congruence).
  pose proof (alloc_trace_last vl k a top size version Hk) as Hlast.
  apply list_elem_of_In in Hin. destruct Hin as [<-|[<-|[<-|[<-|[<-|[]]]]]]; [right..|left; exact Hlast];
    (split; [done|]; split; [done|]; unfold repair; cbn [with_data vl_newest vl_allocating vl_data]; rewrite Hbd).
  - exists (deactivate a). split; [done|by apply alter_insert].
  - exists (deactivate (set_top top a)). split; [done|]. by rewrite (alter_insert (set_top top) _ a), alter_on_insert.
  - exists (deactivate (set_filesize size (set_top top a))). split; [done|]. by rewrite (alter_insert (set_top top) _ a), !alter_on_insert.
  - exists (deactivate (activate version (set_filesize size (set_top top a)))). split; [done|]. by rewrite (alter_insert (set_top top) _ a), !alter_on_insert.
Qed.

(** ** Requests *)

(** How a request in progress may end. *)
Definition outcome (s : Session) (P P' : Participant) : Prop :=
  match db_pending P with
  | Grabbing t None =>
      exists l n r, db_held P' = l :: db_held P /\ m_type l = t /\ vl_newest (s_list s) = Some n /\ m_reader_idx l = n /\
        vl_data (s_list s) !! n = Some r /\ describes r l
  | Grabbing t (Some (v, i)) =>
      db_held P' = db_held P \/
      exists l, db_held P' = l :: db_held P /\ m_type l = t /\ m_version l = v /\ m_reader_idx l = i
  | _ => db_held P' = db_held P
  end.

Lemma grab_newest s t P : sinv s -> exists l n r vl', grab_finish t None (s_list s) P = Ok (add_lock l (record_local l (m_local_readers P)) P, vl') /\
  m_type l = t /\ vl_newest (s_list s) = Some n /\ m_reader_idx l = n /\ vl_data (s_list s) !! n = Some r /\ describes r l.
Proof.
  intros Hs. destruct (lo_newest _ (si_list s Hs)) as (rn & Hn & Hrn & Hv & _). unfold grab_finish, grab_shared. rewrite Hn, Hrn, Nat.eqb_refl.
  exists (mkLock (rc_version rn) (vl_allocating (s_list s)) (rc_current_top rn) (rc_filesize rn) t), (vl_allocating (s_list s)), rn.
  eexists. split; [reflexivity|]. split; [done|]. split; [done|]. split; [done|]. split; [done|]. unfold describes. cbn. lia.
Qed.

Lemma grab_specific t v i vl P : (exists P' vl', grab_finish t (Some (v, i)) vl P = Ok (P', vl') /\ db_pending P' = Idle /\
    exists l, db_held P' = l :: db_held P /\ m_type l = t /\ m_version l = v /\ m_reader_idx l = i) \/
  exists e, grab_finish t (Some (v, i)) vl P = Throw e.
Proof.
  unfold grab_finish, grab_shared. destruct (vl_newest vl) as [n|]; [|right; by eexists]. destruct (vl_data vl !! i) as [r|]; [|right; by eexists].
  destruct (Z.eqb_spec v (rc_version r)) as [->|]; [|right; by eexists]. cbn [negb]. case_match; [right; by eexists|].
  left. cbn [mbind result_bind populate_read_lock]. do 2 eexists. split; [reflexivity|]. split; [reflexivity|]. by eexists.
Qed.

(** ** A session *)

Definition got {A} (r : result A) (d : A) : A := match r with Ok a => a | _ => d end.

(** One participant holds version 1; it publishes version 2, which a second one
    then holds. *)
Definition demo0 : Session :=
  Eval vm_compute in mkSession (got (init_versioning 64 4096 1 (mkVL (replicate 4 zero_rc) 0 None)) (mkVL [] 0 None)) [].
Definition demo_join (s : Session) : Session := mkSession (s_list s) (s_parts s ++ [new_participant]).
Definition demo_lock (t : LockType) (p : nat) (P : Participant) (s : Session) : Session :=
  let s := put_part p (grab_start (vl_newest (s_list s)) t None P) s in
  let '(P, vl) := got (grab_finish t None (s_list s) (default P (s_parts s !! p))) (P, s_list s) in
  mkSession vl (<[p := P]> (s_parts s)).
Definition demo1 : Session := Eval vm_compute in demo_lock Live 0 new_participant (demo_join demo0).
Definition demo2 : Session := Eval vm_compute in mkSession (got (add_version 128 8192 2 (s_list demo1)) (s_list demo1)) (s_parts demo1).
Definition demo3 : Session := Eval vm_compute in demo_lock Live 1 new_participant (demo_join demo2).
Definition demo_part (p : nat) (s : Session) : Participant := default new_participant (s_parts s !! p).
Definition demo_request : Session := Eval vm_compute in
  put_part 0 (grab_start (vl_newest (s_list demo2)) Live None (demo_part 0 demo2)) demo2.

Lemma demo_start : vreach demo0.
Proof. apply vreach_start. refine (vstart_intro 64 4096 1 (replicate 4 zero_rc) _ _ _ _); [done|done|reflexivity]. Qed.

Lemma demo_lock_step t p s : vreach s -> s_parts s !! p = Some new_participant -> vreach (demo_lock t p new_participant s).
Proof.
  intros Hs Hp. pose proof (vreach_step _ _ Hs (vs_grab_start s p new_participant t None Hp eq_refl eq_refl)) as H1.
  set (s1 := put_part p (grab_start (vl_newest (s_list s)) t None new_participant) s) in *.
  assert (Hg : grab_start (vl_newest (s_list s)) t None new_participant = mkPart [] [] [] (Grabbing t None)).
  { unfold grab_start, try_grab_local_read_lock. by destruct (vl_newest (s_list s)). }
  assert (Hp1 : s_parts s1 !! p = Some (mkPart [] [] [] (Grabbing t None))).
  { unfold s1. rewrite Hg. apply list_lookup_insert_eq. by eapply lookup_lt_Some. }
  destruct (grab_newest s1 t (mkPart [] [] [] (Grabbing t None)) (vreach_sinv s1 H1)) as (l & n & r & vl' & E & _).
  pose proof (vreach_step _ _ H1 (vs_grab_finish s1 p _ t None _ vl' Hp1 eq_refl E)) as H2.
  unfold demo_lock. fold s1. rewrite Hp1. cbn [default]. unfold default, id. by rewrite E.
Qed.

Lemma demo1_reach : vreach demo1.
Proof. apply (demo_lock_step Live 0 (demo_join demo0)); [|done]. exact (vreach_step _ _ demo_start (vs_join demo0 eq_refl)). Qed.

Lemma demo2_reach : vreach demo2.
Proof.
  refine (vreach_step _ _ demo1_reach (vs_add demo1 0 (demo_part 0 demo1) 0 (mkRC 1 4096 64 1 0 0) 128 8192 2 _ eq_refl _ eq_refl eq_refl _ eq_refl)); [|done].
  eexists. split; [apply list_elem_of_here|done].
Qed.

Lemma demo3_reach : vreach demo3.
Proof. apply (demo_lock_step Live 1 (demo_join demo2)); [|done]. exact (vreach_step _ _ demo2_reach (vs_join demo2 eq_refl)). Qed.

Lemma demo_request_reach : vreach demo_request.
Proof. exact (vreach_step _ _ demo2_reach (vs_grab_start demo2 0 (demo_part 0 demo2) Live None eq_refl eq_refl eq_refl)). Qed.

(** ** The theorems *)

(** Claim C9. In every reachable state of a session, whatever its participants do
    and however their requests interleave, a lock that is held or being released
    pins its snapshot: the shared entry the lock names is the one it was taken
    on, with its top reference and file size, and its counter is positive. The
    participant's own cache agrees on the locks that it holds. *)
Theorem readers_pinned s P l : vreach s -> P ∈ s_parts s -> has_lock P l ->
  (exists r, vl_data (s_list s) !! m_reader_idx l = Some r /\ describes r l /\ 0 < field_for_type r (m_type l)) /\
  (l ∈ db_held P -> exists r, m_local_readers P !! m_reader_idx l = Some r /\ describes r l /\ 0 < field_for_type r (m_type l)).
Proof.
  intros Hs%vreach_sinv HP Hl. split; [by apply (lock_entry s P)|]. intros Hh.
  pose proof (proj1 (List.Forall_forall _ _) (si_parts s Hs) P (proj1 (list_elem_of_In _ _) HP)) as HPo.
  destruct (po_cache _ P HPo l Hh) as (r & Hr & Hd). exists r. split; [done|]. split; [done|].
  pose proof (po_counts _ P HPo (m_type l) (m_reader_idx l)) as Hc. unfold field_at in Hc. rewrite Hr in Hc. rewrite Hc. by apply cnt_pos.
Qed.

Lemma readers_pinned_witness : exists r, vl_data (s_list demo3) !! 0%nat = Some r /\ rc_version r = 1.
Proof.
  destruct (readers_pinned demo3 (demo_part 0 demo3) (mkLock 1 0 64 4096 Live) demo3_reach (list_elem_of_here _ _) (or_introl (list_elem_of_here _ _)))
    as [(r & Hr & Hd & _) _].
  exists r. split; [exact Hr|apply Hd].
Defined.

(** Claim C27. The cleanup of a commit succeeds, and keeps exactly the snapshots
    that locks need. The map it returns lists them in version order with their
    top references and file sizes, among them that of every lock; and its oldest
    live version is not above that of any live or full lock. *)
Theorem cleanup_exact s p P : vreach s -> s_parts s !! p = Some P -> writer P (s_list s) ->
  exists r, purge_versions (s_list s) = Ok r /\
    (forall i e, vl_data (s_list s) !! i = Some e -> rc_version e <> 0 ->
       exists e', vl_data (p_list r) !! i = Some e' /\ (rc_version e' <> 0 <-> needed s i e) /\ (needed s i e -> e' = e)) /\
    StronglySorted key_lt (p_top_refs r) /\
    (forall x, x ∈ p_top_refs r <-> exists e, e ∈ vl_data (p_list r) /\ rc_version e <> 0 /\ x = top_ref_of e) /\
    (forall Q l, Q ∈ s_parts s -> has_lock Q l ->
       (m_version l, (m_top_ref l, m_file_size l)) ∈ p_top_refs r /\ (m_type l <> Frozen -> p_oldest_live r <= m_version l)).
Proof. intros Hs. apply cleanup_spec. by apply vreach_sinv. Qed.

Lemma demo3_writer : writer (demo_part 1 demo3) (s_list demo3).
Proof. eexists. split; [apply list_elem_of_here|done]. Qed.

Lemma cleanup_exact_witness : exists r, purge_versions (s_list demo3) = Ok r /\ (1, (64, 4096)) ∈ p_top_refs r.
Proof.
  destruct (cleanup_exact demo3 1 (demo_part 1 demo3) demo3_reach eq_refl demo3_writer) as (r & Hr & _ & _ & _ & H).
  exists r. split; [exact Hr|]. exact (proj1 (H (demo_part 0 demo3) (mkLock 1 0 64 4096 Live) (list_elem_of_here _ _) (or_introl (list_elem_of_here _ _)))).
Defined.

(** A cleanup is final: whatever happens in the session after it, no
    participant ever obtains a lock on a version older than the oldest one the
    cleanup returned. *)
Theorem cleanup_final s p P r s' Q l : vreach s -> s_parts s !! p = Some P -> writer P (s_list s) ->
  purge_versions (s_list s) = Ok r -> rtc vstep (mkSession (p_list r) (s_parts s)) s' -> Q ∈ s_parts s' -> has_lock Q l ->
  exists oldest info, head (p_top_refs r) = Some (oldest, info) /\ oldest <= m_version l.
Proof.
  intros Hs%vreach_sinv HP Hw Hp Hsteps HQ Hl. pose proof (cleanup_locks s p P r s' Q l Hs HP Hw Hp Hsteps HQ Hl) as Hv.
  destruct (cleanup_spec s p P Hs HP Hw) as (r' & Hr' & _ & Hsort & _ & Hlocks). rewrite Hp in Hr'. injection Hr' as <-.
  destruct Hw as (lw & Hlw & _ & Hnw). pose proof (list_elem_of_lookup_2 _ _ _ HP) as HPe. destruct (Hlocks P lw HPe (or_introl Hlw)) as [Htop _].
  destruct (lock_entry s P lw Hs HPe (or_introl Hlw)) as (rn & Hrn & (Ev & _) & _).
  assert (En : newest_version s = m_version lw) by (unfold newest_version; rewrite Hnw; cbn; by rewrite Hrn).
  destruct (p_top_refs r) as [|[oldest info] m]; [by apply elem_of_nil in Htop|]. exists oldest, info. split; [done|].
  pose proof (sorted_head _ _ _ Hsort Htop) as Hle. cbn in Hle. destruct Hv as [Hv|Hv]; [|lia].
  apply list_elem_of_In, in_map_iff in Hv as (x & Ex & Hx). rewrite <- Ex. exact (sorted_head _ _ x Hsort (proj2 (list_elem_of_In _ _) Hx)).
Qed.

Lemma cleanup_final_witness : exists r, purge_versions (s_list demo3) = Ok r /\
  exists oldest info, head (p_top_refs r) = Some (oldest, info) /\ oldest <= 1.
Proof.
  eexists. split; [vm_compute; reflexivity|].
  exact (cleanup_final demo3 1 (demo_part 1 demo3) _ _ (demo_part 0 demo3) (mkLock 1 0 64 4096 Live) demo3_reach eq_refl demo3_writer
    eq_refl (rtc_refl _ _) (list_elem_of_here _ _) (or_introl (list_elem_of_here _ _))).
Defined.

(** A request in progress can always be completed, whatever the others
    do: one step ends it. A request for the newest snapshot is then granted; one
    for a given snapshot is granted on that snapshot or refused without a trace;
    and a release is done. *)
Theorem request_completes s p P : vreach s -> s_parts s !! p = Some P -> db_pending P <> Idle ->
  exists vl' P', vstep s (mkSession vl' (<[p := P']> (s_parts s))) /\ db_pending P' = Idle /\ outcome s P P'.
Proof.
  intros Hs%vreach_sinv HP Hpend. unfold outcome. destruct (db_pending P) as [|t vid|l] eqn:E; [done| |].
  - destruct vid as [[v i]|].
    + destruct (grab_specific t v i (s_list s) P) as [(P' & vl' & Hg & Hi & Hl)|(e & Hg)].
      * exists vl', P'. split; [by eapply vs_grab_finish|auto].
      * exists (s_list s), (set_idle P). split; [by eapply vs_grab_refused|auto].
    + destruct (grab_newest s t P Hs) as (l & n & r & vl' & Hg & Hl). exists vl', (add_lock l (record_local l (m_local_readers P)) P).
      split; [by eapply vs_grab_finish|]. split; [done|]. by exists l, n, r.
  - exists (release_shared l (s_list s)), (set_idle P). split; [by apply vs_release_finish|done].
Qed.

Lemma request_completes_witness : exists vl' P',
  vstep demo_request (mkSession vl' (<[0%nat := P']> (s_parts demo_request))) /\ db_pending P' = Idle.
Proof.
  destruct (request_completes demo_request 0 (demo_part 0 demo_request) demo_request_reach eq_refl ltac:(discriminate)) as (vl' & P' & H1 & H2 & _).
  exists vl', P'. split; [exact H1|exact H2].
Defined.

(** A process that dies between any two stores of an allocation leaves
    a list that shows the complete new version, or one that a cleanup treats like
    the list before: the same snapshots, the same oldest versions. The next
    allocation then reuses the half-written entry. *)
Theorem alloc_crash_safe s p P k top size version v r : vreach s -> s_parts s !! p = Some P -> writer P (s_list s) -> version <> 0 ->
  alloc_index (s_list s) = Some k -> v ∈ alloc_trace (s_list s) k top size version -> purge_versions (s_list s) = Ok r ->
  (exists a, v = allocated_in (vl_data (s_list s)) k a top size version) \/
  vl_newest v = vl_newest (s_list s) /\ alloc_index v = Some k /\
  exists r', purge_versions v = Ok r' /\ p_top_refs r' = p_top_refs r /\ p_oldest_live r' = p_oldest_live r /\
    p_any_new_unreachables r' = p_any_new_unreachables r /\
    forall i e, rc_version e <> 0 -> vl_data (p_list r') !! i = Some e <-> vl_data (p_list r) !! i = Some e.
Proof.
  intros Hs%vreach_sinv HP Hw Hv Hk Hin Hr. destruct (lo_newest _ (si_list s Hs)) as (rn & Hn & Hrn & Hvn & _).
  unfold alloc_index in Hk. rewrite bool_decide_true in Hk by done. destruct (find_inactive_some _ _ Hk) as (a & Ha & Ha0).
  assert (Hne : k <> vl_allocating (s_list s)) by (intros ->; rewrite Ha in Hrn; injection Hrn as ->; lia).
  destruct (alloc_trace_cases _ k a top size version v Ha Ha0 Hv Hn Hne Hin) as [->|(H1 & H2 & b & Hb & Hrep)]; [left; by exists a|].
  right. split; [done|]. split; [unfold alloc_index; rewrite H1, H2, bool_decide_false by congruence; done|].
  by apply (purge_skip (s_list s) v k a b r).
Qed.

Lemma alloc_crash_safe_witness : exists v r', v ∈ alloc_trace (s_list demo3) 2 192 12288 3 /\ rc_version (default zero_rc (vl_data v !! 2%nat)) = 3 /\
  purge_versions v = Ok r' /\ p_top_refs r' = [(1, (64, 4096)); (2, (128, 8192))].
Proof.
  set (v := default (s_list demo3) (alloc_trace (s_list demo3) 2 192 12288 3 !! 3%nat)). exists v.
  assert (Hin : v ∈ alloc_trace (s_list demo3) 2 192 12288 3) by (apply (list_elem_of_lookup_2 _ 3%nat); reflexivity).
  destruct (alloc_crash_safe demo3 1 (demo_part 1 demo3) 2 192 12288 3 v _ demo3_reach eq_refl demo3_writer ltac:(discriminate) eq_refl Hin eq_refl)
    as [[a Ha]|(_ & _ & r' & Hr' & Ht & _)]; [discriminate Ha|].
  exists r'. split; [exact Hin|]. split; [reflexivity|]. split; [exact Hr'|exact Ht].
Defined.

(** ** Closing a participant *)

(** A participant holds a live and a frozen lock on version 1, and releases the
    frozen one. *)
Definition both_locks : Session := Eval vm_compute in demo_lock Frozen 0 (demo_part 0 demo1) demo1.
Definition frozen_lock : ReadLockInfo := mkLock 1 0 64 4096 Frozen.
Definition one_lock : Session := Eval vm_compute in
  let s := put_part 0 (release_start frozen_lock (demo_part 0 both_locks)) both_locks in
  mkSession (release_shared frozen_lock (s_list s)) (<[0%nat := set_idle (demo_part 0 s)]> (s_parts s)).

(** [do_release_read_lock] finds the lock to forget by its version alone, so the
    list is left with the frozen lock, and the live one is the one held. Closing
    the participant then releases the wrong lock: the live counter of version 1
    stays positive with nobody left to lower it. *)
Example close_leaks_lock :
  db_held (demo_part 0 one_lock) = [mkLock 1 0 64 4096 Live] /\
  m_local_locks_held (demo_part 0 one_lock) = [frozen_lock] /\
  let '(P, vl) := release_all_read_locks (demo_part 0 one_lock) (s_list one_lock) in
  m_local_locks_held P = [] /\ count_live <$> vl_data vl !! 0%nat = Some 1 /\ count_frozen <$> vl_data vl !! 0%nat = Some 0.
Proof. vm_compute. auto. Qed.
