(* ===== verification/WriteGroup.v ===== *)
(** * Writing a group

    Models how a commit manages the space of the file (group_writer.cpp,
    group_writer.hpp, db.cpp): the reachable versions it is told of, the
    evacuation of the end of the file, [backdate], and [GroupWriter::write_group]
    from reading the free lists to the lists it leaves in the file.

    What the writer stores into the blocks is not part of this file: the arrays of
    the tree appear as the sizes they ask for, and the four arrays at the end (the
    three free lists and the top array) as the bytes they take.

    The top array's own elements are not modelled but for the evacuation point. *)

From S2P Require Import Prelude NodeHeader ArrayDirect Array VersionList FreeList FreeListTheorems.

(** ** The versions of a commit *)

(** The checkpoint the file header points at stays reachable: [low_level_commit]
    adds it to the map of the cleanup. *)
Definition commit_top_refs (checkpoint : option (Z * (Z * Z))) (top_refs : TopRefMap) : TopRefMap :=
  match checkpoint with
  | Some (version, (top_ref, logical_size)) =>
      if negb (top_ref =? 0) then top_refs_emplace version (top_ref, logical_size) top_refs else top_refs
  | None => top_refs
  end.

Record Versions := mkVersions {
  m_current_version : Z;
  m_oldest_reachable_version : Z;
  m_any_new_unreachables : bool;
  m_top_ref_map : TopRefMap
}.

Definition set_versions (current : Z) (top_refs : TopRefMap) (any_new_unreachables : bool) : result Versions :=
  match top_refs with
  | [] => Throw OutOfRange
  | (oldest, _) :: _ =>
      if negb (oldest <=? current) then Throw AssertionFailed
      else Ok (mkVersions current oldest any_new_unreachables top_refs)
  end.

(** ** Backdating *)

(** The free lists a reachable version left in the file; [None] when it has none. *)
Record OldFreeList := mkOld {
  fl_version : Z;
  fl_logical_file_size : Z;
  fl_entries : option (list FreeSpaceEntry)
}.

(** [free_lists] reads the three arrays under a top reference. *)
Definition old_freelists (free_lists : Z -> option (list FreeSpaceEntry)) (vs : Versions) : list OldFreeList :=
  map (fun e : Z * (Z * Z) => let '(version, (top_ref, logical)) := e in
         mkOld version logical (if top_ref =? 0 then None else free_lists top_ref))
    (List.filter (fun e : Z * (Z * Z) => negb (e.1 <? m_oldest_reachable_version vs)) (m_top_ref_map vs)).

(** The number of leading lists older than a version, and of leading entries at
    or before a position. *)
Fixpoint older_lists (version : Z) (l : list OldFreeList) : nat :=
  match l with o :: l => if fl_version o <? version then S (older_lists version l) else 0%nat | [] => 0%nat end.

Fixpoint upper_bound_pos (ref : Z) (l : list FreeSpaceEntry) : nat :=
  match l with e :: l => if e_ref e <=? ref then S (upper_bound_pos ref l) else 0%nat | [] => 0%nat end.

(** The youngest version older than the one given. *)
Definition get_earlier (old : list OldFreeList) (version : Z) : result OldFreeList :=
  let it := older_lists version old in
  if (it =? length old)%nat then Throw AssertionFailed else
  match it with
  | O => Throw AssertionFailed
  | S it => match old !! it with Some o => Ok o | None => Throw OutOfRange end
  end.

(** The entries that follow without a gap, until the chunk is covered. *)
Fixpoint coalesce (entry_end end_pos found_version : Z) (l : list FreeSpaceEntry) : Z * Z :=
  match l with
  | e :: l =>
      if (e_ref e =? end_pos) && (end_pos <? entry_end)
      then coalesce entry_end (end_pos + e_size e) (Z.max found_version (e_released_at_version e)) l
      else (end_pos, found_version)
  | [] => (end_pos, found_version)
  end.

(** The youngest stamp among the free chunks that together cover the given one. *)
Definition find_cover_for (entry : FreeSpaceEntry) (free_list : OldFreeList) : result (option Z) :=
  let entry_end := Z.min (e_ref entry + e_size entry) (fl_logical_file_size free_list) in
  if entry_end <=? e_ref entry then Ok (Some 0) else
  match fl_entries free_list with
  | None => Ok None
  | Some l =>
      match upper_bound_pos (e_ref entry) l with
      | O => Ok None
      | S index =>
          match l !! index with
          | None => Throw AssertionFailed
          | Some e =>
              let end_pos := e_ref e + e_size e in
              if end_pos <=? e_ref entry then Ok None else
              let '(end_pos, found_version) := coalesce entry_end end_pos (e_released_at_version e) (drop (S index) l) in
              if end_pos <? entry_end then Ok None else
              if negb (found_version <=? e_released_at_version entry) then Throw AssertionFailed
              else Ok (Some found_version)
          end
      end
  end.

Definition set_released (entry : FreeSpaceEntry) (v : Z) : FreeSpaceEntry := mkEntry (e_ref entry) (e_size entry) v.

Fixpoint backdate_loop (fuel : nat) (oldest : Z) (old : list OldFreeList) (entry : FreeSpaceEntry) : result FreeSpaceEntry :=
  if e_released_at_version entry =? 0 then Ok entry else
  if e_released_at_version entry <=? oldest then Ok entry else
  match fuel with
  | O => OutOfFuel
  | S fuel =>
      earlier ← get_earlier old (e_released_at_version entry);
      cover ← find_cover_for entry earlier;
      match cover with
      | Some covering_version => backdate_loop fuel oldest old (set_released entry covering_version)
      | None => Ok entry
      end
  end.

(** Each round goes to an older list. *)
Definition backdate_single_entry (vs : Versions) (old : list OldFreeList) (entry : FreeSpaceEntry) : result FreeSpaceEntry :=
  if e_released_at_version entry =? m_current_version vs then Ok entry
  else backdate_loop (length old) (m_oldest_reachable_version vs) old entry.

Fixpoint backdate_entries (vs : Versions) (old : list OldFreeList) (l : list FreeSpaceEntry) : result (list FreeSpaceEntry) :=
  match l with
  | [] => Ok []
  | entry :: l =>
      entry ← backdate_single_entry vs old entry;
      l ← backdate_entries vs old l;
      Ok (entry :: l)
  end.

Definition with_pinned (w : GroupWriter) (l : list FreeSpaceEntry) : GroupWriter :=
  mkWriter (m_size_map w) l (m_under_evacuation w) (m_evacuation_limit w) (m_backoff w) (m_logical_size w) (m_file_size w).

Definition backdate (vs : Versions) (old : list OldFreeList) (w : GroupWriter) : result GroupWriter :=
  l ← backdate_entries vs old (m_not_free_in_file w);
  Ok (with_pinned w l).

(** ** Evacuating the end of the file *)

(** The slot of the top array: zero or absent, a tagged limit, or the reference of
    an array with the limit, the backoff and the progress. *)
Inductive EvacuationPoint :=
| NoPoint
| TaggedLimit (limit : Z)
| PointArray (l : list Z).

Record Evacuation := mkEvac {
  ev_limit : Z;
  ev_backoff : Z;
  ev_progress : list Z;
  ev_point : EvacuationPoint
}.

Definition prepare_evacuation (free_positions_ref : Z) (point : EvacuationPoint) : result Evacuation :=
  match point with
  | NoPoint => Ok (mkEvac 0 0 [] NoPoint)
  | TaggedLimit limit => Ok (mkEvac limit 0 [] (PointArray [limit; 0]))
  | PointArray (limit :: backoff :: progress) =>
      let '(backoff, progress) := if 0 <? backoff then (backoff - 1, []) else (backoff, progress) in
      if (0 <? limit) && (limit <? free_positions_ref) then Ok (mkEvac 0 10 progress point)
      else Ok (mkEvac limit backoff progress point)
  | PointArray _ => Throw AssertionFailed
  end.

Definition with_backoff (w : GroupWriter) (b : Z) : GroupWriter :=
  mkWriter (m_size_map w) (m_not_free_in_file w) (m_under_evacuation w) (m_evacuation_limit w) b (m_logical_size w) (m_file_size w).

Section Space.
Context (page_size : Z).

(** [write_group] writes the array of the evacuation, of [bytes] bytes, or drops
    it. *)
Definition save_evacuation (commit_size bytes : Z) (progress : list Z) (point : EvacuationPoint) (w : GroupWriter) :
    result (list (Z * Z) * EvacuationPoint * GroupWriter) :=
  if negb (m_evacuation_limit w =? 0) || negb (m_backoff w =? 0) then
    match point with
    | PointArray _ =>
        let w := if (m_backoff w =? 0) && bool_decide (progress = []) then with_backoff w 1000 else w in
        '(pos, w') ← get_free_space page_size 3 commit_size w bytes;
        Ok ([(pos, bytes)], PointArray (m_evacuation_limit w :: m_backoff w :: progress), w')
    | _ => Throw AssertionFailed
    end
  else Ok ([], NoPoint, w).

(** When one free chunk is all there is above the limit, and it ends the file, the
    file is cut at it. *)
Definition shrink_file (point : EvacuationPoint) (w : GroupWriter) : result (EvacuationPoint * GroupWriter) :=
  match m_under_evacuation w with
  | [elem] =>
      if e_ref elem + e_size elem =? m_logical_size w then
        let pos := e_ref elem in
        let logical_size := round_up_to_page_size page_size pos in
        let size := logical_size - pos in
        match point with
        | PointArray _ =>
            Ok (NoPoint, mkWriter (m_size_map w) (m_not_free_in_file w)
                  (if size =? 0 then [] else [mkEntry pos size (e_released_at_version elem)]) 0 (m_backoff w)
                  logical_size (m_file_size w))
        | _ => Throw AssertionFailed
        end
      else Ok (point, w)
  | _ => Ok (point, w)
  end.

Definition minimal_compaction_size : Z := 0x100000.
Definition minimal_evac_limit : Z := 0x10000.

(** A compaction of the file starts when it is worth it: the slot then holds its
    limit. *)
Definition start_compaction (free_space : Z) (point : EvacuationPoint) (w : GroupWriter) : result EvacuationPoint :=
  if (minimal_compaction_size <=? m_logical_size w) && (m_evacuation_limit w =? 0) && (m_backoff w =? 0) then
    if negb (free_space <? m_logical_size w) then Throw AssertionFailed else
    let used_space := m_logical_size w - free_space in
    if 2 * used_space <? free_space
    then Ok (TaggedLimit (Z.max minimal_evac_limit (round_up_to_page_size page_size (used_space + used_space / 2))))
    else Ok point
  else Ok point.

Definition size_per_free_list_entry (w : GroupWriter) : Z := (if m_logical_size w <? 0x8000000 then 8 else 16) + 8.

Definition max_free_space_needed (top_size : Z) (released : list (Z * Z)) (w : GroupWriter) : Z :=
  get_max_byte_size top_size + size_per_free_list_entry w *
    Z.of_nat (length (m_size_map w) + length released + length (m_not_free_in_file w) + length (m_under_evacuation w) + 10).

(** The width and the bytes of an array that the given values were added to. *)
Definition array_width (values : list Z) : Z := fold_right (fun v w => Z.max (bit_width v) w) 0 values.
Definition array_bytes (n width : Z) : Z := calc_byte_size wtype_Bits n width.

Definition below_ubound (value width : Z) : bool :=
  match ubound_for_width width with Some u => value <=? u | None => false end.

(** What a commit leaves behind: the blocks its arrays were given, where the
    free lists and the top array are, and the free lists. *)
Record Written := mkWritten {
  wr_blocks : list (Z * Z);
  wr_reserve_pos : Z;
  wr_end_ref : Z;
  wr_free_list : list FreeSpaceEntry;
  wr_free_space_size : Z;
  wr_locked_space_size : Z;
  wr_logical_size : Z;
  wr_file_size : Z;
  wr_point : EvacuationPoint
}.

Definition s_evacuation_point_ndx : Z := 11.

(** The last part of [write_group]: where the three lists and the top array go in
    the reserved chunk, and what is left of it. [top_width] is the width of the
    top array. *)
Definition place_lists (needed reserve_size reserve_pos top_size top_width : Z) (blocks : list (Z * Z)) (r : Recreated)
    (point : EvacuationPoint) (w : GroupWriter) : result Written :=
  if negb (needed <? reserve_size) then Throw AssertionFailed else
  let n := Z.of_nat (length (r_entries r)) in
  let positions_width := Z.max (array_width (map e_ref (r_entries r))) (bit_width (reserve_pos + needed)) in
  let lengths_width := array_width (map e_size (r_entries r)) in
  let free_sizes_ref := reserve_pos + array_bytes n positions_width in
  let free_versions_ref := free_sizes_ref + array_bytes n lengths_width in
  let top_ref := free_versions_ref + array_bytes n (array_width (map e_released_at_version (r_entries r))) in
  point ← start_compaction (r_free_space_size r + reserve_size - needed - r_locked_space_size r) point w;
  let top_size := match point with TaggedLimit _ => Z.max top_size (s_evacuation_point_ndx + 1) | _ => top_size end in
  let end_ref := top_ref + array_bytes top_size top_width in
  if negb (end_ref <=? reserve_pos + needed) then Throw AssertionFailed else
  let rest := reserve_pos + reserve_size - end_ref in
  if negb (0 <? rest) then Throw AssertionFailed else
  if negb (below_ubound end_ref positions_width) then Throw AssertionFailed else
  if negb (below_ubound rest lengths_width) then Throw AssertionFailed else
  Ok (mkWritten blocks reserve_pos end_ref (deduct_reserved r end_ref) (r_free_space_size r + rest) (r_locked_space_size r)
        (m_logical_size w) (m_file_size w) point).

(** The end of [write_group], once the arrays of the tree are written; [released]
    is the space the transaction released. *)
Definition write_free_lists (commit_size top_size top_width current : Z) (released blocks : list (Z * Z)) (point : EvacuationPoint)
    (w : GroupWriter) : result Written :=
  let needed := max_free_space_needed top_size released w in
  '(w, it) ← reserve_free_space page_size 3 commit_size w (needed + 8);
  match m_size_map w !! it with
  | None => Throw OutOfRange
  | Some (reserve_size, reserve_pos) =>
      '(point, w) ← shrink_file point w;
      r ← recreate_freelist w current released reserve_pos;
      place_lists needed reserve_size reserve_pos top_size top_width blocks r point w
  end.

(** [sizes] are the sizes of the arrays the tree writes, in order. *)
Definition write_group (vs : Versions) (free_lists : Z -> option (list FreeSpaceEntry)) (ev : Evacuation)
    (logical_size file_size : Z) (file : list FreeSpaceEntry) (commit_size : Z) (sizes : list Z) (released : list (Z * Z))
    (evac_bytes top_size top_width : Z) : result Written :=
  w ← read_in_freelist (m_oldest_reachable_version vs) (ev_limit ev) (ev_backoff ev) logical_size file_size file;
  '(blocks, w) ← get_free_spaces page_size commit_size w sizes;
  '(evac_block, point, w) ← save_evacuation commit_size evac_bytes (ev_progress ev) (ev_point ev) w;
  w ← (if m_any_new_unreachables vs then backdate vs (old_freelists free_lists vs) w else Ok w);
  write_free_lists commit_size top_size top_width (m_current_version vs) released (blocks ++ evac_block) point w.

End Space.
