(* ===== verification/SpaceInv.v ===== *)
(** * Space and snapshots: backdating

    What the stamps in the free lists mean for the snapshots that use the bytes
    of the file, and that [backdate] keeps that meaning. *)

From stdpp Require Import sorting.
From S2P Require Import Prelude VersionList FreeList FreeListAlloc FreeListFile WriteGroup.

(** ** Bytes of entries *)

Definition covers (e : FreeSpaceEntry) (x : Z) : Prop := e_ref e <= x < e_ref e + e_size e.

Lemma inb_covers x e : inb x (e_ref e) (e_size e) = 1 <-> covers e x.
Proof. unfold inb, covers. destruct (Z.leb_spec (e_ref e) x), (Z.ltb_spec x (e_ref e + e_size e)); cbn; lia. Qed.

Lemma e_count_pos x l : 0 < e_count x l <-> exists e, e ∈ l /\ covers e x.
Proof.
  induction l as [|e l IH].
  - split; [done|]. intros (e & He & _). by apply elem_of_nil in He.
  - rewrite e_count_cons. pose proof (inb_range x (e_ref e) (e_size e)). pose proof (e_count_nonneg x l). split.
    + intros H1. destruct (Z.eq_dec (inb x (e_ref e) (e_size e)) 1) as [E|E].
      * exists e. split; [apply list_elem_of_here|by apply inb_covers].
      * destruct (proj1 IH) as (e' & He' & Hc); [lia|]. exists e'. split; [by apply list_elem_of_further|done].
    + intros (e' & He' & Hc). apply elem_of_cons in He' as [->|He']; [apply inb_covers in Hc; lia|].
      enough (0 < e_count x l) by lia. apply IH. by exists e'.
Qed.

(** ** The lists of the versions *)

Lemma older_lists_lt v old i o : (i < older_lists v old)%nat -> old !! i = Some o -> fl_version o < v.
Proof.
  revert i. induction old as [|a old IH]; intros i Hi Ho; [done|]. cbn in Hi. destruct (Z.ltb_spec (fl_version a) v); [|lia].
  destruct i as [|i]; cbn in Ho; [by injection Ho as <-|]. apply (IH i); [lia|done].
Qed.

Lemma older_lists_at v old o : old !! older_lists v old = Some o -> v <= fl_version o.
Proof.
  induction old as [|a old IH]; [done|]. cbn. destruct (Z.ltb_spec (fl_version a) v); cbn; [done|]. intros E. by injection E as <-.
Qed.

Definition version_lt (a b : OldFreeList) : Prop := fl_version a < fl_version b.

Lemma sorted_versions old i j a b : StronglySorted version_lt old -> (i < j)%nat -> old !! i = Some a -> old !! j = Some b -> fl_version a < fl_version b.
Proof.
  intros Hs. revert i j. induction Hs as [|c old Hs IH Hf]; intros i j Hij Hi Hj; [done|]. destruct j as [|j]; [lia|]. cbn in Hj.
  destruct i as [|i]; cbn in Hi; [|by apply (IH i j); [lia|..]]. injection Hi as <-.
  exact (proj1 (List.Forall_forall _ _) Hf b (proj1 (list_elem_of_In _ _) (list_elem_of_lookup_2 _ _ _ Hj))).
Qed.

(** Below a version: exactly the lists before its place. *)
Lemma older_split v old i o : StronglySorted version_lt old -> old !! i = Some o -> fl_version o < v <-> (i < older_lists v old)%nat.
Proof.
  intros Hs Ho. split; [|intros H; by eapply older_lists_lt]. intros Hv. destruct (Nat.lt_ge_cases i (older_lists v old)) as [|Hge]; [done|].
  assert (Hlt : (older_lists v old < length old)%nat) by (apply lookup_lt_Some in Ho; lia).
  destruct (lookup_lt_is_Some_2 old _ Hlt) as [b Hb]. pose proof (older_lists_at v old b Hb). destruct (decide (older_lists v old = i)) as [E|Hne].
  - rewrite E, Ho in Hb. injection Hb as <-. lia.
  - pose proof (sorted_versions old (older_lists v old) i b o Hs ltac:(lia) Hb Ho). lia.
Qed.

(** [get_earlier]: the last of the older ones. *)
Lemma get_earlier_spec old v a b : StronglySorted version_lt old -> a ∈ old -> fl_version a < v -> b ∈ old -> v <= fl_version b ->
  exists n o, older_lists v old = S n /\ get_earlier old v = Ok o /\ old !! n = Some o /\ fl_version o < v /\
    forall c, c ∈ old -> fl_version c < v -> fl_version c <= fl_version o.
Proof.
  intros Hs Ha Hav Hb Hbv. apply list_elem_of_lookup in Ha as [i Hi], Hb as [j Hj]. pose proof (proj1 (older_split v old i a Hs Hi) Hav) as Hn.
  assert (Hj2 : ~ (j < older_lists v old)%nat) by (rewrite <- (older_split v old j b Hs Hj); lia). pose proof (lookup_lt_Some _ _ _ Hj) as Hlen.
  unfold get_earlier. rewrite (proj2 (Nat.eqb_neq _ _)) by lia. destruct (older_lists v old) as [|n] eqn:E; [lia|].
  assert (Hn2 : (n < length old)%nat) by lia. destruct (lookup_lt_is_Some_2 old n Hn2) as [o Ho]. rewrite Ho. exists n, o. repeat (split; [done|]).
  split; [apply (older_split v old n o Hs Ho); lia|]. intros c Hc Hcv. apply list_elem_of_lookup in Hc as [k Hk].
  pose proof (proj1 (older_split v old k c Hs Hk) Hcv) as Hkn. destruct (decide (k = n)) as [->|]; [rewrite Ho in Hk; by injection Hk as ->|].
  pose proof (sorted_versions old k n c o Hs ltac:(lia) Hk Ho). lia.
Qed.

(** ** Covering a chunk *)

(** The run of entries covers its range, and its stamp is not below theirs. *)
Lemma coalesce_spec entry_end l : forall end_pos found end' found', coalesce entry_end end_pos found l = (end', found') ->
  found <= found' /\ (found' = found \/ exists e, e ∈ l /\ found' = e_released_at_version e) /\
  forall x, end_pos <= x < end' -> exists e, e ∈ l /\ covers e x /\ e_released_at_version e <= found'.
Proof.
  induction l as [|e l IH]; intros end_pos found end' found' H; cbn [coalesce] in H; [injection H as <- <-; split; [done|]; split; [by left|lia]|].
  destruct (Z.eqb_spec (e_ref e) end_pos) as [E|]; cbn [andb] in H; [|injection H as <- <-; split; [done|]; split; [by left|lia]].
  destruct (end_pos <? entry_end); [|injection H as <- <-; split; [done|]; split; [by left|lia]].
  destruct (IH _ _ _ _ H) as (H1 & H2 & H3). split; [lia|]. split.
  - destruct H2 as [->|(e' & He' & ->)]; [|right; exists e'; split; [by apply list_elem_of_further|done]].
    destruct (Z.max_spec found (e_released_at_version e)) as [[_ ->]|[_ ->]]; [right; exists e; split; [apply list_elem_of_here|done]|by left].
  - intros x Hx. destruct (Z_lt_le_dec x (end_pos + e_size e)) as [Hlt|Hge].
    + exists e. split; [apply list_elem_of_here|]. split; [unfold covers; lia|lia].
    + destruct (H3 x) as (e' & He' & Hc); [lia|]. exists e'. split; [by apply list_elem_of_further|done].
Qed.

Lemma upper_bound_pos_le ref l n e : upper_bound_pos ref l = S n -> l !! n = Some e -> e_ref e <= ref.
Proof.
  revert n. induction l as [|a l IH]; intros n Hn He; [done|]. cbn in Hn. destruct (Z.leb_spec (e_ref a) ref); [|done]. injection Hn as Hn.
  destruct n as [|n]; cbn in He; [by injection He as <-|]. apply (IH n); [|done]. done.
Qed.

Lemma upper_bound_pos_len ref l : (upper_bound_pos ref l <= length l)%nat.
Proof. induction l as [|a l IH]; cbn; [done|]. destruct (e_ref a <=? ref); lia. Qed.

(** A chunk that is covered: each of its bytes in the file is in a free chunk with
    a stamp not above the one found. *)
Definition covered (entry : FreeSpaceEntry) (o : OldFreeList) (c : Z) : Prop :=
  (c = 0 \/ exists l e, fl_entries o = Some l /\ e ∈ l /\ c = e_released_at_version e) /\
  forall x, covers entry x -> x < fl_logical_file_size o ->
    exists l e, fl_entries o = Some l /\ e ∈ l /\ covers e x /\ e_released_at_version e <= c.

Lemma find_cover_spec entry o bound : bound < e_released_at_version entry ->
  (forall l e, fl_entries o = Some l -> e ∈ l -> 0 <= e_released_at_version e <= bound) ->
  find_cover_for entry o = Ok None \/ exists c, find_cover_for entry o = Ok (Some c) /\ covered entry o c.
Proof.
  intros Hb Hst. unfold find_cover_for. destruct (Z.leb_spec (Z.min (e_ref entry + e_size entry) (fl_logical_file_size o)) (e_ref entry)) as [Hle|Hgt].
  { right. exists 0. split; [done|]. split; [by left|]. unfold covers. intros x Hx Hl. lia. }
  destruct (fl_entries o) as [l|] eqn:El; [|by left]. destruct (upper_bound_pos (e_ref entry) l) as [|n] eqn:En; [by left|].
  pose proof (upper_bound_pos_len (e_ref entry) l) as Hlen. destruct (lookup_lt_is_Some_2 l n ltac:(lia)) as [e He]. rewrite He.
  pose proof (upper_bound_pos_le _ _ _ _ En He) as Href. pose proof (list_elem_of_lookup_2 _ _ _ He) as Hin.
  destruct (Z.leb_spec (e_ref e + e_size e) (e_ref entry)) as [|Hend]; [by left|].
  destruct (coalesce _ _ _ _) as [end' found] eqn:Ec. destruct (coalesce_spec _ _ _ _ _ _ Ec) as (H1 & H2 & H3).
  assert (Hdrop : forall e', e' ∈ drop (S n) l -> e' ∈ l) by (intros e' H'; rewrite <- (take_drop (S n) l); apply elem_of_app; by right).
  destruct (Z.ltb_spec end' (Z.min (e_ref entry + e_size entry) (fl_logical_file_size o))) as [|Hcov]; [by left|].
  assert (Hf : exists e', e' ∈ l /\ found = e_released_at_version e') by (destruct H2 as [->|(e' & He' & ->)]; eauto).
  destruct Hf as (ef & Hef & Ef). pose proof (Hst l ef eq_refl Hef). rewrite (proj2 (Z.leb_le _ _)) by lia. right. exists found. split; [done|].
  split; [right; by exists l, ef|]. intros x Hx Hxl. unfold covers in Hx. exists l. destruct (Z_lt_le_dec x (e_ref e + e_size e)) as [Hlt|Hge].
  - exists e. split; [done|]. split; [done|]. split; [unfold covers; lia|done].
  - destruct (H3 x) as (e' & He' & Hc); [lia|]. exists e'. split; [done|]. split; [by apply Hdrop|done].
Qed.

(** ** What stamps mean *)

Definition versions (old : list OldFreeList) : list Z := map fl_version old.

Lemma elem_versions old u : u ∈ versions old <-> exists o, o ∈ old /\ fl_version o = u.
Proof.
  unfold versions. rewrite list_elem_of_In, in_map_iff. setoid_rewrite list_elem_of_In. firstorder.
Qed.

Section Used.

(** [used v x]: snapshot [v] uses byte [x]. *)
Context (used : Z -> Z -> Prop).

(** No version of [vs] from the entry's stamp to [upto] uses a byte of it. *)
Definition entry_free (vs : list Z) (upto : Z) (e : FreeSpaceEntry) : Prop :=
  forall u x, u ∈ vs -> e_released_at_version e <= u <= upto -> covers e x -> ~ used u x.

(** The lists of a version: no stamp is later than it, what is free is not used,
    and neither is what lies beyond the end of its file. *)
Record list_sound (vs : list Z) (o : OldFreeList) : Prop := {
  ls_stamp : forall l e, fl_entries o = Some l -> e ∈ l -> 0 <= e_released_at_version e <= fl_version o;
  ls_free : forall l e, fl_entries o = Some l -> e ∈ l -> entry_free vs (fl_version o) e;
  ls_beyond : forall u x, u ∈ vs -> u <= fl_version o -> fl_logical_file_size o <= x -> ~ used u x
}.

(** The reachable versions in order, with sound lists. *)
Record lists_ok (old : list OldFreeList) : Prop := {
  lk_sorted : StronglySorted version_lt old;
  lk_sound : forall o, o ∈ old -> list_sound (versions old) o
}.

(** Nothing more can be gained for an entry. *)
Definition settled (oldest : Z) (old : list OldFreeList) (e : FreeSpaceEntry) : Prop :=
  e_released_at_version e = 0 \/ e_released_at_version e <= oldest \/
  exists o, get_earlier old (e_released_at_version e) = Ok o /\ find_cover_for e o = Ok None.

(** The same chunk, with an older stamp that still means what it should. *)
Definition backdated (old : list OldFreeList) (hi : Z) (e e' : FreeSpaceEntry) : Prop :=
  e_ref e' = e_ref e /\ e_size e' = e_size e /\ 0 <= e_released_at_version e' <= e_released_at_version e /\
  entry_free (versions old) hi e'.

(** One round. *)
Lemma backdate_round old hi e o c : lists_ok old -> entry_free (versions old) hi e ->
  o ∈ old -> fl_version o < e_released_at_version e ->
  (forall a, a ∈ old -> fl_version a < e_released_at_version e -> fl_version a <= fl_version o) ->
  covered e o c -> entry_free (versions old) hi (set_released e c).
Proof.
  intros [_ Hsound] Hf Ho Hov Hbest [_ Hcov] u x Hu [Hc Hhi] Hx Hused. cbn in Hc. change (covers e x) in Hx.
  destruct (Z_lt_le_dec u (e_released_at_version e)) as [Hlt|Hge]; [|by apply (Hf u x Hu ltac:(lia) Hx)].
  apply elem_versions in Hu as (a & Ha & <-). specialize (Hbest a Ha Hlt). destruct (Hsound o Ho) as [_ Hfree Hbey].
  assert (Hua : fl_version a ∈ versions old) by (apply elem_versions; eauto).
  destruct (Z_lt_le_dec x (fl_logical_file_size o)) as [Hl|Hl]; [|by apply (Hbey _ x Hua Hbest Hl)].
  destruct (Hcov x Hx Hl) as (l & e' & El & He' & Hc' & Hst). exact (Hfree l e' El He' _ x Hua ltac:(lia) Hc' Hused).
Qed.

Lemma older_lists_le old v n o : StronglySorted version_lt old -> old !! n = Some o -> v <= fl_version o -> (older_lists v old <= n)%nat.
Proof.
  intros Hs Ho Hv. destruct (Nat.le_gt_cases (older_lists v old) n) as [|Hgt]; [done|]. pose proof (older_lists_lt v old n o Hgt Ho). lia.
Qed.

Lemma backdated_refl old hi e : 0 <= e_released_at_version e <= hi -> entry_free (versions old) hi e -> backdated old hi e e.
Proof. intros H1 H2. split; [done|]. split; [done|]. split; [lia|done]. Qed.

Lemma backdate_loop_spec old oldest a b fuel : lists_ok old -> a ∈ old -> fl_version a = oldest -> 0 <= oldest -> b ∈ old ->
  forall e, 0 <= e_released_at_version e <= fl_version b -> entry_free (versions old) (fl_version b) e ->
  (older_lists (e_released_at_version e) old <= fuel)%nat ->
  exists e', backdate_loop fuel oldest old e = Ok e' /\ backdated old (fl_version b) e e' /\ settled oldest old e'.
Proof.
  intros Hok Ha Hao H0 Hb. induction fuel as [|fuel IH]; intros e Heb Hf Hfuel; cbn [backdate_loop];
    (destruct (Z.eqb_spec (e_released_at_version e) 0) as [E0|E0]; [exists e; split; [done|]; split; [by apply backdated_refl|by left]|]);
    (destruct (Z.leb_spec (e_released_at_version e) oldest) as [E1|E1]; [exists e; split; [done|]; split; [by apply backdated_refl|right; by left]|]).
  - apply list_elem_of_lookup in Ha as [i Hi]. pose proof (proj1 (older_split (e_released_at_version e) old i a (lk_sorted old Hok) Hi)). lia.
  - destruct (get_earlier_spec old (e_released_at_version e) a b (lk_sorted old Hok) Ha ltac:(lia) Hb ltac:(lia)) as (n & o & En & Eo & Hn & Hov & Hbest).
    rewrite Eo. cbn [mbind result_bind]. pose proof (list_elem_of_lookup_2 _ _ _ Hn) as Ho. pose proof (lk_sound old Hok o Ho) as Hso.
    destruct (find_cover_spec e o (fl_version o) Hov (ls_stamp _ o Hso)) as [Ec|(c & -> & Hcov)]; cbn [mbind result_bind].
    { rewrite Ec. exists e. split; [done|]. split; [by apply backdated_refl|]. right; right. by exists o. }
    assert (Hco : 0 <= c <= fl_version o).
    { destruct Hcov as [[->|(l & e' & El & He' & ->)] _]; [|by apply (ls_stamp _ o Hso l)].
      pose proof (Hbest a Ha ltac:(lia)). lia. }
    destruct (IH (set_released e c)) as (e' & He' & (H1 & H2 & H3 & H4) & Hset).
    + cbn. lia.
    + by apply (backdate_round old _ e o c).
    + cbn. pose proof (older_lists_le old c n o (lk_sorted old Hok) Hn (proj2 Hco)). lia.
    + exists e'. split; [done|]. split; [|done]. cbn in H3. split; [done|]. split; [done|]. split; [lia|done].
Qed.

Lemma backdate_entries_spec vs old a b l : lists_ok old -> a ∈ old -> fl_version a = m_oldest_reachable_version vs ->
  0 <= m_oldest_reachable_version vs -> b ∈ old -> fl_version b < m_current_version vs ->
  Forall (fun e => 0 <= e_released_at_version e <= fl_version b /\ entry_free (versions old) (fl_version b) e) l ->
  exists l', backdate_entries vs old l = Ok l' /\ Forall2 (backdated old (fl_version b)) l l' /\
    Forall (settled (m_oldest_reachable_version vs) old) l'.
Proof.
  intros Hok Ha Hao H0 Hb Hcur. induction 1 as [|e l [He Hf] _ (l' & IH1 & IH2 & IH3)]; cbn [backdate_entries].
  { exists []. split; [done|]. split; constructor. }
  unfold backdate_single_entry. rewrite (proj2 (Z.eqb_neq _ _)) by lia.
  assert (Hlen : forall v, (older_lists v old <= length old)%nat).
  { intros v. clear. induction old as [|o old IH]; cbn; [done|]. destruct (fl_version o <? v); lia. }
  destruct (backdate_loop_spec old _ a b (length old) Hok Ha Hao H0 Hb e He Hf (Hlen _)) as (e' & -> & Hbd & Hset).
  cbn [mbind result_bind]. rewrite IH1. cbn [mbind result_bind]. exists (e' :: l'). split; [done|]. split; by constructor.
Qed.

Lemma backdated_count old hi l l' x : Forall2 (backdated old hi) l l' -> e_count x l' = e_count x l.
Proof. induction 1 as [|e e' l l' (E1 & E2 & _) _ IH]; [done|]. by rewrite !e_count_cons, E1, E2, IH. Qed.

Lemma backdated_ok old hi l l' : Forall2 (backdated old hi) l l' -> Forall entry_ok l -> Forall entry_ok l'.
Proof.
  induction 1 as [|e e' l l' (E1 & E2 & _) _ IH]; intros H; [done|]. apply Forall_cons_iff in H as [He Hl]. constructor; [|by apply IH].
  unfold entry_ok. by rewrite E1, E2.
Qed.

Lemma backdated_free old hi l l' : Forall2 (backdated old hi) l l' ->
  Forall (fun e => 0 <= e_released_at_version e <= hi /\ entry_free (versions old) hi e) l ->
  Forall (fun e => 0 <= e_released_at_version e <= hi /\ entry_free (versions old) hi e) l'.
Proof.
  induction 1 as [|e e' l l' (_ & _ & E3 & E4) _ IH]; intros H; [done|]. apply Forall_cons_iff in H as [[He _] Hl]. constructor; [|by apply IH].
  split; [lia|done].
Qed.

(** Fewer reachable versions ask for less. *)
Lemma lists_ok_sub old sub : lists_ok old -> StronglySorted version_lt sub -> (forall o, o ∈ sub -> o ∈ old) -> lists_ok sub.
Proof.
  intros [_ Hs] Hsub Hin. split; [done|]. intros o Ho. destruct (Hs o (Hin o Ho)) as [H1 H2 H3].
  assert (Hv : forall u, u ∈ versions sub -> u ∈ versions old).
  { intros u Hu. apply elem_versions in Hu as (a & Ha & <-). apply elem_versions. exists a. auto. }
  split; [done| |].
  - intros l e El He u x Hu. apply (H2 l e El He). by apply Hv.
  - intros u x Hu. apply H3. by apply Hv.
Qed.

End Used.
