(* ===== verification/WriteGroupInv.v ===== *)
(** * Writing a group: lemmas

    What allocation leaves alone and how far it goes (the evacuation, the number
    of chunks, the sizes of the file), the cut of the file, and the room the
    free lists take. *)

From stdpp Require Import sorting.
From S2P Require Import Prelude NodeHeader ArrayDirect ArrayBits Array VersionList FreeList FreeListAlloc FreeListFile FreeListTheorems WriteGroup.

(** ** The frame of an allocation *)

(** The evacuation goes on, or it was given up. *)
Definition evac_frame (w w' : GroupWriter) : Prop :=
  m_under_evacuation w' = m_under_evacuation w /\ m_evacuation_limit w' = m_evacuation_limit w /\ m_backoff w' = m_backoff w \/
  m_under_evacuation w <> [] /\ m_under_evacuation w' = [] /\ m_evacuation_limit w' = 0 /\ m_backoff w' = 10.

Lemma evac_frame_trans w1 w2 w3 : evac_frame w1 w2 -> evac_frame w2 w3 -> evac_frame w1 w3.
Proof.
  intros [(A1 & A2 & A3)|(A1 & A2 & A3 & A4)] [(B1 & B2 & B3)|(B1 & B2 & B3 & B4)].
  - left. repeat split; congruence.
  - right. split; [congruence|done].
  - right. split; [done|]. repeat split; congruence.
  - congruence.
Qed.

Definition chunks (w : GroupWriter) : nat := (length (m_size_map w) + length (m_under_evacuation w))%nat.

(** The most a file grows by at once. *)
Definition step_size (commit_size size : Z) : Z := Z.max growth_boundary (Z.max (commit_size + commit_size / 8) size) + 2 ^ 26.

(** At most [n] chunks more, and a bounded growth of the file. *)
Record frame (n : nat) (commit_size size : Z) (w w' : GroupWriter) : Prop := {
  fr_evac : evac_frame w w';
  fr_chunks : (chunks w' <= chunks w + n)%nat;
  fr_logical : m_logical_size w <= m_logical_size w';
  fr_file : m_file_size w' <= Z.max (m_file_size w) (m_logical_size w');
  fr_grow : Z.max (m_logical_size w') (m_file_size w') <=
            Z.max (m_logical_size w) (m_file_size w) + Z.of_nat n * step_size commit_size size
}.

Lemma frame_trans n1 n2 c size w1 w2 w3 : frame n1 c size w1 w2 -> frame n2 c size w2 w3 -> frame (n1 + n2) c size w1 w3.
Proof.
  intros [A1 A2 A3 A4 A5] [B1 B2 B3 B4 B5]. split; [by eapply evac_frame_trans|lia|lia|lia|]. rewrite Nat2Z.inj_add, Z.mul_add_distr_r. lia.
Qed.

Lemma step_size_pos c size : 0 < step_size c size.
Proof. unfold step_size, growth_boundary. lia. Qed.

Lemma frame_map n c size w m : (length m <= length (m_size_map w) + n)%nat -> frame n c size w (with_size_map w m).
Proof.
  intros Hn. split; cbn; [left; done|unfold chunks; cbn; lia|lia|lia|]. pose proof (step_size_pos c size). nia.
Qed.

Lemma length_emplace k v m : length (sm_emplace k v m).1 = S (length m).
Proof.
  cbn [sm_emplace fst]. apply length_list_insert_at. induction m as [|[k' v'] m IH]; cbn; [done|]. destruct (k' <=? k); lia.
Qed.

Lemma length_erase it (m : SizeMap) p : m !! it = Some p -> S (length (sm_erase it m)) = length m.
Proof.
  intros H. apply lookup_lt_Some in H. unfold sm_erase, list_erase_range. rewrite length_app, length_take, length_drop. lia.
Qed.

Lemma split_length m it k v p m' it' : m !! it = Some (k, v) -> split_freelist_chunk m it v k p = Ok (m', it') -> length m' = S (length m).
Proof.
  intros Hi H. unfold split_freelist_chunk in H. case_match; [done|]. case_match; [done|].
  pose proof (length_emplace (p - v) v (sm_erase it m)) as L1. destruct (sm_emplace (p - v) v (sm_erase it m)) as [m1 i1]. cbn [fst] in L1.
  pose proof (length_emplace (k - (p - v)) p m1) as L2. destruct (sm_emplace (k - (p - v)) p m1) as [m2 i2]. cbn [fst] in L2.
  injection H as <- <-. rewrite L2, L1. by rewrite (length_erase it m (k, v)).
Qed.

Lemma search_element_length m it size m' it' : search_free_space_in_free_list_element m it size = Ok (Some (m', it')) -> (length m' <= S (length m))%nat.
Proof.
  unfold search_free_space_in_free_list_element. intros H. destruct (m !! it) as [[k v]|] eqn:Hi; [|done].
  destruct (find_section_in_range v k size) as [p| |]; [|done..]. cbn [mbind result_bind] in H. case_match; [done|]. case_match.
  - destruct (split_freelist_chunk m it v k p) as [[m1 i1]| |] eqn:E; [|done..]. injection H as <- <-. rewrite (split_length _ _ _ _ _ _ _ Hi E). lia.
  - injection H as <- <-. lia.
Qed.

Lemma search_loop_length fuel m it size m' it' : search_loop fuel m it size = Ok (Some (m', it')) -> (length m' <= S (length m))%nat.
Proof.
  revert it. induction fuel as [|fuel IH]; intros it H; cbn [search_loop] in H; (destruct (m !! it) as [[k v]|]; [|done]); [done|]. case_match.
  - destruct (search_free_space_in_free_list_element m it size) as [[[m1 i1]|]| |] eqn:E; [| |done..].
    + injection H as <- <-. by eapply search_element_length.
    + by apply (IH (S it)).
  - by eapply IH.
Qed.

Section Frame.
Context (page_bits : Z) (Hpage : 3 <= page_bits <= 26).
Abbreviation page_size := (2 ^ page_bits).

Lemma round_up_le size : 0 <= size -> round_up_to_page_size page_size size < size + 2 ^ 26.
Proof.
  intros Hs. unfold round_up_to_page_size. assert (Hp : 0 < 2 ^ page_bits <= 2 ^ 26) by (split; [apply Z.pow_pos_nonneg; lia|apply Z.pow_le_mono_r; lia]).
  set (n := size + 2 ^ page_bits - 1). replace (2 ^ page_bits - 1) with (Z.ones page_bits) by (rewrite Z.ones_equiv; lia).
  rewrite <- Z.ldiff_land, Z.ldiff_ones_r by lia. rewrite Z.shiftl_mul_pow2, Z.shiftr_div_pow2 by lia. unfold n. dlia.
Qed.

Lemma extend_frame c w size w' it : 0 <= m_logical_size w -> 0 < size -> 0 <= c -> extend_free_space page_size c w size = Ok (w', it) -> frame 1 c size w w'.
Proof.
  intros HL Hs Hc. unfold extend_free_space. set (m0 := Z.max _ (m_file_size w)). set (m1 := if m0 <? m_logical_size w + size then _ else _).
  assert (Hm1 : m_logical_size w + size <= m1 <= Z.max (m_logical_size w) (m_file_size w) + Z.max growth_boundary (Z.max (c + c / 8) size)).
  { unfold m1, m0, growth_boundary. assert (0 <= c / 8) by dlia. repeat zdec; lia. }
  clearbody m1. clear m0. intros H. case_match; [done|]. pose proof (align_section_spec m1 ltac:(lia)) as [Ha _].
  pose proof (round_up_le m1 ltac:(lia)) as Hr. pose proof (round_up_spec page_bits Hpage m1 ltac:(lia)) as [Hr1 _].
  set (n := if align_size_to_section_boundary m1 <? round_up_to_page_size page_size m1 then _ else _) in H.
  assert (Hn : m1 <= n < m1 + 2 ^ 26) by (unfold n; zdec; lia). clearbody n. do 3 (case_match; [done|]).
  pose proof (length_emplace (n - m_logical_size w) (m_logical_size w) (m_size_map w)) as Hl.
  destruct (sm_emplace _ _ _) as [m' i']. cbn [fst] in Hl. injection H as <- _.
  split; [by left|unfold chunks; cbn; lia|cbn; lia|cbn; lia|cbn [m_logical_size m_file_size]; unfold step_size; lia].
Qed.

Lemma length_emplace_all l m : length (fold_left emplace_entry l m) = (length m + length l)%nat.
Proof.
  revert m. induction l as [|e l IH]; intros m; cbn [fold_left length]; [lia|]. rewrite IH. unfold emplace_entry. rewrite length_emplace. lia.
Qed.

Lemma release_frame c size w : m_under_evacuation w <> [] -> frame 0 c size w (release_evacuation w).
Proof.
  intros Hne. split; [by right| |done|cbn; lia|cbn; lia]. unfold chunks, release_evacuation. cbn [m_size_map m_under_evacuation length].
  rewrite length_emplace_all. lia.
Qed.

(** A round adds a chunk by an extension, and the last one a chunk by a split. *)
Lemma reserve_loop_frame fuel c size w chunk w' it : 0 <= m_logical_size w -> 0 < size -> 0 <= c ->
  (forall m i, chunk = Some (m, i) -> (length m <= length (m_size_map w) + 1)%nat) ->
  reserve_loop page_size fuel c w chunk size = Ok (w', it) -> frame (fuel + 1) c size w w'.
Proof.
  intros HL Hs Hc. revert w chunk HL. induction fuel as [|fuel IH]; intros w [[m i]|] HL Hch H; cbn [reserve_loop] in H; [|done| |].
  - injection H as <- <-. apply (frame_map 1). by eapply Hch.
  - injection H as <- <-. apply frame_map. specialize (Hch m i eq_refl). lia.
  - destruct (m_under_evacuation w) as [|e l] eqn:Ee.
    + destruct (extend_free_space page_size c w size) as [[w1 n1]| |] eqn:E1; [|done..]. cbn [mbind result_bind] in H.
      pose proof (extend_frame c w size w1 n1 HL Hs Hc E1) as Hf1.
      destruct (search_free_space_in_free_list_element (m_size_map w1) n1 size) as [ch| |] eqn:E2; [|done..]. cbn [mbind result_bind] in H.
      apply (frame_trans 1 (fuel + 1) c size w w1 w' Hf1). apply (IH w1 ch); [pose proof (fr_logical _ _ _ _ _ Hf1); lia| |done].
      intros m i ->. pose proof (search_element_length _ _ _ _ _ E2). lia.
    + destruct (search_free_space_in_part_of_freelist (m_size_map (release_evacuation w)) size) as [ch| |] eqn:E2; [|done..]. cbn [mbind result_bind] in H.
      pose proof (release_frame c size w) as Hf1. rewrite Ee in Hf1. specialize (Hf1 ltac:(done)).
      assert (Hf2 : frame (fuel + 1) c size (release_evacuation w) w').
      { apply (IH _ ch); [done| |done]. intros m i ->. pose proof (search_loop_length _ _ _ _ _ _ E2). lia. }
      pose proof (frame_trans 0 (fuel + 1) c size _ _ _ Hf1 Hf2) as [F1 F2 F3 F4 F5].
      split; [done|lia|done|done|]. pose proof (step_size_pos c size). nia.
Qed.

Lemma reserve_frame c w size w' it : 0 <= m_logical_size w -> 0 < size -> 0 <= c ->
  reserve_free_space page_size 3 c w size = Ok (w', it) -> frame 4 c size w w'.
Proof.
  intros HL Hs Hc H. unfold reserve_free_space in H. destruct (search_free_space_in_part_of_freelist (m_size_map w) size) as [ch| |] eqn:E; [|done..].
  cbn [mbind result_bind] in H. apply (reserve_loop_frame 3 c size w ch w' it); try done. intros m i ->. pose proof (search_loop_length _ _ _ _ _ _ E). lia.
Qed.

Lemma step_size_mono c size size' : size <= size' -> step_size c size <= step_size c size'.
Proof. unfold step_size. lia. Qed.

Lemma frame_weaken n c size size' w w' : size <= size' -> frame n c size w w' -> frame n c size' w w'.
Proof. intros Hs [F1 F2 F3 F4 F5]. split; try done. pose proof (step_size_mono c size size' Hs). nia. Qed.

Lemma take_length it (m : SizeMap) k v size : m !! it = Some (k, v) ->
  le (length (if 0 <? k - size then (sm_emplace (k - size) (v + size) (sm_erase it m)).1 else sm_erase it m)) (length m + 0).
Proof. intros Hi. pose proof (length_erase it m _ Hi). destruct (0 <? k - size); [rewrite length_emplace|]; lia. Qed.

Lemma get_free_space_frame c w size pos w' : 0 <= m_logical_size w -> 0 < size <= 2 ^ 25 -> 0 <= c ->
  get_free_space page_size 3 c w size = Ok (pos, w') -> frame 4 c (2 ^ 25) w w'.
Proof.
  intros HL Hs Hc H. unfold get_free_space in H. destruct (reserve_free_space page_size 3 c w size) as [[w1 it]| |] eqn:E; [|done..].
  cbn [mbind result_bind] in H. pose proof (frame_weaken 4 c size (2 ^ 25) w w1 ltac:(lia) (reserve_frame c w size w1 it HL ltac:(lia) Hc E)) as Hf.
  destruct (m_size_map w1 !! it) as [[k v]|] eqn:Hi; [|done]. case_match; [done|]. case_match; [done|]. injection H as <- <-.
  apply (frame_trans 4 0 c (2 ^ 25) w w1 _ Hf). apply (frame_map 0). exact (take_length it _ k v size Hi).
Qed.

Lemma get_free_spaces_frame c sizes : 0 <= c -> Forall (fun size => 0 < size <= 2 ^ 25 /\ size mod 8 = 0) sizes -> forall w blocks w', 0 <= m_logical_size w ->
  get_free_spaces page_size c w sizes = Ok (blocks, w') -> frame (4 * length sizes) c (2 ^ 25) w w'.
Proof.
  intros Hc. induction 1 as [|size sizes [Hs _] _ IH]; intros w blocks w' HL H; cbn [get_free_spaces] in H.
  { injection H as <- <-. split; [by left|lia|lia|lia|]. change (4 * length [])%nat with 0%nat. lia. }
  destruct (get_free_space page_size 3 c w size) as [[pos w1]| |] eqn:E; [|done..]. cbn [mbind result_bind] in H.
  pose proof (get_free_space_frame c w size pos w1 HL Hs Hc E) as Hf1.
  destruct (get_free_spaces page_size c w1 sizes) as [[bs w2]| |] eqn:E2; [|done..]. injection H as <- <-.
  pose proof (fr_logical _ _ _ _ _ Hf1). pose proof (frame_trans _ _ c (2 ^ 25) w w1 w2 Hf1 (IH w1 bs w2 ltac:(lia) E2)) as Hf.
  cbn [length]. by replace (4 * S (length sizes))%nat with (4 + 4 * length sizes)%nat by lia.
Qed.

End Frame.

(** ** Cutting the file *)

Section Shrink.
Context (page_bits : Z) (Hpage : 3 <= page_bits <= 26).
Abbreviation page_size := (2 ^ page_bits).

Definition shrunk (w w' : GroupWriter) : Prop :=
  winv w' /\ m_size_map w' = m_size_map w /\ m_not_free_in_file w' = m_not_free_in_file w /\ (chunks w' <= chunks w)%nat /\
  m_logical_size w' < m_logical_size w + 2 ^ 26 /\
  (forall x, x < m_logical_size w -> w_count x w' <= w_count x w) /\
  (forall x, 0 < free_count x w' -> 0 < free_count x w \/ m_logical_size w <= x) /\
  (forall x, m_logical_size w' <= x < m_logical_size w -> 0 < free_count x w).

Lemma shrunk_refl w : winv w -> shrunk w w.
Proof. intros Hw. split; [done|]. split; [done|]. split; [done|]. split; [done|]. split; [lia|]. split; [done|]. split; [by left|lia]. Qed.

Lemma cut_winv w e size' : winv w -> m_under_evacuation w = [e] -> e_ref e + e_size e = m_logical_size w -> 0 <= size' -> size' mod 8 = 0 ->
  size' < e_size e + 2 ^ 26 -> forall rv l b,
  shrunk w (mkWriter (m_size_map w) (m_not_free_in_file w) (if size' =? 0 then [] else [mkEntry (e_ref e) size' rv]) l b (e_ref e + size') (m_file_size w)).
Proof.
  intros Hw Eu HL Hs Hs8 Hlt rv l b. set (w' := mkWriter _ _ _ _ _ _ _). pose proof (v_evac w Hw) as He. rewrite Eu in He.
  apply Forall_cons_iff in He as [(He0 & He8 & Hr0 & Hr8) _]. cbn in He0, He8, Hr0, Hr8.
  assert (Hf : forall x, free_count x w = sm_count x (m_size_map w) + inb x (e_ref e) (e_size e)).
  { intros x. unfold free_count. rewrite Eu, e_count_cons, e_count_nil. lia. }
  assert (Hf' : forall x, free_count x w' = sm_count x (m_size_map w) + inb x (e_ref e) size').
  { intros x. unfold free_count, w'. cbn [m_size_map m_under_evacuation]. destruct (Z.eqb_spec size' 0) as [->|]; [rewrite e_count_nil; inb_cases|].
    rewrite e_count_cons, e_count_nil. cbn. lia. }
  assert (Hother : forall x, 0 < sm_count x (m_size_map w) + e_count x (m_not_free_in_file w) -> 0 < x < e_ref e).
  { intros x Hx. pose proof (v_once w Hw x) as Ho. pose proof (v_inside w Hw x) as Hi. unfold w_count in *. rewrite Hf in *. pose proof (inb_range x (e_ref e) (e_size e)).
    specialize (Hi ltac:(lia)). inb_cases. }
  assert (Hnn : forall x, 0 <= sm_count x (m_size_map w) /\ 0 <= e_count x (m_not_free_in_file w)) by (intros; split; [apply sm_count_nonneg|apply e_count_nonneg]).
  split; [|split; [done|split; [done|split; [|split; [|split; [|split]]]]]].
  - split; unfold w'; cbn [m_size_map m_under_evacuation m_not_free_in_file m_logical_size]; [apply Hw| |apply Hw| | |split; [lia|dlia]].
    + destruct (Z.eqb_spec size' 0); [done|]. constructor; [|done]. split; cbn; [lia|done].
    + intros x. unfold w_count. fold w'. rewrite Hf'. specialize (Hother x). specialize (Hnn x). pose proof (v_once w Hw x) as Ho. unfold w_count in Ho. rewrite Hf in Ho.
      change (m_not_free_in_file w') with (m_not_free_in_file w). inb_cases.
    + intros x. unfold w_count. fold w'. rewrite Hf'. change (m_not_free_in_file w') with (m_not_free_in_file w). specialize (Hother x). specialize (Hnn x). inb_cases.
  - unfold chunks, w'. rewrite Eu. cbn. destruct (size' =? 0); cbn; lia.
  - cbn. lia.
  - intros x Hx. unfold w_count. rewrite Hf, Hf'. change (m_not_free_in_file w') with (m_not_free_in_file w). inb_cases.
  - intros x. rewrite Hf, Hf'. specialize (Hnn x). inb_cases.
  - intros x. rewrite Hf. cbn. specialize (Hnn x). inb_cases.
Qed.

Lemma shrink_spec point w : winv w -> (m_under_evacuation w <> [] -> exists l, point = PointArray l) ->
  exists point' w', shrink_file page_size point w = Ok (point', w') /\ (point' = point \/ point' = NoPoint) /\ shrunk w w'.
Proof.
  intros Hw Hp. unfold shrink_file. destruct (m_under_evacuation w) as [|e [|e' l]] eqn:Eu.
  - exists point, w. split; [done|]. split; [by left|by apply shrunk_refl].
  - destruct (Z.eqb_spec (e_ref e + e_size e) (m_logical_size w)) as [E|E].
    + destruct (Hp ltac:(done)) as [lp ->]. pose proof (v_evac w Hw) as He. rewrite Eu in He. apply Forall_cons_iff in He as [(He0 & He8 & Hr0 & Hr8) _].
      cbn in He0, He8, Hr0, Hr8. pose proof (round_up_spec page_bits Hpage (e_ref e) ltac:(lia)) as [Hr1 Hr2]. pose proof (round_up_le page_bits Hpage (e_ref e) ltac:(lia)) as Hr3.
      do 2 eexists. split; [done|]. split; [by right|].
      pose proof (cut_winv w e (round_up_to_page_size page_size (e_ref e) - e_ref e) Hw Eu E ltac:(lia) ltac:(dlia) ltac:(lia)
        (e_released_at_version e) 0 (m_backoff w)) as Hc. by rewrite Z.add_sub_assoc, Z.add_simpl_l in Hc.
    + exists point, w. split; [done|]. split; [by left|by apply shrunk_refl].
  - exists point, w. split; [done|]. split; [by left|by apply shrunk_refl].
Qed.

End Shrink.

(** ** The room the lists take *)

Lemma ubound_mono v w w' : valid_width w -> valid_width w' -> w <= w' -> fits w v -> below_ubound v w' = true.
Proof.
  intros Hw Hw' Hle Hf. unfold below_ubound. width_cases Hw; width_cases Hw'; try lia; cbn; unfold fits in Hf; cbn in Hf; apply Z.leb_le; lia.
Qed.

Lemma array_width_spec values : Forall (fun v => 0 <= v < 2 ^ 63) values ->
  valid_width (array_width values) /\ (forall v, v ∈ values -> bit_width v <= array_width values) /\
  (Forall (fun v => v < 2 ^ 31) values -> array_width values <= 32).
Proof.
  induction 1 as [|v values Hv _ (IH1 & IH2 & IH3)]; cbn [array_width fold_right].
  { split; [by left|]. split; [intros v Hv; by apply elem_of_nil in Hv|done]. }
  fold (array_width values). destruct (bit_width_spec v) as (Hw & Hf & Hmin); [unfold int64_range; lia|]. split; [|split].
  - destruct (Z.max_spec (bit_width v) (array_width values)) as [[_ ->]|[_ ->]]; done.
  - intros u Hu. apply elem_of_cons in Hu as [->|Hu]; [lia|]. specialize (IH2 u Hu). lia.
  - intros Hs. apply Forall_cons_iff in Hs as [Hv31 Hs]. specialize (IH3 Hs).
    pose proof (Hmin 32 ltac:(unfold valid_width; lia)) as Hb. unfold fits in Hb. cbn in Hb. specialize (Hb ltac:(lia)). lia.
Qed.

Lemma below_width v w : valid_width w -> bit_width v <= w -> 0 <= v < 2 ^ 63 ->
  forall u, u <= v -> below_ubound u w = true.
Proof.
  intros Hw Hb Hv u Hu. destruct (bit_width_spec v) as (Hw1 & Hf & _); [unfold int64_range; lia|].
  pose proof (ubound_mono v _ w Hw1 Hw Hb Hf) as H. unfold below_ubound in *. destruct (ubound_for_width w); [|done]. apply Z.leb_le in H. apply Z.leb_le. lia.
Qed.

Lemma array_bytes_32 n w : 0 <= n -> 0 <= w <= 32 -> 0 < array_bytes n w <= 4 * n + 15 /\ array_bytes n w mod 8 = 0.
Proof. intros Hn Hw. pose proof (calc_byte_size_spec wtype_Bits n w Hn ltac:(lia)) as [H1 H2]. unfold array_bytes. assert (0 <= n * w <= n * 32) by nia. dlia. Qed.

Lemma array_bytes_64 n w : 0 <= n -> 0 <= w <= 64 -> 0 < array_bytes n w <= 8 * n + 8 /\ array_bytes n w mod 8 = 0.
Proof. intros Hn Hw. pose proof (calc_byte_size_spec wtype_Bits n w Hn ltac:(lia)) as [H1 H2]. unfold array_bytes. assert (0 <= n * w <= n * 64) by nia. dlia. Qed.

(** Chunks in order leave the file's first byte out. *)
Lemma sum_entries_le l lo hi : file_ok l -> Forall (fun e => lo <= e_ref e) l -> Forall (fun e => e_ref e + e_size e <= hi) l -> lo <= hi ->
  sum_entries l <= hi - lo.
Proof.
  revert lo. induction l as [|e l IH]; intros lo Hf Hlo Hhi Hle; cbn [sum_entries fold_right]; [lia|].
  apply file_ok_inv in Hf as (_ & Hf & Hb). apply Forall_cons_iff in Hlo as [Hlo _]. apply Forall_cons_iff in Hhi as [Hhi Hhis].
  specialize (IH (e_ref e + e_size e) Hf Hb Hhis Hhi). fold (sum_entries l). lia.
Qed.

Lemma sum_entries_app l1 l2 : sum_entries (l1 ++ l2) = sum_entries l1 + sum_entries l2.
Proof. unfold sum_entries. induction l1 as [|e l1 IH]; cbn [app fold_right]; [done|]. rewrite IH. lia. Qed.

Lemma sum_entries_nonneg l : Forall entry_ok l -> 0 <= sum_entries l.
Proof. induction 1 as [|e l (He & _) _ IH]; cbn [sum_entries fold_right]; [done|]. fold (sum_entries l). cbn in He. lia. Qed.

(** What the lists of a commit hold, before the reserved chunk is cut. *)
Record lists_fit (n_max : nat) (logical : Z) (w : GroupWriter) (r : Recreated) (pos size : Z) : Prop := {
  lf_file : file_ok (r_entries r);
  lf_inside : Forall (fun e => e_ref e + e_size e <= logical) (r_entries r);
  lf_stamps : Forall (fun e => 0 <= e_released_at_version e < 2 ^ 63) (r_entries r);
  lf_reserve : r_entries r !! r_reserve_ndx r = Some (mkEntry pos size 0);
  lf_length : (length (r_entries r) <= n_max)%nat;
  lf_free : r_free_space_size r = sum_entries (r_entries r) - size;
  lf_locked : 0 <= r_locked_space_size r
}.

Definition end_of_lists (needed reserve_pos : Z) (r : Recreated) : Z :=
  let n := Z.of_nat (length (r_entries r)) in
  reserve_pos + array_bytes n (Z.max (array_width (map e_ref (r_entries r))) (bit_width (reserve_pos + needed)))
  + array_bytes n (array_width (map e_size (r_entries r))) + array_bytes n (array_width (map e_released_at_version (r_entries r))).

Lemma place_lists_bytes n_max logical w r pos size needed top_size top_width top_size' per :
  lists_fit n_max logical w r pos size -> logical < 2 ^ 63 -> 0 < pos -> 0 <= needed -> pos + needed <= logical -> valid_width top_width -> 7 <= top_size ->
  0 <= top_size' <= top_size + 5 ->
  8 + top_size * 8 + per * (Z.of_nat n_max + 6) <= needed -> per = 24 \/ per = 16 /\ logical < 2 ^ 31 ->
  let end_ref := end_of_lists needed pos r + array_bytes top_size' top_width in
  pos <= end_ref <= pos + needed /\ (end_ref - pos) mod 8 = 0.
Proof.
  intros Hl HL Hpos Hn0 Hin Htw Ht Ht' Hneed Hper. cbv zeta. unfold end_of_lists. set (n := Z.of_nat (length (r_entries r))).
  assert (Hn : 0 <= n <= Z.of_nat n_max) by (pose proof (lf_length _ _ _ _ _ _ Hl); unfold n; lia).
  assert (Hrefs : Forall (fun v => 0 <= v < logical) (map e_ref (r_entries r)) /\ Forall (fun v => 0 <= v <= logical) (map e_size (r_entries r))).
  { pose proof (lf_inside _ _ _ _ _ _ Hl) as Hi. pose proof (proj1 (lf_file _ _ _ _ _ _ Hl)) as Hok. split; apply List.Forall_map; rewrite List.Forall_forall in *;
      intros e He; specialize (Hi e He); destruct (Hok e He) as (? & _ & ? & _); cbn in *; lia. }
  destruct Hrefs as [Hr1 Hr2].
  destruct (array_width_spec (map e_ref (r_entries r))) as (P1 & _ & P3); [eapply Forall_impl; [|exact Hr1]; cbn; lia|].
  destruct (array_width_spec (map e_size (r_entries r))) as (S1 & _ & S3); [eapply Forall_impl; [|exact Hr2]; cbn; lia|].
  destruct (array_width_spec (map e_released_at_version (r_entries r))) as (V1 & _ & _); [apply List.Forall_map, (lf_stamps _ _ _ _ _ _ Hl)|].
  destruct (array_width_spec [pos + needed]) as (B1 & B2 & B3); [repeat constructor; lia|].
  assert (Hb : bit_width (pos + needed) = array_width [pos + needed]).
  { cbn [array_width fold_right]. pose proof (bit_width_spec (pos + needed) ltac:(unfold int64_range; lia)) as (Hw & _). apply valid_width_range in Hw. lia. }
  rewrite Hb. set (pw := Z.max _ _).
  assert (Hpw : valid_width pw) by (unfold pw; destruct (Z.max_spec (array_width (map e_ref (r_entries r))) (array_width [pos + needed])) as [[_ ->]|[_ ->]]; done).
  pose proof (array_bytes_64 n _ ltac:(lia) (valid_width_range _ V1)) as [A3 A3'].
  pose proof (array_bytes_64 top_size' top_width ltac:(lia) (valid_width_range _ Htw)) as [A4 A4'].
  destruct Hper as [->|[-> Hsmall]].
  - pose proof (array_bytes_64 n pw ltac:(lia) (valid_width_range _ Hpw)) as [A1 A1'].
    pose proof (array_bytes_64 n _ ltac:(lia) (valid_width_range _ S1)) as [A2 A2']. split; [lia|dlia].
  - assert (Hp32 : pw <= 32).
    { unfold pw. specialize (P3 ltac:(eapply Forall_impl; [|exact Hr1]; cbn; lia)). specialize (B3 ltac:(repeat constructor; lia)). lia. }
    specialize (S3 ltac:(eapply Forall_impl; [|exact Hr2]; cbn; lia)). apply valid_width_range in Hpw, S1.
    pose proof (array_bytes_32 n pw ltac:(lia) ltac:(lia)) as [A1 A1']. pose proof (array_bytes_32 n _ ltac:(lia) (conj (proj1 S1) S3)) as [A2 A2'].
    split; [lia|dlia].
Qed.

Section Place.
Context (page_bits : Z) (Hpage : 3 <= page_bits <= 26).
Abbreviation page_size := (2 ^ page_bits).

Lemma start_compaction_ok free point w : free < m_logical_size w ->
  exists point', start_compaction page_size free point w = Ok point'.
Proof.
  intros Hf. unfold start_compaction. case_match; [|eauto]. rewrite (proj2 (Z.ltb_lt _ _)) by done. cbn [negb]. case_match; eauto.
Qed.

Lemma place_lists_spec n_max w r pos size needed top_size top_width per blocks point :
  lists_fit n_max (m_logical_size w) w r pos size -> m_logical_size w < 2 ^ 63 -> 0 < pos -> 0 <= needed < size ->
  valid_width top_width -> 7 <= top_size ->
  8 + top_size * 8 + per * (Z.of_nat n_max + 6) <= needed -> per = 24 \/ per = 16 /\ m_logical_size w < 2 ^ 31 ->
  exists wr, place_lists page_size needed size pos top_size top_width blocks r point w = Ok wr /\
    wr_blocks wr = blocks /\ wr_reserve_pos wr = pos /\ wr_logical_size wr = m_logical_size w /\ wr_file_size wr = m_file_size w /\
    pos <= wr_end_ref wr <= pos + needed /\ (wr_end_ref wr - pos) mod 8 = 0 /\ wr_free_list wr = deduct_reserved r (wr_end_ref wr).
Proof.
  intros Hl HL Hpos Hneed Htw Ht Hn Hper. unfold place_lists. rewrite (proj2 (Z.ltb_lt needed size)) by lia. cbn [negb].
  pose proof (Forall_lookup_1 _ _ _ _ (lf_inside _ _ _ _ _ _ Hl) (lf_reserve _ _ _ _ _ _ Hl)) as Hin. cbn in Hin.
  pose proof (proj1 (lf_file _ _ _ _ _ _ Hl)) as Hok.
  assert (Hsum : sum_entries (r_entries r) <= m_logical_size w - 1).
  { apply sum_entries_le; [apply Hl| |apply Hl|lia]. eapply Forall_impl; [|exact Hok]. intros e (_ & _ & He & _). cbn in He. lia. }
  destruct (start_compaction_ok (r_free_space_size r + size - needed - r_locked_space_size r) point w) as [point' ->].
  { rewrite (lf_free _ _ _ _ _ _ Hl). pose proof (lf_locked _ _ _ _ _ _ Hl). lia. }
  cbn [mbind result_bind]. set (top_size' := match point' with TaggedLimit _ => _ | _ => _ end).
  assert (Ht' : 0 <= top_size' <= top_size + 5) by (unfold top_size', s_evacuation_point_ndx; destruct point'; lia).
  pose proof (place_lists_bytes n_max (m_logical_size w) w r pos size needed top_size top_width top_size' per Hl HL Hpos ltac:(lia) ltac:(lia) Htw Ht Ht' Hn Hper) as [He He8].
  unfold end_of_lists in He, He8. set (end_ref := _ + array_bytes top_size' top_width) in *.
  rewrite (proj2 (Z.leb_le end_ref (pos + needed))) by lia. cbn [negb]. rewrite (proj2 (Z.ltb_lt 0 (pos + size - end_ref))) by lia. cbn [negb].
  assert (Hvals : Forall (fun v => 0 <= v < 2 ^ 63) (map e_ref (r_entries r)) /\ Forall (fun v => 0 <= v < 2 ^ 63) (map e_size (r_entries r))).
  { pose proof (lf_inside _ _ _ _ _ _ Hl) as Hi. split; apply List.Forall_map; rewrite List.Forall_forall in *;
      intros e Hx; specialize (Hi e Hx); destruct (Hok e Hx) as (? & _ & ? & _); cbn in *; lia. }
  destruct (array_width_spec _ (proj1 Hvals)) as (P1 & _ & _). destruct (array_width_spec _ (proj2 Hvals)) as (S1 & S2 & _).
  destruct (bit_width_spec (pos + needed)) as (B1 & _); [unfold int64_range; lia|].
  rewrite (below_width (pos + needed) _) with (u := end_ref); [|destruct (Z.max_spec (array_width (map e_ref (r_entries r))) (bit_width (pos + needed))) as [[_ ->]|[_ ->]]; done|lia..].
  cbn [negb]. rewrite (below_width size _) with (u := pos + size - end_ref); [|done| |lia|lia].
  2:{ apply S2. apply list_elem_of_In, in_map_iff. exists (mkEntry pos size 0). split; [done|]. apply list_elem_of_In. eapply list_elem_of_lookup_2, Hl. }
  cbn [negb]. eexists. split; [done|]. cbn. split; [done|]. split; [done|]. split; [done|]. split; [done|]. split; [lia|done].
Qed.

(** What [write_free_lists] leaves: [w'] is the writer it ends with. *)
Record lists_written (current : Z) (rel : list (Z * Z)) (blocks : list (Z * Z)) (w w' : GroupWriter) (wr : Written) : Prop := {
  lw_winv : winv w';
  lw_blocks : wr_blocks wr = blocks;
  lw_logical : wr_logical_size wr = m_logical_size w';
  lw_file : file_ok (wr_free_list wr);
  lw_inside : Forall (fun e => e_ref e + e_size e <= wr_logical_size wr) (wr_free_list wr);
  lw_end : wr_reserve_pos wr <= wr_end_ref wr;
  lw_end8 : (wr_end_ref wr - wr_reserve_pos wr) mod 8 = 0;
  lw_count : forall x, e_count x (wr_free_list wr) + inb x (wr_reserve_pos wr) (wr_end_ref wr - wr_reserve_pos wr) = w_count x w' + r_count x rel;
  lw_entries : forall e, e ∈ wr_free_list wr ->
    e_released_at_version e = 0 /\ (forall x, inb x (e_ref e) (e_size e) <= free_count x w') \/
    e ∈ m_not_free_in_file w \/ e_released_at_version e = current /\ forall x, inb x (e_ref e) (e_size e) <= r_count x rel;
  lw_reserved : forall x, inb x (wr_reserve_pos wr) (wr_end_ref wr - wr_reserve_pos wr) <= free_count x w';
  lw_pinned : m_not_free_in_file w' = m_not_free_in_file w;
  lw_origin : forall x, 0 < free_count x w' -> 0 < free_count x w \/ m_logical_size w <= x;
  lw_cut : forall x, wr_logical_size wr <= x < m_logical_size w -> 0 < free_count x w;
  lw_size : 0 < wr_logical_size wr < 2 ^ 63 /\ wr_logical_size wr mod 8 = 0
}.

Lemma all_entries_elem w v rel e : e ∈ all_entries w v rel ->
  e_released_at_version e = 0 /\ (forall x, inb x (e_ref e) (e_size e) <= free_count x w) \/
  e ∈ m_not_free_in_file w \/ e_released_at_version e = v /\ forall x, inb x (e_ref e) (e_size e) <= r_count x rel.
Proof.
  unfold all_entries. rewrite !elem_of_app, !list_elem_of_In, !in_map_iff. setoid_rewrite <- list_elem_of_In.
  assert (Hnn : forall x p n, 0 <= inb x p n) by (intros; apply inb_range).
  intros [([k p] & <- & Hi)|[Hi|[([p k] & <- & Hi)|(e' & <- & Hi)]]]; cbn [e_ref e_size e_released_at_version fst snd].
  - left. split; [done|]. intros x. pose proof (sumf_elem (fun q => inb x q.2 q.1) _ _ (fun q => Hnn x q.2 q.1) Hi) as H. cbn in H.
    unfold free_count, sm_count. pose proof (e_count_nonneg x (m_under_evacuation w)). lia.
  - right; by left.
  - right; right. split; [done|]. intros x. exact (sumf_elem (fun q => inb x q.1 q.2) _ _ (fun q => Hnn x q.1 q.2) Hi).
  - left. split; [done|]. intros x. pose proof (sumf_elem (fun a => inb x (e_ref a) (e_size a)) _ _ (fun a => Hnn x (e_ref a) (e_size a)) Hi) as H. cbn in H.
    unfold free_count. rewrite (e_count_sumf x (m_under_evacuation w)). pose proof (sm_count_nonneg x (m_size_map w)). lia.
Qed.

Lemma all_entries_length w v rel : length (all_entries w v rel) = (chunks w + length (m_not_free_in_file w) + length rel)%nat.
Proof. unfold all_entries, chunks. rewrite !length_app, !length_map. lia. Qed.

Lemma r_count_nonneg x l : 0 <= r_count x l.
Proof. apply sumf_nonneg. intros. apply inb_range. Qed.

Lemma locked_nonneg (l : list FreeSpaceEntry) (rel : list (Z * Z)) : Forall entry_ok l -> released_ok rel ->
  0 <= sum_entries l + fold_right (fun p n => p.2 + n) 0 rel.
Proof.
  intros Hl Hr. pose proof (sum_entries_nonneg l Hl). enough (0 <= fold_right (fun p n => p.2 + n) 0 rel) by lia.
  induction Hr as [|[p k] rel (Hk & _) _ IH]; cbn [fold_right fst snd] in *; lia.
Qed.

(** The recreated lists of a commit fit the file. *)
Lemma recreate_fits w v rel size pos : winv w -> released_ok rel -> (forall x, w_count x w + r_count x rel <= 1) ->
  (forall x, 0 < r_count x rel -> x < m_logical_size w) -> (size, pos) ∈ m_size_map w ->
  Forall (fun e => 0 <= e_released_at_version e < 2 ^ 63) (m_not_free_in_file w) -> 0 <= v < 2 ^ 63 ->
  exists r, recreate_freelist w v rel pos = Ok r /\ r_entries r ≡ₚ all_entries w v rel /\
    lists_fit (chunks w + length (m_not_free_in_file w) + length rel) (m_logical_size w) w r pos size.
Proof.
  intros Hw Hr Hc Hi Hs Hst Hv. destruct (recreate_spec w v rel size pos Hw Hr Hc Hs) as (r & Hrec & Hf & Hp & Hn & Hfree).
  exists r. split; [done|]. split; [done|]. split; [done| | |done| | |].
  - apply inside_of_count; [apply Hf|]. intros x. rewrite (e_count_perm x _ _ Hp), all_entries_count. intros Hx. pose proof (r_count_nonneg x rel).
    destruct (Z_lt_le_dec 0 (r_count x rel)) as [H1|H1]; [by apply Hi|]. apply (v_inside w Hw x). lia.
  - apply List.Forall_forall. intros e He. apply list_elem_of_In in He. rewrite Hp in He.
    destruct (all_entries_elem w v rel e He) as [[-> _]|[Hin|[-> _]]]; [lia| |done]. exact (proj1 (List.Forall_forall _ _) Hst e (proj1 (list_elem_of_In _ _) Hin)).
  - by rewrite Hp, all_entries_length.
  - by rewrite Hfree, (sum_perm _ _ Hp).
  - unfold recreate_freelist in Hrec. destruct (check_entries _ _ _ _ _) as [[[ndx|] sum]| |]; [|done..]. injection Hrec as <-.
    cbn [r_locked_space_size]. apply locked_nonneg; [apply Hw|done].
Qed.

Lemma max_needed_eq top_size rel w : max_free_space_needed top_size rel w =
  8 + top_size * 8 + (if m_logical_size w <? 0x8000000 then 16 else 24) *
    (Z.of_nat (chunks w + length (m_not_free_in_file w) + length rel) + 10).
Proof.
  unfold max_free_space_needed, get_max_byte_size, size_per_free_list_entry, header_size, chunks. rewrite !Nat2Z.inj_add. destruct (_ <? _); lia.
Qed.

End Place.

(** ** The free lists of a commit *)

Section Lists.
Context (page_bits : Z) (Hpage : 3 <= page_bits <= 26).
Abbreviation page_size := (2 ^ page_bits).

(** The reserved chunk and the cut leave the transaction's released space alone. *)
Lemma reserve_counts w w1 w2 rel : winv w -> winv w1 -> grown w w1 -> shrunk w1 w2 -> (forall x, w_count x w + r_count x rel <= 1) ->
  (forall x, 0 < r_count x rel -> x < m_logical_size w) ->
  (forall x, w_count x w2 + r_count x rel <= 1) /\ (forall x, 0 < r_count x rel -> x < m_logical_size w2).
Proof.
  intros Hw Hw1 (Hl & Hn & Hg) (Hw2 & _ & _ & _ & _ & Hs1 & _ & Hs3) Hc Hi.
  assert (H1 : forall x, x < m_logical_size w -> w_count x w1 = w_count x w).
  { intros x Hx. unfold w_count. rewrite Hg, Hn. inb_cases. }
  split; intros x.
  - specialize (Hi x). specialize (Hc x). pose proof (r_count_nonneg x rel). pose proof (v_once w2 Hw2 x).
    destruct (Z_lt_le_dec 0 (r_count x rel)) as [Hr|Hr]; [|lia]. specialize (Hi Hr). specialize (H1 x Hi). specialize (Hs1 x ltac:(lia)). lia.
  - intros Hr. specialize (Hi x Hr). destruct (Z_lt_le_dec x (m_logical_size w2)) as [|Hge]; [done|]. specialize (Hs3 x ltac:(lia)).
    specialize (H1 x Hi). specialize (Hc x). unfold w_count in H1 at 1. pose proof (e_count_nonneg x (m_not_free_in_file w1)). lia.
Qed.

Lemma lists_written_intro v rel blocks w w2 wr r size : winv w2 -> file_ok (r_entries r) -> r_entries r ≡ₚ all_entries w2 v rel ->
  (size, wr_reserve_pos wr) ∈ m_size_map w2 ->
  r_entries r !! r_reserve_ndx r = Some (mkEntry (wr_reserve_pos wr) size 0) ->
  wr_blocks wr = blocks -> wr_logical_size wr = m_logical_size w2 -> wr_reserve_pos wr <= wr_end_ref wr < wr_reserve_pos wr + size ->
  (wr_end_ref wr - wr_reserve_pos wr) mod 8 = 0 -> wr_free_list wr = deduct_reserved r (wr_end_ref wr) ->
  m_not_free_in_file w2 = m_not_free_in_file w -> (forall x, 0 < r_count x rel -> x < m_logical_size w2) ->
  (forall x, 0 < free_count x w2 -> 0 < free_count x w \/ m_logical_size w <= x) ->
  (forall x, m_logical_size w2 <= x < m_logical_size w -> 0 < free_count x w) -> m_logical_size w2 < 2 ^ 63 ->
  lists_written v rel blocks w w2 wr.
Proof.
  intros Hw2 Hf Hp Hin Hn Hb HL He He8 Hfl Hpin Hrel Horig Hcut H63. set (pos := wr_reserve_pos wr) in *. set (end_ref := wr_end_ref wr) in *.
  pose proof (proj1 (List.Forall_forall _ _) (proj1 (v_map w2 Hw2)) _ (proj1 (list_elem_of_In _ _) Hin)) as (_ & _ & Hpos & Hpos8). cbn in Hpos, Hpos8.
  destruct (file_ok_cut (r_entries r) (r_reserve_ndx r) _ end_ref Hf Hn He ltac:(dlia)) as [Hf' Hc]. cbn [e_ref e_size e_released_at_version] in Hf', Hc.
  unfold deduct_reserved in Hfl. rewrite Hn in Hfl. cbn [e_ref e_size e_released_at_version] in Hfl. rewrite <- Hfl in Hf', Hc.
  assert (Hall : forall x, e_count x (wr_free_list wr) + inb x pos (end_ref - pos) = w_count x w2 + r_count x rel).
  { intros x. by rewrite Hc, (e_count_perm x _ _ Hp), all_entries_count. }
  assert (Hsm : forall x, inb x pos size <= free_count x w2).
  { intros x. pose proof (sumf_elem (fun q => inb x q.2 q.1) _ _ (fun q => proj1 (inb_range x q.2 q.1)) Hin) as H. cbn in H.
    unfold free_count, sm_count. pose proof (e_count_nonneg x (m_under_evacuation w2)). lia. }
  split; try done; fold pos; fold end_ref.
  - rewrite HL. apply inside_of_count; [apply Hf'|]. intros x Hx. specialize (Hall x). specialize (Hrel x). pose proof (v_inside w2 Hw2 x).
    pose proof (inb_range x pos (end_ref - pos)). pose proof (r_count_nonneg x rel). lia.
  - lia.
  - intros e Hel. rewrite Hfl in Hel. apply list_elem_of_lookup in Hel as [j Hj]. destruct (decide (j = r_reserve_ndx r)) as [->|Hne].
    + rewrite list_lookup_insert_eq in Hj by by eapply lookup_lt_Some. injection Hj as <-. left. split; [done|]. intros x. cbn [e_ref e_size].
      specialize (Hsm x). inb_cases.
    + rewrite list_lookup_insert_ne in Hj by done. apply list_elem_of_lookup_2 in Hj. rewrite Hp in Hj. rewrite <- Hpin. by apply all_entries_elem.
  - intros x. specialize (Hsm x). inb_cases.
  - rewrite HL. exact Hcut.
  - rewrite HL. pose proof (v_logical w2 Hw2). lia.
Qed.

Lemma write_free_lists_spec c top_size top_width v rel blocks point w :
  winv w -> (m_under_evacuation w <> [] -> exists l, point = PointArray l) -> released_ok rel ->
  (forall x, w_count x w + r_count x rel <= 1) -> (forall x, 0 < r_count x rel -> x < m_logical_size w) ->
  Forall (fun e => 0 <= e_released_at_version e < 2 ^ 63) (m_not_free_in_file w) -> 0 <= v < 2 ^ 63 ->
  7 <= top_size -> valid_width top_width -> max_free_space_needed top_size rel w + 8 <= 2 ^ 25 ->
  0 <= c <= 2 ^ 60 -> Z.max (m_logical_size w) (m_file_size w) <= 2 ^ 61 ->
  2 ^ 27 <= m_logical_size w \/ c <= 2 ^ 27 /\ Z.max (m_logical_size w) (m_file_size w) <= 2 ^ 30 ->
  write_free_lists page_size c top_size top_width v rel blocks point w = Throw MaximumFileSizeExceeded \/
  exists wr w', write_free_lists page_size c top_size top_width v rel blocks point w = Ok wr /\ lists_written v rel blocks w w' wr.
Proof.
  intros Hw Hpt Hr Hc Hi Hst Hv Ht Htw Hneed Hcs HM Hsmall. unfold write_free_lists. pose proof (max_needed_eq top_size rel w) as Heq.
  set (needed := max_free_space_needed top_size rel w) in *. set (per := if m_logical_size w <? 0x8000000 then 16 else 24) in *.
  set (n0 := (chunks w + length (m_not_free_in_file w) + length rel)%nat) in *.
  assert (Hper : per = 16 /\ m_logical_size w < 2 ^ 27 \/ per = 24) by (unfold per; zdec; [left; split; [done|lia]|by right]).
  assert (Hn8 : 0 < needed + 8 /\ (needed + 8) mod 8 = 0) by (clearbody per; destruct Hper as [[-> _]| ->]; dlia).
  destruct (reserve_spec page_bits Hpage c w (needed + 8) Hw ltac:(lia) ltac:(lia)) as [->|([w1 it] & Hres & Hw1 & Hg & k & pos & Hit & Hk & _)]; [by left|].
  pose proof (reserve_frame page_bits Hpage c w (needed + 8) w1 it ltac:(pose proof (v_logical w Hw); lia) ltac:(lia) ltac:(lia) Hres) as [Fe Fc Fl _ Fg].
  rewrite Hres. cbn [mbind result_bind]. rewrite Hit.
  destruct (shrink_spec page_bits Hpage point w1 Hw1) as (point' & w2 & -> & _ & Hsh).
  { intros Hne. apply Hpt. destruct Fe as [(E & _)|(_ & E & _)]; congruence. }
  cbn [mbind result_bind]. destruct (reserve_counts w w1 w2 rel Hw Hw1 Hg Hsh Hc Hi) as [Hc2 Hi2].
  pose proof Hsh as (Hw2 & Em & Ep & Hch & Hlog & _ & Ho2 & Hcut). pose proof Hg as (Hg1 & Hg2 & Hg3).
  assert (Hin : (k, pos) ∈ m_size_map w2) by (rewrite Em; by eapply list_elem_of_lookup_2).
  destruct (recreate_fits w2 v rel k pos Hw2 Hr Hc2 Hi2 Hin ltac:(by rewrite Ep, Hg2) Hv) as (r & -> & Hp & Hfit). cbn [mbind result_bind].
  assert (Hfit' : lists_fit (n0 + 4) (m_logical_size w2) w2 r pos k).
  { destruct Hfit as [A1 A2 A3 A4 A5 A6 A7]. split; try done. rewrite Ep, Hg2 in A5. unfold n0. lia. }
  assert (Hbig : m_logical_size w2 < 2 ^ 63 /\ (per = 24 \/ per = 16 /\ m_logical_size w2 < 2 ^ 31)).
  { unfold step_size, growth_boundary in Fg. assert (c / 8 <= 2 ^ 57) by dlia. split; [lia|]. destruct Hper as [[-> Hsm]| ->]; [|by left]. right. split; [done|].
    destruct Hsmall as [|[Hc27 HM30]]; [lia|]. assert (c / 8 <= 2 ^ 24) by dlia. lia. }
  assert (Hpos : 0 < pos) by (pose proof (chunk_at _ _ _ _ (v_map w1 Hw1) Hit) as (_ & _ & Hp0 & _); exact Hp0).
  destruct (place_lists_spec page_bits (n0 + 4) w2 r pos k needed top_size top_width per blocks point' Hfit' ltac:(lia) Hpos ltac:(lia) Htw Ht
    ltac:(lia) ltac:(apply Hbig)) as (wr & -> & B1 & B2 & B3 & _ & B5 & B6 & B7).
  right. exists wr, w2. split; [done|]. apply (lists_written_intro v rel blocks w w2 wr r k); try done; rewrite ?B2; try done; try apply Hfit; try lia.
  - congruence.
  - intros x Hx. destruct (Ho2 x Hx) as [H1|H1]; [|right; lia]. rewrite Hg3 in H1. pose proof (inb_range x (m_logical_size w) (m_logical_size w1 - m_logical_size w)).
    destruct (Z_lt_le_dec 0 (free_count x w)) as [|H0]; [by left|]. right. inb_cases.
  - intros x Hx. specialize (Hcut x ltac:(lia)). rewrite Hg3 in Hcut. inb_cases.
Qed.

End Lists.
