(* ===== verification/WriteGroupTheorems.v ===== *)
(** * Theorems on writing a group

    A commit of a file that reachable snapshots still read: the space it takes is
    used by none of them, and the free lists it leaves have the meaning that the
    next commit relies on. *)

From stdpp Require Import sorting relations.
From S2P Require Import Prelude NodeHeader ArrayDirect Array VersionList VersionRun VersionInv VersionTheorems.
From S2P Require Import FreeList FreeListAlloc FreeListFile FreeListTheorems WriteGroup SpaceInv WriteGroupInv.

(** ** Reading the lists *)

Lemma read_entries_length oldest limit file : let '(pinned, evac, free) := read_entries oldest limit file in
  (length pinned + length evac + length free <= 2 * length file)%nat.
Proof.
  induction file as [|e file IH]; cbn [read_entries]; [done|]. destruct (read_entries oldest limit file) as [[pinned evac] free].
  destruct (oldest <? e_released_at_version e); [cbn [length]; lia|]. destruct (limit <? e_ref e + e_size e); [|cbn [length]; lia].
  destruct (e_ref e <? limit); cbn [length]; lia.
Qed.

Lemma merge_loop_length prev zeros l : length (merge_loop prev zeros l) = S (length zeros + length l).
Proof.
  revert prev zeros. induction l as [|e l IH]; intros prev zeros; cbn [merge_loop length]; [lia|]. case_match.
  - rewrite IH, length_app. cbn. lia.
  - cbn [length]. rewrite length_app, IH. cbn. lia.
Qed.

Lemma merge_length l : length (merge_adjacent_entries_in_freelist l) = length l.
Proof. destruct l as [|e l]; [done|]. cbn. rewrite merge_loop_length. cbn. lia. Qed.

Lemma move_length l m m' : move_free_in_file_to_size_map l m = Ok m' -> (length m' <= length m + length l)%nat.
Proof.
  revert m. induction l as [|e l IH]; intros m H; cbn [move_free_in_file_to_size_map] in H; [injection H as <-; lia|]. cbn [length]. case_match.
  - specialize (IH m H). lia.
  - case_match; [done|]. case_match; [done|]. specialize (IH _ H). unfold emplace_entry in IH. rewrite length_emplace in IH. lia.
Qed.

Lemma filter_length_le {B} (f : B -> bool) l : (length (List.filter f l) <= length l)%nat.
Proof. induction l as [|a l IH]; cbn; [done|]. destruct (f a); cbn; lia. Qed.

Lemma read_in_frame oldest limit backoff logical file_size file w : read_in_freelist oldest limit backoff logical file_size file = Ok w ->
  (chunks w + length (m_not_free_in_file w) <= 2 * length file)%nat /\ m_evacuation_limit w = limit /\ m_backoff w = backoff /\
  m_file_size w = file_size.
Proof.
  unfold read_in_freelist. pose proof (read_entries_length oldest (if limit =? 0 then npos else limit) file) as Hl.
  destruct (read_entries _ _ file) as [[pinned evac] free]. destruct (move_free_in_file_to_size_map _ []) as [m| |] eqn:E; [|done..].
  cbn [mbind result_bind]. intros H. injection H as <-. apply move_length in E. rewrite merge_length in E. unfold chunks. cbn.
  pose proof (filter_length_le (fun e => negb (e_size e =? 0)) (merge_adjacent_entries_in_freelist evac)) as Hf. rewrite merge_length in Hf. cbn in E. split; [lia|done].
Qed.

Lemma read_in_no_evac oldest backoff logical file_size file w : Forall (fun e => e_ref e + e_size e <= npos) file ->
  read_in_freelist oldest 0 backoff logical file_size file = Ok w -> m_under_evacuation w = [].
Proof.
  intros Hf. unfold read_in_freelist. cbn [Z.eqb]. assert (He : (read_entries oldest npos file).1.2 = []).
  { induction Hf as [|e file He _ IH]; cbn [read_entries]; [done|]. destruct (read_entries oldest npos file) as [[pinned evac] free]. cbn in IH. subst evac.
    rewrite (proj2 (Z.ltb_ge npos _)) by lia. by case_match. }
  destruct (read_entries oldest npos file) as [[pinned evac] free]. cbn in He. subst evac. destruct (move_free_in_file_to_size_map _ []) as [m| |]; [|done..].
  cbn. intros H. by injection H as <-.
Qed.

(** ** Saving the evacuation *)

Section Space.
Context (page_bits : Z) (Hpage : 3 <= page_bits <= 26).
Abbreviation page_size := (2 ^ page_bits).

Lemma with_backoff_winv w b : winv w -> winv (with_backoff w b).
Proof. intros [H1 H2 H3 H4 H5 H6]. by split. Qed.

Definition save_ok (c : Z) (w : GroupWriter) (block : list (Z * Z)) (point : EvacuationPoint) (w' : GroupWriter) : Prop :=
  winv w' /\ m_not_free_in_file w' = m_not_free_in_file w /\
  (m_under_evacuation w' <> [] -> exists l, point = PointArray l) /\
  (chunks w' <= chunks w + 4)%nat /\ m_logical_size w <= m_logical_size w' /\ m_file_size w' <= Z.max (m_file_size w) (m_logical_size w') /\
  Z.max (m_logical_size w') (m_file_size w') <= Z.max (m_logical_size w) (m_file_size w) + 4 * step_size c (2 ^ 25) /\
  forall x, free_count x w' + r_count x block = free_count x w + inb x (m_logical_size w) (m_logical_size w' - m_logical_size w).

Lemma save_evacuation_spec c bytes progress point w : winv w -> 0 <= c -> 0 < bytes <= 2 ^ 25 -> bytes mod 8 = 0 ->
  (m_evacuation_limit w <> 0 \/ m_backoff w <> 0 -> exists l, point = PointArray l) -> (m_under_evacuation w <> [] -> m_evacuation_limit w <> 0) ->
  save_evacuation page_size c bytes progress point w = Throw MaximumFileSizeExceeded \/
  exists block point' w', save_evacuation page_size c bytes progress point w = Ok (block, point', w') /\ save_ok c w block point' w'.
Proof.
  intros Hw Hc Hb Hb8 Hpt Hev. unfold save_evacuation. pose proof (v_logical w Hw) as [HL _].
  destruct (negb (m_evacuation_limit w =? 0) || negb (m_backoff w =? 0)) eqn:E.
  - destruct Hpt as [l ->].
    { apply orb_true_iff in E as [E|E]; apply negb_true_iff, Z.eqb_neq in E; auto. }
    set (w1 := if _ && _ then _ else w). assert (Hw1 : winv w1) by (unfold w1; case_match; [by apply with_backoff_winv|done]).
    assert (E1 : m_logical_size w1 = m_logical_size w /\ m_file_size w1 = m_file_size w /\ chunks w1 = chunks w /\
      m_not_free_in_file w1 = m_not_free_in_file w /\ forall x, free_count x w1 = free_count x w) by (unfold w1; by case_match).
    clearbody w1. destruct E1 as (E1 & E2 & E3 & E4 & E5).
    destruct (get_free_space_spec page_bits Hpage c w1 bytes Hw1 Hb Hb8) as [->|([pos w'] & Hg & Hw' & _ & _ & _ & _ & Hl & Hn & Hcnt)]; [by left|].
    pose proof (get_free_space_frame page_bits Hpage c w1 bytes pos w' ltac:(lia) Hb Hc Hg) as [_ F2 F3 F4 F5].
    rewrite Hg. right. cbn [mbind result_bind]. do 3 eexists. split; [done|]. rewrite E1, E2, E3 in *.
    split; [done|]. split; [congruence|]. split; [eauto|]. split; [done|]. split; [done|]. split; [done|]. split; [lia|].
    intros x. specialize (Hcnt x). rewrite E5 in Hcnt. unfold r_count. cbn [sumf fst snd]. lia.
  - right. apply orb_false_iff in E as [E _]. apply negb_false_iff, Z.eqb_eq in E. do 3 eexists. split; [done|]. split; [done|]. split; [done|].
    split; [intros Hne; by apply Hev in Hne|]. pose proof (step_size_pos c (2 ^ 25)). split; [lia|]. split; [lia|]. split; [lia|]. split; [lia|].
    intros x. change (r_count x []) with 0. inb_cases.
Qed.

End Space.

(** ** What a commit starts from *)

(** The reachable versions [old], the newest of which is [n] with the free lists
    [file]. *)
Record committable (used : Z -> Z -> Prop) (old : list OldFreeList) (n logical : Z) (file : list FreeSpaceEntry) : Prop := {
  cm_lists : lists_ok used old;
  cm_newest : mkOld n logical (Some file) ∈ old;
  cm_last : forall o, o ∈ old -> 0 <= fl_version o <= n;
  cm_file : file_ok file;
  cm_inside : Forall (fun e => e_ref e + e_size e <= logical) file;
  cm_logical : 0 < logical < 2 ^ 63 /\ logical mod 8 = 0
}.

(** The requests of a commit: blocks, released space, and sizes that the lists and
    the file can hold. *)
Record request (used : Z -> Z -> Prop) (n logical file_size : Z) (file : list FreeSpaceEntry) (ev : Evacuation) (c : Z)
    (sizes : list Z) (rel : list (Z * Z)) (evac_bytes top_size top_width : Z) : Prop := {
  rq_sizes : Forall (fun size => 0 < size <= 2 ^ 25 /\ size mod 8 = 0) sizes;
  rq_evac_bytes : 0 < evac_bytes <= 2 ^ 25 /\ evac_bytes mod 8 = 0;
  rq_limit : 0 <= ev_limit ev /\ ev_limit ev mod 8 = 0;
  rq_point : ev_limit ev <> 0 \/ ev_backoff ev <> 0 -> exists l, ev_point ev = PointArray l;
  rq_released : released_ok rel;
  rq_once : forall x, r_count x rel <= 1;
  rq_used : forall x, 0 < r_count x rel -> used n x;
  rq_top : 7 <= top_size /\ valid_width top_width;
  rq_room : get_max_byte_size top_size + 24 * Z.of_nat (2 * length file + length rel + 4 * length sizes + 14) + 8 <= 2 ^ 25;
  rq_commit : 0 <= c <= 2 ^ 60;
  rq_growth : Z.max logical file_size + Z.of_nat (4 * length sizes + 4) * step_size c (2 ^ 25) <= 2 ^ 61;
  rq_small : 2 ^ 27 <= logical \/ c <= 2 ^ 27 /\ Z.max logical file_size <= 2 ^ 30
}.

Section Commit.
Context (page_bits : Z) (Hpage : 3 <= page_bits <= 26).
Abbreviation page_size := (2 ^ page_bits).
Context (used : Z -> Z -> Prop) (old : list OldFreeList) (n logical : Z) (file : list FreeSpaceEntry).
Context (Hcm : committable used old n logical file).

Lemma newest_in : n ∈ versions old.
Proof. apply (proj2 (elem_versions old n)). exists (mkOld n logical (Some file)). split; [apply Hcm|done]. Qed.

Lemma versions_le u : u ∈ versions old -> 0 <= u <= n.
Proof. intros Hu. apply elem_versions in Hu as (o & Ho & <-). by apply (cm_last _ _ _ _ _ Hcm). Qed.

(** No reachable snapshot uses a byte. *)
Definition unused (x : Z) : Prop := forall u, u ∈ versions old -> ~ used u x.

Lemma beyond_unused x : logical <= x -> unused x.
Proof.
  intros Hx u Hu. pose proof (lk_sound _ _ (cm_lists _ _ _ _ _ Hcm) _ (cm_newest _ _ _ _ _ Hcm)) as [_ _ Hb].
  apply (Hb u x Hu); [by apply versions_le|done].
Qed.

Lemma file_entry e : e ∈ file -> 0 <= e_released_at_version e <= n /\ entry_free used (versions old) n e.
Proof.
  intros He. pose proof (lk_sound _ _ (cm_lists _ _ _ _ _ Hcm) _ (cm_newest _ _ _ _ _ Hcm)) as [Hs Hf _].
  split; [exact (Hs file e eq_refl He)|exact (Hf file e eq_refl He)].
Qed.

Lemma free_unused oldest x : (forall u, u ∈ versions old -> oldest <= u) -> 0 < e_count x (List.filter (unreachable oldest) file) -> unused x.
Proof.
  intros Ho Hx u Hu. apply e_count_pos in Hx as (e & He & Hc). apply list_elem_of_In, List.filter_In in He as [He Hr]. apply list_elem_of_In in He.
  destruct (file_entry e He) as [_ Hf]. apply (Hf u x Hu); [|done]. unfold unreachable, reachable in Hr. apply negb_true_iff, Z.ltb_ge in Hr.
  specialize (Ho u Hu). pose proof (versions_le u Hu). lia.
Qed.

Lemma pinned_not_newest oldest x : 0 < e_count x (List.filter (reachable oldest) file) -> ~ used n x.
Proof.
  intros Hx. apply e_count_pos in Hx as (e & He & Hc). apply list_elem_of_In, List.filter_In in He as [He _]. apply list_elem_of_In in He.
  destruct (file_entry e He) as [Hr Hf]. apply (Hf n x newest_in); [lia|done].
Qed.

(** ** The blocks of the tree *)

(** The writer once the arrays are written and the pinned chunks backdated. *)
Record arrays_written (vs : Versions) (file_size c : Z) (sizes : list Z) (ev : Evacuation) (rel blocks : list (Z * Z)) (point : EvacuationPoint)
    (w : GroupWriter) : Prop := {
  aw_winv : winv w;
  aw_point : m_under_evacuation w <> [] -> exists l, point = PointArray l;
  aw_length : (chunks w + length (m_not_free_in_file w) <= 2 * length file + 4 * length sizes + 4)%nat;
  aw_logical : logical <= m_logical_size w;
  aw_file : m_file_size w <= Z.max file_size (m_logical_size w);
  aw_growth : Z.max (m_logical_size w) (m_file_size w) <= Z.max logical file_size + Z.of_nat (4 * length sizes + 4) * step_size c (2 ^ 25);
  aw_blocks : forall x, free_count x w + r_count x blocks =
    e_count x (List.filter (unreachable (m_oldest_reachable_version vs)) file) + inb x logical (m_logical_size w - logical);
  aw_pinned : forall x, e_count x (m_not_free_in_file w) = e_count x (List.filter (reachable (m_oldest_reachable_version vs)) file);
  aw_stamps : Forall (fun e => 0 <= e_released_at_version e <= n /\ entry_free used (versions old) n e) (m_not_free_in_file w)
}.

Context (vs : Versions) (a : OldFreeList).
Context (Ha : a ∈ old) (Hao : fl_version a = m_oldest_reachable_version vs).
Context (Hmin : forall u, u ∈ versions old -> m_oldest_reachable_version vs <= u) (Hcur : n < m_current_version vs < 2 ^ 63).

Lemma oldest_nonneg : 0 <= m_oldest_reachable_version vs.
Proof. rewrite <- Hao. apply (cm_last _ _ _ _ _ Hcm a Ha). Qed.

(** The tree's arrays and the evacuation's. *)
Lemma arrays_spec file_size ev c sizes rel evac_bytes top_size top_width w0 :
  request used n logical file_size file ev c sizes rel evac_bytes top_size top_width ->
  read_in_freelist (m_oldest_reachable_version vs) (ev_limit ev) (ev_backoff ev) logical file_size file = Ok w0 ->
  let run := '(blocks, w) ← get_free_spaces page_size c w0 sizes;
             '(evac_block, point, w) ← save_evacuation page_size c evac_bytes (ev_progress ev) (ev_point ev) w;
             Ok (blocks ++ evac_block, point, w) in
  run = Throw MaximumFileSizeExceeded \/
  exists blocks point w, run = Ok (blocks, point, w) /\ arrays_written vs file_size c sizes ev rel blocks point w.
Proof.
  intros Hrq Hread. cbv zeta. destruct (rq_limit _ _ _ _ _ _ _ _ _ _ _ _ Hrq) as [Hlim Hlim8]. pose proof (cm_logical _ _ _ _ _ Hcm) as [HL HL8].
  destruct (read_in_spec (m_oldest_reachable_version vs) (ev_limit ev) (ev_backoff ev) logical file_size file (cm_file _ _ _ _ _ Hcm) (cm_inside _ _ _ _ _ Hcm)
    ltac:(lia) HL8 Hlim Hlim8) as (w & Hw0 & Hwinv & EL & Hpin & Hfree & _). rewrite Hread in Hw0. injection Hw0 as <-.
  destruct (read_in_frame _ _ _ _ _ _ _ Hread) as (Hlen & Elim & Eback & Efs).
  assert (Hev0 : m_under_evacuation w0 <> [] -> m_evacuation_limit w0 <> 0).
  { intros Hne E0. apply Hne. rewrite Elim in E0. rewrite E0 in Hread. apply (read_in_no_evac _ _ _ _ _ _) in Hread; [done|].
    eapply Forall_impl; [|exact (cm_inside _ _ _ _ _ Hcm)]. cbn. change npos with (2 ^ 64 - 1). lia. }
  destruct (rq_commit _ _ _ _ _ _ _ _ _ _ _ _ Hrq) as [Hc0 _].
  destruct (get_free_spaces_spec page_bits c sizes Hpage (rq_sizes _ _ _ _ _ _ _ _ _ _ _ _ Hrq) w0 Hwinv) as [->|(bl & w1 & Hg & Hw1 & _ & Hl1 & Hn1 & Hc1)]; [by left|].
  pose proof (get_free_spaces_frame page_bits Hpage c sizes Hc0 (rq_sizes _ _ _ _ _ _ _ _ _ _ _ _ Hrq) w0 bl w1 ltac:(lia) Hg) as [Fe Fc Fl Ff Fg].
  rewrite Hg. cbn [mbind result_bind]. pose proof (rq_point _ _ _ _ _ _ _ _ _ _ _ _ Hrq) as Hpt.
  destruct (rq_evac_bytes _ _ _ _ _ _ _ _ _ _ _ _ Hrq) as [Hb Hb8].
  destruct (save_evacuation_spec page_bits Hpage c evac_bytes (ev_progress ev) (ev_point ev) w1 Hw1 Hc0 Hb Hb8) as [->|(eb & pt & w2 & Hs & Hok)]; [| |by left|].
  { destruct Fe as [(_ & E1 & E2)|(Hne & _)]; [rewrite E1, E2, Elim, Eback; exact Hpt|]. intros _. apply Hpt. left. rewrite <- Elim. by apply Hev0. }
  { destruct Fe as [(E1 & E2 & _)|(_ & E1 & _)]; [rewrite E1, E2; exact Hev0|by rewrite E1]. }
  rewrite Hs. cbn [mbind result_bind]. right. do 3 eexists. split; [done|]. destruct Hok as (Hw2 & Hn2 & Hp2 & Hch2 & Hl2 & Hf2 & Hg2 & Hc2).
  rewrite EL, Efs in *. split; try done.
  - rewrite Hn2, Hn1. lia.
  - lia.
  - lia.
  - rewrite Nat2Z.inj_add, Z.mul_add_distr_r. lia.
  - intros x. specialize (Hc1 x). specialize (Hc2 x). rewrite Hfree in Hc1. unfold r_count in *. rewrite sumf_app.
    pose proof (inb_split x logical (m_logical_size w1 - logical) (m_logical_size w2 - m_logical_size w1) ltac:(lia) ltac:(lia)) as Hi.
    replace (m_logical_size w1 - logical + (m_logical_size w2 - m_logical_size w1)) with (m_logical_size w2 - logical) in Hi by lia.
    replace (logical + (m_logical_size w1 - logical)) with (m_logical_size w1) in Hi by lia. lia.
  - intros x. by rewrite Hn2, Hn1, Hpin.
  - rewrite Hn2, Hn1, Hpin. apply List.Forall_forall. intros e He. apply List.filter_In in He as [He _]. apply list_elem_of_In in He.
    destruct (file_entry e He) as [Hr Hf]. split; [lia|done].
Qed.

Lemma with_pinned_written file_size c sizes ev rel blocks point w l : arrays_written vs file_size c sizes ev rel blocks point w ->
  Forall2 (backdated used old n) (m_not_free_in_file w) l -> arrays_written vs file_size c sizes ev rel blocks point (with_pinned w l).
Proof.
  intros [[H1 H2 H3 H4 H5 H6] A2 A3 A4 A5 A6 A7 A8 A9] Hb. pose proof (fun x => backdated_count used old n _ _ x Hb) as Hcnt.
  assert (Hw : forall x, w_count x (with_pinned w l) = w_count x w) by (intros x; unfold w_count; cbn; by rewrite Hcnt).
  split; try done.
  - split; try done; [by eapply backdated_ok|intros x; by rewrite Hw|intros x; rewrite Hw; apply H5].
  - cbn. unfold chunks in *. cbn. by rewrite <- (Forall2_length Hb).
  - intros x. cbn. by rewrite Hcnt.
  - cbn. by eapply backdated_free.
Qed.

Lemma write_group_arrays free_lists file_size ev c sizes rel evac_bytes top_size top_width :
  request used n logical file_size file ev c sizes rel evac_bytes top_size top_width -> old_freelists free_lists vs = old ->
  let run := write_group page_size vs free_lists ev logical file_size file c sizes rel evac_bytes top_size top_width in
  run = Throw MaximumFileSizeExceeded \/
  exists blocks point w, run = write_free_lists page_size c top_size top_width (m_current_version vs) rel blocks point w /\
    arrays_written vs file_size c sizes ev rel blocks point w.
Proof.
  intros Hrq Hold. cbv zeta. unfold write_group. destruct (rq_limit _ _ _ _ _ _ _ _ _ _ _ _ Hrq) as [Hlim Hlim8]. pose proof (cm_logical _ _ _ _ _ Hcm) as [HL HL8].
  destruct (read_in_spec (m_oldest_reachable_version vs) (ev_limit ev) (ev_backoff ev) logical file_size file (cm_file _ _ _ _ _ Hcm) (cm_inside _ _ _ _ _ Hcm)
    ltac:(lia) HL8 Hlim Hlim8) as (w0 & Hread & _). rewrite Hread. cbn [mbind result_bind].
  destruct (arrays_spec file_size ev c sizes rel evac_bytes top_size top_width w0 Hrq Hread) as [H|(blocks & point & w & H & Haw)];
    (destruct (get_free_spaces page_size c w0 sizes) as [[bl w1]| |]; cbn [mbind result_bind] in H |- *; [|try done; injection H as ->; by left|done]);
    (destruct (save_evacuation page_size c evac_bytes (ev_progress ev) (ev_point ev) w1) as [[[eb pt] w2]| |]; cbn [mbind result_bind] in H |- *; [|try done; injection H as ->; by left|done]);
    [done|]. injection H as <- <- <-. right.
  destruct (m_any_new_unreachables vs); [|by exists (bl ++ eb), pt, w2]. unfold backdate.
  destruct (backdate_entries_spec used vs old a (mkOld n logical (Some file)) (m_not_free_in_file w2) (cm_lists _ _ _ _ _ Hcm) Ha Hao oldest_nonneg
    (cm_newest _ _ _ _ _ Hcm) ltac:(cbn; lia) (aw_stamps _ _ _ _ _ _ _ _ _ Haw)) as (l' & Hb & Hbd & _).
  rewrite Hold, Hb. cbn [mbind result_bind]. exists (bl ++ eb), pt, (with_pinned w2 l'). split; [done|]. by apply with_pinned_written.
Qed.

(** ** What the commit takes and leaves *)

Section Outcome.
Context (file_size c : Z) (sizes : list Z) (ev : Evacuation) (rel blocks : list (Z * Z)) (point : EvacuationPoint) (w : GroupWriter).
Context (Haw : arrays_written vs file_size c sizes ev rel blocks point w).
Context (Hrel : forall x, r_count x rel <= 1) (Hrel_used : forall x, 0 < r_count x rel -> used n x).

Lemma counts_range x : 0 <= free_count x w /\ 0 <= r_count x blocks /\ 0 <= e_count x (m_not_free_in_file w) /\ 0 <= r_count x rel.
Proof.
  unfold free_count. pose proof (sm_count_nonneg x (m_size_map w)). pose proof (e_count_nonneg x (m_under_evacuation w)).
  pose proof (e_count_nonneg x (m_not_free_in_file w)). pose proof (r_count_nonneg x blocks). pose proof (r_count_nonneg x rel). lia.
Qed.

(** Each byte the writer hands out or keeps was free for all, or is new. *)
Lemma taken_unused x : 0 < free_count x w + r_count x blocks -> unused x.
Proof.
  intros Hx. rewrite (aw_blocks _ _ _ _ _ _ _ _ _ Haw) in Hx.
  destruct (Z_lt_le_dec 0 (e_count x (List.filter (unreachable (m_oldest_reachable_version vs)) file))) as [H|H]; [by apply (free_unused (m_oldest_reachable_version vs))|].
  apply beyond_unused. inb_cases.
Qed.

Lemma taken_once x : free_count x w + r_count x blocks + e_count x (m_not_free_in_file w) <= 1 /\
  (0 < free_count x w + r_count x blocks + e_count x (m_not_free_in_file w) -> x < m_logical_size w).
Proof.
  rewrite (aw_blocks _ _ _ _ _ _ _ _ _ Haw), (aw_pinned _ _ _ _ _ _ _ _ _ Haw). pose proof (filter_split_count x (m_oldest_reachable_version vs) file) as Hs.
  pose proof (file_once x file (cm_file _ _ _ _ _ Hcm)). pose proof (count_inside x file logical (proj1 (cm_file _ _ _ _ _ Hcm)) (cm_inside _ _ _ _ _ Hcm)) as Hin.
  pose proof (aw_logical _ _ _ _ _ _ _ _ _ Haw). pose proof (e_count_nonneg x file). destruct (Z_lt_le_dec 0 (e_count x file)) as [Hp|Hp]; [specialize (Hin Hp)|]; inb_cases.
Qed.

Lemma released_apart x : 0 < r_count x rel -> free_count x w = 0 /\ r_count x blocks = 0 /\ e_count x (m_not_free_in_file w) = 0 /\ x < logical.
Proof.
  intros Hx. specialize (Hrel_used x Hx). pose proof (counts_range x) as Hnn.
  assert (H1 : ~ 0 < free_count x w + r_count x blocks) by (intros H1; by apply (taken_unused x H1 n newest_in)).
  assert (H2 : ~ 0 < e_count x (m_not_free_in_file w)).
  { rewrite (aw_pinned _ _ _ _ _ _ _ _ _ Haw). intros H2. by apply (pinned_not_newest _ _ H2). }
  assert (H3 : ~ logical <= x) by (intros H3; by apply (beyond_unused x H3 n newest_in)). lia.
Qed.

Lemma released_once x : w_count x w + r_count x rel <= 1.
Proof.
  unfold w_count. pose proof (counts_range x) as Hnn. pose proof (taken_once x) as Hto. specialize (Hrel x).
  destruct (Z_lt_le_dec 0 (r_count x rel)) as [H1|H1]; [pose proof (released_apart x H1)|]; lia.
Qed.

Lemma released_inside x : 0 < r_count x rel -> x < m_logical_size w.
Proof. intros Hx. pose proof (released_apart x Hx). pose proof (aw_logical _ _ _ _ _ _ _ _ _ Haw). lia. Qed.

Context (wr : Written) (w' : GroupWriter) (Hlw : lists_written (m_current_version vs) rel blocks w w' wr).
Let lists_at (x : Z) : Z := inb x (wr_reserve_pos wr) (wr_end_ref wr - wr_reserve_pos wr).

Lemma kept_free x : 0 < free_count x w' -> (0 < free_count x w \/ m_logical_size w <= x) /\ unused x.
Proof.
  intros Hx. pose proof (lw_origin _ _ _ _ _ _ Hlw x Hx) as Ho. split; [done|]. pose proof (counts_range x) as Hnn. pose proof (aw_logical _ _ _ _ _ _ _ _ _ Haw).
  destruct Ho as [Ho|Ho]; [apply taken_unused; lia|apply beyond_unused; lia].
Qed.

(** The commit overwrites nothing that a reachable snapshot uses. *)
Lemma commit_unused x : 0 < r_count x blocks \/ 0 < lists_at x -> unused x.
Proof.
  intros [Hx|Hx]; [apply taken_unused; pose proof (counts_range x) as Hnn; lia|]. apply kept_free. pose proof (lw_reserved _ _ _ _ _ _ Hlw x). unfold lists_at in Hx. lia.
Qed.

Lemma commit_once x : r_count x blocks + lists_at x + e_count x (wr_free_list wr) <= 1.
Proof.
  pose proof (lw_count _ _ _ _ _ _ Hlw x) as Hc. fold (lists_at x) in Hc. pose proof (v_once w' (lw_winv _ _ _ _ _ _ Hlw) x) as Ho. pose proof (released_once x) as Hr.
  pose proof (counts_range x) as Hnn. pose proof (taken_once x) as [Ht Ht2]. specialize (Hrel x).
  assert (Hf' : 0 <= free_count x w') by (unfold free_count; pose proof (sm_count_nonneg x (m_size_map w')); pose proof (e_count_nonneg x (m_under_evacuation w')); lia).
  assert (Hcase : free_count x w' <= 0 \/ 0 < free_count x w \/ m_logical_size w <= x).
  { destruct (Z_lt_le_dec 0 (free_count x w')) as [H|H]; [right; by apply kept_free|by left]. }
  unfold w_count in *. rewrite (lw_pinned _ _ _ _ _ _ Hlw) in *. destruct (Z_lt_le_dec 0 (r_count x rel)) as [H1|H1].
  - pose proof (released_apart x H1) as (R1 & R2 & R3 & R4). pose proof (aw_logical _ _ _ _ _ _ _ _ _ Haw). lia.
  - lia.
Qed.

(** Whatever the new snapshot uses is its predecessor's, less what was released,
    or what was written. *)
Context (Huses : forall x, used (m_current_version vs) x -> used n x /\ r_count x rel = 0 \/ 0 < r_count x blocks \/ 0 < lists_at x).

Lemma current_unused x : 0 < e_count x (wr_free_list wr) -> ~ used n x \/ 0 < r_count x rel -> ~ used (m_current_version vs) x.
Proof.
  intros Hx Hn Hu. pose proof (commit_once x) as Ho. pose proof (counts_range x) as Hnn. assert (0 <= lists_at x) by apply inb_range.
  destruct (Huses x Hu) as [[H1 H2]|[H1|H1]]; [|lia|lia]. destruct Hn; [done|lia].
Qed.

Lemma new_entry_free e : e ∈ wr_free_list wr ->
  0 <= e_released_at_version e <= m_current_version vs /\ entry_free used (versions old ++ [m_current_version vs]) (m_current_version vs) e.
Proof.
  intros He. assert (Hcov : forall x, covers e x -> 0 < e_count x (wr_free_list wr)) by (intros x Hx; apply e_count_pos; eauto).
  destruct (lw_entries _ _ _ _ _ _ Hlw e He) as [[E0 Hf]|[Hp|[E1 Hf]]].
  - split; [rewrite E0; pose proof (versions_le n newest_in); lia|]. intros u x Hu Hr Hx. pose proof (Hf x) as H1. rewrite (proj2 (inb_covers x e) Hx) in H1.
    destruct (kept_free x ltac:(lia)) as [_ Hun]. apply elem_of_app in Hu as [Hu|Hu]; [by apply Hun|]. apply list_elem_of_singleton in Hu as ->.
    apply current_unused; [by apply Hcov|left; apply (Hun n newest_in)].
  - destruct (proj1 (List.Forall_forall _ _) (aw_stamps _ _ _ _ _ _ _ _ _ Haw) e (proj1 (list_elem_of_In _ _) Hp)) as [Hst Hfree].
    split; [lia|]. intros u x Hu Hr Hx. apply elem_of_app in Hu as [Hu|Hu]; [apply (Hfree u x Hu); [pose proof (versions_le u Hu); lia|done]|].
    apply list_elem_of_singleton in Hu as ->. apply current_unused; [by apply Hcov|left; apply (Hfree n x newest_in); [lia|done]].
  - split; [rewrite E1; pose proof (versions_le n newest_in); lia|]. intros u x Hu Hr Hx. pose proof (Hf x) as H1. rewrite (proj2 (inb_covers x e) Hx) in H1.
    apply elem_of_app in Hu as [Hu|Hu]; [pose proof (versions_le u Hu); lia|]. apply list_elem_of_singleton in Hu as ->. apply current_unused; [by apply Hcov|right; lia].
Qed.

Lemma beyond_new u x : u ∈ versions old ++ [m_current_version vs] -> wr_logical_size wr <= x -> ~ used u x.
Proof.
  intros Hu Hx. pose proof (aw_logical _ _ _ _ _ _ _ _ _ Haw) as HL. pose proof (counts_range x) as Hnn.
  assert (Hun : unused x /\ r_count x blocks = 0).
  { pose proof (taken_once x) as [Ht Ht2]. destruct (Z_lt_le_dec x (m_logical_size w)) as [Hlt|Hge].
    - pose proof (lw_cut _ _ _ _ _ _ Hlw x ltac:(lia)) as Hc. split; [apply taken_unused; lia|lia].
    - split; [apply beyond_unused; lia|]. destruct (Z_lt_le_dec 0 (r_count x blocks)); [|lia]. specialize (Ht2 ltac:(lia)). lia. }
  destruct Hun as [Hun Hb]. apply elem_of_app in Hu as [Hu|Hu]; [by apply Hun|]. apply list_elem_of_singleton in Hu as ->. intros Hus.
  destruct (Huses x Hus) as [[H1 _]|[H1|H1]]; [by apply (Hun n newest_in)|lia|].
  pose proof (lw_reserved _ _ _ _ _ _ Hlw x) as Hr. unfold lists_at in H1. pose proof (v_inside w' (lw_winv _ _ _ _ _ _ Hlw) x) as Hin. unfold w_count in Hin.
  pose proof (e_count_nonneg x (m_not_free_in_file w')). rewrite (lw_logical _ _ _ _ _ _ Hlw) in Hx. lia.
Qed.
End Outcome.

End Commit.

(** ** The versions a commit is told of *)

Lemma set_versions_view current top_refs any vs free_lists : StronglySorted key_lt top_refs -> set_versions current top_refs any = Ok vs ->
  m_current_version vs = current /\ versions (old_freelists free_lists vs) = map fst top_refs /\
  (forall u, u ∈ versions (old_freelists free_lists vs) -> m_oldest_reachable_version vs <= u) /\
  exists a, a ∈ old_freelists free_lists vs /\ fl_version a = m_oldest_reachable_version vs.
Proof.
  unfold set_versions. destruct top_refs as [|[oldest info] m]; [done|]. intros Hs H. case_match; [done|]. injection H as <-.
  cbn [m_current_version m_oldest_reachable_version m_top_ref_map]. split; [done|].
  assert (Hf : List.filter (fun e : Z * (Z * Z) => negb (e.1 <? oldest)) ((oldest, info) :: m) = (oldest, info) :: m).
  { apply forallb_filter_id, forallb_forall. intros e He. pose proof (sorted_head _ _ e Hs (proj2 (list_elem_of_In _ _) He)) as Hle. cbn in Hle.
    apply negb_true_iff, Z.ltb_ge. done. }
  assert (Hv : versions (old_freelists free_lists (mkVersions current oldest any ((oldest, info) :: m))) = map fst ((oldest, info) :: m)).
  { unfold versions, old_freelists. cbn [m_oldest_reachable_version m_top_ref_map]. rewrite Hf, map_map. apply map_ext. intros [v [t g]]. done. }
  split; [done|]. split.
  - intros u Hu. rewrite Hv in Hu. apply list_elem_of_In, in_map_iff in Hu as (e & <- & He). exact (sorted_head _ _ e Hs (proj2 (list_elem_of_In _ _) He)).
  - apply elem_versions. rewrite Hv. apply list_elem_of_here.
Qed.

Lemma committable_next used old n logical file current logical' file' : committable used old n logical file -> n < current ->
  (forall e, e ∈ file' -> 0 <= e_released_at_version e <= current /\ entry_free used (versions old ++ [current]) current e) ->
  (forall u x, u ∈ versions old ++ [current] -> logical' <= x -> ~ used u x) ->
  file_ok file' -> Forall (fun e => e_ref e + e_size e <= logical') file' -> 0 < logical' < 2 ^ 63 /\ logical' mod 8 = 0 ->
  committable used (old ++ [mkOld current logical' (Some file')]) current logical' file'.
Proof.
  intros [[Hs Hsound] C2 C3 C4 C5 C6] Hn He Hb Hf Hi HL. assert (Hn0 : 0 <= n) by apply (C3 _ C2).
  assert (Hvs : versions (old ++ [mkOld current logical' (Some file')]) = versions old ++ [current]) by (unfold versions; by rewrite map_app).
  assert (Hle : forall u, u ∈ versions old -> u <= n) by (intros u Hu; apply elem_versions in Hu as (o & Ho & <-); apply (C3 o Ho)).
  split; [split| | | | |]; try done.
  - assert (Hall : Forall (fun o => fl_version o < current) old) by (apply List.Forall_forall; intros o Ho; apply list_elem_of_In, C3 in Ho; lia).
    clear -Hs Hall. induction Hs as [|o old Hs IH Hf]; cbn [app]; [by repeat constructor|]. apply Forall_cons_iff in Hall as [Ho Hall].
    constructor; [by apply IH|]. apply Forall_app. split; [done|]. by constructor.
  - intros o Ho. rewrite Hvs. apply elem_of_app in Ho as [Ho|Ho].
    + destruct (Hsound o Ho) as [S1 S2 S3]. pose proof (C3 o Ho). split; [done| |].
      * intros l e El Hel u x Hu Hr Hx. apply elem_of_app in Hu as [Hu|Hu]; [by apply (S2 l e El Hel u x)|]. apply list_elem_of_singleton in Hu as ->. lia.
      * intros u x Hu Hr Hx. apply elem_of_app in Hu as [Hu|Hu]; [by apply (S3 u x)|]. apply list_elem_of_singleton in Hu as ->. lia.
    + apply list_elem_of_singleton in Ho as ->. split; cbn [fl_entries fl_version fl_logical_file_size].
      * intros l e El Hel. injection El as <-. apply (He e Hel).
      * intros l e El Hel. injection El as <-. apply (He e Hel).
      * intros u x Hu _. by apply Hb.
  - apply elem_of_app. right. apply list_elem_of_here.
  - intros o Ho. apply elem_of_app in Ho as [Ho|Ho]; [pose proof (C3 o Ho); lia|]. apply list_elem_of_singleton in Ho as ->. cbn. lia.
Qed.

(** The outcome of a commit: nothing reachable is overwritten, nothing is given
    out twice, and the next commit can start from what it leaves. *)
Definition commit_outcome (used : Z -> Z -> Prop) (old : list OldFreeList) (n current : Z) (rel : list (Z * Z)) (wr : Written) : Prop :=
  let written x := 0 < r_count x (wr_blocks wr) \/ wr_reserve_pos wr <= x < wr_end_ref wr in
  (forall u x, u ∈ versions old -> written x -> ~ used u x) /\
  (forall x, r_count x (wr_blocks wr) + inb x (wr_reserve_pos wr) (wr_end_ref wr - wr_reserve_pos wr) + e_count x (wr_free_list wr) <= 1) /\
  ((forall x, used current x -> used n x /\ r_count x rel = 0 \/ written x) ->
   committable used (old ++ [mkOld current (wr_logical_size wr) (Some (wr_free_list wr))]) current (wr_logical_size wr) (wr_free_list wr)).

Lemma lists_at_iff x wr : 0 < inb x (wr_reserve_pos wr) (wr_end_ref wr - wr_reserve_pos wr) <-> wr_reserve_pos wr <= x < wr_end_ref wr.
Proof. unfold inb. destruct (Z.leb_spec (wr_reserve_pos wr) x), (Z.ltb_spec x (wr_reserve_pos wr + (wr_end_ref wr - wr_reserve_pos wr))); cbn; lia. Qed.

Lemma write_group_spec page_bits used current top_refs any vs free_lists n logical file file_size ev c sizes rel evac_bytes top_size top_width :
  3 <= page_bits <= 26 -> StronglySorted key_lt top_refs -> set_versions current top_refs any = Ok vs ->
  committable used (old_freelists free_lists vs) n logical file -> n < current < 2 ^ 63 ->
  request used n logical file_size file ev c sizes rel evac_bytes top_size top_width ->
  let run := write_group (2 ^ page_bits) vs free_lists ev logical file_size file c sizes rel evac_bytes top_size top_width in
  run = Throw MaximumFileSizeExceeded \/
  exists wr, run = Ok wr /\ commit_outcome used (old_freelists free_lists vs) n current rel wr.
Proof.
  intros Hp Hsort Hset Hcm Hcur Hrq. cbv zeta. destruct (set_versions_view current top_refs any vs free_lists Hsort Hset) as (<- & _ & Hmin & a & Ha & Hao).
  destruct (write_group_arrays page_bits Hp used (old_freelists free_lists vs) n logical file Hcm vs a Ha Hao Hcur free_lists file_size ev c sizes rel evac_bytes
    top_size top_width Hrq eq_refl) as [->|(blocks & point & w & -> & Haw)]; [by left|].
  pose proof Hrq as [_ _ _ _ R5 R6 R7 [R8 R8'] R9 R10 R11 R12]. pose proof Haw as [A1 A2 A3 A4 A5 A6 _ _ A9].
  destruct (write_free_lists_spec page_bits Hp c top_size top_width (m_current_version vs) rel blocks point w A1 A2 R5) as [->|(wr & w' & -> & Hlw)]; try done.
  - by eapply released_once.
  - by eapply released_inside.
  - eapply Forall_impl; [|exact A9]. cbn. lia.
  - pose proof (cm_last _ _ _ _ _ Hcm _ (cm_newest _ _ _ _ _ Hcm)) as H. cbn in H. lia.
  - rewrite max_needed_eq. unfold get_max_byte_size, header_size in R9. rewrite !Nat2Z.inj_add in *. rewrite !Nat2Z.inj_mul in R9. destruct (_ <? _); lia.
  - lia.
  - destruct R12 as [|[R12 R13]]; [left; lia|]. destruct (Z_lt_le_dec (m_logical_size w) (2 ^ 27)); [right; lia|by left].
  - by left.
  - right. exists wr. split; [done|]. split; [|split].
    + intros u x Hu Hx. rewrite (lw_blocks _ _ _ _ _ _ Hlw), <- lists_at_iff in Hx. eapply (commit_unused used); [exact Hcm|exact Hmin|exact Haw|exact Hlw|exact Hx|exact Hu].
    + intros x. rewrite (lw_blocks _ _ _ _ _ _ Hlw). eapply (commit_once used); [exact Hcm|exact Hmin|exact Haw|exact R6|exact R7|exact Hlw].
    + intros Huses. assert (Huses' : forall x, used (m_current_version vs) x -> used n x /\ r_count x rel = 0 \/ 0 < r_count x blocks \/
        0 < inb x (wr_reserve_pos wr) (wr_end_ref wr - wr_reserve_pos wr)).
      { intros x Hx. rewrite lists_at_iff, <- (lw_blocks _ _ _ _ _ _ Hlw). by apply Huses. }
      apply (committable_next used _ n logical file); try apply Hlw; [done|lia| |].
      * intros e He. eapply new_entry_free; try done.
      * intros u x Hu Hx. eapply beyond_new; try done.
Qed.

(** ** The theorems *)


(** Claim C1. Snapshot isolation. A participant of a reachable session commits:
    it cleans up, adds the journal's checkpoint to the reachable versions, and
    writes. Whatever the other participants do meanwhile and after, a snapshot
    that any of them holds a lock on, or that the checkpoint of the file header
    names, keeps all its bytes: the commit writes none of them. *)
Theorem snapshot_isolation page_bits used s p P r checkpoint current vs free_lists logical file file_size ev c sizes rel evac_bytes top_size top_width wr s' u :
  3 <= page_bits <= 26 -> vreach s -> s_parts s !! p = Some P -> writer P (s_list s) -> purge_versions (s_list s) = Ok r ->
  set_versions current (commit_top_refs checkpoint (p_top_refs r)) (p_any_new_unreachables r) = Ok vs ->
  committable used (old_freelists free_lists vs) (newest_version s) logical file -> newest_version s < current < 2 ^ 63 ->
  request used (newest_version s) logical file_size file ev c sizes rel evac_bytes top_size top_width ->
  write_group (2 ^ page_bits) vs free_lists ev logical file_size file c sizes rel evac_bytes top_size top_width = Ok wr ->
  rtc vstep (mkSession (p_list r) (s_parts s)) s' ->
  (exists Q l, Q ∈ s_parts s' /\ has_lock Q l /\ m_version l = u /\ u <= newest_version s) \/
  (exists top_ref size, checkpoint = Some (u, (top_ref, size)) /\ top_ref <> 0) ->
  forall x, used u x -> r_count x (wr_blocks wr) = 0 /\ ~ (wr_reserve_pos wr <= x < wr_end_ref wr).
Proof.
  intros Hp Hs%vreach_sinv HP Hw Hpurge Hset Hcm Hcur Hrq Hrun Hsteps Hu x Hx.
  destruct (cleanup_spec s p P Hs HP Hw) as (r' & Hr' & _ & Hsort & _). rewrite Hpurge in Hr'. injection Hr' as <-.
  assert (Hsort' : StronglySorted key_lt (commit_top_refs checkpoint (p_top_refs r))).
  { unfold commit_top_refs. destruct checkpoint as [[v [t g]]|]; [|done]. case_match; [by apply emplace_sorted|done]. }
  destruct (write_group_spec page_bits used current _ _ vs free_lists _ _ _ _ _ _ _ _ _ _ _ Hp Hsort' Hset Hcm Hcur Hrq) as [H|(wr' & H & Hiso & _)];
    rewrite Hrun in H; [done|]. injection H as <-. destruct (set_versions_view current _ _ vs free_lists Hsort' Hset) as (_ & Hvs & _).
  assert (Hin : u ∈ versions (old_freelists free_lists vs)).
  { rewrite Hvs. destruct Hu as [(Q & l & HQ & Hl & <- & Hle)|(t & g & -> & Ht)].
    - destruct (cleanup_locks s p P r s' Q l Hs HP Hw Hpurge Hsteps HQ Hl) as [Hv|Hv]; [|lia].
      apply list_elem_of_In, in_map_iff in Hv as (e & He & Hel). apply list_elem_of_In, in_map_iff. exists e. split; [done|]. apply list_elem_of_In.
      apply list_elem_of_In in Hel. unfold commit_top_refs. destruct checkpoint as [[v [t g]]|]; [|done]. case_match; [by apply emplace_keep|done].
    - cbn [commit_top_refs]. rewrite (proj2 (Z.eqb_neq _ _) Ht). cbn [negb]. apply list_elem_of_In, in_map_iff.
      clear -Hsort. induction (p_top_refs r) as [|[v' i'] m IH]; cbn [top_refs_emplace]; [exists (u, (t, g)); split; [done|by left]|].
      destruct (u <? v'); [exists (u, (t, g)); split; [done|by left]|]. destruct (Z.eqb_spec u v') as [->|]; [exists (v', i'); split; [done|by left]|].
      destruct IH as (e & He & Hel); [by inversion Hsort|]. exists e. split; [done|by right]. }
  pose proof (Hiso u x Hin) as Hno. pose proof (r_count_nonneg x (wr_blocks wr)). split.
  - destruct (Z_lt_le_dec 0 (r_count x (wr_blocks wr))) as [Hb|]; [|lia]. exfalso. by apply (Hno (or_introl Hb)).
  - intros Hl. by apply (Hno (or_intror Hl)).
Qed.

(** Backdating terminates and raises no assertion. Every pinned chunk
    keeps its place and size and gets a stamp that is not later; no reachable
    snapshot from that stamp on uses it; and the stamp cannot be moved further
    back by the lists of an older reachable version. *)
Theorem backdate_correct used current top_refs any vs free_lists n logical file w :
  StronglySorted key_lt top_refs -> set_versions current top_refs any = Ok vs ->
  committable used (old_freelists free_lists vs) n logical file -> n < current ->
  (forall e, e ∈ m_not_free_in_file w -> e ∈ file) ->
  exists l, backdate vs (old_freelists free_lists vs) w = Ok (with_pinned w l) /\
    Forall2 (backdated used (old_freelists free_lists vs) n) (m_not_free_in_file w) l /\
    Forall (settled (m_oldest_reachable_version vs) (old_freelists free_lists vs)) l.
Proof.
  intros Hsort Hset Hcm Hcur Hin. destruct (set_versions_view current top_refs any vs free_lists Hsort Hset) as (E & _ & _ & a & Ha & Hao).
  unfold backdate. destruct (backdate_entries_spec used vs (old_freelists free_lists vs) a (mkOld n logical (Some file)) (m_not_free_in_file w)) as (l & -> & H1 & H2).
  - apply Hcm.
  - done.
  - done.
  - rewrite <- Hao. apply (cm_last _ _ _ _ _ Hcm a Ha).
  - apply Hcm.
  - cbn. lia.
  - apply List.Forall_forall. intros e He. apply list_elem_of_In, Hin in He. exact (file_entry used _ n logical file Hcm e He).
  - by exists l.
Qed.

(** ** An example *)

(** Version 1 uses the bytes up to 1024; version 2 has released the second half of
    them and uses another kilobyte. *)
Definition ex_used (v x : Z) : Prop := v = 1 /\ 24 <= x < 1024 \/ v = 2 /\ (24 <= x < 512 \/ 1024 <= x < 2048).
Definition ex_file : list FreeSpaceEntry := [mkEntry 512 512 2; mkEntry 2048 6144 0].
Definition ex_lists (top : Z) : option (list FreeSpaceEntry) :=
  if top =? 64 then Some [mkEntry 1024 3072 0] else if top =? 128 then Some ex_file else None.
Definition ex_tops : TopRefMap := [(1, (64, 4096)); (2, (128, 8192))].
Definition ex_versions (any : bool) : Versions := mkVersions 3 1 any ex_tops.
Definition ex_old : list OldFreeList := [mkOld 1 4096 (Some [mkEntry 1024 3072 0]); mkOld 2 8192 (Some ex_file)].
Definition ex_evac : Evacuation := mkEvac 0 0 [] NoPoint.

Lemma ex_old_eq any : old_freelists ex_lists (ex_versions any) = ex_old.
Proof. reflexivity. Qed.

Lemma ex_sorted : StronglySorted key_lt ex_tops.
Proof. repeat constructor. Qed.

Lemma ex_committable any : committable ex_used (old_freelists ex_lists (ex_versions any)) 2 8192 ex_file.
Proof.
  rewrite ex_old_eq. split.
  - split; [repeat constructor|]. intros o Ho. apply list_elem_of_In in Ho. destruct Ho as [<-|[<-|[]]]; split; cbn [fl_entries fl_version fl_logical_file_size].
    + intros l e El He. injection El as <-. apply list_elem_of_singleton in He as ->. cbn. lia.
    + intros l e El He u x _ Hr Hx. injection El as <-. apply list_elem_of_singleton in He as ->. unfold covers, ex_used in *. cbn in *. lia.
    + intros u x _ Hr Hx. unfold ex_used. lia.
    + intros l e El He. injection El as <-. apply list_elem_of_In in He. destruct He as [<-|[<-|[]]]; cbn; lia.
    + intros l e El He u x _ Hr Hx. injection El as <-. unfold covers, ex_used in *. apply list_elem_of_In in He. destruct He as [<-|[<-|[]]]; cbn in *; lia.
    + intros u x _ Hr Hx. unfold ex_used. lia.
  - apply elem_of_cons. right. apply list_elem_of_here.
  - intros o Ho. apply list_elem_of_In in Ho. destruct Ho as [<-|[<-|[]]]; cbn; lia.
  - file_ok_tac.
  - repeat (constructor; [cbn; lia|]). constructor.
  - split; [lia|done].
Qed.

Lemma ex_request : request ex_used 2 8192 8192 ex_file ex_evac 0 [64; 128] [(1024, 64)] 24 12 32.
Proof.
  split; try done.
  - repeat (constructor; [split; [lia|done]|]). constructor.
  - intros [H|H]; done.
  - repeat constructor.
  - intros x. unfold r_count. cbn [sumf fst snd]. inb_cases.
  - intros x. unfold r_count, ex_used. cbn [sumf fst snd]. inb_cases.
  - split; [lia|]. unfold valid_width. lia.
  - right. lia.
Qed.


Lemma backdate_correct_witness : exists l,
  backdate (ex_versions true) ex_old (mkWriter [] [mkEntry 512 512 2] [] 0 0 8192 8192) =
    Ok (with_pinned (mkWriter [] [mkEntry 512 512 2] [] 0 0 8192 8192) l) /\
  Forall (settled 1 ex_old) l.
Proof.
  destruct (backdate_correct ex_used 3 ex_tops true (ex_versions true) ex_lists 2 8192 ex_file (mkWriter [] [mkEntry 512 512 2] [] 0 0 8192 8192)
    ex_sorted eq_refl (ex_committable true) eq_refl) as (l & H1 & _ & H2).
  - intros e He. apply list_elem_of_singleton in He as ->. apply list_elem_of_here.
  - exists l. split; [exact H1|exact H2].
Defined.

(** In the session of [demo3] one participant still holds version 1 when the
    other one commits. *)
Lemma snapshot_isolation_witness : exists wr,
  write_group (2 ^ 12) (ex_versions false) ex_lists ex_evac 8192 8192 ex_file 0 [64; 128] [(1024, 64)] 24 12 32 = Ok wr /\
  forall x, 24 <= x < 1024 -> r_count x (wr_blocks wr) = 0.
Proof.
  eexists. split; [vm_compute; reflexivity|]. intros x Hx.
  refine (proj1 (snapshot_isolation 12 ex_used demo3 1 (demo_part 1 demo3) (got (purge_versions (s_list demo3)) (mkPurged 0 [] false (s_list demo3))) None 3
    (ex_versions false) ex_lists 8192 ex_file 8192 ex_evac 0 [64; 128] [(1024, 64)] 24 12 32 _ _ 1 ltac:(lia) demo3_reach eq_refl demo3_writer
    eq_refl eq_refl (ex_committable false) ltac:(change (2 < 3 < 2 ^ 63); lia) ex_request eq_refl (rtc_refl _ _) _ x (or_introl (conj eq_refl Hx)))).
  left. exists (demo_part 0 demo3), (mkLock 1 0 64 4096 Live). split; [apply list_elem_of_here|]. split; [left; apply list_elem_of_here|]. split; [reflexivity|discriminate].
Defined.

(** ** The size of an entry *)

(** [size_per_free_list_entry] takes it that a file below 128 MB does not grow
    above 2 GB in a commit. An extension takes in all the space the physical file
    has, however: with 4 GB of it reserved, a file of 64 MB grows to 4 GB in one
    step, and the length of the new chunk needs 64 bits. *)
Example extension_past_2gb :
  let w := mkWriter [] [] [] 0 0 (2 ^ 26) (2 ^ 32) in
  size_per_free_list_entry w = 16 /\
  exists w', extend_free_space (2 ^ 12) 0 w 4096 = Ok (w', 0%nat) /\ m_logical_size w' = 2 ^ 32 /\ bit_width (2 ^ 32 - 2 ^ 26) = 64 /\
    m_size_map w' = [(2 ^ 32 - 2 ^ 26, 2 ^ 26)].
Proof. split; [reflexivity|]. eexists. split; [vm_compute; reflexivity|]. split; [reflexivity|]. split; vm_compute; reflexivity. Qed.
