(* ===== verification/Journal.v ===== *)
(** * The commit journal (src/llbt/core/commit_journal_format.hpp,
      commit_journal.hpp, commit_journal.cpp)

    The journal is a ring-less log of 64 MiB made of sixteen 4 MiB blobs of the
    file.  A commit appends one record that names the new top array, the logical
    size, and every array the commit wrote, with its checksum.  The file image
    is a [bytes]; a window write is a [blit] into it. *)

From S2P Require Import Prelude Bytes Crc32c NodeHeader ArrayDirect.

(** ** commit_journal_format.hpp *)

Definition header_magic : Z := 0x35324a4354424c4c.
Definition footer_magic : Z := 0x524554464a43544c.
Definition record_version : Z := 1.
Definition fixed_header_size : Z := 64.
Definition entry_size : Z := 16.
Definition footer_size : Z := 24.
Definition registry_journal_slot : Z := 3.

Definition aligned (value : Z) : Z := Z.land (u64 (value + 7)) (Z.lnot 7).

Definition put_u32 (out : bytes) (a value : Z) : bytes := put_loop 4 0 out a (u32 value).
Definition put_u64 (out : bytes) (a value : Z) : bytes := put_loop 8 0 out a (u64 value).
Definition get_u32 (inp : bytes) (a : Z) : Z := get_loop 4 0 inp a 0.
Definition get_u64 (inp : bytes) (a : Z) : Z := get_loop 8 0 inp a 0.

(** ** Data of commit_journal.hpp *)

Record WrittenArray := mkWrittenArray { wa_ref : Z; wa_size : Z; wa_checksum : Z }.

Record PendingAppend := mkPendingAppend {
  next_offset : Z; record_offset : Z; pa_sequence : Z; pa_version : Z; pa_cow_bytes : Z }.

Definition chunk_size : Z := 4 * 1024 * 1024.
Definition chunk_count : Z := 16.
Definition capacity : Z := chunk_size * chunk_count.

Record CommitJournal := mkCommitJournal {
  m_chunks : list Z;
  m_tail : Z;
  m_commits_since_checkpoint : Z;
  m_cow_bytes_since_checkpoint : Z;
  m_sequence : Z;
  m_previous_offset : Z;
  m_checkpoint_top_ref : Z;
  m_checkpoint_version : Z;
  m_checkpoint_logical_size : Z }.

(** The constructor [CommitJournal(alloc, chunks)] with the member initialisers. *)
Definition new_journal (chunks : list Z) : CommitJournal :=
  mkCommitJournal chunks 0 0 0 0 npos 0 0 0.

Definition required_size (array_count : Z) : Z :=
  aligned (u64 (fixed_header_size + array_count * entry_size + footer_size)).

(** ** Writing through the chunks *)

(** [CommitJournal::write_bytes]: the file after the call, and its result;
    [chunks.at] throws when out of range. *)
Fixpoint write_bytes_loop (fuel : nat) (chunks : list Z) (file : bytes) (offset : Z)
    (data : bytes) (dpos size : Z) : bytes * result unit :=
  match fuel with
  | O => (file, OutOfFuel)
  | S fuel' =>
      if size =? 0 then (file, Ok tt)
      else
        let chunk_index := offset / chunk_size in
        let in_chunk := offset mod chunk_size in
        let count := Z.min size (chunk_size - in_chunk) in
        match chunks !! Z.to_nat chunk_index with
        | None => (file, Throw OutOfRange)
        | Some chunk =>
            let target := chunk + header_size + in_chunk in
            write_bytes_loop fuel' chunks (blit file target data dpos count)
              (offset + count) data (dpos + count) (size - count)
        end
  end.

(** Every turn but the last ends at a chunk boundary. *)
Definition chunk_turns (size : Z) : nat := Z.to_nat (size / chunk_size + 3).

Definition write_bytes (chunks : list Z) (file : bytes) (offset : Z) (data : bytes) (size : Z)
    : bytes * result unit :=
  write_bytes_loop (chunk_turns size) chunks file offset data 0 size.

(** ** Appending *)

Fixpoint put_entries (record : bytes) (cursor : Z) (arrays : list WrittenArray) : bytes :=
  match arrays with
  | [] => record
  | a :: arrays' =>
      let record := put_u64 record cursor (wa_ref a) in
      let record := put_u32 record (cursor + 8) (wa_size a) in
      let record := put_u32 record (cursor + 12) (wa_checksum a) in
      put_entries record (cursor + entry_size) arrays'
  end.

(** The record [prepare_append] builds before writing it. *)
Definition build_record (j : CommitJournal) (version new_top_ref logical_size : Z)
    (arrays : list WrittenArray) : bytes :=
  let record_size := required_size (Z.of_nat (length arrays)) in
  let record : bytes := fun _ => 0 in
  let record := put_u64 record 0 header_magic in
  let record := put_u32 record 8 record_version in
  let record := put_u32 record 12 (u32 fixed_header_size) in
  let record := put_u64 record 16 (u64 (m_sequence j + 1)) in
  let record := put_u64 record 24 version in
  let record := put_u64 record 32 (if m_previous_offset j =? npos then 2 ^ 64 - 1 else m_previous_offset j) in
  let record := put_u64 record 40 new_top_ref in
  let record := put_u64 record 48 logical_size in
  let record := put_u32 record 56 (u32 (Z.of_nat (length arrays))) in
  let record := put_u32 record 60 (u32 record_size) in
  let record := put_entries record fixed_header_size arrays in
  let footer := record_size - footer_size in
  let record := put_u64 record footer footer_magic in
  let record := put_u64 record (footer + 8) (u64 (m_sequence j + 1)) in
  let record := put_u32 record (footer + 16) (u32 record_size) in
  put_u32 record (footer + 20) (Crc32c.compute record 0 (footer + 20)).

Fixpoint sum_sizes (arrays : list WrittenArray) (cow_bytes : Z) : Z :=
  match arrays with [] => cow_bytes | a :: arrays' => sum_sizes arrays' (u64 (cow_bytes + wa_size a)) end.

(** [CommitJournal::prepare_append]: the file after the call, and its result.
    [partial] is the test hook [SimulatedFailure::commit_journal__partial_record]. *)
Definition prepare_append (j : CommitJournal) (partial : bool) (file : bytes)
    (version new_top_ref logical_size : Z) (arrays : list WrittenArray) : bytes * result PendingAppend :=
  let record_size := required_size (Z.of_nat (length arrays)) in
  if (capacity <? record_size) || (capacity <? u64 (m_tail j + record_size)) then (file, Throw LengthError)
  else
    let record := build_record j version new_top_ref logical_size arrays in
    if partial then
      match write_bytes (m_chunks j) file (m_tail j) record (record_size / 2) with
      | (file', Ok _) => (file', Throw SimulatedFailure)
      | (file', Throw e) => (file', Throw e)
      | (file', OutOfFuel) => (file', OutOfFuel)
      end
    else
      match write_bytes (m_chunks j) file (m_tail j) record record_size with
      | (file', Ok _) =>
          (file', Ok (mkPendingAppend (m_tail j + record_size) (m_tail j) (u64 (m_sequence j + 1))
                        version (sum_sizes arrays 0)))
      | (file', Throw e) => (file', Throw e)
      | (file', OutOfFuel) => (file', OutOfFuel)
      end.

Definition commit_append (j : CommitJournal) (p : PendingAppend) : CommitJournal :=
  mkCommitJournal (m_chunks j) (next_offset p)
    (u64 (m_commits_since_checkpoint j + 1))
    (u64 (m_cow_bytes_since_checkpoint j + pa_cow_bytes p))
    (pa_sequence p) (record_offset p)
    (m_checkpoint_top_ref j) (m_checkpoint_version j) (m_checkpoint_logical_size j).

Definition max_retained_cow_bytes : Z := 64 * 1024 * 1024.

Definition needs_checkpoint (j : CommitJournal) (next_record_size next_cow_bytes : Z) : bool :=
  (4096 <=? m_commits_since_checkpoint j) ||
  (capacity * 3 / 4 <? u64 (m_tail j + next_record_size)) ||
  (max_retained_cow_bytes <? u64 (m_cow_bytes_since_checkpoint j + next_cow_bytes)).

(** [clear_after_compaction]: eight zero bytes over the first magic number, and
    every member reset.  A failing write leaves the members unchanged. *)
Definition clear_after_compaction (j : CommitJournal) (file : bytes) (top_ref version logical_size : Z)
    : bytes * CommitJournal * result unit :=
  match write_bytes (m_chunks j) file 0 (fun _ => 0) 8 with
  | (file', Ok _) => (file', mkCommitJournal (m_chunks j) 0 0 0 0 npos top_ref version logical_size, Ok tt)
  | (file', r) => (file', j, r)
  end.

(** [reset_after_checkpoint] swallows the exception. *)
Definition reset_after_checkpoint (j : CommitJournal) (file : bytes) (top_ref version logical_size : Z)
    : bytes * CommitJournal :=
  fst (clear_after_compaction j file top_ref version logical_size).

(** ** The chunks as one address space

    Journal offset [o] lives at file address [jaddr chunks o]; [jview] is the
    journal's content as seen by offset. *)

Definition jaddr (chunks : list Z) (o : Z) : Z :=
  default 0 (chunks !! Z.to_nat (o / chunk_size)) + header_size + o mod chunk_size.

Definition jview (chunks : list Z) (file : bytes) : bytes := fun o => file (jaddr chunks o).

(** Sixteen blobs that do not overlap. *)
Definition chunks_ok (chunks : list Z) : Prop :=
  length chunks = Z.to_nat chunk_count /\
  forall i j a b, chunks !! i = Some a -> chunks !! j = Some b -> i <> j ->
    a + header_size + chunk_size <= b \/ b + header_size + chunk_size <= a.

(** An address that belongs to no chunk's data. *)
Definition off_journal (chunks : list Z) (a : Z) : Prop :=
  forall o, 0 <= o < capacity -> a <> jaddr chunks o.

Lemma capacity_eq : capacity = chunk_size * 16.
Proof. reflexivity. Qed.
Lemma chunk_size_eq : chunk_size = 4194304.
Proof. reflexivity. Qed.
#[global] Opaque capacity chunk_size.

Lemma chunk_lookup chunks o :
  chunks_ok chunks -> 0 <= o < capacity ->
  exists c, chunks !! Z.to_nat (o / chunk_size) = Some c /\
    jaddr chunks o = c + header_size + o mod chunk_size.
Proof.
  intros [Hl _] Ho. rewrite capacity_eq in Ho. rewrite chunk_size_eq in *.
  destruct (lookup_lt_is_Some_2 chunks (Z.to_nat (o / 4194304))) as [c Hc].
  { rewrite Hl. unfold chunk_count. dlia. }
  exists c. split; [done|]. unfold jaddr. rewrite chunk_size_eq, Hc. done.
Qed.

(** A block write inside one chunk, seen by offset. *)
Lemma jview_blit chunks file offset data dpos count o :
  chunks_ok chunks -> 0 <= offset < capacity -> 0 <= o < capacity ->
  0 <= count <= chunk_size - offset mod chunk_size ->
  jview chunks (blit file (jaddr chunks offset) data dpos count) o =
  if in_range offset count o then data (o - offset + dpos) else jview chunks file o.
Proof.
  intros Hok Hof Ho Hc. destruct (chunk_lookup _ _ Hok Hof) as (c1 & Hc1 & He1).
  destruct (chunk_lookup _ _ Hok Ho) as (c2 & Hc2 & He2).
  unfold jview, blit. rewrite He1, He2. clear He1 He2. rewrite chunk_size_eq in *.
  destruct (Z.eq_dec (offset / 4194304) (o / 4194304)) as [He|Hne].
  - rewrite He in Hc1. simplify_eq. repeat rdec; try done; try dlia.
    f_equal. dlia.
  - destruct Hok as [_ Hdis].
    assert (0 <= offset / 4194304 /\ 0 <= o / 4194304) as [] by (split; apply Z.div_pos; lia).
    specialize (Hdis _ _ _ _ Hc1 Hc2 ltac:(lia)). rewrite chunk_size_eq in Hdis.
    unfold header_size in *. clear Hc1 Hc2. repeat rdec; try done; exfalso; dlia.
Qed.

Lemma blit_off_journal chunks file offset data dpos count a :
  chunks_ok chunks -> 0 <= offset -> offset + count <= capacity ->
  0 <= count <= chunk_size - offset mod chunk_size -> off_journal chunks a ->
  blit file (jaddr chunks offset) data dpos count a = file a.
Proof.
  intros Hok Hof Hcap Hc Ha. unfold blit. rdec; [|done]. exfalso.
  destruct (chunk_lookup chunks offset Hok ltac:(lia)) as (c1 & Hc1 & He1).
  apply (Ha (offset + (a - jaddr chunks offset))); [lia|].
  unfold jaddr at 1. rewrite He1 in *. rewrite chunk_size_eq in *.
  assert ((offset + (a - (c1 + header_size + offset mod 4194304))) / 4194304 = offset / 4194304) as -> by dlia.
  rewrite Hc1. simpl. dlia.
Qed.

(** Enough turns for [size] bytes from [offset]. *)
Definition turns_ok (fuel : nat) (offset size : Z) : Prop :=
  (size = 0 /\ (1 <= fuel)%nat) \/ offset mod chunk_size + size <= chunk_size * (Z.of_nat fuel - 1).

Lemma turns_ok_start offset size : 0 <= offset -> 0 <= size -> turns_ok (chunk_turns size) offset size.
Proof. intros. unfold turns_ok, chunk_turns. rewrite chunk_size_eq. right. dlia. Qed.

Lemma turns_ok_step fuel offset size :
  0 <= offset -> 0 < size -> turns_ok (S fuel) offset size ->
  let count := Z.min size (chunk_size - offset mod chunk_size) in
  0 < count <= size /\ count <= chunk_size - offset mod chunk_size /\
  turns_ok fuel (offset + count) (size - count).
Proof. unfold turns_ok. rewrite chunk_size_eq. intros ? ? Ht. dlia. Qed.

Lemma write_bytes_loop_spec chunks data fuel file offset dpos size :
  chunks_ok chunks -> 0 <= offset -> 0 <= size -> offset + size <= capacity -> turns_ok fuel offset size ->
  exists file', write_bytes_loop fuel chunks file offset data dpos size = (file', Ok tt) /\
    (forall o, 0 <= o < capacity -> jview chunks file' o =
       if in_range offset size o then data (o - offset + dpos) else jview chunks file o) /\
    (forall a, off_journal chunks a -> file' a = file a).
Proof.
  intros Hok. revert file offset dpos size.
  induction fuel as [|fuel IH]; intros file offset dpos size Ho Hs Hcap Ht.
  { unfold turns_ok in Ht. rewrite chunk_size_eq in Ht. dlia. }
  cbn [write_bytes_loop]. destruct (Z.eqb_spec size 0) as [->|Hs0].
  { exists file. split_and!; [done| |done]. intros o _. rdec; [lia|done]. }
  destruct (turns_ok_step fuel offset size Ho ltac:(lia) Ht) as (Hc1 & Hc2 & Ht').
  set (count := Z.min size _) in *. clearbody count.
  destruct (chunk_lookup chunks offset Hok ltac:(lia)) as (c & Hc & He). rewrite Hc, <- He.
  destruct (IH (blit file (jaddr chunks offset) data dpos count) (offset + count) (dpos + count) (size - count))
    as (file' & Hw & Hv & Hoff); [lia..|done|].
  exists file'. split_and!; [done| |].
  - intros o Hr. rewrite Hv, jview_blit by (done || lia).
    repeat rdec; try lia; try done; f_equal; lia.
  - intros a Ha. rewrite Hoff by done. apply blit_off_journal; (done || lia).
Qed.

Lemma write_bytes_spec chunks file offset data size :
  chunks_ok chunks -> 0 <= offset -> 0 <= size -> offset + size <= capacity ->
  exists file', write_bytes chunks file offset data size = (file', Ok tt) /\
    (forall o, 0 <= o < capacity -> jview chunks file' o =
       if in_range offset size o then data (o - offset) else jview chunks file o) /\
    (forall a, off_journal chunks a -> file' a = file a).
Proof.
  intros. destruct (write_bytes_loop_spec chunks data (chunk_turns size) file offset 0 size)
    as (file' & Hw & Hv & Hoff); [done..|by apply turns_ok_start|].
  exists file'. split_and!; [done| |done]. intros o Hr. rewrite Hv by done.
  rdec; [f_equal; lia|done].
Qed.

(** ** The fields of a record *)

Lemma get_u64_val f a : get_u64 f a = le_val 8 f a.
Proof. unfold get_u64. rewrite get_loop_val by lia. rewrite Z.add_0_r. lia. Qed.
Lemma get_u32_val f a : get_u32 f a = le_val 4 f a.
Proof. unfold get_u32. rewrite get_loop_val by lia. rewrite Z.add_0_r. lia. Qed.

Lemma get_u64_ext f g a b :
  (forall k, 0 <= k < 8 -> f (a + k) = g (b + k)) -> get_u64 f a = get_u64 g b.
Proof. intros H. rewrite !get_u64_val. apply le_val_ext. intros k Hk. by rewrite H by lia. Qed.
Lemma get_u32_ext f g a b :
  (forall k, 0 <= k < 4 -> f (a + k) = g (b + k)) -> get_u32 f a = get_u32 g b.
Proof. intros H. rewrite !get_u32_val. apply le_val_ext. intros k Hk. by rewrite H by lia. Qed.

Lemma le_val_put_u64 out a v : le_val 8 (put_u64 out a v) a = u64 v.
Proof. unfold put_u64. rewrite le_val_put. apply Z.mod_mod. lia. Qed.
Lemma le_val_put_u32 out a v : le_val 4 (put_u32 out a v) a = u32 v.
Proof. unfold put_u32. rewrite le_val_put. apply Z.mod_mod. lia. Qed.
Lemma le_val_put_u64_ne n out a b v :
  a + Z.of_nat n <= b \/ b + 8 <= a -> le_val n (put_u64 out b v) a = le_val n out a.
Proof. intros. apply le_val_put_ne. lia. Qed.
Lemma le_val_put_u32_ne n out a b v :
  a + Z.of_nat n <= b \/ b + 4 <= a -> le_val n (put_u32 out b v) a = le_val n out a.
Proof. intros. apply le_val_put_ne. lia. Qed.

Lemma le_val_put_entries n out cursor arrays a :
  a + Z.of_nat n <= cursor \/ cursor + entry_size * Z.of_nat (length arrays) <= a ->
  le_val n (put_entries out cursor arrays) a = le_val n out a.
Proof.
  revert out cursor. induction arrays as [|w arrays IH]; intros out cursor H; cbn [put_entries]; [done|].
  unfold entry_size in *. cbn [length] in H. rewrite IH by lia.
  by rewrite !le_val_put_u32_ne, le_val_put_u64_ne by lia.
Qed.

(** Reads a field of a chain of stores. *)
Ltac read_field :=
  rewrite ?get_u64_val, ?get_u32_val;
  repeat first
    [ rewrite le_val_put_u64 | rewrite le_val_put_u32
    | rewrite le_val_put_u64_ne by lia | rewrite le_val_put_u32_ne by lia
    | rewrite le_val_put_entries by lia ].

Lemma put_entries_get out cursor arrays i w :
  arrays !! i = Some w ->
  let a := cursor + entry_size * Z.of_nat i in
  let r := put_entries out cursor arrays in
  get_u64 r a = u64 (wa_ref w) /\ get_u32 r (a + 8) = u32 (wa_size w) /\
  get_u32 r (a + 12) = u32 (wa_checksum w).
Proof.
  revert out cursor i. induction arrays as [|w' arrays IH]; intros out cursor i Hi; [done|].
  cbn [put_entries]. destruct i as [|i]; cbn [lookup list_lookup] in Hi.
  - simplify_eq. cbv zeta. unfold entry_size. rewrite Z.mul_0_r, Z.add_0_r.
    split_and!; by read_field.
  - specialize (IH (put_u32 (put_u32 (put_u64 out cursor (wa_ref w')) (cursor + 8) (wa_size w'))
                      (cursor + 12) (wa_checksum w')) (cursor + entry_size) i Hi).
    replace (cursor + entry_size * Z.of_nat (S i)) with (cursor + entry_size + entry_size * Z.of_nat i)
      by (unfold entry_size; lia).
    exact IH.
Qed.

Lemma required_size_small c : 0 <= c < 2 ^ 40 -> required_size c = 88 + 16 * c.
Proof.
  intros H. unfold required_size, aligned, fixed_header_size, entry_size, footer_size.
  change (2 ^ 40) with 1099511627776 in H.
  rewrite (u64_small (64 + c * 16 + 24)), u64_small by (change (2 ^ 64) with 18446744073709551616; lia).
  rewrite <- Z.ldiff_land. change 7 with (Z.ones 3) at 2. rewrite Z.ldiff_ones_r by lia.
  rewrite Z.shiftr_div_pow2, Z.shiftl_mul_pow2 by lia. change (2 ^ 3) with 8. dlia.
Qed.

(** What one commit asks of the journal. *)
Record Commit := mkCommit { c_version : Z; c_top : Z; c_logical : Z; c_arrays : list WrittenArray }.

Definition rsize (c : Commit) : Z := required_size (Z.of_nat (length (c_arrays c))).
Definition record_of (j : CommitJournal) (c : Commit) : bytes :=
  build_record j (c_version c) (c_top c) (c_logical c) (c_arrays c).

(** The C++ types of a commit's fields. *)
Definition array_typed (w : WrittenArray) : Prop :=
  0 <= wa_ref w < 2 ^ 64 /\ 0 <= wa_size w < 2 ^ 32 /\ 0 <= wa_checksum w < 2 ^ 32.
Definition commit_typed (c : Commit) : Prop :=
  0 <= c_version c < 2 ^ 64 /\ 0 <= c_top c < 2 ^ 64 /\ 0 <= c_logical c < 2 ^ 64 /\
  Forall array_typed (c_arrays c).

Lemma rsize_fits c : rsize c <= capacity -> Z.of_nat (length (c_arrays c)) < 2 ^ 40 ->
  rsize c = 88 + 16 * Z.of_nat (length (c_arrays c)) /\ rsize c < 2 ^ 32.
Proof.
  intros H Hn. unfold rsize in *. rewrite required_size_small in * by lia.
  rewrite capacity_eq, chunk_size_eq in H. split; [done|]. change (2 ^ 32) with 4294967296. lia.
Qed.

(** The bytes from [o] parse as a sealed record with the given fields. *)
Record header_parses (f : bytes) (o sequence previous : Z) (c : Commit) : Prop := {
  hp_magic : get_u64 f o = header_magic;
  hp_record_version : get_u32 f (o + 8) = record_version;
  hp_header_size : get_u32 f (o + 12) = fixed_header_size;
  hp_sequence : get_u64 f (o + 16) = sequence;
  hp_version : get_u64 f (o + 24) = c_version c;
  hp_previous : get_u64 f (o + 32) = previous;
  hp_top : get_u64 f (o + 40) = c_top c;
  hp_logical : get_u64 f (o + 48) = c_logical c;
  hp_arrays : get_u32 f (o + 56) = Z.of_nat (length (c_arrays c));
  hp_size : get_u32 f (o + 60) = rsize c }.

Record footer_parses (f : bytes) (o sequence size : Z) : Prop := {
  fp_magic : get_u64 f (o + (size - footer_size)) = footer_magic;
  fp_sequence : get_u64 f (o + (size - footer_size + 8)) = sequence;
  fp_size : get_u32 f (o + (size - footer_size + 16)) = size;
  fp_crc : get_u32 f (o + (size - footer_size + 20)) = Crc32c.compute f o (size - footer_size + 20) }.

Definition entries_parse (f : bytes) (o : Z) (arrays : list WrittenArray) : Prop :=
  forall i w, arrays !! i = Some w ->
    get_u64 f (o + entry_size * Z.of_nat i) = wa_ref w /\
    get_u32 f (o + entry_size * Z.of_nat i + 8) = wa_size w /\
    get_u32 f (o + entry_size * Z.of_nat i + 12) = wa_checksum w.

(** The [previous] field as written for a journal state. *)
Definition previous_field (previous : Z) : Z := if previous =? npos then 2 ^ 64 - 1 else previous.

Definition journal_typed (j : CommitJournal) : Prop :=
  0 <= m_tail j <= capacity /\ 0 <= m_sequence j < 2 ^ 64 /\ 0 <= m_previous_offset j < 2 ^ 64.

Definition commit_fits (c : Commit) : Prop :=
  commit_typed c /\ Z.of_nat (length (c_arrays c)) < 2 ^ 40 /\ rsize c <= capacity.

Lemma previous_field_typed j : journal_typed j -> 0 <= previous_field (m_previous_offset j) < 2 ^ 64.
Proof. intros (? & ? & ?). unfold previous_field. zdec; lia. Qed.

Lemma record_header j c :
  journal_typed j -> commit_fits c ->
  header_parses (record_of j c) 0 (u64 (m_sequence j + 1)) (previous_field (m_previous_offset j)) c.
Proof.
  intros Hj (Ht & Hn & Hc). destruct (rsize_fits c Hc Hn) as [Hs Hs32].
  pose proof (previous_field_typed j Hj). destruct Ht as (? & ? & ? & _).
  unfold record_of, build_record. fold (rsize c). rewrite Hs in *.
  pose proof (u64_range (m_sequence j + 1)) as Hq. set (sq := u64 (m_sequence j + 1)) in *. clearbody sq.
  unfold fixed_header_size, footer_size, entry_size, previous_field, header_magic, record_version in *.
  assert (Hn32 : Z.of_nat (length (c_arrays c)) < 2 ^ 32) by (change (2 ^ 32) with 4294967296 in *; lia).
  split; rewrite ?Hs; read_field; unfold u64, u32; rewrite ?Z.mod_mod by lia; rewrite ?Z.mod_small;
    solve [reflexivity | lia | by apply Z.mod_pos_bound].
Qed.

Lemma record_footer j c :
  journal_typed j -> commit_fits c ->
  footer_parses (record_of j c) 0 (u64 (m_sequence j + 1)) (rsize c).
Proof.
  intros Hj (Ht & Hn & Hc). destruct (rsize_fits c Hc Hn) as [Hs Hs32].
  unfold record_of, build_record. fold (rsize c). rewrite Hs in *.
  pose proof (u64_range (m_sequence j + 1)) as Hq. set (sq := u64 (m_sequence j + 1)) in *. clearbody sq.
  unfold fixed_header_size, footer_size, entry_size, footer_magic in *.
  split; rewrite ?Z.add_0_l; unfold footer_size, footer_magic.
  1-3: read_field; unfold u64, u32; rewrite ?Z.mod_mod by lia; rewrite ?Z.mod_small;
    solve [reflexivity | lia | by apply Z.mod_pos_bound].
  rewrite get_u32_val at 1. rewrite le_val_put_u32, u32_small by apply compute_range.
  apply compute_ext. intros k Hk. symmetry. unfold put_u32 at 1. rewrite put_loop_at. rdec; [lia|done].
Qed.

Lemma record_entries j c :
  commit_fits c -> entries_parse (record_of j c) fixed_header_size (c_arrays c).
Proof.
  intros (Ht & Hn & Hc) i w Hi. destruct (rsize_fits c Hc Hn) as [Hs _].
  pose proof (lookup_lt_Some _ _ _ Hi) as Hlt.
  destruct Ht as (_ & _ & _ & Ht). rewrite Forall_lookup in Ht. destruct (Ht _ _ Hi) as (Hr & Hz & Hk).
  unfold record_of, build_record. fold (rsize c). rewrite Hs in *.
  unfold fixed_header_size, footer_size, entry_size in *.
  rewrite !get_u64_val, !get_u32_val, !le_val_put_u32_ne, !le_val_put_u64_ne by lia.
  rewrite <- get_u64_val, <- !get_u32_val.
  match goal with |- context [put_entries ?r 64 _] =>
    destruct (put_entries_get r 64 (c_arrays c) i w Hi) as (H1 & H2 & H3) end.
  rewrite (u64_small (wa_ref w)) in H1 by done. rewrite (u32_small (wa_size w)) in H2 by done.
  rewrite (u32_small (wa_checksum w)) in H3 by done.
  split_and!; assumption.
Qed.

Lemma header_parses_ext f o g p sequence previous c :
  (forall k, 0 <= k < fixed_header_size -> f (o + k) = g (p + k)) ->
  header_parses g p sequence previous c -> header_parses f o sequence previous c.
Proof.
  unfold fixed_header_size. intros H [].
  assert (forall a, 0 <= a <= 56 -> get_u64 f (o + a) = get_u64 g (p + a)) as H8.
  { intros a Ha. apply get_u64_ext. intros k Hk. rewrite <- !Z.add_assoc. apply H. lia. }
  assert (forall a, 0 <= a <= 60 -> get_u32 f (o + a) = get_u32 g (p + a)) as H4.
  { intros a Ha. apply get_u32_ext. intros k Hk. rewrite <- !Z.add_assoc. apply H. lia. }
  split; rewrite ?H8, ?H4 by lia; try done.
  rewrite <- (Z.add_0_r o), H8, Z.add_0_r by lia. done.
Qed.

Lemma footer_parses_ext f o g p sequence size :
  footer_size <= size -> (forall k, 0 <= k < size -> f (o + k) = g (p + k)) ->
  footer_parses g p sequence size -> footer_parses f o sequence size.
Proof.
  unfold footer_size. intros Hs H [].
  assert (forall a, 0 <= a <= size - 8 -> get_u64 f (o + a) = get_u64 g (p + a)) as H8.
  { intros a Ha. apply get_u64_ext. intros k Hk. rewrite <- !Z.add_assoc. apply H. lia. }
  assert (forall a, 0 <= a <= size - 4 -> get_u32 f (o + a) = get_u32 g (p + a)) as H4.
  { intros a Ha. apply get_u32_ext. intros k Hk. rewrite <- !Z.add_assoc. apply H. lia. }
  unfold footer_size in *.
  split; unfold footer_size; rewrite ?H8, ?H4 by lia; try done.
  rewrite fp_crc0. apply compute_ext. intros k Hk. by rewrite H by lia.
Qed.

Lemma entries_parse_ext f o g p arrays :
  (forall k, 0 <= k < entry_size * Z.of_nat (length arrays) -> f (o + k) = g (p + k)) ->
  entries_parse g p arrays -> entries_parse f o arrays.
Proof.
  unfold entry_size. intros H Hg i w Hi. destruct (Hg i w Hi) as (H1 & H2 & H3).
  pose proof (lookup_lt_Some _ _ _ Hi). unfold entry_size in *.
  rewrite <- H1, <- H2, <- H3. rewrite <- !(Z.add_assoc o), <- !(Z.add_assoc p).
  split_and!; (apply get_u64_ext || apply get_u32_ext); intros k Hk;
    rewrite <- !(Z.add_assoc o), <- !(Z.add_assoc p); apply H; lia.
Qed.
