(* ===== verification/Recovery.v ===== *)
(** * Journal recovery (src/llbt/core/commit_recovery.cpp, CommitJournal::open,
      and the top-array accessors of group.hpp / group.cpp it uses) *)

From S2P Require Import Prelude Bytes Crc32c NodeHeader ArrayDirect Journal.

(** ** Read access to arrays of the file (Array::get on a header) *)

Definition get_from_header (m : bytes) (ref ndx : Z) : Z :=
  get_direct m (get_data_from_header ref) (get_width_from_header m ref) ndx.

Definition to_ref (v : Z) : Z := u64 v.
Definition get_as_ref (m : bytes) (ref ndx : Z) : Z := to_ref (get_from_header m ref ndx).

(** [RefOrTagged::get_as_int]. *)
Definition get_as_int (m : bytes) (ref ndx : Z) : Z := Z.shiftr (u64 (get_from_header m ref ndx)) 1.

Definition s_file_size_ndx : Z := 2.
Definition s_version_ndx : Z := 6.
Definition s_hist_type_ndx : Z := 7.
Definition s_hist_ref_ndx : Z := 8.

(** [top.is_attached() && top.size() > n]; the accessor is attached to a nonzero ref only. *)
Definition top_has (m : bytes) (top n : Z) : bool :=
  negb (top =? 0) && (n <? get_size_from_header m top).

Definition get_history_ref (m : bytes) (top : Z) : Z :=
  if top_has m top s_hist_type_ndx then get_as_ref m top s_hist_ref_ndx else 0.

Definition get_logical_file_size (m : bytes) (top : Z) : Z :=
  if top_has m top s_file_size_ndx then get_as_int m top s_file_size_ndx else 0.

(** The version part of [get_version_and_history_info]. *)
Definition get_version (m : bytes) (top : Z) : Z :=
  let version_2 := if top_has m top s_version_ndx then get_as_int m top s_version_ndx else 0 in
  if version_2 =? 0 then 1 else version_2.

(** ** CommitRecovery *)

Record Recovery := mkRecovery {
  rc_top_ref : Z; rc_version : Z; rc_logical_size : Z; rc_tail : Z; rc_previous_offset : Z;
  rc_sequence : Z; rc_commits : Z; rc_cow_bytes : Z }.

Fixpoint read_bytes_loop (fuel : nat) (chunks : list Z) (file : bytes) (offset : Z)
    (out : bytes) (opos size : Z) : result bytes :=
  match fuel with
  | O => OutOfFuel
  | S fuel' =>
      if size =? 0 then Ok out
      else
        let chunk_index := offset / chunk_size in
        let in_chunk := offset mod chunk_size in
        let count := Z.min size (chunk_size - in_chunk) in
        match chunks !! Z.to_nat chunk_index with
        | None => Throw OutOfRange
        | Some chunk =>
            let source := chunk + header_size + in_chunk in
            read_bytes_loop fuel' chunks file (offset + count) (blit out opos file source count)
              (opos + count) (size - count)
        end
  end.

Definition read_bytes (chunks : list Z) (file : bytes) (offset : Z) (out : bytes) (size : Z) : result bytes :=
  read_bytes_loop (chunk_turns size) chunks file offset out 0 size.

(** The loop over a record's array entries: whether all of them are intact, and
    the copied-bytes total so far. *)
Fixpoint check_arrays (file : bytes) (file_size : Z) (record : bytes) (n : nat) (cursor cow_bytes : Z)
    : bool * Z :=
  match n with
  | O => (true, cow_bytes)
  | S n' =>
      let ref := get_u64 record cursor in
      let size := get_u32 record (cursor + 8) in
      let checksum := get_u32 record (cursor + 12) in
      if (size <? header_size) || (file_size <? u64 (ref + size)) then (false, cow_bytes)
      else
        let stored := le_val 4 file ref in
        if negb (stored =? checksum) || negb (Crc32c.compute file (ref + 4) (size - 4) =? checksum)
        then (false, cow_bytes)
        else check_arrays file file_size record n' (cursor + entry_size) (u64 (cow_bytes + size))
  end.

(** Loop variables of [scan]: result (top, version, logical size, cow bytes),
    then [offset], [previous], [sequence], [relevant_commits]. *)
Record ScanState := mkScan {
  sc_top : Z; sc_version : Z; sc_logical : Z; sc_cow : Z;
  sc_offset : Z; sc_previous : Z; sc_sequence : Z; sc_commits : Z }.

Inductive Step := Continue (s : ScanState) | Break (s : ScanState).

Definition stop (s : ScanState) : result Step := Ok (Break s).

Definition bad_header := InvalidDatabase 1.
Definition bad_chain := InvalidDatabase 2.
Definition bad_inside := InvalidDatabase 3.

Section Scan.
Variables (chunks : list Z) (file : bytes) (file_size : Z) (checkpoint_version : Z).

(** The tail of the loop body, for a record whose arrays are intact. *)
Definition accept_record (s : ScanState) (cow version new_top logical_size next_sequence record_size : Z)
    : ScanState :=
  let newer := sc_version s <? version in
  mkScan (if newer then new_top else sc_top s) (if newer then version else sc_version s)
    (if newer then logical_size else sc_logical s) cow
    (sc_offset s + record_size) (sc_offset s) next_sequence
    (if checkpoint_version <? version then u64 (sc_commits s + 1) else sc_commits s).

(** The [if (!arrays_valid)] branch. *)
Definition reject_record (s : ScanState) (cow record_size : Z) : result Step :=
  let s := mkScan (sc_top s) (sc_version s) (sc_logical s) cow
             (sc_offset s) (sc_previous s) (sc_sequence s) (sc_commits s) in
  if sc_offset s + record_size + 8 <=? capacity then
    next_magic ← read_bytes chunks file (sc_offset s + record_size) (fun _ => 0) 8;
    if get_u64 next_magic 0 =? header_magic then Throw bad_inside else stop s
  else stop s.

(** One turn of the [while] loop of [CommitRecovery::scan]. *)
Definition scan_step (s : ScanState) : result Step :=
  let offset := sc_offset s in
  fixed ← read_bytes chunks file offset (fun _ => 0) fixed_header_size;
  if negb (get_u64 fixed 0 =? header_magic) then stop s
  else if negb (get_u32 fixed 8 =? record_version) || negb (get_u32 fixed 12 =? fixed_header_size)
  then Throw bad_header
  else
    let next_sequence := get_u64 fixed 16 in
    let version := get_u64 fixed 24 in
    let previous_field := get_u64 fixed 32 in
    let new_top := get_u64 fixed 40 in
    let logical_size := get_u64 fixed 48 in
    let arrays := get_u32 fixed 56 in
    let record_size := get_u32 fixed 60 in
    let minimum := fixed_header_size + arrays * entry_size + footer_size in
    if (record_size <? minimum) || negb (record_size mod 8 =? 0) || (capacity <? offset + record_size)
    then stop s
    else
      record ← read_bytes chunks file offset (fun _ => 0) record_size;
      let footer := record_size - footer_size in
      if negb (get_u64 record footer =? footer_magic) ||
         negb (get_u64 record (footer + 8) =? next_sequence) ||
         negb (get_u32 record (footer + 16) =? record_size)
      then stop s
      else
        let stored_crc := get_u32 record (footer + 20) in
        if negb (stored_crc =? Crc32c.compute record 0 (footer + 20)) then stop s
        else if negb (next_sequence =? u64 (sc_sequence s + 1)) ||
                negb (previous_field =? (if sc_previous s =? npos then 2 ^ 64 - 1 else sc_previous s))
        then Throw bad_chain
        else
          let '(arrays_valid, cow) :=
            if checkpoint_version <? version
            then check_arrays file file_size record (Z.to_nat arrays) fixed_header_size (sc_cow s)
            else (true, sc_cow s) in
          if arrays_valid
          then Ok (Continue (accept_record s cow version new_top logical_size next_sequence record_size))
          else reject_record s cow record_size.

Fixpoint scan_loop (fuel : nat) (s : ScanState) : result ScanState :=
  match fuel with
  | O => OutOfFuel
  | S fuel' =>
      if sc_offset s + fixed_header_size + footer_size <=? capacity then
        st ← scan_step s;
        match st with Continue s' => scan_loop fuel' s' | Break s' => Ok s' end
      else Ok s
  end.

(** A record takes at least [fixed_header_size + footer_size] bytes. *)
Definition scan_fuel : nat := Z.to_nat (capacity / (fixed_header_size + footer_size) + 1).
End Scan.

Definition scan_result (s : ScanState) : Recovery :=
  mkRecovery (sc_top s) (sc_version s) (sc_logical s) (sc_offset s) (sc_previous s) (sc_sequence s)
    (sc_commits s) (sc_cow s).

(** [CommitRecovery::scan]. *)
Definition scan (chunks : list Z) (file : bytes) (file_size checkpoint_top : Z) : result Recovery :=
  let version := get_version file checkpoint_top in
  let s0 := mkScan checkpoint_top version (get_logical_file_size file checkpoint_top) 0 0 npos 0 0 in
  s ← scan_loop chunks file file_size version scan_fuel s0;
  Ok (scan_result s).

(** ** CommitJournal::open_at_checkpoint and open *)

Fixpoint read_chunks (m : bytes) (descriptor_ref : Z) (n : nat) (i : Z) : result (list Z) :=
  match n with
  | O => Ok []
  | S n' =>
      let ref := get_as_ref m descriptor_ref i in
      if ref =? 0 then Throw (InvalidDatabase 4)
      else chunks ← read_chunks m descriptor_ref n' (i + 1); Ok (ref :: chunks)
  end.

Definition open_at_checkpoint (file : bytes) (group_top_ref : Z) : result (option CommitJournal) :=
  if group_top_ref =? 0 then Ok None
  else
    let registry_ref := get_history_ref file group_top_ref in
    if registry_ref =? 0 then Ok None
    else if get_size_from_header file registry_ref <=? registry_journal_slot then Ok None
    else
      let descriptor_ref := get_as_ref file registry_ref registry_journal_slot in
      if descriptor_ref =? 0 then Ok None
      else if negb (get_size_from_header file descriptor_ref =? chunk_count) then Throw (InvalidDatabase 5)
      else
        chunks ← read_chunks file descriptor_ref (Z.to_nat chunk_count) 0;
        Ok (Some (mkCommitJournal chunks 0 0 0 0 npos group_top_ref
                    (get_version file group_top_ref) (get_logical_file_size file group_top_ref))).

Definition open (file : bytes) (file_size group_top_ref : Z) : result (option (CommitJournal * Recovery)) :=
  journal ← open_at_checkpoint file group_top_ref;
  match journal with
  | None => Ok None
  | Some j =>
      found ← scan (m_chunks j) file file_size group_top_ref;
      Ok (Some (mkCommitJournal (m_chunks j) (rc_tail found) (rc_commits found) (rc_cow_bytes found)
                  (rc_sequence found) (rc_previous_offset found)
                  (m_checkpoint_top_ref j) (m_checkpoint_version j) (m_checkpoint_logical_size j),
                found))
  end.

(** ** Reading through the chunks *)

Lemma read_bytes_loop_spec chunks file fuel offset out opos size :
  chunks_ok chunks -> 0 <= offset -> 0 <= size -> offset + size <= capacity -> turns_ok fuel offset size ->
  exists r, read_bytes_loop fuel chunks file offset out opos size = Ok r /\
    (forall x, r x = if in_range opos size x then jview chunks file (offset + (x - opos)) else out x).
Proof.
  intros Hok. revert offset out opos size.
  induction fuel as [|fuel IH]; intros offset out opos size Ho Hs Hcap Ht.
  { unfold turns_ok in Ht. rewrite chunk_size_eq in Ht. dlia. }
  cbn [read_bytes_loop]. destruct (Z.eqb_spec size 0) as [->|Hs0].
  { exists out. split; [done|]. intros x. rdec; [lia|done]. }
  destruct (turns_ok_step fuel offset size Ho ltac:(lia) Ht) as (Hc1 & Hc2 & Ht').
  set (count := Z.min size _) in *. clearbody count.
  destruct (chunk_lookup chunks offset Hok ltac:(lia)) as (c & Hc & He). rewrite Hc, <- He.
  destruct (IH (offset + count) (blit out opos file (jaddr chunks offset) count) (opos + count) (size - count))
    as (r & Hr & Hx); [lia..|done|].
  exists r. split; [done|]. intros x. rewrite Hx. unfold blit.
  repeat rdec; try lia; try done; [f_equal; lia|]. unfold jview. f_equal.
  destruct (chunk_lookup chunks (offset + (x - opos)) Hok ltac:(lia)) as (c' & Hc' & He').
  rewrite He, He'. rewrite chunk_size_eq in *.
  assert ((offset + (x - opos)) / 4194304 = offset / 4194304) as Hd by dlia.
  rewrite Hd in Hc'. simplify_eq. clear He He' Hx Hr IH Ht Ht'. dlia.
Qed.

Lemma read_bytes_spec chunks file offset out size :
  chunks_ok chunks -> 0 <= offset -> 0 <= size -> offset + size <= capacity ->
  exists r, read_bytes chunks file offset out size = Ok r /\
    (forall k, 0 <= k < size -> r k = jview chunks file (offset + k)).
Proof.
  intros. destruct (read_bytes_loop_spec chunks file (chunk_turns size) offset out 0 size)
    as (r & Hr & Hx); [done..|by apply turns_ok_start|].
  exists r. split; [done|]. intros k Hk. rewrite Hx. rdec; [f_equal; lia|lia].
Qed.

(** ** The scan, by journal offset

    [view_step] is [scan_step] with the two buffers replaced by reads of the
    journal at an offset. *)

Section View.
Variables (file : bytes) (file_size : Z) (checkpoint_version : Z) (v : bytes).

Definition view_reject (s : ScanState) (cow record_size : Z) : result Step :=
  let s := mkScan (sc_top s) (sc_version s) (sc_logical s) cow
             (sc_offset s) (sc_previous s) (sc_sequence s) (sc_commits s) in
  if (sc_offset s + record_size + 8 <=? capacity) && (get_u64 v (sc_offset s + record_size) =? header_magic)
  then Throw bad_inside else stop s.

Definition view_check (s : ScanState) (version arrays : Z) : bool * Z :=
  if checkpoint_version <? version
  then check_arrays file file_size (fun k => v (sc_offset s + k)) (Z.to_nat arrays) fixed_header_size (sc_cow s)
  else (true, sc_cow s).

Definition sealed (o size : Z) : bool :=
  (get_u64 v (o + (size - footer_size)) =? footer_magic) &&
  (get_u64 v (o + (size - footer_size + 8)) =? get_u64 v (o + 16)) &&
  (get_u32 v (o + (size - footer_size + 16)) =? size) &&
  (get_u32 v (o + (size - footer_size + 20)) =? Crc32c.compute v o (size - footer_size + 20)).

Definition well_sized (o size arrays : Z) : bool :=
  (fixed_header_size + arrays * entry_size + footer_size <=? size) && (size mod 8 =? 0) && (o + size <=? capacity).

Definition view_step (s : ScanState) : result Step :=
  let o := sc_offset s in
  let size := get_u32 v (o + 60) in
  let version := get_u64 v (o + 24) in
  if negb (get_u64 v o =? header_magic) then stop s
  else if negb ((get_u32 v (o + 8) =? record_version) && (get_u32 v (o + 12) =? fixed_header_size))
  then Throw bad_header
  else if negb (well_sized o size (get_u32 v (o + 56)) && sealed o size) then stop s
  else if negb ((get_u64 v (o + 16) =? u64 (sc_sequence s + 1)) &&
                (get_u64 v (o + 32) =? previous_field (sc_previous s)))
  then Throw bad_chain
  else
    let '(arrays_valid, cow) := view_check s version (get_u32 v (o + 56)) in
    if arrays_valid
    then Ok (Continue (accept_record checkpoint_version s cow version (get_u64 v (o + 40)) (get_u64 v (o + 48))
                         (get_u64 v (o + 16)) size))
    else view_reject s cow size.
End View.

Lemma check_arrays_ext file file_size r r' n cursor cow :
  (forall k, cursor <= k < cursor + entry_size * Z.of_nat n -> r k = r' k) ->
  check_arrays file file_size r n cursor cow = check_arrays file file_size r' n cursor cow.
Proof.
  unfold entry_size. revert cursor cow. induction n as [|n IH]; intros cursor cow H; cbn [check_arrays]; [done|].
  rewrite (get_u64_ext r r' cursor cursor), (get_u32_ext r r' (cursor + 8) (cursor + 8)),
    (get_u32_ext r r' (cursor + 12) (cursor + 12)) by (intros; apply H; lia).
  repeat (destruct (_ || _); [done|]). apply IH. intros k Hk. apply H. unfold entry_size in *. lia.
Qed.

Lemma get_u32_nonneg f a : 0 <= get_u32 f a.
Proof. rewrite get_u32_val. pose proof (le_val_range 4 f a). lia. Qed.

Lemma orb_negb_if {A} (a b : bool) (x y : A) :
  (if negb a || negb b then x else y) = (if negb (a && b) then x else y).
Proof. by destruct a, b. Qed.

Lemma read_fields chunks file offset size :
  chunks_ok chunks -> 0 <= offset -> 0 <= size -> offset + size <= capacity ->
  exists r, read_bytes chunks file offset (fun _ => 0) size = Ok r /\
    (forall a, 0 <= a <= size - 8 -> get_u64 r a = get_u64 (jview chunks file) (offset + a)) /\
    (forall a, 0 <= a <= size - 4 -> get_u32 r a = get_u32 (jview chunks file) (offset + a)) /\
    (forall k, 0 <= k < size -> r k = jview chunks file (offset + k)).
Proof.
  intros Hok Ho Hs Hc.
  destruct (read_bytes_spec chunks file offset (fun _ => 0) size Hok Ho Hs Hc) as (r & Hr & Hk).
  exists r. split_and!; [done|..|done];
    intros a Ha; [apply get_u64_ext|apply get_u32_ext]; intros k Hlt; rewrite Hk by lia; f_equal; lia.
Qed.

Lemma not_well_sized o size arrays :
  (size <? fixed_header_size + arrays * entry_size + footer_size) || negb (size mod 8 =? 0)
    || (capacity <? o + size) = negb (well_sized o size arrays).
Proof.
  unfold well_sized. rewrite Z.ltb_antisym, (Z.ltb_antisym _ capacity).
  by destruct (_ <=? size), (_ =? 0), (_ <=? capacity).
Qed.

Lemma well_sized_spec o size arrays :
  well_sized o size arrays = true <->
  fixed_header_size + arrays * entry_size + footer_size <= size /\ size mod 8 = 0 /\ o + size <= capacity.
Proof. unfold well_sized. rewrite !andb_true_iff, !Z.leb_le, Z.eqb_eq. tauto. Qed.

Lemma scan_step_view chunks file file_size ckpt s :
  chunks_ok chunks -> 0 <= sc_offset s -> sc_offset s + fixed_header_size + footer_size <= capacity ->
  scan_step chunks file file_size ckpt s = view_step file file_size ckpt (jview chunks file) s.
Proof.
  unfold fixed_header_size, footer_size. intros Hok Ho Hcap.
  set (v := jview chunks file). unfold scan_step, view_step.
  destruct (read_fields chunks file (sc_offset s) fixed_header_size Hok Ho)
    as (fixed & -> & Hf8 & Hf4 & _); [unfold fixed_header_size; lia..|].
  cbn [mbind result_bind]. fold v in Hf8, Hf4. unfold fixed_header_size in Hf8, Hf4.
  rewrite !Hf8, !Hf4 by lia. rewrite Z.add_0_r, !orb_negb_if. clear Hf8 Hf4.
  destruct (negb (get_u64 v (sc_offset s) =? header_magic)); [done|].
  destruct (negb (_ && _)); [done|].
  set (size := get_u32 v (sc_offset s + 60)). set (arrays := get_u32 v (sc_offset s + 56)).
  rewrite not_well_sized. destruct (well_sized _ _ _) eqn:Hws; [|done]. cbn [negb andb].
  apply well_sized_spec in Hws. unfold fixed_header_size, footer_size, entry_size in Hws.
  destruct Hws as (Hmin & _ & Hsc).
  pose proof (get_u32_nonneg v (sc_offset s + 56)) as Ha. fold arrays in Ha.
  destruct (read_fields chunks file (sc_offset s) size Hok Ho ltac:(lia) Hsc)
    as (r & -> & Hr8 & Hr4 & Hr). cbn [mbind result_bind]. fold v in Hr8, Hr4, Hr.
  unfold sealed, footer_size. rewrite !Hr8, !Hr4 by lia.
  rewrite (compute_ext r v 0 (sc_offset s)) by (intros k Hk; by rewrite Hr by lia).
  destruct (get_u64 v (sc_offset s + (size - 24)) =? footer_magic); [|done].
  destruct (get_u64 v (sc_offset s + (size - 24 + 8)) =? _); [|done].
  destruct (get_u32 v (sc_offset s + (size - 24 + 16)) =? size); [|done].
  destruct (get_u32 v (sc_offset s + (size - 24 + 20)) =? _); [|done]. cbn [andb negb orb].
  rewrite orb_negb_if. unfold previous_field. destruct (negb (_ && _)); [done|].
  unfold view_check. rewrite (check_arrays_ext file file_size r (fun k => v (sc_offset s + k))).
  2:{ intros k Hk. apply Hr. unfold fixed_header_size, entry_size in Hk. lia. }
  destruct (if ckpt <? _ then _ else _) as [ok cow]. destruct ok; [done|].
  unfold reject_record, view_reject. cbn [sc_offset].
  destruct (Z.leb_spec (sc_offset s + size + 8) capacity); [|done]. cbn [andb].
  destruct (read_bytes_spec chunks file (sc_offset s + size) (fun _ => 0) 8 Hok ltac:(lia) ltac:(lia) ltac:(lia))
    as (nm & -> & Hnm). cbn [mbind result_bind].
  by rewrite (get_u64_ext nm v 0 (sc_offset s + size)) by (intros k Hk; by rewrite Hnm by lia).
Qed.

(** ** Array entries *)

(** An array of the file that carries, in its first four bytes, the checksum of
    the rest, as recorded. *)
Definition array_ok (file : bytes) (file_size : Z) (w : WrittenArray) : Prop :=
  header_size <= wa_size w /\ u64 (wa_ref w + wa_size w) <= file_size /\
  le_val 4 file (wa_ref w) = wa_checksum w /\
  Crc32c.compute file (wa_ref w + 4) (wa_size w - 4) = wa_checksum w.

Definition entry_at (r : bytes) (cursor : Z) : WrittenArray :=
  mkWrittenArray (get_u64 r cursor) (get_u32 r (cursor + 8)) (get_u32 r (cursor + 12)).

Lemma check_arrays_S file file_size r n cursor cow :
  check_arrays file file_size r (S n) cursor cow = (true, snd (check_arrays file file_size r (S n) cursor cow)) ->
  array_ok file file_size (entry_at r cursor).
Proof.
  cbn [check_arrays]. unfold array_ok, entry_at. cbn [wa_ref wa_size wa_checksum].
  repeat zdec; cbn [orb negb fst snd]; done.
Qed.

Lemma check_arrays_step file file_size r n cursor cow :
  array_ok file file_size (entry_at r cursor) ->
  check_arrays file file_size r (S n) cursor cow =
  check_arrays file file_size r n (cursor + entry_size) (u64 (cow + wa_size (entry_at r cursor))).
Proof.
  intros (H1 & H2 & H3 & H4). unfold entry_at in *. cbn [wa_ref wa_size wa_checksum check_arrays] in *.
  rewrite H3, H4, Z.eqb_refl. destruct (Z.ltb_spec (get_u32 r (cursor + 8)) header_size); [lia|].
  destruct (Z.ltb_spec file_size (u64 (get_u64 r cursor + get_u32 r (cursor + 8)))); [lia|]. done.
Qed.

Lemma check_arrays_ok file file_size r arrays cursor cow :
  entries_parse r cursor arrays -> Forall (array_ok file file_size) arrays ->
  check_arrays file file_size r (length arrays) cursor cow = (true, sum_sizes arrays cow).
Proof.
  revert cursor cow. induction arrays as [|w arrays IH]; intros cursor cow He Ha; [done|].
  apply Forall_cons_1 in Ha as [Hw Ha]. cbn [length].
  assert (Hw' : entry_at r cursor = w).
  { destruct (He 0%nat w eq_refl) as (H1 & H2 & H3). rewrite Z.mul_0_r, Z.add_0_r in *.
    destruct w. unfold entry_at. cbn in *. congruence. }
  rewrite check_arrays_step by by rewrite Hw'. rewrite Hw'. cbn [sum_sizes]. apply IH; [|done].
  intros i w' Hi. specialize (He (S i) w' Hi).
  replace (cursor + entry_size * Z.of_nat (S i)) with (cursor + entry_size + entry_size * Z.of_nat i) in He
    by (unfold entry_size; lia). exact He.
Qed.

Lemma check_arrays_sound file file_size r n cursor cow cow' :
  check_arrays file file_size r n cursor cow = (true, cow') ->
  forall i, (i < n)%nat -> array_ok file file_size (entry_at r (cursor + entry_size * Z.of_nat i)).
Proof.
  revert cursor cow. induction n as [|n IH]; intros cursor cow H i Hi; [lia|].
  assert (Hw : array_ok file file_size (entry_at r cursor)).
  { eapply (check_arrays_S _ _ _ n _ cow). by rewrite H. }
  destruct i as [|i].
  - by rewrite Z.mul_0_r, Z.add_0_r.
  - rewrite check_arrays_step in H by done.
    replace (cursor + entry_size * Z.of_nat (S i)) with (cursor + entry_size + entry_size * Z.of_nat i)
      by (unfold entry_size; lia).
    eapply IH; [exact H|lia].
Qed.

(** ** Termination *)

Lemma sealed_size_min v o : 0 <= get_u32 v (o + 56) ->
  well_sized o (get_u32 v (o + 60)) (get_u32 v (o + 56)) = true ->
  88 <= get_u32 v (o + 60) /\ o + get_u32 v (o + 60) <= capacity.
Proof.
  intros H Hw. apply well_sized_spec in Hw. unfold fixed_header_size, footer_size, entry_size in Hw. lia.
Qed.

(** Every way [view_step] can come out. *)
Inductive step_outcome (file : bytes) (file_size ckpt : Z) (v : bytes) (s : ScanState) : result Step -> Prop :=
| so_break cow :
    step_outcome file file_size ckpt v s
      (stop (mkScan (sc_top s) (sc_version s) (sc_logical s) cow
               (sc_offset s) (sc_previous s) (sc_sequence s) (sc_commits s)))
| so_throw msg : step_outcome file file_size ckpt v s (Throw (InvalidDatabase msg))
| so_accept cow :
    let o := sc_offset s in
    let size := get_u32 v (o + 60) in
    let version := get_u64 v (o + 24) in
    get_u64 v o = header_magic ->
    well_sized o size (get_u32 v (o + 56)) = true -> sealed v o size = true ->
    get_u64 v (o + 16) = u64 (sc_sequence s + 1) ->
    get_u64 v (o + 32) = previous_field (sc_previous s) ->
    view_check file file_size ckpt v s version (get_u32 v (o + 56)) = (true, cow) ->
    step_outcome file file_size ckpt v s
      (Ok (Continue (accept_record ckpt s cow version (get_u64 v (o + 40)) (get_u64 v (o + 48))
                       (get_u64 v (o + 16)) size))).

Lemma view_step_outcome file file_size ckpt v s :
  step_outcome file file_size ckpt v s (view_step file file_size ckpt v s).
Proof.
  assert (Hstop : step_outcome file file_size ckpt v s (stop s)).
  { destruct s as [a b c cow e f g h]. apply (so_break _ _ _ _ (mkScan a b c cow e f g h) cow). }
  unfold view_step. destruct (Z.eqb_spec (get_u64 v (sc_offset s)) header_magic); [|done]. cbn [negb].
  destruct (negb (_ && _)); [constructor|].
  destruct (well_sized _ _ _) eqn:Hws; [|done]. destruct (sealed _ _ _) eqn:Hse; [|done]. cbn [andb negb].
  destruct (Z.eqb_spec (get_u64 v (sc_offset s + 16)) (u64 (sc_sequence s + 1))); [|constructor].
  destruct (Z.eqb_spec (get_u64 v (sc_offset s + 32)) (previous_field (sc_previous s))); [|constructor].
  cbn [andb negb]. destruct (view_check _ _ _ _ _ _ _) as [ok cow] eqn:Hck. destruct ok.
  - by apply so_accept.
  - unfold view_reject. cbn [sc_offset]. destruct (_ && _); constructor.
Qed.

Section Loop.
Context (chunks : list Z) (file : bytes) (file_size ckpt : Z) (Hok : chunks_ok chunks).
Let v := jview chunks file.

Lemma scan_loop_S fuel s :
  0 <= sc_offset s ->
  scan_loop chunks file file_size ckpt (S fuel) s =
  if sc_offset s + fixed_header_size + footer_size <=? capacity
  then st ← view_step file file_size ckpt v s;
       match st with Continue s' => scan_loop chunks file file_size ckpt fuel s' | Break s' => Ok s' end
  else Ok s.
Proof.
  intros Ho. cbn [scan_loop]. destruct (Z.leb_spec (sc_offset s + fixed_header_size + footer_size) capacity); [|done].
  by rewrite scan_step_view.
Qed.

Lemma accepted_offset s : 0 <= sc_offset s ->
  well_sized (sc_offset s) (get_u32 v (sc_offset s + 60)) (get_u32 v (sc_offset s + 56)) = true ->
  sc_offset s + 88 <= sc_offset s + get_u32 v (sc_offset s + 60) <= capacity.
Proof.
  intros Ho Hw. pose proof (sealed_size_min v (sc_offset s) (get_u32_nonneg v _) Hw). lia.
Qed.

Lemma scan_loop_total fuel s :
  0 <= sc_offset s <= capacity -> capacity - sc_offset s < 88 * Z.of_nat fuel ->
  (exists r, scan_loop chunks file file_size ckpt fuel s = Ok r) \/
  (exists m, scan_loop chunks file file_size ckpt fuel s = Throw (InvalidDatabase m)).
Proof.
  revert s. induction fuel as [|fuel IH]; intros s Ho Hf; [lia|].
  rewrite scan_loop_S by lia. destruct (Z.leb_spec (sc_offset s + fixed_header_size + footer_size) capacity);
    [|left; by eexists].
  destruct (view_step_outcome file file_size ckpt v s) as [| |cow o size version Hm Hws];
    cbn [mbind result_bind stop].
  - left; by eexists.
  - right; by eexists.
  - subst o size. pose proof (accepted_offset s ltac:(lia) Hws).
    apply IH; unfold accept_record; cbn [sc_offset]; lia.
Qed.

(** A property of scan states that accepted records and the discarded copied-bytes
    count preserve holds of the result. *)
Lemma scan_loop_inv (P : ScanState -> Prop) fuel s r :
  (forall s, P s -> 0 <= sc_offset s) ->
  (forall s cow, P s -> P (mkScan (sc_top s) (sc_version s) (sc_logical s) cow
                             (sc_offset s) (sc_previous s) (sc_sequence s) (sc_commits s))) ->
  (forall s s', P s -> view_step file file_size ckpt v s = Ok (Continue s') -> P s') ->
  P s -> scan_loop chunks file file_size ckpt fuel s = Ok r -> P r.
Proof.
  intros Hpos Hcow Hstep. revert s. induction fuel as [|fuel IH]; intros s Hs Hr; [done|].
  rewrite scan_loop_S in Hr by auto.
  destruct (Z.leb_spec (sc_offset s + fixed_header_size + footer_size) capacity); [|by simplify_eq].
  specialize (Hstep s). destruct (view_step_outcome file file_size ckpt v s); cbn [mbind result_bind stop] in Hr.
  - simplify_eq. by apply Hcow.
  - done.
  - eapply IH; [|exact Hr]. by apply Hstep.
Qed.
End Loop.

(** On any file whatsoever, a journal of sixteen disjoint chunks is
    scanned to the end: [CommitRecovery::scan] returns a result or throws
    [InvalidDatabase], within the fuel given. *)
Theorem scan_total chunks file file_size top :
  chunks_ok chunks ->
  (exists r, scan chunks file file_size top = Ok r) \/
  (exists m, scan chunks file file_size top = Throw (InvalidDatabase m)).
Proof.
  intros Hok. unfold scan. set (s0 := mkScan _ _ _ _ _ _ _ _).
  destruct (scan_loop_total chunks file file_size (get_version file top) Hok scan_fuel s0) as [[r ->]|[m ->]].
  - subst s0. cbn [sc_offset]. rewrite capacity_eq, chunk_size_eq. lia.
  - subst s0. cbn [sc_offset]. unfold scan_fuel, fixed_header_size, footer_size.
    rewrite capacity_eq, chunk_size_eq. dlia.
  - left. by eexists.
  - right. by eexists.
Qed.

(** A sealed record of the journal all of whose arrays are intact in the file. *)
Definition record_backs (file : bytes) (file_size : Z) (v : bytes) (o : Z) : Prop :=
  get_u64 v o = header_magic /\
  well_sized o (get_u32 v (o + 60)) (get_u32 v (o + 56)) = true /\
  sealed v o (get_u32 v (o + 60)) = true /\
  forall i, 0 <= i < get_u32 v (o + 56) ->
    array_ok file file_size (entry_at v (o + fixed_header_size + entry_size * i)).

Lemma entry_at_shift v o c : entry_at (fun k => v (o + k)) c = entry_at v (o + c).
Proof.
  unfold entry_at. f_equal; [apply get_u64_ext|apply get_u32_ext..]; intros k _; f_equal; lia.
Qed.

Lemma view_check_backs file file_size ckpt v s version arrays cow :
  ckpt < version -> view_check file file_size ckpt v s version arrays = (true, cow) ->
  forall i, 0 <= i < arrays ->
    array_ok file file_size (entry_at v (sc_offset s + fixed_header_size + entry_size * i)).
Proof.
  intros Hv Hc i Hi. unfold view_check in Hc. destruct (Z.ltb_spec ckpt version); [|lia].
  pose proof (check_arrays_sound _ _ _ _ _ _ _ Hc (Z.to_nat i) ltac:(lia)) as H0.
  rewrite entry_at_shift, Z2Nat.id, Z.add_assoc in H0 by lia. exact H0.
Qed.

(** What the scan has established about its current result. *)
Definition scan_sound (file : bytes) (file_size ckpt top logical : Z) (v : bytes) (s : ScanState) : Prop :=
  0 <= sc_offset s <= capacity /\ ckpt <= sc_version s /\
  ((sc_top s = top /\ sc_version s = ckpt /\ sc_logical s = logical) \/
   exists o, 0 <= o /\ o + get_u32 v (o + 60) <= sc_offset s /\ ckpt < sc_version s /\
     record_backs file file_size v o /\
     sc_version s = get_u64 v (o + 24) /\ sc_top s = get_u64 v (o + 40) /\ sc_logical s = get_u64 v (o + 48)).

Lemma scan_sound_step chunks file file_size ckpt top logical s s' :
  let v := jview chunks file in
  scan_sound file file_size ckpt top logical v s ->
  view_step file file_size ckpt v s = Ok (Continue s') -> scan_sound file file_size ckpt top logical v s'.
Proof.
  intros v (Ho & Hge & Hb) Hst.
  destruct (view_step_outcome file file_size ckpt v s) as [| |cow o size version Hm Hws Hse Hq Hp Hc];
    [done..|]. subst o size version. simplify_eq.
  destruct (sealed_size_min v (sc_offset s) (get_u32_nonneg v _) Hws) as [H88 Hcap].
  unfold scan_sound, accept_record. cbn [sc_offset sc_top sc_version sc_logical].
  split; [lia|]. destruct (Z.ltb_spec (sc_version s) (get_u64 v (sc_offset s + 24))) as [Hn|Hn].
  - split; [lia|]. right. exists (sc_offset s). split_and!; try (done || lia).
    unfold record_backs. split_and!; try done. by eapply view_check_backs; [|exact Hc]; lia.
  - split; [done|]. destruct Hb as [Hb|(o' & ? & ? & ?)]; [by left|]. right. exists o'.
    split; [done|]. split; [lia|done].
Qed.

(** Claim C26: recovery is sound on any file: the top array it returns is the
    checkpoint's, or the one named by a sealed journal record, newer than the
    checkpoint, every array of which is intact in the file. *)
Theorem scan_sound_result chunks file file_size top r :
  chunks_ok chunks -> scan chunks file file_size top = Ok r ->
  let v := jview chunks file in
  0 <= rc_tail r <= capacity /\
  ((rc_top_ref r = top /\ rc_version r = get_version file top /\
    rc_logical_size r = get_logical_file_size file top) \/
   exists o, 0 <= o /\ o + get_u32 v (o + 60) <= rc_tail r /\ get_version file top < rc_version r /\
     record_backs file file_size v o /\
     rc_version r = get_u64 v (o + 24) /\ rc_top_ref r = get_u64 v (o + 40) /\
     rc_logical_size r = get_u64 v (o + 48)).
Proof.
  intros Hok Hs v. unfold scan in Hs.
  destruct (scan_loop _ _ _ _ _ _) as [s| |] eqn:Hl; cbn [mbind result_bind] in Hs; simplify_eq.
  eapply (scan_loop_inv chunks file file_size _ Hok
            (scan_sound file file_size (get_version file top) top (get_logical_file_size file top) v)) in Hl
    as (H1 & _ & H2).
  - exact (conj H1 H2).
  - intros s' [? _]. lia.
  - by intros s' cow.
  - intros s1 s2. apply scan_sound_step.
  - unfold scan_sound. cbn [sc_offset sc_version sc_top sc_logical]. rewrite capacity_eq, chunk_size_eq.
    split; [lia|]. split; [lia|]. by left.
Qed.
