(* ===== verification/ArrayWriters.v ===== *)
(** * The writers of arrays

    [GroupWriter::write_array] and [InMemoryWriter] (src/llbt/group_writer.cpp) place an array in
    free space of the file, [OutputStream] (src/llbt/impl/output_stream.cpp) appends it to a
    stream.  Each is an instance of the interface in [ArrayDeep]; the journal entries of a
    commit name arrays that pass the checks of recovery. *)

From S2P Require Import Prelude Bytes Crc32c NodeHeader Node Array ArrayDeep FreeList FreeListAlloc FreeListTheorems Journal Recovery ArrayTheorems.

(** ** Into the file *)

(** The group writer with the file it writes to; the counters are those of the statistics. *)
Record FileWriter := mkFileWriter {
  fw_writer : GroupWriter; fw_file : bytes; m_written_arrays : list WrittenArray;
  m_arrays_written : Z; m_bytes_written : Z; m_binary_payload_bytes : Z }.

Record InMemoryWriter := mkInMemoryWriter { m_owner : FileWriter }.

Section FileWriters.
Variable page_size commit_size : Z.

Definition group_write_array (w : FileWriter) (m : bytes) (size checksum : Z) : result (Z * FileWriter) :=
  '(pos, g) ← get_free_space page_size 3 commit_size (fw_writer w) size;
  let file := put_loop 4 0 (fw_file w) pos checksum in
  let file := blit file (pos + 4) m 4 (size - 4) in
  let is_payload := negb (get_hasrefs_from_header m 0) && bool_decide (get_wtype_from_header m 0 = Some wtype_Ignore) in
  Ok (pos, mkFileWriter g file (m_written_arrays w ++ [mkWrittenArray pos (u32 size) checksum])
             (m_arrays_written w + 1) (m_bytes_written w + size)
             (if is_payload then m_binary_payload_bytes w + (size - header_size) else m_binary_payload_bytes w)).

Definition memory_write_array (w : InMemoryWriter) (m : bytes) (size checksum : Z) : result (Z * InMemoryWriter) :=
  let o := m_owner w in
  '(pos, g) ← get_free_space page_size 3 commit_size (fw_writer o) size;
  let file := put_loop 4 0 (fw_file o) pos checksum in
  let file := blit file (pos + 4) m 4 (size - 4) in
  Ok (pos, mkInMemoryWriter (mkFileWriter g file (m_written_arrays o) (m_arrays_written o + 1) (m_bytes_written o + size) (m_binary_payload_bytes o))).
End FileWriters.

(** ** Into a stream *)

(** [m_out] is what the stream has received. *)
Record OutputStream := mkOutputStream { m_next_ref : Z; m_out : list Z }.

Definition max_streamsize : Z := 2 ^ 63 - 1.

(** [while (max_put < size_1)]: three rounds are enough for any [size_t]. *)
Fixpoint os_do_write (fuel : nat) (out data : list Z) : list Z :=
  match fuel with
  | O => out
  | S fuel =>
      if max_streamsize <? Z.of_nat (length data) then os_do_write fuel (out ++ take (Z.to_nat max_streamsize) data) (drop (Z.to_nat max_streamsize) data)
      else out ++ data
  end.

Definition os_write (w : OutputStream) (data : list Z) : result OutputStream :=
  let size := Z.of_nat (length data) in
  if negb (size mod 8 =? 0) then Throw AssertionFailed
  else
    let out := os_do_write 3 (m_out w) data in
    if 2 ^ 64 <=? m_next_ref w + size then Throw OverflowError else Ok (mkOutputStream (m_next_ref w + size) out).

Definition os_write_array (w : OutputStream) (m : bytes) (size checksum : Z) : result (Z * OutputStream) :=
  if negb (size mod 8 =? 0) then Throw AssertionFailed
  else
    let out := m_out w ++ slice (put_loop 4 0 (fun _ => 0) 0 checksum) 0 4 in
    let out := os_do_write 3 out (slice m 4 (size - 4)) in
    let ref := m_next_ref w in
    if 2 ^ 64 <=? m_next_ref w + size then Throw OverflowError else Ok (ref, mkOutputStream (m_next_ref w + size) out).

#[export] Instance output_stream : ArrayWriter OutputStream := os_write_array.

(** ** Stored arrays *)

(** The first four bytes are the checksum of the others. *)
Definition intact (file : bytes) (ref size : Z) : Prop := le_val 4 file ref = compute file (ref + 4) (size - 4).

Lemma intact_ext file file' ref size : header_size <= size -> (forall x, ref <= x < ref + size -> file' x = file x) -> intact file ref size -> intact file' ref size.
Proof.
  unfold header_size, intact. intros Hs E Hi. rewrite (le_val_ext 4 file' file ref ref) by (intros k Hk; rewrite E; [done|lia]). rewrite Hi. apply compute_ext. intros k Hk. f_equal. symmetry. apply E. lia.
Qed.

(** What [aw_write] asks of the bytes of a new array makes it intact. *)
Lemma written_intact file m ref size : header_size <= size ->
  (forall x, 0 <= x < size -> file (ref + x) = if x <? 4 then u8 (Z.shiftr (compute m 4 (size - 4)) (x * 8)) else m x) ->
  le_val 4 file ref = compute m 4 (size - 4) /\ intact file ref size.
Proof.
  unfold header_size. intros Hs E. assert (Hv : le_val 4 file ref = compute m 4 (size - 4)).
  { rewrite (le_val_spell 4 file ref (compute m 4 (size - 4))); [apply Z.mod_small; apply compute_range|]. intros k Hk. rewrite E by lia. rewrite (proj2 (Z.ltb_lt k 4)) by lia. by rewrite u8_u8. }
  split; [done|]. unfold intact. rewrite Hv. apply compute_ext. intros k Hk. f_equal. replace (ref + 4 + k) with (ref + (4 + k)) by lia. rewrite E by lia. by rewrite (proj2 (Z.ltb_ge (4 + k) 4)) by lia.
Qed.

Lemma file_stores file pos m size checksum x : 4 <= size -> 0 <= x < size ->
  blit (put_loop 4 0 file pos checksum) (pos + 4) m 4 (size - 4) (pos + x) = if x <? 4 then u8 (Z.shiftr checksum (x * 8)) else m x.
Proof.
  intros Hs Hx. unfold blit. destruct (Z.ltb_spec x 4).
  - rdec; [lia|]. rewrite put_loop_at. rdec; [|lia]. do 3 f_equal. lia.
  - rdec; [f_equal; lia|lia].
Qed.

Lemma file_keeps file pos m size checksum x : 4 <= size -> ~ pos <= x < pos + size -> blit (put_loop 4 0 file pos checksum) (pos + 4) m 4 (size - 4) x = file x.
Proof. intros Hs Hx. unfold blit. rdec; [lia|]. rewrite put_loop_at. by rdec; [lia|]. Qed.

(** The file stays below the 64-bit address space. *)
Definition max_file : Z := 2 ^ 63 + 2 ^ 62 + 2 ^ 26.

Lemma round_up_bound page_bits size : 3 <= page_bits <= 26 -> round_up_to_page_size (2 ^ page_bits) size <= size + 2 ^ 26.
Proof.
  intros Hp. assert (Hpow : 2 ^ page_bits <= 2 ^ 26) by (apply Z.pow_le_mono_r; lia). assert (0 < 2 ^ page_bits) by (apply Z.pow_pos_nonneg; lia).
  unfold round_up_to_page_size. replace (2 ^ page_bits - 1) with (Z.ones page_bits) by (rewrite Z.ones_equiv; lia). rewrite <- Z.ldiff_land, Z.ldiff_ones_r by lia.
  rewrite Z.shiftl_mul_pow2, Z.shiftr_div_pow2 by lia. pose proof (Z.mul_div_le (size + 2 ^ page_bits - 1) (2 ^ page_bits) ltac:(lia)). lia.
Qed.

Lemma extend_bound page_bits commit_size w size w' it : 3 <= page_bits <= 26 -> extend_free_space (2 ^ page_bits) commit_size w size = Ok (w', it) -> m_logical_size w' <= max_file.
Proof.
  intros Hp. unfold extend_free_space. cbv zeta. set (n := if _ <? m_logical_size w + size then m_logical_size w + size else _). clearbody n.
  destruct (Z.ltb_spec ((2 ^ 64 - 1) / 4 * 3) n) as [|Hm]; [done|]. pose proof (round_up_bound page_bits n Hp) as Hr. set (r := round_up_to_page_size (2 ^ page_bits) n) in *. clearbody r.
  set (f := if _ <? r then _ else r). assert (Hf : f <= r) by (subst f; destruct (Z.ltb_spec (align_size_to_section_boundary n) r); lia). clearbody f.
  destruct (negb _); [done|]. destruct (negb _); [done|]. destruct (_ =? 0); [done|]. destruct (sm_emplace _ _ _) as [m k]. intros [= <- _]. cbn [m_logical_size]. unfold max_file. change ((2 ^ 64 - 1) / 4 * 3) with (3 * 2 ^ 62 - 3) in Hm. lia.
Qed.

Lemma reserve_loop_bound page_bits fuel commit_size w chunk size w' it : 3 <= page_bits <= 26 -> m_logical_size w <= max_file ->
  reserve_loop (2 ^ page_bits) fuel commit_size w chunk size = Ok (w', it) -> m_logical_size w' <= max_file.
Proof.
  intros Hp. revert w chunk. induction fuel as [|fuel IH]; intros w chunk Hl; destruct chunk as [[m k]|]; cbn [reserve_loop]; try (intros [= <- _]; cbn; lia).
  destruct (m_under_evacuation w) as [|e l].
  - destruct (extend_free_space (2 ^ page_bits) commit_size w size) as [[w1 k]| |] eqn:Ee; [|done|done]. cbn [mbind result_bind]. pose proof (extend_bound _ _ _ _ _ _ Hp Ee) as Hb.
    destruct (search_free_space_in_free_list_element _ _ _) as [c| |]; [|done|done]. cbn [mbind result_bind]. by apply IH.
  - destruct (search_free_space_in_part_of_freelist _ _) as [c| |]; [|done|done]. cbn [mbind result_bind]. by apply IH.
Qed.

Lemma get_free_space_bound page_bits commit_size w size pos w' : 3 <= page_bits <= 26 -> m_logical_size w <= max_file -> get_free_space (2 ^ page_bits) 3 commit_size w size = Ok (pos, w') -> m_logical_size w' <= max_file.
Proof.
  intros Hp Hl. unfold get_free_space, reserve_free_space. destruct (search_free_space_in_part_of_freelist _ _) as [c| |]; [|done|done]. cbn [mbind result_bind].
  destruct (reserve_loop _ _ _ _ _ _) as [[w1 p]| |] eqn:Er; [|done|done]. cbn [mbind result_bind]. pose proof (reserve_loop_bound _ _ _ _ _ _ _ _ Hp Hl Er) as Hb.
  destruct (_ !! _) as [[k v]|]; [|done]. destruct (negb _); [done|]. destruct (negb _); [done|]. intros [= _ <-]. done.
Qed.

(** ** The file as a place for arrays *)

Section FileSpec.
Context (page_bits commit_size : Z) (page_bits_ok : 3 <= page_bits <= 26).
(** The arrays of snapshots that were in the file before. *)
Context (old : Z -> Z -> Prop).

(** Bytes inside the file that no free list offers. *)
Definition in_use (g : GroupWriter) (ref size : Z) : Prop := 0 < ref /\ ref + size <= m_logical_size g /\ forall x, ref <= x < ref + size -> free_count x g = 0.

Lemma place_spec g size : winv g -> m_logical_size g <= max_file -> header_size <= size <= 2 ^ 25 -> size mod 8 = 0 ->
  get_free_space (2 ^ page_bits) 3 commit_size g size = Throw MaximumFileSizeExceeded \/
  exists pos g', get_free_space (2 ^ page_bits) 3 commit_size g size = Ok (pos, g') /\ winv g' /\ m_logical_size g' <= max_file /\ 0 < pos < 2 ^ 64 /\ pos mod 8 = 0 /\ in_use g' pos size /\
    (forall r n, in_use g r n -> in_use g' r n /\ forall x, r <= x < r + n -> ~ pos <= x < pos + size).
Proof.
  unfold header_size. intros Hw Hl Hs H8. destruct (get_free_space_spec page_bits page_bits_ok commit_size g size Hw ltac:(lia) H8) as [->|([pos g'] & E & Hw' & Hp & Hp8 & _ & Hin & Hgr & _ & Hc)]; [by left|].
  right. exists pos, g'. pose proof (get_free_space_bound _ _ _ _ _ _ page_bits_ok Hl E) as Hb. assert (Hnn : forall x, 0 <= free_count x g') by (intros x; unfold free_count; pose proof (sm_count_nonneg x (m_size_map g')); pose proof (e_count_nonneg x (m_under_evacuation g')); lia).
  assert (Hnn0 : forall x, 0 <= free_count x g /\ (0 < free_count x g -> x < m_logical_size g)).
  { intros x. pose proof (sm_count_nonneg x (m_size_map g)). pose proof (e_count_nonneg x (m_under_evacuation g)). pose proof (e_count_nonneg x (m_not_free_in_file g)). pose proof (v_inside g Hw x) as Hi. unfold w_count, free_count in *. split; [lia|]. intros Hx. apply Hi. lia. }
  assert (Hone : forall x, free_count x g <= 1).
  { intros x. pose proof (v_once g Hw x) as Ho. pose proof (e_count_nonneg x (m_not_free_in_file g)). unfold w_count in Ho. lia. }
  split_and!; try done; [unfold max_file in Hb; lia| |].
  - split_and!; [done|done|]. intros x Hx. specialize (Hc x). specialize (Hnn x). specialize (Hone x). destruct (Hnn0 x) as [H1 H2]. inb_cases.
  - intros r n (Hr & Hrl & Hf). split; [split_and!; [done|lia|]|]; intros x Hx; specialize (Hc x); specialize (Hnn x); rewrite (Hf x Hx) in Hc; inb_cases.
Qed.

Definition placed (g : GroupWriter) (file : bytes) (ref size : Z) : Prop := header_size <= size /\ in_use g ref size /\ intact file ref size.

(** A new array is placed and the ones placed before are kept. *)
Lemma place_array g file m size : winv g -> m_logical_size g <= max_file -> is_bytes file -> is_bytes m -> header_size <= size <= 2 ^ 25 -> size mod 8 = 0 ->
  let checksum := compute m 4 (size - 4) in
  get_free_space (2 ^ page_bits) 3 commit_size g size = Throw MaximumFileSizeExceeded \/
  exists pos g', let file' := blit (put_loop 4 0 file pos checksum) (pos + 4) m 4 (size - 4) in
    get_free_space (2 ^ page_bits) 3 commit_size g size = Ok (pos, g') /\ (winv g' /\ m_logical_size g' <= max_file /\ is_bytes file') /\ (0 < pos < 2 ^ 64 /\ pos mod 8 = 0) /\
    placed g' file' pos size /\ le_val 4 file' pos = checksum /\ (forall x, 0 <= x < size -> file' (pos + x) = if x <? 4 then u8 (Z.shiftr checksum (x * 8)) else m x) /\
    (forall r n, placed g file r n -> placed g' file' r n /\ forall x, r <= x < r + n -> file' x = file x).
Proof.
  intros Hw Hl Hb Hm Hs H8 checksum. destruct (place_spec g size Hw Hl Hs H8) as [->|(pos & g' & -> & Hw' & Hl' & Hp & Hp8 & Hu & Hk)]; [by left|].
  right. exists pos, g'. assert (Hs4 : 4 <= size) by (unfold header_size in Hs; lia). set (file' := blit _ _ _ _ _).
  assert (Est : forall x, 0 <= x < size -> file' (pos + x) = if x <? 4 then u8 (Z.shiftr checksum (x * 8)) else m x) by (intros x Hx; by apply file_stores).
  assert (Ekp : forall x, ~ pos <= x < pos + size -> file' x = file x) by (intros x Hx; by apply file_keeps). assert (Hfb : is_bytes file') by (apply is_bytes_blit; [by apply is_bytes_put|done]). clearbody file'.
  destruct (written_intact file' m pos size ltac:(lia) Est) as [Hv Hin]. cbv zeta. split_and!; try done; try lia; [split; [lia|by split]|].
  intros r n (Hn & Hur & Hir). destruct (Hk r n Hur) as [Hur' Hd]. assert (E : forall x, r <= x < r + n -> file' x = file x) by (intros x Hx; by apply Ekp, Hd). split; [|done]. split_and!; [done|done|by apply (intact_ext file)].
Qed.

(** Stored for good: placed, and old or named for the journal. *)
Definition fw_ok (w : FileWriter) (ref size : Z) : Prop :=
  placed (fw_writer w) (fw_file w) ref size /\ (old ref size \/ In (mkWrittenArray ref size (le_val 4 (fw_file w) ref)) (m_written_arrays w)).

Record fw_inv (w : FileWriter) : Prop := {
  fi_writer : winv (fw_writer w);
  fi_size : m_logical_size (fw_writer w) <= max_file;
  fi_bytes : is_bytes (fw_file w);
  fi_written : Forall (fun e => placed (fw_writer w) (fw_file w) (wa_ref e) (wa_size e) /\ wa_size e <= 2 ^ 25 /\ wa_checksum e = le_val 4 (fw_file w) (wa_ref e)) (m_written_arrays w) }.

#[export] Instance group_array_writer : ArrayWriter FileWriter := group_write_array (2 ^ page_bits) commit_size.

Lemma group_write_spec w m size : fw_inv w -> is_bytes m -> header_size <= size <= 2 ^ 25 -> size mod 8 = 0 ->
  let checksum := compute m 4 (size - 4) in
  write_array w m size checksum = Throw MaximumFileSizeExceeded \/
  exists ref w', write_array w m size checksum = Ok (ref, w') /\ fw_inv w' /\ 0 < ref < 2 ^ 64 /\ ref mod 8 = 0 /\ fw_ok w' ref size /\
    (forall x, 0 <= x < size -> fw_file w' (ref + x) = if x <? 4 then u8 (Z.shiftr checksum (x * 8)) else m x) /\
    (forall r n, fw_ok w r n -> fw_ok w' r n /\ forall x, r <= x < r + n -> fw_file w' x = fw_file w x).
Proof.
  intros [Hw Hl Hb Hwr] Hm Hs H8 checksum. unfold write_array, group_array_writer, group_write_array.
  destruct (place_array (fw_writer w) (fw_file w) m size Hw Hl Hb Hm Hs H8) as [->|(pos & g' & -> & (Hw' & Hl' & Hb') & (Hp & Hp8) & Hnew & Hv & Est & Hk)]; [by left|].
  right. cbn [mbind result_bind]. eexists pos, _. split; [done|]. fold checksum in Hb', Hnew, Hv, Est, Hk. set (file := blit _ _ _ _ _) in *. clearbody file. set (w' := mkFileWriter g' file _ _ _ _).
  assert (Hu32 : u32 size = size) by (unfold u32; unfold header_size in Hs; apply Z.mod_small; lia).
  assert (Hval : forall r n, placed (fw_writer w) (fw_file w) r n -> le_val 4 file r = le_val 4 (fw_file w) r).
  { intros r n Hr. destruct (Hk r n Hr) as [_ E]. destruct Hr as (Hn & _). unfold header_size in Hn. apply le_val_ext. intros k Hk'. f_equal. apply E. lia. }
  split_and!; [|lia|lia|done| |exact Est|].
  - split; try done. cbn [w' m_written_arrays fw_writer fw_file]. apply Forall_app. split.
    + eapply Forall_impl; [|exact Hwr]. intros e (He & Hes & Hec). split_and!; [by apply Hk|done|]. by rewrite Hec, (Hval _ _ He).
    + constructor; [|constructor]. cbn [wa_ref wa_size wa_checksum]. rewrite Hu32. split_and!; [done|lia|done].
  - split; [done|right]. cbn [w' fw_file m_written_arrays]. rewrite Hv, Hu32. apply in_app_iff. right. by left.
  - intros r n [Hr Ho]. destruct (Hk r n Hr) as [Hr' E]. split; [|done]. split; [done|]. destruct Ho as [Ho|Hi]; [by left|right]. cbn [w' fw_file m_written_arrays]. rewrite (Hval r n Hr). apply in_app_iff. by left.
Qed.

#[export] Instance group_array_writer_spec : ArrayWriterSpec FileWriter := {
  aw_inv := fw_inv; aw_file := fw_file; aw_ok := fw_ok; aw_limit := 2 ^ 25; aw_error := MaximumFileSizeExceeded; aw_bytes := fi_bytes; aw_write := group_write_spec }.

(** The writer for databases in memory keeps no list for the journal. *)
Definition mw_inv (w : InMemoryWriter) : Prop := winv (fw_writer (m_owner w)) /\ m_logical_size (fw_writer (m_owner w)) <= max_file /\ is_bytes (fw_file (m_owner w)).
Definition mw_ok (w : InMemoryWriter) : Z -> Z -> Prop := placed (fw_writer (m_owner w)) (fw_file (m_owner w)).

#[export] Instance memory_array_writer : ArrayWriter InMemoryWriter := memory_write_array (2 ^ page_bits) commit_size.

#[export] Program Instance memory_array_writer_spec : ArrayWriterSpec InMemoryWriter := {
  aw_inv := mw_inv; aw_file w := fw_file (m_owner w); aw_ok := mw_ok; aw_limit := 2 ^ 25; aw_error := MaximumFileSizeExceeded }.
Next Obligation. intros w (_ & _ & Hb). done. Qed.
Next Obligation.
  intros w m size (Hw & Hl & Hb) Hm Hs H8. unfold write_array, memory_array_writer, memory_write_array.
  destruct (place_array (fw_writer (m_owner w)) (fw_file (m_owner w)) m size Hw Hl Hb Hm Hs H8) as [->|(pos & g' & -> & Hi & (Hp & Hp8) & Hnew & _ & Est & Hk)]; [by left|].
  right. cbn [mbind result_bind]. eexists pos, _. split; [done|]. split_and!; [exact Hi|lia|lia|done|exact Hnew|exact Est|exact Hk].
Qed.
(** ** What a commit writes *)

Context {A : Type} {allocator : Allocator A} {allocator_spec : AllocatorSpec A}.

End FileSpec.

(** ** The stream as a place for arrays *)

Definition os_ok (w : OutputStream) (ref size : Z) : Prop := header_size <= size /\ 0 < ref /\ ref + size <= m_next_ref w /\ intact (fun x => nth (Z.to_nat x) (m_out w) 0) ref size.

(** Everything went through the stream's own counter, and something is in front of the first array. *)
Definition os_inv (w : OutputStream) : Prop := Z.of_nat (length (m_out w)) = m_next_ref w /\ 0 < m_next_ref w < 2 ^ 64 /\ m_next_ref w mod 8 = 0 /\ Forall (fun b => 0 <= b < 2 ^ 8) (m_out w).

Lemma os_do_write_app fuel out data : Z.of_nat (length data) <= Z.of_nat fuel * max_streamsize -> (0 < fuel)%nat -> os_do_write fuel out data = out ++ data.
Proof.
  revert out data. induction fuel as [|fuel IH]; intros out data Hl Hf; [lia|]. cbn [os_do_write]. destruct (Z.ltb_spec max_streamsize (Z.of_nat (length data))) as [Hd|Hd]; [|done].
  rewrite IH; [by rewrite <- app_assoc, take_drop| |]; unfold max_streamsize in *; [rewrite length_drop|]; lia.
Qed.

#[export] Program Instance output_stream_spec : ArrayWriterSpec OutputStream := {
  aw_inv := os_inv; aw_file w := fun x => nth (Z.to_nat x) (m_out w) 0; aw_ok := os_ok; aw_limit := 2 ^ 27; aw_error := OverflowError }.
Next Obligation.
  intros w (_ & _ & _ & Hb) x. destruct (nth_in_or_default (Z.to_nat x) (m_out w) 0) as [Hi| ->]; [|lia]. rewrite List.Forall_forall in Hb. by apply Hb.
Qed.
Next Obligation.
  intros w m size (Hl & Hn & Hn8 & Hb) Hm Hs H8 checksum. unfold header_size in Hs. unfold write_array, output_stream, os_write_array. rewrite H8. cbn [Z.eqb negb].
  destruct (Z.leb_spec (2 ^ 64) (m_next_ref w + size)) as [|Hlt]; [by left|]. right. rewrite os_do_write_app by (rewrite ?length_slice; unfold max_streamsize; lia). eexists _, _. split; [done|].
  set (sum := put_loop 4 0 (fun _ => 0) 0 checksum). set (out := (m_out w ++ slice sum 0 4) ++ slice m 4 (size - 4)).
  assert (Hlen : Z.of_nat (length out) = m_next_ref w + size) by (unfold out; rewrite !length_app, !length_slice; lia).
  assert (Est : forall x, 0 <= x < size -> nth (Z.to_nat (m_next_ref w + x)) out 0 = if x <? 4 then u8 (Z.shiftr checksum (x * 8)) else m x).
  { intros x Hx. unfold out. rewrite <- app_assoc, app_nth2 by lia. replace (Z.to_nat (m_next_ref w + x) - length (m_out w))%nat with (Z.to_nat x) by lia. destruct (Z.ltb_spec x 4).
    - rewrite app_nth1 by (rewrite length_slice; lia). rewrite nth_slice by lia. unfold sum. rewrite put_loop_at. rdec; [|lia]. do 3 f_equal. lia.
    - rewrite app_nth2; rewrite length_slice; [|lia]. rewrite nth_slice by lia. f_equal. lia. }
  assert (Ekp : forall x, x < m_next_ref w -> nth (Z.to_nat x) out 0 = nth (Z.to_nat x) (m_out w) 0) by (intros x Hx; unfold out; rewrite <- app_assoc, app_nth1; [done|lia]).
  assert (Hbo : Forall (fun b => 0 <= b < 2 ^ 8) out).
  { unfold out. rewrite !Forall_app. split_and!; [done| |]; apply List.Forall_forall; intros b Hi; unfold slice in Hi; apply in_map_iff in Hi as (k & <- & _); [|apply Hm]. by apply is_bytes_put. }
  clearbody out. destruct (written_intact (fun x => nth (Z.to_nat x) out 0) m (m_next_ref w) size ltac:(unfold header_size; lia) Est) as [_ Hin].
  split_and!; cbn [m_next_ref m_out]; try done; try lia.
  - split_and!; cbn [m_next_ref m_out]; try done; try lia. dlia.
  - split_and!; cbn [m_next_ref m_out]; try done; unfold header_size; lia.
  - intros r n (Hn8' & Hr & Hrn & Hi). split; [|intros x Hx; apply Ekp; lia]. split_and!; cbn [m_next_ref m_out]; try done; [lia|]. apply (intact_ext (fun x => nth (Z.to_nat x) (m_out w) 0)); [done|intros x Hx; apply Ekp; lia|done].
Qed.

(** The same for a stream, which takes arrays of up to 2^27 bytes. *)
Theorem write_tree_to_stream {A : Type} {allocator : Allocator A} {allocator_spec : AllocatorSpec A} (translate : Z -> bytes) (depth : nat) (s : A) (w : OutputStream) (ref : Z) (t : tree) :
  os_inv w -> held translate depth ref t -> sized (2 ^ 27) t ->
  write translate (fun _ => false) depth false s w ref = Throw OverflowError \/
  exists new_ref s' w', write translate (fun _ => false) depth false s w ref = Ok (new_ref, s', w') /\ os_inv w' /\ holds (fun r x => nth (Z.to_nat (r + x)) (m_out w') 0) (os_ok w') depth new_ref t.
Proof.
  intros Hi Ht Hz. destruct (write_ok (writer_spec := output_stream_spec) translate (fun _ => false) false depth s w ref t Hi ltac:(done) Ht Hz) as [->|(r & s' & w' & -> & _ & Hi' & _ & _ & Hh)]; [by left|].
  right. by exists r, s', w'.
Qed.

(** ** Witness *)

(** A node with a ref, a value and a zero, and the leaf it refers to. *)
Definition example_node : bytes := fun x => nth (Z.to_nat x) [0; 0; 2; 0; 0x45; 0; 0; 3; 0; 0x20; 7; 0; 0; 0; 0; 0] 0.
Definition example_leaf : bytes := fun x => nth (Z.to_nat x) [0; 0; 2; 0; 0x10; 0; 0; 5; 104; 101; 108; 108; 111; 0; 0; 0] 0.
Definition example_memory (ref : Z) : bytes := if ref =? 0x2000 then example_leaf else example_node.
Definition example_tree : tree := TNode false false [Sub (TLeaf [0x10; 0; 0; 5; 104; 101; 108; 108; 111; 0; 0; 0]); Val 7; Val 0].
Definition example_file_writer : FileWriter := mkFileWriter example_writer (fun _ => 0) [] 0 0 0.

Lemma is_bytes_nth l : forallb (fun b => (0 <=? b) && (b <? 2 ^ 8)) l = true -> is_bytes (fun x => nth (Z.to_nat x) l 0).
Proof.
  intros Hl x. destruct (nth_in_or_default (Z.to_nat x) l 0) as [Hi| ->]; [|lia]. rewrite forallb_forall in Hl. apply Hl in Hi. apply andb_true_iff in Hi as [H1 H2]. lia.
Qed.

Lemma example_held : held example_memory 2 0x1000 example_tree.
Proof.
  unfold held. cbn [holds]. split; [by apply is_bytes_nth|]. split; [done|]. exists [0x2000; 7; 0]. split.
  - exists 16, 3, (get_capacity_from_header example_node 0). split_and!; [vm_compute; reflexivity|unfold valid_width; lia|lia|unfold max_elems; lia|vm_compute; reflexivity].
  - apply Forall2_cons; [|by repeat constructor]. split; [done|]. split; [by apply is_bytes_nth|]. split; [done|]. split_and!; [reflexivity|discriminate|vm_compute; reflexivity].
Qed.

Lemma example_fw_inv : fw_inv example_file_writer.
Proof. split; [apply example_winv|unfold max_file; cbn; lia|intros x; cbn; lia|constructor]. Qed.

