(* ===== verification/JournalRun.v ===== *)
(** * The journal as a state machine, and recovery as its inverse

    Appends, writes elsewhere in the file and checkpoint resets take the journal
    from state to state.  [CommitJournal::open] on the file of a reachable state
    gives back exactly the in-memory journal of that state; a torn append gives
    back the state before or after it.  Two crash images the scan refuses are
    exhibited at the end. *)

From S2P Require Import Prelude Bytes Crc32c NodeHeader ArrayDirect Journal Recovery.

(** ** One append *)

Definition pending (j : CommitJournal) (c : Commit) : PendingAppend :=
  mkPendingAppend (m_tail j + rsize c) (m_tail j) (u64 (m_sequence j + 1)) (c_version c)
    (sum_sizes (c_arrays c) 0).

Definition advance (j : CommitJournal) (c : Commit) : CommitJournal := commit_append j (pending j c).

Definition append (j : CommitJournal) (partial : bool) (file : bytes) (c : Commit) : bytes * result PendingAppend :=
  prepare_append j partial file (c_version c) (c_top c) (c_logical c) (c_arrays c).

(** The journal content with the first [n] bytes of [r] stored at [o]. *)
Definition stored (v : bytes) (o : Z) (r : bytes) (n : Z) : bytes :=
  fun x => if in_range o n x then r (x - o) else v x.

Definition same_journal (chunks : list Z) (file : bytes) (v : bytes) : Prop :=
  forall o, 0 <= o < capacity -> jview chunks file o = v o.

Lemma append_room j partial file c :
  journal_typed j -> commit_fits c -> m_tail j + rsize c <= capacity ->
  chunks_ok (m_chunks j) ->
  exists file',
    append j partial file c =
      (file', if partial then Throw SimulatedFailure else Ok (pending j c)) /\
    same_journal (m_chunks j) file'
      (stored (jview (m_chunks j) file) (m_tail j) (record_of j c) (if partial then rsize c / 2 else rsize c)) /\
    (forall a, off_journal (m_chunks j) a -> file' a = file a).
Proof.
  intros Hj (Ht & Hn & Hc) Hroom Hok. destruct Hj as (Htl & _). destruct (rsize_fits c Hc Hn) as [Hs _].
  unfold append, prepare_append. fold (rsize c) (record_of j c).
  rewrite u64_small by (rewrite capacity_eq, chunk_size_eq in *; lia).
  destruct (Z.ltb_spec capacity (rsize c)); [lia|].
  destruct (Z.ltb_spec capacity (m_tail j + rsize c)); [lia|]. cbn [orb].
  destruct (write_bytes_spec (m_chunks j) file (m_tail j) (record_of j c)
              (if partial then rsize c / 2 else rsize c)) as (file' & Hw & Hv & Ho);
    [done|lia|destruct partial; dlia..|].
  exists file'. destruct partial; rewrite Hw; done.
Qed.

Lemma append_full j partial file c :
  journal_typed j -> commit_fits c -> capacity < m_tail j + rsize c ->
  append j partial file c = (file, Throw LengthError).
Proof.
  intros Hj (Ht & Hn & Hc) Hroom. destruct Hj as (Htl & _). destruct (rsize_fits c Hc Hn) as [Hs _].
  unfold append, prepare_append. fold (rsize c).
  rewrite u64_small by (rewrite capacity_eq, chunk_size_eq in *; lia).
  destruct (Z.ltb_spec capacity (m_tail j + rsize c)); [|lia]. by rewrite orb_true_r.
Qed.

Lemma append_ok_inv j file c file' p :
  journal_typed j -> commit_fits c -> chunks_ok (m_chunks j) -> append j false file c = (file', Ok p) ->
  m_tail j + rsize c <= capacity /\ p = pending j c /\
  same_journal (m_chunks j) file' (stored (jview (m_chunks j) file) (m_tail j) (record_of j c) (rsize c)).
Proof.
  intros Hj Hc Hok Ha. destruct (Z.le_gt_cases (m_tail j + rsize c) capacity) as [Hr|Hr].
  - destruct (append_room j false file c Hj Hc Hr Hok) as (f & Hf & Hv & _). rewrite Hf in Ha. by simplify_eq.
  - rewrite append_full in Ha by (done || lia). simplify_eq.
Qed.

Lemma rsize_pos c : commit_fits c -> 88 <= rsize c < 2 ^ 32.
Proof. intros (Ht & Hn & Hc). destruct (rsize_fits c Hc Hn) as [Hs Hs']. lia. Qed.

Lemma advance_typed j c :
  journal_typed j -> commit_fits c -> m_tail j + rsize c <= capacity -> journal_typed (advance j c).
Proof.
  intros (H1 & H2 & H3) Hc Hr. pose proof (rsize_pos c Hc).
  unfold journal_typed, advance, commit_append, pending. cbn.
  pose proof (u64_range (m_sequence j + 1)). rewrite capacity_eq, chunk_size_eq in *. lia.
Qed.

(** ** Records laid out in the journal *)

(** The records of [cs], starting in state [j], are in the journal content [v]. *)
Fixpoint holds (v : bytes) (j : CommitJournal) (cs : list Commit) : Prop :=
  match cs with
  | [] => True
  | c :: cs' =>
      (forall k, 0 <= k < rsize c -> v (m_tail j + k) = record_of j c k) /\ holds v (advance j c) cs'
  end.

Definition replay (j : CommitJournal) (cs : list Commit) : CommitJournal := fold_left advance cs j.

Lemma replay_snoc j cs c : replay j (cs ++ [c]) = advance (replay j cs) c.
Proof. apply fold_left_app. Qed.

Lemma replay_chunks j cs : m_chunks (replay j cs) = m_chunks j.
Proof. revert j. induction cs as [|c cs IH]; intros j; [done|]. apply (IH (advance j c)). Qed.

Lemma replay_tail_mono j cs : Forall commit_fits cs -> m_tail j <= m_tail (replay j cs).
Proof.
  revert j. induction cs as [|c cs IH]; intros j Hf; [done|]. inversion Hf as [|? ? Hc Hf']; subst.
  specialize (IH (advance j c) Hf'). pose proof (rsize_pos c Hc).
  change (replay j (c :: cs)) with (replay (advance j c) cs).
  unfold advance in IH at 1. cbn in IH. lia.
Qed.

Lemma holds_ext v v' j cs :
  Forall commit_fits cs ->
  (forall o, m_tail j <= o < m_tail (replay j cs) -> v o = v' o) -> holds v j cs -> holds v' j cs.
Proof.
  revert j. induction cs as [|c cs IH]; intros j Hf Hv; cbn [holds]; [done|].
  inversion Hf as [|? ? Hc Hf']; subst. intros [H1 H2]. pose proof (rsize_pos c Hc).
  change (replay j (c :: cs)) with (replay (advance j c) cs) in Hv.
  pose proof (replay_tail_mono (advance j c) cs Hf') as Hm.
  assert (Ha : m_tail (advance j c) = m_tail j + rsize c) by done. split.
  - intros k Hk. rewrite <- H1 by done. symmetry. apply Hv. lia.
  - apply IH; [done| |done]. intros o Ho. apply Hv. lia.
Qed.

Lemma holds_snoc v j cs c :
  holds v j (cs ++ [c]) <->
  holds v j cs /\ forall k, 0 <= k < rsize c -> v (m_tail (replay j cs) + k) = record_of (replay j cs) c k.
Proof.
  revert j. induction cs as [|d cs IH]; intros j; cbn [app holds].
  - unfold replay. cbn. tauto.
  - rewrite IH. change (replay j (d :: cs)) with (replay (advance j d) cs). tauto.
Qed.

(** ** Scanning the records of a journal *)

Definition matches (s : ScanState) (j : CommitJournal) : Prop :=
  sc_offset s = m_tail j /\ sc_sequence s = m_sequence j /\ sc_previous s = m_previous_offset j.

Definition accept (ckpt : Z) (s : ScanState) (c : Commit) : ScanState :=
  accept_record ckpt s (if ckpt <? c_version c then sum_sizes (c_arrays c) (sc_cow s) else sc_cow s)
    (c_version c) (c_top c) (c_logical c) (u64 (sc_sequence s + 1)) (rsize c).

(** The arrays of the commits newer than the checkpoint are intact. *)
Definition arrays_intact (file : bytes) (file_size ckpt : Z) (c : Commit) : Prop :=
  ckpt < c_version c -> Forall (array_ok file file_size) (c_arrays c).

Definition record_at (v : bytes) (j : CommitJournal) (c : Commit) : Prop :=
  forall k, 0 <= k < rsize c -> v (m_tail j + k) = record_of j c k.

Lemma record_at_parses v j c :
  journal_typed j -> commit_fits c -> record_at v j c ->
  header_parses v (m_tail j) (u64 (m_sequence j + 1)) (previous_field (m_previous_offset j)) c /\
  footer_parses v (m_tail j) (u64 (m_sequence j + 1)) (rsize c) /\
  entries_parse (fun k => v (m_tail j + k)) fixed_header_size (c_arrays c).
Proof.
  intros Hj Hc Hr. pose proof (rsize_pos c Hc). split_and!.
  - apply (header_parses_ext v (m_tail j) (record_of j c) 0); [|by apply record_header].
    intros k Hk. rewrite Z.add_0_l. apply Hr. unfold fixed_header_size in Hk. lia.
  - apply (footer_parses_ext v (m_tail j) (record_of j c) 0); [unfold footer_size; lia| |by apply record_footer].
    intros k Hk. rewrite Z.add_0_l. by apply Hr.
  - apply (entries_parse_ext _ _ (record_of j c) fixed_header_size); [|by apply record_entries].
    intros k Hk. apply Hr. unfold fixed_header_size, entry_size in *.
    destruct Hc as (_ & Hn & Hcap). destruct (rsize_fits c Hcap Hn). lia.
Qed.

Lemma rsize_well_sized j c :
  commit_fits c -> m_tail j + rsize c <= capacity ->
  well_sized (m_tail j) (rsize c) (Z.of_nat (length (c_arrays c))) = true.
Proof.
  intros (_ & Hn & Hcap) Hroom. destruct (rsize_fits c Hcap Hn) as [Hs _]. apply well_sized_spec.
  unfold fixed_header_size, entry_size, footer_size. rewrite Hs in *. split_and!; [lia| |lia].
  replace (88 + 16 * Z.of_nat (length (c_arrays c))) with ((11 + 2 * Z.of_nat (length (c_arrays c))) * 8) by lia.
  apply Z.mod_mul. lia.
Qed.

Lemma footer_parses_sealed v o sequence size :
  get_u64 v (o + 16) = sequence -> footer_parses v o sequence size -> sealed v o size = true.
Proof. intros Hq []. unfold sealed. rewrite fp_magic, fp_sequence, fp_size, fp_crc, Hq, !Z.eqb_refl. done. Qed.

(** The scan's turn at an intact record, up to the check of its arrays. *)
Lemma view_step_at_record file file_size ckpt v j c s :
  journal_typed j -> commit_fits c -> m_tail j + rsize c <= capacity -> matches s j -> record_at v j c ->
  view_step file file_size ckpt v s =
  let '(arrays_valid, cow) := view_check file file_size ckpt v s (c_version c) (Z.of_nat (length (c_arrays c))) in
  if arrays_valid
  then Ok (Continue (accept_record ckpt s cow (c_version c) (c_top c) (c_logical c)
                       (u64 (sc_sequence s + 1)) (rsize c)))
  else view_reject v s cow (rsize c).
Proof.
  intros Hj Hc Hroom (Ho & Hq & Hp) Hr. destruct (record_at_parses v j c Hj Hc Hr) as ([] & Hf & _).
  unfold view_step. rewrite Ho, Hq, Hp.
  rewrite hp_magic, hp_record_version, hp_header_size, hp_sequence, hp_version, hp_previous, hp_top, hp_logical,
    hp_arrays, hp_size, !Z.eqb_refl.
  rewrite (rsize_well_sized j c) by done. rewrite (footer_parses_sealed _ _ _ _ hp_sequence Hf).
  cbn [andb negb]. done.
Qed.

Lemma view_step_record file file_size ckpt v j c s :
  journal_typed j -> commit_fits c -> m_tail j + rsize c <= capacity -> matches s j -> record_at v j c ->
  arrays_intact file file_size ckpt c ->
  view_step file file_size ckpt v s = Ok (Continue (accept ckpt s c)).
Proof.
  intros Hj Hc Hroom Hm Hr Ha. rewrite (view_step_at_record _ _ _ _ j c) by done.
  destruct (record_at_parses v j c Hj Hc Hr) as (_ & _ & He). destruct Hm as (Ho & _).
  unfold accept, view_check. rewrite Ho.
  destruct (Z.ltb_spec ckpt (c_version c)) as [Hv|Hv]; [|done].
  rewrite Nat2Z.id, check_arrays_ok by auto. done.
Qed.

Lemma accept_matches ckpt s j c : matches s j -> matches (accept ckpt s c) (advance j c).
Proof. intros (H1 & H2 & H3). unfold matches, accept, advance. cbn. by rewrite H1, H2. Qed.

Section Scanning.
Context (chunks : list Z) (file : bytes) (file_size ckpt : Z) (Hok : chunks_ok chunks).
Let v := jview chunks file.

Lemma scan_loop_holds fuel j cs s :
  journal_typed j -> Forall commit_fits cs -> m_tail (replay j cs) <= capacity -> matches s j ->
  holds v j cs -> Forall (arrays_intact file file_size ckpt) cs ->
  scan_loop chunks file file_size ckpt (length cs + fuel) s =
    scan_loop chunks file file_size ckpt fuel (fold_left (accept ckpt) cs s) /\
  matches (fold_left (accept ckpt) cs s) (replay j cs) /\ journal_typed (replay j cs).
Proof.
  revert j s. induction cs as [|c cs IH]; intros j s Hj Hf Hcap Hm Hh Ha; [done|].
  inversion Hf as [|? ? Hc Hf']; subst. inversion Ha as [|? ? Hac Ha']; subst. destruct Hh as [Hr Hh].
  change (replay j (c :: cs)) with (replay (advance j c) cs) in *.
  pose proof (replay_tail_mono (advance j c) cs Hf') as Hmono.
  change (m_tail (advance j c)) with (m_tail j + rsize c) in Hmono.
  assert (Hroom : m_tail j + rsize c <= capacity) by lia.
  pose proof (rsize_pos c Hc). cbn [length Nat.add fold_left].
  rewrite scan_loop_S by (try done; destruct Hm as (-> & _); destruct Hj as (? & _); lia).
  destruct (Z.leb_spec (sc_offset s + fixed_header_size + footer_size) capacity) as [|Hno].
  2:{ destruct Hm as (Ho & _). unfold fixed_header_size, footer_size in Hno. lia. }
  fold v. rewrite (view_step_record file file_size ckpt v j c s) by done. cbn [mbind result_bind].
  apply IH; try done; [by apply advance_typed|by apply accept_matches].
Qed.

(** The loop stops where no record starts. *)
Lemma scan_loop_stop fuel s :
  0 <= sc_offset s ->
  (sc_offset s + 88 <= capacity -> get_u64 v (sc_offset s) <> header_magic) ->
  scan_loop chunks file file_size ckpt (S fuel) s = Ok s.
Proof.
  intros Ho Hm. rewrite scan_loop_S by done. unfold fixed_header_size, footer_size.
  destruct (Z.leb_spec (sc_offset s + 64 + 24) capacity); [|done].
  unfold view_step. destruct (Z.eqb_spec (get_u64 (jview chunks file) (sc_offset s)) header_magic) as [He|]; [|done].
  exfalso. apply Hm; [lia|exact He].
Qed.
End Scanning.

(** ** What the scan returns for a sequence of commits *)

(** Versions grow from the checkpoint on. *)
Fixpoint increasing (version : Z) (cs : list Commit) : Prop :=
  match cs with [] => True | c :: cs' => version < c_version c /\ increasing (c_version c) cs' end.

(** The top, version and logical size after the last of the commits. *)
Definition last_state (st : Z * Z * Z) (cs : list Commit) : Z * Z * Z :=
  fold_left (fun _ c => (c_top c, c_version c, c_logical c)) cs st.

Lemma last_state_mono st cs :
  increasing (snd (fst st)) cs -> snd (fst st) <= snd (fst (last_state st cs)).
Proof.
  revert st. induction cs as [|c cs IH]; intros st; cbn [increasing]; [done|]. intros [H1 H2].
  specialize (IH (c_top c, c_version c, c_logical c) H2). cbn in IH. cbn. unfold last_state in IH. lia.
Qed.

Lemma sum_sizes_acc arrays cow : 0 <= cow < 2 ^ 64 ->
  u64 (cow + sum_sizes arrays 0) = sum_sizes arrays cow /\ 0 <= sum_sizes arrays cow < 2 ^ 64.
Proof.
  assert (Hgen : forall arrays x y, 0 <= x < 2 ^ 64 -> 0 <= y < 2 ^ 64 ->
    u64 (y + sum_sizes arrays x) = sum_sizes arrays (u64 (y + x)) /\ 0 <= sum_sizes arrays y < 2 ^ 64).
  { clear. induction arrays as [|w arrays IH]; intros x y Hx Hy; cbn [sum_sizes]; [done|].
    pose proof (u64_range (x + wa_size w)) as Hr1. pose proof (u64_range (y + wa_size w)) as Hr2.
    destruct (IH (u64 (x + wa_size w)) y Hr1 Hy) as [H1 _].
    destruct (IH (u64 (x + wa_size w)) (u64 (y + wa_size w)) Hr1 Hr2) as [_ H2]. split; [|exact H2].
    rewrite H1. f_equal. unfold u64. rewrite Zplus_mod_idemp_r, Zplus_mod_idemp_l. f_equal. lia. }
  intros Hc. destruct (Hgen arrays 0 cow ltac:(lia) Hc) as [H1 H2]. split; [|exact H2].
  rewrite H1, Z.add_0_r, u64_small by done. done.
Qed.

Definition counts (s : ScanState) (j : CommitJournal) : Prop :=
  sc_commits s = m_commits_since_checkpoint j /\ sc_cow s = m_cow_bytes_since_checkpoint j /\
  0 <= sc_cow s < 2 ^ 64.

Lemma accept_fold ckpt cs s j :
  ckpt <= sc_version s -> increasing (sc_version s) cs -> counts s j ->
  let s' := fold_left (accept ckpt) cs s in
  (sc_top s', sc_version s', sc_logical s') = last_state (sc_top s, sc_version s, sc_logical s) cs /\
  counts s' (replay j cs).
Proof.
  revert s j. induction cs as [|c cs IH]; intros s j Hge Hinc Hcnt; [done|].
  destruct Hinc as [Hv Hinc]. destruct Hcnt as (Hc1 & Hc2 & Hc3). cbn [fold_left last_state].
  destruct (sum_sizes_acc (c_arrays c) (sc_cow s) Hc3) as [Hs1 Hs2].
  assert (Ha : accept ckpt s c =
    mkScan (c_top c) (c_version c) (c_logical c) (sum_sizes (c_arrays c) (sc_cow s))
      (sc_offset s + rsize c) (sc_offset s) (u64 (sc_sequence s + 1)) (u64 (sc_commits s + 1))).
  { unfold accept, accept_record. destruct (Z.ltb_spec (sc_version s) (c_version c)); [|lia].
    destruct (Z.ltb_spec ckpt (c_version c)); [done|lia]. }
  rewrite Ha. change (replay j (c :: cs)) with (replay (advance j c) cs).
  apply (IH (mkScan _ _ _ _ _ _ _ _) (advance j c)); cbn [sc_version sc_top sc_logical]; [lia|done|].
  unfold counts. cbn. rewrite <- Hc1, <- Hc2, Hs1. done.
Qed.

(** The journal a checkpoint leaves: no records, counters at zero. *)
Definition base_journal (chunks : list Z) (top version logical : Z) : CommitJournal :=
  mkCommitJournal chunks 0 0 0 0 npos top version logical.

Lemma base_typed chunks top version logical : journal_typed (base_journal chunks top version logical).
Proof. unfold journal_typed. cbn. rewrite capacity_eq, chunk_size_eq. unfold npos. lia. Qed.

Lemma records_bound j cs : journal_typed j ->
  Forall commit_fits cs -> m_tail j + 88 * Z.of_nat (length cs) <= m_tail (replay j cs).
Proof.
  intros _. revert j. induction cs as [|c cs IH]; intros j Hf; [cbn; lia|].
  inversion Hf as [|? ? Hc Hf']; subst. specialize (IH (advance j c) Hf').
  change (replay j (c :: cs)) with (replay (advance j c) cs).
  change (m_tail (advance j c)) with (m_tail j + rsize c) in IH.
  pose proof (rsize_pos c Hc). cbn [length]. lia.
Qed.

(** The scan state after the records of [cs]. *)
Definition scan_start (file : bytes) (top : Z) : ScanState :=
  mkScan top (get_version file top) (get_logical_file_size file top) 0 0 npos 0 0.

Definition recovery_of (j : CommitJournal) (st : Z * Z * Z) : Recovery :=
  let '(top, version, logical) := st in
  mkRecovery top version logical (m_tail j) (m_previous_offset j) (m_sequence j)
    (m_commits_since_checkpoint j) (m_cow_bytes_since_checkpoint j).

Lemma scan_prefix chunks file file_size top cs t v l :
  chunks_ok chunks -> Forall commit_fits cs ->
  let j := replay (base_journal chunks t v l) cs in
  let ckpt := get_version file top in
  m_tail j <= capacity -> holds (jview chunks file) (base_journal chunks t v l) cs ->
  Forall (arrays_intact file file_size ckpt) cs -> increasing ckpt cs ->
  exists fuel s,
    scan chunks file file_size top =
      (r ← scan_loop chunks file file_size ckpt (S fuel) s; Ok (scan_result r)) /\
    capacity - m_tail j < 88 * Z.of_nat (S fuel) /\
    matches s j /\ journal_typed j /\ counts s j /\ ckpt <= sc_version s /\
    (sc_top s, sc_version s, sc_logical s) =
      last_state (top, ckpt, get_logical_file_size file top) cs.
Proof.
  intros Hok Hf j ckpt Hcap Hh Ha Hinc.
  pose proof (records_bound (base_journal chunks t v l) cs (base_typed _ _ _ _) Hf) as Hlen. cbn in Hlen.
  assert (exists fuel, scan_fuel = (length cs + S fuel)%nat /\ capacity - m_tail j < 88 * Z.of_nat (S fuel))
    as (fuel & Hfuel & Hf88).
  { exists (scan_fuel - length cs - 1)%nat. unfold scan_fuel, fixed_header_size, footer_size.
    fold j in Hlen. rewrite capacity_eq, chunk_size_eq in *. dlia. }
  destruct (scan_loop_holds chunks file file_size ckpt Hok (S fuel) (base_journal chunks t v l) cs
              (scan_start file top)) as (Hs & Hm & Ht); try done.
  assert (Hc0 : counts (scan_start file top) (base_journal chunks t v l)) by (unfold counts; cbn; lia).
  destruct (accept_fold ckpt cs (scan_start file top) (base_journal chunks t v l)) as [Hl Hc];
    [unfold scan_start; cbn [sc_version]; lia|done..|].
  exists fuel, (fold_left (accept ckpt) cs (scan_start file top)). split_and!; try done.
  - unfold scan. fold ckpt. change (mkScan top _ _ _ _ _ _ _) with (scan_start file top).
    by rewrite Hfuel, Hs.
  - pose proof (last_state_mono (top, ckpt, get_logical_file_size file top) cs Hinc) as Hmono.
    change (top, ckpt, get_logical_file_size file top) with
      (sc_top (scan_start file top), sc_version (scan_start file top), sc_logical (scan_start file top)) in Hmono.
    rewrite <- Hl in Hmono. exact Hmono.
Qed.

Lemma scan_exact chunks file file_size top cs t v l :
  chunks_ok chunks -> Forall commit_fits cs ->
  let j := replay (base_journal chunks t v l) cs in
  m_tail j <= capacity -> holds (jview chunks file) (base_journal chunks t v l) cs ->
  Forall (arrays_intact file file_size (get_version file top)) cs -> increasing (get_version file top) cs ->
  (m_tail j + 88 <= capacity -> get_u64 (jview chunks file) (m_tail j) <> header_magic) ->
  scan chunks file file_size top =
    Ok (recovery_of j (last_state (top, get_version file top, get_logical_file_size file top) cs)).
Proof.
  intros Hok Hf j Hcap Hh Ha Hinc Hend.
  destruct (scan_prefix chunks file file_size top cs t v l) as (fuel & s & -> & _ & Hm & Ht & Hc & _ & Hl);
    [done..|].
  fold j in Hm, Ht, Hc. destruct Hm as (Ho & Hq & Hp).
  rewrite scan_loop_stop by (rewrite ?Ho; try done; destruct Ht as (? & _); lia).
  cbn [mbind result_bind]. rewrite <- Hl. unfold recovery_of, scan_result.
  destruct Hc as (-> & -> & _). by rewrite Ho, Hq, Hp.
Qed.

(** ** The state machine *)

(** [js_log] is the list of commits since the last reset; [js_rest] what the
    journal held, past its tail, when that reset was done. *)
Record JState := mkJState { js_journal : CommitJournal; js_file : bytes; js_log : list Commit; js_rest : bytes }.

(** The C++ types of the arguments, with a vector length that fits in memory. *)
Definition commit_ok (c : Commit) : Prop := commit_typed c /\ Z.of_nat (length (c_arrays c)) < 2 ^ 40.

Inductive jstep : JState -> JState -> Prop :=
| js_append j file log rest c file' p :
    commit_ok c -> append j false file c = (file', Ok p) ->
    jstep (mkJState j file log rest) (mkJState (commit_append j p) file' (log ++ [c]) rest)
| js_write j file log rest file' :
    (forall o, 0 <= o < capacity -> file' (jaddr (m_chunks j) o) = file (jaddr (m_chunks j) o)) ->
    jstep (mkJState j file log rest) (mkJState j file' log rest)
| js_reset j file log rest top version logical file' j' :
    clear_after_compaction j file top version logical = (file', j', Ok tt) ->
    jstep (mkJState j file log rest) (mkJState j' file' [] (jview (m_chunks j) file')).

Inductive jreach (st0 : JState) : JState -> Prop :=
| jreach_refl : jreach st0 st0
| jreach_step st st' : jreach st0 st -> jstep st st' -> jreach st0 st'.

Definition jstart (chunks : list Z) (top version logical : Z) (file : bytes) : JState :=
  mkJState (base_journal chunks top version logical) file [] (jview chunks file).

(** The journal base the current log extends. *)
Definition base_of (j : CommitJournal) : CommitJournal :=
  base_journal (m_chunks j) (m_checkpoint_top_ref j) (m_checkpoint_version j) (m_checkpoint_logical_size j).

Record jinv (chunks : list Z) (st : JState) : Prop := {
  ji_chunks : m_chunks (js_journal st) = chunks;
  ji_typed : journal_typed (js_journal st);
  ji_fits : Forall commit_fits (js_log st);
  ji_replay : js_journal st = replay (base_of (js_journal st)) (js_log st);
  ji_holds : holds (jview chunks (js_file st)) (base_of (js_journal st)) (js_log st);
  ji_rest : forall o, m_tail (js_journal st) <= o < capacity -> jview chunks (js_file st) o = js_rest st o }.

Lemma append_ok_fits j file c file' p :
  commit_ok c -> append j false file c = (file', Ok p) -> commit_fits c.
Proof.
  intros [Ht Hn] Ha. split_and!; [done..|]. unfold append, prepare_append in Ha. fold (rsize c) in Ha.
  destruct (Z.ltb_spec capacity (rsize c)); [|done]. by cbn [orb] in Ha.
Qed.

Lemma base_of_advance j c : base_of (advance j c) = base_of j.
Proof. reflexivity. Qed.

Lemma base_of_commit_append j p : base_of (commit_append j p) = base_of j.
Proof. reflexivity. Qed.

Lemma jinv_append chunks j file log rest c file' p :
  chunks_ok chunks -> jinv chunks (mkJState j file log rest) -> commit_ok c ->
  append j false file c = (file', Ok p) -> jinv chunks (mkJState (commit_append j p) file' (log ++ [c]) rest).
Proof.
  intros Hok [Hch Hty Hf Hre Hh Hrest] Hc Ha. cbn [js_journal js_file js_log js_rest] in *. subst chunks.
  pose proof (append_ok_fits _ _ _ _ _ Hc Ha) as Hcf.
  destruct (append_ok_inv _ _ _ _ _ Hty Hcf Hok Ha) as (Hroom & -> & Hv).
  pose proof (rsize_pos c Hcf). destruct (Hty) as (Htl & _). fold (advance j c).
  split; cbn [js_journal js_file js_log js_rest]; rewrite ?base_of_advance.
  - done.
  - by apply advance_typed.
  - apply Forall_app. auto.
  - by rewrite replay_snoc, <- Hre.
  - apply holds_snoc. rewrite <- Hre. split.
    + eapply holds_ext; [done| |exact Hh]. rewrite <- Hre. intros o Ho. cbn in Ho.
      rewrite Hv by lia. unfold stored. rdec; [lia|done].
    + intros k Hk. rewrite Hv by lia. unfold stored. rdec; [f_equal; lia|lia].
  - change (m_tail (advance j c)) with (m_tail j + rsize c). intros o Ho.
    rewrite Hv by lia. unfold stored. rdec; [lia|]. apply Hrest. lia.
Qed.

Lemma jinv_reset chunks j file log rest top version logical file' j' :
  chunks_ok chunks -> jinv chunks (mkJState j file log rest) ->
  clear_after_compaction j file top version logical = (file', j', Ok tt) ->
  jinv chunks (mkJState j' file' [] (jview (m_chunks j) file')).
Proof.
  intros Hok [Hch Hty Hf Hre Hh Hrest] Hc. cbn [js_journal js_file js_log js_rest] in *. subst chunks.
  unfold clear_after_compaction in Hc. destruct (write_bytes _ _ _ _ _) as [f r].
  destruct r; simplify_eq. by split.
Qed.

Lemma jinv_reach chunks top version logical file st :
  chunks_ok chunks -> jreach (jstart chunks top version logical file) st -> jinv chunks st.
Proof.
  intros Hok Hr. induction Hr as [|st st' Hr IH Hs].
  - by split.
  - destruct Hs.
    + by eapply jinv_append.
    + destruct IH as [Hch Hty Hf Hre Hh Hrest]. cbn [js_journal js_file js_log js_rest] in *. subst chunks.
      assert (Hv : forall o, 0 <= o < capacity -> jview (m_chunks j) file' o = jview (m_chunks j) file0 o) by done.
      destruct (Hty) as (Htl & _).
      split; cbn [js_journal js_file js_log js_rest]; try done.
      * eapply holds_ext; [done| |exact Hh]. rewrite <- Hre. intros o Ho. cbn in Ho. symmetry. apply Hv. lia.
      * intros o Ho. rewrite Hv by lia. by apply Hrest.
    + by eapply jinv_reset.
Qed.


(** The checkpoint policy keeps appends from failing.  Whenever
    [needs_checkpoint] says no for the record about to be written, the append
    succeeds and leaves at least a quarter of the journal free. *)
Theorem checkpoint_guard chunks top0 version0 logical0 file0 st c cow :
  chunks_ok chunks -> jreach (jstart chunks top0 version0 logical0 file0) st -> commit_ok c ->
  let j := js_journal st in
  needs_checkpoint j (rsize c) cow = false ->
  exists file', append j false (js_file st) c = (file', Ok (pending j c)) /\
    next_offset (pending j c) <= capacity * 3 / 4.
Proof.
  intros Hok Hr [Htc Hn] j Hnc. destruct (jinv_reach _ _ _ _ _ _ Hok Hr) as [Hch Hty _ _ _ _]. fold j in Hch, Hty.
  unfold needs_checkpoint in Hnc. rewrite !orb_false_iff in Hnc. destruct Hnc as [[_ H2] _].
  apply Z.ltb_ge in H2. pose proof Hty as (Htl & _).
  assert (Hrs : rsize c = 88 + 16 * Z.of_nat (length (c_arrays c))) by (apply required_size_small; lia).
  rewrite u64_small in H2 by (rewrite capacity_eq, chunk_size_eq in *; lia).
  assert (m_tail j + rsize c <= capacity) by (rewrite capacity_eq, chunk_size_eq in *; dlia).
  assert (Hcf : commit_fits c) by (split_and!; [done..|lia]). rewrite <- Hch in Hok.
  destruct (append_room j false (js_file st) c Hty Hcf) as (file' & Ha & _); [done..|].
  exists file'. exact (conj Ha H2).
Qed.

(** ** Torn appends *)

Lemma is_bytes_put_u64 out a x : is_bytes out -> is_bytes (put_u64 out a x).
Proof. apply is_bytes_put. Qed.
Lemma is_bytes_put_u32 out a x : is_bytes out -> is_bytes (put_u32 out a x).
Proof. apply is_bytes_put. Qed.
Lemma is_bytes_put_entries out cursor arrays : is_bytes out -> is_bytes (put_entries out cursor arrays).
Proof.
  revert out cursor. induction arrays as [|w arrays IH]; intros out cursor H; [done|].
  cbn [put_entries]. apply IH. auto using is_bytes_put_u64, is_bytes_put_u32.
Qed.
Lemma is_bytes_record j c : is_bytes (record_of j c).
Proof.
  unfold record_of, build_record.
  repeat first [apply is_bytes_put_u32 | apply is_bytes_put_u64 | apply is_bytes_put_entries]. intros x. lia.
Qed.

(** The journal content [v], from [o] on, is the first [k] bytes of [r] and then zeros. *)
Definition torn (v : bytes) (o k : Z) (r : bytes) : Prop :=
  forall x, 0 <= x -> o + x < capacity -> v (o + x) = if x <? k then r x else 0.

Section Torn.
Context (v : bytes) (j : CommitJournal) (c : Commit) (k : Z).
Context (Hj : journal_typed j) (Hc : commit_fits c) (Hroom : m_tail j + rsize c <= capacity).
Context (Hk : 0 <= k <= rsize c) (Ht : torn v (m_tail j) k (record_of j c)).
Let o := m_tail j.
Let r := record_of j c.

Lemma torn_written n a : 0 <= a -> a + Z.of_nat n <= k -> le_val n v (o + a) = le_val n r (0 + a).
Proof.
  intros Ha Hn. apply le_val_ext. intros i Hi. rewrite <- Z.add_assoc, Ht by (unfold o in *; lia).
  destruct (Z.ltb_spec (a + i) k); [|lia]. by rewrite Z.add_0_l.
Qed.

Lemma torn_le n a : 0 <= a -> a + Z.of_nat n <= rsize c -> le_val n v (o + a) <= le_val n r (0 + a).
Proof.
  intros Ha Hn. apply le_val_mono. intros i Hi. rewrite <- Z.add_assoc, Ht by (unfold o in *; lia).
  pose proof (u8_range (r (0 + a + i))). destruct (Z.ltb_spec (a + i) k); [|change (u8 0) with 0; lia].
  rewrite Z.add_0_l. fold r. lia.
Qed.

Lemma torn_unwritten n a : k <= a -> a + Z.of_nat n <= rsize c -> le_val n v (o + a) = 0.
Proof.
  intros Ha Hn. apply le_val_zero. intros i Hi. rewrite <- Z.add_assoc, Ht by (unfold o in *; lia).
  destruct (Z.ltb_spec (a + i) k); [lia|done].
Qed.

(** Where a field reads as in the record, its bytes are the record's. *)
Lemma torn_field n a : 0 <= a -> a + Z.of_nat n <= rsize c -> le_val n v (o + a) = le_val n r (0 + a) ->
  forall x, a <= x < a + Z.of_nat n -> v (o + x) = r x.
Proof.
  intros Ha Hn He x Hx. apply (le_val_inj n _ _ _ _) with (k := x - a) in He; [|lia].
  replace (o + a + (x - a)) with (o + x) in He by lia. replace (0 + a + (x - a)) with x in He by lia.
  rewrite Ht in * by (unfold o in *; lia). pose proof (is_bytes_record j c x) as Hb. fold r in Hb.
  destruct (Z.ltb_spec x k); [done|]. rewrite (u8_small (r x)) in He by done. exact He.
Qed.

Lemma record_fields :
  le_val 8 r 0 = header_magic /\ le_val 4 r 8 = record_version /\ le_val 4 r 12 = fixed_header_size /\
  le_val 4 r 56 = Z.of_nat (length (c_arrays c)) /\ le_val 4 r 60 = rsize c /\
  le_val 4 r (rsize c - 8) = rsize c /\
  le_val 4 r (rsize c - 4) = Crc32c.compute r 0 (rsize c - 4).
Proof.
  destruct (record_header j c Hj Hc) as [H1 H2 H3 _ _ _ _ _ H4 H5].
  destruct (record_footer j c Hj Hc) as [_ _ H6 H7]. unfold footer_size in *. fold r in H1, H2, H3, H4, H5, H6, H7.
  rewrite get_u64_val in H1. rewrite get_u32_val in H2, H3, H4, H5, H6, H7. rewrite Z.add_0_l in *.
  replace (rsize c - 24 + 16) with (rsize c - 8) in * by lia.
  replace (rsize c - 24 + 20) with (rsize c - 4) in * by lia. auto 10.
Qed.

Lemma torn_no_magic : k < 8 -> get_u64 v o <> header_magic.
Proof.
  intros Hk8 He. rewrite get_u64_val in He. pose proof (rsize_pos c Hc).
  destruct record_fields as (Hm & _). rewrite <- Hm, <- (Z.add_0_r o) in He.
  assert (Hz : v (o + 7) = r 7) by (apply (torn_field 8 0); [lia..|exact He|lia]).
  rewrite Ht in Hz by (unfold o in *; lia). destruct (Z.ltb_spec 7 k); [lia|].
  assert (Hm7 : u8 (Z.shiftr (le_val 8 r 0) (7 * 8)) = u8 (r (0 + 7))) by (apply le_val_byte; lia).
  rewrite Hm, Z.add_0_l, <- Hz in Hm7. discriminate Hm7.
Qed.

(** A torn record that reads as sealed is the whole record. *)
Lemma torn_sealed :
  13 <= k -> well_sized o (get_u32 v (o + 60)) (get_u32 v (o + 56)) = true ->
  sealed v o (get_u32 v (o + 60)) = true -> record_at v j c.
Proof.
  intros Hk13 Hw Hs. destruct record_fields as (_ & _ & _ & Hn & Hz & Hf & Hcrc).
  pose proof (rsize_pos c Hc) as Hp. destruct Hc as (_ & Hlen & Hcap). destruct (rsize_fits c Hcap Hlen) as [Hrs _].
  rewrite !get_u32_val in *.
  destruct (sealed_size_min v o) as [Hmin _]; [rewrite get_u32_val; apply le_val_range|by rewrite !get_u32_val|].
  rewrite get_u32_val in Hmin. apply well_sized_spec in Hw. unfold fixed_header_size, entry_size, footer_size in Hw.
  assert (60 < k). { destruct (Z.le_gt_cases k 60); [|lia]. rewrite torn_unwritten in Hmin by lia. lia. }
  rewrite (torn_written 4 56) in Hw by lia. rewrite Z.add_0_l, Hn in Hw.
  pose proof (torn_le 4 60 ltac:(lia) ltac:(lia)) as Hle. rewrite Z.add_0_l, Hz in Hle.
  assert (Hsz : le_val 4 v (o + 60) = rsize c) by lia. rewrite Hsz in Hs.
  unfold sealed, footer_size in Hs. rewrite !andb_true_iff, !Z.eqb_eq in Hs. destruct Hs as (((_ & _) & Hs) & Hsc).
  rewrite !get_u32_val in *. replace (rsize c - 24 + 16) with (rsize c - 8) in * by lia.
  replace (rsize c - 24 + 20) with (rsize c - 4) in * by lia.
  assert (rsize c - 8 < k). { destruct (Z.le_gt_cases k (rsize c - 8)); [|lia]. rewrite torn_unwritten in Hs by lia. lia. }
  assert (Hbody : forall x, 0 <= x < rsize c - 4 -> v (o + x) = r x).
  { intros x Hx. destruct (Z.lt_ge_cases x (rsize c - 8)) as [Hlt|Hge].
    - rewrite Ht by (unfold o in *; lia). destruct (Z.ltb_spec x k); [done|lia].
    - apply (torn_field 4 (rsize c - 8)); [lia..| |lia]. rewrite Z.add_0_l. congruence. }
  intros x Hx. destruct (Z.lt_ge_cases x (rsize c - 4)); [apply Hbody; lia|].
  apply (torn_field 4 (rsize c - 4)); [lia..| |lia]. rewrite Z.add_0_l, Hcrc, Hsc.
  apply compute_ext. intros i Hi. rewrite Hbody by lia. done.
Qed.

Lemma torn_header : 13 <= k ->
  get_u64 v o = header_magic /\ get_u32 v (o + 8) = record_version /\ get_u32 v (o + 12) = fixed_header_size.
Proof.
  intros Hk13. destruct record_fields as (H1 & H2 & H3 & _). pose proof (rsize_pos c Hc).
  rewrite get_u64_val, !get_u32_val. split_and!.
  - rewrite <- (Z.add_0_r o), (torn_written 8 0) by lia. done.
  - rewrite (torn_written 4 8) by lia. done.
  - rewrite <- H3. apply le_val_ext. intros i Hi. rewrite <- Z.add_assoc, Ht by (unfold o in *; lia).
    destruct (Z.ltb_spec (12 + i) k); [done|].
    assert (Hb := le_val_byte 4 r 12 i ltac:(lia)). rewrite H3 in Hb. fold r. rewrite <- Hb.
    assert (i = 1 \/ i = 2 \/ i = 3) as [->|[->| ->]] by lia; reflexivity.
Qed.
End Torn.

(** The committed state a recovery stands for (all fields but the copied-bytes count). *)
Definition point (r : Recovery) : Z * Z * Z * Z * Z * Z * Z :=
  (rc_top_ref r, rc_version r, rc_logical_size r, rc_tail r, rc_previous_offset r, rc_sequence r, rc_commits r).

(** A crash while the record of commit [c] is being written to journal state
    [st]: the file [file'] holds the first [k] bytes of the record; nothing was
    ever written past the tail; files differ elsewhere only outside the journal. *)
Record torn_crash (chunks : list Z) (st : JState) (c : Commit) (k : Z) (file' : bytes) : Prop := {
  tc_fits : commit_fits c;
  tc_room : m_tail (js_journal st) + rsize c <= capacity;
  tc_prefix : 0 <= k <= rsize c;
  tc_clean : forall o, m_tail (js_journal st) <= o < capacity -> js_rest st o = 0;
  tc_image : same_journal chunks file'
    (stored (jview chunks (js_file st)) (m_tail (js_journal st)) (record_of (js_journal st) c) k) }.

Lemma torn_crash_torn chunks st c k file' :
  jinv chunks st -> torn_crash chunks st c k file' ->
  torn (jview chunks file') (m_tail (js_journal st)) k (record_of (js_journal st) c) /\
  holds (jview chunks file') (base_of (js_journal st)) (js_log st).
Proof.
  intros [Hch Hty Hf Hre Hh Hrest] [Hc Hroom Hk Hz Hv]. destruct Hty as (Htl & _). split.
  - intros x Hx Hcap. rewrite Hv by lia. unfold stored.
    destruct (Z.ltb_spec x k); rdec; try lia; [f_equal; lia|]. rewrite Hrest, Hz by lia. done.
  - eapply holds_ext; [done| |exact Hh]. rewrite <- Hre. intros o Ho. cbn in Ho.
    rewrite Hv by lia. unfold stored. rdec; [lia|done].
Qed.

Lemma torn_scan_start chunks st c k file' file_size top :
  chunks_ok chunks -> jinv chunks st -> torn_crash chunks st c k file' ->
  let ckpt := get_version file' top in
  increasing ckpt (js_log st) -> Forall (arrays_intact file' file_size ckpt) (js_log st) ->
  exists fuel s,
    scan chunks file' file_size top =
      (st ← view_step file' file_size ckpt (jview chunks file') s;
       r ← match st with Continue s' => scan_loop chunks file' file_size ckpt fuel s' | Break s' => Ok s' end;
       Ok (scan_result r)) /\
    capacity - m_tail (js_journal st) < 88 * Z.of_nat (S fuel) /\
    matches s (js_journal st) /\ counts s (js_journal st) /\ ckpt <= sc_version s /\
    (sc_top s, sc_version s, sc_logical s) =
      last_state (top, ckpt, get_logical_file_size file' top) (js_log st).
Proof.
  intros Hok Hi Hcr ckpt Hinc Ha. destruct (torn_crash_torn _ _ _ _ _ Hi Hcr) as [_ Hh].
  destruct Hi as [Hch Hty Hf Hre _ _]. destruct Hcr as [Hc Hroom _ _ _]. destruct (Hty) as (Htl & _).
  pose proof (rsize_pos c Hc). unfold base_of in *. rewrite Hch in *.
  destruct (scan_prefix chunks file' file_size top (js_log st) (m_checkpoint_top_ref (js_journal st))
              (m_checkpoint_version (js_journal st)) (m_checkpoint_logical_size (js_journal st)))
    as (fuel & s & Hs & Hfu & Hm & _ & Hcn & Hge & Hl); rewrite <- ?Hre; try (done || lia).
  rewrite <- Hre in *. exists fuel, s. split_and!; try done.
  rewrite Hs, scan_loop_S by (try done; destruct Hm as (-> & _); lia).
  destruct (Z.leb_spec (sc_offset s + fixed_header_size + footer_size) capacity) as [|Hno].
  - by destruct (view_step _ _ _ _ _) as [[]| |].
  - destruct Hm as (Ho & _). unfold fixed_header_size, footer_size in Hno. lia.
Qed.

Lemma point_of_scan s j st cow :
  matches s j -> counts s j -> (sc_top s, sc_version s, sc_logical s) = st ->
  point (scan_result (mkScan (sc_top s) (sc_version s) (sc_logical s) cow
           (sc_offset s) (sc_previous s) (sc_sequence s) (sc_commits s))) = point (recovery_of j st).
Proof. intros (H1 & H2 & H3) (H4 & _) <-. unfold point, recovery_of, scan_result. cbn. congruence. Qed.

Lemma scan_state_eta s :
  mkScan (sc_top s) (sc_version s) (sc_logical s) (sc_cow s)
    (sc_offset s) (sc_previous s) (sc_sequence s) (sc_commits s) = s.
Proof. by destruct s. Qed.

(** The outcome at the torn record: stop in the old state, or accept the commit. *)
Lemma torn_view_step file file_size ckpt v j c k s :
  journal_typed j -> commit_fits c -> m_tail j + rsize c <= capacity -> 0 <= k <= rsize c ->
  torn v (m_tail j) k (record_of j c) -> ~ 8 <= k <= 12 -> matches s j ->
  exists cow, view_step file file_size ckpt v s =
    stop (mkScan (sc_top s) (sc_version s) (sc_logical s) cow
            (sc_offset s) (sc_previous s) (sc_sequence s) (sc_commits s)) \/
    view_step file file_size ckpt v s =
    Ok (Continue (accept_record ckpt s cow (c_version c) (c_top c) (c_logical c)
                    (u64 (sc_sequence s + 1)) (rsize c))).
Proof.
  intros Hj Hc Hroom Hk Ht Hk' Hm. pose proof Hm as (Ho & _).
  assert (Hold : exists cow, stop s = stop (mkScan (sc_top s) (sc_version s) (sc_logical s) cow
    (sc_offset s) (sc_previous s) (sc_sequence s) (sc_commits s))).
  { exists (sc_cow s). by rewrite scan_state_eta. }
  destruct (Z.lt_ge_cases k 8) as [Hk8|Hk8].
  { destruct Hold as [cow Hcow]. exists cow. left. unfold view_step.
    destruct (Z.eqb_spec (get_u64 v (sc_offset s)) header_magic) as [He|]; [|exact Hcow].
    exfalso. rewrite Ho in He. by apply (torn_no_magic v j c k) in He. }
  destruct (torn_header v j c k) as (H1 & H2 & H3); try (done || lia).
  destruct (well_sized (m_tail j) (get_u32 v (m_tail j + 60)) (get_u32 v (m_tail j + 56)) &&
            sealed v (m_tail j) (get_u32 v (m_tail j + 60))) eqn:Hws.
  - apply andb_true_iff in Hws as [Hw Hs].
    assert (Hr : record_at v j c) by (apply (torn_sealed v j c k); (done || lia)).
    rewrite (view_step_at_record _ _ _ _ j c) by done. destruct (view_check _ _ _ _ _ _ _) as [ok cow].
    exists cow. destruct ok; [by right|]. left. unfold view_reject. cbn [sc_offset].
    destruct (Z.leb_spec (sc_offset s + rsize c + 8) capacity) as [Hin|]; [|done].
    rewrite Ho in *. rewrite get_u64_val, le_val_zero; [done|]. intros i Hi. destruct Hj as (? & _).
    rewrite <- Z.add_assoc, Ht by (pose proof (rsize_pos c Hc); lia).
    destruct (Z.ltb_spec (rsize c + i) k); [lia|done].
  - destruct Hold as [cow Hcow]. exists cow. left. unfold view_step.
    rewrite <- Ho in H1, H2, H3, Hws. by rewrite H1, H2, H3, Hws, !Z.eqb_refl.
Qed.

Lemma increasing_snoc ckpt cs c st :
  snd (fst st) = ckpt -> increasing ckpt (cs ++ [c]) ->
  increasing ckpt cs /\ snd (fst (last_state st cs)) < c_version c.
Proof.
  revert ckpt st. induction cs as [|d cs IH]; intros ckpt st Hst; cbn [app increasing].
  - intros [H _]. cbn. lia.
  - intros [H1 H2]. destruct (IH (c_version d) (c_top d, c_version d, c_logical d) eq_refl H2). done.
Qed.


