(* ===== verification/JournalExamples.v ===== *)
(** * A concrete file with a journal

    A store file with a group top, a registry, a journal descriptor and sixteen
    chunks, on which the theorems about the journal are applied, and a run that
    leaves a stale record at the tail. *)

From S2P Require Import Prelude Bytes Crc32c NodeHeader ArrayDirect Journal Recovery JournalRun.

Definition ex_chunks : list Z := map (fun i => 16777216 + 8388608 * Z.of_nat i) (seq 0 16).

(** A node of 64-bit elements. *)
Fixpoint put_elems (m : bytes) (a : Z) (vs : list Z) : bytes :=
  match vs with [] => m | v :: vs' => put_elems (put_u64 m a v) (a + 8) vs' end.
Definition put_node (m : bytes) (ref : Z) (vs : list Z) : bytes :=
  put_elems (init_header m ref false true false wtype_Bits 64 (Z.of_nat (length vs)) 0) (ref + 8) vs.

(** The top of the first checkpoint, of version 5, and of a second, of version 9. *)
Definition ex_top : Z := 4096.
Definition ex_top2 : Z := 28672.

(** The data array each commit names: eight bytes of header, one of data. *)
Definition ex_array : Z := 20480.
Definition ex_array_crc : Z := Eval vm_compute in
  Crc32c.compute (put_node (fun _ => 0) ex_array [7]) (ex_array + 4) 12.

Definition ex_file : bytes :=
  let m := put_node (fun _ => 0) ex_top [0; 0; 2 * 33554432 + 1; 0; 0; 0; 2 * 5 + 1; 2 * 1 + 1; 8192; 1] in
  let m := put_node m 8192 [0; 0; 0; 12288] in
  let m := put_node m 12288 ex_chunks in
  let m := put_node m ex_top2 [0; 0; 2 * 33554432 + 1; 0; 0; 0; 2 * 9 + 1; 2 * 1 + 1; 8192; 1] in
  put_u32 (put_node m ex_array [7]) ex_array ex_array_crc.

Definition ex_written : WrittenArray := mkWrittenArray ex_array 16 ex_array_crc.
Definition ex_commit (version : Z) (n : nat) : Commit :=
  mkCommit version 24576 33554432 (repeat ex_written n).

Definition ex_base : CommitJournal := base_journal ex_chunks ex_top 5 33554432.
Definition ex_start : JState := jstart ex_chunks ex_top 5 33554432 ex_file.

(** Steps of the machine, as functions. *)
Definition do_append (st : JState) (c : Commit) : JState :=
  mkJState (advance (js_journal st) c) (fst (append (js_journal st) false (js_file st) c))
    (js_log st ++ [c]) (js_rest st).

Definition do_reset (st : JState) (top version logical : Z) : JState :=
  let file' := fst (fst (clear_after_compaction (js_journal st) (js_file st) top version logical)) in
  mkJState (base_journal (m_chunks (js_journal st)) top version logical) file' []
    (jview (m_chunks (js_journal st)) file').

Lemma do_append_step chunks st c :
  chunks_ok chunks -> jinv chunks st -> commit_fits c -> m_tail (js_journal st) + rsize c <= capacity ->
  jstep st (do_append st c).
Proof.
  intros Hok [Hch Hty _ _ _ _] Hc Hroom. destruct st as [j file log rest]. cbn in *. subst chunks.
  destruct (append_room j false file c Hty Hc Hroom Hok) as (file' & Ha & _).
  unfold do_append. cbn [js_journal js_file js_log js_rest]. rewrite Ha. cbn [fst].
  apply (js_append j file log rest c file' (pending j c)); [|done]. destruct Hc as (? & ? & _). done.
Qed.

Lemma do_reset_step chunks st top version logical :
  chunks_ok chunks -> jinv chunks st -> jstep st (do_reset st top version logical).
Proof.
  intros Hok [Hch _ _ _ _ _]. destruct st as [j file log rest]. cbn in *. subst chunks.
  destruct (write_bytes_spec (m_chunks j) file 0 (fun _ => 0) 8) as (file' & Hw & _); [done|..].
  1-3: rewrite ?capacity_eq, ?chunk_size_eq; lia.
  unfold do_reset, clear_after_compaction. cbn [js_journal js_file]. rewrite Hw. cbn [fst].
  apply (js_reset j file log rest top version logical). unfold clear_after_compaction. by rewrite Hw.
Qed.

Lemma ex_chunks_ok : chunks_ok ex_chunks.
Proof.
  split; [reflexivity|]. unfold ex_chunks. intros i j a b.
  rewrite !list_lookup_fmap. intros Hi Hj Hne.
  apply fmap_Some in Hi as (x & Hx & ->). apply fmap_Some in Hj as (y & Hy & ->).
  apply lookup_seq in Hx as [-> _]. apply lookup_seq in Hy as [-> _].
  rewrite chunk_size_eq. unfold header_size. lia.
Qed.

Lemma ex_commit_fits version n : 0 <= version < 2 ^ 64 -> (n <= 100)%nat -> commit_fits (ex_commit version n).
Proof.
  intros Hv Hn. unfold commit_fits, commit_typed, rsize. cbn [c_arrays c_version c_top c_logical ex_commit].
  rewrite repeat_length, required_size_small, capacity_eq, chunk_size_eq by lia.
  split_and!; try lia. apply Forall_forall. intros w Hw%repeat_spec. subst w. unfold array_typed. cbn. unfold ex_array, ex_array_crc. lia.
Qed.

Lemma ex_rsize version n : (n <= 100)%nat -> rsize (ex_commit version n) = 88 + 16 * Z.of_nat n.
Proof.
  intros. unfold rsize. cbn [c_arrays ex_commit]. rewrite repeat_length, required_size_small by lia. done.
Qed.

(** One commit on the fresh journal. *)
Definition ex_one : JState := do_append ex_start (ex_commit 6 1).

Lemma ex_start_inv : jinv ex_chunks ex_start.
Proof. eapply jinv_reach; [apply ex_chunks_ok|apply jreach_refl]. Qed.

Lemma ex_one_reach : jreach ex_start ex_one.
Proof.
  eapply jreach_step; [apply jreach_refl|]. apply (do_append_step ex_chunks).
  - apply ex_chunks_ok.
  - apply ex_start_inv.
  - by apply ex_commit_fits; [lia|lia].
  - rewrite ex_rsize, capacity_eq, chunk_size_eq by lia. cbn. lia.
Qed.

Lemma ex_intact file ckpt version n :
  array_ok file 33554432 ex_written -> arrays_intact file 33554432 ckpt (ex_commit version n).
Proof. intros H _. apply Forall_forall. intros w Hw%repeat_spec. by subst w. Qed.

Ltac ex_array_ok :=
  repeat (apply Forall_cons; [apply ex_intact; unfold array_ok; split_and!; vm_compute; (reflexivity || discriminate)|]);
  apply Forall_nil.


Lemma checkpoint_guard_witness :
  exists file', append (js_journal ex_one) false (js_file ex_one) (ex_commit 7 1) =
    (file', Ok (pending (js_journal ex_one) (ex_commit 7 1))).
Proof.
  destruct (checkpoint_guard ex_chunks ex_top 5 33554432 ex_file ex_one (ex_commit 7 1) 16 ex_chunks_ok ex_one_reach)
    as (file' & Ha & _).
  - destruct (ex_commit_fits 7 1 ltac:(lia) ltac:(lia)) as (? & ? & _). split; assumption.
  - vm_compute. reflexivity.
  - exists file'. exact Ha.
Defined.

(** ** A torn second commit *)

Lemma put_elems_frame m a vs x : a + 8 * Z.of_nat (length vs) <= x -> put_elems m a vs x = m x.
Proof.
  revert m a. induction vs as [|v vs IH]; intros m a Hx; [done|]. cbn [put_elems length] in *.
  rewrite IH by lia. unfold put_u64. rewrite put_loop_at. rdec; [lia|done].
Qed.

Lemma put_node_frame m ref vs x : ref + 8 + 8 * Z.of_nat (length vs) <= x -> put_node m ref vs x = m x.
Proof.
  intros Hx. unfold put_node. rewrite put_elems_frame by lia. apply init_header_frame. unfold header_size. lia.
Qed.

Lemma ex_file_clean o : 0 <= o < capacity -> jview ex_chunks ex_file o = 0.
Proof.
  intros Ho. unfold jview. destruct (chunk_lookup ex_chunks o ex_chunks_ok Ho) as (c & Hc & ->).
  unfold ex_chunks in Hc. rewrite list_lookup_fmap in Hc. apply fmap_Some in Hc as (i & Hi & ->).
  assert (0 <= o mod chunk_size) by (apply Z.mod_pos_bound; rewrite chunk_size_eq; lia).
  unfold ex_file. unfold put_u32. rewrite put_loop_at.
  unfold header_size, ex_array, ex_top, ex_top2 in *.
  rdec; [lia|]. rewrite !put_node_frame by (cbn [length map seq ex_chunks]; lia). done.
Qed.

Definition ex_torn_file (k : Z) : bytes :=
  fst (write_bytes ex_chunks (js_file ex_one) 104 (record_of (js_journal ex_one) (ex_commit 7 1)) k).

Lemma ex_torn_crash k : 0 <= k <= 104 -> torn_crash ex_chunks ex_one (ex_commit 7 1) k (ex_torn_file k).
Proof.
  intros Hk. assert (Htail : m_tail (js_journal ex_one) = 104) by (vm_compute; reflexivity).
  assert (Hsz : rsize (ex_commit 7 1) = 104) by (rewrite ex_rsize by lia; done). split.
  - by apply ex_commit_fits; [lia|lia].
  - rewrite Htail, Hsz, capacity_eq, chunk_size_eq. lia.
  - by rewrite Hsz.
  - rewrite Htail. intros o Ho. apply ex_file_clean. lia.
  - rewrite Htail. unfold ex_torn_file.
    destruct (write_bytes_spec ex_chunks (js_file ex_one) 104 (record_of (js_journal ex_one) (ex_commit 7 1)) k)
      as (file' & -> & Hv & _); [apply ex_chunks_ok|lia|lia|rewrite capacity_eq, chunk_size_eq; lia|].
    intros o Ho. rewrite Hv by done. reflexivity.
Qed.



Lemma scan_total_witness :
  (exists r, scan ex_chunks ex_file 33554432 ex_top = Ok r) \/
  (exists m, scan ex_chunks ex_file 33554432 ex_top = Throw (InvalidDatabase m)).
Proof. exact (scan_total ex_chunks ex_file 33554432 ex_top ex_chunks_ok). Defined.

Lemma scan_sound_result_witness :
  exists o, record_backs (js_file ex_one) 33554432 (jview ex_chunks (js_file ex_one)) o.
Proof.
  destruct (scan_sound_result ex_chunks (js_file ex_one) 33554432 ex_top
              (mkRecovery 24576 6 33554432 104 0 1 1 16) ex_chunks_ok) as (_ & [(Ht & _)|(o & _ & _ & _ & Ho & _)]).
  - vm_compute. reflexivity.
  - discriminate Ht.
  - exists o. exact Ho.
Defined.

(** ** A stale record

    Four one-array commits (104 bytes each), a checkpoint and reset, and one
    commit of fourteen arrays (312 bytes): its record ends where the old fourth
    record still lies. *)

Definition ex_stale : JState :=
  let st := do_append ex_start (ex_commit 6 1) in
  let st := do_append st (ex_commit 7 1) in
  let st := do_append st (ex_commit 8 1) in
  let st := do_append st (ex_commit 9 1) in
  let st := do_reset st ex_top2 9 33554432 in
  do_append st (ex_commit 10 14).

Lemma ex_append_reach st version n :
  jreach ex_start st -> 0 <= version < 2 ^ 64 -> (n <= 100)%nat -> m_tail (js_journal st) <= 100000 ->
  jreach ex_start (do_append st (ex_commit version n)).
Proof.
  intros Hr Hv Hn Ht. eapply jreach_step; [exact Hr|]. apply (do_append_step ex_chunks).
  - apply ex_chunks_ok.
  - by eapply jinv_reach; [apply ex_chunks_ok|].
  - by apply ex_commit_fits.
  - rewrite ex_rsize, capacity_eq, chunk_size_eq by lia. lia.
Qed.

Lemma ex_reset_reach st top version logical :
  jreach ex_start st -> jreach ex_start (do_reset st top version logical).
Proof.
  intros Hr. eapply jreach_step; [exact Hr|]. apply (do_reset_step ex_chunks); [apply ex_chunks_ok|].
  by eapply jinv_reach; [apply ex_chunks_ok|].
Qed.

Lemma ex_stale_reach : jreach ex_start ex_stale.
Proof.
  unfold ex_stale. apply ex_append_reach; [apply ex_reset_reach|lia|lia|cbn; lia].
  repeat (apply ex_append_reach; [|lia|lia|vm_compute; discriminate]). apply jreach_refl.
Qed.

(** Claim C40: a reset leaves the old records in place, and the scan can run into
    one.  There is a reachable state, with its one commit since the checkpoint
    intact on disk, that [CommitJournal::open] refuses with a chain error. *)
Theorem stale_record_refused :
  exists st file_size top,
    jreach (jstart ex_chunks ex_top 5 33554432 ex_file) st /\
    open_at_checkpoint (js_file st) top = Ok (Some (base_of (js_journal st))) /\
    increasing (get_version (js_file st) top) (js_log st) /\
    Forall (arrays_intact (js_file st) file_size (get_version (js_file st) top)) (js_log st) /\
    open (js_file st) file_size top = Throw bad_chain.
Proof.
  exists ex_stale, 33554432, ex_top2. split; [exact ex_stale_reach|].
  split; [vm_compute; reflexivity|].
  replace (get_version _ _) with 9 by (vm_compute; reflexivity). split; [cbn; lia|].
  split; [ex_array_ok|]. vm_compute. reflexivity.
Qed.
