(* ===== verification/Tx.v ===== *)
(** * Transactions of the store and the registry of named roots

    A [Tx] (include/llbt/core.hpp) wraps an engine transaction.  It guards what
    the holder may do with it: only a write transaction may change anything, and
    a transaction that a batch of closures shares may not be ended by one of them.
    The registry (core/store.cpp) keeps three parallel sequences, the names, the
    root references and the type tags; opening a root with the wrong element type
    is refused. *)

From stdpp Require Import strings.
From S2P Require Import Prelude.

(** ** The life of a transaction *)

Inductive Stage := transact_Ready | transact_Reading | transact_Writing | transact_Frozen.

#[export] Instance Stage_eq_dec : EqDecision Stage.
Proof. solve_decision. Defined.

(** [tx_env] stands for what the engine decides while the transaction runs, such
    as the addresses of new nodes. *)
Record Tx (D O : Type) := mkTx {
  m_writable : bool;
  m_batched : bool;
  m_stage : Stage;
  tx_data : D;
  tx_env : O }.
Arguments mkTx {D O} _ _ _ _ _.
Arguments m_writable {D O} _.
Arguments m_batched {D O} _.
Arguments m_stage {D O} _.
Arguments tx_data {D O} _.
Arguments tx_env {D O} _.

Section Lifecycle.
Context {D O : Type}.
Implicit Type tx : Tx D O.

Definition set_batched (b : bool) tx : Tx D O := mkTx (m_writable tx) b (m_stage tx) (tx_data tx) (tx_env tx).
Definition set_stage (st : Stage) tx : Tx D O := mkTx (m_writable tx) (m_batched tx) st (tx_data tx) (tx_env tx).
Definition set_data (d : D) tx : Tx D O := mkTx (m_writable tx) (m_batched tx) (m_stage tx) d (tx_env tx).

(** The transaction [DB::start_write] hands out, wrapped by the constructor of
    [Tx]. *)
Definition begin_tx (d : D) (o : O) : Tx D O := mkTx true false transact_Writing d o.

Definition require_write tx : result unit := if m_writable tx then Ok tt else Throw LogicError.
Definition require_not_batched tx : result unit := if m_batched tx then Throw LogicError else Ok tt.

(** The checks of [Tx::commit], then that of [Transaction::commit]. *)
Definition commit_check tx : result unit :=
  _ ← require_write tx;
  _ ← require_not_batched tx;
  if bool_decide (m_stage tx = transact_Writing) then Ok tt else Throw LogicError.

(** [Tx::rollback] over [Transaction::rollback], which does nothing when the
    transaction has ended. *)
Definition rollback tx : result (Tx D O) :=
  _ ← require_write tx;
  _ ← require_not_batched tx;
  match m_stage tx with
  | transact_Ready => Ok tx
  | transact_Reading | transact_Frozen => Throw LogicError
  | transact_Writing => Ok (set_stage transact_Ready tx)
  end.

(** The destructor rolls back a write transaction that is still open: does it
    release the write lock? *)
Definition dtor_rolls_back tx : bool := m_writable tx && bool_decide (m_stage tx = transact_Writing).

(** While a batch shares the transaction neither call gets through. *)
Lemma batched_guard tx : m_batched tx = true -> commit_check tx = Throw LogicError /\ rollback tx = Throw LogicError.
Proof. destruct tx as [[] b st d o]; cbn; intros ->; done. Qed.

End Lifecycle.

(** ** The registry *)

Inductive elem_type := ty_int64 | ty_float | ty_double | ty_string | ty_binary | ty_timestamp.

Definition type_tag (T : elem_type) : Z :=
  match T with
  | ty_int64 => 1 | ty_float => 2 | ty_double => 3 | ty_string => 4 | ty_binary => 5 | ty_timestamp => 6
  end.
Definition raw_type_tag : Z := 0.

Module Registry.

(** [attached] is [names.is_attached()]; [destroyed] collects the references
    handed to [Array::destroy_deep]. *)
Record t := mk {
  attached : bool;
  names : list string;
  roots : list Z;
  types : list Z;
  writable : bool;
  destroyed : list Z }.

(** What the history slot of the top array refers to: nothing in a fresh file. *)
Definition slot : Type := option (list string * list Z * list Z).

Definition bind_read (h : slot) : t :=
  match h with
  | None => mk false [] [] [] false []
  | Some (n, r, y) => mk true n r y false []
  end.

Definition bind_write (h : slot) : t :=
  match h with
  | None => mk true [] [] [] true []
  | Some (n, r, y) => mk true n r y true []
  end.

(** What a commit leaves in the slot. *)
Definition anchored (g : t) : slot := if attached g then Some (names g, roots g, types g) else None.

Fixpoint find_first (n : string) (l : list string) : option nat :=
  match l with
  | [] => None
  | x :: l => if decide (x = n) then Some 0%nat else S <$> find_first n l
  end.

Definition count (g : t) : nat := if attached g then length (names g) else 0.
Definition find (n : string) (g : t) : option nat := if attached g then find_first n (names g) else None.
Definition name (i : nat) (g : t) : option string := names g !! i.
Definition root (i : nat) (g : t) : option Z := roots g !! i.
Definition type (i : nat) (g : t) : option Z := types g !! i.

Definition add (n : string) (tag : Z) (g : t) : t * nat :=
  (mk (attached g) (names g ++ [n]) (roots g ++ [0]) (types g ++ [tag]) (writable g) (destroyed g), length (names g)).

Definition destroy_deep (r : Z) (g : t) : t :=
  mk (attached g) (names g) (roots g) (types g) (writable g) (destroyed g ++ [r]).

Definition set_as_ref (i : nat) (r : Z) (g : t) : t :=
  mk (attached g) (names g) (<[i := r]> (roots g)) (types g) (writable g) (destroyed g).

Definition set_root_ref (i : nat) (ref : Z) (g : t) : t :=
  let old := nth i (roots g) 0 in
  let g := if negb (old =? 0) && negb (old =? ref) then destroy_deep old g else g in
  set_as_ref i ref g.

Definition erase (i : nat) (g : t) : t :=
  let old := nth i (roots g) 0 in
  let g := if negb (old =? 0) then destroy_deep old g else g in
  mk (attached g) (delete i (names g)) (delete i (roots g)) (delete i (types g)) (writable g) (destroyed g).

End Registry.

(** ** Named roots through a transaction

    The environment of the transaction is the supply of addresses the allocator
    hands out; it may run dry, as when the file cannot grow. *)

Abbreviation RTx := (Tx Registry.t (list Z)).

Definition reg_op (f : Registry.t -> Registry.t) (tx : RTx) : RTx := set_data (f (tx_data tx)) tx.

Definition alloc_ref (tx : RTx) : result Z * RTx :=
  match tx_env tx with
  | [] => (Throw MaximumFileSizeExceeded, tx)
  | r :: rest => (Ok r, mkTx (m_writable tx) (m_batched tx) (m_stage tx) (tx_data tx) rest)
  end.

Definition get_root (n : string) (tx : RTx) : option Z :=
  match Registry.find n (tx_data tx) with
  | None => None
  | Some i => Registry.root i (tx_data tx)
  end.

Definition set_root (n : string) (ref : Z) (tx : RTx) : result RTx :=
  _ ← require_write tx;
  match Registry.find n (tx_data tx) with
  | None =>
      let '(g, i) := Registry.add n raw_type_tag (tx_data tx) in
      Ok (set_data (Registry.set_root_ref i ref g) tx)
  | Some i =>
      if bool_decide (Registry.type i (tx_data tx) <> Some raw_type_tag) then Throw LogicError
      else Ok (reg_op (Registry.set_root_ref i ref) tx)
  end.

Definition erase_root (n : string) (tx : RTx) : result (bool * RTx) :=
  _ ← require_write tx;
  match Registry.find n (tx_data tx) with
  | None => Ok (false, tx)
  | Some i => Ok (true, reg_op (Registry.erase i) tx)
  end.

(** The accessor [Tx::tree] returns: its slot among the roots, its element type
    and the root it was opened at. *)
Record Tree := mkTree { tr_slot : nat; tr_type : elem_type; tr_ref : Z; tr_writable : bool }.

(** The new root is written to the slot of the parent by [bt->create()].  A name
    that was added stays in the registry when the allocation fails. *)
Definition open_tree (i : nat) (T : elem_type) (tx : RTx) : result Tree * RTx :=
  let ref := default 0 (Registry.root i (tx_data tx)) in
  if negb (ref =? 0) then (Ok (mkTree i T ref (m_writable tx)), tx)
  else
    match require_write tx with
    | Ok _ =>
        match alloc_ref tx with
        | (Ok r, tx) => (Ok (mkTree i T r (m_writable tx)), reg_op (Registry.set_as_ref i r) tx)
        | (_, tx) => (Throw MaximumFileSizeExceeded, tx)
        end
    | _ => (Throw LogicError, tx)
    end.

Definition tree (T : elem_type) (n : string) (tx : RTx) : result Tree * RTx :=
  match Registry.find n (tx_data tx) with
  | None =>
      match require_write tx with
      | Ok _ =>
          let '(g, i) := Registry.add n (type_tag T) (tx_data tx) in
          open_tree i T (set_data g tx)
      | _ => (Throw LogicError, tx)
      end
  | Some i =>
      if bool_decide (Registry.type i (tx_data tx) <> Some (type_tag T)) then (Throw LogicError, tx)
      else open_tree i T tx
  end.

(** A change of the tree may copy its root to a new address, which the tree's parent
    entry then refers to; a read-only tree refuses. *)
Definition tree_write (h : Tree) (copied : bool) (tx : RTx) : result Tree * RTx :=
  if negb (tr_writable h) then (Throw LogicError, tx)
  else if negb copied then (Ok h, tx)
  else
    match alloc_ref tx with
    | (Ok r, tx) =>
        (Ok (mkTree (tr_slot h) (tr_type h) r (tr_writable h)), reg_op (Registry.set_as_ref (tr_slot h) r) tx)
    | (_, tx) => (Throw MaximumFileSizeExceeded, tx)
    end.
