(* ===== verification/TxTheorems.v ===== *)
(** * The registry: theorems

    A transaction runs any sequence of operations on named roots.  Besides the
    registry the state has what the pages at each address hold, as a type tag, and the
    tree accessors that are in use. *)

From stdpp Require Import strings.
From S2P Require Import Prelude Tx.

Record TState := mkTS { ts_tx : RTx; ts_pages : Z -> Z; ts_trees : list Tree }.

Inductive Op :=
| OSetRoot (n : string) (ref : Z)
| OEraseRoot (n : string)
| OTree (T : elem_type) (n : string)
| OWrite (k : nat) (copied : bool)
| OCommit (env : list Z).

Definition put (r y : Z) (pages : Z -> Z) : Z -> Z := fun x => if x =? r then y else pages x.

(** The tree [tree] returns was made by this call when the allocator was asked. *)
Definition created (tx tx' : RTx) : bool := negb (length (tx_env tx) =? length (tx_env tx'))%nat.

(** Erasing a root invalidates the accessors.  A commit ends the transaction; the next
    one binds to what it left, with new addresses to hand out. *)
Definition run_op (o : Op) (st : TState) : TState :=
  let tx := ts_tx st in
  match o with
  | OSetRoot n ref =>
      match set_root n ref tx with
      | Ok tx' => mkTS tx' (if ref =? 0 then ts_pages st else put ref raw_type_tag (ts_pages st)) (ts_trees st)
      | _ => st
      end
  | OEraseRoot n =>
      match erase_root n tx with
      | Ok (true, tx') => mkTS tx' (ts_pages st) []
      | _ => st
      end
  | OTree T n =>
      match tree T n tx with
      | (Ok h, tx') =>
          mkTS tx' (if created tx tx' then put (tr_ref h) (type_tag T) (ts_pages st) else ts_pages st) (ts_trees st ++ [h])
      | (_, tx') => mkTS tx' (ts_pages st) (ts_trees st)
      end
  | OWrite k copied =>
      match ts_trees st !! k with
      | None => st
      | Some h =>
          match tree_write h copied tx with
          | (Ok h', tx') =>
              mkTS tx' (if created tx tx' then put (tr_ref h') (type_tag (tr_type h')) (ts_pages st) else ts_pages st)
                (<[k := h']> (ts_trees st))
          | (_, tx') => mkTS tx' (ts_pages st) (ts_trees st)
          end
      end
  | OCommit env =>
      match commit_check tx with
      | Ok _ => mkTS (begin_tx (Registry.bind_write (Registry.anchored (tx_data tx))) env) (ts_pages st) []
      | _ => st
      end
  end.

(** What the caller of [set_root] owes: the structure is not the root of another
    name, nor space the allocator has still to hand out.  The allocator hands out
    no address twice and none of a page in use. *)
Definition op_ok (o : Op) (st : TState) : Prop :=
  match o with
  | OSetRoot n ref =>
      ref <> 0 -> (ref ∉ tx_env (ts_tx st)) /\
      forall i, Registry.roots (tx_data (ts_tx st)) !! i = Some ref -> Registry.find n (tx_data (ts_tx st)) = Some i
  | OCommit env =>
      NoDup env /\ (0 ∉ env) /\ forall r, r ∈ env -> r ∉ Registry.roots (tx_data (ts_tx st))
  | _ => True
  end.

(** ** The invariant *)

Record typed (st : TState) : Prop := {
  t_write : m_writable (ts_tx st) = true /\ Registry.attached (tx_data (ts_tx st)) = true;
  t_len : length (Registry.roots (tx_data (ts_tx st))) = length (Registry.names (tx_data (ts_tx st))) /\
    length (Registry.types (tx_data (ts_tx st))) = length (Registry.names (tx_data (ts_tx st)));
  t_names : NoDup (Registry.names (tx_data (ts_tx st)));
  t_pages : forall i r y, Registry.roots (tx_data (ts_tx st)) !! i = Some r -> r <> 0 ->
    Registry.types (tx_data (ts_tx st)) !! i = Some y -> ts_pages st r = y;
  t_apart : forall i j r, Registry.roots (tx_data (ts_tx st)) !! i = Some r ->
    Registry.roots (tx_data (ts_tx st)) !! j = Some r -> r <> 0 -> i = j;
  t_supply : NoDup (tx_env (ts_tx st)) /\ (0 ∉ tx_env (ts_tx st)) /\
    forall i r, Registry.roots (tx_data (ts_tx st)) !! i = Some r -> r ∉ tx_env (ts_tx st);
  t_trees : forall h, h ∈ ts_trees st -> Registry.types (tx_data (ts_tx st)) !! tr_slot h = Some (type_tag (tr_type h)) }.

Lemma find_first_Some n l i : Registry.find_first n l = Some i -> l !! i = Some n.
Proof.
  revert i. induction l as [|x l IH]; intros i; cbn; [done|]. case_decide as E; [intros [= <-]; by subst|].
  destruct (Registry.find_first n l) as [j|]; cbn; [|done]. intros [= <-]. by apply IH.
Qed.

Lemma find_first_None n l : Registry.find_first n l = None <-> n ∉ l.
Proof.
  induction l as [|x l IH]; cbn; [split; [intros _; apply not_elem_of_nil|done]|].
  rewrite not_elem_of_cons. case_decide as E; [split; [done|intros [? ?]; congruence]|].
  destruct (Registry.find_first n l) as [j|]; cbn; [|split; [intros _; split; [congruence|by apply IH]|done]].
  split; [done|]. intros [_ H]. by apply IH in H.
Qed.

(** Writing a root reference that is new to the registry. *)
Lemma typed_set_ref st tx' i r y pages trees :
  typed st -> (i < length (Registry.roots (tx_data (ts_tx st))))%nat -> Registry.types (tx_data (ts_tx st)) !! i = Some y ->
  (r <> 0 -> pages r = y) -> (forall x, x <> r -> pages x = ts_pages st x) ->
  (r <> 0 -> forall j, Registry.roots (tx_data (ts_tx st)) !! j = Some r -> j = i) ->
  r ∉ tx_env tx' -> NoDup (tx_env tx') -> (forall x, x ∈ tx_env tx' -> x ∈ tx_env (ts_tx st)) ->
  Registry.names (tx_data tx') = Registry.names (tx_data (ts_tx st)) -> Registry.types (tx_data tx') = Registry.types (tx_data (ts_tx st)) ->
  m_writable tx' = true /\ Registry.attached (tx_data tx') = true -> Registry.roots (tx_data tx') = <[i := r]> (Registry.roots (tx_data (ts_tx st))) ->
  (forall h, h ∈ trees -> h ∈ ts_trees st \/ (tr_slot h = i /\ y = type_tag (tr_type h))) ->
  typed (mkTS tx' pages trees).
Proof.
  intros H Hi Hy Hr Hp Hj Hre Hnd Henv En Et Ea Er Htr.
  assert (Hl : forall j x, Registry.roots (tx_data tx') !! j = Some x -> j = i /\ x = r \/ j <> i /\ Registry.roots (tx_data (ts_tx st)) !! j = Some x).
  { intros j x. rewrite Er. destruct (decide (j = i)) as [->|E]; [rewrite list_lookup_insert_eq by done; intros [= <-]; auto|].
    rewrite list_lookup_insert_ne by done. auto. }
  destruct H as [[Hw Ha] Hln Hn Hpg Hap [Hs1 [Hs2 Hs3]] Ht]. split; cbn; rewrite ?En, ?Et, ?Er, ?length_insert; try done.
  - intros j x y' Hx Hx0 Hy'. rewrite <- Er in Hx. destruct (Hl j x Hx) as [[-> ->]|[E Hx']].
    + rewrite Hr by done. congruence.
    + destruct (decide (x = r)) as [->|Exr]; [by apply Hj in Hx'|]. rewrite Hp by done. by eapply Hpg.
  - intros j k x Hjx Hkx Hx0. rewrite <- Er in Hjx, Hkx.
    destruct (Hl j x Hjx) as [[-> ->]|[Ej Hj']], (Hl k _ Hkx) as [[-> Ex]|[Ek Hk']]; [done| | |by eapply Hap].
    + symmetry. by apply Hj.
    + subst x. by apply Hj.
  - split; [done|]. split; [intros H0; by apply Hs2, Henv|]. intros j x Hx. rewrite <- Er in Hx.
    destruct (Hl j x Hx) as [[-> ->]|[E Hx']]; [done|]. intros Hin. by apply (Hs3 j x Hx'), Henv.
  - intros h Hh. destruct (Htr h Hh) as [Hh'|[-> ->]]; [by apply Ht|done].
Qed.

Lemma typed_add st n y : typed st -> n ∉ Registry.names (tx_data (ts_tx st)) ->
  typed (mkTS (set_data (Registry.add n y (tx_data (ts_tx st))).1 (ts_tx st)) (ts_pages st) (ts_trees st)).
Proof.
  intros [Hw [Hl1 Hl2] Hn Hpg Hap (Hs1 & Hs2 & Hs3) Ht] Hnew. split; cbn; try done.
  - rewrite !length_app. cbn. lia.
  - apply list.NoDup_app. split; [done|]. split; [|apply list.NoDup_singleton]. intros x Hx Hx'. apply list_elem_of_singleton in Hx'. congruence.
  - intros i r y' Hi Hr Hy. apply lookup_snoc_Some in Hi as [[Hlt Hi]|[_ <-]]; [|done].
    rewrite lookup_app_l in Hy by lia. by eapply Hpg.
  - intros i j r Hi Hj Hr. apply lookup_snoc_Some in Hi as [[_ Hi]|[_ <-]]; [|done].
    apply lookup_snoc_Some in Hj as [[_ Hj]|[_ <-]]; [by eapply Hap|done].
  - split; [done|]. split; [done|]. intros i r Hi. apply lookup_snoc_Some in Hi as [[_ Hi]|[_ <-]]; [by eapply Hs3|done].
  - intros h Hh. apply Ht in Hh. rewrite lookup_app_l; [done|by eapply lookup_lt_Some].
Qed.

(** The accessor is at the root of its slot, which is for its type. *)
Definition opened (T : elem_type) (h : Tree) (tx : RTx) : Prop :=
  tr_type h = T /\ Registry.types (tx_data tx) !! tr_slot h = Some (type_tag T) /\
  Registry.roots (tx_data tx) !! tr_slot h = Some (tr_ref h) /\ tr_ref h <> 0.

Lemma typed_open st i T : typed st -> Registry.types (tx_data (ts_tx st)) !! i = Some (type_tag T) ->
  match open_tree i T (ts_tx st) with
  | (Ok h, tx') =>
      typed (mkTS tx' (if created (ts_tx st) tx' then put (tr_ref h) (type_tag T) (ts_pages st) else ts_pages st) (ts_trees st ++ [h])) /\
      opened T h tx'
  | (_, tx') => typed (mkTS tx' (ts_pages st) (ts_trees st))
  end.
Proof.
  intros H Hi. destruct (t_len _ H) as [Hl1 Hl2]. pose proof (lookup_lt_Some _ _ _ Hi) as Hlt.
  destruct (lookup_lt_is_Some_2 (Registry.roots (tx_data (ts_tx st))) i) as [r Hr]; [lia|].
  unfold open_tree, Registry.root. rewrite Hr. change (default 0 (Some r)) with r. destruct (Z.eqb_spec r 0) as [->|Hr0]; cbn [negb Z.eqb].
  - unfold require_write, alloc_ref. rewrite (proj1 (t_write _ H)). destruct (tx_env (ts_tx st)) as [|r env] eqn:E; [by destruct st|].
    destruct (t_supply _ H) as (Hs1 & Hs2 & Hs3). rewrite E in Hs1, Hs2, Hs3. apply list.NoDup_cons in Hs1 as [Hs0 Hs1].
    unfold created. rewrite E. cbn [reg_op set_data tx_env length].
    rewrite (proj2 (Nat.eqb_neq (S (length env)) (length env))) by lia.
    cbn [negb tr_ref tr_slot tx_data]. assert (Hr0 : r <> 0) by (intros ->; apply Hs2, list_elem_of_here).
    split; [|split; [done|split; [done|split; [cbn; by rewrite list_lookup_insert_eq by (by eapply lookup_lt_Some)|done]]]].
    eapply (typed_set_ref st _ i r (type_tag T)); try done.
    + by eapply lookup_lt_Some.
    + intros _. unfold put. by rewrite Z.eqb_refl.
    + intros x Hx. unfold put. by rewrite (proj2 (Z.eqb_neq x r)).
    + intros _ j Hj. exfalso. apply (Hs3 j r Hj), list_elem_of_here.
    + intros x Hx. rewrite E. by apply list_elem_of_further.
    + split; [done|apply (t_write _ H)].
    + intros h [Hh|Hh]%elem_of_app; [by left|]. apply list_elem_of_singleton in Hh as ->. by right.
  - unfold created. rewrite Nat.eqb_refl. cbn [negb tr_ref tr_slot]. split; [|done]. destruct H. split; try done. cbn.
    intros h [Hh|Hh]%elem_of_app; [by apply t_trees0|]. by apply list_elem_of_singleton in Hh as ->.
Qed.

Lemma set_root_ref_fields i r g : let g' := Registry.set_root_ref i r g in
  Registry.names g' = Registry.names g /\ Registry.types g' = Registry.types g /\
  Registry.attached g' = Registry.attached g /\ Registry.roots g' = <[i := r]> (Registry.roots g).
Proof. unfold Registry.set_root_ref. by destruct (negb _ && _). Qed.

(** Anchoring a structure at slot [i], which holds raw structures. *)
Lemma typed_set_root st i ref : typed st -> Registry.types (tx_data (ts_tx st)) !! i = Some raw_type_tag ->
  (ref <> 0 -> (ref ∉ tx_env (ts_tx st)) /\ forall j, Registry.roots (tx_data (ts_tx st)) !! j = Some ref -> j = i) ->
  typed (mkTS (reg_op (Registry.set_root_ref i ref) (ts_tx st))
    (if ref =? 0 then ts_pages st else put ref raw_type_tag (ts_pages st)) (ts_trees st)).
Proof.
  intros H Hi Hr. destruct (set_root_ref_fields i ref (tx_data (ts_tx st))) as (F1 & F2 & F3 & F4).
  destruct (t_supply _ H) as (Hs1 & Hs2 & _). destruct (t_len _ H) as [Hl1 Hl2]. pose proof (lookup_lt_Some _ _ _ Hi).
  eapply (typed_set_ref st _ i ref raw_type_tag); try done.
  - lia.
  - intros Hr0. rewrite (proj2 (Z.eqb_neq ref 0)) by done. unfold put. by rewrite Z.eqb_refl.
  - intros x Hx. destruct (ref =? 0); [done|]. unfold put. by rewrite (proj2 (Z.eqb_neq x ref)).
  - intros Hr0. by apply Hr.
  - cbn. destruct (decide (ref = 0)) as [->|Hr0]; [done|]. by apply Hr.
  - split; [apply (t_write _ H)|]. rewrite <- (proj2 (t_write _ H)). exact F3.
  - intros h Hh. by left.
Qed.

Lemma typed_op_set st n ref : typed st -> op_ok (OSetRoot n ref) st -> typed (run_op (OSetRoot n ref) st).
Proof.
  intros H Hok. cbn in *. destruct (t_write _ H) as [Hw Ha]. destruct (t_len _ H) as [Hl1 Hl2]. unfold set_root, require_write. rewrite Hw.
  cbn [mbind result_bind]. unfold Registry.find in *. rewrite Ha in *.
  destruct (Registry.find_first n (Registry.names (tx_data (ts_tx st)))) as [i|] eqn:Ef.
  - case_bool_decide as Et; [by destruct st|]. unfold Registry.type in Et.
    apply (typed_set_root st i ref H Et). intros Hr0. destruct (Hok Hr0) as [? Hj]. split; [done|]. intros j Hx. apply Hj in Hx. congruence.
  - apply find_first_None in Ef. pose proof (typed_add st n raw_type_tag H Ef) as H'. cbn in H'.
    set (st' := mkTS _ _ _) in H'. apply (typed_set_root st' (length (Registry.names (tx_data (ts_tx st)))) ref H').
    + cbn. rewrite <- Hl2, lookup_app_r, Nat.sub_diag by lia. done.
    + intros Hr0. destruct (Hok Hr0) as [? Hj]. split; [done|]. intros j Hx. cbn in Hx.
      apply lookup_snoc_Some in Hx as [[_ Hx]|[-> _]]; [by apply Hj in Hx|done].
Qed.

(** Opening after a step of the registry that kept addresses, pages and accessors. *)
Lemma typed_open_after st tx i T : typed (mkTS tx (ts_pages st) (ts_trees st)) -> tx_env tx = tx_env (ts_tx st) ->
  Registry.types (tx_data tx) !! i = Some (type_tag T) ->
  match open_tree i T tx with
  | (Ok h, tx') =>
      typed (mkTS tx' (if created (ts_tx st) tx' then put (tr_ref h) (type_tag T) (ts_pages st) else ts_pages st) (ts_trees st ++ [h])) /\
      opened T h tx'
  | (_, tx') => typed (mkTS tx' (ts_pages st) (ts_trees st))
  end.
Proof.
  intros H He Hi. pose proof (typed_open _ i T H Hi) as Ho. cbn in Ho.
  destruct (open_tree i T tx) as [[h| |] tx']; try done. unfold created in *. by rewrite He in Ho.
Qed.

Lemma typed_op_tree st T n : typed st ->
  typed (run_op (OTree T n) st) /\ forall h tx', tree T n (ts_tx st) = (Ok h, tx') -> opened T h tx'.
Proof.
  intros H. cbn. destruct (t_write _ H) as [Hw Ha]. destruct (t_len _ H) as [Hl1 Hl2]. unfold tree, require_write, Registry.find.
  rewrite Hw, Ha. destruct (Registry.find_first n (Registry.names (tx_data (ts_tx st)))) as [i|] eqn:Ef.
  - case_bool_decide as Et; [split; [by destruct st|done]|]. unfold Registry.type in Et.
    pose proof (typed_open_after st (ts_tx st) i T) as Ho. destruct st as [tx pg tr]. cbn in *. specialize (Ho H eq_refl Et).
    destruct (open_tree i T tx) as [[h| |] tx']; (split; [by try apply Ho|]); intros h' tx'' [=]; subst. apply Ho.
  - apply find_first_None in Ef. pose proof (typed_add st n (type_tag T) H Ef) as H'. cbn [Registry.add fst] in H'.
    set (tx1 := set_data _ _) in *. pose proof (typed_open_after st tx1 (length (Registry.names (tx_data (ts_tx st)))) T H' eq_refl) as Ho.
    cbn [Registry.add]. fold tx1. destruct (open_tree _ T tx1) as [[h| |] tx'];
      (lapply Ho; [clear Ho; intros Ho|cbn; rewrite <- Hl2, lookup_app_r, Nat.sub_diag by lia; done]);
      (split; [by try apply Ho|]); intros h' tx'' [=]; subst. apply Ho.
Qed.

Lemma delete_lookup {A} (l : list A) i j x : delete i l !! j = Some x -> exists k, l !! k = Some x /\ (k = if decide (j < i)%nat then j else S j).
Proof. case_decide; [rewrite list_lookup_delete_lt by done|rewrite list_lookup_delete_ge by lia]; eauto. Qed.

Lemma typed_op_erase st n : typed st -> typed (run_op (OEraseRoot n) st).
Proof.
  intros H. cbn. destruct (t_write _ H) as [Hw Ha]. unfold erase_root, require_write, Registry.find. rewrite Hw, Ha.
  cbn [mbind result_bind]. destruct (Registry.find_first n _) as [i|] eqn:Ef; [|by destruct st].
  apply find_first_Some, lookup_lt_Some in Ef.
  assert (E : forall g, let g' := Registry.erase i g in Registry.attached g' = Registry.attached g /\
    Registry.names g' = delete i (Registry.names g) /\ Registry.roots g' = delete i (Registry.roots g) /\
    Registry.types g' = delete i (Registry.types g)) by (intros g; unfold Registry.erase; by destruct (negb _)).
  destruct (E (tx_data (ts_tx st))) as (E1 & E2 & E3 & E4). destruct H as [_ [Hl1 Hl2] Hn Hpg Hap (Hs1 & Hs2 & Hs3) Ht].
  split; cbn [ts_tx ts_pages ts_trees reg_op set_data m_writable tx_data tx_env]; rewrite ?E1, ?E2, ?E3, ?E4; try done.
  - rewrite !length_delete by (apply lookup_lt_is_Some_2; lia). lia.
  - eapply (sublist_NoDup _ (Registry.names (tx_data (ts_tx st)))); [done|]. apply sublist_delete.
  - intros j r y (k & Hk & ->)%delete_lookup Hr (k' & Hk' & ->)%delete_lookup. by eapply Hpg.
  - intros j1 j2 r (k & Hk & ->)%delete_lookup (k' & Hk' & ->)%delete_lookup Hr.
    pose proof (Hap _ _ _ Hk Hk' Hr) as E5. do 2 case_decide; lia.
  - split; [done|]. split; [done|]. intros j r (k & Hk & _)%delete_lookup. by eapply Hs3.
  - by intros h ?%elem_of_nil.
Qed.

Lemma typed_op_write st k copied : typed st -> typed (run_op (OWrite k copied) st).
Proof.
  intros H. cbn. destruct (ts_trees st !! k) as [h|] eqn:Ek; [|done]. unfold tree_write, alloc_ref.
  destruct (tr_writable h); cbn [negb]; [|by destruct st].
  unfold created. destruct copied; cbn [negb]; [|rewrite Nat.eqb_refl, list_insert_id by done; by destruct st].
  destruct (tx_env (ts_tx st)) as [|r env] eqn:E; [by destruct st|].
  cbn [reg_op set_data tx_env length]. rewrite (proj2 (Nat.eqb_neq (S (length env)) (length env))) by lia. cbn [negb tr_ref tr_type].
  assert (Hh : h ∈ ts_trees st) by (by eapply list_elem_of_lookup_2). pose proof (t_trees _ H h Hh) as Ht.
  destruct (t_supply _ H) as (Hs1 & Hs2 & Hs3). rewrite E in Hs1, Hs2, Hs3. apply list.NoDup_cons in Hs1 as [Hs0 Hs1].
  destruct (t_len _ H) as [Hl1 Hl2]. pose proof (lookup_lt_Some _ _ _ Ht).
  eapply (typed_set_ref st _ (tr_slot h) r (type_tag (tr_type h))); try done; cbn.
  - lia.
  - intros _. unfold put. by rewrite Z.eqb_refl.
  - intros x Hx. unfold put. by rewrite (proj2 (Z.eqb_neq x r)).
  - intros _ j Hj. exfalso. apply (Hs3 j r Hj), list_elem_of_here.
  - intros x Hx. rewrite E. by apply list_elem_of_further.
  - apply (t_write _ H).
  - intros h' Hh'. apply list_elem_of_lookup in Hh' as [j Hj]. destruct (decide (j = k)) as [->|Ejk].
    + rewrite list_lookup_insert_eq in Hj by (by eapply lookup_lt_Some). injection Hj as <-. by right.
    + rewrite list_lookup_insert_ne in Hj by done. left. by eapply list_elem_of_lookup_2.
Qed.

Lemma typed_op st o : typed st -> op_ok o st -> typed (run_op o st).
Proof.
  intros H Hok. destruct o as [n ref|n|T n|k copied|env].
  - by apply typed_op_set.
  - by apply typed_op_erase.
  - by apply typed_op_tree.
  - by apply typed_op_write.
  - destruct Hok as (Hn & H0 & Hr). cbn. destruct (commit_check (ts_tx st)) as [[]| |]; [|by destruct st..].
    unfold Registry.anchored. rewrite (proj2 (t_write _ H)). destruct H as [_ Hl Hnm Hpg Hap _ _]. split; cbn; try done.
    + split; [done|]. split; [done|]. intros i r Hi Hin. apply (Hr r Hin). by eapply list_elem_of_lookup_2.
    + by intros h ?%elem_of_nil.
Qed.

Lemma find_first_snoc n l : n ∉ l -> Registry.find_first n (l ++ [n]) = Some (length l).
Proof.
  induction l as [|x l IH]; cbn; intros Hn; [by rewrite decide_True|]. apply not_elem_of_cons in Hn as [Hx Hn].
  rewrite decide_False by congruence. by rewrite IH.
Qed.

Lemma open_tree_names i T tx h tx' : open_tree i T tx = (Ok h, tx') ->
  tr_slot h = i /\ Registry.names (tx_data tx') = Registry.names (tx_data tx) /\
  Registry.attached (tx_data tx') = Registry.attached (tx_data tx).
Proof.
  unfold open_tree, require_write, alloc_ref. destruct (negb _); [by intros [= <- <-]|].
  destruct (m_writable tx); [|done]. destruct (tx_env tx); [done|]. by intros [= <- <-].
Qed.

Lemma tree_find st T n h tx' : typed st -> tree T n (ts_tx st) = (Ok h, tx') ->
  Registry.find n (tx_data tx') = Some (tr_slot h).
Proof.
  intros H. destruct (t_write _ H) as [Hw Ha]. unfold tree, Registry.find, require_write. rewrite Hw, Ha.
  destruct (Registry.find_first n (Registry.names (tx_data (ts_tx st)))) as [i|] eqn:Ef.
  - case_bool_decide; [done|]. intros (-> & -> & ->)%open_tree_names. by rewrite Ha.
  - cbn [Registry.add]. intros (-> & -> & ->)%open_tree_names. cbn. rewrite Ha. by apply find_first_snoc, find_first_None.
Qed.

Fixpoint run_ops (l : list Op) (st : TState) : TState := match l with [] => st | o :: l => run_ops l (run_op o st) end.
Fixpoint ops_ok (l : list Op) (st : TState) : Prop := match l with [] => True | o :: l => op_ok o st /\ ops_ok l (run_op o st) end.

Lemma typed_ops l st : typed st -> ops_ok l st -> typed (run_ops l st).
Proof. revert st. induction l as [|o l IH]; intros st H; cbn; [done|]. intros [Ho Hl]. apply IH; [by apply typed_op|done]. Qed.

(** A file that has just been created. *)
Definition fresh_file (env : list Z) (pages : Z -> Z) : TState := mkTS (begin_tx (Registry.bind_write None) env) pages [].

Lemma typed_fresh env pages : NoDup env -> 0 ∉ env -> typed (fresh_file env pages).
Proof. intros Hn H0. split; cbn; try done. 1: constructor. by intros h ?%elem_of_nil. Qed.

(** Claim C28.  Named roots keep their element type.  After any sequence of operations
    and commits on a new file, opening a tree of element type [T] gives pages that
    were written as a tree of [T], and opening the same name with any other
    element type is refused and changes nothing. *)
Theorem tx_roots_typed (env : list Z) (pages : Z -> Z) (l : list Op) (T : elem_type) (n : string) (h : Tree) (tx' : RTx) :
  NoDup env -> 0 ∉ env -> ops_ok l (fresh_file env pages) ->
  let st := run_ops l (fresh_file env pages) in
  tree T n (ts_tx st) = (Ok h, tx') ->
  ts_pages (run_op (OTree T n) st) (tr_ref h) = type_tag T /\
  forall T', T' <> T -> tree T' n tx' = (Throw LogicError, tx').
Proof.
  intros Hn H0 Hl st Ho. assert (H : typed st) by (apply typed_ops; [by apply typed_fresh|done]).
  destruct (typed_op_tree st T n H) as [H' Hop]. destruct (Hop h tx' Ho) as (_ & Ht & Hr & Hr0). split.
  - apply (t_pages _ H' (tr_slot h)); [|done|]; cbn [run_op]; by rewrite Ho.
  - intros T' HT. unfold tree. rewrite (tree_find st T n h tx' H Ho). unfold Registry.type. rewrite Ht.
    rewrite bool_decide_true; [done|]. destruct T, T'; cbn; congruence.
Qed.

Lemma tx_roots_typed_witness :
  let l := [OTree ty_int64 "a"; OSetRoot "b" 900; OWrite 0 true; OCommit [40; 48]; OEraseRoot "b"; OTree ty_string "b"] in
  let st := run_ops l (fresh_file [8; 16; 24] (fun _ => -1)) in
  ts_pages (run_op (OTree ty_int64 "a") st) 16 = 1 /\ (tree ty_double "a" (ts_tx st)).1 = Throw LogicError.
Proof.
  intros l st.
  destruct (tx_roots_typed [8; 16; 24] (fun _ => -1) l ty_int64 "a" (mkTree 0 ty_int64 16 true) (ts_tx st)) as [H1 H2].
  - apply (bool_decide_unpack _). vm_compute. exact I.
  - apply (bool_decide_unpack _). vm_compute. exact I.
  - cbn. split; [done|]. split.
    + intros _. split; [apply (bool_decide_unpack _); vm_compute; exact I|]. intros [|[|i]]; cbn; intros E; simplify_eq.
    + split; [done|]. split; [|done]. split; [apply (bool_decide_unpack _); vm_compute; exact I|].
      split; [apply (bool_decide_unpack _); vm_compute; exact I|].
      intros r Hr Hin. apply list_elem_of_In in Hr, Hin. vm_compute in Hr, Hin.
      intuition congruence.
  - vm_compute. reflexivity.
  - split; [exact H1|]. rewrite (H2 ty_double) by done. done.
Defined.
