(* ===== verification/GroupCommit.v ===== *)
(** * Group commit of the store (core/store.cpp)

    Every call of [Store::write] parks a [Pending] node on a queue.  The first
    thread that finds no leader leads: it takes the write lock of the engine,
    drains the queue, runs the closures in one transaction and commits once.  The
    threads are a transition system: a step is a piece of code between two points
    where another thread may run, that is a critical section of [gc.mutex], or a
    call into the engine.

    A call of [write] is known by its number, in the order of the queue; its
    [Pending] lives on its stack and is gone once the call has returned.  A step
    that would use the node of a call that has returned is not possible in the
    model, so the theorems on progress show that none is ever needed. *)

From S2P Require Import Prelude Tx.

Section Store.
Context {D O : Type}.

(** ** Closures

    What a closure does to its [Tx]: it reads and changes the data, possibly with
    an exception that it may catch; it may try to end the transaction, or to write
    to a store, its own or another. *)

Inductive closure :=
| Return
| Raise (e : Exn)
| Access (f : O -> D -> D * option Exn) (k : D -> option Exn -> closure)
| TxCommit (k : option Exn -> closure)
| TxRollback (k : option Exn -> closure)
| StoreWrite (store : nat) (k : option Exn -> closure).

(** [t_closure_store == this], the check in front of [write] and [begin_write]. *)
Definition in_closure_of (t_closure_store : option nat) (store : nat) : bool :=
  bool_decide (t_closure_store = Some store).

(** A write to another store is outside of this model: it leaves this transaction
    as it is. *)
Fixpoint run_closure (t_closure_store : option nat) (c : closure) (tx : Tx D O) : Tx D O * option Exn :=
  match c with
  | Return => (tx, None)
  | Raise e => (tx, Some e)
  | Access f k =>
      let '(d, r) := f (tx_env tx) (tx_data tx) in
      run_closure t_closure_store (k d r) (set_data d tx)
  | TxCommit k =>
      match commit_check tx with
      | Ok _ => run_closure t_closure_store (k None) (set_stage transact_Ready tx)
      | _ => run_closure t_closure_store (k (Some LogicError)) tx
      end
  | TxRollback k =>
      match rollback tx with
      | Ok tx => run_closure t_closure_store (k None) tx
      | _ => run_closure t_closure_store (k (Some LogicError)) tx
      end
  | StoreWrite store k =>
      run_closure t_closure_store (k (if in_closure_of t_closure_store store then Some LogicError else None)) tx
  end.

(** ** The state *)

Record Pending := mkPending { fn : closure; version : Z; error : option Exn; is_done : bool }.

Definition max_batch : nat := 64.

(** Where the leader is in [lead_batch].  [thrower] is the position of the closure
    that threw, [None] when the commit itself failed. *)
Inductive Lead :=
| LBegin
| LFailed (e : Exn)
| LDrain (tx : Tx D O)
| LRun (batch : list nat) (i : nat) (tx : Tx D O)
| LCommit (batch : list nat) (tx : Tx D O)
| LReset (batch : list nat) (thrower : option nat) (e : Exn) (tx : Tx D O)
| LOne (batch : list nat) (thrower : nat) (e : Exn) (i : nat)
| LOneRun (batch : list nat) (thrower : nat) (e : Exn) (i : nat) (tx : Tx D O)
| LOneCommit (batch : list nat) (thrower : nat) (e : Exn) (i : nat) (tx : Tx D O)
| LFinish (batch : list nat) (r : option (Z + Exn))
| LDone.

(** Where a call of [write] is: asleep on the condition variable, notified but not
    yet running, leading, or back with a version or an exception. *)
Inductive Pc :=
| Parked
| Woken
| Leading (l : Lead)
| Returned (r : Z + Exn).

Inductive Writer := WCall (id : nat) | WOther.

(** The commits so far, for the specification: by the store with the calls they
    contain and whether these were told so, or by another writer of the file. *)
Inductive Entry :=
| ByGroup (v : Z) (o : O) (cs : list (nat * closure)) (acked : bool)
| ByOther (v : Z) (d : D).

Record State := mkState {
  queue : list nat;
  leader_active : bool;
  pcs : list Pc;
  pends : list (option Pending);
  fns : list (option nat * closure);
  db_data : D;
  db_version : Z;
  db_writer : option Writer;
  log : list Entry;
  faults : list Exn }.

Definition set_queue (q : list nat) (s : State) : State :=
  mkState q (leader_active s) (pcs s) (pends s) (fns s) (db_data s) (db_version s) (db_writer s) (log s) (faults s).
Definition set_leader (b : bool) (s : State) : State :=
  mkState (queue s) b (pcs s) (pends s) (fns s) (db_data s) (db_version s) (db_writer s) (log s) (faults s).
Definition set_pcs (l : list Pc) (s : State) : State :=
  mkState (queue s) (leader_active s) l (pends s) (fns s) (db_data s) (db_version s) (db_writer s) (log s) (faults s).
Definition set_pends (l : list (option Pending)) (s : State) : State :=
  mkState (queue s) (leader_active s) (pcs s) l (fns s) (db_data s) (db_version s) (db_writer s) (log s) (faults s).
Definition set_writer (w : option Writer) (s : State) : State :=
  mkState (queue s) (leader_active s) (pcs s) (pends s) (fns s) (db_data s) (db_version s) w (log s) (faults s).
Definition add_fault (e : Exn) (s : State) : State :=
  mkState (queue s) (leader_active s) (pcs s) (pends s) (fns s) (db_data s) (db_version s) (db_writer s) (log s)
    (e :: faults s).

Definition set_pc (id : nat) (x : Pc) (s : State) : State := set_pcs (<[id := x]> (pcs s)) s.
Definition pending (id : nat) (s : State) : option Pending := mjoin (pends s !! id).
Definition set_pending (id : nat) (p : option Pending) (s : State) : State := set_pends (<[id := p]> (pends s)) s.

(** ** The engine

    [DB::start_write] and the commit may throw.  A commit that throws may have
    published the new version, and may have ended the transaction before. *)

Inductive Engine :=
| EOk (o : O)
| EThrow (e : Exn) (published ended : bool).

Definition publish (d : D) (en : Z -> Entry) (s : State) : State :=
  let v := db_version s + 1 in
  mkState (queue s) (leader_active s) (pcs s) (pends s) (fns s) d v (db_writer s) (log s ++ [en v]) (faults s).

(** The data of a commit of the calls [cs] by transaction [tx]. *)
Definition publish_group (cs : list (nat * closure)) (acked : bool) (tx : Tx D O) (s : State) : State :=
  publish (tx_data tx) (fun v => ByGroup v (tx_env tx) cs acked) s.

(** ** [Store::write] *)

(** The [while (!me.done)] loop from its test on, with the mutex held, up to the
    next point where it is released. *)
Definition write_loop (id : nat) (s : State) : option State :=
  p ← pending id s;
  if is_done p then
    Some (set_pc id (Returned (match error p with Some e => inr e | None => inl (version p) end)) (set_pending id None s))
  else if leader_active s then Some (set_pc id Parked s)
  else Some (set_pc id (Leading LBegin) (set_leader true s)).

(** A new call, from a thread whose innermost running closure belongs to
    [t_closure_store]. *)
Definition write (this : nat) (t_closure_store : option nat) (f : closure) (s : State) : option State :=
  let id := length (pcs s) in
  let enter x p := mkState (queue s) (leader_active s) (pcs s ++ [x]) (pends s ++ [p]) (fns s ++ [(t_closure_store, f)])
                     (db_data s) (db_version s) (db_writer s) (log s) (faults s) in
  if in_closure_of t_closure_store this then Some (enter (Returned (inr LogicError)) None)
  else
    let s := enter Woken (Some (mkPending f 0 None false)) in
    write_loop id (set_queue (queue s ++ [id]) s).

(** [cv.wait] with its predicate, for a thread that has been notified. *)
Definition wake (id : nat) (s : State) : option State :=
  p ← pending id s;
  if is_done p || negb (leader_active s) then write_loop id s else Some (set_pc id Parked s).

Definition notify (x : Pc) : Pc := match x with Parked => Woken | _ => x end.
Definition notify_all (s : State) : State := set_pcs (map notify (pcs s)) s.

(** ** [Store::lead_batch] *)

Definition drain (s : State) : list nat * State :=
  (take max_batch (queue s), set_queue (drop max_batch (queue s)) s).

Definition set_result (r : option (Z + Exn)) (p : Pending) : Pending :=
  match r with
  | None => p
  | Some (inl v) => mkPending (fn p) v (error p) (is_done p)
  | Some (inr e) => mkPending (fn p) (version p) (Some e) (is_done p)
  end.
Definition set_done (p : Pending) : Pending := mkPending (fn p) (version p) (error p) true.

Definition update_pending (id : nat) (f : Pending -> Pending) (s : State) : option State :=
  p ← pending id s; Some (set_pending id (Some (f p)) s).

Fixpoint finish (batch : list nat) (r : option (Z + Exn)) (s : State) : option State :=
  match batch with
  | [] => Some s
  | id :: batch => s ← update_pending id (fun p => set_done (set_result r p)) s; finish batch r s
  end.

(** The calls of a batch with their closures, as the log has them. *)
Definition entries (batch : list nat) (s : State) : list (nat * closure) :=
  omap (fun id => (fun p => (id, fn p)) <$> pending id s) batch.

(** [tx->m_batched = false; tx->commit()] for the calls [cs], once the checks have
    passed: the state after it, and the transaction and the exception if it threw. *)
Definition commit_group (cs : list (nat * closure)) (tx : Tx D O) (en : Engine) (s : State) :
    State * (Z + Tx D O * Exn) :=
  let tx := set_batched false tx in
  match commit_check tx with
  | Ok _ =>
      match en with
      | EOk _ => (set_writer None (publish_group cs true tx s), inl (db_version s + 1))
      | EThrow e published ended =>
          let s := add_fault e s in
          let s := if published || ended then publish_group cs false tx s else s in
          if ended then (set_writer None s, inr (set_stage transact_Ready tx, e)) else (s, inr (tx, e))
      end
  | _ => (s, inr (tx, LogicError))
  end.

(** The destructor of the transaction. *)
Definition drop_tx (tx : Tx D O) (s : State) : State := if dtor_rolls_back tx then set_writer None s else s.

Definition lead_step (this id : nat) (l : Lead) (en : Engine) (s : State) : option State :=
  let go l s := Some (set_pc id (Leading l) s) in
  match l with
  | LBegin =>
      if in_closure_of (default None (fst <$> fns s !! id)) this then go (LFailed LogicError) (add_fault LogicError s)
      else match en with
      | EOk o =>
          match db_writer s with
          | None => go (LDrain (begin_tx (db_data s) o)) (set_writer (Some (WCall id)) s)
          | Some _ => None
          end
      | EThrow e _ _ => go (LFailed e) (add_fault e s)
      end
  | LFailed e => let '(batch, s) := drain s in go (LFinish batch (Some (inr e))) s
  | LDrain tx => let '(batch, s) := drain s in go (LRun batch 0 (set_batched true tx)) s
  | LRun batch i tx =>
      match batch !! i with
      | None => go (LCommit batch tx) s
      | Some t =>
          p ← pending t s;
          match run_closure (Some this) (fn p) tx with
          | (tx, None) => go (LRun batch (S i) tx) s
          | (tx, Some e) => go (LReset batch (Some i) e tx) s
          end
      end
  | LCommit batch tx =>
      match commit_group (entries batch s) tx en s with
      | (s, inl v) => go (LFinish batch (Some (inl v))) s
      | (s, inr (tx, e)) => go (LReset batch None e tx) s
      end
  | LReset batch thrower e tx =>
      let s := drop_tx tx s in
      match thrower with
      | None => go (LFinish batch (Some (inr e))) s
      | Some j => if (length batch =? 1)%nat then go (LFinish batch (Some (inr e))) s else go (LOne batch j e 0) s
      end
  | LOne batch j e i =>
      match batch !! i with
      | None => go (LFinish batch None) s
      | Some t =>
          if (i =? j)%nat then s ← update_pending t (set_result (Some (inr e))) s; go (LOne batch j e (S i)) s
          else match en with
          | EOk o =>
              match db_writer s with
              | None =>
                  go (LOneRun batch j e i (set_batched true (begin_tx (db_data s) o))) (set_writer (Some (WCall id)) s)
              | Some _ => None
              end
          | EThrow e' _ _ =>
              s ← update_pending t (set_result (Some (inr e'))) (add_fault e' s); go (LOne batch j e (S i)) s
          end
      end
  | LOneRun batch j e i tx =>
      t ← batch !! i; p ← pending t s;
      match run_closure (Some this) (fn p) tx with
      | (tx, None) => go (LOneCommit batch j e i tx) s
      | (tx, Some e') =>
          s ← update_pending t (set_result (Some (inr e'))) s; go (LOne batch j e (S i)) (drop_tx tx s)
      end
  | LOneCommit batch j e i tx =>
      t ← batch !! i;
      match commit_group (entries [t] s) tx en s with
      | (s, inl v) => s ← update_pending t (set_result (Some (inl v))) s; go (LOne batch j e (S i)) s
      | (s, inr (tx, e')) =>
          s ← update_pending t (set_result (Some (inr e'))) s; go (LOne batch j e (S i)) (drop_tx tx s)
      end
  | LFinish batch r => s ← finish batch r s; go LDone s
  | LDone => write_loop id (notify_all (set_leader false s))
  end.

(** ** The transition system *)

Inductive Action :=
| AWrite (t_closure_store : option nat) (f : closure)
| ACall (id : nat) (en : Engine)
| ASpurious (id : nat)
| AOtherBegin
| AOtherCommit (d : D)
| AOtherEnd.

Definition call_step (this id : nat) (en : Engine) (s : State) : option State :=
  x ← pcs s !! id;
  match x with
  | Parked | Returned _ => None
  | Woken => wake id s
  | Leading l => lead_step this id l en s
  end.

Definition step (this : nat) (a : Action) (s : State) : option State :=
  match a with
  | AWrite t f => write this t f s
  | ACall id en => call_step this id en s
  | ASpurious id => x ← pcs s !! id; match x with Parked => Some (set_pc id Woken s) | _ => None end
  | AOtherBegin => match db_writer s with None => Some (set_writer (Some WOther) s) | Some _ => None end
  | AOtherCommit d =>
      match db_writer s with
      | Some WOther => Some (set_writer None (publish d (fun v => ByOther v d) s))
      | _ => None
      end
  | AOtherEnd => match db_writer s with Some WOther => Some (set_writer None s) | _ => None end
  end.

Definition start (d : D) (v : Z) : State := mkState [] false [] [] [] d v None [] [].

Fixpoint steps (this : nat) (l : list Action) (s : State) : option State :=
  match l with
  | [] => Some s
  | a :: l => s ← step this a s; steps this l s
  end.

(** ** Specification

    The commits, replayed one after the other from the data the store was opened
    with.  Every closure of an entry has to come back without an exception. *)

Fixpoint run_all (this : nat) (l : list closure) (tx : Tx D O) : option (Tx D O) :=
  match l with
  | [] => Some tx
  | c :: l => match run_closure (Some this) c tx with (tx, None) => run_all this l tx | _ => None end
  end.

Fixpoint replay (this : nat) (l : list Entry) (d : D) : option D :=
  match l with
  | [] => Some d
  | ByGroup _ o cs _ :: l =>
      tx ← run_all this (map snd cs) (set_batched true (begin_tx d o)); replay this l (tx_data tx)
  | ByOther _ d :: l => replay this l d
  end.

Definition entry_version (en : Entry) : Z := match en with ByGroup v _ _ _ | ByOther v _ => v end.
Definition entry_ids (en : Entry) : list nat := match en with ByGroup _ _ cs _ => map fst cs | ByOther _ _ => [] end.

End Store.
Arguments closure : clear implicits.
Arguments State : clear implicits.
Arguments Lead : clear implicits.
Arguments Pc : clear implicits.
Arguments Entry : clear implicits.
Arguments Pending : clear implicits.
Arguments Action : clear implicits.
Arguments Engine : clear implicits.
