(* ===== verification/GroupCommitInv.v ===== *)
(** * Group commit: the invariant

    The leader is summed up by a view: the calls it has to bring to an end, those
    of them that may still be committed, those with a result, and whether it holds
    the write lock.  The invariant [ginv] ties the view to the queue, the pending
    nodes, the log and the data; each primitive of the code has one lemma that says
    how it moves the view. *)

From stdpp Require Import sorting.
From S2P Require Import Prelude Tx GroupCommit.

Lemma sorted_drop_middle (a b c : list nat) : StronglySorted lt (a ++ b ++ c) -> StronglySorted lt (a ++ c).
Proof.
  rewrite !StronglySorted_app. intros (H1 & H2 & H3 & _ & H4). repeat split; try done.
  intros x y Hx Hy. apply H1; [done|]. apply elem_of_app. by right.
Qed.

Lemma lookup_snoc_alt {A} (l : list A) x i y : (l ++ [x]) !! i = Some y <-> l !! i = Some y \/ i = length l /\ x = y.
Proof.
  rewrite lookup_snoc_Some. split; [intros [[_ ?]|?]; auto|].
  intros [Hi|?]; [left; split; [by eapply lookup_lt_Some|done]|by right].
Qed.

Section Inv.
Context {D O : Type}.
Implicit Type s : State D O.

(** ** Views *)

Record View := mkView { v_id : nat; v_batch : list nat; v_todo : list nat; v_settled : list nat; v_holds : bool }.

Definition vbatch (V : option View) : list nat := from_option v_batch [] V.
Definition vtodo (V : option View) : list nat := from_option v_todo [] V.
Definition vsettled (V : option View) : list nat := from_option v_settled [] V.

Definition view_of (id : nat) (l : Lead D O) : View :=
  match l with
  | LBegin | LFailed _ | LDone => mkView id [] [] [] false
  | LDrain _ => mkView id [] [] [] true
  | LRun b _ _ | LCommit b _ => mkView id b b [] true
  | LReset b thrower _ tx => mkView id b (if thrower is Some _ then b else []) [] (bool_decide (m_stage tx = transact_Writing))
  | LOne b _ _ i => mkView id b (drop i b) (take i b) false
  | LOneRun b _ _ i _ | LOneCommit b _ _ i _ => mkView id b (drop i b) (take i b) true
  | LFinish b None => mkView id b [] b false
  | LFinish b (Some _) => mkView id b [] [] false
  end.

(** ** Outcomes *)

Definition ids_of (l : list (Entry D O)) : list nat := concat (map entry_ids l).

#[local] Arguments ids_of : simpl never.

Definition acked s (id : nat) (v : Z) : Prop := exists o cs, ByGroup v o cs true ∈ log s /\ id ∈ map fst cs.

(** Where an exception may come from: the engine, the call itself that was made
    inside a closure of the same store, or the closure of the call. *)
Definition blame (this : nat) s (id : nat) (e : Exn) : Prop :=
  e ∈ faults s \/
  exists t f, fns s !! id = Some (t, f) /\
    ((t = Some this /\ e = LogicError) \/ exists tx : Tx D O, (run_closure (Some this) f tx).2 = Some e).

Definition outcome (this : nat) s (id : nat) (r : Z + Exn) : Prop :=
  match r with
  | inl v => acked s id v
  | inr e => (forall v, ~ acked s id v) /\ blame this s id e
  end.

Definition pres (p : Pending D O) : Z + Exn := match error p with Some e => inr e | None => inl (version p) end.

(** The result a call has got so far. *)
Definition result_of s (settled : list nat) (id : nat) : option (Z + Exn) :=
  match pends s !! id with
  | Some None => match pcs s !! id with Some (Returned r) => Some r | _ => None end
  | Some (Some p) => if is_done p || bool_decide (id ∈ settled) then Some (pres p) else None
  | None => None
  end.

Definition fn_of s (id : nat) : option (closure D O) := snd <$> fns s !! id.

(** ** The invariant *)

Record ginv (this : nat) (d0 : D) (v0 : Z) s (V : option View) : Prop := {
  g_len : length (pends s) = length (pcs s) /\ length (fns s) = length (pcs s);
  g_lead : forall id, (exists l, pcs s !! id = Some (Leading l)) <-> v_id <$> V = Some id;
  g_active : leader_active s = bool_decide (is_Some V);
  g_parked : forall id, pcs s !! id = Some Parked -> is_Some V;
  g_ret : forall id, pends s !! id = Some None <-> exists r, pcs s !! id = Some (Returned r);
  g_fn : forall id p, pending id s = Some p -> fn_of s id = Some (fn p);
  g_tls : forall id p, pending id s = Some p -> fst <$> fns s !! id <> Some (Some this);
  g_own : forall id, id ∈ vbatch V ++ queue s <-> exists p, pending id s = Some p /\ is_done p = false;
  g_todo : forall id, id ∈ vtodo V -> id ∈ vbatch V;
  g_settled : forall id, id ∈ vsettled V -> id ∈ vbatch V /\ id ∉ vtodo V;
  g_sort : StronglySorted lt (ids_of (log s) ++ vtodo V ++ queue s);
  g_sortb : StronglySorted lt (vbatch V ++ queue s);
  g_bound : Forall (fun id => id < length (pcs s))%nat (ids_of (log s));
  g_lock : forall id, db_writer s = Some (WCall id) <-> match V with Some W => v_id W = id /\ v_holds W = true | None => False end;
  g_replay : replay this (log s) d0 = Some (db_data s);
  g_version : db_version s = v0 + Z.of_nat (length (log s));
  g_versions : forall i en, log s !! i = Some en -> entry_version en = v0 + 1 + Z.of_nat i;
  g_logfn : forall v o cs a id c, ByGroup v o cs a ∈ log s -> (id, c) ∈ cs -> fn_of s id = Some c;
  g_fresh : forall id p, pending id s = Some p -> is_done p = false -> id ∉ vsettled V -> error p = None;
  g_out : forall id r, result_of s (vsettled V) id = Some r -> outcome this s id r }.

(** What holds of the leader at each point of [lead_batch]. *)
Definition stage_ok (this : nat) s (id : nat) (l : Lead D O) : Prop :=
  match l with
  | LBegin => id ∈ queue s
  | LFailed e => id ∈ queue s /\ e ∈ faults s
  | LDrain tx => id ∈ queue s /\ exists o, tx = begin_tx (db_data s) o
  | LRun b i tx =>
      b <> [] /\ (i <= length b)%nat /\ exists o,
      run_all this (omap (fn_of s) (take i b)) (set_batched true (begin_tx (db_data s) o)) = Some tx
  | LCommit b tx =>
      b <> [] /\ exists o, run_all this (omap (fn_of s) b) (set_batched true (begin_tx (db_data s) o)) = Some tx
  | LReset b thrower e tx =>
      b <> [] /\ m_writable tx = true /\
      match thrower with
      | Some j => (exists t, b !! j = Some t /\ blame this s t e)
      | None => e ∈ faults s /\ forall t, t ∈ b -> forall v, ~ acked s t v
      end
  | LOne b j e i => b <> [] /\ (i <= length b)%nat /\ exists t, b !! j = Some t /\ blame this s t e
  | LOneRun b j e i tx =>
      b <> [] /\ (i < length b)%nat /\ (exists t, b !! j = Some t /\ blame this s t e) /\
      exists o, tx = set_batched true (begin_tx (db_data s) o)
  | LOneCommit b j e i tx =>
      b <> [] /\ (i < length b)%nat /\ (exists t, b !! j = Some t /\ blame this s t e) /\
      exists o c t, b !! i = Some t /\ fn_of s t = Some c /\
        run_all this [c] (set_batched true (begin_tx (db_data s) o)) = Some tx
  | LFinish b r => b <> [] /\ forall t r', t ∈ b -> r = Some r' -> outcome this s t r'
  | LDone => True
  end.

Definition inv (this : nat) (d0 : D) (v0 : Z) s : Prop :=
  exists V, ginv this d0 v0 s V /\
    forall id l, pcs s !! id = Some (Leading l) -> V = Some (view_of id l) /\ stage_ok this s id l.

(** ** Facts the invariant gives *)

Section Facts.
Context {this : nat} {d0 : D} {v0 : Z} {s : State D O} {V : option View} (G : ginv this d0 v0 s V).

Lemma acked_logged id v : acked s id v -> id ∈ ids_of (log s).
Proof.
  intros (o & cs & Hin & Hid). unfold ids_of. apply list_elem_of_In, in_concat. exists (map fst cs).
  split; [|by apply list_elem_of_In]. apply in_map_iff. eexists. split; [|by apply list_elem_of_In]. done.
Qed.

(** A call that may still be committed has not been. *)
Lemma todo_fresh id v : id ∈ vtodo V ++ queue s -> ~ acked s id v.
Proof.
  intros Hid Ha. apply acked_logged in Ha.
  pose proof (StronglySorted_app_1_elem_of _ _ _ _ _ (g_sort _ _ _ _ _ G) Ha Hid). lia.
Qed.

Lemma result_not_todo id r : result_of s (vsettled V) id = Some r -> id ∉ vtodo V.
Proof.
  unfold result_of. intros Hr Hid.
  assert (Hb : id ∈ vbatch V ++ queue s) by (apply elem_of_app; left; by eapply g_todo).
  apply (g_own _ _ _ _ _ G) in Hb as (p & Hp & Hd). unfold pending in Hp.
  destruct (pends s !! id) as [[q|]|]; [|done..]. cbn in Hp. injection Hp as ->. rewrite Hd in Hr. cbn in Hr.
  case_bool_decide as Hs; [|done]. by apply (g_settled _ _ _ _ _ G) in Hs as [_ Hs].
Qed.

Lemma batch_queue_disjoint id : id ∈ vbatch V -> id ∈ queue s -> False.
Proof. intros H1 H2. pose proof (StronglySorted_app_1_elem_of _ _ _ _ _ (g_sortb _ _ _ _ _ G) H1 H2). lia. Qed.

Lemma batch_pending id : id ∈ vbatch V -> exists p, pending id s = Some p /\ is_done p = false.
Proof. intros H. apply (g_own _ _ _ _ _ G), elem_of_app. by left. Qed.

Lemma queue_pending id : id ∈ queue s -> exists p, pending id s = Some p /\ is_done p = false.
Proof. intros H. apply (g_own _ _ _ _ _ G), elem_of_app. by right. Qed.

Lemma pending_lookup id p : pending id s = Some p <-> pends s !! id = Some (Some p).
Proof.
  unfold pending. destruct (pends s !! id) as [[q|]|]; cbn; split; intros H; simplify_eq; done.
Qed.

Lemma leader_view id l : pcs s !! id = Some (Leading l) -> exists W, V = Some W /\ v_id W = id.
Proof.
  intros H. pose proof (proj1 (g_lead _ _ _ _ _ G id) (ex_intro _ l H)) as H'.
  apply fmap_Some in H' as (W & HV & Hid). by exists W.
Qed.

End Facts.

(** ** The primitives *)

Section Moves.
Context {this : nat} {d0 : D} {v0 : Z}.
Implicit Type V : option View.
Implicit Type W : View.

Abbreviation G := (ginv this d0 v0).

Definition with_todo (l : list nat) W : View := mkView (v_id W) (v_batch W) l (v_settled W) (v_holds W).
Definition with_settled (l : list nat) W : View := mkView (v_id W) (v_batch W) (v_todo W) l (v_holds W).
Definition with_holds (b : bool) W : View := mkView (v_id W) (v_batch W) (v_todo W) (v_settled W) b.

(** Moving the leader to another point of its code. *)
Lemma move_pc s W l : G s (Some W) -> G (set_pc (v_id W) (Leading l) s) (Some W).
Proof.
  intros H. destruct (proj2 (g_lead _ _ _ _ _ H (v_id W)) eq_refl) as [l0 Hl0].
  pose proof (lookup_lt_Some _ _ _ Hl0) as Hlt.
  assert (Hpc : forall id, pcs (set_pc (v_id W) (Leading l) s) !! id =
    if decide (id = v_id W) then Some (Leading l) else pcs s !! id).
  { intros id. cbn. case_decide as E; [subst; by rewrite list_lookup_insert_eq|by rewrite list_lookup_insert_ne]. }
  destruct H; split; try done; cbn [set_pc set_pcs pcs] in *; rewrite ?length_insert; try done.
  - intros id. rewrite Hpc. case_decide as E; [subst; split; [done|by eexists]|apply g_lead0].
  - intros id. rewrite Hpc, g_ret0. case_decide as E; [|done]. subst. rewrite Hl0. split; by intros [? [=]].
  - intros id r. unfold result_of. cbn [pends set_pc set_pcs pcs]. rewrite Hpc. intros Hr. apply g_out0. unfold result_of.
    destruct (pends s !! id) as [[p|]|]; [done| |done]. case_decide as E; [done|done].
Qed.

(** Calls are taken off the front of those that may still be committed. *)
Lemma move_todo s W l1 l2 : v_todo W = l1 ++ l2 -> G s (Some W) -> G s (Some (with_todo l2 W)).
Proof.
  intros Hl H. destruct H; cbn in *; rewrite Hl in *; split; try done; cbn.
  - intros id Hid. apply g_todo0. apply elem_of_app. by right.
  - intros id Hid. destruct (g_settled0 id Hid) as [? Hn]. split; [done|]. contradict Hn. apply elem_of_app. by right.
  - rewrite <- app_assoc in g_sort0. by eapply sorted_drop_middle.
Qed.

Lemma move_lock s W : db_writer s = None -> G s (Some W) ->
  G (set_writer (Some (WCall (v_id W))) s) (Some (with_holds true W)).
Proof.
  intros Hw H. destruct H; split; try done; cbn. intros id. split; [by intros [= <-]|by intros [<- _]].
Qed.

Lemma move_unlock s W : G s (Some W) -> G (set_writer None s) (Some (with_holds false W)).
Proof. intros H. destruct H; split; try done; cbn. intros id. by split; [|intros [_ [=]]]. Qed.

Lemma outcome_mono s s' id r :
  (forall e, e ∈ faults s -> e ∈ faults s') -> (forall t c, fns s !! t = Some c -> fns s' !! t = Some c) ->
  (forall v, acked s id v <-> acked s' id v) -> outcome this s id r -> outcome this s' id r.
Proof.
  intros Hf Hn Ha. destruct r as [v|e]; cbn; [apply Ha|]. intros [H1 H2]. split; [intros v; rewrite <- Ha; apply H1|].
  destruct H2 as [H2|(t & f & Hl & H2)]; [left; auto|right]. eauto.
Qed.

Lemma move_fault s V e : G s V -> G (add_fault e s) V.
Proof.
  intros H. destruct H; split; try done. intros id r Hr. eapply outcome_mono; [..|by apply g_out0]; [|done|done].
  intros e' He. by apply list_elem_of_further.
Qed.

Lemma run_data_env (t : option nat) (c : closure D O) (tx : Tx D O) : m_batched tx = true ->
  let tx' := (run_closure t c tx).1 in
  m_writable tx' = m_writable tx /\ m_batched tx' = true /\ m_stage tx' = m_stage tx /\ tx_env tx' = tx_env tx.
Proof.
  revert tx. induction c as [|e|f k IH|k IH|k IH|st k IH]; intros tx Hb; cbn; [done|done| | | |].
  - destruct (f (tx_env tx) (tx_data tx)) as [d r]. by apply (IH d r (set_data d tx)).
  - rewrite (proj1 (batched_guard tx Hb)). by apply IH.
  - rewrite (proj2 (batched_guard tx Hb)). by apply IH.
  - by apply IH.
Qed.

Lemma run_all_env l (tx tx' : Tx D O) : m_batched tx = true -> run_all this l tx = Some tx' ->
  m_writable tx' = m_writable tx /\ m_batched tx' = true /\ m_stage tx' = m_stage tx /\ tx_env tx' = tx_env tx.
Proof.
  revert tx. induction l as [|c l IH]; intros tx Hb; cbn; [by intros [= <-]|].
  pose proof (run_data_env (Some this) c tx Hb) as He. destruct (run_closure (Some this) c tx) as [tx1 [e|]]; [done|].
  cbn in He. destruct He as (H1 & H2 & H3 & H4). intros H. destruct (IH tx1 H2 H) as (H5 & H6 & H7 & H8).
  rewrite <- H1, <- H3, <- H4. done.
Qed.

Lemma run_all_app l1 l2 (tx tx1 : Tx D O) : run_all this l1 tx = Some tx1 ->
  run_all this (l1 ++ l2) tx = run_all this l2 tx1.
Proof.
  revert tx. induction l1 as [|c l1 IH]; intros tx; cbn; [by intros [= ->]|].
  destruct (run_closure (Some this) c tx) as [tx2 [e|]]; [done|]. apply IH.
Qed.

Lemma replay_app l1 l2 (d d1 : D) : replay this l1 d = Some d1 -> @replay D O this (l1 ++ l2) d = replay this l2 d1.
Proof.
  revert d. induction l1 as [|en l1 IH]; intros d; cbn; [by intros [= ->]|]. destruct en as [v o cs a|v d']; [|apply IH].
  destruct (run_all this (map snd cs) _) as [tx|]; cbn; [apply IH|done].
Qed.

Lemma ids_of_app (l1 l2 : list (Entry D O)) : ids_of (l1 ++ l2) = ids_of l1 ++ ids_of l2.
Proof. unfold ids_of. by rewrite map_app, concat_app. Qed.

Lemma versions_app (l : list (Entry D O)) en i en' : (forall i en, l !! i = Some en -> entry_version en = v0 + 1 + Z.of_nat i) ->
  entry_version en = v0 + 1 + Z.of_nat (length l) ->
  (l ++ [en]) !! i = Some en' -> entry_version en' = v0 + 1 + Z.of_nat i.
Proof. intros H1 H2 [[_ H]|[-> <-]]%lookup_snoc_Some; [by apply H1|done]. Qed.

(** A commit of the first calls that may be committed. *)
Lemma move_publish s W cs a (tx tx' : Tx D O) rest : v_todo W = map fst cs ++ rest ->
  (forall id c, (id, c) ∈ cs -> fn_of s id = Some c) ->
  run_all this (map snd cs) (set_batched true (begin_tx (db_data s) (tx_env tx))) = Some tx' -> tx_data tx' = tx_data tx ->
  G s (Some W) -> G (publish_group cs a tx s) (Some (with_todo rest W)).
Proof.
  intros Ht Hfn Hrun Hd H.
  assert (Hack : forall id v, id ∉ map fst cs -> acked s id v <-> acked (publish_group cs a tx s) id v).
  { intros id v Hid. unfold acked. cbn. setoid_rewrite elem_of_app. split; [intros (o & cs' & ? & ?); by eauto|].
    intros (o & cs' & [Hin|Hin] & Hm); [by eauto|]. apply list_elem_of_singleton in Hin. by simplify_eq. }
  pose proof (fun id r => result_not_todo H id r) as Hnt. destruct H; cbn in *. rewrite Ht in *.
  split; try done; cbn.
  - intros id Hid. apply g_todo0, elem_of_app. by right.
  - intros id Hid. destruct (g_settled0 id Hid) as [? Hn]. split; [done|]. contradict Hn. apply elem_of_app. by right.
  - rewrite ids_of_app. unfold ids_of at 2. cbn. rewrite app_nil_r. by rewrite <- !app_assoc in *.
  - rewrite ids_of_app. unfold ids_of at 2. cbn. rewrite app_nil_r. apply Forall_app. split; [done|]. apply Forall_forall. intros id Hid%list_elem_of_In.
    assert (Hb : id ∈ v_batch W ++ queue s) by (apply elem_of_app; left; apply g_todo0; apply elem_of_app; by left).
    apply g_own0 in Hb as (p & Hp & _). unfold pending in Hp. destruct g_len0 as [<- _].
    destruct (pends s !! id) eqn:E; [|done]. by apply lookup_lt_Some in E.
  - rewrite (replay_app _ _ _ _ g_replay0). cbn. rewrite Hrun. cbn. by rewrite Hd.
  - rewrite length_app. cbn. lia.
  - intros i en. apply versions_app; [done|]. cbn. lia.
  - intros v o cs' a' id c Hin Hc. apply elem_of_app in Hin as [Hin|Hin]; [by eapply g_logfn0|].
    apply list_elem_of_singleton in Hin. simplify_eq. by apply Hfn.
  - intros id r Hr. apply (outcome_mono s); [done|done| |by apply g_out0]. intros v. apply Hack.
    intros Hin. apply (Hnt id r Hr), elem_of_app. by left.
Qed.

Lemma lookup_set_pending s id p q t : pending id s = Some p ->
  pends (set_pending id q s) !! t = if decide (t = id) then Some q else pends s !! t.
Proof.
  intros Hp. apply pending_lookup, lookup_lt_Some in Hp. cbn.
  case_decide as E; [subst; by rewrite list_lookup_insert_eq|by rewrite list_lookup_insert_ne].
Qed.

(** A pending node of the batch is replaced, its closure kept.  The batch loses it
    when it is done, otherwise it counts as settled. *)
Lemma move_pending s W W' id p q : pending id s = Some p -> fn q = fn p ->
  id ∈ v_batch W -> id ∉ v_todo W -> v_id W' = v_id W -> v_todo W' = v_todo W -> v_holds W' = v_holds W ->
  (forall t, t ∈ v_batch W' <-> t ∈ v_batch W /\ (t = id -> is_done q = false)) ->
  (forall t, t <> id -> t ∈ v_settled W' <-> t ∈ v_settled W) -> (id ∈ v_settled W' -> is_done q = false) ->
  is_done q = true \/ id ∈ v_settled W' -> StronglySorted lt (v_batch W' ++ queue s) ->
  outcome this s id (pres q) -> G s (Some W) -> G (set_pending id (Some q) s) (Some W').
Proof.
  intros Hp Hfn Hid Hnt E1 E2 E3 Hb Hs Hsi Hres Hso Hout H.
  pose proof (lookup_set_pending s id p (Some q)) as Hl. specialize (fun t => Hl t Hp).
  assert (Hl' : forall t, pending t (set_pending id (Some q) s) = if decide (t = id) then Some q else pending t s).
  { intros t. unfold pending. rewrite Hl. by case_decide. }
  assert (Hnq : id ∉ queue s) by (intros Hq; by apply (batch_queue_disjoint H id)).
  pose proof (proj1 (pending_lookup id p) Hp) as Hpl.
  destruct H; split; cbn in *; rewrite ?E1, ?E2, ?E3, ?length_insert in *; try done.
  - intros t. specialize (Hl t). cbn in Hl. rewrite Hl, <- g_ret0. case_decide; [subst|done]. by rewrite Hpl.
  - intros t p'. rewrite Hl'. case_decide; [subst|apply g_fn0]. intros [= <-]. rewrite Hfn. by apply g_fn0.
  - intros t p'. rewrite Hl'. case_decide; [subst|apply g_tls0]. intros _. by eapply g_tls0.
  - intros t. rewrite Hl', elem_of_app, Hb. case_decide as E.
    + subst t. split; [intros [[_ Hd]|Hq]; [eauto|done]|]. intros (p' & [= <-] & Hd). left. auto.
    + rewrite <- g_own0, elem_of_app. tauto.
  - intros t Ht. rewrite Hb. split; [auto|]. intros ->. done.
  - intros t Ht. destruct (decide (t = id)) as [->|E]; [split; [apply Hb; tauto|done]|].
    rewrite Hs in Ht by done. destruct (g_settled0 t Ht). split; [apply Hb; tauto|done].
  - intros t p'. rewrite Hl'. case_decide as E; [subst|]; [intros [= <-] Hd Hn; destruct Hres; congruence|].
    intros H1 H2 H3. apply (g_fresh0 t p' H1 H2). by rewrite <- Hs.
  - intros t r. unfold result_of. specialize (Hl t). cbn in Hl |- *. rewrite Hl. case_decide as E.
    + subst t. intros Hr. destruct (is_done q || _); [|done]. by injection Hr as <-.
    + intros Hr. apply (g_out0 t r). unfold result_of. destruct (pends s !! t) as [[p'|]|]; [|done..].
      by rewrite (bool_decide_ext _ _ (Hs t E)) in Hr.
Qed.

Lemma set_result_pres r p : error p = None -> pres (set_result (Some r) p) = r :> Z + Exn.
Proof. intros H. destruct r; cbn; unfold pres; cbn; [by rewrite H|done]. Qed.

(** A call of the batch gets its own result. *)
Lemma move_settle s W id r : id ∈ v_batch W -> id ∉ v_todo W -> id ∉ v_settled W -> outcome this s id r -> G s (Some W) ->
  exists s', update_pending id (set_result (Some r)) s = Some s' /\
    G s' (Some (with_settled (v_settled W ++ [id]) W)) /\
    exists p, s' = set_pending id (Some p) s.
Proof.
  intros Hb Ht Hs Ho H. destruct (batch_pending H id Hb) as (p & Hp & Hd). unfold update_pending. rewrite Hp. cbn [mbind option_bind].
  eexists. split; [reflexivity|]. split; [|by eexists].
  eapply (move_pending s W); try done; cbn [with_settled v_batch v_settled].
  - by destruct r.
  - intros t. split; [|tauto]. intros Hi. split; [done|]. intros _. by destruct r.
  - intros t Hn. rewrite elem_of_app, list_elem_of_singleton. tauto.
  - intros _. by destruct r.
  - right. apply elem_of_app. right. by apply list_elem_of_singleton.
  - by apply (g_sortb _ _ _ _ _ H).
  - rewrite set_result_pres; [done|]. by apply (g_fresh _ _ _ _ _ H id p).
Qed.

(** The leader takes the head of the queue. *)
Lemma move_drain s id h : G s (Some (mkView id [] [] [] h)) ->
  G (drain s).2 (Some (mkView id (drain s).1 (drain s).1 [] h)).
Proof.
  intros H. destruct H; split; cbn in *; rewrite ?take_drop; try done.
  by intros id' ?%elem_of_nil.
Qed.

(** The calls that are left get their result all at once, or keep the one they
    have, and are done. *)
Lemma move_done s W t rest r : v_batch W = t :: rest -> v_todo W = [] ->
  match r with
  | None => v_settled W = v_batch W
  | Some r => v_settled W = [] /\ outcome this s t r
  end -> G s (Some W) ->
  exists p, update_pending t (fun p => set_done (set_result r p)) s = Some (set_pending t (Some p) s) /\
    G (set_pending t (Some p) s)
      (Some (mkView (v_id W) rest [] (if r is Some _ then [] else rest) (v_holds W))).
Proof.
  intros Hb Ht Hr H. assert (Hin : t ∈ v_batch W) by (rewrite Hb; apply list_elem_of_here).
  destruct (batch_pending H t Hin) as (p & Hp & Hd). unfold update_pending. rewrite Hp. cbn [mbind option_bind].
  eexists. split; [reflexivity|].
  pose proof (g_sortb _ _ _ _ _ H) as Hso. cbn in Hso. rewrite Hb in Hso. apply StronglySorted_cons in Hso as [Hlt Hso].
  assert (Hnr : t ∉ rest). { intros Hx. rewrite Forall_app in Hlt. destruct Hlt as [Hlt _].
    rewrite Forall_forall in Hlt. specialize (Hlt t). apply list_elem_of_In in Hx. apply Hlt in Hx. lia. }
  eapply (move_pending s W); try done; cbn [v_batch v_todo v_settled v_holds v_id].
  - by destruct r as [[]|].
  - rewrite Ht. apply not_elem_of_nil.
  - intros x. rewrite Hb, elem_of_cons. cbn. split; [intros Hx; split; [by right|by intros ->]|].
    intros [[->|Hx] Hx']; [by specialize (Hx' eq_refl)|done].
  - intros x Hx. destruct r as [r|]; [by destruct Hr as [-> _]|]. rewrite Hr, Hb, elem_of_cons. tauto.
  - destruct r; [by intros ?%elem_of_nil|done].
  - left. done.
  - destruct r as [r|].
    + destruct Hr as [Hr Ho]. replace (pres _) with r; [done|]. symmetry. apply (set_result_pres r p).
      apply (g_fresh _ _ _ _ _ H t p Hp Hd). cbn. rewrite Hr. apply not_elem_of_nil.
    + apply (g_out _ _ _ _ _ H t). unfold result_of. rewrite (proj1 (pending_lookup t p) Hp). cbn. rewrite Hr.
      rewrite bool_decide_true by done. by rewrite orb_true_r.
Qed.

Definition only_pends s s' : Prop := s' = set_pends (pends s') s.

Lemma move_finish b s W r : v_batch W = b -> v_todo W = [] ->
  match r with
  | None => v_settled W = b
  | Some r => v_settled W = [] /\ forall t, t ∈ b -> outcome this s t r
  end -> G s (Some W) ->
  exists s', finish b r s = Some s' /\ G s' (Some (mkView (v_id W) [] [] [] (v_holds W))) /\ only_pends s s'.
Proof.
  revert s W. induction b as [|t b IH]; intros s W Hb Ht Hr H.
  - exists s. cbn. split; [done|]. split; [|by destruct s]. destruct W as [w wb wt ws wh]. cbn in *. subst.
    destruct r; [destruct Hr as [-> _]|subst]; done.
  - destruct (move_done s W t b r Hb Ht) as (p & Hu & H'); [|done|].
    { destruct r; [destruct Hr as [? Hr]; split; [done|]; apply Hr, list_elem_of_here|congruence]. }
    cbn [finish]. rewrite Hu. cbn [mbind option_bind].
    set (W' := mkView (v_id W) b [] (if r is Some _ then [] else b) (v_holds W)) in *.
    destruct (IH (set_pending t (Some p) s) W' eq_refl eq_refl) as (s' & Hf & HG & Hs'); [|done|].
    + cbn. destruct r as [r|]; [|done]. split; [done|]. intros x Hx. apply (outcome_mono s); try done.
      by apply Hr, list_elem_of_further.
    + exists s'. split; [done|]. split; [done|]. unfold only_pends in *. rewrite Hs'. done.
Qed.

(** A thread that has been woken up. *)
Lemma lookup_set_pc s id x y t : pcs s !! id = Some y ->
  pcs (set_pc id x s) !! t = if decide (t = id) then Some x else pcs s !! t.
Proof.
  intros Hp%lookup_lt_Some. cbn.
  case_decide as E; [subst; by rewrite list_lookup_insert_eq|by rewrite list_lookup_insert_ne].
Qed.

Lemma move_return s V id p : pcs s !! id = Some Woken -> pending id s = Some p -> is_done p = true -> G s V ->
  G (set_pc id (Returned (pres p)) (set_pending id None s)) V.
Proof.
  intros Hw Hp Hd H. pose proof (fun t => lookup_set_pending s id p None t Hp) as Hl. cbn in Hl.
  pose proof (fun t => lookup_set_pc s id (Returned (pres p)) Woken t Hw) as Hc. cbn in Hc.
  assert (Hl' : forall t, pending t (set_pending id None s) = if decide (t = id) then None else pending t s).
  { intros t. unfold pending. cbn. rewrite Hl. by case_decide. }
  assert (Hrp : result_of s (vsettled V) id = Some (pres p)).
  { unfold result_of. rewrite (proj1 (pending_lookup id p) Hp), Hd. done. }
  destruct H; split; cbn in *; rewrite ?length_insert; try done; try (intros t x; rewrite Hl'; by case_decide; [|eauto]).
  - intros t. rewrite Hc, <- g_lead0. case_decide; [subst; rewrite Hw; split; by intros [? [=]]|done].
  - intros t. rewrite Hc. case_decide; [done|apply g_parked0].
  - intros t. rewrite Hl, Hc. case_decide; [split; [by eexists|done]|apply g_ret0].
  - intros t p'. unfold pending. cbn. rewrite Hl. case_decide; [done|apply g_fn0].
  - intros t p'. unfold pending. cbn. rewrite Hl. case_decide; [done|apply g_tls0].
  - intros t. rewrite g_own0. unfold pending. cbn. rewrite Hl. case_decide as E; [|done]. subst t.
    split; [|by intros (? & ? & ?)]. intros (p' & Hp' & Hd'). unfold pending in Hp. rewrite Hp in Hp'. simplify_eq. congruence.
  - intros t p'. unfold pending. cbn. rewrite Hl. case_decide; [done|apply g_fresh0].
  - intros t r Hr. apply (outcome_mono s); try done. apply g_out0. revert Hr. unfold result_of at 1. cbn. rewrite Hl, Hc.
    case_decide as E; [intros [= <-]; by subst|done].
Qed.

Lemma move_park s V id : pcs s !! id = Some Woken -> leader_active s = true -> G s V -> G (set_pc id Parked s) V.
Proof.
  intros Hw Ha H. pose proof (fun t => lookup_set_pc s id Parked Woken t Hw) as Hc. cbn in Hc.
  destruct H; split; cbn in *; rewrite ?length_insert; try done.
  - intros t. rewrite Hc, <- g_lead0. case_decide; [subst; rewrite Hw; split; by intros [? [=]]|done].
  - intros t _. rewrite Ha in g_active0. symmetry in g_active0. by apply bool_decide_eq_true in g_active0.
  - intros t. rewrite g_ret0, Hc. case_decide; [subst; rewrite Hw; split; by intros [? [=]]|done].
  - intros t r Hr. apply g_out0. revert Hr. unfold result_of. cbn. rewrite Hc.
    case_decide; [subst; rewrite Hw; by destruct (pends s !! id) as [[]|]|done].
Qed.

Lemma move_lead s id : pcs s !! id = Some Woken -> G s None ->
  G (set_pc id (Leading LBegin) (set_leader true s)) (Some (mkView id [] [] [] false)).
Proof.
  intros Hw H. pose proof (fun t => lookup_set_pc s id (Leading LBegin) Woken t Hw) as Hc. cbn in Hc.
  destruct H; split; cbn in *; rewrite ?length_insert; try done.
  - intros t. rewrite Hc. case_decide as E; [subst; split; [done|by eexists]|]. rewrite g_lead0. split; [done|congruence].
  - intros t. rewrite g_ret0, Hc. case_decide; [subst; rewrite Hw; split; by intros [? [=]]|done].
  - intros t. rewrite g_lock0. split; [done|by intros [_ ?]].
  - intros t r Hr. apply (outcome_mono s); try done. apply g_out0. revert Hr. unfold result_of. cbn. rewrite Hc.
    case_decide; [subst; rewrite Hw; by destruct (pends s !! id) as [[]|]|done].
Qed.

(** The leader steps back and wakes up the others. *)
Lemma move_retire s id : G s (Some (mkView id [] [] [] false)) ->
  G (set_pc id Woken (notify_all (set_leader false s))) None.
Proof.
  intros H. destruct (proj2 (g_lead _ _ _ _ _ H id) eq_refl) as [l0 Hl0].
  assert (Hc : forall t, <[id:=Woken]> (map notify (pcs s)) !! t =
    if decide (t = id) then Some Woken else notify <$> pcs s !! t).
  { intros t. rewrite <- list_lookup_fmap. apply (lookup_set_pc (notify_all s) id Woken (notify (Leading l0))).
    cbn. change (map notify (pcs s)) with (notify <$> pcs s). by rewrite list_lookup_fmap, Hl0. }
  assert (Hret : forall t r, <[id:=Woken]> (map notify (pcs s)) !! t = Some (Returned r) <-> pcs s !! t = Some (Returned r)).
  { intros t r. rewrite Hc. case_decide; [subst; rewrite Hl0; done|]. destruct (pcs s !! t) as [[]|]; done. }
  destruct H; split; cbn in *; rewrite ?length_insert, ?length_map; try done.
  - intros t. rewrite Hc. split; [|done]. intros [l Hl]. case_decide as E; [done|].
    destruct (pcs s !! t) as [[]|] eqn:Et; try done. cbn in Hl. simplify_eq.
    pose proof (proj1 (g_lead0 t) (ex_intro _ _ Et)). congruence.
  - intros t. rewrite Hc. case_decide; [done|]. by destruct (pcs s !! t) as [[]|].
  - intros t. rewrite g_ret0. by setoid_rewrite Hret.
  - intros t. rewrite g_lock0. split; [by intros [_ ?]|done].
  - intros t r Hr. apply (outcome_mono s); try done. apply g_out0. revert Hr. unfold result_of. cbn.
    destruct (pends s !! t) as [[p|]|]; [done| |done]. specialize (Hret t).
    destruct (<[id:=Woken]> (map notify (pcs s)) !! t) as [[| | |r']|] eqn:E; try done. intros [= ->].
    by rewrite (proj1 (Hret r) eq_refl).
Qed.

(** A new call. *)
Definition entered s (x : Pc D O) (p : option (Pending D O)) (t : option nat) (f : closure D O) : State D O :=
  mkState (queue s) (leader_active s) (pcs s ++ [x]) (pends s ++ [p]) (fns s ++ [(t, f)])
    (db_data s) (db_version s) (db_writer s) (log s) (faults s).

Lemma bounded s V t : G s V -> t ∈ ids_of (log s) ++ vtodo V ++ queue s -> (t < length (pcs s))%nat.
Proof.
  intros H. rewrite elem_of_app. intros [Ht|Ht].
  - pose proof (g_bound _ _ _ _ _ H) as Hb. rewrite Forall_forall in Hb. by apply Hb, list_elem_of_In.
  - assert (Hb : t ∈ vbatch V ++ queue s).
    { rewrite elem_of_app in *. destruct Ht as [Ht|?]; [left; by apply (g_todo _ _ _ _ _ H)|by right]. }
    apply (g_own _ _ _ _ _ H) in Hb as (p & Hp & _). apply pending_lookup, lookup_lt_Some in Hp.
    by rewrite (proj1 (g_len _ _ _ _ _ H)) in Hp.
Qed.

Lemma sorted_snoc l n : StronglySorted lt l -> (forall t, t ∈ l -> (t < n)%nat) -> StronglySorted lt (l ++ [n]).
Proof.
  intros Hl Hn. apply StronglySorted_app_2; [|done|repeat constructor].
  intros x y Hx Hy. apply list_elem_of_singleton in Hy as ->. auto.
Qed.

(** A call either queues up or, inside a closure of its own store, is refused. *)
Definition enters (x : Pc D O) (p : option (Pending D O)) (t : option nat) (f : closure D O) : Prop :=
  match x, p with
  | Woken, Some p => p = mkPending f 0 None false /\ t <> Some this
  | Returned r, None => r = inr LogicError /\ t = Some this
  | _, _ => False
  end.

Definition enter s x p t f : State D O :=
  set_queue (queue s ++ if p is Some _ then [length (pcs s)] else []) (entered s x p t f).

Lemma enter_lookup s V x p t f : G s V ->
  (forall i y, pends (enter s x p t f) !! i = Some y <-> pends s !! i = Some y \/ i = length (pcs s) /\ p = y) /\
  (forall i y, fns (enter s x p t f) !! i = Some y <-> fns s !! i = Some y \/ i = length (pcs s) /\ (t, f) = y) /\
  (forall i p', pending i (enter s x p t f) = Some p' <-> pending i s = Some p' \/ i = length (pcs s) /\ p = Some p').
Proof.
  intros H. destruct (g_len _ _ _ _ _ H) as [Hlp Hlf].
  assert (Hpn : forall i y, pends (enter s x p t f) !! i = Some y <-> pends s !! i = Some y \/ i = length (pcs s) /\ p = y)
    by (intros i y; cbn; by rewrite lookup_snoc_alt, Hlp).
  split; [done|]. split; [intros i y; cbn; by rewrite lookup_snoc_alt, Hlf|].
  intros i p'. rewrite !pending_lookup. apply Hpn.
Qed.

Lemma enter_out s V x p t f : enters x p t f -> G s V -> forall i r,
  result_of (enter s x p t f) (vsettled V) i = Some r -> outcome this (enter s x p t f) i r.
Proof.
  intros Hxp H i r Hr. pose proof (fun t => bounded s V t H) as Hbd.
  destruct (enter_lookup s V x p t f H) as (Hpn & Hfn & _). destruct (g_len _ _ _ _ _ H) as [Hlp _].
  assert (Epc : pcs (enter s x p t f) = pcs s ++ [x]) by done.
  destruct (decide (i = length (pcs s))) as [->|Hne].
  - revert Hr. unfold result_of. rewrite Epc, (proj2 (Hpn _ _) (or_intror (conj eq_refl eq_refl))).
    rewrite (proj2 (lookup_snoc_alt _ _ _ _) (or_intror (conj eq_refl eq_refl))).
    destruct p as [p|], x; try done.
    + destruct Hxp as [-> _]. cbn. intros Hr. case_bool_decide as Hs; [|done].
      apply (g_settled _ _ _ _ _ H) in Hs as [Hs _].
      apply (batch_pending H) in Hs as (p & Hp & _). apply pending_lookup, lookup_lt_Some in Hp. lia.
    + destruct Hxp as [-> ->]. intros [= <-]. cbn. split.
      * intros v Ha. apply acked_logged in Ha. assert (length (pcs s) < length (pcs s))%nat; [|lia].
        apply Hbd, elem_of_app. by left.
      * right. exists (Some this), f. split; [|by left]. apply Hfn. by right.
  - apply (outcome_mono s); [done|intros; apply Hfn; by left|done|].
    apply (g_out _ _ _ _ _ H). revert Hr. unfold result_of. cbn. destruct (decide (i < length (pcs s))%nat).
    + by rewrite !lookup_app_l by lia.
    + rewrite !lookup_app_r by lia. destruct (i - length (pends s))%nat eqn:E; [lia|done].
Qed.

Lemma move_enter s V x p t f : enters x p t f -> G s V -> G (enter s x p t f) V.
Proof.
  intros Hxp H. pose proof (fun t => bounded s V t H) as Hbd. pose proof (enter_out s V x p t f Hxp H) as Hout.
  destruct (enter_lookup s V x p t f H) as (Hpn & Hfn & Hpd). destruct (g_len _ _ _ _ _ H) as [Hlp Hlf].
  assert (Hfo : forall i c, fn_of s i = Some c -> fn_of (enter s x p t f) i = Some c).
  { intros i c. unfold fn_of. rewrite !fmap_Some. intros (y & Hy & ->). exists y. split; [|done]. apply Hfn. by left. }
  destruct H; split; try done.
  - cbn. rewrite !length_app. cbn. lia.
  - intros i. rewrite <- g_lead0. cbn. setoid_rewrite lookup_snoc_alt. split; intros [l Hl]; [|eauto].
    destruct Hl as [Hl|[_ ->]]; [eauto|by destruct p].
  - intros i Hi. cbn in Hi. apply lookup_snoc_alt in Hi as [Hi|[_ ->]]; [by apply (g_parked0 i)|by destruct p].
  - intros i. rewrite Hpn, g_ret0. cbn. setoid_rewrite lookup_snoc_alt. split.
    + intros [[r Hr]|[-> ->]]; [eauto|]. destruct x; try done. eauto.
    + intros [r [Hr|[-> ->]]]; [eauto|]. destruct p; [done|]. by right.
  - intros i p'. rewrite Hpd. intros [Hi|[-> ->]]; [by apply Hfo, g_fn0|]. unfold fn_of.
    rewrite (proj2 (Hfn _ _) (or_intror (conj eq_refl eq_refl))). destruct x; try done. by destruct Hxp as [-> _].
  - intros i p'. rewrite Hpd. intros [Hi|[-> ->]].
    + pose proof (g_fn0 i p' Hi) as Hf. unfold fn_of in Hf. apply fmap_Some in Hf as (y & Hy & _).
      rewrite (proj2 (Hfn i y) (or_introl Hy)). pose proof (g_tls0 i p' Hi) as Ht. by rewrite Hy in Ht.
    + rewrite (proj2 (Hfn _ _) (or_intror (conj eq_refl eq_refl))). cbn.
      destruct x; try done. destruct Hxp as [_ Hxp]. congruence.
  - intros i. setoid_rewrite Hpd. cbn. rewrite app_assoc, elem_of_app, g_own0. split.
    + intros [(p' & ? & ?)|Hi]; [eauto|]. destruct p as [p|]; [|by apply elem_of_nil in Hi].
      apply list_elem_of_singleton in Hi as ->. exists p. split; [by right|]. destruct x; try done. by destruct Hxp as [-> _].
    + intros (p' & [Hp|[-> ->]] & Hd); [left; eauto|right]. by apply list_elem_of_singleton.
  - cbn. rewrite 2app_assoc, <- (app_assoc (ids_of _)). destruct p; [by apply sorted_snoc|by rewrite app_nil_r].
  - cbn. rewrite app_assoc. destruct p; [|by rewrite app_nil_r]. apply sorted_snoc; [done|]. intros i Hi.
    apply g_own0 in Hi as (p' & Hp & _). apply pending_lookup, lookup_lt_Some in Hp. by rewrite Hlp in Hp.
  - eapply Forall_impl; [|exact g_bound0]. cbn. intros i Hi. rewrite length_app. lia.
  - intros v o cs a i c Hin Hc. by eapply Hfo, g_logfn0.
  - intros i p'. rewrite Hpd. intros [Hi|[-> ->]]; [by apply g_fresh0|]. destruct x; try done. by destruct Hxp as [-> _].
Qed.

(** Another writer of the file. *)
Lemma move_other s V w : (forall id, db_writer s <> Some (WCall id)) -> (forall id, w <> Some (WCall id)) -> G s V ->
  G (set_writer w s) V.
Proof.
  intros Hw Hw' H. destruct H; split; try done. intros id. rewrite <- g_lock0. cbn. split; intros E; [by apply Hw' in E|by apply Hw in E].
Qed.

Lemma move_other_commit s V d : G s V -> G (publish d (fun v => ByOther v d) s) V.
Proof.
  intros H.
  assert (Hack : forall id v, acked s id v <-> acked (publish d (fun v => ByOther v d) s) id v).
  { intros id v. unfold acked. cbn. setoid_rewrite elem_of_app. split; [intros (o & cs & ? & ?); by eauto|].
    intros (o & cs & [Hin|Hin] & Hm); [by eauto|]. by apply list_elem_of_singleton in Hin. }
  destruct H; split; try done; cbn.
  - rewrite ids_of_app. unfold ids_of at 2. cbn. by rewrite app_nil_r.
  - rewrite ids_of_app. unfold ids_of at 2. cbn. by rewrite app_nil_r.
  - by rewrite (replay_app _ _ _ _ g_replay0).
  - rewrite length_app. cbn. lia.
  - intros i en. apply versions_app; [done|]. cbn. lia.
  - intros v o cs a id c Hin Hc. apply elem_of_app in Hin as [Hin|Hin]; [by eapply g_logfn0|].
    by apply list_elem_of_singleton in Hin.
  - intros id r Hr. apply (outcome_mono s); [done|done|apply Hack|by apply g_out0].
Qed.

End Moves.

End Inv.
