(* ===== verification/GroupCommitRun.v ===== *)
(** * Group commit: the steps keep the invariant *)

From stdpp Require Import sorting.
From S2P Require Import Prelude Tx GroupCommit GroupCommitInv.

Section Run.
Context {D O : Type} {this : nat} {d0 : D} {v0 : Z}.
Implicit Type s : State D O.
Implicit Type V : option View.

Abbreviation G := (ginv this d0 v0).
Abbreviation I := (inv this d0 v0).

(** ** The leader *)

Lemma stage_set_pc s t x id l : stage_ok this (set_pc t x s) id l <-> stage_ok this s id l.
Proof. by destruct l as [| | | | |? [] ? ?| | | | |]. Qed.

Lemma inv_lead s W l : W = view_of (v_id W) l -> stage_ok this s (v_id W) l -> G s (Some W) ->
  I (set_pc (v_id W) (Leading l) s).
Proof.
  intros HW Hs H. exists (Some W). pose proof (move_pc s W l H) as H'. split; [done|]. intros id l' Hl.
  assert (id = v_id W) as ->.
  { pose proof (proj1 (g_lead _ _ _ _ _ H' id) (ex_intro _ _ Hl)) as E. cbn in E. congruence. }
  destruct (proj2 (g_lead _ _ _ _ _ H (v_id W)) eq_refl) as [l0 Hl0].
  rewrite (lookup_set_pc s (v_id W) (Leading l) _ _ Hl0), decide_True in Hl by done. injection Hl as <-.
  split; [by rewrite <- HW|]. by apply stage_set_pc.
Qed.

Lemma entries_spec s V b : G s V -> (forall t, t ∈ b -> t ∈ vbatch V) ->
  map fst (entries b s) = b /\ map snd (entries b s) = omap (fn_of s) b /\
  forall id c, (id, c) ∈ entries b s -> fn_of s id = Some c.
Proof.
  intros H. induction b as [|t b IH]; intros Hb; [split; [done|]; split; [done|]; by intros ? ? ?%elem_of_nil|].
  destruct (batch_pending H t) as (p & Hp & _); [apply Hb, list_elem_of_here|].
  destruct IH as (H1 & H2 & H3); [intros; by apply Hb, list_elem_of_further|].
  pose proof (g_fn _ _ _ _ _ H t p Hp) as Hf. unfold entries in *. cbn. rewrite Hp, Hf. cbn. split; [by rewrite H1|].
  split; [by rewrite H2|]. intros id c Hin. apply elem_of_cons in Hin as [[= -> ->]|Hin]; [done|by apply H3].
Qed.

Lemma run_begin l (d : D) (o : O) tx : run_all this l (set_batched true (begin_tx d o)) = Some tx ->
  m_writable tx = true /\ m_batched tx = true /\ m_stage tx = transact_Writing /\ tx_env tx = o.
Proof. by apply run_all_env. Qed.

(** What a step of the leader is to give: a state with the invariant, or it waits
    for the write lock. *)
Definition led (l : Lead D O) s (r : option (State D O)) : Prop :=
  match r with
  | Some s' => I s'
  | None => match l with LBegin | LOne _ _ _ _ => db_writer s <> None | _ => False end
  end.

Lemma led_begin s id en : G s (Some (view_of id (@LBegin D O))) -> stage_ok this s id LBegin ->
  led LBegin s (lead_step this id LBegin en s).
Proof.
  intros H Hq. cbn in Hq. destruct (queue_pending H id Hq) as (p & Hp & _).
  pose proof (g_tls _ _ _ _ _ H id p Hp) as Ht. cbn [lead_step].
  unfold in_closure_of. rewrite bool_decide_false.
  2:{ destruct (fns s !! id) as [[t f]|]; cbn in *; congruence. }
  destruct en as [o|e pu en].
  - destruct (db_writer s) eqn:Hw; cbn; [by rewrite Hw|].
    apply (inv_lead (set_writer (Some (WCall id)) s) (mkView id [] [] [] true) (LDrain _)); [done| |].
    + split; [done|]. by eexists.
    + by apply (move_lock s (view_of id (@LBegin D O))).
  - cbn. apply (inv_lead (add_fault e s) (mkView id [] [] [] false) (LFailed _)); [done| |by apply move_fault].
    split; [done|]. apply list_elem_of_here.
Qed.

Lemma drain_elem s id : id ∈ queue s -> (drain s).1 <> [].
Proof. cbn. destruct (queue s); [by intros ?%elem_of_nil|done]. Qed.

Lemma drain_fresh s V t v : G s V -> t ∈ (drain s).1 -> ~ acked s t v.
Proof.
  intros H Ht. apply (todo_fresh H), elem_of_app. right. cbn in Ht. rewrite <- (take_drop max_batch (queue s)).
  apply elem_of_app. by left.
Qed.

Lemma led_failed s id e en : G s (Some (view_of id (@LFailed D O e))) -> stage_ok this s id (LFailed e) ->
  led (LFailed e) s (lead_step this id (LFailed e) en s).
Proof.
  intros H [Hq He]. cbn [lead_step]. pose proof (move_drain s id _ H) as H'. pose proof (fun t v => drain_fresh s _ t v H) as Hf.
  pose proof (drain_elem s id Hq) as Hne. destruct (drain s) as [b s1] eqn:E. cbn in H', Hf, Hne |- *.
  apply (inv_lead s1 (mkView id b [] [] false) (LFinish b _)); [done| |].
  - split; [done|]. unfold drain in E. injection E as <- <-. intros t r' Hin [= <-]. split; [|by left].
    intros v. by apply (Hf t v).
  - apply (move_todo s1 (mkView id b b [] false) b []); [by rewrite app_nil_r|done].
Qed.

Lemma led_drain s id tx en : G s (Some (view_of id (LDrain tx))) -> stage_ok this s id (LDrain tx) ->
  led (LDrain tx) s (lead_step this id (LDrain tx) en s).
Proof.
  intros H [Hq [o Ho]]. cbn [lead_step]. pose proof (move_drain s id _ H) as H'.
  pose proof (drain_elem s id Hq) as Hne. destruct (drain s) as [b s1] eqn:E. cbn in H', Hne |- *.
  apply (inv_lead s1 (mkView id b b [] true) (LRun b 0 _)); [done| |done].
  split; [done|]. split; [lia|]. exists o. unfold drain in E. injection E as <- <-. by rewrite Ho.
Qed.

Lemma led_run s id b i tx en : G s (Some (view_of id (LRun b i tx))) -> stage_ok this s id (LRun b i tx) ->
  led (LRun b i tx) s (lead_step this id (LRun b i tx) en s).
Proof.
  intros H (Hne & Hi & o & Ho). cbn [lead_step]. destruct (b !! i) as [t|] eqn:Et.
  - assert (Hin : t ∈ b) by (by eapply list_elem_of_lookup_2).
    destruct (batch_pending H t Hin) as (p & Hp & _). rewrite Hp. cbn [mbind option_bind].
    pose proof (g_fn _ _ _ _ _ H t p Hp) as Hf.
    destruct (run_begin _ _ _ _ Ho) as (E1 & E2 & E3 & E4). pose proof (run_data_env (Some this) (fn p) tx E2) as Henv.
    destruct (run_closure (Some this) (fn p) tx) as [tx' [e|]] eqn:Er; cbn.
    + cbn in Henv. destruct Henv as (F1 & F2 & F3 & F4).
      apply (inv_lead s (mkView id b b [] true) (LReset b (Some i) e tx')); [|split; [done|]|done].
      * cbn. by rewrite F3, E3.
      * split; [by rewrite F1, E1|]. exists t. split; [done|]. right. unfold fn_of in Hf.
        apply fmap_Some in Hf as ([t' f] & Hl & Hfp). cbn in Hfp.
        exists t', f. split; [done|]. right. exists tx. by rewrite <- Hfp, Er.
    + apply (inv_lead s (mkView id b b [] true) (LRun b (S i) tx')); [done| |done].
      split; [done|]. split; [apply lookup_lt_Some in Et; lia|]. exists o. rewrite (take_S_r _ _ _ Et), omap_app. cbn.
      rewrite Hf, (run_all_app _ _ _ _ Ho). cbn. by rewrite Er.
  - apply (inv_lead s (mkView id b b [] true) (LCommit b tx)); [done| |done].
    split; [done|]. exists o. apply lookup_ge_None in Et. by rewrite take_ge in Ho.
Qed.

Lemma acked_publish cs tx s t v : acked (publish_group cs false tx s) t v <-> acked s t v.
Proof.
  unfold acked. cbn. setoid_rewrite elem_of_app. split; [|intros (o & cs' & ? & ?); by eauto].
  intros (o & cs' & [Hin|Hin] & Hm); [by eauto|]. by apply list_elem_of_singleton in Hin.
Qed.

(** A commit of the first calls [b] that may be committed. *)
Lemma commit_moves s W b rest (tx : Tx D O) o en :
  v_todo W = b ++ rest -> (forall t, t ∈ b -> t ∈ v_batch W) -> v_holds W = true ->
  run_all this (omap (fn_of s) b) (set_batched true (begin_tx (db_data s) o)) = Some tx -> G s (Some W) ->
  match commit_group (entries b s) tx en s with
  | (s', inl v) => G s' (Some (with_holds false (with_todo rest W))) /\ forall t, t ∈ b -> acked s' t v
  | (s', inr (tx', e)) =>
      G s' (Some (with_holds (bool_decide (m_stage tx' = transact_Writing)) (with_todo rest W))) /\
      m_writable tx' = true /\ e ∈ faults s' /\ forall t, t ∈ b -> forall v, ~ acked s' t v
  end /\ let s' := (commit_group (entries b s) tx en s).1 in
    fns s' = fns s /\ pcs s' = pcs s /\ (forall e, e ∈ faults s -> e ∈ faults s').
Proof.
  intros Ht Hb Hh Hrun H. destruct (run_begin _ _ _ _ Hrun) as (E1 & E2 & E3 & E4).
  destruct (entries_spec s (Some W) b H Hb) as (F1 & F2 & F3).
  assert (Hpub : forall s1 a, fns s1 = fns s -> db_data s1 = db_data s -> G s1 (Some W) ->
    G (publish_group (entries b s) a (set_batched false tx) s1) (Some (with_todo rest W))).
  { intros s1 a Hf Hd H1. apply (move_publish s1 W (entries b s) a (set_batched false tx) tx rest); try done.
    - by rewrite F1.
    - intros id c Hin. unfold fn_of. rewrite Hf. by apply F3.
    - rewrite F2, Hd. cbn. by rewrite E4. }
  unfold commit_group. replace (commit_check (set_batched false tx)) with (Ok tt).
  2:{ unfold commit_check, require_write, require_not_batched. cbn. by rewrite E1, bool_decide_true. }
  destruct en as [o'|e pu ended].
  - split; [|done]. split; [apply (move_unlock _ (with_todo rest W)); by apply Hpub|].
    intros t Hin. eexists _, (entries b s). split; [|by rewrite F1]. cbn. apply elem_of_app. right.
    by apply list_elem_of_singleton.
  - set (s1 := add_fault e s). assert (H1 : G s1 (Some W)) by (by apply move_fault).
    set (s2 := if pu || ended then publish_group (entries b s) false (set_batched false tx) s1 else s1).
    assert (H2 : G s2 (Some (with_todo rest W)) /\ fns s2 = fns s /\ pcs s2 = pcs s /\ faults s2 = e :: faults s /\
      forall t v, t ∈ b -> ~ acked s2 t v).
    { subst s2. destruct (pu || ended); (split; [by apply Hpub || by apply (move_todo s1 W b rest)|]);
        (do 3 (split; [done|])); intros t v Hin; rewrite ?acked_publish; apply (todo_fresh H1), elem_of_app; left; cbn;
        rewrite Ht; apply elem_of_app; by left. }
    destruct H2 as (H2 & G1 & G2 & G3 & G4). destruct ended; cbn [fst].
    + split; [|cbn; rewrite G3; split; [done|split; [done|]]; intros; by apply list_elem_of_further].
      split; [by apply (move_unlock s2 (with_todo rest W))|]. split; [done|]. split; [|intros t Hin v; by apply G4].
      cbn. rewrite G3. apply list_elem_of_here.
    + split; [|rewrite G3; split; [done|split; [done|]]; intros; by apply list_elem_of_further].
      split; [|split; [done|split; [rewrite G3; apply list_elem_of_here|intros t Hin v; by apply G4]]].
      cbn. rewrite E3, bool_decide_true by done. unfold with_holds. cbn. rewrite <- Hh. done.
Qed.

Lemma led_commit s id b tx en : G s (Some (view_of id (LCommit b tx))) -> stage_ok this s id (LCommit b tx) ->
  led (LCommit b tx) s (lead_step this id (LCommit b tx) en s).
Proof.
  intros H (Hne & o & Ho). cbn [lead_step].
  destruct (commit_moves s (mkView id b b [] true) b [] tx o en) as [Hc _]; [by rewrite app_nil_r|done|done|done|done|].
  destruct (commit_group (entries b s) tx en s) as [s' [v|[tx' e]]]; cbn.
  - destruct Hc as [Hc Ha]. apply (inv_lead s' (mkView id b [] [] false) (LFinish b (Some (inl v)))); [done| |done].
    split; [done|]. intros t r' Hin [= <-]. by apply Ha.
  - destruct Hc as (Hc & Hw & He & Ha). 
    by apply (inv_lead s' (mkView id b [] [] (bool_decide (m_stage tx' = transact_Writing))) (LReset b None e tx')).
Qed.

(** The destructor releases the lock if the transaction still has it. *)
Lemma move_drop s W tx : m_writable tx = true -> v_holds W = bool_decide (m_stage tx = transact_Writing) -> G s (Some W) ->
  G (drop_tx tx s) (Some (with_holds false W)).
Proof.
  intros Hw Hh H. unfold drop_tx, dtor_rolls_back. rewrite Hw, <- Hh. cbn. destruct (v_holds W) eqn:E; [by apply move_unlock|].
  replace (with_holds false W) with W; [done|]. unfold with_holds. rewrite <- E. by destruct W.
Qed.

Lemma drop_frame (tx : Tx D O) s : drop_tx tx s = s \/ drop_tx tx s = set_writer None s.
Proof. unfold drop_tx. destruct (dtor_rolls_back tx); auto. Qed.

Lemma led_reset s id b thrower e tx en : G s (Some (view_of id (LReset b thrower e tx))) ->
  stage_ok this s id (LReset b thrower e tx) ->
  led (LReset b thrower e tx) s (lead_step this id (LReset b thrower e tx) en s).
Proof.
  intros H (Hne & Hw & Hth). cbn [lead_step]. pose proof (move_drop s (view_of id (LReset b thrower e tx)) tx Hw eq_refl H) as H'.
  assert (Hst : stage_ok this (drop_tx tx s) id (LReset b thrower e tx)).
  { destruct (drop_frame tx s) as [-> | ->]; by destruct thrower. }
  pose proof (fun t v Hin => todo_fresh H t v (proj2 (elem_of_app _ _ _) (or_introl Hin))) as Hfr.
  set (s' := drop_tx tx s) in *.
  assert (Hack : forall t v, acked s' t v <-> acked s t v) by (subst s'; by destruct (drop_frame tx s) as [-> | ->]).
  destruct thrower as [j|].
  - destruct Hst as (_ & _ & t & Ht & Hb). destruct (Nat.eqb_spec (length b) 1) as [E|E]; cbn.
    + apply (inv_lead s' (mkView id b [] [] false) (LFinish b (Some (inr e)))); [done| |].
      * split; [done|]. intros t' r' Hin [= <-]. destruct b as [|t0 [|]]; try done. apply list_elem_of_singleton in Hin as ->.
        destruct j; [|done]. injection Ht as ->. split; [|done]. intros v. rewrite Hack. apply Hfr. apply list_elem_of_here.
      * apply (move_todo s' (mkView id b b [] false) b []); [by rewrite app_nil_r|done].
    + apply (inv_lead s' (mkView id b b [] false) (LOne b j e 0)); [done| |done].
      split; [done|]. split; [lia|]. eauto.
  - destruct Hst as (_ & _ & He & Ha). cbn. apply (inv_lead s' (mkView id b [] [] false) (LFinish b (Some (inr e)))); [done| |done].
    split; [done|]. intros t r' Hin [= <-]. split; [intros v; by apply Ha|by left].
Qed.

(** A call that is on its own gets its result. *)
Lemma settle_one s id b j e i t r h : b !! i = Some t -> (i < length b)%nat -> b <> [] ->
  (exists t, b !! j = Some t /\ blame this s t e) -> outcome this s t r ->
  G s (Some (mkView id b (drop (S i) b) (take i b) h)) ->
  exists s', update_pending t (set_result (Some r)) s = Some s' /\ only_pends s s' /\
    G s' (Some (mkView id b (drop (S i) b) (take (S i) b) h)) /\ stage_ok this s' id (LOne b j e (S i)).
Proof.
  intros Et Hi Hne Hbl Ho H. assert (Hso : StronglySorted lt (take i b ++ t :: drop (S i) b)).
  { rewrite take_drop_middle by done. by apply (StronglySorted_app_1_l _ _ _ (g_sortb _ _ _ _ _ H)). }
  assert (Hni : t ∉ take i b).
  { intros Hx. pose proof (StronglySorted_app_1_elem_of _ _ _ _ t Hso Hx (list_elem_of_here _ _)). lia. }
  assert (Hnd : t ∉ drop (S i) b).
  { intros Hx. apply StronglySorted_app_1_r, StronglySorted_cons in Hso as [Hso _]. rewrite Forall_forall in Hso.
    apply list_elem_of_In, Hso in Hx. lia. }
  destruct (move_settle (this := this) (d0 := d0) (v0 := v0) s (mkView id b (drop (S i) b) (take i b) h) t r) as (s' & Hu & Hs' & p & ->);
    try done; [by eapply list_elem_of_lookup_2|].
  eexists. split; [done|]. split; [done|]. rewrite (take_S_r _ _ _ Et). split; [exact Hs'|]. split; [done|]. split; [lia|done].
Qed.

Lemma drop_head {A} (b : list A) i t : b !! i = Some t -> drop i b = t :: drop (S i) b.
Proof. apply drop_S. Qed.

Lemma outcome_thrown s V t e : G s V -> t ∈ vtodo V -> blame this s t e -> outcome this s t (inr e).
Proof. intros H Ht Hb. split; [|done]. intros v. apply (todo_fresh H), elem_of_app. by left. Qed.

(** The call gives up with exception [e']. *)
Lemma one_fails s id b j e i t e' h : b !! i = Some t -> b <> [] ->
  (exists t, b !! j = Some t /\ blame this s t e) -> blame this s t e' ->
  G s (Some (mkView id b (drop i b) (take i b) h)) ->
  exists s', update_pending t (set_result (Some (inr e'))) s = Some s' /\ only_pends s s' /\
    G s' (Some (mkView id b (drop (S i) b) (take (S i) b) h)) /\ stage_ok this s' id (LOne b j e (S i)).
Proof.
  intros Et Hne Hbl He H. apply settle_one; try done; [by eapply lookup_lt_Some| |].
  - apply (outcome_thrown s _ t e' H); [|done]. cbn. rewrite (drop_head b i t Et). apply list_elem_of_here.
  - apply (move_todo s (mkView id b (drop i b) (take i b) h) [t] (drop (S i) b)); [by rewrite (drop_head b i t Et)|done].
Qed.

Lemma led_one s id b j e i en : G s (Some (view_of id (@LOne D O b j e i))) -> stage_ok this s id (LOne b j e i) ->
  led (LOne b j e i) s (lead_step this id (LOne b j e i) en s).
Proof.
  intros H (Hne & Hi & Hbl). cbn [lead_step]. destruct (b !! i) as [t|] eqn:Et.
  - destruct (Nat.eqb_spec i j) as [<-|Hij].
    + destruct (one_fails s id b i e i t e false) as (s' & -> & _ & H' & Hs); try done.
      { destruct Hbl as (t' & Ht' & Hb). congruence. }
      cbn. by apply (inv_lead s' (mkView id b (drop (S i) b) (take (S i) b) false) (LOne b i e (S i))).
    + destruct en as [o|e' pu ended].
      * destruct (db_writer s) eqn:Hw; cbn; [by rewrite Hw|].
        apply (inv_lead (set_writer (Some (WCall id)) s) (mkView id b (drop i b) (take i b) true) (LOneRun b j e i _)); [done| |].
        -- split; [done|]. split; [by eapply lookup_lt_Some|]. split; [done|]. by eexists.
        -- by apply (move_lock s (mkView id b (drop i b) (take i b) false)).
      * assert (Hbl' : exists t, b !! j = Some t /\ blame this (add_fault e' s) t e).
        { destruct Hbl as (t' & Ht' & [Hb|Hb]); exists t'; split; try done; [left; by apply list_elem_of_further|by right]. }
        destruct (one_fails (add_fault e' s) id b j e i t e' false) as (s' & -> & _ & H' & Hs); try done.
        { left. apply list_elem_of_here. }
        { by apply move_fault. }
        cbn. by apply (inv_lead s' (mkView id b (drop (S i) b) (take (S i) b) false) (LOne b j e (S i))).
  - apply lookup_ge_None in Et. cbn. apply (inv_lead s (mkView id b [] b false) (LFinish b None)); [done|by split|].
    cbn in H. by rewrite take_ge, drop_ge in H.
Qed.

Lemma led_one_run s id b j e i tx en : G s (Some (view_of id (LOneRun b j e i tx))) -> stage_ok this s id (LOneRun b j e i tx) ->
  led (LOneRun b j e i tx) s (lead_step this id (LOneRun b j e i tx) en s).
Proof.
  intros H (Hne & Hi & Hbl & o & Ho). cbn [lead_step]. destruct (lookup_lt_is_Some_2 _ _ Hi) as [t Et]. rewrite Et.
  cbn [mbind option_bind].
  assert (Hin : t ∈ b) by (by eapply list_elem_of_lookup_2).
  destruct (batch_pending H t Hin) as (p & Hp & _). rewrite Hp. cbn [mbind option_bind].
  pose proof (g_fn _ _ _ _ _ H t p Hp) as Hf. pose proof Hf as Hf'. unfold fn_of in Hf'.
  apply fmap_Some in Hf' as ([t' f] & Hl & Hfp). cbn in Hfp.
  pose proof (run_data_env (Some this) (fn p) tx) as Henv. rewrite Ho in Henv at 1. specialize (Henv eq_refl).
  destruct (run_closure (Some this) (fn p) tx) as [tx' [e'|]] eqn:Er.
  - destruct (one_fails s id b j e i t e' true) as (s' & -> & Hop & H' & Hs); try done.
    { right. exists t', f. split; [done|]. right. exists tx. by rewrite <- Hfp, Er. }
    cbn in Henv. destruct Henv as (F1 & F2 & F3 & F4). subst tx. cbn in F1, F3. cbn [mbind option_bind].
    apply (inv_lead (drop_tx tx' s') (mkView id b (drop (S i) b) (take (S i) b) false) (LOne b j e (S i))); [done| |].
    + by destruct (drop_frame tx' s') as [-> | ->].
    + apply (move_drop s' (mkView id b (drop (S i) b) (take (S i) b) true)); [done| |done]. by rewrite F3.
  - cbn. apply (inv_lead s (mkView id b (drop i b) (take i b) true) (LOneCommit b j e i tx')); [done| |done].
    split; [done|]. split; [done|]. split; [done|]. exists o, (fn p), t. split; [done|]. split; [done|].
    cbn. rewrite <- Ho, Er. done.
Qed.

Lemma blame_mono s s' t e : fns s' = fns s -> (forall e, e ∈ faults s -> e ∈ faults s') -> blame this s t e -> blame this s' t e.
Proof. intros Hf He [Hb|Hb]; [left; auto|right; by rewrite Hf]. Qed.

Lemma led_one_commit s id b j e i tx en : G s (Some (view_of id (LOneCommit b j e i tx))) ->
  stage_ok this s id (LOneCommit b j e i tx) ->
  led (LOneCommit b j e i tx) s (lead_step this id (LOneCommit b j e i tx) en s).
Proof.
  intros H (Hne & Hi & Hbl & o & c & t & Et & Hc & Ho). cbn [lead_step]. rewrite Et. cbn [mbind option_bind].
  destruct (commit_moves s (mkView id b (drop i b) (take i b) true) [t] (drop (S i) b) tx o en) as [Hcm (Hf & _ & He)]; try done.
  { cbn. by apply drop_head. }
  { intros x Hx. apply list_elem_of_singleton in Hx as ->. by eapply list_elem_of_lookup_2. }
  { cbn. by rewrite Hc. }
  destruct (commit_group (entries [t] s) tx en s) as [s1 r] eqn:Ecg. cbn [fst] in Hf, He.
  assert (Hbl' : exists t, b !! j = Some t /\ blame this s1 t e).
  { destruct Hbl as (t' & Ht' & Hb). exists t'. split; [done|]. by apply (blame_mono s). }
  destruct r as [v|[tx' e']].
  - destruct Hcm as [H1 Ha].
    destruct (settle_one s1 id b j e i t (inl v) false) as (s' & -> & _ & H' & Hs); try done; [apply Ha, list_elem_of_here|].
    cbn. by apply (inv_lead s' (mkView id b (drop (S i) b) (take (S i) b) false) (LOne b j e (S i))).
  - destruct Hcm as (H1 & Hw & Hfa & Ha). set (h := bool_decide (m_stage tx' = transact_Writing)) in *.
    destruct (settle_one s1 id b j e i t (inr e') h) as (s' & -> & _ & H' & Hs); try done.
    { split; [apply Ha, list_elem_of_here|by left]. }
    cbn [mbind option_bind].
    apply (inv_lead (drop_tx tx' s') (mkView id b (drop (S i) b) (take (S i) b) false) (LOne b j e (S i))); [done| |].
    + by destruct (drop_frame tx' s') as [-> | ->].
    + by apply (move_drop s' (mkView id b (drop (S i) b) (take (S i) b) h)).
Qed.

Lemma led_finish s id b r en : G s (Some (view_of id (@LFinish D O b r))) -> stage_ok this s id (LFinish b r) ->
  led (LFinish b r) s (lead_step this id (LFinish b r) en s).
Proof.
  intros H (Hne & Ho). cbn [lead_step].
  destruct (move_finish (this := this) (d0 := d0) (v0 := v0) b s (view_of id (@LFinish D O b r)) r) as (s' & Hf & H' & Hs);
    [by destruct r|by destruct r| |done|].
  { destruct r as [r|]; [|done]. split; [done|]. intros t Hin. by apply Ho. }
  rewrite Hf. cbn. apply (inv_lead s' (mkView id [] [] [] false) LDone); [done|done|]. by destruct r.
Qed.

(** ** The waiting threads *)

(** What the steps of another thread keep for the leader. *)
Lemma stage_frame s s' V id l : G s V -> V = Some (view_of id l) ->
  (v_holds (view_of id l) = true -> db_data s' = db_data s) ->
  (forall t, t ∈ queue s -> t ∈ queue s') -> (forall e, e ∈ faults s -> e ∈ faults s') ->
  (forall t c, fns s !! t = Some c -> fns s' !! t = Some c) -> (forall t v, acked s t v <-> acked s' t v) ->
  stage_ok this s id l -> stage_ok this s' id l.
Proof.
  intros H HV Hd Hq He Hfn Ha. assert (Hb : forall t e, blame this s t e -> blame this s' t e).
  { intros t e [Hx|(t' & f & Hl & Hx)]; [left; auto|right; eauto]. }
  assert (Ho : forall t r, outcome this s t r -> outcome this s' t r) by (intros t r; by apply (outcome_mono s)).
  assert (Hfo : forall t, t ∈ vbatch V -> fn_of s' t = fn_of s t).
  { intros t Ht. destruct (batch_pending H t Ht) as (p & Hp & _). pose proof (g_fn _ _ _ _ _ H t p Hp) as Hx. rewrite Hx.
    unfold fn_of in *. apply fmap_Some in Hx as (y & Hy & ->). by rewrite (Hfn _ _ Hy). }
  assert (Hom : forall b : list nat, (forall t, t ∈ b -> t ∈ vbatch V) -> omap (fn_of s') b = omap (fn_of s) b).
  { induction b as [|t b IH]; intros Hx; [done|]. cbn. rewrite (Hfo t), IH; [done|..]; intros; apply Hx; auto using list_elem_of_here, list_elem_of_further. }
  subst V. destruct l as [|e|tx|b i tx|b tx|b th e tx|b j e i|b j e i tx|b j e i tx|b r|]; cbn in *.
  - auto.
  - intros [? ?]. auto.
  - rewrite Hd by done. intros [? ?]. auto.
  - rewrite Hd, (Hom (take i b)); [done| |done]. intros t Ht. rewrite <- (take_drop i b). apply elem_of_app. by left.
  - rewrite Hd, (Hom b); done.
  - intros (? & ? & Hx). split; [done|]. split; [done|]. destruct th as [j|]; [destruct Hx as (t & ? & ?); eauto|].
    destruct Hx as [? Hx]. split; [auto|]. intros t Ht v. rewrite <- Ha. by apply Hx.
  - intros (? & ? & t & ? & ?). eauto 7.
  - rewrite Hd by done. intros (? & ? & (t & ? & ?) & ?). eauto 8.
  - rewrite Hd by done. intros (? & ? & (t & ? & ?) & o & c & t' & ? & ? & ?).
    do 2 (split; [done|]). split; [eauto|]. exists o, c, t'. rewrite Hfo; [done|]. by eapply list_elem_of_lookup_2.
  - intros (? & Hx). split; [done|]. eauto.
  - done.
Qed.

Definition stages s V : Prop :=
  forall id l, pcs s !! id = Some (Leading l) -> V = Some (view_of id l) /\ stage_ok this s id l.

Lemma woken_pending s V id : G s V -> pcs s !! id = Some Woken -> exists p, pending id s = Some p.
Proof.
  intros H Hw. pose proof (lookup_lt_Some _ _ _ Hw) as Hlt. rewrite <- (proj1 (g_len _ _ _ _ _ H)) in Hlt.
  destruct (lookup_lt_is_Some_2 _ _ Hlt) as [[p|] Hp]; [exists p; by apply pending_lookup|].
  apply (g_ret _ _ _ _ _ H) in Hp as [r Hr]. congruence.
Qed.

Lemma stages_set_pc s V id x y : pcs s !! id = Some y -> (forall l, x <> Leading l) -> stages s V -> stages (set_pc id x s) V.
Proof.
  intros Hy Hx Hst t l Hl. rewrite (lookup_set_pc s id x y t Hy) in Hl. case_decide; [by injection Hl as ->; edestruct Hx|].
  rewrite stage_set_pc. by apply Hst.
Qed.

Lemma stages_set_pending s V id p : stages s V -> stages (set_pending id p s) V.
Proof. intros Hst t l Hl. destruct (Hst t l Hl) as [-> Hs]. split; [done|]. by destruct l as [| | | | |? [] ? ?| | | | |]. Qed.

Lemma inv_loop s V id : G s V -> stages s V -> pcs s !! id = Some Woken -> exists s', write_loop id s = Some s' /\ I s'.
Proof.
  intros H Hst Hw. destruct (woken_pending s V id H Hw) as [p Hp]. unfold write_loop. rewrite Hp. cbn [mbind option_bind].
  destruct (is_done p) eqn:Ed.
  - eexists. split; [reflexivity|]. exists V. split; [by apply move_return|].
    apply (stages_set_pc _ _ _ _ Woken); [done|done|]. by apply stages_set_pending.
  - destruct (leader_active s) eqn:Ea.
    + eexists. split; [reflexivity|]. exists V. split; [by apply move_park|]. by apply (stages_set_pc _ _ _ _ Woken).
    + eexists. split; [reflexivity|]. rewrite (g_active _ _ _ _ _ H) in Ea. apply bool_decide_eq_false in Ea.
      destruct V as [W|]; [by destruct Ea|]. eexists. split; [by apply move_lead|].
      intros t l Hl. rewrite (lookup_set_pc (set_leader true s) id _ Woken t Hw) in Hl. case_decide as E.
      * injection Hl as <-. subst t. split; [done|]. cbn. pose proof (proj2 (g_own _ _ _ _ _ H id) (ex_intro _ p (conj Hp Ed))). done.
      * by destruct (Hst t l Hl) as [? _].
Qed.

Lemma write_loop_pc s id x : write_loop id (set_pc id x s) = write_loop id s.
Proof.
  unfold write_loop, pending, set_pc, set_pcs, set_pending, set_pends, set_leader. cbn.
  destruct (mjoin (pends s !! id)) as [p|]; [|done]. cbn. rewrite !list_insert_insert_eq. done.
Qed.

Lemma led_done s id en : G s (Some (view_of id (@LDone D O))) -> led LDone s (lead_step this id LDone en s).
Proof.
  intros H. cbn [lead_step]. apply (move_retire s id) in H as H'.
  rewrite <- (write_loop_pc _ _ Woken).
  destruct (proj2 (g_lead _ _ _ _ _ H id) eq_refl) as [l0 Hl0].
  destruct (inv_loop _ None id H') as (s' & -> & Hs); [| |done].
  - intros t l Hl. pose proof (proj1 (g_lead _ _ _ _ _ H' t) (ex_intro _ _ Hl)). done.
  - cbn. rewrite list_lookup_insert_eq; [done|]. rewrite length_map. by eapply lookup_lt_Some.
Qed.

Lemma lead_ok s id l en : G s (Some (view_of id l)) -> stage_ok this s id l -> led l s (lead_step this id l en s).
Proof.
  destruct l; eauto using led_begin, led_failed, led_drain, led_run, led_commit, led_reset, led_one, led_one_run,
    led_one_commit, led_finish, led_done.
Qed.

Lemma inv_wake s V id : G s V -> stages s V -> pcs s !! id = Some Woken -> exists s', wake id s = Some s' /\ I s'.
Proof.
  intros H Hst Hw. destruct (woken_pending s V id H Hw) as [p Hp]. destruct (inv_loop s V id H Hst Hw) as (s' & Hl & Hs).
  unfold wake. rewrite Hp. cbn. destruct (is_done p || _) eqn:E; [eauto|]. apply orb_false_iff in E as [_ E].
  apply negb_false_iff in E. eexists. split; [reflexivity|]. exists V. split; [by apply move_park|].
  by apply (stages_set_pc _ _ _ _ Woken).
Qed.

Lemma move_spurious s V id : pcs s !! id = Some Parked -> G s V -> G (set_pc id Woken s) V.
Proof.
  intros Hw H. pose proof (fun t => lookup_set_pc s id Woken Parked t Hw) as Hc. cbn in Hc.
  destruct H; split; cbn in *; rewrite ?length_insert; try done.
  - intros t. rewrite Hc, <- g_lead. case_decide; [subst; rewrite Hw; split; by intros [? [=]]|done].
  - intros t Ht. rewrite Hc in Ht. case_decide; [done|by apply (g_parked t)].
  - intros t. rewrite g_ret, Hc. case_decide; [subst; rewrite Hw; split; by intros [? [=]]|done].
  - intros t r Hr. apply g_out. revert Hr. unfold result_of. cbn. rewrite Hc.
    case_decide; [subst; rewrite Hw; by destruct (pends s !! id) as [[]|]|done].
Qed.

(** ** All steps *)

Lemma v_id_view id (l : Lead D O) : v_id (view_of id l) = id.
Proof. by destruct l as [| | | | | | | | |? []|]. Qed.

Lemma stages_frame s s' V : G s V -> stages s V -> pcs s' = pcs s -> (forall id, db_writer s = Some (WCall id) -> db_data s' = db_data s) ->
  queue s' = queue s -> faults s' = faults s -> fns s' = fns s -> (forall t v, acked s t v <-> acked s' t v) -> stages s' V.
Proof.
  intros H Hst E1 Hd E2 E3 E4 Ha id l Hl. rewrite E1 in Hl. destruct (Hst id l Hl) as [HV Hs]. split; [done|].
  eapply (stage_frame s s' V); try done; rewrite ?E2, ?E3, ?E4; try done.
  intros Hh. apply (Hd id), (g_lock _ _ _ _ _ H). rewrite HV. split; [apply v_id_view|done].
Qed.

Lemma inv_write s t f : I s -> exists s', write this t f s = Some s' /\ I s'.
Proof.
  intros (V & H & Hst). unfold write. unfold in_closure_of.
  assert (Hes : forall x p, enters (this := this) x p t f -> G (enter s x p t f) V /\ stages (enter s x p t f) V).
  { intros x p Hx. split; [by apply move_enter|]. intros id l Hl. cbn in Hl. apply lookup_snoc_alt in Hl as [Hl|[_ ->]]; [|by destruct p].
    destruct (Hst id l Hl) as [HV Hs]. split; [done|]. eapply (stage_frame s _ V); try done.
    - intros i Hi. cbn. apply elem_of_app. by left.
    - intros i c Hi. cbn. apply lookup_snoc_alt. by left. }
  case_bool_decide as Ht.
  - eexists. split; [reflexivity|]. destruct (Hes (Returned (inr LogicError)) None) as [H1 H2]; [done|].
    exists V. unfold enter in H1, H2. rewrite app_nil_r in H1, H2. done.
  - destruct (Hes Woken (Some (mkPending f 0 None false))) as [H1 H2]; [done|].
    apply (inv_loop _ V _ H1 H2). cbn. apply lookup_snoc_alt. by right.
Qed.

Lemma inv_call s id en s' : I s -> call_step this id en s = Some s' -> I s'.
Proof.
  intros (V & H & Hst). unfold call_step. destruct (pcs s !! id) as [[| |l|r]|] eqn:Ep; cbn; try done.
  - intros Hw. destruct (inv_wake s V id H Hst Ep) as (s1 & Hw' & Hs). congruence.
  - intros Hl. destruct (Hst id l Ep) as [-> Hs]. pose proof (lead_ok s id l en H Hs) as Hled. by rewrite Hl in Hled.
Qed.

Lemma inv_step a s s' : I s -> step this a s = Some s' -> I s'.
Proof.
  intros HI. pose proof HI as (V & H & Hst). destruct a as [t f|id en|id| |d|]; cbn.
  - intros Hw. destruct (inv_write s t f HI) as (s1 & Hw' & Hs). congruence.
  - by apply inv_call.
  - destruct (pcs s !! id) as [[| |l|r]|] eqn:Ep; cbn; try done. intros [= <-]. exists V.
    split; [by apply move_spurious|]. by apply (stages_set_pc _ _ _ _ Parked).
  - destruct (db_writer s) eqn:Ew; [done|]. intros [= <-]. exists V. split; [apply move_other; try done; by rewrite Ew|].
    apply (stages_frame s); try done.
  - destruct (db_writer s) as [[id|]|] eqn:Ew; try done. intros [= <-]. exists V.
    split; [apply (move_other (publish _ _ s)); [cbn; by rewrite Ew|done|by apply move_other_commit]|].
    apply (stages_frame s); try done; [by rewrite Ew|]. intros t v. unfold acked. cbn. setoid_rewrite elem_of_app.
    split; [intros (o & cs & ? & ?); by eauto|]. intros (o & cs & [Hin|Hin] & Hm); [by eauto|]. by apply list_elem_of_singleton in Hin.
  - destruct (db_writer s) as [[id|]|] eqn:Ew; try done. intros [= <-]. exists V.
    split; [apply move_other; try done; by rewrite Ew|]. apply (stages_frame s); try done.
Qed.

Lemma inv_start : I (@start D O d0 v0).
Proof.
  exists None. split; [|done]. split; cbn; try done.
  - intros id. split; [by intros [? [=]]|done].
  - intros id. split; [done|by intros [? [=]]].
  - intros id. split; [by intros ?%elem_of_nil|by intros (? & ? & _)].
  - by intros id ?%elem_of_nil.
  - constructor.
  - constructor.
  - lia.
  - by intros v o cs a id c ?%elem_of_nil.
Qed.

Lemma inv_steps l s s' : I s -> steps this l s = Some s' -> I s'.
Proof.
  revert s. induction l as [|a l IH]; intros s HI; cbn; [by intros [= <-]|].
  destruct (step this a s) as [s1|] eqn:E; cbn; [|done]. apply IH. by eapply inv_step.
Qed.

End Run.
