(* ===== verification/GroupCommitTheorems.v ===== *)
(** * Group commit: theorems

    The commits of the store are the calls of [write] one after the other in the
    order in which they queued up; a call that returns a version is in the commit of
    that version, exactly once; one that throws was not confirmed, and the exception
    is its own or the engine's.  Every call returns. *)

From stdpp Require Import sorting strings.
From S2P Require Import Prelude Tx GroupCommit GroupCommitInv GroupCommitRun.

(** ** Termination: a measure *)

Section Measure.
Context {D O : Type} {this : nat} {d0 : D} {v0 : Z}.
Implicit Type s : State D O.

Abbreviation I := (inv this d0 v0).

(** What is left of a batch, for [n] calls in all. *)
Definition phase (n : Z) (l : Lead D O) : Z :=
  let len (b : list nat) := Z.of_nat (length b) in
  match l with
  | LBegin => 2
  | LFailed _ | LDrain _ => 1
  | LRun b i _ => n + 8 + 3 * len b + Z.of_nat (length b - i)
  | LCommit b _ => n + 7 + 3 * len b
  | LReset b _ _ _ => n + 6 + 3 * len b
  | LOne b _ _ i => n + 5 + 3 * Z.of_nat (length b - i)
  | LOneRun b _ _ i _ => n + 4 + 3 * Z.of_nat (length b - i)
  | LOneCommit b _ _ i _ => n + 3 + 3 * Z.of_nat (length b - i)
  | LFinish _ _ => n + 4
  | LDone => n + 3
  end.

Definition weight (n : Z) (x : Pc D O) : Z :=
  match x with Parked | Returned _ => 0 | Woken => 1 | Leading l => phase n l end.

Definition measure s : Z :=
  let n := Z.of_nat (length (pcs s)) in
  (n + 12) * Z.of_nat (length (queue s)) + sumf (weight n) (pcs s) + (if leader_active s then 0 else 2).

Lemma measure_nonneg s : 0 <= measure s.
Proof.
  unfold measure. pose proof (sumf_nonneg (weight (Z.of_nat (length (pcs s)))) (pcs s)) as H.
  assert (0 <= sumf (weight (Z.of_nat (length (pcs s)))) (pcs s)); [apply H|destruct (leader_active s); nia].
  intros [| |l|r]; cbn; try lia. destruct l; cbn; lia.
Qed.

(** A thread moves from [x] to [y]. *)
Lemma measure_pc s id x y s1 : pcs s !! id = Some x -> pcs s1 = pcs s ->
  let n := Z.of_nat (length (pcs s)) in
  measure (set_pc id y s1) = measure s - weight n x + weight n y +
    (n + 12) * (Z.of_nat (length (queue s1)) - Z.of_nat (length (queue s))) +
    (if leader_active s1 then 0 else 2) - (if leader_active s then 0 else 2).
Proof.
  intros Hx E n. unfold measure. cbn. rewrite length_insert, E. rewrite (sumf_insert _ _ x) by done. fold n. nia.
Qed.

Lemma sumf_notify n (l : list (Pc D O)) : 0 <= n -> sumf (weight n) (map notify l) <= sumf (weight n) l + Z.of_nat (length l).
Proof.
  intros Hn. induction l as [|x l IH]; [cbn; lia|]. cbn [map sumf length].
  assert (weight n (notify x) <= weight n x + 1) by (destruct x as [| |[]|]; cbn; lia). lia.
Qed.

(** Steps that leave the threads and the queue alone. *)
Definition same_threads s s1 : Prop := pcs s1 = pcs s /\ queue s1 = queue s /\ leader_active s1 = leader_active s.

Lemma same_threads_trans s s1 s2 : same_threads s s1 -> same_threads s1 s2 -> same_threads s s2.
Proof. unfold same_threads. intros (<- & <- & <-) H. exact H. Qed.

Lemma update_frame id f s s' : update_pending id f s = Some s' -> same_threads s s'.
Proof. unfold update_pending. destruct (pending id s); cbn; [by intros [= <-]|done]. Qed.

Lemma finish_frame b r s s' : finish b r s = Some s' -> same_threads s s'.
Proof.
  revert s. induction b as [|id b IH]; intros s; cbn [finish]; [by intros [= <-]|].
  destruct (update_pending id _ s) as [s1|] eqn:E; cbn; [|done]. intros Hf.
  apply (same_threads_trans _ s1); [by eapply update_frame|by apply IH].
Qed.

Lemma drop_tx_frame (tx : Tx D O) s : same_threads s (drop_tx tx s).
Proof. unfold drop_tx. by destruct (dtor_rolls_back tx). Qed.

Lemma commit_frame cs tx en s : same_threads s (commit_group cs tx en s).1.
Proof.
  unfold commit_group. destruct (commit_check _) as [[]| |]; try done. destruct en as [o|e pu []]; [done|by rewrite orb_true_r|].
  rewrite orb_false_r. by destruct pu.
Qed.

Definition less s s' : Prop := measure s' < measure s /\ length (pcs s') = length (pcs s).

Lemma less_go s s1 id l l' : pcs s !! id = Some (Leading l) -> same_threads s s1 ->
  phase (Z.of_nat (length (pcs s))) l' < phase (Z.of_nat (length (pcs s))) l -> less s (set_pc id (Leading l') s1).
Proof.
  intros Hl (E1 & E2 & E3) Hp. unfold less. rewrite (measure_pc s id (Leading l) _ s1) by done. rewrite E2, E3.
  split; [cbn [weight]; lia|]. cbn. by rewrite length_insert, E1.
Qed.

Lemma less_drain s id l b l' : pcs s !! id = Some (Leading l) -> 1 <= phase (Z.of_nat (length (pcs s))) l ->
  id ∈ queue s -> b = (drain s).1 ->
  phase (Z.of_nat (length (pcs s))) l' <= Z.of_nat (length (pcs s)) + 8 + 4 * Z.of_nat (length b) ->
  less s (set_pc id (Leading l') (drain s).2).
Proof.
  intros Hl H1 Hq -> Hp. unfold less. rewrite (measure_pc s id (Leading l) _ (drain s).2) by done.
  split; [|cbn; by rewrite length_insert]. pose proof (drain_elem s id Hq) as Hne. unfold drain in *. cbn [fst snd weight set_queue queue leader_active] in *.
  assert (length (take max_batch (queue s)) <> 0)%nat by (by destruct (take max_batch (queue s))).
  assert (Hsum : length (queue s) = (length (take max_batch (queue s)) + length (drop max_batch (queue s)))%nat)
    by (by rewrite <- length_app, take_drop).
  nia.
Qed.

Lemma loop_less s id s' : pcs s !! id = Some Woken -> write_loop id s = Some s' -> less s s'.
Proof.
  intros Hw. unfold write_loop. destruct (pending id s) as [p|]; cbn [mbind option_bind]; [|done].
  destruct (is_done p); [|destruct (leader_active s) eqn:Ea]; intros [= <-]; unfold less;
    (split; [|cbn; by rewrite length_insert]);
    (rewrite (measure_pc s id Woken) by done; cbn [weight phase queue set_pending set_pends set_leader leader_active]; try rewrite Ea; lia).
Qed.

Lemma done_less s id en s' : pcs s !! id = Some (Leading LDone) -> leader_active s = true ->
  lead_step this id LDone en s = Some s' -> less s s'.
Proof.
  intros Hl Ha. cbn [lead_step]. rewrite <- (write_loop_pc _ _ Woken). intros Hs.
  assert (Hw : pcs (set_pc id Woken (notify_all (set_leader false s))) !! id = Some Woken).
  { cbn. rewrite list_lookup_insert_eq; [done|]. rewrite length_map. by eapply lookup_lt_Some. }
  destruct (loop_less _ _ _ Hw Hs) as [H1 H2]. cbn in H2. rewrite length_insert, length_map in H2. split; [|done].
  enough (measure (set_pc id Woken (notify_all (set_leader false s))) <= measure s) by lia.
  unfold measure. cbn. rewrite length_insert, length_map, Ha.
  set (n := Z.of_nat (length (pcs s))). pose proof (sumf_notify n (pcs s) ltac:(lia)) as Hn.
  rewrite (sumf_insert _ id (Leading LDone)); [cbn; lia|].
  change (map notify (pcs s)) with (notify <$> pcs s). by rewrite list_lookup_fmap, Hl.
Qed.

Lemma lead_less s id l en s' : pcs s !! id = Some (Leading l) -> leader_active s = true -> stage_ok this s id l ->
  lead_step this id l en s = Some s' -> less s s'.
Proof.
  intros Hl Ha Hst. destruct l as [|e|tx|b i tx|b tx|b th e tx|b j e i|b j e i tx|b j e i tx|b r|]; cbn [lead_step].
  - destruct (in_closure_of _ _); [intros [= <-]; by apply (less_go s _ id LBegin)|].
    destruct en as [o|e pu ended]; [destruct (db_writer s); [done|]|]; intros [= <-]; by apply (less_go s _ id LBegin).
  - destruct Hst as [Hq _]. intros [= <-]. apply (less_drain s id (LFailed e) (drain s).1); try done. cbn. lia.
  - destruct Hst as [Hq _]. intros [= <-]. apply (less_drain s id (LDrain tx) (drain s).1); try done.
    unfold drain. cbn [phase fst]. rewrite Nat.sub_0_r. lia.
  - destruct Hst as (_ & Hi & _). destruct (b !! i) as [t|] eqn:Et.
    + apply lookup_lt_Some in Et. destruct (pending t s) as [p|]; cbn [mbind option_bind]; [|done].
      destruct (run_closure _ _ _) as [tx' [e|]]; intros [= <-]; apply (less_go s s id (LRun b i tx)); try done; cbn [phase]; lia.
    + intros [= <-]. apply (less_go s s id (LRun b i tx)); try done; cbn [phase]; lia.
  - pose proof (commit_frame (entries b s) tx en s) as Hf. destruct (commit_group _ _ _ _) as [s1 [v|[tx' e]]];
      intros [= <-]; apply (less_go s s1 id (LCommit b tx)); try done; cbn [phase]; lia.
  - pose proof (drop_tx_frame tx s) as Hf. destruct th as [j|]; [destruct (length b =? 1)%nat|]; intros [= <-];
      apply (less_go s _ id (LReset b _ e tx) _ Hl Hf); cbn [phase]; lia.
  - destruct Hst as (_ & Hi & _). destruct (b !! i) as [t|] eqn:Et.
    + apply lookup_lt_Some in Et. destruct (i =? j)%nat.
      * destruct (update_pending _ _ s) as [s1|] eqn:Eu; cbn; [|done]. apply update_frame in Eu. intros [= <-].
        apply (less_go s s1 id (LOne b j e i)); try done. cbn [phase]. lia.
      * destruct en as [o|e' pu ended]; [destruct (db_writer s); [done|]; intros [= <-]|].
        -- apply (less_go s _ id (LOne b j e i)); try done. cbn [phase]. lia.
        -- destruct (update_pending _ _ _) as [s1|] eqn:Eu; cbn; [|done]. apply update_frame in Eu. intros [= <-].
           apply (less_go s s1 id (LOne b j e i)); try done. cbn [phase]. lia.
    + intros [= <-]. apply (less_go s s id (LOne b j e i)); try done. cbn [phase]. lia.
  - destruct Hst as (_ & Hi & _). destruct (b !! i) as [t|]; cbn [mbind option_bind]; [|done].
    destruct (pending t s) as [p|]; cbn [mbind option_bind]; [|done]. destruct (run_closure _ _ _) as [tx' [e'|]].
    + destruct (update_pending _ _ s) as [s1|] eqn:Eu; cbn; [|done]. apply update_frame in Eu. intros [= <-].
      pose proof (drop_tx_frame tx' s1) as Hf. apply (less_go s _ id (LOneRun b j e i tx)); [done| |cbn [phase]; lia].
      by apply (same_threads_trans _ s1).
    + intros [= <-]. apply (less_go s s id (LOneRun b j e i tx)); try done. cbn [phase]. lia.
  - destruct Hst as (_ & Hi & _). destruct (b !! i) as [t|]; cbn [mbind option_bind]; [|done].
    pose proof (commit_frame (entries [t] s) tx en s) as Hc. destruct (commit_group _ _ _ _) as [s0 r]. cbn in Hc.
    destruct r as [v|[tx' e']]; (destruct (update_pending _ _ s0) as [s1|] eqn:Eu; cbn; [|done]); apply update_frame in Eu; intros [= <-].
    + apply (less_go s s1 id (LOneCommit b j e i tx)); [done| |cbn [phase]; lia]. by apply (same_threads_trans _ s0).
    + pose proof (drop_tx_frame tx' s1) as Hf. apply (less_go s _ id (LOneCommit b j e i tx)); [done| |cbn [phase]; lia].
      apply (same_threads_trans _ s0); [done|]. by apply (same_threads_trans _ s1).
  - destruct (finish b r s) as [s1|] eqn:Ef; cbn; [|done]. apply finish_frame in Ef. intros [= <-].
    apply (less_go s s1 id (LFinish b r)); try done. cbn [phase]. lia.
  - by apply (done_less s id en).
Qed.

Lemma call_less s id en s' : I s -> call_step this id en s = Some s' -> less s s'.
Proof.
  intros (V & H & Hst). unfold call_step. destruct (pcs s !! id) as [[| |l|r]|] eqn:Ep; cbn [mbind option_bind]; try done.
  - unfold wake. destruct (pending id s) as [p|] eqn:Hp; cbn [mbind option_bind]; [|done].
    destruct (is_done p || _) eqn:E; [by apply loop_less|]. apply orb_false_iff in E as [Ed Ea]. apply negb_false_iff in Ea.
    intros [= <-]. apply (loop_less s id); [done|]. unfold write_loop. rewrite Hp. cbn. by rewrite Ed, Ea.
  - intros Hl. destruct (Hst id l Ep) as [HV Hs]. apply (lead_less s id l en); try done.
    rewrite (g_active _ _ _ _ _ H), HV. by apply bool_decide_true.
Qed.

Definition is_call (a : Action D O) : Prop := match a with ACall _ _ => True | _ => False end.

Lemma calls_bounded l s s' : I s -> Forall is_call l -> steps this l s = Some s' -> Z.of_nat (length l) <= measure s - measure s'.
Proof.
  revert s. induction l as [|a l IH]; intros s HI Ha; cbn [steps]; [intros [= <-]; cbn; lia|].
  apply Forall_cons_iff in Ha as [Ha Hl]. destruct a as [|id en| | | |]; try done. cbn [step].
  destruct (call_step this id en s) as [s1|] eqn:Ec; cbn [mbind option_bind]; [|done]. intros Hs.
  pose proof (IH s1 (inv_call s id en s1 HI Ec) Hl Hs). destruct (call_less s id en s1 HI Ec) as [Hless _]. cbn [length]. lia.
Qed.

(** A call that has not come back finds a thread that can run, whatever the engine
    does, unless another writer of the file has the lock. *)
Lemma calls_progress s id x : I s -> db_writer s <> Some WOther -> pcs s !! id = Some x -> (forall r, x <> Returned r) ->
  exists t, forall en, is_Some (call_step this t en s).
Proof.
  intros (V & H & Hst) Hw Hx Hr. destruct V as [W|].
  - destruct (proj2 (g_lead _ _ _ _ _ H (v_id W)) eq_refl) as [l Hl]. destruct (Hst _ _ Hl) as [HW Hs]. exists (v_id W). intros en.
    unfold call_step. rewrite Hl. cbn [mbind option_bind]. rewrite HW in H. pose proof (lead_ok s (v_id W) l en H Hs) as Hled.
    destruct (lead_step this (v_id W) l en s) as [s'|]; [done|]. exfalso. cbn in Hled.
    assert (Hnh : v_holds (view_of (v_id W) l) = false) by (destruct l as [| | | | | | | | |? []|]; done).
    destruct (db_writer s) as [[t|]|] eqn:Ew; [|done|by destruct l].
    apply (g_lock _ _ _ _ _ H) in Ew as [_ Ew]. congruence.
  - exists id. intros en. unfold call_step. rewrite Hx. cbn [mbind option_bind]. destruct x as [| |l|r].
    + by destruct (g_parked _ _ _ _ _ H id Hx).
    + destruct (inv_wake s None id H Hst Hx) as (s' & -> & _). done.
    + by destruct (Hst id l Hx).
    + by edestruct Hr.
Qed.

(** ** Each call is in one commit at most *)

Lemma ids_unique (l : list (Entry D O)) i j en en' id : StronglySorted lt (ids_of l) -> l !! i = Some en -> l !! j = Some en' ->
  id ∈ entry_ids en -> id ∈ entry_ids en' -> i = j.
Proof.
  revert i j. induction l as [|e l IH]; intros i j Hs Hi Hj H1 H2; [done|]. change (ids_of (e :: l)) with (entry_ids e ++ ids_of l) in Hs.
  assert (Hin : forall k e', l !! k = Some e' -> id ∈ entry_ids e' -> id ∈ ids_of l).
  { intros k e' Hk He. unfold ids_of. apply list_elem_of_In, in_concat. exists (entry_ids e'). split; [|by apply list_elem_of_In].
    apply in_map, list_elem_of_In. by eapply list_elem_of_lookup_2. }
  destruct i as [|i], j as [|j]; cbn in Hi, Hj; simplify_eq; [done| | |].
  - pose proof (StronglySorted_app_1_elem_of _ _ _ _ _ Hs H1 (Hin _ _ Hj H2)). lia.
  - pose proof (StronglySorted_app_1_elem_of _ _ _ _ _ Hs H2 (Hin _ _ Hi H1)). lia.
  - f_equal. apply (IH i j); try done. by apply StronglySorted_app_1_r in Hs.
Qed.

Lemma acked_unique s V id w w' : ginv this d0 v0 s V -> acked s id w -> acked s id w' -> w = w'.
Proof.
  intros H (o & cs & H1 & Hid) (o' & cs' & H2 & Hid').
  apply list_elem_of_lookup in H1 as [i Hi]. apply list_elem_of_lookup in H2 as [j Hj].
  assert (i = j) as ->; [|congruence].
  apply (ids_unique (log s) i j _ _ id (StronglySorted_app_1_l _ _ _ (g_sort _ _ _ _ _ H)) Hi Hj); done.
Qed.

End Measure.

(** ** The theorems *)

Section Theorems.
Context {D O : Type}.
Implicit Type s : State D O.

(** Claim C10.  Group commit is serializable in the order of the queue.  Whatever the
    threads, the engine and other writers of the file do, the data of the store is
    what the logged commits give one after the other, every closure running to its
    end on the data the one before left; each call is in at most one commit and
    the commits take the calls in the order in which they were queued; a call that
    returns a version is, with its own closure, in the confirmed commit of that
    version, and a confirmed commit is confirmed to each of its calls; one that
    throws is in no confirmed commit. *)
Theorem group_commit_serializable (this : nat) (d : D) (v : Z) (l : list (Action D O)) s :
  steps this l (start d v) = Some s ->
  replay this (log s) d = Some (db_data s) /\
  StronglySorted lt (ids_of (log s)) /\
  (forall i en, log s !! i = Some en -> entry_version en = v + 1 + Z.of_nat i) /\
  forall id r, pcs s !! id = Some (Returned r) ->
    match r with
    | inl w => exists o cs c, ByGroup w o cs true ∈ log s /\ (id, c) ∈ cs /\ snd <$> fns s !! id = Some c
    | inr _ => forall w, ~ acked s id w
    end /\ forall w, acked s id w -> r = inl w.
Proof.
  intros Hs. destruct (inv_steps l _ s (inv_start (this := this)) Hs) as (V & H & _). split; [by apply H|].
  split; [by apply (StronglySorted_app_1_l _ _ _ (g_sort _ _ _ _ _ H))|]. split; [by apply H|]. intros id r Hr.
  assert (Ho : outcome this s id r).
  { apply (g_out _ _ _ _ _ H). unfold result_of. rewrite (proj2 (g_ret _ _ _ _ _ H id)), Hr; eauto. }
  split; [|intros w Hw; destruct r as [w'|e]; [by rewrite (acked_unique s V id w w' H)|by destruct (proj1 Ho w Hw)]].
  destruct r as [w|e]; [|by destruct Ho]. destruct Ho as (o & cs & Hin & Hid).
  apply list_elem_of_In, in_map_iff in Hid as ([id' c] & Hx & Hc). cbn in Hx. subst id'. apply list_elem_of_In in Hc.
  exists o, cs, c. split; [done|]. split; [done|]. by apply (g_logfn _ _ _ _ _ H w o cs true).
Qed.

(** A call is never failed by another one: the exception it throws is
    one the engine threw, or one its own closure threw, or the refusal of a call
    made from inside a closure of the same store. *)
Theorem group_commit_own_fault (this : nat) (d : D) (v : Z) (l : list (Action D O)) s id e :
  steps this l (start d v) = Some s -> pcs s !! id = Some (Returned (inr e)) ->
  e ∈ faults s \/
  exists t f, fns s !! id = Some (t, f) /\
    ((t = Some this /\ e = LogicError) \/ exists tx : Tx D O, (run_closure (Some this) f tx).2 = Some e).
Proof.
  intros Hs Hr. destruct (inv_steps l _ s (inv_start (this := this)) Hs) as (V & H & _).
  assert (Ho : outcome this s id (inr e)); [|by destruct Ho].
  apply (g_out _ _ _ _ _ H). unfold result_of. rewrite (proj2 (g_ret _ _ _ _ _ H id)), Hr; eauto.
Qed.


(** A closure that shares its transaction with a batch cannot end it, nor
    start another one on the same store: its attempts throw and leave the
    transaction open with the lock held. *)
Theorem closure_contained (this : nat) (c : closure D O) (tx : Tx D O) : m_batched tx = true ->
  let tx' := (run_closure (Some this) c tx).1 in
  m_stage tx' = m_stage tx /\ m_batched tx' = true /\
  forall k, run_closure (Some this) (TxCommit k) tx = run_closure (Some this) (k (Some LogicError)) tx /\
       run_closure (Some this) (TxRollback k) tx = run_closure (Some this) (k (Some LogicError)) tx /\
       run_closure (Some this) (StoreWrite this k) tx = run_closure (Some this) (k (Some LogicError)) tx.
Proof.
  intros Hb. destruct (run_data_env (Some this) c tx Hb) as (_ & H1 & H2 & _). split; [done|]. split; [done|].
  intros k. destruct (batched_guard tx Hb) as [Hc Hr]. cbn [run_closure]. rewrite Hc, Hr. split; [done|]. split; [done|].
  unfold in_closure_of. by rewrite bool_decide_true.
Qed.

End Theorems.

(** ** A run

    Four calls share a batch; the third throws, so the others run on their own.  The
    data is a list, to which each closure appends its number. *)

Module GroupDemo.

Abbreviation cl := (closure (list nat) unit).

Definition app_one (n : nat) : cl := Access (fun _ d => (d ++ [n], None)) (fun _ _ => Return).

(** It tries to commit, catches the refusal, and throws. *)
Definition bad : cl := TxCommit (fun e => if e is Some _ then Raise (UserError 7) else Return).

Definition call (id n : nat) : list (Action (list nat) unit) := repeat (ACall id (EOk tt)) n.

Definition run : list (Action (list nat) unit) :=
  [AWrite None (app_one 1)] ++ call 0 1 ++ [AWrite None (app_one 2); AWrite None bad; AWrite None (app_one 3)] ++
  call 0 5 ++ call 0 13 ++ call 3 1 ++ call 2 1 ++ call 1 1.

Definition results (s : State (list nat) unit) : list (option (Z + Exn)) :=
  map (fun x => match x with Returned r => Some r | _ => None end) (pcs s).

(** The state after it. *)
Definition final : State (list nat) unit := default (start [] 0) (steps 5 run (start [] 10)).

Lemma final_ok : steps 5 run (start [] 10) = Some final /\ db_data final = [1; 2; 3]%nat /\
  results final = [Some (inl 11); Some (inl 12); Some (inr (UserError 7)); Some (inl 13)].
Proof. split; [vm_compute; reflexivity|]. split; vm_compute; reflexivity. Qed.

(** The state in the middle of it: the leader has the lock, the others sleep. *)
Definition middle : State (list nat) unit := default (start [] 0) (steps 5 (take 6 run) (start [] 10)).

(** One call leads a batch of its own while 65 others queue up; when it is done, the
    last of them is the first to wake up. *)
Definition crowd : list (Action (list nat) unit) :=
  [AWrite None (app_one 0)] ++ call 0 2 ++ map (fun n => AWrite None (app_one n)) (seq 1 65) ++ call 0 5 ++ call 65 3.

End GroupDemo.

Lemma group_commit_serializable_witness :
  db_data GroupDemo.final = [1; 2; 3]%nat /\ replay 5 (log GroupDemo.final) [] = Some (db_data GroupDemo.final) /\
  pcs GroupDemo.final !! 3%nat = Some (Returned (inl 13)) /\ forall w, ~ acked GroupDemo.final 2 w.
Proof.
  destruct (group_commit_serializable 5 [] 10 GroupDemo.run GroupDemo.final) as (H1 & _ & _ & H2); [apply GroupDemo.final_ok|].
  split; [apply GroupDemo.final_ok|]. split; [exact H1|]. split; [vm_compute; reflexivity|].
  intros w. apply (proj1 (H2 2%nat (inr (UserError 7)) ltac:(vm_compute; reflexivity)) w).
Defined.

Lemma group_commit_own_fault_witness :
  UserError 7 ∈ faults GroupDemo.final \/
  exists t f, fns GroupDemo.final !! 2%nat = Some (t, f) /\
    ((t = Some 5%nat /\ UserError 7 = LogicError) \/
     exists tx : Tx (list nat) unit, (run_closure (Some 5%nat) f tx).2 = Some (UserError 7)).
Proof.
  apply (group_commit_own_fault 5 [] 10 GroupDemo.run GroupDemo.final 2 (UserError 7)); [apply GroupDemo.final_ok|].
  vm_compute. reflexivity.
Defined.


Lemma closure_contained_witness :
  m_stage (run_closure (Some 5%nat) GroupDemo.bad (set_batched true (begin_tx [] tt))).1 = transact_Writing.
Proof. apply (closure_contained 5 GroupDemo.bad (set_batched true (begin_tx [] tt))). reflexivity. Defined.

(** A leader may run a batch without its own call: with more calls in the
    queue than a batch takes, the thread that wakes up first need not be among the
    first in the queue.  (It leads again afterwards; see the theorem above on
    calls returning.) *)
Theorem leader_without_own_call : exists (s : State (list nat) unit) id b tx,
  steps 5 GroupDemo.crowd (start [] 10) = Some s /\ pcs s !! id = Some (Leading (LRun b 0 tx)) /\
  length b = max_batch /\ id ∉ b.
Proof.
  eexists _, 65%nat, _, _. split; [vm_compute; reflexivity|]. split; [vm_compute; reflexivity|].
  split; [reflexivity|]. apply (bool_decide_unpack _). vm_compute. exact I.
Qed.
