(* ===== verification/AsyncCommit.v ===== *)
(** * The helper thread of asynchronous commits (db.cpp)

    [DB::AsyncCommitHelper] owns a worker thread that acquires the write mutex
    for transactions, calls them back when they have it, syncs their commits to
    disk and releases the mutex.  A thread that asks for the mutex and waits gets
    it through the worker by a ticket, or takes it by itself if no one else waits
    for the worker.

    The threads are a transition system.  A step is a critical section of
    [m_mutex], a call of [do_begin_write] that gets the mutex, or a callback.  A wait on
    [m_cv_callers] is a step that is possible when its condition holds, as every
    change of the conditions is followed by [notify_all]; a wait on [m_cv_worker]
    has no condition and is a state of the worker that only [notify_one] or a
    spurious wake-up ends.  Claim tickets are taken as unbounded. *)

From S2P Require Import Prelude.
Open Scope nat_scope.

(** ** State *)

(** Who has the write mutex: a thread of this process, or another process. *)
Inductive Holder := Ours | Foreign.

(** Where a client is: a thread with its transaction.
    [CDirect]: has the mutex by [do_begin_write] or [do_try_begin_write], without the helper;
    [CLocking]: in [do_begin_write] of [blocking_begin_write]; [CLocked]: that call
    is over; [CTicket]: waits for a ticket; [CHolds]: returned from
    [blocking_begin_write]; [CRequested]: its callback is queued or being called; [CHasLock]: an
    asynchronous transaction that has the mutex; [CEnding]: waits in
    [blocking_end_write]; [CSyncing]: waits for its commits to be synced. *)
Inductive CallerPc :=
| CIdle | CDirect | CLocking | CLocked | CTicket (ticket : nat) | CHolds
| CRequested | CHasLock | CEnding | CSyncing.

(** Where the worker is: not started, about to enter the body of the loop, in
    [m_cv_worker.wait], in [do_begin_write], behind it, in a callback of a write
    request, in a sync, behind it, and at the end of [main]. *)
Inductive WorkerPc :=
| WNone | WRun | WWait | WLocking | WLocked | WCallback (t : nat) | WSync (t : nat) | WSynced | WDone.

Record AsyncCommitHelper := mkHelper {
  m_pending_writes : list nat;
  m_pending_sync : option nat;
  m_write_lock_claim_ticket : nat;
  m_write_lock_claim_fulfilled : nat;
  m_pending_mx_release : bool;
  m_running : bool;
  m_has_write_mutex : bool;
  m_owns_write_mutex : bool;
  m_waiting_for_write_mutex : bool
}.

Record Sys := mkSys {
  helper : AsyncCommitHelper;
  writemutex : option Holder;
  worker : WorkerPc;
  callers : nat -> CallerPc;
  closing : bool
}.

Definition set_pending_writes l h := mkHelper l (m_pending_sync h) (m_write_lock_claim_ticket h) (m_write_lock_claim_fulfilled h) (m_pending_mx_release h) (m_running h) (m_has_write_mutex h) (m_owns_write_mutex h) (m_waiting_for_write_mutex h).
Definition set_pending_sync o h := mkHelper (m_pending_writes h) o (m_write_lock_claim_ticket h) (m_write_lock_claim_fulfilled h) (m_pending_mx_release h) (m_running h) (m_has_write_mutex h) (m_owns_write_mutex h) (m_waiting_for_write_mutex h).
Definition set_claims t f h := mkHelper (m_pending_writes h) (m_pending_sync h) t f (m_pending_mx_release h) (m_running h) (m_has_write_mutex h) (m_owns_write_mutex h) (m_waiting_for_write_mutex h).
Definition set_release b h := mkHelper (m_pending_writes h) (m_pending_sync h) (m_write_lock_claim_ticket h) (m_write_lock_claim_fulfilled h) b (m_running h) (m_has_write_mutex h) (m_owns_write_mutex h) (m_waiting_for_write_mutex h).
Definition set_running b h := mkHelper (m_pending_writes h) (m_pending_sync h) (m_write_lock_claim_ticket h) (m_write_lock_claim_fulfilled h) (m_pending_mx_release h) b (m_has_write_mutex h) (m_owns_write_mutex h) (m_waiting_for_write_mutex h).
Definition set_has has owns h := mkHelper (m_pending_writes h) (m_pending_sync h) (m_write_lock_claim_ticket h) (m_write_lock_claim_fulfilled h) (m_pending_mx_release h) (m_running h) has owns (m_waiting_for_write_mutex h).
Definition set_waiting b h := mkHelper (m_pending_writes h) (m_pending_sync h) (m_write_lock_claim_ticket h) (m_write_lock_claim_fulfilled h) (m_pending_mx_release h) (m_running h) (m_has_write_mutex h) (m_owns_write_mutex h) b.

Definition with_helper (f : AsyncCommitHelper -> AsyncCommitHelper) (s : Sys) : Sys :=
  mkSys (f (helper s)) (writemutex s) (worker s) (callers s) (closing s).
Definition with_mutex (o : option Holder) (s : Sys) : Sys :=
  mkSys (helper s) o (worker s) (callers s) (closing s).
Definition with_worker (w : WorkerPc) (s : Sys) : Sys :=
  mkSys (helper s) (writemutex s) w (callers s) (closing s).
Definition upd (t : nat) (c : CallerPc) (f : nat -> CallerPc) : nat -> CallerPc :=
  fun i => if i =? t then c else f i.
Definition with_caller (t : nat) (c : CallerPc) (s : Sys) : Sys :=
  mkSys (helper s) (writemutex s) (worker s) (upd t c (callers s)) (closing s).

Definition init_helper : AsyncCommitHelper := mkHelper [] None 0 0 false false false false false.
Definition init : Sys := mkSys init_helper None WNone (fun _ => CIdle) false.

(** ** Operations *)

Definition LLBT_ASSERT (b : bool) : result unit := if b then Ok tt else Throw AssertionFailed.

(** [m_cv_worker.notify_one()]. *)
Definition notify_worker (s : Sys) : Sys :=
  match worker s with WWait => with_worker WRun s | _ => s end.

Definition start_thread (s : Sys) : Sys :=
  if m_running (helper s) then s else with_worker WRun (with_helper (set_running true) s).

Definition has_pending_write_requests (h : AsyncCommitHelper) : bool :=
  (m_write_lock_claim_fulfilled h <? m_write_lock_claim_ticket h)
  || negb (bool_decide (m_pending_writes h = [])).

(** [do_end_write] asserts that a write transaction of this process is open. *)
Definition do_end_write (s : Sys) : result Sys :=
  _ ← LLBT_ASSERT (match writemutex s with Some Ours => true | _ => false end);
  Ok (with_mutex None s).

Section Operations.

(** [InterprocessMutex::is_thread_confined]: false on Apple platforms, true on others. *)
Variable is_thread_confined : bool.

Definition begin_write (t : nat) (s : Sys) : result Sys :=
  let s := start_thread s in
  let s := with_helper (fun h => set_pending_writes (m_pending_writes h ++ [t]) h) s in
  Ok (with_caller t CRequested (notify_worker s)).

Definition can_lock_on_caller (h : AsyncCommitHelper) : bool :=
  negb is_thread_confined
  && (negb (m_owns_write_mutex h) && bool_decide (m_pending_writes h = [])
      && (m_write_lock_claim_ticket h =? m_write_lock_claim_fulfilled h)).

(** [blocking_begin_write] up to the first point where the thread may block. *)
Definition blocking_begin_write (t : nat) (s : Sys) : result Sys :=
  let h := helper s in
  _ ← LLBT_ASSERT (can_lock_on_caller h || m_running h || is_thread_confined);
  if can_lock_on_caller h then
    Ok (with_caller t CLocking (with_helper (set_waiting true) s))
  else
    let s := start_thread s in
    let ticket := S (m_write_lock_claim_ticket h) in
    let s := with_helper (fun h => set_claims ticket (m_write_lock_claim_fulfilled h) h) s in
    Ok (with_caller t (CTicket ticket) (notify_worker s)).

(** [blocking_begin_write] behind [do_begin_write]. *)
Definition blocking_begin_locked (t : nat) (s : Sys) : result Sys :=
  Ok (with_caller t CHolds (with_helper (fun h => set_has true false (set_waiting false h)) s)).

Definition end_write (t : nat) (s : Sys) : result Sys :=
  _ ← LLBT_ASSERT (m_has_write_mutex (helper s));
  _ ← LLBT_ASSERT (m_owns_write_mutex (helper s) || negb is_thread_confined);
  if m_owns_write_mutex (helper s) then
    Ok (with_caller t CIdle (notify_worker (with_helper (set_release true) s)))
  else
    s ← do_end_write s;
    Ok (with_caller t CIdle (with_helper (fun h => set_has false (m_owns_write_mutex h) h) s)).

(** [blocking_end_write], up to the wait; [None] if it returns [false]. *)
Definition blocking_end_write (t : nat) (s : Sys) : result (option Sys) :=
  if negb (m_has_write_mutex (helper s)) then Ok None
  else
    _ ← LLBT_ASSERT (m_owns_write_mutex (helper s) || negb is_thread_confined);
    if m_owns_write_mutex (helper s) then
      Ok (Some (with_caller t CEnding (notify_worker (with_helper (set_release true) s))))
    else
      s ← do_end_write s;
      let s := with_helper (fun h => set_has false (m_owns_write_mutex h) h) s in
      let s := if has_pending_write_requests (helper s) then notify_worker s else s in
      Ok (Some (with_caller t CIdle s)).

Definition end_write_on_correct_thread (t : nat) (s : Sys) : result Sys :=
  o ← blocking_end_write t s;
  match o with
  | Some s => Ok s
  | None => s ← do_end_write s; Ok (with_caller t CIdle s)
  end.

Definition sync_to_disk (t : nat) (s : Sys) : result Sys :=
  _ ← LLBT_ASSERT (match m_pending_sync (helper s) with None => true | _ => false end);
  let s := with_helper (set_pending_sync (Some t)) (start_thread s) in
  Ok (with_caller t CSyncing (notify_worker s)).

(** [~AsyncCommitHelper] up to the [join]. *)
Definition destroy (s : Sys) : Sys :=
  let s := mkSys (helper s) (writemutex s) (worker s) (callers s) true in
  if negb (m_running (helper s)) then s
  else notify_worker (with_helper (set_running false) s).

(** The end of a sync or of a write in [main]. *)
Definition main_release (s : Sys) : result Sys :=
  _ ← LLBT_ASSERT (negb is_thread_confined || m_owns_write_mutex (helper s));
  s ← do_end_write s;
  Ok (with_worker WRun (with_helper (fun h => set_has false false (set_release false h)) s)).

(** The body of the loop of [main] up to the first point where the worker lets go
    of [m_mutex], and what follows the loop. *)
Definition main_body (s : Sys) : result Sys :=
  let h := helper s in
  if negb (m_running h) then
    if m_has_write_mutex h && m_owns_write_mutex h
    then s ← do_end_write s; Ok (with_worker WDone s)
    else Ok (with_worker WDone s)
  else if m_has_write_mutex h then
    match m_pending_sync h with
    | Some t =>
        _ ← LLBT_ASSERT (negb (m_pending_mx_release h));
        Ok (with_worker (WSync t) (with_helper (set_pending_sync None) s))
    | None => if m_pending_mx_release h then main_release s else Ok (with_worker WWait s)
    end
  else
    _ ← LLBT_ASSERT (match m_pending_sync h with None => negb (m_pending_mx_release h) | _ => false end);
    if negb (m_waiting_for_write_mutex h) && has_pending_write_requests h
    then Ok (with_worker WLocking s)
    else Ok (with_worker WWait s).

(** [main] behind the sync of a commit. *)
Definition main_synced (s : Sys) : result Sys :=
  main_release (with_helper (set_release true) s).

(** [main] behind [do_begin_write]. *)
Definition main_locked (s : Sys) : result Sys :=
  _ ← LLBT_ASSERT (negb (m_has_write_mutex (helper s)));
  let s := with_helper (set_has true true) s in
  let h := helper s in
  if m_write_lock_claim_fulfilled h <? m_write_lock_claim_ticket h then
    Ok (with_worker WRun
      (with_helper (set_claims (m_write_lock_claim_ticket h) (S (m_write_lock_claim_fulfilled h))) s))
  else
    match m_pending_writes h with
    | [] => Throw AssertionFailed
    | t :: rest => Ok (with_worker (WCallback t) (with_helper (set_pending_writes rest) s))
    end.

(** The callback that [async_request_write_mutex] queues. *)
Definition callback (t : nat) (s : Sys) : Sys := with_worker WRun (with_caller t CHasLock s).

(** The callback that [async_complete_writes] queues. *)
Definition sync_callback (t : nat) (s : Sys) : Sys := with_worker WSynced (with_caller t CIdle s).

(** ** Steps

    [Call]: a client starts an operation of the helper; [Finish]: a client that has
    the mutex gives it back; [Go]: a thread goes on in an operation; [Spurious]: the
    worker wakes up by itself; [Around]: the mutex goes to or comes from someone who
    does not use the helper.  A transaction is asynchronous by its
    request or by [promote_to_async]; the latter for a mutex locked without the helper is
    shown to fail in [Transaction]. *)
Inductive label := Call | Finish | Go | Spurious | Around.

Inductive step : label -> Sys -> result Sys -> Prop :=
| step_begin_write t s : closing s = false -> callers s t = CIdle -> step Call s (begin_write t s)
| step_blocking_begin t s : closing s = false -> callers s t = CIdle -> step Call s (blocking_begin_write t s)
| step_do_begin_write t s : callers s t = CLocking -> writemutex s = None ->
    step Go s (Ok (with_mutex (Some Ours) (with_caller t CLocked s)))
| step_begin_locked t s : callers s t = CLocked -> step Go s (blocking_begin_locked t s)
| step_ticket t s : callers s t = CTicket (m_write_lock_claim_fulfilled (helper s)) ->
    step Go s (Ok (with_caller t CHolds s))
| step_promote_to_async t s : callers s t = CHolds -> step Go s (Ok (with_caller t CHasLock s))
| step_end_write t s : callers s t = CHasLock -> step Finish s (end_write t s)
| step_blocking_end t s : callers s t = CHolds \/ callers s t = CHasLock ->
    step Finish s (end_write_on_correct_thread t s)
| step_ended t s : callers s t = CEnding -> m_pending_mx_release (helper s) = false ->
    step Go s (Ok (with_caller t CIdle s))
| step_sync t s : callers s t = CHasLock -> step Finish s (sync_to_disk t s)
| step_destroy s : closing s = false -> (forall t, callers s t = CIdle) -> step Call s (Ok (destroy s))
| step_main s : worker s = WRun -> step Go s (main_body s)
| step_main_begin_write s : worker s = WLocking -> writemutex s = None ->
    step Go s (Ok (with_mutex (Some Ours) (with_worker WLocked s)))
| step_main_locked s : worker s = WLocked -> step Go s (main_locked s)
| step_callback t s : worker s = WCallback t -> step Go s (Ok (callback t s))
| step_sync_callback t s : worker s = WSync t -> step Go s (Ok (sync_callback t s))
| step_main_synced s : worker s = WSynced -> step Go s (main_synced s)
| step_spurious s : worker s = WWait -> step Spurious s (Ok (with_worker WRun s))
| step_direct t s : closing s = false -> callers s t = CIdle -> writemutex s = None ->
    step Around s (Ok (with_mutex (Some Ours) (with_caller t CDirect s)))
| step_direct_end t s : callers s t = CDirect -> step Around s (end_write_on_correct_thread t s)
| step_foreign_begin s : writemutex s = None -> step Around s (Ok (with_mutex (Some Foreign) s))
| step_foreign_end s : writemutex s = Some Foreign -> step Around s (Ok (with_mutex None s)).

(** [run P s s']: steps with labels in [P] lead from [s] to [s']. *)
Inductive run (P : label -> Prop) (s : Sys) : Sys -> Prop :=
| run_refl : run P s s
| run_step s1 l s2 : run P s s1 -> P l -> step l s1 (Ok s2) -> run P s s2.

Definition reach : Sys -> Prop := run (fun _ => True) init.

End Operations.

(** ** Invariant *)

(** What the write mutex is being used for. *)
Inductive mode :=
| MFree | MDirect (t : nat) | MLocked (t : nat) | MHeld (t : nat) | MTicket (t : nat)
| MRelease | MSync (t : nat) | MWSync (t : nat) | MWSynced | MWLocked | MCallback (t : nat).

(** The client that has, or is about to have, the mutex. *)
Definition active (m : mode) : option nat :=
  match m with
  | MDirect t | MLocked t | MHeld t | MTicket t | MSync t | MWSync t => Some t
  | _ => None
  end.

Definition mode_has (m : mode) : bool :=
  match m with MFree | MDirect _ | MLocked _ | MWLocked => false | _ => true end.

(** What the mode says of the client that is active. *)
Definition active_pc (m : mode) (fulfilled : nat) (c : CallerPc) : Prop :=
  match m with
  | MDirect _ => c = CDirect
  | MLocked _ => c = CLocked
  | MHeld _ => c = CHolds \/ c = CHasLock
  | MTicket _ => c = CTicket fulfilled
  | MSync _ | MWSync _ => c = CSyncing
  | _ => True
  end.

Definition passive_pc (fulfilled : nat) (c : CallerPc) : Prop :=
  match c with
  | CIdle | CLocking | CRequested | CEnding => True
  | CTicket n => fulfilled < n
  | _ => False
  end.

(** The worker is where the mode says, or at one of the points of all modes. *)
Definition mode_worker (m : mode) (w : WorkerPc) : Prop :=
  match m with
  | MWSync t => w = WSync t
  | MWSynced => w = WSynced
  | MWLocked => w = WLocked
  | MCallback t => w = WCallback t
  | _ => match w with WNone | WRun | WWait | WLocking | WDone => True | _ => False end
  end.

Definition started (w : WorkerPc) : bool := match w with WNone => false | _ => true end.

Section Invariant.
Variable is_thread_confined : bool.

Record mode_ok (m : mode) (s : Sys) : Prop := {
  mo_mutex : match m with MFree => writemutex s <> Some Ours | _ => writemutex s = Some Ours end;
  mo_has : m_has_write_mutex (helper s) = mode_has m;
  mo_release : m_pending_mx_release (helper s) = match m with MRelease => true | _ => false end;
  mo_sync : m_pending_sync (helper s) = match m with MSync t => Some t | _ => None end;
  mo_worker : mode_worker m (worker s);
  mo_active : forall t, active m = Some t -> active_pc m (m_write_lock_claim_fulfilled (helper s)) (callers s t);
  mo_passive : forall t, active m <> Some t -> passive_pc (m_write_lock_claim_fulfilled (helper s)) (callers s t);
  mo_owns : match m with MTicket _ | MRelease | MCallback _ => True | _ => False end ->
    m_owns_write_mutex (helper s) = true
}.

Record claims_ok (s : Sys) : Prop := {
  cl_le : m_write_lock_claim_fulfilled (helper s) <= m_write_lock_claim_ticket (helper s);
  cl_bound : forall t n, callers s t = CTicket n -> n <= m_write_lock_claim_ticket (helper s);
  cl_unique : forall t t' n, callers s t = CTicket n -> callers s t' = CTicket n -> t = t';
  cl_waiter : forall n, m_write_lock_claim_fulfilled (helper s) < n <= m_write_lock_claim_ticket (helper s) ->
    exists t, callers s t = CTicket n;
  cl_nodup : NoDup (m_pending_writes (helper s));
  cl_queued : forall t, t ∈ m_pending_writes (helper s) <-> callers s t = CRequested /\ worker s <> WCallback t;
  cl_callback : forall t, worker s = WCallback t -> callers s t = CRequested
}.

Record thread_ok (s : Sys) : Prop := {
  th_owns : m_owns_write_mutex (helper s) = true -> m_has_write_mutex (helper s) = true;
  th_confined : is_thread_confined = true -> m_has_write_mutex (helper s) = true -> m_owns_write_mutex (helper s) = true;
  th_no_lock : is_thread_confined = true -> forall t, callers s t <> CLocking /\ callers s t <> CLocked;
  th_running : m_running (helper s) = started (worker s) && negb (closing s);
  th_owner : m_owns_write_mutex (helper s) = true -> started (worker s) = true;
  th_used : has_pending_write_requests (helper s) = true -> started (worker s) = true;
  th_sync : m_pending_sync (helper s) <> None -> started (worker s) = true;
  th_locking : worker s = WLocking \/ worker s = WLocked -> has_pending_write_requests (helper s) = true;
  th_closing : closing s = true -> forall t, callers s t = CIdle
}.

Definition live_ok (m : mode) (s : Sys) : Prop :=
  mode_ok m s /\ claims_ok s /\ thread_ok s /\ worker s <> WDone.

(** After the end of [main] the helper no longer has the mutex. *)
Definition done_ok (s : Sys) : Prop :=
  worker s = WDone /\ closing s = true /\ (forall t, callers s t = CIdle) /\ writemutex s <> Some Ours.

Definition inv (s : Sys) : Prop := done_ok s \/ exists m, live_ok m s.

End Invariant.

Lemma upd_same t c f : upd t c f t = c.
Proof. unfold upd. by rewrite Nat.eqb_refl. Qed.

Lemma upd_other t c f i : i <> t -> upd t c f i = f i.
Proof. intros Hi. unfold upd. by destruct (Nat.eqb_spec i t). Qed.

(** [claims_ok] reads the claims, the queue, the clients and the callback that runs. *)
Lemma claims_frame s s' : claims_ok s ->
  m_pending_writes (helper s') = m_pending_writes (helper s) ->
  m_write_lock_claim_ticket (helper s') = m_write_lock_claim_ticket (helper s) ->
  m_write_lock_claim_fulfilled (helper s') = m_write_lock_claim_fulfilled (helper s) ->
  callers s' = callers s ->
  (forall t, worker s' = WCallback t <-> worker s = WCallback t) -> claims_ok s'.
Proof.
  intros [] E1 E2 E3 E4 Hw. split; rewrite ?E1, ?E2, ?E3, ?E4; auto.
  - intros t. rewrite Hw. apply cl_queued0.
  - intros t. rewrite Hw. apply cl_callback0.
Qed.

Definition plain (c : CallerPc) : bool := match c with CTicket _ | CRequested => false | _ => true end.

Lemma claims_caller s t c : claims_ok s -> plain c = true ->
  plain (callers s t) = true \/ callers s t = CTicket (m_write_lock_claim_fulfilled (helper s)) ->
  claims_ok (with_caller t c s).
Proof.
  intros [] Hc Ht. assert (Hn : callers s t <> CRequested) by (destruct Ht as [Ht|Ht]; destruct (callers s t); done).
  split; cbn; auto.
  - intros i n. unfold upd. destruct (Nat.eqb_spec i t); [by intros ->|apply cl_bound0].
  - intros i i' n. unfold upd.
    destruct (Nat.eqb_spec i t); [by intros ->|]. destruct (Nat.eqb_spec i' t); [by intros ? ->|apply cl_unique0].
  - intros n Hlt. destruct (cl_waiter0 n Hlt) as [i Hi]. exists i. rewrite upd_other; [done|].
    intros ->. destruct Ht as [Ht|Ht]; rewrite Hi in Ht; [done|]. injection Ht. lia.
  - intros i. rewrite cl_queued0. unfold upd. destruct (Nat.eqb_spec i t) as [->|]; [|done].
    split; intros [H _]; [done|by subst c].
  - intros i Hi. specialize (cl_callback0 i Hi). rewrite upd_other; congruence.
Qed.

Lemma claims_push s t : claims_ok s -> callers s t = CIdle ->
  claims_ok (with_caller t CRequested (with_helper (fun h => set_pending_writes (m_pending_writes h ++ [t]) h) s)).
Proof.
  intros [] Hc. assert (Hcb : worker s <> WCallback t) by (intros Hw; specialize (cl_callback0 t Hw); congruence).
  assert (Hq : t ∉ m_pending_writes (helper s)) by (rewrite cl_queued0, Hc; by intros []).
  split; cbn; auto.
  - intros i n. unfold upd. destruct (Nat.eqb_spec i t); [done|apply cl_bound0].
  - intros i i' n. unfold upd. destruct (Nat.eqb_spec i t); [done|]. destruct (Nat.eqb_spec i' t); [done|apply cl_unique0].
  - intros n Hn. destruct (cl_waiter0 n Hn) as [i Hi]. exists i. rewrite upd_other; congruence.
  - apply list.NoDup_app. split_and!; [done| |apply list.NoDup_singleton]. intros x Hx ->%list_elem_of_singleton. done.
  - intros i. rewrite elem_of_app, list_elem_of_singleton, cl_queued0. unfold upd.
    destruct (Nat.eqb_spec i t) as [->|]; [split; auto|]. split; [intros [H|H]; done|auto].
  - intros i Hi. rewrite upd_other; [by apply cl_callback0|congruence].
Qed.

Lemma claims_ticket s t : claims_ok s -> callers s t = CIdle ->
  let n := S (m_write_lock_claim_ticket (helper s)) in
  claims_ok (with_caller t (CTicket n) (with_helper (fun h => set_claims n (m_write_lock_claim_fulfilled h) h) s)).
Proof.
  intros [] Hc n. assert (Hcb : worker s <> WCallback t) by (intros Hw; specialize (cl_callback0 t Hw); congruence).
  split; cbn; auto.
  - lia.
  - intros i k. unfold upd. destruct (Nat.eqb_spec i t); [intros [= ->]; lia|]. intros Hk. specialize (cl_bound0 i k Hk). lia.
  - intros i i' k. unfold upd. destruct (Nat.eqb_spec i t), (Nat.eqb_spec i' t); subst; auto.
    + intros [= <-] Hk. specialize (cl_bound0 _ _ Hk). lia.
    + intros Hk [= <-]. specialize (cl_bound0 _ _ Hk). lia.
    + apply cl_unique0.
  - intros k Hk. destruct (decide (k = n)) as [->|]; [exists t; apply upd_same|].
    destruct (cl_waiter0 k) as [i Hi]; [lia|]. exists i. rewrite upd_other; congruence.
  - intros i. rewrite cl_queued0. unfold upd. destruct (Nat.eqb_spec i t) as [->|]; [|done].
    rewrite Hc. split; by intros [].
  - intros i Hi. rewrite upd_other; [by apply cl_callback0|congruence].
Qed.

Lemma claims_fulfil s s' : claims_ok s -> worker s = WLocked -> worker s' = WRun ->
  m_write_lock_claim_fulfilled (helper s) < m_write_lock_claim_ticket (helper s) ->
  m_pending_writes (helper s') = m_pending_writes (helper s) ->
  m_write_lock_claim_ticket (helper s') = m_write_lock_claim_ticket (helper s) ->
  m_write_lock_claim_fulfilled (helper s') = S (m_write_lock_claim_fulfilled (helper s)) ->
  callers s' = callers s -> claims_ok s'.
Proof.
  intros [] Hw Hw' Hlt E1 E2 E3 E4. rewrite Hw in *. split; rewrite ?E1, ?E2, ?E3, ?E4, ?Hw'; auto; try done.
  - intros n Hn. apply cl_waiter0. lia.
  - intros t. rewrite cl_queued0. by split; intros [].
Qed.

Lemma claims_pop s s' t rest : claims_ok s -> worker s = WLocked -> worker s' = WCallback t ->
  m_pending_writes (helper s) = t :: rest -> m_pending_writes (helper s') = rest ->
  m_write_lock_claim_ticket (helper s') = m_write_lock_claim_ticket (helper s) ->
  m_write_lock_claim_fulfilled (helper s') = m_write_lock_claim_fulfilled (helper s) ->
  callers s' = callers s -> claims_ok s'.
Proof.
  intros [] Hw Hw' E E1 E2 E3 E4. rewrite Hw, E in *. apply list.NoDup_cons in cl_nodup0 as [Hn Hnd].
  split; rewrite ?E1, ?E2, ?E3, ?E4, ?Hw'; auto; try done.
  - intros i. specialize (cl_queued0 i). rewrite elem_of_cons in cl_queued0. split.
    + intros Hi. split; [by apply cl_queued0; right|]. by intros [= ->].
    + intros [Hi Hne]. destruct (proj2 cl_queued0) as [->|]; done.
  - intros i [= <-]. apply cl_queued0. apply list_elem_of_here.
Qed.

Lemma claims_callback s t : claims_ok s -> worker s = WCallback t -> claims_ok (callback t s).
Proof.
  intros [] Hw. specialize (cl_callback0 t Hw) as Hc. rewrite Hw in *. split; cbn; auto; try done.
  - intros i n. unfold upd. destruct (Nat.eqb_spec i t); [done|apply cl_bound0].
  - intros i i' n. unfold upd. destruct (Nat.eqb_spec i t); [done|]. destruct (Nat.eqb_spec i' t); [done|apply cl_unique0].
  - intros n Hn. destruct (cl_waiter0 n Hn) as [i Hi]. exists i. rewrite upd_other; congruence.
  - intros i. rewrite cl_queued0. unfold upd. destruct (Nat.eqb_spec i t) as [->|]; split; intros []; split; congruence.
Qed.

(** The claims after a client went from one place without a claim to another. *)
Lemma claims_step s s' t c : claims_ok s -> plain c = true ->
  plain (callers s t) = true \/ callers s t = CTicket (m_write_lock_claim_fulfilled (helper s)) ->
  m_pending_writes (helper s') = m_pending_writes (helper s) ->
  m_write_lock_claim_ticket (helper s') = m_write_lock_claim_ticket (helper s) ->
  m_write_lock_claim_fulfilled (helper s') = m_write_lock_claim_fulfilled (helper s) ->
  callers s' = upd t c (callers s) ->
  (forall t, worker s' = WCallback t <-> worker s = WCallback t) -> claims_ok s'.
Proof. intros. by apply (claims_frame (with_caller t c s)); [apply claims_caller|..]. Qed.

Create HintDb async.

Section Preservation.
Context {is_thread_confined : bool}.
Local Abbreviation live_ok := (live_ok is_thread_confined).
Local Abbreviation thread_ok := (thread_ok is_thread_confined).

Lemma notify_live m s : live_ok m s -> live_ok m (notify_worker s).
Proof.
  intros H. unfold notify_worker. destruct (worker s) eqn:Hw; try exact H.
  destruct H as ([] & Hc & [] & _). rewrite Hw in *.
  split_and!; [split|apply (claims_frame s)|split|]; cbn; try done.
  - by destruct m.
  - by rewrite Hw.
  - by intros [].
Qed.

Lemma start_live m s : closing s = false -> live_ok m s -> live_ok m (start_thread s).
Proof.
  intros Hcl H. unfold start_thread. destruct (m_running (helper s)) eqn:Hr; [exact H|].
  destruct H as ([] & Hc & [] & _).
  assert (Hw : worker s = WNone) by (destruct (worker s); [done|rewrite Hcl, Hr in th_running0; done..]).
  rewrite Hw in *. split_and!; [split|apply (claims_frame s)|split|]; cbn; try done.
  - by destruct m.
  - by rewrite Hw.
  - by rewrite Hcl.
  - by intros [].
Qed.

(** A client that is not waiting is the one of the mode. *)
Lemma active_of m s t : live_ok m s ->
  ~ passive_pc (m_write_lock_claim_fulfilled (helper s)) (callers s t) ->
  active m = Some t /\ active_pc m (m_write_lock_claim_fulfilled (helper s)) (callers s t).
Proof.
  intros ([] & _) Hp. destruct (decide (active m = Some t)) as [Ha|Ha]; [auto|]. destruct Hp. auto.
Qed.

Ltac mode_of t :=
  match goal with
  | H : live_ok ?m ?s, Hc : callers ?s t = _ |- _ =>
      let Ha := fresh "Ha" in let Hp := fresh "Hp" in
      destruct (active_of m s t H) as [Ha Hp]; [rewrite Hc; cbn; lia|];
      rewrite Hc in Hp; destruct m; cbn in Ha, Hp; simplify_eq; try (by destruct Hp)
  end.

Ltac callers_tac :=
  repeat match goal with
  | |- context [upd ?t _ _ ?i] => destruct (decide (i = t)) as [->|]; [rewrite upd_same|rewrite upd_other by done]
  end.

Ltac closing_tac :=
  match goal with
  | Hf : is_thread_confined = true, Hth : is_thread_confined = true -> forall t, _ /\ _, Hc : callers ?s ?t = _ |- _ =>
      destruct (Hth Hf t); congruence
  | Hcl : closing ?s = true, Hth : closing ?s = true -> _, Hc : callers ?s ?t = _ |- _ =>
      specialize (Hth Hcl t); congruence
  end.

(** Splits [live_ok] of the next state; what does not follow from the old state is left. *)
Ltac live_tac :=
  match goal with H : live_ok _ _ |- _ => destruct H as ([] & Hclaims & [] & Hdone) end; cbn in *;
  split_and!; [split| |split|]; cbn in *; intros; callers_tac; try done; try congruence; auto; try closing_tac;
  try match goal with Hp : forall t, _ -> passive_pc _ _ |- passive_pc _ _ => apply Hp; congruence end.

Ltac plain_tac :=
  match goal with
  | Hc : callers ?s ?t = _, H : claims_ok ?s |- claims_ok ?s' =>
      let f := eval cbn in (callers s' t) in
      eapply (claims_step s s' t); [exact H| |rewrite Hc; auto|done..]; by cbn
  end.

Lemma not_active m s t : live_ok m s ->
  match callers s t with CIdle | CLocking | CRequested | CEnding => True | _ => False end ->
  active m <> Some t.
Proof.
  intros ([] & _) Hc Ha. specialize (mo_active0 t Ha).
  destruct m; try done; cbn in *; destruct (callers s t); try done; by destruct mo_active0.
Qed.

Ltac idle_of t :=
  match goal with
  | H : live_ok ?m ?s, Hc : callers ?s t = _ |- _ =>
      let Ha := fresh "Ha" in
      assert (Ha : active m <> Some t) by (apply (not_active m s t H); by rewrite Hc)
  end.

(** *** Steps of clients *)

Lemma start_facts s : m_running (helper s) = true \/ closing s = false ->
  callers (start_thread s) = callers s /\ closing (start_thread s) = closing s
  /\ m_running (helper (start_thread s)) = true.
Proof. unfold start_thread. destruct (m_running (helper s)) eqn:E; auto. Qed.

Lemma running_started m s : live_ok m s -> m_running (helper s) = true -> started (worker s) = true.
Proof. intros (_ & _ & [] & _) H. rewrite th_running0 in H. by destruct (started (worker s)). Qed.

Lemma notify_caller t c s : with_caller t c (notify_worker s) = notify_worker (with_caller t c s).
Proof. unfold notify_worker. cbn. by destruct (worker s). Qed.

Lemma push_pending l t h : has_pending_write_requests (set_pending_writes (l ++ [t]) h) = true.
Proof. unfold has_pending_write_requests. cbn. by destruct l; rewrite orb_true_r. Qed.

Lemma begin_write_live m s t : live_ok m s -> closing s = false -> callers s t = CIdle ->
  exists s', begin_write t s = Ok s' /\ live_ok m s'.
Proof.
  intros H Hcl Hc. eexists. split; [done|].
  apply (start_live m s Hcl) in H. destruct (start_facts s (or_intror Hcl)) as (E1 & E2 & E3).
  rewrite <- E1 in Hc. rewrite <- E2 in Hcl. revert H Hc Hcl E3. generalize (start_thread s). clear.
  intros s H Hc Hcl Hr. pose proof (running_started m s H Hr).
  rewrite notify_caller. apply notify_live. idle_of t. live_tac.
  - by apply claims_push.
  - apply push_pending.
Qed.

Lemma ticket_pending f n h : f <= n -> has_pending_write_requests (set_claims (S n) f h) = true.
Proof. intros Hf. unfold has_pending_write_requests. cbn. apply orb_true_iff. left. apply Nat.leb_le. lia. Qed.

(** The assertion of [blocking_begin_write]. *)
Lemma must_be_running m s : live_ok m s -> closing s = false ->
  can_lock_on_caller is_thread_confined (helper s) = false ->
  m_running (helper s) || is_thread_confined = true.
Proof.
  intros H Hcl Hl. apply orb_true_iff. destruct (decide (is_thread_confined = true)) as [Hf|Hf%not_true_is_false]; [by right|left].
  destruct H as (_ & [] & [] & _). rewrite th_running0, Hcl. cbn. rewrite andb_true_r.
  unfold can_lock_on_caller in Hl. rewrite Hf in Hl. cbn in Hl.
  destruct (m_owns_write_mutex (helper s)) eqn:Ho; [auto|]. apply th_used0. unfold has_pending_write_requests.
  apply orb_true_iff. destruct (bool_decide (m_pending_writes (helper s) = [])); [left|by right]. cbn in Hl.
  apply Nat.eqb_neq in Hl. apply Nat.ltb_lt. lia.
Qed.

Lemma blocking_begin_live m s t : live_ok m s -> closing s = false -> callers s t = CIdle ->
  exists s', blocking_begin_write is_thread_confined t s = Ok s' /\ live_ok m s'.
Proof.
  intros H Hcl Hc. unfold blocking_begin_write.
  destruct (can_lock_on_caller is_thread_confined (helper s)) eqn:Hl; cbn [mbind result_bind LLBT_ASSERT orb].
  - eexists. split; [done|]. unfold can_lock_on_caller in Hl. apply andb_true_iff in Hl as [Hl _].
    idle_of t. live_tac; [plain_tac|by destruct is_thread_confined].
  - rewrite (must_be_running m s H Hcl Hl). cbn [mbind result_bind LLBT_ASSERT].
    eexists. split; [done|]. apply (start_live m s Hcl) in H.
    destruct (start_facts s (or_intror Hcl)) as (E1 & E2 & E3).
    assert (E4 : m_write_lock_claim_ticket (helper s) = m_write_lock_claim_ticket (helper (start_thread s)))
      by (unfold start_thread; destruct (m_running (helper s)); reflexivity).
    rewrite <- E1 in Hc. rewrite <- E2 in Hcl. rewrite E4. revert H Hc Hcl E3.
    generalize (start_thread s). clear. intros s H Hc Hcl Hr. pose proof (running_started m s H Hr).
    rewrite notify_caller. apply notify_live. idle_of t. live_tac.
    + cbn. pose proof (cl_le _ Hclaims). lia.
    + by apply claims_ticket.
    + apply ticket_pending. apply (cl_le _ Hclaims).
Qed.

Lemma do_begin_write_live m s t : live_ok m s -> callers s t = CLocking -> writemutex s = None ->
  live_ok (MLocked t) (with_mutex (Some Ours) (with_caller t CLocked s)).
Proof.
  intros H Hc Hx. assert (m = MFree) as -> by (destruct H as ([] & _); destruct m; congruence).
  live_tac. plain_tac.
Qed.

Lemma begin_locked_live m s t : live_ok m s -> callers s t = CLocked ->
  exists s', blocking_begin_locked t s = Ok s' /\ live_ok (MHeld t) s'.
Proof. intros H Hc. eexists. split; [done|]. mode_of t. live_tac. plain_tac. Qed.

Lemma ticket_live m s t : live_ok m s -> callers s t = CTicket (m_write_lock_claim_fulfilled (helper s)) ->
  live_ok (MHeld t) (with_caller t CHolds s).
Proof. intros H Hc. mode_of t. live_tac. plain_tac. Qed.

Lemma promote_live m s t : live_ok m s -> callers s t = CHolds ->
  live_ok (MHeld t) (with_caller t CHasLock s).
Proof. intros H Hc. mode_of t. live_tac. plain_tac. Qed.

Lemma held_of m s t : live_ok m s -> callers s t = CHolds \/ callers s t = CHasLock -> m = MHeld t.
Proof. intros H [Hc|Hc]; mode_of t; done. Qed.

(** Giving the mutex back, from the client and through the worker. *)
Lemma end_on_caller_live s t : live_ok (MHeld t) s -> m_owns_write_mutex (helper s) = false ->
  exists s', do_end_write s = Ok s' /\
    live_ok MFree (with_caller t CIdle (with_helper (fun h => set_has false (m_owns_write_mutex h) h) s')).
Proof.
  intros H Ho. assert (Hx : writemutex s = Some Ours) by (by destruct H as ([] & _)).
  unfold do_end_write. rewrite Hx. eexists. split; [done|].
  destruct (mo_active _ _ (proj1 H) t eq_refl) as [Hc|Hc]; live_tac; plain_tac.
Qed.

Lemma end_on_worker_live s t c : live_ok (MHeld t) s -> m_owns_write_mutex (helper s) = true ->
  c = CIdle \/ c = CEnding ->
  live_ok MRelease (with_caller t c (notify_worker (with_helper (set_release true) s))).
Proof.
  intros H Ho Hce. rewrite notify_caller. apply notify_live.
  destruct (mo_active _ _ (proj1 H) t eq_refl) as [Hc|Hc], Hce as [->| ->]; live_tac; plain_tac.
Qed.

Lemma may_end m s : live_ok m s -> m_has_write_mutex (helper s) = true ->
  m_owns_write_mutex (helper s) || negb is_thread_confined = true.
Proof.
  intros (_ & _ & [] & _) Hh. destruct (m_owns_write_mutex (helper s)); [done|].
  apply negb_true_iff, not_true_is_false. intros Hf. by specialize (th_confined0 Hf Hh).
Qed.

Lemma end_write_live m s t : live_ok m s -> callers s t = CHasLock ->
  exists s' m', end_write is_thread_confined t s = Ok s' /\ live_ok m' s'.
Proof.
  intros H Hc. assert (m = MHeld t) as -> by (eapply held_of; eauto). unfold end_write.
  assert (Hh : m_has_write_mutex (helper s) = true) by (by destruct H as ([] & _)).
  rewrite (may_end _ s H Hh), Hh. cbn [mbind result_bind LLBT_ASSERT].
  destruct (m_owns_write_mutex (helper s)) eqn:Ho.
  - eexists _, MRelease. split; [done|]. apply end_on_worker_live; auto.
  - destruct (end_on_caller_live s t H Ho) as (s' & -> & H'). eexists _, MFree. by split.
Qed.

Lemma blocking_end_live m s t : live_ok m s -> callers s t = CHolds \/ callers s t = CHasLock ->
  exists s' m', end_write_on_correct_thread is_thread_confined t s = Ok s' /\ live_ok m' s'.
Proof.
  intros H Hc. assert (m = MHeld t) as -> by (eapply held_of; eauto).
  unfold end_write_on_correct_thread, blocking_end_write.
  assert (Hh : m_has_write_mutex (helper s) = true) by (by destruct H as ([] & _)).
  rewrite (may_end _ s H Hh), Hh. cbn [mbind result_bind LLBT_ASSERT negb].
  destruct (m_owns_write_mutex (helper s)) eqn:Ho.
  - eexists _, MRelease. split; [done|]. apply end_on_worker_live; auto.
  - destruct (end_on_caller_live s t H Ho) as (s' & -> & H'). cbn [mbind result_bind].
    eexists _, MFree. split; [done|].
    destruct (has_pending_write_requests _); [|done]. rewrite notify_caller. by apply notify_live.
Qed.

Lemma ended_live m s t : live_ok m s -> callers s t = CEnding -> live_ok m (with_caller t CIdle s).
Proof. intros H Hc. idle_of t. live_tac. plain_tac. Qed.

Lemma sync_live m s t : live_ok m s -> callers s t = CHasLock ->
  exists s', sync_to_disk t s = Ok s' /\ live_ok (MSync t) s'.
Proof.
  intros H Hc. assert (m = MHeld t) as -> by (eapply held_of; eauto). unfold sync_to_disk.
  assert (Hcl : closing s = false)
    by (destruct (closing s) eqn:E; [|done]; destruct H as (_ & _ & [] & _); specialize (th_closing0 E t); congruence).
  rewrite (mo_sync _ _ (proj1 H)). eexists. split; [done|].
  apply (start_live _ s Hcl) in H. destruct (start_facts s (or_intror Hcl)) as (E1 & E2 & E3).
  rewrite <- E1 in Hc. rewrite <- E2 in Hcl. revert H Hc Hcl E3. generalize (start_thread s). clear.
  intros s H Hc Hcl Hr. pose proof (running_started _ s H Hr).
  rewrite notify_caller. apply notify_live. live_tac. plain_tac.
Qed.

Lemma destroy_live m s : live_ok m s -> closing s = false -> (forall t, callers s t = CIdle) ->
  live_ok m (destroy s).
Proof.
  intros H Hcl Hc. unfold destroy. cbn [helper m_running].
  destruct (m_running (helper s)) eqn:Hr; cbn [negb]; [apply notify_live|]; live_tac.
  all: first [by apply (claims_frame s)|by rewrite andb_false_r].
Qed.

Lemma direct_live m s t : live_ok m s -> closing s = false -> callers s t = CIdle -> writemutex s = None ->
  live_ok (MDirect t) (with_mutex (Some Ours) (with_caller t CDirect s)).
Proof.
  intros H Hcl Hc Hx. assert (m = MFree) as -> by (destruct H as ([] & _); destruct m; congruence).
  live_tac. plain_tac.
Qed.

Lemma direct_end_live m s t : live_ok m s -> callers s t = CDirect ->
  exists s', end_write_on_correct_thread is_thread_confined t s = Ok s' /\ live_ok MFree s'.
Proof.
  intros H Hc. mode_of t. unfold end_write_on_correct_thread, blocking_end_write.
  rewrite (mo_has _ _ (proj1 H)). cbn [mode_has negb mbind result_bind].
  unfold do_end_write. rewrite (mo_mutex _ _ (proj1 H)). eexists. split; [done|]. live_tac. plain_tac.
Qed.

Lemma foreign_live m s o : live_ok m s -> writemutex s <> Some Ours -> o <> Some Ours ->
  live_ok m (with_mutex o s).
Proof.
  intros H Hx Ho. assert (m = MFree) as -> by (destruct H as ([] & _); destruct m; congruence).
  live_tac. by apply (claims_frame s).
Qed.

(** *** Steps of the worker *)

Lemma th_running_at m s : live_ok m s -> started (worker s) = true -> m_running (helper s) = negb (closing s).
Proof. intros (_ & _ & [] & _) Hs. by rewrite th_running0, Hs. Qed.

Ltac at_worker Hw :=
  match goal with
  | H : live_ok ?m ?s |- _ =>
      let Hr := fresh "Hr" in
      pose proof (th_running_at m s H) as Hr; rewrite Hw in Hr; specialize (Hr eq_refl)
  end.

Ltac frame_tac :=
  match goal with
  | H : claims_ok ?s, Hw : worker ?s = _ |- claims_ok _ => apply (claims_frame s); cbn; rewrite ?Hw; done
  | H : _ \/ _ |- _ => by destruct H
  end.

(** The mode does not change when the worker goes between points of all modes. *)
Lemma worker_live m s w : live_ok m s -> worker s = WRun \/ worker s = WWait -> w = WRun \/ w = WWait \/ w = WLocking ->
  (w = WLocking -> has_pending_write_requests (helper s) = true) -> live_ok m (with_worker w s).
Proof.
  intros H [Hw|Hw] Hw' Hl; at_worker Hw; pose proof (mo_worker _ _ (proj1 H)) as Hm; rewrite Hw in Hm.
  all: assert (mode_worker m w) by (destruct m; try done; by destruct Hw' as [->|[->| ->]]).
  all: destruct Hw' as [->|[->| ->]]; live_tac; try frame_tac.
Qed.

Lemma release_live m s : live_ok m s -> m = MRelease /\ worker s = WRun \/ m = MWSynced /\ worker s = WSynced ->
  exists s', main_release is_thread_confined (with_helper (set_release true) s) = Ok s' /\ live_ok MFree s'.
Proof.
  intros H Hm. unfold main_release.
  assert (Hh : m_has_write_mutex (helper s) = true) by (rewrite (mo_has _ _ (proj1 H)); by destruct Hm as [[-> _]|[-> _]]).
  assert (Hx : writemutex s = Some Ours) by (pose proof (mo_mutex _ _ (proj1 H)); by destruct Hm as [[-> _]|[-> _]]).
  pose proof (may_end m s H Hh) as Hmay. rewrite orb_comm in Hmay. cbn [helper with_helper set_release m_owns_write_mutex].
  rewrite Hmay. unfold do_end_write. cbn [mbind result_bind LLBT_ASSERT writemutex with_helper]. rewrite Hx.
  eexists. split; [done|].
  destruct Hm as [[-> Hw]|[-> Hw]]; at_worker Hw; live_tac; frame_tac.
Qed.

Lemma main_begin_write_live m s : live_ok m s -> worker s = WLocking -> writemutex s = None ->
  live_ok MWLocked (with_mutex (Some Ours) (with_worker WLocked s)).
Proof.
  intros H Hw Hx. assert (m = MFree) as -> by (destruct H as ([] & _); destruct m; congruence).
  at_worker Hw. live_tac; frame_tac.
Qed.

Ltac worker_mode m Hw :=
  match goal with
  | H : live_ok _ _ |- _ =>
      let Hm := fresh "Hm" in
      pose proof (mo_worker _ _ (proj1 H)) as Hm; rewrite Hw in Hm; destruct m; try done; cbn in Hm; congruence
  end.

Lemma callback_live m s t : live_ok m s -> worker s = WCallback t -> live_ok (MHeld t) (callback t s).
Proof.
  intros H Hw. assert (m = MCallback t) as -> by worker_mode m Hw. at_worker Hw.
  pose proof (cl_callback _ (proj1 (proj2 H)) t Hw) as Hc. live_tac; [by apply claims_callback|frame_tac].
Qed.

Lemma sync_callback_live m s t : live_ok m s -> worker s = WSync t -> live_ok MWSynced (sync_callback t s).
Proof.
  intros H Hw. assert (m = MWSync t) as -> by worker_mode m Hw. at_worker Hw.
  pose proof (mo_active _ _ (proj1 H) t eq_refl) as Hc. cbn in Hc. live_tac; [|frame_tac].
  eapply (claims_step s _ t CIdle); cbn; rewrite ?Hc, ?Hw; auto; done.
Qed.

Lemma main_locked_live m s : live_ok m s -> worker s = WLocked ->
  exists s' m', main_locked s = Ok s' /\ live_ok m' s'.
Proof.
  intros H Hw. assert (m = MWLocked) as -> by worker_mode m Hw. at_worker Hw.
  unfold main_locked. rewrite (mo_has _ _ (proj1 H)).
  cbn [mode_has negb mbind result_bind LLBT_ASSERT helper with_helper set_has m_write_lock_claim_fulfilled m_write_lock_claim_ticket m_pending_writes].
  destruct (Nat.ltb_spec (m_write_lock_claim_fulfilled (helper s)) (m_write_lock_claim_ticket (helper s))) as [Hlt|Hge].
  - destruct (cl_waiter _ (proj1 (proj2 H)) (S (m_write_lock_claim_fulfilled (helper s)))) as [t Ht]; [lia|].
    eexists _, (MTicket t). split; [done|]. live_tac.
    + specialize (mo_passive0 t0 ltac:(done)). destruct (callers s t0) as [| | | |n| | | | |] eqn:E; try done; cbn in *.
      destruct (decide (n = S (m_write_lock_claim_fulfilled (helper s)))) as [->|]; [|lia].
      by rewrite (cl_unique _ Hclaims t t0 _ Ht E) in *.
    + by apply (claims_fulfil s).
    + frame_tac.
  - assert (Hp : has_pending_write_requests (helper s) = true) by (apply H; by right).
    unfold has_pending_write_requests in Hp. rewrite (proj2 (Nat.ltb_ge _ _) Hge) in Hp.
    destruct (m_pending_writes (helper s)) as [|t rest] eqn:Hq; [done|].
    eexists _, (MCallback t). split; [done|]. live_tac; [|frame_tac].
    by apply (claims_pop s _ t rest).
Qed.

Lemma main_synced_live m s : live_ok m s -> worker s = WSynced ->
  exists s', main_synced is_thread_confined s = Ok s' /\ live_ok MFree s'.
Proof. intros H Hw. assert (m = MWSynced) as -> by worker_mode m Hw. apply (release_live _ _ H). auto. Qed.

(** The end of [main]: the mutex is given back. *)
Lemma main_end_live m s : live_ok m s -> worker s = WRun -> m_running (helper s) = false ->
  exists s', main_body is_thread_confined s = Ok s' /\ done_ok s'.
Proof.
  intros H Hw Hr. unfold main_body. rewrite Hr. cbn [negb].
  assert (Hcl : closing s = true) by (at_worker Hw; destruct (closing s); [done|cbn in *; congruence]).
  assert (Hi : forall t, callers s t = CIdle) by (by apply H).
  assert (Ha : active m = None) by (destruct (active m) as [t|] eqn:E; [|done]; exfalso; apply (not_active m s t H); [by rewrite Hi|done]).
  pose proof (mo_worker _ _ (proj1 H)) as Hm. rewrite Hw in Hm. destruct H as ([] & _ & [] & _).
  destruct m; try done; cbn in *; rewrite mo_has0; cbn [andb].
  - eexists. split; [done|]. by split_and!.
  - rewrite mo_owns0 by done. unfold do_end_write. rewrite mo_mutex0. eexists. split; [done|]. by split_and!.
Qed.

Lemma main_wait_live m s : live_ok m s -> worker s = WRun ->
  let next := if negb (m_waiting_for_write_mutex (helper s)) && has_pending_write_requests (helper s)
              then WLocking else WWait in
  live_ok m (with_worker next s).
Proof.
  intros H Hw. cbn. apply (worker_live _ _ _ H); [auto|by destruct (_ && _); auto|].
  destruct (_ && _) eqn:E; [|done]. by apply andb_true_iff in E as [_ ?].
Qed.

Lemma main_sync_live s t : live_ok (MSync t) s -> worker s = WRun ->
  live_ok (MWSync t) (with_worker (WSync t) (with_helper (set_pending_sync None) s)).
Proof. intros H Hw. at_worker Hw. live_tac; frame_tac. Qed.

Lemma main_body_live m s : live_ok m s -> worker s = WRun -> m_running (helper s) = true ->
  exists s' m', main_body is_thread_confined s = Ok s' /\ live_ok m' s'.
Proof.
  intros H Hw Hr. unfold main_body. rewrite Hr. cbn [negb].
  pose proof (main_wait_live m s H Hw) as Hwait. pose proof (mo_release _ _ (proj1 H)) as Hrel.
  rewrite (mo_has _ _ (proj1 H)), (mo_sync _ _ (proj1 H)), (mo_release _ _ (proj1 H)).
  pose proof (mo_worker _ _ (proj1 H)) as Hm. rewrite Hw in Hm.
  destruct m; try done; cbn [mode_has mbind result_bind LLBT_ASSERT negb].
  all: try (eexists _, _; split; [done|]; apply (worker_live _ _ _ H); by auto).
  all: try (destruct (_ && _); eexists _, _; by split).
  - destruct (release_live _ s H) as (s' & E & H'); [auto|]. exists s', MFree. split; [|done]. rewrite <- E. f_equal.
    destruct s as [[] ? ? ? ?]. cbn in *. by subst.
  - eexists _, _. split; [done|]. by apply main_sync_live.
Qed.

Lemma init_live : live_ok MFree init.
Proof.
  split_and!; [split|split|split|]; cbn; try done.
  - lia.
  - apply base.NoDup_nil_2.
  - intros t. split; [by intros ?%elem_of_nil|by intros []].
  - by intros [].
Qed.

Definition safe (r : result Sys) : Prop := exists s', r = Ok s' /\ inv is_thread_confined s'.

Lemma safe_mode r m : (exists s', r = Ok s' /\ live_ok m s') -> safe r.
Proof. intros (s' & E & H). exists s'. split; [done|right; by exists m]. Qed.

Lemma safe_modes r : (exists s' m, r = Ok s' /\ live_ok m s') -> safe r.
Proof. intros (s' & m & E & H). exists s'. split; [done|right; by exists m]. Qed.

Lemma safe_ok s' m : live_ok m s' -> safe (Ok s').
Proof. intros H. exists s'. split; [done|right; by exists m]. Qed.

Local Hint Resolve begin_write_live blocking_begin_live do_begin_write_live begin_locked_live ticket_live
  promote_live end_write_live blocking_end_live ended_live sync_live destroy_live main_begin_write_live
  main_locked_live callback_live sync_callback_live main_synced_live direct_live direct_end_live : async.
Local Hint Resolve safe_mode safe_modes safe_ok : async.

(** No step fails an assertion, and every step keeps the invariant. *)
Lemma helper_inv_step l s r : inv is_thread_confined s -> step is_thread_confined l s r -> safe r.
Proof.
  intros [(Hw & Hcl & Hi & Hx)|[m H]] Hst.
  - assert (Hn : forall t c, callers s t = c -> c = CIdle) by (intros t c <-; apply Hi).
    destruct Hst; try congruence.
    all: try (match goal with Hc : callers _ _ = _ |- _ => by specialize (Hn _ _ Hc) end).
    all: try (match goal with Hc : _ \/ _ |- _ => by destruct Hc as [Hc|Hc]; specialize (Hn _ _ Hc) end).
    all: eexists; split; [done|left]; by split_and!.
  - destruct Hst; eauto 3 with async.
    + destruct (m_running (helper s)) eqn:Hr; [eapply safe_modes, main_body_live; eauto|].
      destruct (main_end_live m s H H0 Hr) as (s' & -> & ?). exists s'. split; [done|by left].
    + eapply safe_ok, worker_live; eauto. done.
    + eapply safe_ok, foreign_live; eauto; congruence.
    + eapply safe_ok, foreign_live; eauto; congruence.
Qed.

End Preservation.

Section Runs.
Context {is_thread_confined : bool}.

Lemma run_inv P s s' : inv is_thread_confined s -> run is_thread_confined P s s' -> inv is_thread_confined s'.
Proof.
  intros H Hr. induction Hr as [|s1 l s2 Hr IH Hl Hst]; [done|].
  destruct (helper_inv_step l s1 (Ok s2) IH Hst) as (s' & [= <-] & ?). done.
Qed.

Lemma reach_inv s : reach is_thread_confined s -> inv is_thread_confined s.
Proof. apply run_inv. right. exists MFree. apply init_live. Qed.

End Runs.

(** ** Termination of the steps inside the operations *)

Definition caller_rank (c : CallerPc) : nat :=
  match c with
  | CLocking => 4 | CLocked => 3 | CTicket _ => 2 | CHolds => 1 | CRequested | CEnding | CSyncing => 1
  | CIdle | CDirect | CHasLock => 0
  end.

Fixpoint callers_rank (N : nat) (f : nat -> CallerPc) : nat :=
  match N with 0 => 0 | S n => caller_rank (f n) + callers_rank n f end.

Definition worker_rank (w : WorkerPc) : nat :=
  match w with
  | WSync _ => 7 | WSynced => 6 | WCallback _ => 5 | WRun => 4 | WLocking => 3 | WLocked => 2
  | WNone | WWait | WDone => 0
  end.

(** What the worker has to do. *)
Definition duties (h : AsyncCommitHelper) : nat :=
  (m_write_lock_claim_ticket h - m_write_lock_claim_fulfilled h) + length (m_pending_writes h)
  + Nat.b2n (m_pending_mx_release h) + match m_pending_sync h with Some _ => 1 | None => 0 end.

Definition rank (N : nat) (s : Sys) : nat :=
  callers_rank N (callers s) + worker_rank (worker s) + 10 * duties (helper s).

Definition bounded (N : nat) (s : Sys) : Prop := forall t, N <= t -> callers s t = CIdle.

Lemma rank_upd N f t c : t < N -> callers_rank N (upd t c f) + caller_rank (f t) = callers_rank N f + caller_rank c.
Proof.
  induction N as [|n IH]; [lia|]. intros Ht. cbn. destruct (decide (t = n)) as [->|].
  - rewrite upd_same. assert (E : callers_rank n (upd n c f) = callers_rank n f); [|lia].
    clear. assert (H : forall k, k <= n -> callers_rank k (upd n c f) = callers_rank k f); [|by apply H].
    induction k as [|k IH]; [done|]. intros Hk. cbn. rewrite upd_other, IH by lia. done.
  - rewrite upd_other by done. specialize (IH ltac:(lia)). lia.
Qed.

Lemma bounded_lt N s t : bounded N s -> callers s t <> CIdle -> t < N.
Proof. intros HN Ht. destruct (decide (t < N)); [done|]. destruct Ht. apply HN. lia. Qed.

Lemma caller_decreases N s s' t c : bounded N s -> callers s t <> CIdle -> callers s' = upd t c (callers s) ->
  caller_rank c + worker_rank (worker s') + 10 * duties (helper s')
    < caller_rank (callers s t) + worker_rank (worker s) + 10 * duties (helper s) ->
  bounded N s' /\ rank N s' < rank N s.
Proof.
  intros HN Hc E Hlt. pose proof (bounded_lt N s t HN Hc) as Ht. split.
  - intros t' Ht'. rewrite E, upd_other by lia. by apply HN.
  - unfold rank. rewrite E. pose proof (rank_upd N (callers s) t c Ht). lia.
Qed.

Lemma main_release_eq c s s' : main_release c s = Ok s' ->
  s' = with_worker WRun (with_helper (fun h => set_has false false (set_release false h)) (with_mutex None s)).
Proof.
  unfold main_release, do_end_write, LLBT_ASSERT. destruct (_ || _); [|done]. cbn [mbind result_bind].
  destruct (writemutex s) as [[]|]; by intros [= <-].
Qed.

Lemma main_body_decreases c N s s' : worker s = WRun -> main_body c s = Ok s' ->
  callers s' = callers s /\ rank N s' < rank N s.
Proof.
  intros Hw. unfold main_body, LLBT_ASSERT, do_end_write. unfold rank. rewrite Hw.
  destruct (negb (m_running (helper s))); [|destruct (m_has_write_mutex (helper s))]; cbn [andb].
  - destruct (_ && _); [destruct (writemutex s) as [[]|]|]; intros [= <-]; cbn; split; (done || lia).
  - destruct (m_pending_sync (helper s)) eqn:Es; [|destruct (m_pending_mx_release (helper s)) eqn:Er].
    + destruct (negb _); [|done]. intros [= <-]. unfold duties. rewrite Es. cbn. split; (done || lia).
    + intros ->%main_release_eq. unfold duties. rewrite Er, Es. cbn. rewrite Es. split; (done || lia).
    + intros [= <-]. cbn. split; (done || lia).
  - destruct (m_pending_sync (helper s)), (negb (m_pending_mx_release (helper s))), (_ && _); intros [= <-]; cbn; split; (done || lia).
Qed.

Lemma main_locked_decreases N s s' : worker s = WLocked -> main_locked s = Ok s' ->
  callers s' = callers s /\ rank N s' < rank N s.
Proof.
  intros Hw. unfold main_locked, LLBT_ASSERT, rank. rewrite Hw. destruct (negb _); [|done]. cbn -[Nat.ltb Nat.mul].
  destruct (Nat.ltb_spec (m_write_lock_claim_fulfilled (helper s)) (m_write_lock_claim_ticket (helper s))).
  - intros [= <-]. unfold duties. cbn -[Nat.mul]. split; [done|]. lia.
  - destruct (m_pending_writes (helper s)) eqn:Eq; intros [= <-]. unfold duties. rewrite Eq. cbn -[Nat.mul]. split; [done|]. lia.
Qed.

(** The client whose callback the worker runs. *)
Lemma callback_client c s t : inv c s ->
  (worker s = WCallback t -> callers s t = CRequested) /\ (worker s = WSync t -> callers s t = CSyncing).
Proof.
  intros [(Hd & _)|[m (Hm & Hc & _)]]; [rewrite Hd; split; done|]. split; intros Hw; [exact (cl_callback _ Hc t Hw)|].
  pose proof (mo_worker _ _ Hm) as Hw'. rewrite Hw in Hw'. destruct m; try done.
  cbn in Hw'. injection Hw' as ->. by apply (mo_active _ _ Hm).
Qed.

(** The branches of an operation that returned. *)
Ltac op_cases E :=
  unfold begin_write, blocking_begin_write, blocking_begin_locked, end_write, end_write_on_correct_thread, blocking_end_write, sync_to_disk,
    main_body, main_synced, main_release, main_locked, do_end_write, LLBT_ASSERT in E;
  cbn -[Nat.ltb notify_worker start_thread] in E;
  repeat (case_match; cbn -[Nat.ltb notify_worker start_thread] in *; try discriminate E); simplify_eq.

(** The cases of a step that returned, with the client [i] that moves. *)
Ltac step_cases Hst E :=
  match type of Hst with step _ _ _ ?r0 => let r := fresh "r" in remember r0 as r eqn:E end;
  destruct Hst as [i s ? Hc|i s ? Hc|i s Hc Hx|i s Hc|i s Hc|i s Hc|i s Hc|i s Hc|i s Hc ?|i s Hc|s ? Hidle|s Hw|s Hw Hx|s Hw
    |i s Hw|i s Hw|s Hw|s Hw|i s ? Hc Hx|i s Hc|s Hx|s Hx].

Section Progress.
Context {is_thread_confined : bool}.

Lemma go_decreases N s s' : inv is_thread_confined s -> bounded N s -> step is_thread_confined Go s (Ok s') ->
  bounded N s' /\ rank N s' < rank N s.
Proof.
  intros Hi HN Hst. remember Go as l eqn:El.
  step_cases Hst E; try discriminate El; clear El; try (injection E as <-).
  all: try (eapply (caller_decreases N s _ i _ HN); [congruence|reflexivity|rewrite Hc; cbn -[Nat.mul]; unfold duties; cbn -[Nat.mul]; lia]).
  - destruct (main_body_decreases _ N s s' Hw E) as [E' ?]. split; [|done]. intros t. rewrite E'. apply HN.
  - split; [done|]. unfold rank. rewrite Hw. cbn -[Nat.mul]. lia.
  - destruct (main_locked_decreases N s s' Hw E) as [E' ?]. split; [|done]. intros t. rewrite E'. apply HN.
  - destruct (callback_client _ s i Hi) as [Hc _]. specialize (Hc Hw).
    apply (caller_decreases N s _ i CHasLock HN); [congruence|done|]. rewrite Hc, Hw. cbn -[Nat.mul]. lia.
  - destruct (callback_client _ s i Hi) as [_ Hc]. specialize (Hc Hw).
    apply (caller_decreases N s _ i CIdle HN); [congruence|done|]. rewrite Hc, Hw. cbn -[Nat.mul]. lia.
  - apply main_release_eq in E as ->. split; [done|]. unfold rank, duties. rewrite Hw. cbn -[Nat.mul]. lia.
Qed.

Lemma go_terminates N s : inv is_thread_confined s -> bounded N s ->
  Acc (fun s' s => step is_thread_confined Go s (Ok s')) s.
Proof.
  remember (rank N s) as n eqn:En. revert s En. induction (lt_wf n) as [n _ IH].
  intros s -> Hi HN. constructor. intros s' Hst. destruct (go_decreases N s s' Hi HN Hst) as [HN' Hlt].
  apply (IH (rank N s') Hlt s' eq_refl); [|done].
  by destruct (helper_inv_step _ _ _ Hi Hst) as (s1 & [= <-] & ?).
Qed.

Lemma notify_callers s : callers (notify_worker s) = callers s.
Proof. unfold notify_worker. by destruct (worker s). Qed.

Lemma start_callers s : callers (start_thread s) = callers s.
Proof. unfold start_thread. by destruct (m_running (helper s)). Qed.

(** A step moves one client at most. *)
Lemma step_callers l s s' : step is_thread_confined l s (Ok s') ->
  callers s' = callers s \/ exists t c, callers s' = upd t c (callers s).
Proof.
  intros Hst.
  step_cases Hst E.
  all: try (op_cases E). all: cbn. all: rewrite ?notify_callers; cbn; rewrite ?start_callers; eauto.
  unfold destroy. cbn. destruct (negb (m_running (helper s))); cbn; rewrite ?notify_callers; auto.
Qed.

(** Only finitely many clients have ever called. *)
Lemma reach_bounded s : reach is_thread_confined s -> exists N, bounded N s.
Proof.
  induction 1 as [|s1 l s2 Hr [N HN] _ Hst]; [by exists 0|].
  destruct (step_callers _ _ _ Hst) as [E|(t & c & E)]; [exists N; by unfold bounded; rewrite E|].
  exists (S (N + t)). intros i Hi. rewrite E, upd_other by lia. apply HN. lia.
Qed.

(** ** Wake-ups

    Where the mutex is confined to threads, the worker never sleeps over its duties. *)
Record awake (s : Sys) : Prop := {
  aw_waiting : m_waiting_for_write_mutex (helper s) = false;
  aw_release : worker s = WWait -> m_pending_mx_release (helper s) = false /\ m_pending_sync (helper s) = None;
  aw_locking : worker s = WLocking -> m_has_write_mutex (helper s) = false;
  aw_requests : worker s = WWait -> m_has_write_mutex (helper s) = false -> has_pending_write_requests (helper s) = false
}.


Lemma awake_notify s : m_waiting_for_write_mutex (helper s) = false ->
  (worker s = WLocking -> m_has_write_mutex (helper s) = false) -> awake (notify_worker s).
Proof.
  intros Hs Hl. unfold notify_worker. destruct (worker s) eqn:E; split; cbn; auto; congruence.
Qed.

Lemma start_awake s : awake s -> awake (start_thread s).
Proof. intros []. unfold start_thread. destruct (m_running (helper s)); by split. Qed.

Lemma awake_step l s s' : is_thread_confined = true -> inv is_thread_confined s -> awake s ->
  step is_thread_confined l s (Ok s') -> awake s'.
Proof.
  intros Hf Hi Ha Hst. destruct (start_awake _ Ha) as [Hs1 _ Hs2 _]. destruct Ha.
  step_cases Hst E.
  4: { exfalso. destruct Hi as [(_ & _ & Hi & _)|[m (_ & _ & Ht & _)]]; [congruence|]. by destruct (th_no_lock _ _ Ht Hf i). }
  all: try (op_cases E). all: try (split; cbn; by auto).
  all: try (rewrite notify_caller; apply awake_notify; cbn; [done|intros Hl; first [by auto|specialize (aw_locking0 Hl); congruence]]).
  all: try (split; cbn; auto; intros Hl; specialize (aw_locking0 Hl); congruence).
  - unfold destroy. cbn. destruct (negb (m_running (helper s))); [split; cbn; auto|apply awake_notify; cbn; auto].
  - split; cbn; auto; congruence.
  - rewrite aw_waiting0 in *. split; cbn; auto; try done. intros _. split; [by apply negb_true_iff|done].
Qed.

Lemma reach_awake s : is_thread_confined = true -> reach is_thread_confined s -> awake s.
Proof.
  intros Hf. induction 1 as [|s1 l s2 Hr IH _ Hst]; [by split|]. eapply awake_step; eauto. by apply reach_inv.
Qed.

End Progress.

(** ** Theorems *)

(** Places of clients that have the write mutex. *)
Definition has_mutex (c : CallerPc) : bool :=
  match c with CDirect | CLocked | CHolds | CHasLock | CSyncing => true | _ => false end.

(** Places of clients that wait for the worker. *)
Definition waits (c : CallerPc) : bool :=
  match c with CTicket _ | CRequested | CEnding | CSyncing => true | _ => false end.

(** The mutex is with someone who has to give it back: another process, or a
    client between two operations. *)
Definition lent (s : Sys) : Prop :=
  writemutex s = Some Foreign \/ exists t, match callers s t with CDirect | CHolds | CHasLock => True | _ => False end.

Section Stuck.
Context {c : bool}.

Lemma mutex_client m s t : live_ok c m s -> has_mutex (callers s t) = true ->
  active m = Some t /\ writemutex s = Some Ours.
Proof.
  intros H Ht. destruct (active_of m s t H) as [Ha _]; [destruct (callers s t); cbn in *; (done || tauto)|].
  split; [done|]. pose proof (mo_mutex _ _ (proj1 H)). by destruct m.
Qed.

Definition can_go (s : Sys) : Prop := exists s', step c Go s (Ok s').

Lemma go_of s r : inv c s -> step c Go s r -> can_go s.
Proof. intros Hi Hst. destruct (helper_inv_step _ _ _ Hi Hst) as (s' & -> & _). by exists s'. Qed.

Lemma worker_goes s : inv c s ->
  match worker s with WRun | WLocked | WCallback _ | WSync _ | WSynced => True | _ => False end -> can_go s.
Proof.
  intros Hi Hw. destruct (worker s) eqn:E; try done; eapply go_of; try done.
  - by apply step_main.
  - by apply step_main_locked.
  - by apply (step_callback c t).
  - by apply (step_sync_callback c t).
  - by apply step_main_synced.
Qed.

Lemma client_goes m s : live_ok c m s ->
  match m with MDirect _ | MLocked _ | MHeld _ | MTicket _ => True | _ => False end -> can_go s \/ lent s.
Proof.
  intros H Hm. assert (Hi : inv c s) by (right; by exists m).
  destruct m; try done; pose proof (mo_active _ _ (proj1 H) t eq_refl) as Hc; cbn in Hc.
  - right. right. exists t. by rewrite Hc.
  - left. eapply go_of; [done|]. by apply (step_begin_locked c t).
  - right. right. exists t. by destruct Hc as [-> | ->].
  - left. eapply go_of; [done|]. by apply (step_ticket c t).
Qed.

(** Without requests and duties only the end of [blocking_end_write] is left to do. *)
Lemma ending_goes s t : live_ok c MFree s -> has_pending_write_requests (helper s) = false ->
  worker s <> WCallback t -> waits (callers s t) = true -> can_go s.
Proof.
  intros H Hp Hw Ht. assert (Hi : inv c s) by (right; by exists MFree). destruct H as ([] & [] & _).
  unfold has_pending_write_requests in Hp. apply orb_false_iff in Hp as [Hp Hq].
  apply Nat.ltb_ge in Hp. apply negb_false_iff, bool_decide_eq_true in Hq.
  specialize (mo_passive0 t ltac:(done)). destruct (callers s t) eqn:E; try done; cbn in *.
  - specialize (cl_bound0 t _ E). lia.
  - exfalso. rewrite Hq in cl_queued0. specialize (proj2 (cl_queued0 t) (conj E Hw)). by apply not_elem_of_nil.
  - eapply go_of; [done|]. by apply (step_ended c t).
Qed.

End Stuck.

(** A worker that sleeps, or waits for the mutex, has nothing to do for the helper. *)
Lemma idle_goes {c} m s t : live_ok c m s -> has_pending_write_requests (helper s) = false ->
  match m with MRelease | MSync _ => False | _ => True end ->
  match worker s with WNone | WWait => True | _ => False end -> waits (callers s t) = true ->
  can_go (c:=c) s \/ lent s.
Proof.
  intros H Hp Hm Hw Ht. pose proof (mo_worker _ _ (proj1 H)) as Hmw.
  destruct m; try done; try (by destruct (worker s)); try (by apply (client_goes _ s H)).
  left. apply (ending_goes s t H Hp); [|done]. by destruct (worker s).
Qed.

Lemma duties_started {c} m s : live_ok c m s -> worker s = WNone ->
  has_pending_write_requests (helper s) = false /\ match m with MRelease | MSync _ => False | _ => True end.
Proof.
  intros (Hm & _ & [] & _) Hw. rewrite Hw in *. split.
  - destruct (has_pending_write_requests (helper s)); [by specialize (th_used0 eq_refl)|done].
  - destruct m; try done.
    + by specialize (th_owner0 (mo_owns _ _ Hm I)).
    + rewrite (mo_sync _ _ Hm) in th_sync0. by specialize (th_sync0 ltac:(done)).
Qed.



(** ** Two ways to wait forever

    Where the mutex is not confined to threads, a client may lock it by itself. *)

(** Steps that are certain to happen: no new calls, no spurious wake-up. *)
Definition settled_label (l : label) : Prop := l <> Call /\ l <> Spurious.

(** One more step of a run that is given by its last state. *)
Ltac forward R st :=
  match type of R with run ?c ?P ?s0 ?s =>
    let l := open_constr:(_) in let r := open_constr:(_) in let H := fresh in
    assert (H : step c l s r) by (eapply st; first [reflexivity|left; reflexivity]);
    let r' := eval vm_compute in r in
    match r' with Ok ?s2 =>
      change (step c l s (Ok s2)) in H;
      apply (run_step c P s0 s l s2 R ltac:(done)) in H; clear R; rename H into R
    end
  end.

(** A worker that waits for the mutex while a client waits for its sync. *)
Definition deadlocked (t : nat) (s : Sys) : Prop :=
  worker s = WLocking /\ m_pending_sync (helper s) = Some t.

Lemma deadlocked_client c s t : inv c s -> deadlocked t s -> live_ok c (MSync t) s.
Proof.
  intros [(Hw & _)|[m H]] [Hl Hs]; [congruence|]. rewrite (mo_sync _ _ (proj1 H)) in Hs.
  destruct m; try done. by injection Hs as ->.
Qed.

Lemma deadlocked_step c l s s' t : inv c s -> deadlocked t s -> step c l s (Ok s') -> deadlocked t s'.
Proof.
  intros Hi Hd Hst. pose proof (deadlocked_client c s t Hi Hd) as H. destruct Hd as [Hl Hs].
  assert (Hours : writemutex s = Some Ours) by (by destruct H as ([] & _)).
  assert (Ht : callers s t = CSyncing) by (destruct H as ([] & _); by apply mo_active0).
  assert (Hp : forall i, callers s i = CSyncing \/ passive_pc (m_write_lock_claim_fulfilled (helper s)) (callers s i)).
  { intros i. destruct H as ([] & _). destruct (decide (i = t)) as [->|]; [by left|right; apply mo_passive0].
    cbn. congruence. }
  assert (Hst' : start_thread s = s).
  { unfold start_thread. destruct H as (_ & _ & [] & _). rewrite th_running0, Hl.
    destruct (closing s); [|done]. by rewrite (th_closing0 eq_refl t) in Ht. }
  step_cases Hst E; try congruence; try (specialize (Hp i)).
  all: try (rewrite Hc in Hp; cbn in Hp; by destruct Hp; [|lia]).
  all: try (by destruct Hc as [Hc|Hc]; rewrite Hc in Hp; destruct Hp).
  all: op_cases E; unfold deadlocked, notify_worker; cbn; rewrite ?Hst'; cbn; rewrite ?Hl; done.
Qed.

Lemma deadlocked_run c s s' t : inv c s -> deadlocked t s -> run c (fun _ => True) s s' -> callers s' t = CSyncing.
Proof.
  intros Hi Hd Hr. assert (H : inv c s' /\ deadlocked t s').
  { induction Hr as [|s1 l s2 Hr [Hi1 Hd1] _ Hst]; [done|]. split; [|by apply (deadlocked_step c l s1)].
    by destruct (helper_inv_step l s1 _ Hi1 Hst) as (? & [= <-] & ?). }
  destruct (deadlocked_client c s' t (proj1 H) (proj2 H)) as ([] & _). by apply mo_active0.
Qed.

(** Claim C32.  Where the mutex is not confined to threads, a client can wait for the
    sync of its commits forever: two clients lock the mutex by themselves, the first
    one clears [m_waiting_for_write_mutex] while the second one still waits, so that
    the worker waits for the mutex as well; the second client gets it and asks the
    worker for a sync, and nothing that any thread does from then on serves it. *)
Theorem sync_never_served : exists s t, reach false s /\ callers s t = CSyncing
  /\ forall s', run false (fun _ => True) s s' -> callers s' t = CSyncing.
Proof.
  pose proof (run_refl false (fun _ => True) init) as R.
  forward R (step_blocking_begin false 0).
  forward R (step_do_begin_write false 0).
  forward R (step_blocking_begin false 1).
  forward R (step_begin_locked false 0).
  forward R (step_begin_write false 2).
  forward R (step_blocking_end false 0).
  forward R (step_main false).
  forward R (step_do_begin_write false 1).
  forward R (step_begin_locked false 1).
  forward R (step_promote_to_async false 1).
  forward R (step_sync false 1).
  eexists _, 1. split; [exact R|]. split; [reflexivity|]. intros s'. apply deadlocked_run; [by apply reach_inv|done].
Qed.

(** A request in the queue, and a worker that sleeps. *)
Definition forgotten (t : nat) (s : Sys) : Prop :=
  worker s = WWait /\ callers s t = CRequested /\ m_has_write_mutex (helper s) = false
  /\ forall i, i <> t -> callers s i = CIdle \/ callers s i = CDirect.

Lemma forgotten_step c l s s' t : settled_label l -> forgotten t s -> step c l s (Ok s') -> forgotten t s'.
Proof.
  intros [Hl1 Hl2] (Hwait & Ht & Hh & Ho) Hst.
  assert (Hn : forall i p, callers s i = p -> p <> CIdle -> p <> CDirect -> p = CRequested).
  { intros i p <- ? ?. destruct (decide (i = t)) as [->|Hi]; [done|]. by destruct (Ho i Hi). }
  step_cases Hst E; try congruence; try done.
  all: try (by specialize (Hn i _ Hc ltac:(done) ltac:(done))).
  all: try (by destruct Hc as [Hc|Hc]; specialize (Hn i _ Hc ltac:(done) ltac:(done))).
  - assert (Hi : i <> t) by congruence. injection E as <-. split_and!; cbn -[upd]; try done; [by rewrite upd_other|].
    intros j Hj. unfold upd. destruct (Nat.eqb_spec j i); auto.
  - assert (Hi : i <> t) by congruence. unfold end_write_on_correct_thread, blocking_end_write, do_end_write, LLBT_ASSERT in E.
    rewrite Hh in E. cbn in E. destruct (writemutex s) as [[]|]; cbn [mbind result_bind] in E; try discriminate E. injection E as <-.
    split_and!; cbn -[upd]; try done; [by rewrite upd_other|].
    intros j Hj. unfold upd. destruct (Nat.eqb_spec j i); auto.
  - injection E as <-. by split_and!.
  - injection E as <-. by split_and!.
Qed.

Lemma forgotten_run c s s' t : forgotten t s -> run c settled_label s s' -> callers s' t = CRequested.
Proof.
  intros Hf Hr. assert (H : forgotten t s'); [|by apply H].
  induction Hr as [|s1 l s2 Hr IH Hl Hst]; [done|]. by apply (forgotten_step c l s1).
Qed.

(** Claim C33.  Where the mutex is not confined to threads, a request can be
    forgotten: the worker goes to sleep over it while another client locks the mutex,
    and [end_write] of that client does not wake it up.  The mutex is free and
    everyone else is idle, but the request is served only if
    someone calls the helper again or the worker wakes up by chance. *)
Theorem request_forgotten : exists s t, reach false s /\ callers s t = CRequested /\ writemutex s = None
  /\ (forall i, i <> t -> callers s i = CIdle)
  /\ forall s', run false settled_label s s' -> callers s' t = CRequested.
Proof.
  pose proof (run_refl false (fun _ => True) init) as R.
  forward R (step_blocking_begin false 0).
  forward R (step_begin_write false 1).
  forward R (step_main false).
  forward R (step_do_begin_write false 0).
  forward R (step_begin_locked false 0).
  forward R (step_promote_to_async false 0).
  forward R (step_end_write false 0).
  eexists _, 1. split; [exact R|]. split_and!; [reflexivity..| |].
  - intros [|[|i]] Hi; done.
  - intros s'. apply forgotten_run. split_and!; [reflexivity..|]. intros [|[|i]] Hi; auto; done.
Qed.


