(* ===== verification/Transaction.v ===== *)
(** * Transactions and the locks they hold (transaction.hpp, transaction.cpp)

    A transaction reads the snapshot of its read lock, may be promoted to write
    under the write mutex of the file, and may commit without a sync and complete its
    commits later through the helper thread; until then it keeps a read lock on the
    last version that is on disk.  This file models
    the two stages of a transaction and what it holds: the write mutex and its read
    locks.  The data, the history, the translation of refs and a session that was
    closed under the transaction are left out.

    What may fail in the engine is an argument of the operations ([Env]).  An
    operation that throws leaves the state it has made. *)

From stdpp Require Import gmultiset.
From S2P Require Import Prelude Tx.
Open Scope nat_scope.


(** ** State *)

Inductive AsyncState := Idle | Requesting | HasLock | HasCommits | Syncing.

Definition async_is (a b : AsyncState) : bool :=
  match a, b with
  | Idle, Idle | Requesting, Requesting | HasLock, HasLock | HasCommits, HasCommits | Syncing, Syncing => true
  | _, _ => false
  end.

Definition stage_is (a b : Stage) : bool :=
  match a, b with
  | transact_Ready, transact_Ready | transact_Reading, transact_Reading
  | transact_Writing, transact_Writing | transact_Frozen, transact_Frozen => true
  | _, _ => false
  end.

Definition is_set (o : option nat) : bool := match o with Some _ => true | None => false end.

(** [direct]: the mutex was locked without the helper thread, or there is none.
    [locks] are the read locks of the transaction in [m_local_locks_held], by their versions;
    [mutex]: the write mutex is locked for this transaction; [newest]: the newest
    version of the file; [leaked]: read locks that were dropped without a release. *)
Record Transaction := mkTransaction {
  m_transact_stage : Stage;
  m_async_stage : AsyncState;
  m_read_lock : nat;
  m_oldest_version_not_persisted : option nat;
  m_async_commit_has_failed : bool;
  locks : gmultiset nat;
  mutex : bool;
  newest : nat;
  leaked : gmultiset nat;
  direct : bool
}.

Definition set_transact_stage x tr := mkTransaction x (m_async_stage tr) (m_read_lock tr) (m_oldest_version_not_persisted tr) (m_async_commit_has_failed tr) (locks tr) (mutex tr) (newest tr) (leaked tr) (direct tr).
Definition set_async_stage x tr := mkTransaction (m_transact_stage tr) x (m_read_lock tr) (m_oldest_version_not_persisted tr) (m_async_commit_has_failed tr) (locks tr) (mutex tr) (newest tr) (leaked tr) (direct tr).
Definition set_read_lock x tr := mkTransaction (m_transact_stage tr) (m_async_stage tr) x (m_oldest_version_not_persisted tr) (m_async_commit_has_failed tr) (locks tr) (mutex tr) (newest tr) (leaked tr) (direct tr).
Definition set_oldest x tr := mkTransaction (m_transact_stage tr) (m_async_stage tr) (m_read_lock tr) x (m_async_commit_has_failed tr) (locks tr) (mutex tr) (newest tr) (leaked tr) (direct tr).
Definition set_failed x tr := mkTransaction (m_transact_stage tr) (m_async_stage tr) (m_read_lock tr) (m_oldest_version_not_persisted tr) x (locks tr) (mutex tr) (newest tr) (leaked tr) (direct tr).
Definition set_locks x tr := mkTransaction (m_transact_stage tr) (m_async_stage tr) (m_read_lock tr) (m_oldest_version_not_persisted tr) (m_async_commit_has_failed tr) x (mutex tr) (newest tr) (leaked tr) (direct tr).
Definition set_mutex x tr := mkTransaction (m_transact_stage tr) (m_async_stage tr) (m_read_lock tr) (m_oldest_version_not_persisted tr) (m_async_commit_has_failed tr) (locks tr) x (newest tr) (leaked tr) (direct tr).
Definition set_newest x tr := mkTransaction (m_transact_stage tr) (m_async_stage tr) (m_read_lock tr) (m_oldest_version_not_persisted tr) (m_async_commit_has_failed tr) (locks tr) (mutex tr) x (leaked tr) (direct tr).
Definition set_leaked x tr := mkTransaction (m_transact_stage tr) (m_async_stage tr) (m_read_lock tr) (m_oldest_version_not_persisted tr) (m_async_commit_has_failed tr) (locks tr) (mutex tr) (newest tr) x (direct tr).
Definition set_unaided x tr := mkTransaction (m_transact_stage tr) (m_async_stage tr) (m_read_lock tr) (m_oldest_version_not_persisted tr) (m_async_commit_has_failed tr) (locks tr) (mutex tr) (newest tr) (leaked tr) x.

(** ** Operations as a state monad with exceptions *)

(** [Blocks]: the thread waits for what only it could bring about. *)
Inductive outcome (A : Type) := Done (a : A) | Raised (e : Exn) | Blocks.
Arguments Done {A} a.
Arguments Raised {A} e.
Arguments Blocks {A}.

Definition M (A : Type) : Type := Transaction -> outcome A * Transaction.

#[export] Instance M_ret : MRet M := fun _ a tr => (Done a, tr).
#[export] Instance M_bind : MBind M := fun _ _ k m tr =>
  match m tr with
  | (Done a, tr') => k a tr'
  | (Raised e, tr') => (Raised e, tr')
  | (Blocks, tr') => (Blocks, tr')
  end.

Definition throw {A} (e : Exn) : M A := fun tr => (Raised e, tr).
Definition update (f : Transaction -> Transaction) : M unit := fun tr => (Done tt, f tr).
Definition gets {A} (f : Transaction -> A) : M A := fun tr => (Done (f tr), tr).
Definition require (b : bool) (e : Exn) : M unit := fun tr => if b then (Done tt, tr) else (Raised e, tr).
Definition LLBT_ASSERT (b : bool) : M unit := require b AssertionFailed.

Definition when (b : bool) (m : M unit) : M unit := if b then m else mret tt.

(** [try { m } catch (...) { h; throw; }].  An assertion that fails ends the program. *)
Definition on_error {A} (m : M A) (h : M unit) : M A := fun tr =>
  match m tr with
  | (Raised AssertionFailed, tr') => (Raised AssertionFailed, tr')
  | (Raised e, tr') => (_ ← h; throw e) tr'
  | r => r
  end.

(** What the engine does at the calls that may fail: [e_commit], [do_commit]
    succeeds; [e_grab], a read lock can be taken, and [e_grab_sync], in
    [complete_async_commit]; [e_advance], the transaction can go to the newest version;
    [e_remap], the refs can be updated and the writing can start; [e_sync], the commits can
    be brought to disk; [e_try], the mutex is free for a try; [e_helper]: the file was opened with
    asynchronous writes, so there is a helper thread. *)
Record Env := mkEnv { e_commit : bool; e_grab : bool; e_grab_sync : bool; e_advance : bool; e_remap : bool; e_sync : bool; e_try : bool; e_helper : bool }.

(** ** The engine *)

Definition EngineError : Exn := SimulatedFailure.

Definition grab_read_lock (env : Env) : M nat :=
  _ ← require (e_grab env) EngineError;
  v ← gets newest;
  _ ← update (fun tr => set_locks (locks tr ⊎ {[+ v +]}) tr);
  mret v.

Definition release_read_lock (v : nat) : M unit :=
  l ← gets locks;
  _ ← LLBT_ASSERT (bool_decide (v ∈ l));
  update (set_locks (l ∖ {[+ v +]})).

Definition leak_read_lock (v : nat) : M unit :=
  l ← gets locks;
  if bool_decide (v ∈ l) then update (fun tr => set_leaked (leaked tr ⊎ {[+ v +]}) (set_locks (l ∖ {[+ v +]}) tr))
  else mret tt.

(** [do_begin_possibly_async_write]: a thread that has the mutex waits for itself. *)
Definition begin_write (env : Env) : M unit := fun tr =>
  if mutex tr then (Blocks, tr) else (Done tt, set_unaided (negb (e_helper env)) (set_mutex true tr)).

Definition try_begin_write (env : Env) : M bool := fun tr =>
  if negb (mutex tr) && e_try env then (Done true, set_unaided true (set_mutex true tr)) else (Done false, tr).

(** [end_write_on_correct_thread]. *)
Definition end_write : M unit :=
  m ← gets mutex;
  _ ← LLBT_ASSERT m;
  update (set_mutex false).

(** [async_end_write]: the helper asserts that it knows of the mutex. *)
Definition async_end_write : M unit :=
  d ← gets direct;
  _ ← LLBT_ASSERT (negb d);
  end_write.

Definition do_commit (env : Env) : M nat :=
  _ ← require (e_commit env) EngineError;
  v ← gets newest;
  _ ← update (set_newest (S v));
  mret (S v).

(** ** Operations of the helper thread *)

(** The lock of a grab that fails is the one of a default [ReadLockInfo], which no
    one holds. *)
Definition complete_async_commit (env : Env) : M unit :=
  if e_grab_sync env then
    v ← gets newest;
    _ ← update (fun tr => set_locks (locks tr ⊎ {[+ v +]}) tr);
    if e_sync env then
      _ ← release_read_lock v;
      o ← gets m_oldest_version_not_persisted;
      match o with
      | Some w => _ ← release_read_lock w; update (set_oldest None)
      | None => mret tt
      end
    else
      _ ← update (set_failed true);
      release_read_lock v
  else
    _ ← update (set_failed true);
    throw AssertionFailed.

(** The callback of [async_request_write_mutex]: the worker has the mutex. *)
Definition granted : M unit :=
  _ ← (fun tr => if mutex tr then (Blocks, tr) else (Done tt, set_unaided false (set_mutex true tr)));
  a ← gets m_async_stage;
  when (async_is a Requesting) (update (set_async_stage HasLock)).

(** The callback of [async_complete_writes], and the release of the mutex behind it.
    The worker asserts that there is nothing to sync when it does not know of the mutex. *)
Definition synced (env : Env) : M unit :=
  d ← gets direct;
  _ ← LLBT_ASSERT (negb d);
  _ ← complete_async_commit env;
  _ ← update (set_async_stage Idle);
  end_write.

(** ** Operations of the transaction *)

Definition holds_write_mutex : M bool :=
  a ← gets m_async_stage;
  mret (async_is a HasLock || async_is a HasCommits).

Definition require_stage (st : Stage) : M unit :=
  s ← gets m_transact_stage;
  require (stage_is s st) LogicError.

Definition promote_to_async : M unit :=
  a ← gets m_async_stage;
  when (async_is a Idle) (update (set_async_stage HasLock)).

Definition async_request_write_mutex (env : Env) : M unit :=
  a ← gets m_async_stage;
  _ ← LLBT_ASSERT (async_is a Idle);
  _ ← update (set_async_stage Requesting);
  LLBT_ASSERT (e_helper env).

(** Waiting for a callback is running it. *)
Definition acquire_write_lock (env : Env) : M unit :=
  a ← gets m_async_stage;
  match a with
  | Idle => begin_write env
  | Requesting => granted
  | HasLock | HasCommits => mret tt
  | Syncing => _ ← synced env; begin_write env
  end.

Definition async_complete_writes : M unit :=
  a ← gets m_async_stage;
  match a with
  | HasLock => _ ← update (set_async_stage Idle); async_end_write
  | HasCommits => update (set_async_stage Syncing)
  | _ => mret tt
  end.

Definition prepare_for_close (env : Env) : M unit :=
  a ← gets m_async_stage;
  st ← gets m_transact_stage;
  o ← gets m_oldest_version_not_persisted;
  let reading := stage_is st transact_Reading in
  _ ← match a with
      | Idle => mret tt
      | Requesting =>
          _ ← LLBT_ASSERT reading;
          _ ← LLBT_ASSERT (negb (is_set o));
          _ ← granted;
          end_write
      | HasLock =>
          _ ← when (stage_is st transact_Writing) (update (set_transact_stage transact_Reading));
          _ ← when (is_set o) (complete_async_commit env);
          end_write
      | HasCommits =>
          _ ← LLBT_ASSERT reading;
          _ ← complete_async_commit env;
          end_write
      | Syncing =>
          _ ← LLBT_ASSERT reading;
          synced env
      end;
  update (set_async_stage Idle).

Definition do_end_read (env : Env) : M unit :=
  _ ← prepare_for_close env;
  o ← gets m_oldest_version_not_persisted;
  _ ← match o with
      | Some w => f ← gets m_async_commit_has_failed; _ ← LLBT_ASSERT f; leak_read_lock w
      | None => mret tt
      end;
  v ← gets m_read_lock;
  _ ← release_read_lock v;
  update (set_transact_stage transact_Ready).

Definition end_read (env : Env) : M unit :=
  st ← gets m_transact_stage;
  match st with
  | transact_Ready => mret tt
  | transact_Writing => throw LogicError
  | _ => do_end_read env
  end.

Definition commit (env : Env) : M nat :=
  _ ← require_stage transact_Writing;
  v ← do_commit env;
  _ ← end_write;
  _ ← do_end_read env;
  _ ← update (set_read_lock v);
  mret v.

Definition rollback (env : Env) : M unit :=
  st ← gets m_transact_stage;
  match st with
  | transact_Ready => mret tt
  | transact_Writing =>
      h ← holds_write_mutex;
      _ ← when (negb h) end_write;
      do_end_read env
  | _ => throw LogicError
  end.

Definition close (env : Env) : M unit :=
  st ← gets m_transact_stage;
  _ ← when (stage_is st transact_Writing) (rollback env);
  st ← gets m_transact_stage;
  match st with
  | transact_Reading | transact_Frozen => do_end_read env
  | _ => mret tt
  end.

(** [internal_advance_read] to the newest version. *)
Definition internal_advance_read (env : Env) : M unit :=
  v ← grab_read_lock env;
  old ← gets m_read_lock;
  _ ← LLBT_ASSERT (old <=? v);
  if v =? old then release_read_lock v
  else
    _ ← on_error (require (e_advance env) EngineError) (release_read_lock v);
    _ ← release_read_lock old;
    update (set_read_lock v).

Definition advance_read (env : Env) : M unit :=
  _ ← require_stage transact_Reading;
  internal_advance_read env.

(** The part of [promote_to_write] that gets the mutex. *)
Definition lock_for_write (env : Env) (nonblocking holds : bool) : M bool :=
  if holds then mret true
  else if nonblocking then try_begin_write env
  else _ ← acquire_write_lock env; mret true.

Definition promote_to_write (env : Env) (nonblocking : bool) : M bool :=
  _ ← require_stage transact_Reading;
  h ← holds_write_mutex;
  got ← lock_for_write env nonblocking h;
  if negb got then mret false
  else
    _ ← on_error (_ ← internal_advance_read env; require (e_remap env) EngineError)
          (h ← holds_write_mutex; when (negb h) end_write);
    _ ← update (set_transact_stage transact_Writing);
    mret true.

Definition commit_and_continue_as_read (env : Env) (commit_to_disk : bool) : M nat :=
  _ ← require_stage transact_Writing;
  version ← do_commit env;
  on_error
    (new_read_lock ← grab_read_lock env;
     _ ← update (set_transact_stage transact_Reading);
     old ← gets m_read_lock;
     o ← gets m_oldest_version_not_persisted;
     _ ← (if commit_to_disk || is_set o then release_read_lock old
          else update (set_oldest (Some old)));
     o ← gets m_oldest_version_not_persisted;
     _ ← match o with
         | Some w => when commit_to_disk (_ ← release_read_lock w; update (set_oldest None))
         | None => mret tt
         end;
     _ ← update (set_read_lock new_read_lock);
     o ← gets m_oldest_version_not_persisted;
     _ ← LLBT_ASSERT (match o with Some w => negb (new_read_lock =? w) | None => true end);
     a ← gets m_async_stage;
     _ ← LLBT_ASSERT (negb (async_is a Syncing));
     _ ← (if commit_to_disk then
            if async_is a Requesting then update (set_async_stage HasLock)
            else _ ← end_write; update (set_async_stage Idle)
          else update (set_async_stage HasCommits));
     _ ← require (e_remap env) EngineError;
     mret version)
    (update (set_transact_stage transact_Ready)).

Definition commit_and_continue_writing (env : Env) : M nat :=
  _ ← require_stage transact_Writing;
  version ← do_commit env;
  new_read_lock ← grab_read_lock env;
  old ← gets m_read_lock;
  _ ← release_read_lock old;
  _ ← update (set_read_lock new_read_lock);
  _ ← require (e_remap env) EngineError;
  mret version.

Definition rollback_and_continue_as_read (env : Env) : M unit :=
  _ ← require_stage transact_Writing;
  _ ← require (e_remap env) EngineError;
  h ← holds_write_mutex;
  _ ← when (negb h) end_write;
  update (set_transact_stage transact_Reading).

(** ** What a transaction holds *)

Definition opt_lock (o : option nat) : gmultiset nat := match o with Some w => {[+ w +]} | None => ∅ end.

Definition async_mutex (a : AsyncState) (st : Stage) : bool :=
  match a with
  | Idle | Requesting => stage_is st transact_Writing
  | HasLock | HasCommits | Syncing => true
  end.

(** A transaction that is not closed: its locks are the one of its snapshot
    and the one of the last version on disk, and it has the mutex while it writes
    and while the asynchronous stage says so. *)
Record open_ok (tr : Transaction) : Prop := {
  op_stage : m_transact_stage tr <> transact_Ready;
  op_locks : locks tr = {[+ m_read_lock tr +]} ⊎ opt_lock (m_oldest_version_not_persisted tr);
  op_newest : m_read_lock tr <= newest tr;
  op_older : forall w, m_oldest_version_not_persisted tr = Some w -> w < m_read_lock tr;
  op_mutex : mutex tr = async_mutex (m_async_stage tr) (m_transact_stage tr);
  op_async : match m_async_stage tr with
             | Idle => True
             | Requesting => m_transact_stage tr = transact_Reading /\ m_oldest_version_not_persisted tr = None
             | HasLock | HasCommits => m_transact_stage tr <> transact_Frozen
             | Syncing => m_transact_stage tr = transact_Reading /\ direct tr = false
             end;
  op_failed : m_oldest_version_not_persisted tr <> None ->
    m_async_commit_has_failed tr = true \/ m_async_stage tr = HasCommits \/ m_async_stage tr = Syncing
}.

(** A closed transaction holds nothing. *)
Definition closed_ok (tr : Transaction) : Prop :=
  m_transact_stage tr = transact_Ready /\ m_async_stage tr = Idle /\ locks tr = ∅ /\ mutex tr = false.

Definition tr_ok (tr : Transaction) : Prop := open_ok tr \/ closed_ok tr.

(** Runs the monad and the fields of the state, and nothing else. *)
Ltac run := cbv [mbind M_bind mret M_ret gets update throw require LLBT_ASSERT when
  set_transact_stage set_async_stage set_read_lock set_oldest set_failed set_locks set_mutex set_newest set_leaked set_unaided
  m_transact_stage m_async_stage m_read_lock m_oldest_version_not_persisted m_async_commit_has_failed
  locks mutex newest leaked direct negb orb andb async_is stage_is is_set].
Ltac run_in H := cbv [mbind M_bind mret M_ret gets update throw require LLBT_ASSERT when
  set_transact_stage set_async_stage set_read_lock set_oldest set_failed set_locks set_mutex set_newest set_leaked set_unaided
  m_transact_stage m_async_stage m_read_lock m_oldest_version_not_persisted m_async_commit_has_failed
  locks mutex newest leaked direct negb orb andb async_is stage_is is_set] in H.

Lemma release_ok v L tr : locks tr = {[+ v +]} ⊎ L -> release_read_lock v tr = (Done tt, set_locks L tr).
Proof.
  intros E. destruct tr as [st a r o f K mx n lk d]. run_in E. subst K. unfold release_read_lock. run.
  rewrite bool_decide_eq_true_2 by multiset_solver. do 2 f_equal. multiset_solver.
Qed.

Lemma complete_ok env tr : e_grab_sync env = true ->
  locks tr = {[+ m_read_lock tr +]} ⊎ opt_lock (m_oldest_version_not_persisted tr) ->
  exists o f, complete_async_commit env tr
      = (Done tt, set_oldest o (set_failed f (set_locks ({[+ m_read_lock tr +]} ⊎ opt_lock o) tr)))
    /\ (o = None \/ o = m_oldest_version_not_persisted tr) /\ (o <> None -> f = true).
Proof.
  intros Hg E. destruct tr as [st a r o f L mx n lk d]. run_in E. subst L.
  unfold complete_async_commit. rewrite Hg. destruct (e_sync env).
  - exists None, f. split; [|by auto]. run.
    rewrite (release_ok n ({[+ r +]} ⊎ opt_lock o)) by apply gmultiset_disj_union_comm. run.
    destruct o as [w|]; [|done]. rewrite (release_ok w {[+ r +]}) by apply gmultiset_disj_union_comm. run.
    by rewrite gmultiset_disj_union_right_id.
  - exists o, true. split; [|by auto]. run.
    rewrite (release_ok n ({[+ r +]} ⊎ opt_lock o)) by apply gmultiset_disj_union_comm. done.
Qed.

(** What [do_end_read] needs. *)
Record closing_ok (tr : Transaction) : Prop := {
  co_locks : locks tr = {[+ m_read_lock tr +]} ⊎ opt_lock (m_oldest_version_not_persisted tr);
  co_mutex : mutex tr = match m_async_stage tr with Idle | Requesting => false | _ => true end;
  co_async : match m_async_stage tr with
             | Requesting => m_transact_stage tr = transact_Reading /\ m_oldest_version_not_persisted tr = None
             | HasCommits => m_transact_stage tr = transact_Reading
             | Syncing => m_transact_stage tr = transact_Reading /\ direct tr = false
             | _ => True
             end;
  co_failed : m_oldest_version_not_persisted tr <> None ->
    m_async_commit_has_failed tr = true \/ m_async_stage tr = HasCommits \/ m_async_stage tr = Syncing
}.

(** After [prepare_for_close]. *)
Definition prepared (r : nat) (tr : Transaction) : Prop :=
  m_async_stage tr = Idle /\ mutex tr = false /\ m_read_lock tr = r
  /\ locks tr = {[+ r +]} ⊎ opt_lock (m_oldest_version_not_persisted tr)
  /\ (m_oldest_version_not_persisted tr <> None -> m_async_commit_has_failed tr = true).

Lemma prepare_ok env tr : e_grab_sync env = true -> closing_ok tr ->
  exists tr', prepare_for_close env tr = (Done tt, tr') /\ prepared (m_read_lock tr) tr'.
Proof.
  intros Hg [El Em Ea Ef]. destruct tr as [st a r o f L mx n lk d]. run_in El. run_in Em. run_in Ea. run_in Ef. subst L mx.
  assert (Ec : forall st, exists o' f', complete_async_commit env (mkTransaction st a r o f ({[+ r +]} ⊎ opt_lock o) true n lk d)
    = (Done tt, mkTransaction st a r o' f' ({[+ r +]} ⊎ opt_lock o') true n lk d) /\ (o' <> None -> f' = true)).
  { intros st'. destruct (complete_ok env (mkTransaction st' a r o f ({[+ r +]} ⊎ opt_lock o) true n lk d) Hg eq_refl)
      as (o' & f' & Ec & _ & Hf). by exists o', f'. }
  unfold prepare_for_close, granted, begin_write, synced, end_write. run. destruct a.
  - eexists. split; [done|]. split_and!; try done. intros Ho. by destruct (Ef Ho) as [|[]].
  - destruct Ea as [-> ->]. run. eexists. split; [done|]. by split_and!.
  - destruct st, o; run.
    all: try (destruct (Ec transact_Ready) as (? & ? & -> & ?); run). all: try (destruct (Ec transact_Reading) as (? & ? & -> & ?); run).
    all: try (destruct (Ec transact_Frozen) as (? & ? & -> & ?); run). all: eexists; (split; [done|]); by split_and!.
  - subst st. destruct (Ec transact_Reading) as (? & ? & -> & ?). run. eexists. split; [done|]. by split_and!.
  - destruct Ea as [-> ->]. run. destruct (Ec transact_Reading) as (? & ? & -> & ?). run. eexists. split; [done|]. by split_and!.
Qed.

Lemma do_end_read_ok env tr : e_grab_sync env = true -> closing_ok tr ->
  exists tr', do_end_read env tr = (Done tt, tr') /\ closed_ok tr'.
Proof.
  intros Hg Hc. destruct (prepare_ok env tr Hg Hc) as (tr1 & E & Ha & Hm & Hr & Hl & Hf).
  unfold do_end_read, mbind, M_bind at 1. rewrite E. destruct tr1 as [st a r o f L mx n lk d].
  run_in Ha. run_in Hm. run_in Hr. run_in Hl. run_in Hf. subst. run. destruct o as [w|].
  - rewrite Hf by done. unfold leak_read_lock. run. rewrite bool_decide_eq_true_2 by (unfold opt_lock; multiset_solver).
    rewrite (release_ok _ ∅); [run; eexists; (split; [done|]); by split_and!|].
    run. unfold opt_lock. multiset_solver.
  - rewrite (release_ok _ ∅) by done. run. eexists. split; [done|]. by split_and!.
Qed.

(** ** The operations of a client *)

(** [OpGranted] and [OpSynced] are callbacks of the worker; [OpOthers]: another
    transaction commits. *)
Inductive op :=
| OpPromote (nonblocking : bool) | OpCommit | OpRollback | OpClose | OpEndRead | OpCommitRead (commit_to_disk : bool)
| OpCommitWrite | OpRollbackRead | OpAdvance | OpPromoteAsync | OpRequest | OpComplete | OpGranted | OpSynced | OpOthers.

Definition void {A} (m : M A) : M unit := _ ← m; mret tt.

Definition exec (env : Env) (o : op) : M unit :=
  match o with
  | OpPromote nonblocking => void (promote_to_write env nonblocking)
  | OpCommit => void (commit env)
  | OpRollback => rollback env
  | OpClose => close env
  | OpEndRead => end_read env
  | OpCommitRead commit_to_disk => void (commit_and_continue_as_read env commit_to_disk)
  | OpCommitWrite => void (commit_and_continue_writing env)
  | OpRollbackRead => rollback_and_continue_as_read env
  | OpAdvance => advance_read env
  | OpPromoteAsync => promote_to_async
  | OpRequest => async_request_write_mutex env
  | OpComplete => async_complete_writes
  | OpGranted => granted
  | OpSynced => synced env
  | OpOthers => update (fun tr => set_newest (S (newest tr)) tr)
  end.

(** How a client uses a transaction.  Left out are the uses shown to fail at the end of
    this file: committing a transaction that has become asynchronous, closing one
    that writes with commits that are not on disk, completing writes under a mutex
    that the helper does not know of, and a commit behind which the new snapshot cannot be
    locked; and a promotion without waiting while a request is pending. *)
Definition allowed (env : Env) (o : op) (tr : Transaction) : Prop :=
  e_grab_sync env = true /\
  match o with
  | OpPromote nonblocking => nonblocking = true -> m_async_stage tr <> Requesting
  | OpCommit => m_transact_stage tr = transact_Writing -> m_async_stage tr = Idle
  | OpRollback | OpClose => m_transact_stage tr = transact_Writing -> m_async_stage tr <> HasCommits
  | OpCommitRead _ => e_grab env = true /\ e_remap env = true
  | OpPromoteAsync => m_transact_stage tr = transact_Writing
  | OpRequest => e_helper env = true /\ m_transact_stage tr = transact_Reading /\ m_async_stage tr = Idle
      /\ m_oldest_version_not_persisted tr = None
  | OpComplete => m_transact_stage tr = transact_Reading /\ direct tr = false
  | OpGranted => m_async_stage tr = Requesting
  | OpSynced => m_async_stage tr = Syncing
  | OpOthers => mutex tr = false
  | _ => True
  end.

(** The operation returns or throws, and the transaction is as it should be. *)
Definition good {A} (x : outcome A * Transaction) : Prop :=
  match x with
  | (Done _, tr) => tr_ok tr
  | (Raised e, tr) => e <> AssertionFailed /\ tr_ok tr
  | (Blocks, _) => False
  end.

Lemma good_void {A} (m : M A) tr : good (m tr) -> good (void m tr).
Proof. unfold void. run. by destruct (m tr) as [[] ?]. Qed.

(** The cases of an open transaction: its fields, and the stages it can be in. *)
Ltac open_cases H tr :=
  destruct H as [Hst Hl Hn Ho Hm Ha Hf]; destruct tr as [[] [] r o f L mx n lk d];
  run_in Hst; run_in Hl; run_in Hn; run_in Ho; run_in Hm; run_in Ha; run_in Hf;
  try done; try (by destruct Ha); cbn [async_mutex stage_is] in Hm; subst.

Ltac open_tac := left; split; run; first [done|congruence|lia|auto|by intros [= <-]; auto].

Lemma closing_of_open tr : open_ok tr ->
  m_transact_stage tr <> transact_Writing \/ m_async_stage tr = HasLock -> closing_ok tr.
Proof.
  intros H Hc. open_cases H tr; run_in Hc; destruct Hc as [Hc|Hc]; try done.
  all: split; run; try done; auto.
Qed.

Lemma end_read_good env tr : e_grab_sync env = true -> tr_ok tr -> good (end_read env tr).
Proof.
  intros Hg [H|H]; unfold end_read, mbind, M_bind, gets.
  - destruct (m_transact_stage tr) eqn:Hst; [by destruct (op_stage _ H)| |by split; [|left]|].
    all: destruct (do_end_read_ok env tr Hg) as (tr' & -> & ?); [apply closing_of_open; [done|left; by rewrite Hst]|by right].
  - rewrite (proj1 H). by right.
Qed.

(** A write transaction that is not asynchronous gives the mutex back. *)
Lemma end_idle tr : open_ok tr -> m_transact_stage tr = transact_Writing -> m_async_stage tr = Idle ->
  end_write tr = (Done tt, set_mutex false tr) /\ closing_ok (set_mutex false tr).
Proof.
  intros H Hs Hi. open_cases H tr; run_in Hs; run_in Hi; done.
Qed.

Lemma rollback_good env tr : e_grab_sync env = true -> tr_ok tr ->
  (m_transact_stage tr = transact_Writing -> m_async_stage tr <> HasCommits) ->
  good (rollback env tr) /\ (m_transact_stage tr = transact_Writing -> exists tr', rollback env tr = (Done tt, tr') /\ closed_ok tr').
Proof.
  intros Hg [H|H] Hc; unfold rollback, holds_write_mutex, mbind, M_bind, mret, M_ret, gets.
  - destruct (m_transact_stage tr) eqn:Hst; [by destruct (op_stage _ H)|by split; [split; [|left]|]| |by split; [split; [|left]|]].
    assert (E : exists tr', (let (o, tr') := when (negb (async_is (m_async_stage tr) HasLock || async_is (m_async_stage tr) HasCommits)) end_write tr in
      match o with Done _ => do_end_read env tr' | Raised e => (Raised e, tr') | Blocks => (Blocks, tr') end) = (Done tt, tr') /\ closed_ok tr').
    { destruct (m_async_stage tr) eqn:Ha; cbn [async_is orb negb when].
      - destruct (end_idle tr H Hst Ha) as [-> ?]. by apply do_end_read_ok.
      - pose proof (op_async _ H) as Hop. rewrite Ha in Hop. destruct Hop. congruence.
      - apply do_end_read_ok; [done|]. apply closing_of_open; auto.
      - by destruct (Hc eq_refl).
      - pose proof (op_async _ H) as Hop. rewrite Ha in Hop. destruct Hop. congruence. }
    destruct E as (tr' & E & Hcl). rewrite E. split; [by right|]. by exists tr'.
  - rewrite (proj1 H). split; [by right|done].
Qed.

Lemma close_good env tr : e_grab_sync env = true -> tr_ok tr ->
  (m_transact_stage tr = transact_Writing -> m_async_stage tr <> HasCommits) ->
  exists tr', close env tr = (Done tt, tr') /\ closed_ok tr'.
Proof.
  intros Hg H Hc. destruct (rollback_good env tr Hg H Hc) as [_ Hr].
  unfold close, mbind, M_bind, gets, when, mret, M_ret. destruct (m_transact_stage tr) eqn:Hst; cbn [stage_is].
  - rewrite Hst. destruct H as [H|H]; [by destruct (op_stage _ H)|]. by exists tr.
  - rewrite Hst. apply do_end_read_ok; [done|]. destruct H as [H|[H _]]; [|congruence]. apply closing_of_open; [done|left; congruence].
  - destruct (Hr eq_refl) as (tr' & -> & Hcl). rewrite (proj1 Hcl). by exists tr'.
  - rewrite Hst. apply do_end_read_ok; [done|]. destruct H as [H|[H _]]; [|congruence]. apply closing_of_open; [done|left; congruence].
Qed.

Lemma require_stage_eq st tr : require_stage st tr = if stage_is (m_transact_stage tr) st then (Done tt, tr) else (Raised LogicError, tr).
Proof. done. Qed.

Lemma stage_is_eq a b : stage_is a b = true -> a = b.
Proof. by destruct a, b. Qed.

Lemma do_commit_eq env tr : do_commit env tr =
  if e_commit env then (Done (S (newest tr)), set_newest (S (newest tr)) tr) else (Raised EngineError, tr).
Proof. unfold do_commit. cbv [mbind M_bind require gets update mret M_ret]. by destruct (e_commit env). Qed.

Lemma grab_eq env tr : grab_read_lock env tr =
  if e_grab env then (Done (newest tr), set_locks (locks tr ⊎ {[+ newest tr +]}) tr) else (Raised EngineError, tr).
Proof. unfold grab_read_lock. cbv [mbind M_bind require gets update mret M_ret]. by destruct (e_grab env). Qed.

Lemma newest_open tr : open_ok tr -> open_ok (set_newest (S (newest tr)) tr).
Proof. intros []. destruct tr; split; cbn in *; auto. Qed.

Lemma commit_good env tr : e_grab_sync env = true -> tr_ok tr ->
  (m_transact_stage tr = transact_Writing -> m_async_stage tr = Idle) -> good (commit env tr).
Proof.
  intros Hg H Hi. unfold commit. cbv [mbind M_bind]. rewrite require_stage_eq.
  destruct (stage_is (m_transact_stage tr) transact_Writing) eqn:Hst; [|by split].
  apply stage_is_eq in Hst. specialize (Hi Hst). destruct H as [H|[H _]]; [|congruence].
  rewrite do_commit_eq. destruct (e_commit env); [|by split; [|left]].
  apply newest_open in H. destruct (end_idle _ H Hst Hi) as [-> Hc].
  destruct (do_end_read_ok env _ Hg Hc) as (tr' & -> & Hcl). right. by destruct tr'.
Qed.

(** *** Going to the newest version *)

Lemma advance_ok env tr : locks tr = {[+ m_read_lock tr +]} ⊎ opt_lock (m_oldest_version_not_persisted tr) ->
  m_read_lock tr <= newest tr ->
  internal_advance_read env tr
    = (Done tt, set_read_lock (newest tr) (set_locks ({[+ newest tr +]} ⊎ opt_lock (m_oldest_version_not_persisted tr)) tr))
  \/ internal_advance_read env tr = (Raised EngineError, tr).
Proof.
  intros El Hle. unfold internal_advance_read. cbv [mbind M_bind]. rewrite grab_eq.
  destruct (e_grab env); [|by right]. destruct tr as [st a r o f L mx n lk d]. run_in El. run_in Hle. subst L. run.
  rewrite (proj2 (Nat.leb_le r n) Hle). destruct (Nat.eqb_spec n r) as [->|].
  - left. by rewrite (release_ok r ({[+ r +]} ⊎ opt_lock o)) by apply gmultiset_disj_union_comm.
  - unfold on_error. run. destruct (e_advance env).
    + left. rewrite (release_ok r (opt_lock o ⊎ {[+ n +]})); [|run; multiset_solver]. run. do 2 f_equal. multiset_solver.
    + right. unfold EngineError. run. by rewrite (release_ok n ({[+ r +]} ⊎ opt_lock o)) by apply gmultiset_disj_union_comm.
Qed.

Ltac fields :=
  left; split; run; unfold async_mutex, stage_is; try done; try lia; auto; try (by intros ? [= <-]; lia);
  try match goal with
      | Hf : ?o <> None -> _ \/ _ \/ _ |- ?o <> None -> _ => let Hx := fresh in intros Hx; destruct (Hf Hx) as [?|[?|?]]; auto; done
      end.

Lemma promote_async_good tr : tr_ok tr -> m_transact_stage tr = transact_Writing -> good (promote_to_async tr).
Proof.
  intros [H|[H _]] Hw; [|congruence]. open_cases H tr; try done; unfold promote_to_async; run; fields.
Qed.

Lemma request_good env tr : tr_ok tr ->
  e_helper env = true /\ m_transact_stage tr = transact_Reading /\ m_async_stage tr = Idle /\ m_oldest_version_not_persisted tr = None ->
  good (async_request_write_mutex env tr).
Proof.
  intros [H|[H _]] (He & Hs & Hi & Hn'); [|congruence].
  open_cases H tr; run_in Hs; run_in Hi; run_in Hn'; try done. subst. unfold async_request_write_mutex. run. rewrite He. fields.
Qed.

Lemma complete_writes_good tr : tr_ok tr -> m_transact_stage tr = transact_Reading /\ direct tr = false -> good (async_complete_writes tr).
Proof.
  intros [H|[H _]] [Hs Hd]; [|congruence].
  open_cases H tr; run_in Hs; run_in Hd; try done; subst; unfold async_complete_writes, async_end_write, end_write; run; fields.
Qed.

Lemma granted_good tr : tr_ok tr -> m_async_stage tr = Requesting ->
  exists tr', granted tr = (Done tt, tr') /\ open_ok tr' /\ m_async_stage tr' = HasLock /\ m_transact_stage tr' = transact_Reading.
Proof.
  intros [H|(_ & H & _)] Hs; [|congruence]. open_cases H tr; run_in Hs; try done. unfold granted. run.
  eexists. split; [done|]. split; [|done]. destruct Ha as [_ ->]. by split.
Qed.

Lemma synced_good env tr : e_grab_sync env = true -> tr_ok tr -> m_async_stage tr = Syncing ->
  exists tr', synced env tr = (Done tt, tr') /\ open_ok tr' /\ m_async_stage tr' = Idle /\ m_transact_stage tr' = transact_Reading.
Proof.
  intros Hg [H|(_ & H & _)] Hs; [|congruence].
  destruct (complete_ok env tr Hg (op_locks _ H)) as (o' & f' & Ec & Ho' & Hf').
  pose proof (op_async _ H) as Hd. rewrite Hs in Hd. destruct Hd as [_ Hd].
  unfold synced. cbv [mbind M_bind gets LLBT_ASSERT require]. rewrite Hd. cbn [negb]. rewrite Ec. clear Ec.
  open_cases H tr; run_in Hs; try done. run_in Ho'. unfold end_write. run. eexists. split; [done|]. split; [|done].
  split; run; try done; [|auto]. intros w E. apply Ho. destruct Ho' as [->| ->]; [done|exact E].
Qed.

(** A transaction that has the mutex and is about to write. *)
Definition about_to_write (tr : Transaction) : Prop :=
  m_transact_stage tr = transact_Reading /\ open_ok (set_transact_stage transact_Writing tr).

Lemma begin_write_ok tr b : open_ok tr -> m_transact_stage tr = transact_Reading -> m_async_stage tr = Idle ->
  mutex tr = false /\ about_to_write (set_unaided b (set_mutex true tr)).
Proof.
  intros H Hs Hi. open_cases H tr; run_in Hs; run_in Hi; done.
Qed.

Lemma held_about_to_write tr : open_ok tr -> m_transact_stage tr = transact_Reading ->
  m_async_stage tr = HasLock \/ m_async_stage tr = HasCommits -> about_to_write tr.
Proof.
  intros H Hs Hi. split; [done|]. open_cases H tr; run_in Hs; run_in Hi; try done; try (by destruct Hi); split; run; auto; done.
Qed.

Lemma lock_for_write_ok env nonblocking tr : e_grab_sync env = true -> open_ok tr ->
  m_transact_stage tr = transact_Reading -> (nonblocking = true -> m_async_stage tr <> Requesting) ->
  let holds := async_is (m_async_stage tr) HasLock || async_is (m_async_stage tr) HasCommits in
  lock_for_write env nonblocking holds tr = (Done false, tr)
  \/ exists tr', lock_for_write env nonblocking holds tr = (Done true, tr') /\ about_to_write tr'.
Proof.
  intros Hg H Hs Hnb. cbv zeta. unfold lock_for_write, acquire_write_lock, try_begin_write, begin_write.
  destruct nonblocking, (m_async_stage tr) eqn:Ea; cbv [mbind M_bind gets mret M_ret async_is orb]; rewrite ?Ea; cbv beta iota.
  all: assert (Hm : mutex tr = async_mutex (m_async_stage tr) transact_Reading) by (by rewrite <- Hs, (op_mutex _ H)).
  all: try (right; exists tr; split; [done|]; apply held_about_to_write; by auto).
  - destruct (begin_write_ok tr true H Hs Ea) as [-> Hb]. destruct (e_try env); [right; by eexists|by left].
  - by destruct (Hnb eq_refl).
  - left. by rewrite Hm, Ea.
  - destruct (begin_write_ok tr (negb (e_helper env)) H Hs Ea) as [-> Hb]. right. by eexists.
  - right. destruct (granted_good tr) as (tr' & -> & H' & Ea' & Hs'); [by left|done|].
    exists tr'. split; [done|]. apply held_about_to_write; auto.
  - right. destruct (synced_good env tr Hg) as (tr' & -> & H' & Ea' & Hs'); [by left|done|].
    destruct (begin_write_ok tr' (negb (e_helper env)) H' Hs' Ea') as [-> Hb]. by eexists.
Qed.

Lemma promote_good env nonblocking tr : e_grab_sync env = true -> tr_ok tr ->
  (nonblocking = true -> m_async_stage tr <> Requesting) -> good (promote_to_write env nonblocking tr).
Proof.
  intros Hg H Hnb. unfold promote_to_write, holds_write_mutex. cbv [mbind M_bind gets mret M_ret].
  rewrite require_stage_eq. destruct (stage_is (m_transact_stage tr) transact_Reading) eqn:Hst; [|by split].
  apply stage_is_eq in Hst. destruct H as [H|[H _]]; [|congruence].
  destruct (lock_for_write_ok env nonblocking tr Hg H Hst Hnb) as [->|(tr' & -> & Hs' & H')]; [by left|].
  cbn [negb]. clear tr H Hst Hnb. destruct (advance_ok env tr') as [E|E].
  - by destruct H', tr'.
  - by destruct H', tr'.
  - unfold on_error. rewrite E. unfold require, end_write, EngineError.
    destruct (e_remap env); open_cases H' tr'; run_in Hs'; subst; run; try (split; [done|]); fields.
    all: intros w Hw; specialize (Ho w Hw); lia.
  - unfold on_error. rewrite E. open_cases H' tr'; run_in Hs'; unfold EngineError, end_write; run; (split; [done|]); subst; fields.
Qed.

Lemma advance_good env tr : tr_ok tr -> good (advance_read env tr).
Proof.
  intros H. unfold advance_read. cbv [mbind M_bind].
  rewrite require_stage_eq. destruct (stage_is (m_transact_stage tr) transact_Reading) eqn:Hw; [|by split].
  apply stage_is_eq in Hw. destruct H as [H|[H _]]; [|congruence].
  destruct (advance_ok env tr (op_locks _ H) (op_newest _ H)) as [-> | ->]; [|by split; [|left]].
  open_cases H tr; try done; fields. all: intros w Hx; specialize (Ho w Hx); lia.
Qed.

Lemma commit_read_good env commit_to_disk tr : tr_ok tr -> e_grab env = true -> e_remap env = true ->
  good (commit_and_continue_as_read env commit_to_disk tr).
Proof.
  intros H Hg Hr. unfold commit_and_continue_as_read. cbv [mbind M_bind].
  rewrite require_stage_eq. destruct (stage_is (m_transact_stage tr) transact_Writing) eqn:Hw; [|by split].
  apply stage_is_eq in Hw. destruct H as [H|[H _]]; [|congruence].
  rewrite do_commit_eq. destruct (e_commit env); [|by split; [|left]].
  unfold on_error. rewrite grab_eq, Hg. open_cases H tr; try done; run; rewrite Hr; clear Hw.
  all: destruct o as [w|]; [specialize (Ho w eq_refl)|]; destruct commit_to_disk.
  all: try (rewrite (release_ok r (opt_lock (Some w) ⊎ {[+ S n +]})) by (run; multiset_solver)).
  all: try (rewrite (release_ok r {[+ S n +]}) by (run; unfold opt_lock; multiset_solver)).
  all: run; try (rewrite (release_ok w {[+ S n +]}) by (run; unfold opt_lock; multiset_solver)).
  all: run; unfold end_write; run; try (destruct (Nat.eqb_spec (S n) w); [lia|]); try (destruct (Nat.eqb_spec (S n) r); [lia|]); cbv beta iota.
  all: try fields.
  all: unfold opt_lock; multiset_solver.
Qed.

Lemma commit_write_good env tr : tr_ok tr -> good (commit_and_continue_writing env tr).
Proof.
  intros H. unfold commit_and_continue_writing. cbv [mbind M_bind].
  rewrite require_stage_eq. destruct (stage_is (m_transact_stage tr) transact_Writing) eqn:Hw; [|by split].
  apply stage_is_eq in Hw. destruct H as [H|[H _]]; [|congruence].
  rewrite do_commit_eq. destruct (e_commit env); [|by split; [|left]].
  rewrite grab_eq. destruct (e_grab env); [|split; [done|]; left; by apply newest_open].
  open_cases H tr; try done; run.
  all: rewrite (release_ok r ({[+ S n +]} ⊎ opt_lock o)) by (run; multiset_solver).
  all: run; destruct (e_remap env); try (split; [done|]); fields.
  all: intros w Hx; specialize (Ho w Hx); lia.
Qed.

Lemma rollback_read_good env tr : tr_ok tr -> good (rollback_and_continue_as_read env tr).
Proof.
  intros H. unfold rollback_and_continue_as_read, holds_write_mutex, end_write. cbv [mbind M_bind].
  rewrite require_stage_eq. destruct (stage_is (m_transact_stage tr) transact_Writing) eqn:Hw; [|by split].
  apply stage_is_eq in Hw. destruct H as [H|[H _]]; [|congruence].
  cbv [require]. destruct (e_remap env); [|by split; [|left]].
  open_cases H tr; try done; run; fields.
Qed.

Lemma exec_good env o tr : tr_ok tr -> allowed env o tr -> good (exec env o tr).
Proof.
  intros H [Hg Ha]. destruct o; cbn [exec].
  - by apply good_void, promote_good.
  - by apply good_void, commit_good.
  - by apply rollback_good.
  - destruct (close_good env tr Hg H Ha) as (tr' & -> & ?). by right.
  - by apply end_read_good.
  - destruct Ha. by apply good_void, commit_read_good.
  - by apply good_void, commit_write_good.
  - by apply rollback_read_good.
  - by apply advance_good.
  - by apply promote_async_good.
  - by apply request_good.
  - by apply complete_writes_good.
  - destruct (granted_good tr H Ha) as (tr' & -> & ? & _). by left.
  - destruct (synced_good env tr Hg H Ha) as (tr' & -> & ? & _). by left.
  - destruct H as [H|H]; [left; by apply newest_open|right]. by destruct tr.
Qed.

(** [start_read], [start_write] and [start_frozen]: a new transaction on version [v]. *)
Definition start (st : Stage) (v : nat) : Transaction :=
  mkTransaction st Idle v None false {[+ v +]} (stage_is st transact_Writing) v ∅ (stage_is st transact_Writing).

Lemma start_ok st v : st <> transact_Ready -> tr_ok (start st v).
Proof.
  intros Hst. left. unfold start. split; run; try done. unfold opt_lock. multiset_solver.
Qed.

(** The states a transaction can get into. *)
Inductive reached : Transaction -> Prop :=
| reached_start st v : st <> transact_Ready -> reached (start st v)
| reached_exec env o tr : reached tr -> allowed env o tr -> reached (exec env o tr).2.

Lemma reached_ok tr : reached tr -> tr_ok tr.
Proof.
  induction 1 as [st v Hst|env o tr Hr IH Ha]; [by apply start_ok|].
  pose proof (exec_good env o tr IH Ha) as Hg. by destruct (exec env o tr) as [[] ?]; try apply Hg.
Qed.


Definition fine : Env := mkEnv true true true true true true true true.


(** ** Uses that fail *)

(** The state of a write transaction that has committed without a sync and writes again. *)
Definition writing_again : Transaction :=
  (exec fine (OpPromote false) (exec fine (OpCommitRead false) (start transact_Writing 3)).2).2.

Lemma writing_again_reached : reached writing_again.
Proof.
  apply reached_exec; [apply reached_exec; [by apply reached_start|]|].
  - by repeat split.
  - split; [done|]. by intros ?.
Qed.

(** Closing or rolling back a transaction fails an assertion when it is
    writing and has commits that are not on disk, although such a state is
    reached by committing without a sync and promoting to write again. *)
Theorem close_with_commits_fails env :
  (forall tr, m_transact_stage tr = transact_Writing -> m_async_stage tr = HasCommits ->
     close env tr = (Raised AssertionFailed, tr) /\ rollback env tr = (Raised AssertionFailed, tr))
  /\ exists tr, reached tr /\ m_transact_stage tr = transact_Writing /\ m_async_stage tr = HasCommits.
Proof.
  split; [|exists writing_again; split; [apply writing_again_reached|by vm_compute]].
  intros [st a r o f L mx n lk d] Hs Ha. cbn in Hs, Ha. subst. done.
Qed.

(** A transaction of [start_write] that is made asynchronous cannot complete its writes:
    the mutex was locked without the helper. *)
Theorem direct_completion_fails env tr : direct tr = true ->
  (m_async_stage tr = HasLock -> (async_complete_writes tr).1 = Raised AssertionFailed)
  /\ (m_async_stage tr = HasCommits -> exists tr', async_complete_writes tr = (Done tt, tr')
      /\ (synced env tr').1 = Raised AssertionFailed).
Proof.
  destruct tr as [st a r o f L mx n lk d]. cbn. intros ->.
  split; intros ->; [done|]. eexists. split; [reflexivity|done].
Qed.

Lemma direct_started v : let tr := (exec fine OpPromoteAsync (start transact_Writing v)).2 in
  reached tr /\ direct tr = true /\ m_async_stage tr = HasLock.
Proof. split; [|done]. apply reached_exec; [by apply reached_start|by split]. Qed.

(** Claim C34.  [commit] of a transaction that has become asynchronous gives the mutex
    back twice: the second time, in [prepare_for_close], no one has it. *)
Theorem async_commit_fails env tr : reached tr -> m_transact_stage tr = transact_Writing -> m_async_stage tr = HasLock ->
  m_oldest_version_not_persisted tr = None -> e_commit env = true ->
  exists tr', commit env tr = (Raised AssertionFailed, tr') /\ mutex tr' = false.
Proof.
  intros H%reached_ok Hs Ha Ho He. destruct H as [H|[H _]]; [|congruence].
  pose proof (op_mutex _ H) as Hm. rewrite Ha in Hm. destruct tr as [st a r o f L mx n lk d]. cbn in Hs, Ha, Ho, Hm. subst.
  unfold commit. cbv [mbind M_bind]. rewrite require_stage_eq. cbn [m_transact_stage stage_is].
  rewrite do_commit_eq, He. eexists. split; [reflexivity|done].
Qed.

Lemma async_commit_fails_witness :
  exists tr', commit fine (exec fine OpPromoteAsync (start transact_Writing 3)).2 = (Raised AssertionFailed, tr') /\ mutex tr' = false.
Proof.
  apply (async_commit_fails fine); [|reflexivity..].
  apply reached_exec; [apply reached_start; discriminate|split; reflexivity].
Defined.

(** Claim C35.  When the new read lock cannot be taken behind a commit, the transaction
    is left as closed with the write mutex still locked, and
    closing it does not give the mutex back. *)
Theorem failed_commit_keeps_mutex env to_disk tr : reached tr -> m_transact_stage tr = transact_Writing ->
  e_commit env = true -> e_grab env = false ->
  exists tr', commit_and_continue_as_read env to_disk tr = (Raised EngineError, tr')
    /\ mutex tr' = true /\ close env tr' = (Done tt, tr').
Proof.
  intros H%reached_ok Hs He Hg. destruct H as [H|[H _]]; [|congruence].
  assert (Hm : mutex tr = true) by (rewrite (op_mutex _ H), Hs; by destruct (m_async_stage tr)).
  unfold commit_and_continue_as_read. cbv [mbind M_bind]. rewrite require_stage_eq, Hs. cbn [stage_is]. rewrite do_commit_eq, He.
  unfold on_error. rewrite grab_eq, Hg. eexists. split; [reflexivity|]. by destruct tr.
Qed.

Lemma failed_commit_keeps_mutex_witness :
  exists tr', commit_and_continue_as_read (mkEnv true false true true true true true true) true (start transact_Writing 3) = (Raised EngineError, tr')
    /\ mutex tr' = true /\ close (mkEnv true false true true true true true true) tr' = (Done tt, tr').
Proof.
  apply (failed_commit_keeps_mutex (mkEnv true false true true true true true true)); [|reflexivity..].
  apply reached_start; discriminate.
Defined.
