(* ===== verification/SlabAlloc.v ===== *)
(** * The slab allocator (alloc_slab.cpp)

    New and copied arrays live in slabs, blocks of memory that are named by refs
    behind the end of the file.  A slab is a row of blocks with a pair of boundary
    tags ([BetweenBlocks]) in front of, between and behind them; a tag holds the
    size of the block on each side, negated when the block is in use and zero at the
    ends of the slab.  Free blocks of one size form a ring, linked through the
    blocks; a map from sizes to rings finds them.

    An address inside a slab is named by its ref, as [translate] maps them by a
    constant offset per slab.  The tags and the fields of free blocks are two maps
    over addresses; that they never overlap each other or a block in use is a theorem
    about the blocks.  Checks that are compiled out of release builds appear as
    [Throw AssertionFailed] and are shown never to fail. *)

From S2P Require Import Prelude FreeList.

Record BetweenBlocks := mkBB { block_before_size : Z; block_after_size : Z }.
Record FreeBlock := mkFB { fb_ref : Z; fb_prev : Z; fb_next : Z }.
Record Slab := mkSlab { ref_end : Z; slab_size : Z }.

Definition nullptr : Z := 0.
Definition sizeof_BetweenBlocks : Z := 8.
Definition sizeof_FreeBlock : Z := 24.
Definition minimal_alloc : Z := 128 * 1024.
Definition maximal_alloc : Z := 2 ^ section_shift.

Inductive FreeSpaceState := free_space_Clean | free_space_Dirty | free_space_Invalid.

Record SlabAlloc := mkSA {
  m_slabs : list Slab;
  m_block_map : list (Z * Z);
  bb : Z -> BetweenBlocks;
  blk : Z -> FreeBlock;
  m_baseline : Z;
  m_free_space_state : FreeSpaceState;
  m_commit_size : Z;
  m_free_read_only : list (Z * Z) }.

Definition set_slabs l s : SlabAlloc :=
  mkSA l (m_block_map s) (bb s) (blk s) (m_baseline s) (m_free_space_state s) (m_commit_size s) (m_free_read_only s).
Definition set_block_map m s : SlabAlloc :=
  mkSA (m_slabs s) m (bb s) (blk s) (m_baseline s) (m_free_space_state s) (m_commit_size s) (m_free_read_only s).
Definition set_bb (a : Z) (x : BetweenBlocks) s : SlabAlloc :=
  mkSA (m_slabs s) (m_block_map s) (fun y => if y =? a then x else bb s y) (blk s) (m_baseline s) (m_free_space_state s)
    (m_commit_size s) (m_free_read_only s).
Definition set_blk (a : Z) (x : FreeBlock) s : SlabAlloc :=
  mkSA (m_slabs s) (m_block_map s) (bb s) (fun y => if y =? a then x else blk s y) (m_baseline s) (m_free_space_state s)
    (m_commit_size s) (m_free_read_only s).
Definition set_tracking (st : FreeSpaceState) (commit : Z) s : SlabAlloc :=
  mkSA (m_slabs s) (m_block_map s) (bb s) (blk s) (m_baseline s) st commit (m_free_read_only s).
Definition set_read_only l s : SlabAlloc :=
  mkSA (m_slabs s) (m_block_map s) (bb s) (blk s) (m_baseline s) (m_free_space_state s) (m_commit_size s) l.

Definition set_before (a v : Z) s : SlabAlloc := set_bb a (mkBB v (block_after_size (bb s a))) s.
Definition set_after (a v : Z) s : SlabAlloc := set_bb a (mkBB (block_before_size (bb s a)) v) s.
Definition set_fb_prev (a v : Z) s : SlabAlloc := set_blk a (mkFB (fb_ref (blk s a)) v (fb_next (blk s a))) s.
Definition set_fb_next (a v : Z) s : SlabAlloc := set_blk a (mkFB (fb_ref (blk s a)) (fb_prev (blk s a)) v) s.
Definition set_fb_ref (a v : Z) s : SlabAlloc := set_blk a (mkFB v (fb_prev (blk s a)) (fb_next (blk s a))) s.
Definition clear_links (a : Z) s : SlabAlloc := set_fb_next a nullptr (set_fb_prev a nullptr s).

Definition check (b : bool) : result unit := if b then Ok tt else Throw AssertionFailed.

(** ** Walking the blocks *)

Definition bb_before (entry : Z) : Z := entry - sizeof_BetweenBlocks.
Definition bb_after (entry : Z) (s : SlabAlloc) : Z := entry + block_after_size (bb s (bb_before entry)).
(** The size is compared as an unsigned number, so only a zero gives the null pointer. *)
Definition block_before (b : Z) (s : SlabAlloc) : Z :=
  let sz := u64 (block_before_size (bb s b)) in
  if sz <=? 0 then nullptr else u64 (b - sz).
Definition block_after (b : Z) (s : SlabAlloc) : Z :=
  if block_after_size (bb s b) <=? 0 then nullptr else b + sizeof_BetweenBlocks.
Definition size_from_block (entry : Z) (s : SlabAlloc) : Z := block_after_size (bb s (bb_before entry)).

Definition get_prev_block_if_mergeable (entry : Z) (s : SlabAlloc) : option Z :=
  let b := bb_before entry in
  if block_before_size (bb s b) <=? 0 then None else Some (block_before b s).

Definition get_next_block_if_mergeable (entry : Z) (s : SlabAlloc) : option Z :=
  let b := bb_after entry s in
  if block_after_size (bb s b) <=? 0 then None else Some (block_after b s).

(** ** The map of rings

    [std::map<int, FreeBlock*>] as a list in the order of its keys; an iterator is
    the rest of the list. *)

Fixpoint bm_lower_bound (k : Z) (m : list (Z * Z)) : list (Z * Z) :=
  match m with
  | [] => []
  | (k', e) :: m' => if k' <? k then bm_lower_bound k m' else m
  end.

Fixpoint bm_find (k : Z) (m : list (Z * Z)) : option Z :=
  match m with
  | [] => None
  | (k', e) :: m => if k' =? k then Some e else bm_find k m
  end.

Fixpoint bm_set (k e : Z) (m : list (Z * Z)) : list (Z * Z) :=
  match m with
  | [] => [(k, e)]
  | (k', e') :: m' => if k' =? k then (k, e) :: m' else if k <? k' then (k, e) :: m else (k', e') :: bm_set k e m'
  end.

Fixpoint bm_erase (k : Z) (m : list (Z * Z)) : list (Z * Z) :=
  match m with
  | [] => []
  | (k', e') :: m' => if k' =? k then m' else (k', e') :: bm_erase k m'
  end.

Record FreeListIt := mkFL { fl_size : Z; fl_it : list (Z * Z) }.

Definition find (size : Z) (s : SlabAlloc) : FreeListIt :=
  match bm_lower_bound size (m_block_map s) with
  | [] => mkFL 0 []
  | (k, e) :: it => mkFL k ((k, e) :: it)
  end.

Definition find_larger (hint : FreeListIt) (size : Z) : FreeListIt :=
  let needed_size := size + sizeof_BetweenBlocks + sizeof_FreeBlock in
  match bm_lower_bound needed_size (fl_it hint) with
  | [] => mkFL 0 []
  | it => mkFL (fl_size hint) it
  end.

Definition unlink (e : Z) (s : SlabAlloc) : SlabAlloc :=
  let n := fb_next (blk s e) in
  let p := fb_prev (blk s e) in
  clear_links e (set_fb_next p n (set_fb_prev n p s)).

Definition pop_freelist_entry (fl : FreeListIt) (s : SlabAlloc) : result (Z * SlabAlloc) :=
  match fl_it fl with
  | [] => Throw AssertionFailed
  | (k, retval) :: _ =>
      let header := fb_next (blk s retval) in
      let s := if header =? retval then set_block_map (bm_erase k (m_block_map s)) s
               else set_block_map (bm_set k header (m_block_map s)) s in
      Ok (retval, unlink retval s)
  end.

Definition remove_freelist_entry (entry : Z) (s : SlabAlloc) : result SlabAlloc :=
  let size := block_after_size (bb s (bb_before entry)) in
  match bm_find size (m_block_map s) with
  | None => Throw AssertionFailed
  | Some header =>
      let s :=
        if header =? entry then
          let header := fb_next (blk s entry) in
          if header =? entry then set_block_map (bm_erase size (m_block_map s)) s
          else set_block_map (bm_set size header (m_block_map s)) s
        else s in
      Ok (unlink entry s)
  end.

Definition push_freelist_entry (entry : Z) (s : SlabAlloc) : SlabAlloc :=
  let size := block_after_size (bb s (bb_before entry)) in
  match bm_find size (m_block_map s) with
  | Some header =>
      let s := set_block_map (bm_set size entry (m_block_map s)) s in
      let s := set_fb_next entry header s in
      let s := set_fb_prev entry (fb_prev (blk s header)) s in
      let s := set_fb_next (fb_prev (blk s entry)) entry s in
      set_fb_prev (fb_next (blk s entry)) entry s
  | None =>
      let s := set_block_map (bm_set size entry (m_block_map s)) s in
      set_fb_next entry entry (set_fb_prev entry entry s)
  end.

(** ** Marks, splits and merges *)

Definition mark_freed (entry size : Z) (s : SlabAlloc) : result SlabAlloc :=
  let b := bb_before entry in
  _ ← check (block_after_size (bb s b) <? 0);
  let alloc_size := - block_after_size (bb s b) in
  let max_waste := sizeof_FreeBlock + sizeof_BetweenBlocks in
  _ ← check ((size <=? alloc_size) && (alloc_size <=? size + max_waste));
  let s := set_after b alloc_size s in
  let b := bb_after entry s in
  _ ← check (block_before_size (bb s b) <? 0);
  _ ← check (- block_before_size (bb s b) =? alloc_size);
  Ok (set_before b alloc_size s).

Definition mark_allocated (entry : Z) (s : SlabAlloc) : result SlabAlloc :=
  let b := bb_before entry in
  _ ← check (0 <? block_after_size (bb s b));
  let b2 := bb_after entry s in
  let s := set_after b (0 - block_after_size (bb s b)) s in
  _ ← check (0 <? block_before_size (bb s b2));
  Ok (set_before b2 (0 - block_before_size (bb s b2)) s).

Definition break_block (block new_size : Z) (s : SlabAlloc) : option Z * SlabAlloc :=
  let size := size_from_block block s in
  let remaining_size := size - (new_size + sizeof_BetweenBlocks) in
  if remaining_size <? sizeof_FreeBlock then (None, s)
  else
    let s := set_before (bb_after block s) remaining_size s in
    let s := set_after (bb_before block) new_size s in
    let bb_between := bb_after block s in
    let s := set_before bb_between new_size s in
    let s := set_after bb_between remaining_size s in
    let remaining_block := block_after bb_between s in
    let s := set_fb_ref remaining_block (fb_ref (blk s block) + new_size + sizeof_BetweenBlocks) s in
    let s := clear_links remaining_block s in
    let s := clear_links block s in
    (Some remaining_block, s).

Definition merge_blocks (first last : Z) (s : SlabAlloc) : Z * SlabAlloc :=
  let size_first := size_from_block first s in
  let size_last := size_from_block last s in
  let new_size := size_first + size_last + sizeof_BetweenBlocks in
  let s := set_after (bb_before first) new_size s in
  (first, set_before (bb_after last s) new_size s).

(** ** Slabs *)

Definition slab_to_entry (slab : Slab) (ref_start : Z) (s : SlabAlloc) : Z * SlabAlloc :=
  let b := ref_start in
  let block_size := ref_end slab - ref_start - 2 * sizeof_BetweenBlocks in
  let s := set_bb b (mkBB 0 block_size) s in
  let entry := block_after b s in
  let s := clear_links entry s in
  let s := set_fb_ref entry (ref_start + sizeof_BetweenBlocks) s in
  (entry, set_bb (bb_after entry s) (mkBB block_size 0) s).

Definition get_allocated_size (s : SlabAlloc) : Z := sumf slab_size (m_slabs s).

(** [while (new_size < size) new_size += minimal_alloc]. *)
Fixpoint grow_loop (fuel : nat) (new_size size : Z) : Z :=
  match fuel with
  | O => new_size
  | S fuel => if new_size <? size then grow_loop fuel (new_size + minimal_alloc) size else new_size
  end.

Definition grow_slab (size : Z) (s : SlabAlloc) : result (Z * SlabAlloc) :=
  let size := size + 2 * sizeof_BetweenBlocks in
  let new_size := grow_loop (Z.to_nat (size / minimal_alloc)) minimal_alloc size in
  let already_allocated := get_allocated_size s in
  let new_size := if new_size <? already_allocated then already_allocated else new_size in
  let new_size := if maximal_alloc <? new_size then maximal_alloc else new_size in
  let ref := match list.last (m_slabs s) with None => m_baseline s | Some slab => ref_end slab end in
  let ref := align_size_to_section_boundary ref in
  if 2 ^ 64 <=? ref + new_size then Throw MaximumFileSizeExceeded
  else
    let slab := mkSlab (ref + new_size) new_size in
    Ok (slab_to_entry slab ref (set_slabs (m_slabs s ++ [slab]) s)).

Fixpoint rebuild_slabs (slabs : list Slab) (ref_start : Z) (s : SlabAlloc) : SlabAlloc :=
  match slabs with
  | [] => s
  | e :: slabs =>
      let '(entry, s) := slab_to_entry e ref_start s in
      rebuild_slabs slabs (align_size_to_section_boundary (ref_end e)) (push_freelist_entry entry s)
  end.

Definition rebuild_freelists_from_slab (s : SlabAlloc) : SlabAlloc :=
  rebuild_slabs (m_slabs s) (align_size_to_section_boundary (m_baseline s)) (set_block_map [] s).

(** ** Allocation *)

Definition allocate_block (size : Z) (s : SlabAlloc) : result (Z * SlabAlloc) :=
  let fl := find size s in
  if fl_size fl =? size then pop_freelist_entry fl s
  else
    let fl := find_larger fl size in
    '(block, s) ← (if negb (fl_size fl =? 0) then pop_freelist_entry fl s else grow_slab size s);
    let '(remaining, s) := break_block block size s in
    let s := match remaining with Some r => push_freelist_entry r s | None => s end in
    _ ← check (size <=? size_from_block block s);
    Ok (block, s).

(** The size of the block for a request. *)
Definition fix_size (size : Z) : Z :=
  let size := if size <? sizeof_FreeBlock then sizeof_FreeBlock else size in
  if negb (Z.land size 7 =? 0) then Z.land (size + 7) (Z.lnot 7) else size.

Definition do_alloc (size : Z) (s : SlabAlloc) : result Z * SlabAlloc :=
  if negb ((0 <? size) && (Z.land size 7 =? 0) && (size <? 2 ^ section_shift)) then (Throw AssertionFailed, s)
  else match m_free_space_state s with
  | free_space_Invalid => (Throw LogicError, s)
  | _ =>
      let s := set_tracking free_space_Dirty (m_commit_size s + size) s in
      match ('(entry, s') ← allocate_block (fix_size size) s; s' ← mark_allocated entry s'; Ok (entry, s')) with
      | Ok (entry, s') =>
          let ref := fb_ref (blk s' entry) in
          match (_ ← check (entry =? ref); check (m_baseline s' <=? ref)) with
          | Ok _ => (Ok ref, s')
          | _ => (Throw AssertionFailed, s')
          end
      | Throw e => (Throw e, s)
      | OutOfFuel => (OutOfFuel, s)
      end
  end.

(** ** Release *)

Definition free_block (ref block : Z) (s : SlabAlloc) : result SlabAlloc :=
  let s := set_fb_ref block ref s in
  '(block, s) ← match get_prev_block_if_mergeable block s with
    | Some prev => s ← remove_freelist_entry prev s; Ok (merge_blocks prev block s)
    | None => Ok (block, s)
    end;
  '(block, s) ← match get_next_block_if_mergeable block s with
    | Some next => s ← remove_freelist_entry next s; Ok (merge_blocks block next s)
    | None => Ok (block, s)
    end;
  Ok (push_freelist_entry block s).

(** The chunks of the file that the transaction has released, in the order of their
    positions; adjacent ones are joined.  The list is split where [lower_bound]
    points. *)
Definition add_chunk (ref size : Z) (l : list (Z * Z)) : result (list (Z * Z)) :=
  let next := bm_lower_bound ref l in
  let before := take (length l - length next) l in
  '(size, next) ← match next with
    | (r, n) :: rest =>
        _ ← check (ref + size <=? r);
        Ok (if ref + size =? r then (size + n, rest) else (size, next))
    | [] => Ok (size, next)
    end;
  match list.last before with
  | Some (r, n) =>
      _ ← check (r + n <=? ref);
      if r + n =? ref then Ok (removelast before ++ (r, n + size) :: next) else Ok (before ++ (ref, size) :: next)
  | None => Ok ((ref, size) :: next)
  end.

Definition is_read_only (ref : Z) (s : SlabAlloc) : bool := ref <? m_baseline s.

(** [size] is what the header of the array says: its length in the file, or its
    capacity in a slab. *)
Definition do_free (ref size : Z) (s : SlabAlloc) : result SlabAlloc :=
  match m_free_space_state s with
  | free_space_Invalid => Ok s
  | st =>
      let read_only := is_read_only ref s in
      _ ← check (read_only || match st with free_space_Dirty => true | _ => false end);
      let s := set_tracking free_space_Dirty (m_commit_size s) s in
      if read_only then
        _ ← check (negb (ref =? 0) && (Z.land ref 7 =? 0));
        l ← add_chunk ref size (m_free_read_only s);
        Ok (set_read_only l s)
      else
        let s := set_tracking free_space_Dirty (m_commit_size s - size) s in
        let size := fix_size size in
        _ ← check (size <? 2 * 1024 * 1024 * 1024);
        s ← mark_freed ref size s;
        free_block ref ref s
  end.

(** ** The end of a transaction *)

(** The slabs that [while (m_slabs.size() > 1 || ...) m_slabs.pop_back()] leaves. *)
Definition kept_slabs (l : list Slab) : list Slab :=
  match l with
  | e :: _ => if minimal_alloc <? slab_size e then [] else [e]
  | [] => []
  end.

Definition reset_free_space_tracking (s : SlabAlloc) : SlabAlloc :=
  match m_free_space_state s with
  | free_space_Clean => s
  | _ =>
      let s := set_read_only [] s in
      let s := set_slabs (kept_slabs (m_slabs s)) s in
      set_tracking free_space_Clean 0 (rebuild_freelists_from_slab s)
  end.

(** The part of [update_reader_view] that moves the slabs behind the new end of the
    file.  The slabs keep their memory; its names move by the displacement, and every
    block is made anew under its new name. *)
Definition update_reader_view (file_size : Z) (s : SlabAlloc) : SlabAlloc :=
  let old_baseline := m_baseline s in
  if file_size <=? old_baseline then s
  else
    let old_slab_base := align_size_to_section_boundary old_baseline in
    let s := mkSA (m_slabs s) (m_block_map s) (bb s) (blk s) file_size (m_free_space_state s) (m_commit_size s) (m_free_read_only s) in
    let ref_displacement := align_size_to_section_boundary file_size - old_slab_base in
    let s := if 0 <? ref_displacement
             then set_slabs (map (fun e => mkSlab (ref_end e + ref_displacement) (slab_size e)) (m_slabs s)) s else s in
    rebuild_freelists_from_slab s.
