(* ===== verification/SlabBlocks.v ===== *)
(** * The slab allocator: blocks and boundary tags

    [B] gives the size of the block at each address and, for a block in use, the
    size that was asked for.  [binv] says that the tags describe [B] and that the
    blocks tile the slabs; the lemmas say how each primitive changes [B]. *)

From S2P Require Import Prelude FreeList FreeListAlloc SlabAlloc.

Definition Blocks : Type := Z -> option (Z * option Z).

Definition put_block (e : Z) (v : option (Z * option Z)) (B : Blocks) : Blocks := fun x => if x =? e then v else B x.

Definition sg (u : option Z) (n : Z) : Z := if u is Some _ then - n else n.

Definition after (s : SlabAlloc) (a : Z) : Z := block_after_size (bb s a).
Definition before (s : SlabAlloc) (a : Z) : Z := block_before_size (bb s a).
Definition slab_start (e : Slab) : Z := ref_end e - slab_size e.

(** Slabs start at section boundaries, one after the other, and fit a section. *)
Fixpoint slabs_ok (start : Z) (l : list Slab) : Prop :=
  match l with
  | [] => True
  | e :: l =>
      slab_start e = start /\ minimal_alloc <= slab_size e <= maximal_alloc /\ slab_size e mod 8 = 0 /\
      ref_end e < 2 ^ 64 /\ slabs_ok (align_size_to_section_boundary (ref_end e)) l
  end.

Record binv (s : SlabAlloc) (B : Blocks) : Prop := {
  b_base : 0 <= m_baseline s;
  b_slabs : slabs_ok (align_size_to_section_boundary (m_baseline s)) (m_slabs s);
  b_size : forall e n u, B e = Some (n, u) -> sizeof_FreeBlock <= n /\ n mod 8 = 0 /\ e mod 8 = 0;
  b_tags : forall e n u, B e = Some (n, u) -> after s (e - 8) = sg u n /\ before s (e + n) = sg u n;
  b_in : forall e n u, B e = Some (n, u) -> exists sl, sl ∈ m_slabs s /\ slab_start sl + 8 <= e /\ e + n + 8 <= ref_end sl;
  b_right : forall e n u, B e = Some (n, u) -> is_Some (B (e + n + 8)) \/
    (B (e + n + 8) = None /\ after s (e + n) = 0 /\ exists sl, sl ∈ m_slabs s /\ ref_end sl = e + n + 8);
  b_left : forall e n u, B e = Some (n, u) -> (exists e' n' u', B e' = Some (n', u') /\ e' + n' + 8 = e) \/
    (before s (e - 8) = 0 /\ (forall e' n' u', B e' = Some (n', u') -> e' + n' + 8 <> e) /\
     exists sl, sl ∈ m_slabs s /\ slab_start sl = e - 8);
  b_first : forall sl, sl ∈ m_slabs s -> is_Some (B (slab_start sl + 8));
  b_disj : forall e n u e' n' u', B e = Some (n, u) -> B e' = Some (n', u') -> e < e' -> e + n + 8 <= e';
  b_req : forall e n r, B e = Some (n, Some r) -> fix_size r <= n <= fix_size r + 32 }.

Lemma slab_pos start l : 0 <= start -> slabs_ok start l -> forall sl, sl ∈ l ->
  start <= slab_start sl /\ slab_start sl + minimal_alloc <= ref_end sl.
Proof.
  revert start. induction l as [|e l IH]; intros start Hs Hl sl Hsl; [by apply elem_of_nil in Hsl|].
  destruct Hl as (H1 & H2 & _ & _ & Hl). unfold slab_start, minimal_alloc in *.
  pose proof (align_section_spec (ref_end e) ltac:(lia)) as [Ha _].
  apply elem_of_cons in Hsl as [->|Hsl]; [lia|]. pose proof (IH (align_size_to_section_boundary (ref_end e)) ltac:(lia) Hl sl Hsl). lia.
Qed.

(** Slabs do not overlap. *)
Lemma slab_unique start l : 0 <= start -> slabs_ok start l -> forall sl sl' p, sl ∈ l -> sl' ∈ l ->
  slab_start sl <= p < ref_end sl -> slab_start sl' <= p < ref_end sl' -> sl = sl'.
Proof.
  revert start. induction l as [|e l IH]; intros start Hs Hl sl sl' p Hsl Hsl' Hp Hp'; [by apply elem_of_nil in Hsl|].
  destruct Hl as (H1 & H2 & _ & _ & Hl). unfold slab_start, minimal_alloc in H1, H2.
  pose proof (align_section_spec (ref_end e) ltac:(lia)) as [Ha _]. set (st := align_size_to_section_boundary (ref_end e)) in *.
  apply elem_of_cons in Hsl as [->|Hsl], Hsl' as [->|Hsl']; [done| | |by apply (IH st ltac:(lia) Hl sl sl' p)].
  - pose proof (slab_pos st l ltac:(lia) Hl sl' Hsl'). lia.
  - pose proof (slab_pos st l ltac:(lia) Hl sl Hsl). lia.
Qed.

(** Where the next slab starts. *)
Definition next_start (start : Z) (l : list Slab) : Z :=
  match list.last l with None => start | Some e => align_size_to_section_boundary (ref_end e) end.

Lemma next_start_cons start e l : next_start start (e :: l) = next_start (align_size_to_section_boundary (ref_end e)) l.
Proof. unfold next_start. destruct l as [|e' l] using rev_ind; [done|]. by rewrite app_comm_cons, !last_snoc. Qed.

Lemma slab_end_pos start e : 0 <= start -> slab_start e = start -> minimal_alloc <= slab_size e ->
  0 <= ref_end e /\ ref_end e <= align_size_to_section_boundary (ref_end e) /\
  align_size_to_section_boundary (ref_end e) mod 2 ^ 26 = 0.
Proof.
  intros Hs He Hm. unfold slab_start, minimal_alloc in *. pose proof (align_section_spec (ref_end e) ltac:(lia)) as [? ?]. lia.
Qed.

Lemma next_start_spec start l : 0 <= start -> start mod 2 ^ 26 = 0 -> slabs_ok start l ->
  0 <= next_start start l /\ next_start start l mod 2 ^ 26 = 0.
Proof.
  revert start. induction l as [|e l IH]; intros start Hs Hm Hl; [done|]. rewrite next_start_cons.
  destruct Hl as (H1 & H2 & _ & _ & Hl). destruct (slab_end_pos start e Hs H1 (proj1 H2)) as (? & ? & ?). apply IH; [lia|done|done].
Qed.

Lemma slabs_below start l : 0 <= start -> slabs_ok start l -> forall sl, sl ∈ l -> ref_end sl <= next_start start l.
Proof.
  revert start. induction l as [|e l IH]; intros start Hs Hl sl Hsl; [by apply elem_of_nil in Hsl|]. rewrite next_start_cons.
  destruct Hl as (H1 & H2 & _ & _ & Hl). destruct (slab_end_pos start e Hs H1 (proj1 H2)) as (G1 & G2 & G3).
  apply elem_of_cons in Hsl as [->|Hsl]; [|apply (IH (align_size_to_section_boundary (ref_end e))); [lia|done|done]].
  destruct l as [|e' l]; [done|]. pose proof (IH (align_size_to_section_boundary (ref_end e)) ltac:(lia) Hl e' (list_elem_of_here _ _)).
  pose proof (slab_pos (align_size_to_section_boundary (ref_end e)) (e' :: l) ltac:(lia) Hl e' (list_elem_of_here _ _)) as Hp.
  unfold minimal_alloc in *. lia.
Qed.

Lemma slabs_snoc start l sl : slabs_ok start l -> slab_start sl = next_start start l ->
  minimal_alloc <= slab_size sl <= maximal_alloc /\ slab_size sl mod 8 = 0 /\ ref_end sl < 2 ^ 64 -> slabs_ok start (l ++ [sl]).
Proof.
  revert start. induction l as [|e l IH]; intros start Hl Hst (Hs & Hm & He); [cbn [app slabs_ok]; repeat (split; [done|]); done|].
  rewrite next_start_cons in Hst. destruct Hl as (H1 & H2 & H3 & H4 & Hl). cbn [app slabs_ok]. repeat (split; [done|]). by apply IH.
Qed.

Section Moves.
Context {s : SlabAlloc} {B : Blocks} (H : binv s B).

Lemma b_base' : 0 <= align_size_to_section_boundary (m_baseline s).
Proof. pose proof (align_section_spec (m_baseline s) (b_base _ _ H)) as [? _]. pose proof (b_base _ _ H). lia. Qed.

Lemma slabs_member start l : slabs_ok start l -> forall sl, sl ∈ l -> slab_size sl <= maximal_alloc /\ ref_end sl < 2 ^ 64.
Proof.
  revert start. induction l as [|e l IH]; intros start Hl sl Hsl; [by apply elem_of_nil in Hsl|].
  destruct Hl as (_ & [_ H2] & _ & H4 & Hl). apply elem_of_cons in Hsl as [->|Hsl]; [done|by eapply IH].
Qed.

(** Blocks have addresses of 64 bits, behind the file. *)
Lemma block_range e n u : B e = Some (n, u) -> m_baseline s <= e /\ e + n + 8 < 2 ^ 64 /\ n <= maximal_alloc.
Proof.
  intros He. destruct (b_in _ _ H _ _ _ He) as (sl & Hsl & H1 & H2). destruct (slabs_member _ _ (b_slabs _ _ H) sl Hsl).
  pose proof (slab_pos _ _ b_base' (b_slabs _ _ H) sl Hsl) as [? _]. pose proof (align_section_spec (m_baseline s) (b_base _ _ H)) as [? _].
  unfold slab_start in *. lia.
Qed.

Lemma right_tag_inj e n u e' n' u' : B e = Some (n, u) -> B e' = Some (n', u') -> e + n = e' + n' -> e = e'.
Proof.
  intros H1 H2 E. destruct (b_size _ _ H _ _ _ H1) as [G1 _]. destruct (b_size _ _ H _ _ _ H2) as [G2 _]. unfold sizeof_FreeBlock in *.
  destruct (Z.lt_trichotomy e e') as [L|[L|L]]; [|done|].
  - pose proof (b_disj _ _ H _ _ _ _ _ _ H1 H2 L). lia.
  - pose proof (b_disj _ _ H _ _ _ _ _ _ H2 H1 L). lia.
Qed.

(** No block starts inside another one. *)
Lemma block_apart e n u e' n' u' : B e = Some (n, u) -> B e' = Some (n', u') -> e' <> e -> e' + n' + 8 <= e \/ e + n + 8 <= e'.
Proof.
  intros H1 H2 E. destruct (Z.lt_trichotomy e e') as [L|[L|L]]; [right|done|left].
  - by apply (b_disj _ _ H _ _ _ _ _ _ H1 H2 L).
  - by apply (b_disj _ _ H _ _ _ _ _ _ H2 H1 L).
Qed.

(** A block changes its mark. *)
Lemma retag s' e n u u' : B e = Some (n, u) ->
  m_slabs s' = m_slabs s -> m_baseline s' = m_baseline s ->
  (forall a, after s' a = if a =? e - 8 then sg u' n else after s a) ->
  (forall a, before s' a = if a =? e + n then sg u' n else before s a) ->
  (forall r, u' = Some r -> fix_size r <= n <= fix_size r + 32) ->
  binv s' (put_block e (Some (n, u')) B).
Proof.
  intros He Es Eb Ha Hb Hr. destruct (b_size _ _ H _ _ _ He) as (Hn & _). unfold sizeof_FreeBlock in Hn.
  assert (Hput : forall x m v, put_block e (Some (n, u')) B x = Some (m, v) ->
    x = e /\ m = n /\ v = u' \/ x <> e /\ B x = Some (m, v)).
  { intros x m v. unfold put_block. destruct (Z.eqb_spec x e) as [->|]; [intros [= <- <-]; auto|auto]. }
  assert (Hdom : forall x m v, put_block e (Some (n, u')) B x = Some (m, v) -> exists v', B x = Some (m, v')).
  { intros x m v Hx. destruct (Hput _ _ _ Hx) as [(-> & -> & _)|[_ Hx']]; eauto. }
  assert (Hdom' : forall x m v, B x = Some (m, v) -> exists v', put_block e (Some (n, u')) B x = Some (m, v')).
  { intros x m v Hx. unfold put_block. destruct (Z.eqb_spec x e) as [->|]; [|eauto]. assert (m = n) as -> by congruence. eauto. }
  assert (Hnone : forall x, B x = None -> put_block e (Some (n, u')) B x = None).
  { intros x Hx. unfold put_block. destruct (Z.eqb_spec x e) as [->|]; [congruence|done]. }
  destruct H. split; rewrite ?Es, ?Eb; try done.
  - intros x m v Hx. destruct (Hdom _ _ _ Hx) as [v' Hx']. by eapply b_size0.
  - intros x m v Hx. rewrite Ha, Hb. destruct (Hput _ _ _ Hx) as [(-> & -> & ->)|[Ex Hx']]; [by rewrite !Z.eqb_refl|].
    rewrite (proj2 (Z.eqb_neq (x - 8) (e - 8))) by lia. rewrite (proj2 (Z.eqb_neq (x + m) (e + n))); [by apply b_tags0|].
    intros E. apply Ex. by apply (right_tag_inj x m v e n u).
  - intros x m v Hx. destruct (Hdom _ _ _ Hx) as [v' Hx']. by eapply b_in0.
  - intros x m v Hx. destruct (Hdom _ _ _ Hx) as [v' Hx']. destruct (b_right0 _ _ _ Hx') as [[[m1 v1] Hn1]|(Hn1 & Hz & Hsl)].
    + left. destruct (Hdom' _ _ _ Hn1) as [v2 ->]. by eexists.
    + right. split; [by apply Hnone|]. split; [|done]. rewrite Ha, (proj2 (Z.eqb_neq (x + m) (e - 8))); [done|].
      intros E. replace (x + m + 8) with e in Hn1 by lia. congruence.
  - intros x m v Hx. destruct (Hdom _ _ _ Hx) as [v' Hx']. destruct (b_left0 _ _ _ Hx') as [(e1 & n1 & u1 & Hn1 & Hn2)|(Hz & Hno & Hsl)].
    + left. destruct (Hdom' _ _ _ Hn1) as [v2 Hv2]. eauto.
    + right. split; [|split; [|done]].
      * rewrite Hb, (proj2 (Z.eqb_neq (x - 8) (e + n))); [done|]. intros E. apply (Hno e n u He). lia.
      * intros e1 n1 u1 H1. destruct (Hdom _ _ _ H1) as [v2 Hv2]. by eapply Hno.
  - intros sl Hsl. destruct (b_first0 sl Hsl) as [[m v] Hm]. destruct (Hdom' _ _ _ Hm) as [v2 ->]. by eexists.
  - intros x m v x' m' v' Hx Hx'. destruct (Hdom _ _ _ Hx) as [? ?]. destruct (Hdom _ _ _ Hx') as [? ?]. by eapply b_disj0.
  - intros x m r Hx. destruct (Hput _ _ _ Hx) as [(-> & -> & E)|[_ Hx']]; [by apply Hr|by eapply b_req0].
Qed.

(** A free block is cut in two. *)
Section Split.
Context (s' : SlabAlloc) (e n new rem : Z).
Hypothesis He : B e = Some (n, None).
Hypothesis Hn : n = new + 8 + rem.
Hypothesis Hnew : 24 <= new /\ new mod 8 = 0 /\ 24 <= rem.
Hypothesis Es : m_slabs s' = m_slabs s.
Hypothesis Eb : m_baseline s' = m_baseline s.
Hypothesis Ha : forall a, after s' a = if a =? e - 8 then new else if a =? e + new then rem else after s a.
Hypothesis Hb : forall a, before s' a = if a =? e + new then new else if a =? e + n then rem else before s a.

Definition split_blocks : Blocks := put_block (e + new + 8) (Some (rem, None)) (put_block e (Some (new, None)) B).

Lemma split_cases x m v : split_blocks x = Some (m, v) ->
  x = e /\ m = new /\ v = None \/ x = e + new + 8 /\ m = rem /\ v = None \/
  B x = Some (m, v) /\ (x + m + 8 <= e \/ e + n + 8 <= x).
Proof.
  unfold split_blocks, put_block. destruct (Z.eqb_spec x (e + new + 8)) as [->|E1]; [intros [= <- <-]; auto|].
  destruct (Z.eqb_spec x e) as [->|E2]; [intros [= <- <-]; auto|]. intros Hx. right. right. split; [done|].
  by apply (block_apart e n None x m v).
Qed.

Lemma split_first : split_blocks e = Some (new, None).
Proof.
  unfold split_blocks, put_block. rewrite (proj2 (Z.eqb_neq e (e + new + 8))) by lia. by rewrite Z.eqb_refl.
Qed.

Lemma split_second : split_blocks (e + new + 8) = Some (rem, None).
Proof. unfold split_blocks, put_block. by rewrite Z.eqb_refl. Qed.

Lemma split_other x m v : B x = Some (m, v) -> x <> e -> split_blocks x = Some (m, v).
Proof.
  intros Hx Ex. unfold split_blocks, put_block. rewrite (proj2 (Z.eqb_neq x e)) by done.
  destruct (Z.eqb_spec x (e + new + 8)) as [->|]; [|done].
  destruct (block_apart e n None _ m v He Hx Ex); destruct (b_size _ _ H _ _ _ Hx); unfold sizeof_FreeBlock in *; lia.
Qed.

Lemma split_is_Some x : is_Some (B x) -> is_Some (split_blocks x).
Proof.
  intros [[m v] Hx]. destruct (Z.eqb_spec x e) as [->|Ex]; [rewrite split_first; by eexists|].
  rewrite (split_other x m v); [by eexists|done|done].
Qed.

Lemma split_right x m v : split_blocks x = Some (m, v) -> is_Some (split_blocks (x + m + 8)) \/
    (split_blocks (x + m + 8) = None /\ after s' (x + m) = 0 /\ exists sl, sl ∈ m_slabs s' /\ ref_end sl = x + m + 8).
Proof.
  intros Hx. pose proof (b_size _ _ H) as Hsz. unfold sizeof_FreeBlock in Hsz. rewrite Es.
  assert (Hcase : forall y k w, B y = Some (k, w) -> y + k + 8 <= e \/ e + n <= y + k ->
    is_Some (split_blocks (y + k + 8)) \/ (split_blocks (y + k + 8) = None /\ after s' (y + k) = 0 /\
      exists sl, sl ∈ m_slabs s /\ ref_end sl = y + k + 8)).
  { intros y k w Hy Hfar. destruct (b_right _ _ H _ _ _ Hy) as [Hs|(Hno & Hz & Hsl)]; [left; by apply split_is_Some|].
    right. split; [|split; [|done]].
    - unfold split_blocks, put_block. rewrite (proj2 (Z.eqb_neq (y + k + 8) (e + new + 8))) by lia.
      rewrite (proj2 (Z.eqb_neq (y + k + 8) e)); [done|]. intros E. rewrite E in Hno. congruence.
    - rewrite Ha, (proj2 (Z.eqb_neq (y + k) (e - 8))), (proj2 (Z.eqb_neq (y + k) (e + new))); [done|lia|].
      intros E. replace (y + k + 8) with e in Hno by lia. congruence. }
  destruct (split_cases x m v Hx) as [(-> & -> & ->)|[(-> & -> & ->)|[Hx' Hfar]]].
  - left. rewrite split_second. by eexists.
  - replace (e + new + 8 + rem + 8) with (e + n + 8) by lia. replace (e + new + 8 + rem) with (e + n) by lia.
    apply (Hcase e n None He). lia.
  - apply (Hcase x m v Hx'). pose proof (Hsz _ _ _ Hx'). lia.
Qed.

Lemma split_left x m v : split_blocks x = Some (m, v) -> (exists e' n' u', split_blocks e' = Some (n', u') /\ e' + n' + 8 = x) \/
    (before s' (x - 8) = 0 /\ (forall e' n' u', split_blocks e' = Some (n', u') -> e' + n' + 8 <> x) /\
     exists sl, sl ∈ m_slabs s' /\ slab_start sl = x - 8).
Proof.
  intros Hx. pose proof (b_size _ _ H) as Hsz. unfold sizeof_FreeBlock in Hsz. rewrite Es.
  assert (Hcase : forall k w, B x = Some (k, w) -> (exists e' n' u', split_blocks e' = Some (n', u') /\ e' + n' + 8 = x) \/
    (before s' (x - 8) = 0 /\ (forall e' n' u', split_blocks e' = Some (n', u') -> e' + n' + 8 <> x) /\
     exists sl, sl ∈ m_slabs s /\ slab_start sl = x - 8)).
  { intros k w Hy. destruct (b_left _ _ H _ _ _ Hy) as [(e1 & n1 & u1 & H1 & H2)|(Hz & Hno & Hsl)].
    - left. destruct (Z.eqb_spec e1 e) as [->|E1].
      + exists (e + new + 8), rem, None. split; [apply split_second|]. assert (n1 = n) by congruence. lia.
      + exists e1, n1, u1. split; [by apply split_other|done].
    - right. assert (Hen : x <> e + n + 8) by (intros ->; by apply (Hno e n None He)). split; [|split; [|done]].
      + assert (x <> e + new + 8).
        { intros ->. pose proof (block_apart e n None _ _ _ He Hy). pose proof (Hsz _ _ _ Hy). lia. }
        by rewrite Hb, (proj2 (Z.eqb_neq (x - 8) (e + new))), (proj2 (Z.eqb_neq (x - 8) (e + n))) by lia.
      + intros e1 n1 u1 H1. destruct (split_cases _ _ _ H1) as [(-> & -> & _)|[(-> & -> & _)|[H1' _]]]; [|lia|by eapply Hno].
        intros E. destruct (Z.eqb_spec x e) as [->|Ex]; [lia|]. pose proof (block_apart e n None x k w He Hy Ex). pose proof (Hsz _ _ _ Hy). lia. }
  destruct (split_cases x m v Hx) as [(-> & -> & ->)|[(-> & -> & ->)|[Hx' _]]].
  - by apply (Hcase n None).
  - left. exists e, new, None. split; [apply split_first|lia].
  - by apply (Hcase m v).
Qed.

Lemma split_binv : binv s' split_blocks.
Proof.
  pose proof (b_size _ _ H) as Hsz. unfold sizeof_FreeBlock in Hsz. pose proof (Hsz _ _ _ He) as (_ & Hn8 & He8).
  split; rewrite ?Es, ?Eb; try apply H.
  - unfold sizeof_FreeBlock. intros x m v Hx. destruct (split_cases x m v Hx) as [(-> & -> & ->)|[(-> & -> & ->)|[Hx' _]]]; [| |by eapply Hsz].
    + lia.
    + split; [lia|]. split; dlia.
  - intros x m v Hx. rewrite Ha, Hb. destruct (split_cases x m v Hx) as [(-> & -> & ->)|[(-> & -> & ->)|[Hx' Hfar]]].
    + by rewrite !Z.eqb_refl.
    + rewrite (proj2 (Z.eqb_neq (e + new + 8 - 8) (e - 8))) by lia. rewrite (proj2 (Z.eqb_eq (e + new + 8 - 8) (e + new))) by lia.
      rewrite (proj2 (Z.eqb_neq (e + new + 8 + rem) (e + new))) by lia. rewrite (proj2 (Z.eqb_eq (e + new + 8 + rem) (e + n))) by lia. done.
    + pose proof (Hsz _ _ _ Hx'). rewrite (proj2 (Z.eqb_neq (x - 8) (e - 8))), (proj2 (Z.eqb_neq (x - 8) (e + new))) by lia.
      rewrite (proj2 (Z.eqb_neq (x + m) (e + new))), (proj2 (Z.eqb_neq (x + m) (e + n))) by lia. by apply H.
  - intros x m v Hx. destruct (b_in _ _ H _ _ _ He) as (sl & Hsl & H1 & H2).
    destruct (split_cases x m v Hx) as [(-> & -> & ->)|[(-> & -> & ->)|[Hx' _]]]; [..|by eapply (b_in _ _ H)];
      (exists sl; split; [done|lia]).
  - intros x m v Hx. rewrite <- Es. by apply (split_right x m v).
  - intros x m v Hx. rewrite <- Es. by apply (split_left x m v).
  - intros sl Hsl. by apply split_is_Some, (b_first _ _ H).
  - intros x m v x' m' v' Hx Hx' Hlt. pose proof (b_disj _ _ H) as Hd.
    destruct (split_cases x m v Hx) as [(-> & -> & ->)|[(-> & -> & ->)|[Hx1 Hf1]]],
      (split_cases x' m' v' Hx') as [(-> & -> & ->)|[(-> & -> & ->)|[Hx2 Hf2]]]; try lia.
    all: try (pose proof (Hsz _ _ _ Hx2); lia). by eapply Hd.
  - intros x m r Hx. destruct (split_cases x m _ Hx) as [(_ & _ & [=])|[(_ & _ & [=])|[Hx' _]]]. by eapply (b_req _ _ H).
Qed.

End Split.

(** Two free blocks that touch become one. *)
Section Merge.
Context (s' : SlabAlloc) (e n m : Z).
Hypothesis He : B e = Some (n, None).
Hypothesis Hf : B (e + n + 8) = Some (m, None).
Let tot : Z := n + m + 8.
Hypothesis Es : m_slabs s' = m_slabs s.
Hypothesis Eb : m_baseline s' = m_baseline s.
Hypothesis Ha : forall a, after s' a = if a =? e - 8 then tot else after s a.
Hypothesis Hb : forall a, before s' a = if a =? e + tot then tot else before s a.

Definition merge_map : Blocks := put_block e (Some (tot, None)) (put_block (e + n + 8) None B).

Lemma merge_cases x k v : merge_map x = Some (k, v) ->
  x = e /\ k = tot /\ v = None \/ B x = Some (k, v) /\ x <> e /\ x <> e + n + 8 /\ (x + k + 8 <= e \/ e + tot + 8 <= x).
Proof.
  unfold merge_map, put_block. destruct (Z.eqb_spec x e) as [->|E1]; [intros [= <- <-]; auto|].
  destruct (Z.eqb_spec x (e + n + 8)) as [->|E2]; [done|]. intros Hx. right. split; [done|]. split; [done|]. split; [done|].
  pose proof (block_apart e n None x k v He Hx E1). pose proof (block_apart _ m None x k v Hf Hx E2).
  pose proof (b_size _ _ H _ _ _ Hx). pose proof (b_size _ _ H _ _ _ Hf). unfold sizeof_FreeBlock in *. unfold tot in *. lia.
Qed.

Lemma merge_first : merge_map e = Some (tot, None).
Proof. unfold merge_map, put_block. by rewrite Z.eqb_refl. Qed.

Lemma merge_other x k v : B x = Some (k, v) -> x <> e -> x <> e + n + 8 -> merge_map x = Some (k, v).
Proof. intros Hx E1 E2. unfold merge_map, put_block. by rewrite (proj2 (Z.eqb_neq x e)), (proj2 (Z.eqb_neq x (e + n + 8))). Qed.

Lemma merge_is_Some x : is_Some (B x) -> x <> e + n + 8 -> is_Some (merge_map x).
Proof.
  intros [[k v] Hx] E2. destruct (Z.eqb_spec x e) as [->|E1]; [rewrite merge_first; by eexists|].
  rewrite (merge_other x k v); [by eexists|done|done|done].
Qed.

Lemma merge_right x k v : merge_map x = Some (k, v) -> is_Some (merge_map (x + k + 8)) \/
    (merge_map (x + k + 8) = None /\ after s' (x + k) = 0 /\ exists sl, sl ∈ m_slabs s' /\ ref_end sl = x + k + 8).
Proof.
  intros Hx. pose proof (b_size _ _ H) as Hsz. unfold sizeof_FreeBlock in Hsz. rewrite Es.
  pose proof (Hsz _ _ _ He) as Hse. pose proof (Hsz _ _ _ Hf) as Hsf.
  assert (Hcase : forall y j w, B y = Some (j, w) -> y <> e ->
    is_Some (merge_map (y + j + 8)) \/ (merge_map (y + j + 8) = None /\ after s' (y + j) = 0 /\
      exists sl, sl ∈ m_slabs s /\ ref_end sl = y + j + 8)).
  { intros y j w Hy Ey. assert (Hne : y + j + 8 <> e + n + 8) by (intros E; apply Ey, (right_tag_inj y j w e n None); [done..|lia]).
    destruct (b_right _ _ H _ _ _ Hy) as [Hs|(Hno & Hz & Hsl)]; [left; by apply merge_is_Some|].
    right. split; [|split; [|done]].
    - unfold merge_map, put_block. rewrite (proj2 (Z.eqb_neq (y + j + 8) (e + n + 8))) by done.
      rewrite (proj2 (Z.eqb_neq (y + j + 8) e)); [done|]. intros E. rewrite E in Hno. congruence.
    - rewrite Ha, (proj2 (Z.eqb_neq (y + j) (e - 8))); [done|]. intros E. replace (y + j + 8) with e in Hno by lia. congruence. }
  destruct (merge_cases x k v Hx) as [(-> & -> & ->)|(Hx' & E1 & _ & _)]; [|by apply (Hcase x k v)].
  replace (e + tot + 8) with (e + n + 8 + m + 8) by (unfold tot in *; lia). replace (e + tot) with (e + n + 8 + m) by (unfold tot in *; lia).
  apply (Hcase (e + n + 8) m None Hf). lia.
Qed.

Lemma merge_left x k v : merge_map x = Some (k, v) -> (exists e' n' u', merge_map e' = Some (n', u') /\ e' + n' + 8 = x) \/
    (before s' (x - 8) = 0 /\ (forall e' n' u', merge_map e' = Some (n', u') -> e' + n' + 8 <> x) /\
     exists sl, sl ∈ m_slabs s' /\ slab_start sl = x - 8).
Proof.
  intros Hx. pose proof (b_size _ _ H) as Hsz. unfold sizeof_FreeBlock in Hsz. rewrite Es.
  pose proof (Hsz _ _ _ He) as Hse. pose proof (Hsz _ _ _ Hf) as Hsf.
  assert (Hxne : x <> e + n + 8).
  { destruct (merge_cases x k v Hx) as [(-> & _)|(_ & _ & E & _)]; [lia|done]. }
  assert (Hold : exists j w, B x = Some (j, w)) by (destruct (merge_cases x k v Hx) as [(-> & _)|(Hx' & _)]; eauto).
  destruct Hold as (j & w & Hy). destruct (b_left _ _ H _ _ _ Hy) as [(e1 & n1 & u1 & H1 & H2)|(Hz & Hno & Hsl)].
  - left. destruct (Z.eqb_spec e1 (e + n + 8)) as [->|E2].
    + exists e, tot, None. split; [apply merge_first|]. assert (n1 = m) by congruence. unfold tot in *. lia.
    + destruct (Z.eqb_spec e1 e) as [->|E1]; [assert (n1 = n) by congruence; lia|].
      exists e1, n1, u1. split; [by apply merge_other|done].
  - right. assert (Hen : x <> e + tot + 8) by (intros ->; apply (Hno (e + n + 8) m None Hf); unfold tot in *; lia).
    split; [|split; [|done]].
    + rewrite Hb, (proj2 (Z.eqb_neq (x - 8) (e + tot))); [done|lia].
    + intros e1 n1 u1 H1. destruct (merge_cases _ _ _ H1) as [(-> & -> & _)|(H1' & _)]; [lia|by eapply Hno].
Qed.

Lemma merge_binv : binv s' merge_map.
Proof.
  pose proof (b_size _ _ H) as Hsz. unfold sizeof_FreeBlock in Hsz. pose proof (Hsz _ _ _ He) as (Hn1 & Hn8 & He8).
  pose proof (Hsz _ _ _ Hf) as (Hm1 & Hm8 & _). assert (Ht : tot = n + m + 8) by done.
  split; rewrite ?Es, ?Eb; try apply H.
  - unfold sizeof_FreeBlock. intros x k v Hx. destruct (merge_cases x k v Hx) as [(-> & -> & ->)|(Hx' & _)]; [|by eapply Hsz].
    split; [lia|]. split; dlia.
  - intros x k v Hx. rewrite Ha, Hb. destruct (merge_cases x k v Hx) as [(-> & -> & ->)|(Hx' & E1 & E2 & Hfar)]; [by rewrite !Z.eqb_refl|].
    pose proof (Hsz _ _ _ Hx'). rewrite (proj2 (Z.eqb_neq (x - 8) (e - 8))), (proj2 (Z.eqb_neq (x + k) (e + tot))) by lia. by apply H.
  - intros x k v Hx. destruct (merge_cases x k v Hx) as [(-> & -> & ->)|(Hx' & _)]; [|by eapply (b_in _ _ H)].
    destruct (b_in _ _ H _ _ _ He) as (sl & Hsl & H1 & H2). destruct (b_in _ _ H _ _ _ Hf) as (sl2 & Hsl2 & H3 & H4).
    assert (sl2 = sl) as -> by (apply (slab_unique _ _ b_base' (b_slabs _ _ H) _ _ (e + n)); [done..|lia|lia]).
    exists sl. split; [done|lia].
  - intros x k v Hx. rewrite <- Es. by apply (merge_right x k v).
  - intros x k v Hx. rewrite <- Es. by apply (merge_left x k v).
  - intros sl Hsl. apply merge_is_Some; [by apply (b_first _ _ H)|]. intros E.
    destruct (b_in _ _ H _ _ _ He) as (sl1 & Hsl1 & H1 & H2).
    pose proof (slab_pos _ _ b_base' (b_slabs _ _ H) sl Hsl) as Hpos. unfold minimal_alloc in Hpos.
    assert (sl = sl1) as -> by (apply (slab_unique _ _ b_base' (b_slabs _ _ H) _ _ (e + n)); [done..|lia|lia]). lia.
  - intros x k v x' k' v' Hx Hx' Hlt. pose proof (b_disj _ _ H) as Hd.
    destruct (merge_cases x k v Hx) as [(-> & -> & ->)|(Hx1 & E1 & E1' & Hf1)],
      (merge_cases x' k' v' Hx') as [(-> & -> & ->)|(Hx2 & E2 & E2' & Hf2)]; try lia; [pose proof (Hsz _ _ _ Hx2); lia|by eapply Hd].
  - intros x k r Hx. destruct (merge_cases x k _ Hx) as [(_ & _ & [=])|(Hx' & _)]. by eapply (b_req _ _ H).
Qed.

End Merge.

(** A new slab with one free block. *)
Section Grow.
Context (s' : SlabAlloc) (sl : Slab).
Let st : Z := slab_start sl.
Let n : Z := slab_size sl - 16.
Hypothesis Hst : st = next_start (align_size_to_section_boundary (m_baseline s)) (m_slabs s).
Hypothesis Hsl : minimal_alloc <= slab_size sl <= maximal_alloc /\ slab_size sl mod 8 = 0 /\ ref_end sl < 2 ^ 64.
Hypothesis Es : m_slabs s' = m_slabs s ++ [sl].
Hypothesis Eb : m_baseline s' = m_baseline s.
Hypothesis Ha : forall a, after s' a = if a =? ref_end sl - 8 then 0 else if a =? st then n else after s a.
Hypothesis Hb : forall a, before s' a = if a =? ref_end sl - 8 then n else if a =? st then 0 else before s a.

Definition grow_map : Blocks := put_block (st + 8) (Some (n, None)) B.

Lemma below_new x m v : B x = Some (m, v) -> x + m + 8 <= st.
Proof.
  intros Hx. destruct (b_in _ _ H _ _ _ Hx) as (sl' & Hsl' & _ & Hend). rewrite Hst.
  pose proof (slabs_below _ _ b_base' (b_slabs _ _ H) sl' Hsl'). lia.
Qed.

Lemma grow_cases x m v : grow_map x = Some (m, v) -> x = st + 8 /\ m = n /\ v = None \/ B x = Some (m, v) /\ x + m + 8 <= st.
Proof.
  unfold grow_map, put_block. destruct (Z.eqb_spec x (st + 8)) as [->|E1]; [intros [= <- <-]; auto|].
  intros Hx. right. split; [done|]. by eapply below_new.
Qed.

Lemma grow_old x m v : B x = Some (m, v) -> grow_map x = Some (m, v).
Proof.
  intros Hx. pose proof (below_new x m v Hx). pose proof (b_size _ _ H _ _ _ Hx). unfold sizeof_FreeBlock in *.
  unfold grow_map, put_block. by rewrite (proj2 (Z.eqb_neq x (st + 8))) by lia.
Qed.

Lemma grow_facts : ref_end sl = st + n + 16 /\ 24 <= n /\ forall y, y ∈ [sl] <-> y = sl.
Proof.
  destruct Hsl as ([Hs1 _] & _). unfold minimal_alloc in Hs1. split; [unfold st, n, slab_start; lia|]. split; [unfold n; lia|]. intros y. apply list_elem_of_singleton.
Qed.

Lemma grow_right x m v : grow_map x = Some (m, v) -> is_Some (grow_map (x + m + 8)) \/
  (grow_map (x + m + 8) = None /\ after s' (x + m) = 0 /\ exists sl0, sl0 ∈ m_slabs s ++ [sl] /\ ref_end sl0 = x + m + 8).
Proof.
  pose proof (b_size _ _ H) as Hsz. unfold sizeof_FreeBlock in Hsz. destruct grow_facts as (Hend & Hn & Hnew).
  intros Hx. setoid_rewrite elem_of_app. destruct (grow_cases x m v Hx) as [(-> & -> & ->)|[Hx' Hlow]].
  - right. split; [|split; [|exists sl; split; [right; by apply Hnew|lia]]].
    + destruct (grow_map (st + 8 + n + 8)) as [[k w]|] eqn:E; [|done]. destruct (grow_cases _ _ _ E) as [(? & _)|[E' ?]]; [lia|].
      pose proof (Hsz _ _ _ E'). lia.
    + rewrite Ha, (proj2 (Z.eqb_eq (st + 8 + n) (ref_end sl - 8))) by lia. done.
  - pose proof (Hsz _ _ _ Hx') as Hx8. destruct (b_right _ _ H _ _ _ Hx') as [[[k w] Hk]|(Hno & Hz & sl' & Hsl' & He)].
    + left. rewrite (grow_old _ _ _ Hk). by eexists.
    + right. split; [|split; [|by eauto]].
      * unfold grow_map, put_block. by rewrite (proj2 (Z.eqb_neq (x + m + 8) (st + 8))) by lia.
      * by rewrite Ha, (proj2 (Z.eqb_neq (x + m) (ref_end sl - 8))), (proj2 (Z.eqb_neq (x + m) st)) by lia.
Qed.

Lemma grow_left x m v : grow_map x = Some (m, v) -> (exists e' n' u', grow_map e' = Some (n', u') /\ e' + n' + 8 = x) \/
  (before s' (x - 8) = 0 /\ (forall e' n' u', grow_map e' = Some (n', u') -> e' + n' + 8 <> x) /\
   exists sl0, sl0 ∈ m_slabs s ++ [sl] /\ slab_start sl0 = x - 8).
Proof.
  pose proof (b_size _ _ H) as Hsz. unfold sizeof_FreeBlock in Hsz. destruct grow_facts as (Hend & Hn & Hnew).
  intros Hx. setoid_rewrite elem_of_app. destruct (grow_cases x m v Hx) as [(-> & -> & ->)|[Hx' Hlow]].
  - right. split; [|split; [|exists sl; split; [right; by apply Hnew|unfold st; lia]]].
    + by rewrite Hb, (proj2 (Z.eqb_neq (st + 8 - 8) (ref_end sl - 8))), (proj2 (Z.eqb_eq (st + 8 - 8) st)) by lia.
    + intros e1 n1 u1 H1. destruct (grow_cases _ _ _ H1) as [(-> & -> & _)|[H1' ?]]; lia.
  - pose proof (Hsz _ _ _ Hx') as Hx8. destruct (b_left _ _ H _ _ _ Hx') as [(e1 & n1 & u1 & H1 & H2)|(Hz & Hno & sl' & Hsl' & He)].
    + left. exists e1, n1, u1. split; [by apply grow_old|done].
    + right. split; [|split; [|by eauto]].
      * by rewrite Hb, (proj2 (Z.eqb_neq (x - 8) (ref_end sl - 8))), (proj2 (Z.eqb_neq (x - 8) st)) by lia.
      * intros e1 n1 u1 H1. destruct (grow_cases _ _ _ H1) as [(-> & -> & _)|[H1' ?]]; [lia|by eapply Hno].
Qed.

Lemma grow_binv : binv s' grow_map.
Proof.
  pose proof (b_size _ _ H) as Hsz. unfold sizeof_FreeBlock in Hsz. destruct Hsl as ([Hs1 Hs2] & Hs8 & Hs64).
  destruct grow_facts as (Hend & Hn & Hnew). unfold minimal_alloc in Hs1.
  pose proof (next_start_spec _ _ b_base' (proj2 (align_section_spec _ (b_base _ _ H))) (b_slabs _ _ H)) as [Hst0 Hst8]. rewrite <- Hst in Hst0, Hst8.
  split; rewrite ?Es, ?Eb; try apply H.
  - by apply slabs_snoc; [apply H| |].
  - unfold sizeof_FreeBlock. intros x m v Hx. destruct (grow_cases x m v Hx) as [(-> & -> & ->)|[Hx' _]]; [|by eapply Hsz].
    split; [done|]. change (2 ^ 26) with 67108864 in Hst8. unfold n. split; dlia.
  - intros x m v Hx. rewrite Ha, Hb. destruct (grow_cases x m v Hx) as [(-> & -> & ->)|[Hx' Hlow]].
    + rewrite (proj2 (Z.eqb_neq (st + 8 - 8) (ref_end sl - 8))), (proj2 (Z.eqb_eq (st + 8 - 8) st)) by lia.
      rewrite (proj2 (Z.eqb_eq (st + 8 + n) (ref_end sl - 8))) by lia. done.
    + pose proof (Hsz _ _ _ Hx'). rewrite (proj2 (Z.eqb_neq (x - 8) (ref_end sl - 8))), (proj2 (Z.eqb_neq (x - 8) st)) by lia.
      rewrite (proj2 (Z.eqb_neq (x + m) (ref_end sl - 8))), (proj2 (Z.eqb_neq (x + m) st)) by lia. by apply H.
  - intros x m v Hx. setoid_rewrite elem_of_app. destruct (grow_cases x m v Hx) as [(-> & -> & ->)|[Hx' _]].
    + exists sl. split; [right; by apply Hnew|]. unfold st in *. lia.
    + destruct (b_in _ _ H _ _ _ Hx') as (sl' & ? & ?). eauto.
  - exact grow_right.
  - exact grow_left.
  - intros sl' Hsl'. apply elem_of_app in Hsl' as [Hsl'|Hsl'].
    + destruct (b_first _ _ H sl' Hsl') as [[k w] Hk]. rewrite (grow_old _ _ _ Hk). by eexists.
    + apply Hnew in Hsl' as ->. unfold grow_map, put_block, st. rewrite Z.eqb_refl. by eexists.
  - intros x m v x' m' v' Hx Hx' Hlt. destruct (grow_cases x m v Hx) as [(-> & -> & ->)|[Hx1 Hl1]],
      (grow_cases x' m' v' Hx') as [(-> & -> & ->)|[Hx2 Hl2]]; [lia|pose proof (Hsz _ _ _ Hx2); lia|lia|by eapply (b_disj _ _ H)].
  - intros x m r Hx. destruct (grow_cases x m _ Hx) as [(_ & _ & [=])|[Hx' _]]. by eapply (b_req _ _ H).
Qed.

End Grow.

End Moves.
