(* ===== verification/SlabInv.v ===== *)
(** * The slab allocator: rings, blocks and the invariant

    [B] says which blocks the tags describe, [F] which ring holds the free blocks of
    each size.  Blocks that are free but in no ring, as in the middle of an
    operation, are listed as loose. *)

From stdpp Require Import sorting.
From S2P Require Import Prelude FreeList FreeListAlloc SlabAlloc SlabBlocks.

(** ** Rings *)

Fixpoint chain (f : Z -> FreeBlock) (l : list Z) : Prop :=
  match l with
  | x :: ((y :: _) as t) => fb_next (f x) = y /\ fb_prev (f y) = x /\ chain f t
  | _ => True
  end.

Definition ring (f : Z -> FreeBlock) (l : list Z) : Prop :=
  match l with [] => True | h :: _ => chain f (l ++ [h]) end.

Lemma chain_cons f x y l : chain f (x :: y :: l) <-> fb_next (f x) = y /\ fb_prev (f y) = x /\ chain f (y :: l).
Proof. done. Qed.

Lemma chain_app f a x b : chain f (a ++ x :: b) <-> chain f (a ++ [x]) /\ chain f (x :: b).
Proof.
  induction a as [|y a IH]; [cbn; tauto|]. destruct a as [|z a].
  - cbn [app] in *. rewrite !chain_cons. cbn [chain]. tauto.
  - change ((y :: z :: a) ++ x :: b) with (y :: z :: (a ++ x :: b)). change ((y :: z :: a) ++ [x]) with (y :: z :: (a ++ [x])).
    rewrite !chain_cons. cbn [app] in IH. rewrite IH. tauto.
Qed.

Lemma ring_rot f x l : ring f (x :: l) <-> ring f (l ++ [x]).
Proof.
  destruct l as [|y l]; [done|]. unfold ring. cbn [app]. rewrite chain_cons.
  change (y :: (l ++ [x]) ++ [y]) with ((y :: l ++ [x]) ++ [y]).
  replace ((y :: l ++ [x]) ++ [y]) with ((y :: l) ++ x :: [y]) by (cbn; by rewrite <- app_assoc).
  rewrite (chain_app f (y :: l) x [y]). cbn [chain app]. tauto.
Qed.

Lemma ring_rotate f a b : ring f (a ++ b) <-> ring f (b ++ a).
Proof.
  revert b. induction a as [|x a IH]; intros b; [by rewrite app_nil_r|].
  cbn [app]. rewrite ring_rot, <- app_assoc, IH, <- app_assoc. done.
Qed.

(** Links that a chain does not use may change. *)
Lemma chain_mono f f' l : chain f l -> (forall y, y ∈ removelast l -> fb_next (f' y) = fb_next (f y)) ->
  (forall y, y ∈ tail l -> fb_prev (f' y) = fb_prev (f y)) -> chain f' l.
Proof.
  induction l as [|x [|y l] IH]; intros Hc Hn Hp; [done|done|]. rewrite chain_cons in *. destruct Hc as (H1 & H2 & H3).
  change (removelast (x :: y :: l)) with (x :: removelast (y :: l)) in Hn. change (tail (x :: y :: l)) with (y :: l) in Hp.
  rewrite Hn by apply list_elem_of_here. rewrite Hp by apply list_elem_of_here. split; [done|]. split; [done|]. apply IH; [done| |].
  - intros z Hz. apply Hn. by apply list_elem_of_further.
  - intros z Hz. apply Hp. by apply list_elem_of_further.
Qed.

(** The inner links of a chain from [h] to [z]. *)
Lemma chain_inner f f' h m z : NoDup (h :: m ++ [z]) -> chain f ((h :: m) ++ [z]) ->
  (forall y, y ∈ h :: m -> y <> z -> fb_next (f' y) = fb_next (f y)) ->
  (forall y, y ∈ m ++ [z] -> y <> h -> fb_prev (f' y) = fb_prev (f y)) -> chain f' ((h :: m) ++ [z]).
Proof.
  intros Hnd Hc Hn Hp. apply list.NoDup_cons in Hnd as [Hhm Hnd]. apply list.NoDup_app in Hnd as (_ & Hmz & _).
  apply (chain_mono f); [done| |].
  - rewrite removelast_last. intros y Hy. apply Hn; [done|]. intros ->. apply elem_of_cons in Hy as [->|Hy].
    + apply Hhm, elem_of_app. right. by apply list_elem_of_singleton.
    + apply (Hmz z Hy). by apply list_elem_of_singleton.
  - cbn [tail app]. intros y Hy. apply Hp; [done|]. by intros ->.
Qed.

(** The neighbours of the first element. *)
Lemma ring_ends f x l : ring f (x :: l) ->
  fb_next (f x) = default x (head l) /\ fb_prev (f x) = default x (list.last l).
Proof.
  intros Hr. split.
  - destruct l as [|y l]; cbn [ring app] in Hr; rewrite chain_cons in Hr; by destruct Hr.
  - destruct l as [|y l _] using rev_ind; [cbn in Hr; tauto|]. apply ring_rot in Hr. rewrite <- app_assoc in Hr.
    apply ring_rotate in Hr. cbn [app] in Hr. rewrite last_snoc. destruct Hr as (_ & H & _). done.
Qed.

Lemma ring_ends_in f x l : ring f (x :: l) -> fb_next (f x) ∈ x :: l /\ fb_prev (f x) ∈ x :: l.
Proof.
  intros Hr. destruct (ring_ends f x l Hr) as [-> ->]. split.
  - destruct l as [|h t]; [apply list_elem_of_here|]. apply list_elem_of_further, list_elem_of_here.
  - destruct (list.last l) as [z|] eqn:El; [|apply list_elem_of_here]. apply list_elem_of_further.
    apply last_Some in El as [t ->]. apply elem_of_app. right. apply list_elem_of_here.
Qed.

(** Taking the first element out, and putting one in front. *)
Lemma ring_unlink f f' x l : NoDup (x :: l) -> ring f (x :: l) ->
  (forall y, y <> x -> fb_next (f' y) = if y =? fb_prev (f x) then fb_next (f x) else fb_next (f y)) ->
  (forall y, y <> x -> fb_prev (f' y) = if y =? fb_next (f x) then fb_prev (f x) else fb_prev (f y)) ->
  ring f' l.
Proof.
  intros Hnd Hr Hn Hp. destruct (ring_ends f x l Hr) as [E1 E2]. apply list.NoDup_cons in Hnd as [Hx Hnd].
  assert (Hne : forall y, y ∈ l -> y <> x) by (intros y Hy ->; done).
  destruct l as [|h l]; [done|]. change (fb_next (f x) = h) in E1. destruct l as [|z m _] using rev_ind.
  - cbn in E2 |- *. assert (h <> x) by (apply Hne, list_elem_of_here).
    rewrite Hn, Hp by done. rewrite E1, E2. cbn. by rewrite !Z.eqb_refl.
  - rewrite app_comm_cons, last_snoc in E2. change (fb_prev (f x) = z) in E2. rewrite E1, E2 in *.
    assert (Hh : h <> x) by (apply Hne, list_elem_of_here).
    assert (Hz : z <> x) by (apply Hne; apply list_elem_of_further, elem_of_app; right; by apply list_elem_of_singleton).
    cbn [ring app] in Hr. rewrite chain_cons in Hr. destruct Hr as (_ & _ & Hc).
    change (h :: (m ++ [z]) ++ [x]) with ((h :: m ++ [z]) ++ [x]) in Hc.
    replace ((h :: m ++ [z]) ++ [x]) with ((h :: m) ++ z :: [x]) in Hc by (cbn; by rewrite <- app_assoc).
    apply chain_app in Hc as [Hc _]. unfold ring. cbn [app]. 
    replace (h :: (m ++ [z]) ++ [h]) with ((h :: m) ++ z :: [h]) by (cbn; by rewrite <- app_assoc).
    apply chain_app. split.
    + apply (chain_inner f); [done|done| |].
      * intros y Hy Hyz. rewrite Hn; [by rewrite (proj2 (Z.eqb_neq y z))|]. apply Hne. rewrite app_comm_cons. apply elem_of_app. by left.
      * intros y Hy Hyh. rewrite Hp; [by rewrite (proj2 (Z.eqb_neq y h))|]. apply Hne. by apply list_elem_of_further.
    + cbn. rewrite Hn, Hp, !Z.eqb_refl by done. done.
Qed.

Lemma ring_push f f' x l : x ∉ l -> NoDup l -> ring f l -> l <> [] ->
  fb_next (f' x) = default x (head l) -> fb_prev (f' x) = default x (list.last l) ->
  (forall y, y <> x -> fb_next (f' y) = if y =? default x (list.last l) then x else fb_next (f y)) ->
  (forall y, y <> x -> fb_prev (f' y) = if y =? default x (head l) then x else fb_prev (f y)) ->
  ring f' (x :: l).
Proof.
  intros Hx Hnd Hr Hl E1 E2 Hn Hp. assert (Hne : forall y, y ∈ l -> y <> x) by (intros y Hy ->; done).
  destruct l as [|h l]; [done|]. change (default x (head (h :: l))) with h in *.
  assert (Hh : h <> x) by (apply Hne, list_elem_of_here).
  unfold ring. cbn [app]. rewrite chain_cons. split; [done|]. split; [by rewrite Hp, Z.eqb_refl|].
  destruct l as [|z m _] using rev_ind.
  - cbn in *. rewrite Hn by done. rewrite Z.eqb_refl. done.
  - rewrite app_comm_cons, last_snoc in E2, Hn. change (default x (Some z)) with z in *.
    assert (Hz : z <> x) by (apply Hne; apply list_elem_of_further, elem_of_app; right; by apply list_elem_of_singleton).
    replace (h :: (m ++ [z]) ++ [x]) with ((h :: m) ++ z :: [x]) by (cbn; by rewrite <- app_assoc).
    unfold ring in Hr. cbn [app] in Hr.
    replace (h :: (m ++ [z]) ++ [h]) with ((h :: m) ++ z :: [h]) in Hr by (cbn; by rewrite <- app_assoc).
    apply chain_app in Hr as [Hr _]. apply chain_app. split.
    + apply (chain_inner f); [done|done| |].
      * intros y Hy Hyz. rewrite Hn; [by rewrite (proj2 (Z.eqb_neq y z))|]. apply Hne. rewrite app_comm_cons. apply elem_of_app. by left.
      * intros y Hy Hyh. rewrite Hp; [by rewrite (proj2 (Z.eqb_neq y h))|]. apply Hne. by apply list_elem_of_further.
    + cbn. rewrite Hn by done. rewrite Z.eqb_refl. done.
Qed.

(** A ring whose links are untouched. *)
Lemma ring_ext f f' l : ring f l -> (forall y, y ∈ l -> fb_next (f' y) = fb_next (f y) /\ fb_prev (f' y) = fb_prev (f y)) -> ring f' l.
Proof.
  intros Hr He. destruct l as [|h l]; [done|]. unfold ring in *. apply (chain_mono f); [done| |].
  - rewrite removelast_last. intros y Hy. by apply He.
  - cbn [tail app]. intros y Hy. apply He. apply elem_of_app in Hy as [Hy|Hy]; [by apply list_elem_of_further|].
    apply list_elem_of_singleton in Hy as ->. apply list_elem_of_here.
Qed.

(** ** The map of rings *)

Definition bm_sorted (m : list (Z * Z)) : Prop := StronglySorted (fun a b : Z * Z => a.1 < b.1) m.

Lemma bm_find_above k m : Forall (fun a : Z * Z => k < a.1) m -> bm_find k m = None.
Proof.
  intros Hf. induction m as [|[k' e] m IH]; [done|]. apply Forall_cons_iff in Hf as [Hk Hf]. cbn in *.
  rewrite (proj2 (Z.eqb_neq k' k)) by lia. by apply IH.
Qed.

Lemma bm_set_Forall (P : Z * Z -> Prop) k e m : P (k, e) -> Forall P m -> Forall P (bm_set k e m).
Proof.
  intros Hp. induction m as [|[k1 e1] m IH]; intros Hf; cbn; [by constructor|]. apply Forall_cons_iff in Hf as [H1 H2].
  destruct (k1 =? k); [by constructor|]. destruct (k <? k1); repeat constructor; auto.
Qed.

Lemma bm_set_spec k e m : bm_sorted m ->
  bm_sorted (bm_set k e m) /\ forall k', bm_find k' (bm_set k e m) = if k' =? k then Some e else bm_find k' m.
Proof.
  induction m as [|[k1 e1] m IH]; intros Hs; cbn.
  - split; [repeat constructor|]. intros k'. by rewrite (Z.eqb_sym k k').
  - apply StronglySorted_inv in Hs as [Hs Hf]. destruct (Z.eqb_spec k1 k) as [->|Hne].
    + split; [by constructor|]. intros k'. cbn. rewrite (Z.eqb_sym k k'). by destruct (k' =? k).
    + destruct (Z.ltb_spec k k1).
      * split; [constructor; [by constructor|]; constructor; [done|]; eapply Forall_impl; [|exact Hf]; cbn; lia|].
        intros k'. cbn. rewrite (Z.eqb_sym k k'). by destruct (k' =? k).
      * destruct (IH Hs) as [IH1 IH2]. split; [constructor; [done|]; apply bm_set_Forall; [cbn; lia|done]|].
        intros k'. cbn. rewrite IH2. destruct (Z.eqb_spec k1 k') as [->|]; [|done]. by rewrite (proj2 (Z.eqb_neq k' k)).
Qed.

Lemma bm_erase_spec k m : bm_sorted m ->
  bm_sorted (bm_erase k m) /\ forall k', bm_find k' (bm_erase k m) = if k' =? k then None else bm_find k' m.
Proof.
  induction m as [|[k1 e1] m IH]; intros Hs; cbn; [split; [constructor|]; intros k'; by destruct (k' =? k)|].
  apply StronglySorted_inv in Hs as [Hs Hf]. destruct (Z.eqb_spec k1 k) as [->|Hne].
  - split; [done|]. intros k'. rewrite (Z.eqb_sym k k'). destruct (Z.eqb_spec k' k) as [->|]; [|done]. by apply bm_find_above.
  - destruct (IH Hs) as [IH1 IH2]. split.
    + constructor; [done|]. clear -Hf. induction m as [|[k2 e2] m IH]; cbn; [constructor|]. apply Forall_cons_iff in Hf as [H1 H2].
      destruct (k2 =? k); [done|]. constructor; auto.
    + intros k'. cbn. rewrite IH2. destruct (Z.eqb_spec k1 k') as [->|]; [|done]. by rewrite (proj2 (Z.eqb_neq k' k)).
Qed.

Lemma bm_find_head k e m : bm_find k ((k, e) :: m) = Some e.
Proof. cbn. by rewrite Z.eqb_refl. Qed.

Lemma bm_lower_bound_spec k m : bm_sorted m ->
  match bm_lower_bound k m with
  | [] => forall k' e, bm_find k' m = Some e -> k' < k
  | (k1, e1) :: _ => k <= k1 /\ bm_find k1 m = Some e1 /\ forall k' e, bm_find k' m = Some e -> k' < k \/ k1 <= k'
  end.
Proof.
  induction m as [|[k1 e1] m IH]; intros Hs; cbn; [done|]. apply StronglySorted_inv in Hs as [Hs Hf]. specialize (IH Hs).
  destruct (Z.ltb_spec k1 k).
  - destruct (bm_lower_bound k m) as [|[k2 e2] it].
    + intros k' e. destruct (Z.eqb_spec k1 k'); [lia|apply IH].
    + destruct IH as (I1 & I2 & I3). split; [done|]. split; [by rewrite (proj2 (Z.eqb_neq k1 k2)) by lia|].
      intros k' e. destruct (Z.eqb_spec k1 k'); [lia|apply I3].
  - split; [done|]. split; [by rewrite Z.eqb_refl|]. intros k' e. destruct (Z.eqb_spec k1 k'); [lia|].
    intros Hk. right. destruct (Z_lt_le_dec k' k1) as [Hlt|]; [|done]. rewrite bm_find_above in Hk; [done|].
    eapply Forall_impl; [|exact Hf]. cbn. lia.
Qed.

Lemma bm_lower_bound_twice k k2 m : k <= k2 -> bm_lower_bound k2 (bm_lower_bound k m) = bm_lower_bound k2 m.
Proof.
  intros Hk. induction m as [|[k1 e1] m IH]; [done|]. cbn. destruct (Z.ltb_spec k1 k); [|done].
  rewrite IH. by rewrite (proj2 (Z.ltb_lt k1 k2)) by lia.
Qed.

(** ** Links under the primitives *)

Lemma unlink_next x s y : y <> x ->
  fb_next (blk (unlink x s) y) = if y =? fb_prev (blk s x) then fb_next (blk s x) else fb_next (blk s y).
Proof.
  intros Hy. unfold unlink, clear_links, set_fb_next, set_fb_prev. cbn. rewrite !(proj2 (Z.eqb_neq y x)) by done.
  destruct (y =? fb_prev (blk s x)); [done|]. by destruct (Z.eqb_spec y (fb_next (blk s x))) as [->|].
Qed.

Lemma unlink_prev x s y : y <> x ->
  fb_prev (blk (unlink x s) y) = if y =? fb_next (blk s x) then fb_prev (blk s x) else fb_prev (blk s y).
Proof.
  intros Hy. unfold unlink, clear_links, set_fb_next, set_fb_prev. cbn. rewrite !(proj2 (Z.eqb_neq y x)) by done.
  destruct (Z.eqb_spec y (fb_prev (blk s x))) as [->|]; cbn; by destruct (_ =? fb_next (blk s x)).
Qed.

Lemma unlink_ref x s y : fb_ref (blk (unlink x s) y) = fb_ref (blk s y).
Proof.
  unfold unlink, clear_links, set_fb_next, set_fb_prev. cbn.
  repeat match goal with |- context [?a =? ?b] => destruct (Z.eqb_spec a b); subst; cbn end; congruence.
Qed.

(** ** The invariant of the rings *)

Record rinv (s : SlabAlloc) (B : Blocks) (F : Z -> list Z) (loose : list Z) : Prop := {
  r_sorted : bm_sorted (m_block_map s);
  r_map : forall k, bm_find k (m_block_map s) = head (F k);
  r_ring : forall k, ring (blk s) (F k);
  r_nodup : forall k, NoDup (F k);
  r_free : forall k x, x ∈ F k <-> B x = Some (k, None) /\ x ∉ loose;
  r_ref : forall x k, B x = Some (k, None) -> fb_ref (blk s x) = x }.

Definition put_ring (k : Z) (l : list Z) (F : Z -> list Z) : Z -> list Z := fun x => if x =? k then l else F x.

Lemma rinv_take s B F loose k x l1 l2 m : rinv s B F loose -> F k = l1 ++ x :: l2 -> bm_sorted m ->
  (forall k', bm_find k' m = if k' =? k then head (l1 ++ l2) else bm_find k' (m_block_map s)) ->
  rinv (unlink x (set_block_map m s)) B (put_ring k (l1 ++ l2) F) (x :: loose).
Proof.
  intros H Hk Hm Hf. pose proof (r_nodup _ _ _ _ H k) as Hnd. rewrite Hk in Hnd.
  assert (Hx : B x = Some (k, None) /\ x ∉ loose) by (apply (r_free _ _ _ _ H); rewrite Hk; apply elem_of_app; right; apply list_elem_of_here).
  assert (Hperm : NoDup (x :: l1 ++ l2)) by (by rewrite Permutation_middle).
  assert (Hr : ring (blk s) (x :: l2 ++ l1)).
  { change (x :: l2 ++ l1) with ((x :: l2) ++ l1). apply ring_rotate. rewrite <- Hk. by apply (r_ring _ _ _ _ H). }
  split; unfold put_ring; cbn [m_block_map unlink clear_links set_fb_next set_fb_prev set_blk set_block_map].
  - done.
  - intros k'. rewrite Hf. destruct (Z.eqb_spec k' k); [done|apply (r_map _ _ _ _ H)].
  - intros k'. destruct (Z.eqb_spec k' k) as [->|Ek].
    + apply ring_rotate. apply (ring_unlink (blk s) _ x (l2 ++ l1)); [by rewrite (Permutation_app_comm l2 l1)|done| |].
      * intros y Hy. by apply (unlink_next x (set_block_map m s)).
      * intros y Hy. by apply (unlink_prev x (set_block_map m s)).
    + apply (ring_ext (blk s)); [apply (r_ring _ _ _ _ H)|]. intros y Hy.
      assert (Hyk : y ∉ x :: l2 ++ l1).
      { intros Hin. apply (r_free _ _ _ _ H) in Hy as [Hy _].
        assert (Hy' : y ∈ F k) by (rewrite Hk; rewrite elem_of_cons, elem_of_app in Hin; rewrite elem_of_app, elem_of_cons; tauto).
        apply (r_free _ _ _ _ H) in Hy' as [Hy' _]. congruence. }
      assert (Hyx : y <> x) by (intros ->; apply Hyk, list_elem_of_here).
      destruct (ring_ends_in _ _ _ Hr) as [E1 E2].
      assert (y <> fb_next (blk s x) /\ y <> fb_prev (blk s x)) by (split; intros ->; done).
      rewrite (unlink_next x (set_block_map m s) y), (unlink_prev x (set_block_map m s) y) by done. cbn [blk set_block_map].
      by rewrite (proj2 (Z.eqb_neq y (fb_prev (blk s x)))), (proj2 (Z.eqb_neq y (fb_next (blk s x)))) by tauto.
  - intros k'. destruct (Z.eqb_spec k' k); [by apply list.NoDup_cons in Hperm as [_ ?]|apply (r_nodup _ _ _ _ H)].
  - intros k' y. rewrite not_elem_of_cons. destruct (Z.eqb_spec k' k) as [->|Ek].
    + apply list.NoDup_cons in Hperm as [Hn _]. split.
      * intros Hy. assert (y <> x) by (intros ->; done).
        assert (Hy' : y ∈ F k) by (rewrite Hk; rewrite elem_of_app in Hy; rewrite elem_of_app, elem_of_cons; tauto).
        apply (r_free _ _ _ _ H) in Hy'. tauto.
      * intros (Hy & Hyx & Hyl). assert (Hy' : y ∈ F k) by (by apply (r_free _ _ _ _ H)). rewrite Hk in Hy'.
        rewrite elem_of_app, elem_of_cons in Hy'. rewrite elem_of_app. tauto.
    + rewrite (r_free _ _ _ _ H). split; [|tauto]. intros [Hy ?]. split; [done|]. split; [|done]. intros ->. destruct Hx. congruence.
  - intros y k' Hy. change (unlink x (set_block_map m s)) with (unlink x (set_block_map m s)).
    pose proof (unlink_ref x (set_block_map m s) y) as Hu. cbn [blk set_block_map] in Hu. rewrite <- (r_ref _ _ _ _ H y k' Hy) at 2. exact Hu.
Qed.

(** What [push_freelist_entry] does to the links when the ring has a header. *)
Lemma push_links x h s : x <> h -> x <> fb_prev (blk s h) -> bm_find (after s (x - 8)) (m_block_map s) = Some h ->
  let s' := push_freelist_entry x s in
  fb_next (blk s' x) = h /\ fb_prev (blk s' x) = fb_prev (blk s h) /\
  (forall y, y <> x -> fb_next (blk s' y) = if y =? fb_prev (blk s h) then x else fb_next (blk s y)) /\
  (forall y, y <> x -> fb_prev (blk s' y) = if y =? h then x else fb_prev (blk s y)) /\
  (forall y, fb_ref (blk s' y) = fb_ref (blk s y)).
Proof.
  intros Hxh Hxp Hf s'. subst s'. unfold push_freelist_entry. change (bm_find (block_after_size (bb s (bb_before x))) (m_block_map s)) with (bm_find (after s (x - 8)) (m_block_map s)).
  rewrite Hf. cbv zeta. set (z := fb_prev (blk s h)) in *.
  set (s1 := set_fb_next x h _). assert (E1 : forall y, blk s1 y = if y =? x then mkFB (fb_ref (blk s x)) (fb_prev (blk s x)) h else blk s y) by done.
  clearbody s1. assert (Ez : fb_prev (blk s1 h) = z) by (by rewrite E1, (proj2 (Z.eqb_neq h x))). rewrite Ez.
  set (s2 := set_fb_prev x z s1). assert (E2 : forall y, blk s2 y = if y =? x then mkFB (fb_ref (blk s x)) z h else blk s y).
  { intros y. cbn. rewrite !E1, Z.eqb_refl. by destruct (y =? x). }
  clearbody s2. rewrite E2, Z.eqb_refl. cbn [fb_prev].
  set (s3 := set_fb_next z x s2). assert (E3 : forall y, blk s3 y = if y =? z then mkFB (fb_ref (blk s z)) (fb_prev (blk s z)) x else blk s2 y).
  { intros y. cbn. by rewrite !E2, (proj2 (Z.eqb_neq z x)) by done. }
  clearbody s3. rewrite E3, (proj2 (Z.eqb_neq x z)), E2, Z.eqb_refl by done. cbn [fb_next].
  assert (E4 : forall y, blk (set_fb_prev h x s3) y = if y =? h then mkFB (fb_ref (blk s h)) x (if h =? z then x else fb_next (blk s h)) else blk s3 y).
  { intros y. cbn. rewrite E3, E2, (proj2 (Z.eqb_neq h x)) by done. destruct (Z.eqb_spec h z) as [<-|]; done. }
  rewrite E4, (proj2 (Z.eqb_neq x h)), E3, (proj2 (Z.eqb_neq x z)), E2, Z.eqb_refl by done. cbn [fb_next fb_prev].
  split; [done|]. split; [done|]. split; [|split]; intros y; rewrite E4, E3, E2.
  - intros Hy. rewrite (proj2 (Z.eqb_neq y x)) by done. destruct (Z.eqb_spec y h) as [->|]; [done|]. by destruct (y =? z).
  - intros Hy. rewrite (proj2 (Z.eqb_neq y x)) by done. destruct (Z.eqb_spec y h) as [->|]; [done|].
    by destruct (Z.eqb_spec y z) as [->|].
  - destruct (Z.eqb_spec y h) as [->|]; [done|]. destruct (Z.eqb_spec y z) as [->|]; [done|]. by destruct (Z.eqb_spec y x) as [->|].
Qed.

(** Membership and the map after a push. *)
Lemma push_members s B F (loose loose' : list Z) k x : rinv s B F loose -> x ∈ loose -> B x = Some (k, None) -> after s (x - 8) = k ->
  (forall y, y ∈ loose' <-> y ∈ loose /\ y <> x) ->
  (forall k', x ∉ F k') /\ (forall k' y, y ∈ put_ring k (x :: F k) F k' <-> B y = Some (k', None) /\ y ∉ loose') /\
  (forall k', NoDup (put_ring k (x :: F k) F k')) /\ m_block_map (push_freelist_entry x s) = bm_set k x (m_block_map s).
Proof.
  intros H Hx Hk Ha Hl. assert (Hnot : forall k', x ∉ F k') by (intros k' Hin; apply (r_free _ _ _ _ H) in Hin; tauto).
  assert (Hfree : forall k' y, y ∈ put_ring k (x :: F k) F k' <-> B y = Some (k', None) /\ y ∉ loose').
  { intros k' y. rewrite Hl. unfold put_ring. destruct (Z.eqb_spec k' k) as [->|Ek].
    - rewrite elem_of_cons, (r_free _ _ _ _ H). destruct (Z.eqb_spec y x) as [->|]; [tauto|]. tauto.
    - rewrite (r_free _ _ _ _ H). destruct (Z.eqb_spec y x) as [->|]; [|tauto]. split; [tauto|]. intros [E _]. congruence. }
  assert (Hnd : forall k', NoDup (put_ring k (x :: F k) F k')).
  { intros k'. unfold put_ring. destruct (k' =? k); [|apply (r_nodup _ _ _ _ H)]. apply list.NoDup_cons. split; [apply Hnot|apply (r_nodup _ _ _ _ H)]. }
  split; [done|]. split; [done|]. split; [done|].
  unfold push_freelist_entry. change (block_after_size (bb s (bb_before x))) with (after s (x - 8)). rewrite Ha. by destruct (bm_find k _).
Qed.

Lemma rinv_push s B F loose loose' k x : rinv s B F loose -> x ∈ loose -> B x = Some (k, None) -> after s (x - 8) = k ->
  (forall y, y ∈ loose' <-> y ∈ loose /\ y <> x) -> rinv (push_freelist_entry x s) B (put_ring k (x :: F k) F) loose'.
Proof.
  intros H Hx Hk Ha Hl. destruct (push_members s B F loose loose' k x H Hx Hk Ha Hl) as (Hnot & Hfree & Hnd & Hmap).
  destruct (bm_set_spec k x (m_block_map s) (r_sorted _ _ _ _ H)) as [Hs1 Hs2].
  pose proof (r_map _ _ _ _ H k) as Hm. pose proof (r_ring _ _ _ _ H k) as Hr. destruct (F k) as [|h t] eqn:EF.
  - assert (Hb : forall y, blk (push_freelist_entry x s) y = if y =? x then mkFB (fb_ref (blk s x)) x x else blk s y).
    { unfold push_freelist_entry. change (block_after_size (bb s (bb_before x))) with (after s (x - 8)). rewrite Ha, Hm. cbn. intros y.
      rewrite Z.eqb_refl. by destruct (y =? x). }
    split; [by rewrite Hmap| | |done|done|].
    + intros k'. rewrite Hmap, Hs2. unfold put_ring. destruct (k' =? k); [done|apply (r_map _ _ _ _ H)].
    + intros k'. unfold put_ring. destruct (Z.eqb_spec k' k) as [->|Ek]; [cbn; by rewrite !Hb, Z.eqb_refl|].
      apply (ring_ext (blk s)); [apply (r_ring _ _ _ _ H)|]. intros y Hy. rewrite Hb.
      destruct (Z.eqb_spec y x) as [->|]; [by apply Hnot in Hy|done].
    + intros y k' Hy. rewrite Hb. destruct (Z.eqb_spec y x) as [->|]; by eapply (r_ref _ _ _ _ H).
  - assert (Hxh : x <> h) by (intros ->; apply (Hnot k); rewrite EF; apply list_elem_of_here).
    destruct (ring_ends_in _ _ _ Hr) as [_ Hpin]. destruct (ring_ends _ _ _ Hr) as [_ Hpl].
    assert (Hxp : x <> fb_prev (blk s h)) by (intros E; apply (Hnot k); rewrite EF, E; done).
    destruct (push_links x h s Hxh Hxp) as (P1 & P2 & P3 & P4 & P5); [by rewrite Ha|].
    assert (Hlast : default x (list.last (h :: t)) = fb_prev (blk s h)).
    { rewrite Hpl. destruct t as [|z t _] using rev_ind; [done|]. by rewrite app_comm_cons, !last_snoc. }
    split; [by rewrite Hmap| | |done|done|].
    + intros k'. rewrite Hmap, Hs2. unfold put_ring. destruct (k' =? k); [done|apply (r_map _ _ _ _ H)].
    + intros k'. unfold put_ring. destruct (Z.eqb_spec k' k) as [->|Ek].
      * apply (ring_push (blk s)); try done; rewrite ?Hlast; try done; [rewrite <- EF; apply Hnot|rewrite <- EF; apply (r_nodup _ _ _ _ H)].
      * apply (ring_ext (blk s)); [apply (r_ring _ _ _ _ H)|]. intros y Hy.
        assert (Hyk : y ∉ h :: t).
        { intros Hin. rewrite <- EF in Hin. apply (r_free _ _ _ _ H) in Hin as [Hin _], Hy as [Hy _]. congruence. }
        assert (y <> x) by (intros ->; by apply Hnot in Hy).
        assert (y <> fb_prev (blk s h)) by (intros ->; done). assert (y <> h) by (intros ->; apply Hyk, list_elem_of_here).
        by rewrite P3, P4, (proj2 (Z.eqb_neq y (fb_prev (blk s h)))), (proj2 (Z.eqb_neq y h)) by done.
    + intros y k' Hy. rewrite P5. by eapply (r_ref _ _ _ _ H).
Qed.

(** Changes of the blocks that leave the rings alone. *)
Lemma rinv_blocks s s' B B' F loose loose' : rinv s B F loose -> m_block_map s' = m_block_map s ->
  (forall k y, y ∈ F k -> blk s' y = blk s y) ->
  (forall k x, B' x = Some (k, None) /\ x ∉ loose' <-> B x = Some (k, None) /\ x ∉ loose) ->
  (forall x k, B' x = Some (k, None) -> fb_ref (blk s' x) = x) -> rinv s' B' F loose'.
Proof.
  intros H Em Eb Hfr Href. destruct H. split; try done; rewrite ?Em; try done.
  - intros k. apply (ring_ext (blk s)); [done|]. intros y Hy. by rewrite (Eb k y Hy).
  - intros k x. by rewrite Hfr.
Qed.

Lemma binv_ext s s' B : binv s B -> m_slabs s' = m_slabs s -> m_baseline s' = m_baseline s -> bb s' = bb s -> binv s' B.
Proof.
  intros H E1 E2 E3. assert (Ea : forall a, after s' a = after s a) by (intros a; unfold after; by rewrite E3).
  assert (Eb : forall a, before s' a = before s a) by (intros a; unfold before; by rewrite E3).
  destruct H. split; rewrite ?E1, ?E2; try done; setoid_rewrite Ea || setoid_rewrite Eb; try done; setoid_rewrite Eb; done.
Qed.
