(* ===== verification/SlabOps.v ===== *)
(** * The slab allocator: what each operation does to the blocks *)

From S2P Require Import Prelude FreeList FreeListAlloc SlabAlloc SlabBlocks SlabInv.

Definition sinv (s : SlabAlloc) (B : Blocks) (F : Z -> list Z) (loose : list Z) : Prop := binv s B /\ rinv s B F loose.

(** ** What an operation leaves alone *)

Definition busy (B : Blocks) (y n : Z) : Prop := exists r, B y = Some (n, Some r).

(** Addresses whose tag, or whose free block, does not overlap a block in use. *)
Definition safe_bb (B : Blocks) (a : Z) : Prop := forall y n, busy B y n -> ~ (y - 8 < a < y + n).
Definition safe_blk (B : Blocks) (a : Z) : Prop := forall y n, busy B y n -> ~ (y - 24 < a < y + n).

(** The bookkeeping that the operations on blocks leave alone, and the memory of the
    blocks in use. *)
Definition same_books (s s' : SlabAlloc) : Prop :=
  m_baseline s' = m_baseline s /\ m_free_space_state s' = m_free_space_state s /\
  m_commit_size s' = m_commit_size s /\ m_free_read_only s' = m_free_read_only s.

Definition keeps (B : Blocks) (s s' : SlabAlloc) : Prop :=
  same_books s s' /\
  forall y n a, busy B y n -> (y - 8 < a < y + n -> bb s' a = bb s a) /\ (y - 24 < a < y + n -> blk s' a = blk s a).

Lemma keeps_refl B s : keeps B s s.
Proof. done. Qed.

Lemma keeps_trans B s s1 s2 : keeps B s s1 -> keeps B s1 s2 -> keeps B s s2.
Proof.
  intros [(E1 & E2 & E3 & E4) H] [(G1 & G2 & G3 & G4) H']. split; [unfold same_books; by rewrite G1, G2, G3, G4|]. intros y n a Hb.
  destruct (H y n a Hb) as [H1 H2], (H' y n a Hb) as [H3 H4]. split; intros Ha; [by rewrite H3, H1|by rewrite H4, H2].
Qed.

Lemma keeps_mono B B' s s' : (forall y n r, B' y = Some (n, Some r) -> B y = Some (n, Some r)) -> keeps B s s' -> keeps B' s s'.
Proof. intros Hm [H1 H2]. split; [done|]. intros y n a [r Hr]. apply H2. exists r. by apply Hm. Qed.

Lemma keeps_map B m s s' : keeps B s s' -> keeps B s (set_block_map m s').
Proof. done. Qed.
Lemma keeps_slabs B l s s' : keeps B s s' -> keeps B s (set_slabs l s').
Proof. done. Qed.

Lemma keeps_bb B s s' a v : safe_bb B a -> keeps B s s' -> keeps B s (set_bb a v s').
Proof.
  intros Ha H. apply (keeps_trans B s s'); [done|]. split; [done|]. intros y n x Hb. split; [|done]. intros Hx. cbn.
  destruct (Z.eqb_spec x a) as [->|]; [|done]. by destruct (Ha y n Hb).
Qed.
Lemma keeps_blk B s s' a v : safe_blk B a -> keeps B s s' -> keeps B s (set_blk a v s').
Proof.
  intros Ha H. apply (keeps_trans B s s'); [done|]. split; [done|]. intros y n x Hb. split; [done|]. intros Hx. cbn.
  destruct (Z.eqb_spec x a) as [->|]; [|done]. by destruct (Ha y n Hb).
Qed.
Lemma keeps_before B s s' a v : safe_bb B a -> keeps B s s' -> keeps B s (set_before a v s').
Proof. apply keeps_bb. Qed.
Lemma keeps_after B s s' a v : safe_bb B a -> keeps B s s' -> keeps B s (set_after a v s').
Proof. apply keeps_bb. Qed.
Lemma keeps_next B s s' a v : safe_blk B a -> keeps B s s' -> keeps B s (set_fb_next a v s').
Proof. apply keeps_blk. Qed.
Lemma keeps_prev B s s' a v : safe_blk B a -> keeps B s s' -> keeps B s (set_fb_prev a v s').
Proof. apply keeps_blk. Qed.
Lemma keeps_ref B s s' a v : safe_blk B a -> keeps B s s' -> keeps B s (set_fb_ref a v s').
Proof. apply keeps_blk. Qed.
Lemma keeps_clear B s s' a : safe_blk B a -> keeps B s s' -> keeps B s (clear_links a s').
Proof. intros Ha H. by apply keeps_blk, keeps_blk. Qed.

Create HintDb keeps.
#[export] Hint Resolve keeps_refl keeps_map keeps_slabs keeps_bb keeps_blk keeps_before keeps_after keeps_next keeps_prev keeps_ref keeps_clear : keeps.

(** The tags around a block. *)
Lemma tag_safe s B x m v : binv s B -> B x = Some (m, v) -> safe_bb B (x - 8) /\ safe_bb B (x + m).
Proof.
  intros Hb Hx. split; intros y n [r Hy]; (destruct (Z.eq_dec y x) as [->|E]; [assert (n = m) as -> by congruence; lia|]);
    destruct (block_apart Hb x m v y n (Some r) Hx Hy E); pose proof (b_size _ _ Hb _ _ _ Hx) as [? _]; unfold sizeof_FreeBlock in *; lia.
Qed.

(** The inside of a free block. *)
Lemma free_safe s B x m a : binv s B -> B x = Some (m, None) -> x <= a -> (a <= x + m -> safe_bb B a) /\ (a <= x + m - 24 -> safe_blk B a).
Proof.
  intros Hb Hx Hlo. split; intros Hhi y n [r Hy]; (destruct (Z.eq_dec y x) as [->|E]; [congruence|]);
    destruct (block_apart Hb x m None y n (Some r) Hx Hy E); lia.
Qed.

Lemma free_safe_start s B x m : binv s B -> B x = Some (m, None) -> safe_blk B x.
Proof.
  intros Hb Hx. apply (free_safe s B x m x Hb Hx); [lia|]. pose proof (b_size _ _ Hb _ _ _ Hx) as [? _]. unfold sizeof_FreeBlock in *. lia.
Qed.

(** ** Rings *)

(** A member of a ring and its neighbours there are free blocks. *)
Lemma ring_safe s B F loose k x : sinv s B F loose -> x ∈ F k ->
  safe_blk B x /\ safe_blk B (fb_next (blk s x)) /\ safe_blk B (fb_prev (blk s x)).
Proof.
  intros [Hb Hr] Hx. assert (Hfree : forall y, y ∈ F k -> safe_blk B y)
    by (intros y Hy; apply (r_free _ _ _ _ Hr) in Hy as [Hy _]; by apply (free_safe_start s B y k)).
  apply list_elem_of_split in Hx as (l1 & l2 & E). pose proof (r_ring _ _ _ _ Hr k) as Hri. rewrite E in Hri. apply ring_rotate in Hri.
  destruct (ring_ends_in _ _ _ Hri) as [Hn Hp].
  assert (Hsub : forall y, y ∈ x :: l2 ++ l1 -> y ∈ F k) by (intros y; rewrite E, elem_of_cons, !elem_of_app, elem_of_cons; tauto).
  split; [apply Hfree, Hsub, list_elem_of_here|]. split; by apply Hfree, Hsub.
Qed.

Lemma take_entry_spec s B F loose k x l1 l2 m : sinv s B F loose -> F k = l1 ++ x :: l2 -> bm_sorted m ->
  (forall k', bm_find k' m = if k' =? k then head (l1 ++ l2) else bm_find k' (m_block_map s)) ->
  sinv (unlink x (set_block_map m s)) B (put_ring k (l1 ++ l2) F) (x :: loose) /\ keeps B s (unlink x (set_block_map m s)).
Proof.
  intros H Hk Hm Hf. pose proof H as [Hb Hr]. split; [split; [by apply (binv_ext s)|by apply (rinv_take s B F loose k x l1 l2 m)]|].
  destruct (ring_safe s B F loose k x H) as (S1 & S2 & S3); [rewrite Hk; apply elem_of_app; right; apply list_elem_of_here|].
  unfold unlink. auto with keeps.
Qed.

(** The header of a ring moves on, or the ring goes. *)
Lemma header_map s B F loose k x l : sinv s B F loose -> F k = x :: l ->
  let m := if fb_next (blk s x) =? x then bm_erase k (m_block_map s) else bm_set k (fb_next (blk s x)) (m_block_map s) in
  bm_sorted m /\ forall k', bm_find k' m = if k' =? k then head l else bm_find k' (m_block_map s).
Proof.
  intros [_ Hr] Hk. pose proof (r_ring _ _ _ _ Hr k) as Hri. pose proof (r_nodup _ _ _ _ Hr k) as Hnd. rewrite Hk in Hri, Hnd.
  destruct (ring_ends _ _ _ Hri) as [-> _]. destruct l as [|h l].
  - cbn. rewrite Z.eqb_refl. apply bm_erase_spec, (r_sorted _ _ _ _ Hr).
  - change (default x (head (h :: l))) with h. apply list.NoDup_cons in Hnd as [Hnd _]. rewrite (proj2 (Z.eqb_neq h x)).
    + apply bm_set_spec, (r_sorted _ _ _ _ Hr).
    + intros ->. apply Hnd, list_elem_of_here.
Qed.

Lemma pop_spec s B F k x it sz : sinv s B F [] -> bm_find k (m_block_map s) = Some x ->
  exists s' F', pop_freelist_entry (mkFL sz ((k, x) :: it)) s = Ok (x, s') /\ B x = Some (k, None) /\
    sinv s' B F' [x] /\ keeps B s s'.
Proof.
  intros H Hf. pose proof H as [_ Hr]. rewrite (r_map _ _ _ _ Hr) in Hf. destruct (F k) as [|h l] eqn:Hk; [done|]. injection Hf as ->.
  destruct (header_map s B F [] k x l H Hk) as [Hm1 Hm2]. cbv zeta in Hm1, Hm2.
  eexists _, _. split; [|split; [|exact (take_entry_spec s B F [] k x [] l _ H Hk Hm1 Hm2)]].
  - unfold pop_freelist_entry. cbn [fl_it]. by destruct (fb_next (blk s x) =? x).
  - apply (r_free _ _ _ _ Hr). rewrite Hk. apply list_elem_of_here.
Qed.

Lemma remove_spec s B F loose e n : sinv s B F loose -> B e = Some (n, None) -> e ∉ loose ->
  exists s' F', remove_freelist_entry e s = Ok s' /\ sinv s' B F' (e :: loose) /\ keeps B s s'.
Proof.
  intros H He Hl. pose proof H as [Hb Hr]. unfold remove_freelist_entry.
  destruct (b_tags _ _ Hb _ _ _ He) as [Ht _]. cbn in Ht. change (block_after_size (bb s (bb_before e))) with (after s (e - 8)). rewrite Ht.
  assert (Hin : e ∈ F n) by (by apply (r_free _ _ _ _ Hr)). rewrite (r_map _ _ _ _ Hr).
  destruct (F n) as [|h l] eqn:Hk; [by apply elem_of_nil in Hin|]. cbn [head]. destruct (Z.eqb_spec h e) as [->|Ehe].
  - destruct (header_map s B F loose n e l H Hk) as [Hm1 Hm2]. cbv zeta in Hm1, Hm2.
    eexists _, _. split; [|exact (take_entry_spec s B F loose n e [] l _ H Hk Hm1 Hm2)]. by destruct (fb_next (blk s e) =? e).
  - apply elem_of_cons in Hin as [->|Hin]; [done|]. apply list_elem_of_split in Hin as (l1 & l2 & ->).
    eexists _, _. split; [|apply (take_entry_spec s B F loose n e (h :: l1) l2 (m_block_map s) H Hk)].
    + by destruct s.
    + apply (r_sorted _ _ _ _ Hr).
    + intros k'. destruct (Z.eqb_spec k' n) as [->|]; [|done]. by rewrite (r_map _ _ _ _ Hr), Hk.
Qed.

Lemma push_keeps s B F loose x n : sinv s B F loose -> B x = Some (n, None) -> keeps B s (push_freelist_entry x s).
Proof.
  intros H Hx. pose proof H as [Hb Hr]. pose proof (free_safe_start s B x n Hb Hx) as S0. unfold push_freelist_entry.
  destruct (bm_find _ (m_block_map s)) as [h|] eqn:E; [|auto with keeps].
  set (k := block_after_size _) in E. rewrite (r_map _ _ _ _ Hr) in E. apply head_Some_elem_of in E.
  destruct (ring_safe s B F loose k h H E) as (S1 & _ & S2). cbn [set_fb_prev set_fb_next set_blk set_block_map blk fb_prev fb_next m_block_map].
  rewrite !Z.eqb_refl. cbn [fb_prev fb_next]. apply keeps_prev; [|apply keeps_next; [|auto with keeps]].
  - by repeat match goal with |- context [?a =? ?b] => destruct (Z.eqb_spec a b); subst; cbn [fb_prev fb_next] end.
  - by repeat match goal with |- context [?a =? ?b] => destruct (Z.eqb_spec a b); subst; cbn [fb_prev fb_next] end.
Qed.

Lemma push_spec s B F loose loose' x n : sinv s B F loose -> x ∈ loose -> B x = Some (n, None) ->
  (forall y, y ∈ loose' <-> y ∈ loose /\ y <> x) ->
  exists F', sinv (push_freelist_entry x s) B F' loose' /\ keeps B s (push_freelist_entry x s).
Proof.
  intros H Hx Hn Hl. pose proof (push_keeps s B F loose x n H Hn) as E3. destruct H as [Hb Hr]. destruct (b_tags _ _ Hb _ _ _ Hn) as [Ht _]. cbn in Ht.
  assert (E : m_slabs (push_freelist_entry x s) = m_slabs s /\ bb (push_freelist_entry x s) = bb s)
    by (unfold push_freelist_entry; by destruct (bm_find _ _)).
  destruct E as (E1 & E2). eexists. split; [|done]. split; [apply (binv_ext s); [done|done|apply E3|done]|].
  by apply (rinv_push s B F loose loose' n x).
Qed.

(** ** Tags *)

Lemma mark_allocated_spec s B F loose loose' x n r : sinv s B F loose -> x ∈ loose -> B x = Some (n, None) ->
  fix_size r <= n <= fix_size r + 32 -> (forall y, y ∈ loose' <-> y ∈ loose /\ y <> x) ->
  exists s', mark_allocated x s = Ok s' /\ sinv s' (put_block x (Some (n, Some r)) B) F loose' /\ keeps B s s' /\ blk s' = blk s.
Proof.
  intros [Hb Hr] Hx Hn Hreq Hl. destruct (b_tags _ _ Hb _ _ _ Hn) as [Ht1 Ht2]. cbn in Ht1, Ht2.
  destruct (b_size _ _ Hb _ _ _ Hn) as [Hn24 _]. unfold sizeof_FreeBlock in Hn24.
  unfold mark_allocated, bb_after. change (block_after_size (bb s (bb_before x))) with (after s (x - 8)). rewrite Ht1.
  rewrite (proj2 (Z.ltb_lt 0 n)) by lia. cbn [check mbind result_bind].
  set (s1 := set_after (bb_before x) (0 - n) s).
  assert (E1 : block_before_size (bb s1 (x + n)) = n).
  { unfold s1, set_after. cbn. unfold before in Ht2. by destruct (x + n =? bb_before x) eqn:E; [apply Z.eqb_eq in E as <-|]. }
  rewrite E1, (proj2 (Z.ltb_lt 0 n)) by lia. cbn [check mbind result_bind]. eexists. split; [reflexivity|].
  destruct (tag_safe s B x n None Hb Hn) as [T1 T2].
  split; [|split; [apply keeps_before; [exact T2|]; apply keeps_after; [exact T1|]; apply keeps_refl|done]]. split.
  - apply (retag Hb) with (u := None); try done.
    + intros a. unfold after, s1, set_before, set_after, bb_before, sizeof_BetweenBlocks. cbn.
      destruct (Z.eqb_spec a (x + n)) as [->|]; cbn; destruct (Z.eqb_spec (x + n) (x - 8)); try lia; by destruct (a =? x - 8).
    + intros a. unfold before, s1, set_before, set_after, bb_before, sizeof_BetweenBlocks. cbn.
      destruct (Z.eqb_spec a (x + n)) as [->|]; cbn; [lia|]. by destruct (Z.eqb_spec a (x - 8)) as [->|].
    + by intros r' [= <-].
  - apply (rinv_blocks s _ B _ F loose); try done.
    + intros k y. rewrite Hl. unfold put_block. destruct (Z.eqb_spec y x) as [->|]; [|tauto]. split; [by intros [[=] _]|tauto].
    + intros y k. unfold put_block. destruct (Z.eqb_spec y x) as [->|]; [by intros [=]|]. intros Hy. by apply (r_ref _ _ _ _ Hr y k).
Qed.

(** Decides the reads of a tag after a sequence of writes. *)
Ltac tags :=
  intros; unfold after, before, set_before, set_after, set_bb, bb_before, sizeof_BetweenBlocks in *; cbn [bb block_before_size block_after_size];
  repeat (match goal with |- context [?a =? ?b] => destruct (Z.eqb_spec a b); try (exfalso; lia); try subst a; cbn [bb block_before_size block_after_size] end);
  try lia; try congruence.

Lemma after_set_after a v x s : after (set_after a v s) x = if x =? a then v else after s x.
Proof. tags. Qed.
Lemma after_set_before a v x s : after (set_before a v s) x = after s x.
Proof. tags. Qed.
Lemma before_set_before a v x s : before (set_before a v s) x = if x =? a then v else before s x.
Proof. tags. Qed.
Lemma before_set_after a v x s : before (set_after a v s) x = before s x.
Proof. tags. Qed.

Lemma block_after_pos b s : 0 < after s b -> block_after b s = b + 8.
Proof. intros H. unfold block_after. fold (after s b). by rewrite (proj2 (Z.leb_gt (after s b) 0)) by lia. Qed.

Lemma mark_freed_spec s B F loose x n r : sinv s B F loose -> B x = Some (n, Some r) ->
  exists s', mark_freed x (fix_size r) s = Ok s' /\
    sinv (set_fb_ref x x s') (put_block x (Some (n, None)) B) F (x :: loose) /\ keeps B s s'.
Proof.
  intros [Hb Hr] Hn. destruct (b_tags _ _ Hb _ _ _ Hn) as [Ht1 Ht2]. cbn in Ht1, Ht2.
  destruct (b_size _ _ Hb _ _ _ Hn) as [Hn24 _]. unfold sizeof_FreeBlock in Hn24. pose proof (b_req _ _ Hb _ _ _ Hn) as Hreq.
  unfold mark_freed, bb_after. change (block_after_size (bb s (bb_before x))) with (after s (x - 8)). rewrite Ht1, Z.opp_involutive.
  rewrite (proj2 (Z.ltb_lt (- n) 0)) by lia. cbn [check mbind result_bind]. unfold sizeof_FreeBlock, sizeof_BetweenBlocks.
  rewrite (proj2 (Z.leb_le (fix_size r) n)), (proj2 (Z.leb_le n (fix_size r + (24 + 8)))) by lia. cbn [andb check mbind result_bind].
  set (s1 := set_after (bb_before x) n s).
  assert (E1 : block_after_size (bb s1 (bb_before x)) = n) by (unfold s1; tags). rewrite E1.
  assert (E2 : block_before_size (bb s1 (x + n)) = - n) by (unfold s1; tags). rewrite E2.
  rewrite (proj2 (Z.ltb_lt (- n) 0)), (proj2 (Z.eqb_eq (- - n) n)) by lia. cbn [check mbind result_bind].
  eexists. split; [reflexivity|]. destruct (tag_safe s B x n (Some r) Hb Hn) as [T1 T2].
  split; [|apply keeps_before; [exact T2|]; apply keeps_after; [exact T1|]; apply keeps_refl]. split.
  - apply (retag Hb) with (u := Some r); try done.
    + intros a. change (after (set_fb_ref x x (set_before (x + n) n s1)) a) with (after (set_before (x + n) n s1) a).
      unfold s1. rewrite after_set_before, after_set_after. done.
    + intros a. change (before (set_fb_ref x x (set_before (x + n) n s1)) a) with (before (set_before (x + n) n s1) a).
      unfold s1. rewrite before_set_before, before_set_after. done.
  - apply (rinv_blocks s _ B _ F loose); try done.
    + intros k y Hy. cbn. rewrite (proj2 (Z.eqb_neq y x)); [done|]. intros ->. apply (r_free _ _ _ _ Hr) in Hy. destruct Hy. congruence.
    + intros k y. unfold put_block. rewrite not_elem_of_cons. destruct (Z.eqb_spec y x) as [->|]; [|tauto]. split; [tauto|]. intros [? _]. congruence.
    + intros y k. unfold put_block. cbn. destruct (Z.eqb_spec y x) as [->|]; [done|]. apply (r_ref _ _ _ _ Hr).
Qed.

Lemma break_refs s x r v y : r <> x -> fb_ref (blk (clear_links x (clear_links r (set_fb_ref r v s))) y) = if y =? r then v else fb_ref (blk s y).
Proof.
  intros Hne. unfold clear_links, set_fb_next, set_fb_prev, set_fb_ref. cbn.
  repeat match goal with |- context [?a =? ?b] => destruct (Z.eqb_spec a b); subst; cbn; try congruence end; try done.
Qed.

Lemma break_keeps s B x n new rem v s' : binv s B -> B x = Some (n, None) -> 0 <= new -> 24 <= rem -> n = new + 8 + rem ->
  s' = set_after (x + new) rem (set_before (x + new) new (set_after (bb_before x) new (set_before (x + n) rem s))) ->
  keeps B s (clear_links x (clear_links (x + new + 8) (set_fb_ref (x + new + 8) v s'))).
Proof.
  intros Hb Hx Hnew Hrem Hn ->. destruct (tag_safe s B x n None Hb Hx) as [T1 T2].
  destruct (free_safe s B x n (x + new) Hb Hx ltac:(lia)) as [T3 _]. destruct (free_safe s B x n (x + new + 8) Hb Hx ltac:(lia)) as [_ T4].
  specialize (T3 ltac:(lia)). specialize (T4 ltac:(lia)). pose proof (free_safe_start s B x n Hb Hx) as T5.
  change (safe_bb B (bb_before x)) in T1. auto 20 with keeps.
Qed.

Lemma break_spec s B F loose x n new : sinv s B F loose -> x ∈ loose -> B x = Some (n, None) -> 24 <= new -> new mod 8 = 0 -> new + 32 <= n ->
  exists s', break_block x new s = (Some (x + new + 8), s') /\
    sinv s' (split_blocks (B := B) x new (n - (new + 8))) F (x + new + 8 :: loose) /\ keeps B s s'.
Proof.
  intros [Hb Hr] Hx Hn H24 H8 Hfit. destruct (b_tags _ _ Hb _ _ _ Hn) as [Ht1 Ht2]. cbn in Ht1, Ht2.
  unfold break_block, size_from_block, bb_after. change (block_after_size (bb s (bb_before x))) with (after s (x - 8)). rewrite Ht1.
  unfold sizeof_FreeBlock, sizeof_BetweenBlocks. set (rem := n - (new + 8)). rewrite (proj2 (Z.ltb_ge rem 24)) by lia.
  set (s1 := set_after (bb_before x) new (set_before (x + n) rem s)).
  assert (E1 : block_after_size (bb s1 (bb_before x)) = new) by (unfold s1; tags). rewrite E1.
  set (s2 := set_after (x + new) rem (set_before (x + new) new s1)). rewrite (block_after_pos (x + new) s2) by (unfold s2; rewrite after_set_after, Z.eqb_refl; lia).
  eexists. split; [reflexivity|]. split; [|apply (break_keeps s B x n new rem); [done|done|lia|lia|lia|done]].
  assert (Hsec : is_Some (split_blocks (B := B) x new rem x)) by (rewrite split_first; [by eexists|lia]).
  split.
  - apply (split_binv Hb) with (n := n); try done; try lia.
    + intros a. transitivity (after s2 a); [done|]. unfold s2, s1. rewrite after_set_after, after_set_before, after_set_after, after_set_before.
      unfold bb_before, sizeof_BetweenBlocks. destruct (Z.eqb_spec a (x + new)), (Z.eqb_spec a (x - 8)); done || lia.
    + intros a. transitivity (before s2 a); [done|]. unfold s2, s1. rewrite before_set_after, before_set_before, before_set_after, before_set_before. done.
  - assert (Hout : forall k, B (x + new + 8) <> Some (k, None)).
    { intros k Hk. pose proof (b_size _ _ Hb _ _ _ Hk). unfold sizeof_FreeBlock in *.
      destruct (block_apart Hb x n None _ k None Hn Hk); lia. }
    apply (rinv_blocks s _ B _ F loose); try done.
    + intros k y Hy. apply (r_free _ _ _ _ Hr) in Hy as [Hy Hl].
      assert (y <> x /\ y <> x + new + 8) as [N1 N2] by (split; intros ->; [done|by eapply Hout]).
      cbn. by rewrite (proj2 (Z.eqb_neq y x)), (proj2 (Z.eqb_neq y (x + new + 8))).
    + intros k y. unfold split_blocks, put_block. rewrite not_elem_of_cons. destruct (Z.eqb_spec y (x + new + 8)) as [->|].
      * split; [tauto|]. intros [Hy _]. by apply Hout in Hy.
      * destruct (Z.eqb_spec y x) as [->|]; tauto.
    + intros y k Hy. rewrite break_refs by lia. change (blk s2 x) with (blk s x). change (blk s2 y) with (blk s y).
      destruct (split_cases Hb x n new rem Hn y k None Hy) as [(-> & _)|[(-> & _)|[Hy' _]]].
      * rewrite (proj2 (Z.eqb_neq x (x + new + 8))) by lia. by apply (r_ref _ _ _ _ Hr x n).
      * rewrite Z.eqb_refl, (r_ref _ _ _ _ Hr x n Hn). lia.
      * rewrite (proj2 (Z.eqb_neq y (x + new + 8))); [by apply (r_ref _ _ _ _ Hr y k)|]. intros ->. by apply Hout in Hy'.
Qed.

Lemma merge_spec s B F loose loose' x n m : sinv s B F loose -> x ∈ loose -> x + n + 8 ∈ loose ->
  B x = Some (n, None) -> B (x + n + 8) = Some (m, None) -> (forall y, y ∈ loose' <-> y ∈ loose /\ y <> x + n + 8) ->
  exists s', merge_blocks x (x + n + 8) s = (x, s') /\ sinv s' (merge_map (B := B) x n m) F loose' /\ keeps B s s'.
Proof.
  intros [Hb Hr] Hx Hf Hn Hm Hl. destruct (b_tags _ _ Hb _ _ _ Hn) as [Ht1 _], (b_tags _ _ Hb _ _ _ Hm) as [Ht2 _]. cbn in Ht1, Ht2.
  destruct (b_size _ _ Hb _ _ _ Hn) as [Hn24 _]. unfold sizeof_FreeBlock in Hn24.
  unfold merge_blocks, size_from_block, bb_after. change (block_after_size (bb s (bb_before x))) with (after s (x - 8)).
  change (block_after_size (bb s (bb_before (x + n + 8)))) with (after s (x + n + 8 - 8)). rewrite Ht1, Ht2. unfold sizeof_BetweenBlocks.
  set (s1 := set_after (bb_before x) (n + m + 8) s).
  assert (E1 : block_after_size (bb s1 (bb_before (x + n + 8))) = m).
  { change (after s1 (x + n + 8 - 8) = m). unfold s1. rewrite after_set_after. unfold bb_before, sizeof_BetweenBlocks.
    by rewrite (proj2 (Z.eqb_neq (x + n + 8 - 8) (x - 8))) by lia. }
  rewrite E1. eexists. split; [reflexivity|]. destruct (tag_safe s B x n None Hb Hn) as [T1 _], (tag_safe s B _ m None Hb Hm) as [_ T2].
  split; [|apply keeps_before; [exact T2|]; apply keeps_after; [exact T1|]; apply keeps_refl]. split.
  - apply (merge_binv Hb); try done; unfold s1; intros a.
    + by rewrite after_set_before, after_set_after.
    + rewrite before_set_before, before_set_after. by replace (x + n + 8 + m) with (x + (n + m + 8)) by lia.
  - apply (rinv_blocks s _ B _ F loose); try done.
    + intros k y. rewrite Hl. unfold merge_map, put_block. destruct (Z.eqb_spec y x) as [->|E]; [|destruct (Z.eqb_spec y (x + n + 8)) as [->|]].
      * split; [intros [_ G]; destruct G; split; [done|lia]|tauto].
      * split; [by intros [[=] _]|tauto].
      * tauto.
    + intros y k Hy. destruct (merge_cases Hb x n m Hn Hm y k None Hy) as [(-> & _)|[Hy' _]]; by eapply (r_ref _ _ _ _ Hr).
Qed.

(** ** Slabs *)

Lemma slab_entry_keeps st n v s B s' : (forall y k, busy B y k -> y + k + 8 <= st) -> 0 <= n ->
  s' = set_fb_ref (st + 8) v (clear_links (st + 8) (set_bb st (mkBB 0 n) s)) -> keeps B s (set_bb (st + 8 + n) (mkBB n 0) s').
Proof.
  intros Hlow Hn ->. assert (Hs : forall a, st <= a -> safe_bb B a /\ safe_blk B a)
    by (intros a Ha; split; intros y k Hb; pose proof (Hlow y k Hb); lia).
  apply keeps_bb; [apply Hs; lia|]. apply keeps_ref; [apply Hs; lia|]. apply keeps_clear; [apply Hs; lia|]. apply keeps_bb; [apply Hs; lia|]. apply keeps_refl.
Qed.

Lemma slab_entry_spec s B F loose sl : sinv s B F loose ->
  slab_start sl = next_start (align_size_to_section_boundary (m_baseline s)) (m_slabs s) ->
  minimal_alloc <= slab_size sl <= maximal_alloc /\ slab_size sl mod 8 = 0 /\ ref_end sl < 2 ^ 64 ->
  exists s', slab_to_entry sl (slab_start sl) s = (slab_start sl + 8, s') /\
    m_slabs s' = m_slabs s /\ keeps B s s' /\
    B (slab_start sl + 8) = None /\
    sinv (set_slabs (m_slabs s ++ [sl]) s') (put_block (slab_start sl + 8) (Some (slab_size sl - 16, None)) B) F (slab_start sl + 8 :: loose).
Proof.
  intros [Hb Hr] Hst Hsl. destruct Hsl as (Hs & Hs8 & H64). set (st := slab_start sl) in *.
  assert (Hend : ref_end sl = st + slab_size sl) by (unfold st, slab_start; lia). unfold slab_to_entry, bb_after, sizeof_BetweenBlocks.
  replace (ref_end sl - st - 2 * 8) with (slab_size sl - 16) by lia. set (n := slab_size sl - 16).
  rewrite block_after_pos by (unfold after; cbn; rewrite Z.eqb_refl; unfold n, minimal_alloc in *; cbn; lia).
  set (s1 := set_fb_ref _ _ _). assert (E1 : block_after_size (bb s1 (bb_before (st + 8))) = n).
  { change (block_after_size (if st + 8 - 8 =? st then mkBB 0 n else bb s (st + 8 - 8)) = n). by rewrite (proj2 (Z.eqb_eq (st + 8 - 8) st)) by lia. }
  rewrite E1. assert (Hnew : B (st + 8) = None).
  { destruct (B (st + 8)) as [[k v]|] eqn:E; [|done]. pose proof (below_new Hb sl Hst _ _ _ E) as Hlow. fold st in Hlow.
    pose proof (b_size _ _ Hb _ _ _ E). unfold sizeof_FreeBlock in *. lia. }
  eexists. split; [reflexivity|]. split; [done|]. split.
  { apply slab_entry_keeps with (v := st + 8); [|unfold n, minimal_alloc in *; lia|done]. intros y k [r Hy]. by apply (below_new Hb sl Hst y k (Some r)). }
  split; [done|]. unfold minimal_alloc in Hs. split.
  - assert (Ea : forall a, bb (set_bb (st + 8 + n) (mkBB n 0) s1) a = if a =? st + 8 + n then mkBB n 0 else if a =? st then mkBB 0 n else bb s a) by done.
    replace (st + 8 + n) with (ref_end sl - 8) in * by lia.
    apply (grow_binv Hb _ sl Hst); try done; intros a; unfold after, before; change (bb (set_slabs ?l ?t)) with (bb t); rewrite Ea; fold st;
      destruct (a =? ref_end sl - 8); try done; by destruct (a =? st).
  - apply (rinv_blocks s _ B _ F loose); try done.
    + intros k y Hy. apply (r_free _ _ _ _ Hr) in Hy as [Hy _]. assert (y <> st + 8) by (intros ->; congruence).
      cbn. by rewrite (proj2 (Z.eqb_neq y (st + 8))).
    + intros k y. unfold put_block. rewrite not_elem_of_cons. destruct (Z.eqb_spec y (st + 8)) as [->|]; [|tauto]. split; [tauto|]. intros [? _]. congruence.
    + intros y k. unfold put_block. cbn. unfold sizeof_BetweenBlocks. destruct (Z.eqb_spec y (st + 8)) as [->|]; [done|]. apply (r_ref _ _ _ _ Hr).
Qed.
