(* ===== verification/SlabSteps.v ===== *)
(** * The slab allocator: allocation, release and rebuilding *)

From S2P Require Import Prelude FreeList FreeListAlloc SlabAlloc SlabBlocks SlabInv SlabOps.

(** Free blocks are never neighbours. *)
Definition nofrag (B : Blocks) : Prop := forall e n m, B e = Some (n, None) -> B (e + n + 8) <> Some (m, None).

(** The blocks in use. *)
Definition used (B : Blocks) (x n r : Z) : Prop := B x = Some (n, Some r).

Definition ready (s : SlabAlloc) (B : Blocks) : Prop := (exists F, sinv s B F []) /\ nofrag B.

(** ** Growing *)

Lemma grow_loop_spec (fuel : nat) : forall new_size size, minimal_alloc <= new_size -> new_size mod 8 = 0 -> size <= new_size + minimal_alloc * Z.of_nat fuel ->
  let r := grow_loop fuel new_size size in size <= r /\ minimal_alloc <= r /\ r mod 8 = 0.
Proof.
  unfold minimal_alloc. induction fuel as [|fuel IH]; intros new_size size Hm H8 Hf; cbn [grow_loop]; [lia|].
  destruct (Z.ltb_spec new_size size); [|lia]. apply IH; [unfold minimal_alloc; lia|unfold minimal_alloc; dlia|unfold minimal_alloc; lia].
Qed.

Lemma slab_sum start l : slabs_ok start l -> sumf slab_size l mod 8 = 0.
Proof.
  revert start. induction l as [|e l IH]; intros start Hl; [done|]. destruct Hl as (_ & _ & H8 & _ & Hl). cbn [sumf].
  specialize (IH _ Hl). dlia.
Qed.

Definition grown_size (size : Z) (s : SlabAlloc) : Z :=
  Z.min maximal_alloc (Z.max (grow_loop (Z.to_nat ((size + 16) / minimal_alloc)) minimal_alloc (size + 16)) (get_allocated_size s)).

Lemma grown_size_spec s B size : binv s B -> 0 <= size <= maximal_alloc - 16 ->
  size + 16 <= grown_size size s /\ minimal_alloc <= grown_size size s <= maximal_alloc /\ grown_size size s mod 8 = 0.
Proof.
  intros Hb Hsz. unfold grown_size. pose proof (slab_sum _ _ (b_slabs _ _ Hb)) as H8. fold (get_allocated_size s) in H8.
  destruct (grow_loop_spec (Z.to_nat ((size + 16) / minimal_alloc)) minimal_alloc (size + 16)) as (G1 & G2 & G3); [done|done| |].
  - unfold minimal_alloc. rewrite Z2Nat.id by dlia. dlia.
  - unfold maximal_alloc, section_shift, minimal_alloc in *. change (2 ^ 26) with 67108864 in *. split; [lia|]. split; [lia|].
    destruct (Z.min_spec 67108864 (Z.max (grow_loop (Z.to_nat ((size + 16) / (128 * 1024))) (128 * 1024) (size + 16)) (get_allocated_size s))) as [[_ ->]|[_ ->]]; [done|].
    destruct (Z.max_spec (grow_loop (Z.to_nat ((size + 16) / (128 * 1024))) (128 * 1024) (size + 16)) (get_allocated_size s)) as [[_ ->]|[_ ->]]; done.
Qed.

Lemma grow_slab_eq size s : grow_slab size s =
  let st := next_start (align_size_to_section_boundary (m_baseline s)) (m_slabs s) in
  if 2 ^ 64 <=? st + grown_size size s then Throw MaximumFileSizeExceeded
  else Ok (slab_to_entry (mkSlab (st + grown_size size s) (grown_size size s)) st
         (set_slabs (m_slabs s ++ [mkSlab (st + grown_size size s) (grown_size size s)]) s)).
Proof.
  unfold grow_slab, sizeof_BetweenBlocks. change (2 * 8) with 16. cbv zeta.
  set (g := grow_loop _ _ _). assert (E : (if maximal_alloc <? (if g <? get_allocated_size s then get_allocated_size s else g) then maximal_alloc
    else if g <? get_allocated_size s then get_allocated_size s else g) = grown_size size s).
  { unfold grown_size. fold g. destruct (Z.ltb_spec g (get_allocated_size s)).
    - rewrite Z.max_r by lia. destruct (Z.ltb_spec maximal_alloc (get_allocated_size s)); lia.
    - rewrite Z.max_l by lia. destruct (Z.ltb_spec maximal_alloc g); lia. }
  rewrite E. unfold next_start. by destruct (list.last (m_slabs s)).
Qed.

Lemma slab_to_entry_slabs sl st l s : slab_to_entry sl st (set_slabs l s) =
  ((slab_to_entry sl st s).1, set_slabs l (slab_to_entry sl st s).2).
Proof. done. Qed.

Lemma grow_slab_spec s B F size : sinv s B F [] -> 0 <= size <= maximal_alloc - 16 ->
  let st := next_start (align_size_to_section_boundary (m_baseline s)) (m_slabs s) in
  grow_slab size s = Throw MaximumFileSizeExceeded /\ 2 ^ 64 <= st + grown_size size s \/
  exists s', grow_slab size s = Ok (st + 8, s') /\ B (st + 8) = None /\ size <= grown_size size s - 16 /\
    sinv s' (put_block (st + 8) (Some (grown_size size s - 16, None)) B) F [st + 8] /\ keeps B s s'.
Proof.
  intros H Hsz st. pose proof H as [Hb _]. rewrite grow_slab_eq. fold st. cbv zeta. destruct (grown_size_spec s B size Hb Hsz) as (G1 & G2 & G3).
  set (g := grown_size size s) in *. destruct (Z.leb_spec (2 ^ 64) (st + g)); [by left|right].
  set (sl := mkSlab (st + g) g). assert (Est : slab_start sl = st) by (unfold slab_start, sl; cbn; lia).
  destruct (slab_entry_spec s B F [] sl H Est) as (s' & E1 & E2 & E3 & E4 & E5).
  { split; [done|]. split; [done|]. unfold sl. cbn. lia. }
  rewrite Est in *. exists (set_slabs (m_slabs s ++ [sl]) s'). rewrite slab_to_entry_slabs, E1. repeat (split; [done|]). split; [lia|]. split; [exact E5|exact E3].
Qed.

(** ** Allocation *)

(** [x] is a free block of [n] bytes that can be handed out. *)
Definition carved (B B' : Blocks) (x n : Z) : Prop :=
  B' x = Some (n, None) /\ (forall y m r, used B' y m r <-> used B y m r) /\ forall r, nofrag (put_block x (Some (n, Some r)) B').

Lemma nofrag_use B x n r : nofrag B -> nofrag (put_block x (Some (n, Some r)) B).
Proof.
  intros H e k m. unfold put_block. destruct (e =? x); [done|]. intros He. destruct (e + k + 8 =? x); [done|]. by apply H.
Qed.

Lemma nofrag_grow s B sl n : binv s B -> nofrag B ->
  slab_start sl = next_start (align_size_to_section_boundary (m_baseline s)) (m_slabs s) -> 0 <= n ->
  nofrag (put_block (slab_start sl + 8) (Some (n, None)) B).
Proof.
  intros Hb H Hst Hn e k m. set (st := slab_start sl) in *. assert (Hlow : forall y j v, B y = Some (j, v) -> y + j + 8 <= st /\ 24 <= j).
  { intros y j v Hy. pose proof (below_new Hb sl Hst y j v Hy). pose proof (b_size _ _ Hb _ _ _ Hy). unfold sizeof_FreeBlock in *. split; [done|lia]. }
  unfold put_block. destruct (Z.eqb_spec e (st + 8)) as [->|].
  - intros [= <-]. rewrite (proj2 (Z.eqb_neq (st + 8 + n + 8) (st + 8))) by lia. intros E. apply Hlow in E. lia.
  - intros He. pose proof (Hlow _ _ _ He). rewrite (proj2 (Z.eqb_neq (e + k + 8) (st + 8))) by lia. by apply H.
Qed.

Lemma carve_split s B x n new : binv s B -> nofrag B -> B x = Some (n, None) -> 24 <= new -> new mod 8 = 0 -> new + 32 <= n ->
  carved B (split_blocks (B := B) x new (n - (new + 8))) x new.
Proof.
  intros Hb Hf Hx Hnew H8 Hn. set (rem := n - (new + 8)). split; [apply split_first; lia|]. split.
  - intros y m r. unfold used. split; intros Hy.
    + destruct (split_cases Hb x n new rem Hx y m _ Hy) as [(_ & _ & [=])|[(_ & _ & [=])|[Hy' _]]]. done.
    + apply (split_other Hb x n new rem); [done|lia|lia|done|]. intros ->. congruence.
  - intros r e k m. unfold put_block at 1 2. destruct (Z.eqb_spec e x) as [->|Ee]; [done|]. intros He.
    destruct (Z.eqb_spec (e + k + 8) x) as [|Ex]; [done|]. intros Hk.
    destruct (split_cases Hb x n new rem Hx e k _ He) as [(-> & _)|[(-> & -> & _)|[He' Hfar]]]; [done| |].
    + replace (x + new + 8 + rem + 8) with (x + n + 8) in * by lia.
      destruct (split_cases Hb x n new rem Hx _ m _ Hk) as [(? & _)|[(? & _)|[Hk' _]]]; [lia|lia|]. by apply (Hf x n m).
    + destruct (split_cases Hb x n new rem Hx _ m _ Hk) as [(? & _)|[(? & _)|[Hk' _]]]; [done| |by apply (Hf e k m)].
      pose proof (b_size _ _ Hb _ _ _ He'). unfold sizeof_FreeBlock in *. lia.
Qed.

Lemma break_push_spec s B F x n size : sinv s B F [x] -> nofrag B -> B x = Some (n, None) -> 24 <= size -> size mod 8 = 0 -> size <= n ->
  let '(remaining, s1) := break_block x size s in
  let s2 := match remaining with Some r => push_freelist_entry r s1 | None => s1 end in
  exists B' F' k, sinv s2 B' F' [x] /\ carved B B' x k /\ size <= k <= size + 32 /\ size_from_block x s2 = k /\ keeps B s s2.
Proof.
  intros H Hf Hx H24 H8 Hn. pose proof H as [Hb _]. destruct (b_tags _ _ Hb _ _ _ Hx) as [Ht _]. cbn in Ht.
  destruct (Z.lt_ge_cases n (size + 32)) as [Hlt|Hge].
  - unfold break_block, size_from_block. change (block_after_size (bb s (bb_before x))) with (after s (x - 8)). rewrite Ht.
    unfold sizeof_BetweenBlocks, sizeof_FreeBlock. rewrite (proj2 (Z.ltb_lt (n - (size + 8)) 24)) by lia. cbv zeta.
    exists B, F, n. split; [done|]. split; [|split; [lia|done]]. split; [done|]. split; [done|]. intros r. by apply nofrag_use.
  - destruct (break_spec s B F [x] x n size H) as (s1 & -> & H1 & Hbk); [apply list_elem_of_here|done|done|done|lia|].
    pose proof (carve_split s B x n size Hb Hf Hx H24 H8 ltac:(lia)) as Hc. cbv zeta.
    destruct (push_spec s1 _ F _ [x] (x + size + 8) (n - (size + 8)) H1) as (F' & H2 & Hbk2).
    + apply list_elem_of_here.
    + apply split_second.
    + intros y. rewrite !elem_of_cons, elem_of_nil. split; [intros [->|[]]; split; [tauto|lia]|tauto].
    + eexists _, F', size. split; [exact H2|]. split; [done|]. split; [lia|]. split; [|apply (keeps_trans B s s1); [done|]; apply (keeps_mono _ B) in Hbk2; [done|]; intros y m r Hy; by apply Hc].
      destruct H2 as [Hb2 _]. by destruct (b_tags _ _ Hb2 _ _ _ (proj1 Hc)) as [? _].
Qed.

Definition alloc_post (size : Z) (s : SlabAlloc) (B : Blocks) (x : Z) (s' : SlabAlloc) : Prop :=
  exists B' F' n, sinv s' B' F' [x] /\ carved B B' x n /\ size <= n <= size + 32 /\ keeps B s s'.

(** The size that every slab would need exceeds the references. *)
Definition refs_exhausted (size : Z) (s : SlabAlloc) : Prop :=
  2 ^ 64 <= next_start (align_size_to_section_boundary (m_baseline s)) (m_slabs s) + grown_size size s.

Lemma carved_trans B B1 B' x n : (forall y m r, used B1 y m r <-> used B y m r) -> carved B1 B' x n -> carved B B' x n.
Proof. intros H (H1 & H2 & H3). split; [done|]. split; [|done]. intros y m r. by rewrite H2. Qed.

(** The block found, or the new slab. *)
Lemma found_spec s B F size fl : sinv s B F [] -> nofrag B -> 24 <= size <= maximal_alloc - 16 ->
  fl = find_larger (find size s) size ->
  match (if negb (fl_size fl =? 0) then pop_freelist_entry fl s else grow_slab size s) with
  | Ok (x, s1) => exists B1 F1 n, sinv s1 B1 F1 [x] /\ nofrag B1 /\ B1 x = Some (n, None) /\ size <= n /\
      (forall y m r, used B1 y m r <-> used B y m r) /\ keeps B s s1
  | Throw e => e = MaximumFileSizeExceeded /\ refs_exhausted size s
  | OutOfFuel => False
  end.
Proof.
  intros H Hf Hsz ->. pose proof H as [Hb Hr]. pose proof (bm_lower_bound_spec (size + 8 + 24) _ (r_sorted _ _ _ _ Hr)) as Hlb.
  unfold find_larger, find, sizeof_BetweenBlocks, sizeof_FreeBlock.
  pose proof (bm_lower_bound_twice size (size + 8 + 24) (m_block_map s) ltac:(lia)) as Htw.
  pose proof (bm_lower_bound_spec size _ (r_sorted _ _ _ _ Hr)) as Hlb1.
  assert (Hgrow : match grow_slab size s with Ok (x, s1) => exists B1 F1 n, sinv s1 B1 F1 [x] /\ nofrag B1 /\ B1 x = Some (n, None) /\ size <= n /\
      (forall y m r, used B1 y m r <-> used B y m r) /\ keeps B s s1
    | Throw e => e = MaximumFileSizeExceeded /\ refs_exhausted size s | OutOfFuel => False end).
  { destruct (grow_slab_spec s B F size H ltac:(lia)) as [[-> Hx]|(s1 & -> & Hno & Hge & H1 & Hbk)]; [done|].
    eexists _, _, _. split; [exact H1|]. set (st := next_start _ _) in *. split.
    - pose proof (nofrag_grow s B (mkSlab st 0) (grown_size size s - 16) Hb Hf) as G. unfold slab_start in G. cbn in G.
      rewrite Z.sub_0_r in G. apply G; [done|lia].
    - unfold used, put_block. rewrite Z.eqb_refl. split; [done|]. split; [lia|]. split; [|done]. intros y m r.
      destruct (Z.eqb_spec y (st + 8)) as [->|]; [|done]. split; [by intros [=]|congruence]. }
  destruct (bm_lower_bound size (m_block_map s)) as [|[k1 e1] it1] eqn:E1; cbn [fl_it fl_size] in *; [by cbn|].
  destruct (bm_lower_bound (size + 8 + 24) ((k1, e1) :: it1)) as [|[k e] it] eqn:E2; cbn [fl_it fl_size] in *; [by cbn|].
  rewrite <- Htw in Hlb. destruct Hlb as (Hk & Hfind & _). rewrite (proj2 (Z.eqb_neq k1 0)) by lia. cbn [negb].
  destruct (pop_spec s B F k e it k1 H Hfind) as (s' & F' & -> & HB & H' & Hbk).
  exists B, F', k. split; [done|]. split; [done|]. split; [done|]. split; [lia|]. split; [|done]. done.
Qed.

Lemma allocate_block_spec s B F size : sinv s B F [] -> nofrag B -> 24 <= size <= maximal_alloc - 16 -> size mod 8 = 0 ->
  match allocate_block size s with
  | Ok (x, s') => alloc_post size s B x s'
  | Throw e => e = MaximumFileSizeExceeded /\ refs_exhausted size s
  | OutOfFuel => False
  end.
Proof.
  intros H Hf Hsz H8. pose proof H as [Hb Hr]. unfold allocate_block. destruct (Z.eqb_spec (fl_size (find size s)) size) as [E|E].
  - pose proof (bm_lower_bound_spec size _ (r_sorted _ _ _ _ Hr)) as Hlb. revert E. unfold find.
    destruct (bm_lower_bound size (m_block_map s)) as [|[k e] it]; cbn [fl_size]; [lia|]. intros ->. destruct Hlb as (_ & Hfind & _).
    destruct (pop_spec s B F size e it size H Hfind) as (s' & F' & -> & HB & H' & Hbk).
    exists B, F', size. split; [done|]. split; [|split; [lia|done]]. split; [done|]. split; [done|]. intros r. by apply nofrag_use.
  - pose proof (found_spec s B F size _ H Hf Hsz eq_refl) as Hfound. set (fl := find_larger (find size s) size) in *.
    destruct (if negb (fl_size fl =? 0) then pop_freelist_entry fl s else grow_slab size s) as [[x s1]|e|]; [|done|done].
    destruct Hfound as (B1 & F1 & n & H1 & Hf1 & Hx & Hn & Hu & Hbk). cbn [mbind result_bind].
    pose proof (break_push_spec s1 B1 F1 x n size H1 Hf1 Hx ltac:(lia) H8 Hn) as G. destruct (break_block x size s1) as [rm s2]. cbv zeta in G.
    destruct G as (B' & F' & k & H2 & Hc & Hk & Hs & Hbk2). cbv zeta. rewrite Hs, (proj2 (Z.leb_le size k)) by lia. cbn [check mbind result_bind].
    exists B', F', k. split; [done|]. split; [by apply (carved_trans B B1)|]. split; [done|].
    apply (keeps_trans B s s1); [done|]. apply (keeps_mono B1); [|done]. intros y m r Hy. by apply Hu.
Qed.

Lemma used_merge s B x n m : binv s B -> B x = Some (n, None) -> B (x + n + 8) = Some (m, None) ->
  forall y k r, used (merge_map (B := B) x n m) y k r <-> used B y k r.
Proof.
  intros Hb Hx Hm y k r. unfold used. split; intros Hy.
  - destruct (merge_cases Hb x n m Hx Hm y k _ Hy) as [(_ & _ & [=])|[Hy' _]]. done.
  - apply merge_other; [done| |]; intros ->; congruence.
Qed.

(** ** Release *)

Lemma prev_spec s B x n u : binv s B -> B x = Some (n, u) ->
  match get_prev_block_if_mergeable x s with
  | Some p => exists m, B p = Some (m, None) /\ p + m + 8 = x
  | None => forall p m, B p = Some (m, None) -> p + m + 8 <> x
  end.
Proof.
  intros Hb Hx. unfold get_prev_block_if_mergeable, block_before, bb_before, sizeof_BetweenBlocks. fold (before s (x - 8)).
  destruct (b_left _ _ Hb _ _ _ Hx) as [(p & m & v & Hp & <-)|(-> & Hno & _)]; [|cbn; intros p m Hp; by apply (Hno p m None)].
  replace (p + m + 8 - 8) with (p + m) by lia. destruct (b_tags _ _ Hb _ _ _ Hp) as [_ ->]. pose proof (b_size _ _ Hb _ _ _ Hp) as [H24 _].
  unfold sizeof_FreeBlock in H24. destruct v as [r|]; cbn [sg].
  - rewrite (proj2 (Z.leb_le (- m) 0)) by lia. intros p' m' Hp' E. assert (p' = p) as -> by (apply (right_tag_inj Hb p' m' None p m (Some r)); [done|done|lia]). congruence.
  - rewrite (proj2 (Z.leb_gt m 0)) by lia. destruct (block_range Hb p m None Hp) as (R1 & R2 & _). pose proof (b_base _ _ Hb).
    replace (block_before_size (bb s (p + m))) with m by (destruct (b_tags _ _ Hb _ _ _ Hp) as [_ Ht]; symmetry; exact Ht).
    rewrite (u64_small m), (proj2 (Z.leb_gt m 0)), u64_small by lia. exists m. replace (p + m - m) with p by lia. done.
Qed.

Lemma next_spec s B x n : binv s B -> B x = Some (n, None) ->
  match get_next_block_if_mergeable x s with
  | Some p => p = x + n + 8 /\ exists m, B p = Some (m, None)
  | None => forall m, B (x + n + 8) <> Some (m, None)
  end.
Proof.
  intros Hb Hx. unfold get_next_block_if_mergeable, bb_after, bb_before, sizeof_BetweenBlocks.
  destruct (b_tags _ _ Hb _ _ _ Hx) as [Ht _]. cbn in Ht. unfold after in Ht. rewrite Ht. fold (after s (x + n)).
  destruct (b_right _ _ Hb _ _ _ Hx) as [[[m v] Hm]|(Hno & -> & _)]; [|cbn; intros m; by rewrite Hno].
  destruct (b_tags _ _ Hb _ _ _ Hm) as [Ht2 _]. replace (x + n + 8 - 8) with (x + n) in Ht2 by lia. rewrite Ht2.
  pose proof (b_size _ _ Hb _ _ _ Hm) as [H24 _]. unfold sizeof_FreeBlock in H24. destruct v as [r|]; cbn [sg].
  - rewrite (proj2 (Z.leb_le (- m) 0)) by lia. intros m'. congruence.
  - rewrite (proj2 (Z.leb_gt m 0)) by lia. rewrite block_after_pos by (rewrite Ht2; cbn; lia). eauto.
Qed.

(** Free neighbours are only found around [x]; none on its left. *)
Definition around (B : Blocks) (x : Z) : Prop := forall e k m, B e = Some (k, None) -> B (e + k + 8) = Some (m, None) -> e = x \/ e + k + 8 = x.
Definition no_left (B : Blocks) (x : Z) : Prop := forall e k, B e = Some (k, None) -> e + k + 8 <> x.

Lemma around_free B x n : nofrag B -> around (put_block x (Some (n, None)) B) x.
Proof.
  intros H e k m. unfold put_block. destruct (Z.eqb_spec e x); [auto|]. intros He. destruct (Z.eqb_spec (e + k + 8) x); [auto|].
  intros Hm. by destruct (H e k m He).
Qed.

Lemma merge_left_around s B p m n : binv s B -> around B (p + m + 8) -> B p = Some (m, None) -> B (p + m + 8) = Some (n, None) ->
  around (merge_map (B := B) p m n) p /\ no_left (merge_map (B := B) p m n) p.
Proof.
  intros Hb Ha Hp Hx. pose proof (b_size _ _ Hb) as Hsz. unfold sizeof_FreeBlock in Hsz. split.
  - intros e k j He Hj. destruct (merge_cases Hb p m n Hp Hx e k _ He) as [(-> & _)|(He' & N1 & N2 & Hfar)]; [by left|].
    destruct (merge_cases Hb p m n Hp Hx _ j _ Hj) as [(-> & _)|(Hj' & N3 & N4 & _)]; [by right|].
    destruct (Ha e k j He' Hj'); done.
  - intros e k He E. pose proof (Hsz _ _ _ Hp). destruct (merge_cases Hb p m n Hp Hx e k _ He) as [(-> & -> & _)|(He' & N1 & N2 & _)].
    + pose proof (Hsz _ _ _ Hx). lia.
    + pose proof (Hsz _ _ _ He'). destruct (Ha e k m He'); [by rewrite E|done|lia].
Qed.

Lemma merge_right_nofrag s B x n m : binv s B -> around B x -> no_left B x -> B x = Some (n, None) -> B (x + n + 8) = Some (m, None) ->
  nofrag (merge_map (B := B) x n m).
Proof.
  intros Hb Ha Hl Hx Hm e k j He Hj. pose proof (b_size _ _ Hb) as Hsz. unfold sizeof_FreeBlock in Hsz.
  pose proof (Hsz _ _ _ Hx). pose proof (Hsz _ _ _ Hm).
  destruct (merge_cases Hb x n m Hx Hm e k _ He) as [(-> & -> & _)|(He' & N1 & N2 & Hfar)];
    destruct (merge_cases Hb x n m Hx Hm _ j _ Hj) as [(E & _)|(Hj' & N3 & N4 & _)].
  - lia.
  - replace (x + (n + m + 8) + 8) with (x + n + 8 + m + 8) in * by lia. destruct (Ha (x + n + 8) m j Hm Hj'); lia.
  - by apply (Hl e k).
  - destruct (Ha e k j He' Hj'); [done|]. by apply (Hl e k).
Qed.

Lemma right_nofrag B x n : around B x -> no_left B x -> B x = Some (n, None) -> (forall m, B (x + n + 8) <> Some (m, None)) -> nofrag B.
Proof.
  intros Ha Hl Hx Hn e k m He Hm. destruct (Ha e k m He Hm) as [->|E]; [|by apply (Hl e k)].
  assert (k = n) as -> by congruence. by apply (Hn m).
Qed.

(** The first half of the release: the block on the left. *)
Lemma join_left_spec s B F x n : sinv s B F [x] -> around B x -> B x = Some (n, None) ->
  exists x1 s1 B1 F1 n1, match get_prev_block_if_mergeable x s with
    | Some prev => s ← remove_freelist_entry prev s; Ok (merge_blocks prev x s)
    | None => Ok (x, s)
    end = Ok (x1, s1) /\ sinv s1 B1 F1 [x1] /\ around B1 x1 /\ no_left B1 x1 /\ B1 x1 = Some (n1, None) /\
    (forall y k r, used B1 y k r <-> used B y k r) /\ keeps B s s1.
Proof.
  intros H Ha Hx. pose proof H as [Hb _]. pose proof (prev_spec s B x n None Hb Hx) as Hp. destruct (get_prev_block_if_mergeable x s) as [p|].
  - destruct Hp as (m & Hp & <-). pose proof (b_size _ _ Hb _ _ _ Hp) as [H24 _]. unfold sizeof_FreeBlock in H24.
    destruct (remove_spec s B F [p + m + 8] p m H Hp) as (s1 & F1 & -> & H1 & Hbk); [rewrite list_elem_of_singleton; lia|]. cbn [mbind result_bind].
    destruct (merge_spec s1 B F1 _ [p] p m n H1) as (s2 & E2 & H2 & Hbk2); try done.
    + apply list_elem_of_here.
    + apply list_elem_of_further, list_elem_of_here.
    + intros y. rewrite !elem_of_cons, elem_of_nil. split; [intros [->|[]]; split; [tauto|lia]|tauto].
    + exists p, s2, (merge_map (B := B) p m n), F1, (m + n + 8). rewrite E2. split; [done|]. split; [done|].
      destruct (merge_left_around s B p m n Hb Ha Hp Hx). split; [done|]. split; [done|]. split; [apply merge_first|].
      split; [by apply (used_merge s)|by eapply keeps_trans].
  - exists x, s, B, F, n. done.
Qed.

Lemma join_right_spec s B F x n : sinv s B F [x] -> around B x -> no_left B x -> B x = Some (n, None) ->
  exists s1 B1 F1 n1, match get_next_block_if_mergeable x s with
    | Some next => s ← remove_freelist_entry next s; Ok (merge_blocks x next s)
    | None => Ok (x, s)
    end = Ok (x, s1) /\ sinv s1 B1 F1 [x] /\ nofrag B1 /\ B1 x = Some (n1, None) /\
    (forall y k r, used B1 y k r <-> used B y k r) /\ keeps B s s1.
Proof.
  intros H Ha Hl Hx. pose proof H as [Hb _]. pose proof (next_spec s B x n Hb Hx) as Hp. destruct (get_next_block_if_mergeable x s) as [p|].
  - destruct Hp as (-> & m & Hm). pose proof (b_size _ _ Hb _ _ _ Hx) as [H24 _]. unfold sizeof_FreeBlock in H24.
    destruct (remove_spec s B F [x] (x + n + 8) m H Hm) as (s1 & F1 & -> & H1 & Hbk); [rewrite list_elem_of_singleton; lia|]. cbn [mbind result_bind].
    destruct (merge_spec s1 B F1 _ [x] x n m H1) as (s2 & E2 & H2 & Hbk2); try done.
    + apply list_elem_of_further, list_elem_of_here.
    + apply list_elem_of_here.
    + intros y. rewrite !elem_of_cons, elem_of_nil. split; [intros [->|[]]; split; [tauto|lia]|tauto].
    + exists s2, (merge_map (B := B) x n m), F1, (n + m + 8). rewrite E2. split; [done|]. split; [done|].
      split; [by apply (merge_right_nofrag s)|]. split; [apply merge_first|].
      split; [by apply (used_merge s)|by eapply keeps_trans].
  - exists s, B, F, n. split; [done|]. split; [done|]. split; [by apply (right_nofrag B x n)|]. done.
Qed.

Lemma free_block_spec s B F x n : sinv (set_fb_ref x x s) B F [x] -> around B x -> B x = Some (n, None) ->
  exists s' B', free_block x x s = Ok s' /\ ready s' B' /\ (forall y k r, used B' y k r <-> used B y k r) /\ keeps B s s'.
Proof.
  intros H Ha Hx. unfold free_block. destruct (join_left_spec _ B F x n H Ha Hx) as (x1 & s1 & B1 & F1 & n1 & -> & H1 & Ha1 & Hl1 & Hx1 & Hu1 & Hbk1).
  cbn [mbind result_bind]. destruct (join_right_spec s1 B1 F1 x1 n1 H1 Ha1 Hl1 Hx1) as (s2 & B2 & F2 & n2 & -> & H2 & Hf2 & Hx2 & Hu2 & Hbk2).
  cbn [mbind result_bind]. destruct (push_spec s2 B2 F2 [x1] [] x1 n2 H2) as (F' & H3 & Hbk3); [apply list_elem_of_here|done| |].
  - intros y. rewrite elem_of_nil, list_elem_of_singleton. tauto.
  - eexists _, B2. split; [reflexivity|]. split; [split; [by exists F'|done]|]. split; [intros y k r; by rewrite Hu2, Hu1|].
    apply (keeps_trans B s (set_fb_ref x x s)); [apply keeps_ref; [by apply (free_safe_start (set_fb_ref x x s) B x n (proj1 H))|apply keeps_refl]|].
    apply (keeps_trans B _ s1); [done|]. apply (keeps_trans B _ s2).
    + apply (keeps_mono B1); [|done]. intros y k r Hy. by apply Hu1.
    + apply (keeps_mono B2); [|done]. intros y k r Hy. by apply Hu2, Hu1.
Qed.

(** ** Rebuilding *)

Lemma push_slabs l x s : push_freelist_entry x (set_slabs l s) = set_slabs l (push_freelist_entry x s).
Proof. unfold push_freelist_entry. cbn [bb set_slabs m_block_map]. by destruct (bm_find _ _). Qed.

(** One free block fills each slab. *)
Definition fresh (l : list Slab) (B : Blocks) : Prop :=
  forall x n u, B x = Some (n, u) -> u = None /\ exists sl, sl ∈ l /\ x = slab_start sl + 8 /\ n = slab_size sl - 16.

Lemma rebuild_spec l : forall pre s B F, sinv (set_slabs pre s) B F [] -> nofrag B -> fresh pre B ->
  let start := next_start (align_size_to_section_boundary (m_baseline s)) pre in
  slabs_ok start l ->
  let s' := rebuild_slabs l start s in
  m_slabs s' = m_slabs s /\ same_books s s' /\ exists B', ready (set_slabs (pre ++ l) s') B' /\ fresh (pre ++ l) B'.
Proof.
  induction l as [|sl l IH]; intros pre s B F H Hf Hfr start Hl; cbn [rebuild_slabs].
  - split; [done|]. split; [done|]. exists B. rewrite app_nil_r. split; [split; [by exists F|done]|done].
  - destruct Hl as (Hst & Hsz & H8 & H64 & Hl). pose proof H as [Hb _].
    destruct (slab_entry_spec (set_slabs pre s) B F [] sl H) as (s1 & E1 & E2 & Hk & Hno & H1); [exact Hst|done|].
    rewrite slab_to_entry_slabs in E1. rewrite <- Hst. destruct (slab_to_entry sl (slab_start sl) s) as [e s0] eqn:E0. cbn [fst snd] in E1.
    injection E1 as -> <-. change (m_slabs (set_slabs pre s)) with pre in *.
    assert (Es : set_slabs (pre ++ [sl]) (set_slabs pre s0) = set_slabs (pre ++ [sl]) s0) by done. rewrite Es in H1.
    set (x := slab_start sl + 8) in *. set (B1 := put_block x (Some (slab_size sl - 16, None)) B) in *.
    destruct (push_spec _ B1 F [x] [] x (slab_size sl - 16) H1) as (F2 & H2 & Hk2).
    { apply list_elem_of_here. } { unfold B1, put_block. by rewrite Z.eqb_refl. } { intros y. rewrite elem_of_nil, list_elem_of_singleton. tauto. }
    rewrite push_slabs in H2. assert (Hb0 : same_books s (push_freelist_entry x s0)).
    { destruct Hk as [Hk _], Hk2 as [Hk2 _]. rewrite push_slabs in Hk2. destruct Hk as (K1 & K2 & K3 & K4), Hk2 as (G1 & G2 & G3 & G4). cbn in *. unfold same_books. cbn. by rewrite G1, G2, G3, G4. }
    destruct Hb0 as (Hbase & Hbk). 
    destruct (IH (pre ++ [sl]) (push_freelist_entry x s0) B1 F2) as (R1 & R2 & B' & R3 & R4).
    + exact H2.
    + apply (nofrag_grow (set_slabs pre s)); [done|done|exact Hst|unfold minimal_alloc in Hsz; lia].
    + intros y n u. unfold B1, put_block. destruct (Z.eqb_spec y x) as [->|].
      * intros [= <- <-]. split; [done|]. exists sl. split; [apply elem_of_app; right; apply list_elem_of_here|done].
      * intros Hy. destruct (Hfr y n u Hy) as (-> & sl' & ? & ?). split; [done|]. exists sl'. split; [by apply elem_of_app; left|done].
    + rewrite Hbase. unfold next_start. rewrite last_snoc. done.
    + assert (Enext : next_start (align_size_to_section_boundary (m_baseline (push_freelist_entry x s0))) (pre ++ [sl]) = align_size_to_section_boundary (ref_end sl))
        by (unfold next_start; by rewrite last_snoc).
      rewrite Enext in *. rewrite <- app_assoc in *. split; [|split; [|by exists B']].
      * rewrite R1. unfold push_freelist_entry. assert (m_slabs s0 = m_slabs s) as <- by (apply (f_equal (fun p => m_slabs p.2)) in E0; exact (eq_sym E0)).
        by destruct (bm_find _ _).
      * destruct R2 as (K1 & K2 & K3 & K4), Hbk as (G2 & G3 & G4). unfold same_books. by rewrite K1, K2, K3, K4.
Qed.

Lemma rebuild_ready s : 0 <= m_baseline s -> slabs_ok (align_size_to_section_boundary (m_baseline s)) (m_slabs s) ->
  let s' := rebuild_freelists_from_slab s in
  m_slabs s' = m_slabs s /\ same_books s s' /\ exists B, ready s' B /\ fresh (m_slabs s) B.
Proof.
  intros Hb Hs. set (s0 := set_block_map [] s).
  assert (H0 : sinv (set_slabs [] s0) (fun _ => None) (fun _ => []) []).
  { split.
    - split; try done. intros sl Hsl. by apply elem_of_nil in Hsl.
    - split; try done; [constructor|intros k; constructor|]. intros k x. rewrite elem_of_nil. split; [done|by intros [[=] _]]. }
  destruct (rebuild_spec (m_slabs s) [] s0 _ _ H0) as (R1 & R2 & B & R3 & R4); [done|done|exact Hs|].
  cbv zeta. unfold rebuild_freelists_from_slab. change (m_baseline (set_block_map [] s)) with (m_baseline s0). split; [exact R1|].
  split; [exact R2|]. exists B. split; [|done]. cbn [app] in R3. fold s0. unfold next_start in R3. cbn [list.last] in R3.
  change (m_slabs s) with (m_slabs s0) in R3 at 1. rewrite <- R1 in R3 at 1. by destruct (rebuild_slabs (m_slabs s) _ s0).
Qed.
