(* ===== verification/SlabRun.v ===== *)
(** * The slab allocator: the operations of its interface and their runs

    A client holds a list of live blocks and the words it last wrote to them.  It
    asks for blocks, releases one it holds, overwrites one it holds, releases chunks
    of the file, ends its transaction, or moves to a longer file. *)

From S2P Require Import Prelude FreeList FreeListAlloc FreeListFile SlabAlloc SlabBlocks SlabInv SlabOps SlabSteps.

(** Chunks in the order of their positions with a gap in front of each. *)
Fixpoint chunks_ok (lo : Z) (l : list (Z * Z)) : Prop :=
  match l with [] => True | (r, n) :: l => lo < r /\ 0 < n /\ chunks_ok (r + n) l end.

Definition apart (ref size : Z) (l : list (Z * Z)) : Prop := forall r n, (r, n) ∈ l -> ref + size <= r \/ r + n <= ref.

Definition chunks_end (lo : Z) (l : list (Z * Z)) : Z := match list.last l with Some (r, n) => r + n | None => lo end.

Lemma chunks_end_cons lo r n l : chunks_end lo ((r, n) :: l) = chunks_end (r + n) l.
Proof. unfold chunks_end. destruct l as [|c l] using rev_ind; [done|]. by rewrite app_comm_cons, !last_snoc. Qed.

Lemma chunks_app lo a b : chunks_ok lo (a ++ b) <-> chunks_ok lo a /\ chunks_ok (chunks_end lo a) b.
Proof.
  revert lo. induction a as [|[r n] a IH]; intros lo; [cbn; tauto|]. rewrite chunks_end_cons. cbn [app chunks_ok]. rewrite IH. tauto.
Qed.

Lemma lower_bound_split k l : exists before, l = before ++ bm_lower_bound k l /\ Forall (fun c : Z * Z => c.1 < k) before /\
  match bm_lower_bound k l with (r, _) :: _ => k <= r | [] => True end.
Proof.
  induction l as [|[r n] l (b & E & Hf & Hh)]; [by exists []|]. cbn. destruct (Z.ltb_spec r k).
  - exists ((r, n) :: b). split; [cbn; by rewrite <- E|]. split; [by constructor|done].
  - exists []. done.
Qed.

Lemma take_front {A} (l b k : list A) : l = b ++ k -> take (length l - length k) l = b.
Proof. intros ->. rewrite length_app. replace (length b + length k - length k)%nat with (length b) by lia. by rewrite take_app_length. Qed.

(** The chunk is joined with its right neighbour when they touch. *)
Lemma join_next ref size next lo : apart ref size next -> 0 < size -> lo < ref -> chunks_ok lo next ->
  match next with (r, _) :: _ => ref <= r | [] => True end ->
  exists size' next', match next with
    | (r, n) :: rest => _ ← check (ref + size <=? r); Ok (if ref + size =? r then (size + n, rest) else (size, next))
    | [] => Ok (size, next)
    end = Ok (size', next') /\ 0 < size' /\ chunks_ok (ref + size') next' /\
    forall x, inb x ref size' + r_count x next' = inb x ref size + r_count x next.
Proof.
  intros Ha Hs Hlo Hok Hge. destruct next as [|[r n] rest]; [by exists size, []|]. destruct Hok as (H1 & H2 & H3).
  assert (ref + size <= r) as Hle by (destruct (Ha r n (list_elem_of_here _ _)); lia).
  rewrite (proj2 (Z.leb_le (ref + size) r)) by lia. cbn [check mbind result_bind].
  destruct (Z.eqb_spec (ref + size) r) as [<-|Hne].
  - eexists _, _. split; [reflexivity|]. split; [lia|]. split; [by replace (ref + (size + n)) with (ref + size + n) by lia|].
    intros x. unfold r_count. cbn [sumf fst snd]. inb_cases.
  - eexists _, _. split; [reflexivity|]. split; [lia|]. split; [|done]. cbn [chunks_ok]. split; [lia|done].
Qed.

Lemma add_chunk_spec ref size l : chunks_ok 0 l -> 0 < ref -> 0 < size -> apart ref size l ->
  exists l', add_chunk ref size l = Ok l' /\ chunks_ok 0 l' /\ forall x, r_count x l' = r_count x l + inb x ref size.
Proof.
  intros Hok Hr Hs Ha. destruct (lower_bound_split ref l) as (b & E & Hf & Hh). unfold add_chunk.
  pose proof (take_front l b _ E) as Et.
  rewrite Et. clear Et. set (next := bm_lower_bound ref l) in *. rewrite E in Hok, Ha. apply chunks_app in Hok as [Hb Hn].
  assert (Hcnt : forall x, r_count x l = r_count x b + r_count x next) by (intros x; rewrite E; unfold r_count; apply sumf_app).
  assert (Hend : chunks_end 0 b <= ref /\ forall r n, list.last b = Some (r, n) -> r + n <= ref).
  { unfold chunks_end. destruct b as [|[r n] b _] using rev_ind; [split; [cbn; lia|done]|]. rewrite last_snoc.
    apply Forall_app in Hf as [_ Hf]. apply Forall_cons_iff in Hf as [Hf _]. cbn in Hf.
    assert ((r, n) ∈ (b ++ [(r, n)]) ++ next) as Hin by (apply elem_of_app; left; apply elem_of_app; right; apply list_elem_of_here).
    destruct (Ha r n Hin); [lia|]. split; [done|]. intros r' n' [= <- <-]. done. }
  destruct Hend as [He1 He2].
  destruct (join_next ref size next (Z.min (chunks_end 0 b) (ref - 1))) as (size' & next' & -> & Hs' & Hn' & Hc).
  { intros r n Hin. apply Ha, elem_of_app. by right. } { done. } { lia. }
  { destruct next as [|[r n] rest]; [done|]. cbn [chunks_ok] in *. split; [lia|]. apply Hn. } { done. }
  cbn [mbind result_bind]. destruct b as [|[r n] b _] using rev_ind.
  - cbn [list.last]. eexists. split; [reflexivity|]. split; [by cbn [chunks_ok]|]. intros x. rewrite Hcnt. unfold r_count in *. cbn [sumf fst snd]. specialize (Hc x). lia.
  - rewrite last_snoc. pose proof (He2 r n (last_snoc _ _)) as Hle. rewrite (proj2 (Z.leb_le (r + n) ref)) by lia. cbn [check mbind result_bind].
    apply chunks_app in Hb as [Hb (Hb1 & Hb2 & _)]. destruct (Z.eqb_spec (r + n) ref) as [<-|Hne]; eexists; (split; [reflexivity|]).
    + rewrite removelast_last. split.
      * apply chunks_app. split; [done|]. cbn [chunks_ok]. split; [done|]. split; [lia|]. by replace (r + (n + size')) with (r + n + size') by lia.
      * intros x. rewrite Hcnt. specialize (Hc x). unfold r_count in *. rewrite !sumf_app. cbn [sumf fst snd] in *.
        assert (inb x r (n + size') = inb x r n + inb x (r + n) size') by inb_cases. lia.
    + split.
      * rewrite <- app_assoc. apply chunks_app. split; [done|]. cbn [app chunks_ok]. split; [done|]. split; [done|]. split; [lia|]. done.
      * intros x. rewrite Hcnt. specialize (Hc x). unfold r_count in *. rewrite !sumf_app. cbn [sumf fst snd] in *. lia.
Qed.

(** ** The slab allocator: the operations of its interface and their runs *)

(** ** The interface *)

Definition good_size (size : Z) : Prop := 0 < size <= maximal_alloc - 16 /\ size mod 8 = 0.

Lemma fix_size_good size : good_size size -> fix_size size = Z.max 24 size /\ 24 <= fix_size size <= maximal_alloc - 16 /\ fix_size size mod 8 = 0.
Proof.
  intros [Hs H8]. unfold fix_size, sizeof_FreeBlock. rewrite land7. unfold maximal_alloc, section_shift in *. change (2 ^ 26) with 67108864 in *.
  destruct (Z.ltb_spec size 24); [rewrite Z.max_l by lia; done|]. rewrite H8, Z.max_r by lia. cbn [Z.eqb negb]. lia.
Qed.

(** A block in use: aligned, behind the file, and within one section. *)
Definition placed (s : SlabAlloc) (ref n : Z) : Prop :=
  ref mod 8 = 0 /\ m_baseline s <= ref /\ ref / 2 ^ 26 = (ref + n - 1) / 2 ^ 26.

Lemma slabs_aligned start l : 0 <= start -> start mod 2 ^ 26 = 0 -> slabs_ok start l -> forall sl, sl ∈ l -> slab_start sl mod 2 ^ 26 = 0.
Proof.
  revert start. induction l as [|e l IH]; intros start H0 Hm Hl sl Hsl; [by apply elem_of_nil in Hsl|].
  destruct Hl as (H1 & H2 & _ & _ & Hl). apply elem_of_cons in Hsl as [->|Hsl]; [by rewrite H1|].
  destruct (slab_end_pos start e H0 H1 (proj1 H2)) as (? & ? & ?). eapply IH; [|done|exact Hl|done]. lia.
Qed.

Lemma block_placed s B x n u : binv s B -> B x = Some (n, u) -> placed s x n.
Proof.
  intros Hb Hx. destruct (b_size _ _ Hb _ _ _ Hx) as (H24 & _ & H8). destruct (block_range Hb _ _ _ Hx) as (Hlo & _). split; [done|]. split; [done|].
  destruct (b_in _ _ Hb _ _ _ Hx) as (sl & Hsl & H1 & H2). destruct (slabs_member _ _ (b_slabs _ _ Hb) sl Hsl) as [H3 _].
  pose proof (slabs_aligned _ _ (b_base' Hb) (proj2 (align_section_spec _ (b_base _ _ Hb))) (b_slabs _ _ Hb) sl Hsl) as Ha.
  unfold slab_start, maximal_alloc, section_shift, sizeof_FreeBlock in *. change (2 ^ 26) with 67108864 in *. dlia.
Qed.

(** Blocks in use do not overlap. *)
Lemma used_apart s B x n r y m q : binv s B -> used B x n r -> used B y m q -> x <> y -> x + n + 8 <= y \/ y + m + 8 <= x.
Proof. intros Hb Hx Hy E. destruct (block_apart Hb x n _ y m _ Hx Hy); [done|by right|by left]. Qed.

Definition dirtied (s s' : SlabAlloc) (commit : Z) : Prop :=
  m_baseline s' = m_baseline s /\ m_free_space_state s' = free_space_Dirty /\ m_commit_size s' = commit /\ m_free_read_only s' = m_free_read_only s.

Definition memory_kept (B : Blocks) (s s' : SlabAlloc) : Prop :=
  forall y n a, busy B y n -> (y - 8 < a < y + n -> bb s' a = bb s a) /\ (y - 24 < a < y + n -> blk s' a = blk s a).

Lemma ready_tracking s B st c : ready s B -> ready (set_tracking st c s) B.
Proof.
  intros [(F & [Hb Hr]) Hf]. split; [|done]. exists F. split; [by apply (binv_ext s)|]. by apply (rinv_blocks s _ B B F [] []); try done; apply Hr.
Qed.

(** What [do_alloc] does for a request of a good size. *)
Definition alloc_result (s : SlabAlloc) (B : Blocks) (size : Z) (p : result Z * SlabAlloc) : Prop :=
  match p with
  | (Ok ref, s') => exists B' n, ready s' B' /\ fix_size size <= n <= fix_size size + 32 /\ used B' ref n size /\
      (forall y m q, used B' y m q <-> (y = ref /\ m = n /\ q = size) \/ used B y m q) /\ (forall m q, ~ used B ref m q) /\
      dirtied s s' (m_commit_size s + size) /\ memory_kept B s s'
  | (Throw e, s') => e = MaximumFileSizeExceeded /\ refs_exhausted (fix_size size) s /\ s' = set_tracking free_space_Dirty (m_commit_size s + size) s
  | (OutOfFuel, _) => False
  end.

Lemma use_block s B F s1 B' x n size : let s0 := set_tracking free_space_Dirty (m_commit_size s + size) s in
  sinv s1 B' F [x] -> carved B B' x n -> keeps B s0 s1 -> fix_size size <= n <= fix_size size + 32 ->
  exists s2, mark_allocated x s1 = Ok s2 /\ fb_ref (blk s2 x) = x /\ m_baseline s2 <= x /\ alloc_result s B size (Ok x, s2).
Proof.
  intros s0 H (Hx & Hu & Hnf) Hk Hn. destruct (mark_allocated_spec s1 B' F [x] [] x n size H) as (s2 & E & H2 & Hk2 & Eblk).
  { apply list_elem_of_here. } { done. } { done. } { intros y. rewrite elem_of_nil, list_elem_of_singleton. tauto. }
  exists s2. split; [done|]. rewrite Eblk, (r_ref _ _ _ _ (proj2 H) x n Hx). split; [done|].
  set (B2 := put_block x (Some (n, Some size)) B') in *. assert (Hx2 : used B2 x n size) by (unfold used, B2, put_block; by rewrite Z.eqb_refl).
  split; [by apply (block_range (proj1 H2) x n (Some size))|].
  assert (Hnot : forall m q, ~ used B x m q) by (intros m q Hq; apply Hu in Hq; unfold used in Hq; congruence).
  exists B2, n. split; [split; [by exists F|apply Hnf]|]. split; [done|]. split; [done|]. split; [|split; [done|]].
  - intros y m q. rewrite <- (Hu y m q). unfold used, B2, put_block. destruct (Z.eqb_spec y x) as [->|].
    + split; [intros [= <- <-]; by left|]. intros [(_ & -> & ->)|E2]; [done|congruence].
    + split; [by right|]. intros [(-> & _)|]; done.
  - destruct (keeps_trans B s0 s1 s2 Hk) as [(G1 & G2 & G3 & G4) G]; [apply (keeps_mono B'); [|done]; intros y m r; apply Hu|]. done.
Qed.

Lemma do_alloc_spec s B size : ready s B -> m_free_space_state s <> free_space_Invalid -> good_size size -> alloc_result s B size (do_alloc size s).
Proof.
  intros Hrd Hst Hg. pose proof Hg as [Hs H8]. destruct (fix_size_good size Hg) as (_ & Hfx & Hfx8). unfold do_alloc. rewrite land7, H8.
  rewrite (proj2 (Z.ltb_lt 0 size)), (proj2 (Z.ltb_lt size (2 ^ section_shift))) by (unfold maximal_alloc in *; lia). cbn [andb Z.eqb negb].
  set (s1 := set_tracking free_space_Dirty (m_commit_size s + size) s).
  destruct (ready_tracking s B free_space_Dirty (m_commit_size s + size) Hrd) as [(F & H1) Hf].
  pose proof (allocate_block_spec s1 B F (fix_size size) H1 Hf Hfx Hfx8) as Ha. destruct (m_free_space_state s); [| |done].
  all: destruct (allocate_block (fix_size size) s1) as [[x s2]|e|]; [|destruct Ha as [-> Ha]; by cbn|done]; cbn [mbind result_bind].
  all: destruct Ha as (B' & F' & n & H2 & Hc & Hn & Hk).
  all: destruct (use_block s B F' s2 B' x n size H2 Hc Hk Hn) as (s3 & -> & E3 & Hlo & Hres); cbn [mbind result_bind].
  all: rewrite E3, Z.eqb_refl, (proj2 (Z.leb_le (m_baseline s3) x)) by done; cbn [check mbind result_bind]; done.
Qed.

Lemma do_free_spec s B ref n size : ready s B -> m_free_space_state s = free_space_Dirty -> used B ref n size ->
  exists s' B', do_free ref size s = Ok s' /\ ready s' B' /\ (forall y m q, used B' y m q <-> used B y m q /\ y <> ref) /\
    dirtied s s' (m_commit_size s - size) /\ memory_kept B' s s'.
Proof.
  intros [(F & H) Hf] Hst Hu. pose proof H as [Hb Hr]. unfold do_free. rewrite Hst. destruct (block_range Hb ref n _ Hu) as (Hlo & Hhi & Hmx).
  assert (Ero : is_read_only ref s = false) by (unfold is_read_only; apply Z.ltb_ge; done). rewrite Ero. cbn [orb check mbind result_bind].
  pose proof (b_req _ _ Hb _ _ _ Hu) as Hreq. unfold maximal_alloc, section_shift in Hmx. change (2 ^ 26) with 67108864 in Hmx.
  rewrite (proj2 (Z.ltb_lt (fix_size size) (2 * 1024 * 1024 * 1024))) by lia. cbn [check mbind result_bind].
  set (s1 := set_tracking free_space_Dirty (m_commit_size s - size) s).
  assert (H1 : sinv s1 B F []) by (split; [by apply (binv_ext s)|by apply (rinv_blocks s _ B B F [] []); try done; apply Hr]).
  change (mark_freed ref (fix_size size) _) with (mark_freed ref (fix_size size) s1).
  destruct (mark_freed_spec s1 B F [] ref n size H1 Hu) as (s2 & -> & H2 & Hk2). cbn [mbind result_bind].
  set (B1 := put_block ref (Some (n, None)) B) in *. assert (Hx : B1 ref = Some (n, None)) by (unfold B1, put_block; by rewrite Z.eqb_refl).
  destruct (free_block_spec s2 B1 F ref n H2 (around_free B ref n Hf) Hx) as (s' & B' & E & Hrd & Hu' & Hk').
  assert (Hu1 : forall y m q, used B1 y m q <-> used B y m q /\ y <> ref).
  { intros y m q. unfold used, B1, put_block. destruct (Z.eqb_spec y ref) as [->|]; [|tauto]. split; [done|tauto]. }
  exists s', B'. split; [done|]. split; [done|]. split; [intros y m q; by rewrite Hu', Hu1|].
  destruct (keeps_trans B' s1 s2 s') as [(G1 & G2 & G3 & G4) G]; [| |done].
  - apply (keeps_mono B); [|done]. intros y m r Hy. by apply Hu', Hu1 in Hy as [Hy _].
  - apply (keeps_mono B1); [|done]. intros y m r Hy. by apply Hu'.
Qed.

(** ** The client's memory *)

(** A client overwrites the [size] bytes of a block: every tag and every free block
    that would overlap them changes to something else. *)
Definition client_write (ref size : Z) (w : Z -> BetweenBlocks) (f : Z -> FreeBlock) (s : SlabAlloc) : SlabAlloc :=
  mkSA (m_slabs s) (m_block_map s) (fun a => if (ref - 8 <? a) && (a <? ref + size) then w a else bb s a)
    (fun a => if (ref - 24 <? a) && (a <? ref + size) then f a else blk s a)
    (m_baseline s) (m_free_space_state s) (m_commit_size s) (m_free_read_only s).

Lemma in_range a lo hi : ~ (lo < a < hi) -> (lo <? a) && (a <? hi) = false.
Proof. intros H. destruct (Z.ltb_spec lo a), (Z.ltb_spec a hi); cbn; lia || done. Qed.

Lemma client_write_ready s B ref n size w f : ready s B -> used B ref n size -> size <= n -> ready (client_write ref size w f s) B.
Proof.
  intros [(F & [Hb Hr]) Hf] Hu Hs. split; [|done]. exists F. assert (Hbusy : busy B ref n) by (by exists size).
  assert (Et : forall x m v, B x = Some (m, v) -> bb (client_write ref size w f s) (x - 8) = bb s (x - 8) /\ bb (client_write ref size w f s) (x + m) = bb s (x + m)).
  { intros x m v Hx. destruct (tag_safe s B x m v Hb Hx) as [T1 T2]. specialize (T1 _ _ Hbusy). specialize (T2 _ _ Hbusy). cbn. rewrite !in_range by lia. done. }
  split.
  - destruct Hb. split; try done.
    + intros e m v He. unfold after, before. destruct (Et _ _ _ He) as [-> ->]. by apply b_tags.
    + intros e m v He. unfold after. destruct (Et _ _ _ He) as [_ ->]. by apply (b_right e m v).
    + intros e m v He. unfold before. destruct (Et _ _ _ He) as [-> _]. by apply (b_left e m v).
  - assert (Eb : forall x m, B x = Some (m, None) -> blk (client_write ref size w f s) x = blk s x).
    { intros x m Hx. pose proof (free_safe_start s B x m Hb Hx _ _ Hbusy). cbn. rewrite in_range by lia. done. }
    apply (rinv_blocks s _ B B F [] []); try done.
    + intros k y Hy. apply (r_free _ _ _ _ Hr) in Hy as [Hy _]. by apply (Eb y k).
    + intros x k Hx. rewrite (Eb x k Hx). by apply (r_ref _ _ _ _ Hr x k).
Qed.

(** ** Runs *)

Record Live := mkLive { l_ref : Z; l_size : Z; l_data : Z -> BetweenBlocks }.

Inductive Op :=
  | OpAlloc (size : Z)
  | OpFree (i : nat)
  | OpWrite (i : nat) (w : Z -> BetweenBlocks) (f : Z -> FreeBlock)
  | OpFreeFile (ref size : Z)
  | OpReset
  | OpView (file_size : Z).

(** No byte of the file is released twice in a transaction. *)
Definition apartb (ref size : Z) (l : list (Z * Z)) : bool := forallb (fun c : Z * Z => (ref + size <=? c.1) || (c.1 + c.2 <=? ref)) l.

Definition step (o : Op) (p : SlabAlloc * list Live) : result (SlabAlloc * list Live) :=
  let '(s, h) := p in
  match o with
  | OpAlloc size =>
      match do_alloc size s with
      | (Ok ref, s') => Ok (s', mkLive ref size (bb s') :: h)
      | (Throw MaximumFileSizeExceeded, s') => Ok (s', h)
      | (Throw e, _) => Throw e
      | (OutOfFuel, _) => OutOfFuel
      end
  | OpFree i =>
      match h !! i with
      | Some b => s' ← do_free (l_ref b) (l_size b) s; Ok (s', delete i h)
      | None => Ok (s, h)
      end
  | OpWrite i w f =>
      match h !! i with
      | Some b => Ok (client_write (l_ref b) (l_size b) w f s, <[i := mkLive (l_ref b) (l_size b) w]> h)
      | None => Ok (s, h)
      end
  | OpFreeFile ref size =>
      if (ref + size <=? m_baseline s) && apartb ref size (m_free_read_only s) then s' ← do_free ref size s; Ok (s', h) else Ok (s, h)
  | OpReset => Ok (reset_free_space_tracking s, [])
  | OpView file_size =>
      match m_free_space_state s with
      | free_space_Clean => Ok (update_reader_view file_size s, h)
      | _ => Ok (s, h)
      end
  end.

Fixpoint run (ops : list Op) (p : SlabAlloc * list Live) : result (SlabAlloc * list Live) :=
  match ops with [] => Ok p | o :: ops => p ← step o p; run ops p end.

Definition op_ok (o : Op) : Prop :=
  match o with
  | OpAlloc size => good_size size
  | OpFreeFile ref size => 0 < ref /\ ref mod 8 = 0 /\ 0 < size
  | OpView file_size => file_size < 2 ^ 63
  | _ => True
  end.

Definition init (file_size : Z) : SlabAlloc :=
  mkSA [] [] (fun _ => mkBB 0 0) (fun _ => mkFB 0 0 0) file_size free_space_Clean 0 [].

(** Live blocks are the blocks in use, under their own names, with the data last
    written. *)
Record heap_ok (s : SlabAlloc) (B : Blocks) (h : list Live) : Prop := {
  h_used : forall x m q, used B x m q -> exists b, b ∈ h /\ l_ref b = x;
  h_live : forall b, b ∈ h -> good_size (l_size b) /\ exists n, used B (l_ref b) n (l_size b);
  h_nodup : NoDup (map l_ref h);
  h_data : forall b a, b ∈ h -> l_ref b <= a <= l_ref b + l_size b - 8 -> bb s a = l_data b a }.

(** Between transactions at most one slab of the least size is kept. *)
Record run_inv (s : SlabAlloc) (h : list Live) : Prop := {
  i_heap : exists B, ready s B /\ heap_ok s B h;
  i_base : m_baseline s < 2 ^ 63;
  i_state : m_free_space_state s = free_space_Dirty \/
    m_free_space_state s = free_space_Clean /\ h = [] /\ (length (m_slabs s) <= 1)%nat /\ Forall (fun e => slab_size e = minimal_alloc) (m_slabs s) /\ m_free_read_only s = [];
  i_chunks : chunks_ok 0 (m_free_read_only s) }.

Lemma size_fits s B x n q : binv s B -> used B x n q -> good_size q -> q <= n.
Proof. intros Hb Hu Hg. pose proof (b_req _ _ Hb _ _ _ Hu). destruct (fix_size_good q Hg) as (E & _). lia. Qed.

Lemma ready_binv s B : ready s B -> binv s B.
Proof. by intros [(F & [Hb _]) _]. Qed.

(** Data of live blocks that stay in use. *)
Lemma data_kept s s' B B' h : ready s B -> heap_ok s B h -> memory_kept B' s s' ->
  forall b a, b ∈ h -> (forall n, used B (l_ref b) n (l_size b) -> used B' (l_ref b) n (l_size b)) ->
  l_ref b <= a <= l_ref b + l_size b - 8 -> bb s' a = l_data b a.
Proof.
  intros Hrd Hh Hk b a Hb Hu Ha. destruct (h_live _ _ _ Hh b Hb) as (Hg & n & Hn). pose proof (size_fits s B _ n _ (ready_binv s B Hrd) Hn Hg).
  destruct (Hk (l_ref b) n a) as [Hk1 _]; [exists (l_size b); by apply Hu|]. rewrite Hk1 by lia. by apply (h_data _ _ _ Hh).
Qed.

Lemma step_alloc s h size : run_inv s h -> good_size size -> exists s' h', step (OpAlloc size) (s, h) = Ok (s', h') /\ run_inv s' h'.
Proof.
  intros [(B & Hrd & Hh) Hbase Hst Hch] Hg. assert (Hni : m_free_space_state s <> free_space_Invalid) by (destruct Hst as [->|[-> _]]; done).
  pose proof (do_alloc_spec s B size Hrd Hni Hg) as H. cbn [step]. destruct (do_alloc size s) as [[ref|e|] s']; cbn [alloc_result] in H; [| |done].
  - destruct H as (B' & n & Hrd' & Hn & Hu & Hiff & Hnew & (D1 & D2 & D3 & D4) & Hk). eexists _, _. split; [reflexivity|].
    split; [exists B'; split; [done|]|by rewrite D1|by left|by rewrite D4]. destruct Hh as [Hh1 Hh2 Hh3 Hh4] eqn:Eh. clear Eh. split.
    + intros x m q Hx. apply Hiff in Hx as [(-> & _)|Hx]; [by eexists; split; [apply list_elem_of_here|]|].
      destruct (Hh1 x m q Hx) as (b & ? & ?). exists b. split; [by apply list_elem_of_further|done].
    + intros b Hb. apply elem_of_cons in Hb as [->|Hb]; [split; [done|by exists n]|]. destruct (Hh2 b Hb) as (? & k & ?). split; [done|]. exists k. apply Hiff. by right.
    + cbn [map]. apply list.NoDup_cons. split; [|done]. rewrite list_elem_of_fmap. intros (b & E & Hb). destruct (Hh2 b Hb) as (_ & k & Hk'). cbn in E. rewrite <- E in Hk'. by apply Hnew in Hk'.
    + intros b a Hb Ha. apply elem_of_cons in Hb as [->|Hb]; [done|]. apply (data_kept s s' B B h Hrd); [by split|done|done|done|done].
  - destruct H as (-> & _ & ->). eexists _, _. split; [reflexivity|]. split; [|done|by left|done].
    exists B. split; [by apply ready_tracking|]. by destruct Hh; split.
Qed.

(** The live block at an index. *)
Lemma live_split h i b : h !! i = Some b -> NoDup (map l_ref h) -> exists h1 h2, h = h1 ++ b :: h2 /\ delete i h = h1 ++ h2 /\
  (forall b', <[i := b']> h = h1 ++ b' :: h2) /\ (forall b', b' ∈ h1 ++ h2 <-> b' ∈ h /\ l_ref b' <> l_ref b).
Proof.
  intros Hi Hnd. apply list_elem_of_split_length in Hi as (h1 & h2 & -> & ->). exists h1, h2. split; [done|]. split; [apply delete_middle|].
  split; [intros b'; by rewrite insert_app_r_alt, Nat.sub_diag by lia|]. intros b'. rewrite !elem_of_app, elem_of_cons.
  rewrite map_app in Hnd. cbn [map] in Hnd. rewrite <- Permutation_middle in Hnd. apply list.NoDup_cons in Hnd as [Hnd _]. rewrite elem_of_app in Hnd.
  split.
  - intros Hb. split; [tauto|]. intros E. apply Hnd. rewrite <- E. destruct Hb as [Hb|Hb]; [left|right]; by apply list_elem_of_fmap_2.
  - intros [[?|[->|?]] ?]; tauto.
Qed.

Lemma NoDup_drop h1 (b : Live) h2 : NoDup (map l_ref (h1 ++ b :: h2)) -> NoDup (map l_ref (h1 ++ h2)).
Proof. rewrite !map_app. cbn [map]. rewrite <- Permutation_middle. by intros [_ ?]%list.NoDup_cons. Qed.

Lemma live_dirty s h i b : run_inv s h -> h !! i = Some b -> m_free_space_state s = free_space_Dirty.
Proof. intros H Hi. destruct (i_state _ _ H) as [|(_ & -> & _)]; done. Qed.

Lemma step_free s h i : run_inv s h -> exists s' h', step (OpFree i) (s, h) = Ok (s', h') /\ run_inv s' h'.
Proof.
  intros H. cbn [step]. destruct (h !! i) as [b|] eqn:Hi; [|by eexists _, _]. pose proof (live_dirty s h i b H Hi) as Hst.
  destruct H as [(B & Hrd & Hh) Hbase _ Hch]. pose proof (list_elem_of_lookup_2 _ _ _ Hi) as Hb. destruct (h_live _ _ _ Hh b Hb) as (Hg & n & Hu).
  destruct (do_free_spec s B (l_ref b) n (l_size b) Hrd Hst Hu) as (s' & B' & -> & Hrd' & Hu' & (D1 & D2 & D3 & D4) & Hk).
  destruct (live_split h i b Hi (h_nodup _ _ _ Hh)) as (h1 & h2 & E & -> & _ & Hel). eexists _, _. split; [reflexivity|].
  split; [|by rewrite D1|by left|by rewrite D4]. exists B'. split; [done|]. pose proof Hh as [Hh1 Hh2 Hh3 Hh4]. split.
  - intros x m q Hx. apply Hu' in Hx as [Hx Hne]. destruct (Hh1 x m q Hx) as (b' & Hb' & <-). exists b'. split; [by apply Hel|done].
  - intros b' Hb'. apply Hel in Hb' as [Hb' Hne]. destruct (Hh2 b' Hb') as (? & k & ?). split; [done|]. exists k. by apply Hu'.
  - rewrite E in Hh3. by eapply NoDup_drop.
  - intros b' a Hb' Ha. apply Hel in Hb' as [Hb' Hne]. apply (data_kept s s' B B' h Hrd Hh Hk); [done| |done]. intros k Hk'. by apply Hu'.
Qed.

Lemma step_write s h i w f : run_inv s h -> exists s' h', step (OpWrite i w f) (s, h) = Ok (s', h') /\ run_inv s' h'.
Proof.
  intros H. cbn [step]. destruct (h !! i) as [b|] eqn:Hi; [|by eexists _, _]. pose proof (live_dirty s h i b H Hi) as Hst.
  destruct H as [(B & Hrd & Hh) Hbase _ Hch]. pose proof (list_elem_of_lookup_2 _ _ _ Hi) as Hb. destruct (h_live _ _ _ Hh b Hb) as (Hg & n & Hu).
  pose proof (size_fits s B _ n _ (ready_binv s B Hrd) Hu Hg) as Hfit.
  destruct (live_split h i b Hi (h_nodup _ _ _ Hh)) as (h1 & h2 & E & _ & Hins & Hel). rewrite Hins. eexists _, _. split; [reflexivity|].
  split; [|done|by left|done]. exists B. split; [by apply (client_write_ready s B _ n)|]. pose proof Hh as [Hh1 Hh2 Hh3 Hh4].
  assert (Hel' : forall b', b' ∈ h1 ++ mkLive (l_ref b) (l_size b) w :: h2 <-> b' = mkLive (l_ref b) (l_size b) w \/ (b' ∈ h /\ l_ref b' <> l_ref b)).
  { intros b'. rewrite <- Hel, !elem_of_app, elem_of_cons. tauto. }
  split.
  - intros x m q Hx. destruct (Hh1 x m q Hx) as (b' & Hb' & <-). destruct (Z.eq_dec (l_ref b') (l_ref b)) as [->|].
    + eexists. split; [apply Hel'; by left|done].
    + exists b'. split; [apply Hel'; by right|done].
  - intros b' Hb'. apply Hel' in Hb' as [->|[Hb' _]]; [split; [done|by exists n]|by apply Hh2].
  - rewrite E in Hh3. rewrite map_app in *. done.
  - intros b' a Hb' Ha. apply Hel' in Hb' as [->|[Hb' Hne]]; cbn in Ha |- *.
    + destruct (Z.ltb_spec (l_ref b - 8) a), (Z.ltb_spec a (l_ref b + l_size b)); done || lia.
    + destruct (Hh2 b' Hb') as (Hg' & k & Hk). pose proof (size_fits s B _ k _ (ready_binv s B Hrd) Hk Hg').
      destruct (used_apart s B _ _ _ _ _ _ (ready_binv s B Hrd) Hu Hk); [done| |]; rewrite in_range by lia; by apply Hh4.
Qed.

Lemma apartb_spec ref size l : apartb ref size l = true -> apart ref size l.
Proof.
  intros H r n Hin. unfold apartb in H. rewrite forallb_forall in H. apply list_elem_of_In in Hin. specialize (H _ Hin). cbn in H.
  apply orb_true_iff in H as [H|H]; apply Z.leb_le in H; auto.
Qed.

Lemma step_free_file s h ref size : run_inv s h -> 0 < ref -> ref mod 8 = 0 -> 0 < size ->
  exists s' h', step (OpFreeFile ref size) (s, h) = Ok (s', h') /\ run_inv s' h'.
Proof.
  intros H Hr H8 Hs. cbn [step]. destruct ((ref + size <=? m_baseline s) && apartb ref size (m_free_read_only s)) eqn:Ec; [|by eexists _, _].
  apply andb_true_iff in Ec as [Ec1 Ec2]. apply Z.leb_le in Ec1. destruct H as [(B & Hrd & Hh) Hbase Hst Hch].
  destruct (add_chunk_spec ref size _ Hch Hr Hs (apartb_spec _ _ _ Ec2)) as (l & El & Hl & _).
  assert (E : do_free ref size s = Ok (set_read_only l (set_tracking free_space_Dirty (m_commit_size s) s))).
  { unfold do_free, is_read_only. rewrite (proj2 (Z.ltb_lt ref (m_baseline s))) by lia. cbn [orb check mbind result_bind].
    rewrite land7, H8, (proj2 (Z.eqb_neq ref 0)) by lia. cbn [negb andb Z.eqb check mbind result_bind m_free_read_only set_tracking].
    rewrite El. destruct Hst as [->|[-> _]]; done. }
  rewrite E. eexists _, _. split; [reflexivity|]. split; [|done|by left|done]. exists B. split; [|by destruct Hh; split].
  destruct (ready_tracking s B free_space_Dirty (m_commit_size s) Hrd) as [(F & [Hb Hr']) Hf]. split; [|done]. exists F.
  split; [by apply (binv_ext (set_tracking free_space_Dirty (m_commit_size s) s))|by apply (rinv_blocks (set_tracking free_space_Dirty (m_commit_size s) s) _ B B F [] []); try done; apply Hr'].
Qed.

(** Rebuilding leaves nothing in use. *)
Lemma rebuild_inv s c : 0 <= m_baseline s < 2 ^ 63 -> slabs_ok (align_size_to_section_boundary (m_baseline s)) (m_slabs s) ->
  m_free_read_only s = [] -> (length (m_slabs s) <= 1)%nat -> Forall (fun e => slab_size e = minimal_alloc) (m_slabs s) ->
  run_inv (set_tracking free_space_Clean c (rebuild_freelists_from_slab s)) [].
Proof.
  intros Hb Hs Hro Hlen Hmin. destruct (rebuild_ready s (proj1 Hb) Hs) as (E1 & (K1 & K2 & K3 & K4) & B & Hrd & Hfr). split.
  - exists B. split; [by apply ready_tracking|]. split; [|by intros b Hb'; apply elem_of_nil in Hb'|constructor|by intros b a Hb'; apply elem_of_nil in Hb'].
    intros x m q Hx. destruct (Hfr x m _ Hx) as [[=] _].
  - cbn. rewrite K1. lia.
  - right. cbn. rewrite E1, K4. done.
  - cbn. by rewrite K4, Hro.
Qed.

Lemma step_reset s h : run_inv s h -> exists s' h', step OpReset (s, h) = Ok (s', h') /\ run_inv s' h'.
Proof.
  intros [(B & Hrd & Hh) Hbase Hst Hch]. cbn [step]. unfold reset_free_space_tracking.
  destruct Hst as [->|(Ec & -> & Hrest)]; [|rewrite Ec; eexists _, _; split; [reflexivity|]; split; [by exists B|done|by right|done]].
  eexists _, _. split; [reflexivity|]. pose proof (ready_binv s B Hrd) as Hb. apply rebuild_inv; cbn.
  - split; [apply Hb|done].
  - pose proof (b_slabs _ _ Hb) as Hs. unfold kept_slabs. destruct (m_slabs s) as [|e l]; [done|]. destruct (minimal_alloc <? slab_size e); [done|].
    cbn [slabs_ok] in *. tauto.
  - done.
  - unfold kept_slabs. destruct (m_slabs s) as [|e l]; cbn; [lia|]. destruct (minimal_alloc <? slab_size e); cbn; lia.
  - pose proof (b_slabs _ _ Hb) as Hs. unfold kept_slabs. destruct (m_slabs s) as [|e l]; [done|]. destruct (Z.ltb_spec minimal_alloc (slab_size e)); [done|].
    destruct Hs as (_ & Hs & _). constructor; [lia|done].
Qed.

Lemma align_mono a b : 0 <= a -> a < b -> align_size_to_section_boundary a <= align_size_to_section_boundary b.
Proof.
  intros Ha Hab. pose proof (align_section_spec a Ha) as [G1 G2]. pose proof (align_section_spec b ltac:(lia)) as [G3 G4]. cbv zeta in *.
  change (2 ^ 26) with 67108864 in *. dlia.
Qed.

(** A slab that starts behind the old file starts behind the new one. *)
Lemma moved_slabs old new l : 0 <= old -> old < new -> new < 2 ^ 63 -> (length l <= 1)%nat -> Forall (fun e => slab_size e = minimal_alloc) l ->
  slabs_ok (align_size_to_section_boundary old) l ->
  let d := align_size_to_section_boundary new - align_size_to_section_boundary old in
  let l' := if 0 <? d then map (fun e => mkSlab (ref_end e + d) (slab_size e)) l else l in
  slabs_ok (align_size_to_section_boundary new) l' /\ (length l' <= 1)%nat /\ Forall (fun e => slab_size e = minimal_alloc) l'.
Proof.
  intros Ho Hn Hmax Hlen Hmin Hok d. pose proof (align_mono old new Ho Hn). pose proof (align_section_spec new ltac:(lia)) as [Ha _]. cbv zeta.
  destruct l as [|e [|e' l]]; [by destruct (0 <? d)| |cbn in Hlen; lia]. apply Forall_cons_iff in Hmin as [Hmin _].
  destruct Hok as (H1 & H2 & H3 & H4 & _). unfold slab_start in *. destruct (Z.ltb_spec 0 d).
  - cbn [map]. split; [|split; [cbn; lia|by constructor]]. cbn [slabs_ok]. unfold slab_start. cbn [ref_end slab_size]. rewrite Hmin in *.
    unfold minimal_alloc in *. change (2 ^ 26) with 67108864 in *. change (2 ^ 63) with 9223372036854775808 in *. change (2 ^ 64) with 18446744073709551616 in *. split; [lia|]. split; [lia|]. split; [done|]. split; [lia|done].
  - split; [|split; [cbn; lia|by constructor]]. assert (align_size_to_section_boundary new = align_size_to_section_boundary old) as -> by lia. done.
Qed.

Lemma step_view s h fs : run_inv s h -> fs < 2 ^ 63 -> exists s' h', step (OpView fs) (s, h) = Ok (s', h') /\ run_inv s' h'.
Proof.
  intros H Hfs. cbn [step]. destruct (i_state _ _ H) as [Ec|(Ec & -> & Hlen & Hmin & Hro)]; rewrite Ec; [by eexists _, _|].
  eexists _, _. split; [reflexivity|]. unfold update_reader_view. destruct (Z.leb_spec fs (m_baseline s)) as [|Hlt]; [done|].
  destruct H as [(B & Hrd & Hh) Hbase _ _]. pose proof (ready_binv s B Hrd) as Hb. pose proof (b_base _ _ Hb) as Hb0.
  destruct (moved_slabs (m_baseline s) fs (m_slabs s) Hb0 Hlt Hfs Hlen Hmin (b_slabs _ _ Hb)) as (M1 & M2 & M3). cbv zeta in M1, M2, M3.
  set (d := align_size_to_section_boundary fs - align_size_to_section_boundary (m_baseline s)) in *. set (s1 := if 0 <? d then _ else _).
  assert (E1 : m_slabs s1 = (if 0 <? d then map (fun e => mkSlab (ref_end e + d) (slab_size e)) (m_slabs s) else m_slabs s) /\
    m_baseline s1 = fs /\ m_free_read_only s1 = [] /\ m_free_space_state s1 = free_space_Clean) by (unfold s1; by destruct (0 <? d)).
  destruct E1 as (E1 & E2 & E3 & E4). rewrite <- E1 in M1, M2, M3. rewrite <- E2 in M1.
  destruct (rebuild_ready s1 ltac:(lia) M1) as (_ & (_ & K2 & _) & _). rewrite E4 in K2.
  pose proof (rebuild_inv s1 (m_commit_size (rebuild_freelists_from_slab s1)) ltac:(lia) M1 E3 M2 M3) as R.
  rewrite <- K2 in R. by destruct (rebuild_freelists_from_slab s1).
Qed.

Lemma step_inv o s h : run_inv s h -> op_ok o -> exists s' h', step o (s, h) = Ok (s', h') /\ run_inv s' h'.
Proof.
  intros H Ho. destruct o as [size|i|i w f|ref size| |fs].
  - by apply step_alloc.
  - by apply step_free.
  - by apply step_write.
  - destruct Ho as (? & ? & ?). by apply step_free_file.
  - by apply step_reset.
  - by apply step_view.
Qed.

Lemma run_keeps_inv ops : forall s h, run_inv s h -> Forall op_ok ops -> exists s' h', run ops (s, h) = Ok (s', h') /\ run_inv s' h'.
Proof.
  induction ops as [|o ops IH]; intros s h H Hops; cbn [run]; [by eexists _, _|]. apply Forall_cons_iff in Hops as [Ho Hops].
  destruct (step_inv o s h H Ho) as (s1 & h1 & -> & H1). by apply IH.
Qed.

Lemma init_inv file_size : 0 <= file_size < 2 ^ 63 -> run_inv (init file_size) [].
Proof.
  intros Hf. split; [|cbn; lia|right; cbn; repeat (split; [done || lia|]); done|done]. exists (fun _ => None). split; [split; [|done]; exists (fun _ => [])|].
  - split.
    + split; try done; [cbn; lia|]. intros sl Hsl. by apply elem_of_nil in Hsl.
    + split; try done; [constructor|intros k; constructor|]. intros k x. rewrite elem_of_nil. split; [done|by intros [[=] _]].
  - split; [done|by intros b Hb; apply elem_of_nil in Hb|constructor|by intros b a Hb; apply elem_of_nil in Hb].
Qed.

(** With nothing in use, every slab is one free block. *)
Lemma nothing_used s B sl : ready s B -> (forall x m q, ~ used B x m q) -> sl ∈ m_slabs s -> after s (slab_start sl) = slab_size sl - 16.
Proof.
  intros [(F & [Hb _]) Hf] Hno Hsl. assert (Hfree : forall x m u, B x = Some (m, u) -> u = None) by (intros x m [q|] Hx; [by apply Hno in Hx|done]).
  destruct (b_first _ _ Hb sl Hsl) as [[n u] Hx]. rewrite (Hfree _ _ _ Hx) in Hx. destruct (b_tags _ _ Hb _ _ _ Hx) as [Ht _].
  replace (slab_start sl + 8 - 8) with (slab_start sl) in Ht by lia. rewrite Ht. cbn [sg]. pose proof (b_size _ _ Hb _ _ _ Hx) as [H24 _].
  destruct (b_right _ _ Hb _ _ _ Hx) as [[[m v] Hm]|(_ & _ & sl' & Hsl' & He)].
  - rewrite (Hfree _ _ _ Hm) in Hm. by destruct (Hf _ _ _ Hx Hm).
  - assert (sl = sl') as <-; [|unfold slab_start in *; lia]. destruct (b_in _ _ Hb _ _ _ Hx) as (sl2 & Hsl2 & I1 & I2). unfold sizeof_FreeBlock in *.
    assert (sl = sl2) as <-; [apply (slab_unique _ _ (b_base' Hb) (b_slabs _ _ Hb) _ _ (slab_start sl + 8) Hsl Hsl2); [|lia]|].
    + pose proof (slab_pos _ _ (b_base' Hb) (b_slabs _ _ Hb) sl Hsl). unfold minimal_alloc in *. lia.
    + pose proof (slab_pos _ _ (b_base' Hb) (b_slabs _ _ Hb) sl' Hsl') as [_ P]. unfold minimal_alloc in P.
      apply (slab_unique _ _ (b_base' Hb) (b_slabs _ _ Hb) _ _ (slab_start sl + 8 + n) Hsl Hsl'); lia.
Qed.
