(* ===== verification/SlabTheorems.v ===== *)
(** * The slab allocator: theorems

    Runs of the allocator under any client that stays inside its blocks; what a
    single allocation and a single release do; and a request of the largest size that
    the interface admits. *)

From S2P Require Import Prelude FreeList FreeListAlloc FreeListFile SlabAlloc SlabBlocks SlabInv SlabOps SlabSteps SlabRun.

Lemma placed_smaller s ref n m : 0 < m <= n -> placed s ref n -> placed s ref m.
Proof. intros Hm (H1 & H2 & H3). split; [done|]. split; [done|]. change (2 ^ 26) with 67108864 in *. dlia. Qed.


(** A transaction with three blocks, one of them overwritten and one released, and a
    second one on a longer file. *)
Definition example_ops : list Op :=
  [OpAlloc 64; OpAlloc 200000; OpAlloc 8; OpWrite 1 (fun a => mkBB a 7) (fun a => mkFB a a a); OpFree 2; OpFreeFile 64 32; OpAlloc 40;
   OpReset; OpView 100000000; OpAlloc 24; OpFree 0].


(** An allocation.  For a size of at most 2^26 - 16 bytes, a multiple of
    eight, [do_alloc] either returns a block that was not in use, of at least the size
    asked for and at most 32 bytes more than the least block, and leaves every other block in
    use as it was, together with its memory; or the references are exhausted, and
    nothing but the tracking changes.  No assertion fails. *)
Theorem do_alloc_correct s B size : ready s B -> m_free_space_state s <> free_space_Invalid -> good_size size ->
  match do_alloc size s with
  | (Ok ref, s') => exists B' n, ready s' B' /\ size <= n <= Z.max 24 size + 32 /\ placed s' ref n /\ (forall m q, ~ used B ref m q) /\
      (forall y m q, used B' y m q <-> (y = ref /\ m = n /\ q = size) \/ used B y m q) /\
      dirtied s s' (m_commit_size s + size) /\ memory_kept B s s'
  | (Throw e, s') => e = MaximumFileSizeExceeded /\ refs_exhausted (fix_size size) s /\ s' = set_tracking free_space_Dirty (m_commit_size s + size) s
  | (OutOfFuel, _) => False
  end.
Proof.
  intros Hrd Hst Hg. pose proof (do_alloc_spec s B size Hrd Hst Hg) as H. destruct (do_alloc size s) as [[ref|e|] s']; [|done|done].
  destruct H as (B' & n & Hrd' & Hn & Hu & Hiff & Hnew & Hd & Hk). destruct (fix_size_good size Hg) as (E & _).
  exists B', n. split; [done|]. split; [lia|]. split; [by apply (block_placed s' B' ref n (Some size)); [apply ready_binv|]|]. done.
Qed.

Lemma init_ready file_size : 0 <= file_size < 2 ^ 63 -> ready (init file_size) (fun _ => None).
Proof.
  intros Hf. split; [|done]. exists (fun _ => []). split.
  - split; try done; [cbn; lia|]. intros sl Hsl. by apply elem_of_nil in Hsl.
  - split; try done; [constructor|intros k; constructor|]. intros k x. rewrite elem_of_nil. split; [done|by intros [[=] _]].
Qed.

Lemma do_alloc_correct_witness : exists ref s' B' n, do_alloc 64 (init 4096) = (Ok ref, s') /\ ref = 2 ^ 26 + 8 /\ ready s' B' /\ used B' ref n 64.
Proof.
  pose proof (do_alloc_correct (init 4096) (fun _ => None) 64) as H.
  assert (E : match do_alloc 64 (init 4096) with (Ok r, _) => r | _ => 0 end = 2 ^ 26 + 8) by (vm_compute; reflexivity).
  destruct (do_alloc 64 (init 4096)) as [[ref|e|] s'] eqn:Ea; [|vm_compute in E; discriminate|vm_compute in E; discriminate].
  destruct H as (B' & n & Hrd & _ & _ & _ & Hu & _).
  - apply init_ready. lia.
  - cbn. discriminate.
  - split; [split; [reflexivity|vm_compute; discriminate]|reflexivity].
  - exists ref, s', B', n. split; [reflexivity|]. split; [exact E|]. split; [exact Hrd|]. apply Hu. left. repeat split.
Defined.

(** A release.  [do_free] of a block in use, with the size it was asked
    for, passes every assertion, makes exactly that block available, leaves no two
    free blocks side by side, and keeps the memory of every block that stays in
    use. *)
Theorem do_free_correct s B ref n size : ready s B -> m_free_space_state s = free_space_Dirty -> used B ref n size ->
  exists s' B', do_free ref size s = Ok s' /\ ready s' B' /\ nofrag B' /\ (forall y m q, used B' y m q <-> used B y m q /\ y <> ref) /\
    dirtied s s' (m_commit_size s - size) /\ memory_kept B' s s'.
Proof.
  intros Hrd Hst Hu. destruct (do_free_spec s B ref n size Hrd Hst Hu) as (s' & B' & E & Hrd' & H). exists s', B'. split; [done|]. split; [done|]. split; [apply Hrd'|done].
Qed.

Lemma do_free_correct_witness : exists s s' B', do_alloc 64 (init 4096) = (Ok (2 ^ 26 + 8), s) /\ do_free (2 ^ 26 + 8) 64 s = Ok s' /\ ready s' B' /\
  forall m q, ~ used B' (2 ^ 26 + 8) m q.
Proof.
  pose proof (do_alloc_spec (init 4096) (fun _ => None) 64) as H.
  assert (E : match do_alloc 64 (init 4096) with (Ok r, _) => r | _ => 0 end = 2 ^ 26 + 8) by (vm_compute; reflexivity).
  destruct (do_alloc 64 (init 4096)) as [[ref|e|] s] eqn:Ea; [|vm_compute in E; discriminate|vm_compute in E; discriminate].
  destruct H as (B & n & Hrd & _ & Hu & _ & _ & (_ & Hst & _) & _).
  - apply init_ready. lia.
  - cbn. discriminate.
  - split; [split; [reflexivity|vm_compute; discriminate]|reflexivity].
  - rewrite E in *. destruct (do_free_correct s B (2 ^ 26 + 8) n 64 Hrd Hst Hu) as (s' & B' & Ef & Hrd' & _ & Hu' & _).
    exists s, s', B'. split; [reflexivity|]. split; [exact Ef|]. split; [exact Hrd'|]. intros m q Hq. apply Hu' in Hq as [_ Hne]. apply Hne. reflexivity.
Defined.

(** ** The largest request *)

Lemma no_block_that_large s B F k e : sinv s B F [] -> bm_find k (m_block_map s) = Some e -> k <= maximal_alloc - 16.
Proof.
  intros [Hb Hr] Hk. rewrite (r_map _ _ _ _ Hr) in Hk. apply head_Some_elem_of in Hk. apply (r_free _ _ _ _ Hr) in Hk as [Hk _].
  destruct (b_in _ _ Hb _ _ _ Hk) as (sl & Hsl & H1 & H2). destruct (slabs_member _ _ (b_slabs _ _ Hb) sl Hsl). unfold slab_start in *. lia.
Qed.

Lemma no_ring_that_large s B F k : sinv s B F [] -> maximal_alloc - 16 < k -> bm_lower_bound k (m_block_map s) = [].
Proof.
  intros H Hk. pose proof (bm_lower_bound_spec k _ (r_sorted _ _ _ _ (proj2 H))) as Hlb. destruct (bm_lower_bound k (m_block_map s)) as [|[k1 e1] it]; [done|].
  destruct Hlb as (H1 & H2 & _). pose proof (no_block_that_large s B F k1 e1 H H2). lia.
Qed.

(** The slab for such a request is cut to a section, which leaves 2^26 - 16 bytes. *)
Lemma grow_largest s : let st := next_start (align_size_to_section_boundary (m_baseline s)) (m_slabs s) in st + maximal_alloc < 2 ^ 64 ->
  exists s', grow_slab (maximal_alloc - 8) s = Ok (st + 8, s') /\ size_from_block (st + 8) s' = maximal_alloc - 16.
Proof.
  intros st Hfit. rewrite grow_slab_eq. fold st. cbv zeta. assert (Eg : grown_size (maximal_alloc - 8) s = maximal_alloc).
  { unfold grown_size. apply Z.min_l. apply Z.le_trans with (grow_loop (Z.to_nat ((maximal_alloc - 8 + 16) / minimal_alloc)) minimal_alloc (maximal_alloc - 8 + 16)); [|lia].
    vm_compute. discriminate. }
  rewrite Eg, (proj2 (Z.leb_gt (2 ^ 64) (st + maximal_alloc))) by lia. unfold slab_to_entry, sizeof_BetweenBlocks. cbn [ref_end].
  replace (st + maximal_alloc - st - 2 * 8) with (maximal_alloc - 16) by lia. set (s1 := set_bb st _ _).
  assert (E1 : forall a, bb s1 a = if a =? st then mkBB 0 (maximal_alloc - 16) else bb s a) by done.
  rewrite block_after_pos by (unfold after; rewrite E1, Z.eqb_refl; vm_compute; done). eexists. split; [reflexivity|].
  unfold size_from_block, bb_before, sizeof_BetweenBlocks, bb_after. cbn [set_bb bb set_fb_ref set_blk clear_links set_fb_next set_fb_prev].
  unfold bb_before, sizeof_BetweenBlocks. rewrite !E1. replace (st + 8 - 8) with st by lia. rewrite Z.eqb_refl. cbn [block_after_size].
  rewrite (proj2 (Z.eqb_neq st (st + 8 + (maximal_alloc - 16)))); [done|]. unfold maximal_alloc, section_shift. lia.
Qed.

(** [do_alloc] admits every size below 2^26, but for 2^26 - 8 it finds or
    makes a block of 2^26 - 16 bytes at most: whatever its state, as long as a slab can
    be added, the last check of [allocate_block], which release builds leave out,
    fails on a block that is eight bytes short. *)
Theorem largest_request_short s B : ready s B -> m_free_space_state s <> free_space_Invalid ->
  next_start (align_size_to_section_boundary (m_baseline s)) (m_slabs s) + maximal_alloc < 2 ^ 64 ->
  (do_alloc (maximal_alloc - 8) s).1 = Throw AssertionFailed /\
  exists x s', grow_slab (maximal_alloc - 8) s = Ok (x, s') /\ break_block x (maximal_alloc - 8) s' = (None, s') /\ size_from_block x s' = maximal_alloc - 16.
Proof.
  intros Hrd Hst Hfit. assert (Hshort : forall t x, size_from_block x t = maximal_alloc - 16 -> break_block x (maximal_alloc - 8) t = (None, t)).
  { intros t x Hx. unfold break_block. by rewrite Hx. }
  destruct (grow_largest s Hfit) as (s' & E & Es). split; [|by exists (next_start (align_size_to_section_boundary (m_baseline s)) (m_slabs s) + 8), s'; auto].
  set (s1 := set_tracking free_space_Dirty (m_commit_size s + (maximal_alloc - 8)) s).
  assert (Ea : allocate_block (fix_size (maximal_alloc - 8)) s1 = Throw AssertionFailed).
  { change (fix_size (maximal_alloc - 8)) with (maximal_alloc - 8). destruct (ready_tracking s B free_space_Dirty (m_commit_size s + (maximal_alloc - 8)) Hrd) as [(F & H1) _].
    destruct (grow_largest s1 Hfit) as (s2 & E2 & Es2). unfold allocate_block, find. fold s1 in H1.
    rewrite (no_ring_that_large s1 B F _ H1) by (unfold maximal_alloc; lia). cbn [fl_size]. change (0 =? maximal_alloc - 8) with false. cbn [find_larger bm_lower_bound fl_it fl_size Z.eqb negb].
    rewrite E2. cbn [mbind result_bind]. rewrite (Hshort _ _ Es2), Es2. done. }
  unfold do_alloc. change (negb _) with false. cbv iota. fold s1. rewrite Ea. by destruct (m_free_space_state s).
Qed.

Lemma largest_request_short_witness : (do_alloc (maximal_alloc - 8) (init 4096)).1 = Throw AssertionFailed.
Proof.
  refine (proj1 (largest_request_short (init 4096) (fun _ => None) _ _ _)).
  - apply init_ready. lia.
  - cbn. discriminate.
  - vm_compute. reflexivity.
Defined.
