(* ===== verification/Base64.v ===== *)
(** * Base64 (src/llbt/util/base64.cpp and .hpp)

    Encoding and decoding over lists of bytes.  The output of [base64_decode] is the list of
    the bytes it writes, from the start of the buffer on. *)

From S2P Require Import Prelude.

Definition g_base64_encoding_chars : list Z :=
  map (fun i => 65 + Z.of_nat i) (seq 0 26) ++ map (fun i => 97 + Z.of_nat i) (seq 0 26) ++ map (fun i => 48 + Z.of_nat i) (seq 0 10) ++ [43; 47].

(** 16 entries per row. *)
Definition g_base64_chars : list Z := [
  66; 66; 66; 66; 66; 66; 66; 66; 66; 65; 65; 66; 66; 66; 66; 66;
  66; 66; 66; 66; 66; 66; 66; 66; 66; 66; 66; 66; 66; 66; 66; 66;
  65; 66; 66; 66; 66; 66; 66; 66; 66; 66; 66; 62; 66; 62; 66; 63;
  52; 53; 54; 55; 56; 57; 58; 59; 60; 61; 66; 66; 66; 64; 66; 66;
  66;  0;  1;  2;  3;  4;  5;  6;  7;  8;  9; 10; 11; 12; 13; 14;
  15; 16; 17; 18; 19; 20; 21; 22; 23; 24; 25; 66; 66; 66; 66; 63;
  66; 26; 27; 28; 29; 30; 31; 32; 33; 34; 35; 36; 37; 38; 39; 40;
  41; 42; 43; 44; 45; 46; 47; 48; 49; 50; 51; 66; 66; 66; 66; 66 ] ++ repeat 66 128.

Definition index_of_base64_byte (c : Z) : Z := nth (Z.to_nat c) g_base64_chars 66.
Definition encoding_char (i : Z) : Z := nth (Z.to_nat i) g_base64_encoding_chars 0.

Definition base64_encoded_size (in_buffer_size : Z) : Z := 4 * ((in_buffer_size + 2) / 3).
Definition base64_decoded_size (base64_size : Z) : Z := (base64_size * 3 + 3) / 4.

(** ** Encoding *)

Definition encode_triple (octet_a octet_b octet_c : Z) : list Z :=
  let triple := u32 (Z.shiftl octet_a 16 + Z.shiftl octet_b 8 + octet_c) in
  map (fun k => encoding_char (Z.land (Z.shiftr triple (k * 6)) 63)) [3; 2; 1; 0].

Fixpoint encode_loop (in_buffer : list Z) : list Z :=
  match in_buffer with
  | [] => []
  | [a] => encode_triple a 0 0
  | [a; b] => encode_triple a b 0
  | a :: b :: c :: rest => encode_triple a b c ++ encode_loop rest
  end.

Definition base64_encode (in_buffer : list Z) (out_size : Z) : result (list Z) :=
  let n := Z.of_nat (length in_buffer) in
  let encoded_size := Z.to_nat (base64_encoded_size n) in
  if negb (n <? 2 ^ 64 - 1 - 2) || negb (n <? 3 * ((2 ^ 64 - 1) / 4) - 2) || negb (base64_encoded_size n <=? out_size) then Throw AssertionFailed
  else
    let out := encode_loop in_buffer in
    Ok (if n mod 3 =? 1 then <[(encoded_size - 2)%nat := 61]> (<[(encoded_size - 1)%nat := 61]> out)
        else if n mod 3 =? 2 then <[(encoded_size - 1)%nat := 61]> out
        else out).

(** ** Decoding *)

Record Decoder := mkDecoder { written : list Z; buffer : Z; buffer_size : nat; num_trailing_equals : nat }.

(** [None] is the return for invalid characters and for data after the padding. *)
Fixpoint decode_loop (input : list Z) (s : Decoder) : option Decoder :=
  match input with
  | [] => Some s
  | c :: input =>
      let x := index_of_base64_byte c in
      if x =? 64 then decode_loop input (mkDecoder (written s) (buffer s) (buffer_size s) (S (num_trailing_equals s)))
      else if x =? 65 then decode_loop input s
      else if x =? 66 then None
      else if (0 <? num_trailing_equals s)%nat then None
      else
        let b := Z.lor (u32 (Z.shiftl (buffer s) 6)) x in
        if (S (buffer_size s) =? 4)%nat
        then decode_loop input (mkDecoder (written s ++ [Z.land (Z.shiftr b 16) 255; Z.land (Z.shiftr b 8) 255; Z.land (Z.shiftr b 0) 255]) 0 0 (num_trailing_equals s))
        else decode_loop input (mkDecoder (written s) b (S (buffer_size s)) (num_trailing_equals s))
  end.

Definition base64_decode (input : list Z) (out_size : Z) : result (option (list Z)) :=
  let n := Z.of_nat (length input) in
  if negb (n <? (2 ^ 64 - 1) / 3) || negb (base64_decoded_size n <=? out_size) then Throw AssertionFailed
  else
    match decode_loop input (mkDecoder [] 0 0 0) with
    | None => Ok None
    | Some s =>
        let extra := (length input mod 4)%nat in
        let equals := if (num_trailing_equals s =? 0)%nat && (1 <? extra)%nat then (4 - extra)%nat else num_trailing_equals s in
        match equals with
        | 0%nat => Ok (if negb (buffer_size s =? 0)%nat then None else Some (written s))
        | 1%nat => Ok (Some (written s ++ [Z.land (Z.shiftr (buffer s) 10) 255; Z.land (Z.shiftr (buffer s) 2) 255]))
        | 2%nat => Ok (Some (written s ++ [Z.land (Z.shiftr (buffer s) 4) 255]))
        | _ => Ok None
        end
    end.

(** The vector has the size of the bound first, and that of the result in the end. *)
Definition base64_decode_to_vector (encoded : list Z) : result (option (list Z)) := base64_decode encoded (base64_decoded_size (Z.of_nat (length encoded))).

(** ** Lemmas *)

Lemma encoding_char_index i : 0 <= i < 64 -> index_of_base64_byte (encoding_char i) = i.
Proof.
  intros Hi. assert (H : forallb (fun k => index_of_base64_byte (encoding_char (Z.of_nat k)) =? Z.of_nat k) (seq 0 64) = true) by (vm_compute; reflexivity).
  rewrite forallb_forall in H. specialize (H (Z.to_nat i)). rewrite Z2Nat.id in H by lia. apply Z.eqb_eq, H, in_seq. lia.
Qed.

Lemma decode_step i input s : 0 <= i < 64 -> num_trailing_equals s = 0%nat -> 0 <= buffer s < 2 ^ 26 -> decode_loop (encoding_char i :: input) s =
  let b := buffer s * 64 + i in
  if (S (buffer_size s) =? 4)%nat then decode_loop input (mkDecoder (written s ++ [b / 65536 mod 256; b / 256 mod 256; b mod 256]) 0 0 0) else decode_loop input (mkDecoder (written s) b (S (buffer_size s)) 0).
Proof.
  intros Hi Ht Hb. cbn [decode_loop]. rewrite encoding_char_index by done. rewrite !(proj2 (Z.eqb_neq i _)) by lia. rewrite Ht. cbn [Nat.ltb Nat.leb].
  assert (E : Z.lor (u32 (Z.shiftl (buffer s) 6)) i = buffer s * 64 + i).
  { unfold u32. rewrite Z.mod_small by (rewrite Z.shiftl_mul_pow2 by lia; lia). rewrite Z.lor_comm, lor_add by lia. lia. }
  rewrite E. cbv zeta. change 255 with (Z.ones 8). rewrite !Z.land_ones, !Z.shiftr_div_pow2 by lia. rewrite Z.div_1_r. done.
Qed.

Definition is_byte (b : Z) : Prop := 0 <= b < 256.
Definition clean (w : list Z) : Decoder := mkDecoder w 0 0 0.

(** The four sextets of three bytes. *)
Lemma encode_triple_eq a b c : is_byte a -> is_byte b -> is_byte c ->
  encode_triple a b c = map encoding_char [a / 4; a mod 4 * 16 + b / 16; b mod 16 * 4 + c / 64; c mod 64].
Proof.
  unfold is_byte. intros Ha Hb Hc. unfold encode_triple. rewrite !Z.shiftl_mul_pow2 by lia. unfold u32. rewrite Z.mod_small by lia. cbn [map]. change 63 with (Z.ones 6). rewrite !Z.land_ones, !Z.shiftr_div_pow2 by lia. change (2 ^ (3 * 6)) with 262144. change (2 ^ (2 * 6)) with 4096. change (2 ^ (1 * 6)) with 64. change (2 ^ (0 * 6)) with 1. change (2 ^ 16) with 65536. change (2 ^ 8) with 256. change (2 ^ 6) with 64.
  repeat (f_equal; try dlia).
Qed.

Lemma decode_triple a b c w input : is_byte a -> is_byte b -> is_byte c -> decode_loop (encode_triple a b c ++ input) (clean w) = decode_loop input (clean (w ++ [a; b; c])).
Proof.
  intros Ha Hb Hc. rewrite encode_triple_eq by done. unfold is_byte in *. cbn [map app]. unfold clean. do 4 (rewrite decode_step; [|cbn [buffer]; dlia|done|cbn [buffer]; dlia]; cbn [buffer buffer_size written Nat.eqb]; cbv zeta). do 2 f_equal. f_equal. repeat (f_equal; try dlia).
Qed.

Fixpoint triples_ind {A} (P : list A -> Prop) (H0 : P []) (H1 : forall a, P [a]) (H2 : forall a b, P [a; b]) (H3 : forall a b c l, P l -> P (a :: b :: c :: l)) (l : list A) : P l :=
  match l with
  | [] => H0
  | [a] => H1 a
  | [a; b] => H2 a b
  | a :: b :: c :: l => H3 a b c l (triples_ind P H0 H1 H2 H3 l)
  end.

(** What [base64_encode] leaves in the buffer. *)
Fixpoint encoded (l : list Z) : list Z :=
  match l with
  | [] => []
  | [a] => take 2 (encode_triple a 0 0) ++ [61; 61]
  | [a; b] => take 3 (encode_triple a b 0) ++ [61]
  | a :: b :: c :: rest => encode_triple a b c ++ encoded rest
  end.

Lemma length_encoded l : Z.of_nat (length (encoded l)) = base64_encoded_size (Z.of_nat (length l)) /\ length (encode_loop l) = length (encoded l).
Proof.
  unfold base64_encoded_size. induction l as [|a|a b|a b c l [IH1 IH2]] using triples_ind; try (by split). cbn [encoded encode_loop encode_triple map app length]. split; [|lia]. rewrite !Nat2Z.inj_succ, IH1. dlia.
Qed.

(** The padding of the source is put over the last characters. *)
Lemma padded l : let n := Z.of_nat (length l) in let sz := length (encoded l) in
  (if n mod 3 =? 1 then <[(sz - 2)%nat := 61]> (<[(sz - 1)%nat := 61]> (encode_loop l)) else if n mod 3 =? 2 then <[(sz - 1)%nat := 61]> (encode_loop l) else encode_loop l) = encoded l.
Proof.
  induction l as [|a|a b|a b c l IH] using triples_ind; try reflexivity. cbv zeta in *. replace (Z.of_nat (length (a :: b :: c :: l)) mod 3) with (Z.of_nat (length l) mod 3) by (cbn [length]; dlia). destruct (length_encoded l) as [Hl _].
  assert (Hp : (length l = 0)%nat \/ (4 <= length (encoded l))%nat) by (unfold base64_encoded_size in Hl; destruct l; [by left|right; cbn [length] in Hl; dlia]).
  cbn [encoded encode_loop]. rewrite length_app. assert (E4 : length (encode_triple a b c) = 4%nat) by reflexivity. rewrite E4. remember (length (encoded l)) as n eqn:En. rewrite <- IH.
  destruct (Z.eqb_spec (Z.of_nat (length l) mod 3) 1) as [E|_]; [|destruct (Z.eqb_spec (Z.of_nat (length l) mod 3) 2) as [E|_]; [|done]]; (destruct Hp as [Hp|Hp]; [by rewrite Hp in E|]).
  - rewrite !insert_app_r_alt by lia. by rewrite E4.
  - rewrite insert_app_r_alt by lia. by rewrite E4.
Qed.

Lemma base64_encode_eq l out_size : Z.of_nat (length l) < 2 ^ 62 -> base64_encoded_size (Z.of_nat (length l)) <= out_size -> base64_encode l out_size = Ok (encoded l).
Proof.
  intros Hl Ho. unfold base64_encode. change (3 * ((2 ^ 64 - 1) / 4) - 2) with 13835058055282163707. rewrite !(proj2 (Z.ltb_lt _ _)) by lia. rewrite (proj2 (Z.leb_le _ _)) by lia. cbn [negb orb]. replace (Z.to_nat (base64_encoded_size (Z.of_nat (length l)))) with (length (encoded l)) by (destruct (length_encoded l); lia). f_equal. apply padded.
Qed.

(** What the loop of the decoder makes of an encoded text, and what follows it. *)
Definition tail_bytes (s : Decoder) : list Z := match num_trailing_equals s with 1%nat => [Z.land (Z.shiftr (buffer s) 10) 255; Z.land (Z.shiftr (buffer s) 2) 255] | 2%nat => [Z.land (Z.shiftr (buffer s) 4) 255] | _ => [] end.

Lemma decode_encoded l w : Forall is_byte l -> exists s, decode_loop (encoded l) (clean w) = Some s /\ (num_trailing_equals s <= 2)%nat /\ (num_trailing_equals s = 0%nat -> buffer_size s = 0%nat) /\ written s ++ tail_bytes s = w ++ l.
Proof.
  intros Hl. revert w. induction l as [|a|a b|a b c l IH] using triples_ind; intros w.
  - exists (clean w). cbn. split_and!; [done|lia|done|by rewrite !app_nil_r].
  - pose proof (Forall_inv Hl) as Ha. cbn [encoded]. rewrite encode_triple_eq by (done || unfold is_byte; lia). unfold is_byte in Ha. cbn [map take app]. unfold clean. do 2 (rewrite decode_step; [|cbn [buffer]; dlia|done|cbn [buffer]; dlia]; cbn [buffer buffer_size written Nat.eqb]; cbv zeta).
    eexists. split; [reflexivity|]. split; [done|]. split; [done|]. cbn [written tail_bytes num_trailing_equals buffer]. do 2 f_equal. change 255 with (Z.ones 8). rewrite Z.land_ones, Z.shiftr_div_pow2 by lia. dlia.
  - pose proof (Forall_inv Hl) as Ha. pose proof (Forall_inv (Forall_inv_tail Hl)) as Hb. cbn [encoded]. rewrite encode_triple_eq by (done || unfold is_byte; lia). unfold is_byte in Ha, Hb. cbn [map take app]. unfold clean. do 3 (rewrite decode_step; [|cbn [buffer]; dlia|done|cbn [buffer]; dlia]; cbn [buffer buffer_size written Nat.eqb]; cbv zeta).
    eexists. split; [reflexivity|]. split; [cbn; lia|]. split; [done|]. cbn [written tail_bytes num_trailing_equals buffer]. change 255 with (Z.ones 8). rewrite !Z.land_ones, !Z.shiftr_div_pow2 by lia. change (2 ^ 10) with 1024. change (2 ^ 2) with 4. change (2 ^ 8) with 256. repeat (f_equal; try dlia).
  - pose proof (Forall_inv Hl) as Ha. apply Forall_inv_tail in Hl. pose proof (Forall_inv Hl) as Hb. apply Forall_inv_tail in Hl. pose proof (Forall_inv Hl) as Hc. apply Forall_inv_tail in Hl. cbn [encoded]. rewrite decode_triple by done. destruct (IH Hl (w ++ [a; b; c])) as (s & E & H1 & H2 & H3). exists s. split_and!; try done. by rewrite H3, <- app_assoc.
Qed.

(** What is encoded is decoded to the same bytes: for bytes of any length below 2^60 the
    encoder fills exactly the announced size, the decoder accepts its output, and the bytes it
    writes are those that were encoded and fit the announced bound. *)
Theorem base64_roundtrip l : Forall is_byte l -> Z.of_nat (length l) < 2 ^ 60 ->
  exists text, base64_encode l (base64_encoded_size (Z.of_nat (length l))) = Ok text /\ Z.of_nat (length text) = base64_encoded_size (Z.of_nat (length l)) /\
    base64_decode_to_vector text = Ok (Some l) /\ Z.of_nat (length l) <= base64_decoded_size (Z.of_nat (length text)).
Proof.
  intros Hb Hl. exists (encoded l). destruct (length_encoded l) as [Hn _]. split; [apply base64_encode_eq; lia|]. split; [done|]. assert (Hd : Z.of_nat (length l) <= base64_decoded_size (Z.of_nat (length (encoded l)))) by (rewrite Hn; unfold base64_decoded_size, base64_encoded_size; dlia). split; [|done].
  unfold base64_decode_to_vector, base64_decode. rewrite (proj2 (Z.ltb_lt _ _)) by (rewrite Hn; unfold base64_encoded_size; change ((2 ^ 64 - 1) / 3) with 6148914691236517205; dlia). rewrite Z.leb_refl. cbn [negb orb].
  destruct (decode_encoded l [] Hb) as (s & E & H1 & H2 & H3). change (clean []) with (mkDecoder [] 0 0 0) in E. rewrite E. replace (length (encoded l) mod 4)%nat with 0%nat by (apply Nat2Z.inj; rewrite Nat2Z.inj_mod, Hn; unfold base64_encoded_size; change (Z.of_nat 4) with 4; dlia). rewrite andb_false_r.
  rewrite app_nil_l in H3. unfold tail_bytes in H3. destruct (num_trailing_equals s) as [|[|[|]]]; [rewrite (H2 eq_refl)| | |lia]; cbn [Nat.eqb negb]; rewrite app_nil_r in H3 || idtac; by rewrite H3.
Qed.

Lemma base64_roundtrip_witness : exists text, base64_encode [255; 0; 7; 200] 8 = Ok text /\ base64_decode_to_vector text = Ok (Some [255; 0; 7; 200]).
Proof.
  assert (Hb : Forall is_byte [255; 0; 7; 200]) by (repeat constructor; unfold is_byte; lia).
  destruct (base64_roundtrip [255; 0; 7; 200] Hb ltac:(reflexivity)) as (text & H1 & _ & H2 & _). exists text. split; [exact H1|exact H2].
Defined.

Lemma decode_loop_app a b s : decode_loop (a ++ b) s = match decode_loop a s with Some s => decode_loop b s | None => None end.
Proof. revert s. induction a as [|c a IH]; intros s; cbn [app decode_loop]; [done|]. repeat (match goal with |- context [if ?b then _ else _] => destruct b end; try done). Qed.

(** Claim C39: one padding character too many behind whole groups is not refused: two more bytes are written,
    one more than the announced bound holds. *)
Theorem surplus_padding_overruns l : Forall is_byte l -> Z.of_nat (length l) mod 3 = 0 -> Z.of_nat (length l) < 2 ^ 60 ->
  base64_decode_to_vector (encoded l ++ [61]) = Ok (Some (l ++ [0; 0])) /\ base64_decoded_size (Z.of_nat (length (encoded l ++ [61]))) < Z.of_nat (length (l ++ [0; 0])).
Proof.
  intros Hb H3 Hl. destruct (length_encoded l) as [Hn _]. unfold base64_encoded_size in Hn. split.
  - unfold base64_decode_to_vector, base64_decode. rewrite (proj2 (Z.ltb_lt _ _)) by (rewrite length_app, Nat2Z.inj_add, Hn; change ((2 ^ 64 - 1) / 3) with 6148914691236517205; cbn [length]; dlia). rewrite Z.leb_refl. cbn [negb orb].
    assert (E : decode_loop (encoded l) (clean []) = Some (clean l)).
    { clear Hl Hn. rewrite <- (app_nil_l l) at 2. generalize (@nil Z) as w. induction l as [|a|a b|a b c l IH] using triples_ind; intros w; [by rewrite app_nil_r|done|done|].
      pose proof (Forall_inv Hb) as Ha. apply Forall_inv_tail in Hb. pose proof (Forall_inv Hb) as Hb1. apply Forall_inv_tail in Hb. pose proof (Forall_inv Hb) as Hc. apply Forall_inv_tail in Hb. cbn [encoded]. rewrite decode_triple by done. rewrite IH; [by rewrite <- app_assoc|done|cbn [length] in H3; dlia]. }
    rewrite decode_loop_app. change (mkDecoder [] 0 0 0) with (clean []). rewrite E. reflexivity.
  - rewrite !length_app, !Nat2Z.inj_add, Hn. unfold base64_decoded_size. cbn [length]. dlia.
Qed.

Lemma surplus_padding_overruns_witness : base64_decode_to_vector [61] = Ok (Some [0; 0]) /\ base64_decoded_size 1 < 2.
Proof. destruct (surplus_padding_overruns [] (Forall_nil _) eq_refl eq_refl) as [H1 H2]. split; [exact H1|exact H2]. Defined.
