(* ===== verification/Identifiers.v ===== *)
(** * Identifiers and times (src/llbt/uuid.hpp, .cpp, object_id.hpp, .cpp, timestamp.hpp)

    [UUID] and [ObjectId] are lists of 16 and 12 bytes, their texts lists of characters.  The
    hash functions and the output of times are left out. *)

From S2P Require Import Prelude Bytes ArrayDirect.

Definition hex_digits : list Z := map (fun i => 48 + Z.of_nat i) (seq 0 10) ++ map (fun i => 97 + Z.of_nat i) (seq 0 6).
Definition hex_digit (n : Z) : Z := nth (Z.to_nat n) hex_digits 0.

(** [array::operator<] on the bytes. *)
Fixpoint bytes_lt (a b : list Z) : bool :=
  match a, b with
  | x :: a, y :: b => if x <? y then true else if y <? x then false else bytes_lt a b
  | [], _ :: _ => true
  | _, [] => false
  end.

(** ** UUID *)

Definition size_of_uuid_string : nat := 36.
Definition uuid_num_bytes : nat := 16.
Definition hyphen : Z := 45.
Definition is_hyphen_pos (i : nat) : bool := (i =? 8)%nat || (i =? 13)%nat || (i =? 18)%nat || (i =? 23)%nat.

Definition is_hex_digit (c : Z) : bool := (48 <=? c) && (c <=? 57) || (97 <=? c) && (c <=? 102) || (65 <=? c) && (c <=? 70).

Definition parse_xdigit (ch : Z) : Z :=
  if (48 <=? ch) && (ch <=? 57) then ch - 48
  else if (97 <=? ch) && (ch <=? 102) then ch - 97 + 10
  else if (65 <=? ch) && (ch <=? 70) then ch - 65 + 10
  else -1.

(** The loop of [uuid_is_valid_string] from [i] on. *)
Fixpoint uuid_valid_from (fuel : nat) (str : list Z) (i : nat) : bool :=
  match fuel with
  | O => true
  | S fuel =>
      if (i <? size_of_uuid_string)%nat then
        let i := if is_hyphen_pos i then S i else i in
        if negb (is_hex_digit (nth i str 0)) then false else uuid_valid_from fuel str (S i)
      else true
  end.

Definition uuid_is_valid_string (str : list Z) : bool :=
  if negb (length str =? size_of_uuid_string)%nat then false
  else if negb (nth 8 str 0 =? hyphen) || negb (nth 13 str 0 =? hyphen) || negb (nth 18 str 0 =? hyphen) || negb (nth 23 str 0 =? hyphen) then false
  else uuid_valid_from size_of_uuid_string str 0.

(** The loop of the constructor: [n] bytes to go, at position [j] of the text. *)
Fixpoint uuid_parse_bytes (n : nat) (init : list Z) (j : nat) : list Z :=
  match n with
  | O => []
  | S n =>
      let j := if is_hyphen_pos j then S j else j in
      let b := u8 (Z.shiftl (parse_xdigit (nth j init 0)) 4) in
      u8 (b + parse_xdigit (nth (S j) init 0)) :: uuid_parse_bytes n init (S (S j))
  end.

(** [InvalidUUIDString] is an [InvalidArgument]. *)
Definition uuid_parse (init : list Z) : result (list Z) :=
  if negb (uuid_is_valid_string init) then Throw InvalidArgument else Ok (uuid_parse_bytes uuid_num_bytes init 0).

Definition null_uuid_string : list Z := map (fun i => if is_hyphen_pos i then hyphen else 48) (seq 0 36).

Fixpoint uuid_print_bytes (m_bytes : list Z) (ret : list Z) (mod_ndx : nat) : list Z :=
  match m_bytes with
  | [] => ret
  | b :: m_bytes =>
      let ret := <[mod_ndx := hex_digit (Z.shiftr b 4)]> ret in
      let ret := <[S mod_ndx := hex_digit (Z.land b 15)]> ret in
      let mod_ndx := S (S mod_ndx) in
      uuid_print_bytes m_bytes ret (if is_hyphen_pos mod_ndx then S mod_ndx else mod_ndx)
  end.

Definition uuid_to_string (m_bytes : list Z) : list Z := uuid_print_bytes m_bytes null_uuid_string 0.

(** ** Timestamp *)

Definition nanoseconds_per_second : Z := 1000000000.
Record Timestamp := mkTimestamp { m_seconds : Z; m_nanoseconds : Z; m_is_null : bool }.
Definition timestamp_null : Timestamp := mkTimestamp 0 0 true.

Definition timestamp_make (seconds nanoseconds : Z) : result Timestamp :=
  if negb ((- nanoseconds_per_second <? nanoseconds) && (nanoseconds <? nanoseconds_per_second)) then Throw AssertionFailed
  else if negb ((0 <=? seconds) && (0 <=? nanoseconds) || (seconds <=? 0) && (nanoseconds <=? 0)) then Throw AssertionFailed
  else Ok (mkTimestamp seconds nanoseconds false).

(** Division and remainder of the language round towards zero. *)
Definition timestamp_from_time_point (native_nano : Z) : Timestamp :=
  mkTimestamp (Z.quot native_nano nanoseconds_per_second) (Z.rem native_nano nanoseconds_per_second) false.

(** [None] is an overflow of the 64-bit product or sum, which is undefined. *)
Definition timestamp_get_time_point (t : Timestamp) : result (option Z) :=
  if m_is_null t then Throw AssertionFailed
  else
    let p := m_seconds t * nanoseconds_per_second in
    let native_nano := p + m_nanoseconds t in
    Ok (if (s64 p =? p) && (s64 native_nano =? native_nano) then Some native_nano else None).

Definition timestamp_get_seconds (t : Timestamp) : result Z := if m_is_null t then Throw AssertionFailed else Ok (m_seconds t).

Definition timestamp_eq (a b : Timestamp) : bool :=
  if m_is_null a && m_is_null b then true
  else if xorb (m_is_null a) (m_is_null b) then false
  else (m_seconds a =? m_seconds b) && (m_nanoseconds a =? m_nanoseconds b).

Definition timestamp_lt (a b : Timestamp) : bool :=
  if m_is_null b then false
  else if m_is_null a then true
  else (m_seconds a <? m_seconds b) || (m_seconds a =? m_seconds b) && (m_nanoseconds a <? m_nanoseconds b).

Definition timestamp_gt (a b : Timestamp) : bool :=
  if m_is_null a then false
  else if m_is_null b then true
  else (m_seconds b <? m_seconds a) || (m_seconds a =? m_seconds b) && (m_nanoseconds b <? m_nanoseconds a).

Definition timestamp_le (a b : Timestamp) : bool :=
  if m_is_null a then true else if m_is_null b then false else timestamp_lt a b || timestamp_eq a b.

Definition timestamp_ge (a b : Timestamp) : bool :=
  if m_is_null b then true else if m_is_null a then false else timestamp_gt a b || timestamp_eq a b.

(** ** ObjectId *)

Definition object_id_num_bytes : nat := 12.

(** [isxdigit] in the C locale is [is_hex_digit]. *)
Definition object_id_is_valid_str (str : list Z) : bool := (length str =? 24)%nat && forallb is_hex_digit str.

(** [strtol] of two hexadecimal digits. *)
Definition strtol_16 (c0 c1 : Z) : Z := parse_xdigit c0 * 16 + parse_xdigit c1.

Fixpoint object_id_parse_pairs (n : nat) (init : list Z) (j : nat) : list Z :=
  match n with
  | O => []
  | S n => u8 (strtol_16 (nth j init 0) (nth (S j) init 0)) :: object_id_parse_pairs n init (S (S j))
  end.

Definition object_id_parse (init : list Z) : result (list Z) := if negb (object_id_is_valid_str init) then Throw AssertionFailed else Ok (object_id_parse_pairs object_id_num_bytes init 0).

Definition object_id_to_string (m_bytes : list Z) : list Z := concat (map (fun c => [hex_digit (Z.shiftr c 4); hex_digit (Z.land c 15)]) m_bytes).

(** The constructor from a time; [seq] is the state of the generator, which it advances. *)
Definition object_id_make (d : Timestamp) (machine_id process_id seq : Z) : result (list Z * Z) :=
  s ← timestamp_get_seconds d;
  let sec := u32 s in
  let r := seq in
  Ok ([u8 (Z.shiftr sec 24); Z.land (Z.shiftr sec 16) 255; Z.land (Z.shiftr sec 8) 255; Z.land sec 255;
       u8 machine_id; u8 (Z.shiftr machine_id 8); u8 (Z.shiftr machine_id 16); u8 process_id; u8 (Z.shiftr process_id 8);
       Z.land (Z.shiftr r 16) 255; Z.land (Z.shiftr r 8) 255; Z.land r 255], u32 (seq + 1)).

(** The clock, the two identifiers and the sequence number of the generator. *)
Definition object_id_gen (time machine_id process_id seq : Z) : result (list Z * Z) :=
  t ← timestamp_make time 0; object_id_make t machine_id process_id seq.

Definition object_id_get_timestamp (m_bytes : list Z) : result Timestamp :=
  let b k := nth k m_bytes 0 in
  timestamp_make (u32 (u32 (Z.shiftl (b 0%nat) 24) + u32 (Z.shiftl (b 1%nat) 16) + u32 (Z.shiftl (b 2%nat) 8) + b 3%nat)) 0.

(** ** Texts *)

Definition is_octet (b : Z) : Prop := 0 <= b < 256.
Definition lower_hex (c : Z) : Z := if (65 <=? c) && (c <=? 70) then c + 32 else c.

Lemma hex_digit_props n : 0 <= n < 16 -> is_hex_digit (hex_digit n) = true /\ parse_xdigit (hex_digit n) = n /\ hex_digit n <> 45.
Proof.
  intros Hn. assert (H : forallb (fun k => let c := hex_digit (Z.of_nat k) in is_hex_digit c && (parse_xdigit c =? Z.of_nat k) && negb (c =? 45)) (seq 0 16) = true) by (vm_compute; reflexivity).
  rewrite forallb_forall in H. specialize (H (Z.to_nat n) ltac:(apply in_seq; lia)). rewrite Z2Nat.id in H by lia. cbv zeta in H. apply andb_true_iff in H as [[H1 H2]%andb_true_iff H3]. apply Z.eqb_eq in H2. apply negb_true_iff, Z.eqb_neq in H3. done.
Qed.

Lemma parse_xdigit_props c : is_hex_digit c = true -> 0 <= parse_xdigit c < 16 /\ hex_digit (parse_xdigit c) = lower_hex c.
Proof.
  intros Hc. assert (Hr : 48 <= c < 103) by (unfold is_hex_digit in Hc; lia). assert (H : forallb (fun k => let c := Z.of_nat k in negb (is_hex_digit c) || (0 <=? parse_xdigit c) && (parse_xdigit c <? 16) && (hex_digit (parse_xdigit c) =? lower_hex c)) (seq 48 55) = true) by (vm_compute; reflexivity).
  rewrite forallb_forall in H. specialize (H (Z.to_nat c) ltac:(apply in_seq; lia)). rewrite Z2Nat.id in H by lia. cbv zeta in H. rewrite Hc in H. cbn [negb orb] in H. lia.
Qed.

(** A byte and its two digits. *)
Lemma byte_nibbles b : is_octet b -> 0 <= Z.shiftr b 4 < 16 /\ 0 <= Z.land b 15 < 16 /\ Z.shiftr b 4 * 16 + Z.land b 15 = b.
Proof. unfold is_octet. intros Hb. change 15 with (Z.ones 4). rewrite Z.land_ones, Z.shiftr_div_pow2 by lia. change (2 ^ 4) with 16. dlia. Qed.

Lemma uuid_byte hi lo : 0 <= hi < 16 -> 0 <= lo < 16 -> u8 (u8 (Z.shiftl hi 4) + lo) = hi * 16 + lo.
Proof. intros Hh Hl. rewrite Z.shiftl_mul_pow2 by lia. unfold u8. change (2 ^ 4) with 16. change (2 ^ 8) with 256. rewrite !Z.mod_small; dlia. Qed.

Lemma nibbles_byte hi lo : 0 <= hi < 16 -> 0 <= lo < 16 -> Z.shiftr (hi * 16 + lo) 4 = hi /\ Z.land (hi * 16 + lo) 15 = lo.
Proof. intros Hh Hl. change 15 with (Z.ones 4). rewrite Z.land_ones, Z.shiftr_div_pow2 by lia. change (2 ^ 4) with 16. dlia. Qed.

(** The 32 digits of a UUID with the hyphens between them. *)
Definition layout (ds : list Z) : list Z := take 8 ds ++ [45] ++ take 4 (drop 8 ds) ++ [45] ++ take 4 (drop 12 ds) ++ [45] ++ take 4 (drop 16 ds) ++ [45] ++ drop 20 ds.
Definition digits_of (s : list Z) : list Z := take 8 s ++ take 4 (drop 9 s) ++ take 4 (drop 14 s) ++ take 4 (drop 19 s) ++ drop 24 s.

Fixpoint pairs (ds : list Z) : list Z :=
  match ds with a :: b :: ds => u8 (u8 (Z.shiftl (parse_xdigit a) 4) + parse_xdigit b) :: pairs ds | _ => [] end.

Lemma to_string_layout l : length l = 16%nat -> uuid_to_string l = layout (object_id_to_string l).
Proof. intros H. do 16 (destruct l as [|? l]; [discriminate H|]). destruct l; [reflexivity|discriminate H]. Qed.

Lemma valid_layout ds : length ds = 32%nat -> forallb is_hex_digit ds = true -> uuid_is_valid_string (layout ds) = true.
Proof.
  intros H Hx. do 32 (destruct ds as [|? ds]; [discriminate H|]). destruct ds; [|discriminate H]. clear H. unfold layout, uuid_is_valid_string, size_of_uuid_string. cbn [take drop app length Nat.eqb negb nth]. change (45 =? hyphen) with true. cbn [negb orb].
  cbv [uuid_valid_from is_hyphen_pos size_of_uuid_string Nat.ltb Nat.leb Nat.eqb orb nth]. cbn [forallb] in Hx. do 32 (apply andb_true_iff in Hx as [-> Hx]). reflexivity.
Qed.

Lemma parse_layout ds : length ds = 32%nat -> forallb is_hex_digit ds = true -> uuid_parse (layout ds) = Ok (pairs ds).
Proof.
  intros H Hx. unfold uuid_parse. rewrite valid_layout by done. cbn [negb]. clear Hx. f_equal. do 32 (destruct ds as [|? ds]; [discriminate H|]). destruct ds; [|discriminate H]. unfold layout, uuid_num_bytes. cbv [take drop app uuid_parse_bytes is_hyphen_pos Nat.eqb orb nth pairs]. reflexivity.
Qed.

Lemma pairs_to_string l : Forall is_octet l -> pairs (object_id_to_string l) = l /\ length (object_id_to_string l) = (2 * length l)%nat /\ forallb is_hex_digit (object_id_to_string l) = true.
Proof.
  induction 1 as [|b l Hb Hl (IH1 & IH2 & IH3)]; [done|]. destruct (byte_nibbles b Hb) as (Hh & Hlo & E). destruct (hex_digit_props _ Hh) as (X1 & P1 & _). destruct (hex_digit_props _ Hlo) as (X2 & P2 & _).
  unfold object_id_to_string in *. cbn [map concat app pairs length forallb]. rewrite P1, P2, uuid_byte, E, IH1, X1, X2, IH3 by done. split_and!; [done|lia|done].
Qed.

Lemma to_string_pairs ds n : length ds = (2 * n)%nat -> forallb is_hex_digit ds = true -> object_id_to_string (pairs ds) = map lower_hex ds /\ length (pairs ds) = n /\ Forall is_octet (pairs ds).
Proof.
  revert ds. induction n as [|n IH]; intros ds Hl Hx; [by destruct ds|]. destruct ds as [|a [|b ds]]; [done|cbn in Hl; lia|]. cbn [forallb] in Hx. apply andb_true_iff in Hx as [Ha [Hb Hx]%andb_true_iff]. destruct (IH ds ltac:(cbn in Hl; lia) Hx) as (IH1 & IH2 & IH3).
  destruct (parse_xdigit_props a Ha) as [Ra Ea]. destruct (parse_xdigit_props b Hb) as [Rb Eb]. cbn [pairs]. rewrite uuid_byte by done. destruct (nibbles_byte _ _ Ra Rb) as [N1 N2]. unfold object_id_to_string in *. cbn [map concat app length]. rewrite N1, N2, Ea, Eb, IH1, IH2. split_and!; [done|done|]. constructor; [unfold is_octet; lia|done].
Qed.

(** A valid text is its digits with the hyphens. *)
Lemma valid_digits s : uuid_is_valid_string s = true -> s = layout (digits_of s) /\ length (digits_of s) = 32%nat /\ forallb is_hex_digit (digits_of s) = true.
Proof.
  unfold uuid_is_valid_string, size_of_uuid_string. destruct (Nat.eqb_spec (length s) 36) as [H|]; [|done]. do 36 (destruct s as [|? s]; [discriminate H|]). destruct s; [|discriminate H]. clear H. cbn [negb nth].
  repeat match goal with |- context [?x =? hyphen] => destruct (Z.eqb_spec x hyphen) as [->|]; cbn [negb orb]; [|done] end. cbv [uuid_valid_from is_hyphen_pos size_of_uuid_string Nat.ltb Nat.leb Nat.eqb orb nth].
  do 32 (match goal with |- (if negb ?b then _ else _) = true -> _ => destruct b eqn:?; cbn [negb]; [|done] end). intros _. split_and!; [reflexivity|reflexivity|]. unfold digits_of. cbn [take drop app forallb].
  repeat match goal with H : is_hex_digit ?x = true |- _ => rewrite H; clear H end. reflexivity.
Qed.

Lemma lower_layout ds : map lower_hex (layout ds) = layout (map lower_hex ds).
Proof. unfold layout. rewrite !map_app, !skipn_map, !firstn_map. reflexivity. Qed.

(** A UUID is printed as a valid text of 36 characters that is parsed to the same UUID, and
    a text is parsed exactly when it is valid, to a UUID that is printed as the text in lower case. *)
Theorem uuid_roundtrip l s : Forall is_octet l -> length l = uuid_num_bytes ->
  uuid_parse (uuid_to_string l) = Ok l /\ length (uuid_to_string l) = size_of_uuid_string /\
  match uuid_parse s with
  | Ok u => uuid_is_valid_string s = true /\ Forall is_octet u /\ length u = uuid_num_bytes /\ uuid_to_string u = map lower_hex s
  | Throw e => uuid_is_valid_string s = false /\ e = InvalidArgument
  | OutOfFuel => False
  end.
Proof.
  intros Hl Hn. destruct (pairs_to_string l Hl) as (P1 & P2 & P3). rewrite Hn in P2. rewrite to_string_layout by done. split_and!.
  - rewrite parse_layout by done. by rewrite P1.
  - unfold layout. rewrite !length_app, !length_take, !length_drop, P2. reflexivity.
  - destruct (uuid_is_valid_string s) eqn:Ev; [|unfold uuid_parse; by rewrite Ev]. destruct (valid_digits s Ev) as (Es & Hd & Hx). pose proof (parse_layout _ Hd Hx) as Ep. rewrite <- Es in Ep. rewrite Ep.
    destruct (to_string_pairs (digits_of s) 16 Hd Hx) as (T1 & T2 & T3). split_and!; try done. rewrite to_string_layout by done. by rewrite T1, <- lower_layout, <- Es.
Qed.

Lemma uuid_roundtrip_witness : uuid_parse (uuid_to_string (repeat 171 16)) = Ok (repeat 171 16) /\ uuid_parse [65] = Throw InvalidArgument.
Proof. split; [apply (uuid_roundtrip (repeat 171 16) []); [repeat constructor; unfold is_octet; lia|reflexivity]|reflexivity]. Defined.

Lemma parse_pairs_eq n init : length init = (2 * n)%nat -> forallb is_hex_digit init = true -> object_id_parse_pairs n init 0 = pairs init.
Proof.
  intros Hl Hx. enough (H : forall pre, object_id_parse_pairs n (pre ++ init) (length pre) = pairs init) by (apply (H [])). revert init Hl Hx. induction n as [|n IH]; intros init Hl Hx pre; [by destruct init|]. destruct init as [|a [|b ds]]; [done|cbn in Hl; lia|]. cbn [forallb] in Hx. apply andb_true_iff in Hx as [Ha [Hb Hx]%andb_true_iff].
  cbn [object_id_parse_pairs pairs]. rewrite !app_nth2 by lia. replace (length pre - length pre)%nat with 0%nat by lia. replace (S (length pre) - length pre)%nat with 1%nat by lia. cbn [nth]. destruct (parse_xdigit_props a Ha) as [Ra _]. destruct (parse_xdigit_props b Hb) as [Rb _]. f_equal.
  - rewrite uuid_byte by done. unfold strtol_16, u8. rewrite Z.mod_small; lia.
  - specialize (IH ds ltac:(cbn in Hl; lia) Hx (pre ++ [a; b])). rewrite <- app_assoc, length_app in IH. cbn [app length] in IH. by replace (length pre + 2)%nat with (S (S (length pre))) in IH by lia.
Qed.

(** An [ObjectId] is printed as 24 digits that are parsed to it, and every text of 24 digits is
    that of one, up to the case of the letters. *)
Theorem object_id_roundtrip l s : Forall is_octet l -> length l = object_id_num_bytes -> object_id_is_valid_str s = true ->
  object_id_parse (object_id_to_string l) = Ok l /\ exists u, object_id_parse s = Ok u /\ length u = object_id_num_bytes /\ object_id_to_string u = map lower_hex s.
Proof.
  intros Hl Hn Hs. destruct (pairs_to_string l Hl) as (P1 & P2 & P3). rewrite Hn in P2. split.
  - unfold object_id_parse, object_id_is_valid_str. rewrite P2, P3. cbn [Nat.mul Nat.add Nat.eqb andb negb object_id_num_bytes]. by rewrite parse_pairs_eq, P1.
  - unfold object_id_parse. rewrite Hs. cbn [negb]. unfold object_id_is_valid_str in Hs. apply andb_true_iff in Hs as [Hlen Hx]. apply Nat.eqb_eq in Hlen. eexists. split; [done|]. rewrite parse_pairs_eq by done. destruct (to_string_pairs s 12 Hlen Hx) as (T1 & T2 & _). done.
Qed.

(** ** Times *)

Definition valid_timestamp (t : Timestamp) : Prop := m_is_null t = true \/ timestamp_make (m_seconds t) (m_nanoseconds t) = Ok t.

(** Every time point is split into a valid timestamp, from which it is put together again without overflow. *)
Theorem time_point_roundtrip n : - 2 ^ 63 <= n < 2 ^ 63 -> valid_timestamp (timestamp_from_time_point n) /\ timestamp_get_time_point (timestamp_from_time_point n) = Ok (Some n).
Proof.
  intros Hn. unfold valid_timestamp, timestamp_from_time_point, timestamp_get_time_point, timestamp_make. cbn [m_seconds m_nanoseconds m_is_null]. unfold nanoseconds_per_second. pose proof (Z.quot_rem n 1000000000 ltac:(lia)) as E. assert (Hs : (0 <= n /\ 0 <= Z.quot n 1000000000 /\ 0 <= Z.rem n 1000000000 < 1000000000) \/ (n <= 0 /\ Z.quot n 1000000000 <= 0 /\ -1000000000 < Z.rem n 1000000000 <= 0)).
  { destruct (Z.le_ge_cases 0 n) as [H0|H0]; [left|right].
    - pose proof (Z.rem_bound_pos n 1000000000 ltac:(lia) ltac:(lia)). split_and!; [lia|apply Z.quot_pos; lia|lia|lia].
    - pose proof (Z.rem_bound_pos (- n) 1000000000 ltac:(lia) ltac:(lia)) as Hr. rewrite Z.rem_opp_l in Hr by lia. pose proof (Z.quot_pos (- n) 1000000000 ltac:(lia) ltac:(lia)) as Hq. rewrite Z.quot_opp_l in Hq by lia. lia. }
  set (q := Z.quot n 1000000000) in *. set (r := Z.rem n 1000000000) in *. clearbody q r. split.
  - right. replace ((- (1000000000) <? r) && (r <? 1000000000)) with true by lia. replace ((0 <=? q) && (0 <=? r) || (q <=? 0) && (r <=? 0)) with true by lia. done.
  - replace (q * 1000000000 + r) with n by lia. assert (Es : forall x, - 2 ^ 63 <= x < 2 ^ 63 -> s64 x = x) by (intros x Hx; by apply (sext_id 64)). rewrite !Es by lia. rewrite !Z.eqb_refl. done.
Qed.

Definition nanos (t : Timestamp) : Z := m_seconds t * nanoseconds_per_second + m_nanoseconds t.

(** The comparisons are one total order with null first, and the order of the times themselves. *)
Theorem timestamp_order a b c :
  timestamp_gt a b = timestamp_lt b a /\ timestamp_le a b = negb (timestamp_lt b a) /\ timestamp_ge a b = negb (timestamp_lt a b) /\ timestamp_eq a b = negb (timestamp_lt a b || timestamp_lt b a) /\
  (timestamp_lt a b = true -> timestamp_lt b c = true -> timestamp_lt a c = true) /\
  (valid_timestamp a -> valid_timestamp b -> m_is_null a = false -> m_is_null b = false -> timestamp_lt a b = (nanos a <? nanos b)).
Proof.
  destruct a as [sa na za], b as [sb nb zb], c as [sc nc zc]. unfold timestamp_gt, timestamp_ge, timestamp_le, timestamp_eq, timestamp_lt, valid_timestamp, timestamp_make, nanos, nanoseconds_per_second. cbn [m_seconds m_nanoseconds m_is_null].
  split_and!; [destruct za, zb; cbn; lia..|destruct za, zb, zc; cbn; lia|]. intros Ha Hb -> ->. destruct Ha as [|Ha], Hb as [|Hb]; try done. cbn [negb] in *.
  destruct ((- (1000000000) <? na) && (na <? 1000000000)) eqn:E1; [|done]. destruct ((- (1000000000) <? nb) && (nb <? 1000000000)) eqn:E2; [|done]. destruct ((0 <=? sa) && (0 <=? na) || (sa <=? 0) && (na <=? 0)) eqn:E3; [|done]. destruct ((0 <=? sb) && (0 <=? nb) || (sb <=? 0) && (nb <=? 0)) eqn:E4; [|done]. lia.
Qed.

(** ** Generated identifiers *)

Definition be_val (l : list Z) : Z := fold_left (fun v b => v * 256 + b) l 0.

Lemma be_val_from l v : fold_left (fun v b => v * 256 + b) l v = v * 256 ^ Z.of_nat (length l) + be_val l.
Proof.
  unfold be_val. revert v. induction l as [|b l IH]; intros v; cbn [fold_left length]; [lia|]. rewrite IH, (IH (0 * 256 + b)). rewrite Nat2Z.inj_succ, Z.pow_succ_r by lia. lia.
Qed.

Lemma be_val_range l : Forall is_octet l -> 0 <= be_val l < 256 ^ Z.of_nat (length l).
Proof.
  induction 1 as [|b l Hb Hl IH]; [done|]. unfold be_val, is_octet in *. cbn [fold_left length]. rewrite be_val_from. rewrite Nat2Z.inj_succ, Z.pow_succ_r by lia. unfold be_val. nia.
Qed.

(** The order of the bytes is that of the numbers they write with the first byte on top. *)
Lemma bytes_lt_value a b : Forall is_octet a -> Forall is_octet b -> length a = length b -> bytes_lt a b = (be_val a <? be_val b).
Proof.
  intros Ha. revert b. induction Ha as [|x a Hx Ha IH]; intros b Hb Hl; destruct b as [|y b]; try discriminate; [done|]. pose proof (Forall_inv Hb) as Hy. pose proof (Forall_inv_tail Hb) as Hb'. injection Hl as Hl. cbn [bytes_lt]. unfold be_val. cbn [fold_left]. rewrite !be_val_from, Hl. pose proof (be_val_range a Ha) as Ra. pose proof (be_val_range b Hb') as Rb. rewrite Hl in Ra.
  rewrite IH by done. unfold is_octet in *. symmetry. destruct (Z.ltb_spec x y); [apply Z.ltb_lt; nia|]. destruct (Z.ltb_spec y x); [apply Z.ltb_ge; nia|]. replace y with x by lia. destruct (Z.ltb_spec (be_val a) (be_val b)); [apply Z.ltb_lt; lia|apply Z.ltb_ge; lia].
Qed.

Definition fields (time machine_id process_id seq : Z) : list Z :=
  [u8 (Z.shiftr (u32 time) 24); Z.land (Z.shiftr (u32 time) 16) 255; Z.land (Z.shiftr (u32 time) 8) 255; Z.land (u32 time) 255;
   u8 machine_id; u8 (Z.shiftr machine_id 8); u8 (Z.shiftr machine_id 16); u8 process_id; u8 (Z.shiftr process_id 8);
   Z.land (Z.shiftr seq 16) 255; Z.land (Z.shiftr seq 8) 255; Z.land seq 255].

Lemma gen_eq time m p seq : object_id_gen time m p seq = Ok (fields time m p seq, u32 (seq + 1)).
Proof.
  unfold object_id_gen, timestamp_make. replace ((0 <=? time) && (0 <=? 0) || (time <=? 0) && (0 <=? 0)) with true by lia. reflexivity.
Qed.

Lemma fields_octets time m p seq : Forall is_octet (fields time m p seq).
Proof.
  unfold fields, is_octet, u8. change 255 with (Z.ones 8). repeat (constructor; [try (rewrite Z.land_ones by lia); apply Z.mod_pos_bound; lia|]). constructor.
Qed.

Lemma be_val_fields time m p seq : be_val (fields time m p seq) = u32 time * 2 ^ 64 + be_val (take 5 (drop 4 (fields time m p seq))) * 2 ^ 24 + seq mod 2 ^ 24.
Proof.
  unfold fields. cbn [take drop]. unfold be_val. cbn [fold_left]. change 255 with (Z.ones 8). rewrite !Z.land_ones by lia. unfold u8, u32. rewrite !Z.shiftr_div_pow2 by lia. set (t := time mod 2 ^ 32). assert (0 <= t < 2 ^ 32) by (apply Z.mod_pos_bound; lia). change (2 ^ 24) with 16777216. change (2 ^ 16) with 65536. change (2 ^ 8) with 256. change (2 ^ 64) with 18446744073709551616.
  assert (Et : ((t / 16777216 mod 256 * 256 + t / 65536 mod 256) * 256 + t / 256 mod 256) * 256 + t mod 256 = t) by dlia. assert (Es : (seq / 65536 mod 256 * 256 + seq / 256 mod 256) * 256 + seq mod 256 = seq mod 16777216) by dlia. lia.
Qed.

(** Two identifiers that one process generates are ordered by the second, then by the lowest 24 bits
    of the sequence number; and the second can be read back from an identifier. *)
Theorem object_id_order t1 t2 m p seq1 seq2 : 0 <= t1 < 2 ^ 32 -> 0 <= t2 < 2 ^ 32 ->
  exists a b, object_id_gen t1 m p seq1 = Ok (a, u32 (seq1 + 1)) /\ object_id_gen t2 m p seq2 = Ok (b, u32 (seq2 + 1)) /\
    bytes_lt a b = ((t1 <? t2) || (t1 =? t2) && (seq1 mod 2 ^ 24 <? seq2 mod 2 ^ 24)) /\ object_id_get_timestamp a = timestamp_make t1 0.
Proof.
  intros H1 H2. exists (fields t1 m p seq1), (fields t2 m p seq2). rewrite !gen_eq. split_and!; [done|done| |].
  - rewrite bytes_lt_value by (apply fields_octets || done). rewrite !be_val_fields. change (take 5 (drop 4 (fields t2 m p seq2))) with (take 5 (drop 4 (fields t1 m p seq1))). unfold u32. rewrite !(Z.mod_small _ (2 ^ 32)) by lia.
    pose proof (be_val_range (take 5 (drop 4 (fields t1 m p seq1))) ltac:(apply Forall_take, Forall_drop, fields_octets)) as Hm. change (256 ^ Z.of_nat (length (take 5 (drop 4 (fields t1 m p seq1))))) with (2 ^ 40) in Hm. pose proof (Z.mod_pos_bound seq1 (2 ^ 24) ltac:(lia)). pose proof (Z.mod_pos_bound seq2 (2 ^ 24) ltac:(lia)). lia.
  - unfold object_id_get_timestamp, fields. cbn [nth]. f_equal. change 255 with (Z.ones 8). rewrite !Z.land_ones by lia. unfold u8, u32. rewrite !Z.shiftr_div_pow2, !Z.shiftl_mul_pow2 by lia. rewrite !(Z.mod_small t1 (2 ^ 32)) by lia. change (2 ^ 24) with 16777216. change (2 ^ 16) with 65536. change (2 ^ 8) with 256. change (2 ^ 32) with 4294967296 in *. rewrite !(Z.mod_small (_ * _) 4294967296) by dlia. rewrite Z.mod_small by dlia. dlia.
Qed.

(** When the lowest 24 bits of the sequence number wrap, an identifier generated later in the same
    second comes first. *)
Theorem later_id_sorts_first t m p : 0 <= t < 2 ^ 32 -> exists a b, object_id_gen t m p (2 ^ 24 - 1) = Ok (a, 2 ^ 24) /\ object_id_gen t m p (2 ^ 24) = Ok (b, 2 ^ 24 + 1) /\ bytes_lt b a = true.
Proof.
  intros Ht. destruct (object_id_order t t m p (2 ^ 24) (2 ^ 24 - 1) Ht Ht) as (b & a & E1 & E2 & E3 & _). exists a, b. split_and!; [exact E2|exact E1|]. rewrite E3, Z.eqb_refl. by rewrite orb_true_r.
Qed.
