(* ===== verification/EncryptedFile.v ===== *)
(** * Encrypted files (src/llbt/util/encrypted_file_mapping.cpp and .hpp, aes_cryptor.hpp)

    The file is encrypted in pages of 4096 bytes; in front of each 64 pages is a page with
    their 64 tables of initialisation vectors and digests.  [AESCryptor] reads and writes
    single pages, [EncryptedFileMapping] keeps decrypted pages in memory, with several
    mappings of one file.  AES and the digest are parameters.  A page and a table are lists of
    bytes.  Debug validation and the markers for other processes are left out. *)

From S2P Require Import Prelude Bytes.

(** ** Layout of the file *)

Definition encryption_page_size : Z := 4096.
Definition metadata_size : Z := 64.
Definition pages_per_block : Z := encryption_page_size / metadata_size.

Definition page_index (data_pos : Z) : Z := data_pos / encryption_page_size.
Definition page_count (size : Z) : Z := (size + encryption_page_size - 1) / encryption_page_size.
Definition block_index (data_pos : Z) : Z := page_index data_pos / pages_per_block.
Definition block_count (data_size : Z) : Z := (page_count data_size + pages_per_block - 1) / pages_per_block.

Definition data_pos_to_file_pos (data_pos : Z) : Z := data_pos + (block_index data_pos + 1) * encryption_page_size.

Definition file_pos_to_data_pos (file_pos : Z) : Z :=
  let metadata_page_count := (page_index file_pos + pages_per_block) / (pages_per_block + 1) in
  file_pos - metadata_page_count * encryption_page_size.

Definition iv_table_pos (data_pos : Z) : Z :=
  let index := page_index data_pos in
  let metadata_block := block_index data_pos in
  let metadata_index := Z.land index (pages_per_block - 1) in
  metadata_block * (pages_per_block + 1) * encryption_page_size + metadata_index * metadata_size.

Definition iv_table_block_pos (data_pos : Z) : Z := block_index data_pos * (pages_per_block + 1) * encryption_page_size.
Definition iv_table_size (data_pos : Z) : Z := block_count data_pos * pages_per_block.

Definition encrypted_size_to_data_size (size : Z) : Z := if size =? 0 then 0 else file_pos_to_data_pos size.

Definition data_size_to_encrypted_size (size : Z) : Z :=
  let r := size mod encryption_page_size in
  let size := size + (if negb (r =? 0) then encryption_page_size - r else 0) in
  data_pos_to_file_pos size.

(** ** The file *)

Record Disk := mkDisk { d_bytes : bytes; d_size : Z }.

(** [File::read_static]: the bytes read, fewer than [n] at the end of the file. *)
Definition read_static (d : Disk) (pos n : Z) : list Z := slice (d_bytes d) pos (Z.min n (d_size d - pos)).

(** [File::write_static]; a gap behind the end is filled with zeros. *)
Definition write_static (d : Disk) (pos : Z) (data : list Z) : Disk :=
  let n := Z.of_nat (length data) in
  mkDisk (fun x => if in_range pos n x then nth (Z.to_nat (x - pos)) data 0 else if x <? d_size d then d_bytes d x else 0) (Z.max (d_size d) (pos + n)).

(** ** Tables of initialisation vectors *)

(** The 64 bytes of [IVTable]: [iv1], [hmac1], [iv2], [hmac2]. *)
Definition IVTable : Type := list Z.
Definition Hmac : Type := list Z.
Definition page : Type := list Z.

Fixpoint le_of (l : list Z) : Z := match l with [] => 0 | b :: l => b + 2 ^ 8 * le_of l end.
Fixpoint le_bytes (n : nat) (v : Z) : list Z := match n with O => [] | S n => v mod 2 ^ 8 :: le_bytes n (v / 2 ^ 8) end.

Definition iv1 (t : IVTable) : Z := le_of (take 4 t).
Definition hmac1 (t : IVTable) : Hmac := take 28 (drop 4 t).
Definition iv2 (t : IVTable) : Z := le_of (take 4 (drop 32 t)).
Definition hmac2 (t : IVTable) : Hmac := take 28 (drop 36 t).
Definition iv_empty : IVTable := repeat 0 64.

(** ** The cryptor *)

(** [cr_capacity] is the capacity of [m_iv_buffer]. *)
Record AESCryptor := mkCryptor {
  m_key : list Z; cr_capacity : nat; m_iv_buffer : list IVTable; m_iv_buffer_cache : list IVTable; m_iv_blocks_read : list bool }.

Inductive IVLookupMode := UseCache | Refetch.
Inductive ReadResult := Eof | Uninitialized | InterruptedFirstWrite | StaleHmac | Failed | Success.

#[export] Instance ReadResult_eq_dec : EqDecision ReadResult.
Proof. solve_decision. Defined.

Definition pad_to {A} (n : nat) (x : A) (l : list A) : list A := l ++ repeat x (n - length l).

(** [vector::resize]. *)
Definition resize {A} (n : nat) (x : A) (l : list A) : list A := pad_to n x (take n l).

Definition set_data_size (cr : AESCryptor) (new_data_size : Z) : AESCryptor :=
  let capacity := Nat.max (cr_capacity cr) (Z.to_nat (iv_table_size new_data_size)) in
  mkCryptor (m_key cr) capacity (m_iv_buffer cr) (m_iv_buffer_cache cr) (resize (capacity / 64) false (m_iv_blocks_read cr)).

Definition new_cryptor (key : list Z) : AESCryptor := mkCryptor key 0 [] [] [].

(** The first bytes of a table are replaced by those read. *)
Definition overlay (old : IVTable) (new : list Z) : IVTable := new ++ drop (length new) old.

Definition read_iv_block (cr : AESCryptor) (d : Disk) (data_pos : Z) : AESCryptor :=
  let block := Z.to_nat (block_index data_pos) in
  let idx := (block * 64)%nat in
  let grow := (length (m_iv_buffer cr) <? idx + 64)%nat in
  let buffer := if grow then resize (idx + 64) iv_empty (m_iv_buffer cr) else m_iv_buffer cr in
  let cache := if grow then resize (idx + 64) iv_empty (m_iv_buffer_cache cr) else m_iv_buffer_cache cr in
  let data := read_static d (iv_table_block_pos data_pos) encryption_page_size in
  let buffer := imap (fun i t => if ((idx <=? i) && (i <? idx + 64))%nat then overlay t (take 64 (drop ((i - idx) * 64) data)) else t) buffer in
  mkCryptor (m_key cr) (cr_capacity cr) buffer cache (<[block := true]> (m_iv_blocks_read cr)).

Definition get_iv_table (cr : AESCryptor) (d : Disk) (data_pos : Z) (mode : IVLookupMode) : result (IVTable * AESCryptor) :=
  let idx := Z.to_nat (page_index data_pos) in
  if negb (idx <? cr_capacity cr)%nat then Throw AssertionFailed
  else
    let cached := match mode with UseCache => true | Refetch => false end in
    let cr := if negb cached || (length (m_iv_buffer cr) <=? idx)%nat || negb (nth (Z.to_nat (block_index data_pos)) (m_iv_blocks_read cr) false)
              then read_iv_block cr d data_pos else cr in
    let t := nth idx (m_iv_buffer cr) iv_empty in
    Ok (t, mkCryptor (m_key cr) (cr_capacity cr) (m_iv_buffer cr) (<[idx := t]> (m_iv_buffer_cache cr)) (m_iv_blocks_read cr)).

Definition set_iv_table (cr : AESCryptor) (data_pos : Z) (t : IVTable) : AESCryptor :=
  mkCryptor (m_key cr) (cr_capacity cr) (<[Z.to_nat (page_index data_pos) := t]> (m_iv_buffer cr)) (m_iv_buffer_cache cr) (m_iv_blocks_read cr).

Definition refresh_iv (cr : AESCryptor) (d : Disk) (page_ndx : nat) : result (bool * AESCryptor) :=
  if negb (page_ndx <? cr_capacity cr)%nat then Throw AssertionFailed
  else
    let cr := if (length (m_iv_buffer cr) <=? page_ndx)%nat || negb (nth (page_ndx / 64) (m_iv_blocks_read cr) false)
              then read_iv_block cr d (Z.of_nat page_ndx * encryption_page_size) else cr in
    let t := nth page_ndx (m_iv_buffer cr) iv_empty in
    if negb (bool_decide (t = nth page_ndx (m_iv_buffer_cache cr) iv_empty))
    then Ok (true, mkCryptor (m_key cr) (cr_capacity cr) (m_iv_buffer cr) (<[page_ndx := t]> (m_iv_buffer_cache cr)) (m_iv_blocks_read cr))
    else Ok (false, cr).

Definition invalidate_ivs (cr : AESCryptor) : AESCryptor :=
  mkCryptor (m_key cr) (cr_capacity cr) (m_iv_buffer cr) (m_iv_buffer_cache cr) (map (fun _ => false) (m_iv_blocks_read cr)).

(** The digests are compared in constant time. *)
Fixpoint xor_all (a b : Hmac) (r : Z) : Z :=
  match a, b with x :: a, y :: b => xor_all a b (Z.lor r (Z.lxor x y)) | _, _ => r end.
Definition constant_time_equals (a b : Hmac) : bool := xor_all a b 0 =? 0.

(** AES-256 in CBC mode on a whole number of blocks, by key and vector, and the SHA-224 digest
    with a key, which are the system's cryptography. *)
Class Cipher := {
  aes_encrypt : list Z -> list Z -> page -> page;
  aes_decrypt : list Z -> list Z -> page -> page;
  hmac_sha224 : page -> list Z -> Hmac }.

Section Cryptor.
Context `{Cipher}.

Definition crypt_iv (pos : Z) (stored_iv : list Z) : list Z := take 4 stored_iv ++ le_bytes 8 pos ++ repeat 0 4.
Definition encrypt (cr : AESCryptor) (pos : Z) (src : page) (stored_iv : list Z) : page := aes_encrypt (take 32 (m_key cr)) (crypt_iv pos stored_iv) src.
Definition decrypt (cr : AESCryptor) (pos : Z) (src : page) (stored_iv : list Z) : page := aes_decrypt (take 32 (m_key cr)) (crypt_iv pos stored_iv) src.
Definition calculate_hmac (cr : AESCryptor) (p : page) : Hmac := hmac_sha224 p (drop 32 (m_key cr)).

(** The result, the page if it was decrypted, and [iv_out] and [hmac]. *)
Definition attempt_read (cr : AESCryptor) (d : Disk) (pos : Z) (iv_mode : IVLookupMode) : result (ReadResult * option page * (Z * Hmac) * AESCryptor) :=
  '(iv, cr) ← get_iv_table cr d pos iv_mode;
  let iv_out := iv1 iv in
  if iv1 iv =? 0 then Ok (Uninitialized, None, (iv_out, repeat 0 28), cr)
  else
    let rw_buffer := read_static d (data_pos_to_file_pos pos) encryption_page_size in
    if Z.of_nat (length rw_buffer) <? encryption_page_size then Ok (Eof, None, (iv_out, []), cr)
    else
      let hmac := calculate_hmac cr rw_buffer in
      if negb (constant_time_equals hmac (hmac1 iv)) then
        if iv2 iv =? 0 then Ok (InterruptedFirstWrite, None, (iv_out, hmac), cr)
        else if constant_time_equals hmac (hmac2 iv) then
          let iv := take 32 (drop 32 iv) ++ drop 32 iv in
          Ok (Success, Some (decrypt cr pos rw_buffer iv), (iv_out, hmac), set_iv_table cr pos iv)
        else if forallb (fun c => c =? 0) rw_buffer then Ok (StaleHmac, None, (iv_out, hmac), cr)
        else Ok (Failed, None, (iv_out, hmac), cr)
      else Ok (Success, Some (decrypt cr pos rw_buffer iv), (iv_out, hmac), cr).

(** The world around a read by a process that is not alone: the file at each attempt,
    whether the time is up after it, and the answers of the observer in turn. *)
Record Observer := mkObserver { o_disk : nat -> Disk; o_timeout : nat -> bool; o_no_writer : nat -> bool }.

Fixpoint read_retry (fuel : nat) (o : Observer) (cr : AESCryptor) (pos : Z) (dst : page) (retry_count num_identical_reads : nat) (last : Z * Hmac) (last_result : ReadResult) : result (ReadResult * page * AESCryptor) :=
  if (retry_count <=? 5)%nat || ((1 <? retry_count - num_identical_reads)%nat && (retry_count <? 20)%nat) then
    match fuel with
    | O => OutOfFuel
    | S fuel =>
        '(r, p, cur, cr) ← attempt_read cr (o_disk o retry_count) pos (if (retry_count =? 0)%nat then UseCache else Refetch);
        match r with
        | Success | Eof | Uninitialized => Ok (r, default dst p, cr)
        | InterruptedFirstWrite | StaleHmac | Failed =>
            if (0 <? retry_count)%nat && o_timeout o retry_count then Throw DecryptionFailed
            else
              let num_identical_reads := if negb (retry_count =? 0)%nat && bool_decide (last = cur) then S num_identical_reads else num_identical_reads in
              if o_no_writer o (S retry_count) then Ok (r, dst, cr)
              else read_retry fuel o cr pos dst (S retry_count) num_identical_reads cur r
        end
    end
  else Ok (last_result, dst, cr).

(** [observer] is null, or the world it is in; without a writer the caches are trusted. *)
Definition read (cr : AESCryptor) (d : Disk) (pos : Z) (dst : page) (observer : option Observer) : result (ReadResult * page * AESCryptor) :=
  match observer with
  | Some o =>
      if o_no_writer o 0 then '(r, p, _, cr) ← attempt_read cr (o_disk o 0) pos UseCache; Ok (r, default dst p, cr)
      else read_retry 20 o cr pos dst 0 1 (0, repeat 0 28) Success
  | None => '(r, p, _, cr) ← attempt_read cr d pos UseCache; Ok (r, default dst p, cr)
  end.

(** The loop that bumps the vector until the digest differs from the previous one. *)
Fixpoint bump_iv (fuel : nat) (cr : AESCryptor) (pos : Z) (src : page) (iv : IVTable) : option (IVTable * page) :=
  match fuel with
  | O => None
  | S fuel =>
      let v := u32 (iv1 iv + 1) in
      let v := if v =? 0 then 1 else v in
      let iv := le_bytes 4 v ++ drop 4 iv in
      let rw_buffer := encrypt cr pos src iv in
      let iv := take 4 iv ++ calculate_hmac cr rw_buffer ++ drop 32 iv in
      if bool_decide (hmac1 iv = hmac2 iv) then bump_iv fuel cr pos src iv else Some (iv, rw_buffer)
  end.

(** The two stores of [write], in order. *)
Definition write_ops (fuel : nat) (cr : AESCryptor) (d : Disk) (pos : Z) (src : page) : result (AESCryptor * list (Z * list Z)) :=
  '(iv, cr) ← get_iv_table cr d pos UseCache;
  let iv := take 32 iv ++ take 32 iv in
  match bump_iv fuel cr pos src iv with
  | None => OutOfFuel
  | Some (iv, rw_buffer) =>
      let cr := set_iv_table cr pos iv in
      let cr := mkCryptor (m_key cr) (cr_capacity cr) (m_iv_buffer cr) (<[Z.to_nat (page_index pos) := iv]> (m_iv_buffer_cache cr)) (m_iv_blocks_read cr) in
      Ok (cr, [(iv_table_pos pos, iv); (data_pos_to_file_pos pos, rw_buffer)])
  end.

Definition do_ops (d : Disk) (ops : list (Z * list Z)) : Disk := foldl (fun d o => write_static d o.1 o.2) d ops.

Definition write (fuel : nat) (cr : AESCryptor) (d : Disk) (pos : Z) (src : page) : result (AESCryptor * Disk) :=
  '(cr, ops) ← write_ops fuel cr d pos src; Ok (cr, do_ops d ops).

(** ** Mappings *)

(** The four flags of a page. *)
Record PageState := mkPageState { UpToDate : bool; StaleIV : bool; Writable : bool; Dirty : bool }.
Definition Clean : PageState := mkPageState false false false false.

Definition set_UpToDate (s : PageState) : PageState := mkPageState true (StaleIV s) (Writable s) (Dirty s).
Definition clear_StaleIV (s : PageState) : PageState := mkPageState (UpToDate s) false (Writable s) (Dirty s).
Definition set_Writable (s : PageState) : PageState := mkPageState (UpToDate s) (StaleIV s) true (Dirty s).
Definition clear_Dirty (s : PageState) : PageState := mkPageState (UpToDate s) (StaleIV s) (Writable s) false.

(** [m_memory] is the memory at [m_addr], page by page. *)
Record Mapping := mkMapping { m_first_page : nat; m_page_state : list PageState; m_memory : list page; m_read_write : bool }.
Record EncryptedFile := mkEncryptedFile { fd : Disk; cryptor : AESCryptor; mappings : list Mapping }.

Definition with_mapping (f : EncryptedFile) (i : nat) (m : Mapping) : EncryptedFile := mkEncryptedFile (fd f) (cryptor f) (<[i := m]> (mappings f)).
Definition with_cryptor (f : EncryptedFile) (cr : AESCryptor) : EncryptedFile := mkEncryptedFile (fd f) cr (mappings f).

Definition no_mapping : Mapping := mkMapping 0 [] [] false.
Definition mapping_at (f : EncryptedFile) (i : nat) : Mapping := nth i (mappings f) no_mapping.
Definition page_state (m : Mapping) (local_ndx : nat) : PageState := nth local_ndx (m_page_state m) Clean.
Definition page_at (m : Mapping) (local_ndx : nat) : page := nth local_ndx (m_memory m) [].

Definition put_state (m : Mapping) (local_ndx : nat) (s : PageState) : Mapping := mkMapping (m_first_page m) (<[local_ndx := s]> (m_page_state m)) (m_memory m) (m_read_write m).
Definition put_page (m : Mapping) (local_ndx : nat) (p : page) : Mapping := mkMapping (m_first_page m) (m_page_state m) (<[local_ndx := p]> (m_memory m)) (m_read_write m).

Definition contains_page (m : Mapping) (block_in_file : nat) : bool := (m_first_page m <=? block_in_file)%nat && (block_in_file - m_first_page m <? length (m_page_state m))%nat.
Definition page_pos (m : Mapping) (local_ndx : nat) : Z := Z.of_nat (local_ndx + m_first_page m) * encryption_page_size.

(** Another mapping that has the page decrypted and not open for writing. *)
Fixpoint find_up_to_date (l : list Mapping) (j i ndx_in_file : nat) : option page :=
  match l with
  | [] => None
  | m :: l =>
      let s := page_state m (ndx_in_file - m_first_page m) in
      if (j =? i)%nat || negb (contains_page m ndx_in_file) || Writable s || negb (UpToDate s) then find_up_to_date l (S j) i ndx_in_file
      else Some (page_at m (ndx_in_file - m_first_page m))
  end.

Definition copy_up_to_date_page (f : EncryptedFile) (i local_ndx : nat) : result (bool * EncryptedFile) :=
  let this := mapping_at f i in
  if negb (local_ndx <? length (m_page_state this))%nat || UpToDate (page_state this local_ndx) then Throw AssertionFailed
  else
    match find_up_to_date (mappings f) 0 i (local_ndx + m_first_page this) with
    | None => Ok (false, f)
    | Some p =>
        let s := clear_StaleIV (set_UpToDate (page_state this local_ndx)) in
        Ok (true, with_mapping f i (put_state (put_page this local_ndx p) local_ndx s))
    end.

Definition settle_stale (ndx_in_file : nat) (did_change : bool) (m : Mapping) : Mapping :=
  let local := (ndx_in_file - m_first_page m)%nat in
  let s := page_state m local in
  if contains_page m ndx_in_file && StaleIV s then
    let s := clear_StaleIV s in put_state m local (if did_change then s else set_UpToDate s)
  else m.

Definition check_possibly_stale_page (f : EncryptedFile) (i local_ndx : nat) : result (bool * EncryptedFile) :=
  let this := mapping_at f i in
  if negb (StaleIV (page_state this local_ndx)) then Ok (false, f)
  else
    let ndx_in_file := (local_ndx + m_first_page this)%nat in
    '(did_change, cr) ← refresh_iv (cryptor f) (fd f) ndx_in_file;
    let bad m := contains_page m ndx_in_file && StaleIV (page_state m (ndx_in_file - m_first_page m)) && UpToDate (page_state m (ndx_in_file - m_first_page m)) in
    if existsb bad (mappings f) then Throw AssertionFailed
    else Ok (negb did_change, mkEncryptedFile (fd f) cr (map (settle_stale ndx_in_file did_change) (mappings f))).

Definition refresh_page (observer : option Observer) (f : EncryptedFile) (i local_ndx : nat) (to_modify : bool) : result EncryptedFile :=
  let s := page_state (mapping_at f i) local_ndx in
  if negb (local_ndx <? length (m_page_state (mapping_at f i)))%nat || Dirty s || Writable s then Throw AssertionFailed
  else
    '(copied, f) ← copy_up_to_date_page f i local_ndx;
    if (copied : bool) then Ok f
    else
      '(settled, f) ← check_possibly_stale_page f i local_ndx;
      if (settled : bool) then Ok f
      else
        let this := mapping_at f i in
        '(r, p, cr) ← read (cryptor f) (fd f) (page_pos this local_ndx) (page_at this local_ndx) observer;
        let refuse := match r with Eof | Uninitialized | InterruptedFirstWrite => negb to_modify | Failed => true | StaleHmac | Success => false end in
        if refuse then Throw DecryptionFailed
        else Ok (with_mapping (with_cryptor f cr) i (put_state (put_page this local_ndx p) local_ndx (set_UpToDate (page_state this local_ndx)))).

Definition mark_page (s : PageState) : PageState := if UpToDate s && negb (Dirty s || Writable s) then mkPageState false true (Writable s) (Dirty s) else s.
Definition mark_pages_for_iv_check (m : Mapping) : Mapping := mkMapping (m_first_page m) (map mark_page (m_page_state m)) (m_memory m) (m_read_write m).

Definition mark_data_as_possibly_stale (f : EncryptedFile) : result EncryptedFile :=
  let bad s := UpToDate s && negb (Dirty s || Writable s) && StaleIV s in
  if existsb (fun m => existsb bad (m_page_state m)) (mappings f) then Throw AssertionFailed
  else Ok (mkEncryptedFile (fd f) (invalidate_ivs (cryptor f)) (map mark_pages_for_iv_check (mappings f))).

(** [memcpy] of a part of a page. *)
Definition copy_part (dst src : page) (offset size : nat) : page := take offset dst ++ take size (drop offset src) ++ drop (offset + size) dst.

Definition receive_write (ndx_in_file : nat) (src : page) (offset size : nat) (m : Mapping) : Mapping :=
  let local := (ndx_in_file - m_first_page m)%nat in
  let s := page_state m local in
  if contains_page m ndx_in_file then
    if UpToDate s then put_page m local (copy_part (page_at m local) src offset size)
    else if StaleIV s then put_state (put_page m local src) local (clear_StaleIV (set_UpToDate s))
    else m
  else m.

Definition write_and_update_all (f : EncryptedFile) (i local_ndx offset size : nat) : result EncryptedFile :=
  let this := mapping_at f i in
  let s := page_state this local_ndx in
  if negb (Writable s) || negb (UpToDate s) || StaleIV s || negb (offset + size <=? 4096)%nat then Throw AssertionFailed
  else
    let src := page_at this local_ndx in
    let others := imap (fun j m => if (j =? i)%nat then m else receive_write (local_ndx + m_first_page this) src offset size m) (mappings f) in
    let f := mkEncryptedFile (fd f) (cryptor f) others in
    Ok (with_mapping f i (put_state this local_ndx (mkPageState (UpToDate s) (StaleIV s) false true))).

(** The loop of [do_flush] over the pages from [local_ndx] on. *)
Fixpoint flush_pages (fuel : nat) (n : nat) (f : EncryptedFile) (i local_ndx : nat) : result EncryptedFile :=
  match n with
  | O => Ok f
  | S n =>
      let this := mapping_at f i in
      if negb (Dirty (page_state this local_ndx)) then flush_pages fuel n f i (S local_ndx)
      else
        '(cr, d) ← write fuel (cryptor f) (fd f) (page_pos this local_ndx) (page_at this local_ndx);
        let f := mkEncryptedFile d cr (mappings f) in
        let f := with_mapping f i (put_state this local_ndx (clear_Dirty (page_state this local_ndx))) in
        flush_pages fuel n f i (S local_ndx)
  end.

Definition do_flush (fuel : nat) (f : EncryptedFile) (i : nat) : result EncryptedFile := flush_pages fuel (length (m_page_state (mapping_at f i))) f i 0.

(** [write_barrier] at the byte [addr] of the mapping: the loop, with [n] pages to go. *)
Fixpoint write_barrier_loop (n : nat) (f : EncryptedFile) (i local_ndx : nat) (size offset_in_page : Z) : result EncryptedFile :=
  match n with
  | O => Ok f
  | S n =>
      if 0 <? size then
        let this := mapping_at f i in
        if negb (local_ndx <? length (m_page_state this))%nat || negb (Writable (page_state this local_ndx)) then Throw AssertionFailed
        else
          let bytes_in_page := Z.min encryption_page_size size - offset_in_page in
          f ← write_and_update_all f i local_ndx (Z.to_nat offset_in_page) (Z.to_nat bytes_in_page);
          write_barrier_loop n f i (S local_ndx) (size - (offset_in_page + bytes_in_page)) 0
      else Ok f
  end.

Definition write_barrier (f : EncryptedFile) (i : nat) (addr size : Z) : result EncryptedFile :=
  if negb (0 <? size) || negb (m_read_write (mapping_at f i)) then Throw AssertionFailed
  else
    let local_ndx := addr / encryption_page_size in
    let offset_in_page := addr - local_ndx * encryption_page_size in
    let size := size + offset_in_page in
    write_barrier_loop (Z.to_nat (page_count size)) f i (Z.to_nat local_ndx) size offset_in_page.

Fixpoint refresh_pages (observer : nat -> option Observer) (n : nat) (f : EncryptedFile) (i local_ndx : nat) (to_modify : bool) : result EncryptedFile :=
  match n with
  | O => Ok f
  | S n =>
      f ← (if negb (UpToDate (page_state (mapping_at f i) local_ndx)) then refresh_page (observer local_ndx) f i local_ndx to_modify else Ok f);
      refresh_pages observer n f i (S local_ndx) to_modify
  end.

Definition open_pages (m : Mapping) (first n : nat) : Mapping :=
  mkMapping (m_first_page m) (imap (fun k s => if ((first <=? k) && (k <? first + n))%nat then set_Writable s else s) (m_page_state m)) (m_memory m) (m_read_write m).

Definition read_barrier (observer : nat -> option Observer) (f : EncryptedFile) (i : nat) (addr size : Z) (to_modify : bool) : result EncryptedFile :=
  if negb (0 <? size) then Throw AssertionFailed
  else
    let begin := Z.to_nat (addr / encryption_page_size) in
    let end_ := Z.to_nat ((addr + (size - 1)) / encryption_page_size) in
    f ← refresh_pages observer (end_ + 1 - begin) f i begin to_modify;
    Ok (if to_modify then with_mapping f i (open_pages (mapping_at f i) begin (end_ + 1 - begin)) else f).

Definition extend_to (f : EncryptedFile) (i : nat) (offset new_size : Z) (new_memory : list page) : result EncryptedFile :=
  if negb (new_size mod encryption_page_size =? 0) then Throw AssertionFailed
  else
    let this := mapping_at f i in
    let m := mkMapping (m_first_page this) (resize (Z.to_nat (page_count new_size)) Clean (m_page_state this)) new_memory (m_read_write this) in
    Ok (with_mapping (with_cryptor f (set_data_size (cryptor f) (offset + new_size))) i m).

(** [set]: the memory at the new address is [new_memory]. *)
Definition set_mapping (fuel : nat) (f : EncryptedFile) (i : nat) (new_memory : list page) (new_size new_file_offset : Z) : result EncryptedFile :=
  if negb (new_file_offset mod encryption_page_size =? 0) || negb (new_size mod encryption_page_size =? 0) then Throw AssertionFailed
  else
    let f := with_cryptor f (set_data_size (cryptor f) (new_file_offset + new_size)) in
    f ← do_flush fuel f i;
    let m := mkMapping (Z.to_nat (new_file_offset / encryption_page_size)) (repeat Clean (Z.to_nat (new_size / encryption_page_size))) new_memory (m_read_write (mapping_at f i)) in
    Ok (with_mapping f i m).

(** The constructor, with nothing to flush, before the mapping is listed. *)
Definition add_mapping (f : EncryptedFile) (memory : list page) (file_offset size : Z) (read_write : bool) : result EncryptedFile :=
  if negb (file_offset mod encryption_page_size =? 0) || negb (size mod encryption_page_size =? 0) then Throw AssertionFailed
  else
    let m := mkMapping (Z.to_nat (file_offset / encryption_page_size)) (repeat Clean (Z.to_nat (size / encryption_page_size))) memory read_write in
    Ok (mkEncryptedFile (fd f) (set_data_size (cryptor f) (file_offset + size)) (mappings f ++ [m])).

(** The destructor. *)
Definition remove_mapping (fuel : nat) (f : EncryptedFile) (i : nat) : result EncryptedFile :=
  if existsb Writable (m_page_state (mapping_at f i)) then Throw AssertionFailed
  else
    f ← (if m_read_write (mapping_at f i) then do_flush fuel f i else Ok f);
    if negb (i <? length (mappings f))%nat then Throw AssertionFailed
    else Ok (mkEncryptedFile (fd f) (cryptor f) (list_erase_range i (S i) (mappings f))).
End Cryptor.
