(* ===== verification/EncryptedFileInv.v ===== *)
(** * Encrypted files: the layout, and what the cryptor reads and writes

    Tables and pages lie apart; reading a page gives what the table and the page on disk say,
    whatever the cryptor has cached; a write changes one page. *)

From S2P Require Import Prelude Bytes EncryptedFile.

(** ** Layout *)

Lemma pages_per_block_eq : pages_per_block = 64.
Proof. reflexivity. Qed.

(** Page [p] is at place [p mod 64] of block [p / 64]. *)
Lemma file_pos_of_page p o : 0 <= p -> 0 <= o < 4096 -> data_pos_to_file_pos (p * 4096 + o) = (p / 64 * 65 + p mod 64 + 1) * 4096 + o.
Proof.
  intros Hp Ho. unfold data_pos_to_file_pos, block_index, page_index. rewrite pages_per_block_eq. unfold encryption_page_size.
  replace ((p * 4096 + o) / 4096) with p by dlia. dlia.
Qed.

Lemma iv_pos_of_page p o : 0 <= p -> 0 <= o < 4096 -> iv_table_pos (p * 4096 + o) = p / 64 * 65 * 4096 + p mod 64 * 64.
Proof.
  intros Hp Ho. unfold iv_table_pos, block_index, page_index. rewrite pages_per_block_eq. unfold encryption_page_size, metadata_size.
  replace ((p * 4096 + o) / 4096) with p by dlia. change (64 - 1) with (Z.ones 6). rewrite Z.land_ones by lia. change (2 ^ 6) with 64. lia.
Qed.

(** Where the page and its table are. *)
Definition fpos (p : nat) : Z := data_pos_to_file_pos (Z.of_nat p * encryption_page_size).
Definition tpos (p : nat) : Z := iv_table_pos (Z.of_nat p * encryption_page_size).

Lemma fpos_eq p : fpos p = (Z.of_nat p / 64 * 65 + Z.of_nat p mod 64 + 1) * 4096.
Proof. unfold fpos, encryption_page_size. rewrite <- (Z.add_0_r (Z.of_nat p * 4096)), file_pos_of_page by lia. lia. Qed.

Lemma tpos_eq p : tpos p = Z.of_nat p / 64 * 65 * 4096 + Z.of_nat p mod 64 * 64.
Proof. unfold tpos, encryption_page_size. rewrite <- (Z.add_0_r (Z.of_nat p * 4096)), iv_pos_of_page by lia. lia. Qed.

Lemma pages_apart p q : p <> q -> fpos p + 4096 <= fpos q \/ fpos q + 4096 <= fpos p.
Proof. intros Hne. rewrite !fpos_eq. assert (Z.of_nat p <> Z.of_nat q) by lia. dlia. Qed.

Lemma tables_apart p q : p <> q -> tpos p + 64 <= tpos q \/ tpos q + 64 <= tpos p.
Proof. intros Hne. rewrite !tpos_eq. assert (Z.of_nat p <> Z.of_nat q) by lia. dlia. Qed.

Lemma table_page_apart p q : tpos p + 64 <= fpos q \/ fpos q + 4096 <= tpos p.
Proof. rewrite tpos_eq, fpos_eq. dlia. Qed.

(** The table of page [p] in the page of tables of its block. *)
Lemma tpos_block p : tpos p = iv_table_block_pos (Z.of_nat p * encryption_page_size) + Z.of_nat (p mod 64) * 64 /\ Z.of_nat (p / 64) = block_index (Z.of_nat p * encryption_page_size) /\ page_index (Z.of_nat p * encryption_page_size) = Z.of_nat p.
Proof.
  rewrite tpos_eq. unfold iv_table_block_pos, block_index, page_index. rewrite pages_per_block_eq. unfold encryption_page_size. rewrite Z.div_mul by lia. rewrite Nat2Z.inj_mod, Nat2Z.inj_div. lia.
Qed.

(** ** Bytes *)

Definition disk_ok (d : Disk) : Prop := 0 <= d_size d /\ forall x, d_size d <= x -> d_bytes d x = 0.

Lemma write_static_ok d pos data : disk_ok d -> 0 <= pos -> disk_ok (write_static d pos data).
Proof.
  intros [Hs Hz] Hp. split; cbn [write_static d_size d_bytes]; [lia|]. intros x Hx. rdec; [lia|]. by rewrite (proj2 (Z.ltb_ge x (d_size d))) by lia.
Qed.

Lemma write_static_slice d pos data : 0 <= pos -> slice (d_bytes (write_static d pos data)) pos (Z.of_nat (length data)) = data.
Proof.
  intros Hp. apply (nth_ext _ _ 0 0); rewrite length_slice; [lia|]. intros k Hk. rewrite nth_slice by lia. cbn [write_static d_bytes]. rdec; [|lia]. f_equal. lia.
Qed.

Lemma write_static_other d pos data a n : disk_ok d -> a + n <= pos \/ pos + Z.of_nat (length data) <= a -> slice (d_bytes (write_static d pos data)) a n = slice (d_bytes d) a n.
Proof.
  intros [Hs Hz] Ha. apply slice_ext. intros k Hk. cbn [write_static d_bytes]. rdec; [lia|]. destruct (Z.ltb_spec (a + k) (d_size d)); [done|]. by rewrite Hz.
Qed.

(** The table and the page of page [p] on disk; behind the end of the file are zeros. *)
Definition disk_iv (d : Disk) (p : nat) : IVTable := slice (d_bytes d) (tpos p) 64.
Definition disk_page (d : Disk) (p : nat) : page := slice (d_bytes d) (fpos p) 4096.

Lemma le_bytes_length n v : length (le_bytes n v) = n.
Proof. revert v. induction n as [|n IH]; intros v; cbn; [done|]. by rewrite IH. Qed.

Lemma le_of_le_bytes n v : 0 <= v < 2 ^ (8 * Z.of_nat n) -> le_of (le_bytes n v) = v.
Proof.
  revert v. induction n as [|n IH]; intros v Hv; cbn [le_bytes le_of]; [change (2 ^ (8 * Z.of_nat 0)) with 1 in Hv; lia|].
  replace (8 * Z.of_nat (S n)) with (8 + 8 * Z.of_nat n) in Hv by lia. rewrite Z.pow_add_r in Hv by lia. rewrite IH; [dlia|]. split; [apply Z.div_pos; lia|apply Z.div_lt_upper_bound; lia].
Qed.

Lemma xor_all_eq a b r : length a = length b -> xor_all a b r = 0 <-> r = 0 /\ a = b.
Proof.
  revert b r. induction a as [|x a IH]; intros [|y b] r Hl; try discriminate; cbn [xor_all]; [by split; [|intros [? _]]|]. rewrite IH by (injection Hl; auto).
  rewrite Z.lor_eq_0_iff, Z.lxor_eq_0_iff. split; [intros ((-> & ->) & ->); done|intros (-> & [= -> ->]); done].
Qed.

Lemma constant_time_equals_spec a b : length a = length b -> constant_time_equals a b = bool_decide (a = b).
Proof.
  intros Hl. unfold constant_time_equals. apply Bool.eq_iff_eq_true. rewrite Z.eqb_eq, bool_decide_eq_true, xor_all_eq by done. tauto.
Qed.

(** ** Tables *)

Definition unbump (t : IVTable) : IVTable := take 32 (drop 32 t) ++ drop 32 t.

Lemma unbump_fields t : length t = 64%nat -> length (unbump t) = 64%nat /\ take 4 (unbump t) = take 4 (drop 32 t) /\ iv1 (unbump t) = iv2 t /\ hmac1 (unbump t) = hmac2 t.
Proof.
  intros Hl. do 64 (destruct t as [|? t]; [discriminate|]). destruct t; [|discriminate]. by repeat split.
Qed.

Lemma length_disk_iv d p : length (disk_iv d p) = 64%nat.
Proof. unfold disk_iv. by rewrite length_slice. Qed.

Lemma nth_drop_zeros j n m : nth j (drop n (repeat 0 m)) 0 = 0.
Proof.
  destruct (nth_in_or_default j (drop n (repeat 0 m)) 0) as [Hi| ->]; [|done]. set (x := nth _ _ _) in *. clearbody x. apply (repeat_spec m 0). rewrite <- (take_drop n (repeat 0 m)). apply in_app_iff. by right.
Qed.

(** A block of tables that was empty in memory is that of the file. *)
Lemma overlay_disk_iv d b k : disk_ok d -> (k < 64)%nat ->
  overlay iv_empty (take 64 (drop (k * 64) (read_static d (iv_table_block_pos (Z.of_nat (b * 64 + k) * encryption_page_size)) encryption_page_size))) = disk_iv d (b * 64 + k).
Proof.
  intros [Hs Hz] Hk. destruct (tpos_block (b * 64 + k)) as (Et & _ & _). replace ((b * 64 + k) mod 64)%nat with k in Et by (rewrite Nat.add_comm, Nat.Div0.mod_add, Nat.mod_small; lia).
  set (bp := iv_table_block_pos _) in *. unfold read_static, encryption_page_size. set (n := Z.min 4096 (d_size d - bp)). unfold disk_iv. rewrite Et.
  assert (Hl : length (take 64 (drop (k * 64) (slice (d_bytes d) bp n))) = Nat.min 64 (Z.to_nat n - k * 64)) by (rewrite length_take, length_drop, length_slice; lia).
  apply (nth_ext _ _ 0 0).
  - unfold overlay. rewrite length_app, length_drop, Hl, length_slice. cbn [iv_empty repeat length]. lia.
  - unfold overlay. rewrite length_app, length_drop, Hl. cbn [iv_empty repeat length]. intros j Hj. rewrite nth_slice by lia. destruct (Nat.lt_ge_cases j (Nat.min 64 (Z.to_nat n - k * 64))) as [Hlt|Hge].
    + rewrite app_nth1 by lia. rewrite nth_lookup, lookup_take_lt, lookup_drop by lia. rewrite <- nth_lookup, nth_slice by lia. f_equal. lia.
    + rewrite app_nth2 by lia. rewrite Hz by lia. apply (nth_drop_zeros _ _ 64).
Qed.

(** What the cryptor relies on: pages and digests have their sizes, decryption undoes
    encryption, and a page encrypted with another vector has another digest. *)
Class CipherSpec {C : Cipher} : Prop := {
  aes_roundtrip key iv x : Z.of_nat (length x) = encryption_page_size -> aes_decrypt key iv (aes_encrypt key iv x) = x;
  aes_length key iv x : Z.of_nat (length x) = encryption_page_size -> Z.of_nat (length (aes_encrypt key iv x)) = encryption_page_size;
  hmac_length x key : length (hmac_sha224 x key) = 28%nat;
  hmac_apart key pos iv iv' x : Z.of_nat (length x) = encryption_page_size -> (4 <= length iv)%nat -> (4 <= length iv')%nat -> le_of (take 4 iv) <> le_of (take 4 iv') ->
    hmac_sha224 (aes_encrypt (take 32 key) (crypt_iv pos iv) x) (drop 32 key) <> hmac_sha224 (aes_encrypt (take 32 key) (crypt_iv pos iv') x) (drop 32 key) }.

(** ** Reading *)

Section Cryptor.
Context {C : Cipher} {CS : CipherSpec}.
Context (key : list Z).

Definition digest (d : Disk) (p : nat) : Hmac := hmac_sha224 (disk_page d p) (drop 32 key).
Definition plain (d : Disk) (p : nat) (stored_iv : list Z) : page := aes_decrypt (take 32 key) (crypt_iv (Z.of_nat p * encryption_page_size) stored_iv) (disk_page d p).

(** What reading page [p] with table [t] gives. *)
Definition view (t : IVTable) (d : Disk) (p : nat) : ReadResult * option page :=
  if iv1 t =? 0 then (Uninitialized, None)
  else if d_size d <? fpos p + 4096 then (Eof, None)
  else if bool_decide (digest d p = hmac1 t) then (Success, Some (plain d p t))
  else if iv2 t =? 0 then (InterruptedFirstWrite, None)
  else if bool_decide (digest d p = hmac2 t) then (Success, Some (plain d p (drop 32 t)))
  else if forallb (fun c => c =? 0) (disk_page d p) then (StaleHmac, None)
  else (Failed, None).

Lemma view_cases t d p : match view t d p with (Success, x) => is_Some x | (Uninitialized, x) => iv1 t = 0 /\ x = None | (_, x) => x = None end.
Proof.
  unfold view. destruct (Z.eqb_spec (iv1 t) 0); [by split|]. destruct (_ <? _); [reflexivity|]. destruct (bool_decide _); [by eexists|]. destruct (iv2 t =? 0); [reflexivity|]. destruct (bool_decide _); [by eexists|]. by destruct (forallb _ _).
Qed.

(** The table in memory: that of the disk, or with the vector of an interrupted write taken back. *)
Definition same_iv (d : Disk) (p : nat) (t : IVTable) : Prop :=
  t = disk_iv d p \/
  t = unbump (disk_iv d p) /\ fpos p + 4096 <= d_size d /\ iv1 (disk_iv d p) <> 0 /\ iv2 (disk_iv d p) <> 0 /\ digest d p <> hmac1 (disk_iv d p) /\ digest d p = hmac2 (disk_iv d p).

Lemma plain_iv d p a b : take 4 a = take 4 b -> plain d p a = plain d p b.
Proof. intros E. unfold plain, crypt_iv. by rewrite E. Qed.

Lemma same_iv_view d p t : same_iv d p t -> view t d p = view (disk_iv d p) d p.
Proof.
  intros [->|(-> & Hf & H1 & H2 & Hn & He)]; [done|]. destruct (unbump_fields (disk_iv d p) (length_disk_iv d p)) as (_ & E4 & E1 & Eh). unfold view. rewrite E1, Eh.
  rewrite !(proj2 (Z.eqb_neq _ _)) by done. rewrite (proj2 (Z.ltb_ge _ _)) by lia. rewrite (bool_decide_eq_true_2 _ He), (bool_decide_eq_false_2 _ Hn). by rewrite (plain_iv d p _ _ E4).
Qed.

Lemma same_iv_length d p t : same_iv d p t -> length t = 64%nat.
Proof. intros [->|(-> & _)]; [apply length_disk_iv|]. by apply unbump_fields, length_disk_iv. Qed.

(** The cryptor of a process that is alone with the file. *)
Record cr_ok (cr : AESCryptor) (d : Disk) : Prop := {
  co_key : m_key cr = key;
  co_blocks : exists n, cr_capacity cr = (n * 64)%nat /\ length (m_iv_blocks_read cr) = n /\ (length (m_iv_buffer cr) <= n * 64)%nat;
  co_cache : length (m_iv_buffer_cache cr) = length (m_iv_buffer cr);
  co_read b : nth b (m_iv_blocks_read cr) false = true -> (b * 64 + 64 <= length (m_iv_buffer cr))%nat;
  co_tables p t : m_iv_buffer cr !! p = Some t -> if nth (p / 64) (m_iv_blocks_read cr) false then same_iv d p t else t = iv_empty }.

Lemma page_index_page p : Z.to_nat (page_index (Z.of_nat p * encryption_page_size)) = p /\ Z.to_nat (block_index (Z.of_nat p * encryption_page_size)) = (p / 64)%nat.
Proof. destruct (tpos_block p) as (_ & Eb & ->). rewrite <- Eb. lia. Qed.

Lemma resize_grow {A} n (x : A) l : (length l <= n)%nat -> resize n x l = l ++ repeat x (n - length l).
Proof. intros Hl. unfold resize, pad_to. by rewrite take_ge. Qed.

Lemma lookup_repeat {A} (x y : A) n i : repeat x n !! i = Some y -> y = x.
Proof. intros E. apply list_elem_of_lookup_2, list_elem_of_In, repeat_spec in E. done. Qed.

(** Reading the block of page [p] for the first time. *)
Lemma read_iv_block_ok cr d p : disk_ok d -> cr_ok cr d -> (p < cr_capacity cr)%nat -> nth (p / 64) (m_iv_blocks_read cr) false = false ->
  let cr' := read_iv_block cr d (Z.of_nat p * encryption_page_size) in
  cr_ok cr' d /\ cr_capacity cr' = cr_capacity cr /\ m_iv_blocks_read cr' = <[(p / 64)%nat := true]> (m_iv_blocks_read cr) /\ (p < length (m_iv_buffer cr'))%nat.
Proof.
  intros Hd [Hk (n & Hc & Hn & Hb) Hca Hr Ht] Hp Hu. unfold read_iv_block. destruct (page_index_page p) as [_ ->]. remember (p / 64)%nat as b eqn:Eb0.
  assert (Hbn : (b < n)%nat) by (subst b; apply Nat.Div0.div_lt_upper_bound; lia). assert (Hpb : (b * 64 <= p < b * 64 + 64)%nat) by (pose proof (Nat.div_mod_eq p 64); pose proof (Nat.mod_upper_bound p 64); subst b; lia).
  set (buf := if (length (m_iv_buffer cr) <? b * 64 + 64)%nat then _ else m_iv_buffer cr). set (ca := if (length (m_iv_buffer cr) <? b * 64 + 64)%nat then _ else m_iv_buffer_cache cr).
  assert (Hbuf : length buf = Nat.max (length (m_iv_buffer cr)) (b * 64 + 64) /\ forall i t, buf !! i = Some t -> if nth (i / 64) (m_iv_blocks_read cr) false then same_iv d i t else t = iv_empty).
  { subst buf. destruct (Nat.ltb_spec (length (m_iv_buffer cr)) (b * 64 + 64)) as [Hlt|Hge]; [|split; [lia|exact Ht]]. rewrite resize_grow by lia. split; [rewrite length_app, repeat_length; lia|].
    intros i t Hi. apply lookup_app_Some in Hi as [Hi|[Hge Hi]]; [by apply Ht|]. apply lookup_repeat in Hi. destruct (nth (i / 64) (m_iv_blocks_read cr) false) eqn:Ei; [|done]. apply Hr in Ei. pose proof (Nat.div_mod_eq i 64). pose proof (Nat.mod_upper_bound i 64). lia. }
  assert (Hcal : length ca = length buf) by (subst ca buf; destruct (Nat.ltb_spec (length (m_iv_buffer cr)) (b * 64 + 64)); [rewrite !resize_grow by lia; rewrite !length_app, !repeat_length; lia|done]).
  clearbody buf ca. destruct Hbuf as [Hbl Hbt]. cbv zeta. split_and!; [|done|done|cbn [m_iv_buffer]; rewrite length_imap; lia]. split; cbn [m_key cr_capacity m_iv_buffer m_iv_buffer_cache m_iv_blocks_read].
  - done.
  - exists n. rewrite length_imap, length_insert. split_and!; [done|done|lia].
  - by rewrite length_imap.
  - intros b' Hb'. rewrite length_imap. destruct (decide (b' = b)) as [->|Hne]; [lia|]. rewrite !nth_lookup, list_lookup_insert_ne in Hb' by done. rewrite <- nth_lookup in Hb'. apply Hr in Hb'. lia.
  - intros i t Hi. rewrite list_lookup_imap in Hi. destruct (buf !! i) as [t0|] eqn:Ei; [|done]. injection Hi as <-. apply Hbt in Ei as Hi. destruct (decide (i / 64 = b)%nat) as [Hib|Hne].
    + assert (Hrange : (b * 64 <= i < b * 64 + 64)%nat) by (pose proof (Nat.div_mod_eq i 64); pose proof (Nat.mod_upper_bound i 64); lia). rewrite Hib in *. rewrite Hu in Hi. rewrite (proj2 (Nat.leb_le _ _)), (proj2 (Nat.ltb_lt _ _)) by lia. cbn [andb].
      rewrite nth_lookup, list_lookup_insert_eq by lia. cbn [default from_option]. unfold id. left. subst t0.
      pose proof (overlay_disk_iv d b (i - b * 64) Hd ltac:(lia)) as Eo. replace (b * 64 + (i - b * 64))%nat with i in Eo by lia. rewrite <- Eo.
      assert (Ebp : iv_table_block_pos (Z.of_nat p * encryption_page_size) = iv_table_block_pos (Z.of_nat i * encryption_page_size)) by (unfold iv_table_block_pos; destruct (tpos_block p) as (_ & <- & _); destruct (tpos_block i) as (_ & <- & _); by rewrite Hib, Eb0). by rewrite Ebp.
    + rewrite nth_lookup, list_lookup_insert_ne by done. rewrite <- nth_lookup. replace ((b * 64 <=? i) && (i <? b * 64 + 64))%nat with false; [done|]. symmetry. apply andb_false_iff. rewrite Nat.leb_gt, Nat.ltb_ge. pose proof (Nat.div_mod_eq i 64). pose proof (Nat.mod_upper_bound i 64). destruct (Nat.lt_ge_cases i (b * 64)); [by left|right]. destruct (Nat.lt_ge_cases i (b * 64 + 64)); [|done]. exfalso. apply Hne. symmetry. apply (Nat.div_unique i 64 b (i - b * 64)); lia.
Qed.

Lemma get_iv_table_ok cr d p : disk_ok d -> cr_ok cr d -> (p < cr_capacity cr)%nat ->
  exists t cr', get_iv_table cr d (Z.of_nat p * encryption_page_size) UseCache = Ok (t, cr') /\ cr_ok cr' d /\ cr_capacity cr' = cr_capacity cr /\ same_iv d p t /\ m_iv_buffer cr' !! p = Some t /\ nth (p / 64) (m_iv_blocks_read cr') false = true /\ (nth (p / 64) (m_iv_blocks_read cr) false = true -> m_iv_buffer cr !! p = Some t).
Proof.
  intros Hd Hc Hp. unfold get_iv_table. destruct (page_index_page p) as [-> ->]. rewrite (proj2 (Nat.ltb_lt p _)) by done. cbn [negb orb].
  assert (Hread : exists cr1, (if (length (m_iv_buffer cr) <=? p)%nat || negb (nth (p / 64) (m_iv_blocks_read cr) false) then read_iv_block cr d (Z.of_nat p * encryption_page_size) else cr) = cr1 /\ cr_ok cr1 d /\ cr_capacity cr1 = cr_capacity cr /\ nth (p / 64) (m_iv_blocks_read cr1) false = true /\ (p < length (m_iv_buffer cr1))%nat /\ (nth (p / 64) (m_iv_blocks_read cr) false = true -> cr1 = cr)).
  { destruct (nth (p / 64) (m_iv_blocks_read cr) false) eqn:Eb.
    - pose proof (co_read _ _ Hc _ Eb) as Hl. pose proof (Nat.div_mod_eq p 64). pose proof (Nat.mod_upper_bound p 64). rewrite (proj2 (Nat.leb_gt _ _)) by lia. exists cr. split_and!; try done; lia.
    - rewrite orb_true_r. destruct (read_iv_block_ok cr d p Hd Hc Hp Eb) as (H1 & H2 & H3 & H4). eexists. split_and!; [done|done|done| |done|done]. rewrite H3. destruct (co_blocks _ _ Hc) as (n & Hn & Hl & _). rewrite nth_lookup, list_lookup_insert_eq; [done|]. rewrite Hl. apply Nat.Div0.div_lt_upper_bound. lia. }
  destruct Hread as (cr1 & -> & [Hk Hb Hca Hr Ht] & Hcap & Hrd & Hlen & Hsame). destruct (lookup_lt_is_Some_2 _ _ Hlen) as [t Et]. pose proof (Ht p t Et) as Hs. rewrite Hrd in Hs. rewrite nth_lookup, Et. cbn [default from_option]. unfold id.
  eexists t, _. split; [done|]. split_and!; try done; [|intros Hb'; by rewrite <- (Hsame Hb')]. split; try done. cbn [m_iv_buffer_cache m_iv_buffer]. by rewrite length_insert.
Qed.

Lemma read_page d p : disk_ok d ->
  let buf := read_static d (data_pos_to_file_pos (Z.of_nat p * encryption_page_size)) encryption_page_size in
  (Z.of_nat (length buf) <? encryption_page_size) = (d_size d <? fpos p + 4096) /\ (fpos p + 4096 <= d_size d -> buf = disk_page d p).
Proof.
  intros [Hs _]. fold (fpos p). unfold read_static, encryption_page_size. cbv zeta. rewrite length_slice. split.
  - destruct (Z.ltb_spec (d_size d) (fpos p + 4096)); [apply Z.ltb_lt|apply Z.ltb_ge]; lia.
  - intros Hf. unfold disk_page. by rewrite Z.min_l by lia.
Qed.

Lemma length_hmac1 t : length t = 64%nat -> length (hmac1 t) = 28%nat /\ length (hmac2 t) = 28%nat.
Proof. intros Hl. unfold hmac1, hmac2. rewrite !length_take, !length_drop. lia. Qed.

Lemma set_iv_table_ok cr d p t : cr_ok cr d -> nth (p / 64) (m_iv_blocks_read cr) false = true -> same_iv d p t -> cr_ok (set_iv_table cr (Z.of_nat p * encryption_page_size) t) d.
Proof.
  intros [Hk Hb Hc Hr Ht] Hrd Hs. destruct (page_index_page p) as [Ep _]. unfold set_iv_table. rewrite Ep. split; cbn [m_key cr_capacity m_iv_buffer m_iv_buffer_cache m_iv_blocks_read]; try setoid_rewrite length_insert; try done.
  - intros q u Hq. destruct (decide (q = p)) as [->|Hne].
    + destruct (Nat.lt_ge_cases p (length (m_iv_buffer cr))) as [Hlt|Hge]; [|rewrite list_insert_ge in Hq by lia; by apply Ht]. rewrite list_lookup_insert_eq in Hq by done. injection Hq as <-. by rewrite Hrd.
    + rewrite list_lookup_insert_ne in Hq by done. by apply Ht.
Qed.

(** The table in memory is the one whose first vector decrypts the page, as it is once the page was read. *)
Definition settled (cr : AESCryptor) (d : Disk) (p : nat) : Prop :=
  nth (p / 64) (m_iv_blocks_read cr) false = true /\ exists t, m_iv_buffer cr !! p = Some t /\ ((view (disk_iv d p) d p).1 = Success -> digest d p = hmac1 t).

Lemma attempt_read_ok cr d p : disk_ok d -> cr_ok cr d -> (p < cr_capacity cr)%nat ->
  exists o cr', attempt_read cr d (Z.of_nat p * encryption_page_size) UseCache = Ok (view (disk_iv d p) d p, o, cr') /\ cr_ok cr' d /\ cr_capacity cr' = cr_capacity cr /\ settled cr' d p.
Proof.
  intros Hd Hc Hp. unfold attempt_read. destruct (get_iv_table_ok cr d p Hd Hc Hp) as (t & cr1 & -> & Hc1 & Hcap & Hs & Et & Hrd & _). cbn [mbind result_bind]. unfold settled. rewrite <- (same_iv_view d p t Hs). unfold view.
  destruct (iv1 t =? 0) eqn:E1; [eexists _, cr1; split_and!; try done; by exists t|]. destruct (read_page d p Hd) as [-> Ep]. destruct (Z.ltb_spec (d_size d) (fpos p + 4096)) as [|Hf]; [eexists _, cr1; split_and!; try done; by exists t|]. rewrite Ep by done.
  unfold calculate_hmac, decrypt. rewrite (co_key _ _ Hc1). fold (digest d p). pose proof (length_hmac1 t (same_iv_length d p t Hs)) as [Hl1 Hl2].
  rewrite !constant_time_equals_spec by (unfold digest; rewrite hmac_length; done). case_bool_decide as Hd1; cbn [negb]; [rewrite (bool_decide_eq_true_2 _ Hd1); eexists _, cr1; split_and!; try done; by exists t|rewrite (bool_decide_eq_false_2 _ Hd1)].
  destruct (iv2 t =? 0) eqn:E2; [eexists _, cr1; split_and!; try done; by exists t|]. case_bool_decide as Hd2; [rewrite (bool_decide_eq_true_2 _ Hd2)|rewrite (bool_decide_eq_false_2 _ Hd2); destruct (forallb _ _); eexists _, cr1; split_and!; try done; by exists t].
  destruct Hs as [->|(-> & _ & _ & _ & _ & He)]; [|exfalso; apply Hd1; rewrite He; symmetry; by apply unbump_fields, length_disk_iv].
  destruct (unbump_fields (disk_iv d p) (length_disk_iv d p)) as (_ & E4 & _). fold (unbump (disk_iv d p)). fold (plain d p (unbump (disk_iv d p))). rewrite (plain_iv d p _ _ E4). eexists _, _. split; [done|]. split_and!; [|done|done|].
  - apply set_iv_table_ok; [done|done|]. right. split_and!; try done; lia.
  - exists (unbump (disk_iv d p)). split; [|intros _; rewrite Hd2; symmetry; by apply unbump_fields, length_disk_iv]. destruct (page_index_page p) as [Epi _]. unfold set_iv_table. cbn [m_iv_buffer]. rewrite Epi. apply list_lookup_insert_eq. by eapply lookup_lt_Some.
Qed.

(** A read comes to an end, after at most 20 attempts, whatever other processes do. *)
Lemma attempt_read_returns cr d pos mode : attempt_read cr d pos mode <> OutOfFuel.
Proof.
  unfold attempt_read, get_iv_table. destruct (negb (Z.to_nat _ <? _)%nat); [done|]. cbn [mbind result_bind]. repeat (match goal with |- context [if ?b then _ else _] => destruct b end; try done).
Qed.

Lemma read_retry_returns fuel o cr pos dst rc ni last lr : (20 <= fuel + rc)%nat -> read_retry fuel o cr pos dst rc ni last lr <> OutOfFuel.
Proof.
  revert cr rc ni last lr. induction fuel as [|fuel IH]; intros cr rc ni last lr Hf; cbn [read_retry]; destruct (_ || _) eqn:E; try done.
  - apply orb_true_iff in E as [E|E]; [apply Nat.leb_le in E; lia|]. apply andb_true_iff in E as [_ E]. apply Nat.ltb_lt in E. lia.
  - pose proof (attempt_read_returns cr (o_disk o rc) pos (if (rc =? 0)%nat then UseCache else Refetch)) as Ha. destruct (attempt_read _ _ _ _) as [[[[r p] c] cr']| |]; [|done|done]. cbn [mbind result_bind]. destruct r; try done; (destruct ((0 <? rc)%nat && o_timeout o rc); [done|]; destruct (o_no_writer _ _); [done|]; apply IH; lia).
Qed.

Lemma read_returns cr d pos dst o : read cr d pos dst o <> OutOfFuel.
Proof.
  unfold read. destruct o as [o|]; [destruct (o_no_writer o 0); [|apply read_retry_returns; lia]|]; [pose proof (attempt_read_returns cr (o_disk o 0) pos UseCache) as Ha|pose proof (attempt_read_returns cr d pos UseCache) as Ha]; by destruct (attempt_read _ _ _ _) as [[[[r p] c] cr']| |].
Qed.

(** ** Writing *)

Lemma table_parts v h rest : length v = 4%nat -> length h = 28%nat -> length rest = 32%nat ->
  let t := v ++ h ++ rest in length t = 64%nat /\ take 4 t = v /\ iv1 t = le_of v /\ hmac1 t = h /\ drop 32 t = rest /\ hmac2 t = drop 4 rest.
Proof.
  intros Hv Hh Hr t. assert (E4 : take 4 t = v) by (unfold t; by rewrite take_app_le, take_ge by lia).
  assert (D4 : drop 4 t = h ++ rest) by (unfold t; by rewrite drop_app_ge, Hv, drop_0 by lia). assert (D32 : drop 32 t = rest) by (change 32%nat with (4 + 28)%nat; rewrite <- drop_drop, D4, drop_app_ge, Hh, drop_0 by lia; done).
  split_and!; [unfold t; rewrite !length_app; lia|done|by unfold iv1; rewrite E4|unfold hmac1; rewrite D4, take_app_le, take_ge by lia; done|done|].
  unfold hmac2. change 36%nat with (32 + 4)%nat. rewrite <- drop_drop, D32. rewrite take_ge; [done|rewrite length_drop; lia].
Qed.

Definition next_iv (t : IVTable) : Z := let v := u32 (iv1 t + 1) in if v =? 0 then 1 else v.

Lemma next_iv_range t : 0 < next_iv t < 2 ^ 32.
Proof. unfold next_iv. cbv zeta. pose proof (u32_range (iv1 t + 1)). destruct (Z.eqb_spec (u32 (iv1 t + 1)) 0); lia. Qed.

(** One round: the table and the page that are kept or rejected. *)
Lemma bump_round fuel cr pos src t : m_key cr = key -> length t = 64%nat -> exists t',
  let pg := aes_encrypt (take 32 key) (crypt_iv pos t') src in
  bump_iv (S fuel) cr pos src t = (if bool_decide (hmac1 t' = hmac2 t') then bump_iv fuel cr pos src t' else Some (t', pg)) /\
  length t' = 64%nat /\ iv1 t' = next_iv t /\ hmac1 t' = hmac_sha224 pg (drop 32 key) /\ drop 32 t' = drop 32 t /\ hmac2 t' = drop 4 (drop 32 t).
Proof.
  intros Hk Hl. cbn [bump_iv]. fold (next_iv t). pose proof (next_iv_range t) as Hv. set (v := next_iv t) in *. clearbody v. set (t0 := le_bytes 4 v ++ drop 4 t). assert (E0 : take 4 t0 = le_bytes 4 v /\ drop 32 t0 = drop 32 t).
  { unfold t0. split; [by rewrite take_app_le, take_ge by (rewrite le_bytes_length; lia)|]. change 32%nat with (4 + 28)%nat. rewrite <- drop_drop, drop_app_ge by (rewrite le_bytes_length; lia). rewrite le_bytes_length, drop_0. by rewrite drop_drop. }
  destruct E0 as [E4 E32]. set (e := encrypt cr pos src t0). unfold calculate_hmac. rewrite Hk, E4, E32.
  destruct (table_parts (le_bytes 4 v) (hmac_sha224 e (drop 32 key)) (drop 32 t)) as (Hl' & F4 & F1 & Fh & F32 & Fh2); [apply le_bytes_length|apply hmac_length|rewrite length_drop; lia|].
  exists (le_bytes 4 v ++ hmac_sha224 e (drop 32 key) ++ drop 32 t). cbv zeta. assert (Ee : aes_encrypt (take 32 key) (crypt_iv pos (le_bytes 4 v ++ hmac_sha224 e (drop 32 key) ++ drop 32 t)) src = e) by (unfold crypt_iv; rewrite F4; unfold e, encrypt, crypt_iv; by rewrite Hk, E4).
  rewrite Ee. split_and!; try done. rewrite F1. apply le_of_le_bytes. lia.
Qed.

Lemma bump_iv_ok fuel cr pos src t t' pg : m_key cr = key -> length t = 64%nat -> bump_iv fuel cr pos src t = Some (t', pg) ->
  length t' = 64%nat /\ iv1 t' <> 0 /\ pg = aes_encrypt (take 32 key) (crypt_iv pos t') src /\ hmac1 t' = hmac_sha224 pg (drop 32 key) /\ drop 32 t' = drop 32 t /\ hmac1 t' <> hmac2 t'.
Proof.
  intros Hk. revert t. induction fuel as [|fuel IH]; intros t Hl; [done|]. destruct (bump_round fuel cr pos src t Hk Hl) as (t1 & -> & L1 & I1 & H1 & D1 & _). case_bool_decide as Hcol.
  - intros E. destruct (IH t1 L1 E) as (G1 & G2 & G3 & G4 & G5 & G6). split_and!; try done. by rewrite G5.
  - intros [= <- <-]. pose proof (next_iv_range t). split_and!; try done. lia.
Qed.

(** Two rounds are enough: the second digest differs from the first, which was the old one. *)
Lemma bump_iv_total cr pos src t fuel : m_key cr = key -> length t = 64%nat -> Z.of_nat (length src) = encryption_page_size -> (2 <= fuel)%nat -> exists r, bump_iv fuel cr pos src t = Some r.
Proof.
  intros Hk Hl Hs Hf. destruct fuel as [|[|fuel]]; [lia|lia|]. destruct (bump_round (S fuel) cr pos src t Hk Hl) as (t1 & -> & L1 & I1 & H1 & D1 & K1). case_bool_decide as Hc1; [|by eexists].
  destruct (bump_round fuel cr pos src t1 Hk L1) as (t2 & -> & L2 & I2 & H2 & D2 & K2). case_bool_decide as Hc2; [|by eexists]. exfalso.
  apply (hmac_apart key pos t1 t2 src Hs); [lia|lia| |rewrite <- H1, <- H2; by rewrite Hc1, Hc2, K1, K2, D1]. fold (iv1 t1) (iv1 t2). rewrite I2. pose proof (next_iv_range t) as Hr. rewrite <- I1 in Hr. unfold next_iv. cbv zeta. unfold u32 in *.
  destruct (Z.eqb_spec ((iv1 t1 + 1) mod 2 ^ 32) 0) as [E|E]; [|dlia]. destruct (Z.eq_dec (iv1 t1) 1) as [E1|]; [rewrite E1 in E; by vm_compute in E|done].
Qed.

(** A page other than those written keeps what can be read in it. *)
Lemma view_keeps d d' q x : disk_iv d' q = disk_iv d q -> disk_page d' q = disk_page d q -> d_size d <= d_size d' -> view (disk_iv d q) d q = (Success, Some x) -> view (disk_iv d' q) d' q = (Success, Some x).
Proof.
  intros Et Ep Hs. unfold view, digest, plain. rewrite Et, Ep. destruct (iv1 (disk_iv d q) =? 0); [done|]. destruct (Z.ltb_spec (d_size d) (fpos q + 4096)); [done|]. by rewrite (proj2 (Z.ltb_ge (d_size d') _)) by lia.
Qed.

Lemma same_iv_keeps d d' q t : disk_iv d' q = disk_iv d q -> disk_page d' q = disk_page d q -> d_size d <= d_size d' -> same_iv d q t -> same_iv d' q t.
Proof. intros Et Ep Hs [->|(-> & H1 & H2 & H3 & H4 & H5)]; [by left|right]. unfold digest in *. rewrite Et, Ep. split_and!; [reflexivity|lia|assumption..]. Qed.

(** The two stores of a write: what they put down, and that the cryptor remembers it. *)
Record stores (cr : AESCryptor) (d : Disk) (p : nat) (src : page) (t : IVTable) (pg : page) : Prop := {
  st_length : length t = 64%nat;
  st_iv : iv1 t <> 0;
  st_page : pg = aes_encrypt (take 32 key) (crypt_iv (Z.of_nat p * encryption_page_size) t) src;
  st_hmac : hmac1 t = hmac_sha224 pg (drop 32 key);
  st_apart : hmac1 t <> hmac2 t;
  st_old : exists t0, same_iv d p t0 /\ drop 32 t = take 32 t0 /\ (settled cr d p -> (view (disk_iv d p) d p).1 = Success -> digest d p = hmac1 t0) }.

Lemma write_ops_ok fuel cr d p src cr' ops : disk_ok d -> cr_ok cr d -> (p < cr_capacity cr)%nat -> write_ops fuel cr d (Z.of_nat p * encryption_page_size) src = Ok (cr', ops) ->
  exists t pg, ops = [(tpos p, t); (fpos p, pg)] /\ stores cr d p src t pg /\ cr_capacity cr' = cr_capacity cr /\
    (forall d', (forall q u, q <> p -> same_iv d q u -> same_iv d' q u) -> disk_iv d' p = t -> cr_ok cr' d').
Proof.
  intros Hd Hc Hp. unfold write_ops. destruct (get_iv_table_ok cr d p Hd Hc Hp) as (t0 & cr1 & -> & Hc1 & Hcap & Hs & Et & Hrd & Hsame). cbn [mbind result_bind]. pose proof (same_iv_length d p t0 Hs) as Hl.
  assert (H32 : length (take 32 t0) = 32%nat) by (rewrite length_take; lia). destruct (bump_iv _ _ _ _ _) as [[t pg]|] eqn:Eb; [|done]. intros [= <- <-].
  apply bump_iv_ok in Eb as (B1 & B2 & B3 & B4 & B5 & B6); [|exact (co_key _ _ Hc1)|rewrite length_app; lia]. rewrite drop_app_ge, H32, drop_0 in B5 by lia.
  exists t, pg. split; [done|]. split; [split; try done; exists t0; split_and!; try done; intros (Hr0 & t1 & Ht1 & Hsuc); rewrite (Hsame Hr0) in Ht1; by injection Ht1 as <-|]. split; [done|]. intros d' Hk Hd'. destruct Hc1 as [Kk Kb Kc Kr Kt]. destruct (page_index_page p) as [Ep _]. unfold set_iv_table. rewrite Ep.
  split; cbn [m_key cr_capacity m_iv_buffer m_iv_buffer_cache m_iv_blocks_read]; try setoid_rewrite length_insert; try done.
  intros q u Hq. destruct (decide (q = p)) as [->|Hne].
  - rewrite list_lookup_insert_eq in Hq by (by eapply lookup_lt_Some). injection Hq as <-. rewrite Hrd. left. by symmetry.
  - rewrite list_lookup_insert_ne in Hq by done. apply Kt in Hq. destruct (nth (q / 64) _ _); [by apply Hk|done].
Qed.

Lemma tpos_fpos_nonneg p : 0 <= tpos p /\ 0 <= fpos p.
Proof. rewrite tpos_eq, fpos_eq. dlia. Qed.

(** The disk after the store of the table, after that of the page, and after both. *)
Lemma table_stored d p t : disk_ok d -> length t = 64%nat ->
  let d' := write_static d (tpos p) t in
  disk_ok d' /\ disk_iv d' p = t /\ (forall q, q <> p -> disk_iv d' q = disk_iv d q) /\ (forall q, disk_page d' q = disk_page d q) /\ d_size d <= d_size d'.
Proof.
  intros Hd Hl d'. destruct (tpos_fpos_nonneg p) as [H0 _]. split_and!.
  - by apply write_static_ok.
  - pose proof (write_static_slice d (tpos p) t H0) as E. by rewrite Hl in E.
  - intros q Hq. apply write_static_other; [done|]. rewrite Hl. destruct (tables_apart p q); lia.
  - intros q. apply write_static_other; [done|]. rewrite Hl. destruct (table_page_apart p q); lia.
  - cbn [d' write_static d_size]. lia.
Qed.

Lemma page_stored d p pg : disk_ok d -> length pg = 4096%nat ->
  let d' := write_static d (fpos p) pg in
  disk_ok d' /\ disk_page d' p = pg /\ (forall q, q <> p -> disk_page d' q = disk_page d q) /\ (forall q, disk_iv d' q = disk_iv d q) /\ d_size d <= d_size d' /\ fpos p + 4096 <= d_size d'.
Proof.
  intros Hd Hl d'. destruct (tpos_fpos_nonneg p) as [_ H0]. split_and!.
  - by apply write_static_ok.
  - pose proof (write_static_slice d (fpos p) pg H0) as E. by rewrite Hl in E.
  - intros q Hq. apply write_static_other; [done|]. rewrite Hl. destruct (pages_apart p q); lia.
  - intros q. apply write_static_other; [done|]. rewrite Hl. destruct (table_page_apart q p); lia.
  - cbn [d' write_static d_size]. lia.
  - cbn [d' write_static d_size]. rewrite Hl. lia.
Qed.

Lemma stores_length cr d p src t pg : Z.of_nat (length src) = encryption_page_size -> stores cr d p src t pg -> length pg = 4096%nat.
Proof. intros Hl [_ _ -> _ _ _]. apply Nat2Z.inj. exact (aes_length (take 32 key) (crypt_iv (Z.of_nat p * encryption_page_size) t) src Hl). Qed.

(** After both stores the page reads as what was written. *)
Lemma stored_view cr d p src t pg d' : Z.of_nat (length src) = encryption_page_size -> stores cr d p src t pg -> disk_iv d' p = t -> disk_page d' p = pg -> fpos p + 4096 <= d_size d' -> view (disk_iv d' p) d' p = (Success, Some src).
Proof.
  intros Hl Hst Et Ep Hs. unfold view, digest, plain. rewrite Et, Ep. destruct Hst as [L I P H A O]. rewrite (proj2 (Z.eqb_neq _ _)) by done. rewrite (proj2 (Z.ltb_ge _ _)) by lia.
  rewrite bool_decide_eq_true_2 by done. rewrite P, aes_roundtrip by done. done.
Qed.

(** With the new table but the old page, the page reads as it did. *)
Lemma table_only_view cr d p src t pg d' x : settled cr d p -> stores cr d p src t pg -> disk_iv d' p = t -> disk_page d' p = disk_page d p -> d_size d <= d_size d' -> view (disk_iv d p) d p = (Success, Some x) -> view (disk_iv d' p) d' p = (Success, Some x).
Proof.
  intros Hset [L I P H A (t0 & Hs & Ho & Hsuc)] Et Ep Hsz Hv. specialize (Hsuc Hset). rewrite Hv in Hsuc. specialize (Hsuc eq_refl). rewrite <- (same_iv_view d p t0 Hs) in Hv. pose proof (same_iv_length d p t0 Hs) as Hl.
  assert (F : iv2 t = iv1 t0 /\ hmac2 t = hmac1 t0 /\ take 4 (drop 32 t) = take 4 t0).
  { unfold iv2, hmac2, iv1, hmac1. change 36%nat with (32 + 4)%nat. rewrite <- drop_drop, Ho. rewrite take_take. replace (4 `min` 32)%nat with 4%nat by done. rewrite skipn_firstn_comm, take_take. split_and!; reflexivity. }
  destruct F as (F1 & F2 & F3). unfold view in Hv. destruct (iv1 t0 =? 0) eqn:E0; [done|]. destruct (Z.ltb_spec (d_size d) (fpos p + 4096)); [done|]. rewrite (bool_decide_eq_true_2 _ Hsuc) in Hv. rewrite <- Hv.
  rewrite Et. unfold view. rewrite (proj2 (Z.eqb_neq _ _)) by done. rewrite (proj2 (Z.ltb_ge _ _)) by lia. unfold digest, plain in *. rewrite Ep.
  destruct (bool_decide (_ = hmac1 t)) eqn:Eh; [exfalso; apply bool_decide_eq_true in Eh; congruence|]. rewrite F1, E0, F2, (bool_decide_eq_true_2 _ Hsuc). unfold crypt_iv. by rewrite F3.
Qed.

(** A page as it can be read from the file alone. *)
Definition page_on_disk (d : Disk) (p : nat) : ReadResult * option page := view (disk_iv d p) d p.

Lemma page_write_ok fuel cr d p src cr' d' : disk_ok d -> cr_ok cr d -> (p < cr_capacity cr)%nat -> Z.of_nat (length src) = encryption_page_size ->
  write fuel cr d (Z.of_nat p * encryption_page_size) src = Ok (cr', d') ->
  disk_ok d' /\ cr_ok cr' d' /\ cr_capacity cr' = cr_capacity cr /\ page_on_disk d' p = (Success, Some src) /\
  (forall q, q <> p -> disk_iv d' q = disk_iv d q /\ disk_page d' q = disk_page d q) /\ d_size d <= d_size d'.
Proof.
  intros Hd Hc Hp Hl. unfold write. destruct (write_ops _ _ _ _ _) as [[cr1 ops]| |] eqn:Ew; try done. cbn [mbind result_bind]. intros [= <- <-].
  destruct (write_ops_ok _ _ _ _ _ _ _ Hd Hc Hp Ew) as (t & pg & -> & Hst & Hcap & Hcr). cbn [do_ops foldl fst snd].
  destruct (table_stored d p t Hd (st_length _ _ _ _ _ _ Hst)) as (D1 & T1 & T2 & T3 & T4). destruct (page_stored _ p pg D1 (stores_length _ _ _ _ _ _ Hl Hst)) as (D2 & P1 & P2 & P3 & P4 & P5).
  set (d1 := write_static d (tpos p) t) in *. set (d2 := write_static d1 (fpos p) pg) in *. assert (Ho : forall q, q <> p -> disk_iv d2 q = disk_iv d q /\ disk_page d2 q = disk_page d q) by (intros q Hq; by rewrite P3, P2, T2, T3).
  assert (Ht : disk_iv d2 p = t) by (by rewrite P3). assert (Hc2 : cr_ok cr1 d2) by (apply Hcr; [|done]; intros q u Hq; apply same_iv_keeps; [by apply Ho|by apply Ho|lia]).
  split_and!; try done; [by eapply stored_view|lia].
Qed.

(** A cryptor that has read nothing yet. *)
Lemma fresh_cryptor_ok d size : cr_ok (set_data_size (new_cryptor key) size) d /\ cr_capacity (set_data_size (new_cryptor key) size) = Z.to_nat (iv_table_size size).
Proof.
  unfold set_data_size, new_cryptor. cbn [cr_capacity m_key m_iv_buffer m_iv_buffer_cache m_iv_blocks_read]. split; [|done]. assert (Hn : exists n, Z.to_nat (iv_table_size size) = (n * 64)%nat).
  { unfold iv_table_size. rewrite pages_per_block_eq. exists (Z.to_nat (block_count size)). lia. }
  destruct Hn as [n Hn]. rewrite Nat.max_0_l, Hn, Nat.div_mul by done. assert (Hf : resize n false [] = repeat false n) by (unfold resize, pad_to; by rewrite take_nil, Nat.sub_0_r). split; cbn [m_key cr_capacity m_iv_buffer m_iv_buffer_cache m_iv_blocks_read]; try done.
  - exists n. rewrite Hf, repeat_length. cbn. split_and!; [done|done|lia].
  - intros b. rewrite Hf, nth_repeat. done.
Qed.

Lemma set_data_size_ok cr d size : cr_ok cr d -> cr_ok (set_data_size cr size) d /\ cr_capacity (set_data_size cr size) = Nat.max (cr_capacity cr) (Z.to_nat (iv_table_size size)).
Proof.
  intros [Hk (n & Hc & Hl & Hb) Hca Hr Ht]. unfold set_data_size. split; [|done]. assert (Hm : exists m, Nat.max (cr_capacity cr) (Z.to_nat (iv_table_size size)) = (m * 64)%nat /\ (n <= m)%nat).
  { unfold iv_table_size. rewrite pages_per_block_eq. exists (Nat.max n (Z.to_nat (block_count size))). lia. }
  destruct Hm as (m & -> & Hnm). rewrite Nat.div_mul by done. assert (Hn : forall b, nth b (resize m false (m_iv_blocks_read cr)) false = nth b (m_iv_blocks_read cr) false).
  { intros b. rewrite resize_grow by lia. destruct (Nat.lt_ge_cases b n); [by rewrite app_nth1 by lia|]. rewrite app_nth2 by lia. rewrite nth_repeat. by rewrite nth_overflow by lia. }
  split; cbn [m_key cr_capacity m_iv_buffer m_iv_buffer_cache m_iv_blocks_read]; try done.
  - exists m. rewrite resize_grow by lia. rewrite length_app, repeat_length. split_and!; lia.
  - intros b. rewrite Hn. apply Hr.
  - intros q t Hq. rewrite Hn. by apply Ht.
Qed.

Lemma write_ops_total fuel cr d p src : disk_ok d -> cr_ok cr d -> (p < cr_capacity cr)%nat -> Z.of_nat (length src) = encryption_page_size -> (2 <= fuel)%nat ->
  exists cr' ops, write_ops fuel cr d (Z.of_nat p * encryption_page_size) src = Ok (cr', ops).
Proof.
  intros Hd Hc Hp Hl Hf. unfold write_ops. destruct (get_iv_table_ok cr d p Hd Hc Hp) as (t0 & cr1 & -> & Hc1 & _ & Hs & _). cbn [mbind result_bind]. pose proof (same_iv_length d p t0 Hs) as Hl0.
  destruct (bump_iv_total cr1 (Z.of_nat p * encryption_page_size) src (take 32 t0 ++ take 32 t0) fuel) as [[t pg] ->]; [exact (co_key _ _ Hc1)|rewrite length_app, !length_take; lia|done|done|]. by eexists _, _.
Qed.
End Cryptor.

(** ** A cipher

    The requirements can be met: every byte is combined with the vector, and the digest has
    the first byte. *)

Definition xor_cipher : Cipher := {|
  aes_encrypt _ iv x := map (fun b => Z.lxor b (le_of (take 4 iv))) x;
  aes_decrypt _ iv x := map (fun b => Z.lxor b (le_of (take 4 iv))) x;
  hmac_sha224 x _ := hd 0 x :: repeat 0 27 |}.

Lemma xor_cipher_spec : @CipherSpec xor_cipher.
Proof.
  split; cbn [aes_encrypt aes_decrypt hmac_sha224 xor_cipher].
  - intros key iv x _. rewrite map_map. rewrite <- (map_id x) at 2. apply map_ext. intros b. by rewrite Z.lxor_assoc, Z.lxor_nilpotent, Z.lxor_0_r.
  - intros key iv x Hl. by rewrite length_map.
  - done.
  - intros key pos iv iv' x Hl L L' Hne. unfold crypt_iv. rewrite !take_app_le, !take_take by (rewrite length_take; lia). destruct x as [|b x]; [done|]. cbn [map hd]. intros [= E]. apply Hne.
    apply (f_equal (Z.lxor b)) in E. by rewrite <- !Z.lxor_assoc, Z.lxor_nilpotent, !Z.lxor_0_l in E.
Qed.
