(* ===== verification/EncryptedFileCoherence.v ===== *)
(** * Encrypted files: the mappings of one process agree

    For every page there is one content, which is in memory in every mapping that has the page
    decrypted, and on disk unless a mapping has it to write. *)

From S2P Require Import Prelude Bytes EncryptedFile EncryptedFileInv.

(** ** The copies of a page *)

(** The copy of page [p] in a mapping, if it is in its range. *)
Definition slot (m : Mapping) (p : nat) : option (PageState * page) :=
  if contains_page m p then Some (page_state m (p - m_first_page m), page_at m (p - m_first_page m)) else None.
Definition slots (f : EncryptedFile) (p : nat) : list (option (PageState * page)) := map (fun m => slot m p) (mappings f).

(** What a mapping has apart from its pages. *)
Definition shape (m : Mapping) : nat * nat * bool := (m_first_page m, length (m_page_state m), m_read_write m).

Record mapping_ok (cap : nat) (m : Mapping) : Prop := {
  mo_memory : length (m_memory m) = length (m_page_state m);
  mo_pages : Forall (fun x : page => length x = 4096%nat) (m_memory m);
  mo_cap : (m_first_page m + length (m_page_state m) <= cap)%nat;
  mo_access : m_read_write m = false -> Forall (fun s => Dirty s = false) (m_page_state m) }.

Lemma contains_page_spec m p : contains_page m p = true <-> (m_first_page m <= p < m_first_page m + length (m_page_state m))%nat.
Proof. unfold contains_page. rewrite andb_true_iff, Nat.leb_le, Nat.ltb_lt. lia. Qed.

Lemma slot_in m k : (k < length (m_page_state m))%nat -> slot m (m_first_page m + k) = Some (page_state m k, page_at m k).
Proof. intros Hk. unfold slot. rewrite (proj2 (contains_page_spec _ _)) by lia. by replace (m_first_page m + k - m_first_page m)%nat with k by lia. Qed.

Lemma slot_Some m p s x : slot m p = Some (s, x) -> exists k, p = (m_first_page m + k)%nat /\ (k < length (m_page_state m))%nat /\ s = page_state m k /\ x = page_at m k.
Proof.
  unfold slot. destruct (contains_page m p) eqn:E; [|done]. apply contains_page_spec in E. intros [= <- <-]. exists (p - m_first_page m)%nat. split_and!; [lia|lia|done|done].
Qed.

Lemma page_state_insert m k s j mem : (k < length (m_page_state m))%nat -> page_state (mkMapping (m_first_page m) (<[k := s]> (m_page_state m)) mem (m_read_write m)) j = if decide (j = k) then s else page_state m j.
Proof.
  intros Hk. unfold page_state. cbn [m_page_state]. rewrite !nth_lookup. destruct (decide (j = k)) as [->|Hne]; [by rewrite list_lookup_insert_eq|by rewrite list_lookup_insert_ne].
Qed.

Lemma slot_put_state m k s p : (k < length (m_page_state m))%nat -> slot (put_state m k s) p = if decide (p = m_first_page m + k)%nat then Some (s, page_at m k) else slot m p.
Proof.
  intros Hk. unfold slot, contains_page, put_state. cbn [m_first_page m_page_state]. rewrite length_insert. fold (contains_page m p). rewrite page_state_insert by done. destruct (contains_page m p) eqn:E.
  - apply contains_page_spec in E. destruct (decide (p = _)) as [->|Hne].
    + replace (m_first_page m + k - m_first_page m)%nat with k by lia. by rewrite decide_True.
    + by rewrite decide_False by lia.
  - rewrite decide_False; [done|]. intros ->. by rewrite (proj2 (contains_page_spec _ _)) in E by lia.
Qed.

Lemma slot_put_page m k x p : length (m_memory m) = length (m_page_state m) -> (k < length (m_page_state m))%nat -> slot (put_page m k x) p = if decide (p = m_first_page m + k)%nat then Some (page_state m k, x) else slot m p.
Proof.
  intros Hl Hk. unfold slot, put_page. change (contains_page (mkMapping _ _ _ _) p) with (contains_page m p). cbn [m_first_page]. unfold page_at at 1. cbn [m_memory]. rewrite nth_lookup. destruct (contains_page m p) eqn:E.
  - apply contains_page_spec in E. destruct (decide (p = _)) as [->|Hne].
    + replace (m_first_page m + k - m_first_page m)%nat with k by lia. rewrite list_lookup_insert_eq by lia. done.
    + rewrite list_lookup_insert_ne by lia. by rewrite <- nth_lookup.
  - rewrite decide_False; [done|]. intros ->. by rewrite (proj2 (contains_page_spec _ _)) in E by lia.
Qed.

(** Another content and another state for one page. *)
Lemma put_both m k x s cap : mapping_ok cap m -> (k < length (m_page_state m))%nat -> length x = 4096%nat -> (m_read_write m = false -> Dirty s = false) ->
  let m' := put_state (put_page m k x) k s in
  mapping_ok cap m' /\ shape m' = shape m /\ slot m' (m_first_page m + k) = Some (s, x) /\ forall q, q <> (m_first_page m + k)%nat -> slot m' q = slot m q.
Proof.
  intros [M P K A] Hk Hx Hs. cbv zeta. split_and!.
  - split; cbn [put_state put_page m_memory m_page_state m_first_page m_read_write]; rewrite ?length_insert; [done|by apply Forall_insert|done|]. intros Hr. apply Forall_insert; auto.
  - unfold shape. cbn. by rewrite length_insert.
  - rewrite slot_put_state by done. rewrite decide_True by done. unfold page_at. cbn [put_page m_memory]. rewrite nth_lookup, list_lookup_insert_eq by lia. done.
  - intros q Hq. rewrite slot_put_state by done. change (m_first_page (put_page m k x)) with (m_first_page m). rewrite decide_False, slot_put_page, decide_False by done. done.
Qed.

Lemma mapping_at_lookup f i m : mappings f !! i = Some m -> mapping_at f i = m.
Proof. intros E. unfold mapping_at. by rewrite nth_lookup, E. Qed.

Lemma slots_with f i m p : slots (with_mapping f i m) p = <[i := slot m p]> (slots f p).
Proof. apply (list_fmap_insert (fun m => slot m p)). Qed.

Lemma slots_lookup f i m p : mappings f !! i = Some m -> slots f p !! i = Some (slot m p).
Proof. intros E. unfold slots. change (map ?g ?l) with (g <$> l). by rewrite list_lookup_fmap, E. Qed.

Lemma slots_lookup_Some f j p o : slots f p !! j = Some o -> exists m, mappings f !! j = Some m /\ o = slot m p.
Proof. unfold slots. change (map ?g ?l) with (g <$> l). rewrite list_lookup_fmap. destruct (mappings f !! j) as [m|]; [|done]. intros [= <-]. by exists m. Qed.

Lemma find_up_to_date_spec l j i p : match find_up_to_date l j i p with
  | Some x => exists k s, map (fun m => slot m p) l !! k = Some (Some (s, x)) /\ UpToDate s = true
  | None => forall k s x, map (fun m => slot m p) l !! k = Some (Some (s, x)) -> (j + k)%nat <> i -> Writable s = true \/ UpToDate s = false end.
Proof.
  revert j. induction l as [|m l IH]; intros j; cbn [find_up_to_date map]; [done|]. specialize (IH (S j)). unfold slot at 1 3. set (s := page_state m (p - m_first_page m)).
  destruct ((j =? i)%nat || negb (contains_page m p) || Writable s || negb (UpToDate s)) eqn:E.
  - destruct (find_up_to_date l (S j) i p) as [x|].
    + destruct IH as (k & s' & Hk & Hu). by exists (S k), s'.
    + intros [|k] s' x; cbn; [|intros H Hne; apply (IH k s' x H); lia]. destruct (contains_page m p); [|done]. intros [= <- <-] Hne. fold s. rewrite (proj2 (Nat.eqb_neq j i)) in E by lia. cbn in E. destruct (Writable s); [by left|right]. by destruct (UpToDate s).
  - apply orb_false_iff in E as [E Eu]. apply orb_false_iff in E as [E _]. apply orb_false_iff in E as [_ Ec]. apply negb_false_iff in Eu, Ec. rewrite Ec. by exists 0%nat, s.
Qed.

(** ** The contents of the file *)

Section Cryptor.
Context {C : Cipher} {CS : CipherSpec}.
Context (key : list Z).

(** Copies of a page between two operations: [l] is the content of the page, if it has one. *)
Definition slots_ok (sl : list (option (PageState * page))) (l : option page) : Prop :=
  forall j s x, sl !! j = Some (Some (s, x)) -> Writable s = false /\ StaleIV s = false /\ (Dirty s = true -> UpToDate s = true) /\ (UpToDate s = true -> l = Some x).

Definition dirty (sl : list (option (PageState * page))) : Prop := exists j s x, sl !! j = Some (Some (s, x)) /\ Dirty s = true.

(** What the file itself has of the content. *)
Definition backed (sl : list (option (PageState * page))) (l : option page) (v : ReadResult * option page) : Prop :=
  match l with Some x => length x = 4096%nat /\ (dirty sl \/ v = (Success, Some x)) | None => v.1 = Uninitialized end.

Record base (f : EncryptedFile) : Prop := {
  b_disk : disk_ok (fd f);
  b_cryptor : cr_ok key (cryptor f) (fd f);
  b_mappings : Forall (mapping_ok (cr_capacity (cryptor f))) (mappings f) }.

Definition coherent (f : EncryptedFile) (L : nat -> option page) (p : nat) : Prop := slots_ok (slots f p) (L p) /\ backed (slots f p) (L p) (page_on_disk key (fd f) p).

(** The file and the mappings hold the contents [L]. *)
Definition holds_contents (f : EncryptedFile) (L : nat -> option page) : Prop := base f /\ forall p, coherent f L p.

(** Only page [p] changed, in the copy of mapping [i]. *)
Record changed (f f' : EncryptedFile) (i p : nat) (s : PageState) (x : page) : Prop := {
  c_base : base f';
  c_disk : fd f' = fd f;
  c_capacity : cr_capacity (cryptor f') = cr_capacity (cryptor f);
  c_shapes : map shape (mappings f') = map shape (mappings f);
  c_slot : slots f' p = <[i := Some (s, x)]> (slots f p);
  c_others q : q <> p -> slots f' q = slots f q }.

Lemma changed_put f cr i m k s x : base f -> cr_ok key cr (fd f) -> cr_capacity cr = cr_capacity (cryptor f) -> mappings f !! i = Some m -> (k < length (m_page_state m))%nat -> length x = 4096%nat -> (m_read_write m = false -> Dirty s = false) ->
  changed f (with_mapping (with_cryptor f cr) i (put_state (put_page m k x) k s)) i (m_first_page m + k) s x.
Proof.
  intros [Hd Hc Hm] Hcr Hcap Hi Hk Hx Hs. pose proof (Forall_lookup_1 _ _ _ _ Hm Hi) as Hmi. destruct (put_both m k x s _ Hmi Hk Hx Hs) as (H1 & H2 & H3 & H4). split; cbn [with_mapping with_cryptor fd cryptor mappings]; try done.
  - split; cbn [with_mapping with_cryptor fd cryptor mappings]; [done|done|]. rewrite Hcap. by apply Forall_insert.
  - change (map shape ?l) with (shape <$> l). rewrite list_fmap_insert, H2. apply list_insert_id. by rewrite list_lookup_fmap, Hi.
  - rewrite slots_with, H3. done.
  - intros q Hq. rewrite slots_with, H4 by done. apply list_insert_id. by apply slots_lookup.
Qed.

Lemma page_at_length cap m k : mapping_ok cap m -> (k < length (m_page_state m))%nat -> length (page_at m k) = 4096%nat.
Proof. intros [M P _ _] Hk. unfold page_at. apply (proj1 (Forall_nth (fun x : page => length x = 4096%nat) (m_memory m)) P). lia. Qed.

(** A page in no mapping to write is read from disk as the content, or was never written. *)
Lemma clean_page_view f L p : coherent f L p -> (forall j s x, slots f p !! j = Some (Some (s, x)) -> UpToDate s = false) ->
  match L p with Some x => length x = 4096%nat /\ page_on_disk key (fd f) p = (Success, Some x) | None => page_on_disk key (fd f) p = (Uninitialized, None) end.
Proof.
  intros [Hs Hb] Hc. unfold backed in Hb. destruct (L p) as [x|].
  - destruct Hb as [Hl [(j & s & y & E & Hd)|]]; [|done]. apply Hc in E as E1. apply Hs in E as (_ & _ & E2 & _). rewrite (E2 Hd) in E1. done.
  - pose proof (view_cases key (disk_iv (fd f) p) (fd f) p) as Hv. fold (page_on_disk key (fd f) p) in Hv. destruct (page_on_disk key (fd f) p) as [r o]. cbn in Hb. subst r. by destruct Hv as [_ ->].
Qed.

Lemma refresh_page_ok f i m k L to_modify : base f -> mappings f !! i = Some m -> (k < length (m_page_state m))%nat -> UpToDate (page_state m k) = false -> coherent f L (m_first_page m + k) ->
  (exists f' x, refresh_page None f i k to_modify = Ok f' /\ changed f f' i (m_first_page m + k) (set_UpToDate (page_state m k)) x /\ (L (m_first_page m + k)%nat = Some x \/ L (m_first_page m + k)%nat = None /\ to_modify = true /\ x = page_at m k)) \/
  (refresh_page None f i k to_modify = Throw DecryptionFailed /\ L (m_first_page m + k)%nat = None /\ to_modify = false).
Proof.
  intros Hb Hi Hk Hu Hco. remember (m_first_page m + k)%nat as p eqn:Ep. pose proof (slots_lookup f i m p Hi) as Hsl. rewrite Ep, slot_in, <- Ep in Hsl by done. destruct (proj1 Hco _ _ _ Hsl) as (Hw & Hst & Hdu & _).
  assert (Hdi : Dirty (page_state m k) = false) by (destruct (Dirty _); [by rewrite Hdu in Hu|done]). pose proof (Forall_lookup_1 _ _ _ _ (b_mappings _ Hb) Hi) as Hmi.
  unfold refresh_page. rewrite (mapping_at_lookup f i m Hi), (proj2 (Nat.ltb_lt _ _) Hk), Hw, Hdi. cbn [negb orb]. unfold copy_up_to_date_page. rewrite (mapping_at_lookup f i m Hi), (proj2 (Nat.ltb_lt _ _) Hk), Hu. cbn [negb orb].
  replace (k + m_first_page m)%nat with p by lia. pose proof (find_up_to_date_spec (mappings f) 0 i p) as Hf. fold (slots f p) in Hf. destruct (find_up_to_date _ _ _ _) as [x|]; cbn [mbind result_bind].
  - left. destruct Hf as (j & s & Ej & Huj). destruct (proj1 Hco _ _ _ Ej) as (_ & _ & _ & Hl). apply slots_lookup_Some in Ej as (mj & Ej & Es). symmetry in Es. apply slot_Some in Es as (kj & _ & Hkj & _ & ->).
    eexists _, _. split; [done|]. split; [|left; by apply Hl]. replace (clear_StaleIV (set_UpToDate (page_state m k))) with (set_UpToDate (page_state m k)) by (unfold clear_StaleIV, set_UpToDate; cbn; by rewrite Hst). rewrite Ep.
    replace f with (with_cryptor f (cryptor f)) at 2 by (by destruct f). apply changed_put; try done; [apply Hb|eapply page_at_length; [|done]; exact (Forall_lookup_1 _ _ _ _ (b_mappings _ Hb) Ej)].
  - unfold check_possibly_stale_page. rewrite (mapping_at_lookup f i m Hi), Hst. cbn [negb mbind result_bind]. rewrite (mapping_at_lookup f i m Hi). unfold read, page_pos. replace (k + m_first_page m)%nat with p by lia.
    destruct (attempt_read_ok key (cryptor f) (fd f) p) as (o & cr' & -> & Hc' & Hcap & _); [apply Hb|apply Hb|pose proof (mo_cap _ _ Hmi); lia|]. fold (page_on_disk key (fd f) p). cbn [mbind result_bind].
    pose proof (clean_page_view f L p Hco) as Hv. assert (Hv' : forall j s x, slots f p !! j = Some (Some (s, x)) -> UpToDate s = false).
    { intros j s x Ej. destruct (decide (j = i)) as [->|Hne]; [rewrite Hsl in Ej; by injection Ej as <- _|]. destruct (Hf j s x Ej Hne) as [Hw'|]; [|done]. by rewrite (proj1 (proj1 Hco _ _ _ Ej)) in Hw'. }
    specialize (Hv Hv'). assert (Hch : forall x, length x = 4096%nat -> changed f (with_mapping (with_cryptor f cr') i (put_state (put_page m k x) k (set_UpToDate (page_state m k)))) i p (set_UpToDate (page_state m k)) x) by (intros x Hx; rewrite Ep; by apply changed_put).
    destruct (L p) as [x|]; [destruct Hv as [Hx Hv]|]; rewrite Hv; cbn [mbind result_bind default from_option].
    + left. eexists _, x. split; [done|]. split; [by apply Hch|by left].
    + destruct to_modify; cbn [negb]; [left|by right]. eexists _, _. split; [done|]. split; [|by right]. apply Hch. by eapply page_at_length.
Qed.

(** Only pages from [lo] to [hi] changed, and not on disk. *)
Record framed (f f' : EncryptedFile) (lo hi : nat) : Prop := {
  f_base : base f';
  f_disk : fd f' = fd f;
  f_capacity : cr_capacity (cryptor f') = cr_capacity (cryptor f);
  f_shapes : map shape (mappings f') = map shape (mappings f);
  f_others q : ~ (lo <= q < hi)%nat -> slots f' q = slots f q }.

Lemma framed_refl f lo hi : base f -> framed f f lo hi.
Proof. by split. Qed.

Lemma framed_trans f f1 f2 lo mid hi : (lo <= mid <= hi)%nat -> framed f f1 lo mid -> framed f1 f2 mid hi -> framed f f2 lo hi.
Proof.
  intros Hm [B1 D1 C1 S1 O1] [B2 D2 C2 S2 O2]. split; [done|congruence|congruence|congruence|]. intros q Hq. rewrite O2, O1 by lia. done.
Qed.

Lemma changed_framed f f' i p s x : changed f f' i p s x -> framed f f' p (S p).
Proof. intros [B D K S _ O]. split; try done. intros q Hq. apply O. lia. Qed.

Lemma shapes_lookup f f' i m : map shape (mappings f') = map shape (mappings f) -> mappings f !! i = Some m -> exists m', mappings f' !! i = Some m' /\ shape m' = shape m.
Proof.
  intros E Hi. apply (f_equal (fun l => l !! i)) in E. change (map shape ?l) with (shape <$> l) in E. rewrite !list_lookup_fmap, Hi in E. destruct (mappings f' !! i) as [m'|]; [|done]. exists m'. split; [done|]. by apply (inj Some).
Qed.

Lemma coherent_frame f f' L p : fd f' = fd f -> slots f' p = slots f p -> coherent f L p -> coherent f' L p.
Proof. intros Ed Es. unfold coherent. by rewrite Ed, Es. Qed.

(** Page [p] is decrypted in mapping [i], which had [x0] in its place before. *)
Record loaded (f : EncryptedFile) (L : nat -> option page) (i p : nat) (to_modify : bool) (x0 : page) (s : PageState) (x : page) : Prop := {
  l_slot : slots f p !! i = Some (Some (s, x));
  l_up : UpToDate s = true;
  l_length : length x = 4096%nat;
  l_slots : slots_ok (slots f p) (Some x);
  l_content : L p = Some x /\ coherent f L p \/ L p = None /\ to_modify = true /\ x = x0 }.

Lemma loaded_frame f f' L i p tm x0 s x : fd f' = fd f -> slots f' p = slots f p -> loaded f L i p tm x0 s x -> loaded f' L i p tm x0 s x.
Proof. intros Ed Es [H1 H2 H3 H4 H5]. split; try rewrite Es; try done. destruct H5 as [[? Hc]|?]; [left; split; [done|by eapply coherent_frame]|by right]. Qed.

Lemma loaded_already f L i m k tm : base f -> mappings f !! i = Some m -> (k < length (m_page_state m))%nat -> UpToDate (page_state m k) = true -> coherent f L (m_first_page m + k) -> loaded f L i (m_first_page m + k) tm (page_at m k) (page_state m k) (page_at m k).
Proof.
  intros Hb Hi Hk Hu Hc. pose proof (slots_lookup f i m (m_first_page m + k) Hi) as Hsl. rewrite slot_in in Hsl by done. destruct (proj1 Hc _ _ _ Hsl) as (_ & _ & _ & Hl). specialize (Hl Hu).
  split; [done|done| |rewrite <- Hl; apply Hc|by left]. eapply page_at_length; [|done]. exact (Forall_lookup_1 _ _ _ _ (b_mappings _ Hb) Hi).
Qed.

Lemma loaded_changed f f' L i m k tm x : base f -> mappings f !! i = Some m -> (k < length (m_page_state m))%nat -> UpToDate (page_state m k) = false -> coherent f L (m_first_page m + k) ->
  changed f f' i (m_first_page m + k) (set_UpToDate (page_state m k)) x -> L (m_first_page m + k)%nat = Some x \/ L (m_first_page m + k)%nat = None /\ tm = true /\ x = page_at m k -> length x = 4096%nat ->
  loaded f' L i (m_first_page m + k) tm (page_at m k) (set_UpToDate (page_state m k)) x.
Proof.
  intros Hb Hi Hk Hu [Hs Hbk] [B D K S E O] Hl Hx. remember (m_first_page m + k)%nat as p eqn:Ep. pose proof (slots_lookup f i m p Hi) as Hsl. rewrite Ep, slot_in, <- Ep in Hsl by done.
  destruct (Hs _ _ _ Hsl) as (Hw & Hst & Hdu & _). assert (Hdi : Dirty (page_state m k) = false) by (destruct (Dirty _); [by rewrite Hdu in Hu|done]). assert (Hii : (i < length (slots f p))%nat) by (by eapply lookup_lt_Some).
  assert (Hok : slots_ok (slots f' p) (Some x)).
  { rewrite E. intros j s y Ej. destruct (decide (j = i)) as [->|Hne]; [rewrite list_lookup_insert_eq in Ej by done; injection Ej as <- <-; cbn; by rewrite Hdi|]. rewrite list_lookup_insert_ne in Ej by done. destruct (Hs _ _ _ Ej) as (G1 & G2 & G3 & G4). split_and!; try done. intros G5. specialize (G4 G5). destruct Hl as [Hl|(Hl & _)]; congruence. }
  split; [by rewrite E, list_lookup_insert_eq|done|done|done|]. destruct Hl as [Hl|]; [left|by right]. split; [done|]. split; rewrite Hl; [done|]. rewrite Hl in Hbk. destruct Hbk as [_ [(j & s & y & Ej & Hd)|Hv]]; (split; [done|]); [left|right; by rewrite D].
  exists j, s, y. split; [|done]. rewrite E, list_lookup_insert_ne; [done|]. intros ->. rewrite Hsl in Ej. injection Ej as <- _. by rewrite Hdi in Hd.
Qed.

Lemma refresh_pages_ok n f i m k L tm : base f -> mappings f !! i = Some m -> (k + n <= length (m_page_state m))%nat -> (forall j, (k <= j < k + n)%nat -> coherent f L (m_first_page m + j)) ->
  (exists f', refresh_pages (fun _ => None) n f i k tm = Ok f' /\ framed f f' (m_first_page m + k) (m_first_page m + k + n) /\ forall j, (k <= j < k + n)%nat -> exists s x, loaded f' L i (m_first_page m + j) tm (page_at m j) s x) \/
  (refresh_pages (fun _ => None) n f i k tm = Throw DecryptionFailed /\ exists j, (k <= j < k + n)%nat /\ L (m_first_page m + j)%nat = None /\ tm = false).
Proof.
  revert f m k. induction n as [|n IH]; intros f m k Hb Hi Hk Hco; cbn [refresh_pages]; [left; exists f; split_and!; [done|by apply framed_refl|lia]|]. rewrite (mapping_at_lookup f i m Hi).
  assert (Hstep : (exists f1, (if negb (UpToDate (page_state m k)) then refresh_page None f i k tm else Ok f) = Ok f1 /\ framed f f1 (m_first_page m + k) (S (m_first_page m + k)) /\ exists s x, loaded f1 L i (m_first_page m + k) tm (page_at m k) s x) \/
    (if negb (UpToDate (page_state m k)) then refresh_page None f i k tm else Ok f) = Throw DecryptionFailed /\ L (m_first_page m + k)%nat = None /\ tm = false).
  { destruct (UpToDate (page_state m k)) eqn:Hu; cbn [negb].
    - left. exists f. split_and!; [done|by apply framed_refl|]. eexists _, _. apply loaded_already; try done; [lia|apply Hco; lia].
    - destruct (refresh_page_ok f i m k L tm) as [(f1 & x & E & Hch & Hl)|Ht]; try done; [lia|apply Hco; lia| |by right]. left. exists f1. split_and!; [done|by eapply changed_framed|]. eexists _, x. eapply loaded_changed; try done; [lia|apply Hco; lia|].
      destruct (shapes_lookup f f1 i m (c_shapes _ _ _ _ _ _ Hch) Hi) as (m1 & Hi1 & Hs1). pose proof (c_slot _ _ _ _ _ _ Hch) as Es. pose proof (slots_lookup f1 i m1 (m_first_page m + k) Hi1) as Hsl. rewrite Es, list_lookup_insert_eq in Hsl by (unfold slots; rewrite length_map; by eapply lookup_lt_Some).
      injection Hsl as Hsl. symmetry in Hsl. apply slot_Some in Hsl as (k1 & _ & Hk1 & _ & ->). eapply page_at_length; [|done]. exact (Forall_lookup_1 _ _ _ _ (b_mappings _ (c_base _ _ _ _ _ _ Hch)) Hi1). }
  destruct Hstep as [(f1 & -> & Hf1 & s & x & Hl)|(-> & Hn & Ht)]; cbn [mbind result_bind]; [|right; split; [done|]; exists k; split_and!; try done; lia].
  destruct (shapes_lookup f f1 i m (f_shapes _ _ _ _ Hf1) Hi) as (m1 & Hi1 & Hs1). injection Hs1 as Ef El _. destruct (IH f1 m1 (S k)) as [(f' & E & Hf' & Hld)|(E & j & Hj & Hn)]; [apply Hf1|done|lia| | |].
  - intros j Hj. rewrite Ef. eapply coherent_frame; [apply Hf1|apply Hf1; lia|apply Hco; lia].
  - left. exists f'. rewrite Ef in *. split; [done|]. split; [apply (framed_trans f f1 f' _ (S (m_first_page m + k))); [lia|done|]; replace (S (m_first_page m + k)) with (m_first_page m + S k)%nat by lia; by replace (m_first_page m + k + S n)%nat with (m_first_page m + S k + n)%nat by lia|].
    intros j Hj. destruct (decide (j = k)) as [->|Hne]; [exists s, x; eapply loaded_frame; [apply Hf'|apply Hf'; lia|done]|].
    replace (page_at m j) with (page_at m1 j); [apply Hld; lia|]. pose proof (slots_lookup f1 i m1 (m_first_page m + j) Hi1) as Hs1. rewrite (f_others _ _ _ _ Hf1), (slots_lookup f i m _ Hi) in Hs1 by lia. rewrite <- Ef in Hs1 at 2. rewrite !slot_in in Hs1 by lia. by injection Hs1.
  - right. split; [done|]. exists j. rewrite Ef in Hn. split; [lia|done].
Qed.

(** ** Writing to a mapping *)

(** [memcpy] into a mapping. *)
Definition store_page (k : nat) (addr : Z) (data : list Z) (x : page) : page :=
  imap (fun o b => let a := Z.of_nat (k * 4096 + o) - addr in if (0 <=? a) && (a <? Z.of_nat (length data)) then nth (Z.to_nat a) data 0 else b) x.
Definition store (m : Mapping) (addr : Z) (data : list Z) : Mapping :=
  mkMapping (m_first_page m) (m_page_state m) (imap (fun k x => store_page k addr data x) (m_memory m)) (m_read_write m).

(** One change to a mapping and its announcement, as the users of a mapping make it. *)
Definition modify (f : EncryptedFile) (i : nat) (addr : Z) (data : list Z) : result EncryptedFile :=
  f ← read_barrier (fun _ => None) f i addr (Z.of_nat (length data)) true;
  write_barrier (with_mapping f i (store (mapping_at f i) addr data)) i addr (Z.of_nat (length data)).

Lemma length_store_page k addr data x : length (store_page k addr data x) = length x.
Proof. apply length_imap. Qed.

Lemma nth_store_page k addr data x o : (o < length x)%nat -> nth o (store_page k addr data x) 0 = let a := Z.of_nat (k * 4096 + o) - addr in if (0 <=? a) && (a <? Z.of_nat (length data)) then nth (Z.to_nat a) data 0 else nth o x 0.
Proof. intros Ho. unfold store_page. rewrite nth_lookup, list_lookup_imap. destruct (lookup_lt_is_Some_2 x o Ho) as [b Eb]. rewrite Eb. cbn [fmap option_fmap option_map default from_option]. by rewrite (nth_lookup_Some _ _ _ _ Eb). Qed.

Lemma store_page_outside k addr data x : length x = 4096%nat -> Z.of_nat (k * 4096 + 4096) <= addr \/ addr + Z.of_nat (length data) <= Z.of_nat (k * 4096) -> store_page k addr data x = x.
Proof.
  intros Hx Hk. apply (nth_ext _ _ 0 0); [apply length_store_page|]. intros o Ho. rewrite length_store_page in Ho. rewrite nth_store_page by done. cbv zeta. destruct (Z.leb_spec 0 (Z.of_nat (k * 4096 + o) - addr)); cbn [andb]; [|done]. destruct (Z.ltb_spec (Z.of_nat (k * 4096 + o) - addr) (Z.of_nat (length data))); [lia|done].
Qed.

Lemma copy_part_agree x y off size : length x = 4096%nat -> length y = 4096%nat -> (off + size <= 4096)%nat -> (forall o, (o < off \/ off + size <= o < 4096)%nat -> nth o x 0 = nth o y 0) -> copy_part x y off size = y.
Proof.
  intros Hx Hy Ho Ha. unfold copy_part. apply (nth_ext _ _ 0 0); rewrite !length_app, !length_take, !length_drop; [lia|]. intros o Hlt. assert (Hl : length (take off x) = off) by (rewrite length_take; lia). assert (Hl2 : length (take size (drop off y)) = size) by (rewrite length_take, length_drop; lia).
  destruct (Nat.lt_ge_cases o off); [rewrite app_nth1 by lia; rewrite nth_lookup, lookup_take_lt, <- nth_lookup by done; apply Ha; lia|]. rewrite app_nth2, Hl by lia.
  destruct (Nat.lt_ge_cases o (off + size)); [rewrite app_nth1 by lia; rewrite nth_lookup, lookup_take_lt, lookup_drop, <- nth_lookup by lia; f_equal; lia|]. rewrite app_nth2, Hl2 by lia. rewrite nth_lookup, lookup_drop, <- nth_lookup. rewrite <- Ha by lia. f_equal. lia.
Qed.

(** What the other mappings get of a write. *)
Lemma receive_write_ok cap p src off size m : mapping_ok cap m -> length src = 4096%nat -> (off + size <= 4096)%nat ->
  let m' := receive_write p src off size m in
  mapping_ok cap m' /\ shape m' = shape m /\ (forall q, q <> p -> slot m' q = slot m q) /\
  slot m' p = match slot m p with Some (s, x) => Some (if UpToDate s then (s, copy_part x src off size) else if StaleIV s then (clear_StaleIV (set_UpToDate s), src) else (s, x)) | None => None end.
Proof.
  intros Hm Hs Ho. unfold receive_write. cbv zeta. destruct (contains_page m p) eqn:E; [|unfold slot at 3 4; rewrite E; by split_and!]. apply contains_page_spec in E as Hr. remember (p - m_first_page m)%nat as k eqn:Ek. replace p with (m_first_page m + k)%nat in * by lia. assert (Hk : (k < length (m_page_state m))%nat) by lia.
  rewrite slot_in by done. pose proof (page_at_length _ _ _ Hm Hk) as Hx. destruct (UpToDate (page_state m k)); [|destruct (StaleIV (page_state m k)) eqn:Es].
  - set (x := copy_part _ _ _ _). assert (length x = 4096%nat) by (unfold x, copy_part; rewrite !length_app, !length_take, !length_drop; lia). replace (put_page m k x) with (put_state (put_page m k x) k (page_state m k)).
    + destruct (put_both m k x (page_state m k) cap Hm Hk) as (H1 & H2 & H3 & H4); [done| |by split_and!]. intros Hrw. apply (proj1 (Forall_nth (fun s => Dirty s = false) (m_page_state m)) (mo_access _ _ Hm Hrw)). lia.
    + unfold put_state, put_page. cbn. f_equal. apply list_insert_id. unfold page_state. destruct (lookup_lt_is_Some_2 _ _ Hk) as [s0 E0]. by rewrite (nth_lookup_Some _ _ _ _ E0).
  - destruct (put_both m k src (clear_StaleIV (set_UpToDate (page_state m k))) cap Hm Hk) as (H1 & H2 & H3 & H4); [done| |by split_and!]. intros Hrw. apply (proj1 (Forall_nth (fun s => Dirty s = false) (m_page_state m)) (mo_access _ _ Hm Hrw)). lia.
  - rewrite slot_in by done. by split_and!.
Qed.

Lemma insert_imap {A} (l : list A) i m (h g : A -> A) : l !! i = Some m -> <[i := h m]> (imap (fun j x => if (j =? i)%nat then x else g x) l) = imap (fun j x => if (j =? i)%nat then h x else g x) l.
Proof.
  intros Hi. apply list_eq. intros j. destruct (decide (j = i)) as [->|Hne].
  - rewrite list_lookup_insert_eq by (rewrite length_imap; by eapply lookup_lt_Some). by rewrite list_lookup_imap, Hi, Nat.eqb_refl.
  - rewrite list_lookup_insert_ne by done. rewrite !list_lookup_imap. destruct (l !! j); [|done]. cbn. by rewrite (proj2 (Nat.eqb_neq j i)).
Qed.

(** Mappings that are changed one by one. *)
Lemma slots_imap f g cr d q : slots (mkEncryptedFile d cr (imap g (mappings f))) q = imap (fun j m => slot (g j m) q) (mappings f).
Proof. unfold slots. cbn [mappings]. change (map ?h ?l) with (h <$> l). by rewrite fmap_imap. Qed.

Lemma imap_map_eq {A B} (g : nat -> A -> B) h (l : list A) : (forall j x, l !! j = Some x -> g j x = h x) -> imap g l = map h l.
Proof. intros Hg. change (map h l) with (h <$> l). apply list_eq. intros j. rewrite list_lookup_imap, list_lookup_fmap. destruct (l !! j) eqn:E; [|done]. cbn. by rewrite Hg. Qed.

(** Page [p] is open for writing in mapping [i]: [x] was the content, [y] is it now. *)
Record opened (f : EncryptedFile) (i p : nat) (x y : page) (off size : nat) : Prop := {
  op_state : exists s sl, slots f p = <[i := Some (set_Writable s, y)]> sl /\ sl !! i = Some (Some (s, x)) /\ UpToDate s = true /\ slots_ok sl (Some x);
  op_x : length x = 4096%nat;
  op_y : length y = 4096%nat;
  op_range : (off + size <= 4096)%nat;
  op_agree o : (o < off \/ off + size <= o < 4096)%nat -> nth o x 0 = nth o y 0 }.

Lemma write_and_update_all_ok f i m k x y off size : base f -> mappings f !! i = Some m -> m_read_write m = true -> (k < length (m_page_state m))%nat -> opened f i (m_first_page m + k) x y off size ->
  Writable (page_state m k) = true /\
  exists f', write_and_update_all f i k off size = Ok f' /\ framed f f' (m_first_page m + k) (S (m_first_page m + k)) /\ slots_ok (slots f' (m_first_page m + k)) (Some y) /\ dirty (slots f' (m_first_page m + k)).
Proof.
  intros Hb Hi Hrw Hk [(s & sl & Esl & Hsi & Hu & Hok) Hx Hy Ho Ha]. remember (m_first_page m + k)%nat as p eqn:Ep. destruct (Hok _ _ _ Hsi) as (_ & Hst & _ & _).
  pose proof (slots_lookup f i m p Hi) as Hm. rewrite Ep, slot_in, <- Ep, Esl, list_lookup_insert_eq in Hm by (done || by eapply lookup_lt_Some). injection Hm as Es Ey. split; [by rewrite <- Es|].
  unfold write_and_update_all. rewrite (mapping_at_lookup f i m Hi), <- Es, <- Ey. cbn [set_Writable UpToDate StaleIV Writable negb orb]. rewrite Hu, Hst, (proj2 (Nat.leb_le _ _) Ho). cbn [negb orb].
  set (st := mkPageState true false false true). replace (k + m_first_page m)%nat with p by lia. eexists. split; [done|]. unfold with_mapping. cbn [fd cryptor mappings].
  rewrite (insert_imap (mappings f) i m (fun m => put_state m k st) (receive_write p y off size) Hi). set (g := fun (j : nat) (x : Mapping) => if (j =? i)%nat then put_state x k st else receive_write p y off size x).
  assert (Hg : forall j mj, mappings f !! j = Some mj -> mapping_ok (cr_capacity (cryptor f)) (g j mj) /\ shape (g j mj) = shape mj /\ (forall q, q <> p -> slot (g j mj) q = slot mj q)).
  { intros j mj Hj. pose proof (Forall_lookup_1 _ _ _ _ (b_mappings _ Hb) Hj) as Hmj. unfold g. destruct (Nat.eqb_spec j i) as [->|Hne]; [|by destruct (receive_write_ok _ p y off size mj Hmj Hy Ho) as (? & ? & ? & _)]. rewrite Hi in Hj. injection Hj as <-.
    replace (put_state m k st) with (put_state (put_page m k y) k st); [destruct (put_both m k y st _ Hmj Hk Hy) as (H1 & H2 & H3 & H4); [by rewrite Hrw|rewrite Ep; by split_and!]|].
    unfold put_state, put_page. cbn. f_equal. apply list_insert_id. rewrite Ey. unfold page_at. destruct (lookup_lt_is_Some_2 (m_memory m) k) as [s0 E0]; [rewrite (mo_memory _ _ Hmj); lia|]. by rewrite (nth_lookup_Some _ _ _ _ E0). }
  split; [split; [split; [apply Hb|apply Hb|]|done|done| |]|].
  - cbn [mappings cryptor]. apply Forall_lookup_2. intros j mj. rewrite list_lookup_imap. destruct (mappings f !! j) as [m0|] eqn:Ej; [|done]. intros [= <-]. by apply Hg.
  - cbn [mappings]. change (map shape ?l) with (shape <$> l). rewrite fmap_imap. apply imap_map_eq. intros j mj Hj. by apply Hg.
  - intros q Hq. rewrite slots_imap. apply (imap_map_eq _ (fun m => slot m q)). intros j mj Hj. apply Hg; [done|lia].
  - rewrite slots_imap. assert (Hgi : slot (g i m) p = Some (st, y)) by (unfold g; rewrite Nat.eqb_refl, slot_put_state, decide_True, Ey by done; done). split; [|exists i, st, y; split; [|done]; rewrite list_lookup_imap, Hi; cbn; by rewrite Hgi].
    intros j s' x'. rewrite list_lookup_imap. destruct (mappings f !! j) as [mj|] eqn:Ej; [|done]. cbn [fmap option_fmap option_map]. intros [= E]. destruct (decide (j = i)) as [->|Hne]; [rewrite Hi in Ej; injection Ej as <-; rewrite Hgi in E; by injection E as <- <-|].
    unfold g in E. rewrite (proj2 (Nat.eqb_neq j i) Hne) in E. pose proof (Forall_lookup_1 _ _ _ _ (b_mappings _ Hb) Ej) as Hmj. destruct (receive_write_ok _ p y off size mj Hmj Hy Ho) as (_ & _ & _ & Er). rewrite Er in E.
    pose proof (slots_lookup f j mj p Ej) as Hj. rewrite Esl, list_lookup_insert_ne in Hj by done. destruct (slot mj p) as [[sj xj]|]; [|done]. destruct (Hok _ _ _ Hj) as (G1 & G2 & G3 & G4). rewrite G2 in E. destruct (UpToDate sj) eqn:Eu; injection E as <- <-; [|by rewrite Eu].
    specialize (G4 eq_refl). injection G4 as <-. rewrite (copy_part_agree x y) by done. by rewrite Eu.
Qed.

Lemma opened_frame f f' i p x y off size : slots f' p = slots f p -> opened f i p x y off size -> opened f' i p x y off size.
Proof. intros E [H1 H2 H3 H4 H5]. split; try done. by rewrite E. Qed.

(** The part of page [t] of [size] bytes that begin at [off] of page 0. *)
Definition part_off (t : nat) (off : Z) : nat := if (t =? 0)%nat then Z.to_nat off else 0.
Definition part_size (t : nat) (size off : Z) : nat := (Z.to_nat (Z.min 4096 (size - Z.of_nat t * 4096)) - part_off t off)%nat.

Lemma write_barrier_loop_ok n f i m k size off X Y : base f -> mappings f !! i = Some m -> m_read_write m = true -> (k + n <= length (m_page_state m))%nat -> 0 <= off -> (n = 0%nat -> size <= 0) ->
  ((0 < n)%nat -> off < Z.min 4096 size /\ Z.of_nat n * 4096 - 4096 < size <= Z.of_nat n * 4096) ->
  (forall t, (t < n)%nat -> opened f i (m_first_page m + (k + t)) (X (k + t)%nat) (Y (k + t)%nat) (part_off t off) (part_size t size off)) ->
  exists f', write_barrier_loop n f i k size off = Ok f' /\ framed f f' (m_first_page m + k) (m_first_page m + k + n) /\
    forall t, (t < n)%nat -> slots_ok (slots f' (m_first_page m + (k + t))) (Some (Y (k + t)%nat)) /\ dirty (slots f' (m_first_page m + (k + t))).
Proof.
  revert f m k size off. induction n as [|n IH]; intros f m k size off Hb Hi Hrw Hk Hoff H0 Hn Hop; cbn [write_barrier_loop]; [exists f; split_and!; [done|by apply framed_refl|lia]|].
  destruct (Hn ltac:(lia)) as [Ho Hs]. rewrite (proj2 (Z.ltb_lt 0 size)) by lia. rewrite (mapping_at_lookup f i m Hi), (proj2 (Nat.ltb_lt _ _)) by lia. pose proof (Hop 0%nat ltac:(lia)) as H1. rewrite Nat.add_0_r in H1. unfold encryption_page_size.
  replace (part_size 0 size off) with (Z.to_nat (Z.min 4096 size - off)) in H1 by (unfold part_size, part_off; cbn [Nat.eqb]; lia). change (part_off 0 off) with (Z.to_nat off) in H1.
  destruct (write_and_update_all_ok f i m k _ _ _ _ Hb Hi Hrw ltac:(lia) H1) as (-> & f1 & -> & Hf1 & Hok1 & Hd1). cbn [negb orb mbind result_bind].
  destruct (shapes_lookup f f1 i m (f_shapes _ _ _ _ Hf1) Hi) as (m1 & Hi1 & Hs1). injection Hs1 as Ef El Er. replace (size - (off + (Z.min 4096 size - off))) with (size - Z.min 4096 size) by lia.
  destruct (IH f1 m1 (S k) (size - Z.min 4096 size) 0) as (f' & E & Hf' & Hok); [apply Hf1|done|congruence|lia|lia|lia|lia| |].
  - intros t Ht. rewrite Ef. replace (S k + t)%nat with (k + S t)%nat by lia. eapply opened_frame; [apply Hf1; lia|]. specialize (Hop (S t) ltac:(lia)). replace (part_off t 0) with (part_off (S t) off) by (unfold part_off; by destruct (t =? 0)%nat).
    replace (part_size t (size - Z.min 4096 size) 0) with (part_size (S t) size off); [done|]. unfold part_size. replace (part_off t 0) with 0%nat by (unfold part_off; by destruct (t =? 0)%nat). change (part_off (S t) off) with 0%nat. do 2 f_equal. lia.
  - exists f'. rewrite Ef in *. split; [done|]. split; [apply (framed_trans f f1 f' _ (S (m_first_page m + k))); [lia|done|]; replace (S (m_first_page m + k)) with (m_first_page m + S k)%nat by lia; by replace (m_first_page m + k + S n)%nat with (m_first_page m + S k + n)%nat by lia|].
    intros [|t] Ht; [rewrite Nat.add_0_r; rewrite (f_others _ _ _ _ Hf') by lia; done|]. replace (k + S t)%nat with (S k + t)%nat by lia. apply Hok. lia.
Qed.

(** Opening pages for writing, and storing to them. *)
Lemma open_store_ok cap m b n addr data : mapping_ok cap m -> (b + n <= length (m_page_state m))%nat -> Z.of_nat b * 4096 <= addr -> addr + Z.of_nat (length data) <= Z.of_nat (b + n) * 4096 ->
  let m' := store (open_pages m b n) addr data in
  mapping_ok cap m' /\ shape m' = shape m /\ forall p, slot m' p = match slot m p with Some (s, x) => if decide (m_first_page m + b <= p < m_first_page m + (b + n))%nat then Some (set_Writable s, store_page (p - m_first_page m) addr data x) else Some (s, x) | None => None end.
Proof.
  intros Hm Hn Ha He. cbv zeta. split_and!.
  - destruct Hm as [M P K A]. split; cbn [store open_pages m_memory m_page_state m_first_page m_read_write]; rewrite ?length_imap; try done.
    + apply Forall_lookup_2. intros k x. rewrite list_lookup_imap. destruct (m_memory m !! k) as [y|] eqn:E; [|done]. intros [= <-]. rewrite length_store_page. exact (Forall_lookup_1 _ _ _ _ P E).
    + intros Hr. apply Forall_lookup_2. intros k s. rewrite list_lookup_imap. destruct (m_page_state m !! k) as [s0|] eqn:E; [|done]. intros [= <-]. pose proof (Forall_lookup_1 _ _ _ _ (A Hr) E). by destruct (_ && _).
  - unfold shape. cbn. by rewrite length_imap.
  - intros p. destruct (slot m p) as [[s x]|] eqn:E; [|unfold slot, contains_page in *; cbn [store open_pages m_page_state m_first_page]; rewrite length_imap; by destruct (_ && _)].
    apply slot_Some in E as (k & -> & Hk & -> & ->). change (m_first_page m + k)%nat with (m_first_page (store (open_pages m b n) addr data) + k)%nat at 1. rewrite slot_in by (cbn; by rewrite length_imap). cbn [store open_pages m_first_page]. replace (m_first_page m + k - m_first_page m)%nat with k by lia.
    destruct (lookup_lt_is_Some_2 _ _ Hk) as [s Es]. destruct (lookup_lt_is_Some_2 (m_memory m) k) as [x Ex]; [rewrite (mo_memory _ _ Hm); lia|]. pose proof (Forall_lookup_1 _ _ _ _ (mo_pages _ _ Hm) Ex) as Hx.
    unfold page_state, page_at. cbn [m_page_state m_memory store open_pages]. rewrite !nth_lookup, !list_lookup_imap, Es, Ex. cbn [fmap option_fmap option_map default from_option]. unfold id.
    destruct (decide _) as [Hin|Hout]; [rewrite (proj2 (Nat.leb_le _ _)), (proj2 (Nat.ltb_lt _ _)) by lia; done|]. replace ((b <=? k) && (k <? b + n))%nat with false by (symmetry; apply andb_false_iff; rewrite Nat.leb_gt, Nat.ltb_ge; lia). rewrite store_page_outside; [done|done|lia].
Qed.

(** The pages of a mapping that the bytes from [addr] on are in. *)
Definition first_of (addr : Z) : nat := Z.to_nat (addr / encryption_page_size).
Definition pages_of (addr size : Z) : nat := (Z.to_nat ((addr + (size - 1)) / encryption_page_size) + 1 - first_of addr)%nat.

Lemma pages_of_range m addr size : 0 <= addr -> 0 < size -> addr + size <= Z.of_nat (length (m_page_state m)) * encryption_page_size ->
  (first_of addr + pages_of addr size <= length (m_page_state m))%nat /\ Z.of_nat (first_of addr) * 4096 <= addr < Z.of_nat (first_of addr) * 4096 + 4096 /\
  Z.of_nat (first_of addr + pages_of addr size) * 4096 - 4096 < addr + size <= Z.of_nat (first_of addr + pages_of addr size) * 4096 /\ (0 < pages_of addr size)%nat.
Proof.
  unfold pages_of, first_of, encryption_page_size. intros. pose proof (Z.div_mod addr 4096 ltac:(lia)). pose proof (Z.mod_pos_bound addr 4096 ltac:(lia)).
  pose proof (Z.div_mod (addr + (size - 1)) 4096 ltac:(lia)). pose proof (Z.mod_pos_bound (addr + (size - 1)) 4096 ltac:(lia)). split_and!; lia.
Qed.

(** Two mappings in turn at one place. *)
Lemma with_mapping_twice f i m m' : with_mapping (with_mapping f i m) i m' = with_mapping f i m'.
Proof. unfold with_mapping. cbn. by rewrite list_insert_insert_eq. Qed.

Lemma open_store_file f i m b n addr data : base f -> mappings f !! i = Some m -> (b + n <= length (m_page_state m))%nat -> Z.of_nat b * 4096 <= addr -> addr + Z.of_nat (length data) <= Z.of_nat (b + n) * 4096 ->
  let f' := with_mapping f i (store (open_pages m b n) addr data) in
  framed f f' (m_first_page m + b) (m_first_page m + b + n) /\
  forall j, (b <= j < b + n)%nat -> slots f' (m_first_page m + j) = <[i := Some (set_Writable (page_state m j), store_page j addr data (page_at m j))]> (slots f (m_first_page m + j)).
Proof.
  intros Hb Hi Hn Ha He. cbv zeta. destruct (open_store_ok _ m b n addr data (Forall_lookup_1 _ _ _ _ (b_mappings _ Hb) Hi) Hn Ha He) as (H1 & H2 & H3). split; [split|].
  - split; [apply Hb|apply Hb|]. cbn [with_mapping mappings cryptor]. apply Forall_insert; [apply Hb|done].
  - done.
  - done.
  - cbn [with_mapping mappings]. change (map shape ?l) with (shape <$> l). rewrite list_fmap_insert, H2. apply list_insert_id. by rewrite list_lookup_fmap, Hi.
  - intros q Hq. rewrite slots_with, H3. apply list_insert_id. rewrite (slots_lookup f i m q Hi). destruct (slot m q) as [[s x]|]; [|done]. by rewrite decide_False by lia.
  - intros j Hj. rewrite slots_with, H3, slot_in by lia. rewrite decide_True by lia. by replace (m_first_page m + j - m_first_page m)%nat with j by lia.
Qed.

Lemma store_page_agree j addr data x size off o : length x = 4096%nat -> (o < 4096)%nat -> Z.of_nat (length data) = size -> forall t b, j = (b + t)%nat -> off = addr - Z.of_nat b * 4096 -> 0 <= off < 4096 ->
  (o < part_off t off \/ part_off t off + part_size t (size + off) off <= o)%nat -> nth o x 0 = nth o (store_page j addr data x) 0.
Proof.
  intros Hx Ho Hl t b -> -> Hof Hout. rewrite nth_store_page by lia. cbv zeta. destruct (Z.leb_spec 0 (Z.of_nat ((b + t) * 4096 + o) - addr)); cbn [andb]; [|done]. destruct (Z.ltb_spec (Z.of_nat ((b + t) * 4096 + o) - addr) (Z.of_nat (length data))); [|done].
  exfalso. unfold part_size, part_off in Hout. destruct (Nat.eqb_spec t 0); lia.
Qed.

(** The contents after a change: a page that was never written starts as the memory has it. *)
Definition after_modify (m : Mapping) (addr : Z) (data : list Z) (L : nat -> option page) (p : nat) : option page :=
  let b := (m_first_page m + first_of addr)%nat in
  if decide (b <= p < b + pages_of addr (Z.of_nat (length data)))%nat
  then Some (store_page (p - m_first_page m) addr data (default (page_at m (p - m_first_page m)) (L p)))
  else L p.

Lemma modify_ok f i m addr data L : holds_contents f L -> mappings f !! i = Some m -> m_read_write m = true -> 0 <= addr -> data <> [] -> addr + Z.of_nat (length data) <= Z.of_nat (length (m_page_state m)) * encryption_page_size ->
  exists f', modify f i addr data = Ok f' /\ holds_contents f' (after_modify m addr data L) /\ fd f' = fd f /\ map shape (mappings f') = map shape (mappings f).
Proof.
  intros [Hb Hco] Hi Hrw Ha Hdata He. set (b := first_of addr). set (n := pages_of addr (Z.of_nat (length data))). assert (Hl : 0 < Z.of_nat (length data)) by (destruct data; [done|cbn; lia]). destruct (pages_of_range m addr _ Ha Hl He) as (Hr1 & Hr2 & Hr3 & Hr4). fold b n in Hr1, Hr2, Hr3, Hr4.
  unfold modify, read_barrier. rewrite (proj2 (Z.ltb_lt 0 _)) by done. cbn [negb]. change (Z.to_nat (addr / encryption_page_size)) with b. change (_ + 1 - b)%nat with n.
  destruct (refresh_pages_ok n f i m b L true) as [(f1 & -> & Hf1 & Hld)|(_ & j & _ & _ & Ht)]; [done|done|lia|intros; apply Hco| |done]. cbn [mbind result_bind].
  destruct (shapes_lookup f f1 i m (f_shapes _ _ _ _ Hf1) Hi) as (m1 & Hi1 & Hs1). injection Hs1 as Ef El Er. rewrite (mapping_at_lookup f1 i m1 Hi1). rewrite (mapping_at_lookup (with_mapping f1 i _) i (open_pages m1 b n)) by (cbn; apply list_lookup_insert_eq; by eapply lookup_lt_Some). rewrite with_mapping_twice.
  destruct (open_store_file f1 i m1 b n addr data (f_base _ _ _ _ Hf1) Hi1) as [Hf2 Hs2]; [lia|lia|lia|]. set (f2 := with_mapping f1 i _) in *. destruct (shapes_lookup f1 f2 i m1 (f_shapes _ _ _ _ Hf2) Hi1) as (m2 & Hi2 & Hsh2). injection Hsh2 as Ef2 El2 Er2.
  set (Y := fun j => store_page j addr data (page_at m1 j)).
  assert (Hop : forall t, (t < n)%nat -> opened f2 i (m_first_page m2 + (b + t)) (page_at m1 (b + t)) (Y (b + t)%nat) (part_off t (addr - Z.of_nat b * 4096)) (part_size t (Z.of_nat (length data) + (addr - Z.of_nat b * 4096)) (addr - Z.of_nat b * 4096))).
  { intros t Ht. rewrite Ef2. destruct (Hld (b + t)%nat ltac:(lia)) as (s & x & [Q1 Q2 Q3 Q4 Q5]). rewrite <- Ef in *. pose proof (slots_lookup f1 i m1 (m_first_page m1 + (b + t)) Hi1) as Hsl. rewrite slot_in, Q1 in Hsl by lia. injection Hsl as -> ->.
    split; [eexists _, _; split_and!; [apply Hs2; lia|done|done|done]|done|unfold Y; by rewrite length_store_page|unfold part_size, part_off; destruct (Nat.eqb_spec t 0); lia|]. intros o Ho. apply (store_page_agree _ _ _ _ (Z.of_nat (length data)) (addr - Z.of_nat b * 4096) o) with (t := t) (b := b); try done; [|lia|lia]. unfold part_size, part_off in *; destruct (Nat.eqb_spec t 0); lia. }
  unfold write_barrier. rewrite (proj2 (Z.ltb_lt 0 _)) by done. rewrite (mapping_at_lookup f2 i m2 Hi2). replace (m_read_write m2) with true by congruence. cbn [negb orb]. change (Z.to_nat (addr / encryption_page_size)) with b.
  replace (addr - addr / encryption_page_size * encryption_page_size) with (addr - Z.of_nat b * 4096) by (unfold b, first_of, encryption_page_size; dlia). replace (Z.to_nat (page_count _)) with n by (unfold page_count, encryption_page_size; dlia).
  destruct (write_barrier_loop_ok n f2 i m2 b (Z.of_nat (length data) + (addr - Z.of_nat b * 4096)) (addr - Z.of_nat b * 4096) (page_at m1) Y (f_base _ _ _ _ Hf2) Hi2) as (f3 & -> & Hf3 & Hok); [congruence|lia|lia|lia|lia|done|]. rewrite Ef2, Ef in *.
  exists f3. split; [done|]. split; [|split; [by rewrite (f_disk _ _ _ _ Hf3), (f_disk _ _ _ _ Hf2), (f_disk _ _ _ _ Hf1)|by rewrite (f_shapes _ _ _ _ Hf3), (f_shapes _ _ _ _ Hf2), (f_shapes _ _ _ _ Hf1)]].
  split; [apply Hf3|]. intros p. unfold coherent, after_modify. fold b n. destruct (decide (m_first_page m + b <= p < m_first_page m + b + n)%nat) as [Hin|Hout].
  - remember (p - m_first_page m)%nat as j eqn:Ej. destruct (Hok (j - b)%nat ltac:(lia)) as [K1 K2]. replace (b + (j - b))%nat with j in K1, K2 by lia. replace (m_first_page m + j)%nat with p in K1, K2 by lia.
    destruct (Hld j ltac:(lia)) as (s & x & [Q1 Q2 Q3 Q4 Q5]). pose proof (slots_lookup f1 i m1 (m_first_page m + j) Hi1) as Hsl. rewrite <- Ef, slot_in, Ef, Q1 in Hsl by lia. injection Hsl as -> ->. replace (m_first_page m + j)%nat with p in Q5 by lia.
    replace (store_page j addr data (default (page_at m j) (L p))) with (Y j); [split; [done|]; split; [unfold Y; by rewrite length_store_page|by left]|]. unfold Y. f_equal. destruct Q5 as [[-> _]|(-> & _ & Q5)]; [done|exact Q5].
  - rewrite (f_disk _ _ _ _ Hf3), (f_disk _ _ _ _ Hf2), (f_disk _ _ _ _ Hf1), (f_others _ _ _ _ Hf3), (f_others _ _ _ _ Hf2), (f_others _ _ _ _ Hf1) by done. apply Hco.
Qed.

(** ** Reading, flushing, opening and closing mappings *)

Lemma read_ok f i m addr size L : holds_contents f L -> mappings f !! i = Some m -> 0 <= addr -> 0 < size -> addr + size <= Z.of_nat (length (m_page_state m)) * encryption_page_size ->
  let b := first_of addr in let n := pages_of addr size in
  (exists f' m', read_barrier (fun _ => None) f i addr size false = Ok f' /\ holds_contents f' L /\ fd f' = fd f /\ map shape (mappings f') = map shape (mappings f) /\ mappings f' !! i = Some m' /\
     forall j, (b <= j < b + n)%nat -> L (m_first_page m + j)%nat = Some (page_at m' j)) \/
  (read_barrier (fun _ => None) f i addr size false = Throw DecryptionFailed /\ exists j, (b <= j < b + n)%nat /\ L (m_first_page m + j)%nat = None).
Proof.
  intros [Hb Hco] Hi Ha Hs He b n. destruct (pages_of_range m addr size Ha Hs He) as (Hr1 & _). fold b n in Hr1. unfold read_barrier. rewrite (proj2 (Z.ltb_lt 0 _)) by done. cbn [negb]. change (Z.to_nat (addr / encryption_page_size)) with b. change (_ + 1 - b)%nat with n.
  destruct (refresh_pages_ok n f i m b L false) as [(f1 & -> & Hf1 & Hld)|(-> & j & Hj & Hn & _)]; [done|done|lia|intros; apply Hco| |right; split; [done|by exists j]]. left.
  destruct (shapes_lookup f f1 i m (f_shapes _ _ _ _ Hf1) Hi) as (m1 & Hi1 & Hs1). injection Hs1 as Ef El Er. exists f1, m1. cbn [mbind result_bind].
  assert (Hl : forall j, (b <= j < b + n)%nat -> L (m_first_page m + j)%nat = Some (page_at m1 j) /\ coherent f1 L (m_first_page m + j)).
  { intros j Hj. destruct (Hld j Hj) as (s & x & [Q1 Q2 Q3 Q4 [Q5|(_ & Q5 & _)]]); [|done]. pose proof (slots_lookup f1 i m1 (m_first_page m + j) Hi1) as Hsl. rewrite <- Ef, slot_in, Ef, Q1 in Hsl by lia. by injection Hsl as -> ->. }
  split_and!; try done; [|apply Hf1|apply Hf1|intros j Hj; by apply Hl]. split; [apply Hf1|]. intros p. destruct (decide (m_first_page m + b <= p < m_first_page m + b + n)%nat) as [Hin|Hout].
  - replace p with (m_first_page m + (p - m_first_page m))%nat by lia. apply Hl. lia.
  - eapply coherent_frame; [apply Hf1|by apply Hf1|apply Hco].
Qed.

(** The file after a dirty page was written to it. *)
Lemma flush_page_ok fuel f i m k L : holds_contents f L -> mappings f !! i = Some m -> (k < length (m_page_state m))%nat -> Dirty (page_state m k) = true -> (2 <= fuel)%nat ->
  exists cr d, write fuel (cryptor f) (fd f) (page_pos m k) (page_at m k) = Ok (cr, d) /\ cr_capacity cr = cr_capacity (cryptor f) /\
    holds_contents (with_mapping (mkEncryptedFile d cr (mappings f)) i (put_state m k (clear_Dirty (page_state m k)))) L.
Proof.
  intros [Hb Hco] Hi Hk Hd Hf. remember (m_first_page m + k)%nat as p eqn:Ep. pose proof (slots_lookup f i m p Hi) as Hsl. rewrite Ep, slot_in, <- Ep in Hsl by done. destruct (proj1 (Hco p) _ _ _ Hsl) as (Hw & Hst & Hdu & Hl). specialize (Hl (Hdu Hd)).
  pose proof (Forall_lookup_1 _ _ _ _ (b_mappings _ Hb) Hi) as Hmi. pose proof (page_at_length _ _ _ Hmi Hk) as Hx. assert (Hx' : Z.of_nat (length (page_at m k)) = encryption_page_size) by (rewrite Hx; done). assert (Hcap : (p < cr_capacity (cryptor f))%nat) by (pose proof (mo_cap _ _ Hmi); lia).
  unfold page_pos. replace (k + m_first_page m)%nat with p by lia. destruct (write_ops_total key fuel (cryptor f) (fd f) p (page_at m k)) as (cr & ops & E); [apply Hb|apply Hb|done|done|done|]. assert (Ew : write fuel (cryptor f) (fd f) (Z.of_nat p * encryption_page_size) (page_at m k) = Ok (cr, do_ops (fd f) ops)) by (unfold write; by rewrite E).
  exists cr, (do_ops (fd f) ops). split; [done|]. split; [by apply (page_write_ok key _ _ _ _ _ _ _ (b_disk _ Hb) (b_cryptor _ Hb) Hcap Hx' Ew)|]. destruct (page_write_ok key _ _ _ _ _ _ _ (b_disk _ Hb) (b_cryptor _ Hb) Hcap Hx' Ew) as (W1 & W2 & W3 & W4 & W5 & W6). set (s := clear_Dirty (page_state m k)).
  replace (put_state m k s) with (put_state (put_page m k (page_at m k)) k s).
  2: { unfold put_state, put_page. cbn. f_equal. apply list_insert_id. unfold page_at. destruct (lookup_lt_is_Some_2 (m_memory m) k) as [s0 E0]; [rewrite (mo_memory _ _ Hmi); lia|]. by rewrite (nth_lookup_Some _ _ _ _ E0). }
  destruct (put_both m k (page_at m k) s _ Hmi Hk Hx ltac:(done)) as (H1 & H2 & H3 & H4). rewrite <- Ep in H3, H4. set (m' := put_state _ k s) in *. assert (Hii : (i < length (slots f p))%nat) by (by eapply lookup_lt_Some).
  split; [split; [done|done|cbn [with_mapping mappings cryptor]; rewrite W3; apply Forall_insert; [apply Hb|done]]|]. intros q. unfold coherent. rewrite slots_with. change (slots (mkEncryptedFile _ _ (mappings f)) q) with (slots f q). cbn [with_mapping fd].
  destruct (decide (q = p)) as [->|Hne].
  - rewrite H3, Hl, W4. split; [|split; [done|by right]]. intros j s' x' Ej. destruct (decide (j = i)) as [->|Hne]; [rewrite list_lookup_insert_eq in Ej by done; injection Ej as <- <-; by unfold s|]. rewrite list_lookup_insert_ne in Ej by done. rewrite <- Hl. by apply (proj1 (Hco p) j).
  - rewrite H4 by done. rewrite list_insert_id by (by apply slots_lookup). destruct (Hco q) as [K1 K2]. split; [done|]. destruct (W5 q Hne) as [V1 V2]. unfold backed in *. destruct (L q) as [y|].
    + destruct K2 as [K2 [K3|K3]]; (split; [done|]); [by left|right]. by apply (view_keeps key (fd f)).
    + pose proof (view_cases key (disk_iv (fd f) q) (fd f) q) as Hv. unfold page_on_disk in *. destruct (view key (disk_iv (fd f) q) (fd f) q) as [r o]. cbn in K2. subst r. destruct Hv as [Hv _]. unfold view. by rewrite V1, Hv.
Qed.

Lemma flush_pages_ok fuel n f i m k L : holds_contents f L -> mappings f !! i = Some m -> (k + n <= length (m_page_state m))%nat -> (2 <= fuel)%nat ->
  exists f' m', flush_pages fuel n f i k = Ok f' /\ holds_contents f' L /\ cr_capacity (cryptor f') = cr_capacity (cryptor f) /\ mappings f' = <[i := m']> (mappings f) /\ shape m' = shape m /\ m_memory m' = m_memory m /\
    (forall j, (k <= j < k + n)%nat -> Dirty (page_state m' j) = false) /\ (forall j, Dirty (page_state m j) = false -> Dirty (page_state m' j) = false).
Proof.
  revert f m k. induction n as [|n IH]; intros f m k Hh Hi Hk Hf; cbn [flush_pages].
  - exists f, m. split_and!; try done; [by rewrite list_insert_id|lia].
  - rewrite (mapping_at_lookup f i m Hi). destruct (Dirty (page_state m k)) eqn:Ed; cbn [negb].
    + destruct (flush_page_ok fuel f i m k L Hh Hi ltac:(lia) Ed Hf) as (cr & d & -> & Hcap & Hh1). cbn [mbind result_bind]. set (m1 := put_state m k _) in *. change (mappings (mkEncryptedFile d cr (mappings f))) with (mappings f) in *.
      destruct (IH (with_mapping (mkEncryptedFile d cr (mappings f)) i m1) m1 (S k)) as (f' & m' & E & H1 & H0 & H2 & H3 & H4 & H5 & H6); [done|cbn; apply list_lookup_insert_eq; by eapply lookup_lt_Some|cbn; rewrite length_insert; lia|done|].
      assert (Hm1 : forall j, page_state m1 j = if decide (j = k) then clear_Dirty (page_state m k) else page_state m j) by (intros j; apply page_state_insert; lia).
      exists f', m'. split_and!; [done|done|by rewrite H0|by rewrite H2; cbn; rewrite list_insert_insert_eq|rewrite H3; unfold shape; cbn; by rewrite length_insert|done| |].
      * intros j Hj. destruct (decide (j = k)) as [->|Hne]; [apply H6; by rewrite Hm1, decide_True|apply H5; lia].
      * intros j Hj. apply H6. rewrite Hm1. by destruct (decide (j = k)).
    + destruct (IH f m (S k)) as (f' & m' & E & H1 & H0 & H2 & H3 & H4 & H5 & H6); [done|done|lia|done|]. exists f', m'. split_and!; try done. intros j Hj. destruct (decide (j = k)) as [->|Hne]; [by apply H6|apply H5; lia].
Qed.

Lemma mapping_ok_cap cap cap' m : (cap <= cap')%nat -> mapping_ok cap m -> mapping_ok cap' m.
Proof. intros Hc [M P K A]. split; try done. lia. Qed.

Lemma iv_table_size_pages n : 0 <= n -> n <= iv_table_size (n * encryption_page_size).
Proof. intros Hn. unfold iv_table_size, block_count, page_count. rewrite pages_per_block_eq. unfold encryption_page_size. dlia. Qed.

Lemma add_mapping_ok f L memory first n rw : holds_contents f L -> length memory = n -> Forall (fun x : page => length x = 4096%nat) memory ->
  exists f', add_mapping f memory (Z.of_nat first * encryption_page_size) (Z.of_nat n * encryption_page_size) rw = Ok f' /\ holds_contents f' L /\ fd f' = fd f /\ mappings f' = mappings f ++ [mkMapping first (repeat Clean n) memory rw].
Proof.
  intros [[Bd Bc Bm] Hco] Hl Hp. unfold add_mapping. rewrite !Z.mod_mul, !Z.div_mul by done. cbn [Z.eqb negb orb]. rewrite !Nat2Z.id. eexists. split; [done|]. split; [|done]. set (m := mkMapping _ _ _ _).
  destruct (set_data_size_ok key (cryptor f) (fd f) (Z.of_nat first * encryption_page_size + Z.of_nat n * encryption_page_size) Bc) as [Hc Hcap]. pose proof (iv_table_size_pages (Z.of_nat (first + n)) ltac:(lia)) as Hsz. replace (Z.of_nat (first + n) * encryption_page_size) with (Z.of_nat first * encryption_page_size + Z.of_nat n * encryption_page_size) in Hsz by lia.
  split; [split; [done|done|]|].
  - cbn [mappings cryptor]. rewrite Hcap. apply Forall_app. split; [eapply Forall_impl; [|exact Bm]; intros m0; apply mapping_ok_cap; lia|]. constructor; [|done]. split; cbn [m m_memory m_page_state m_first_page m_read_write]; [by rewrite repeat_length|done|rewrite repeat_length; lia|]. intros _. apply Forall_forall. intros s Hs. apply repeat_spec in Hs. by subst s.
  - intros p. destruct (Hco p) as [K1 K2]. unfold coherent, slots. cbn [mappings fd]. rewrite map_app. fold (slots f p). split.
    + intros j s x Ej. apply lookup_app_Some in Ej as [Ej|[_ Ej]]; [by apply (K1 j)|]. destruct (j - length (slots f p))%nat as [|j']; cbn in Ej; [|by destruct j']. injection Ej as Ej. apply slot_Some in Ej as (k & _ & Hk & -> & _). unfold page_state, m. cbn [m_page_state]. by rewrite nth_repeat.
    + unfold backed in *. destruct (L p); [|done]. destruct K2 as [K2 [(j & s & x & Ej & Hd)|K3]]; (split; [done|]); [left|by right]. exists j, s, x. split; [|done]. by apply lookup_app_l_Some.
Qed.

Lemma do_flush_ok fuel f i m L : holds_contents f L -> mappings f !! i = Some m -> (2 <= fuel)%nat ->
  exists f' m', do_flush fuel f i = Ok f' /\ holds_contents f' L /\ cr_capacity (cryptor f') = cr_capacity (cryptor f) /\ mappings f' = <[i := m']> (mappings f) /\ shape m' = shape m /\ Forall (fun s => Dirty s = false) (m_page_state m').
Proof.
  intros Hh Hi Hf. unfold do_flush. rewrite (mapping_at_lookup f i m Hi). destruct (flush_pages_ok fuel (length (m_page_state m)) f i m 0 L Hh Hi ltac:(lia) Hf) as (f' & m' & -> & H1 & H0 & H2 & H3 & _ & H5 & _). exists f', m'. split_and!; try done.
  apply Forall_lookup_2. intros j s Hj. injection H3 as _ Hl _. apply lookup_lt_Some in Hj as Hlt. specialize (H5 j ltac:(lia)). unfold page_state in H5. by rewrite (nth_lookup_Some _ _ _ _ Hj) in H5.
Qed.

(** A mapping without pages to write can be taken away. *)
Lemma drop_mapping_ok f i m L : holds_contents f L -> mappings f !! i = Some m -> Forall (fun s => Dirty s = false) (m_page_state m) -> holds_contents (mkEncryptedFile (fd f) (cryptor f) (list_erase_range i (S i) (mappings f))) L.
Proof.
  intros [[Bd Bc Bm] Hco] Hi Hc. unfold list_erase_range. split; [split; [done|done|cbn [mappings cryptor]; apply Forall_app; split; [by apply Forall_take|by apply Forall_drop]]|]. intros p. destruct (Hco p) as [K1 K2]. unfold coherent. cbn [fd].
  assert (Es : slots (mkEncryptedFile (fd f) (cryptor f) (take i (mappings f) ++ drop (S i) (mappings f))) p = take i (slots f p) ++ drop (S i) (slots f p)) by (unfold slots; cbn [mappings]; by rewrite map_app, firstn_map, skipn_map). rewrite Es. assert (Hlt : (i < length (slots f p))%nat) by (eapply lookup_lt_Some; by apply slots_lookup). split.
  - intros j s x Ej. apply lookup_app_Some in Ej as [Ej|[_ Ej]]; [apply lookup_take_Some in Ej as [Ej _]; by apply (K1 j)|]. rewrite lookup_drop in Ej. by apply (K1 _ s x Ej).
  - unfold backed in *. destruct (L p); [|done]. destruct K2 as [K2 [(j & s & x & Ej & Hd)|K3]]; (split; [done|]); [left|by right]. exists (if (j <? i)%nat then j else (j - 1)%nat), s, x. split; [|done].
    assert (Hne : j <> i). { intros ->. rewrite (slots_lookup f i m p Hi) in Ej. injection Ej as Ej. apply slot_Some in Ej as (k & _ & Hk & -> & _). pose proof (proj1 (Forall_nth (fun s => Dirty s = false) (m_page_state m)) Hc k Clean Hk) as Hcl. unfold page_state in Hd. congruence. }
    destruct (Nat.ltb_spec j i); [rewrite lookup_app_l by (rewrite length_take; lia); by rewrite lookup_take_lt|]. rewrite lookup_app_r by (rewrite length_take; lia). rewrite length_take, lookup_drop. rewrite <- Ej. f_equal. lia.
Qed.

Lemma remove_mapping_ok fuel f i m L : holds_contents f L -> mappings f !! i = Some m -> (2 <= fuel)%nat -> exists f', remove_mapping fuel f i = Ok f' /\ holds_contents f' L.
Proof.
  intros Hh Hi Hf. unfold remove_mapping. rewrite (mapping_at_lookup f i m Hi). assert (Hw : existsb Writable (m_page_state m) = false).
  { apply not_true_iff_false. intros (s & Hs & Hw)%existsb_exists. apply list_elem_of_In, list_elem_of_lookup_1 in Hs as [k Hk]. pose proof (slots_lookup f i m (m_first_page m + k) Hi) as Hsl. rewrite slot_in in Hsl by (by eapply lookup_lt_Some). unfold page_state in Hsl. rewrite (nth_lookup_Some _ _ _ _ Hk) in Hsl. apply (proj1 (proj2 Hh _)) in Hsl as [Hsl _]. congruence. }
  rewrite Hw. destruct (m_read_write m) eqn:Er.
  - destruct (do_flush_ok fuel f i m L Hh Hi Hf) as (f' & m' & -> & H1 & _ & H2 & _ & H4). cbn [mbind result_bind]. apply lookup_lt_Some in Hi as Hlt. assert (Hlt' : (i < length (mappings f'))%nat) by (rewrite H2, length_insert; done). rewrite (proj2 (Nat.ltb_lt _ _) Hlt'). cbn [negb]. eexists. split; [done|]. apply (drop_mapping_ok f' i m'); [done|rewrite H2; by apply list_lookup_insert_eq|done].
  - cbn [mbind result_bind]. apply lookup_lt_Some in Hi as Hlt. rewrite (proj2 (Nat.ltb_lt _ _) Hlt). cbn [negb]. eexists. split; [done|]. apply (drop_mapping_ok f i m); [done|done|]. apply (mo_access _ _ (Forall_lookup_1 _ _ _ _ (b_mappings _ (proj1 Hh)) Hi) Er).
Qed.

(** ** Other ranges for a mapping *)

Lemma set_data_size_holds f L size : holds_contents f L -> holds_contents (with_cryptor f (set_data_size (cryptor f) size)) L /\ (Z.to_nat (iv_table_size size) <= cr_capacity (set_data_size (cryptor f) size))%nat.
Proof.
  intros [[Bd Bc Bm] Hco]. destruct (set_data_size_ok key (cryptor f) (fd f) size Bc) as [Hc Hcap]. split; [|lia]. split; [split; [done|done|]|exact Hco]. cbn [with_cryptor mappings cryptor]. rewrite Hcap. eapply Forall_impl; [|exact Bm]. intros m0. apply mapping_ok_cap. lia.
Qed.

(** A mapping in place of one with nothing to write, with every page of it that is not [Clean] as before. *)
Lemma replace_mapping_ok f i m m' L : holds_contents f L -> mappings f !! i = Some m -> mapping_ok (cr_capacity (cryptor f)) m' ->
  (forall p s x, slot m' p = Some (s, x) -> slot m p = Some (s, x) \/ s = Clean) -> (forall p s x, slot m p = Some (s, x) -> Dirty s = true -> slot m' p = Some (s, x)) -> holds_contents (with_mapping f i m') L.
Proof.
  intros [[Bd Bc Bm] Hco] Hi Hm Hs Hd. split; [split; [done|done|cbn [with_mapping mappings cryptor]; by apply Forall_insert]|]. intros p. destruct (Hco p) as [K1 K2]. pose proof (slots_lookup f i m p Hi) as Hsl. assert (Hlt : (i < length (slots f p))%nat) by (by eapply lookup_lt_Some). unfold coherent. rewrite slots_with. cbn [with_mapping fd]. split.
  - intros j s x Ej. destruct (decide (j = i)) as [->|Hne]; [|rewrite list_lookup_insert_ne in Ej by done; by apply (K1 j)]. rewrite list_lookup_insert_eq in Ej by done. injection Ej as Ej. destruct (Hs p s x Ej) as [E| ->]; [|done]. apply (K1 i). by rewrite Hsl, E.
  - unfold backed in *. destruct (L p); [|done]. destruct K2 as [K2 [(j & s & x & Ej & Hdi)|K3]]; (split; [done|]); [left|by right]. exists j, s, x. split; [|done]. destruct (decide (j = i)) as [->|Hne]; [|by rewrite list_lookup_insert_ne]. rewrite list_lookup_insert_eq by done. rewrite Hsl in Ej. injection Ej as Ej. by rewrite (Hd p s x Ej Hdi).
Qed.

Lemma set_mapping_ok fuel f i m memory first n L : holds_contents f L -> mappings f !! i = Some m -> (2 <= fuel)%nat -> length memory = n -> Forall (fun x : page => length x = 4096%nat) memory ->
  exists f', set_mapping fuel f i memory (Z.of_nat n * encryption_page_size) (Z.of_nat first * encryption_page_size) = Ok f' /\ holds_contents f' L.
Proof.
  intros Hh Hi Hf Hl Hp. unfold set_mapping. rewrite !Z.mod_mul, !Z.div_mul by done. cbn [Z.eqb negb orb]. rewrite !Nat2Z.id. destruct (set_data_size_holds f L (Z.of_nat first * encryption_page_size + Z.of_nat n * encryption_page_size) Hh) as [Hh1 Hcap]. set (f1 := with_cryptor f _) in *.
  destruct (do_flush_ok fuel f1 i m L Hh1 Hi Hf) as (f2 & m2 & E & Hh2 & Hcap2 & Hm2 & Hs2 & Hc2). rewrite E. cbn [mbind result_bind]. assert (Hi2 : mappings f2 !! i = Some m2) by (rewrite Hm2; apply list_lookup_insert_eq; by eapply lookup_lt_Some). rewrite (mapping_at_lookup f2 i m2 Hi2). eexists. split; [done|].
  assert (Hcl : forall mem rw p s x, slot (mkMapping first (repeat Clean n) mem rw) p = Some (s, x) -> s = Clean) by (intros mem rw p s x E1; apply slot_Some in E1 as (k & _ & _ & -> & _); unfold page_state; cbn; apply nth_repeat).
  apply (replace_mapping_ok f2 i m2); [done|done| |intros p s x E1; right; by eapply Hcl|].
  - split; cbn [m_memory m_page_state m_first_page m_read_write]; [by rewrite repeat_length|done| |intros _; apply Forall_forall; intros s Hs; apply repeat_spec in Hs; by subst s]. rewrite repeat_length, Hcap2. pose proof (iv_table_size_pages (Z.of_nat (first + n)) ltac:(lia)) as Hsz. replace (Z.of_nat (first + n) * encryption_page_size) with (Z.of_nat first * encryption_page_size + Z.of_nat n * encryption_page_size) in Hsz by lia. cbn [f1 with_cryptor cryptor]. lia.
  - intros p s x E1 Hd. exfalso. apply slot_Some in E1 as (k & _ & Hk & -> & _). pose proof (proj1 (Forall_nth (fun s => Dirty s = false) (m_page_state m2)) Hc2 k Clean Hk) as Hcl2. unfold page_state in Hd. congruence.
Qed.

(** The memory of a longer mapping begins with that of the mapping. *)
Lemma extend_to_ok f i m memory n L : holds_contents f L -> mappings f !! i = Some m -> length memory = n -> Forall (fun x : page => length x = 4096%nat) memory -> m_memory m `prefix_of` memory ->
  exists f', extend_to f i (Z.of_nat (m_first_page m) * encryption_page_size) (Z.of_nat n * encryption_page_size) memory = Ok f' /\ holds_contents f' L.
Proof.
  intros Hh Hi Hl Hp [rest ->]. unfold extend_to. rewrite Z.mod_mul by done. cbn [Z.eqb negb]. rewrite (mapping_at_lookup f i m Hi). destruct (set_data_size_holds f L (Z.of_nat (m_first_page m) * encryption_page_size + Z.of_nat n * encryption_page_size) Hh) as [Hh1 Hcap]. set (f1 := with_cryptor f _) in *.
  eexists. split; [done|]. pose proof (Forall_lookup_1 _ _ _ _ (b_mappings _ (proj1 Hh)) Hi) as Hmi. pose proof (mo_memory _ _ Hmi) as Hml. rewrite length_app in Hl. replace (Z.to_nat (page_count (Z.of_nat n * encryption_page_size))) with n by (unfold page_count, encryption_page_size; dlia). rewrite resize_grow by lia.
  set (m' := mkMapping _ _ _ _). assert (Hlen : length (m_page_state m') = n) by (cbn; rewrite length_app, repeat_length; lia).
  assert (Hold : forall k, (k < length (m_page_state m))%nat -> page_state m' k = page_state m k /\ page_at m' k = page_at m k) by (intros k Hk; unfold page_state, page_at; cbn; rewrite !app_nth1 by lia; done).
  apply (replace_mapping_ok f1 i m); [done|done| | |].
  - split; [cbn; rewrite !length_app, repeat_length; lia|done| |].
    + rewrite Hlen. pose proof (iv_table_size_pages (Z.of_nat (m_first_page m + n)) ltac:(lia)) as Hsz. replace (Z.of_nat (m_first_page m + n) * encryption_page_size) with (Z.of_nat (m_first_page m) * encryption_page_size + Z.of_nat n * encryption_page_size) in Hsz by lia. cbn [f1 with_cryptor cryptor m' m_first_page]. lia.
    + cbn. intros Hr. apply Forall_app. split; [by apply (mo_access _ _ Hmi)|]. apply Forall_forall. intros s Hs. apply repeat_spec in Hs. by subst s.
  - intros p s x E. apply slot_Some in E as (k & -> & Hk & -> & ->). change (m_first_page m') with (m_first_page m). destruct (Nat.lt_ge_cases k (length (m_page_state m))) as [Hlt|Hge]; [left; rewrite slot_in by done; by destruct (Hold k Hlt) as [-> ->]|right]. unfold page_state. cbn. rewrite app_nth2 by lia. apply nth_repeat.
  - intros p s x E _. apply slot_Some in E as (k & -> & Hk & -> & ->). change (m_first_page m) with (m_first_page m'). rewrite slot_in by lia. by destruct (Hold k Hk) as [-> ->].
Qed.
End Cryptor.
