(* ===== verification/EncryptedFileTheorems.v ===== *)
(** * Encrypted files: the claims on the layout, on interrupted writes and on the mappings of a file *)

From S2P Require Import Prelude Bytes EncryptedFile EncryptedFileInv EncryptedFileCoherence.

(** ** Layout *)

Lemma file_pos_roundtrip pos : 0 <= pos -> file_pos_to_data_pos (data_pos_to_file_pos pos) = pos.
Proof.
  intros Hp. unfold file_pos_to_data_pos, data_pos_to_file_pos, block_index, page_index. rewrite pages_per_block_eq. unfold encryption_page_size.
  set (q := pos / 4096). assert (0 <= q) by (apply Z.div_pos; lia). replace ((pos + (q / 64 + 1) * 4096) / 4096) with (q + (q / 64 + 1)) by (rewrite Z.div_add; unfold q; lia). dlia.
Qed.

(** Data positions and file positions correspond: a data position is recovered from its
    file position, a data size rounded up to a page from the size of the encrypted file, a page lies
    in one piece, and no page shares a byte with another page or with any table. *)
Theorem encrypted_layout pos p q : 0 <= pos ->
  file_pos_to_data_pos (data_pos_to_file_pos pos) = pos /\
  encrypted_size_to_data_size (data_size_to_encrypted_size pos) = page_count pos * encryption_page_size /\
  data_pos_to_file_pos pos = data_pos_to_file_pos (page_index pos * encryption_page_size) + pos mod encryption_page_size /\
  (p <> q -> fpos p + encryption_page_size <= fpos q \/ fpos q + encryption_page_size <= fpos p) /\
  (p <> q -> tpos p + metadata_size <= tpos q \/ tpos q + metadata_size <= tpos p) /\
  (tpos p + metadata_size <= fpos q \/ fpos q + encryption_page_size <= tpos p).
Proof.
  intros Hp. split_and!; [by apply file_pos_roundtrip| | |apply pages_apart|apply tables_apart|apply table_page_apart].
  - unfold data_size_to_encrypted_size. assert (E : pos + (if negb (pos mod encryption_page_size =? 0) then encryption_page_size - pos mod encryption_page_size else 0) = page_count pos * encryption_page_size) by (unfold page_count, encryption_page_size; destruct (Z.eqb_spec (pos mod 4096) 0); cbn [negb]; dlia).
    rewrite E. assert (0 <= page_count pos * encryption_page_size) by (unfold page_count, encryption_page_size; dlia). unfold encrypted_size_to_data_size. rewrite file_pos_roundtrip by done.
    rewrite (proj2 (Z.eqb_neq _ _)); [done|]. unfold data_pos_to_file_pos, block_index, page_index. rewrite pages_per_block_eq. unfold encryption_page_size in *. dlia.
  - unfold data_pos_to_file_pos, block_index, page_index. rewrite pages_per_block_eq. unfold encryption_page_size. rewrite Z.div_mul by lia. dlia.
Qed.

Lemma encrypted_layout_witness : file_pos_to_data_pos (data_pos_to_file_pos 262145) = 262145 /\ fpos 63 = 262144 /\ fpos 64 = 270336.
Proof. split; [apply (encrypted_layout 262145 63 64); lia|by split]. Defined.

(** ** Interrupted writes *)

Section Cryptor.
Context {C : Cipher} {CS : CipherSpec}.
Context (key : list Z).

(** A process that opens the file anew. *)
Definition reopened (size : Z) : AESCryptor := set_data_size (new_cryptor key) size.

(** Reading page [p] in a process that opens the file anew. *)
Definition reads_as (d : Disk) (size : Z) (p : nat) (r : ReadResult * option page) : Prop :=
  exists o cr, attempt_read (reopened size) d (Z.of_nat p * encryption_page_size) UseCache = Ok (r, o, cr).

Lemma reads_page d size p : disk_ok d -> Z.of_nat p < iv_table_size size -> reads_as d size p (page_on_disk key d p).
Proof.
  intros Hd Hp. destruct (fresh_cryptor_ok key d size) as [Hc Hcap]. destruct (attempt_read_ok key _ d p Hd Hc) as (o & cr & E & _); [rewrite Hcap; lia|]. by eexists _, _.
Qed.

(** With the new table and the old page, a page that was never written is not taken for damaged. *)
Lemma first_write_view cr d p src t pg d' : stores key cr d p src t pg -> disk_iv d' p = t -> iv1 (disk_iv d p) = 0 -> (page_on_disk key d' p).1 <> Failed /\ (page_on_disk key d' p).1 <> StaleHmac.
Proof.
  intros [L I P H A (t0 & Hs & Ho & _)] Et H0. assert (E2 : iv2 t = 0).
  { destruct Hs as [->|(_ & _ & Hn & _)]; [|done]. unfold iv2. rewrite Ho, take_take. replace (4 `min` 32)%nat with 4%nat by done. exact H0. }
  unfold page_on_disk, view. rewrite Et, E2. destruct (iv1 t =? 0); [done|]. destruct (_ <? _); [done|]. by destruct (bool_decide _).
Qed.

Lemma reads_as_eq d size p r : disk_ok d -> Z.of_nat p < iv_table_size size -> reads_as d size p r -> r = page_on_disk key d p.
Proof. intros Hd Hp (o & cr & E). destruct (reads_page d size p Hd Hp) as (o' & cr' & E'). rewrite E in E'. by injection E'. Qed.

(** The file after some of the stores of a write. *)
Lemma stores_prefix cr d p src t pg k : disk_ok d -> Z.of_nat (length src) = encryption_page_size -> stores key cr d p src t pg ->
  let d' := do_ops d (take k [(tpos p, t); (fpos p, pg)]) in
  disk_ok d' /\ d_size d <= d_size d' /\ (forall q, q <> p -> disk_iv d' q = disk_iv d q /\ disk_page d' q = disk_page d q) /\
  (k = 0%nat /\ d' = d \/ k = 1%nat /\ disk_iv d' p = t /\ disk_page d' p = disk_page d p \/ (2 <= k)%nat /\ page_on_disk key d' p = (Success, Some src)).
Proof.
  intros Hd Hl Hst. destruct (table_stored d p t Hd (st_length _ _ _ _ _ _ _ Hst)) as (D1 & T1 & T2 & T3 & T4). destruct (page_stored _ p pg D1 (stores_length key _ _ _ _ _ _ Hl Hst)) as (D2 & P1 & P2 & P3 & P4 & P5).
  destruct k as [|[|k]]; cbn [take do_ops foldl fst snd]; [| |rewrite take_nil; cbn [foldl]].
  - split_and!; try done. by left.
  - split_and!; [done|done|intros q Hq; by rewrite T2, T3|]. right. left. by split_and!.
  - split_and!; [done|lia|intros q Hq; by rewrite P3, P2, T2, T3|]. do 2 right. split; [lia|]. eapply stored_view; [done|exact Hst|by rewrite P3|done|lia].
Qed.


(** The order of the two stores is needed.  When a page that reads well is written again
    and its store reaches the disk before that of its table, the file read anew has neither the old
    page nor the new one, if the new digest is not by chance the one before the last. *)
Theorem page_before_table_lost cr d p src fuel size cr' o_table o_page :
  disk_ok d -> cr_ok key cr d -> (p < cr_capacity cr)%nat -> Z.of_nat (length src) = encryption_page_size -> Z.of_nat p < iv_table_size size ->
  digest key d p = hmac1 (disk_iv d p) -> iv1 (disk_iv d p) <> 0 ->
  write_ops fuel cr d (Z.of_nat p * encryption_page_size) src = Ok (cr', [o_table; o_page]) -> hmac1 o_table.2 <> hmac2 (disk_iv d p) ->
  exists r, reads_as (do_ops d [o_page]) size p (r, None).
Proof.
  intros Hd Hc Hp Hl Hs Hdg Hiv Ew Hne. destruct (write_ops_ok key fuel cr d p src cr' _ Hd Hc Hp Ew) as (t & pg & [= -> ->] & Hst & _). destruct (page_stored d p pg Hd (stores_length key _ _ _ _ _ _ Hl Hst)) as (D & P1 & _ & P3 & _ & P5).
  cbn [do_ops foldl fst snd] in *. pose proof (reads_page _ size p D Hs) as Hr. destruct Hst as [L I P H A (t0 & Hsame & Ho & _)]. assert (t0 = disk_iv d p) as -> by (destruct Hsame as [->|(_ & _ & _ & _ & Hn & _)]; done).
  assert (E2 : hmac2 t = hmac1 (disk_iv d p)) by (unfold hmac2, hmac1; change 36%nat with (32 + 4)%nat; rewrite <- drop_drop, Ho, skipn_firstn_comm, take_take; reflexivity). rewrite E2, H in A. rewrite H in Hne.
  unfold page_on_disk, view, digest in Hr. rewrite P3, P1 in Hr. rewrite (proj2 (Z.eqb_neq _ _)) in Hr by done. rewrite (proj2 (Z.ltb_ge _ _)) in Hr by lia.
  rewrite (bool_decide_eq_false_2 _ A), (bool_decide_eq_false_2 _ Hne) in Hr. destruct (iv2 _ =? 0); [by eexists|]. destruct (forallb _ _); by eexists.
Qed.
End Cryptor.

Definition empty_disk : Disk := mkDisk (fun _ => 0) 0.

(** An empty file, in which page 0 is written. *)
Lemma written_once {C : Cipher} {CS : CipherSpec} key src : Z.of_nat (length src) = encryption_page_size ->
  exists cr d, disk_ok d /\ cr_ok key cr d /\ cr_capacity cr = 64%nat /\ page_on_disk key d 0 = (Success, Some src).
Proof.
  intros Hl. assert (H0 : disk_ok empty_disk) by done. destruct (fresh_cryptor_ok key empty_disk 4096) as [Hc Hcap]. change (Z.to_nat (iv_table_size 4096)) with 64%nat in Hcap. fold (reopened key 4096) in *.
  destruct (write_ops_total key 2 (reopened key 4096) empty_disk 0 src) as (cr & ops & E); [done|done|lia|done|done|].
  destruct (page_write_ok key 2 (reopened key 4096) empty_disk 0 src cr (do_ops empty_disk ops)) as (D & K & Kc & V & _); [done|done|lia|done|unfold write; by rewrite E|]. exists cr, (do_ops empty_disk ops). split_and!; [done|done|lia|done].
Qed.


(** A file with page 0 written once, all sevens. *)
Definition disk_of_sevens : Disk :=
  let t := le_bytes 4 1 ++ (6 :: repeat 0 27) ++ repeat 0 32 in
  do_ops empty_disk [(0, t); (4096, repeat 6 4096)].

Lemma page_before_table_lost_witness : exists o_table o_page cr' r,
  @write_ops xor_cipher 2 (reopened [] 4096) disk_of_sevens 0 (repeat 9 4096) = Ok (cr', [o_table; o_page]) /\ @reads_as xor_cipher [] (do_ops disk_of_sevens [o_page]) 4096 0 (r, None).
Proof.
  pose proof xor_cipher_spec as CS. assert (Hd : disk_ok disk_of_sevens) by (repeat apply write_static_ok; done). destruct (@fresh_cryptor_ok xor_cipher [] disk_of_sevens 4096) as [Hc Hcap].
  assert (E : match @write_ops xor_cipher 2 (reopened [] 4096) disk_of_sevens 0 (repeat 9 4096) with Ok (_, [a; b]) => bool_decide (hmac1 a.2 <> hmac2 (disk_iv disk_of_sevens 0)) | _ => false end = true) by (vm_compute; reflexivity).
  destruct (@write_ops xor_cipher 2 _ _ _ _) as [[cr' [|a [|b [|]]]]| |] eqn:Ew; try discriminate. apply bool_decide_eq_true in E.
  assert (H0 : bool_decide (@digest xor_cipher [] disk_of_sevens 0 = hmac1 (disk_iv disk_of_sevens 0)) && negb (iv1 (disk_iv disk_of_sevens 0) =? 0) = true) by (vm_compute; reflexivity).
  apply andb_true_iff in H0 as [H1 H2]. apply bool_decide_eq_true in H1. apply negb_true_iff, Z.eqb_neq in H2. assert (Hp : (0 < cr_capacity (reopened [] 4096))%nat) by (vm_compute; lia).
  destruct (@page_before_table_lost xor_cipher CS [] _ _ 0 (repeat 9 4096) 2 4096 cr' a b Hd Hc Hp eq_refl eq_refl H1 H2 Ew E) as [r Hr]. exists a, b, cr', r. by split.
Defined.

(** ** The mappings of a process that is alone with the file *)

(** What a process does with its mappings.  A change is made and announced before another
    operation begins.  The memory at the place of a mapping is given page by page. *)
Inductive file_op :=
| AddMapping (memory : list page) (first : nat) (read_write : bool)
| RemoveMapping (i : nat)
| SetMapping (i : nat) (memory : list page) (first : nat)
| ExtendTo (i : nat) (memory : list page)
| Modify (i : nat) (addr : Z) (data : list Z)
| Read (i : nat) (addr size : Z)
| Flush (i : nat).

Section Runs.
Context {C : Cipher} {CS : CipherSpec}.
Context (key : list Z) (fuel : nat).

Definition bytes_of (memory : list page) : Z := Z.of_nat (length memory) * encryption_page_size.

Definition exec (f : EncryptedFile) (op : file_op) : result EncryptedFile :=
  match op with
  | AddMapping memory first rw => add_mapping f memory (Z.of_nat first * encryption_page_size) (bytes_of memory) rw
  | RemoveMapping i => remove_mapping fuel f i
  | SetMapping i memory first => set_mapping fuel f i memory (bytes_of memory) (Z.of_nat first * encryption_page_size)
  | ExtendTo i memory => extend_to f i (Z.of_nat (m_first_page (mapping_at f i)) * encryption_page_size) (bytes_of memory) memory
  | Modify i addr data => modify f i addr data
  | Read i addr size => read_barrier (fun _ => None) f i addr size false
  | Flush i => do_flush fuel f i
  end.

Definition whole_pages (memory : list page) : Prop := Forall (fun x : page => Z.of_nat (length x) = encryption_page_size) memory.
Definition within (m : Mapping) (addr size : Z) : Prop := 0 <= addr /\ 0 < size /\ addr + size <= Z.of_nat (length (m_page_state m)) * encryption_page_size.

(** What the caller has to respect. *)
Definition valid (f : EncryptedFile) (op : file_op) : Prop :=
  match op with
  | AddMapping memory _ _ => whole_pages memory
  | RemoveMapping i | Flush i => is_Some (mappings f !! i)
  | SetMapping i memory _ => is_Some (mappings f !! i) /\ whole_pages memory
  | ExtendTo i memory => exists m, mappings f !! i = Some m /\ whole_pages memory /\ m_memory m `prefix_of` memory
  | Modify i addr data => exists m, mappings f !! i = Some m /\ m_read_write m = true /\ within m addr (Z.of_nat (length data))
  | Read i addr size => exists m, mappings f !! i = Some m /\ within m addr size
  end.

(** The contents of the pages after an operation. *)
Definition next (f : EncryptedFile) (L : nat -> option page) (op : file_op) : nat -> option page :=
  match op with Modify i addr data => after_modify (mapping_at f i) addr data L | _ => L end.

(** From the opening of a file whose pages are whole or never written. *)
Inductive reachable : EncryptedFile -> (nat -> option page) -> Prop :=
| at_open d L : disk_ok d ->
    (forall p, match L p with Some x => Z.of_nat (length x) = encryption_page_size /\ page_on_disk key d p = (Success, Some x) | None => page_on_disk key d p = (Uninitialized, None) end) ->
    reachable (mkEncryptedFile d (new_cryptor key) []) L
| at_step f L op f' : reachable f L -> valid f op -> exec f op = Ok f' -> reachable f' (next f L op).

Lemma whole_pages_nat memory : whole_pages memory -> Forall (fun x : page => length x = 4096%nat) memory.
Proof. apply Forall_impl. intros x Hx. apply Nat2Z.inj. exact Hx. Qed.

Lemma exec_ok f L op : (2 <= fuel)%nat -> holds_contents key f L -> valid f op ->
  (exists f', exec f op = Ok f' /\ holds_contents key f' (next f L op)) \/
  (exec f op = Throw DecryptionFailed /\ exists i m addr size j, op = Read i addr size /\ mappings f !! i = Some m /\ (first_of addr <= j < first_of addr + pages_of addr size)%nat /\ L (m_first_page m + j)%nat = None).
Proof.
  intros Hf Hh Hv. destruct op as [memory first rw|i|i memory first|i memory|i addr data|i addr size|i]; cbn [exec valid next] in *.
  - left. destruct (add_mapping_ok key f L memory first (length memory) rw Hh) as (f' & E & H & _); [done|by apply whole_pages_nat|]. by exists f'.
  - left. destruct Hv as [m Hi]. by apply (remove_mapping_ok key fuel f i m).
  - left. destruct Hv as [[m Hi] Hp]. apply (set_mapping_ok key fuel f i m); try done. by apply whole_pages_nat.
  - left. destruct Hv as (m & Hi & Hp & Hpre). rewrite (mapping_at_lookup f i m Hi). apply (extend_to_ok key f i m); try done. by apply whole_pages_nat.
  - left. destruct Hv as (m & Hi & Hrw & H0 & H1 & H2). rewrite (mapping_at_lookup f i m Hi). destruct (modify_ok key f i m addr data L Hh Hi Hrw H0) as (f' & E & H & _); [by intros ->|done|]. by exists f'.
  - destruct Hv as (m & Hi & H0 & H1 & H2). destruct (read_ok key f i m addr size L Hh Hi H0 H1 H2) as [(f' & m' & E & H & _)|(E & j & Hj & Hn)]; [left; by exists f'|right]. split; [done|]. by exists i, m, addr, size, j.
  - left. destruct Hv as [m Hi]. destruct (do_flush_ok key fuel f i m L Hh Hi Hf) as (f' & m' & E & H & _). by exists f'.
Qed.

Lemma new_cryptor_ok d : cr_ok key (new_cryptor key) d.
Proof. split; try done. by exists 0%nat. intros b. by destruct b. Qed.

Lemma reachable_holds f L : (2 <= fuel)%nat -> reachable f L -> holds_contents key f L.
Proof.
  intros Hf. induction 1 as [d L Hd HL|f L op f' Hr IH Hv E].
  - split; [split; [done|apply new_cryptor_ok|constructor]|]. intros p. split; [intros j s x Ej; by destruct j|]. specialize (HL p). unfold backed. cbn [fd]. destruct (L p) as [x|]; [|by rewrite HL]. destruct HL as [Hl HL]. split; [by apply Nat2Z.inj|by right].
  - destruct (exec_ok f L op Hf IH Hv) as [(f1 & E1 & H1)|[E1 _]]; rewrite E in E1; [|done]. by injection E1 as <-.
Qed.


End Runs.

Definition zero_page : page := repeat 0 4096.
Definition new_file : EncryptedFile := mkEncryptedFile empty_disk (new_cryptor []) [].

Lemma new_file_reachable : @reachable xor_cipher [] 2 new_file (fun _ => None).
Proof.
  apply (@at_open xor_cipher [] 2); [done|]. intros p. assert (E : disk_iv empty_disk p = iv_empty) by (apply (nth_ext _ _ 0 0); [by rewrite length_disk_iv|]; intros k Hk; rewrite length_disk_iv in Hk; unfold disk_iv; rewrite nth_slice by lia; cbn [empty_disk d_bytes]; symmetry; apply (nth_repeat 0 64)).
  unfold page_on_disk, view. by rewrite E.
Qed.

(** A page is changed in one mapping, and another mapping of it is opened. *)
Lemma two_mappings : exists f L, @reachable xor_cipher [] 2 f L /\ mappings f !! 0%nat <> None /\ mappings f !! 1%nat = Some (mkMapping 0 [Clean] [zero_page] false) /\ length (mappings f) = 2%nat /\ L 0%nat = Some (store_page 0 10 [1; 2; 3] zero_page).
Proof.
  pose proof xor_cipher_spec as CS. pose proof new_file_reachable as R0. assert (Hw : whole_pages [zero_page]) by (constructor; [unfold zero_page; by rewrite repeat_length|constructor]).
  set (m := mkMapping 0 [Clean] [zero_page] true). set (f1 := mkEncryptedFile empty_disk (set_data_size (new_cryptor []) 4096) [m]).
  assert (R1 : @reachable xor_cipher [] 2 f1 (fun _ => None)) by (apply (@at_step xor_cipher [] 2 new_file (fun _ => None) (AddMapping [zero_page] 0 true) f1 R0); [exact Hw|reflexivity]).
  assert (Hv : valid f1 (Modify 0 10 [1; 2; 3])) by (exists m; split; [reflexivity|]; split; [reflexivity|]; unfold within, encryption_page_size; cbn; lia).
  destruct (@modify_ok xor_cipher CS [] f1 0 m 10 [1; 2; 3] (fun _ => None)) as (f2 & E2 & _ & _ & Hs); [by apply (@reachable_holds xor_cipher CS [] 2)|reflexivity|reflexivity|lia|done|unfold encryption_page_size; cbn; lia|].
  pose proof (@at_step xor_cipher [] 2 f1 _ _ f2 R1 Hv E2) as R2. destruct (@add_mapping_ok xor_cipher [] f2 _ [zero_page] 0 1 false (@reachable_holds xor_cipher CS [] 2 _ _ ltac:(lia) R2)) as (f3 & E3 & _ & _ & Hm); [done|by apply whole_pages_nat|].
  assert (Hl2 : length (mappings f2) = 1%nat) by (apply (f_equal length) in Hs; by rewrite !length_map in Hs). eexists f3, _. split; [exact (@at_step xor_cipher [] 2 f2 _ (AddMapping [zero_page] 0 false) f3 R2 Hw E3)|]. rewrite Hm. destruct (mappings f2) as [|m2 [|]]; try done.
Qed.



(** ** Copies that fall behind *)

#[local] Existing Instance xor_cipher.

Definition no_observer : nat -> option Observer := fun _ => None.
Definition sevens_file : EncryptedFile := mkEncryptedFile disk_of_sevens (new_cryptor []) [].

(** The first byte of page 0 in mapping [i], if the page counts as up to date. *)
Definition sees (f : EncryptedFile) (i : nat) : option Z :=
  if UpToDate (page_state (mapping_at f i) 0) then Some (nth 0 (page_at (mapping_at f i) 0) 0) else None.
Definition on_disk (f : EncryptedFile) : option Z := match page_on_disk [] (fd f) 0 with (Success, Some x) => Some (nth 0 x 0) | _ => None end.

(** Byte 0 is changed through mapping 0, which then opens the page again for byte 100; the page
    is read through mapping 1; byte 100 is stored and announced, and all is flushed. *)
Definition overlapping_changes : result EncryptedFile :=
  f ← exec 2 sevens_file (AddMapping [zero_page] 0 true);
  f ← exec 2 f (AddMapping [zero_page] 0 true);
  f ← exec 2 f (Modify 0 0 [1]);
  f ← read_barrier no_observer f 0 100 1 true;
  f ← read_barrier no_observer f 1 0 1 false;
  f ← write_barrier (with_mapping f 0 (store (mapping_at f 0) 100 [2])) 0 100 1;
  f ← exec 2 f (Flush 0);
  read_barrier no_observer f 1 0 1 false.


(** Another process writes page 0. *)
Definition external_write (f : EncryptedFile) (x : page) : result EncryptedFile :=
  '(_, d) ← write 2 (reopened [] 4096) (fd f) 0 x; Ok (mkEncryptedFile d (cryptor f) (mappings f)).

(** Mapping 1 has the page; another process writes it; mapping 0 reads it; the data is marked as
    possibly stale before mapping 0 reads and once more after it; mapping 1 reads the page. *)
Definition marked_twice : result EncryptedFile :=
  f ← exec 2 sevens_file (AddMapping [zero_page] 0 true);
  f ← exec 2 f (AddMapping [zero_page] 0 true);
  f ← read_barrier no_observer f 1 0 1 false;
  f ← external_write f (repeat 9 4096);
  f ← mark_data_as_possibly_stale f;
  f ← read_barrier no_observer f 0 0 1 false;
  f ← mark_data_as_possibly_stale f;
  read_barrier no_observer f 1 0 1 false.

